(* ===== verification/_CoqProject ===== *)
-Q . S2P
Prelude.v
FileSys.v
Decimal.v
Json.v
Msgpack.v
RowView.v
Checksum.v
Durability.v
Store.v
IndexSegment.v
Bloom.v
Sst.v
SstCursor.v
SstQuery.v
SstMerge.v
JsonValue.v
WalIntegrity.v
Wal.v
WalLog.v
WalAppend.v
WalRecovery.v
WalEntries.v
WalReclaim.v
WalScan.v
WalAdmission.v
RaftLog.v
RaftNode.v
RaftAppend.v
RaftElection.v
RaftApply.v
RaftRecovery.v
RaftQuorum.v
LsmManifest.v
LsmProgress.v
LsmDoc.v
LsmCollection.v
LsmLatest.v
LsmCanon.v
LsmReads.v
LsmFlush.v
LsmDurability.v
LsmCrash.v
BTree.v
BTreeShape.v
BTreeHeap.v
BTreeInsert.v
BTreeInner.v
BTreeGrow.v
BTreeOps.v
BTreeReads.v
BTreeMap.v
BTreeIndex.v
Float64.v
JsonCompare.v
Query.v
QueryMeaning.v
QueryLaws.v
UpdateOps.v
Aggregate.v
AggregateLaws.v
MediaUpload.v
Ranked.v
Lexical.v
LexicalInv.v
LexicalOps.v
LexicalSearch.v
VectorTopK.v
VectorJournal.v
VectorFreshness.v
SnapshotBundle.v
Sharding.v
ShardRouting.v
TaskQueue.v
ShardedQueue.v
Compression.v
Ttl.v
LsmCompact.v
LsmCompacted.v
PointRead.v
QueryLimits.v
