(* ===== verification/Prelude.v ===== *)
(** * PacificDB storage engine: a verification development

    PacificDB (src/engine) is a document database.  A write goes through Raft
    (raft_core.cpp): the leader appends it to its log, followers append and
    acknowledge, and what a majority holds is committed and applied.  Applying
    writes the collection's write-ahead log (wal.cpp, wal_integrity.cpp) and a
    memtable, which is flushed to sorted string tables with bloom filters and
    column-index segments (storage_format_v2.cpp).  Blocks, checksums and fsync
    policies come from data_durability.cpp, row and log payloads are MessagePack
    of the vendored JSON library (include/nlohmann).  Reads evaluate JSON filters
    (query_parser.cpp) and aggregation pipelines (community_query.cpp), and an
    index manager keeps B+ trees (btree_index.hpp).  Around the engine, shards of the
    key space are assigned to nodes (shard_manager.cpp), tasks wait in fair queues
    (db_task_queue.cpp) and documents expire (ttl_engine.cpp).  This development models
    these layers in Rocq and proves what makes each of them correct.

    ** Files

    Foundations
    - [Prelude]: bytes, machine words as [Z] with the wrap-around written out,
      little- and big-endian codecs, [result] for exceptions, orders on byte
      strings, tactics and hints.
    - [FileSys], [Store]: the file system, directory listings, metadata caches.
    - [Decimal]: numerals in file names.
    - [Json], [JsonValue]: [nlohmann::json] values and their typed access.
    - [Msgpack]: [binary_writer::write_msgpack] and [binary_reader].
    - [Checksum]: CRC-32, incremental CRC, xxHash64, MurmurHash3, SHA-256.

    Storage format (storage_format_v2.cpp, data_durability.cpp)
    - [RowView]: [MsgpackRowView], fields of an encoded row without decoding it.
    - [Durability]: [DataBlock], [SSTableVerifier], [DurableFileWriter].
    - [IndexSegment]: column-index segments.  [Bloom]: bloom sidecars.
    - [Sst], [SstCursor], [SstQuery], [SstMerge]: SST writer, readers, cursor,
      point lookup and newest-version merge.

    Write-ahead log (wal.cpp, wal_integrity.cpp)
    - [WalIntegrity]: the legacy record format and the clean-shutdown marker.
    - [Wal]: all operations of the segmented log, as functions of a [wal_disk].
    - [WalLog], [WalAppend], [WalRecovery], [WalEntries], [WalReclaim], [WalScan]:
      the log as a list of segments, and what each operation does to it.
    - [WalAdmission]: the atomic word that separates operations from recovery.

    LSM engine (lsm_manifest.cpp, lsm.cpp)
    - [LsmManifest]: the manifest of live SSTs, and how flushes and compactions
      publish it.
    - [LsmProgress]: the applied LSNs.  [LsmDoc]: visibility, versions and ids of
      documents, keys of collections.
    - [LsmCollection]: one collection with its writes, flush, reads and recovery.
    - [LsmLatest], [LsmCanon]: the newest versions of a set of documents, and that
      the stored form of a document reads as the document.
    - [LsmReads], [LsmFlush]: what [getAll] and a flush do to these sets.
      [LsmDurability]: the log, and the invariant that the files hold the collection.  [LsmCrash]: runs of a collection, with crashes.
    - [LsmCompact]: the three phases of a compaction.  [LsmCompacted]: what they do to
      the collection.  [PointRead]: reads by id, through the cache, the memtables, the
      bloom filters and the SSTs.

    Consensus (raft_core.cpp)
    - [RaftLog]: log.bin, its payloads and records, and its rewriting and loading.
    - [RaftNode]: [raft_node], the members of [RaftCore] that decisions read, the
      consensus state file, terms, votes and elections.
    - [RaftAppend]: the handlers of heartbeats, append entries and shipped logs.
    - [RaftElection]: a cluster of nodes as a step function over events.
    - [RaftApply], [RaftRecovery]: applying committed entries and replaying them
      at startup, for any state machine.
    - [RaftQuorum]: quorum index, waiting writers, the leader's commit index.

    Indexes and queries
    - [BTree]: the nodes of the B+ tree in a heap, and its operations.
      [BTreeShape], [BTreeHeap]: the tree a heap holds, and updates of nodes.
      [BTreeInsert], [BTreeInner], [BTreeGrow], [BTreeOps], [BTreeReads]: insertion
      into leaves, inner nodes and the whole tree, removal, reads.  [BTreeMap]: the
      tree as a sorted map.  [BTreeIndex]: [IndexManager].
    - [Float64]: doubles.  [JsonCompare]: [operator==] and numeric access.
    - [Query]: filters, parsed and evaluated.  [QueryMeaning]: conditions and their
      filters.  [QueryLaws]: the regex cache, order, cost, surprising filters.
    - [UpdateOps]: update operators (update_ops.hpp).  [Aggregate],
      [AggregateLaws]: pipelines (community_query.cpp).
    - [MediaUpload]: states and progress of uploads (media_upload_state.cpp).

    Search and snapshots
    - [Ranked]: the order of scores and bounded heaps.  [Lexical]: the lexical index
      (lexical_index.cpp).  [LexicalInv], [LexicalOps], [LexicalSearch]: postings and
      counts, the index as a map from ids to words, BM25 search.
    - [VectorTopK]: the collector of the best documents (vector_top_k.hpp), byte
      budgets (vector_memory_budget.hpp) and rank fusion.
    - [VectorJournal]: the change journal and its registry (vector_change_journal.cpp,
      vector_change_registry.cpp).  [VectorFreshness]: certificates of vector indexes
      as atomic steps (vector_freshness.hpp).
    - [SnapshotBundle]: bundles of artifacts (snapshot_bundle.cpp).

    Around the engine
    - [Sharding]: the shard map with its file (shard_manager.cpp), on [std::map] as a
      sorted list.  [ShardRouting]: ranges, routing and rebalancing.
    - [TaskQueue]: the priority queue with a lane per priority and a round robin over
      collections (db_task_queue.cpp).  [ShardedQueue]: the sharded queue with work
      stealing and the partitioned one (db_task_queue_sharded.cpp,
      db_task_queue_partitioned.cpp).
    - [QueryLimits]: limits and cancellation of requests (query_limiter.cpp,
      query_cancellation.cpp).
    - [Compression]: the compressor and decompressor, [Ttl]: times to live
      (ttl_engine.cpp).

    ** How code is modelled

    Functions keep the names of the source.  A function that throws returns a
    [result]; one that returns false an [option] or [bool]; a handler returns the
    new state with its answer.  What the operating system answers (open, write,
    short write, fsync, rename) is an argument, so theorems quantify over every
    failure, and a crash is a failure followed by a restart.  Code that is not in
    the repository is a class with its documented laws: [Lz4] and [Lz4Correct]
    (the LZ4 library), [JsonText] (text parsing and printing), [QueryLib] (RE2 and
    [std::stod]), [LexicalLib] (the order of hash tables, [log1p]), [Digest] (the
    OpenSSL digest); [std::hash] is an argument of the sharded queues.  Every theorem
    that uses a law has a witness with a concrete instance.  [StateMachine] is the
    interface of the database engine towards Raft.  Concurrency is modelled where
    the code has a protocol for it: [WalAdmission] and [VectorFreshness] (atomic
    steps of threads), [RaftElection] (handlers of different nodes, interleaved), the
    two halves of a flush and the phases of a compaction, with anything allowed in
    between, the calls and the turns of workers on the partitions of a queue and the calls of threads that
    share requests ([QueryLimits]); elsewhere a function is
    the code under its lock.

    ** What the theorems show

    - Raft: two elections won in one term were won by one node, through message
      loss, storage failures and restarts ([election_safety]); an acknowledged
      append leaves the log of the Raft paper ([append_merges]), a ready follower
      does acknowledge ([append_acknowledges]), committed entries survive every
      outcome that leaves a rewritten log whole ([committed_entries_stay]) and the log
      keeps its shape ([append_keeps_log_wf]); heartbeats commit matching tails only;
      committed entries are applied in order, each once ([applies_in_order]), and a
      restart replays exactly them, none after a clean shutdown
      ([recovery_replays_committed]); the quorum index and the commit index of a leader
      are majorities for odd cluster sizes; torn logs load.
    - Write-ahead log: an append adds its batch, or nothing, or the log takes no more
      ([append_adds_batch]), and a crash anywhere in it leaves a log that opens with a
      prefix of the batch ([append_crash_recovers]); entries and batches come back as
      written; reclaiming keeps what is not covered, in segments through any failure
      and in a legacy log when its anchor is written ([reclaim_keeps_uncovered]); LSNs
      increase on any disk; recovery excludes operations and can start.
    - SST: what is written is scanned, read by cursors and found; lookups and merges
      return the newest version, as reference definitions do; opening, stepping and
      verifying end on any file ([cursor_terminates]).
    - SST manifest: a published manifest is the one loaded and never regresses; it
      names verified files only; a flush releases a WAL position only when the
      manifest covers it; a compaction replaces exactly its inputs.
    - LSM engine: through any sequence of writes, deletions, flushes and crashes in
      which a failed flush is followed by a restart before the next flush, reading
      returns the newest acknowledged versions ([acknowledged_writes_survive]); a flush
      changes nothing a reader sees ([flush_keeps_collection]) and neither does a
      compaction of documents that are visible, whatever happens between its phases
      ([compact_keeps_collection]); [getAll] merges all layers by version, and a read by
      id answers as it does ([point_read_newest]); applied LSNs are tracked exactly,
      which is what a checkpoint may cover.  The steps and hypotheses name the calls
      whose failure is excluded.
    - Codecs: MessagePack, WAL records, Raft payloads, index segments and data
      blocks round-trip; damage is detected; CRC-32 is the polynomial division.
    - B+ tree: any sequence of calls answers as a sorted map ([btree_refines_sorted_map])
      and the index manager as a catalogue of such maps ([index_manager_refines]).
    - Queries: the filter of a condition matches exactly the documents that satisfy the
      condition, for the conditions and documents ([cond_ok], [applies]) on which the
      engine keeps to the documented operators ([query_means]); the regex cache changes
      no result; updates change the fields they name, in the order of the operators
      ([update_exact]); pipelines return sorted pages and counts of the matching
      documents ([pipeline_page]); upload progress is exact ([media_progress_exact]).
    - Search: a lexical search ranks exactly the documents that are there by their
      BM25 score ([lexical_search_ranks]) and the collector of a vector search keeps
      the best or fails, exactly when they exceed the limit ([topk_best]); a reader of the change journal gets what happened after
      its cursor or is told of a gap ([journal_reads_history]); equal stamps mean
      that nothing was changed in between, under any interleaving
      ([equal_stamps_unchanged]).
    - Snapshot bundles give back their files and manifest, and are refused when cut or
      extended ([bundle_roundtrip]).
    - Sharding: through any sequence of calls the ranges of the shards stay disjoint and
      a key is routed to the shard whose range has it ([shard_routing_exact]).
    - Task queues: an accepted task is taken once or still queued, and a priority with
      waiting tasks is served after at most 12 others ([task_queue_schedules]); the
      partitioned queue loses and repeats no task and refuses one only when it found
      every partition full, with calls in flight together ([partitioned_queue_exact]).
    - Request limits: the count of running queries is exact, requests live as long as
      somebody holds them and do not touch each other ([limiter_counts_exact]).
    - Compressed data is a sequence of LZ4 steps that give the data, and comes back
      when every step has literals ([compression_roundtrip]); the documents that expired, and no
      others, are reaped ([ttl_refines]).
    - Bloom filters have no false negatives; field access on encoded rows agrees
      with decoding them; writers keep track of what is not yet durable.

    Examples with names that state a fault (two leaders in one term, a quorum of
    half the nodes, ...) show inputs on which the code does not do what it means to.

    ** Bounds and fuel

    Loops over files and buffers take fuel of one more than the length of what
    they read; each step consumes a byte or more, so it does not run out (lemmas
    [from_msgpack_fuel], [cursor_terminates], [raft_read_written],
    [read_batch_spec], and the fuel lemmas of [WalScan]).  Walks over B+ tree nodes
    take one more than the number of nodes ever allocated ([lives_depth]); parsing a
    filter takes its number of values ([parse_enough]).  Indexes, terms and LSNs
    are [uint64_t]: theorems assume they stay below 2^64 where the code would wrap.
    [run_step] asks that the uncovered part of the log fits one memtable when it is
    replayed, that a writer gives newer versions, and that no failed flush is left
    behind when the next one starts (see [failed_flush_loses_documents]).

    ** Not modelled

    Column indexes, reads of SSTs in the old text format by id and background work of the
    LSM engine, transactions, the execution of queries by the database engine, the graphs and distances
    of vector indexes, the server, its protocols and security: plain glue, I/O or later
    work.  Of the modelled files: the group commit of the WAL, caches that only
    save time, metrics and log output, Raft snapshots, transport, batching,
    timers, leases and the read barrier. *)

From stdpp Require Import base gmap sets list strings numbers.
From Stdlib Require Import ZArith Lia.
From Stdlib Require Strings.Byte.

Open Scope Z_scope.

(** ** Bytes

    [char] and [std::uint8_t] buffers are lists of the 256-constructor type
    [byte]; a C++ pointer pair [cursor, end) over a buffer is the list of the
    bytes that are still to be read. *)

Abbreviation byte := Corelib.Init.Byte.byte.
Abbreviation bytes := (list byte).

Definition byte_val (b : byte) : Z := Z.of_N (Byte.to_N b).

Definition byte_of (z : Z) : byte :=
  match Byte.of_N (Z.to_N (z mod 256)) with
  | Some b => b
  | None => Byte.x00
  end.

#[export] Instance byte_eq_decision : EqDecision byte := Byte.byte_eq_dec.

#[export] Instance byte_countable : Countable byte :=
  inj_countable Byte.to_N Byte.of_N Byte.of_to_N.

Lemma byte_val_range b : 0 <= byte_val b < 256.
Proof.
  unfold byte_val. pose proof (Byte.to_N_bounded b). lia.
Qed.

Lemma byte_of_val b : byte_of (byte_val b) = b.
Proof.
  unfold byte_of. rewrite Z.mod_small by apply byte_val_range.
  unfold byte_val. rewrite N2Z.id, Byte.of_to_N. reflexivity.
Qed.

Lemma byte_val_of z : byte_val (byte_of z) = z mod 256.
Proof.
  unfold byte_of, byte_val.
  pose proof (Z.mod_pos_bound z 256 ltac:(lia)) as Hz.
  pose proof (Byte.to_of_N_option_map (Z.to_N (z mod 256))) as H.
  destruct (Byte.of_N (Z.to_N (z mod 256))) as [b|]; simpl in H.
  - destruct (N.leb_spec (Z.to_N (z mod 256)) 255); [|discriminate].
    injection H as H. rewrite H. lia.
  - destruct (N.leb_spec (Z.to_N (z mod 256)) 255); [discriminate | lia].
Qed.

Lemma byte_val_of_small z : 0 <= z < 256 -> byte_val (byte_of z) = z.
Proof. intros. rewrite byte_val_of. apply Z.mod_small. lia. Qed.

Lemma byte_val_inj a b : byte_val a = byte_val b -> a = b.
Proof. intros H. rewrite <- (byte_of_val a), <- (byte_of_val b), H. reflexivity. Qed.

Definition blen (bs : bytes) : Z := Z.of_nat (length bs).

(** String literals of the source, as the bytes of a [std::string]. *)
Definition str (s : string) : bytes :=
  map (fun c => byte_of (Z.of_N (Ascii.N_of_ascii c))) (String.list_ascii_of_string s).

Definition zeros (n : nat) : bytes := replicate n Byte.x00.

(** ** Fixed-width integers *)

Definition u8 (z : Z) : Z := z mod 2 ^ 8.
Definition u16 (z : Z) : Z := z mod 2 ^ 16.
Definition u32 (z : Z) : Z := z mod 2 ^ 32.
Definition u64 (z : Z) : Z := z mod 2 ^ 64.
Definition U32_MAX : Z := 2 ^ 32 - 1.
Definition U64_MAX : Z := 2 ^ 64 - 1.
Definition I64_MAX : Z := 2 ^ 63 - 1.
Definition I64_MIN : Z := - 2 ^ 63.

(** Two's complement reinterpretation of the [w]-bit pattern [z]. *)
Definition to_signed (w z : Z) : Z :=
  if z <? 2 ^ (w - 1) then z else z - 2 ^ w.

(** Serialisation loops [(value >> (i * 8)) & 0xff], [i] ascending. *)
Fixpoint le_bytes (n : nat) (v : Z) : bytes :=
  match n with
  | O => []
  | S n' => byte_of (Z.land v 255) :: le_bytes n' (Z.shiftr v 8)
  end.

(** Deserialisation loops [value |= byte[i] << (i * 8)]. *)
Fixpoint le_value (bs : bytes) : Z :=
  match bs with
  | [] => 0
  | b :: r => Z.lor (byte_val b) (Z.shiftl (le_value r) 8)
  end.

(** [value = (value << 8) | byte], most significant byte first. *)
Definition be_value (bs : bytes) : Z :=
  fold_left (fun acc b => Z.lor (Z.shiftl acc 8) (byte_val b)) bs 0.

Definition be_bytes (n : nat) (v : Z) : bytes := rev (le_bytes n v).

(** *** Bit-field arithmetic: disjoint fields combine by addition. *)

Lemma testbit_small_high a k n : 0 <= a < 2 ^ k -> k <= n -> Z.testbit a n = false.
Proof.
  intros Ha Hn. destruct (Z.eq_dec a 0) as [->|]; [apply Z.bits_0|].
  apply Z.bits_above_log2; [lia|].
  apply Z.log2_lt_pow2; [lia|].
  apply Z.lt_le_trans with (2 ^ k); [lia|].
  apply Z.pow_le_mono_r; lia.
Qed.

Lemma land_shiftl_disjoint a b k :
  0 <= k -> 0 <= a < 2 ^ k -> Z.land a (Z.shiftl b k) = 0.
Proof.
  intros Hk Ha. apply Z.bits_inj'. intros n Hn.
  rewrite Z.land_spec, Z.bits_0, Z.shiftl_spec by lia.
  destruct (Z.lt_ge_cases n k).
  - rewrite (Z.testbit_neg_r b) by lia. apply andb_false_r.
  - rewrite (testbit_small_high a k n) by lia. reflexivity.
Qed.

Lemma lor_shiftl_add_gen a b k :
  0 <= k -> 0 <= a < 2 ^ k -> Z.lor a (Z.shiftl b k) = a + b * 2 ^ k.
Proof.
  intros Hk Ha. pose proof (land_shiftl_disjoint a b k Hk Ha) as Hd.
  rewrite <- Z.lxor_lor by exact Hd.
  rewrite <- Z.add_nocarry_lxor by exact Hd.
  rewrite Z.shiftl_mul_pow2 by lia. reflexivity.
Qed.

Lemma lor_shiftl_add a b : 0 <= a < 256 -> Z.lor a (Z.shiftl b 8) = a + 256 * b.
Proof. intros. rewrite lor_shiftl_add_gen by (simpl; lia). change (2 ^ 8) with 256. lia. Qed.

Lemma land_ones_mod z k : 0 <= k -> Z.land z (2 ^ k - 1) = z mod 2 ^ k.
Proof. intros. rewrite <- Z.land_ones, Z.ones_equiv, <- Z.sub_1_r by lia. reflexivity. Qed.

Lemma land_255 z : Z.land z 255 = z mod 256.
Proof. apply (land_ones_mod z 8). lia. Qed.

Lemma shiftr_8 z : Z.shiftr z 8 = z / 256.
Proof. rewrite Z.shiftr_div_pow2 by lia. reflexivity. Qed.

Lemma le_bytes_length n v : length (le_bytes n v) = n.
Proof. revert v. induction n; intros; simpl; auto. Qed.

Lemma be_bytes_length n v : length (be_bytes n v) = n.
Proof. unfold be_bytes. rewrite length_rev. apply le_bytes_length. Qed.

Lemma le_value_cons b r : le_value (b :: r) = byte_val b + 256 * le_value r.
Proof. simpl. apply lor_shiftl_add, byte_val_range. Qed.

Lemma pow256_succ n : 256 ^ Z.of_nat (S n) = 256 * 256 ^ Z.of_nat n.
Proof. rewrite Nat2Z.inj_succ, Z.pow_succ_r by lia. reflexivity. Qed.

Lemma le_value_range bs : 0 <= le_value bs < 256 ^ blen bs.
Proof.
  unfold blen. induction bs as [|b r IH]; [simpl; lia|].
  rewrite le_value_cons. cbn [length]. rewrite pow256_succ.
  pose proof (byte_val_range b). nia.
Qed.

Lemma le_value_bytes n v : 0 <= v < 256 ^ Z.of_nat n -> le_value (le_bytes n v) = v.
Proof.
  revert v. induction n as [|n IH]; intros v Hv; [simpl in *; lia|].
  cbn [le_bytes]. rewrite le_value_cons, land_255, shiftr_8.
  rewrite pow256_succ in Hv.
  rewrite byte_val_of, Z.mod_mod by lia.
  rewrite IH; [pose proof (Z.div_mod v 256); lia|].
  split; [apply Z.div_pos; lia | apply Z.div_lt_upper_bound; lia].
Qed.

Lemma le_bytes_value bs : le_bytes (length bs) (le_value bs) = bs.
Proof.
  induction bs as [|b r IH]; [reflexivity|].
  cbn [length le_bytes]. rewrite le_value_cons, land_255, shiftr_8.
  pose proof (byte_val_range b).
  replace ((byte_val b + 256 * le_value r) mod 256) with (byte_val b).
  - rewrite byte_of_val. f_equal.
    replace ((byte_val b + 256 * le_value r) / 256) with (le_value r); [exact IH|].
    rewrite Z.mul_comm, Z.div_add, Z.div_small by lia. lia.
  - rewrite Z.mul_comm, Z.mod_add, Z.mod_small by lia. reflexivity.
Qed.

Lemma be_value_snoc bs b : be_value (bs ++ [b]) = byte_val b + 256 * be_value bs.
Proof.
  unfold be_value. rewrite fold_left_app. cbn [fold_left].
  rewrite Z.lor_comm. apply lor_shiftl_add, byte_val_range.
Qed.

Lemma be_value_rev bs : be_value (rev bs) = le_value bs.
Proof.
  induction bs as [|b r IH]; [reflexivity|].
  cbn [rev]. rewrite be_value_snoc, le_value_cons, IH. reflexivity.
Qed.

Lemma be_value_bytes n v : 0 <= v < 256 ^ Z.of_nat n -> be_value (be_bytes n v) = v.
Proof. intros. unfold be_bytes. rewrite be_value_rev. apply le_value_bytes. lia. Qed.

Lemma be_value_range bs : 0 <= be_value bs < 256 ^ blen bs.
Proof.
  rewrite <- (rev_involutive bs), be_value_rev.
  unfold blen at 1. rewrite length_rev. apply le_value_range.
Qed.

(** Truncation to the width written, two's complement included. *)
Lemma le_bytes_mod n v : le_bytes n v = le_bytes n (v mod 256 ^ Z.of_nat n).
Proof.
  revert v. induction n as [|n IH]; intros v; [reflexivity|].
  cbn [le_bytes]. rewrite !land_255, !shiftr_8, pow256_succ.
  set (p := 256 ^ Z.of_nat n).
  assert (0 < p) by (apply Z.pow_pos_nonneg; lia).
  assert (Hm : v mod (256 * p) = v mod 256 + 256 * ((v / 256) mod p))
    by (apply Z.rem_mul_r; lia).
  rewrite Hm. f_equal.
  - f_equal. rewrite Z.mul_comm, Z.mod_add, Z.mod_mod by lia. reflexivity.
  - rewrite (IH (v / 256)). fold p.
    rewrite (Z.mul_comm 256), Z.div_add by lia.
    rewrite (Z.div_small (v mod 256)) by (apply Z.mod_pos_bound; lia). reflexivity.
Qed.

Lemma be_bytes_mod n v : be_bytes n v = be_bytes n (v mod 256 ^ Z.of_nat n).
Proof. unfold be_bytes. rewrite le_bytes_mod. reflexivity. Qed.

(** [readU32], [readU64], [readBigEndian]: a bounded read of [n] bytes that
    advances the cursor, or fails and leaves it. *)
Definition take_bytes (n : nat) (cur : bytes) : option (bytes * bytes) :=
  if (length cur <? n)%nat then None else Some (take n cur, drop n cur).

Definition read_le (n : nat) (cur : bytes) : option (Z * bytes) :=
  '(h, t) ← take_bytes n cur; Some (le_value h, t).

Definition read_be (n : nat) (cur : bytes) : option (Z * bytes) :=
  '(h, t) ← take_bytes n cur; Some (be_value h, t).

Lemma take_bytes_app h t n : length h = n -> take_bytes n (h ++ t) = Some (h, t).
Proof.
  intros <-. unfold take_bytes. rewrite length_app.
  destruct (Nat.ltb_spec (length h + length t) (length h)); [lia|].
  rewrite take_app_length, drop_app_length. reflexivity.
Qed.

Lemma take_bytes_Some n cur h t :
  take_bytes n cur = Some (h, t) <-> cur = h ++ t /\ length h = n.
Proof.
  unfold take_bytes. destruct (Nat.ltb_spec (length cur) n); split.
  - discriminate.
  - intros [-> <-]. rewrite length_app in *. lia.
  - intros [= <- <-]. rewrite take_drop, length_take. split; [done|lia].
  - intros [-> <-]. rewrite take_app_length, drop_app_length. reflexivity.
Qed.

Lemma take_bytes_None n cur : take_bytes n cur = None <-> (length cur < n)%nat.
Proof.
  unfold take_bytes. destruct (Nat.ltb_spec (length cur) n); split; intros; try done; lia.
Qed.

Lemma read_le_app n v t :
  0 <= v < 256 ^ Z.of_nat n -> read_le n (le_bytes n v ++ t) = Some (v, t).
Proof.
  intros. unfold read_le. rewrite take_bytes_app by apply le_bytes_length.
  simpl. rewrite le_value_bytes by lia. reflexivity.
Qed.

Lemma read_be_app n v t :
  0 <= v < 256 ^ Z.of_nat n -> read_be n (be_bytes n v ++ t) = Some (v, t).
Proof.
  intros. unfold read_be. rewrite take_bytes_app by apply be_bytes_length.
  simpl. rewrite be_value_bytes by lia. reflexivity.
Qed.

Lemma read_be_app_mod n v t :
  read_be n (be_bytes n v ++ t) = Some (v mod 256 ^ Z.of_nat n, t).
Proof.
  rewrite be_bytes_mod. apply read_be_app, Z.mod_pos_bound.
  apply Z.pow_pos_nonneg; lia.
Qed.

Lemma to_signed_mod w z :
  0 < w -> - 2 ^ (w - 1) <= z < 0 -> to_signed w (z mod 2 ^ w) = z.
Proof.
  intros Hw Hz. assert (Hp : 2 ^ w = 2 * 2 ^ (w - 1)).
  { rewrite <- Z.pow_succ_r by lia. f_equal. lia. }
  assert (z mod 2 ^ w = z + 2 ^ w) as ->.
  { symmetry. apply (Z.mod_unique _ _ (-1)); lia. }
  unfold to_signed. destruct (Z.ltb_spec (z + 2 ^ w) (2 ^ (w - 1))); lia.
Qed.

Lemma read_be_Some n cur v t :
  read_be n cur = Some (v, t) <->
  exists h, cur = h ++ t /\ length h = n /\ v = be_value h.
Proof.
  unfold read_be. destruct (take_bytes n cur) as [[h t']|] eqn:E; simpl.
  - apply take_bytes_Some in E as [-> <-]. split.
    + intros [= <- <-]. eauto.
    + intros (h' & Happ & Hlen & ->). apply app_inj_1 in Happ as [-> ->]; auto.
  - apply take_bytes_None in E. split; [discriminate|].
    intros (h & -> & <- & ->). rewrite length_app in E. lia.
Qed.

Lemma read_le_Some n cur v t :
  read_le n cur = Some (v, t) <->
  exists h, cur = h ++ t /\ length h = n /\ v = le_value h.
Proof.
  unfold read_le. destruct (take_bytes n cur) as [[h t']|] eqn:E; simpl.
  - apply take_bytes_Some in E as [-> <-]. split.
    + intros [= <- <-]. eauto.
    + intros (h' & Happ & Hlen & ->). apply app_inj_1 in Happ as [-> ->]; auto.
  - apply take_bytes_None in E. split; [discriminate|].
    intros (h & -> & <- & ->). rewrite length_app in E. lia.
Qed.

(** ** Errors: [setError(error, msg); return false] and thrown exceptions *)

Inductive result (A : Type) : Type :=
| Ok (a : A)
| Err (msg : string).
Arguments Ok {A} a.
Arguments Err {A} msg.

#[export] Instance result_ret : MRet result := fun A a => Ok a.
#[export] Instance result_bind : MBind result := fun A B k r =>
  match r with Ok a => k a | Err m => Err m end.
#[export] Instance result_fmap : FMap result := fun A B f r =>
  match r with Ok a => Ok (f a) | Err m => Err m end.

(** [if (!c) { setError(error, m); return false; }] *)
Definition guard_err (c : bool) (m : string) : result unit :=
  if c then Ok tt else Err m.

Definition or_err {A} (o : option A) (m : string) : result A :=
  match o with Some a => Ok a | None => Err m end.

Definition is_ok {A} (r : result A) : bool :=
  match r with Ok _ => true | Err _ => false end.

Lemma Ok_inj {A} (a b : A) : Ok a = Ok b -> a = b.
Proof. congruence. Qed.

Lemma bind_Ok {A B} (r : result A) (k : A -> result B) b :
  (r ≫= k) = Ok b <-> exists a, r = Ok a /\ k a = Ok b.
Proof.
  destruct r; simpl; split.
  - eauto.
  - intros (? & [= ->] & ?). done.
  - discriminate.
  - intros (? & ? & ?). discriminate.
Qed.

Lemma bind_eq {A B} (r : result A) a (k : A -> result B) : r = Ok a -> (r ≫= k) = k a.
Proof. intros ->. reflexivity. Qed.

Lemma guard_err_Ok c m u : guard_err c m = Ok u <-> c = true.
Proof. destruct c, u; simpl; split; intros; congruence. Qed.

Lemma or_err_Ok {A} (o : option A) m a : or_err o m = Ok a <-> o = Some a.
Proof. destruct o; simpl; split; intros; congruence. Qed.

(** ** The order of [std::string] and of [std::less<>] on its keys *)

Fixpoint bytes_compare (a b : bytes) : comparison :=
  match a, b with
  | [], [] => Eq
  | [], _ :: _ => Lt
  | _ :: _, [] => Gt
  | x :: a', y :: b' =>
      match byte_val x ?= byte_val y with
      | Eq => bytes_compare a' b'
      | c => c
      end
  end.

Definition bytes_ltb (a b : bytes) : bool :=
  match bytes_compare a b with Lt => true | _ => false end.
Definition bytes_leb (a b : bytes) : bool :=
  match bytes_compare a b with Gt => false | _ => true end.
Definition bytes_eqb (a b : bytes) : bool := bool_decide (a = b).
Definition bytes_lt (a b : bytes) : Prop := bytes_compare a b = Lt.
Definition bytes_le (a b : bytes) : Prop := bytes_compare a b <> Gt.

Lemma bytes_compare_eq a b : bytes_compare a b = Eq <-> a = b.
Proof.
  revert b. induction a as [|x a IH]; intros [|y b]; simpl; try (split; congruence).
  destruct (Z.compare_spec (byte_val x) (byte_val y)) as [E|E|E].
  - apply byte_val_inj in E as ->. rewrite IH. split; congruence.
  - split; [done|]. intros [= -> ->]. lia.
  - split; [done|]. intros [= -> ->]. lia.
Qed.

Lemma bytes_compare_refl a : bytes_compare a a = Eq.
Proof. apply bytes_compare_eq. reflexivity. Qed.

Lemma bytes_compare_antisym a b : bytes_compare b a = CompOpp (bytes_compare a b).
Proof.
  revert b. induction a as [|x a IH]; intros [|y b]; simpl; auto.
  rewrite (Z.compare_antisym (byte_val x) (byte_val y)).
  destruct (byte_val x ?= byte_val y); simpl; auto.
Qed.

Lemma bytes_lt_trans a b c : bytes_lt a b -> bytes_lt b c -> bytes_lt a c.
Proof.
  unfold bytes_lt. revert b c.
  induction a as [|x a IH]; intros [|y b] [|z c]; simpl; try done.
  destruct (Z.compare_spec (byte_val x) (byte_val y)) as [Hxy|Hxy|Hxy]; [| |done];
  destruct (Z.compare_spec (byte_val y) (byte_val z)) as [Hyz|Hyz|Hyz]; try done;
  intros; destruct (Z.compare_spec (byte_val x) (byte_val z)); try lia; try done.
  eapply IH; eauto.
Qed.

Lemma bytes_lt_irrefl a : ~ bytes_lt a a.
Proof. unfold bytes_lt. rewrite bytes_compare_refl. discriminate. Qed.

Lemma bytes_lt_trichotomy a b : bytes_lt a b \/ a = b \/ bytes_lt b a.
Proof.
  unfold bytes_lt. rewrite (bytes_compare_antisym a b).
  destruct (bytes_compare a b) eqn:E; simpl; auto.
  right; left. apply bytes_compare_eq. done.
Qed.

Lemma bytes_le_alt a b : bytes_le a b <-> bytes_lt a b \/ a = b.
Proof.
  unfold bytes_le, bytes_lt. rewrite <- bytes_compare_eq.
  destruct (bytes_compare a b); intuition congruence.
Qed.

Lemma bytes_le_trans a b c : bytes_le a b -> bytes_le b c -> bytes_le a c.
Proof.
  rewrite !bytes_le_alt. intros [?| ->] [?| ->]; eauto using bytes_lt_trans.
Qed.

Lemma bytes_lt_le_trans a b c : bytes_lt a b -> bytes_le b c -> bytes_lt a c.
Proof. rewrite bytes_le_alt. intros ? [?| <-]; eauto using bytes_lt_trans. Qed.

Lemma bytes_le_lt_trans a b c : bytes_le a b -> bytes_lt b c -> bytes_lt a c.
Proof. rewrite bytes_le_alt. intros [?| ->] ?; eauto using bytes_lt_trans. Qed.

Lemma bytes_ltb_lt a b : bytes_ltb a b = true <-> bytes_lt a b.
Proof. unfold bytes_ltb, bytes_lt. destruct (bytes_compare a b); split; congruence. Qed.

Lemma bytes_leb_le a b : bytes_leb a b = true <-> bytes_le a b.
Proof. unfold bytes_leb, bytes_le. destruct (bytes_compare a b); split; congruence. Qed.

Lemma bytes_ltb_ge a b : bytes_ltb a b = false <-> bytes_le b a.
Proof.
  unfold bytes_ltb, bytes_le. rewrite (bytes_compare_antisym a b).
  destruct (bytes_compare a b); simpl; split; congruence.
Qed.

Lemma bytes_leb_gt a b : bytes_leb a b = false <-> bytes_lt b a.
Proof.
  unfold bytes_leb, bytes_lt. rewrite (bytes_compare_antisym a b).
  destruct (bytes_compare a b); simpl; split; congruence.
Qed.

Lemma bytes_eqb_eq a b : bytes_eqb a b = true <-> a = b.
Proof. unfold bytes_eqb. apply bool_decide_eq_true. Qed.

Lemma bytes_eqb_neq a b : bytes_eqb a b = false <-> a <> b.
Proof. unfold bytes_eqb. apply bool_decide_eq_false. Qed.

Lemma bytes_eqb_refl a : bytes_eqb a a = true.
Proof. apply bytes_eqb_eq. reflexivity. Qed.

#[export] Instance bytes_lt_strict : StrictOrder bytes_lt.
Proof. split; [intros x; apply bytes_lt_irrefl | intros x y z; apply bytes_lt_trans]. Qed.

#[export] Instance bytes_lt_dec a b : Decision (bytes_lt a b).
Proof. unfold bytes_lt. apply _. Defined.

#[export] Instance bytes_le_dec : RelDecision bytes_le.
Proof. intros a b. unfold bytes_le. apply _. Defined.

#[export] Instance bytes_le_total : Total bytes_le.
Proof.
  intros a b. rewrite !bytes_le_alt.
  destruct (bytes_lt_trichotomy a b) as [?|[?|?]]; auto.
Qed.

#[export] Instance bytes_le_transitive : Transitive bytes_le.
Proof. intros a b c. apply bytes_le_trans. Qed.

#[export] Instance bytes_le_antisym : AntiSymm (=) bytes_le.
Proof.
  intros a b. rewrite !bytes_le_alt. intros [?|?] [?|?]; auto.
  exfalso. eapply bytes_lt_irrefl, bytes_lt_trans; eauto.
Qed.

(** ** Number parsing of the C++ library *)

Definition is_space (b : byte) : bool :=
  let z := byte_val b in (z =? 32) || ((9 <=? z) && (z <=? 13)).
Definition is_digit (b : byte) : bool := let z := byte_val b in (48 <=? z) && (z <=? 57).

Fixpoint skip_spaces (s : bytes) : bytes :=
  match s with
  | [] => []
  | c :: r => if is_space c then skip_spaces r else s
  end.

(** The longest prefix of digits, as a number; [None] when there is none. *)
Fixpoint parse_digits (s : bytes) (acc : option Z) : option Z :=
  match s with
  | [] => acc
  | c :: r =>
      if is_digit c
      then parse_digits r (Some (default 0 acc * 10 + (byte_val c - 48)))
      else acc
  end.

(** The optional sign of [strtoull] and [strtoll]. *)
Definition split_sign (s : bytes) : bool * bytes :=
  match s with
  | c :: r => if byte_val c =? 43 then (false, r)
              else if byte_val c =? 45 then (true, r) else (false, s)
  | [] => (false, s)
  end.

(** [std::stoull] and [std::stoll]: [None] where they throw. *)
Definition stoull (s : bytes) : option Z :=
  let '(neg, s) := split_sign (skip_spaces s) in
  v ← parse_digits s None;
  if U64_MAX <? v then None else Some (if neg : bool then u64 (- v) else v).

Definition stoll (s : bytes) : option Z :=
  let '(neg, s) := split_sign (skip_spaces s) in
  v ← parse_digits s None;
  let v := if neg : bool then - v else v in
  if (v <? I64_MIN) || (I64_MAX <? v) then None else Some v.

(** ** Loops whose number of iterations is not bounded by a datum

    [while_pow2 n step a] runs [step] until it yields a result, for at most
    [2 ^ n] iterations, at the cost of the iterations actually made. *)

Fixpoint while_pow2 {A B : Type} (n : nat) (step : A -> A + B) (a : A) : A + B :=
  match n with
  | O => step a
  | S n' => match while_pow2 n' step a with
            | inl a' => while_pow2 n' step a'
            | inr b => inr b
            end
  end.

Fixpoint run_n {A B : Type} (k : nat) (step : A -> A + B) (a : A) : A + B :=
  match k with
  | O => inl a
  | S k' => match step a with inl a' => run_n k' step a' | inr b => inr b end
  end.

Lemma run_n_add {A B} (step : A -> A + B) j k a :
  run_n (j + k) step a = match run_n j step a with inl a' => run_n k step a' | inr b => inr b end.
Proof.
  revert a. induction j as [|j IH]; intros a; cbn [Nat.add run_n]; [reflexivity|].
  destruct (step a); auto.
Qed.

Lemma while_pow2_run {A B} (step : A -> A + B) n a : while_pow2 n step a = run_n (2 ^ n) step a.
Proof.
  revert a. induction n as [|n IH]; intros a.
  - cbn. destruct (step a); reflexivity.
  - cbn [while_pow2]. rewrite Nat.pow_succ_r', Nat.mul_succ_l, Nat.mul_1_l, run_n_add, IH.
    destruct (run_n (2 ^ n) step a); auto.
Qed.

Lemma pow2_nat_Z n : Z.of_nat (2 ^ n) = 2 ^ Z.of_nat n.
Proof. rewrite Nat2Z.inj_pow. reflexivity. Qed.

(** A result reached in fewer than [2 ^ n] iterations is the loop's result. *)
Lemma while_pow2_result {A B} (step : A -> A + B) n k a b :
  run_n k step a = inr b -> Z.of_nat k <= 2 ^ Z.of_nat n -> while_pow2 n step a = inr b.
Proof.
  intros Hr Hk. rewrite while_pow2_run. rewrite <- pow2_nat_Z in Hk.
  replace (2 ^ n)%nat with (k + (2 ^ n - k))%nat by lia.
  rewrite run_n_add, Hr. reflexivity.
Qed.

(** A decreasing measure bounds the iterations; what ends them satisfies [Q]. *)
Lemma run_n_measure {A B} (step : A -> A + B) (P : A -> Prop) (Q : B -> Prop) (mu : A -> nat) :
  (forall a a', P a -> step a = inl a' -> P a' /\ (mu a' < mu a)%nat) ->
  (forall a b, P a -> step a = inr b -> Q b) ->
  forall a, P a -> exists b, run_n (S (mu a)) step a = inr b /\ Q b.
Proof.
  intros Hdec Hend a. remember (mu a) as m eqn:Hm. revert a Hm.
  induction m as [m IH] using lt_wf_ind. intros a -> Ha. cbn [run_n].
  destruct (step a) as [a'|b] eqn:E; [|eauto].
  destruct (Hdec a a' Ha E) as [Ha' Hlt].
  destruct (IH (mu a') Hlt a' eq_refl Ha') as (b & Hb & HQ).
  exists b. replace (mu a) with (S (mu a') + (mu a - S (mu a')))%nat by lia.
  rewrite run_n_add, Hb. auto.
Qed.

Lemma while_pow2_measure {A B} (step : A -> A + B) (P : A -> Prop) (Q : B -> Prop) (mu : A -> nat) n a :
  (forall a a', P a -> step a = inl a' -> P a' /\ (mu a' < mu a)%nat) ->
  (forall a b, P a -> step a = inr b -> Q b) ->
  P a -> Z.of_nat (mu a) < 2 ^ Z.of_nat n -> exists b, while_pow2 n step a = inr b /\ Q b.
Proof.
  intros Hdec Hend Ha Hmu. destruct (run_n_measure step P Q mu Hdec Hend a Ha) as (b & Hb & HQ).
  exists b. split; [eapply while_pow2_result; [exact Hb | lia] | exact HQ].
Qed.

(** ** Visitors *)

(** [for (...) if (!visitor(m)) return true;]: the visitor threads a state and
    says whether to go on. *)
Fixpoint visit_all {A S : Type} (visitor : S -> A -> S * bool) (l : list A) (s : S) : S * bool :=
  match l with
  | [] => (s, true)
  | a :: r => let '(s, go) := visitor s a in
              if go : bool then visit_all visitor r s else (s, false)
  end.

Lemma visit_all_app {A S} (f : S -> A -> S * bool) l1 l2 s :
  visit_all f (l1 ++ l2) s =
  let '(s, go) := visit_all f l1 s in if go then visit_all f l2 s else (s, false).
Proof.
  revert s. induction l1 as [|a l1 IH]; intros s; cbn [app visit_all]; [reflexivity|].
  destruct (f s a) as [s' []]; [apply IH | reflexivity].
Qed.

(** ** Lines *)

(** [std::getline]: a line and the rest; [None] at the end of the stream. *)
Fixpoint split_line (cur : bytes) : bytes * bytes :=
  match cur with
  | [] => ([], [])
  | b :: r => if byte_val b =? 10 then ([], r)
              else let '(line, rest) := split_line r in (b :: line, rest)
  end.

Definition getline (cur : bytes) : option (bytes * bytes) :=
  match cur with [] => None | _ => Some (split_line cur) end.

Lemma split_line_length cur line rest : split_line cur = (line, rest) -> (length rest <= length cur)%nat.
Proof.
  revert line rest. induction cur as [|b r IH]; intros line rest; cbn [split_line].
  - intros [= <- <-]. lia.
  - destruct (_ =? 10); [intros [= <- <-]; cbn; lia|].
    destruct (split_line r) as [l' r'] eqn:E. intros [= <- <-]. specialize (IH _ _ eq_refl). cbn. lia.
Qed.

Lemma getline_shrinks cur line rest : getline cur = Some (line, rest) -> (length rest < length cur)%nat.
Proof.
  destruct cur as [|b r]; [discriminate|]. cbn [getline split_line].
  destruct (_ =? 10); [intros [= <- <-]; cbn; lia|].
  destruct (split_line r) as [l' r'] eqn:E. intros [= <- <-].
  apply split_line_length in E. cbn. lia.
Qed.

(** ** Automation

    [pdb] holds the round-trip and order facts the components share. *)

Create HintDb pdb discriminated.
#[export] Hint Resolve byte_val_range le_bytes_length be_bytes_length
  bytes_lt_trans bytes_le_trans bytes_lt_le_trans bytes_le_lt_trans : pdb.
Create Rewrite HintDb pdb_rw.
#[export] Hint Rewrite byte_of_val le_bytes_length be_bytes_length @length_app
  @length_take @length_drop @length_replicate : pdb_rw.

(** Decide every integer comparison of the goal that [lia] can decide. *)
Ltac zcmp :=
  repeat match goal with
  | |- context [?a <=? ?b] =>
      first [ rewrite (proj2 (Z.leb_le a b)) by lia
            | rewrite (proj2 (Z.leb_gt a b)) by lia ]
  | |- context [?a <? ?b] =>
      first [ rewrite (proj2 (Z.ltb_lt a b)) by lia
            | rewrite (proj2 (Z.ltb_ge a b)) by lia ]
  | |- context [?a =? ?b] =>
      first [ rewrite (proj2 (Z.eqb_eq a b)) by lia
            | rewrite (proj2 (Z.eqb_neq a b)) by lia ]
  end; cbn [andb orb negb].

(** Case on the first [<=] test of the goal. *)
Ltac zleb :=
  match goal with |- context [if ?a <=? ?b then _ else _] => destruct (Z.leb_spec a b) end.

(** Decompose a successful run of the error monad into its steps: one
    hypothesis per step, pairs destructed, guards as booleans. *)
Ltac ok_inv :=
  repeat match goal with
  | H : (_ ≫= _) = Ok _ |- _ =>
      let x := fresh "x" in let E := fresh "E" in
      apply bind_Ok in H as (x & E & H);
      repeat match goal with
      | y : (_ * _)%type |- _ => destruct y
      end; cbv beta iota in H
  | H : guard_err _ _ = Ok _ |- _ => apply guard_err_Ok in H
  | H : or_err _ _ = Ok _ |- _ => apply or_err_Ok in H
  | H : Ok _ = Ok _ |- _ => apply Ok_inj in H
  | H : Err _ = Ok _ |- _ => discriminate H
  end.
