(* ===== verification/FileSys.v ===== *)
(** * The file-system view the engine's readers and writers have

    A file system maps paths to files; a file has contents and the
    modification time the caches compare.  A directory listing is the list of
    entries in the (unspecified) order the iterator yields them. *)

From S2P Require Import Prelude.
From stdpp Require Import base list gmap strings.
From Stdlib Require Import ZArith Lia.

Open Scope Z_scope.

Abbreviation path := bytes.

Record file := mkFile { f_mtime : Z; f_data : bytes }.

Abbreviation fsys := (gmap path file).

(** What an opened [std::ifstream] reads; [None] when it cannot be opened. *)
Definition read_file (fs : fsys) (p : path) : option bytes := f_data <$> fs !! p.

Record dir_entry := mkDirEntry {
  de_name : bytes;        (* [entry.path().filename()] *)
  de_regular : bool;      (* [entry.is_regular_file()] *)
  de_data : bytes }.

(** [path::extension()] of a file name: from the last dot on, empty when there
    is no dot or the only dot starts the name. *)
Fixpoint last_dot (name : bytes) : option bytes :=
  match name with
  | [] => None
  | c :: r =>
      match last_dot r with
      | Some e => Some e
      | None => if byte_val c =? 46 then Some name else None
      end
  end.

Definition extension (name : bytes) : bytes :=
  if bytes_eqb name (str ".") || bytes_eqb name (str "..") then [] else
  match name with
  | [] => []
  | _ :: r => match last_dot r with Some e => e | None => [] end
  end.

Definition has_extension (ext : bytes) (e : dir_entry) : bool :=
  de_regular e && bytes_eqb (extension (de_name e)) ext.

Lemma last_dot_suffix name e : last_dot name = Some e -> exists pre, name = pre ++ e.
Proof.
  revert e. induction name as [|c r IH]; intros e; simpl; [discriminate|].
  destruct (last_dot r) as [e'|] eqn:E.
  - intros [= <-]. destruct (IH _ eq_refl) as [pre ->]. exists (c :: pre). reflexivity.
  - destruct (byte_val c =? 46); [|discriminate]. intros [= <-]. exists []. reflexivity.
Qed.
