(* ===== verification/Decimal.v ===== *)
(** * Decimal numerals in file names and messages

    [std::setw(20) << std::setfill('0')] names of segments and
    [std::to_string]: their order is the numeric order and [std::stoull] reads
    them back. *)

From S2P Require Import Prelude FileSys.
From stdpp Require Import base list gmap strings.
From Stdlib Require Import ZArith Lia.

Open Scope Z_scope.

Definition digit (v : Z) : byte := byte_of (48 + v).

(** [std::setw(20) << std::setfill('0') << value]: a [uint64_t] has at most 20
    decimal digits, so the field is exactly the [n] = 20 low digits. *)
Fixpoint dec_padded (n : nat) (v : Z) : bytes :=
  match n with
  | O => []
  | S n' => digit ((v / 10 ^ Z.of_nat n') mod 10) :: dec_padded n' v
  end.

(** [std::to_string] of a [uint64_t]: the 20 digits without leading zeros. *)
Fixpoint strip_zeros (s : bytes) : bytes :=
  match s with
  | [] => []
  | [c] => [c]
  | c :: r => if byte_val c =? 48 then strip_zeros r else s
  end.

Definition to_dec (v : Z) : bytes := strip_zeros (dec_padded 20 v).

Lemma dec_padded_length n v : length (dec_padded n v) = n.
Proof. induction n; simpl; auto. Qed.

Lemma digit_val d : 0 <= d < 10 -> byte_val (digit d) = 48 + d.
Proof. intros. unfold digit. apply byte_val_of_small. lia. Qed.

Lemma dec_digit_range n v : 0 <= (v / 10 ^ Z.of_nat n) mod 10 < 10.
Proof. apply Z.mod_pos_bound. lia. Qed.

Lemma pow10_succ n : 10 ^ Z.of_nat (S n) = 10 * 10 ^ Z.of_nat n.
Proof. rewrite Nat2Z.inj_succ, Z.pow_succ_r by lia. reflexivity. Qed.

Lemma pow10_pos n : 0 < 10 ^ Z.of_nat n.
Proof. apply Z.pow_pos_nonneg; lia. Qed.

(** The [n]-digit remainder splits into its top digit and the rest. *)
Lemma dec_split n v :
  v mod 10 ^ Z.of_nat (S n) =
  (v / 10 ^ Z.of_nat n) mod 10 * 10 ^ Z.of_nat n + v mod 10 ^ Z.of_nat n.
Proof.
  rewrite pow10_succ, (Z.mul_comm 10). pose proof (pow10_pos n).
  rewrite Z.rem_mul_r by lia. lia.
Qed.

Lemma dec_padded_lt n v w :
  v mod 10 ^ Z.of_nat n < w mod 10 ^ Z.of_nat n ->
  bytes_compare (dec_padded n v) (dec_padded n w) = Lt.
Proof.
  induction n as [|n IH]; [simpl; rewrite !Z.mod_1_r; lia|].
  rewrite !dec_split. cbn [dec_padded bytes_compare].
  pose proof (dec_digit_range n v). pose proof (dec_digit_range n w).
  rewrite !digit_val by assumption.
  pose proof (Z.mod_pos_bound v _ (pow10_pos n)). pose proof (Z.mod_pos_bound w _ (pow10_pos n)).
  intros Hlt.
  destruct (Z.compare_spec (48 + (v / 10 ^ Z.of_nat n) mod 10)
              (48 + (w / 10 ^ Z.of_nat n) mod 10)); [|reflexivity|].
  - apply IH. assert (Hq : (v / 10 ^ Z.of_nat n) mod 10 = (w / 10 ^ Z.of_nat n) mod 10) by lia.
    rewrite Hq in Hlt. lia.
  - exfalso. nia.
Qed.

Lemma bytes_compare_app a b c : length a = length b -> bytes_compare a b = Lt ->
  bytes_compare (a ++ c) (b ++ c) = Lt.
Proof.
  revert b. induction a as [|x a IH]; intros [|y b] Hl; try discriminate. cbn [app bytes_compare].
  injection Hl as Hl. destruct (byte_val x ?= byte_val y); auto; discriminate.
Qed.

Definition stamp_ok (s : Z) : Prop := 0 <= s < 2 ^ 64.

Lemma stamp_mod s : stamp_ok s -> s mod 10 ^ Z.of_nat 20 = s.
Proof. intros [H1 H2]. apply Z.mod_small. split; [exact H1|]. eapply Z.lt_trans; [exact H2|]. reflexivity. Qed.

Lemma is_digit_digit d : 0 <= d < 10 -> is_digit (digit d) = true.
Proof. intros. unfold is_digit. rewrite digit_val by assumption. zcmp. reflexivity. Qed.

Lemma parse_dec_padded n v a :
  parse_digits (dec_padded n v) (Some a) = Some (a * 10 ^ Z.of_nat n + v mod 10 ^ Z.of_nat n).
Proof.
  revert a. induction n as [|n IH]; intros a.
  - simpl. rewrite Z.mod_1_r. f_equal. lia.
  - cbn [dec_padded parse_digits]. pose proof (dec_digit_range n v).
    rewrite is_digit_digit by assumption. change (default 0 (Some a)) with a.
    rewrite IH, digit_val by assumption. rewrite dec_split, pow10_succ. f_equal. lia.
Qed.

Lemma stoull_dec_padded n s :
  stamp_ok s -> s mod 10 ^ Z.of_nat (S n) = s -> stoull (dec_padded (S n) s) = Some s.
Proof.
  intros Hs Hm. unfold stoull. cbn [dec_padded skip_spaces].
  pose proof (dec_digit_range n s) as Hd.
  unfold is_space. rewrite digit_val by assumption.
  rewrite (proj2 (Z.eqb_neq _ 32)), (proj2 (Z.leb_gt (48 + _) 13)) by lia.
  rewrite andb_false_r. cbn [orb split_sign]. rewrite digit_val by assumption.
  rewrite (proj2 (Z.eqb_neq _ 43)), (proj2 (Z.eqb_neq _ 45)) by lia.
  cbn [parse_digits]. rewrite is_digit_digit by assumption.
  change (default 0 None) with 0.
  rewrite digit_val by assumption. rewrite parse_dec_padded.
  replace (0 * 10 + (48 + (s / 10 ^ Z.of_nat n) mod 10 - 48)) with ((s / 10 ^ Z.of_nat n) mod 10) by lia.
  rewrite <- dec_split, Hm. cbn [mbind option_bind].
  unfold stamp_ok, U64_MAX in *. rewrite (proj2 (Z.ltb_ge _ _)) by lia. reflexivity.
Qed.

Lemma stoull_dec s : stamp_ok s -> stoull (dec_padded 20 s) = Some s.
Proof. intros Hs. apply (stoull_dec_padded 19); [exact Hs | apply stamp_mod, Hs]. Qed.

Lemma last_dot_app l e : last_dot e = Some e -> last_dot (l ++ e) = Some e.
Proof. intros H. induction l as [|c l IH]; [exact H|]. cbn [app last_dot]. rewrite IH. reflexivity. Qed.

Lemma extension_app c l e :
  last_dot e = Some e -> (2 < length e)%nat -> extension (c :: l ++ e) = e.
Proof.
  intros He Hl. unfold extension.
  assert (Hne : forall s, (length s <= 2)%nat -> bytes_eqb (c :: l ++ e) s = false).
  { intros s Hs. apply bytes_eqb_neq. intros <-. cbn [length] in Hs. rewrite length_app in Hs. lia. }
  rewrite !Hne by (simpl; lia). cbn [orb]. rewrite last_dot_app by exact He. reflexivity.
Qed.
