(* ===== verification/Json.v ===== *)
(** * JSON values as [nlohmann::json] keeps them

    [json] mirrors [detail::value_t]: signed and unsigned integers are distinct
    alternatives, a [double] is its IEEE-754 bit pattern, a string is its bytes
    and an object is the in-order contents of the [std::map] that stores it.
    The operations are the ones the engine uses: [find]/[contains], assignment
    through [operator[]], [erase], and the typed queries. *)

From S2P Require Import Prelude.
From stdpp Require Import base list strings numbers sorting.
From Stdlib Require Import ZArith Lia.

Open Scope Z_scope.

Unset Elimination Schemes.
Inductive json : Type :=
| JNull
| JBool (b : bool)
| JInt (z : Z)                         (* number_integer, int64_t *)
| JUInt (z : Z)                        (* number_unsigned, uint64_t *)
| JFloat (bits : Z)                    (* number_float, binary64 pattern *)
| JString (s : bytes)
| JBinary (subtype : option Z) (b : bytes)
| JArray (l : list json)
| JObject (m : list (bytes * json)).
Set Elimination Schemes.

(** The induction principle that sees the elements of arrays and objects. *)
Section JsonInd.
Variable P : json -> Prop.
Hypothesis HNull : P JNull.
Hypothesis HBool : forall b, P (JBool b).
Hypothesis HInt : forall z, P (JInt z).
Hypothesis HUInt : forall z, P (JUInt z).
Hypothesis HFloat : forall z, P (JFloat z).
Hypothesis HString : forall s, P (JString s).
Hypothesis HBinary : forall o b, P (JBinary o b).
Hypothesis HArray : forall l, Forall P l -> P (JArray l).
Hypothesis HObject : forall m, Forall (fun kv => P kv.2) m -> P (JObject m).

Fixpoint json_ind' (j : json) : P j :=
  match j with
  | JNull => HNull
  | JBool b => HBool b
  | JInt z => HInt z
  | JUInt z => HUInt z
  | JFloat z => HFloat z
  | JString s => HString s
  | JBinary o b => HBinary o b
  | JArray l =>
      HArray l ((fix go l : Forall P l := match l with
                 | [] => @Forall_nil_2 json P
                 | x :: r => Forall_cons_2 P x r (json_ind' x) (go r)
                 end) l)
  | JObject m =>
      HObject m ((fix go m : Forall (fun kv => P kv.2) m := match m with
                  | [] => @Forall_nil_2 _ (fun kv : bytes * json => P kv.2)
                  | x :: r => Forall_cons_2 _ x r (json_ind' x.2) (go r)
                  end) m)
  end.
End JsonInd.

(** ** The [std::map] behind an object *)

Definition object := list (bytes * json).

Fixpoint obj_find (k : bytes) (m : object) : option json :=
  match m with
  | [] => None
  | (k', v) :: r => if bytes_eqb k' k then Some v else obj_find k r
  end.

(** [object->operator[](k) = v]: overwrite, or insert at the key's place in the order. *)
Fixpoint obj_insert (k : bytes) (v : json) (m : object) : object :=
  match m with
  | [] => [(k, v)]
  | (k', v') :: r =>
      match bytes_compare k k' with
      | Lt => (k, v) :: m
      | Eq => (k, v) :: r
      | Gt => (k', v') :: obj_insert k v r
      end
  end.

Fixpoint obj_erase (k : bytes) (m : object) : object :=
  match m with
  | [] => []
  | (k', v) :: r => if bytes_eqb k' k then obj_erase k r else (k', v) :: obj_erase k r
  end.

Definition obj_sorted (m : object) : Prop := StronglySorted bytes_lt (map fst m).

Lemma obj_find_insert_eq k v m : obj_find k (obj_insert k v m) = Some v.
Proof.
  induction m as [|[k' v'] r IH]; simpl; [by rewrite bytes_eqb_refl|].
  destruct (bytes_compare k k') eqn:E; simpl; rewrite ?bytes_eqb_refl; auto.
  destruct (bytes_eqb k' k) eqn:E'; [|exact IH].
  apply bytes_eqb_eq in E' as ->. rewrite bytes_compare_refl in E. discriminate.
Qed.

Lemma obj_find_insert_ne k k' v m :
  k <> k' -> obj_find k' (obj_insert k v m) = obj_find k' m.
Proof.
  intros Hne. apply bytes_eqb_neq in Hne as Hb.
  induction m as [|[a va] r IH]; simpl; [by rewrite Hb|].
  destruct (bytes_compare k a) eqn:E; simpl; rewrite ?Hb; auto.
  - apply bytes_compare_eq in E as ->. by rewrite Hb.
  - by rewrite IH.
Qed.

Lemma obj_insert_keys k v m x :
  x ∈ map fst (obj_insert k v m) -> x = k \/ x ∈ map fst m.
Proof.
  induction m as [|[a va] r IH]; simpl.
  - intros ?%list_elem_of_singleton. auto.
  - destruct (bytes_compare k a) eqn:E; simpl.
    + apply bytes_compare_eq in E as ->. auto.
    + intros [->|?]%elem_of_cons; auto.
    + intros [->|?]%elem_of_cons; [right; left|].
      destruct (IH H) as [->|]; auto. right; by right.
Qed.

Lemma obj_insert_sorted k v m : obj_sorted m -> obj_sorted (obj_insert k v m).
Proof.
  unfold obj_sorted. induction m as [|[a va] r IH]; simpl; intros Hs.
  - repeat constructor.
  - apply StronglySorted_cons in Hs as [Ha Hs].
    destruct (bytes_compare k a) eqn:E; simpl.
    + apply bytes_compare_eq in E as ->. by constructor.
    + constructor; [by constructor|]. constructor; [exact E|].
      eapply Forall_impl; [exact Ha|]. intros x Hx. eapply bytes_lt_trans; eauto.
    + constructor; [auto|]. apply Forall_forall. intros x Hx.
      apply obj_insert_keys in Hx as [->|Hx].
      * unfold bytes_lt. rewrite bytes_compare_antisym, E. reflexivity.
      * rewrite Forall_forall in Ha. auto.
Qed.

(** Inserting past the greatest key appends. *)
Lemma obj_insert_snoc k v m :
  Forall (fun kv => bytes_lt kv.1 k) m -> obj_insert k v m = m ++ [(k, v)].
Proof.
  induction m as [|[a va] r IH]; simpl; intros Hm; [reflexivity|].
  apply Forall_cons in Hm as [Ha Hr]. simpl in Ha.
  unfold bytes_lt in Ha. rewrite bytes_compare_antisym, Ha. simpl.
  by rewrite IH.
Qed.

Lemma obj_find_None k m : obj_find k m = None <-> k ∉ map fst m.
Proof.
  induction m as [|[a va] r IH]; simpl.
  - split; [intros _; apply not_elem_of_nil | done].
  - rewrite not_elem_of_cons. destruct (bytes_eqb a k) eqn:E.
    + apply bytes_eqb_eq in E as ->. split; [done|]. intros []; done.
    + apply bytes_eqb_neq in E. rewrite IH. split; [split; auto; congruence | intros []; done].
Qed.

Lemma obj_find_Some_elem k m v : obj_find k m = Some v -> (k, v) ∈ m.
Proof.
  induction m as [|[a va] r IH]; simpl; [done|].
  destruct (bytes_eqb a k) eqn:E; intros H.
  - apply bytes_eqb_eq in E as ->. injection H as ->. left.
  - right. auto.
Qed.

Lemma obj_sorted_head_fresh k v m :
  obj_sorted ((k, v) :: m) -> (k ∉ map fst m) /\ obj_sorted m.
Proof.
  unfold obj_sorted. simpl. intros H. apply StronglySorted_cons in H as [Ha Hs].
  split; [|done]. intros Hin. rewrite Forall_forall in Ha.
  apply (bytes_lt_irrefl k). auto.
Qed.

Lemma obj_find_erase_eq k m : obj_find k (obj_erase k m) = None.
Proof.
  induction m as [|[a va] r IH]; simpl; [done|].
  destruct (bytes_eqb a k) eqn:E; simpl; [done|]. by rewrite E.
Qed.

Lemma obj_find_erase_ne k k' m : k <> k' -> obj_find k' (obj_erase k m) = obj_find k' m.
Proof.
  intros Hne. induction m as [|[a va] r IH]; simpl; [done|].
  destruct (bytes_eqb a k) eqn:E; simpl; [|by rewrite IH].
  apply bytes_eqb_eq in E as ->. apply bytes_eqb_neq in Hne as ->. exact IH.
Qed.

(** ** The interface the engine uses *)

Definition is_object (j : json) : bool := match j with JObject _ => true | _ => false end.
Definition is_string (j : json) : bool := match j with JString _ => true | _ => false end.
Definition is_boolean (j : json) : bool := match j with JBool _ => true | _ => false end.
(** [is_number_integer()] holds of both integer alternatives. *)
Definition is_number_integer (j : json) : bool :=
  match j with JInt _ | JUInt _ => true | _ => false end.
Definition is_number_unsigned (j : json) : bool :=
  match j with JUInt _ => true | _ => false end.

Definition json_find (k : bytes) (j : json) : option json :=
  match j with JObject m => obj_find k m | _ => None end.
Definition json_contains (k : bytes) (j : json) : bool :=
  match json_find k j with Some _ => true | None => false end.

(** [get<uint64_t>()], [get<int64_t>()], [get<uint32_t>()] of an integer: a
    [static_cast] of the stored value. *)
Definition get_u64 (j : json) : option Z :=
  match j with JInt z | JUInt z => Some (u64 z) | _ => None end.
Definition get_i64 (j : json) : option Z :=
  match j with JInt z => Some z | JUInt z => Some (to_signed 64 z) | _ => None end.
Definition get_u32 (j : json) : option Z :=
  match j with JInt z | JUInt z => Some (u32 z) | _ => None end.

(** The text form: [dump()] and [json::parse], the vendored serializer and
    lexer, which are a parameter of every definition that calls them.
    [None] is a thrown exception (a string that is not UTF-8, a text that is
    not JSON). *)
Class JsonText := {
  json_dump : json -> option bytes;
  json_parse : bytes -> option json;
}.

(** ** Well-formed values: machine ranges and sorted objects *)

Fixpoint json_wf (j : json) : Prop :=
  match j with
  | JNull | JBool _ => True
  | JInt z => I64_MIN <= z <= I64_MAX
  | JUInt z => 0 <= z <= U64_MAX
  | JFloat z => 0 <= z < 2 ^ 64
  | JString s => blen s < 2 ^ 32
  | JBinary o b => blen b < 2 ^ 32 /\ match o with Some t => 0 <= t < 256 | None => True end
  | JArray l =>
      Z.of_nat (length l) < 2 ^ 32 /\
      (fix go l := match l with [] => True | x :: r => json_wf x /\ go r end) l
  | JObject m =>
      Z.of_nat (length m) < 2 ^ 32 /\ obj_sorted m /\
      (fix go m := match m with
       | [] => True
       | (k, x) :: r => blen k < 2 ^ 32 /\ json_wf x /\ go r
       end) m
  end.

Lemma json_wf_array l :
  json_wf (JArray l) <-> Z.of_nat (length l) < 2 ^ 32 /\ Forall json_wf l.
Proof.
  cbn [json_wf]. split; intros [? H]; (split; [done|]); clear -H;
    induction l as [|x r IH]; try done.
  - destruct H. constructor; auto.
  - apply Forall_cons in H as [? ?]. split; [done|]. apply IH. done.
Qed.

Lemma json_wf_object m :
  json_wf (JObject m) <->
  Z.of_nat (length m) < 2 ^ 32 /\ obj_sorted m /\
  Forall (fun kv => blen kv.1 < 2 ^ 32 /\ json_wf kv.2) m.
Proof.
  cbn [json_wf]. split; intros (? & ? & H); (split_and!; [done|done|]); clear -H;
    induction m as [|[k x] r IH]; try done.
  - destruct H as (? & ? & ?). constructor; auto.
  - apply Forall_cons in H as [[? ?] ?]. split_and!; [done..|]. apply IH. done.
Qed.

(** Nesting depth: scalars and empty containers are at depth 0. *)
Definition depth_above (ds : list nat) : nat :=
  match ds with [] => O | _ => S (list_max ds) end.

Fixpoint json_depth (j : json) : nat :=
  match j with
  | JArray l => depth_above (map json_depth l)
  | JObject m => depth_above (map (fun kv => json_depth kv.2) m)
  | _ => O
  end.

Lemma list_max_elem x l : x ∈ l -> (x <= list_max l)%nat.
Proof.
  intros Hx. pose proof (proj1 (list_max_le l (list_max l)) (Nat.le_refl _)) as H.
  rewrite Forall_forall in H. auto.
Qed.

Lemma depth_above_elem x ds : x ∈ ds -> (x < depth_above ds)%nat.
Proof.
  intros Hx. pose proof (list_max_elem x ds Hx). destruct ds; [by apply not_elem_of_nil in Hx|].
  unfold depth_above. lia.
Qed.

Lemma depth_above_le ds n :
  (forall d, d ∈ ds -> (d < n)%nat) -> (depth_above ds <= n)%nat.
Proof.
  destruct ds as [|d ds]; [simpl; lia|]. intros H. unfold depth_above.
  apply list_max_lt; [done|]. apply Forall_forall. exact H.
Qed.
