(* ===== verification/Msgpack.v ===== *)
(** * MessagePack as the engine's JSON library writes and reads it

    [write_msgpack] follows [binary_writer::write_msgpack] and [from_msgpack]
    follows [binary_reader::parse_msgpack_internal] with the DOM builder: these
    two are what rows, WAL payloads and projections are made of.  Reading back
    what was written gives [canon] of the value: MessagePack keeps no difference
    between a non-negative signed integer and an unsigned one, and a NaN goes
    through binary32. *)

From S2P Require Import Prelude Json.
From stdpp Require Import base list strings numbers sorting.
From Stdlib Require Import ZArith Lia.

Open Scope Z_scope.

(** ** IEEE-754 conversions on bit patterns *)

Definition f64_sign (b : Z) : Z := b / 2 ^ 63.
Definition f64_exp (b : Z) : Z := (b / 2 ^ 52) mod 2 ^ 11.
Definition f64_mant (b : Z) : Z := b mod 2 ^ 52.
Definition f64_make (s e m : Z) : Z := s * 2 ^ 63 + e * 2 ^ 52 + m.
Definition f32_sign (b : Z) : Z := b / 2 ^ 31.
Definition f32_exp (b : Z) : Z := (b / 2 ^ 23) mod 2 ^ 8.
Definition f32_mant (b : Z) : Z := b mod 2 ^ 23.
Definition f32_make (s e m : Z) : Z := s * 2 ^ 31 + e * 2 ^ 23 + m.

Definition f64_is_finite (b : Z) : bool := negb (f64_exp b =? 2047).

(** [static_cast<float>(n)] when the result converts back to [n]: [None] when
    the range test or the [==] test of [write_compact_float] fails. *)
Definition f64_narrow_exact (b : Z) : option Z :=
  let s := f64_sign b in
  let e := f64_exp b in
  let m := f64_mant b in
  let x := e - 1023 in
  if (e =? 0) && (m =? 0) then Some (f32_make s 0 0)
  else if (-126 <=? x) && (x <=? 127) then
    if m mod 2 ^ 29 =? 0 then Some (f32_make s (x + 127) (m / 2 ^ 29)) else None
  else if (-149 <=? x) && (x <? -126) then
    let sh := 29 + (-126 - x) in
    if (2 ^ 52 + m) mod 2 ^ sh =? 0 then Some (f32_make s 0 ((2 ^ 52 + m) / 2 ^ sh)) else None
  else None.

(** [static_cast<float>] of an infinity or a NaN (the NaN is quieted). *)
Definition f64_narrow_nonfinite (b : Z) : Z :=
  let m := f64_mant b in
  f32_make (f64_sign b) 255 (if m =? 0 then 0 else Z.lor (m / 2 ^ 29) (2 ^ 22)).

(** [static_cast<double>(float)]. *)
Definition f32_widen (b : Z) : Z :=
  let s := f32_sign b in
  let e := f32_exp b in
  let m := f32_mant b in
  if e =? 255 then f64_make s 2047 (if m =? 0 then 0 else Z.lor (m * 2 ^ 29) (2 ^ 51))
  else if e =? 0 then
    if m =? 0 then f64_make s 0 0
    else f64_make s (Z.log2 m - 149 + 1023) ((m - 2 ^ Z.log2 m) * 2 ^ (52 - Z.log2 m))
  else f64_make s (e - 127 + 1023) (m * 2 ^ 29).

(** ** Writing *)

Definition tagged (tag : Z) (n : nat) (v : Z) : bytes := byte_of tag :: be_bytes n v.

Definition write_unsigned (z : Z) : bytes :=
  if z <? 128 then be_bytes 1 z
  else if z <=? 255 then tagged 0xCC 1 z
  else if z <=? 65535 then tagged 0xCD 2 z
  else if z <=? U32_MAX then tagged 0xCE 4 z
  else tagged 0xCF 8 z.

Definition write_integer (z : Z) : bytes :=
  if 0 <=? z then write_unsigned z
  else if -32 <=? z then be_bytes 1 z
  else if -128 <=? z then tagged 0xD0 1 z
  else if -32768 <=? z then tagged 0xD1 2 z
  else if - 2 ^ 31 <=? z then tagged 0xD2 4 z
  else tagged 0xD3 8 z.

Definition write_compact_float (b : Z) : bytes :=
  if f64_is_finite b then
    match f64_narrow_exact b with
    | Some f => tagged 0xCA 4 f
    | None => tagged 0xCB 8 b
    end
  else tagged 0xCA 4 (f64_narrow_nonfinite b).

Definition write_string (s : bytes) : bytes :=
  let N := blen s in
  (if N <=? 31 then be_bytes 1 (Z.lor 0xA0 N)
   else if N <=? 255 then tagged 0xD9 1 N
   else if N <=? 65535 then tagged 0xDA 2 N
   else if N <=? U32_MAX then tagged 0xDB 4 N
   else []) ++ s.

Definition write_array_header (N : Z) : bytes :=
  if N <=? 15 then be_bytes 1 (Z.lor 0x90 N)
  else if N <=? 65535 then tagged 0xDC 2 N
  else if N <=? U32_MAX then tagged 0xDD 4 N
  else [].

Definition write_map_header (N : Z) : bytes :=
  if N <=? 15 then be_bytes 1 (Z.lor 0x80 (Z.land N 15))
  else if N <=? 65535 then tagged 0xDE 2 N
  else if N <=? U32_MAX then tagged 0xDF 4 N
  else [].

Definition write_binary (subtype : option Z) (b : bytes) : bytes :=
  let N := blen b in
  let use_ext := match subtype with Some _ => true | None => false end in
  (if N <=? 255 then
     if use_ext then
       if N =? 1 then [byte_of 0xD4]
       else if N =? 2 then [byte_of 0xD5]
       else if N =? 4 then [byte_of 0xD6]
       else if N =? 8 then [byte_of 0xD7]
       else if N =? 16 then [byte_of 0xD8]
       else tagged 0xC7 1 N
     else tagged 0xC4 1 N
   else if N <=? 65535 then tagged (if use_ext then 0xC8 else 0xC5) 2 N
   else if N <=? U32_MAX then tagged (if use_ext then 0xC9 else 0xC6) 4 N
   else [])
  ++ match subtype with Some t => be_bytes 1 t | None => [] end
  ++ b.

Fixpoint write_msgpack (j : json) : bytes :=
  match j with
  | JNull => [byte_of 0xC0]
  | JBool b => [byte_of (if b then 0xC3 else 0xC2)]
  | JInt z => write_integer z
  | JUInt z => write_unsigned z
  | JFloat b => write_compact_float b
  | JString s => write_string s
  | JBinary o b => write_binary o b
  | JArray l => write_array_header (Z.of_nat (length l)) ++ flat_map write_msgpack l
  | JObject m =>
      write_map_header (Z.of_nat (length m)) ++
      flat_map (fun kv => write_string kv.1 ++ write_msgpack kv.2) m
  end.

Definition to_msgpack (j : json) : bytes := write_msgpack j.

(** ** Reading *)

Definition take_z (n : Z) (cur : bytes) : option (bytes * bytes) :=
  if blen cur <? n then None else take_bytes (Z.to_nat n) cur.

(** [get_msgpack_string], [current] being [tag]. *)
Definition get_msgpack_string (tag : Z) (cur : bytes) : option (bytes * bytes) :=
  if (0xA0 <=? tag) && (tag <=? 0xBF) then take_z (Z.land tag 0x1F) cur
  else if tag =? 0xD9 then '(len, c) ← read_be 1 cur; take_z len c
  else if tag =? 0xDA then '(len, c) ← read_be 2 cur; take_z len c
  else if tag =? 0xDB then '(len, c) ← read_be 4 cur; take_z len c
  else None.

Definition get_bin (w : nat) (cur : bytes) : option (json * bytes) :=
  '(len, c) ← read_be w cur;
  '(b, c) ← take_z len c;
  Some (JBinary None b, c).

Definition get_ext (w : nat) (cur : bytes) : option (json * bytes) :=
  '(len, c) ← read_be w cur;
  '(sub, c) ← read_be 1 c;
  '(b, c) ← take_z len c;
  Some (JBinary (Some sub) b, c).

Definition get_fixext (len : Z) (cur : bytes) : option (json * bytes) :=
  '(sub, c) ← read_be 1 cur;
  '(b, c) ← take_z len c;
  Some (JBinary (Some sub) b, c).

(** The [for (i = 0; i < len; ++i)] loops of [get_msgpack_array] and
    [get_msgpack_object].  [fuel] counts input bytes: every element consumes at
    least one, so a loop over [cur] never makes more than [length cur] rounds. *)
Section Loops.
Variable parse : bytes -> option (json * bytes).

Fixpoint get_array_loop (fuel : nat) (len : Z) (cur : bytes) : option (list json * bytes) :=
  if len <=? 0 then Some ([], cur)
  else match fuel with
       | O => None
       | S f =>
           '(v, c) ← parse cur;
           '(vs, c) ← get_array_loop f (len - 1) c;
           Some (v :: vs, c)
       end.

Fixpoint get_object_loop (fuel : nat) (len : Z) (acc : object) (cur : bytes)
  : option (object * bytes) :=
  if len <=? 0 then Some (acc, cur)
  else match fuel with
       | O => None
       | S f =>
           match cur with
           | [] => None
           | t :: c =>
               '(k, c) ← get_msgpack_string (byte_val t) c;
               '(v, c) ← parse c;
               get_object_loop f (len - 1) (obj_insert k v acc) c
           end
       end.

Definition get_msgpack_array (len : Z) (cur : bytes) : option (json * bytes) :=
  '(vs, c) ← get_array_loop (length cur) len cur; Some (JArray vs, c).

Definition get_msgpack_object (len : Z) (cur : bytes) : option (json * bytes) :=
  '(m, c) ← get_object_loop (length cur) len [] cur; Some (JObject m, c).

(** The [switch (get())] of [parse_msgpack_internal]. *)
Definition parse_tag (t : Z) (c : bytes) : option (json * bytes) :=
  if t <=? 0x7F then Some (JUInt t, c)
  else if t <=? 0x8F then get_msgpack_object (Z.land t 0x0F) c
  else if t <=? 0x9F then get_msgpack_array (Z.land t 0x0F) c
  else if (t <=? 0xBF) || ((0xD9 <=? t) && (t <=? 0xDB)) then
    '(s, c) ← get_msgpack_string t c; Some (JString s, c)
  else if t =? 0xC0 then Some (JNull, c)
  else if t =? 0xC2 then Some (JBool false, c)
  else if t =? 0xC3 then Some (JBool true, c)
  else if t =? 0xC4 then get_bin 1 c
  else if t =? 0xC5 then get_bin 2 c
  else if t =? 0xC6 then get_bin 4 c
  else if t =? 0xC7 then get_ext 1 c
  else if t =? 0xC8 then get_ext 2 c
  else if t =? 0xC9 then get_ext 4 c
  else if t =? 0xCA then '(v, c) ← read_be 4 c; Some (JFloat (f32_widen v), c)
  else if t =? 0xCB then '(v, c) ← read_be 8 c; Some (JFloat v, c)
  else if t =? 0xCC then '(v, c) ← read_be 1 c; Some (JUInt v, c)
  else if t =? 0xCD then '(v, c) ← read_be 2 c; Some (JUInt v, c)
  else if t =? 0xCE then '(v, c) ← read_be 4 c; Some (JUInt v, c)
  else if t =? 0xCF then '(v, c) ← read_be 8 c; Some (JUInt v, c)
  else if t =? 0xD0 then '(v, c) ← read_be 1 c; Some (JInt (to_signed 8 v), c)
  else if t =? 0xD1 then '(v, c) ← read_be 2 c; Some (JInt (to_signed 16 v), c)
  else if t =? 0xD2 then '(v, c) ← read_be 4 c; Some (JInt (to_signed 32 v), c)
  else if t =? 0xD3 then '(v, c) ← read_be 8 c; Some (JInt (to_signed 64 v), c)
  else if t =? 0xD4 then get_fixext 1 c
  else if t =? 0xD5 then get_fixext 2 c
  else if t =? 0xD6 then get_fixext 4 c
  else if t =? 0xD7 then get_fixext 8 c
  else if t =? 0xD8 then get_fixext 16 c
  else if t =? 0xDC then '(len, c) ← read_be 2 c; get_msgpack_array len c
  else if t =? 0xDD then '(len, c) ← read_be 4 c; get_msgpack_array len c
  else if t =? 0xDE then '(len, c) ← read_be 2 c; get_msgpack_object len c
  else if t =? 0xDF then '(len, c) ← read_be 4 c; get_msgpack_object len c
  else if 0xE0 <=? t then Some (JInt (to_signed 8 t), c)
  else None.
End Loops.

(** [fuel] bounds the nesting; every level consumes its tag byte. *)
Fixpoint parse_msgpack (fuel : nat) (cur : bytes) : option (json * bytes) :=
  match fuel with
  | O => None
  | S f => match cur with
           | [] => None
           | t :: c => parse_tag (parse_msgpack f) (byte_val t) c
           end
  end.

(** [json::from_msgpack(first, last, strict = true)]; [None] is the thrown
    [parse_error]. *)
Definition from_msgpack (bs : bytes) : option json :=
  match parse_msgpack (length bs) bs with
  | Some (j, []) => Some j
  | _ => None
  end.

(** ** What survives the round trip *)

Definition canon_float (b : Z) : Z :=
  if f64_is_finite b then b else f32_widen (f64_narrow_nonfinite b).

Fixpoint canon (j : json) : json :=
  match j with
  | JInt z => if 0 <=? z then JUInt z else JInt z
  | JFloat b => JFloat (canon_float b)
  | JArray l => JArray (map canon l)
  | JObject m => JObject (map (fun kv => (kv.1, canon kv.2)) m)
  | _ => j
  end.

(** ** Properties of the float conversions *)

Lemma f32_make_range s e m :
  0 <= s < 2 -> 0 <= e < 256 -> 0 <= m < 2 ^ 23 -> 0 <= f32_make s e m < 2 ^ 32.
Proof. unfold f32_make. lia. Qed.

Lemma f32_fields s e m :
  0 <= s < 2 -> 0 <= e < 256 -> 0 <= m < 2 ^ 23 ->
  f32_sign (f32_make s e m) = s /\ f32_exp (f32_make s e m) = e /\
  f32_mant (f32_make s e m) = m.
Proof.
  intros Hs He Hm. unfold f32_sign, f32_exp, f32_mant, f32_make.
  change (2 ^ 31) with (256 * 2 ^ 23). split_and!.
  - symmetry. apply (Z.div_unique _ _ _ (e * 2 ^ 23 + m)); lia.
  - assert ((s * (256 * 2 ^ 23) + e * 2 ^ 23 + m) / 2 ^ 23 = s * 256 + e) as ->.
    { symmetry. apply (Z.div_unique _ _ _ m); lia. }
    symmetry. apply (Z.mod_unique _ _ s); lia.
  - symmetry. apply (Z.mod_unique _ _ (s * 256 + e)); lia.
Qed.

Lemma f64_fields b :
  0 <= b < 2 ^ 64 ->
  0 <= f64_sign b < 2 /\ 0 <= f64_exp b < 2048 /\ 0 <= f64_mant b < 2 ^ 52 /\
  b = f64_make (f64_sign b) (f64_exp b) (f64_mant b).
Proof.
  intros Hb. unfold f64_sign, f64_exp, f64_mant, f64_make.
  assert (H63 : b / 2 ^ 63 = (b / 2 ^ 52) / 2 ^ 11) by (rewrite Z.div_div; [f_equal|..]; lia).
  pose proof (Z.div_mod b (2 ^ 52)) as D1.
  pose proof (Z.div_mod (b / 2 ^ 52) (2 ^ 11)) as D2.
  pose proof (Z.mod_pos_bound b (2 ^ 52)).
  pose proof (Z.mod_pos_bound (b / 2 ^ 52) (2 ^ 11)).
  rewrite H63. change (2 ^ 11) with 2048 in *. change (2 ^ 52) with 4503599627370496 in *.
  change (2 ^ 63) with (2048 * 4503599627370496).
  change (2 ^ 64) with (2 * (2048 * 4503599627370496)) in Hb.
  set (q := b / 4503599627370496) in *. split_and!; try lia.
Qed.

Lemma f64_narrow_nonfinite_range b :
  0 <= b < 2 ^ 64 -> 0 <= f64_narrow_nonfinite b < 2 ^ 32.
Proof.
  intros Hb. destruct (f64_fields b Hb) as (? & ? & Hm & _).
  unfold f64_narrow_nonfinite. apply f32_make_range; [lia|lia|].
  destruct (f64_mant b =? 0); [lia|].
  assert (0 <= f64_mant b / 2 ^ 29 < 2 ^ 23).
  { split; [apply Z.div_pos; lia|]. apply Z.div_lt_upper_bound; lia. }
  split; [apply Z.lor_nonneg; lia|].
  destruct (Z.eq_dec (Z.lor (f64_mant b / 2 ^ 29) (2 ^ 22)) 0) as [->|]; [lia|].
  apply Z.log2_lt_pow2.
  - pose proof (proj2 (Z.lor_nonneg (f64_mant b / 2 ^ 29) (2 ^ 22))). lia.
  - rewrite Z.log2_lor by lia. apply Z.max_lub_lt; [|reflexivity].
    destruct (Z.eq_dec (f64_mant b / 2 ^ 29) 0) as [->|]; [reflexivity|].
    apply Z.log2_lt_pow2; lia.
Qed.

Section Subnormal.
Variables (m sh q : Z).
Hypothesis Hm : 0 <= m < 2 ^ 52.
Hypothesis Hsh : 30 <= sh <= 52.
Hypothesis Hq : 2 ^ 52 + m = q * 2 ^ sh.

Lemma subnormal_log2 : Z.log2 q = 52 - sh.
Proof.
  assert (0 < 2 ^ sh) by (apply Z.pow_pos_nonneg; lia).
  assert (0 < q) by nia.
  assert (Z.log2 (q * 2 ^ sh) = 52) as H1.
  { rewrite <- Hq. apply Z.log2_unique; [lia|]. change (2 ^ Z.succ 52) with (2 * 2 ^ 52). lia. }
  rewrite Z.log2_mul_pow2 in H1 by lia. lia.
Qed.

Lemma subnormal_range : 0 < q < 2 ^ 23.
Proof.
  assert (0 < 2 ^ sh) by (apply Z.pow_pos_nonneg; lia).
  assert (0 < q) by nia. split; [lia|].
  apply Z.log2_lt_pow2; [lia|]. rewrite subnormal_log2. lia.
Qed.

Lemma subnormal_mant : (q - 2 ^ (52 - sh)) * 2 ^ sh = m.
Proof.
  rewrite Z.mul_sub_distr_r, <- Hq, <- Z.pow_add_r by lia.
  replace (52 - sh + sh) with 52 by lia. lia.
Qed.
End Subnormal.

Lemma f64_narrow_exact_sound b f :
  0 <= b < 2 ^ 64 -> f64_narrow_exact b = Some f -> 0 <= f < 2 ^ 32 /\ f32_widen f = b.
Proof.
  intros Hb. destruct (f64_fields b Hb) as (Hs & He & Hm & Hbeq).
  unfold f64_narrow_exact.
  set (s := f64_sign b) in *. set (e := f64_exp b) in *. set (m := f64_mant b) in *.
  destruct ((e =? 0) && (m =? 0)) eqn:E0.
  { apply andb_true_iff in E0 as [->%Z.eqb_eq ->%Z.eqb_eq]. intros [= <-].
    split; [apply f32_make_range; lia|].
    destruct (f32_fields s 0 0) as (Es & Ee & Em); [lia..|].
    unfold f32_widen. rewrite Es, Ee, Em. simpl. rewrite Hbeq. reflexivity. }
  destruct ((-126 <=? e - 1023) && (e - 1023 <=? 127)) eqn:E1.
  { apply andb_true_iff in E1 as [H1%Z.leb_le H2%Z.leb_le].
    destruct (Z.eqb_spec (m mod 2 ^ 29) 0) as [Hz|]; [|discriminate]. intros [= <-].
    assert (Hdm : m = 2 ^ 29 * (m / 2 ^ 29)) by (pose proof (Z.div_mod m (2 ^ 29)); lia).
    assert (Hr : 0 <= m / 2 ^ 29 < 2 ^ 23) by lia.
    split; [apply f32_make_range; lia|].
    destruct (f32_fields s (e - 1023 + 127) (m / 2 ^ 29)) as (Es & Ee & Em); [lia..|].
    unfold f32_widen. rewrite Es, Ee, Em. zcmp.
    rewrite Hbeq. unfold f64_make. lia. }
  destruct ((-149 <=? e - 1023) && (e - 1023 <? -126)) eqn:E2; [|discriminate].
  apply andb_true_iff in E2 as [H1%Z.leb_le H2%Z.ltb_lt].
  set (sh := 29 + (-126 - (e - 1023))) in *.
  assert (Hsh : 30 <= sh <= 52) by lia.
  assert (Hp : 0 < 2 ^ sh) by (apply Z.pow_pos_nonneg; lia).
  destruct (Z.eqb_spec ((2 ^ 52 + m) mod 2 ^ sh) 0) as [Hz|]; [|discriminate]. intros [= <-].
  set (q := (2 ^ 52 + m) / 2 ^ sh).
  assert (Hq : 2 ^ 52 + m = q * 2 ^ sh).
  { unfold q. pose proof (Z.div_mod (2 ^ 52 + m) (2 ^ sh)). lia. }
  pose proof (subnormal_range m sh q Hm Hsh Hq) as Hqr.
  pose proof (subnormal_log2 m sh q Hm Hsh Hq) as Hl.
  split; [apply f32_make_range; lia|].
  destruct (f32_fields s 0 q) as (Es & Ee & Em); [lia..|].
  unfold f32_widen. rewrite Es, Ee, Em, Hl. zcmp.
  replace (52 - (52 - sh)) with sh by lia.
  rewrite (subnormal_mant m sh q Hsh Hq), Hbeq. unfold f64_make. lia.
Qed.

(** ** The reader makes progress and its fuel is only a bound *)

Lemma take_z_Some n cur h t :
  0 <= n -> take_z n cur = Some (h, t) <-> cur = h ++ t /\ blen h = n.
Proof.
  intros Hn. unfold take_z. destruct (Z.ltb_spec (blen cur) n) as [Hl|Hl].
  - split; [discriminate|]. intros [-> <-]. unfold blen in *. rewrite length_app in Hl. lia.
  - rewrite take_bytes_Some. unfold blen. split; intros [-> ?]; split; auto; lia.
Qed.

Lemma take_z_app h t : take_z (blen h) (h ++ t) = Some (h, t).
Proof. apply take_z_Some; [unfold blen; lia | auto]. Qed.

Lemma take_z_shrinks n cur h t : take_z n cur = Some (h, t) -> (length t <= length cur)%nat.
Proof.
  unfold take_z. destruct (_ <? _); [discriminate|].
  intros [-> _]%take_bytes_Some. rewrite length_app. lia.
Qed.

Lemma read_be_shrinks n cur v t :
  read_be n cur = Some (v, t) -> length cur = (n + length t)%nat.
Proof. intros (h & -> & <- & _)%read_be_Some. apply length_app. Qed.

(** Split a chain of option-monad reads into its steps. *)
Ltac opt_inv :=
  repeat match goal with
  | H : (_ ≫= _) = Some _ |- _ => apply bind_Some in H as ([? ?] & ? & H)
  | H : Some _ = Some _ |- _ => injection H as <- <-
  | H : None = Some _ |- _ => discriminate H
  end.

Lemma get_msgpack_string_shrinks tag cur s c :
  get_msgpack_string tag cur = Some (s, c) -> (length c <= length cur)%nat.
Proof.
  unfold get_msgpack_string. intros H.
  repeat case_match; opt_inv;
    repeat match goal with
    | H : take_z _ _ = Some _ |- _ => apply take_z_shrinks in H
    | H : read_be _ _ = Some _ |- _ => apply read_be_shrinks in H
    end; try discriminate; lia.
Qed.

Definition shrinks (p : bytes -> option (json * bytes)) : Prop :=
  forall cur v c, p cur = Some (v, c) -> (length c < length cur)%nat.

Lemma get_array_loop_shrinks p fuel len cur vs c :
  shrinks p -> get_array_loop p fuel len cur = Some (vs, c) -> (length c <= length cur)%nat.
Proof.
  intros Hp. revert len cur vs c. induction fuel as [|f IH]; intros len cur vs c; simpl.
  - case_match; intros [=]. subst. lia.
  - case_match; intros H'; opt_inv; [lia|].
    apply Hp in H0. apply IH in H1. lia.
Qed.

Lemma get_object_loop_shrinks p fuel len acc cur m c :
  shrinks p -> get_object_loop p fuel len acc cur = Some (m, c) -> (length c <= length cur)%nat.
Proof.
  intros Hp. revert len acc cur m c. induction fuel as [|f IH]; intros len acc cur m c; simpl.
  - case_match; intros [=]. subst. lia.
  - case_match; intros H'; opt_inv; [lia|].
    destruct cur as [|t cur]; [discriminate|]. opt_inv.
    apply get_msgpack_string_shrinks in H0. apply Hp in H1. apply IH in H'. simpl. lia.
Qed.

Lemma parse_tag_shrinks p t cur v c :
  shrinks p -> parse_tag p t cur = Some (v, c) -> (length c <= length cur)%nat.
Proof.
  intros Hp. unfold parse_tag, get_msgpack_object, get_msgpack_array, get_bin, get_ext, get_fixext.
  intros H.
  repeat match type of H with
  | (if ?b then _ else _) = _ => destruct b
  end; opt_inv;
    repeat match goal with
    | H : take_z _ _ = Some _ |- _ => apply take_z_shrinks in H
    | H : read_be _ _ = Some _ |- _ => apply read_be_shrinks in H
    | H : get_msgpack_string _ _ = Some _ |- _ => apply get_msgpack_string_shrinks in H
    | H : get_array_loop _ _ _ _ = Some _ |- _ => apply get_array_loop_shrinks in H; [|exact Hp]
    | H : get_object_loop _ _ _ _ _ = Some _ |- _ => apply get_object_loop_shrinks in H; [|exact Hp]
    end; lia.
Qed.

Lemma parse_msgpack_shrinks fuel : shrinks (parse_msgpack fuel).
Proof.
  induction fuel as [|f IH]; intros cur v c; [done|].
  destruct cur as [|t cur]; [done|]. simpl. intros H.
  apply parse_tag_shrinks in H; [lia | exact IH].
Qed.

(** Parsers that agree on every input of at most [n] bytes. *)
Definition agree (n : nat) (p q : bytes -> option (json * bytes)) : Prop :=
  forall cur, (length cur <= n)%nat -> p cur = q cur.

Lemma get_array_loop_agree p q n fuel len cur :
  shrinks q -> agree n p q -> (length cur <= n)%nat ->
  get_array_loop p fuel len cur = get_array_loop q fuel len cur.
Proof.
  intros Hq Ha. revert len cur. induction fuel as [|f IH]; intros len cur Hl; simpl; [done|].
  case_match; [done|]. rewrite Ha by done.
  destruct (q cur) as [[v c]|] eqn:E; simpl; [|done].
  apply Hq in E. rewrite IH by lia. done.
Qed.

Lemma get_object_loop_agree p q n fuel len acc cur :
  shrinks q -> agree n p q -> (length cur <= n)%nat ->
  get_object_loop p fuel len acc cur = get_object_loop q fuel len acc cur.
Proof.
  intros Hq Ha. revert len acc cur.
  induction fuel as [|f IH]; intros len acc cur Hl; simpl; [done|].
  case_match; [done|]. destruct cur as [|t cur]; [done|]. simpl in Hl.
  destruct (get_msgpack_string (byte_val t) cur) as [[k c]|] eqn:E; simpl; [|done].
  apply get_msgpack_string_shrinks in E. rewrite Ha by lia.
  destruct (q c) as [[v c']|] eqn:E'; simpl; [|done].
  apply Hq in E'. apply IH. lia.
Qed.

Lemma parse_tag_agree p q n t cur :
  shrinks q -> agree n p q -> (length cur <= n)%nat ->
  parse_tag p t cur = parse_tag q t cur.
Proof.
  intros Hq Ha Hl.
  assert (Harr : forall len c, (length c <= n)%nat ->
    get_msgpack_array p len c = get_msgpack_array q len c).
  { intros. unfold get_msgpack_array. by rewrite (get_array_loop_agree p q n). }
  assert (Hobj : forall len c, (length c <= n)%nat ->
    get_msgpack_object p len c = get_msgpack_object q len c).
  { intros. unfold get_msgpack_object. by rewrite (get_object_loop_agree p q n). }
  unfold parse_tag.
  repeat (case_match; [first [done | by rewrite ?Harr, ?Hobj by lia |
    match goal with |- context [read_be ?w cur] =>
      destruct (read_be w cur) as [[len c]|] eqn:Er; simpl; [|done];
      apply read_be_shrinks in Er; rewrite ?Harr, ?Hobj by lia; done end ] |]).
  done.
Qed.

(** More fuel than input bytes changes nothing. *)
Lemma parse_msgpack_fuel n fuel :
  (n <= fuel)%nat -> agree n (parse_msgpack fuel) (parse_msgpack n).
Proof.
  revert fuel. induction n as [|n IH]; intros fuel Hf cur Hc.
  - destruct cur; [|simpl in Hc; lia]. by destruct fuel.
  - destruct fuel as [|fuel]; [lia|]. simpl. destruct cur as [|t cur]; [done|].
    simpl in Hc. apply (parse_tag_agree _ _ n); [apply parse_msgpack_shrinks | | lia].
    apply IH. lia.
Qed.

(** ** Reading back what was written *)

Lemma byte_val_tag t : 0 <= t < 256 -> byte_val (byte_of t) = t.
Proof. apply byte_val_of_small. Qed.

(** One parser step on a control byte whose value is known. *)
Lemma parse_step f t rest :
  0 <= t < 256 -> parse_msgpack (S f) (byte_of t :: rest) = parse_tag (parse_msgpack f) t rest.
Proof. intros. cbn [parse_msgpack]. by rewrite byte_val_tag. Qed.

Lemma parse_step_fix f t rest :
  0 <= t < 256 ->
  parse_msgpack (S f) (be_bytes 1 t ++ rest) = parse_tag (parse_msgpack f) t rest.
Proof.
  intros. change (be_bytes 1 t) with [byte_of (Z.land t 255)].
  rewrite land_255, Z.mod_small by lia. by apply parse_step.
Qed.

Lemma lor_tag t N k : 0 <= k -> 0 <= N < 2 ^ k -> Z.lor (t * 2 ^ k) N = t * 2 ^ k + N.
Proof.
  intros. rewrite Z.lor_comm, <- Z.shiftl_mul_pow2, lor_shiftl_add_gen by lia.
  rewrite Z.shiftl_mul_pow2 by lia. lia.
Qed.

Lemma land_tag t N k : 0 <= k -> 0 <= N < 2 ^ k -> Z.land (t * 2 ^ k + N) (2 ^ k - 1) = N.
Proof.
  intros. rewrite land_ones_mod by lia.
  symmetry. apply (Z.mod_unique _ _ t); lia.
Qed.

Lemma write_unsigned_parse f z rest :
  0 <= z <= U64_MAX ->
  parse_msgpack (S f) (write_unsigned z ++ rest) = Some (JUInt z, rest).
Proof.
  unfold U64_MAX, write_unsigned, tagged, U32_MAX. intros Hz.
  destruct (Z.ltb_spec z 128); [rewrite parse_step_fix by lia; unfold parse_tag; zcmp; done|].
  repeat (zleb;
    [rewrite <- app_comm_cons, parse_step by lia; unfold parse_tag; cbn -[read_be be_bytes];
     rewrite read_be_app by lia; done|]).
  rewrite <- app_comm_cons, parse_step by lia. unfold parse_tag; cbn -[read_be be_bytes].
  rewrite read_be_app by lia. done.
Qed.

Lemma write_integer_parse f z rest :
  I64_MIN <= z <= I64_MAX ->
  parse_msgpack (S f) (write_integer z ++ rest) =
  Some (if 0 <=? z then JUInt z else JInt z, rest).
Proof.
  unfold I64_MIN, I64_MAX, write_integer, tagged. intros Hz.
  destruct (Z.leb_spec 0 z); [apply write_unsigned_parse; unfold U64_MAX; lia|].
  destruct (Z.leb_spec (-32) z).
  { rewrite be_bytes_mod. change (256 ^ Z.of_nat 1) with (2 ^ 8).
    assert (z mod 2 ^ 8 = z + 256) as -> by (symmetry; apply (Z.mod_unique _ _ (-1)); lia).
    rewrite parse_step_fix by lia. unfold parse_tag, to_signed. zcmp.
    change (2 ^ (8 - 1)) with 128. change (2 ^ 8) with 256. zcmp.
    do 3 f_equal. lia. }
  repeat (zleb;
    [rewrite <- app_comm_cons, parse_step by lia; unfold parse_tag; cbn -[read_be to_signed be_bytes];
     rewrite read_be_app_mod; cbn -[to_signed Z.pow];
     match goal with |- context [to_signed ?w _] => change (256 ^ _) with (2 ^ w) end;
     rewrite to_signed_mod by lia; done|]).
  rewrite <- app_comm_cons, parse_step by lia. unfold parse_tag; cbn -[read_be to_signed be_bytes].
  rewrite read_be_app_mod. cbn -[to_signed Z.pow].
  change (256 ^ _) with (2 ^ 64). rewrite to_signed_mod by lia. done.
Qed.

Lemma write_float_parse f b rest :
  0 <= b < 2 ^ 64 ->
  parse_msgpack (S f) (write_compact_float b ++ rest) = Some (JFloat (canon_float b), rest).
Proof.
  intros Hb. unfold write_compact_float, canon_float, tagged.
  destruct (f64_is_finite b).
  - destruct (f64_narrow_exact b) as [g|] eqn:E;
      rewrite <- app_comm_cons, parse_step by lia; unfold parse_tag; cbn -[read_be f32_widen be_bytes].
    + apply f64_narrow_exact_sound in E as [? <-]; [|lia].
      rewrite read_be_app by lia. done.
    + rewrite read_be_app by lia. done.
  - rewrite <- app_comm_cons, parse_step by lia. unfold parse_tag; cbn -[read_be f32_widen be_bytes].
    rewrite read_be_app by (pose proof (f64_narrow_nonfinite_range b Hb); lia). done.
Qed.

(** The header of a string, read back by [get_msgpack_string]. *)
Lemma write_string_header s rest :
  blen s < 2 ^ 32 ->
  exists t h, write_string s ++ rest = byte_of t :: h /\ 0 <= t < 256 /\
    ((0xA0 <= t <= 0xBF) \/ (0xD9 <= t <= 0xDB)) /\
    get_msgpack_string t h = Some (s, rest).
Proof.
  intros Hs. assert (0 <= blen s) by (unfold blen; lia).
  unfold write_string, tagged, U32_MAX.
  destruct (Z.leb_spec (blen s) 31).
  { exists (Z.lor 0xA0 (blen s)), (s ++ rest).
    change 0xA0 with (5 * 2 ^ 5). rewrite lor_tag by lia. split_and!; try lia.
    - change (be_bytes 1 ?t) with [byte_of (Z.land t 255)].
      rewrite land_255, Z.mod_small by lia. simpl. done.
    - unfold get_msgpack_string. zcmp. change 0x1F with (2 ^ 5 - 1).
      rewrite land_tag by lia. apply take_z_app. }
  repeat (zleb;
    [eexists _, _; split; [rewrite <- app_assoc; reflexivity|]; split; [lia|]; split; [lia|];
     unfold get_msgpack_string; cbn -[read_be take_z be_bytes];
     rewrite read_be_app by lia; cbn -[take_z]; apply take_z_app|]).
  lia.
Qed.

Lemma write_string_parse f s rest :
  blen s < 2 ^ 32 ->
  parse_msgpack (S f) (write_string s ++ rest) = Some (JString s, rest).
Proof.
  intros (t & h & -> & Ht & Hr & Hg)%(fun H => write_string_header s rest H).
  rewrite parse_step by lia. unfold parse_tag. rewrite Hg.
  destruct Hr; zcmp; done.
Qed.

Local Ltac read_ext :=
  rewrite <- ?app_comm_cons, parse_step by lia;
  unfold parse_tag, get_fixext, get_ext, get_bin; cbn -[read_be take_z be_bytes];
  rewrite ?read_be_app by lia; cbn -[read_be take_z be_bytes];
  rewrite ?read_be_app by lia; cbn -[take_z].

Lemma write_binary_parse f o b rest :
  blen b < 2 ^ 32 -> match o with Some t => 0 <= t < 256 | None => True end ->
  parse_msgpack (S f) (write_binary o b ++ rest) = Some (JBinary o b, rest).
Proof.
  intros Hb Ho. assert (0 <= blen b) by (unfold blen; lia).
  unfold write_binary, tagged, U32_MAX. rewrite <- !app_assoc.
  destruct o as [t|].
  - zleb.
    { repeat match goal with |- context [if ?x =? ?y then _ else _] =>
        destruct (Z.eqb_spec x y) as [Heq|_]; [read_ext; rewrite <- Heq, take_z_app; done|] end.
      read_ext. rewrite take_z_app. done. }
    repeat (zleb; [read_ext; rewrite take_z_app; done|]). lia.
  - repeat (zleb; [read_ext; rewrite take_z_app; done|]). lia.
Qed.

Lemma write_array_parse f N rest :
  0 <= N < 2 ^ 32 ->
  parse_msgpack (S f) (write_array_header N ++ rest) =
  get_msgpack_array (parse_msgpack f) N rest.
Proof.
  intros HN. unfold write_array_header, tagged, U32_MAX.
  destruct (Z.leb_spec N 15).
  { change 0x90 with (9 * 2 ^ 4). rewrite lor_tag, parse_step_fix by lia.
    unfold parse_tag. zcmp. change 0x0F with (2 ^ 4 - 1). rewrite land_tag by lia. done. }
  repeat (zleb; [rewrite <- app_comm_cons, parse_step by lia; unfold parse_tag;
    cbn -[read_be be_bytes get_msgpack_array]; rewrite read_be_app by lia; done|]).
  lia.
Qed.

Lemma write_map_parse f N rest :
  0 <= N < 2 ^ 32 ->
  parse_msgpack (S f) (write_map_header N ++ rest) =
  get_msgpack_object (parse_msgpack f) N rest.
Proof.
  intros HN. unfold write_map_header, tagged, U32_MAX.
  destruct (Z.leb_spec N 15).
  { change 15 with (2 ^ 4 - 1). rewrite land_ones_mod, Z.mod_small by lia.
    change 0x80 with (8 * 2 ^ 4). rewrite lor_tag, parse_step_fix by lia.
    unfold parse_tag. zcmp. change 0x0F with (2 ^ 4 - 1). rewrite land_tag by lia. done. }
  repeat (zleb; [rewrite <- app_comm_cons, parse_step by lia; unfold parse_tag;
    cbn -[read_be be_bytes get_msgpack_object]; rewrite read_be_app by lia; done|]).
  lia.
Qed.

Lemma write_array_header_nonempty N : 0 <= N < 2 ^ 32 -> write_array_header N <> [].
Proof.
  intros. unfold write_array_header, tagged, U32_MAX.
  repeat (zleb; [done|]). lia.
Qed.

Lemma write_map_header_nonempty N : 0 <= N < 2 ^ 32 -> write_map_header N <> [].
Proof.
  intros. unfold write_map_header, tagged, U32_MAX.
  repeat (zleb; [done|]). lia.
Qed.

(** Every value writes at least its control byte. *)
Lemma write_msgpack_nonempty j : json_wf j -> write_msgpack j <> [].
Proof.
  destruct j; intros Hwf; cbn [write_msgpack]; try done.
  - unfold write_integer, write_unsigned, tagged. repeat case_match; done.
  - unfold write_unsigned, tagged. repeat case_match; done.
  - unfold write_compact_float, tagged. repeat case_match; done.
  - destruct (write_string_header s [] Hwf) as (t & h & H & _). rewrite app_nil_r in H.
    rewrite H. done.
  - destruct Hwf as [Hl _]. unfold write_binary, tagged, U32_MAX.
    assert (0 <= blen b) by (unfold blen; lia).
    repeat (zleb; [repeat case_match; done|]). lia.
  - apply json_wf_array in Hwf as [? _].
    intros [? _]%app_nil. by apply (write_array_header_nonempty (Z.of_nat (length l))); [lia|].
  - apply json_wf_object in Hwf as (? & _).
    intros [? _]%app_nil. by apply (write_map_header_nonempty (Z.of_nat (length m))); [lia|].
Qed.

(** Reading back one value, whatever follows it. *)
Definition reads_back (f : nat) (j : json) : Prop :=
  forall rest, parse_msgpack f (write_msgpack j ++ rest) = Some (canon j, rest).

Lemma get_array_loop_written f l k rest :
  Forall (reads_back f) l -> (length l <= k)%nat ->
  get_array_loop (parse_msgpack f) k (Z.of_nat (length l)) (flat_map write_msgpack l ++ rest) =
  Some (map canon l, rest).
Proof.
  intros Hl. revert k. induction Hl as [|j l Hj Hl IH]; intros k Hk.
  - destruct k; done.
  - destruct k as [|k]; [simpl in Hk; lia|].
    cbn [length flat_map map get_array_loop]. zcmp.
    rewrite <- app_assoc, Hj. simpl.
    replace (Z.of_nat (S (length l)) - 1) with (Z.of_nat (length l)) by lia.
    rewrite IH by (simpl in Hk; lia). done.
Qed.

Definition canon_kv (kv : bytes * json) : bytes * json := (kv.1, canon kv.2).

Lemma get_object_loop_written f m k acc rest :
  Forall (fun kv => reads_back f kv.2) m ->
  Forall (fun kv => blen kv.1 < 2 ^ 32) m ->
  obj_sorted (acc ++ map canon_kv m) -> (length m <= k)%nat ->
  get_object_loop (parse_msgpack f) k (Z.of_nat (length m)) acc
    (flat_map (fun kv => write_string kv.1 ++ write_msgpack kv.2) m ++ rest) =
  Some (acc ++ map canon_kv m, rest).
Proof.
  intros Hm Hs. revert k acc. induction Hm as [|[key j] m Hj Hm IH]; intros k acc Hacc Hk.
  - simpl. rewrite app_nil_r. destruct k; done.
  - apply Forall_cons in Hs as [Hkey Hs]. simpl in Hkey, Hj.
    destruct k as [|k]; [simpl in Hk; lia|].
    cbn [length flat_map map get_object_loop fst snd canon_kv] in *. zcmp.
    rewrite <- !app_assoc.
    destruct (write_string_header key (write_msgpack j ++
      flat_map (fun kv => write_string kv.1 ++ write_msgpack kv.2) m ++ rest) Hkey)
      as (t & h & -> & Ht & _ & Hg).
    rewrite byte_val_tag by lia. rewrite Hg. simpl. rewrite Hj. simpl.
    rewrite obj_insert_snoc.
    + replace (Z.of_nat (S (length m)) - 1) with (Z.of_nat (length m)) by lia.
      rewrite IH; [by rewrite <- app_assoc | done | by rewrite <- app_assoc | lia].
    + unfold obj_sorted in Hacc. rewrite map_app in Hacc. simpl in Hacc.
      apply Forall_forall. intros [a va] Ha. simpl.
      eapply StronglySorted_app_1_elem_of; [exact Hacc| |left].
      apply list_elem_of_fmap. by exists (a, va).
Qed.

Lemma flat_map_length_ge {A} (g : A -> bytes) l :
  Forall (fun x => g x <> []) l -> (length l <= length (flat_map g l))%nat.
Proof.
  induction 1 as [|x l Hx Hl IH]; simpl; [lia|].
  rewrite length_app. destruct (g x); [done|]. simpl. lia.
Qed.

Lemma flat_map_elem_length {A} (g : A -> bytes) l x :
  x ∈ l -> (length (g x) <= length (flat_map g l))%nat.
Proof.
  induction 1; simpl; rewrite length_app; lia.
Qed.

Lemma obj_sorted_canon m : obj_sorted m -> obj_sorted (map canon_kv m).
Proof. unfold obj_sorted. rewrite map_map. done. Qed.

Lemma canon_object m : canon (JObject m) = JObject (map canon_kv m).
Proof. reflexivity. Qed.

(** With fuel for the value's nesting, the reader returns the canonical value. *)
Lemma parse_write_msgpack j :
  json_wf j -> forall f, (json_depth j < f)%nat -> reads_back f j.
Proof.
  induction j using json_ind'; intros Hwf f Hf rest; (destruct f as [|f]; [lia|]).
  - done.
  - cbn [write_msgpack app]. rewrite parse_step by (destruct b; lia). by destruct b.
  - apply write_integer_parse. exact Hwf.
  - apply write_unsigned_parse. exact Hwf.
  - apply write_float_parse. exact Hwf.
  - apply write_string_parse. exact Hwf.
  - destruct Hwf. by apply write_binary_parse.
  - pose proof Hwf as [Hlen Hl]%json_wf_array. cbn [write_msgpack canon json_depth] in *.
    rewrite <- app_assoc, write_array_parse by lia. unfold get_msgpack_array.
    rewrite get_array_loop_written; [done| |].
    + apply Forall_forall. intros x Hx. rewrite Forall_forall in H, Hl.
      apply H; auto.
      assert (json_depth x < depth_above (map json_depth l))%nat
        by (apply depth_above_elem, list_elem_of_fmap; eauto). lia.
    + rewrite length_app.
      pose proof (flat_map_length_ge write_msgpack l
        (Forall_impl _ _ _ Hl write_msgpack_nonempty)). lia.
  - pose proof Hwf as (Hlen & Hsort & Hm)%json_wf_object.
    cbn [write_msgpack json_depth] in *. rewrite canon_object.
    rewrite <- app_assoc, write_map_parse by lia. unfold get_msgpack_object.
    rewrite get_object_loop_written; [done| | | |].
    + apply Forall_forall. intros kv Hkv. rewrite Forall_forall in H, Hm.
      apply H; [done|apply Hm; done|].
      assert (json_depth kv.2 < depth_above (map (fun kv => json_depth kv.2) m))%nat
        by (apply depth_above_elem, list_elem_of_fmap; eauto). lia.
    + eapply Forall_impl; [exact Hm|]. by intros kv [? _].
    + by apply obj_sorted_canon.
    + rewrite length_app.
      assert (length m <= length (flat_map
        (fun kv => write_string kv.1 ++ write_msgpack kv.2) m))%nat; [|lia].
      apply flat_map_length_ge. eapply Forall_impl; [exact Hm|].
      intros kv [_ Hkv] [_ ?]%app_nil. by apply (write_msgpack_nonempty kv.2).
Qed.

Lemma nonempty_length_pos (h : bytes) : h <> [] -> (0 < length h)%nat.
Proof. destruct h; simpl; [done|lia]. Qed.

(** Every nesting level writes its own control byte. *)
Lemma json_depth_lt_length j : json_wf j -> (json_depth j < length (write_msgpack j))%nat.
Proof.
  induction j using json_ind'; intros Hwf;
    try (apply nonempty_length_pos, write_msgpack_nonempty; exact Hwf).
  - pose proof Hwf as [Hlen Hl]%json_wf_array. cbn [json_depth write_msgpack].
    rewrite length_app.
    pose proof (nonempty_length_pos _ (write_array_header_nonempty (Z.of_nat (length l)) ltac:(lia))).
    assert (depth_above (map json_depth l) <= length (flat_map write_msgpack l))%nat; [|lia].
    apply depth_above_le. intros d Hd.
    apply list_elem_of_fmap in Hd as (x & -> & Hx). rewrite Forall_forall in H, Hl.
    specialize (H x Hx (Hl x Hx)). pose proof (flat_map_elem_length write_msgpack l x Hx). lia.
  - pose proof Hwf as (Hlen & _ & Hm)%json_wf_object. cbn [json_depth write_msgpack].
    rewrite length_app.
    pose proof (nonempty_length_pos _ (write_map_header_nonempty (Z.of_nat (length m)) ltac:(lia))).
    set (g := fun kv : bytes * json => write_string kv.1 ++ write_msgpack kv.2).
    assert (depth_above (map (fun kv => json_depth kv.2) m) <= length (flat_map g m))%nat; [|lia].
    apply depth_above_le. intros d Hd.
    apply list_elem_of_fmap in Hd as (x & -> & Hx). rewrite Forall_forall in H, Hm.
    specialize (H x Hx (proj2 (Hm x Hx))).
    pose proof (flat_map_elem_length g m x Hx) as Hg. unfold g at 1 in Hg.
    rewrite length_app in Hg. lia.
Qed.

(** ** Properties *)

Lemma from_to_msgpack (j : json) : json_wf j -> from_msgpack (to_msgpack j) = Some (canon j).
Proof.
  intros Hwf. unfold from_msgpack, to_msgpack.
  pose proof (parse_write_msgpack j Hwf _ (json_depth_lt_length j Hwf) []) as H.
  rewrite app_nil_r in H. by rewrite H.
Qed.

(** C38: every well-formed JSON value that is written as MessagePack is read back
    completely, and as the canonical form of the same value. *)
Theorem msgpack_roundtrip (j : json) :
  json_wf j -> from_msgpack (to_msgpack j) = Some (canon j).
Proof. apply from_to_msgpack. Qed.

(** The reader's nesting bound is no restriction: with any fuel of at least
    the input's length the parser gives the same answer, failures included. *)
Theorem from_msgpack_fuel (fuel : nat) (bs : bytes) :
  (length bs <= fuel)%nat -> parse_msgpack fuel bs = parse_msgpack (length bs) bs.
Proof. intros H. by apply parse_msgpack_fuel. Qed.

Definition sample_row : json :=
  JObject [(str "_deleted", JBool false); (str "id", JString (str "u1"));
           (str "n", JInt (-7)); (str "v", JArray [JFloat 0x3ff8000000000000; JUInt 300])].

Lemma sample_row_wf : json_wf sample_row.
Proof.
  repeat split; try (vm_compute; congruence);
    repeat constructor; vm_compute; congruence.
Qed.

Lemma msgpack_roundtrip_witness :
  from_msgpack (to_msgpack sample_row) = Some (canon sample_row).
Proof. apply (msgpack_roundtrip sample_row). apply sample_row_wf. Defined.

Lemma from_msgpack_fuel_witness :
  parse_msgpack 9 (to_msgpack (JUInt 300)) = parse_msgpack 3 (to_msgpack (JUInt 300)).
Proof. apply (from_msgpack_fuel 9 (to_msgpack (JUInt 300))). vm_compute. lia. Defined.
