(* ===== verification/RowView.v ===== *)
(** * MessagePack rows of SST blocks

    [MsgpackRowView] and its helpers in [storage_format_v2.cpp]: the skipping
    scanner, the selective decoder and the field index over an encoded row.
    A [const uint8_t* cursor] with its [end] is the list of remaining bytes;
    a helper that returns [false] gives [None]. *)

From S2P Require Import Prelude Json Msgpack.
From stdpp Require Import base list strings numbers sorting.
From Stdlib Require Import ZArith Lia.

Open Scope Z_scope.

(** [readBigEndian(cursor, end, bytes, value)]. *)
Definition readBigEndian (n : nat) (cur : bytes) : option (Z * bytes) := read_be n cur.

(** [cursor += count] guarded by [end - cursor < count]. *)
Definition skip_bytes (count : Z) (cur : bytes) : option bytes :=
  if blen cur <? count then None else Some (drop (Z.to_nat count) cur).

Section Skip.
Variable skip : bytes -> option bytes.

(** The element loops; every element consumes a byte, so [length cur] rounds
    are enough. *)
Fixpoint skip_loop (fuel : nat) (count : Z) (cur : bytes) : option bytes :=
  if count <=? 0 then Some cur
  else match fuel with
       | O => None
       | S f => c ← skip cur; skip_loop f (count - 1) c
       end.

Fixpoint skip_pair_loop (fuel : nat) (count : Z) (cur : bytes) : option bytes :=
  if count <=? 0 then Some cur
  else match fuel with
       | O => None
       | S f => c ← skip cur; c ← skip c; skip_pair_loop f (count - 1) c
       end.

(** The [switch (tag)] that sets [fixed]; [None] is its [default]. *)
Definition fixed_bytes (tag : Z) : option nat :=
  if (tag =? 0xc4) || (tag =? 0xd9) then Some 1%nat
  else if (tag =? 0xc5) || (tag =? 0xda) then Some 2%nat
  else if (tag =? 0xc6) || (tag =? 0xdb) then Some 4%nat
  else if tag =? 0xc7 then Some 1%nat
  else if tag =? 0xc8 then Some 2%nat
  else if tag =? 0xc9 then Some 4%nat
  else if (tag =? 0xca) || (tag =? 0xce) || (tag =? 0xd2) then Some 4%nat
  else if (tag =? 0xcb) || (tag =? 0xcf) || (tag =? 0xd3) then Some 8%nat
  else if (tag =? 0xcc) || (tag =? 0xd0) then Some 1%nat
  else if (tag =? 0xcd) || (tag =? 0xd1) then Some 2%nat
  else if tag =? 0xd4 then Some 2%nat
  else if tag =? 0xd5 then Some 3%nat
  else if tag =? 0xd6 then Some 5%nat
  else if tag =? 0xd7 then Some 9%nat
  else if tag =? 0xd8 then Some 17%nat
  else if tag =? 0xdc then Some 2%nat
  else if tag =? 0xdd then Some 4%nat
  else if tag =? 0xde then Some 2%nat
  else if tag =? 0xdf then Some 4%nat
  else None.

Definition skip_tag (tag : Z) (cur : bytes) : option bytes :=
  if (tag <=? 0x7f) || (0xe0 <=? tag) || (tag =? 0xc0) || (tag =? 0xc2) || (tag =? 0xc3)
  then Some cur
  else if Z.land tag 0xe0 =? 0xa0 then skip_bytes (Z.land tag 0x1f) cur
  else if Z.land tag 0xf0 =? 0x90 then skip_loop (length cur) (Z.land tag 0x0f) cur
  else if Z.land tag 0xf0 =? 0x80 then skip_pair_loop (length cur) (Z.land tag 0x0f) cur
  else
    fixed ← fixed_bytes tag;
    if (0xca <=? tag) && (tag <=? 0xd8) then skip_bytes (Z.of_nat fixed) cur
    else
      '(count, c) ← readBigEndian fixed cur;
      let count := if (tag =? 0xc7) || (tag =? 0xc8) || (tag =? 0xc9) then count + 1 else count in
      if (tag =? 0xdc) || (tag =? 0xdd) then skip_loop (length c) count c
      else if (tag =? 0xde) || (tag =? 0xdf) then skip_pair_loop (length c) count c
      else skip_bytes count c.
End Skip.

(** [skipMsgpack(cursor, end, depth)] with [levels = 65 - depth]: the guard
    [depth > 64] is [levels = 0]. *)
Fixpoint skip_levels (levels : nat) (cur : bytes) : option bytes :=
  match levels with
  | O => None
  | S l => match cur with
           | [] => None
           | t :: c => skip_tag (skip_levels l) (byte_val t) c
           end
  end.

Definition skipMsgpack (cur : bytes) : option bytes := skip_levels 65 cur.

Definition readMsgpackString (cur : bytes) : option (bytes * bytes) :=
  match cur with
  | [] => None
  | t :: c =>
      let tag := byte_val t in
      '(size, c) ←
        (if Z.land tag 0xe0 =? 0xa0 then Some (Z.land tag 0x1f, c)
         else if tag =? 0xd9 then readBigEndian 1 c
         else if tag =? 0xda then readBigEndian 2 c
         else if tag =? 0xdb then readBigEndian 4 c
         else None);
      if blen c <? size then None
      else Some (take (Z.to_nat size) c, drop (Z.to_nat size) c)
  end.

(** [decodeMsgpackField(begin, end)]: scalars are decoded in place, everything
    else (and every scalar that does not fill the span) goes to the library's
    decoder; [None] is a thrown exception. *)
Definition decodeMsgpackField (span : bytes) : option json :=
  match span with
  | [] => from_msgpack span
  | t :: cur =>
      let tag := byte_val t in
      if bool_decide (cur = []) && (tag <=? 0x7f) then Some (JUInt tag)
      else if bool_decide (cur = []) && (0xe0 <=? tag) then Some (JInt (tag - 256))
      else if bool_decide (cur = []) && (tag =? 0xc0) then Some JNull
      else if bool_decide (cur = []) && ((tag =? 0xc2) || (tag =? 0xc3))
      then Some (JBool (tag =? 0xc3))
      else if ((0xcc <=? tag) && (tag <=? 0xcf)) || ((0xd0 <=? tag) && (tag <=? 0xd3)) then
        let isSigned := 0xd0 <=? tag in
        let width := Z.shiftl 1 (tag - (if isSigned then 0xd0 else 0xcc)) in
        match readBigEndian (Z.to_nat width) cur with
        | Some (bits, []) =>
            if negb isSigned then Some (JUInt bits)
            else
              let bits := if (width <? 8) && Z.testbit bits (width * 8 - 1)
                          then Z.lor bits (u64 (Z.shiftl U64_MAX (width * 8))) else bits in
              Some (JInt (to_signed 64 bits))
        | _ => from_msgpack span
        end
      else if (tag =? 0xca) || (tag =? 0xcb) then
        match readBigEndian (if tag =? 0xca then 4 else 8) cur with
        | Some (bits, []) => Some (JFloat (if tag =? 0xca then f32_widen (u32 bits) else bits))
        | _ => from_msgpack span
        end
      else if (Z.land tag 0xe0 =? 0xa0) || (tag =? 0xd9) || (tag =? 0xda) || (tag =? 0xdb) then
        match readMsgpackString span with
        | Some (value, []) => Some (JString value)
        | _ => from_msgpack span
        end
      else from_msgpack span
  end.

(** ** Row views *)

Record FieldSpan := { fs_name : bytes; fs_span : bytes }.

(** A [MsgpackRowView]: the row's bytes, [indexed_], and the result of
    [buildFieldIndex] in [fields_]/[fieldCount_] and [indexValid_]. *)
Record MsgpackRowView := {
  rv_data : bytes;
  rv_indexed : bool;
  rv_fields : list FieldSpan;
  rv_indexValid : bool;
}.

Definition kFieldSlots : nat := 32.

(** The map header every row reader starts with. *)
Definition rowHeader (data : bytes) : option (Z * bytes) :=
  match data with
  | [] => None
  | t :: cur =>
      let tag := byte_val t in
      if Z.land tag 0xf0 =? 0x80 then Some (Z.land tag 0x0f, cur)
      else if tag =? 0xde then readBigEndian 2 cur
      else if tag =? 0xdf then readBigEndian 4 cur
      else None
  end.

(** The control byte is one of the three map headers. *)
Definition isMapTag (data : bytes) : bool :=
  match data with
  | [] => false
  | t :: _ => let tag := byte_val t in
              (Z.land tag 0xf0 =? 0x80) || (tag =? 0xde) || (tag =? 0xdf)
  end.

(** One [key, value span] step of the row loops. *)
Definition readField (cur : bytes) : option (FieldSpan * bytes) :=
  '(name, vbegin) ← readMsgpackString cur;
  c ← skipMsgpack vbegin;
  Some ({| fs_name := name; fs_span := take (length vbegin - length c) vbegin |}, c).

(** The loop of [buildFieldIndex]: spans are kept while there are free slots.
    The first component says whether the loop ran to its end. *)
Fixpoint index_loop (fuel : nat) (count : Z) (fields : list FieldSpan) (cur : bytes)
  : list FieldSpan * option bytes :=
  if count <=? 0 then (fields, Some cur)
  else match fuel with
       | O => (fields, None)
       | S f =>
           match readField cur with
           | None => (fields, None)
           | Some (span, c) =>
               index_loop f (count - 1)
                 (if (length fields <? kFieldSlots)%nat then fields ++ [span] else fields) c
           end
       end.

Definition buildFieldIndex (data : bytes) : list FieldSpan * bool :=
  match rowHeader data with
  | None => ([], false)
  | Some (count, cur) =>
      let '(fields, rest) := index_loop (length cur) count [] cur in
      (fields, match rest with Some [] => true | _ => false end)
  end.

Definition mkRowView (data : bytes) (indexFields : bool) : MsgpackRowView :=
  let '(fields, valid) := if indexFields then buildFieldIndex data else ([], false) in
  {| rv_data := data; rv_indexed := indexFields; rv_fields := fields; rv_indexValid := valid |}.

Definition find_span (name : bytes) (fields : list FieldSpan) : option FieldSpan :=
  list_find (fun s => fs_name s = name) fields ≫= fun p => Some p.2.

(** The unindexed scan of [field]. *)
Fixpoint scan_loop (fuel : nat) (count : Z) (name : bytes) (cur : bytes) : option json :=
  if count <=? 0 then None
  else match fuel with
       | O => None
       | S f =>
           '(span, c) ← readField cur;
           if bool_decide (fs_name span = name) then decodeMsgpackField (fs_span span)
           else scan_loop f (count - 1) name c
       end.

Definition scan_field (data : bytes) (name : bytes) : option json :=
  '(count, cur) ← rowHeader data; scan_loop (length cur) count name cur.

(** [MsgpackRowView::field]; [nullopt] is [None]. *)
Definition field (row : MsgpackRowView) (name : bytes) : option json :=
  if rv_indexed row then
    if negb (rv_indexValid row) then None
    else match find_span name (rv_fields row) with
         | Some span => decodeMsgpackField (fs_span span)
         | None =>
             if (length (rv_fields row) <? kFieldSlots)%nat then None
             else scan_field (rv_data row) name
         end
  else scan_field (rv_data row) name.

(** [MsgpackRowView::project]: decode the selected fields in one pass. *)
Fixpoint project_loop (fuel : nat) (count : Z) (names : list bytes) (selected : object)
    (cur : bytes) : result (object * bytes) :=
  if count <=? 0 then Ok (selected, cur)
  else match fuel with
       | O => Err "invalid MessagePack field name"
       | S f =>
           '(key, value) ← or_err (readMsgpackString cur) "invalid MessagePack field name";
           c ← or_err (skipMsgpack value) "invalid MessagePack field value";
           if bool_decide (key ∈ names) && negb (json_contains key (JObject selected)) then
             v ← or_err (decodeMsgpackField (take (length value - length c) value)) "parse_error";
             project_loop f (count - 1) names (obj_insert key v selected) c
           else project_loop f (count - 1) names selected c
       end.

Definition project (row : MsgpackRowView) (names : list bytes) : result json :=
  if rv_indexed row then
    _ ← guard_err (rv_indexValid row) "invalid indexed MessagePack row";
    Ok (JObject (fold_left (fun selected name =>
      match field row name with
      | Some value => obj_insert name value selected
      | None => selected
      end) names []))
  else
    _ ← guard_err (negb (bool_decide (rv_data row = []))) "empty MessagePack row";
    _ ← guard_err (isMapTag (rv_data row)) "MessagePack row must be an object";
    '(count, cur) ← or_err (rowHeader (rv_data row)) "invalid MessagePack row map";
    '(selected, c) ← project_loop (length cur) count names [] cur;
    _ ← guard_err (bool_decide (c = [])) "trailing MessagePack row bytes";
    Ok (JObject selected).

(** [MsgpackRowView::materialize]. *)
Definition materialize (row : MsgpackRowView) : result json :=
  _ ← guard_err (negb (bool_decide (rv_data row = []))) "empty MessagePack row";
  or_err (from_msgpack (rv_data row)) "parse_error".

(** ** Control bytes *)

(** A boolean fact about control bytes, checked on all 256 of them. *)
Lemma tag_forall (P : Z -> bool) :
  forallb P (map Z.of_nat (seq 0 256)) = true -> forall t, 0 <= t < 256 -> P t = true.
Proof.
  intros H t Ht. rewrite forallb_forall in H. apply H.
  apply in_map_iff. exists (Z.to_nat t). split; [lia|]. apply in_seq. lia.
Qed.

Lemma mask_fixstr t : 0 <= t < 256 -> (Z.land t 0xe0 =? 0xa0) = (0xa0 <=? t) && (t <=? 0xbf).
Proof.
  intros Ht. apply eqb_true_iff. revert t Ht. apply tag_forall. vm_compute. reflexivity.
Qed.

Lemma mask_fixarray t : 0 <= t < 256 -> (Z.land t 0xf0 =? 0x90) = (0x90 <=? t) && (t <=? 0x9f).
Proof.
  intros Ht. apply eqb_true_iff. revert t Ht. apply tag_forall. vm_compute. reflexivity.
Qed.

Lemma mask_fixmap t : 0 <= t < 256 -> (Z.land t 0xf0 =? 0x80) = (0x80 <=? t) && (t <=? 0x8f).
Proof.
  intros Ht. apply eqb_true_iff. revert t Ht. apply tag_forall. vm_compute. reflexivity.
Qed.

Lemma skip_bytes_take n cur h c : take_z n cur = Some (h, c) -> skip_bytes n cur = Some c.
Proof.
  unfold take_z, skip_bytes. destruct (_ <? _); [done|].
  unfold take_bytes. case_match; [done|]. by intros [= <- <-].
Qed.

Lemma skip_bytes_Some n cur c :
  0 <= n -> skip_bytes n cur = Some c <-> exists h, cur = h ++ c /\ blen h = n.
Proof.
  intros Hn. unfold skip_bytes, blen. destruct (Z.ltb_spec (Z.of_nat (length cur)) n); split.
  - done.
  - intros (h & -> & <-). rewrite length_app in *. lia.
  - intros [= <-]. exists (take (Z.to_nat n) cur). rewrite take_drop, length_take. split; [done|lia].
  - intros (h & -> & <-). rewrite Nat2Z.id, drop_app_length. done.
Qed.

Lemma skip_bytes_read n cur v c : read_be n cur = Some (v, c) -> skip_bytes (Z.of_nat n) cur = Some c.
Proof.
  intros (h & -> & <- & _)%read_be_Some. apply skip_bytes_Some; [lia|]. by exists h.
Qed.

Lemma skip_bytes_add a b cur c1 c2 :
  0 <= a -> 0 <= b -> skip_bytes a cur = Some c1 -> skip_bytes b c1 = Some c2 ->
  skip_bytes (a + b) cur = Some c2.
Proof.
  intros Ha Hb (h & -> & Hh)%skip_bytes_Some (h' & -> & Hh')%skip_bytes_Some; [|done..].
  apply skip_bytes_Some; [lia|]. exists (h ++ h'). rewrite app_assoc. split; [done|].
  unfold blen in *. rewrite length_app. lia.
Qed.

Lemma read_be_nonneg n cur v c : read_be n cur = Some (v, c) -> 0 <= v.
Proof. intros (h & _ & _ & ->)%read_be_Some. apply be_value_range. Qed.

(** The two string readers are the same function. *)
Lemma readMsgpackString_get t cur :
  readMsgpackString (t :: cur) = get_msgpack_string (byte_val t) cur.
Proof.
  pose proof (byte_val_range t) as Ht. unfold readMsgpackString, get_msgpack_string.
  rewrite mask_fixstr by lia.
  assert (Htake : forall n c, 0 <= n ->
    (if blen c <? n then None else Some (take (Z.to_nat n) c, drop (Z.to_nat n) c)) = take_z n c).
  { intros n c Hn. unfold take_z, take_bytes, blen. destruct (Z.ltb_spec (Z.of_nat (length c)) n); [done|].
    destruct (Nat.ltb_spec (length c) (Z.to_nat n)); [lia|done]. }
  assert (Hrd : forall w c, (readBigEndian w c ≫= fun '(size, c) =>
      if blen c <? size then None else Some (take (Z.to_nat size) c, drop (Z.to_nat size) c)) =
    (read_be w c ≫= fun '(len, c) => take_z len c)).
  { intros w c. unfold readBigEndian. destruct (read_be w c) as [[v c']|] eqn:E; [|done]. simpl.
    apply Htake. apply read_be_Some in E as (h & _ & _ & ->). apply be_value_range. }
  destruct ((0xa0 <=? byte_val t) && (byte_val t <=? 0xbf)).
  { simpl. apply Htake. apply Z.land_nonneg. lia. }
  repeat (case_match; [apply Hrd|]). done.
Qed.

(** ** The scanner follows the reader *)

(** [s] skips exactly what [p] reads. *)
Definition follows (s : bytes -> option bytes) (p : bytes -> option (json * bytes)) : Prop :=
  forall cur v c, p cur = Some (v, c) -> s cur = Some c.

Lemma skip_loop_follows s p fuel len cur vs c :
  follows s p -> get_array_loop p fuel len cur = Some (vs, c) ->
  skip_loop s fuel len cur = Some c.
Proof.
  intros Hf. revert len cur vs c. induction fuel as [|f IH]; intros len cur vs c; simpl.
  - case_match; intros H'; opt_inv. done.
  - case_match; intros H'; opt_inv; [done|]. rewrite (Hf _ _ _ H0). simpl. eauto.
Qed.

Section TagFollows.
Variables (s : bytes -> option bytes) (p : bytes -> option (json * bytes)).
Hypothesis Hf : follows s p.
(** The key strings of a map are skipped like any other value. *)
Hypothesis Hk : forall t cur k c v c',
  get_msgpack_string (byte_val t) cur = Some (k, c) -> p c = Some (v, c') ->
  s (t :: cur) = Some c.

Lemma skip_pair_loop_follows fuel len acc cur m c :
  get_object_loop p fuel len acc cur = Some (m, c) ->
  skip_pair_loop s fuel len cur = Some c.
Proof using All.
  revert len acc cur m c. induction fuel as [|f IH]; intros len acc cur m c; simpl.
  - case_match; intros H'; opt_inv. done.
  - case_match; intros H'; opt_inv; [done|]. destruct cur as [|t cur]; [done|]. opt_inv.
    rewrite (Hk _ _ _ _ _ _ H0 H1). simpl. rewrite (Hf _ _ _ H1). simpl. eauto.
Qed.

Lemma skip_tag_string t cur k c :
  0 <= t < 256 -> get_msgpack_string t cur = Some (k, c) -> skip_tag s t cur = Some c.
Proof using Type.
  intros Ht. unfold get_msgpack_string, skip_tag.
  destruct ((0xA0 <=? t) && (t <=? 0xBF)) eqn:E.
  { apply andb_true_iff in E as [?%Z.leb_le ?%Z.leb_le]. intros Hg.
    rewrite mask_fixstr by lia. zcmp. eapply skip_bytes_take; eauto. }
  intros Hg.
  repeat match type of Hg with
  | (if ?t =? ?v then _ else _) = _ => destruct (Z.eqb_spec t v) as [->|_]
  end; [..|done]; opt_inv; cbn -[skip_bytes read_be readBigEndian]; unfold readBigEndian;
    rewrite H; cbn -[skip_bytes]; eapply skip_bytes_take; eauto.
Qed.

Lemma skip_tag_follows t cur v c :
  0 <= t < 256 -> parse_tag p t cur = Some (v, c) -> skip_tag s t cur = Some c.
Proof using All.
  intros Ht. unfold parse_tag.
  destruct (Z.leb_spec t 0x7F).
  { intros H'; opt_inv. unfold skip_tag. zcmp. done. }
  destruct (Z.leb_spec t 0x8F).
  { unfold get_msgpack_object. intros H'; opt_inv. unfold skip_tag.
    rewrite mask_fixstr, mask_fixarray, mask_fixmap by lia. zcmp.
    eapply skip_pair_loop_follows; eauto. }
  destruct (Z.leb_spec t 0x9F).
  { unfold get_msgpack_array. intros H'; opt_inv. unfold skip_tag.
    rewrite mask_fixstr, mask_fixarray by lia. zcmp. eapply skip_loop_follows; eauto. }
  destruct ((t <=? 0xBF) || (0xD9 <=? t) && (t <=? 0xDB)).
  { intros H'; opt_inv. eapply skip_tag_string; eauto. }
  intros H'.
  repeat match type of H' with
  | (if t =? ?v then _ else _) = _ => destruct (Z.eqb_spec t v) as [->|_]
  end;
    unfold get_bin, get_ext, get_fixext, get_msgpack_array, get_msgpack_object in H'.
  all: try (destruct (Z.leb_spec 0xE0 t); [|done]; opt_inv; unfold skip_tag; zcmp; done).
  all: opt_inv; try done; unfold skip_tag, readBigEndian;
    rewrite ?mask_fixstr, ?mask_fixarray, ?mask_fixmap by lia;
    cbn -[skip_bytes read_be skip_loop skip_pair_loop].
  all: first
    [ eapply skip_bytes_read; eassumption
    | match goal with H1 : read_be 1 ?a = Some (_, ?b), H2 : take_z ?n ?b = Some _ |-
          skip_bytes _ ?a = _ =>
        apply (skip_bytes_add 1 n a b); [lia|lia|by eapply (skip_bytes_read 1)|by eapply skip_bytes_take]
      end
    | match goal with H : read_be ?n ?a = Some (?len, ?c1) |- context [read_be ?n ?a] =>
        pose proof (read_be_nonneg _ _ _ _ H); rewrite H;
        cbn -[skip_bytes read_be skip_loop skip_pair_loop] end;
      first
        [ eapply skip_bytes_take; eassumption
        | eapply skip_loop_follows; eassumption
        | eapply skip_pair_loop_follows; eassumption
        | match goal with H1 : read_be 1 ?c1 = Some (_, ?b), H2 : take_z ?n ?b = Some _ |- _ =>
            rewrite (Z.add_comm n 1); apply (skip_bytes_add 1 n c1 b);
            [lia|lia|by eapply (skip_bytes_read 1)|by eapply skip_bytes_take] end ] ].
Qed.
End TagFollows.

Lemma skip_levels_follows n : follows (skip_levels n) (parse_msgpack n).
Proof.
  induction n as [|n IH]; intros cur v c; [done|].
  destruct cur as [|t cur]; [done|]. simpl.
  apply skip_tag_follows; [exact IH| |apply byte_val_range].
  intros t' cur' k c1 v' c2 Hs Hv. destruct n; [done|]. simpl.
  eapply skip_tag_string; [apply byte_val_range | eauto].
Qed.

(** ** The selective decoder is the reference decoder *)

Lemma sign_extend_64 k bits :
  0 < k < 64 -> 0 <= bits < 2 ^ k ->
  to_signed 64 (if Z.testbit bits (k - 1) then Z.lor bits (u64 (Z.shiftl U64_MAX k)) else bits) =
  to_signed k bits.
Proof.
  intros Hk Hb.
  assert (Hp : 2 ^ k = 2 * 2 ^ (k - 1)) by (rewrite <- Z.pow_succ_r by lia; f_equal; lia).
  assert (H64 : 2 ^ 64 = 2 ^ (64 - k) * 2 ^ k) by (rewrite <- Z.pow_add_r by lia; f_equal; lia).
  assert (Hlt : 2 * 2 ^ k <= 2 ^ 64).
  { rewrite <- Z.pow_succ_r by lia. apply Z.pow_le_mono_r; lia. }
  assert (Htop : Z.testbit bits (k - 1) = negb (bits <? 2 ^ (k - 1))).
  { rewrite Z.testbit_eqb by lia.
    destruct (Z.ltb_spec bits (2 ^ (k - 1))) as [Hl|Hl]; simpl.
    - rewrite Z.div_small by lia. reflexivity.
    - replace (bits / 2 ^ (k - 1)) with 1; [reflexivity|].
      apply (Z.div_unique _ _ _ (bits - 2 ^ (k - 1))); lia. }
  rewrite Htop. unfold to_signed at 2.
  destruct (Z.ltb_spec bits (2 ^ (k - 1))) as [Hl|Hl]; simpl.
  - unfold to_signed. change (2 ^ (64 - 1)) with (2 ^ 63). change (2 ^ 64) with (2 * 2 ^ 63) in *. zcmp. done.
  - assert (u64 (Z.shiftl U64_MAX k) = Z.shiftl (2 ^ (64 - k) - 1) k) as ->.
    { unfold u64, U64_MAX. rewrite !Z.shiftl_mul_pow2 by lia.
      symmetry. apply (Z.mod_unique _ _ (2 ^ k - 1)); nia. }
    rewrite lor_shiftl_add_gen by lia.
    unfold to_signed. change (2 ^ (64 - 1)) with (2 ^ 63). change (2 ^ 64) with (2 * 2 ^ 63) in *. zcmp. lia.
Qed.

Lemma from_msgpack_cons t cur :
  from_msgpack (t :: cur) =
  match parse_tag (parse_msgpack (length cur)) (byte_val t) cur with
  | Some (j, []) => Some j
  | _ => None
  end.
Proof. reflexivity. Qed.

(** The integer cases of [parse_tag], by width. *)
Lemma parse_tag_int p t cur :
  0xcc <= t <= 0xd3 ->
  let isSigned := 0xd0 <=? t in
  let width := Z.shiftl 1 (t - (if isSigned then 0xd0 else 0xcc)) in
  parse_tag p t cur =
  ('(v, c) ← read_be (Z.to_nat width) cur;
   Some (if isSigned then JInt (to_signed (8 * width) v) else JUInt v, c)).
Proof.
  intros Ht.
  assert (t = 0xcc \/ t = 0xcd \/ t = 0xce \/ t = 0xcf \/
          t = 0xd0 \/ t = 0xd1 \/ t = 0xd2 \/ t = 0xd3) as Hc by lia.
  destruct_or! Hc; subst; reflexivity.
Qed.

(** Everything after the one-byte cases of [decodeMsgpackField]. *)
Lemma decode_multi_byte t cur :
  (if ((0xcc <=? byte_val t) && (byte_val t <=? 0xcf)) || ((0xd0 <=? byte_val t) && (byte_val t <=? 0xd3)) then
     let isSigned := 0xd0 <=? byte_val t in
     let width := Z.shiftl 1 (byte_val t - (if isSigned then 0xd0 else 0xcc)) in
     match readBigEndian (Z.to_nat width) cur with
     | Some (bits, []) =>
         if negb isSigned then Some (JUInt bits)
         else
           let bits := if (width <? 8) && Z.testbit bits (width * 8 - 1)
                       then Z.lor bits (u64 (Z.shiftl U64_MAX (width * 8))) else bits in
           Some (JInt (to_signed 64 bits))
     | _ => from_msgpack (t :: cur)
     end
   else if (byte_val t =? 0xca) || (byte_val t =? 0xcb) then
     match readBigEndian (if byte_val t =? 0xca then 4 else 8) cur with
     | Some (bits, []) => Some (JFloat (if byte_val t =? 0xca then f32_widen (u32 bits) else bits))
     | _ => from_msgpack (t :: cur)
     end
   else if (Z.land (byte_val t) 0xe0 =? 0xa0) || (byte_val t =? 0xd9) || (byte_val t =? 0xda) ||
           (byte_val t =? 0xdb) then
     match readMsgpackString (t :: cur) with
     | Some (value, []) => Some (JString value)
     | _ => from_msgpack (t :: cur)
     end
   else from_msgpack (t :: cur)) = from_msgpack (t :: cur).
Proof.
  pose proof (byte_val_range t) as Ht.
  rewrite mask_fixstr by lia. unfold readBigEndian.
  destruct (((0xcc <=? byte_val t) && (byte_val t <=? 0xcf)) || _) eqn:Ei.
  { assert (Hr : 0xcc <= byte_val t <= 0xd3).
    { rewrite orb_true_iff, !andb_true_iff, !Z.leb_le in Ei. lia. }
    pose proof (parse_tag_int (parse_msgpack (length cur)) (byte_val t) cur Hr) as Hp.
    cbv zeta in Hp |- *.
    destruct (read_be _ cur) as [[bits [|]]|] eqn:E; [|done..].
    rewrite from_msgpack_cons, Hp. cbn [mbind option_bind].
    destruct (Z.leb_spec 0xd0 (byte_val t)) as [Hs|Hs]; cbn [negb]; [|done].
    apply read_be_Some in E as (h & Hcur & Hl & ->). pose proof (be_value_range h) as Hb.
    assert (byte_val t = 0xd0 \/ byte_val t = 0xd1 \/ byte_val t = 0xd2 \/ byte_val t = 0xd3)
      as Hc by lia.
    unfold blen in Hb. rewrite Hl in Hb.
    destruct_or! Hc; rewrite Hc in *.
    1-3: match type of Hb with _ <= _ < 256 ^ Z.of_nat (Z.to_nat (Z.shiftl 1 ?e)) =>
           let w := eval vm_compute in (8 * Z.shiftl 1 e) in
           change (8 * Z.shiftl 1 e) with w;
           rewrite <- (sign_extend_64 w (be_value h)); [reflexivity|lia|exact Hb] end.
    reflexivity. }
  destruct ((byte_val t =? 0xca) || (byte_val t =? 0xcb)) eqn:Ef.
  { apply orb_true_iff in Ef as [Hc%Z.eqb_eq|Hc%Z.eqb_eq]; rewrite Hc; simpl (_ =? _); cbv iota;
      destruct (read_be _ cur) as [[bits [|]]|] eqn:E; try done;
      rewrite from_msgpack_cons, Hc; unfold parse_tag; cbn -[read_be f32_widen u32]; rewrite E;
      cbn -[f32_widen u32]; [|done].
    unfold u32. rewrite Z.mod_small; [done|].
    apply read_be_Some in E as (h & _ & Hl & ->). pose proof (be_value_range h) as Hb.
    unfold blen in Hb. rewrite Hl in Hb. exact Hb. }
  destruct ((0xa0 <=? byte_val t) && (byte_val t <=? 0xbf) || (byte_val t =? 0xd9) ||
            (byte_val t =? 0xda) || (byte_val t =? 0xdb)) eqn:Es; [|done].
  rewrite readMsgpackString_get.
  destruct (get_msgpack_string _ cur) as [[v [|]]|] eqn:E; [|done..].
  rewrite from_msgpack_cons. unfold parse_tag. rewrite E.
  rewrite !orb_true_iff, !andb_true_iff, !Z.leb_le, !Z.eqb_eq in Es.
  destruct (Z.leb_spec (byte_val t) 0xbf); zcmp; done.
Qed.

Lemma decodeMsgpackField_from_msgpack span : decodeMsgpackField span = from_msgpack span.
Proof.
  destruct span as [|t cur]; [reflexivity|]. unfold decodeMsgpackField.
  pose proof (byte_val_range t) as Ht.
  repeat match goal with
  | |- (if bool_decide (cur = []) && ?b then _ else _) = _ =>
      destruct (bool_decide (cur = []) && b) eqn:E;
        [ apply andb_true_iff in E as [->%bool_decide_eq_true E];
          rewrite from_msgpack_cons; unfold parse_tag, to_signed;
          rewrite ?orb_true_iff, ?Z.eqb_eq, ?Z.leb_le in E | clear E ]
  end.
  - zcmp. done.
  - change (2 ^ (8 - 1)) with 128. change (2 ^ 8) with 256. zcmp. done.
  - rewrite E. done.
  - destruct E as [E|E]; rewrite E; done.
  - apply decode_multi_byte.
Qed.

(** ** Rows written by the engine *)

Definition span_of (kv : bytes * json) : FieldSpan :=
  {| fs_name := kv.1; fs_span := write_msgpack kv.2 |}.

(** A row's fields are within the scanner's reach: nested at most 64 deep. *)
Definition row_ok (m : object) : Prop :=
  json_wf (JObject m) /\ Forall (fun kv => (json_depth kv.2 <= 64)%nat) m.

Lemma skipMsgpack_written v rest :
  json_wf v -> (json_depth v <= 64)%nat -> skipMsgpack (write_msgpack v ++ rest) = Some rest.
Proof.
  intros Hwf Hd. unfold skipMsgpack.
  apply (skip_levels_follows 65) with (v := canon v).
  apply parse_write_msgpack; [done|lia].
Qed.

Lemma readMsgpackString_written s rest :
  blen s < 2 ^ 32 -> readMsgpackString (write_string s ++ rest) = Some (s, rest).
Proof.
  intros Hs. destruct (write_string_header s rest Hs) as (t & h & -> & Ht & _ & Hg).
  by rewrite readMsgpackString_get, byte_val_tag.
Qed.

Lemma readField_written kv rest :
  blen kv.1 < 2 ^ 32 -> json_wf kv.2 -> (json_depth kv.2 <= 64)%nat ->
  readField (write_string kv.1 ++ write_msgpack kv.2 ++ rest) = Some (span_of kv, rest).
Proof.
  intros Hk Hv Hd. unfold readField. rewrite readMsgpackString_written by done.
  cbn [mbind option_bind]. rewrite skipMsgpack_written by done. cbn [mbind option_bind].
  unfold span_of. do 3 f_equal. rewrite length_app.
  replace (length (write_msgpack kv.2) + length rest - length rest)%nat
    with (length (write_msgpack kv.2)) by lia.
  by rewrite take_app_length.
Qed.

(** All [count] fields of a row, in order: what every row loop walks over. *)
Fixpoint read_fields (fuel : nat) (count : Z) (cur : bytes) : option (list FieldSpan * bytes) :=
  if count <=? 0 then Some ([], cur)
  else match fuel with
       | O => None
       | S f =>
           '(span, c) ← readField cur;
           '(spans, c) ← read_fields f (count - 1) c;
           Some (span :: spans, c)
       end.

Lemma read_fields_written m rest fuel :
  Forall (fun kv => blen kv.1 < 2 ^ 32 /\ json_wf kv.2) m ->
  Forall (fun kv => (json_depth kv.2 <= 64)%nat) m -> (length m <= fuel)%nat ->
  read_fields fuel (Z.of_nat (length m))
    (flat_map (fun kv => write_string kv.1 ++ write_msgpack kv.2) m ++ rest) =
  Some (map span_of m, rest).
Proof.
  intros Hm. revert fuel. induction Hm as [|kv m [Hk Hv] Hm IH]; intros fuel Hd Hf.
  - by destruct fuel.
  - apply Forall_cons in Hd as [Hd Hds]. destruct fuel as [|fuel]; [simpl in Hf; lia|].
    cbn [length flat_map map read_fields]. zcmp. rewrite <- !app_assoc, readField_written by done.
    cbn [mbind option_bind].
    replace (Z.of_nat (S (length m)) - 1) with (Z.of_nat (length m)) by lia.
    rewrite IH by (done || (simpl in Hf; lia)). done.
Qed.

Lemma scan_loop_read_fields fuel count name cur spans rest :
  read_fields fuel count cur = Some (spans, rest) ->
  scan_loop fuel count name cur = (find_span name spans ≫= fun s => decodeMsgpackField (fs_span s)).
Proof.
  revert count cur spans. induction fuel as [|f IH]; intros count cur spans; simpl.
  - case_match; [|done]. by intros [= <- <-].
  - case_match; [by intros [= <- <-]|]. intros H'.
    destruct (readField cur) as [[sp c]|] eqn:E; [|done]. simpl in H'. opt_inv.
    cbn [mbind option_bind]. rewrite (IH _ _ _ H0). unfold find_span. cbn [list_find].
    case_bool_decide as Hn.
    + rewrite decide_True by done. done.
    + rewrite decide_False by done. by destruct (list_find _ l) as [[]|].
Qed.

Lemma index_loop_read_fields fuel count acc cur spans rest :
  (length acc <= kFieldSlots)%nat -> read_fields fuel count cur = Some (spans, rest) ->
  index_loop fuel count acc cur = (take kFieldSlots (acc ++ spans), Some rest).
Proof.
  revert count acc cur spans. induction fuel as [|f IH]; intros count acc cur spans Hacc; simpl.
  - case_match; [|done]. intros [= <- <-]. rewrite app_nil_r, take_ge by done. done.
  - case_match; [intros [= <- <-]; rewrite app_nil_r, take_ge by done; done|]. intros H'.
    destruct (readField cur) as [[sp c]|] eqn:E; [|done]. simpl in H'. opt_inv.
    destruct (Nat.ltb_spec (length acc) kFieldSlots) as [Hl|Hl].
    + rewrite (IH _ _ _ l); [by rewrite <- app_assoc| |done].
      rewrite length_app. simpl. unfold kFieldSlots in *. lia.
    + rewrite (IH _ _ _ l); [|done|done]. f_equal.
      rewrite !take_app_ge by lia.
      replace (kFieldSlots - length acc)%nat with O by lia. done.
Qed.

Lemma index_loop_from_empty fuel count cur spans rest :
  read_fields fuel count cur = Some (spans, rest) ->
  index_loop fuel count [] cur = (take kFieldSlots spans, Some rest).
Proof. apply (index_loop_read_fields _ _ []). unfold kFieldSlots. simpl. lia. Qed.

Lemma index_loop_complete fuel count acc cur fields rest :
  index_loop fuel count acc cur = (fields, Some rest) ->
  exists spans, read_fields fuel count cur = Some (spans, rest).
Proof.
  revert count acc cur. induction fuel as [|f IH]; intros count acc cur; simpl.
  - case_match; [|done]. intros [= <- <-]. eauto.
  - case_match; [intros [= <- <-]; eauto|].
    destruct (readField cur) as [[sp c]|] eqn:E; [|done]. intros H'.
    apply IH in H' as [spans Hs]. exists (sp :: spans). simpl. rewrite Hs. done.
Qed.

Lemma find_span_take name n spans s :
  find_span name (take n spans) = Some s -> find_span name spans = Some s.
Proof.
  rewrite <- (take_drop n spans) at 2. unfold find_span. intros H.
  apply bind_Some in H as ([i s'] & Hl & Heq). injection Heq as <-.
  erewrite list_find_app_l by exact Hl. done.
Qed.

Lemma rowHeader_written N rest :
  0 <= N < 2 ^ 32 -> rowHeader (write_map_header N ++ rest) = Some (N, rest).
Proof.
  intros HN. unfold write_map_header, tagged, U32_MAX. destruct (Z.leb_spec N 15).
  { change 15 with (2 ^ 4 - 1). rewrite land_ones_mod, Z.mod_small by lia.
    change 0x80 with (8 * 2 ^ 4). rewrite lor_tag by lia.
    change (be_bytes 1 ?t) with [byte_of (Z.land t 255)].
    rewrite land_255, Z.mod_small by lia. simpl app. unfold rowHeader.
    rewrite byte_val_tag, mask_fixmap by lia. zcmp.
    change 0x0f with (2 ^ 4 - 1). rewrite land_tag by lia. done. }
  repeat (zleb; [rewrite <- app_comm_cons; unfold rowHeader, readBigEndian;
    rewrite byte_val_tag, mask_fixmap by lia; zcmp; apply read_be_app; lia|]).
  lia.
Qed.

Lemma find_span_written name m :
  (find_span name (map span_of m) ≫= fun s => decodeMsgpackField (fs_span s)) =
  (obj_find name m ≫= fun v => from_msgpack (write_msgpack v)).
Proof.
  induction m as [|[k v] m IH]; [done|]. unfold find_span in *. simpl.
  case_decide as Hk.
  - apply bytes_eqb_eq in Hk as ->. simpl. apply decodeMsgpackField_from_msgpack.
  - apply bytes_eqb_neq in Hk as ->. rewrite <- IH. by destruct (list_find _ _) as [[]|].
Qed.

Lemma row_fields_long m :
  Forall (fun kv => blen kv.1 < 2 ^ 32 /\ json_wf kv.2) m ->
  (length m <= length (flat_map (fun kv => write_string kv.1 ++ write_msgpack kv.2) m))%nat.
Proof.
  intros Hm. apply flat_map_length_ge. eapply Forall_impl; [exact Hm|].
  intros kv [_ Hkv] [_ ?]%app_nil. by apply (write_msgpack_nonempty kv.2).
Qed.

Lemma scan_field_written m name :
  row_ok m -> scan_field (to_msgpack (JObject m)) name = canon <$> obj_find name m.
Proof.
  intros [(Hlen & _ & Hm)%json_wf_object Hd]. unfold scan_field, to_msgpack.
  cbn [write_msgpack]. rewrite rowHeader_written by lia. cbn [mbind option_bind].
  pose proof (row_fields_long m Hm) as Hlong.
  pose proof (read_fields_written m [] _ Hm Hd Hlong) as Hr. rewrite app_nil_r in Hr.
  rewrite (scan_loop_read_fields _ _ _ _ _ _ Hr), find_span_written.
  destruct (obj_find name m) as [v|] eqn:E; [|done]. simpl.
  apply obj_find_Some_elem in E. rewrite Forall_forall in Hm. destruct (Hm _ E) as [_ Hv].
  pose proof (parse_write_msgpack v Hv _ (json_depth_lt_length v Hv) []) as H.
  rewrite app_nil_r in H. unfold from_msgpack. by rewrite H.
Qed.

Lemma row_index_written m : row_ok m -> rv_indexValid (mkRowView (to_msgpack (JObject m)) true) = true.
Proof.
  intros [(Hlen & _ & Hm)%json_wf_object Hd]. unfold mkRowView, buildFieldIndex, to_msgpack.
  cbn [write_msgpack]. rewrite rowHeader_written by lia.
  pose proof (read_fields_written m [] _ Hm Hd (row_fields_long m Hm)) as Hr.
  rewrite app_nil_r in Hr.
  rewrite (index_loop_from_empty _ _ _ _ _ Hr). done.
Qed.

Lemma field_index_plain data name :
  rv_indexValid (mkRowView data true) = true ->
  field (mkRowView data true) name = field (mkRowView data false) name.
Proof.
  unfold mkRowView, field, buildFieldIndex, scan_field.
  destruct (rowHeader data) as [[count cur]|] eqn:Eh; [|done].
  destruct (index_loop (length cur) count [] cur) as [fields [rest|]] eqn:Ei; [|done].
  cbn [rv_indexed rv_indexValid rv_fields rv_data]. destruct rest; [|done]. intros _.
  destruct (index_loop_complete _ _ _ _ _ _ Ei) as [spans Hs].
  rewrite (index_loop_from_empty _ _ _ _ _ Hs) in Ei.
  injection Ei as <-. cbn [negb app].
  rewrite Eh. cbn [mbind option_bind]. rewrite (scan_loop_read_fields _ _ _ _ _ _ Hs).
  destruct (find_span name (take kFieldSlots spans)) as [sp|] eqn:E.
  - by rewrite (find_span_take _ _ _ _ E).
  - rewrite length_take. destruct (Nat.ltb_spec (min kFieldSlots (length spans)) kFieldSlots); [|done].
    rewrite take_ge in E by lia. by rewrite E.
Qed.

(** *** Projection *)

Definition project_step (names : list bytes) (selected : object) (kv : bytes * json) : object :=
  if bool_decide (kv.1 ∈ names) && negb (json_contains kv.1 (JObject selected))
  then obj_insert kv.1 (canon kv.2) selected else selected.

Lemma project_loop_written names m selected rest fuel :
  Forall (fun kv => blen kv.1 < 2 ^ 32 /\ json_wf kv.2) m ->
  Forall (fun kv => (json_depth kv.2 <= 64)%nat) m -> (length m <= fuel)%nat ->
  project_loop fuel (Z.of_nat (length m)) names selected
    (flat_map (fun kv => write_string kv.1 ++ write_msgpack kv.2) m ++ rest) =
  Ok (fold_left (project_step names) m selected, rest).
Proof.
  intros Hm. revert fuel selected. induction Hm as [|kv m [Hk Hv] Hm IH]; intros fuel sel Hd Hf.
  - by destruct fuel.
  - apply Forall_cons in Hd as [Hd Hds]. destruct fuel as [|fuel]; [simpl in Hf; lia|].
    cbn [length flat_map fold_left project_loop]. zcmp.
    rewrite <- !app_assoc, readMsgpackString_written by done.
    cbn [or_err mbind result_bind]. rewrite skipMsgpack_written by done.
    cbn [or_err mbind result_bind].
    replace (Z.of_nat (S (length m)) - 1) with (Z.of_nat (length m)) by lia.
    rewrite length_app.
    replace (length (write_msgpack kv.2) + _ - _)%nat with (length (write_msgpack kv.2)) by lia.
    rewrite take_app_length, decodeMsgpackField_from_msgpack.
    pose proof (parse_write_msgpack kv.2 Hv _ (json_depth_lt_length _ Hv) []) as H.
    rewrite app_nil_r in H. unfold from_msgpack. rewrite H. cbn [or_err mbind result_bind].
    simpl in Hf. unfold project_step at 2.
    destruct (bool_decide (kv.1 ∈ names) && _); (rewrite IH; [done|done|lia]).
Qed.

Lemma project_fold_find names m selected n :
  obj_find n (fold_left (project_step names) m selected) =
  match obj_find n selected with
  | Some v => Some v
  | None => if bool_decide (n ∈ names) then canon <$> obj_find n m else None
  end.
Proof.
  revert selected. induction m as [|[k v] m IH]; intros sel; simpl.
  - destruct (obj_find n sel); [done|]. by destruct (bool_decide _).
  - rewrite IH. unfold project_step, json_contains. cbn [fst snd json_find].
    destruct (bytes_eqb k n) eqn:E.
    + apply bytes_eqb_eq in E as ->. destruct (obj_find n sel) as [w|] eqn:Es.
      * rewrite andb_false_r, Es. done.
      * rewrite andb_true_r. case_bool_decide; rewrite ?obj_find_insert_eq, ?Es; done.
    + apply bytes_eqb_neq in E.
      destruct (bool_decide (k ∈ names) && _); [rewrite obj_find_insert_ne by done|]; done.
Qed.

(** *** The scanner's reach, exactly *)

Lemma skip_array_header l N rest :
  0 <= N < 2 ^ 32 ->
  skip_levels (S l) (write_array_header N ++ rest) = skip_loop (skip_levels l) (length rest) N rest.
Proof.
  intros HN. unfold write_array_header, tagged, U32_MAX. destruct (Z.leb_spec N 15).
  { change 0x90 with (9 * 2 ^ 4). rewrite lor_tag by lia.
    change (be_bytes 1 ?t) with [byte_of (Z.land t 255)].
    rewrite land_255, Z.mod_small by lia. cbn [app skip_levels].
    rewrite byte_val_tag by lia. unfold skip_tag.
    rewrite mask_fixstr, mask_fixarray by lia. zcmp.
    change 0x0f with (2 ^ 4 - 1). rewrite land_tag by lia. done. }
  repeat (zleb; [cbn [app skip_levels]; rewrite byte_val_tag by lia; unfold skip_tag, readBigEndian;
    rewrite mask_fixstr, mask_fixarray, mask_fixmap by lia; cbn -[read_be be_bytes skip_loop];
    rewrite read_be_app by lia; done|]).
  lia.
Qed.

Lemma skip_map_header l N rest :
  0 <= N < 2 ^ 32 ->
  skip_levels (S l) (write_map_header N ++ rest) =
  skip_pair_loop (skip_levels l) (length rest) N rest.
Proof.
  intros HN. unfold write_map_header, tagged, U32_MAX. destruct (Z.leb_spec N 15).
  { change 15 with (2 ^ 4 - 1). rewrite land_ones_mod, Z.mod_small by lia.
    change 0x80 with (8 * 2 ^ 4). rewrite lor_tag by lia.
    change (be_bytes 1 ?t) with [byte_of (Z.land t 255)].
    rewrite land_255, Z.mod_small by lia. cbn [app skip_levels].
    rewrite byte_val_tag by lia. unfold skip_tag.
    rewrite mask_fixstr, mask_fixarray, mask_fixmap by lia. zcmp.
    change 0x0f with (2 ^ 4 - 1). rewrite land_tag by lia. done. }
  repeat (zleb; [cbn [app skip_levels]; rewrite byte_val_tag by lia; unfold skip_tag, readBigEndian;
    rewrite mask_fixstr, mask_fixarray, mask_fixmap by lia; cbn -[read_be be_bytes skip_pair_loop];
    rewrite read_be_app by lia; done|]).
  lia.
Qed.

(** [skip_levels l] fails on [v] exactly when it is nested too deep. *)
Definition skips_exactly (l : nat) (v : json) : Prop :=
  (l <= json_depth v)%nat -> forall rest, skip_levels l (write_msgpack v ++ rest) = None.

Lemma depth_above_reach {A} (f : A -> nat) l n :
  (S n <= depth_above (map f l))%nat -> exists x, x ∈ l /\ (n <= f x)%nat.
Proof.
  intros H. destruct (decide (Exists (fun x => (n <= f x)%nat) l)) as [He|He].
  - apply Exists_exists in He as (x & ? & ?). eauto.
  - exfalso. rewrite <- Forall_Exists_neg in He.
    assert (depth_above (map f l) <= n)%nat; [|lia].
    apply depth_above_le. intros d (x & -> & Hx)%list_elem_of_fmap.
    rewrite Forall_forall in He. specialize (He x Hx). simpl in He. lia.
Qed.

Lemma skip_loop_too_deep l vs n rest fuel :
  Forall json_wf vs -> Forall (skips_exactly l) vs ->
  Exists (fun v => (l <= json_depth v)%nat) vs -> n = Z.of_nat (length vs) ->
  skip_loop (skip_levels l) fuel n (flat_map write_msgpack vs ++ rest) = None.
Proof.
  intros Hwf Hs He. revert n fuel. induction vs as [|v vs IH]; intros n fuel ->;
    [by apply Exists_nil in He|].
  apply Forall_cons in Hwf as [Hv Hwf], Hs as [Hsv Hs].
  destruct fuel as [|fuel]; cbn [skip_loop length flat_map]; zcmp; [done|].
  rewrite <- app_assoc.
  destruct (decide (l <= json_depth v)%nat) as [Hd|Hd].
  - rewrite Hsv by done. done.
  - rewrite (skip_levels_follows l _ (canon v) (flat_map write_msgpack vs ++ rest))
      by (apply parse_write_msgpack; [done|lia]).
    cbn [mbind option_bind]. apply IH; [done|done| |lia].
    apply Exists_cons in He as [He|He]; [lia|done].
Qed.

Lemma skip_pair_loop_too_deep l m n rest fuel :
  Forall (fun kv => blen kv.1 < 2 ^ 32 /\ json_wf kv.2) m ->
  Forall (fun kv => skips_exactly l kv.2) m ->
  Exists (fun kv => (l <= json_depth kv.2)%nat) m -> n = Z.of_nat (length m) ->
  skip_pair_loop (skip_levels l) fuel n
    (flat_map (fun kv => write_string kv.1 ++ write_msgpack kv.2) m ++ rest) = None.
Proof.
  intros Hwf Hs He. revert n fuel. induction m as [|[k v] m IH]; intros n fuel ->;
    [by apply Exists_nil in He|].
  apply Forall_cons in Hwf as [[Hk Hv] Hwf], Hs as [Hsv Hs]. cbn [fst snd] in *.
  destruct fuel as [|fuel]; cbn [skip_pair_loop length flat_map fst snd]; zcmp; [done|].
  rewrite <- !app_assoc. destruct l as [|l]; [done|].
  rewrite (skip_levels_follows (S l) _ (JString k)
    (write_msgpack v ++ flat_map (fun kv => write_string kv.1 ++ write_msgpack kv.2) m ++ rest))
    by (apply write_string_parse; done).
  cbn [mbind option_bind].
  destruct (decide (S l <= json_depth v)%nat) as [Hd|Hd].
  - rewrite Hsv by done. done.
  - rewrite (skip_levels_follows (S l) _ (canon v)
      (flat_map (fun kv => write_string kv.1 ++ write_msgpack kv.2) m ++ rest))
      by (apply parse_write_msgpack; [done|lia]).
    cbn [mbind option_bind]. apply IH; [done|done| |lia].
    apply Exists_cons in He as [He|He]; [simpl in He; lia|done].
Qed.

Lemma skip_too_deep v l : json_wf v -> skips_exactly l v.
Proof.
  revert l. induction v using json_ind'; intros n Hwf Hd rest;
    (destruct n as [|n]; [done|]); try (simpl in Hd; lia).
  - apply json_wf_array in Hwf as [Hlen Hl]. cbn [write_msgpack json_depth] in *.
    rewrite <- app_assoc, skip_array_header by lia.
    apply skip_loop_too_deep; [done| | |done].
    + apply Forall_forall. intros x Hx. rewrite Forall_forall in H, Hl. auto.
    + apply Exists_exists. by apply depth_above_reach in Hd.
  - apply json_wf_object in Hwf as (Hlen & _ & Hm). cbn [write_msgpack json_depth] in *.
    rewrite <- app_assoc, skip_map_header by lia.
    apply skip_pair_loop_too_deep; [done| | |done].
    + apply Forall_forall. intros x Hx. rewrite Forall_forall in H, Hm.
      apply H; [done|]. by apply Hm.
    + apply Exists_exists. by apply depth_above_reach in Hd.
Qed.

(** ** Properties *)

(** The in-place field decoder returns, on every byte span whatever, exactly
    what the reference MessagePack decoder returns, rejections included. *)
Theorem decodeMsgpackField_reference (span : bytes) :
  decodeMsgpackField span = from_msgpack span.
Proof. apply decodeMsgpackField_from_msgpack. Qed.

Lemma field_written (m : object) (indexFields : bool) (name : bytes) :
  row_ok m ->
  field (mkRowView (to_msgpack (JObject m)) indexFields) name = canon <$> obj_find name m.
Proof.
  intros Hm. destruct indexFields.
  - rewrite field_index_plain by (by apply row_index_written). by apply scan_field_written.
  - by apply scan_field_written.
Qed.

(** On a row the engine wrote, a field lookup with or without the field
    index is the lookup in the document, up to the canonical form. *)
Theorem field_of_written_row (m : object) (indexFields : bool) (name : bytes) :
  row_ok m ->
  field (mkRowView (to_msgpack (JObject m)) indexFields) name = canon <$> obj_find name m.
Proof. apply field_written. Qed.

(** Whenever the field index of a row is valid, indexed lookups agree with
    the plain scan for every name, also for rows with more than 32 fields. *)
Theorem field_index_agrees (data name : bytes) :
  rv_indexValid (mkRowView data true) = true ->
  field (mkRowView data true) name = field (mkRowView data false) name.
Proof. apply field_index_plain. Qed.

(** Projecting a written row succeeds and yields exactly the requested
    fields that the document has. *)
Theorem project_of_written_row (m : object) (names : list bytes) :
  row_ok m ->
  exists selected,
    project (mkRowView (to_msgpack (JObject m)) false) names = Ok (JObject selected) /\
    forall n, obj_find n selected =
      if bool_decide (n ∈ names) then canon <$> obj_find n m else None.
Proof.
  intros [Hwf Hd]. pose proof Hwf as (Hlen & _ & Hm)%json_wf_object.
  exists (fold_left (project_step names) m []). split.
  - unfold project. cbn [mkRowView rv_indexed rv_data].
    assert (Hne : to_msgpack (JObject m) <> []) by (by apply write_msgpack_nonempty).
    rewrite bool_decide_eq_false_2 by done. cbn [negb guard_err mbind result_bind].
    pose proof (row_fields_long m Hm) as Hlong.
    pose proof (project_loop_written names m [] [] _ Hm Hd Hlong) as Hp. rewrite app_nil_r in Hp.
    unfold to_msgpack in *. cbn [write_msgpack] in *.
    pose proof (rowHeader_written (Z.of_nat (length m))
      (flat_map (fun kv => write_string kv.1 ++ write_msgpack kv.2) m) ltac:(lia)) as Hh.
    assert (isMapTag (write_map_header (Z.of_nat (length m)) ++
      flat_map (fun kv => write_string kv.1 ++ write_msgpack kv.2) m) = true) as ->.
    { destruct (write_map_header _ ++ _) as [|t c]; [done|]. unfold rowHeader in Hh.
      unfold isMapTag. repeat (case_match; [rewrite ?orb_true_r; done|]). done. }
    cbn [guard_err mbind result_bind]. rewrite Hh. cbn [or_err mbind result_bind].
    rewrite Hp. done.
  - intros n. apply (project_fold_find names m [] n).
Qed.

(** C40: the row scanner steps over a written value exactly when the value is
    nested at most 64 levels deep; the encoder has no such bound, so deeper
    values are written and decoded but cannot be scanned past. *)
Theorem skipMsgpack_exact (v : json) (rest : bytes) :
  json_wf v ->
  skipMsgpack (to_msgpack v ++ rest) =
  if bool_decide (json_depth v <= 64)%nat then Some rest else None.
Proof.
  intros Hwf. case_bool_decide as Hd.
  - by apply skipMsgpack_written.
  - apply skip_too_deep; [done|lia].
Qed.

Definition sample_object : object :=
  [(str "_deleted", JBool false); (str "id", JString (str "u1"));
   (str "n", JInt (-7)); (str "v", JArray [JFloat 0x3ff8000000000000; JUInt 300])].

Lemma sample_object_ok : row_ok sample_object.
Proof.
  split; [apply sample_row_wf|]. repeat constructor; vm_compute; lia.
Qed.

Lemma field_of_written_row_witness :
  field (mkRowView (to_msgpack (JObject sample_object)) true) (str "n") = Some (JInt (-7)).
Proof.
  exact (field_of_written_row sample_object true (str "n") sample_object_ok).
Defined.

Lemma field_index_agrees_witness :
  field (mkRowView (to_msgpack sample_row) true) (str "id") =
  field (mkRowView (to_msgpack sample_row) false) (str "id").
Proof.
  apply (field_index_agrees (to_msgpack sample_row) (str "id")). vm_compute. reflexivity.
Defined.

Lemma project_of_written_row_witness :
  exists selected,
    project (mkRowView (to_msgpack (JObject sample_object)) false) [str "id"; str "zz"] =
      Ok (JObject selected) /\
    forall n, obj_find n selected =
      if bool_decide (n ∈ [str "id"; str "zz"]) then canon <$> obj_find n sample_object else None.
Proof. exact (project_of_written_row sample_object _ sample_object_ok). Defined.

Definition nested (n : nat) : json := Nat.iter n (fun j => JArray [j]) JNull.

Lemma skipMsgpack_exact_witness :
  skipMsgpack (to_msgpack (nested 64) ++ str "x") = Some (str "x") /\
  skipMsgpack (to_msgpack (nested 65)) = None.
Proof.
  split.
  - rewrite (skipMsgpack_exact (nested 64) (str "x")); [reflexivity|].
    repeat (split; [vm_compute; reflexivity|]). vm_compute. tauto.
  - vm_compute. reflexivity.
Defined.
