(* ===== verification/Checksum.v ===== *)
(** * Checksums ([ChecksumCalculator], data_durability.cpp)

    The table-driven CRC-32, the entry point [crc32c], the incremental CRC,
    xxHash64, MurmurHash3 and SHA-256, with words kept at their width. *)

From S2P Require Import Prelude.
From stdpp Require Import base list numbers strings.
From Stdlib Require Import ZArith Lia.

Open Scope Z_scope.

(** ** CRC-32 *)

(** One shift of [initCRC32Table]'s inner loop. *)
Definition crc_bit (crc : Z) : Z :=
  Z.lxor (Z.shiftr crc 1) (if Z.land crc 1 =? 0 then 0 else 0xEDB88320).

(** [initCRC32Table]: [crc32_table[i]] for [i] from 0 to 255. *)
Definition crc32_table : list Z :=
  map (fun i => Nat.iter 8 crc_bit (Z.of_nat i)) (seq 0 256).

Definition crc32_step (crc : Z) (b : byte) : Z :=
  Z.lxor (Z.shiftr crc 8)
         (nth (Z.to_nat (Z.land (Z.lxor crc (byte_val b)) 0xFF)) crc32_table 0).

Definition crc32 (data : bytes) : Z :=
  Z.lxor (fold_left crc32_step data 0xFFFFFFFF) 0xFFFFFFFF.

Definition crc32c (data : bytes) : Z := crc32 data.

Record IncrementalCRC32 := mkIncrementalCRC32 { state_ : Z }.

Definition crc_new : IncrementalCRC32 := mkIncrementalCRC32 0xFFFFFFFF.
Definition crc_update (c : IncrementalCRC32) (data : bytes) : IncrementalCRC32 :=
  mkIncrementalCRC32 (fold_left crc32_step data (state_ c)).
Definition crc_finalize (c : IncrementalCRC32) : Z := Z.lxor (state_ c) 0xFFFFFFFF.
Definition crc_reset (c : IncrementalCRC32) : IncrementalCRC32 :=
  mkIncrementalCRC32 0xFFFFFFFF.

(** Reference: the message, read as one long little-endian bit string after
    the register's initial value is added to its first 32 bits, is divided by
    the reflected polynomial one bit at a time. *)
Definition crc32_spec (data : bytes) : Z :=
  Z.lxor (Nat.iter (8 * length data) crc_bit (Z.lxor 0xFFFFFFFF (le_value data)))
         0xFFFFFFFF.

(** ** xxHash64 *)

Definition PRIME64_1 : Z := 11400714785074694791.
Definition PRIME64_2 : Z := 14029467366897019727.
Definition PRIME64_3 : Z := 1609587929392839161.
Definition PRIME64_4 : Z := 9650029242287828579.
Definition PRIME64_5 : Z := 2870177450012600261.

(** [(x << n) | (x >> (64 - n))] on [uint64_t]. *)
Definition rotl64 (x n : Z) : Z := Z.lor (u64 (Z.shiftl x n)) (Z.shiftr x (64 - n)).

Definition xx_round (v k : Z) : Z :=
  u64 (rotl64 (u64 (v + k * PRIME64_2)) 31 * PRIME64_1).

Definition xx_merge (h v : Z) : Z :=
  let v := u64 (rotl64 (u64 (v * PRIME64_2)) 31 * PRIME64_1) in
  u64 (Z.lxor h v * PRIME64_1 + PRIME64_4).

Definition word64 (p : bytes) (i : nat) : Z := le_value (take 8 (drop i p)).

(** The [do ... while (p <= limit)] loop over 32-byte stripes. *)
Fixpoint xx_stripes (fuel : nat) (p : bytes) (v1 v2 v3 v4 : Z) : bytes * Z * Z * Z * Z :=
  match fuel with
  | O => (p, v1, v2, v3, v4)
  | S fuel' =>
      let w1 := xx_round v1 (word64 p 0) in
      let w2 := xx_round v2 (word64 p 8) in
      let w3 := xx_round v3 (word64 p 16) in
      let w4 := xx_round v4 (word64 p 24) in
      let p' := drop 32 p in
      if (32 <=? length p')%nat then xx_stripes fuel' p' w1 w2 w3 w4
      else (p', w1, w2, w3, w4)
  end.

Fixpoint xx_words8 (fuel : nat) (p : bytes) (h : Z) : bytes * Z :=
  match fuel with
  | O => (p, h)
  | S fuel' =>
      if (8 <=? length p)%nat then
        let k := u64 (rotl64 (u64 (word64 p 0 * PRIME64_2)) 31 * PRIME64_1) in
        let h := u64 (rotl64 (Z.lxor h k) 27 * PRIME64_1 + PRIME64_4) in
        xx_words8 fuel' (drop 8 p) h
      else (p, h)
  end.

Fixpoint xx_words4 (fuel : nat) (p : bytes) (h : Z) : bytes * Z :=
  match fuel with
  | O => (p, h)
  | S fuel' =>
      if (4 <=? length p)%nat then
        let k := le_value (take 4 p) in
        let h := Z.lxor h (u64 (k * PRIME64_1)) in
        let h := u64 (rotl64 h 23 * PRIME64_2 + PRIME64_3) in
        xx_words4 fuel' (drop 4 p) h
      else (p, h)
  end.

Fixpoint xx_bytes (p : bytes) (h : Z) : Z :=
  match p with
  | [] => h
  | b :: r =>
      let h := Z.lxor h (u64 (byte_val b * PRIME64_5)) in
      xx_bytes r (u64 (rotl64 h 11 * PRIME64_1))
  end.

Definition xx_final (h : Z) : Z :=
  let h := Z.lxor h (Z.shiftr h 33) in
  let h := u64 (h * PRIME64_2) in
  let h := Z.lxor h (Z.shiftr h 29) in
  let h := u64 (h * PRIME64_3) in
  Z.lxor h (Z.shiftr h 32).

Definition xxhash64 (data : bytes) (seed : Z) : Z :=
  let len := length data in
  let '(p, h) :=
    if (32 <=? len)%nat then
      let v1 := u64 (seed + PRIME64_1 + PRIME64_2) in
      let v2 := u64 (seed + PRIME64_2) in
      let v3 := seed in
      let v4 := u64 (seed - PRIME64_1) in
      let '(p, v1, v2, v3, v4) := xx_stripes len data v1 v2 v3 v4 in
      let h := u64 (rotl64 v1 1 + rotl64 v2 7 + rotl64 v3 12 + rotl64 v4 18) in
      (p, xx_merge (xx_merge (xx_merge (xx_merge h v1) v2) v3) v4)
    else (data, u64 (seed + PRIME64_5)) in
  let h := u64 (h + Z.of_nat len) in
  let '(p, h) := xx_words8 len p h in
  let '(p, h) := xx_words4 len p h in
  xx_final (xx_bytes p h).

(** ** MurmurHash3 (x64, low half) *)

Definition murmur_c1 : Z := 0x87c37b91114253d5.
Definition murmur_c2 : Z := 0x4cf5ad432745937f.

Definition murmur_k1 (k : Z) : Z := u64 (rotl64 (u64 (k * murmur_c1)) 31 * murmur_c2).
Definition murmur_k2 (k : Z) : Z := u64 (rotl64 (u64 (k * murmur_c2)) 33 * murmur_c1).

Fixpoint murmur_blocks (nblocks : nat) (p : bytes) (h1 h2 : Z) : bytes * Z * Z :=
  match nblocks with
  | O => (p, h1, h2)
  | S n =>
      let h1 := Z.lxor h1 (murmur_k1 (word64 p 0)) in
      let h1 := u64 (rotl64 h1 27 + h2) in
      let h1 := u64 (h1 * 5 + 0x52dce729) in
      let h2 := Z.lxor h2 (murmur_k2 (word64 p 8)) in
      let h2 := u64 (rotl64 h2 31 + h1) in
      let h2 := u64 (h2 * 5 + 0x38495ab5) in
      murmur_blocks n (drop 16 p) h1 h2
  end.

(** The fall-through [switch (length & 15)]: byte [i] of a half is xor-ed in
    at bit [8 * i], and a half is mixed only when it has a byte. *)
Definition murmur_tail (tail : bytes) (h1 h2 : Z) : Z * Z :=
  let k1 := le_value (take 8 tail) in
  let k2 := le_value (drop 8 tail) in
  let h2 := if (8 <? length tail)%nat then Z.lxor h2 (murmur_k2 k2) else h2 in
  let h1 := if (0 <? length tail)%nat then Z.lxor h1 (murmur_k1 k1) else h1 in
  (h1, h2).

Definition fmix64 (k : Z) : Z :=
  let k := Z.lxor k (Z.shiftr k 33) in
  let k := u64 (k * 0xff51afd7ed558ccd) in
  let k := Z.lxor k (Z.shiftr k 33) in
  let k := u64 (k * 0xc4ceb9fe1a85ec53) in
  Z.lxor k (Z.shiftr k 33).

Definition murmur3 (data : bytes) (seed : Z) : Z :=
  let len := length data in
  let '(tail, h1, h2) := murmur_blocks (len / 16) data seed seed in
  let '(h1, h2) := murmur_tail tail h1 h2 in
  let h1 := Z.lxor h1 (Z.of_nat len) in
  let h2 := Z.lxor h2 (Z.of_nat len) in
  let h1 := u64 (h1 + h2) in
  let h2 := u64 (h2 + h1) in
  u64 (fmix64 h1 + fmix64 h2).

(** ** SHA-256 *)

(** The constants, in the source's rows of four. *)
Definition sha256_k : list Z := concat
  [[0x428a2f98; 0x71374491; 0xb5c0fbcf; 0xe9b5dba5];
   [0x3956c25b; 0x59f111f1; 0x923f82a4; 0xab1c5ed5];
   [0xd807aa98; 0x12835b01; 0x243185be; 0x550c7dc3];
   [0x72be5d74; 0x80deb1fe; 0x9bdc06a7; 0xc19bf174];
   [0xe49b69c1; 0xefbe4786; 0x0fc19dc6; 0x240ca1cc];
   [0x2de92c6f; 0x4a7484aa; 0x5cb0a9dc; 0x76f988da];
   [0x983e5152; 0xa831c66d; 0xb00327c8; 0xbf597fc7];
   [0xc6e00bf3; 0xd5a79147; 0x06ca6351; 0x14292967];
   [0x27b70a85; 0x2e1b2138; 0x4d2c6dfc; 0x53380d13];
   [0x650a7354; 0x766a0abb; 0x81c2c92e; 0x92722c85];
   [0xa2bfe8a1; 0xa81a664b; 0xc24b8b70; 0xc76c51a3];
   [0xd192e819; 0xd6990624; 0xf40e3585; 0x106aa070];
   [0x19a4c116; 0x1e376c08; 0x2748774c; 0x34b0bcb5];
   [0x391c0cb3; 0x4ed8aa4a; 0x5b9cca4f; 0x682e6ff3];
   [0x748f82ee; 0x78a5636f; 0x84c87814; 0x8cc70208];
   [0x90befffa; 0xa4506ceb; 0xbef9a3f7; 0xc67178f2]].

Definition rotr (x n : Z) : Z := Z.lor (Z.shiftr x n) (u32 (Z.shiftl x (32 - n))).
Definition sha_ch (x y z : Z) : Z := Z.lxor (Z.land x y) (Z.land (u32 (Z.lnot x)) z).
Definition sha_maj (x y z : Z) : Z :=
  Z.lxor (Z.lxor (Z.land x y) (Z.land x z)) (Z.land y z).
Definition sig0 (x : Z) : Z := Z.lxor (Z.lxor (rotr x 2) (rotr x 13)) (rotr x 22).
Definition sig1 (x : Z) : Z := Z.lxor (Z.lxor (rotr x 6) (rotr x 11)) (rotr x 25).
Definition gam0 (x : Z) : Z := Z.lxor (Z.lxor (rotr x 7) (rotr x 18)) (Z.shiftr x 3).
Definition gam1 (x : Z) : Z := Z.lxor (Z.lxor (rotr x 17) (rotr x 19)) (Z.shiftr x 10).

(** [w[0..16)]: the block's big-endian words. *)
Definition sha_words (block : bytes) : list Z :=
  map (fun i => be_value (take 4 (drop (i * 4) block))) (seq 0 16).

(** [w[i]] for [i] from 16: the array grows by one word per iteration. *)
Fixpoint sha_schedule (n : nat) (w : list Z) : list Z :=
  match n with
  | O => w
  | S n' =>
      let i := length w in
      sha_schedule n' (w ++ [u32 (gam1 (nth (i - 2) w 0) + nth (i - 7) w 0 +
                                  gam0 (nth (i - 15) w 0) + nth (i - 16) w 0)])
  end.

Record sha_state := mkSha { sa : Z; sb : Z; sc : Z; sd : Z; se : Z; sf : Z; sg : Z; sh : Z }.

Definition sha_round (s : sha_state) (kw : Z * Z) : sha_state :=
  let t1 := u32 (sh s + sig1 (se s) + sha_ch (se s) (sf s) (sg s) + kw.1 + kw.2) in
  let t2 := u32 (sig0 (sa s) + sha_maj (sa s) (sb s) (sc s)) in
  mkSha (u32 (t1 + t2)) (sa s) (sb s) (sc s) (u32 (sd s + t1)) (se s) (sf s) (sg s).

Definition sha256_transform_block (s : sha_state) (block : bytes) : sha_state :=
  let w := sha_schedule 48 (sha_words block) in
  let r := fold_left sha_round (combine sha256_k w) s in
  mkSha (u32 (sa s + sa r)) (u32 (sb s + sb r)) (u32 (sc s + sc r)) (u32 (sd s + sd r))
        (u32 (se s + se r)) (u32 (sf s + sf r)) (u32 (sg s + sg r)) (u32 (sh s + sh r)).

Definition sha256_init : sha_state :=
  mkSha 0x6a09e667 0xbb67ae85 0x3c6ef372 0xa54ff53a
        0x510e527f 0x9b05688c 0x1f83d9ab 0x5be0cd19.

(** The padded buffer: zeros, the message, [0x80], and the bit length written
    big-endian into the last eight bytes. *)
Definition sha256_padlen (length : nat) : nat := ((length + 8) / 64 + 1) * 64.

Definition sha256_padded (data : bytes) : bytes :=
  let padlen := sha256_padlen (length data) in
  let bitlen := u64 (blen data * 8) in
  let buf := data ++ zeros (padlen - length data) in
  let buf := <[length data := byte_of 0x80]> buf in
  fold_left (fun buf i =>
      <[(padlen - 1 - i)%nat := byte_of (Z.land (Z.shiftr bitlen (Z.of_nat i * 8)) 0xFF)]> buf)
    (seq 0 8) buf.

Fixpoint sha256_blocks (n : nat) (s : sha_state) (p : bytes) : sha_state :=
  match n with
  | O => s
  | S n' => sha256_blocks n' (sha256_transform_block s (take 64 p)) (drop 64 p)
  end.

Definition hex_digit (n : Z) : byte :=
  byte_of (if n <? 10 then 48 + n else 87 + n).

(** [snprintf(buf, 9, "%08x", v)]. *)
Definition hex8 (v : Z) : bytes :=
  map (fun i => hex_digit (Z.land (Z.shiftr v (Z.of_nat (7 - i) * 4)) 15)) (seq 0 8).

Definition sha256 (data : bytes) : bytes :=
  let padded := sha256_padded data in
  let s := sha256_blocks (length padded / 64) sha256_init padded in
  flat_map hex8 [sa s; sb s; sc s; sd s; se s; sf s; sg s; sh s].

(** ** CRC-32: linearity, injectivity of a shift, and the bitwise reading *)

Lemma crc_bit_odd c : crc_bit c = Z.lxor (Z.shiftr c 1) (if Z.odd c then 0xEDB88320 else 0).
Proof.
  unfold crc_bit. change 1 with (2 ^ 1 - 1) at 2. rewrite land_ones_mod by lia.
  change (2 ^ 1) with 2. rewrite Zmod_odd. destruct (Z.odd c); reflexivity.
Qed.

Lemma crc_bit_lxor a b : crc_bit (Z.lxor a b) = Z.lxor (crc_bit a) (crc_bit b).
Proof.
  rewrite !crc_bit_odd, Z.shiftr_lxor.
  rewrite <- !Z.bit0_odd, Z.lxor_spec.
  apply Z.bits_inj'. intros n Hn.
  destruct (Z.testbit a 0), (Z.testbit b 0); cbn [xorb];
    rewrite !Z.lxor_spec, ?Z.bits_0;
    destruct (Z.testbit (Z.shiftr a 1) n), (Z.testbit (Z.shiftr b 1) n),
      (Z.testbit 0xEDB88320 n); reflexivity.
Qed.

Lemma crc_iter_lxor n a b :
  Nat.iter n crc_bit (Z.lxor a b) = Z.lxor (Nat.iter n crc_bit a) (Nat.iter n crc_bit b).
Proof. induction n as [|n IH]; [reflexivity|]. simpl. rewrite IH. apply crc_bit_lxor. Qed.

Lemma crc_bit_even c : crc_bit (Z.shiftl c 1) = c.
Proof.
  rewrite crc_bit_odd, Z.shiftr_shiftl_l by lia.
  rewrite (Z.shiftl_mul_pow2 c 1), Z.odd_mul by lia. change (Z.odd (2 ^ 1)) with false.
  rewrite andb_false_r, Z.lxor_0_r. apply Z.shiftl_0_r.
Qed.

Lemma crc_iter_shiftl n c : Nat.iter n crc_bit (Z.shiftl c (Z.of_nat n)) = c.
Proof.
  revert c. induction n as [|n IH]; intros c; [apply Z.shiftl_0_r|].
  rewrite Nat.iter_succ. replace (Z.shiftl c (Z.of_nat (S n)))
    with (Z.shiftl (Z.shiftl c 1) (Z.of_nat n)).
  - rewrite IH. apply crc_bit_even.
  - rewrite Z.shiftl_shiftl by lia. f_equal. lia.
Qed.

Lemma crc_iter_byte c : Nat.iter 8 crc_bit (Z.shiftl c 8) = c.
Proof. exact (crc_iter_shiftl 8 c). Qed.

Lemma split_low_byte x : x = Z.lxor (Z.land x 255) (Z.shiftl (Z.shiftr x 8) 8).
Proof.
  apply Z.bits_inj'. intros n Hn. rewrite Z.lxor_spec, Z.land_spec, Z.shiftl_spec by lia.
  change 255 with (Z.ones 8). rewrite Z.testbit_ones by lia.
  destruct (Z.lt_ge_cases n 8).
  - rewrite (Z.testbit_neg_r _ (n - 8)) by lia.
    rewrite (proj2 (Z.leb_le 0 n)), (proj2 (Z.ltb_lt n 8)) by lia.
    rewrite andb_true_r, xorb_false_r. reflexivity.
  - rewrite Z.shiftr_spec by lia. replace (n - 8 + 8) with n by lia.
    rewrite (proj2 (Z.ltb_ge n 8)) by lia. rewrite andb_false_r, andb_false_r. reflexivity.
Qed.

Lemma nth_map_seq (f : nat -> Z) (n i : nat) d :
  (i < n)%nat -> nth i (map f (seq 0 n)) d = f i.
Proof.
  intros. rewrite (nth_indep _ _ (f 0%nat)) by (rewrite length_map, length_seq; lia).
  rewrite map_nth, seq_nth by lia. reflexivity.
Qed.

(** The table entry is eight shifts of its index: one table step is eight
    shifts of the register with the byte added. *)
Lemma crc32_step_bits c b : crc32_step c b = Nat.iter 8 crc_bit (Z.lxor c (byte_val b)).
Proof.
  unfold crc32_step. set (x := Z.lxor c (byte_val b)).
  rewrite (split_low_byte x) at 2. rewrite crc_iter_lxor.
  rewrite crc_iter_byte.
  unfold crc32_table. pose proof (land_255 x) as Hx.
  pose proof (Z.mod_pos_bound x 256 ltac:(lia)).
  rewrite nth_map_seq by lia. rewrite Z2Nat.id by lia.
  rewrite Z.lxor_comm. f_equal.
  unfold x. rewrite Z.shiftr_lxor.
  rewrite (Z.shiftr_div_pow2 (byte_val b)) by lia.
  rewrite Z.div_small by apply byte_val_range. rewrite Z.lxor_0_r. reflexivity.
Qed.

Lemma le_value_lxor b r : le_value (b :: r) = Z.lxor (byte_val b) (Z.shiftl (le_value r) 8).
Proof.
  simpl. rewrite Z.lxor_lor; [reflexivity|].
  apply land_shiftl_disjoint; [lia | apply byte_val_range].
Qed.

(** Running the register over a message is dividing the whole message. *)
Lemma crc_fold_bits data c :
  fold_left crc32_step data c = Nat.iter (8 * length data) crc_bit (Z.lxor c (le_value data)).
Proof.
  revert c. induction data as [|b r IH]; intros c; cbn [fold_left].
  - simpl. rewrite Z.lxor_0_r. reflexivity.
  - rewrite IH, crc32_step_bits.
    replace (8 * length (b :: r))%nat with (8 * length r + 8)%nat by (simpl; lia).
    rewrite Nat.iter_add. f_equal.
    rewrite le_value_lxor, <- (Z.lxor_assoc c), (crc_iter_lxor 8 (Z.lxor _ _) (Z.shiftl _ _)).
    rewrite crc_iter_byte. reflexivity.
Qed.

Definition word32 (z : Z) : Prop := 0 <= z < 2 ^ 32.

Lemma lxor_range k a b :
  0 <= k -> 0 <= a < 2 ^ k -> 0 <= b < 2 ^ k -> 0 <= Z.lxor a b < 2 ^ k.
Proof.
  intros Hk Ha Hb. rewrite <- (Z.mod_small a (2 ^ k)), <- (Z.mod_small b (2 ^ k)) by lia.
  rewrite <- !Z.land_ones by lia.
  replace (Z.lxor (Z.land a (Z.ones k)) (Z.land b (Z.ones k)))
    with (Z.land (Z.lxor a b) (Z.ones k)).
  - rewrite Z.land_ones by lia. apply Z.mod_pos_bound. lia.
  - apply Z.bits_inj'. intros n Hn. rewrite Z.lxor_spec, !Z.land_spec, Z.lxor_spec.
    destruct (Z.testbit a n), (Z.testbit b n), (Z.testbit (Z.ones k) n); reflexivity.
Qed.

Lemma lxor_word32 a b : word32 a -> word32 b -> word32 (Z.lxor a b).
Proof. apply (lxor_range 32). lia. Qed.

Lemma crc_bit_range c : word32 c -> word32 (crc_bit c).
Proof.
  unfold word32. intros Hc. rewrite crc_bit_odd. apply lxor_range; [lia| |].
  - rewrite Z.shiftr_div_pow2 by lia. change (2 ^ 1) with 2.
    split; [apply Z.div_pos; lia | apply Z.div_lt_upper_bound; lia].
  - destruct (Z.odd c); lia.
Qed.

Lemma crc_bit_top c : word32 c -> Z.testbit (crc_bit c) 31 = Z.odd c.
Proof.
  unfold word32. intros Hc. rewrite crc_bit_odd, Z.lxor_spec, Z.shiftr_spec by lia.
  rewrite (testbit_small_high c 32) by lia.
  destruct (Z.odd c); reflexivity.
Qed.

(** A shift loses nothing: the polynomial's top bit records the bit shifted
    out. *)
Lemma crc_bit_inj a b : word32 a -> word32 b -> crc_bit a = crc_bit b -> a = b.
Proof.
  intros Ha Hb H. assert (Hodd : Z.odd a = Z.odd b).
  { rewrite <- (crc_bit_top a Ha), <- (crc_bit_top b Hb), H. reflexivity. }
  rewrite !crc_bit_odd, Hodd in H.
  apply (f_equal (fun z => Z.lxor z (if Z.odd b then 0xEDB88320 else 0))) in H.
  rewrite !Z.lxor_assoc, !Z.lxor_nilpotent, !Z.lxor_0_r in H.
  rewrite !Z.shiftr_div_pow2 in H by lia. change (2 ^ 1) with 2 in H.
  pose proof (Zdiv2_odd_eqn a). pose proof (Zdiv2_odd_eqn b).
  rewrite !Z.div2_div in *. rewrite Hodd in *. lia.
Qed.

Lemma crc_iter_range n c : word32 c -> word32 (Nat.iter n crc_bit c).
Proof. intros. induction n; [assumption|]. simpl. apply crc_bit_range. assumption. Qed.

Lemma crc_iter_inj n a b :
  word32 a -> word32 b -> Nat.iter n crc_bit a = Nat.iter n crc_bit b -> a = b.
Proof.
  intros Ha Hb. induction n as [|n IH]; [auto|]. simpl. intros H.
  apply IH, crc_bit_inj; auto using crc_iter_range.
Qed.

Lemma byte_word32 b : word32 (byte_val b).
Proof. unfold word32. pose proof (byte_val_range b). lia. Qed.

Lemma crc32_step_range c b : word32 c -> word32 (crc32_step c b).
Proof.
  intros. rewrite crc32_step_bits. apply crc_iter_range, lxor_word32; auto using byte_word32.
Qed.

Lemma crc_fold_range data c : word32 c -> word32 (fold_left crc32_step data c).
Proof. revert c. induction data; simpl; auto using crc32_step_range. Qed.

Lemma lxor_cancel_r a b c : Z.lxor a c = Z.lxor b c -> a = b.
Proof.
  intros H. apply (f_equal (fun z => Z.lxor z c)) in H.
  rewrite !Z.lxor_assoc, !Z.lxor_nilpotent, !Z.lxor_0_r in H. exact H.
Qed.

Lemma crc_fold_inj data a b :
  word32 a -> word32 b ->
  fold_left crc32_step data a = fold_left crc32_step data b -> a = b.
Proof.
  revert a b. induction data as [|x r IH]; intros a b Ha Hb; [auto|]. cbn [fold_left].
  intros H. apply IH in H; auto using crc32_step_range.
  rewrite !crc32_step_bits in H.
  apply crc_iter_inj in H; [exact (lxor_cancel_r _ _ _ H)| |];
    auto using lxor_word32, byte_word32.
Qed.

Lemma crc32_range data : 0 <= crc32 data < 2 ^ 32.
Proof. unfold crc32. apply lxor_range; [lia | | lia]. apply crc_fold_range. unfold word32. lia. Qed.

Lemma le_value_inj a b : length a = length b -> le_value a = le_value b -> a = b.
Proof.
  intros Hlen H. rewrite <- (le_bytes_value a), <- (le_bytes_value b), Hlen, H. reflexivity.
Qed.

(** Table-driven CRC-32 equals its definition: on every buffer the value
    computed from [crc32_table], one byte per step, is the remainder of the
    bit-serial division of the whole message by the reflected polynomial
    0xEDB88320 with the register preset to and complemented by 0xFFFFFFFF; and
    it is a 32-bit value. *)
Theorem crc32_reference data : crc32 data = crc32_spec data /\ 0 <= crc32 data < 2 ^ 32.
Proof.
  split; [|apply crc32_range]. unfold crc32, crc32_spec. rewrite crc_fold_bits. reflexivity.
Qed.

Lemma crc32_burst pre w w' suf :
  length w = length w' -> (length w <= 4)%nat -> w <> w' ->
  crc32 (pre ++ w ++ suf) <> crc32 (pre ++ w' ++ suf).
Proof.
  intros Hlen H4 Hne H. apply Hne. unfold crc32 in H. apply lxor_cancel_r in H.
  rewrite !fold_left_app in H.
  set (c := fold_left crc32_step pre 0xFFFFFFFF) in H.
  assert (word32 c) by (apply crc_fold_range; unfold word32; lia).
  apply crc_fold_inj in H; auto using crc_fold_range.
  rewrite !crc_fold_bits, <- Hlen in H.
  assert (Hw : forall v, (length v <= 4)%nat -> word32 (le_value v)).
  { intros v Hv. unfold word32. pose proof (le_value_range v) as Hr.
    assert (256 ^ blen v <= 256 ^ 4) by (apply Z.pow_le_mono_r; unfold blen; lia).
    change (256 ^ 4) with (2 ^ 32) in *. lia. }
  apply crc_iter_inj in H; [|apply lxor_word32; auto; apply Hw; lia..].
  rewrite !(Z.lxor_comm c) in H. apply lxor_cancel_r in H.
  apply le_value_inj; assumption.
Qed.

(** Burst errors are detected: two buffers of the same length that differ
    only inside a window of at most four consecutive bytes (32 bits), wherever
    the window lies, have different CRC-32 values. *)
Theorem crc32_detects_burst pre w w' suf :
  length w = length w' -> (length w <= 4)%nat -> w <> w' ->
  crc32 (pre ++ w ++ suf) <> crc32 (pre ++ w' ++ suf).
Proof. apply crc32_burst. Qed.

Lemma crc32_detects_burst_witness :
  crc32 (str "pac" ++ str "IFI" ++ str "c") <> crc32 (str "pac" ++ str "ifi" ++ str "c").
Proof.
  apply (crc32_detects_burst (str "pac") (str "IFI") (str "ifi") (str "c"));
    [reflexivity | simpl; lia | discriminate].
Defined.

Lemma crc_update_fold chunks c :
  state_ (fold_left crc_update chunks c) = fold_left crc32_step (concat chunks) (state_ c).
Proof.
  revert c. induction chunks as [|x r IH]; intros c; [reflexivity|].
  cbn [fold_left concat]. rewrite IH, fold_left_app. reflexivity.
Qed.

Lemma crc_incremental chunks :
  crc_finalize (fold_left crc_update chunks crc_new) = crc32 (concat chunks).
Proof. unfold crc_finalize, crc32. rewrite crc_update_fold. reflexivity. Qed.

(** The incremental CRC is independent of how the data is cut: feeding any
    sequence of chunks to a fresh or a just-reset [IncrementalCRC32] and
    finalizing yields [crc32] of their concatenation, whatever was fed before
    the reset. *)
Theorem incremental_crc32_chunks chunks (used : IncrementalCRC32) :
  crc_finalize (fold_left crc_update chunks crc_new) = crc32 (concat chunks) /\
  crc_finalize (fold_left crc_update chunks (crc_reset used)) = crc32 (concat chunks).
Proof. split; apply crc_incremental. Qed.

(** ** SHA-256 padding *)

(** Writing the eight length bytes back to front into the last eight cells. *)
Lemma store_be64 (pre : bytes) (tail : bytes) v :
  length tail = 8%nat ->
  fold_left (fun buf i =>
      <[(length pre + 8 - 1 - i)%nat := byte_of (Z.land (Z.shiftr v (Z.of_nat i * 8)) 0xFF)]> buf)
    (seq 0 8) (pre ++ tail) = pre ++ be_bytes 8 v.
Proof.
  intros Ht. do 8 (destruct tail as [|? tail]; [discriminate|]).
  destruct tail; [|discriminate].
  cbn [seq fold_left].
  assert (Hi : forall i (x : byte) l, (i <= 7)%nat ->
    <[(length pre + 8 - 1 - i)%nat := x]> (pre ++ l) = pre ++ <[(7 - i)%nat := x]> l).
  { intros i x l Hi. replace (length pre + 8 - 1 - i)%nat with (length pre + (7 - i))%nat by lia.
    apply insert_app_r. }
  rewrite !Hi by lia. f_equal.
Qed.

Lemma sha256_padlen_spec n :
  (n + 9 <= sha256_padlen n)%nat /\ (sha256_padlen n < n + 9 + 64)%nat /\
  (sha256_padlen n mod 64 = 0)%nat.
Proof.
  unfold sha256_padlen. pose proof (Nat.div_mod (n + 8) 64 ltac:(lia)).
  pose proof (Nat.mod_upper_bound (n + 8) 64 ltac:(lia)).
  split; [lia|]. split; [lia|]. apply Nat.Div0.mod_mul.
Qed.

(** SHA-256 pads as FIPS 180-4 prescribes, for every message length: the
    buffer handed to [sha256_transform_block] is the message, the byte 0x80,
    the least number of zero bytes that makes the total a multiple of 64, and
    the bit length as a 64-bit big-endian integer; nothing is written outside
    the buffer. *)
Theorem sha256_padding data :
  exists k, sha256_padded data = data ++ [byte_of 0x80] ++ zeros k ++ be_bytes 8 (u64 (blen data * 8)) /\
            (length (sha256_padded data) mod 64 = 0)%nat /\ (k < 64)%nat.
Proof.
  pose proof (sha256_padlen_spec (length data)) as (Hge & Hlt & Hmod).
  set (n := length data) in *. set (m := sha256_padlen n) in *.
  exists (m - n - 9)%nat.
  assert (Heq : sha256_padded data =
    data ++ [byte_of 0x80] ++ zeros (m - n - 9) ++ be_bytes 8 (u64 (blen data * 8))).
  { unfold sha256_padded. fold n m.
    assert (Hz : zeros (m - n) = [Byte.x00] ++ zeros (m - n - 9) ++ zeros 8).
    { unfold zeros. rewrite <- replicate_add.
      change [Byte.x00] with (replicate 1 Byte.x00). rewrite <- replicate_add. f_equal. lia. }
    rewrite Hz. rewrite insert_app_r_alt by (unfold n; lia).
    replace (n - length data)%nat with 0%nat by (unfold n; lia). cbn [app insert list_insert].
    rewrite (cons_middle (byte_of 128)), !app_assoc.
    set (k := (m - n - 9)%nat). set (pre := (data ++ [byte_of 128]) ++ zeros k).
    assert (Hm : m = (length pre + 8)%nat).
    { unfold pre, zeros, k. rewrite !length_app, length_replicate. simpl. unfold n in *. lia. }
    rewrite Hm. rewrite store_be64 by reflexivity. unfold pre. rewrite <- !app_assoc. reflexivity. }
  split; [exact Heq|]. split; [|lia].
  rewrite Heq. unfold zeros. rewrite !length_app, length_replicate, be_bytes_length.
  cbn [length]. fold n. replace (n + (1 + (m - n - 9 + 8)))%nat with m by lia. exact Hmod.
Qed.

(** Published test vectors of the functions as this file defines them. *)
Example sha256_abc :
  sha256 (str "abc") = str "ba7816bf8f01cfea414140de5dae2223b00361a396177a9cb410ff61f20015ad".
Proof. vm_compute. reflexivity. Qed.

Example crc32_check : crc32 (str "123456789") = 0xCBF43926.
Proof. vm_compute. reflexivity. Qed.
