(* ===== verification/Durability.v ===== *)
(** * Checksummed blocks and durable writes (data_durability.{hpp,cpp})

    [DataBlock] (a 40-byte packed header and its payload), the block-by-block
    [SSTableVerifier] and the integrity reports built on it, and
    [DurableFileWriter] over an operating system whose write and fsync results
    are inputs. *)

From S2P Require Import Prelude FileSys Checksum.
From stdpp Require Import base list strings.
From Stdlib Require Import ZArith Lia.

Open Scope Z_scope.

(** ** DataBlock *)

Definition CRC32 : Z := 0.
Definition CRC32C : Z := 1.
Definition XXHASH64 : Z := 2.
Definition SHA256 : Z := 3.
Definition MURMUR3 : Z := 4.

Definition BLOCK_MAGIC : Z := 0xBAD0B10C.
Definition BLOCK_VERSION : Z := 1.
Definition sizeof_BlockHeader : nat := 40.

Record BlockHeader := mkBlockHeader {
  magic : Z; version : Z; blockSize : Z; dataSize : Z; checksum : Z;
  sequenceNumber : Z; checksumType : Z; compressionType : Z; flags : Z;
  reserved : bytes }.

Record DataBlock := mkDataBlock { header_ : BlockHeader; data_ : bytes; checksumType_ : Z }.

(** The packed struct as [memcpy] moves it on a little-endian machine. *)
Definition header_bytes (h : BlockHeader) : bytes :=
  le_bytes 4 (magic h) ++ le_bytes 4 (version h) ++ le_bytes 4 (blockSize h) ++
  le_bytes 4 (dataSize h) ++ le_bytes 4 (checksum h) ++ le_bytes 8 (sequenceNumber h) ++
  le_bytes 1 (checksumType h) ++ le_bytes 1 (compressionType h) ++ le_bytes 2 (flags h) ++
  reserved h.

Definition header_of (b : bytes) : BlockHeader :=
  let f o n := le_value (take n (drop o b)) in
  mkBlockHeader (f 0 4)%nat (f 4 4)%nat (f 8 4)%nat (f 12 4)%nat (f 16 4)%nat (f 20 8)%nat
    (f 28 1)%nat (f 29 1)%nat (f 30 2)%nat (take 8 (drop 32 b)).

Definition DataBlock_new (type : Z) : DataBlock :=
  mkDataBlock (mkBlockHeader BLOCK_MAGIC BLOCK_VERSION 0 0 0 0 (u8 type) 0 0 (zeros 8)) [] type.

Definition calculateChecksum (b : DataBlock) : Z :=
  if (checksumType_ b =? CRC32) || (checksumType_ b =? CRC32C) then crc32 (data_ b)
  else if checksumType_ b =? XXHASH64 then u32 (Z.land (xxhash64 (data_ b) 0) 0xFFFFFFFF)
  else if checksumType_ b =? MURMUR3 then u32 (Z.land (murmur3 (data_ b) 0) 0xFFFFFFFF)
  else crc32 (data_ b).

Definition DataBlock_write (b : DataBlock) (data : bytes) : DataBlock :=
  let h := header_ b in
  let sized := mkDataBlock
    (mkBlockHeader (magic h) (version h)
       (u32 (Z.of_nat sizeof_BlockHeader + blen data)) (u32 (blen data)) (checksum h)
       (sequenceNumber h) (checksumType h) (compressionType h) (flags h) (reserved h))
    data (checksumType_ b) in
  let h' := header_ sized in
  mkDataBlock
    (mkBlockHeader (magic h') (version h') (blockSize h') (dataSize h')
       (calculateChecksum sized) (sequenceNumber h') (checksumType h')
       (compressionType h') (flags h') (reserved h'))
    data (checksumType_ b).

Definition verifyChecksum (b : DataBlock) : bool :=
  calculateChecksum b =? checksum (header_ b).

Definition DataBlock_verify (b : DataBlock) : bool :=
  if negb (magic (header_ b) =? BLOCK_MAGIC) then false
  else if negb (version (header_ b) =? BLOCK_VERSION) then false
  else verifyChecksum b.

Definition DataBlock_read (b : DataBlock) : option bytes :=
  if DataBlock_verify b then Some (data_ b) else None.

Definition serialize (b : DataBlock) : bytes := header_bytes (header_ b) ++ data_ b.

(** The object is overwritten step by step, also when the call fails. *)
Definition deserialize (b : DataBlock) (data : bytes) : bool * DataBlock :=
  if (length data <? sizeof_BlockHeader)%nat then (false, b) else
  let h := header_of (take sizeof_BlockHeader data) in
  let b := mkDataBlock h (data_ b) (checksumType_ b) in
  if negb (magic h =? BLOCK_MAGIC) then (false, b) else
  if blen data <? Z.of_nat sizeof_BlockHeader + dataSize h then (false, b) else
  let b := mkDataBlock h (take (Z.to_nat (dataSize h)) (drop sizeof_BlockHeader data))
             (checksumType h) in
  (DataBlock_verify b, b).

(** ** SSTableVerifier *)

(** [minKey], [maxKey] and [entryCount] are never set by the verifier. *)
Record SSTableBlockInfo := mkBlockInfo { bi_offset : Z; bi_size : Z; bi_checksum : Z }.

Record VerificationResult := mkVerification {
  vr_valid : bool; blocksChecked : Z; blocksCorrupted : Z;
  corruptedBlocks : list SSTableBlockInfo; vr_error : bytes }.

Definition vr_init : VerificationResult := mkVerification true 0 0 [] [].

(** [while (file)] over the rest of the stream [cur], which starts at file
    offset [pos]; every iteration consumes a header, so the file's length
    bounds the number of iterations. *)
Fixpoint verify_loop (fuel : nat) (pos : Z) (cur : bytes) (r : VerificationResult)
  : VerificationResult :=
  match fuel with
  | O => r
  | S fuel' =>
      match take_bytes sizeof_BlockHeader cur with
      | None => r
      | Some (hb, rest) =>
          let h := header_of hb in
          let pos := pos + Z.of_nat sizeof_BlockHeader in
          if negb (magic h =? BLOCK_MAGIC) then
            verify_loop fuel' pos rest
              (mkVerification false (blocksChecked r) (blocksCorrupted r + 1)
                 (corruptedBlocks r) (vr_error r))
          else
            match take_bytes (Z.to_nat (dataSize h)) rest with
            | None =>
                mkVerification false (blocksChecked r) (blocksCorrupted r)
                  (corruptedBlocks r) (str "Truncated block")
            | Some (data, rest) =>
                let pos := pos + dataSize h in
                let r :=
                  if crc32 data =? checksum h then r
                  else mkVerification false (blocksChecked r) (blocksCorrupted r + 1)
                         (corruptedBlocks r ++ [mkBlockInfo pos (blockSize h) (checksum h)])
                         (vr_error r) in
                verify_loop fuel' pos rest
                  (mkVerification (vr_valid r) (blocksChecked r + 1) (blocksCorrupted r)
                     (corruptedBlocks r) (vr_error r))
            end
      end
  end.

Definition SSTableVerifier_verify (sstablePath : path) (file : option bytes)
  : VerificationResult :=
  match file with
  | None => mkVerification false 0 0 [] (str "Cannot open file: " ++ sstablePath)
  | Some f => verify_loop (S (length f)) 0 f vr_init
  end.

(** ** DataIntegrityMonitor *)

Record IntegrityReport := mkReport {
  ir_passed : bool; filesChecked : Z; filesCorrupted : Z;
  ir_blocksChecked : Z; ir_blocksCorrupted : Z; corruptedFiles : list path }.

(** The report and the number added to [corruptionsDetected_]. *)
Definition checkFile (p : path) (file : option bytes) : IntegrityReport * Z :=
  let r := SSTableVerifier_verify p file in
  (mkReport (vr_valid r) 1 (if vr_valid r then 0 else 1) (blocksChecked r) (blocksCorrupted r)
     (if vr_valid r then [] else [p]),
   if vr_valid r then 0 else 1).

Fixpoint checkDirectory_loop (entries : list dir_entry) (rep : IntegrityReport) (detected : Z)
  : IntegrityReport * Z :=
  match entries with
  | [] => (rep, detected)
  | e :: rest =>
      if negb (de_regular e) then checkDirectory_loop rest rep detected
      else if negb (bytes_eqb (extension (de_name e)) (str ".sst"))
      then checkDirectory_loop rest rep detected
      else
        let '(fr, d) := checkFile (de_name e) (Some (de_data e)) in
        checkDirectory_loop rest
          (mkReport (if ir_passed fr then ir_passed rep else false)
             (filesChecked rep + 1)
             (if ir_passed fr then filesCorrupted rep else filesCorrupted rep + 1)
             (ir_blocksChecked rep + ir_blocksChecked fr)
             (ir_blocksCorrupted rep + ir_blocksCorrupted fr)
             (if ir_passed fr then corruptedFiles rep
              else corruptedFiles rep ++ corruptedFiles fr))
          (detected + d)
  end.

Definition checkDirectory (entries : list dir_entry) (detected : Z) : IntegrityReport * Z :=
  checkDirectory_loop entries (mkReport true 0 0 0 0 []) detected.

(** ** DurableFileWriter *)

Inductive DurabilityMode := NONE | WRITE_THROUGH | PERIODIC | BATCH | EVERY_WRITE | FDATASYNC.

Record DurabilityConfig := mkDurability {
  mode : DurabilityMode; periodicIntervalMs : Z; batchSize : Z; directIO : bool }.

(** [on_file] is what the operating system has accepted, [durable] how many of
    those bytes the last successful fsync covered; both are ghost views of the
    device. *)
Record DurableFileWriter := mkWriter {
  config_ : DurabilityConfig; isOpen_ : bool; position_ : Z; pendingWrites_ : Z;
  bytesWritten_ : Z; syncsPerformed_ : Z; running_ : bool;
  on_file : bytes; durable : nat }.

Definition writer_new (c : DurabilityConfig) : DurableFileWriter :=
  mkWriter c false 0 0 0 0 false [] 0.

Definition writer_open (w : DurableFileWriter) (os_ok : bool) : bool * DurableFileWriter :=
  if isOpen_ w then (true, w) else
  if negb os_ok then (false, w) else
  (true, mkWriter (config_ w) true 0 (pendingWrites_ w) (bytesWritten_ w) (syncsPerformed_ w)
           (match mode (config_ w) with PERIODIC => true | _ => running_ w end) [] 0).

Definition sync (w : DurableFileWriter) (fsync_ok : bool) : bool * DurableFileWriter :=
  if negb (isOpen_ w) then (false, w) else
  if negb fsync_ok then (false, w) else
  (true, mkWriter (config_ w) (isOpen_ w) (position_ w) 0 (bytesWritten_ w)
           (u64 (syncsPerformed_ w + 1)) (running_ w) (on_file w) (length (on_file w))).

Definition datasync (w : DurableFileWriter) (fdatasync_ok : bool) : bool * DurableFileWriter :=
  sync w fdatasync_ok.

Definition checkBatchSync (w : DurableFileWriter) (fsync_ok : bool) : DurableFileWriter :=
  if batchSize (config_ w) <=? pendingWrites_ w then (sync w fsync_ok).2 else w.

(** [written] is what [::write] returned: -1, or how many of the bytes it took. *)
Definition writer_write (w : DurableFileWriter) (data : bytes) (written : Z) (fsync_ok : bool)
  : bool * DurableFileWriter :=
  if negb (isOpen_ w) then (false, w) else
  if written <? 0 then (false, w) else
  let w := mkWriter (config_ w) (isOpen_ w) (position_ w + written)
             (to_signed 32 (u32 (pendingWrites_ w + 1)))
             (u64 (bytesWritten_ w + written)) (syncsPerformed_ w) (running_ w)
             (on_file w ++ take (Z.to_nat written) data) (durable w) in
  (true, match mode (config_ w) with
         | EVERY_WRITE => (sync w fsync_ok).2
         | BATCH => checkBatchSync w fsync_ok
         | _ => w
         end).

Definition writeBlock (w : DurableFileWriter) (b : DataBlock) (written : Z) (fsync_ok : bool)
  : bool * DurableFileWriter :=
  writer_write w (serialize b) written fsync_ok.

(** One iteration of the PERIODIC thread's loop body. *)
Definition backgroundSync (w : DurableFileWriter) (fsync_ok : bool) : DurableFileWriter :=
  if 0 <? pendingWrites_ w then (sync w fsync_ok).2 else w.

Definition writer_close (w : DurableFileWriter) (fsync_ok : bool) : DurableFileWriter :=
  if negb (isOpen_ w) then w else
  let w := (sync (mkWriter (config_ w) (isOpen_ w) (position_ w) (pendingWrites_ w)
                    (bytesWritten_ w) (syncsPerformed_ w) false (on_file w) (durable w))
              fsync_ok).2 in
  mkWriter (config_ w) false (position_ w) (pendingWrites_ w) (bytesWritten_ w)
    (syncsPerformed_ w) (running_ w) (on_file w) (durable w).

(** Calls on one writer in the order the mutex serialises them, the PERIODIC
    thread's iterations included; the booleans and counts are the operating
    system's answers. *)
Inductive writer_op :=
| OpOpen (os_ok : bool)
| OpWrite (data : bytes) (written : Z) (fsync_ok : bool)
| OpWriteBlock (b : DataBlock) (written : Z) (fsync_ok : bool)
| OpSync (fsync_ok : bool)
| OpDatasync (fdatasync_ok : bool)
| OpBackground (fsync_ok : bool)
| OpClose (fsync_ok : bool).

Definition writer_step (w : DurableFileWriter) (op : writer_op) : DurableFileWriter :=
  match op with
  | OpOpen ok => (writer_open w ok).2
  | OpWrite data n ok => (writer_write w data n ok).2
  | OpWriteBlock b n ok => (writeBlock w b n ok).2
  | OpSync ok => (sync w ok).2
  | OpDatasync ok => (datasync w ok).2
  | OpBackground ok => backgroundSync w ok
  | OpClose ok => writer_close w ok
  end.

(** [::write] reports at most the number of bytes it was given. *)
Definition op_ok (op : writer_op) : Prop :=
  match op with
  | OpWrite data n _ => n <= blen data
  | OpWriteBlock b n _ => n <= blen (serialize b)
  | _ => True
  end.

Definition fsync_succeeds (op : writer_op) : bool :=
  match op with
  | OpOpen _ => true
  | OpWrite _ _ ok | OpWriteBlock _ _ ok | OpSync ok | OpDatasync ok
  | OpBackground ok | OpClose ok => ok
  end.

(** ** The packed header round-trips *)

Definition header_wf (h : BlockHeader) : Prop :=
  (0 <= magic h < 2 ^ 32) /\ (0 <= version h < 2 ^ 32) /\ (0 <= blockSize h < 2 ^ 32) /\
  (0 <= dataSize h < 2 ^ 32) /\ (0 <= checksum h < 2 ^ 32) /\
  (0 <= sequenceNumber h < 2 ^ 64) /\ (0 <= checksumType h < 2 ^ 8) /\
  (0 <= compressionType h < 2 ^ 8) /\ (0 <= flags h < 2 ^ 16) /\ length (reserved h) = 8%nat.

Lemma slice_le pre n v post :
  0 <= v < 256 ^ Z.of_nat n ->
  le_value (take n (drop (length pre) (pre ++ le_bytes n v ++ post))) = v.
Proof.
  intros Hv. rewrite drop_app_length.
  replace n with (length (le_bytes n v)) at 1 by apply le_bytes_length.
  rewrite take_app_length. apply le_value_bytes, Hv.
Qed.

Lemma header_bytes_length h : length (reserved h) = 8%nat -> length (header_bytes h) = 40%nat.
Proof. intros Hr. unfold header_bytes. rewrite !length_app, !le_bytes_length, Hr. reflexivity. Qed.

Lemma header_of_bytes h : header_wf h -> header_of (header_bytes h) = h.
Proof.
  destruct h as [m v bs ds cs sn ct co fl rs]. unfold header_wf. cbn.
  intros (Hm & Hv & Hbs & Hds & Hcs & Hsn & Hct & Hco & Hfl & Hrs).
  unfold header_of. f_equal.
  - exact (slice_le [] 4 m _ Hm).
  - exact (slice_le (le_bytes 4 m) 4 v _ Hv).
  - exact (slice_le (le_bytes 4 m ++ le_bytes 4 v) 4 bs _ Hbs).
  - exact (slice_le (le_bytes 4 m ++ le_bytes 4 v ++ le_bytes 4 bs) 4 ds _ Hds).
  - exact (slice_le (le_bytes 4 m ++ le_bytes 4 v ++ le_bytes 4 bs ++ le_bytes 4 ds) 4 cs _ Hcs).
  - exact (slice_le (le_bytes 4 m ++ le_bytes 4 v ++ le_bytes 4 bs ++ le_bytes 4 ds ++
                     le_bytes 4 cs) 8 sn _ Hsn).
  - exact (slice_le (le_bytes 4 m ++ le_bytes 4 v ++ le_bytes 4 bs ++ le_bytes 4 ds ++
                     le_bytes 4 cs ++ le_bytes 8 sn) 1 ct _ Hct).
  - exact (slice_le (le_bytes 4 m ++ le_bytes 4 v ++ le_bytes 4 bs ++ le_bytes 4 ds ++
                     le_bytes 4 cs ++ le_bytes 8 sn ++ le_bytes 1 ct) 1 co _ Hco).
  - exact (slice_le (le_bytes 4 m ++ le_bytes 4 v ++ le_bytes 4 bs ++ le_bytes 4 ds ++
                     le_bytes 4 cs ++ le_bytes 8 sn ++ le_bytes 1 ct ++ le_bytes 1 co) 2 fl _ Hfl).
  - apply take_ge. rewrite Hrs. lia.
Qed.

(** ** Blocks *)

Lemma u32_range z : 0 <= u32 z < 2 ^ 32.
Proof. apply Z.mod_pos_bound. lia. Qed.

Lemma calculateChecksum_range b : 0 <= calculateChecksum b < 2 ^ 32.
Proof.
  unfold calculateChecksum.
  repeat case_match; auto using crc32_range, u32_range.
Qed.

Lemma calculateChecksum_ext b b' :
  data_ b = data_ b' -> checksumType_ b = checksumType_ b' ->
  calculateChecksum b = calculateChecksum b'.
Proof. unfold calculateChecksum. intros -> ->. reflexivity. Qed.

(** The block [write] leaves for a fresh [DataBlock(type)]. *)
Definition block_of (type : Z) (data : bytes) : DataBlock :=
  DataBlock_write (DataBlock_new type) data.

Lemma block_of_header_wf type data : header_wf (header_ (block_of type data)).
Proof.
  assert (H8 : 0 <= u8 type < 2 ^ 8) by (apply Z.mod_pos_bound; lia).
  unfold header_wf, block_of, DataBlock_write, DataBlock_new, BLOCK_MAGIC, BLOCK_VERSION.
  cbn [header_ magic version blockSize dataSize checksum sequenceNumber checksumType
       compressionType flags reserved].
  split_and!; try lia; try apply u32_range; try apply calculateChecksum_range; reflexivity.
Qed.

Lemma block_of_dataSize type data :
  blen data < 2 ^ 32 -> dataSize (header_ (block_of type data)) = blen data.
Proof. intros. cbn. apply Z.mod_small. unfold blen in *. lia. Qed.

Lemma serialize_length type data :
  length (serialize (block_of type data)) = (40 + length data)%nat.
Proof.
  unfold serialize. rewrite length_app, header_bytes_length; [reflexivity|].
  apply block_of_header_wf.
Qed.

(** Reading back a block header followed by [payload], which need not be the
    data the header was computed for. *)
Lemma deserialize_block b0 type data payload extra :
  0 <= type < 2 ^ 8 -> blen data < 2 ^ 32 -> length payload = length data ->
  let b := mkDataBlock (header_ (block_of type data)) payload type in
  deserialize b0 (header_bytes (header_ (block_of type data)) ++ payload ++ extra)
  = (calculateChecksum b =? calculateChecksum (block_of type data), b).
Proof.
  intros Ht Hd Hp b. pose proof (block_of_header_wf type data) as Hwf.
  assert (Hl : length (header_bytes (header_ (block_of type data))) = 40%nat)
    by (apply header_bytes_length, Hwf).
  unfold deserialize. rewrite !length_app, Hl.
  destruct (Nat.ltb_spec (40 + (length payload + length extra)) sizeof_BlockHeader);
    [unfold sizeof_BlockHeader in *; lia|].
  rewrite take_app_le, take_ge by (unfold sizeof_BlockHeader; lia).
  rewrite header_of_bytes by exact Hwf. rewrite block_of_dataSize by exact Hd.
  change (magic (header_ (block_of type data)) =? BLOCK_MAGIC) with true. cbn [negb].
  unfold blen at 1. rewrite !length_app, Hl.
  destruct (Z.ltb_spec (Z.of_nat (40 + (length payload + length extra)))
              (Z.of_nat sizeof_BlockHeader + blen data)) as [Hlt|_].
  { unfold sizeof_BlockHeader, blen in *. lia. }
  rewrite drop_app_le, drop_ge by (unfold sizeof_BlockHeader; lia). cbn [app].
  unfold blen. rewrite Nat2Z.id, take_app_le, take_ge by lia.
  change (checksumType (header_ (block_of type data))) with (u8 type).
  unfold u8. rewrite Z.mod_small by lia. fold b.
  f_equal.
Qed.

(** A block survives serialization whatever checksum it uses: for every
    checksum type and payload below 4 GiB, [write] then [serialize] then
    [deserialize] (into any object, with any bytes after it) succeeds,
    restores the same object, and [read] returns exactly the payload. *)
Theorem datablock_roundtrip b0 type data extra :
  0 <= type < 2 ^ 8 -> blen data < 2 ^ 32 ->
  deserialize b0 (serialize (DataBlock_write (DataBlock_new type) data) ++ extra)
    = (true, DataBlock_write (DataBlock_new type) data) /\
  DataBlock_read (DataBlock_write (DataBlock_new type) data) = Some data.
Proof.
  intros Ht Hd. fold (block_of type data). unfold serialize.
  change (data_ (block_of type data)) with data.
  rewrite <- app_assoc, deserialize_block by auto.
  split.
  - f_equal. apply Z.eqb_eq, calculateChecksum_ext; reflexivity.
  - unfold DataBlock_read, DataBlock_verify, verifyChecksum.
    change (negb _) with false at 1. cbn [negb].
    replace (calculateChecksum (block_of type data) =? checksum (header_ (block_of type data)))
      with true; [reflexivity|].
    symmetry. apply Z.eqb_eq, calculateChecksum_ext; reflexivity.
Qed.

Lemma datablock_roundtrip_witness :
  deserialize (DataBlock_new 0) (serialize (DataBlock_write (DataBlock_new XXHASH64) (str "row")) ++ [])
    = (true, DataBlock_write (DataBlock_new XXHASH64) (str "row")) /\
  DataBlock_read (DataBlock_write (DataBlock_new XXHASH64) (str "row")) = Some (str "row").
Proof. apply (datablock_roundtrip (DataBlock_new 0) XXHASH64 (str "row") []); vm_compute; split; congruence. Defined.

Definition uses_crc (type : Z) : bool := negb ((type =? XXHASH64) || (type =? MURMUR3)).

Lemma calculateChecksum_crc b : uses_crc (checksumType_ b) = true -> calculateChecksum b = crc32 (data_ b).
Proof.
  unfold uses_crc, calculateChecksum. intros H.
  destruct (checksumType_ b =? XXHASH64), (checksumType_ b =? MURMUR3); try discriminate.
  destruct (checksumType_ b =? CRC32), (checksumType_ b =? CRC32C); reflexivity.
Qed.

(** C39: a damaged payload is refused: for the CRC checksum types (CRC32,
    CRC32C, and SHA256, which falls back to CRC-32), a serialized block whose
    payload was altered inside any window of at most four bytes does not
    deserialize, and the object it leaves behind does not [read]. *)
Theorem datablock_detects_corruption b0 type pre w w' suf extra :
  0 <= type < 2 ^ 8 -> uses_crc type = true -> blen (pre ++ w ++ suf) < 2 ^ 32 ->
  length w = length w' -> (length w <= 4)%nat -> w <> w' ->
  let r := deserialize b0 (header_bytes (header_ (DataBlock_write (DataBlock_new type) (pre ++ w ++ suf)))
                           ++ (pre ++ w' ++ suf) ++ extra) in
  r.1 = false /\ DataBlock_read r.2 = None.
Proof.
  intros Ht Hc Hd Hlen H4 Hne. fold (block_of type (pre ++ w ++ suf)). cbv zeta.
  rewrite deserialize_block by (rewrite ?length_app; auto; lia). cbn [fst snd].
  assert (Hneq : (calculateChecksum (mkDataBlock (header_ (block_of type (pre ++ w ++ suf)))
                   (pre ++ w' ++ suf) type) =? calculateChecksum (block_of type (pre ++ w ++ suf))) = false).
  { apply Z.eqb_neq. rewrite !calculateChecksum_crc by exact Hc.
    apply not_eq_sym, crc32_burst; auto. }
  split; [exact Hneq|]. unfold DataBlock_read, DataBlock_verify, verifyChecksum.
  change (negb _) with false at 1. cbn [negb].
  assert (Hck : checksum (header_ (block_of type (pre ++ w ++ suf))) =
                calculateChecksum (block_of type (pre ++ w ++ suf))).
  { apply calculateChecksum_ext; reflexivity. }
  cbn [header_]. rewrite Hck, Hneq. reflexivity.
Qed.

Lemma datablock_detects_corruption_witness :
  let r := deserialize (DataBlock_new 0)
    (header_bytes (header_ (DataBlock_write (DataBlock_new CRC32) (str "ke" ++ str "y1" ++ [])))
     ++ (str "ke" ++ str "y2" ++ []) ++ []) in
  r.1 = false /\ DataBlock_read r.2 = None.
Proof.
  apply (datablock_detects_corruption (DataBlock_new 0) CRC32 (str "ke") (str "y1") (str "y2") [] []);
    try reflexivity; [vm_compute; split; congruence | simpl; lia | discriminate].
Defined.

(** ** The verifier's counts *)

(** A file of blocks: the header of each block was written for the first
    component, the bytes now on disk are the second. *)
Definition block_image (type : Z) (b : bytes * bytes) : bytes :=
  header_bytes (header_ (block_of type b.1)) ++ b.2.

Definition image_ok (b : bytes * bytes) : Prop :=
  length b.2 = length b.1 /\ blen b.1 < 2 ^ 32.

Definition damaged (b : bytes * bytes) : bool := negb (crc32 b.2 =? crc32 b.1).

(** One iteration over an intact header. *)
Lemma verify_loop_block type b rest fuel pos r :
  uses_crc type = true -> image_ok b ->
  let pos' := pos + Z.of_nat sizeof_BlockHeader + blen b.1 in
  verify_loop (S fuel) pos (block_image type b ++ rest) r =
  verify_loop fuel pos' rest
    (if damaged b
     then mkVerification false (blocksChecked r + 1) (blocksCorrupted r + 1)
            (corruptedBlocks r ++ [mkBlockInfo pos' (blockSize (header_ (block_of type b.1))) (crc32 b.1)])
            (vr_error r)
     else mkVerification (vr_valid r) (blocksChecked r + 1) (blocksCorrupted r)
            (corruptedBlocks r) (vr_error r)).
Proof.
  intros Hc [Hlen Hd]. destruct b as [d p]. unfold damaged. cbn [fst snd] in *.
  cbn [verify_loop]. unfold block_image. cbn [fst snd].
  pose proof (block_of_header_wf type d) as Hwf.
  rewrite <- app_assoc, take_bytes_app by (apply header_bytes_length, Hwf).
  rewrite header_of_bytes by exact Hwf.
  change (magic (header_ (block_of type d)) =? BLOCK_MAGIC) with true. cbn [negb].
  rewrite block_of_dataSize by exact Hd.
  rewrite take_bytes_app by (unfold blen; lia).
  assert (Hck : checksum (header_ (block_of type d)) = crc32 d).
  { transitivity (calculateChecksum (block_of type d)); [reflexivity|].
    apply (calculateChecksum_crc (block_of type d)), Hc. }
  rewrite Hck. destruct (crc32 p =? crc32 d); reflexivity.
Qed.

Lemma verify_loop_blocks type blocks :
  uses_crc type = true -> Forall image_ok blocks ->
  forall fuel pos r,
  (length blocks < fuel)%nat ->
  let r' := verify_loop fuel pos (flat_map (block_image type) blocks) r in
  vr_valid r' = vr_valid r && forallb (fun b => negb (damaged b)) blocks /\
  blocksChecked r' = blocksChecked r + Z.of_nat (length blocks) /\
  blocksCorrupted r' = blocksCorrupted r + Z.of_nat (length (List.filter damaged blocks)) /\
  vr_error r' = vr_error r.
Proof.
  intros Hc. induction 1 as [|b bs Hb _ IH]; intros [|fuel] pos r Hf; cbn [length] in Hf; try lia.
  - cbn. rewrite andb_true_r. split_and!; lia || reflexivity.
  - cbn [flat_map]. rewrite verify_loop_block by assumption. cbv zeta.
    match goal with |- context [verify_loop fuel ?p' _ ?r'] =>
      destruct (IH fuel p' r' ltac:(lia)) as (-> & -> & -> & ->) end.
    cbn [forallb List.filter length].
    destruct (damaged b); cbn [negb andb length vr_valid blocksChecked blocksCorrupted vr_error];
      rewrite ?andb_false_r; split_and!; (lia || reflexivity).
Qed.

(** The verifier counts damage exactly: over a file of CRC-checksummed
    blocks whose payloads may have been overwritten in place, it visits every
    block, counts as corrupted exactly those whose stored CRC no longer
    matches, reports no other error, and calls the file valid exactly when no
    block is damaged. *)
Theorem verifier_counts_damage p type blocks :
  uses_crc type = true -> Forall image_ok blocks ->
  let r := SSTableVerifier_verify p (Some (flat_map (block_image type) blocks)) in
  blocksChecked r = Z.of_nat (length blocks) /\
  blocksCorrupted r = Z.of_nat (length (List.filter damaged blocks)) /\
  vr_valid r = forallb (fun b => negb (damaged b)) blocks /\ vr_error r = [].
Proof.
  intros Hc Hok. cbn [SSTableVerifier_verify].
  assert (Hfuel : (length blocks <= length (flat_map (block_image type) blocks))%nat).
  { clear. induction blocks as [|b bs IH]; [cbn; lia|]. cbn [flat_map length].
    rewrite length_app. unfold block_image at 1. rewrite length_app, header_bytes_length
      by apply block_of_header_wf. lia. }
  pose proof (verify_loop_blocks type blocks Hc Hok
    (S (length (flat_map (block_image type) blocks))) 0 vr_init ltac:(lia)) as (H1 & H2 & H3 & H4).
  split_and!; auto.
Qed.

Lemma verifier_counts_damage_witness :
  let r := SSTableVerifier_verify (str "f.sst")
    (Some (flat_map (block_image CRC32) [(str "aa", str "aa"); (str "bb", str "bc")])) in
  blocksChecked r = 2 /\ blocksCorrupted r = 1 /\ vr_valid r = false /\ vr_error r = [].
Proof.
  pose proof (verifier_counts_damage (str "f.sst") CRC32 [(str "aa", str "aa"); (str "bb", str "bc")]
    eq_refl ltac:(repeat constructor)) as (H1 & H2 & H3 & H4).
  cbv zeta. rewrite H1, H2, H3, H4. vm_compute. repeat split.
Defined.

Lemma verify_loop_invalid fuel pos cur r :
  vr_valid r = false -> vr_valid (verify_loop fuel pos cur r) = false.
Proof.
  revert pos cur r. induction fuel as [|fuel IH]; intros pos cur r Hr; [exact Hr|].
  cbn [verify_loop]. destruct (take_bytes _ cur) as [[hb rest]|]; [|exact Hr].
  destruct (negb _); [apply IH; reflexivity|].
  destruct (take_bytes _ rest) as [[d rest']|]; [|reflexivity].
  apply IH. cbn [vr_valid]. destruct (_ =? _); [exact Hr | reflexivity].
Qed.

(** A file that does not start with a block is never valid. *)
Lemma verifier_rejects_foreign p f :
  (sizeof_BlockHeader <= length f)%nat -> le_value (take 4 f) <> BLOCK_MAGIC ->
  vr_valid (SSTableVerifier_verify p (Some f)) = false.
Proof.
  intros Hl Hm. cbn [SSTableVerifier_verify verify_loop].
  destruct (take_bytes sizeof_BlockHeader f) as [[hb rest]|] eqn:E;
    [|apply take_bytes_None in E; lia].
  apply take_bytes_Some in E as [-> Hhb].
  rewrite take_app_le in Hm by (rewrite Hhb; unfold sizeof_BlockHeader; lia).
  change (magic (header_of hb)) with (le_value (take 4 hb)).
  rewrite (proj2 (Z.eqb_neq _ _)) by exact Hm. apply verify_loop_invalid. reflexivity.
Qed.

(** A block whose checksum is not a CRC is reported as corrupted although it
    reads back: the verifier ignores the header's checksum type. *)
Example verifier_ignores_checksum_type :
  let b := block_of XXHASH64 (str "row") in
  DataBlock_read b = Some (str "row") /\
  vr_valid (SSTableVerifier_verify (str "f") (Some (serialize b))) = false.
Proof. vm_compute. split; reflexivity. Qed.

(** ** Directory reports *)

Definition sst_entry (e : dir_entry) : bool := has_extension (str ".sst") e.

Definition entry_valid (e : dir_entry) : bool :=
  vr_valid (SSTableVerifier_verify (de_name e) (Some (de_data e))).

Lemma checkDirectory_loop_cons e es rep d :
  checkDirectory_loop (e :: es) rep d =
  if sst_entry e then
    let r := SSTableVerifier_verify (de_name e) (Some (de_data e)) in
    let ok := entry_valid e in
    checkDirectory_loop es
      (mkReport (if ok then ir_passed rep else false) (filesChecked rep + 1)
         (if ok then filesCorrupted rep else filesCorrupted rep + 1)
         (ir_blocksChecked rep + blocksChecked r) (ir_blocksCorrupted rep + blocksCorrupted r)
         (if ok then corruptedFiles rep else corruptedFiles rep ++ [de_name e]))
      (d + if ok then 0 else 1)
  else checkDirectory_loop es rep d.
Proof.
  cbn [checkDirectory_loop]. unfold sst_entry, has_extension, entry_valid, checkFile.
  destruct (de_regular e); cbn [negb andb]; [|reflexivity].
  destruct (bytes_eqb _ _); cbn [negb]; [|reflexivity].
  cbn [ir_passed corruptedFiles ir_blocksChecked ir_blocksCorrupted].
  destruct (vr_valid _); reflexivity.
Qed.

Lemma checkDirectory_loop_spec entries rep d :
  let bad := List.filter (fun e => sst_entry e && negb (entry_valid e)) entries in
  let '(rep', d') := checkDirectory_loop entries rep d in
  ir_passed rep' = ir_passed rep && forallb (fun e => negb (sst_entry e) || entry_valid e) entries /\
  filesChecked rep' = filesChecked rep + Z.of_nat (length (List.filter sst_entry entries)) /\
  filesCorrupted rep' = filesCorrupted rep + Z.of_nat (length bad) /\
  corruptedFiles rep' = corruptedFiles rep ++ map de_name bad /\
  d' = d + Z.of_nat (length bad).
Proof.
  revert rep d. induction entries as [|e es IH]; intros rep d; cbv zeta in *.
  - cbn. rewrite andb_true_r, app_nil_r. split_and!; lia || reflexivity.
  - rewrite checkDirectory_loop_cons. cbn [forallb List.filter]. cbv zeta.
    destruct (sst_entry e); cbn [negb andb orb]; [|apply IH].
    match goal with |- context [checkDirectory_loop es ?r' ?d'] => specialize (IH r' d') end.
    destruct (checkDirectory_loop es _ _) as [rep' d'].
    destruct IH as (-> & -> & -> & -> & ->). destruct (entry_valid e);
      cbn [negb andb ir_passed filesChecked filesCorrupted corruptedFiles length map];
      rewrite ?andb_false_r, <- ?app_assoc; split_and!; (lia || reflexivity).
Qed.

(** An integrity scan of a directory is exact: it checks every regular file
    with extension .sst and no other, passes exactly when all of them verify,
    and lists and counts exactly the ones that do not, in iteration order,
    adding their number to the detection counter. *)
Theorem checkDirectory_exact entries detected :
  let bad := List.filter (fun e => sst_entry e && negb (entry_valid e)) entries in
  let '(rep, d) := checkDirectory entries detected in
  (ir_passed rep = true <-> forall e, e ∈ entries -> sst_entry e = true -> entry_valid e = true) /\
  filesChecked rep = Z.of_nat (length (List.filter sst_entry entries)) /\
  filesCorrupted rep = Z.of_nat (length bad) /\
  corruptedFiles rep = map de_name bad /\ d = detected + Z.of_nat (length bad).
Proof.
  pose proof (checkDirectory_loop_spec entries (mkReport true 0 0 0 0 []) detected) as H.
  cbv zeta in *. unfold checkDirectory.
  destruct (checkDirectory_loop _ _ _) as [rep d]. destruct H as (-> & -> & -> & -> & ->).
  split_and!; try reflexivity.
  cbn [ir_passed andb]. rewrite forallb_forall.
  setoid_rewrite <- list_elem_of_In. split; intros H e He; specialize (H e He).
  - intros Hs. rewrite Hs in H. exact H.
  - destruct (sst_entry e); [apply H; reflexivity | reflexivity].
Qed.

(** ** Durable writes *)

Definition writer_inv (n : Z) (w : DurableFileWriter) : Prop :=
  0 <= pendingWrites_ w <= n /\ (durable w <= length (on_file w))%nat /\
  position_ w = blen (on_file w) /\
  (pendingWrites_ w = 0 -> durable w = length (on_file w)).

Lemma sync_inv n w ok : writer_inv n w -> writer_inv n (sync w ok).2.
Proof.
  unfold sync. intros (Hp & Hd & Hpos & Hz). repeat case_match; cbn; unfold writer_inv; cbn;
    split_and!; auto; lia.
Qed.

Lemma i32_small z : 0 <= z < 2 ^ 31 -> to_signed 32 (u32 z) = z.
Proof.
  intros Hz. unfold u32, to_signed. rewrite Z.mod_small by lia.
  change (32 - 1) with 31. rewrite (proj2 (Z.ltb_lt _ _)) by lia. reflexivity.
Qed.

Lemma write_inv n w data k ok :
  n + 1 < 2 ^ 31 -> k <= blen data -> writer_inv n w ->
  writer_inv (n + 1) (writer_write w data k ok).2.
Proof.
  intros Hn Hk (Hp & Hd & Hpos & Hz). unfold writer_write.
  destruct (negb (isOpen_ w)); cbn [snd]; [unfold writer_inv; split_and!; auto; lia|].
  destruct (Z.ltb_spec k 0); cbn [snd]; [unfold writer_inv; split_and!; auto; lia|].
  cbn [config_]. match goal with |- writer_inv _ (match _ with _ => _ end) =>
    set (w1 := mkWriter _ _ _ _ _ _ _ _ _) end.
  assert (Hw1 : writer_inv (n + 1) w1).
  { unfold writer_inv, w1; cbn. rewrite i32_small by lia.
    unfold blen in *. rewrite length_app, length_take, Nat.min_l by lia.
    split_and!; lia. }
  destruct (mode (config_ w)); auto using sync_inv.
  unfold checkBatchSync. destruct (_ <=? _); auto using sync_inv.
Qed.

Lemma step_inv n w op :
  n + 1 < 2 ^ 31 -> op_ok op -> writer_inv n w -> writer_inv (n + 1) (writer_step w op).
Proof.
  intros Hn Hop Hw.
  assert (Hw' : writer_inv (n + 1) w) by (destruct Hw as ([] & ?); split_and!; auto; try lia; tauto).
  destruct op; cbn [writer_step].
  - unfold writer_open. destruct Hw' as (? & ? & ? & ?).
    repeat case_match; cbn; unfold writer_inv; cbn; split_and!; auto; lia.
  - apply write_inv; auto.
  - unfold writeBlock. apply write_inv; auto.
  - apply sync_inv, Hw'.
  - apply sync_inv, Hw'.
  - unfold backgroundSync. destruct (_ <? _); auto using sync_inv.
  - unfold writer_close. destruct (negb _); [exact Hw'|].
    match goal with |- context [sync ?x ?o] => pose proof (sync_inv (n + 1) x o) as Hs end.
    exact (Hs Hw').
Qed.


Lemma run_inv ops : forall n w,
  n + Z.of_nat (length ops) < 2 ^ 31 -> Forall op_ok ops -> writer_inv n w ->
  writer_inv (n + Z.of_nat (length ops)) (fold_left writer_step ops w).
Proof.
  induction ops as [|op ops IH]; intros n w Hn Hops Hw; cbn [fold_left length] in *.
  - rewrite Z.add_0_r. exact Hw.
  - apply Forall_cons in Hops as [Hop Hops].
    replace (n + Z.of_nat (S (length ops))) with (n + 1 + Z.of_nat (length ops)) by lia.
    apply IH; [lia | exact Hops |]. apply step_inv; [lia | exact Hop | exact Hw].
Qed.

Lemma writer_new_inv c : writer_inv 0 (writer_new c).
Proof. unfold writer_inv, writer_new. cbn -[Z.le]. split_and!; try done; lia. Qed.

(** The pending counter never hides undurable data: after any sequence of
    fewer than 2^31 calls on a fresh writer, with any operating-system answers
    (failed or short writes, failed fsyncs), the position is the number of
    bytes accepted, the durable prefix never exceeds it, and when
    [pendingWrites_] is zero every accepted byte is durable.  (The counter is a
    32-bit int, hence the bound.) *)
Theorem writer_pending_covers c ops :
  Z.of_nat (length ops) < 2 ^ 31 -> Forall op_ok ops ->
  let w := fold_left writer_step ops (writer_new c) in
  position_ w = blen (on_file w) /\ (durable w <= length (on_file w))%nat /\
  0 <= pendingWrites_ w <= Z.of_nat (length ops) /\
  (pendingWrites_ w = 0 -> durable w = length (on_file w)).
Proof.
  intros Hn Hops. cbv zeta.
  destruct (run_inv ops 0 (writer_new c)) as (? & ? & ? & ?); auto using writer_new_inv.
Qed.

Lemma writer_pending_covers_witness :
  let w := fold_left writer_step [OpOpen true; OpWrite (str "ab") 1 false; OpSync true]
             (writer_new (mkDurability NONE 0 0 false)) in
  position_ w = blen (on_file w) /\ (durable w <= length (on_file w))%nat /\
  0 <= pendingWrites_ w <= 3 /\ (pendingWrites_ w = 0 -> durable w = length (on_file w)).
Proof.
  apply (writer_pending_covers (mkDurability NONE 0 0 false)
           [OpOpen true; OpWrite (str "ab") 1 false; OpSync true]);
    [reflexivity | repeat constructor; vm_compute; congruence].
Defined.

(** What a durability mode promises while fsync works. *)
Definition mode_promise (w : DurableFileWriter) : Prop :=
  match mode (config_ w) with
  | EVERY_WRITE => pendingWrites_ w = 0
  | BATCH => 0 < batchSize (config_ w) -> pendingWrites_ w < batchSize (config_ w)
  | _ => True
  end.

Lemma sync_promise w ok : mode_promise w -> mode_promise (sync w ok).2.
Proof.
  unfold sync. intros Hw. destruct (negb (isOpen_ w)); [exact Hw|].
  destruct (negb ok); [exact Hw|]. unfold mode_promise in *. cbn.
  destruct (mode (config_ w)); auto.
Qed.

Lemma config_step w op : config_ (writer_step w op) = config_ w.
Proof.
  destruct op; cbn; unfold writer_open, writeBlock, writer_write, datasync, backgroundSync,
    writer_close, checkBatchSync, sync; repeat (case_match || cbn); reflexivity.
Qed.

Lemma write_promise w data k :
  mode_promise w -> mode_promise (writer_write w data k true).2.
Proof.
  intros Hw. unfold writer_write. destruct (isOpen_ w) eqn:Ho; cbn [negb]; [|exact Hw].
  destruct (k <? 0); [exact Hw|]. cbn [snd config_].
  unfold mode_promise. destruct (mode (config_ w)) eqn:Em; cbn; rewrite ?Em; auto.
  unfold checkBatchSync. cbn [config_ pendingWrites_].
  destruct (Z.leb_spec (batchSize (config_ w)) (to_signed 32 (u32 (pendingWrites_ w + 1))));
    cbn; rewrite ?Ho; cbn; rewrite Em; lia.
Qed.

Lemma step_promise w op :
  fsync_succeeds op = true -> mode_promise w -> mode_promise (writer_step w op).
Proof.
  destruct op; cbn [fsync_succeeds writer_step]; intros Hok Hw; subst.
  - unfold writer_open. repeat case_match; cbn; auto.
  - apply write_promise, Hw.
  - apply write_promise, Hw.
  - apply sync_promise, Hw.
  - apply sync_promise, Hw.
  - unfold backgroundSync. destruct (_ <? _); auto using sync_promise.
  - unfold writer_close. destruct (negb _); [exact Hw|].
    match goal with |- context [sync ?x ?o] => pose proof (sync_promise x o Hw) as Hs end.
    exact Hs.
Qed.

Lemma run_promise ops : forall w,
  Forall (fun op => fsync_succeeds op = true) ops -> mode_promise w ->
  mode_promise (fold_left writer_step ops w) /\ config_ (fold_left writer_step ops w) = config_ w.
Proof.
  induction ops as [|op ops IH]; intros w Hops Hw; [auto|]. cbn [fold_left].
  apply Forall_cons in Hops as [Hop Hops].
  destruct (IH (writer_step w op) Hops (step_promise w op Hop Hw)) as [H1 H2].
  rewrite H2, config_step. auto.
Qed.

(** The durability modes keep their promise while fsync succeeds: after any
    sequence of fewer than 2^31 calls with successful fsyncs, in EVERY_WRITE
    mode every byte accepted so far is durable, and in BATCH mode fewer than
    [batchSize] writes are pending. *)
Theorem durability_modes c ops :
  Z.of_nat (length ops) < 2 ^ 31 -> Forall op_ok ops ->
  Forall (fun op => fsync_succeeds op = true) ops ->
  let w := fold_left writer_step ops (writer_new c) in
  (mode c = EVERY_WRITE -> durable w = length (on_file w)) /\
  (mode c = BATCH -> 0 < batchSize c -> pendingWrites_ w < batchSize c).
Proof.
  intros Hn Hops Hok. cbv zeta.
  destruct (run_promise ops (writer_new c) Hok) as [Hp Hc].
  { unfold mode_promise. cbn. destruct (mode c); auto. }
  destruct (run_inv ops 0 (writer_new c)) as (_ & _ & _ & Hz); auto.
  { apply writer_new_inv. }
  unfold mode_promise in Hp. rewrite Hc in Hp. cbn [config_ writer_new] in Hp.
  split; intros Hm; rewrite Hm in Hp; auto.
Qed.

Lemma durability_modes_witness :
  let c := mkDurability EVERY_WRITE 0 0 false in
  let ops := [OpOpen true; OpWrite (str "ab") 2 true] in
  let w := fold_left writer_step ops (writer_new c) in
  (mode c = EVERY_WRITE -> durable w = length (on_file w)) /\
  (mode c = BATCH -> 0 < batchSize c -> pendingWrites_ w < batchSize c).
Proof.
  apply (durability_modes (mkDurability EVERY_WRITE 0 0 false)
           [OpOpen true; OpWrite (str "ab") 2 true]);
    [reflexivity | repeat constructor; vm_compute; congruence | repeat constructor].
Defined.

(** The result of the fsync is dropped: in EVERY_WRITE mode a write whose
    fsync failed still returns true, with none of its bytes durable; and a
    short write returns true with only a prefix on file. *)
Example every_write_ignores_fsync_failure :
  let w := (writer_open (writer_new (mkDurability EVERY_WRITE 0 0 false)) true).2 in
  let r := writer_write w (str "ab") 2 false in
  r.1 = true /\ durable r.2 = 0%nat /\ on_file r.2 = str "ab" /\
  (writer_write w (str "ab") 1 true).1 = true.
Proof. vm_compute. repeat split. Qed.
