(* ===== verification/Store.v ===== *)
(** * Shared state of the storage format: files and metadata caches

    [g_sstCache] and [g_bloomCache] of storage_format_v2.cpp keep parsed
    headers by path; an entry is used only while the file's size and
    modification time still match.  [invalidateCaches] drops every entry whose
    path starts with a prefix. *)

From S2P Require Import Prelude FileSys.
From stdpp Require Import base list gmap strings.
From Stdlib Require Import ZArith Lia.

Open Scope Z_scope.

Record BlockIndexEntry := mkEntry {
  e_offset : Z; storedBytes : Z; originalBytes : Z; e_rows : Z;
  firstKey : bytes; lastKey : bytes }.

Record SstMetadata := mkSstMetadata {
  md_fileSize : Z; md_mtime : Z; md_rowCount : Z; blocks : list BlockIndexEntry }.

Record BloomView := mkBloomView {
  bv_fileSize : Z; bv_mtime : Z; bitCount : Z; hashes : Z; words : list Z }.

Record store := mkStore {
  st_fs : fsys;
  g_sstCache : gmap path SstMetadata;
  g_bloomCache : gmap path BloomView }.

(** [it->first.rfind(prefix, 0) == 0]. *)
Fixpoint is_prefix (p s : bytes) : bool :=
  match p, s with
  | [], _ => true
  | _, [] => false
  | a :: p', b :: s' => (byte_val a =? byte_val b) && is_prefix p' s'
  end.

Definition erase_prefix {A} (prefix : path) (m : gmap path A) : gmap path A :=
  filter (fun kv => is_prefix prefix kv.1 = false) m.

Definition invalidateCaches (s : store) (prefix : path) : store :=
  mkStore (st_fs s) (erase_prefix prefix (g_sstCache s)) (erase_prefix prefix (g_bloomCache s)).

Definition with_fs (s : store) (fs : fsys) : store :=
  mkStore fs (g_sstCache s) (g_bloomCache s).

Definition file_size (s : store) (p : path) : option Z := (fun f => blen (f_data f)) <$> st_fs s !! p.

Lemma is_prefix_refl s : is_prefix s s = true.
Proof. induction s as [|a s IH]; [reflexivity|]. simpl. rewrite Z.eqb_refl. exact IH. Qed.

Lemma is_prefix_app p e : is_prefix p (p ++ e) = true.
Proof. induction p as [|a p IH]; [reflexivity|]. simpl. rewrite Z.eqb_refl. exact IH. Qed.

Lemma erase_prefix_lookup {A} (prefix : path) (m : gmap path A) (p : path) (x : A) :
  erase_prefix prefix m !! p = Some x <-> m !! p = Some x /\ is_prefix prefix p = false.
Proof. unfold erase_prefix. rewrite map_lookup_filter_Some. reflexivity. Qed.

(** ** Cache coherence, for any cached kind

    A cached value that the size and time test accepts was parsed from the
    file's present contents. *)
Section Coherence.
Context {A : Type} (parse : file -> option A) (size mtime : A -> Z).

Definition coherent (fs : fsys) (cache : gmap path A) : Prop :=
  forall p v f, cache !! p = Some v -> fs !! p = Some f ->
    size v = blen (f_data f) -> mtime v = f_mtime f -> parse f = Some v.

(** The cache protocol of [loadMetadata] and [mapBloom]. *)
Definition cached_load (fs : fsys) (cache : gmap path A) (p : path) (f : file)
  : option A * gmap path A :=
  match cache !! p with
  | Some v => if (size v =? blen (f_data f)) && (mtime v =? f_mtime f) then (Some v, cache)
              else match parse f with
                   | Some v => (Some v, <[p := v]> cache)
                   | None => (None, cache)
                   end
  | None => match parse f with
            | Some v => (Some v, <[p := v]> cache)
            | None => (None, cache)
            end
  end.

Lemma cached_load_coherent fs cache p f :
  coherent fs cache -> fs !! p = Some f ->
  (cached_load fs cache p f).1 = parse f /\ coherent fs (cached_load fs cache p f).2.
Proof.
  intros Hc Hf.
  assert (Hins : forall v, parse f = Some v -> coherent fs (<[p := v]> cache)).
  { intros v Hv q w g Hq Hg. destruct (decide (q = p)) as [->|Hne].
    - rewrite lookup_insert_eq in Hq. intros _ _. congruence.
    - rewrite lookup_insert_ne in Hq by congruence. eapply Hc; eauto. }
  unfold cached_load. destruct (cache !! p) as [v|] eqn:E.
  - destruct ((size v =? _) && _) eqn:Et.
    + apply andb_true_iff in Et as [E1%Z.eqb_eq E2%Z.eqb_eq]. split; [|exact Hc].
      symmetry. eapply Hc; eauto.
    + destruct (parse f); split; auto; apply Hins; reflexivity.
  - destruct (parse f); split; auto; apply Hins; reflexivity.
Qed.

(** Replacing files under a prefix keeps coherence when their cache entries are
    dropped, whatever their new sizes and times. *)
Lemma coherent_replace fs fs' cache p :
  coherent fs cache -> (forall q, is_prefix p q = false -> fs' !! q = fs !! q) ->
  coherent fs' (erase_prefix p cache).
Proof.
  intros Hc Hfs q v f Hq Hf Hs Hm. apply erase_prefix_lookup in Hq as [Hq Hp].
  eapply Hc; eauto. rewrite <- Hfs; auto.
Qed.

Lemma coherent_erase fs cache p : coherent fs cache -> coherent fs (erase_prefix p cache).
Proof. intros Hc q v f Hq. apply erase_prefix_lookup in Hq as [Hq _]. eapply Hc; eauto. Qed.
End Coherence.
