(* ===== verification/IndexSegment.v ===== *)
(** * Column-index segments (storage_format_v2.cpp)

    Batches of index mutations are published as immutable, checksummed segment
    files whose names order them; readers replay the segments of a directory
    in name order.  A directory is the map of its regular files together with
    the process-wide stamp [nextSegmentName] keeps for it. *)

From S2P Require Import Decimal Prelude FileSys Checksum.
From stdpp Require Import base list gmap strings sorting.
From Stdlib Require Import ZArith Lia.

Open Scope Z_scope.

Definition kIndexMagic : bytes := str "PDBCIX2" ++ [Byte.x00].
Definition kVersion : Z := 2.
Definition kMaxFieldBytes : Z := 64 * 1024 * 1024.

(** ** Data *)

Inductive Op := Clear | Put.

Definition op_code (o : Op) : Z := match o with Clear => 1 | Put => 2 end.
Definition op_of (z : Z) : option Op :=
  if z =? 1 then Some Clear else if z =? 2 then Some Put else None.

Record IndexMutation := mkMutation { op : Op; value : bytes; id : bytes }.

Record IndexSegment := mkSegment { snapshot : bool; mutations : list IndexMutation }.

#[export] Instance Op_eq_dec : EqDecision Op.
Proof. solve_decision. Defined.
#[export] Instance IndexMutation_eq_dec : EqDecision IndexMutation.
Proof. solve_decision. Defined.

(** ** Writing *)

(** The comparator of the [std::sort] call. *)
Definition mutation_ltb (l r : IndexMutation) : bool :=
  if negb (bytes_eqb (value l) (value r)) then bytes_ltb (value l) (value r)
  else if negb (bytes_eqb (id l) (id r)) then bytes_ltb (id l) (id r)
  else op_code (op l) <? op_code (op r).

Definition mutation_le (l r : IndexMutation) : Prop := mutation_ltb r l = false.

#[export] Instance mutation_le_dec : RelDecision mutation_le.
Proof. intros l r. unfold mutation_le. apply _. Defined.

Definition sort_mutations (l : list IndexMutation) : list IndexMutation :=
  merge_sort mutation_le l.

Definition encode_mutation (m : IndexMutation) : bytes :=
  byte_of (op_code (op m)) :: zeros 3 ++ le_bytes 4 (blen (value m)) ++
  le_bytes 4 (blen (id m)) ++ value m ++ id m.

Definition mutation_fits (m : IndexMutation) : bool :=
  negb (bytes_eqb (id m) [] || (kMaxFieldBytes <? blen (id m)) ||
        (kMaxFieldBytes <? blen (value m))).

(** Payload loop and header: the bytes of the segment, or the format error. *)
Fixpoint encode_mutations (ms : list IndexMutation) (payload : bytes) : result bytes :=
  match ms with
  | [] => Ok payload
  | m :: r =>
      if negb (mutation_fits m)
      then Err "column-index mutation exceeds format limit"
      else encode_mutations r (payload ++ encode_mutation m)
  end.

Definition segment_header (snap : bool) (count : Z) (payload : bytes) : bytes :=
  kIndexMagic ++ le_bytes 4 kVersion ++ le_bytes 4 (if snap then 1 else 0) ++
  le_bytes 8 count ++ le_bytes 8 (blen payload) ++ le_bytes 4 (crc32c payload) ++
  le_bytes 4 0.

Definition encodeSegment (ms : list IndexMutation) (snap : bool) : result bytes :=
  let ms := sort_mutations ms in
  payload ← encode_mutations ms [];
  Ok (segment_header snap (Z.of_nat (length ms)) payload ++ payload).

(** ** Names *)

Definition segment_name (stamp : Z) : bytes := dec_padded 20 stamp ++ str ".seg".

Record segdir := mkSegdir {
  sd_files : gmap bytes bytes;   (* file name -> contents *)
  lastStamp : Z }.               (* [lastStamp[directory]] of this process *)

(** The directory scan of a process that has not named a segment here yet. *)
Definition scan_stamp (prev : Z) (entry : bytes * bytes) : Z :=
  let filename := entry.1 in
  if (length filename <? 20)%nat || negb (bytes_eqb (extension filename) (str ".seg")) then prev
  else match stoull (take 20 filename) with
       | Some v => Z.max prev v
       | None => prev
       end.

Definition nextSegmentName (d : segdir) (wallClock : Z) : bytes * segdir :=
  let previous :=
    if lastStamp d =? 0
    then fold_left scan_stamp (map_to_list (sd_files d)) 0
    else lastStamp d in
  let previous := Z.max wallClock (u64 (previous + 1)) in
  (segment_name previous, mkSegdir (sd_files d) previous).

(** What the operating system answers to one call of [writeIndexSegment]:
    how much of the temporary file is written when the stream fails, and
    whether each call succeeded. *)
Record seg_io := mkSegIo {
  io_dirs : bool;          (* create_directories does not throw *)
  io_stream : option nat;  (* None: written and flushed; Some k: failed after k bytes *)
  io_flush : bool; io_sync : bool; io_rename : bool; io_dirsync : bool }.

Definition io_good : seg_io := mkSegIo true None true true true true.

Definition writeIndexSegment (io : seg_io) (wallClock : Z) (d : segdir)
    (ms : list IndexMutation) (snap : bool) : result bytes * segdir :=
  if negb (io_dirs io) then (Err "create_directories", d) else
  match encodeSegment ms snap with
  | Err e => (Err e, d)
  | Ok image =>
      let '(final, d) := nextSegmentName d wallClock in
      let temporary := final ++ str ".tmp" in
      match io_stream io with
      | Some k =>
          (Err "cannot write column-index segment",
           mkSegdir (<[temporary := take k image]> (sd_files d)) (lastStamp d))
      | None =>
          let d := mkSegdir (<[temporary := image]> (sd_files d)) (lastStamp d) in
          if negb (io_flush io) then (Err "cannot flush column-index segment", d) else
          if negb (io_sync io) then (Err "cannot fdatasync column-index segment", d) else
          if negb (io_rename io) then (Err "cannot publish column-index segment: ", d) else
          let d := mkSegdir (<[final := image]> (delete temporary (sd_files d))) (lastStamp d) in
          if negb (io_dirsync io) then (Err "cannot publish column-index segment: ", d)
          else (Ok final, d)
      end
  end.

(** ** Reading *)

(** One iteration of the mutation loop of [readIndexSegment]. *)
Definition read_mutation (cur : bytes) : result (IndexMutation * bytes) :=
  match take_bytes 4 cur with
  | None => Err "truncated column-index mutation"
  | Some (hd, cur) =>
      match op_of (byte_val (default Byte.x00 (head hd))) with
      | None => Err "invalid column-index mutation"
      | Some o =>
          '(valueSize, cur) ← or_err (read_le 4 cur) "invalid column-index mutation";
          '(idSize, cur) ← or_err (read_le 4 cur) "invalid column-index mutation";
          if (kMaxFieldBytes <? valueSize) || (idSize =? 0) || (kMaxFieldBytes <? idSize) ||
             (blen cur <? u32 (valueSize + idSize))
          then Err "invalid column-index mutation"
          else
            let v := take (Z.to_nat valueSize) cur in
            let cur := drop (Z.to_nat valueSize) cur in
            Ok (mkMutation o v (take (Z.to_nat idSize) cur), drop (Z.to_nat idSize) cur)
      end
  end.

Fixpoint read_mutations (count : nat) (cur : bytes) (acc : list IndexMutation)
  : result (list IndexMutation * bytes) :=
  match count with
  | O => Ok (acc, cur)
  | S n =>
      '(m, cur) ← read_mutation cur;
      read_mutations n cur (acc ++ [m])
  end.

Definition readIndexSegment (file : option bytes) : result IndexSegment :=
  input ← or_err file "cannot open column-index segment";
  '(header, input) ← or_err (take_bytes 40 input) "invalid column-index segment header";
  _ ← guard_err (bytes_eqb (take 8 header) kIndexMagic) "invalid column-index segment header";
  let cur := drop 8 header in
  '(version, cur) ← or_err (read_le 4 cur) "unsupported column-index segment";
  '(flags, cur) ← or_err (read_le 4 cur) "unsupported column-index segment";
  '(count, cur) ← or_err (read_le 8 cur) "unsupported column-index segment";
  '(payloadSize, cur) ← or_err (read_le 8 cur) "unsupported column-index segment";
  '(checksum, cur) ← or_err (read_le 4 cur) "unsupported column-index segment";
  '(_, cur) ← or_err (read_le 4 cur) "unsupported column-index segment";
  _ ← guard_err ((version =? kVersion) && negb (kMaxFieldBytes <? count) &&
                 negb (kMaxFieldBytes * 16 <? payloadSize))
                "unsupported column-index segment";
  '(payload, input) ← or_err (take_bytes (Z.to_nat payloadSize) input)
                        "column-index segment checksum mismatch or truncation";
  _ ← guard_err (bytes_eqb input [] && (crc32c payload =? checksum))
                "column-index segment checksum mismatch or truncation";
  '(ms, cur) ← read_mutations (Z.to_nat count) payload [];
  _ ← guard_err (bytes_eqb cur []) "trailing bytes in column-index segment";
  Ok (mkSegment (negb (Z.land flags 1 =? 0)) ms).

(** Paths of one directory compare by file name. *)
Definition listIndexSegments (d : segdir) : list bytes :=
  merge_sort bytes_le
    (List.filter (fun n => bytes_eqb (extension n) (str ".seg")) (map_to_list (sd_files d)).*1).

Fixpoint visit_segments {S : Type} (d : segdir) (visitor : S -> IndexMutation -> S * bool)
    (names : list bytes) (s : S) : result unit * S :=
  match names with
  | [] => (Ok tt, s)
  | n :: r =>
      match readIndexSegment (sd_files d !! n) with
      | Err e => (Err e, s)
      | Ok seg =>
          let '(s, go) := visit_all visitor (mutations seg) s in
          if go then visit_segments d visitor r s else (Ok tt, s)
      end
  end.

Definition visitIndexMutations {S : Type} (d : segdir)
    (visitor : S -> IndexMutation -> S * bool) (s : S) : result unit * S :=
  visit_segments d visitor (listIndexSegments d) s.

(** ** The sort order is total, so the sorted batch is unique *)

Definition mutation_lt (l r : IndexMutation) : Prop :=
  bytes_lt (value l) (value r) \/
  value l = value r /\
  (bytes_lt (id l) (id r) \/ id l = id r /\ op_code (op l) < op_code (op r)).

Lemma mutation_ltb_lt l r : mutation_ltb l r = true <-> mutation_lt l r.
Proof.
  unfold mutation_ltb, mutation_lt.
  destruct (bytes_eqb (value l) (value r)) eqn:Ev; cbn [negb].
  - apply bytes_eqb_eq in Ev. rewrite Ev.
    destruct (bytes_eqb (id l) (id r)) eqn:Ei; cbn [negb].
    + apply bytes_eqb_eq in Ei. rewrite Ei, Z.ltb_lt.
      pose proof (bytes_lt_irrefl (value r)). pose proof (bytes_lt_irrefl (id r)). tauto.
    + apply bytes_eqb_neq in Ei. rewrite bytes_ltb_lt.
      pose proof (bytes_lt_irrefl (value r)). tauto.
  - apply bytes_eqb_neq in Ev. rewrite bytes_ltb_lt. tauto.
Qed.

Lemma op_code_inj a b : op_code a = op_code b -> a = b.
Proof. destruct a, b; simpl; congruence. Qed.

Lemma mutation_lt_trichotomy l r : mutation_lt l r \/ l = r \/ mutation_lt r l.
Proof.
  unfold mutation_lt.
  destruct (bytes_lt_trichotomy (value l) (value r)) as [?|[Hv|?]]; [tauto| |tauto].
  destruct (bytes_lt_trichotomy (id l) (id r)) as [?|[Hi|?]]; [tauto| |intuition congruence].
  destruct (Z.lt_trichotomy (op_code (op l)) (op_code (op r))) as [?|[Ho|?]];
    [tauto| |intuition congruence].
  apply op_code_inj in Ho. destruct l, r; simpl in *; subst; tauto.
Qed.

Lemma mutation_lt_trans a b c : mutation_lt a b -> mutation_lt b c -> mutation_lt a c.
Proof.
  unfold mutation_lt. intros [?|(-> & [?|(-> & ?)])] [?|(Hv & [?|(Hi & ?)])];
    rewrite <- ?Hv, <- ?Hi; eauto 7 using bytes_lt_trans, Z.lt_trans.
Qed.

Lemma mutation_lt_irrefl a : ~ mutation_lt a a.
Proof.
  unfold mutation_lt. intros [H|(_ & [H|(_ & H)])]; [| |lia]; exact (bytes_lt_irrefl _ H).
Qed.

Lemma mutation_le_alt a b : mutation_le a b <-> mutation_lt a b \/ a = b.
Proof.
  unfold mutation_le. rewrite <- not_true_iff_false, mutation_ltb_lt. split.
  - intros H. destruct (mutation_lt_trichotomy a b) as [?|[?|?]]; tauto.
  - intros [H| ->] H'; [|exact (mutation_lt_irrefl _ H')].
    exact (mutation_lt_irrefl _ (mutation_lt_trans _ _ _ H H')).
Qed.

#[export] Instance mutation_le_total : Total mutation_le.
Proof.
  intros a b. rewrite !mutation_le_alt.
  destruct (mutation_lt_trichotomy a b) as [?|[?|?]]; auto.
Qed.

#[export] Instance mutation_le_trans : Transitive mutation_le.
Proof.
  intros a b c. rewrite !mutation_le_alt.
  intros [?| ->] [?| ->]; eauto using mutation_lt_trans.
Qed.

Lemma sort_mutations_spec l :
  sort_mutations l ≡ₚ l /\ StronglySorted mutation_le (sort_mutations l).
Proof.
  split; [apply merge_sort_Permutation | apply StronglySorted_merge_sort; apply _].
Qed.

(** ** Encoding and decoding *)

Lemma encode_mutations_app ms acc :
  encode_mutations ms acc =
  if forallb mutation_fits ms then Ok (acc ++ flat_map encode_mutation ms)
  else Err "column-index mutation exceeds format limit".
Proof.
  revert acc. induction ms as [|m ms IH]; intros acc; cbn [encode_mutations forallb flat_map].
  - rewrite app_nil_r. reflexivity.
  - destruct (mutation_fits m); cbn [negb andb]; [|reflexivity].
    rewrite IH, <- app_assoc. reflexivity.
Qed.

Lemma mutation_fits_bounds m :
  mutation_fits m = true <->
  0 < blen (id m) <= kMaxFieldBytes /\ blen (value m) <= kMaxFieldBytes.
Proof.
  unfold mutation_fits. rewrite negb_true_iff, !orb_false_iff, !Z.ltb_ge, bytes_eqb_neq.
  unfold blen. destruct (id m); cbn [length]; split; intros; split_and!;
    try tauto; try lia; try congruence; destruct_and?; try lia; congruence.
Qed.

Lemma read_mutation_encode m rest :
  mutation_fits m = true -> read_mutation (encode_mutation m ++ rest) = Ok (m, rest).
Proof.
  intros Hm. apply mutation_fits_bounds in Hm as [Hi Hv].
  destruct m as [o v i]. cbn [op value id] in *. unfold encode_mutation. cbn [op value id].
  unfold read_mutation.
  assert (Hh : forall l, take_bytes 4 (byte_of (op_code o) :: (zeros 3 ++ l)) =
               Some (byte_of (op_code o) :: zeros 3, l)).
  { intros l. apply (take_bytes_app (byte_of (op_code o) :: zeros 3) l 4). reflexivity. }
  cbn [app]. rewrite <- !app_assoc, Hh.
  replace (op_of (byte_val (default Byte.x00 (head (byte_of (op_code o) :: zeros 3)))))
    with (Some o) by (destruct o; reflexivity).
  assert (Hpow : 256 ^ Z.of_nat 4 = 4294967296) by reflexivity.
  unfold kMaxFieldBytes in *. unfold blen in Hi, Hv.
  rewrite read_le_app by (unfold blen; lia). cbn [or_err mbind result_bind].
  rewrite read_le_app by (unfold blen; lia). cbn [or_err mbind result_bind].
  rewrite (proj2 (Z.ltb_ge _ _)), (proj2 (Z.eqb_neq _ _)), (proj2 (Z.ltb_ge _ _))
    by (unfold blen; lia).
  unfold u32. rewrite Z.mod_small by (unfold blen; lia).
  rewrite (proj2 (Z.ltb_ge _ _)) by (unfold blen; rewrite !length_app; lia). cbn [orb].
  unfold blen. rewrite !Nat2Z.id, take_app_length, drop_app_length, take_app_length, drop_app_length.
  reflexivity.
Qed.

Lemma read_mutations_encode ms rest acc :
  forallb mutation_fits ms = true ->
  read_mutations (length ms) (flat_map encode_mutation ms ++ rest) acc = Ok (acc ++ ms, rest).
Proof.
  revert acc. induction ms as [|m ms IH]; intros acc; cbn [forallb flat_map length read_mutations].
  - rewrite app_nil_r. reflexivity.
  - rewrite andb_true_iff. intros [Hm Hms].
    rewrite <- app_assoc, read_mutation_encode by exact Hm. cbn [mbind result_bind].
    rewrite IH, <- app_assoc by exact Hms. reflexivity.
Qed.

Definition read_limits (count payload : Z) : bool :=
  negb (kMaxFieldBytes <? count) && negb (kMaxFieldBytes * 16 <? payload).

(** [readIndexSegment] on a header written for [payload] followed by
    arbitrary bytes [stored]. *)
Lemma readIndexSegment_header snap count payload stored :
  0 <= count < 2 ^ 64 -> blen payload < 2 ^ 64 ->
  readIndexSegment (Some (segment_header snap count payload ++ stored)) =
  if negb (read_limits count (blen payload)) then Err "unsupported column-index segment"
  else if negb ((blen stored =? blen payload) && (crc32c stored =? crc32c payload))
  then Err "column-index segment checksum mismatch or truncation"
  else
    '(ms, cur) ← read_mutations (Z.to_nat count) stored [];
    _ ← guard_err (bytes_eqb cur []) "trailing bytes in column-index segment";
    Ok (mkSegment snap ms).
Proof.
  intros Hc Hp. unfold readIndexSegment, segment_header. cbn [or_err mbind result_bind].
  set (hd := kIndexMagic ++ _). rewrite take_bytes_app.
  2:{ unfold hd. rewrite !length_app, !le_bytes_length. reflexivity. }
  cbn [or_err mbind result_bind]. unfold hd.
  rewrite (take_app_le _ _ 8), (drop_app_le _ _ 8) by reflexivity.
  change (take 8 kIndexMagic) with kIndexMagic. change (drop 8 kIndexMagic) with (@nil byte).
  rewrite bytes_eqb_refl. cbn [guard_err mbind result_bind app].
  assert (H32 : 256 ^ Z.of_nat 4 = 2 ^ 32) by reflexivity.
  assert (H64 : 256 ^ Z.of_nat 8 = 2 ^ 64) by reflexivity.
  assert (0 <= blen payload) by (unfold blen; lia).
  pose proof (crc32_range payload : 0 <= crc32c payload < 2 ^ 32) as Hcrc.
  repeat (rewrite read_le_app by (rewrite ?H32, ?H64; unfold kVersion; destruct snap; lia);
          cbn [or_err mbind result_bind]).
  change (read_le 4 (le_bytes 4 0)) with (Some (0, @nil byte)). cbn [or_err mbind result_bind].
  rewrite Z.eqb_refl. cbn [andb]. fold (read_limits count (blen payload)).
  destruct (read_limits count (blen payload)); cbn [guard_err mbind result_bind negb]; [|reflexivity].
  destruct (take_bytes (Z.to_nat (blen payload)) stored) as [[pl rest]|] eqn:E;
    cbn [or_err mbind result_bind].
  - apply take_bytes_Some in E as [-> Hl]. unfold blen in Hl. rewrite Nat2Z.id in Hl.
    destruct (bytes_eqb rest []) eqn:Er; cbn [andb].
    + apply bytes_eqb_eq in Er as ->. rewrite app_nil_r.
      replace (blen pl =? blen payload) with true by (symmetry; apply Z.eqb_eq; unfold blen; lia).
      cbn [andb]. destruct (crc32c pl =? crc32c payload); cbn [guard_err mbind result_bind negb];
        [|reflexivity].
      destruct snap; reflexivity.
    + apply bytes_eqb_neq in Er.
      rewrite (proj2 (Z.eqb_neq (blen (pl ++ rest)) (blen payload))); [reflexivity|].
      unfold blen. rewrite length_app. destruct rest; [congruence|]. cbn [length]. lia.
  - apply take_bytes_None in E.
    rewrite (proj2 (Z.eqb_neq (blen stored) (blen payload))); [reflexivity|].
    unfold blen in *. lia.
Qed.

Lemma encodeSegment_alt ms snap :
  encodeSegment ms snap =
  if forallb mutation_fits ms then
    let payload := flat_map encode_mutation (sort_mutations ms) in
    Ok (segment_header snap (Z.of_nat (length ms)) payload ++ payload)
  else Err "column-index mutation exceeds format limit".
Proof.
  unfold encodeSegment. rewrite encode_mutations_app.
  destruct (sort_mutations_spec ms) as [Hp _].
  assert (Hf : forallb mutation_fits (sort_mutations ms) = forallb mutation_fits ms).
  { apply eq_iff_eq_true. rewrite !forallb_forall.
    setoid_rewrite <- list_elem_of_In. setoid_rewrite Hp. reflexivity. }
  rewrite Hf, (Permutation_length Hp). destruct (forallb mutation_fits ms); reflexivity.
Qed.

Definition payload_of (ms : list IndexMutation) : bytes := flat_map encode_mutation (sort_mutations ms).

(** Reading a segment back yields the sorted batch, within the reader's
    limits. *)
Lemma readIndexSegment_encode ms snap image :
  encodeSegment ms snap = Ok image ->
  Z.of_nat (length ms) < 2 ^ 64 -> blen (payload_of ms) < 2 ^ 64 ->
  readIndexSegment (Some image) =
  if read_limits (Z.of_nat (length ms)) (blen (payload_of ms))
  then Ok (mkSegment snap (sort_mutations ms))
  else Err "unsupported column-index segment".
Proof.
  rewrite encodeSegment_alt. destruct (forallb mutation_fits ms) eqn:Hf; [|discriminate].
  cbv zeta. fold (payload_of ms). intros <-%Ok_inj Hn Hp. rewrite readIndexSegment_header by (auto; lia).
  destruct (read_limits _ _); cbn [negb]; [|reflexivity].
  rewrite !Z.eqb_refl. cbn [andb negb].
  destruct (sort_mutations_spec ms) as [Hperm _].
  rewrite Nat2Z.id, <- (Permutation_length Hperm).
  pose proof (read_mutations_encode (sort_mutations ms) [] []) as Hr.
  rewrite app_nil_r in Hr. unfold payload_of. rewrite Hr; [reflexivity|].
  rewrite forallb_forall in *. setoid_rewrite <- list_elem_of_In. setoid_rewrite Hperm.
  setoid_rewrite list_elem_of_In. exact Hf.
Qed.

(** Index segments round-trip: whatever batch [writeIndexSegment] accepts,
    [readIndexSegment] of the image it publishes yields the snapshot flag and
    exactly the batch in the (value, id, op) order; the only exception, stated
    here too, is a batch beyond the reader's limits (64 Mi mutations or a 1 GiB
    payload), which the writer publishes and the reader refuses.  A batch with
    an empty or oversized field is refused by the writer. *)
Theorem index_segment_roundtrip ms snap :
  Z.of_nat (length ms) < 2 ^ 64 -> blen (payload_of ms) < 2 ^ 64 ->
  (forallb mutation_fits ms = false ->
     encodeSegment ms snap = Err "column-index mutation exceeds format limit") /\
  (forallb mutation_fits ms = true ->
     exists image, encodeSegment ms snap = Ok image /\
       readIndexSegment (Some image) =
         (if read_limits (Z.of_nat (length ms)) (blen (payload_of ms))
          then Ok (mkSegment snap (sort_mutations ms))
          else Err "unsupported column-index segment") /\
       sort_mutations ms ≡ₚ ms /\ StronglySorted mutation_le (sort_mutations ms)).
Proof.
  intros Hn Hp. split; intros Hf.
  - rewrite encodeSegment_alt, Hf. reflexivity.
  - destruct (encodeSegment ms snap) as [image|] eqn:E;
      [|rewrite encodeSegment_alt, Hf in E; discriminate].
    exists image. split; [reflexivity|]. split; [eapply readIndexSegment_encode; eauto|].
    apply sort_mutations_spec.
Qed.

Definition sample_batch : list IndexMutation :=
  [mkMutation Put (str "red") (str "7"); mkMutation Clear (str "blue") (str "3")].

Lemma index_segment_roundtrip_witness :
  exists image, encodeSegment sample_batch true = Ok image /\
    readIndexSegment (Some image) = Ok (mkSegment true (sort_mutations sample_batch)).
Proof.
  destruct (index_segment_roundtrip sample_batch true) as [_ H];
    [vm_compute; reflexivity | vm_compute; reflexivity |].
  destruct (H ltac:(vm_compute; reflexivity)) as (image & H1 & H2 & _).
  exists image. split; [exact H1|]. rewrite H2. vm_compute. reflexivity.
Defined.

(** Damaged segments are refused: with an intact header, a stored payload of
    a different length (truncated or extended), or one altered inside a window
    of at most four bytes, never reads back. *)
Theorem index_segment_detects_damage ms snap image stored :
  Z.of_nat (length ms) < 2 ^ 64 -> blen (payload_of ms) < 2 ^ 64 ->
  encodeSegment ms snap = Ok image ->
  (length stored <> length (payload_of ms) \/
   exists pre w w' suf, payload_of ms = pre ++ w ++ suf /\ stored = pre ++ w' ++ suf /\
     length w = length w' /\ (length w <= 4)%nat /\ w <> w') ->
  exists e, readIndexSegment (Some (take 40 image ++ stored)) = Err e.
Proof.
  intros Hn Hp. rewrite encodeSegment_alt.
  destruct (forallb mutation_fits ms); [|discriminate].
  cbv zeta. fold (payload_of ms). intros <-%Ok_inj Hbad.
  set (hd := segment_header snap (Z.of_nat (length ms)) (payload_of ms)).
  rewrite take_app_le, take_ge by
    (unfold hd, segment_header; rewrite ?length_app, ?le_bytes_length; simpl; lia).
  unfold hd. rewrite readIndexSegment_header by (auto; lia).
  destruct (read_limits _ _); cbn [negb]; [|eauto].
  assert ((blen stored =? blen (payload_of ms)) && (crc32c stored =? crc32c (payload_of ms)) = false)
    as ->; [|cbn [negb]; eauto].
  apply andb_false_iff. destruct Hbad as [Hl|(pre & w & w' & suf & -> & -> & Hl & H4 & Hne)].
  - left. apply Z.eqb_neq. unfold blen. lia.
  - right. apply Z.eqb_neq. unfold crc32c. apply not_eq_sym, crc32_burst; auto.
Qed.

Lemma index_segment_detects_damage_witness :
  exists image e, encodeSegment sample_batch true = Ok image /\
    readIndexSegment (Some (take 40 image ++ take 5 (payload_of sample_batch))) = Err e.
Proof.
  destruct (encodeSegment sample_batch true) as [image|] eqn:E; [|vm_compute in E; discriminate].
  destruct (index_segment_detects_damage sample_batch true image (take 5 (payload_of sample_batch)))
    as [e He]; [vm_compute; reflexivity | vm_compute; reflexivity | exact E |
                left; vm_compute; discriminate |].
  exists image, e. auto.
Defined.

(** ** Segment names: decimal order is name order *)

Lemma segment_name_lt s t :
  stamp_ok s -> stamp_ok t -> s < t -> bytes_lt (segment_name s) (segment_name t).
Proof.
  intros Hs Ht Hlt. apply bytes_compare_app; [rewrite !dec_padded_length; reflexivity|].
  apply dec_padded_lt. rewrite !stamp_mod by assumption. exact Hlt.
Qed.

Lemma segment_name_inj s t :
  stamp_ok s -> stamp_ok t -> segment_name s = segment_name t -> s = t.
Proof.
  intros Hs Ht H. destruct (Z.lt_trichotomy s t) as [Hl|[->|Hl]]; [|reflexivity|];
    apply segment_name_lt in Hl; auto; rewrite H in Hl; destruct (bytes_lt_irrefl _ Hl).
Qed.

Lemma segment_name_extension s : extension (segment_name s) = str ".seg".
Proof.
  unfold segment_name. cbn [dec_padded app].
  match goal with |- extension (?c :: ?l) = _ => change l with (dec_padded 19 s ++ str ".seg") end.
  apply extension_app; [reflexivity | simpl; lia].
Qed.

Lemma temporary_extension s : extension (segment_name s ++ str ".tmp") = str ".tmp".
Proof.
  unfold segment_name. rewrite <- app_assoc. cbn [dec_padded app].
  match goal with |- extension (?c :: ?l) = _ =>
    change l with (dec_padded 19 s ++ str ".seg" ++ str ".tmp") end.
  rewrite app_assoc. apply extension_app; [reflexivity | simpl; lia].
Qed.

Lemma segment_name_length s : length (segment_name s) = 24%nat.
Proof. unfold segment_name. rewrite length_app, dec_padded_length. reflexivity. Qed.

Lemma segment_name_prefix s : take 20 (segment_name s) = dec_padded 20 s.
Proof. unfold segment_name. rewrite take_app_le, take_ge by (rewrite dec_padded_length; lia). reflexivity. Qed.

Lemma scan_stamp_segment prev s data :
  stamp_ok s -> scan_stamp prev (segment_name s, data) = Z.max prev s.
Proof.
  intros Hs. unfold scan_stamp. cbn [fst].
  rewrite segment_name_length, segment_name_extension, bytes_eqb_refl.
  cbn [negb orb Nat.ltb Nat.leb]. rewrite segment_name_prefix, stoull_dec by exact Hs. reflexivity.
Qed.

Lemma scan_stamp_other prev name data :
  extension name <> str ".seg" -> scan_stamp prev (name, data) = prev.
Proof.
  intros H. unfold scan_stamp. cbn [fst]. rewrite (proj2 (bytes_eqb_neq _ _)) by exact H.
  cbn [negb]. rewrite orb_true_r. reflexivity.
Qed.

(** ** Histories of a directory *)

(** Calls of [writeIndexSegment] by one process, and restarts, which forget
    the in-memory stamp. *)
Inductive seg_event :=
| EvWrite (io : seg_io) (wallClock : Z) (ms : list IndexMutation) (snap : bool)
| EvRestart.

Definition seg_step (d : segdir) (e : seg_event) : segdir :=
  match e with
  | EvWrite io clock ms snap => (writeIndexSegment io clock d ms snap).2
  | EvRestart => mkSegdir (sd_files d) 0
  end.

(** The call reaches the rename and the rename succeeds. *)
Definition published (e : seg_event) : option (list IndexMutation) :=
  match e with
  | EvWrite io _ ms _ =>
      if io_dirs io && forallb mutation_fits ms &&
         (match io_stream io with None => true | Some _ => false end) &&
         io_flush io && io_sync io && io_rename io
      then Some ms else None
  | EvRestart => None
  end.

Definition event_ok (e : seg_event) : Prop :=
  match e with
  | EvWrite _ clock ms _ =>
      0 <= clock < 2 ^ 63 /\ read_limits (Z.of_nat (length ms)) (blen (payload_of ms)) = true
  | EvRestart => True
  end.

Definition empty_dir : segdir := mkSegdir ∅ 0.

(** The directory holds exactly the segments [segs] (stamp, batch) in
    increasing stamp order, next to files the readers ignore. *)
Record seg_inv (bound : Z) (d : segdir) (segs : list (Z * list IndexMutation)) : Prop := {
  si_sorted : StronglySorted Z.lt segs.*1;
  si_bound : Forall (fun s => 0 < s <= bound) segs.*1;
  si_files : forall s ms, (s, ms) ∈ segs ->
    exists image snap, sd_files d !! segment_name s = Some image /\
      encodeSegment ms snap = Ok image /\
      read_limits (Z.of_nat (length ms)) (blen (payload_of ms)) = true;
  si_only : forall name data, sd_files d !! name = Some data ->
    extension name = str ".seg" -> exists s, s ∈ segs.*1 /\ name = segment_name s;
  si_stamp : lastStamp d = 0 \/ (Forall (fun s => s <= lastStamp d) segs.*1 /\ 0 < lastStamp d <= bound)
}.

Definition Bound (n : nat) : Z := 2 ^ 63 + Z.of_nat n.

Lemma scan_stamp_fold segs bound d (l : list (bytes * bytes)) : forall acc,
  seg_inv bound d segs -> bound < 2 ^ 64 -> 0 <= acc <= bound ->
  (forall x, x ∈ l -> sd_files d !! x.1 = Some x.2) ->
  let r := fold_left scan_stamp l acc in
  acc <= r <= bound /\
  (forall s data, s ∈ segs.*1 -> (segment_name s, data) ∈ l -> s <= r).
Proof.
  induction l as [|[name data] l IH]; intros acc Hinv Hb Hacc Hl; cbn [fold_left].
  - split; [lia|]. intros s data _ H%elem_of_nil. contradiction.
  - assert (Hname : sd_files d !! name = Some data) by (apply (Hl (name, data)); left).
    assert (Hstep : acc <= scan_stamp acc (name, data) <= bound /\
              (forall s, s ∈ segs.*1 -> name = segment_name s -> s <= scan_stamp acc (name, data))).
    { destruct (decide (extension name = str ".seg")) as [He|He].
      - destruct (si_only _ _ _ Hinv _ _ Hname He) as (s & Hs & ->).
        pose proof (proj1 (Forall_forall _ _) (si_bound _ _ _ Hinv) s Hs) as Hsb. cbn in Hsb.
        rewrite scan_stamp_segment by (unfold stamp_ok; lia). split; [lia|].
        intros s' Hs' Heq. pose proof (proj1 (Forall_forall _ _) (si_bound _ _ _ Hinv) s' Hs') as Hsb'.
        cbn in Hsb'. apply segment_name_inj in Heq; unfold stamp_ok; lia.
      - rewrite scan_stamp_other by exact He. split; [lia|].
        intros s _ ->. rewrite segment_name_extension in He. congruence. }
    destruct Hstep as [Hr Hs].
    destruct (IH (scan_stamp acc (name, data))) as [IH1 IH2]; auto; [lia|intros x Hx; apply Hl; right; exact Hx|].
    split; [lia|]. intros s dt Hin Hel. apply elem_of_cons in Hel as [[= Heq _]|Hel].
    + specialize (Hs s Hin (eq_sym Heq)). lia.
    + eapply IH2; eauto.
Qed.

(** The next name is later than every segment present. *)
Lemma nextSegmentName_fresh n d segs clock :
  seg_inv (Bound n) d segs -> Z.of_nat n < 2 ^ 62 -> 0 <= clock < 2 ^ 63 ->
  exists s, nextSegmentName d clock = (segment_name s, mkSegdir (sd_files d) s) /\
            Forall (fun t => t < s) segs.*1 /\ 0 < s <= Bound (S n).
Proof.
  intros Hinv Hn Hc. unfold nextSegmentName.
  set (prev := if lastStamp d =? 0 then _ else _).
  assert (Hprev : 0 <= prev <= Bound n /\ Forall (fun t => t <= prev) segs.*1).
  { unfold prev. destruct (Z.eqb_spec (lastStamp d) 0) as [E|E].
    - destruct (scan_stamp_fold segs (Bound n) d (map_to_list (sd_files d)) 0) as [H1 H2]; auto.
      + unfold Bound. lia.
      + unfold Bound. lia.
      + intros [nm dt] Hin. apply elem_of_map_to_list in Hin. exact Hin.
      + split; [lia|]. apply Forall_forall. intros t Ht.
        apply list_elem_of_fmap in Ht as ([t' ms] & -> & Hin). cbn [fst].
        destruct (si_files _ _ _ Hinv _ _ Hin) as (image & snap & Hf & _).
        apply (H2 t' image); [apply list_elem_of_fmap; exists (t', ms); auto|].
        apply elem_of_map_to_list. exact Hf.
    - destruct (si_stamp _ _ _ Hinv) as [|[H1 H2]]; [contradiction|]. split; [lia|exact H1]. }
  destruct Hprev as [Hp1 Hp2]. exists (Z.max clock (u64 (prev + 1))). split; [reflexivity|].
  unfold Bound in *. unfold u64. rewrite Z.mod_small by lia. split; [|lia].
  eapply Forall_impl; [exact Hp2|]. intros t Ht. cbn in *. lia.
Qed.

Lemma seg_inv_weaken b b' d segs : b <= b' -> seg_inv b d segs -> seg_inv b' d segs.
Proof.
  intros Hb [H1 H2 H3 H4 H5]. split; auto.
  - eapply Forall_impl; [exact H2|]. intros ? ?. cbn in *. lia.
  - destruct H5 as [|[? ?]]; auto. right. split; [assumption|lia].
Qed.

Lemma segs_elem s ms (segs : list (Z * list IndexMutation)) : (s, ms) ∈ segs -> s ∈ segs.*1.
Proof. intros H. apply list_elem_of_fmap. exists (s, ms). auto. Qed.

(** Files the readers ignore may come and go, and the stamp may grow. *)
Lemma seg_inv_temporary b d segs s files :
  seg_inv b d segs -> Forall (fun t => t <= s) segs.*1 -> 0 < s <= b ->
  (forall name, extension name = str ".seg" -> files !! name = sd_files d !! name) ->
  seg_inv b (mkSegdir files s) segs.
Proof.
  intros [H1 H2 H3 H4 H5] Hall Hs Hf. split; cbn [sd_files lastStamp]; auto.
  - intros t ms Hin. rewrite Hf by apply segment_name_extension. eauto.
  - intros name data Hl He. rewrite Hf in Hl by exact He. eauto.
Qed.

Lemma seg_inv_publish b d segs s files ms snap image :
  seg_inv b d segs -> b < 2 ^ 64 -> Forall (fun t => t < s) segs.*1 -> 0 < s <= b ->
  encodeSegment ms snap = Ok image ->
  read_limits (Z.of_nat (length ms)) (blen (payload_of ms)) = true ->
  files !! segment_name s = Some image ->
  (forall name, extension name = str ".seg" -> name <> segment_name s ->
     files !! name = sd_files d !! name) ->
  seg_inv b (mkSegdir files s) (segs ++ [(s, ms)]).
Proof.
  intros [H1 H2 H3 H4 H5] Hb Hall Hs Henc Hlim Hnew Hf.
  split; cbn [sd_files lastStamp]; rewrite ?fmap_app; cbn [fmap list_fmap].
  - apply StronglySorted_app_2; auto; [|repeat constructor].
    intros x y Hx Hy. apply list_elem_of_singleton in Hy as ->.
    exact (proj1 (Forall_forall _ _) Hall x Hx).
  - apply Forall_app. split; [exact H2|]. constructor; [cbn; lia|constructor].
  - intros t ms' Hin. apply elem_of_app in Hin as [Hin|Hin].
    + rewrite Hf; [eauto | apply segment_name_extension |].
      intros Heq. pose proof (segs_elem _ _ _ Hin) as Ht.
      pose proof (proj1 (Forall_forall _ _) Hall t Ht) as Hlt.
      pose proof (proj1 (Forall_forall _ _) H2 t Ht) as Hpos. cbv beta in Hlt, Hpos.
      apply segment_name_inj in Heq; unfold stamp_ok; lia.
    + apply list_elem_of_singleton in Hin as [= -> ->]. eauto.
  - intros name data Hl He. destruct (decide (name = segment_name s)) as [->|Hne].
    + exists s. split; [|reflexivity]. apply elem_of_app. right. apply list_elem_of_singleton. reflexivity.
    + rewrite Hf in Hl by assumption. destruct (H4 _ _ Hl He) as (t & Ht & ->).
      exists t. split; [|reflexivity]. apply elem_of_app. left. exact Ht.
  - right. split; [|exact Hs]. apply Forall_app. split.
    + eapply Forall_impl; [exact Hall|]. cbn. lia.
    + constructor; [cbn; lia | constructor].
Qed.

Lemma lookup_temporary {A} (files : gmap bytes A) s x name :
  extension name = str ".seg" ->
  <[segment_name s ++ str ".tmp" := x]> files !! name = files !! name.
Proof.
  intros He. apply lookup_insert_ne. intros <-. rewrite temporary_extension in He. discriminate.
Qed.

Lemma seg_step_inv n d segs e :
  seg_inv (Bound n) d segs -> Z.of_nat n < 2 ^ 62 -> event_ok e ->
  exists segs', seg_inv (Bound (S n)) (seg_step d e) segs' /\
                segs'.*2 = segs.*2 ++ option_list (published e).
Proof.
  intros Hinv Hn Hev. assert (Hinv' : seg_inv (Bound (S n)) d segs).
  { eapply seg_inv_weaken; [|exact Hinv]. unfold Bound. lia. }
  destruct e as [io clock ms snap|]; cbn [seg_step published].
  2:{ exists segs. cbn. rewrite app_nil_r. split; [|reflexivity].
      destruct Hinv' as [H1 H2 H3 H4 H5]. split; auto. }
  destruct Hev as [Hclock Hlim]. unfold writeIndexSegment.
  assert (Hsame : exists segs', seg_inv (Bound (S n)) d segs' /\ segs'.*2 = segs.*2 ++ []).
  { exists segs. rewrite app_nil_r. auto. }
  destruct (io_dirs io); cbn [negb andb snd option_list]; [|exact Hsame].
  rewrite encodeSegment_alt.
  destruct (forallb mutation_fits ms) eqn:Hfit; cbn [andb snd option_list]; [|exact Hsame].
  cbv zeta. fold (payload_of ms).
  set (image := segment_header snap (Z.of_nat (length ms)) (payload_of ms) ++ payload_of ms).
  assert (Henc : encodeSegment ms snap = Ok image) by (rewrite encodeSegment_alt, Hfit; reflexivity).
  destruct (nextSegmentName_fresh n d segs clock Hinv Hn Hclock) as (s & -> & Hs & Hsb).
  cbn [sd_files lastStamp].
  assert (Hs' : Forall (fun t => t <= s) segs.*1)
    by (eapply Forall_impl; [exact Hs|]; cbv beta; intros; lia).
  assert (Htmp : forall x, exists segs', seg_inv (Bound (S n))
      (mkSegdir (<[segment_name s ++ str ".tmp" := x]> (sd_files d)) s) segs' /\
      segs'.*2 = segs.*2 ++ []).
  { intros x. exists segs. rewrite app_nil_r. split; [|reflexivity].
    apply (seg_inv_temporary _ d); auto. intros name He. apply lookup_temporary, He. }
  destruct (io_stream io); cbn [andb snd option_list]; [apply Htmp|].
  destruct (io_flush io); cbn [negb andb snd option_list]; [|apply Htmp].
  destruct (io_sync io); cbn [negb andb snd option_list]; [|apply Htmp].
  destruct (io_rename io); cbn [negb andb snd option_list]; [|apply Htmp].
  exists (segs ++ [(s, ms)]). rewrite fmap_app. split; [|reflexivity].
  assert (Hpub : seg_inv (Bound (S n))
     (mkSegdir (<[segment_name s := image]> (delete (segment_name s ++ str ".tmp")
        (<[segment_name s ++ str ".tmp" := image]> (sd_files d)))) s) (segs ++ [(s, ms)])).
  { eapply seg_inv_publish; eauto.
    - unfold Bound. lia.
    - apply lookup_insert_eq.
    - intros name He Hne. rewrite lookup_insert_ne by congruence.
      rewrite lookup_delete_ne, lookup_temporary; auto.
      intros <-. rewrite temporary_extension in He. discriminate. }
  destruct (io_dirsync io); exact Hpub.
Qed.

Lemma seg_run_inv evs : forall n d segs,
  seg_inv (Bound n) d segs -> Z.of_nat (n + length evs) < 2 ^ 62 -> Forall event_ok evs ->
  exists segs', seg_inv (Bound (n + length evs)) (fold_left seg_step evs d) segs' /\
                segs'.*2 = segs.*2 ++ omap published evs.
Proof.
  induction evs as [|e evs IH]; intros n d segs Hinv Hn Hok; cbn [fold_left length] in *.
  - exists segs. rewrite app_nil_r, Nat.add_0_r. auto.
  - apply Forall_cons in Hok as [He Hok].
    destruct (seg_step_inv n d segs e Hinv) as (segs1 & H1 & H2); [lia | exact He |].
    destruct (IH (S n) _ segs1 H1) as (segs2 & H3 & H4); [lia | exact Hok |].
    exists segs2. replace (n + S (length evs))%nat with (S n + length evs)%nat by lia.
    split; [exact H3|]. rewrite H4, H2, <- app_assoc. cbn [omap list_omap].
    destruct (published e); reflexivity.
Qed.

Lemma stamps_NoDup (l : list Z) : StronglySorted Z.lt l -> NoDup l.
Proof.
  induction 1 as [|x l Hs IH Hall]; constructor; [|exact IH].
  intros Hin. pose proof (proj1 (Forall_forall _ _) Hall x Hin). lia.
Qed.

Lemma names_sorted (l : list Z) :
  StronglySorted Z.lt l -> Forall stamp_ok l -> StronglySorted bytes_le (map segment_name l).
Proof.
  induction 1 as [|x l Hs IH Hall]; intros Hok; cbn [map]; constructor;
    apply Forall_cons in Hok as [Hx Hok]; auto.
  apply Forall_map. rewrite Forall_forall in *. intros y Hy.
  apply bytes_le_alt. left. apply segment_name_lt; auto.
Qed.

Lemma listIndexSegments_inv b d segs :
  seg_inv b d segs -> b < 2 ^ 64 -> listIndexSegments d = map segment_name segs.*1.
Proof.
  intros Hinv Hb. unfold listIndexSegments.
  assert (Hok : Forall stamp_ok segs.*1).
  { eapply Forall_impl; [exact (si_bound _ _ _ Hinv)|]. unfold stamp_ok. cbv beta. intros. lia. }
  pose proof (si_sorted _ _ _ Hinv) as Hsorted.
  apply (StronglySorted_unique bytes_le).
  - apply StronglySorted_merge_sort; apply _.
  - apply names_sorted; auto.
  - rewrite merge_sort_Permutation. apply NoDup_Permutation.
    + apply NoDup_ListNoDup, List.NoDup_filter, NoDup_ListNoDup, NoDup_fst_map_to_list.
    + apply NoDup_fmap_2_strong; [|apply stamps_NoDup, Hsorted].
      intros x y Hx Hy. rewrite Forall_forall in Hok. apply segment_name_inj; auto.
    + intros name. rewrite list_elem_of_In, filter_In, <- list_elem_of_In, bytes_eqb_eq.
      rewrite list_elem_of_fmap. split.
      * intros [([nm data] & -> & Hin) He]. cbn [fst] in *.
        apply elem_of_map_to_list in Hin.
        destruct (si_only _ _ _ Hinv _ _ Hin He) as (s & Hs & ->).
        apply list_elem_of_fmap. eauto.
      * intros Hin. apply list_elem_of_fmap in Hin as (s & -> & Hs).
        split; [|apply segment_name_extension].
        apply list_elem_of_fmap in Hs as ([s' ms] & -> & Hs).
        destruct (si_files _ _ _ Hinv _ _ Hs) as (image & snap & Hf & _).
        exists (segment_name s', image). split; [reflexivity|]. apply elem_of_map_to_list, Hf.
Qed.

Lemma limits_width ms : read_limits (Z.of_nat (length ms)) (blen (payload_of ms)) = true ->
  Z.of_nat (length ms) < 2 ^ 64 /\ blen (payload_of ms) < 2 ^ 64.
Proof.
  unfold read_limits, kMaxFieldBytes. rewrite andb_true_iff, !negb_true_iff, !Z.ltb_ge. lia.
Qed.

Lemma visit_segments_all {S} (f : S -> IndexMutation -> S * bool) d (segs : list (Z * list IndexMutation)) s :
  (forall t ms, (t, ms) ∈ segs -> exists image snap, sd_files d !! segment_name t = Some image /\
      encodeSegment ms snap = Ok image /\
      read_limits (Z.of_nat (length ms)) (blen (payload_of ms)) = true) ->
  visit_segments d f (map segment_name segs.*1) s =
  (Ok tt, (visit_all f (flat_map sort_mutations segs.*2) s).1).
Proof.
  revert s. induction segs as [|[t ms] segs IH]; intros s Hf; [reflexivity|].
  cbn [fmap list_fmap fst snd map flat_map visit_segments].
  destruct (Hf t ms) as (image & snap & Himg & Henc & Hlim); [left|].
  rewrite Himg. destruct (limits_width ms Hlim).
  rewrite (readIndexSegment_encode ms snap image), Hlim by auto.
  cbn [mutations]. rewrite visit_all_app.
  destruct (visit_all f (sort_mutations ms) s) as [s' []]; [|reflexivity].
  apply IH. intros t' ms' Hin. apply Hf. right. exact Hin.
Qed.

(** Segments are replayed in the order they were written: starting from an
    empty directory, after any history of [writeIndexSegment] calls (with any
    operating-system failures, any wall-clock values, also going backwards) and
    process restarts, [visitIndexMutations] succeeds and hands the visitor
    exactly the batches whose file was renamed into place, batch after batch in
    write order and sorted within each batch, up to the point where the visitor
    stops; temporary files are never read. *)
Theorem segments_replay_in_write_order {S} evs (visitor : S -> IndexMutation -> S * bool) s :
  Z.of_nat (length evs) < 2 ^ 62 -> Forall event_ok evs ->
  visitIndexMutations (fold_left seg_step evs empty_dir) visitor s =
  (Ok tt, (visit_all visitor (flat_map sort_mutations (omap published evs)) s).1).
Proof.
  intros Hn Hok.
  destruct (seg_run_inv evs 0 empty_dir []) as (segs & Hinv & Hlog); [|exact Hn|exact Hok|].
  - split; cbn [sd_files lastStamp empty_dir fmap list_fmap]; auto; try constructor.
    + intros t ms H%elem_of_nil. contradiction.
    + intros name data H. rewrite lookup_empty in H. discriminate.
  - unfold visitIndexMutations. rewrite (listIndexSegments_inv (Bound (0 + length evs)) _ segs);
      [|exact Hinv|unfold Bound; lia].
    rewrite visit_segments_all by apply Hinv. rewrite Hlog. reflexivity.
Qed.

Lemma segments_replay_in_write_order_witness :
  visitIndexMutations
    (fold_left seg_step [EvWrite io_good 9 sample_batch true; EvRestart;
       EvWrite (mkSegIo true None true true false true) 9 sample_batch false;
       EvWrite io_good 3 [mkMutation Put (str "a") (str "b")] false] empty_dir)
    (fun n m => (n + 1, true)) 0 = (Ok tt, 3).
Proof.
  rewrite (segments_replay_in_write_order
    [EvWrite io_good 9 sample_batch true; EvRestart;
     EvWrite (mkSegIo true None true true false true) 9 sample_batch false;
     EvWrite io_good 3 [mkMutation Put (str "a") (str "b")] false]
    (fun n m => (n + 1, true)) 0).
  - vm_compute. reflexivity.
  - reflexivity.
  - repeat constructor; vm_compute; congruence.
Defined.
