(* ===== verification/Bloom.v ===== *)
(** * Bloom sidecars (storage_format_v2.cpp)

    [buildBloom] writes a filter file next to an SST, [mapBloom] validates and
    caches it, [bloomMayContain] queries it. *)

From S2P Require Import Prelude FileSys Checksum Store.
From stdpp Require Import base list gmap strings.
From Stdlib Require Import ZArith Lia.

Open Scope Z_scope.

Definition kBloomMagic : bytes := str "PDBBLM2" ++ [Byte.x00].
Definition kBloomVersion : Z := 2.
Definition kBloomHeaderBytes : Z := 48.

Definition fnv1a (value : bytes) (seed : Z) : Z :=
  let hash := Z.lxor 1469598103934665603 seed in
  let hash := fold_left (fun h b => u64 (Z.lxor h (byte_val b) * 1099511628211)) value hash in
  let hash := Z.lxor hash (Z.shiftr hash 33) in
  let hash := u64 (hash * 0xff51afd7ed558ccd) in
  Z.lxor hash (Z.shiftr hash 33).

Definition bloom_first (key : bytes) : Z := fnv1a key 0x9e3779b97f4a7c15.
Definition bloom_second (key : bytes) : Z := Z.lor (fnv1a key 0xc2b2ae3d27d4eb4f) 1.

(** [(first + i * second) % bitCount] on [uint64_t]. *)
Definition bloom_bit (key : bytes) (i : nat) (bits : Z) : Z :=
  u64 (bloom_first key + Z.of_nat i * bloom_second key) mod bits.

(** [words[bit / 64] |= 1ULL << (bit % 64)]. *)
Definition set_bit (ws : list Z) (bit : Z) : list Z :=
  let w := Z.to_nat (bit / 64) in
  <[w := Z.lor (nth w ws 0) (Z.shiftl 1 (bit mod 64))]> ws.

Definition bloom_add (bits : Z) (ws : list Z) (key : bytes) : list Z :=
  fold_left (fun ws i => set_bit ws (bloom_bit key i bits)) (seq 0 7) ws.

Definition bloom_bits (keys : Z) : Z := Z.max 64 ((u64 (keys * 10 + 63) / 64) * 64).

Definition bloom_words (keys : list bytes) : list Z :=
  let bits := bloom_bits (Z.of_nat (length keys)) in
  fold_left (bloom_add bits) keys (replicate (Z.to_nat (bits / 64)) 0).

(** The words as they lie in memory on a little-endian machine. *)
Definition words_bytes (ws : list Z) : bytes := flat_map (le_bytes 8) ws.

Definition bloom_header (keys : list bytes) : bytes :=
  let bits := bloom_bits (Z.of_nat (length keys)) in
  let ws := bloom_words keys in
  kBloomMagic ++ le_bytes 4 kBloomVersion ++ le_bytes 4 7 ++ le_bytes 8 bits ++
  le_bytes 8 (Z.of_nat (length keys)) ++ le_bytes 8 (Z.of_nat (length ws)) ++
  le_bytes 4 (crc32c (words_bytes ws)) ++ le_bytes 4 0.

Definition bloom_image (keys : list bytes) : bytes :=
  bloom_header keys ++ words_bytes (bloom_words keys).

(** Answers of the operating system to one [buildBloom] call; [bio_mtime] is
    the time the published file gets. *)
Record bloom_io := mkBloomIo {
  bio_stream : option nat;   (* None: written; Some k: failed after k bytes *)
  bio_sync : bool; bio_rename : bool; bio_rename_again : bool;
  bio_dirsync : bool; bio_mtime : Z }.

Definition bloom_path (sstPath : path) : path := sstPath ++ str ".bloom".

Definition buildBloom (io : bloom_io) (s : store) (sstPath : path) (keys : list bytes)
  : result unit * store :=
  let image := bloom_image keys in
  let final := bloom_path sstPath in
  let temporary := final ++ str ".tmp" in
  let f := mkFile (bio_mtime io) image in
  match bio_stream io with
  | Some k =>
      (Err "cannot write bloom sidecar",
       with_fs s (<[temporary := mkFile (bio_mtime io) (take k image)]> (st_fs s)))
  | None =>
  let s := with_fs s (<[temporary := f]> (st_fs s)) in
  if negb (bio_sync io) then (Err "cannot fdatasync bloom sidecar", s) else
  let publish s := with_fs s (<[final := f]> (delete temporary (st_fs s))) in
  let '(renamed, s) :=
    if bio_rename io then (true, publish s)
    else
      let s := with_fs s (delete final (st_fs s)) in
      if bio_rename_again io then (true, publish s) else (false, s) in
  if negb (renamed && bio_dirsync io) then (Err "cannot publish bloom sidecar: ", s)
  else (Ok tt, invalidateCaches s final)
  end.

(** ** Reading *)

Fixpoint words_of (n : nat) (b : bytes) : list Z :=
  match n with
  | O => []
  | S n' => le_value (take 8 b) :: words_of n' (drop 8 b)
  end.

(** The validation of [mapBloom]. *)
Definition parseBloom (f : file) : option BloomView :=
  let data := f_data f in
  let size := blen data in
  if size <? kBloomHeaderBytes + 8 then None else
  if negb (bytes_eqb (take 8 data) kBloomMagic) then None else
  let cur := drop 8 data in
  '(version, cur) ← read_le 4 cur;
  '(hashes, cur) ← read_le 4 cur;
  '(bitCount, cur) ← read_le 8 cur;
  '(keyCount, cur) ← read_le 8 cur;
  '(wordCount, cur) ← read_le 8 cur;
  '(checksum, cur) ← read_le 4 cur;
  '(_, cur) ← read_le 4 cur;
  if negb (version =? kBloomVersion) || (hashes =? 0) || (16 <? hashes) || (bitCount <? 64) ||
     negb (bitCount mod 64 =? 0) || negb (wordCount =? bitCount / 64) ||
     negb (u64 (kBloomHeaderBytes + u64 (wordCount * 8)) =? size)
  then None
  else
    let wordBytes := drop 48 data in
    if negb (crc32c (take (Z.to_nat (wordCount * 8)) wordBytes) =? checksum) then None
    else Some (mkBloomView size (f_mtime f) bitCount hashes (words_of (Z.to_nat wordCount) wordBytes)).

Definition mapBloom (s : store) (p : path) : option BloomView * store :=
  match st_fs s !! p with
  | None => (None, s)
  | Some f =>
      if blen (f_data f) <? kBloomHeaderBytes + 8 then (None, s) else
      let '(v, cache) := cached_load parseBloom bv_fileSize bv_mtime (st_fs s) (g_bloomCache s) p f in
      (v, mkStore (st_fs s) (g_sstCache s) cache)
  end.

(** [words[bit / 64] & (1ULL << (bit % 64))]. *)
Definition probe (v : BloomView) (key : bytes) (i : nat) : bool :=
  let bit := bloom_bit key i (bitCount v) in
  negb (Z.land (nth (Z.to_nat (bit / 64)) (words v) 0) (Z.shiftl 1 (bit mod 64)) =? 0).

(** The probe loop, which stops at the first clear bit. *)
Fixpoint probes (v : BloomView) (key : bytes) (i n : nat) : bool :=
  match n with
  | O => true
  | S n' => if negb (probe v key i) then false else probes v key (S i) n'
  end.

Definition bloomMayContain (s : store) (sstPath : path) (key : bytes) : option bool * store :=
  let '(v, s) := mapBloom s (bloom_path sstPath) in
  (match v with
   | None => None
   | Some v => Some (probes v key 0 (Z.to_nat (hashes v)))
   end, s).

(** ** The filter has every bit of every key *)

Definition bit_at (ws : list Z) (bit : Z) : bool :=
  Z.testbit (nth (Z.to_nat (bit / 64)) ws 0) (bit mod 64).

Definition in_words (ws : list Z) (bit : Z) : Prop := 0 <= bit < 64 * Z.of_nat (length ws).

Lemma word_index ws bit : in_words ws bit -> (Z.to_nat (bit / 64) < length ws)%nat.
Proof.
  intros [H0 H1]. pose proof (Z.div_lt_upper_bound bit 64 (Z.of_nat (length ws))).
  pose proof (Z.div_pos bit 64). lia.
Qed.

Lemma set_bit_length ws bit : length (set_bit ws bit) = length ws.
Proof. apply length_insert. Qed.

Lemma nth_insert (ws : list Z) i j x :
  (i < length ws)%nat -> nth j (<[i := x]> ws) 0 = if (j =? i)%nat then x else nth j ws 0.
Proof.
  intros Hi. rewrite !nth_lookup. destruct (Nat.eqb_spec j i) as [->|Hne].
  - rewrite list_lookup_insert_eq by exact Hi. reflexivity.
  - rewrite list_lookup_insert_ne by congruence. reflexivity.
Qed.

Lemma set_bit_at ws b c :
  in_words ws b -> 0 <= c -> bit_at (set_bit ws b) c = (b =? c) || bit_at ws c.
Proof.
  intros Hb Hc. unfold bit_at, set_bit. rewrite nth_insert by (apply word_index, Hb).
  pose proof (Z.mod_pos_bound b 64). pose proof (Z.mod_pos_bound c 64).
  pose proof (Z.div_mod b 64). pose proof (Z.div_mod c 64).
  pose proof (Z.div_pos c 64). destruct Hb. pose proof (Z.div_pos b 64).
  destruct (Nat.eqb_spec (Z.to_nat (c / 64)) (Z.to_nat (b / 64))) as [E|E].
  - rewrite E, Z.lor_spec, Z.shiftl_1_l, Z.pow2_bits_eqb by lia. rewrite orb_comm.
    f_equal. destruct (Z.eqb_spec (b mod 64) (c mod 64)), (Z.eqb_spec b c); lia.
  - destruct (Z.eqb_spec b c) as [->|]; [lia|reflexivity].
Qed.

Lemma bloom_bit_range key i bits : 0 < bits -> 0 <= bloom_bit key i bits < bits.
Proof. intros. apply Z.mod_pos_bound. lia. Qed.

Lemma set_bits_at (f : nat -> Z) l : forall ws c,
  (forall i, in_words ws (f i)) -> 0 <= c ->
  let ws' := fold_left (fun ws i => set_bit ws (f i)) l ws in
  length ws' = length ws /\
  (bit_at ws' c = true <-> bit_at ws c = true \/ exists i, i ∈ l /\ f i = c).
Proof.
  induction l as [|i l IH]; intros ws c Hf Hc; cbn [fold_left].
  - split; [reflexivity|]. split; [auto|]. intros [|(i & H%elem_of_nil & _)]; [auto|contradiction].
  - destruct (IH (set_bit ws (f i)) c) as [IH1 IH2]; auto.
    { intros j. unfold in_words. rewrite set_bit_length. apply Hf. }
    rewrite IH1, IH2, set_bit_length, set_bit_at, orb_true_iff, Z.eqb_eq by auto.
    split; [reflexivity|]. split.
    + intros [[H|H]|(j & Hj & H)]; [right; exists i; split; [left|exact H] | auto |
        right; exists j; split; [right; exact Hj | exact H]].
    + intros [H|(j & Hj & H)]; [auto|]. apply elem_of_cons in Hj as [->|Hj]; [auto|]. eauto.
Qed.

Lemma bloom_add_at bits ws key c :
  bits = 64 * Z.of_nat (length ws) -> 0 < bits -> 0 <= c ->
  length (bloom_add bits ws key) = length ws /\
  (bit_at (bloom_add bits ws key) c = true <->
   bit_at ws c = true \/ exists i, (i < 7)%nat /\ bloom_bit key i bits = c).
Proof.
  intros Hb Hpos Hc. unfold bloom_add.
  destruct (set_bits_at (fun i => bloom_bit key i bits) (seq 0 7) ws c) as [H1 H2]; auto.
  { intros i. unfold in_words. rewrite <- Hb. apply bloom_bit_range, Hpos. }
  split; [exact H1|]. rewrite H2. setoid_rewrite elem_of_seq.
  split; (intros [|(i & ? & ?)]; [auto|]); right; exists i; split; auto; lia.
Qed.

Lemma bloom_adds_at bits keys : forall ws c,
  bits = 64 * Z.of_nat (length ws) -> 0 < bits -> 0 <= c ->
  let ws' := fold_left (bloom_add bits) keys ws in
  length ws' = length ws /\
  (bit_at ws' c = true <->
   bit_at ws c = true \/ exists key i, key ∈ keys /\ (i < 7)%nat /\ bloom_bit key i bits = c).
Proof.
  induction keys as [|k keys IH]; intros ws c Hb Hpos Hc; cbn [fold_left].
  - split; [reflexivity|]. split; [auto|].
    intros [|(? & ? & H%elem_of_nil & _)]; [auto|contradiction].
  - destruct (bloom_add_at bits ws k c Hb Hpos Hc) as [Hl Ha].
    destruct (IH (bloom_add bits ws k) c) as [IH1 IH2]; [rewrite Hl; exact Hb | auto | auto |].
    rewrite IH1, IH2, Ha. split; [exact Hl|]. split.
    + intros [[H|(i & Hi & H)]|(key & i & Hk & Hi & H)]; [auto| |];
        right; [exists k, i | exists key, i]; split_and!; auto; [left | right; exact Hk].
    + intros [H|(key & i & Hk & Hi & H)]; [auto|].
      apply elem_of_cons in Hk as [->|Hk]; [left; right; eauto | right; eauto].
Qed.

Lemma bloom_bits_spec n :
  0 <= n < 2 ^ 60 -> exists k, bloom_bits n = 64 * k /\ 1 <= k < 2 ^ 58 /\ bloom_bits n / 64 = k.
Proof.
  intros Hn. unfold bloom_bits, u64. rewrite Z.mod_small by lia.
  pose proof (Z.div_mod (n * 10 + 63) 64). pose proof (Z.mod_pos_bound (n * 10 + 63) 64).
  assert (Hq : 0 <= (n * 10 + 63) / 64 < 2 ^ 58) by lia.
  destruct (Z.max_spec 64 ((n * 10 + 63) / 64 * 64)) as [[Hm ->]|[Hm ->]].
  - exists ((n * 10 + 63) / 64). split_and!; try lia. apply Z.div_mul. lia.
  - exists 1. split_and!; try lia. reflexivity.
Qed.

Lemma bloom_words_at keys c :
  Z.of_nat (length keys) < 2 ^ 60 -> 0 <= c ->
  let bits := bloom_bits (Z.of_nat (length keys)) in
  Z.of_nat (length (bloom_words keys)) = bits / 64 /\
  (bit_at (bloom_words keys) c = true <->
   exists key i, key ∈ keys /\ (i < 7)%nat /\ bloom_bit key i bits = c).
Proof.
  intros Hn Hc. destruct (bloom_bits_spec (Z.of_nat (length keys))) as (k & Hk & Hk1 & Hk2); [lia|].
  cbv zeta. unfold bloom_words.
  destruct (bloom_adds_at (bloom_bits (Z.of_nat (length keys))) keys
    (replicate (Z.to_nat (bloom_bits (Z.of_nat (length keys)) / 64)) 0) c) as [H1 H2];
    [rewrite length_replicate; lia | lia | exact Hc |].
  cbv zeta in H1, H2. rewrite H1, H2, length_replicate. split; [lia|].
  split; [|auto]. intros [H|H]; [|exact H]. exfalso. revert H. unfold bit_at.
  rewrite nth_lookup. destruct (replicate _ 0 !! _) as [w|] eqn:E; cbn [default].
  - apply lookup_replicate in E as [-> _]. cbn. rewrite Z.bits_0. discriminate.
  - cbn. rewrite Z.bits_0. discriminate.
Qed.

(** ** The sidecar file parses back to the filter *)

Definition word64_ok (w : Z) : Prop := 0 <= w < 2 ^ 64.

Lemma set_bit_ok ws bit : Forall word64_ok ws -> Forall word64_ok (set_bit ws bit).
Proof.
  intros H. unfold set_bit. apply Forall_insert; [exact H|].
  assert (Hw : word64_ok (nth (Z.to_nat (bit / 64)) ws 0)).
  { rewrite nth_lookup. destruct (ws !! _) as [w|] eqn:E; cbn; [|unfold word64_ok; lia].
    eapply Forall_lookup_1; eauto. }
  pose proof (Z.mod_pos_bound bit 64).
  set (w := nth _ ws 0) in *. destruct Hw as [Hw0 Hw1]. unfold word64_ok.
  assert (Hb : 0 <= Z.shiftl 1 (bit mod 64) < 2 ^ 64).
  { rewrite Z.shiftl_1_l. split; [apply Z.pow_nonneg; lia|]. apply Z.pow_lt_mono_r; lia. }
  split; [apply Z.lor_nonneg; lia|].
  destruct (Z.eq_dec (Z.lor w (Z.shiftl 1 (bit mod 64))) 0) as [->|Hnz]; [lia|].
  apply Z.log2_lt_pow2; [pose proof (Z.lor_nonneg w (Z.shiftl 1 (bit mod 64))); lia|].
  rewrite Z.log2_lor by lia. apply Z.max_lub_lt.
  - destruct (Z.eq_dec w 0) as [->|]; [reflexivity|]. apply Z.log2_lt_pow2; lia.
  - rewrite Z.shiftl_1_l, Z.log2_pow2; lia.
Qed.

Lemma bloom_words_ok keys : Forall word64_ok (bloom_words keys).
Proof.
  unfold bloom_words. generalize (bloom_bits (Z.of_nat (length keys))). intros bits.
  assert (Hadd : forall l ws k, Forall word64_ok ws ->
    Forall word64_ok (fold_left (fun ws i => set_bit ws (bloom_bit k i bits)) l ws)).
  { induction l; simpl; auto using set_bit_ok. }
  assert (Hinit : Forall word64_ok (replicate (Z.to_nat (bits / 64)) 0)).
  { apply Forall_replicate. unfold word64_ok. lia. }
  revert Hinit. generalize (replicate (Z.to_nat (bits / 64)) 0).
  induction keys as [|k ks IH]; intros ws Hws; cbn [fold_left]; auto.
  apply IH, Hadd, Hws.
Qed.

Lemma words_bytes_length ws : length (words_bytes ws) = (8 * length ws)%nat.
Proof. unfold words_bytes. induction ws as [|w ws IH]; [reflexivity|]. cbn [flat_map]. rewrite length_app, IH, le_bytes_length. simpl. lia. Qed.

Lemma words_of_bytes ws : Forall word64_ok ws -> words_of (length ws) (words_bytes ws) = ws.
Proof.
  induction 1 as [|w ws Hw _ IH]; [reflexivity|]. cbn [length words_of words_bytes flat_map].
  rewrite take_app_le, take_ge by (rewrite le_bytes_length; lia).
  rewrite drop_app_le, drop_ge by (rewrite le_bytes_length; lia).
  rewrite le_value_bytes by exact Hw. cbn [app]. f_equal. exact IH.
Qed.

Lemma bloom_header_length keys : length (bloom_header keys) = 48%nat.
Proof. unfold bloom_header. rewrite !length_app, !le_bytes_length. reflexivity. Qed.

(** Parsing the header written for [keys] in front of words [stored], which
    may differ from the ones the header was computed for. *)
Lemma parseBloom_stored keys m stored :
  Z.of_nat (length keys) < 2 ^ 60 -> length stored = length (words_bytes (bloom_words keys)) ->
  parseBloom (mkFile m (bloom_header keys ++ stored)) =
  if crc32c stored =? crc32c (words_bytes (bloom_words keys))
  then Some (mkBloomView (48 + blen stored) m (bloom_bits (Z.of_nat (length keys))) 7
               (words_of (length (bloom_words keys)) stored))
  else None.
Proof.
  intros Hn Hst. destruct (bloom_bits_spec (Z.of_nat (length keys))) as (k & Hk & Hk1 & Hk2); [lia|].
  destruct (bloom_words_at keys 0 Hn ltac:(lia)) as [Hlen _].
  set (bits := bloom_bits _) in *. set (ws := bloom_words keys) in *.
  rewrite words_bytes_length in Hst.
  assert (Hsize : blen (bloom_header keys ++ stored) = 48 + 8 * k).
  { unfold blen. rewrite length_app, bloom_header_length. lia. }
  unfold parseBloom. cbn [f_data f_mtime]. rewrite Hsize. unfold kBloomHeaderBytes.
  rewrite (proj2 (Z.ltb_ge (48 + 8 * k) _)) by lia.
  replace (drop 48 (bloom_header keys ++ stored)) with stored
    by (rewrite drop_app_le, drop_ge by (rewrite bloom_header_length; lia); reflexivity).
  unfold bloom_header. fold bits ws. rewrite <- !app_assoc.
  rewrite (take_app_le _ _ 8), (drop_app_le _ _ 8) by (vm_compute; lia).
  change (take 8 kBloomMagic) with kBloomMagic. change (drop 8 kBloomMagic) with (@nil byte).
  rewrite bytes_eqb_refl. cbn [negb app].
  assert (H32 : 256 ^ Z.of_nat 4 = 2 ^ 32) by reflexivity.
  assert (H64 : 256 ^ Z.of_nat 8 = 2 ^ 64) by reflexivity.
  pose proof (crc32_range (words_bytes ws) : 0 <= crc32c (words_bytes ws) < 2 ^ 32) as Hcrc.
  repeat (rewrite read_le_app by (rewrite ?H32, ?H64; unfold kBloomVersion; lia);
          cbn [mbind option_bind]).
  rewrite Hlen, Hk2.
  replace (bits mod 64) with 0 by (symmetry; rewrite Hk, Z.mul_comm; apply Z.mod_mul; lia).
  rewrite (proj2 (Z.ltb_ge bits 64)) by lia. rewrite !Z.eqb_refl.
  unfold u64. rewrite (Z.mod_small (k * 8)), (Z.mod_small (48 + k * 8)) by lia.
  rewrite (proj2 (Z.eqb_eq (48 + k * 8) (48 + 8 * k))) by lia.
  change (7 =? 0) with false. change (16 <? 7) with false. cbn [negb orb].
  rewrite take_ge by lia. destruct (_ =? _); cbn [negb]; [|reflexivity].
  replace (Z.to_nat k) with (length ws) by lia.
  replace (48 + blen stored) with (48 + 8 * k) by (unfold blen; lia). reflexivity.
Qed.

Lemma parseBloom_image keys m :
  Z.of_nat (length keys) < 2 ^ 60 ->
  parseBloom (mkFile m (bloom_image keys)) =
  Some (mkBloomView (blen (bloom_image keys)) m (bloom_bits (Z.of_nat (length keys))) 7 (bloom_words keys)).
Proof.
  intros Hn. unfold bloom_image. rewrite parseBloom_stored, Z.eqb_refl by auto.
  rewrite words_of_bytes by apply bloom_words_ok.
  unfold blen. rewrite length_app, bloom_header_length. do 2 f_equal. lia.
Qed.

Lemma words_of_length n b : length (words_of n b) = n.
Proof. revert b. induction n; intros; simpl; auto. Qed.

Lemma probe_bit_at v key i : probe v key i = bit_at (words v) (bloom_bit key i (bitCount v)).
Proof.
  unfold probe, bit_at. set (bit := bloom_bit key i (bitCount v)).
  set (w := nth _ (words v) 0). pose proof (Z.mod_pos_bound bit 64).
  rewrite Z.shiftl_1_l. destruct (Z.testbit w (bit mod 64)) eqn:E.
  - apply negb_true_iff, Z.eqb_neq. intros H0.
    apply (f_equal (fun z => Z.testbit z (bit mod 64))) in H0.
    rewrite Z.land_spec, E, Z.pow2_bits_true, Z.bits_0 in H0 by lia. discriminate.
  - apply negb_false_iff, Z.eqb_eq. apply Z.bits_inj'. intros n Hn.
    rewrite Z.land_spec, Z.bits_0, Z.pow2_bits_eqb by lia.
    destruct (Z.eqb_spec (bit mod 64) n) as [<-|]; [rewrite E; reflexivity | apply andb_false_r].
Qed.

Lemma probes_all v key n : forall i,
  probes v key i n = true <-> forall j, (i <= j < i + n)%nat -> probe v key j = true.
Proof.
  induction n as [|n IH]; intros i; cbn [probes].
  - split; [intros; lia | reflexivity].
  - destruct (probe v key i) eqn:E; cbn [negb].
    + rewrite IH. split; intros H j Hj.
      * destruct (Nat.eq_dec j i) as [->|]; [exact E | apply H; lia].
      * apply H. lia.
    + split; [discriminate|]. intros H. rewrite (H i) in E by lia. discriminate.
Qed.

(** ** Publishing and querying *)

Definition bloom_coherent (s : store) : Prop :=
  coherent parseBloom bv_fileSize bv_mtime (st_fs s) (g_bloomCache s).

Lemma buildBloom_ok io s sst keys s' :
  buildBloom io s sst keys = (Ok tt, s') ->
  st_fs s' !! bloom_path sst = Some (mkFile (bio_mtime io) (bloom_image keys)) /\
  g_bloomCache s' = erase_prefix (bloom_path sst) (g_bloomCache s) /\
  g_sstCache s' = erase_prefix (bloom_path sst) (g_sstCache s) /\
  forall p, p <> bloom_path sst -> p <> bloom_path sst ++ str ".tmp" -> st_fs s' !! p = st_fs s !! p.
Proof.
  unfold buildBloom. destruct (bio_stream io); [discriminate|].
  destruct (bio_sync io); [|discriminate]. cbn [negb].
  destruct (bio_rename io), (bio_rename_again io), (bio_dirsync io); cbn [andb negb];
    try discriminate; intros Hs%(f_equal snd); cbn [snd] in Hs; subst s'; cbn [st_fs g_bloomCache g_sstCache with_fs invalidateCaches];
    (split; [apply lookup_insert_eq|]); (split; [reflexivity|]); (split; [reflexivity|]);
    intros p Hp Ht; rewrite lookup_insert_ne, lookup_delete_ne by congruence;
    rewrite ?lookup_delete_ne by congruence; rewrite lookup_insert_ne by congruence; reflexivity.
Qed.

(** What a query returns on a coherent cache: the answer of the file. *)
Lemma bloomMayContain_file s sst key f :
  bloom_coherent s -> st_fs s !! bloom_path sst = Some f ->
  (bloomMayContain s sst key).1 =
  (v ← parseBloom f; Some (probes v key 0 (Z.to_nat (hashes v)))) /\
  bloom_coherent (bloomMayContain s sst key).2.
Proof.
  intros Hc Hf. unfold bloomMayContain, mapBloom. rewrite Hf.
  destruct (Z.ltb_spec (blen (f_data f)) (kBloomHeaderBytes + 8)) as [Hlt|Hge].
  - cbn [fst snd]. split; [|exact Hc]. unfold parseBloom.
    rewrite (proj2 (Z.ltb_lt _ _)) by exact Hlt. reflexivity.
  - destruct (cached_load_coherent parseBloom bv_fileSize bv_mtime _ _ _ _ Hc Hf) as [H1 H2].
    destruct (cached_load _ _ _ _ _ _ _) as [v cache]. cbn [fst snd] in *. subst v.
    split; [destruct (parseBloom f); reflexivity | exact H2].
Qed.

Lemma buildBloom_coherent io s sst keys s' :
  bloom_coherent s -> buildBloom io s sst keys = (Ok tt, s') -> bloom_coherent s'.
Proof.
  intros Hc Hb. apply buildBloom_ok in Hb as (_ & Hcache & _ & Hfs).
  unfold bloom_coherent. rewrite Hcache. eapply coherent_replace; [exact Hc|].
  intros q Hq. apply Hfs; intros ->; [rewrite is_prefix_refl in Hq | rewrite is_prefix_app in Hq];
    discriminate.
Qed.

(** A Bloom sidecar answers exactly for its keys: after a successful
    [buildBloom], whatever the cache held before, a query for a key of the set
    answers "may contain" (no false negatives), and for any key the answer is
    true exactly when each of its seven bits is a bit of some inserted key; the
    cache left behind is coherent, so later queries do not read a stale
    filter. *)
Theorem bloom_no_false_negatives io s sst keys s' key :
  Z.of_nat (length keys) < 2 ^ 60 -> bloom_coherent s ->
  buildBloom io s sst keys = (Ok tt, s') ->
  let bits := bloom_bits (Z.of_nat (length keys)) in
  (key ∈ keys -> (bloomMayContain s' sst key).1 = Some true) /\
  (exists b, (bloomMayContain s' sst key).1 = Some b /\
     (b = true <-> forall i, (i < 7)%nat ->
        exists key' j, key' ∈ keys /\ (j < 7)%nat /\ bloom_bit key' j bits = bloom_bit key i bits)) /\
  bloom_coherent (bloomMayContain s' sst key).2.
Proof.
  intros Hn Hc Hb. cbv zeta. pose proof (buildBloom_coherent _ _ _ _ _ Hc Hb) as Hc'.
  destruct (buildBloom_ok _ _ _ _ _ Hb) as (Hf & _).
  destruct (bloomMayContain_file s' sst key _ Hc' Hf) as [H1 H2].
  rewrite H1, parseBloom_image by exact Hn. cbn [mbind option_bind hashes].
  change (Z.to_nat 7) with 7%nat.
  destruct (bloom_bits_spec (Z.of_nat (length keys))) as (k & Hk & Hk1 & _); [lia|].
  assert (Hiff : probes (mkBloomView (blen (bloom_image keys)) (bio_mtime io)
      (bloom_bits (Z.of_nat (length keys))) 7 (bloom_words keys)) key 0 7 = true <->
      forall i, (i < 7)%nat -> exists key' j, key' ∈ keys /\ (j < 7)%nat /\
        bloom_bit key' j (bloom_bits (Z.of_nat (length keys))) =
        bloom_bit key i (bloom_bits (Z.of_nat (length keys)))).
  { rewrite probes_all. split; intros H i Hi.
    - specialize (H i ltac:(lia)). rewrite probe_bit_at in H. cbn [words bitCount] in H.
      apply (bloom_words_at keys _ Hn) in H; [exact H|]. apply bloom_bit_range. lia.
    - rewrite probe_bit_at. cbn [words bitCount].
      apply (bloom_words_at keys _ Hn); [apply bloom_bit_range; lia | apply H; lia]. }
  split_and!; [|eauto|exact H2].
  intros Hin. f_equal. apply Hiff. intros i Hi. exists key, i. auto.
Qed.

Lemma bloom_no_false_negatives_witness :
  let s := mkStore ∅ ∅ ∅ in
  let io := mkBloomIo None true true true true 5 in
  let s' := (buildBloom io s (str "a.sst") [str "k1"; str "k2"]).2 in
  (bloomMayContain s' (str "a.sst") (str "k2")).1 = Some true.
Proof.
  cbv zeta.
  destruct (bloom_no_false_negatives (mkBloomIo None true true true true 5) (mkStore ∅ ∅ ∅)
    (str "a.sst") [str "k1"; str "k2"]
    (buildBloom (mkBloomIo None true true true true 5) (mkStore ∅ ∅ ∅) (str "a.sst")
       [str "k1"; str "k2"]).2 (str "k2")) as [H _].
  - reflexivity.
  - intros p v f H. cbn [g_bloomCache] in H. rewrite lookup_empty in H. discriminate.
  - reflexivity.
  - apply H. right. left.
Defined.

Lemma parseBloom_bounds f v :
  parseBloom f = Some v ->
  bitCount v = 64 * Z.of_nat (length (words v)) /\ 0 < bitCount v /\ 0 < hashes v <= 16 /\
  blen (f_data f) = 48 + 8 * Z.of_nat (length (words v)).
Proof.
  unfold parseBloom. destruct (_ <? _); [discriminate|]. destruct (negb _); [discriminate|].
  do 7 (match goal with |- context [read_le ?n ?c] =>
    let H := fresh "Hr" in destruct (read_le n c) as [[? ?]|] eqn:H end;
    cbn [mbind option_bind]; [|discriminate]).
  match goal with |- context [if ?c then None else _] => destruct c eqn:Hc; [discriminate|] end.
  rewrite !orb_false_iff, !negb_false_iff in Hc.
  destruct Hc as ((((((_ & Hh0) & Hh1) & Hb0) & Hb1) & Hw) & Hsz).
  apply Z.eqb_neq in Hh0. apply Z.ltb_ge in Hh1, Hb0. apply Z.eqb_eq in Hb1, Hw, Hsz.
  destruct (negb _); [discriminate|]. intros [= <-].
  cbn [bitCount hashes words]. rewrite words_of_length.
  apply read_le_Some in Hr0 as (h0 & _ & Hl0 & Hv0). apply read_le_Some in Hr1 as (h1 & _ & Hl1 & Hv1).
  pose proof (le_value_range h0) as Hrg0. pose proof (le_value_range h1) as Hrg1.
  unfold blen in Hrg0, Hrg1. rewrite Hl0 in Hrg0. rewrite Hl1 in Hrg1.
  change (256 ^ Z.of_nat 8) with (2 ^ 64) in Hrg1. rewrite <- Hv0 in Hrg0. rewrite <- Hv1 in Hrg1.
  pose proof (Z.div_mod z1 64) as Hdm.
  unfold u64, kBloomHeaderBytes in Hsz. rewrite (Z.mod_small (z3 * 8)), Z.mod_small in Hsz by lia.
  split_and!; lia.
Qed.

(** A filter is used only if it is intact and in bounds: whenever a sidecar
    validates, its bit count is 64 times the number of words actually present,
    so that no probe of any key reads outside them; and the sidecar written for
    a key set is refused (the caller then reads the SST) when its words were
    altered in place inside a window of at most four bytes. *)
Theorem bloom_validated f v key i keys m pre w w' suf :
  Z.of_nat (length keys) < 2 ^ 60 ->
  (parseBloom f = Some v ->
     blen (f_data f) = 48 + 8 * Z.of_nat (length (words v)) /\ 0 < hashes v <= 16 /\
     (Z.to_nat (bloom_bit key i (bitCount v) / 64) < length (words v))%nat) /\
  (words_bytes (bloom_words keys) = pre ++ w ++ suf -> length w = length w' ->
   (length w <= 4)%nat -> w <> w' ->
   parseBloom (mkFile m (bloom_header keys ++ pre ++ w' ++ suf)) = None).
Proof.
  intros Hn. split.
  - intros Hp. apply parseBloom_bounds in Hp as (Hb & Hb0 & Hh & Hs). split_and!; try lia.
    apply word_index. unfold in_words. rewrite <- Hb. apply bloom_bit_range, Hb0.
  - intros Hw Hl H4 Hne. rewrite parseBloom_stored; [|exact Hn|].
    + rewrite (proj2 (Z.eqb_neq _ _)); [reflexivity|]. rewrite Hw. unfold crc32c.
      apply not_eq_sym, crc32_burst; auto.
    + rewrite Hw, !length_app. lia.
Qed.

Lemma bloom_validated_witness :
  exists pre w w' suf,
  parseBloom (mkFile 0 (bloom_header [str "k"] ++ pre ++ w' ++ suf)) = None /\ w <> w'.
Proof.
  set (b := words_bytes (bloom_words [str "k"])).
  exists [], (take 1 b), [byte_of (255 - byte_val (nth 0 b Byte.x00))], (drop 1 b).
  split; [|vm_compute; discriminate].
  destruct (bloom_validated (mkFile 0 []) (mkBloomView 0 0 0 0 []) [] 0 [str "k"] 0 []
           (take 1 b) [byte_of (255 - byte_val (nth 0 b Byte.x00))] (drop 1 b)) as [_ H];
    [reflexivity|].
  apply H; [symmetry; apply take_drop | reflexivity | vm_compute; lia | vm_compute; discriminate].
Defined.
