(* ===== verification/Sst.v ===== *)
(** * Sorted string tables, format 2 (storage_format_v2.cpp)

    The block writer [writeSst], the header, block-index and block readers
    every consumer shares, the metadata cache, and the full scans.  The files
    live in the [store] of Store.v. *)

From S2P Require Import Prelude FileSys Json Msgpack RowView Checksum Store.
From stdpp Require Import base list gmap strings.
From Stdlib Require Import ZArith Lia.

Open Scope Z_scope.

(** ** What the format uses of its environment *)

(** LZ4, a linked library: [lz4_compress src bound] is what
    [LZ4_compress_default] leaves in the buffer (empty when it fails), and
    [lz4_decompress src capacity] the bytes [LZ4_decompress_safe] decoded. *)
Class Lz4 := {
  lz4_compressBound : Z -> Z;
  lz4_compress : bytes -> Z -> bytes;
  lz4_decompress : bytes -> Z -> option bytes;
}.

(** The library's contract: what it compressed into a large enough buffer
    decompresses to the original. *)
Class Lz4Correct `{LZ : Lz4} := {
  lz4_roundtrip : forall src,
    let bound := lz4_compressBound (blen src) in
    0 < bound -> lz4_compress src bound <> [] ->
    lz4_decompress (lz4_compress src bound) (blen src) = Some src;
}.

Definition kSstMagic : bytes := str "PDBSST2" ++ [Byte.x00].
Definition kSstIndexMagic : bytes := str "PDBSIX2" ++ [Byte.x00].
Definition kSstVersion : Z := 2.
Definition kBlockMagic : Z := 0x324b4c42.
Definition kSstHeaderBytes : Z := 64.
Definition kBlockHeaderBytes : Z := 24.
Definition kMaxRowBytes : Z := 64 * 1024 * 1024.   (* kMaxFieldBytes *)
Definition kMaxBlocks : Z := 16 * 1024 * 1024.

Section Sst.
Context `{JT : JsonText} `{LZ : Lz4}.

(** ** Writing *)

Definition id_text (v : json) : option bytes :=
  match v with JString s => Some s | _ => json_dump v end.

(** [rowId]: empty for a row without id and when [dump] throws. *)
Definition rowId (row : json) : bytes :=
  match json_find (str "id") row with
  | Some v => default [] (id_text v)
  | None => []
  end.

Record SstWriteStats := mkStats { ws_rows : Z; ws_blocks : Z; ws_uncompressed : Z; ws_stored : Z }.

(** The local state of [writeSst]: what the stream holds, the block index, the
    open block with its key range and row count, and the statistics. *)
Record builder := mkBuilder {
  b_out : bytes; b_index : list BlockIndexEntry;
  b_block : bytes; b_first : bytes; b_last : bytes; b_rows : Z; b_stats : SstWriteStats }.

Definition builder_init : builder :=
  mkBuilder (zeros 64) [] [] [] [] 0 (mkStats 0 0 0 0).

(** The stored form of a block: compressed when that saves more than 8 bytes. *)
Definition block_stored (block : bytes) : bool * bytes :=
  let bound := lz4_compressBound (blen block) in
  let compressed := if 0 <? bound then lz4_compress block bound else [] in
  if (0 <? blen compressed) && (blen compressed + 8 <? blen block)
  then (true, compressed) else (false, block).

Definition block_header (useCompression : bool) (stored original rows crc : Z) : bytes :=
  le_bytes 4 kBlockMagic ++ [byte_of (if useCompression then 1 else 0)] ++ zeros 3 ++
  le_bytes 4 stored ++ le_bytes 4 original ++ le_bytes 4 rows ++ le_bytes 4 crc.

Definition flushBlock (b : builder) : builder :=
  if b_rows b =? 0 then b else
  let '(useCompression, storedData) := block_stored (b_block b) in
  let entry := mkEntry (blen (b_out b)) (u32 (blen storedData)) (u32 (blen (b_block b)))
                 (b_rows b) (b_first b) (b_last b) in
  let header := block_header useCompression (storedBytes entry) (originalBytes entry)
                  (e_rows entry) (crc32c (b_block b)) in
  let st := b_stats b in
  mkBuilder (b_out b ++ header ++ storedData) (b_index b ++ [entry]) [] [] [] 0
    (mkStats (ws_rows st) (ws_blocks st + 1) (ws_uncompressed st + blen (b_block b))
       (ws_stored st + (blen header + storedBytes entry))).

Definition addRow (b : builder) (row : json) (packed : bytes) : builder :=
  let id := rowId row in
  let st := b_stats b in
  mkBuilder (b_out b) (b_index b) (b_block b ++ le_bytes 4 (blen packed) ++ packed)
    (if b_rows b =? 0 then id else b_first b) id (u32 (b_rows b + 1))
    (mkStats (ws_rows st + 1) (ws_blocks st) (ws_uncompressed st) (ws_stored st)).

(** The row loop; [good n] says whether the stream is still good after the
    block with number [n] was written. *)
Fixpoint add_rows (good : nat -> bool) (target : Z) (rows : list json) (b : builder)
  : result builder * builder :=
  match rows with
  | [] => (Ok b, b)
  | row :: rest =>
      let packed := to_msgpack row in
      if bytes_eqb packed [] || (kMaxRowBytes <? blen packed)
      then (Err "SST row exceeds format limit", b)
      else if negb (b_rows b =? 0) && (target <? blen (b_block b) + (4 + blen packed)) then
        let b' := flushBlock b in
        if good (length (b_index b)) then add_rows good target rest (addRow b' row packed)
        else (Err "cannot write SST block", b')
      else add_rows good target rest (addRow b row packed)
  end.

Definition encode_entry (e : BlockIndexEntry) : bytes :=
  le_bytes 8 (e_offset e) ++ le_bytes 4 (storedBytes e) ++ le_bytes 4 (originalBytes e) ++
  le_bytes 4 (e_rows e) ++ le_bytes 4 (blen (firstKey e)) ++ firstKey e ++
  le_bytes 4 (blen (lastKey e)) ++ lastKey e.

Definition index_bytes (index : list BlockIndexEntry) : bytes :=
  let body := kSstIndexMagic ++ le_bytes 4 (Z.of_nat (length index)) ++ flat_map encode_entry index in
  body ++ le_bytes 4 (crc32c body).

Definition sst_header_plain (target rows indexOffset blockCount : Z) : bytes :=
  let h := kSstMagic ++ le_bytes 4 kSstVersion ++ le_bytes 4 kSstHeaderBytes ++
           le_bytes 4 target ++ le_bytes 4 0 ++ le_bytes 8 rows ++ le_bytes 8 indexOffset ++
           le_bytes 4 blockCount ++ le_bytes 4 0 ++ le_bytes 4 0 in
  h ++ zeros (64 - length h).

(** [header[48 + i] = headerCrc >> (i * 8)] for [i] < 4. *)
Definition patch48 (h patch : bytes) : bytes := take 48 h ++ patch ++ drop 52 h.

Definition sst_header (target rows indexOffset blockCount : Z) : bytes :=
  let h := sst_header_plain target rows indexOffset blockCount in
  patch48 h (le_bytes 4 (crc32c h)).

(** Answers of the operating system to one [writeSst] call: the opening of the
    temporary file, the stream after the n-th checked write, the two syncs, the
    rename, and the time the published file gets. *)
Record sst_io := mkSstIo {
  sio_open : bool; sio_good : nat -> bool; sio_sync : bool; sio_rename : bool;
  sio_dirsync : bool; sio_mtime : Z }.

Definition clamp_target (t : Z) : Z := if t <? 4096 then 4096 else if 16384 <? t then 16384 else t.

Definition writeSst (io : sst_io) (s : store) (p : path) (rows : list json) (targetBlockBytes : Z)
  : result SstWriteStats * store :=
  let target := clamp_target targetBlockBytes in
  let temporary := p ++ str ".writing" in
  let s := with_fs s (delete temporary (st_fs s)) in
  if negb (sio_open io) then (Err "cannot open SST for writing", s) else
  let on_disk out := with_fs s (<[temporary := mkFile (sio_mtime io) out]> (st_fs s)) in
  match add_rows (sio_good io) target rows builder_init with
  | (Err e, b) => (Err e, on_disk (b_out b))
  | (Ok open, _) =>
      let b := flushBlock open in
      if negb (b_rows open =? 0) && negb (sio_good io (length (b_index open)))
      then (Err "cannot write final SST block", on_disk (b_out b)) else
      let indexOffset := blen (b_out b) in
      let indexBytes := index_bytes (b_index b) in
      let out := b_out b ++ indexBytes in
      let n := length (b_index b) in
      if negb (sio_good io n) then (Err "cannot write SST block index", on_disk out) else
      let st := b_stats b in
      let stats := mkStats (ws_rows st) (ws_blocks st) (ws_uncompressed st)
                     (ws_stored st + (kSstHeaderBytes + blen indexBytes)) in
      let header := sst_header target (ws_rows st) indexOffset (Z.of_nat n) in
      let out := header ++ drop 64 out in
      if negb (sio_good io (S n)) then (Err "cannot finalize SST header", on_disk out) else
      let s := on_disk out in
      if negb (sio_sync io) then (Err "cannot fdatasync SST", s) else
      if negb (sio_rename io) then (Err "cannot publish SST: ", s) else
      let s := with_fs s (<[p := mkFile (sio_mtime io) out]> (delete temporary (st_fs s))) in
      if negb (sio_dirsync io) then (Err "cannot publish SST: ", s) else
      (Ok stats, invalidateCaches s p)
  end.

(** ** Reading headers, the block index and blocks *)

Record sst_info := mkInfo { i_rowCount : Z; i_indexOffset : Z; i_blockCount : Z }.

Definition parseSstHeader (header : bytes) : result sst_info :=
  _ ← guard_err (bytes_eqb (take 8 header) kSstMagic) "not a PacificDB v2 SST";
  let cur := drop 8 header in
  '(version, cur) ← or_err (read_le 4 cur) "truncated SST header";
  '(headerBytes, cur) ← or_err (read_le 4 cur) "truncated SST header";
  '(targetBytes, cur) ← or_err (read_le 4 cur) "truncated SST header";
  '(reserved, cur) ← or_err (read_le 4 cur) "truncated SST header";
  '(rowCount, cur) ← or_err (read_le 8 cur) "truncated SST header";
  '(indexOffset, cur) ← or_err (read_le 8 cur) "truncated SST header";
  '(blockCount, cur) ← or_err (read_le 4 cur) "truncated SST header";
  '(flags, cur) ← or_err (read_le 4 cur) "truncated SST header";
  '(storedCrc, cur) ← or_err (read_le 4 cur) "truncated SST header";
  _ ← guard_err ((version =? kSstVersion) && (headerBytes =? kSstHeaderBytes) &&
                 negb (kMaxBlocks <? blockCount)) "unsupported SST header";
  _ ← guard_err (crc32c (patch48 header (zeros 4)) =? storedCrc) "SST header checksum mismatch";
  Ok (mkInfo rowCount indexOffset blockCount).

(** A length-prefixed key of the block index. *)
Definition read_key (cur : bytes) : option (bytes * bytes) :=
  '(size, cur) ← read_le 4 cur;
  if (kMaxRowBytes <? size) || (blen cur <? size) then None
  else Some (take (Z.to_nat size) cur, drop (Z.to_nat size) cur).

Definition read_entry (indexOffset : Z) (cur : bytes) : result (BlockIndexEntry * bytes) :=
  '(offset, cur) ← or_err (read_le 8 cur) "truncated SST block index entry";
  '(stored, cur) ← or_err (read_le 4 cur) "truncated SST block index entry";
  '(original, cur) ← or_err (read_le 4 cur) "truncated SST block index entry";
  '(rows, cur) ← or_err (read_le 4 cur) "truncated SST block index entry";
  '(first, cur) ← or_err (read_key cur) "truncated SST block index entry";
  '(last, cur) ← or_err (read_key cur) "truncated SST block key range";
  _ ← guard_err (negb ((offset <? kSstHeaderBytes) ||
                       (indexOffset <? u64 (offset + kBlockHeaderBytes + stored))))
        "SST block points outside data region";
  Ok (mkEntry offset stored original rows first last, cur).

Fixpoint read_entries (indexOffset : Z) (count : nat) (cur : bytes) (acc : list BlockIndexEntry)
  : result (list BlockIndexEntry * bytes) :=
  match count with
  | O => Ok (acc, cur)
  | S n =>
      '(e, cur) ← read_entry indexOffset cur;
      read_entries indexOffset n cur (acc ++ [e])
  end.

(** The parse of [loadMetadata], the cache aside. *)
Definition parseMetadata (f : file) : result SstMetadata :=
  let data := f_data f in
  let size := blen data in
  _ ← guard_err (negb (size <? kSstHeaderBytes)) "cannot stat SST";
  '(header, _) ← or_err (take_bytes 64 data) "cannot read SST header";
  info ← parseSstHeader header;
  _ ← guard_err (negb ((i_indexOffset info <? kSstHeaderBytes) || (size <=? i_indexOffset info)))
        "invalid SST index offset";
  let indexBytes := drop (Z.to_nat (i_indexOffset info)) data in
  _ ← guard_err (negb ((length indexBytes <? 16)%nat ||
                       negb (bytes_eqb (take 8 indexBytes) kSstIndexMagic)))
        "invalid SST block index magic";
  let body := take (length indexBytes - 4) indexBytes in
  let expectedIndexCrc := le_value (drop (length indexBytes - 4) indexBytes) in
  _ ← guard_err (crc32c body =? expectedIndexCrc) "SST block index checksum mismatch";
  '(count, cur) ← or_err (read_le 4 (drop 8 body)) "invalid SST block count";
  _ ← guard_err ((count =? i_blockCount info) && negb (kMaxBlocks <? count)) "invalid SST block count";
  '(entries, cur) ← read_entries (i_indexOffset info) (Z.to_nat count) cur [];
  _ ← guard_err (bytes_eqb cur []) "unexpected bytes in SST block index";
  Ok (mkSstMetadata size (f_mtime f) (i_rowCount info) entries).

Definition parseMetadata_opt (f : file) : option SstMetadata :=
  match parseMetadata f with Ok m => Some m | Err _ => None end.

Definition loadMetadata (s : store) (p : path) : result SstMetadata * store :=
  match st_fs s !! p with
  | None => (Err "cannot stat SST", s)
  | Some f =>
      if blen (f_data f) <? kSstHeaderBytes then (Err "cannot stat SST", s) else
      let '(v, cache) :=
        cached_load parseMetadata_opt md_fileSize md_mtime (st_fs s) (g_sstCache s) p f in
      (match v with Some m => Ok m | None => parseMetadata f end,
       mkStore (st_fs s) cache (g_bloomCache s))
  end.

Record block_head := mkHead {
  bh_compression : Z; bh_stored : Z; bh_original : Z; bh_count : Z; bh_checksum : Z }.

(** The 24 header bytes; the error is the caller's for the second group. *)
Definition parse_block_header (header : bytes) (mismatch : string) : result block_head :=
  '(magic, cur) ← or_err (read_le 4 header) "invalid SST block header";
  _ ← guard_err ((magic =? kBlockMagic) && negb (length cur <? 4)%nat) "invalid SST block header";
  let compression := byte_val (default Byte.x00 (head cur)) in
  let cur := drop 4 cur in
  '(stored, cur) ← or_err (read_le 4 cur) mismatch;
  '(original, cur) ← or_err (read_le 4 cur) mismatch;
  '(count, cur) ← or_err (read_le 4 cur) mismatch;
  '(checksum, cur) ← or_err (read_le 4 cur) mismatch;
  Ok (mkHead compression stored original count checksum).

(** [LZ4_decompress_safe(...) != original]. *)
Definition decompress_block (encoded : bytes) (original : Z) : result bytes :=
  match lz4_decompress encoded original with
  | Some plain => if blen plain =? original then Ok plain
                  else Err "LZ4 SST block decompression failed"
  | None => Err "LZ4 SST block decompression failed"
  end.

(** [seekg(offset)] and read: nothing past the end. *)
Definition stream_at (data : bytes) (offset : Z) : bytes :=
  if blen data <? offset then [] else drop (Z.to_nat offset) data.

Definition readBlockPayload (data : bytes) (expected : BlockIndexEntry) : result (bytes * Z) :=
  '(header, rest) ← or_err (take_bytes 24 (stream_at data (e_offset expected)))
                      "truncated SST block header";
  h ← parse_block_header header "SST block metadata mismatch";
  _ ← guard_err ((bh_stored h =? storedBytes expected) && (bh_original h =? originalBytes expected) &&
                 (bh_count h =? e_rows expected) && negb (kMaxRowBytes * 4 <? bh_original h))
        "SST block metadata mismatch";
  '(encoded, _) ← or_err (take_bytes (Z.to_nat (bh_stored h)) rest) "truncated SST block payload";
  plain ←
    (if bh_compression h =? 0 then
       if bh_stored h =? bh_original h then Ok encoded
       else Err "invalid uncompressed SST block length"
     else if bh_compression h =? 1 then decompress_block encoded (bh_original h)
     else Err "unsupported SST compression");
  _ ← guard_err (crc32c plain =? bh_checksum h) "SST block checksum mismatch";
  Ok (plain, bh_count h).

(** Reads at the stream's position [pos] and returns the new one. *)
Definition readSequentialBlock (data : bytes) (pos indexOffset : Z) : result (bytes * Z * Z) :=
  _ ← guard_err (negb (indexOffset <? u64 (pos + kBlockHeaderBytes)))
        "SST block crosses block-index boundary";
  '(header, rest) ← or_err (take_bytes 24 (stream_at data pos)) "truncated SST block header";
  h ← parse_block_header header "invalid sequential SST block metadata";
  let pos := pos + kBlockHeaderBytes in
  _ ← guard_err (negb (kMaxRowBytes * 4 <? bh_original h) &&
                 negb (indexOffset <? u64 (pos + bh_stored h)))
        "invalid sequential SST block metadata";
  '(encoded, _) ← or_err (take_bytes (Z.to_nat (bh_stored h)) rest) "truncated SST block payload";
  plain ←
    (if (bh_compression h =? 0) && (bh_stored h =? bh_original h) then Ok encoded
     else if bh_compression h =? 1 then decompress_block encoded (bh_original h)
     else Err "invalid SST block compression or length");
  _ ← guard_err (crc32c plain =? bh_checksum h) "SST block checksum mismatch";
  Ok (plain, bh_count h, pos + bh_stored h).

(** One length-prefixed row of a block. *)
Definition read_row (cur : bytes) : option (bytes * bytes) :=
  '(size, cur) ← read_le 4 cur;
  if (size =? 0) || (kMaxRowBytes <? size) || (blen cur <? size) then None
  else Some (take (Z.to_nat size) cur, drop (Z.to_nat size) cur).

(** The visitor threads a state, may ask to stop, and may throw ([Err]). *)
Fixpoint visitBlockRows {S} (count : nat) (payload : bytes)
    (visitor : S -> bytes -> result (S * bool)) (s : S) : result (S * bool) :=
  match count with
  | O => if bytes_eqb payload [] then Ok (s, false) else Err "trailing bytes in SST block"
  | Datatypes.S n =>
      match read_row payload with
      | None => Err "invalid SST row length"
      | Some (row, payload) =>
          '(s, go) ← visitor s row;
          if go : bool then visitBlockRows n payload visitor s else Ok (s, true)
      end
  end.

(** ** Scans *)

Fixpoint scan_blocks {S} (data : bytes) (bs : list BlockIndexEntry)
    (visitor : S -> MsgpackRowView -> result (S * bool)) (s : S) : result S :=
  match bs with
  | [] => Ok s
  | b :: rest =>
      '(plain, count) ← readBlockPayload data b;
      '(s, stopped) ← visitBlockRows (Z.to_nat count) plain
                        (fun s row => visitor s (mkRowView row false)) s;
      if stopped : bool then Ok s else scan_blocks data rest visitor s
  end.

Definition scanSstViews {S} (st : store) (p : path)
    (visitor : S -> MsgpackRowView -> result (S * bool)) (s : S) : result S * store :=
  match loadMetadata st p with
  | (Err e, st) => (Err e, st)
  | (Ok m, st) =>
      (match read_file (st_fs st) p with
       | None => Err "cannot open SST"
       | Some data => scan_blocks data (blocks m) visitor s
       end, st)
  end.

(** [scanSst]: every row decoded in full before the visitor sees it. *)
Definition scanSst {S} (st : store) (p : path) (visitor : S -> json -> S * bool) (s : S)
  : result S * store :=
  scanSstViews st p (fun s row =>
    match materialize row with
    | Ok j => Ok (visitor s j)
    | Err e => Err ("invalid SST MessagePack row: " +:+ e)
    end) s.

Definition isBinarySst (st : store) (p : path) : bool :=
  match read_file (st_fs st) p with
  | Some data => (8 <=? length data)%nat && bytes_eqb (take 8 data) kSstMagic
  | None => false
  end.

(** ** The shape of what [writeSst] publishes

    Rows are cut into consecutive non-empty groups, one block per group. *)

Definition row_frame (r : json) : bytes := le_bytes 4 (blen (to_msgpack r)) ++ to_msgpack r.
Definition block_plain (g : list json) : bytes := flat_map row_frame g.

Definition block_image (g : list json) : bytes :=
  let '(c, d) := block_stored (block_plain g) in
  block_header c (blen d) (blen (block_plain g)) (Z.of_nat (length g)) (crc32c (block_plain g)) ++ d.

Definition block_entry (offset : Z) (g : list json) : BlockIndexEntry :=
  mkEntry offset (blen (block_stored (block_plain g)).2) (blen (block_plain g))
    (Z.of_nat (length g)) (rowId (hd JNull g)) (rowId (List.last g JNull)).

Fixpoint entries (offset : Z) (groups : list (list json)) : list BlockIndexEntry :=
  match groups with
  | [] => []
  | g :: gs => block_entry offset g :: entries (offset + blen (block_image g)) gs
  end.

Definition sst_blocks (groups : list (list json)) : bytes := flat_map block_image groups.

Definition sst_image (target : Z) (groups : list (list json)) : bytes :=
  sst_header target (Z.of_nat (length (concat groups))) (64 + blen (sst_blocks groups))
    (Z.of_nat (length groups)) ++
  sst_blocks groups ++ index_bytes (entries 64 groups).

Definition row_fits (r : json) : Prop := 0 < blen (to_msgpack r) <= kMaxRowBytes.

Definition group_ok (g : list json) : Prop :=
  g <> [] /\ Forall row_fits g /\ blen (block_plain g) <= kMaxRowBytes + 4.

Lemma block_plain_length g : Forall row_fits g -> Z.of_nat (length g) * 5 <= blen (block_plain g).
Proof.
  unfold blen. induction 1 as [|r g Hr _ IH]; [simpl; lia|].
  unfold block_plain in *. cbn [flat_map length]. unfold row_frame at 1.
  rewrite !length_app, le_bytes_length. unfold row_fits, blen in Hr. lia.
Qed.

Lemma block_stored_length plain : blen (block_stored plain).2 <= blen plain.
Proof.
  unfold block_stored. destruct (andb _ _) eqn:E; cbn [snd]; [|lia].
  apply andb_true_iff in E as [_ E%Z.ltb_lt]. lia.
Qed.

Lemma group_small g :
  group_ok g ->
  0 <= blen (block_plain g) < 2 ^ 27 /\ 0 < Z.of_nat (length g) < 2 ^ 27 /\
  0 <= blen (block_stored (block_plain g)).2 < 2 ^ 27.
Proof.
  intros (Hne & Hfit & Hlen). pose proof (block_plain_length g Hfit).
  pose proof (block_stored_length (block_plain g)). unfold kMaxRowBytes, blen in *.
  destruct g; [congruence|]. cbn [length] in *. lia.
Qed.

(** *** The builder's invariant *)

Record building (b : builder) (groups : list (list json)) (open : list json) : Prop := {
  bd_groups : Forall group_ok groups;
  bd_out : b_out b = zeros 64 ++ sst_blocks groups;
  bd_index : b_index b = entries 64 groups;
  bd_block : b_block b = block_plain open;
  bd_rows : b_rows b = Z.of_nat (length open);
  bd_keys : open <> [] -> b_first b = rowId (hd JNull open) /\ b_last b = rowId (List.last open JNull);
  bd_open : open <> [] -> group_ok open;
  bd_count : ws_rows (b_stats b) = Z.of_nat (length (concat groups ++ open));
  bd_stored : ws_stored (b_stats b) = blen (sst_blocks groups);
  bd_nblocks : ws_blocks (b_stats b) = Z.of_nat (length groups);
}.

Lemma entries_app groups gs off :
  entries off (groups ++ gs) = entries off groups ++ entries (off + blen (sst_blocks groups)) gs.
Proof.
  revert off. induction groups as [|g groups IH]; intros off; cbn [app entries].
  - unfold blen. cbn. rewrite Z.add_0_r. reflexivity.
  - rewrite IH. unfold sst_blocks, blen. cbn [flat_map]. rewrite length_app. do 3 f_equal. lia.
Qed.

Lemma entries_length groups : forall off, length (entries off groups) = length groups.
Proof. induction groups; intros; simpl; auto. Qed.

Lemma sst_blocks_snoc groups g : sst_blocks (groups ++ [g]) = sst_blocks groups ++ block_image g.
Proof. unfold sst_blocks. rewrite flat_map_app. cbn. rewrite app_nil_r. reflexivity. Qed.

Lemma block_header_length c st o r k : length (block_header c st o r k) = 24%nat.
Proof. unfold block_header. rewrite !length_app, !le_bytes_length. reflexivity. Qed.

Lemma flushBlock_building b groups open :
  building b groups open -> open <> [] -> building (flushBlock b) (groups ++ [open]) [].
Proof.
  intros [H1 H2 H3 H4 H5 H6 H7 H8 H9 H10] Hne. specialize (H6 Hne) as [Hf Hl]. specialize (H7 Hne).
  destruct (group_small open H7) as (Hp & Hn & Hs).
  assert (Hend : blen (zeros 64 ++ sst_blocks groups) = 64 + blen (sst_blocks groups)).
  { unfold blen. rewrite length_app. change (length (zeros 64)) with 64%nat. lia. }
  unfold flushBlock. rewrite H5, (proj2 (Z.eqb_neq _ 0)) by lia. rewrite H4.
  unfold block_entry in *. destruct (block_stored (block_plain open)) as [c d] eqn:Ed. cbn [snd] in Hs.
  assert (Himg : block_header c (blen d) (blen (block_plain open)) (Z.of_nat (length open))
                   (crc32c (block_plain open)) ++ d = block_image open).
  { unfold block_image. rewrite Ed. reflexivity. }
  cbn [storedBytes originalBytes e_rows]. unfold u32. rewrite !Z.mod_small by lia.
  split; cbn [b_out b_index b_block b_first b_last b_rows b_stats ws_rows ws_blocks ws_stored].
  - apply Forall_app. auto.
  - rewrite Himg, H2, sst_blocks_snoc, app_assoc. reflexivity.
  - rewrite H3, H2, Hend, entries_app. cbn [entries]. unfold block_entry. rewrite Ed, Hf, Hl. reflexivity.
  - reflexivity.
  - reflexivity.
  - congruence.
  - congruence.
  - rewrite H8, concat_app. cbn [concat]. rewrite !app_nil_r. reflexivity.
  - rewrite H9, sst_blocks_snoc. unfold block_image. rewrite Ed. unfold blen.
    rewrite !length_app. lia.
  - rewrite H10, length_app. cbn [length]. lia.
Qed.

Lemma last_snoc {A} (l : list A) x d : List.last (l ++ [x]) d = x.
Proof. apply List.last_last. Qed.

Lemma addRow_building b groups open row :
  building b groups open -> row_fits row ->
  (open <> [] -> blen (block_plain open) + (4 + blen (to_msgpack row)) <= kMaxRowBytes + 4) ->
  building (addRow b row (to_msgpack row)) groups (open ++ [row]).
Proof.
  intros [H1 H2 H3 H4 H5 H6 H7 H8 H9 H10] Hrow Hsz.
  assert (Hplain : block_plain (open ++ [row]) = block_plain open ++ row_frame row).
  { unfold block_plain. rewrite flat_map_app. cbn. rewrite app_nil_r. reflexivity. }
  assert (Hok : group_ok (open ++ [row])).
  { split; [destruct open; discriminate|]. split.
    - apply Forall_app. split; [|auto]. destruct open; [constructor|]. apply H7. discriminate.
    - rewrite Hplain. unfold row_frame, blen. rewrite !length_app, le_bytes_length.
      unfold row_fits, blen in *. destruct open; [cbn; lia|].
      specialize (Hsz ltac:(discriminate)). lia. }
  destruct (group_small _ Hok) as (_ & Hn & _). rewrite length_app in Hn. cbn [length] in Hn.
  split; cbn [addRow b_out b_index b_block b_first b_last b_rows b_stats ws_rows ws_blocks ws_stored]; auto.
  - rewrite H4, Hplain. reflexivity.
  - rewrite H5, length_app. cbn [length]. unfold u32. rewrite Z.mod_small by lia. lia.
  - intros _. rewrite last_snoc. split; [|reflexivity]. rewrite H5.
    destruct open as [|r o]; [reflexivity|]. cbn [length]. rewrite (proj2 (Z.eqb_neq _ 0)) by lia.
    apply H6. discriminate.
  - rewrite H8, !length_app. cbn [length]. lia.
Qed.

Lemma add_rows_building good target rows : forall b groups open b',
  target <= kMaxRowBytes -> building b groups open ->
  (add_rows good target rows b).1 = Ok b' ->
  exists groups' open', building b' groups' open' /\
    concat groups' ++ open' = concat groups ++ open ++ rows.
Proof.
  induction rows as [|row rows IH]; intros b groups open b' Ht Hb Hok; cbn [add_rows] in Hok.
  - injection Hok as <-. exists groups, open. rewrite app_nil_r. auto.
  - destruct (bytes_eqb (to_msgpack row) []) eqn:E0; cbn [orb] in Hok; [discriminate|].
    destruct (Z.ltb_spec kMaxRowBytes (blen (to_msgpack row))) as [Hbig|Hsmall]; [discriminate|].
    assert (Hfit : row_fits row).
    { apply bytes_eqb_neq in E0. unfold row_fits, blen in *. destruct (to_msgpack row); [congruence|].
      cbn [length] in *. lia. }
    destruct (negb (b_rows b =? 0) && _) eqn:Ec.
    + apply andb_true_iff in Ec as [Er _]. apply negb_true_iff, Z.eqb_neq in Er.
      assert (Hne : open <> []).
      { intros ->. apply Er. rewrite (bd_rows _ _ _ Hb). reflexivity. }
      destruct (good _); [|discriminate].
      pose proof (flushBlock_building _ _ _ Hb Hne) as Hf.
      eapply IH in Hok as (gs & o & Hbd & Hc);
        [|exact Ht|apply (addRow_building _ _ _ row Hf Hfit); congruence].
      exists gs, o. split; [exact Hbd|]. rewrite Hc, concat_app. cbn [concat app].
      rewrite app_nil_r, <- !app_assoc. reflexivity.
    + eapply IH in Hok as (gs & o & Hbd & Hc); [|exact Ht|apply (addRow_building _ _ _ row Hb Hfit)].
      * exists gs, o. split; [exact Hbd|]. rewrite Hc, <- app_assoc. reflexivity.
      * intros Hne. rewrite (bd_rows _ _ _ Hb) in Ec.
        rewrite (proj2 (Z.eqb_neq _ 0)) in Ec by (destruct open; [congruence|cbn [length]; lia]).
        cbn [negb andb] in Ec. apply Z.ltb_ge in Ec. rewrite (bd_block _ _ _ Hb) in Ec. lia.
Qed.

(** *** Headers and the block index parse back *)

Definition header_fields (target rows indexOffset blockCount : Z) : bytes :=
  kSstMagic ++ le_bytes 4 kSstVersion ++ le_bytes 4 kSstHeaderBytes ++ le_bytes 4 target ++
  le_bytes 4 0 ++ le_bytes 8 rows ++ le_bytes 8 indexOffset ++ le_bytes 4 blockCount ++ le_bytes 4 0.

Lemma header_fields_length t r o c : length (header_fields t r o c) = 48%nat.
Proof. unfold header_fields. rewrite !length_app, !le_bytes_length. reflexivity. Qed.

Lemma sst_header_plain_eq t r o c :
  sst_header_plain t r o c = header_fields t r o c ++ zeros 4 ++ zeros 12.
Proof. unfold sst_header_plain, header_fields. rewrite <- !app_assoc. reflexivity. Qed.

Lemma patch48_eq a p q z : length a = 48%nat -> length p = 4%nat -> patch48 (a ++ p ++ z) q = a ++ q ++ z.
Proof.
  intros Ha Hp. unfold patch48.
  rewrite take_app_le, take_ge by lia.
  rewrite (drop_app_ge _ _ 52) by lia. rewrite Ha, drop_app_le, drop_ge by lia. reflexivity.
Qed.

Lemma sst_header_eq t r o c :
  sst_header t r o c =
  header_fields t r o c ++ le_bytes 4 (crc32c (sst_header_plain t r o c)) ++ zeros 12.
Proof.
  unfold sst_header. rewrite sst_header_plain_eq at 1.
  apply patch48_eq; [apply header_fields_length | reflexivity].
Qed.

Lemma sst_header_length t r o c : length (sst_header t r o c) = 64%nat.
Proof. rewrite sst_header_eq, !length_app, header_fields_length, le_bytes_length. reflexivity. Qed.

Lemma parseSstHeader_written t r o c :
  0 <= t < 2 ^ 32 -> 0 <= r < 2 ^ 64 -> 0 <= o < 2 ^ 64 -> 0 <= c <= kMaxBlocks ->
  parseSstHeader (sst_header t r o c) = Ok (mkInfo r o c).
Proof.
  intros Ht Hr Ho Hc. unfold parseSstHeader.
  assert (Hpatch : patch48 (sst_header t r o c) (zeros 4) = sst_header_plain t r o c).
  { rewrite sst_header_eq, sst_header_plain_eq.
    apply patch48_eq; [apply header_fields_length | apply le_bytes_length]. }
  rewrite Hpatch, sst_header_eq. unfold header_fields. rewrite <- !app_assoc.
  rewrite (take_app_le _ _ 8), (drop_app_le _ _ 8) by (vm_compute; lia).
  change (take 8 kSstMagic) with kSstMagic. change (drop 8 kSstMagic) with (@nil byte).
  rewrite bytes_eqb_refl. cbn [guard_err mbind result_bind app].
  assert (H32 : 256 ^ Z.of_nat 4 = 2 ^ 32) by reflexivity.
  assert (H64 : 256 ^ Z.of_nat 8 = 2 ^ 64) by reflexivity.
  pose proof (crc32_range (sst_header_plain t r o c) : 0 <= crc32c (sst_header_plain t r o c) < 2 ^ 32).
  unfold kMaxBlocks in *.
  repeat (rewrite read_le_app by (rewrite ?H32, ?H64; unfold kSstVersion, kSstHeaderBytes; lia);
          cbn [or_err mbind result_bind]).
  rewrite !Z.eqb_refl. rewrite (proj2 (Z.ltb_ge _ c)) by lia. reflexivity.
Qed.

Definition key_fits (k : bytes) : Prop := blen k <= kMaxRowBytes.

Lemma read_key_written k rest : key_fits k -> read_key (le_bytes 4 (blen k) ++ k ++ rest) = Some (k, rest).
Proof.
  unfold key_fits, kMaxRowBytes, blen. intros Hk. unfold read_key.
  rewrite read_le_app by (change (256 ^ Z.of_nat 4) with (2 ^ 32); lia). cbn [mbind option_bind].
  rewrite (proj2 (Z.ltb_ge _ (Z.of_nat (length k)))) by (unfold kMaxRowBytes; lia).
  rewrite (proj2 (Z.ltb_ge _ _)) by (unfold blen; rewrite length_app; lia).
  cbn [orb]. rewrite Nat2Z.id, take_app_length, drop_app_length. reflexivity.
Qed.

Definition entry_ok (indexOffset : Z) (e : BlockIndexEntry) : Prop :=
  64 <= e_offset e /\ 0 <= storedBytes e < 2 ^ 32 /\ 0 <= originalBytes e < 2 ^ 32 /\
  0 <= e_rows e < 2 ^ 32 /\ key_fits (firstKey e) /\ key_fits (lastKey e) /\
  e_offset e + 24 + storedBytes e <= indexOffset /\ indexOffset < 2 ^ 63.

Lemma read_entry_written off e rest :
  entry_ok off e -> read_entry off (encode_entry e ++ rest) = Ok (e, rest).
Proof.
  destruct e as [o st og rw fk lk]. unfold entry_ok, encode_entry, read_entry.
  cbn [e_offset storedBytes originalBytes e_rows firstKey lastKey].
  intros (Ho & Hst & Hog & Hrw & Hf & Hl & Hend & Hmax).
  assert (H32 : 256 ^ Z.of_nat 4 = 2 ^ 32) by reflexivity.
  assert (H64 : 256 ^ Z.of_nat 8 = 2 ^ 64) by reflexivity.
  rewrite <- !app_assoc.
  repeat (rewrite read_le_app by (rewrite ?H32, ?H64; lia); cbn [or_err mbind result_bind]).
  rewrite read_key_written by exact Hf. cbn [or_err mbind result_bind].
  rewrite read_key_written by exact Hl. cbn [or_err mbind result_bind].
  unfold kSstHeaderBytes, kBlockHeaderBytes, u64. rewrite Z.mod_small by lia.
  rewrite (proj2 (Z.ltb_ge o 64)), (proj2 (Z.ltb_ge off _)) by lia. reflexivity.
Qed.

Lemma read_entries_written off es : forall acc rest,
  Forall (entry_ok off) es ->
  read_entries off (length es) (flat_map encode_entry es ++ rest) acc = Ok (acc ++ es, rest).
Proof.
  induction es as [|e es IH]; intros acc rest Hok; cbn [length read_entries flat_map].
  - rewrite app_nil_r. reflexivity.
  - apply Forall_cons in Hok as [He Hok].
    rewrite <- app_assoc, read_entry_written by exact He. cbn [mbind result_bind].
    rewrite IH, <- app_assoc by exact Hok. reflexivity.
Qed.

Lemma block_image_length g :
  blen (block_image g) = 24 + blen (block_stored (block_plain g)).2.
Proof.
  unfold block_image. destruct (block_stored _) as [c d]. unfold blen. cbn [snd].
  rewrite length_app, block_header_length. lia.
Qed.

Lemma entries_ok groups : forall off,
  Forall group_ok groups -> Forall (fun r => key_fits (rowId r)) (concat groups) -> 64 <= off ->
  off + blen (sst_blocks groups) < 2 ^ 63 ->
  Forall (entry_ok (off + blen (sst_blocks groups))) (entries off groups).
Proof.
  induction groups as [|g groups IH]; intros off Hok Hkeys Hoff Hmax; cbn [entries]; constructor.
  - apply Forall_cons in Hok as [Hg _]. destruct (group_small g Hg) as (H1 & H2 & H3).
    cbn [concat] in Hkeys. apply Forall_app in Hkeys as [Hkg _]. rewrite Forall_forall in Hkg.
    assert (Hge : 24 + blen (block_stored (block_plain g)).2 <= blen (sst_blocks (g :: groups))).
    { rewrite <- block_image_length. unfold sst_blocks, blen. cbn [flat_map]. rewrite length_app. lia. }
    unfold entry_ok, block_entry. cbn [e_offset storedBytes originalBytes e_rows firstKey lastKey].
    destruct Hg as (Hne & _ & _).
    split_and!; try lia; apply Hkg.
    + destruct g; [congruence|left].
    + apply list_elem_of_In. destruct (exists_last Hne) as (l & x & ->).
      rewrite last_snoc. apply in_app_iff. right. left. reflexivity.
  - apply Forall_cons in Hok as [_ Hok]. cbn [concat] in Hkeys. apply Forall_app in Hkeys as [_ Hkeys].
    assert (Hsum : off + blen (sst_blocks (g :: groups)) =
                   off + blen (block_image g) + blen (sst_blocks groups)).
    { unfold sst_blocks, blen. cbn [flat_map]. rewrite length_app. lia. }
    rewrite Hsum in *. apply IH; auto. unfold blen in *. lia.
Qed.

(** What a published image needs to be readable: at most [kMaxBlocks] blocks,
    keys the index can hold, a file the stream offsets reach. *)
Definition readable (groups : list (list json)) : Prop :=
  Forall group_ok groups /\ Forall (fun r => key_fits (rowId r)) (concat groups) /\
  Z.of_nat (length groups) <= kMaxBlocks /\ 64 + blen (sst_blocks groups) < 2 ^ 63.

Lemma readable_rows groups : readable groups -> Z.of_nat (length (concat groups)) < 2 ^ 64.
Proof.
  intros (Hok & _ & Hn & _).
  assert (H5 : Z.of_nat (length (concat groups)) <= Z.of_nat (length groups) * 2 ^ 27).
  { clear Hn. induction Hok as [|g gs Hg _ IH]; [simpl; lia|].
    cbn [concat length]. rewrite length_app. destruct (group_small g Hg) as (_ & Hn & _). lia. }
  unfold kMaxBlocks in *. lia.
Qed.

Lemma parseMetadata_written target groups m :
  0 <= target < 2 ^ 32 -> readable groups ->
  parseMetadata (mkFile m (sst_image target groups)) =
  Ok (mkSstMetadata (blen (sst_image target groups)) m (Z.of_nat (length (concat groups)))
        (entries 64 groups)).
Proof.
  intros Ht Hrd. pose proof (readable_rows groups Hrd) as Hrows.
  destruct Hrd as (Hok & Hkeys & Hn & Hmax).
  unfold parseMetadata. cbn [f_data f_mtime]. unfold sst_image.
  set (hd := sst_header _ _ _ _). set (ix := index_bytes _).
  assert (Hhd : length hd = 64%nat) by apply sst_header_length.
  set (body := kSstIndexMagic ++ le_bytes 4 (Z.of_nat (length groups)) ++ flat_map encode_entry (entries 64 groups)).
  assert (Hix : ix = body ++ le_bytes 4 (crc32c body)).
  { unfold ix, index_bytes, body. rewrite entries_length. reflexivity. }
  assert (Hixlen : length ix = (length body + 4)%nat) by (rewrite Hix, length_app, le_bytes_length; lia).
  assert (Hblen : (12 <= length body)%nat).
  { unfold body. rewrite !length_app, le_bytes_length. change (length kSstIndexMagic) with 8%nat. lia. }
  rewrite (proj2 (Z.ltb_ge (blen (hd ++ sst_blocks groups ++ ix)) kSstHeaderBytes))
    by (unfold kSstHeaderBytes, blen; rewrite length_app; lia).
  cbn [negb guard_err mbind result_bind]. rewrite take_bytes_app by exact Hhd.
  cbn [or_err mbind result_bind].
  assert (Hp : parseSstHeader hd = Ok (mkInfo (Z.of_nat (length (concat groups)))
                 (64 + blen (sst_blocks groups)) (Z.of_nat (length groups))))
    by (apply parseSstHeader_written; unfold blen, kMaxBlocks in *; lia).
  rewrite Hp.
  cbn [mbind result_bind i_indexOffset i_blockCount i_rowCount].
  rewrite (proj2 (Z.ltb_ge (64 + _) kSstHeaderBytes)) by (unfold kSstHeaderBytes, blen; lia).
  rewrite (proj2 (Z.leb_gt (blen (hd ++ sst_blocks groups ++ ix)) _))
    by (unfold blen; rewrite !length_app; lia).
  cbn [orb negb guard_err mbind result_bind].
  replace (drop (Z.to_nat (64 + blen (sst_blocks groups))) (hd ++ sst_blocks groups ++ ix)) with ix.
  2:{ rewrite app_assoc, drop_app_ge by (rewrite length_app; unfold blen; lia).
      replace (Z.to_nat (64 + blen (sst_blocks groups)) - length (hd ++ sst_blocks groups))%nat with 0%nat
        by (rewrite length_app; unfold blen; lia). reflexivity. }
  rewrite (proj2 (Nat.ltb_ge _ _)) by lia.
  replace (take (length ix - 4) ix) with body
    by (rewrite Hix, take_app_le, take_ge by (rewrite length_app, le_bytes_length; lia); reflexivity).
  replace (drop (length ix - 4) ix) with (le_bytes 4 (crc32c body))
    by (rewrite Hix, drop_app_ge by (rewrite length_app, le_bytes_length; lia);
        rewrite length_app, le_bytes_length;
        replace (length body + 4 - 4 - length body)%nat with 0%nat by lia; reflexivity).
  replace (take 8 ix) with kSstIndexMagic by (rewrite Hix; reflexivity).
  rewrite bytes_eqb_refl. cbn [negb orb guard_err mbind result_bind].
  pose proof (crc32_range body : 0 <= crc32c body < 2 ^ 32).
  rewrite le_value_bytes by (change (256 ^ Z.of_nat 4) with (2 ^ 32); lia).
  rewrite Z.eqb_refl. cbn [guard_err mbind result_bind].
  replace (drop 8 body) with (le_bytes 4 (Z.of_nat (length groups)) ++ flat_map encode_entry (entries 64 groups) ++ [])
    by (unfold body; rewrite app_nil_r; reflexivity).
  unfold kMaxBlocks in *.
  rewrite read_le_app by (change (256 ^ Z.of_nat 4) with (2 ^ 32); lia).
  cbn [or_err mbind result_bind]. rewrite Z.eqb_refl, (proj2 (Z.ltb_ge _ _)) by lia.
  cbn [andb negb guard_err mbind result_bind].
  rewrite Nat2Z.id, <- (entries_length groups 64), read_entries_written
    by (apply entries_ok; auto; lia).
  reflexivity.
Qed.

(** *** Blocks read back *)

Context `{LZC : !Lz4Correct}.

Lemma parse_block_header_written c st o r k e :
  0 <= st < 2 ^ 32 -> 0 <= o < 2 ^ 32 -> 0 <= r < 2 ^ 32 -> 0 <= k < 2 ^ 32 ->
  parse_block_header (block_header c st o r k) e = Ok (mkHead (if c then 1 else 0) st o r k).
Proof.
  intros Hst Ho Hr Hk. unfold parse_block_header, block_header.
  assert (H32 : 256 ^ Z.of_nat 4 = 2 ^ 32) by reflexivity.
  rewrite read_le_app by (rewrite H32; unfold kBlockMagic; lia). cbn [or_err mbind result_bind].
  rewrite Z.eqb_refl, (proj2 (Nat.ltb_ge _ _))
    by (rewrite !length_app, !le_bytes_length; cbn [length]; lia).
  cbn [negb andb guard_err mbind result_bind].
  replace (head _) with (Some (byte_of (if c then 1 else 0))) by reflexivity. cbn [default].
  rewrite app_assoc, (drop_app_le _ _ 4), drop_ge by (cbn; lia). cbn [app].
  repeat (rewrite read_le_app by (rewrite H32; lia); cbn [or_err mbind result_bind]).
  replace (read_le 4 (le_bytes 4 k)) with (Some (k, @nil byte)).
  - cbn [or_err mbind result_bind]. destruct c; reflexivity.
  - symmetry. rewrite <- (app_nil_r (le_bytes 4 k)). apply read_le_app. rewrite H32. lia.
Qed.

Lemma block_stored_spec plain c d :
  block_stored plain = (c, d) ->
  if c then decompress_block d (blen plain) = Ok plain else d = plain.
Proof.
  unfold block_stored. destruct (andb _ _) eqn:E; intros [= <- <-]; [|reflexivity].
  apply andb_true_iff in E as [E1%Z.ltb_lt E2].
  destruct (0 <? lz4_compressBound (blen plain)) eqn:Eb; [|change (blen []) with 0 in E1; lia].
  apply Z.ltb_lt in Eb. unfold decompress_block. rewrite lz4_roundtrip; auto.
  - rewrite Z.eqb_refl. reflexivity.
  - intros Hnil. rewrite Hnil in E1. change (blen []) with 0 in E1. lia.
Qed.

Lemma stream_at_app pre rest : stream_at (pre ++ rest) (blen pre) = rest.
Proof.
  unfold stream_at, blen. rewrite (proj2 (Z.ltb_ge _ _)) by (rewrite length_app; lia).
  rewrite Nat2Z.id. apply drop_app_length.
Qed.

(** What both block readers do after the header. *)
Lemma readBlockPayload_written pre g post :
  group_ok g ->
  readBlockPayload (pre ++ block_image g ++ post) (block_entry (blen pre) g) =
  Ok (block_plain g, Z.of_nat (length g)).
Proof.
  intros Hg. destruct (group_small g Hg) as (Hp & Hn & Hs).
  pose proof (crc32_range (block_plain g) : 0 <= crc32c (block_plain g) < 2 ^ 32) as Hcrc.
  destruct Hg as (_ & _ & Hmax).
  unfold readBlockPayload, block_entry, block_image.
  cbn [e_offset storedBytes originalBytes e_rows]. rewrite stream_at_app.
  destruct (block_stored (block_plain g)) as [c d] eqn:Ed. cbn [snd] in *.
  rewrite <- app_assoc, take_bytes_app by apply block_header_length. cbn [or_err mbind result_bind].
  rewrite parse_block_header_written by lia.
  cbn [mbind result_bind bh_compression bh_stored bh_original bh_count bh_checksum].
  rewrite !Z.eqb_refl, (proj2 (Z.ltb_ge _ (blen (block_plain g)))) by (unfold kMaxRowBytes in *; lia).
  cbn [andb negb guard_err mbind result_bind].
  rewrite take_bytes_app by (unfold blen; lia). cbn [or_err mbind result_bind].
  pose proof (block_stored_spec _ _ _ Ed) as Hspec. destruct c.
  - change (1 =? 0) with false. change (1 =? 1) with true. cbn [andb].
    rewrite Hspec. cbn [mbind result_bind]. rewrite Z.eqb_refl. reflexivity.
  - subst d. rewrite !Z.eqb_refl. cbn [mbind result_bind]. rewrite Z.eqb_refl. reflexivity.
Qed.

Lemma readSequentialBlock_written pre g post indexOffset :
  group_ok g -> blen pre + blen (block_image g) <= indexOffset -> indexOffset < 2 ^ 63 ->
  readSequentialBlock (pre ++ block_image g ++ post) (blen pre) indexOffset =
  Ok (block_plain g, Z.of_nat (length g), blen pre + blen (block_image g)).
Proof.
  intros Hg Hend Hmax63. destruct (group_small g Hg) as (Hp & Hn & Hs).
  pose proof (crc32_range (block_plain g) : 0 <= crc32c (block_plain g) < 2 ^ 32) as Hcrc.
  destruct Hg as (_ & _ & Hmax). rewrite block_image_length in *.
  assert (0 <= blen pre) by (unfold blen; lia).
  unfold readSequentialBlock, block_image. rewrite stream_at_app.
  destruct (block_stored (block_plain g)) as [c d] eqn:Ed. cbn [snd] in *.
  unfold kBlockHeaderBytes, u64. rewrite (Z.mod_small (blen pre + 24)), (proj2 (Z.ltb_ge indexOffset _)) by lia.
  cbn [negb guard_err mbind result_bind].
  rewrite <- app_assoc, take_bytes_app by apply block_header_length. cbn [or_err mbind result_bind].
  rewrite parse_block_header_written by lia.
  cbn [mbind result_bind bh_compression bh_stored bh_original bh_count bh_checksum].
  rewrite (proj2 (Z.ltb_ge _ (blen (block_plain g)))) by (unfold kMaxRowBytes in *; lia).
  rewrite Z.mod_small, (proj2 (Z.ltb_ge indexOffset _)) by lia.
  cbn [andb negb guard_err mbind result_bind].
  rewrite take_bytes_app by (unfold blen; lia). cbn [or_err mbind result_bind].
  replace (blen pre + (24 + blen d)) with (blen pre + 24 + blen d) by lia.
  pose proof (block_stored_spec _ _ _ Ed) as Hspec. destruct c.
  - change (1 =? 0) with false. change (1 =? 1) with true. cbn [andb].
    rewrite Hspec. cbn [mbind result_bind]. rewrite Z.eqb_refl. reflexivity.
  - subst d. rewrite !Z.eqb_refl. cbn [andb mbind result_bind]. rewrite Z.eqb_refl. reflexivity.
Qed.

Lemma read_row_written r rest :
  row_fits r -> read_row (row_frame r ++ rest) = Some (to_msgpack r, rest).
Proof.
  unfold row_fits, kMaxRowBytes, blen. intros Hr. unfold read_row, row_frame.
  rewrite <- app_assoc, read_le_app
    by (change (256 ^ Z.of_nat 4) with (2 ^ 32); unfold blen; lia). cbn [mbind option_bind].
  rewrite (proj2 (Z.eqb_neq _ 0)), (proj2 (Z.ltb_ge kMaxRowBytes _)) by (unfold blen, kMaxRowBytes; lia).
  rewrite (proj2 (Z.ltb_ge _ _)) by (unfold blen; rewrite length_app; lia).
  cbn [orb]. unfold blen. rewrite Nat2Z.id, take_app_length, drop_app_length. reflexivity.
Qed.

(** The visitor's run over a list of rows, with its stop flag. *)
Fixpoint visit_rows {A S} (visitor : S -> A -> result (S * bool)) (rows : list A) (s : S)
  : result (S * bool) :=
  match rows with
  | [] => Ok (s, false)
  | r :: rest => '(s, go) ← visitor s r; if go : bool then visit_rows visitor rest s else Ok (s, true)
  end.

Lemma visit_rows_app {A S} (v : S -> A -> result (S * bool)) l1 l2 s :
  visit_rows v (l1 ++ l2) s =
  '(s, stopped) ← visit_rows v l1 s;
  if stopped : bool then Ok (s, true) else visit_rows v l2 s.
Proof.
  revert s. induction l1 as [|a l1 IH]; intros s; cbn [app visit_rows mbind result_bind]; [reflexivity|].
  destruct (v s a) as [[s' []]|e]; cbn [mbind result_bind]; [apply IH | reflexivity | reflexivity].
Qed.

Lemma visitBlockRows_written {S} (v : S -> bytes -> result (S * bool)) g : forall s,
  Forall row_fits g ->
  visitBlockRows (length g) (block_plain g) v s = visit_rows v (map to_msgpack g) s.
Proof.
  induction g as [|r g IH]; intros s Hg; cbn [length visitBlockRows map visit_rows]; [reflexivity|].
  apply Forall_cons in Hg as [Hr Hg]. unfold block_plain. cbn [flat_map].
  rewrite read_row_written by exact Hr.
  destruct (v s (to_msgpack r)) as [[s' []]|e]; cbn [mbind result_bind]; [apply IH, Hg|reflexivity|reflexivity].
Qed.

Lemma scan_blocks_written {S} (v : S -> MsgpackRowView -> result (S * bool)) groups : forall pre post s,
  Forall group_ok groups ->
  scan_blocks (pre ++ sst_blocks groups ++ post) (entries (blen pre) groups) v s =
  '(s, _) ← visit_rows (fun s row => v s (mkRowView row false)) (map to_msgpack (concat groups)) s; Ok s.
Proof.
  induction groups as [|g groups IH]; intros pre post s Hok; cbn [entries scan_blocks concat map]; [reflexivity|].
  apply Forall_cons in Hok as [Hg Hok].
  unfold sst_blocks. cbn [flat_map]. rewrite <- app_assoc, readBlockPayload_written by exact Hg.
  cbn [mbind result_bind]. rewrite Nat2Z.id, visitBlockRows_written by apply Hg.
  rewrite map_app, visit_rows_app.
  destruct (visit_rows _ (map to_msgpack g) s) as [[s' []]|e]; cbn [mbind result_bind]; try reflexivity.
  rewrite app_assoc. replace (blen pre + blen (block_image g)) with (blen (pre ++ block_image g))
    by (unfold blen; rewrite length_app; lia).
  apply IH, Hok.
Qed.

(** *** [writeSst] as a whole *)

Definition sst_coherent (s : store) : Prop :=
  coherent parseMetadata_opt md_fileSize md_mtime (st_fs s) (g_sstCache s).

Lemma clamp_target_range t : 4096 <= clamp_target t <= 16384.
Proof. unfold clamp_target. destruct (Z.ltb_spec t 4096), (Z.ltb_spec 16384 t); lia. Qed.

Lemma builder_init_building : building builder_init [] [].
Proof. split; cbn; auto; congruence. Qed.

(** A successful call publishes the image of some grouping of its rows under
    [p], drops the cache entries below [p], and touches no other file but its
    temporary. *)
Lemma writeSst_ok io s p rows target stats s' :
  writeSst io s p rows target = (Ok stats, s') ->
  exists groups, concat groups = rows /\ Forall group_ok groups /\
    st_fs s' !! p = Some (mkFile (sio_mtime io) (sst_image (clamp_target target) groups)) /\
    g_sstCache s' = erase_prefix p (g_sstCache s) /\
    g_bloomCache s' = erase_prefix p (g_bloomCache s) /\
    (forall q, q <> p -> q <> p ++ str ".writing" -> st_fs s' !! q = st_fs s !! q) /\
    stats = mkStats (Z.of_nat (length rows)) (Z.of_nat (length groups)) (ws_uncompressed stats)
              (blen (sst_image (clamp_target target) groups)).
Proof.
  unfold writeSst. destruct (sio_open io); cbn [negb]; [|discriminate].
  destruct (add_rows _ _ _ _) as [[ob|e] b0] eqn:Ea; [|discriminate].
  destruct (add_rows_building (sio_good io) (clamp_target target) rows builder_init [] [] ob)
    as (groups0 & open & Hb & Hrows);
    [pose proof (clamp_target_range target); unfold kMaxRowBytes; lia | apply builder_init_building |
     rewrite Ea; reflexivity |].
  cbn [concat app] in Hrows.
  assert (Hf : exists groups, building (flushBlock ob) groups [] /\ concat groups = rows).
  { destruct open as [|r o].
    - exists groups0. rewrite app_nil_r in Hrows. split; [|exact Hrows].
      unfold flushBlock. rewrite (bd_rows _ _ _ Hb). exact Hb.
    - exists (groups0 ++ [r :: o]). split; [apply flushBlock_building; [exact Hb|discriminate]|].
      rewrite concat_app. cbn [concat]. rewrite app_nil_r. exact Hrows. }
  destruct Hf as (groups & Hfl & Hcat). set (b := flushBlock ob) in *.
  destruct (negb (b_rows ob =? 0) && _); [discriminate|].
  destruct (sio_good io (length (b_index b))); cbn [negb]; [|discriminate].
  destruct (sio_good io (S (length (b_index b)))); cbn [negb]; [|discriminate].
  destruct (sio_sync io); cbn [negb]; [|discriminate].
  destruct (sio_rename io); cbn [negb]; [|discriminate].
  destruct (sio_dirsync io); cbn [negb]; [|discriminate].
  intros Heq. pose proof (f_equal fst Heq) as Hst. pose proof (f_equal snd Heq) as Hs.
  cbn [fst snd] in Hst, Hs. apply Ok_inj in Hst. subst s'. clear Heq.
  destruct Hfl as [H1 H2 H3 _ _ _ _ H8 H9 H10].
  assert (Hout : sst_header (clamp_target target) (ws_rows (b_stats b)) (blen (b_out b))
      (Z.of_nat (length (b_index b))) ++ drop 64 (b_out b ++ index_bytes (b_index b)) =
      sst_image (clamp_target target) groups).
  { unfold sst_image. rewrite H8, H3, entries_length, app_nil_r, H2, <- app_assoc.
    rewrite (drop_app_le (zeros 64)), drop_ge by (cbn; lia). cbn [app].
    replace (blen (zeros 64 ++ sst_blocks groups)) with (64 + blen (sst_blocks groups));
      [reflexivity|]. unfold blen. rewrite length_app. change (length (zeros 64)) with 64%nat. lia. }
  rewrite Hout in *. exists groups. cbn [st_fs g_sstCache g_bloomCache invalidateCaches with_fs].
  split_and!; auto.
  - apply lookup_insert_eq.
  - intros q Hq Hw. rewrite lookup_insert_ne, lookup_delete_ne, lookup_insert_ne, lookup_delete_ne
      by congruence. reflexivity.
  - subst stats. cbn [ws_uncompressed]. rewrite H8, H9, H10, Hcat, app_nil_r. f_equal.
    unfold sst_image, blen, kSstHeaderBytes. rewrite !length_app, sst_header_length, H3. lia.
Qed.

Lemma writeSst_coherent io s p rows target stats s' :
  sst_coherent s -> writeSst io s p rows target = (Ok stats, s') -> sst_coherent s'.
Proof.
  intros Hc Hw. destruct (writeSst_ok _ _ _ _ _ _ _ Hw) as (groups & _ & _ & _ & Hcache & _ & Hfs & _).
  unfold sst_coherent. rewrite Hcache. eapply coherent_replace; [exact Hc|].
  intros q Hq. apply Hfs; intros ->; [rewrite is_prefix_refl in Hq | rewrite is_prefix_app in Hq];
    discriminate.
Qed.

(** On a coherent store the cache is transparent. *)
Lemma loadMetadata_file s p f :
  sst_coherent s -> st_fs s !! p = Some f ->
  (loadMetadata s p).1 = parseMetadata f /\ st_fs (loadMetadata s p).2 = st_fs s /\
  sst_coherent (loadMetadata s p).2.
Proof.
  intros Hc Hf. unfold loadMetadata. rewrite Hf.
  destruct (Z.ltb_spec (blen (f_data f)) kSstHeaderBytes) as [Hlt|Hge].
  - cbn [fst snd]. split_and!; auto. unfold parseMetadata.
    rewrite (proj2 (Z.ltb_lt _ _)) by exact Hlt. reflexivity.
  - destruct (cached_load_coherent parseMetadata_opt md_fileSize md_mtime _ _ _ _ Hc Hf) as [H1 H2].
    destruct (cached_load _ _ _ _ _ _ _) as [v cache]. cbn [fst snd] in *. subst v.
    split_and!; [|reflexivity|exact H2].
    unfold parseMetadata_opt. destruct (parseMetadata f); reflexivity.
Qed.

(** Metadata of a published SST. *)
Lemma loadMetadata_written s p m target groups :
  sst_coherent s -> 0 <= target < 2 ^ 32 -> readable groups ->
  st_fs s !! p = Some (mkFile m (sst_image target groups)) ->
  (loadMetadata s p).1 = Ok (mkSstMetadata (blen (sst_image target groups)) m
     (Z.of_nat (length (concat groups))) (entries 64 groups)) /\
  st_fs (loadMetadata s p).2 = st_fs s /\ sst_coherent (loadMetadata s p).2.
Proof.
  intros Hc Ht Hrd Hf. destruct (loadMetadata_file s p _ Hc Hf) as (H1 & H2 & H3).
  rewrite H1, parseMetadata_written by assumption. auto.
Qed.

Lemma sst_image_blocks target groups :
  exists hd, length hd = 64%nat /\
    sst_image target groups = hd ++ sst_blocks groups ++ index_bytes (entries 64 groups).
Proof. eexists. split; [apply sst_header_length | reflexivity]. Qed.

Lemma scanSstViews_written {S} st p m target groups (v : S -> MsgpackRowView -> result (S * bool)) s :
  sst_coherent st -> 0 <= target < 2 ^ 32 -> readable groups ->
  st_fs st !! p = Some (mkFile m (sst_image target groups)) ->
  (scanSstViews st p v s).1 =
  ('(s, _) ← visit_rows (fun s row => v s (mkRowView row false)) (map to_msgpack (concat groups)) s; Ok s) /\
  sst_coherent (scanSstViews st p v s).2.
Proof.
  intros Hc Ht Hrd Hf. unfold scanSstViews.
  destruct (loadMetadata_written st p m target groups Hc Ht Hrd Hf) as (H1 & H2 & H3).
  destruct (loadMetadata st p) as [r st']. cbn [fst snd] in *. subst r.
  unfold read_file. rewrite H2, Hf. cbn [fmap option_fmap option_map f_data fst snd blocks].
  split; [|exact H3]. destruct (sst_image_blocks target groups) as (hd & Hhd & ->).
  replace 64 with (blen hd) by (unfold blen; rewrite Hhd; reflexivity).
  apply scan_blocks_written, Hrd.
Qed.

Lemma materialize_written r i : json_wf r -> materialize (mkRowView (to_msgpack r) i) = Ok (canon r).
Proof.
  intros Hr. unfold materialize, mkRowView.
  destruct (if i then _ else _) as [fields valid]. cbn [rv_data].
  rewrite bool_decide_eq_false_2 by (apply write_msgpack_nonempty, Hr).
  cbn [negb guard_err mbind result_bind]. rewrite from_to_msgpack by exact Hr. reflexivity.
Qed.

Lemma visit_rows_json {S} (v : S -> json -> S * bool) rows : forall s,
  Forall json_wf rows ->
  ('(s, _) ← visit_rows (fun s row => match materialize (mkRowView row false) with
                         | Ok j => Ok (v s j)
                         | Err e => Err ("invalid SST MessagePack row: " +:+ e)
                         end) (map to_msgpack rows) s; Ok s) =
  Ok (visit_all v (map canon rows) s).1.
Proof.
  induction rows as [|r rows IH]; intros s Hwf; cbn [map visit_rows visit_all]; [reflexivity|].
  apply Forall_cons in Hwf as [Hr Hwf]. rewrite materialize_written by exact Hr.
  cbn [mbind result_bind]. destruct (v s (canon r)) as [s' []]; cbn [mbind result_bind];
    [apply IH, Hwf | reflexivity].
Qed.

Lemma writeSst_readable io s p rows target stats s' :
  Forall (fun r => key_fits (rowId r)) rows ->
  ws_blocks stats <= kMaxBlocks -> ws_stored stats < 2 ^ 63 ->
  writeSst io s p rows target = (Ok stats, s') ->
  exists groups, concat groups = rows /\ readable groups /\
    st_fs s' !! p = Some (mkFile (sio_mtime io) (sst_image (clamp_target target) groups)) /\
    ws_rows stats = Z.of_nat (length rows) /\
    ws_stored stats = blen (sst_image (clamp_target target) groups).
Proof.
  intros Hkeys Hnb Hsz Hw.
  destruct (writeSst_ok _ _ _ _ _ _ _ Hw) as (groups & Hcat & Hok & Hf & _ & _ & _ & Hst).
  exists groups. split_and!; auto; try (rewrite Hst; reflexivity).
  rewrite Hst in Hnb, Hsz. cbn [ws_blocks ws_stored] in Hnb, Hsz.
  unfold readable. rewrite Hcat. split_and!; auto.
  destruct (sst_image_blocks (clamp_target target) groups) as (hd & Hhd & Himg).
  rewrite Himg in Hsz. unfold blen in *. rewrite !length_app in Hsz. lia.
Qed.

(** C34: An SST returns what was written: after a successful [writeSst], with
    whatever the metadata cache held before, any LZ4 that decompresses what it
    compressed, and any block size, [scanSst] succeeds and hands the visitor
    exactly the written rows in order (each in the decoder's canonical number
    representation) until the visitor stops; and the statistics count the rows
    and the bytes of the file.  Bounds: keys up to 64 MiB, at most 16 Mi
    blocks, a file below 2^63 bytes. *)
Theorem sst_write_scan {S} io s p rows target stats s' (visitor : S -> json -> S * bool) v0 :
  sst_coherent s -> Forall json_wf rows -> Forall (fun r => key_fits (rowId r)) rows ->
  ws_blocks stats <= kMaxBlocks -> ws_stored stats < 2 ^ 63 ->
  writeSst io s p rows target = (Ok stats, s') ->
  (scanSst s' p visitor v0).1 = Ok (visit_all visitor (map canon rows) v0).1 /\
  sst_coherent (scanSst s' p visitor v0).2 /\
  ws_rows stats = Z.of_nat (length rows) /\ file_size s' p = Some (ws_stored stats).
Proof.
  intros Hc Hwf Hkeys Hnb Hsz Hw.
  destruct (writeSst_readable _ _ _ _ _ _ _ Hkeys Hnb Hsz Hw) as (groups & Hcat & Hrd & Hf & Hr & Hst).
  pose proof (writeSst_coherent _ _ _ _ _ _ _ Hc Hw) as Hc'.
  pose proof (clamp_target_range target).
  unfold scanSst. edestruct (scanSstViews_written (S := S)) as [H1 H2];
    [exact Hc' | split; [|] | exact Hrd | exact Hf |]; try lia.
  rewrite H1, Hcat, visit_rows_json by exact Hwf. split_and!; auto.
  unfold file_size. rewrite Hf, Hst. reflexivity.
Qed.

End Sst.

(** ** Concrete environments for the witnesses

    A run-length stand-in for LZ4 and a text form for integers. *)

Definition rle_width (n : Z) : nat := Z.to_nat (Z.log2 n / 8 + 1).

#[local] Instance rle_lz4 : Lz4 := {
  lz4_compressBound n := n + 8;
  lz4_compress src bound :=
    match src with
    | [] => []
    | b :: _ => if bool_decide (src = replicate (length src) b)
                then b :: le_bytes (rle_width (blen src)) (blen src) else []
    end;
  lz4_decompress src cap :=
    match src with
    | [] => None
    | b :: r => if le_value r <=? cap then Some (replicate (Z.to_nat (le_value r)) b) else None
    end }.

#[local] Instance rle_lz4_correct : Lz4Correct.
Proof.
  split. intros src bound Hb Hne. unfold lz4_compress, lz4_decompress, rle_lz4 in *.
  destruct src as [|b r]; [congruence|]. set (src := b :: r) in *.
  destruct (bool_decide_reflect (src = replicate (length src) b)) as [Hr|]; [|congruence].
  assert (Hn : 0 < blen src) by (unfold blen, src; cbn [length]; lia).
  rewrite le_value_bytes.
  - rewrite (proj2 (Z.leb_le _ _)) by lia. unfold blen at 1. rewrite Nat2Z.id, <- Hr. reflexivity.
  - split; [lia|]. unfold rle_width. pose proof (Z.log2_nonneg (blen src)).
    rewrite Z2Nat.id by (pose proof (Z.div_pos (Z.log2 (blen src)) 8); lia).
    change 256 with (2 ^ 8). rewrite <- Z.pow_mul_r
      by (pose proof (Z.div_pos (Z.log2 (blen src)) 8); lia).
    apply Z.log2_lt_pow2; [exact Hn|]. pose proof (Z.div_mod (Z.log2 (blen src)) 8).
    pose proof (Z.mod_pos_bound (Z.log2 (blen src)) 8). lia.
Qed.

#[local] Instance digits_text : JsonText := {
  json_dump v := match v with
                 | JInt z | JUInt z => Some (byte_of (if z <? 0 then 45 else 43) :: le_bytes 8 (Z.abs z))
                 | _ => None
                 end;
  json_parse _ := None }.

Definition sst_io_good : sst_io := mkSstIo true (fun _ => true) true true true 7.

Definition sample_rows : list json :=
  [JObject [(str "id", JString (str "a")); (str "v", JInt 1)];
   JObject [(str "id", JString (str "b")); (str "v", JInt 2)]].

Lemma sample_rows_wf : Forall json_wf sample_rows.
Proof.
  repeat constructor; cbn; unfold I64_MIN, I64_MAX; try lia; try reflexivity.
Qed.

Definition empty_store : store := mkStore ∅ ∅ ∅.

Lemma empty_store_coherent : sst_coherent empty_store.
Proof. intros p v f Hc. cbn [g_sstCache empty_store] in Hc. rewrite lookup_empty in Hc. discriminate. Qed.

Definition sample_written : result SstWriteStats * store :=
  writeSst sst_io_good empty_store (str "t.sst") sample_rows 4096.

Lemma sst_write_scan_witness :
  exists stats, sample_written.1 = Ok stats /\
  (scanSst sample_written.2 (str "t.sst") (fun l j => (l ++ [j], true)) []).1 =
  Ok (map canon sample_rows).
Proof.
  destruct (sample_written.1) as [stats|] eqn:E; [|vm_compute in E; discriminate].
  exists stats. split; [reflexivity|].
  destruct (sst_write_scan sst_io_good empty_store (str "t.sst") sample_rows 4096 stats
              sample_written.2 (fun l j => (l ++ [j], true)) []) as [H _].
  - apply empty_store_coherent.
  - apply sample_rows_wf.
  - repeat constructor; vm_compute; discriminate.
  - vm_compute in E. injection E as <-. vm_compute. discriminate.
  - vm_compute in E. injection E as <-. vm_compute. reflexivity.
  - rewrite <- E. apply surjective_pairing.
  - rewrite H. vm_compute. reflexivity.
Defined.
