(* ===== verification/SstCursor.v ===== *)
(** * SST cursors and verification (storage_format_v2.cpp, [SstCursor])

    A cursor reads an SST sequentially, one block in memory at a time, and
    checks on the way that ids are present and sorted and that the counts of
    the header hold; files without the magic are read as the legacy format, one
    JSON text per line. *)

From S2P Require Import Prelude FileSys Json Msgpack RowView Checksum Store Sst.
From stdpp Require Import base list gmap strings sorting.
From Stdlib Require Import ZArith Lia.

Open Scope Z_scope.

Section SstCursor.
Context `{JT : JsonText} `{LZ : Lz4}.

(** [SstCursor::Impl]; [c_pos] is the stream position in the file [c_data],
    [c_cursor] the unread part of the current block. *)
Record cursor := mkCursor {
  c_data : bytes; c_pos : Z; c_binary : bool; c_indexFields : bool;
  c_rowCount : Z; c_rowsRead : Z; c_indexOffset : Z; c_blockCount : Z; c_blocksRead : Z;
  c_rowsInBlock : Z; c_rowIndex : Z; c_cursor : bytes;
  c_currentId : bytes; c_previousId : bytes; c_current : MsgpackRowView; c_valid : bool }.

Definition loadBlock (c : cursor) : result cursor :=
  '(block, rows, pos) ← readSequentialBlock (c_data c) (c_pos c) (c_indexOffset c);
  Ok (mkCursor (c_data c) pos (c_binary c) (c_indexFields c) (c_rowCount c) (c_rowsRead c)
        (c_indexOffset c) (c_blockCount c) (u32 (c_blocksRead c + 1)) rows 0 block
        (c_currentId c) (c_previousId c) (c_current c) (c_valid c)).

(** [while (rowIndex >= rowsInBlock)]: [None] when the end of the data was
    reached.  Every iteration but the last loads a block. *)
Fixpoint next_block (fuel : nat) (c : cursor) : result (option cursor) :=
  match fuel with
  | O => Err "out of fuel"
  | S fuel' =>
      if c_rowIndex c <? c_rowsInBlock c then Ok (Some c)
      else if c_blockCount c <=? c_blocksRead c then
        if negb (c_rowsRead c =? c_rowCount c) || negb (c_pos c =? c_indexOffset c)
        then Err "SST row count or block-index offset mismatch"
        else Ok None
      else c ← loadBlock c; next_block fuel' c
  end.

(** Enough for the loop: it stops after [blockCount] blocks. *)
Definition block_fuel (c : cursor) : nat := S (S (Z.to_nat (c_blockCount c - c_blocksRead c))).

(** The legacy loop: skip empty lines, re-encode the first other one.  The
    loop in the code has no bound; here each round takes at least the newline
    of its line, and lack of fuel is an error of its own. *)
Fixpoint next_line (fuel : nat) (cur : bytes) : result (option (bytes * bytes)) :=
  match fuel with
  | O => Err "out of fuel"
  | S fuel' =>
      match getline cur with
      | None => Ok None
      | Some ([], rest) => next_line fuel' rest
      | Some (line, rest) =>
          match json_parse line with
          | None => Err "invalid legacy SST row: "
          | Some j => Ok (Some (to_msgpack j, rest))
          end
      end
  end.

(** The common end of [advance]: the id of [row], which becomes current. *)
Definition check_id (c : cursor) (row : MsgpackRowView) : result cursor :=
  rawId ← or_err (field row (str "id")) "SST cursor row has no id";
  currentId ← or_err (id_text rawId) "type_error.316";
  _ ← guard_err (negb (bytes_eqb currentId [] ||
                       (negb (bytes_eqb (c_previousId c) []) && bytes_ltb currentId (c_previousId c))))
        "SST cursor ids are empty or unsorted";
  Ok (mkCursor (c_data c) (c_pos c) (c_binary c) (c_indexFields c) (c_rowCount c) (c_rowsRead c)
        (c_indexOffset c) (c_blockCount c) (c_blocksRead c) (c_rowsInBlock c) (c_rowIndex c)
        (c_cursor c) currentId currentId row true).

Definition invalidate (c : cursor) : cursor :=
  mkCursor (c_data c) (c_pos c) (c_binary c) (c_indexFields c) (c_rowCount c) (c_rowsRead c)
    (c_indexOffset c) (c_blockCount c) (c_blocksRead c) (c_rowsInBlock c) (c_rowIndex c)
    (c_cursor c) (c_currentId c) (c_previousId c) (c_current c) false.

Definition advance (c : cursor) : result cursor :=
  if negb (c_binary c) then
    line ← next_line (S (length (c_data c))) (stream_at (c_data c) (c_pos c));
    match line with
    | None => Ok (invalidate c)
    | Some (packed, rest) =>
        check_id (mkCursor (c_data c) (blen (c_data c) - blen rest) (c_binary c) (c_indexFields c)
                    (c_rowCount c) (c_rowsRead c) (c_indexOffset c) (c_blockCount c) (c_blocksRead c)
                    (c_rowsInBlock c) (c_rowIndex c) (c_cursor c) (c_currentId c) (c_previousId c)
                    (c_current c) (c_valid c))
          (mkRowView packed (c_indexFields c))
    end
  else
    next ← next_block (block_fuel c) c;
    match next with
    | None => Ok (invalidate c)
    | Some c =>
        '(row, rest) ← or_err (read_row (c_cursor c)) "invalid SST cursor row";
        check_id (mkCursor (c_data c) (c_pos c) (c_binary c) (c_indexFields c)
                    (c_rowCount c) (c_rowsRead c + 1) (c_indexOffset c) (c_blockCount c) (c_blocksRead c)
                    (c_rowsInBlock c) (u32 (c_rowIndex c + 1)) rest (c_currentId c) (c_previousId c)
                    (c_current c) (c_valid c))
          (mkRowView row (c_indexFields c))
    end.

Definition cursor_open (data : option bytes) (indexFields : bool) : result cursor :=
  data ← or_err data "cannot open SST cursor";
  let start binary pos info :=
    mkCursor data pos binary indexFields (i_rowCount info) 0 (i_indexOffset info) (i_blockCount info)
      0 0 0 [] [] [] (mkRowView [] false) false in
  match take_bytes 64 data with
  | Some (header, _) =>
      if bytes_eqb (take 8 header) kSstMagic then
        info ← parseSstHeader header;
        advance (start true 64 info)
      else advance (start false 0 (mkInfo 0 0 0))
  | None => advance (start false 0 (mkInfo 0 0 0))
  end.

Definition cursor_next (c : cursor) : result cursor := advance c.
Definition cursor_id (c : cursor) : bytes := if c_valid c then c_currentId c else [].

(** ** [verifySst] *)

(** [while (cursor->valid()) { materialize; next }]. *)
Definition verify_step (c : cursor) : cursor + result unit :=
  if negb (c_valid c) then inr (Ok tt)
  else match materialize (c_current c) with
       | Err e => inr (Err ("invalid SST row: " +:+ e))
       | Ok _ => match cursor_next c with
                 | Ok c => inl c
                 | Err e => inr (Err e)
                 end
       end.

Definition verify_rows (c : cursor) : result unit :=
  match while_pow2 64 verify_step c with
  | inr r => r
  | inl _ => Err "out of fuel"
  end.

(** The 64 KiB read loop over the block index: the checksum so far, the first
    12 bytes, and the rest of the stream. *)
Fixpoint index_chunks (fuel : nat) (remaining : nat) (cur : bytes)
    (crc : IncrementalCRC32) (prefix : bytes) : result (IncrementalCRC32 * bytes * bytes) :=
  match fuel with
  | O => Err "out of fuel"
  | S fuel' =>
      if (remaining =? 0)%nat then Ok (crc, prefix, cur)
      else
        let amount := Nat.min remaining (Z.to_nat 65536) in
        '(buffer, cur) ← or_err (take_bytes amount cur) "truncated SST block index";
        let prefix := if (length prefix <? 12)%nat
                      then prefix ++ take (Nat.min amount (12 - length prefix)) buffer else prefix in
        index_chunks fuel' (remaining - amount) cur (crc_update crc buffer) prefix
  end.

Definition verify_index (data : bytes) : result unit :=
  '(header, _) ← or_err (take_bytes 64 data) "";
  info ← parseSstHeader header;
  _ ← guard_err (negb (blen data <? u64 (i_indexOffset info + 8 + 8))) "invalid SST block-index size";
  let checksumBytes := Z.to_nat (blen data - i_indexOffset info - 4) in
  '(crc, prefix, cur) ← index_chunks (S checksumBytes) checksumBytes
                          (stream_at data (i_indexOffset info)) crc_new [];
  '(stored, _) ← or_err (take_bytes 4 cur) "missing SST block-index checksum";
  _ ← guard_err (negb (length prefix <? 12)%nat && bytes_eqb (take 8 prefix) kSstIndexMagic &&
                 (le_value (take 4 (drop 8 prefix)) =? i_blockCount info) &&
                 (crc_finalize crc =? le_value stored))
        "SST block-index checksum or count mismatch";
  Ok tt.

Definition verifySst (st : store) (p : path) : result unit :=
  let data := read_file (st_fs st) p in
  c ← cursor_open data false;
  _ ← verify_rows c;
  if negb (isBinarySst st p) then Ok tt
  else data ← or_err data ""; verify_index data.

(** ** Termination on arbitrary files *)

(** Invariant of any opened cursor, and what is left to read. *)
Definition cursor_inv (c : cursor) : Prop :=
  0 <= c_blocksRead c /\ c_blockCount c <= kMaxBlocks /\
  (blen (c_cursor c) <= kMaxRowBytes * 4) /\ blen (c_data c) < 2 ^ 63.

Definition left_to_read (c : cursor) : Z :=
  if c_binary c
  then blen (c_cursor c) + Z.max 0 (c_blockCount c - c_blocksRead c) * (kMaxRowBytes * 4)
  else blen (stream_at (c_data c) (c_pos c)).

Lemma readSequentialBlock_bound data pos off plain n pos' :
  readSequentialBlock data pos off = Ok (plain, n, pos') -> blen plain <= kMaxRowBytes * 4.
Proof.
  unfold readSequentialBlock. intros Hr. ok_inv. injection Hr as <- _ _.
  apply andb_true_iff in E2 as [Hmax _]. apply negb_true_iff, Z.ltb_ge in Hmax.
  apply take_bytes_Some in E3 as [_ Hlen]. unfold kMaxRowBytes in *.
  destruct (_ && _) eqn:Ec.
  - apply andb_true_iff in Ec as [_ Ec%Z.eqb_eq]. apply Ok_inj in E4. subst. unfold blen. lia.
  - destruct (_ =? 1); [|discriminate]. unfold decompress_block in E4.
    destruct (lz4_decompress _ _) as [pl|]; [|discriminate].
    destruct (Z.eqb_spec (blen pl) (bh_original x0)) as [Eq|]; [|discriminate].
    apply Ok_inj in E4. subst. lia.
Qed.

Lemma loadBlock_inv c c' :
  cursor_inv c -> c_binary c = true -> c_blocksRead c < c_blockCount c -> loadBlock c = Ok c' ->
  cursor_inv c' /\ c_binary c' = true /\ left_to_read c' <= left_to_read c /\
  c_blockCount c' = c_blockCount c /\ c_blocksRead c' = c_blocksRead c + 1.
Proof.
  intros (H1 & H2 & H3 & H4) Hbin Hlt Hl. unfold loadBlock in Hl. ok_inv. subst c'.
  apply readSequentialBlock_bound in E.
  unfold cursor_inv, left_to_read. cbn. rewrite Hbin. unfold u32, kMaxBlocks, kMaxRowBytes in *.
  rewrite Z.mod_small by lia. assert (0 <= blen (c_cursor c)) by (unfold blen; lia). split_and!; auto; lia.
Qed.

Lemma next_block_inv fuel : forall c,
  cursor_inv c -> c_binary c = true ->
  (Z.to_nat (c_blockCount c - c_blocksRead c) < fuel)%nat ->
  match next_block fuel c with
  | Ok (Some c') => cursor_inv c' /\ c_binary c' = true /\ left_to_read c' <= left_to_read c
  | Ok None => True
  | Err e => e <> "out of fuel"%string
  end.
Proof.
  induction fuel as [|fuel IH]; intros c Hc Hbin Hf; [lia|]. cbn [next_block].
  destruct (_ <? _); [split_and!; auto; lia|].
  destruct (Z.leb_spec (c_blockCount c) (c_blocksRead c)) as [Hle|Hgt].
  - destruct (_ || _); [discriminate|exact I].
  - destruct (loadBlock c) as [c1|e] eqn:El; cbn [mbind result_bind].
    + destruct (loadBlock_inv c c1 Hc Hbin Hgt El) as (H1 & H2 & H3 & H4 & H5).
      specialize (IH c1 H1 H2 ltac:(lia)). destruct (next_block fuel c1) as [[c2|]|]; auto.
      destruct IH as (? & ? & ?). split_and!; auto; lia.
    + unfold loadBlock, readSequentialBlock, parse_block_header, decompress_block, guard_err, or_err in El.
      repeat (case_match; cbn [mbind result_bind] in El; try congruence).
Qed.

Lemma read_row_shrinks cur row rest : read_row cur = Some (row, rest) -> blen rest < blen cur.
Proof.
  unfold read_row. destruct (read_le 4 cur) as [[size cur']|] eqn:E; cbn [mbind option_bind]; [|discriminate].
  apply read_le_Some in E as (h & -> & Hh & _).
  destruct (_ || _); [discriminate|]. intros [= _ <-]. unfold blen.
  rewrite length_app, length_drop. lia.
Qed.

Lemma check_id_inv c row c' :
  check_id c row = Ok c' ->
  c_data c' = c_data c /\ c_pos c' = c_pos c /\ c_binary c' = c_binary c /\
  c_blockCount c' = c_blockCount c /\ c_blocksRead c' = c_blocksRead c /\ c_cursor c' = c_cursor c.
Proof. unfold check_id. intros Hc. ok_inv. subst c'. auto 10. Qed.

Lemma check_id_left c row c' :
  check_id c row = Ok c' -> cursor_inv c -> cursor_inv c' /\ left_to_read c' = left_to_read c.
Proof.
  intros Hc Hi. apply check_id_inv in Hc as (H1 & H2 & H3 & H4 & H5 & H6).
  unfold cursor_inv, left_to_read in *. rewrite H1, H2, H3, H4, H5, H6. auto.
Qed.

Lemma next_line_shrinks fuel : forall cur packed rest,
  next_line fuel cur = Ok (Some (packed, rest)) -> (length rest < length cur)%nat.
Proof.
  induction fuel as [|fuel IH]; intros cur packed rest; cbn [next_line]; [discriminate|].
  destruct (getline cur) as [[line r]|] eqn:E; [|discriminate].
  apply getline_shrinks in E. destruct line as [|b l].
  - intros Hn. apply IH in Hn. lia.
  - destruct (json_parse _); [|discriminate]. intros [= _ <-]. exact E.
Qed.

(** The line loop never stops for lack of fuel. *)
Lemma next_line_fuel n : forall cur, (length cur < n)%nat -> next_line n cur <> Err "out of fuel".
Proof.
  induction n as [|n IH]; intros cur Hn; [lia|]. cbn [next_line].
  destruct (getline cur) as [[[|b l] r]|] eqn:E; [|destruct (json_parse _); discriminate|discriminate].
  apply getline_shrinks in E. apply IH. lia.
Qed.

Lemma stream_at_length data pos : 0 <= pos -> blen (stream_at data pos) = Z.max 0 (blen data - pos).
Proof.
  intros Hp. unfold stream_at, blen. destruct (Z.ltb_spec (Z.of_nat (length data)) pos); cbn [length];
    rewrite ?length_drop; lia.
Qed.

Lemma stream_at_le data pos : blen (stream_at data pos) <= blen data.
Proof. unfold stream_at, blen. destruct (_ <? _); cbn [length]; rewrite ?length_drop; lia. Qed.

(** Every successful step of a valid cursor leaves strictly less to read. *)
Lemma advance_decreases c c' :
  cursor_inv c -> advance c = Ok c' -> c_valid c' = true ->
  cursor_inv c' /\ left_to_read c' < left_to_read c.
Proof.
  intros Hinv Ha Hv. unfold advance in Ha. destruct (c_binary c) eqn:Hbin; cbn [negb] in Ha.
  - pose proof (next_block_inv (block_fuel c) c Hinv Hbin ltac:(unfold block_fuel; lia)) as Hn.
    destruct (next_block _ c) as [[c1|]|] eqn:En; cbn [mbind result_bind] in Ha; [| |discriminate].
    + destruct Hn as (Hi1 & Hb1 & Hl1). ok_inv. apply read_row_shrinks in E.
      assert (Hi2 : cursor_inv (mkCursor (c_data c1) (c_pos c1) (c_binary c1) (c_indexFields c1)
                    (c_rowCount c1) (c_rowsRead c1 + 1) (c_indexOffset c1) (c_blockCount c1) (c_blocksRead c1)
                    (c_rowsInBlock c1) (u32 (c_rowIndex c1 + 1)) l0 (c_currentId c1) (c_previousId c1)
                    (c_current c1) (c_valid c1))).
      { destruct Hi1 as (? & ? & ? & ?). unfold cursor_inv. cbn. split_and!; auto; lia. }
      apply check_id_left in Ha as [Hi3 Hl3]; [|exact Hi2]. split; [exact Hi3|].
      rewrite Hl3. unfold left_to_read in *. cbn. rewrite Hb1 in *. rewrite Hbin in *. lia.
    + apply Ok_inj in Ha. subst c'. discriminate.
  - ok_inv. destruct x as [[packed rest]|]; [|apply Ok_inj in Ha; subst c'; discriminate].
    apply next_line_shrinks in E.
    apply check_id_left in Ha as [Hi3 Hl3]; [|exact Hinv]. split; [exact Hi3|].
    rewrite Hl3. unfold left_to_read. cbn. rewrite Hbin.
    pose proof (stream_at_le (c_data c) (c_pos c)).
    rewrite stream_at_length; unfold blen in *; lia.
Qed.

Lemma parseSstHeader_blocks h info : parseSstHeader h = Ok info -> i_blockCount info <= kMaxBlocks.
Proof.
  unfold parseSstHeader. intros Hp. ok_inv. subst info. cbn.
  apply andb_true_iff in E9 as [_ E9]. apply negb_true_iff, Z.ltb_ge in E9. exact E9.
Qed.

Lemma cursor_open_inv data i c :
  blen data < 2 ^ 63 -> cursor_open (Some data) i = Ok c -> c_valid c = true ->
  cursor_inv c /\ left_to_read c < 2 ^ 63.
Proof.
  intros Hlen Ho Hv. unfold cursor_open in Ho. cbn [or_err mbind result_bind] in Ho.
  assert (H0 : 0 <= blen data) by (unfold blen; lia).
  assert (Hstart : forall bin pos info, i_blockCount info <= kMaxBlocks -> (bin = false -> pos = 0) ->
    let c0 := mkCursor data pos bin i (i_rowCount info) 0 (i_indexOffset info) (i_blockCount info)
      0 0 0 [] [] [] (mkRowView [] false) false in
    cursor_inv c0 /\ left_to_read c0 < 2 ^ 63).
  { intros bin pos info Hb Hpos. unfold cursor_inv, left_to_read, kMaxBlocks, kMaxRowBytes in *. cbn.
    change (blen []) with 0. split; [split_and!; lia|].
    destruct bin; [lia|]. rewrite (Hpos eq_refl). pose proof (stream_at_le data 0). lia. }
  assert (Hgo : forall bin pos info, i_blockCount info <= kMaxBlocks -> (bin = false -> pos = 0) ->
    advance (mkCursor data pos bin i (i_rowCount info) 0 (i_indexOffset info) (i_blockCount info)
      0 0 0 [] [] [] (mkRowView [] false) false) = Ok c -> cursor_inv c /\ left_to_read c < 2 ^ 63).
  { intros bin pos info Hb Hpos Ha. destruct (Hstart bin pos info Hb Hpos) as [Hi Hl].
    destruct (advance_decreases _ _ Hi Ha Hv). split; [assumption|lia]. }
  assert (Hz : i_blockCount (mkInfo 0 0 0) <= kMaxBlocks) by (vm_compute; discriminate).
  destruct (take_bytes 64 data) as [[header rest]|]; [|exact (Hgo false 0 (mkInfo 0 0 0) Hz (fun _ => eq_refl) Ho)].
  destruct (bytes_eqb _ _); [|exact (Hgo false 0 (mkInfo 0 0 0) Hz (fun _ => eq_refl) Ho)].
  destruct (parseSstHeader header) as [info|] eqn:Ep; cbn [mbind result_bind] in Ho; [|discriminate].
  apply (Hgo true 64 info); [eapply parseSstHeader_blocks; eauto | discriminate | exact Ho].
Qed.

(** Results that are not for lack of fuel. *)
Definition ends {A} (r : result A) : Prop := r <> Err "out of fuel".

Lemma ends_bind_ok {A B} (r : result A) (f : A -> result B) :
  ends r -> (forall x, r = Ok x -> ends (f x)) -> ends (r ≫= f).
Proof. unfold ends. destruct r; cbn [mbind result_bind]; [auto|congruence]. Qed.

Lemma ends_bind {A B} (r : result A) (f : A -> result B) : ends r -> (forall x, ends (f x)) -> ends (r ≫= f).
Proof. intros Hr Hf. apply ends_bind_ok; auto. Qed.

Lemma ends_or_err {A} (o : option A) e : e <> "out of fuel"%string -> ends (or_err o e).
Proof. unfold ends. destruct o; cbn; congruence. Qed.

Lemma ends_guard b e : e <> "out of fuel"%string -> ends (guard_err b e).
Proof. unfold ends, guard_err. destruct b; congruence. Qed.

Lemma ends_ok {A} (x : A) : ends (Ok x).
Proof. discriminate. Qed.

Ltac ends :=
  repeat first [apply ends_ok | apply ends_bind; [|intros ?] | apply ends_or_err; discriminate
               | apply ends_guard; discriminate | case_match].

Lemma parseSstHeader_ends h : ends (parseSstHeader h).
Proof. unfold parseSstHeader. ends. Qed.

Lemma check_id_fuel c row : ends (check_id c row).
Proof. unfold check_id. ends. Qed.

Lemma advance_fuel c : cursor_inv c -> ends (advance c).
Proof.
  intros Hinv. unfold advance. destruct (c_binary c) eqn:Hbin; cbn [negb].
  - pose proof (next_block_inv (block_fuel c) c Hinv Hbin ltac:(unfold block_fuel; lia)) as Hn.
    destruct (next_block _ c) as [[c1|]|e]; cbn [mbind result_bind]; [|discriminate|congruence].
    destruct (read_row _) as [[row rest]|]; cbn [or_err mbind result_bind]; [apply check_id_fuel|discriminate].
  - pose proof (next_line_fuel (S (length (c_data c))) (stream_at (c_data c) (c_pos c))) as Hl.
    pose proof (stream_at_le (c_data c) (c_pos c)) as Hs. unfold blen in Hs. specialize (Hl ltac:(lia)).
    destruct (next_line _ _) as [[[packed rest]|]|]; cbn [mbind result_bind]; [apply check_id_fuel|discriminate|congruence].
Qed.

(** The calls of [next] on a cursor that is valid. *)
Definition cursor_moves (c c' : cursor) : Prop := c_valid c = true /\ cursor_next c = Ok c'.

Lemma cursor_moves_inv c c' :
  (c_valid c = true -> cursor_inv c) -> rtc cursor_moves c c' -> c_valid c' = true -> cursor_inv c'.
Proof.
  intros Hc Hr. revert Hc. induction Hr as [c|c1 c2 c3 [Hv Ha] _ IH]; [auto|].
  intros Hc. apply IH. intros Hv2. eapply advance_decreases; eauto.
Qed.

Lemma left_nonneg c : 0 <= left_to_read c.
Proof. unfold left_to_read, kMaxRowBytes, blen. destruct (c_binary c); lia. Qed.

(** The loop of [verifySst] over a cursor. *)
Lemma verify_loop c :
  (c_valid c = true -> cursor_inv c /\ left_to_read c < 2 ^ 63) ->
  exists r, while_pow2 64 verify_step c = inr r /\ r <> Err "out of fuel".
Proof.
  intros Hc.
  apply (while_pow2_measure verify_step (fun c => c_valid c = true -> cursor_inv c)
           (fun r => r <> Err "out of fuel")
           (fun c => if c_valid c then S (Z.to_nat (left_to_read c)) else 0%nat)).
  - intros c1 c2 Hinv. unfold verify_step, cursor_next.
    destruct (c_valid c1) eqn:Hv; cbn [negb]; [|discriminate].
    destruct (materialize _); [|discriminate].
    destruct (advance c1) as [c3|] eqn:Ea; [|discriminate]. intros [= <-].
    destruct (c_valid c3) eqn:Hv3; [|split; [discriminate|lia]].
    destruct (advance_decreases c1 c3 (Hinv eq_refl) Ea Hv3) as [Hi Hl].
    pose proof (left_nonneg c3). split; [auto|lia].
  - intros c1 r Hinv. unfold verify_step, cursor_next.
    destruct (c_valid c1); cbn [negb]; [|intros [= <-]; discriminate].
    destruct (materialize _) as [|e]; [|intros [= <-]; discriminate].
    pose proof (advance_fuel c1 (Hinv eq_refl)) as Hf. unfold ends in Hf.
    destruct (advance c1) as [|e]; [discriminate|]. intros [= <-]. congruence.
  - intros Hv. apply Hc, Hv.
  - destruct (c_valid c) eqn:Hv; [|vm_compute; reflexivity].
    destruct (Hc eq_refl). change (Z.of_nat 64) with 64. lia.
Qed.

Lemma verify_rows_ends c :
  (c_valid c = true -> cursor_inv c /\ left_to_read c < 2 ^ 63) -> ends (verify_rows c).
Proof.
  intros Hc. destruct (verify_loop c Hc) as (r & Hr & Hn). unfold ends, verify_rows. rewrite Hr. exact Hn.
Qed.

Lemma verifySst_ends st p data : read_file (st_fs st) p = Some data -> ends (cursor_open (Some data) false) ->
  (forall c, cursor_open (Some data) false = Ok c -> ends (verify_rows c)) ->
  (forall d, ends (verify_index d)) -> ends (verifySst st p).
Proof.
  intros Hd Ho Hr Hi. unfold verifySst. rewrite Hd.
  apply ends_bind_ok; [exact Ho|intros c Hc]. apply ends_bind; [exact (Hr c Hc)|intros _].
  destruct (negb _); [apply ends_ok|]. apply ends_bind; [ends|intros d; apply Hi].
Qed.

Lemma cursor_open_fuel data i : blen data < 2 ^ 63 -> ends (cursor_open (Some data) i).
Proof.
  intros Hlen. unfold cursor_open. cbn [or_err mbind result_bind].
  assert (Hgo : forall bin pos info, i_blockCount info <= kMaxBlocks ->
    ends (advance (mkCursor data pos bin i (i_rowCount info) 0 (i_indexOffset info) (i_blockCount info)
      0 0 0 [] [] [] (mkRowView [] false) false))).
  { intros bin pos info Hb. apply advance_fuel. unfold cursor_inv, kMaxRowBytes. cbn.
    change (blen []) with 0. split_and!; auto; lia. }
  destruct (take_bytes 64 data) as [[header rest]|]; [|apply Hgo; vm_compute; discriminate].
  destruct (bytes_eqb _ _); [|apply Hgo; vm_compute; discriminate].
  destruct (parseSstHeader header) as [info|e] eqn:Ep; cbn [mbind result_bind].
  - apply Hgo. eapply parseSstHeader_blocks, Ep.
  - pose proof (parseSstHeader_ends header) as He. rewrite Ep in He. unfold ends in He. congruence.
Qed.

Lemma index_chunks_fuel fuel : forall remaining cur crc prefix,
  (remaining < fuel)%nat -> ends (index_chunks fuel remaining cur crc prefix).
Proof.
  induction fuel as [|fuel IH]; intros remaining cur crc prefix Hf; [lia|]. cbn [index_chunks].
  destruct (Nat.eqb_spec remaining 0); [discriminate|].
  destruct (take_bytes _ _) as [[buffer cur']|]; cbn [or_err mbind result_bind]; [apply IH; lia|discriminate].
Qed.

Lemma verify_index_fuel data : ends (verify_index data).
Proof.
  unfold verify_index. apply ends_bind; [ends|intros [header rest]].
  apply ends_bind; [apply parseSstHeader_ends|intros info]. apply ends_bind; [ends|intros _].
  apply ends_bind; [apply index_chunks_fuel, Nat.lt_succ_diag_r|intros [[crc prefix] cur]]. ends.
Qed.

(** C35: Cursors terminate on any file of less than 2^63 bytes: whatever its bytes (a
    damaged, truncated or hostile SST, or any text), [SstCursor::open], every later call of
    [next] on a valid cursor, and the whole of [verifySst] (its loop over the rows and its
    loop over the block index) end with a result of their own, success or error,
    before the bound of any of their loops; and every such call of [next] that
    yields another row leaves strictly less to read. *)
Theorem cursor_terminates data indexFields :
  blen data < 2 ^ 63 ->
  ends (cursor_open (Some data) indexFields) /\
  (forall c c1, cursor_open (Some data) indexFields = Ok c -> rtc cursor_moves c c1 -> c_valid c1 = true ->
     ends (cursor_next c1) /\
     forall c2, cursor_next c1 = Ok c2 -> c_valid c2 = true -> 0 <= left_to_read c2 < left_to_read c1) /\
  (forall st p, read_file (st_fs st) p = Some data -> ends (verifySst st p)).
Proof.
  intros Hlen. split_and!.
  - apply cursor_open_fuel, Hlen.
  - intros c c1 Ho Hr Hv.
    assert (Hi : cursor_inv c1).
    { eapply cursor_moves_inv; [|exact Hr|exact Hv]. intros Hv0. eapply cursor_open_inv; eauto. }
    split; [apply advance_fuel, Hi|]. intros c2 Ha Hv2. split; [apply left_nonneg|].
    eapply advance_decreases; eauto.
  - intros st p Hd. apply (verifySst_ends st p data Hd); [apply cursor_open_fuel, Hlen| |apply verify_index_fuel].
    intros c Ho. apply verify_rows_ends. intros Hv. eapply cursor_open_inv; eauto.
Qed.

(** ** Reading back what [writeSst] wrote *)

Context `{LZC : !Lz4Correct}.

(** The key a cursor reports for a row. *)
Definition row_key (r : json) : option bytes := v ← json_find (str "id") r; id_text (canon v).

(** A row every reader can handle: an object within the depth limit, with a
    non-empty key. *)
Definition row_readable (r : json) : Prop :=
  exists m k, r = JObject m /\ row_ok m /\ row_key r = Some k /\ k <> [].

Lemma check_id_written c r i k :
  row_readable r -> row_key r = Some k ->
  (c_previousId c = [] \/ bytes_le (c_previousId c) k) ->
  check_id c (mkRowView (to_msgpack r) i) =
  Ok (mkCursor (c_data c) (c_pos c) (c_binary c) (c_indexFields c) (c_rowCount c) (c_rowsRead c)
        (c_indexOffset c) (c_blockCount c) (c_blocksRead c) (c_rowsInBlock c) (c_rowIndex c)
        (c_cursor c) k k (mkRowView (to_msgpack r) i) true).
Proof.
  intros (m & k' & -> & Hok & Hk' & Hne) Hk Hprev. rewrite Hk in Hk'. injection Hk' as <-.
  unfold check_id. rewrite field_written by exact Hok.
  unfold row_key, json_find in Hk. destruct (obj_find (str "id") m) as [v|]; [|discriminate].
  cbn [mbind option_bind] in Hk. cbn [fmap option_fmap option_map or_err mbind result_bind].
  rewrite Hk. cbn [or_err mbind result_bind].
  rewrite (proj2 (bytes_eqb_neq k [])) by exact Hne.
  assert (negb (bytes_eqb (c_previousId c) []) && bytes_ltb k (c_previousId c) = false) as ->.
  { destruct Hprev as [->|Hle]; [reflexivity|]. rewrite (proj2 (bytes_ltb_ge _ _)) by exact Hle.
    apply andb_false_r. }
  reflexivity.
Qed.

(** The cursor stands before the rows [g] of its block and the blocks [rest]. *)
Record at_rows (c : cursor) (g : list json) (rest : list (list json)) : Prop := {
  ar_binary : c_binary c = true;
  ar_cursor : c_cursor c = block_plain g;
  ar_fit : Forall row_fits g;
  ar_index : c_rowIndex c + Z.of_nat (length g) = c_rowsInBlock c;
  ar_index0 : 0 <= c_rowIndex c;
  ar_rows32 : c_rowsInBlock c < 2 ^ 27;
  ar_groups : Forall group_ok rest;
  ar_layout : exists pre post, c_data c = pre ++ sst_blocks rest ++ post /\ c_pos c = blen pre;
  ar_blocks : c_blocksRead c + Z.of_nat (length rest) = c_blockCount c;
  ar_blocks0 : 0 <= c_blocksRead c;
  ar_max : c_blockCount c <= kMaxBlocks;
  ar_rows : c_rowsRead c + Z.of_nat (length (g ++ concat rest)) = c_rowCount c;
  ar_offset : c_indexOffset c = c_pos c + blen (sst_blocks rest);
  ar_bound : c_indexOffset c < 2 ^ 63;
}.

Lemma loadBlock_written c g rest :
  at_rows c [] (g :: rest) ->
  exists c', loadBlock c = Ok c' /\ at_rows c' g rest /\
    c_indexFields c' = c_indexFields c /\ c_previousId c' = c_previousId c /\ c_data c' = c_data c /\
    c_blocksRead c' = c_blocksRead c + 1 /\ c_blockCount c' = c_blockCount c.
Proof.
  intros [Hbin _ _ Hidx Hidx0 H32 Hgr (pre & post & Hdata & Hpos) Hblk Hb0 Hmax Hrows Hoff Hbound].
  apply Forall_cons in Hgr as [Hg Hgr].
  destruct (group_small g Hg) as (_ & Hn & _).
  unfold sst_blocks in Hdata. cbn [flat_map] in Hdata. rewrite <- app_assoc in Hdata.
  assert (Hsum : blen (sst_blocks (g :: rest)) = blen (block_image g) + blen (sst_blocks rest)).
  { unfold sst_blocks, blen. cbn [flat_map]. rewrite length_app. lia. }
  assert (0 <= blen (sst_blocks rest)) by (unfold blen; lia).
  unfold loadBlock. rewrite Hdata, Hpos, readSequentialBlock_written
    by (auto; rewrite Hoff, Hpos, Hsum; lia).
  cbn [mbind result_bind]. eexists. split; [reflexivity|]. cbn [length] in Hblk. unfold kMaxBlocks in *.
  unfold u32. rewrite Z.mod_small by lia. split; [|split_and!; cbn; auto].
  split; cbn; auto; try lia.
  - apply Hg.
  - exists (pre ++ block_image g), post. split; [rewrite <- !app_assoc; reflexivity|].
    unfold blen. rewrite length_app. lia.
Qed.

Lemma next_block_written c g rest :
  at_rows c g rest ->
  match g ++ concat rest with
  | [] => next_block (block_fuel c) c = Ok None
  | r :: _ => exists c' g' rest', next_block (block_fuel c) c = Ok (Some c') /\
      at_rows c' (r :: g') rest' /\ g' ++ concat rest' = tl (g ++ concat rest) /\
      c_indexFields c' = c_indexFields c /\ c_previousId c' = c_previousId c /\ c_data c' = c_data c
  end.
Proof.
  intros Ha. destruct g as [|r g].
  - destruct rest as [|g' rest'].
    + cbn [concat app]. unfold block_fuel. cbn [next_block].
      pose proof (ar_index _ _ _ Ha) as Hi. pose proof (ar_blocks _ _ _ Ha) as Hb.
      pose proof (ar_rows _ _ _ Ha) as Hr. pose proof (ar_offset _ _ _ Ha) as Ho.
      cbn [length app concat] in *. change (blen (sst_blocks [])) with 0 in Ho.
      rewrite (proj2 (Z.ltb_ge _ _)), (proj2 (Z.leb_le _ _)) by lia.
      rewrite (proj2 (Z.eqb_eq (c_rowsRead c) _)), (proj2 (Z.eqb_eq (c_pos c) _)) by lia. reflexivity.
    + destruct (loadBlock_written c g' rest' Ha) as (c' & Hl & Ha' & Hif & Hpr & Hd & Hbr & Hbc).
      pose proof (ar_groups _ _ _ Ha) as Hgr. apply Forall_cons in Hgr as [(Hne & _) _].
      destruct g' as [|r g']; [congruence|]. cbn [app concat].
      exists c', g', rest'. split; [|split_and!; auto].
      pose proof (ar_index _ _ _ Ha) as Hi. pose proof (ar_blocks _ _ _ Ha) as Hb.
      cbn [length] in Hi, Hb. unfold block_fuel.
      cbn [next_block]. rewrite (proj2 (Z.ltb_ge _ _)), (proj2 (Z.leb_gt _ _)) by lia.
      rewrite Hl. cbn [mbind result_bind].
      pose proof (ar_index _ _ _ Ha') as Hi'. cbn [length] in Hi'.
      rewrite (proj2 (Z.ltb_lt _ _)) by lia. reflexivity.
  - cbn [app]. exists c, g, rest. split; [|split_and!; auto].
    pose proof (ar_index _ _ _ Ha) as Hi. cbn [length] in Hi.
    unfold block_fuel. cbn [next_block]. rewrite (proj2 (Z.ltb_lt _ _)) by lia. reflexivity.
Qed.

Lemma advance_written c g rest :
  at_rows c g rest ->
  match g ++ concat rest with
  | [] => exists c', advance c = Ok c' /\ c_valid c' = false
  | r :: rows => forall k, row_readable r -> row_key r = Some k ->
      (c_previousId c = [] \/ bytes_le (c_previousId c) k) ->
      exists c' g' rest', advance c = Ok c' /\ at_rows c' g' rest' /\ g' ++ concat rest' = rows /\
        c_valid c' = true /\ c_currentId c' = k /\ c_previousId c' = k /\
        c_current c' = mkRowView (to_msgpack r) (c_indexFields c) /\
        c_indexFields c' = c_indexFields c
  end.
Proof.
  intros Ha. pose proof (next_block_written c g rest Ha) as Hn.
  unfold advance. rewrite (ar_binary _ _ _ Ha). cbn [negb].
  destruct (g ++ concat rest) as [|r rows].
  - rewrite Hn. cbn [mbind result_bind]. eexists. split; reflexivity.
  - destruct Hn as (c1 & g1 & rest1 & -> & Ha1 & Hrows & Hif & Hpr & _).
    intros k Hrd Hk Hprev. cbn [mbind result_bind].
    pose proof (ar_fit _ _ _ Ha1) as Hfit. apply Forall_cons in Hfit as [Hr Hfit].
    rewrite (ar_cursor _ _ _ Ha1). unfold block_plain. cbn [flat_map].
    rewrite read_row_written by exact Hr. cbn [or_err mbind result_bind].
    rewrite (check_id_written _ r _ k) by (auto; cbn [c_previousId]; rewrite Hpr; exact Hprev).
    eexists _, g1, rest1. split; [reflexivity|]. cbn in Hrows. rewrite Hif.
    destruct Ha1 as [H1 H2 H3 H4 H5 H6 H7 H8 H9 H10 H11 H12 H13 H14].
    split; [|split_and!; auto].
    cbn [length] in H4. cbn [app length] in H12.
    assert (H32 : u32 (c_rowIndex c1 + 1) = c_rowIndex c1 + 1) by (apply Z.mod_small; lia).
    split; cbn; auto; rewrite ?H32; try lia.
Qed.

(** The caller's loop [while (cursor.valid()) { ...; cursor.next(); }],
    collecting ids and encoded rows. *)
Definition drain_step (s : cursor * list (bytes * bytes))
  : (cursor * list (bytes * bytes)) + result (list (bytes * bytes)) :=
  let '(c, acc) := s in
  if negb (c_valid c) then inr (Ok acc)
  else match cursor_next c with
       | Ok c' => inl (c', acc ++ [(cursor_id c, rv_data (c_current c))])
       | Err e => inr (Err e)
       end.

Definition drain (c : cursor) : result (list (bytes * bytes)) :=
  match while_pow2 64 drain_step (c, []) with
  | inr r => r
  | inl _ => Err "does not terminate"
  end.

(** Rows with their keys, in key order. *)
Definition keyed (rows : list json) (keys : list bytes) : Prop :=
  Forall2 (fun r k => row_readable r /\ row_key r = Some k) rows keys /\ StronglySorted bytes_le keys.

Lemma mkRowView_data data i : rv_data (mkRowView data i) = data.
Proof. unfold mkRowView. destruct (if i then _ else _). reflexivity. Qed.

(** The state of a cursor that shows row [r] with key [k] and has [rows] to come. *)
Definition showing (c : cursor) (r : json) (k : bytes) (rows : list json) : Prop :=
  c_valid c = true /\ c_currentId c = k /\ c_previousId c = k /\
  (exists i, c_current c = mkRowView (to_msgpack r) i) /\
  exists g rest, at_rows c g rest /\ g ++ concat rest = rows.

Lemma advance_showing c g rest rows keys :
  at_rows c g rest -> g ++ concat rest = rows -> keyed rows keys ->
  (c_previousId c = [] \/ Forall (bytes_le (c_previousId c)) keys) ->
  match rows, keys with
  | [], [] => exists c', advance c = Ok c' /\ c_valid c' = false
  | r :: rows', k :: keys' => exists c', advance c = Ok c' /\ showing c' r k rows'
  | _, _ => False
  end.
Proof.
  intros Ha Hrows [Hk Hs] Hprev. pose proof (advance_written c g rest Ha) as Hadv. rewrite Hrows in Hadv.
  destruct Hk as [|r k rows' keys' [Hrd Hkey] Hk]; [exact Hadv|].
  destruct (Hadv k Hrd Hkey) as (c' & g' & rest' & Hok & Ha' & Hr' & Hv & Hid & Hpr & Hcur & _).
  { destruct Hprev as [|Hall]; [auto|]. right. apply Forall_cons in Hall as [H _]. exact H. }
  exists c'. split; [exact Hok|]. unfold showing. split_and!; eauto.
Qed.

Lemma showing_next c r k rows keys :
  showing c r k rows -> keyed rows keys -> Forall (bytes_le k) keys ->
  match rows, keys with
  | [], [] => exists c', advance c = Ok c' /\ c_valid c' = false
  | r :: rows', k :: keys' => exists c', advance c = Ok c' /\ showing c' r k rows'
  | _, _ => False
  end.
Proof.
  intros (Hv & Hid & Hpr & _ & g & rest & Ha & Hrows) Hk Hall.
  eapply advance_showing; eauto. rewrite Hpr. auto.
Qed.

Lemma keyed_tail r rows k keys :
  keyed (r :: rows) (k :: keys) -> row_readable r /\ keyed rows keys /\ Forall (bytes_le k) keys.
Proof.
  intros [Hk Hs]. apply Forall2_cons in Hk as [[Hr _] Hk]. inversion Hs; subst.
  split_and!; auto. split; auto.
Qed.

(** A loop over the cursor that goes on at every row runs once per row. *)
Lemma drain_showing rows : forall c r k keys acc,
  showing c r k rows -> keyed rows keys -> Forall (bytes_le k) keys ->
  run_n (S (S (length rows))) drain_step (c, acc) =
  inr (Ok (acc ++ zip (k :: keys) (map to_msgpack (r :: rows)))).
Proof.
  induction rows as [|r' rows IH]; intros c r k keys acc Hs Hk Hall;
    pose proof (showing_next c r k _ keys Hs Hk Hall) as Hn;
    destruct Hs as (Hv & Hid & _ & (i & Hcur) & _);
    remember (S (length _)) as n eqn:Hlen; cbn [run_n]; unfold drain_step at 1; rewrite Hv; cbn [negb];
    unfold cursor_next, cursor_id; rewrite Hv, Hid, Hcur, mkRowView_data.
  - destruct keys as [|]; [|contradiction]. destruct Hn as (c' & -> & Hv').
    subst n. cbn [length run_n]. unfold drain_step. rewrite Hv'. reflexivity.
  - destruct keys as [|k' keys]; [contradiction|]. destruct Hn as (c' & -> & Hs').
    apply keyed_tail in Hk as (_ & Hk & Hall'). subst n. cbn [length].
    etransitivity; [exact (IH c' r' k' keys _ Hs' Hk Hall')|]. rewrite <- app_assoc. reflexivity.
Qed.

Lemma verify_showing rows : forall c r k keys,
  json_wf r -> Forall json_wf rows ->
  showing c r k rows -> keyed rows keys -> Forall (bytes_le k) keys ->
  run_n (S (S (length rows))) verify_step c = inr (Ok tt).
Proof.
  induction rows as [|r' rows IH]; intros c r k keys Hwf Hwfs Hs Hk Hall;
    pose proof (showing_next c r k _ keys Hs Hk Hall) as Hn;
    destruct Hs as (Hv & Hid & _ & (i & Hcur) & _);
    remember (S (length _)) as n eqn:Hlen; cbn [run_n]; unfold verify_step at 1; rewrite Hv; cbn [negb];
    rewrite Hcur, materialize_written by exact Hwf; unfold cursor_next.
  - destruct keys as [|]; [|contradiction]. destruct Hn as (c' & -> & Hv').
    subst n. cbn [length run_n]. unfold verify_step. rewrite Hv'. reflexivity.
  - destruct keys as [|k' keys]; [contradiction|]. destruct Hn as (c' & -> & Hs').
    apply keyed_tail in Hk as (_ & Hk & Hall'). apply Forall_cons in Hwfs as [Hwf' Hwfs].
    subst n. exact (IH c' r' k' keys Hwf' Hwfs Hs' Hk Hall').
Qed.

(** Opening a published image. *)
Lemma cursor_open_written target groups keys i :
  0 <= target < 2 ^ 32 -> readable groups -> keyed (concat groups) keys ->
  match concat groups, keys with
  | [], [] => exists c, cursor_open (Some (sst_image target groups)) i = Ok c /\ c_valid c = false
  | r :: rows, k :: keys' =>
      exists c, cursor_open (Some (sst_image target groups)) i = Ok c /\ showing c r k rows
  | _, _ => False
  end.
Proof.
  intros Ht Hrd Hk. pose proof (readable_rows groups Hrd) as Hrows.
  destruct Hrd as (Hok & _ & Hn & Hmax).
  assert (H0 : 0 <= blen (sst_blocks groups)) by (unfold blen; lia).
  unfold cursor_open. cbn [or_err mbind result_bind]. unfold sst_image.
  set (hd := sst_header _ _ _ _).
  assert (Hhd : length hd = 64%nat) by apply sst_header_length.
  rewrite take_bytes_app by exact Hhd.
  replace (bytes_eqb (take 8 hd) kSstMagic) with true by (unfold hd; rewrite sst_header_eq; reflexivity).
  assert (Hp : parseSstHeader hd = Ok (mkInfo (Z.of_nat (length (concat groups)))
                 (64 + blen (sst_blocks groups)) (Z.of_nat (length groups)))).
  { apply parseSstHeader_written; unfold kMaxBlocks in *; lia. }
  rewrite Hp. cbn [mbind result_bind i_rowCount i_indexOffset i_blockCount].
  eapply (advance_showing _ [] groups); [|reflexivity|exact Hk|left; reflexivity].
  split; cbn; auto; try lia.
  exists hd, (index_bytes (entries 64 groups)). split; [reflexivity|]. unfold blen. rewrite Hhd. reflexivity.
Qed.

(** ** The incremental check of the block index *)

Lemma crc_update_app c a b : crc_update (crc_update c a) b = crc_update c (a ++ b).
Proof. unfold crc_update. cbn. rewrite fold_left_app. reflexivity. Qed.

Lemma take_split {A} a k (l : list A) :
  (a <= length l)%nat ->
  take (Nat.min a k) (take a l) ++ take (k - Nat.min a k) (drop a l) = take k l.
Proof.
  intros Ha. destruct (Nat.le_gt_cases k a).
  - rewrite Nat.min_r, Nat.sub_diag, take_0, app_nil_r, take_take by lia. f_equal. lia.
  - rewrite Nat.min_l, take_take, Nat.min_id, take_take_drop by lia. f_equal. lia.
Qed.

Lemma index_chunks_spec fuel : forall body tail crc prefix,
  (length body < fuel)%nat ->
  index_chunks fuel (length body) (body ++ tail) crc prefix =
  Ok (crc_update crc body, prefix ++ take (12 - length prefix) body, tail).
Proof.
  induction fuel as [|fuel IH]; intros body tail crc prefix Hf; [lia|]. cbn [index_chunks].
  destruct (Nat.eqb_spec (length body) 0) as [E|E].
  - destruct body; [|discriminate]. cbn. rewrite take_nil, app_nil_r. unfold crc_update. cbn.
    destruct crc. reflexivity.
  - set (a := Nat.min (length body) (Z.to_nat 65536)).
    assert (Ha : (0 < a <= length body)%nat) by (unfold a; lia). clearbody a.
    replace (body ++ tail) with (take a body ++ drop a body ++ tail)
      by (rewrite app_assoc, take_drop; reflexivity).
    rewrite take_bytes_app by (rewrite length_take; lia). cbn [or_err mbind result_bind].
    replace (length body - a)%nat with (length (drop a body)) by (rewrite length_drop; lia).
    rewrite IH by (rewrite length_drop; lia). rewrite crc_update_app, take_drop.
    do 3 f_equal. destruct (Nat.ltb_spec (length prefix) 12) as [Hl|Hl].
    + rewrite <- app_assoc. f_equal.
      rewrite <- (take_split a (12 - length prefix) body) by lia. f_equal.
      rewrite length_app, !length_take. f_equal. lia.
    + replace (12 - length prefix)%nat with 0%nat by lia. rewrite !take_0. reflexivity.
Qed.

Lemma verify_index_written target groups :
  0 <= target < 2 ^ 32 -> readable groups -> blen (sst_image target groups) < 2 ^ 63 ->
  verify_index (sst_image target groups) = Ok tt.
Proof.
  intros Ht Hrd Himg. pose proof (readable_rows groups Hrd) as Hrows.
  destruct Hrd as (Hok & _ & Hn & Hmax).
  assert (H0 : 0 <= blen (sst_blocks groups)) by (unfold blen; lia).
  unfold verify_index. unfold sst_image in *. set (hd := sst_header _ _ _ _) in *.
  assert (Hhd : length hd = 64%nat) by apply sst_header_length.
  rewrite take_bytes_app by exact Hhd. cbn [or_err mbind result_bind].
  assert (Hp : parseSstHeader hd = Ok (mkInfo (Z.of_nat (length (concat groups)))
                 (64 + blen (sst_blocks groups)) (Z.of_nat (length groups)))).
  { apply parseSstHeader_written; unfold kMaxBlocks in *; lia. }
  rewrite Hp. cbn [mbind result_bind i_indexOffset i_blockCount].
  set (body := kSstIndexMagic ++ le_bytes 4 (Z.of_nat (length groups)) ++ flat_map encode_entry (entries 64 groups)).
  assert (Hix : index_bytes (entries 64 groups) = body ++ le_bytes 4 (crc32c body)).
  { unfold index_bytes, body. rewrite entries_length. reflexivity. }
  assert (Hbody : (12 <= length body)%nat).
  { unfold body. rewrite !length_app, le_bytes_length. change (length kSstIndexMagic) with 8%nat. lia. }
  rewrite Hix in *.
  assert (Hsize : blen (hd ++ sst_blocks groups ++ body ++ le_bytes 4 (crc32c body)) =
                  64 + blen (sst_blocks groups) + blen body + 4).
  { unfold blen. rewrite !length_app, le_bytes_length, Hhd. lia. }
  rewrite Hsize in *. unfold u64. rewrite Z.mod_small by (unfold blen in *; lia).
  rewrite (proj2 (Z.ltb_ge _ _)) by (unfold blen in *; lia). cbn [negb guard_err mbind result_bind].
  replace (Z.to_nat (64 + blen (sst_blocks groups) + blen body + 4 - (64 + blen (sst_blocks groups)) - 4))
    with (length body) by (unfold blen; lia).
  replace (stream_at _ _) with (body ++ le_bytes 4 (crc32c body)).
  2:{ rewrite app_assoc. replace (64 + blen (sst_blocks groups)) with (blen (hd ++ sst_blocks groups))
        by (unfold blen; rewrite length_app, Hhd; lia). symmetry. apply stream_at_app. }
  rewrite index_chunks_spec by lia. cbn [mbind result_bind].
  pose proof (crc32_range body : 0 <= crc32c body < 2 ^ 32).
  change (take_bytes 4 (le_bytes 4 (crc32c body))) with (Some (le_bytes 4 (crc32c body), @nil byte)).
  cbn [or_err mbind result_bind].
  rewrite le_value_bytes by (change (256 ^ Z.of_nat 4) with (2 ^ 32); lia).
  cbn [length app Nat.sub].
  rewrite (proj2 (Nat.ltb_ge _ _)) by (rewrite length_take; lia).
  replace (bytes_eqb (take 8 (take 12 body)) kSstIndexMagic) with true by reflexivity.
  replace (le_value (take 4 (drop 8 (take 12 body)))) with (Z.of_nat (length groups)).
  2:{ symmetry. change (take 4 (drop 8 (take 12 body))) with (le_bytes 4 (Z.of_nat (length groups))).
      apply le_value_bytes. unfold kMaxBlocks in *. change (256 ^ Z.of_nat 4) with (2 ^ 32). lia. }
  rewrite Z.eqb_refl. replace (crc_finalize (crc_update crc_new body)) with (crc32c body) by reflexivity.
  rewrite Z.eqb_refl. reflexivity.
Qed.

Lemma while64_run {A B} (step : A -> A + B) k a b :
  run_n (S (S k)) step a = inr b -> Z.of_nat k < 2 ^ 63 -> while_pow2 64 step a = inr b.
Proof. intros Hr Hk. eapply while_pow2_result; [exact Hr|]. change (Z.of_nat 64) with 64. lia. Qed.

Lemma readable_rows63 groups : readable groups -> Z.of_nat (length (concat groups)) < 2 ^ 63.
Proof.
  intros (Hok & _ & Hn & Hmax).
  assert (Hr : Z.of_nat (length (concat groups)) <= Z.of_nat (length groups) * 2 ^ 27).
  { clear Hn Hmax. induction Hok as [|g gs Hg _ IH]; [simpl; lia|].
    cbn [concat length]. rewrite length_app. destruct (group_small g Hg) as (_ & Hn & _). lia. }
  unfold kMaxBlocks in *. lia.
Qed.

(** A cursor reads exactly what was written: after a successful [writeSst]
    of rows whose keys are non-empty and in order, [SstCursor::open] succeeds,
    indexed or not, and iterating with [next] yields every row's key and its
    encoded bytes, in order, and then the end, with no error. *)
Theorem cursor_reads_written io s p rows keys target stats s' i :
  Forall (fun r => key_fits (rowId r)) rows -> keyed rows keys ->
  ws_blocks stats <= kMaxBlocks -> ws_stored stats < 2 ^ 63 ->
  writeSst io s p rows target = (Ok stats, s') ->
  exists c, cursor_open (read_file (st_fs s') p) i = Ok c /\
            drain c = Ok (zip keys (map to_msgpack rows)).
Proof.
  intros Hkeys Hk Hnb Hsz Hw.
  destruct (writeSst_readable _ _ _ _ _ _ _ Hkeys Hnb Hsz Hw) as (groups & Hcat & Hrd & Hf & _).
  pose proof (clamp_target_range target). pose proof (readable_rows63 groups Hrd) as H63.
  unfold read_file. rewrite Hf. cbn [fmap option_fmap option_map f_data].
  rewrite <- Hcat in Hk. pose proof (cursor_open_written (clamp_target target) groups keys i ltac:(lia) Hrd Hk) as Ho.
  rewrite Hcat in *. destruct rows as [|r rows].
  - destruct keys; [|contradiction]. destruct Ho as (c & Hc & Hv). exists c. split; [exact Hc|].
    unfold drain. rewrite (while64_run drain_step 0 (c, []) (Ok [])); [reflexivity| |lia].
    cbn [run_n drain_step]. rewrite Hv. reflexivity.
  - destruct keys as [|k keys]; [contradiction|]. destruct Ho as (c & Hc & Hs). exists c. split; [exact Hc|].
    apply keyed_tail in Hk as (_ & Hk & Hall). unfold drain.
    rewrite (while64_run drain_step (length rows) (c, []) (Ok (zip (k :: keys) (map to_msgpack (r :: rows)))));
      [reflexivity| |cbn [length] in H63; lia].
    exact (drain_showing rows c r k keys [] Hs Hk Hall).
Qed.

Lemma isBinarySst_written s p m target groups :
  st_fs s !! p = Some (mkFile m (sst_image target groups)) -> isBinarySst s p = true.
Proof.
  intros Hf. unfold isBinarySst, read_file. rewrite Hf. cbn [fmap option_fmap option_map f_data].
  unfold sst_image, sst_header.
  rewrite sst_header_plain_eq, patch48_eq by (apply header_fields_length || reflexivity).
  unfold header_fields. rewrite <- !app_assoc.
  rewrite (take_app_le kSstMagic), take_ge by (cbn; lia). rewrite bytes_eqb_refl, andb_true_r.
  apply Nat.leb_le. rewrite length_app. change (length kSstMagic) with 8%nat. lia.
Qed.

Lemma verify_rows_written target groups keys :
  0 <= target < 2 ^ 32 -> readable groups -> Forall json_wf (concat groups) ->
  keyed (concat groups) keys ->
  exists c, cursor_open (Some (sst_image target groups)) false = Ok c /\ verify_rows c = Ok tt.
Proof.
  intros Ht Hrd Hwf Hk. pose proof (readable_rows63 groups Hrd) as H63.
  pose proof (cursor_open_written target groups keys false Ht Hrd Hk) as Ho.
  unfold verify_rows. destruct (concat groups) as [|r rows].
  - destruct keys; [|contradiction]. destruct Ho as (c & Hc & Hv). exists c. split; [exact Hc|].
    rewrite (while64_run verify_step 0 c (Ok tt)); [reflexivity| |lia].
    cbn [run_n]. unfold verify_step. rewrite Hv. reflexivity.
  - destruct keys as [|k keys]; [contradiction|]. destruct Ho as (c & Hc & Hs). exists c. split; [exact Hc|].
    apply keyed_tail in Hk as (_ & Hk & Hall). apply Forall_cons in Hwf as [Hr Hwf].
    rewrite (while64_run verify_step (length rows) c (Ok tt));
      [reflexivity| |cbn [length] in H63; lia].
    exact (verify_showing rows c r k keys Hr Hwf Hs Hk Hall).
Qed.

(** [verifySst] accepts every SST that [writeSst] published: with the keys in
    order and the rows within the decoder's depth, the row pass, the header
    counts and the chunk-wise block-index checksum all succeed. *)
Theorem verifySst_accepts_written io s p rows keys target stats s' :
  Forall json_wf rows -> Forall (fun r => key_fits (rowId r)) rows -> keyed rows keys ->
  ws_blocks stats <= kMaxBlocks -> ws_stored stats < 2 ^ 63 ->
  writeSst io s p rows target = (Ok stats, s') ->
  verifySst s' p = Ok tt.
Proof.
  intros Hwf Hkeys Hk Hnb Hsz Hw.
  destruct (writeSst_readable _ _ _ _ _ _ _ Hkeys Hnb Hsz Hw) as (groups & Hcat & Hrd & Hf & _ & Hst).
  pose proof (clamp_target_range target). pose proof (readable_rows63 groups Hrd) as H63.
  assert (Hdata : read_file (st_fs s') p = Some (sst_image (clamp_target target) groups)).
  { unfold read_file. rewrite Hf. reflexivity. }
  rewrite <- Hcat in Hk, Hwf.
  destruct (verify_rows_written (clamp_target target) groups keys ltac:(lia) Hrd Hwf Hk) as (c & Hc & Hv).
  unfold verifySst. rewrite (isBinarySst_written s' p _ _ _ Hf), Hdata.
  rewrite (bind_eq _ c) by exact Hc. rewrite (bind_eq _ tt) by exact Hv.
  rewrite (bind_eq _ (sst_image (clamp_target target) groups)) by reflexivity.
  apply verify_index_written; auto; lia.
Qed.

End SstCursor.

#[local] Existing Instance rle_lz4.
#[local] Existing Instance rle_lz4_correct.
#[local] Existing Instance digits_text.

Lemma sample_keyed : keyed sample_rows [str "a"; str "b"].
Proof.
  assert (Hr : forall k z, (0 < length k <= 4)%nat -> 0 <= z < 100 ->
    row_readable (JObject [(str "id", JString k); (str "v", JInt z)]) /\
    row_key (JObject [(str "id", JString k); (str "v", JInt z)]) = Some k).
  { intros k z Hk Hz. split; [|reflexivity]. eexists _, k. split; [reflexivity|].
    split; [|split; [reflexivity|destruct k; [simpl in Hk; lia|discriminate]]].
    split; [|repeat constructor].
    apply json_wf_object. split; [simpl; lia|]. split; [repeat constructor|].
    repeat constructor; cbn; unfold blen, I64_MIN, I64_MAX; try lia; reflexivity. }
  split.
  - repeat constructor; apply Hr; simpl; lia.
  - repeat constructor; discriminate.
Qed.

Lemma sample_stats : exists stats, writeSst sst_io_good empty_store (str "t.sst") sample_rows 4096 =
  (Ok stats, sample_written.2) /\ ws_blocks stats <= kMaxBlocks /\ ws_stored stats < 2 ^ 63.
Proof.
  destruct (sample_written.1) as [stats|] eqn:E; [|vm_compute in E; discriminate].
  exists stats. split; [rewrite <- E; apply surjective_pairing|].
  vm_compute in E. injection E as <-. vm_compute. split; [discriminate|reflexivity].
Qed.

Lemma sample_keys_fit : Forall (fun r => key_fits (rowId r)) sample_rows.
Proof. repeat constructor; vm_compute; discriminate. Qed.

Lemma cursor_reads_written_witness :
  exists c, cursor_open (read_file (st_fs sample_written.2) (str "t.sst")) true = Ok c /\
            drain c = Ok (zip [str "a"; str "b"] (map to_msgpack sample_rows)).
Proof.
  destruct sample_stats as (stats & Hw & H1 & H2).
  exact (cursor_reads_written sst_io_good empty_store (str "t.sst") sample_rows [str "a"; str "b"] 4096
           stats sample_written.2 true sample_keys_fit sample_keyed H1 H2 Hw).
Defined.

Lemma verifySst_accepts_written_witness : verifySst sample_written.2 (str "t.sst") = Ok tt.
Proof.
  destruct sample_stats as (stats & Hw & H1 & H2).
  exact (verifySst_accepts_written sst_io_good empty_store (str "t.sst") sample_rows [str "a"; str "b"] 4096
           stats sample_written.2 sample_rows_wf sample_keys_fit sample_keyed H1 H2 Hw).
Defined.

Lemma cursor_terminates_witness :
  cursor_open (read_file (st_fs sample_written.2) (str "t.sst")) false <> Err "out of fuel" /\
  verifySst sample_written.2 (str "t.sst") <> Err "out of fuel".
Proof.
  set (data := default [] (read_file (st_fs sample_written.2) (str "t.sst"))).
  assert (Hd : read_file (st_fs sample_written.2) (str "t.sst") = Some data) by (vm_compute; reflexivity).
  destruct (cursor_terminates data false ltac:(vm_compute; reflexivity)) as (H1 & _ & H3).
  split; [rewrite Hd; exact H1 | exact (H3 _ _ Hd)].
Defined.
