(* ===== verification/SstQuery.v ===== *)
(** * Point lookups and the newest-version merge (storage_format_v2.cpp)

    [rowVersion], [findInSst] and [visitLatestSstRows]. *)

From S2P Require Import Prelude FileSys Json Msgpack RowView Checksum Store Sst SstCursor.
From stdpp Require Import base list gmap strings sorting.
From Stdlib Require Import ZArith Lia.

Open Scope Z_scope.

Section SstQuery.
Context `{JT : JsonText} `{LZ : Lz4}.

(** ** Versions *)

Definition version_names : list bytes :=
  [str "_mvcc_version"; str "version"; str "deleted_txn"; str "created_txn"; str "_timestamp"].

(** The version a field value carries; [None] goes on to the next name. *)
Definition version_of (v : json) : option Z :=
  if is_number_integer v || is_number_unsigned v then get_i64 v
  else match v with JString s => stoll s | _ => None end.

Fixpoint first_version (get : bytes -> option json) (names : list bytes) : option Z :=
  match names with
  | [] => None
  | n :: rest =>
      match get n with
      | None => first_version get rest
      | Some v => match version_of v with
                  | Some z => Some z
                  | None => first_version get rest
                  end
      end
  end.

Definition rowVersion (row : MsgpackRowView) : option Z := first_version (field row) version_names.

(** ** [findInSst] *)

(** [std::lower_bound] over the blocks, which are ordered by last key. *)
Fixpoint lower_bound (id : bytes) (bs : list BlockIndexEntry) : list BlockIndexEntry :=
  match bs with
  | [] => []
  | b :: rest => if bytes_ltb (lastKey b) id then lower_bound id rest else bs
  end.

(** A row at least as new as the one found so far takes its place. *)
Definition find_replaces (found : bool) (version newest : option Z) : bool :=
  negb found ||
  (match version, newest with Some a, Some b => b <=? a | _, _ => false end) ||
  (match version, newest with Some _, None => true | _, _ => false end) ||
  bool_decide (version = newest).

Definition find_visit (id : bytes) (eligible : MsgpackRowView -> bool)
    (st : option json * option Z) (data : bytes) : result ((option json * option Z) * bool) :=
  let '(found, newest) := st in
  let row := mkRowView data true in
  key ← match field row (str "id") with
        | Some v => or_err (id_text v) "type_error.316"
        | None => j ← materialize row; Ok (rowId j)
        end;
  st ← (if bytes_eqb key id && eligible row then
          let version := rowVersion row in
          if find_replaces (match found with Some _ => true | None => false end) version newest
          then j ← materialize row; Ok (Some j, version)
          else Ok (found, newest)
        else Ok (found, newest));
  Ok (st, bytes_leb key id).

Fixpoint find_blocks (data : bytes) (id : bytes) (eligible : MsgpackRowView -> bool)
    (bs : list BlockIndexEntry) (st : option json * option Z) : result (option json) :=
  match bs with
  | [] => Ok st.1
  | b :: rest =>
      if bytes_leb (firstKey b) id then
        '(plain, count) ← readBlockPayload data b;
        '(st, _) ← visitBlockRows (Z.to_nat count) plain (find_visit id eligible) st;
        find_blocks data id eligible rest st
      else Ok st.1
  end.

Definition findInSst (s : store) (p : path) (id : bytes) (eligible : MsgpackRowView -> bool)
  : result (option json) * store :=
  match loadMetadata s p with
  | (Err e, s) => (Err e, s)
  | (Ok m, s) =>
      (match read_file (st_fs s) p with
       | None => Err "cannot open binary SST"
       | Some data => find_blocks data id eligible (lower_bound id (blocks m)) (None, None)
       end, s)
  end.

(** ** [visitLatestSstRows] *)

Record Item := mkItem { it_id : bytes; it_index : nat }.

(** [LaterId] inverted: the queue's top is the least id, the newest file first. *)
Definition item_before (a b : Item) : bool :=
  if negb (bytes_eqb (it_id a) (it_id b)) then bytes_ltb (it_id a) (it_id b)
  else (it_index b <? it_index a)%nat.

(** The priority queue as the list of its items in the order they pop; items
    are distinct, so the order is unique. *)
Fixpoint heap_push (x : Item) (h : list Item) : list Item :=
  match h with
  | [] => [x]
  | y :: r => if item_before x y then x :: h else y :: heap_push x r
  end.

(** [while (!heap.empty() && heap.top().id == id)]: the popped files. *)
Fixpoint pop_matching (id : bytes) (h : list Item) : list nat * list Item :=
  match h with
  | [] => ([], [])
  | y :: r => if bytes_eqb (it_id y) id
              then let '(m, h') := pop_matching id r in (it_index y :: m, h')
              else ([], h)
  end.

(** The winner so far: its bytes, version and file. *)
Definition winner := option (bytes * option Z * nat).

Definition latest_replaces (w : winner) (version : option Z) (file : nat) : bool :=
  match w with
  | None => true
  | Some (_, newest, newestFile) =>
      (match version, newest with Some a, Some b => b <? a | _, _ => false end) ||
      (match version, newest with Some _, None => true | _, _ => false end) ||
      (bool_decide (version = newest) && (newestFile <=? file)%nat)
  end.

Definition consider (eligible : MsgpackRowView -> bool) (file : nat) (row : MsgpackRowView) (w : winner)
  : winner :=
  let version := rowVersion row in
  if latest_replaces w version file && eligible row
  then Some (rv_data row, version, file) else w.

(** [while (cursors[file].valid() && cursors[file].id() == id)]. *)
Definition run_step (eligible : MsgpackRowView -> bool) (id : bytes) (file : nat)
    (s : cursor * winner) : (cursor * winner) + result (cursor * winner) :=
  let '(c, w) := s in
  if c_valid c && bytes_eqb (cursor_id c) id then
    let w := consider eligible file (c_current c) w in
    match cursor_next c with
    | Ok c => inl (c, w)
    | Err e => inr (Err e)
    end
  else inr (Ok (c, w)).

Definition consume_run (eligible : MsgpackRowView -> bool) (id : bytes) (file : nat) (c : cursor) (w : winner)
  : result (cursor * winner) :=
  match while_pow2 64 (run_step eligible id file) (c, w) with
  | inr r => r
  | inl _ => Err "does not terminate"
  end.

(** [for (const auto file : matching)]. *)
Fixpoint consume_files (eligible : MsgpackRowView -> bool) (id : bytes) (matching : list nat)
    (cs : list cursor) (h : list Item) (w : winner) : result (list cursor * list Item * winner) :=
  match matching with
  | [] => Ok (cs, h, w)
  | file :: rest =>
      match cs !! file with
      | None => Err "cursor index"
      | Some c =>
          '(c, w) ← consume_run eligible id file c w;
          let h := if c_valid c then heap_push (mkItem (cursor_id c) file) h else h in
          consume_files eligible id rest (<[file := c]> cs) h w
      end
  end.

Definition is_deleted (row : MsgpackRowView) : bool :=
  match field row (str "_deleted") with Some (JBool b) => b | _ => false end.

Section Visit.
Context {S : Type} (indexFields includeDeleted : bool) (eligible : MsgpackRowView -> bool)
        (visitor : S -> MsgpackRowView -> S * bool).

(** One id: every file's run of it is consumed, and the winner is shown. *)
Definition latest_step (s : list cursor * list Item * S)
  : (list cursor * list Item * S) + result S :=
  let '(cs, h, acc) := s in
  match h with
  | [] => inr (Ok acc)
  | top :: _ =>
      let id := it_id top in
      let '(matching, h) := pop_matching id h in
      match consume_files eligible id matching cs h None with
      | Err e => inr (Err e)
      | Ok (cs, h, None) => inl (cs, h, acc)
      | Ok (cs, h, Some (data, _, _)) =>
          let selected := mkRowView data indexFields in
          if includeDeleted || negb (is_deleted selected) then
            let '(acc, go) := visitor acc selected in
            if go then inl (cs, h, acc) else inr (Ok acc)
          else inl (cs, h, acc)
      end
  end.

Fixpoint open_cursors (files : list (option bytes)) (cs : list cursor) (h : list Item)
  : result (list cursor * list Item) :=
  match files with
  | [] => Ok (cs, h)
  | f :: rest =>
      c ← cursor_open f indexFields;
      let cs' := cs ++ [c] in
      let h := if c_valid c then heap_push (mkItem (cursor_id c) (length cs)) h else h in
      open_cursors rest cs' h
  end.

Definition visitLatestSstRows (files : list (option bytes)) (acc : S) : result S :=
  '(cs, h) ← open_cursors files [] [];
  match while_pow2 64 latest_step (cs, h, acc) with
  | inr r => r
  | inl _ => Err "does not terminate"
  end.
End Visit.

(** ** Versions and keys of written rows *)

(** The text form of a number does not depend on the signedness it is stored
    with, so a decoded value prints like the written one. *)
Class JsonTextLaws := { dump_canon : forall v, json_wf v -> json_dump (canon v) = json_dump v }.

Definition row_version (r : json) : option Z :=
  first_version (fun n => canon <$> json_find n r) version_names.

Lemma first_version_ext f g names :
  (forall n, f n = g n) -> first_version f names = first_version g names.
Proof.
  intros Hfg. induction names as [|n names IH]; cbn [first_version]; [reflexivity|].
  rewrite Hfg, IH. reflexivity.
Qed.

Lemma rowVersion_written r i : row_readable r -> rowVersion (mkRowView (to_msgpack r) i) = row_version r.
Proof.
  intros (m & k & -> & Hok & _). apply first_version_ext. intros n.
  rewrite field_written by exact Hok. reflexivity.
Qed.

Lemma field_id_written r i k :
  row_readable r -> row_key r = Some k ->
  exists v, field (mkRowView (to_msgpack r) i) (str "id") = Some v /\ id_text v = Some k.
Proof.
  intros (m & k' & -> & Hok & _) Hk. rewrite field_written by exact Hok.
  unfold row_key, json_find in Hk. destruct (obj_find (str "id") m) as [v|]; [|discriminate].
  exists (canon v). split; [reflexivity|exact Hk].
Qed.

Definition version_le (a b : option Z) : bool :=
  match a, b with
  | None, _ => true
  | Some _, None => false
  | Some x, Some y => x <=? y
  end.

Lemma find_replaces_le v n : find_replaces true v n = version_le n v.
Proof.
  unfold find_replaces, version_le. cbn [negb orb].
  destruct v as [a|], n as [b|]; cbn [orb]; try reflexivity.
  destruct (Z.leb_spec b a); [reflexivity|]. cbn [orb].
  apply bool_decide_eq_false. intros [= ->]. lia.
Qed.

(** ** Point lookup *)

Context `{LZC : !Lz4Correct} `{JTL : !JsonTextLaws}.

Lemma find_wf n r v : json_wf r -> json_find n r = Some v -> json_wf v.
Proof.
  destruct r as [| | | | | | | |m]; try discriminate. intros (_ & _ & H)%json_wf_object. cbn [json_find].
  induction H as [|[k x] m [_ Hx] H IH]; cbn [obj_find]; [discriminate|]. destruct (bytes_eqb k n); [intros [= <-]; exact Hx|exact IH].
Qed.

Lemma row_key_rowId r k : json_wf r -> row_key r = Some k -> rowId r = k.
Proof.
  intros Hwf. unfold row_key, rowId. destruct (json_find (str "id") r) as [v|] eqn:Ev; [|discriminate].
  cbn [mbind option_bind]. intros Hk.
  assert (Hv : id_text v = Some k).
  { pose proof (dump_canon v (find_wf _ _ _ Hwf Ev)) as Hd. destruct v; cbn [canon] in *; try destruct (_ <=? _);
      cbn [id_text] in *; congruence. }
  rewrite Hv. reflexivity.
Qed.

Section Find.
Context (id : bytes) (eligible : MsgpackRowView -> bool).

(** The rows the lookup is about. *)
Definition candidate (rk : json * bytes) : bool :=
  bytes_eqb rk.2 id && eligible (mkRowView (to_msgpack rk.1) true).

Definition find_pick (st : option json * option Z) (rk : json * bytes) : option json * option Z :=
  if candidate rk then
    if match st.1 with Some _ => version_le st.2 (row_version rk.1) | None => true end
    then (Some (canon rk.1), row_version rk.1) else st
  else st.

Lemma find_visit_written st r k :
  json_wf r -> row_readable r -> row_key r = Some k ->
  find_visit id eligible st (to_msgpack r) = Ok (find_pick st (r, k), bytes_leb k id).
Proof.
  intros Hwf Hr Hk. destruct st as [found newest]. unfold find_visit, find_pick, candidate. cbn [fst snd].
  destruct (field_id_written r true k Hr Hk) as (v & -> & Hv). rewrite Hv. cbn [or_err mbind result_bind].
  destruct (bytes_eqb k id && eligible _); [|reflexivity].
  rewrite rowVersion_written by exact Hr. rewrite materialize_written by exact Hwf.
  destruct found as [j|]; cbn [mbind result_bind].
  - rewrite find_replaces_le. destruct (version_le newest (row_version r)); reflexivity.
  - reflexivity.
Qed.

Definition keyed_rows (l : list (json * bytes)) : Prop :=
  Forall (fun rk => json_wf rk.1 /\ row_readable rk.1 /\ row_key rk.1 = Some rk.2) l /\
  StronglySorted bytes_le l.*2.

Lemma find_pick_other st rk : rk.2 <> id -> find_pick st rk = st.
Proof.
  intros Hne. unfold find_pick, candidate. rewrite (proj2 (bytes_eqb_neq _ _)) by exact Hne. reflexivity.
Qed.

Lemma find_pick_skip l : forall st, Forall (fun rk => rk.2 <> id) l -> fold_left find_pick l st = st.
Proof.
  induction l as [|rk l IH]; intros st Hl; [reflexivity|]. apply Forall_cons in Hl as [Hr Hl].
  cbn [fold_left]. rewrite find_pick_other by exact Hr. apply IH, Hl.
Qed.

Lemma keyed_rows_app l1 l2 : keyed_rows (l1 ++ l2) -> keyed_rows l1 /\ keyed_rows l2.
Proof.
  unfold keyed_rows. rewrite fmap_app. intros [Hf Hs]. apply Forall_app in Hf as [H1 H2].
  repeat split; auto; [eapply StronglySorted_app_1_l | eapply StronglySorted_app_1_r]; eauto.
Qed.

Lemma keyed_rows_above k l1 l2 :
  keyed_rows (l1 ++ (k :: l2)) -> Forall (fun rk => bytes_le k.2 rk.2) l2.
Proof.
  intros Hk. apply keyed_rows_app in Hk as [_ [_ Hs]]. cbn in Hs. inversion Hs as [|? ? _ Hall]; subst.
  rewrite Forall_fmap in Hall. exact Hall.
Qed.

(** Visiting a block is folding over all its rows: the visitor stops only
    where no later row can match. *)
Lemma find_rows_written l : forall st,
  keyed_rows l ->
  exists stopped, visit_rows (find_visit id eligible) (map to_msgpack l.*1) st =
                  Ok (fold_left find_pick l st, stopped).
Proof.
  induction l as [|[r k] l IH]; intros st Hk; cbn [fmap list_fmap map visit_rows fold_left fst]; [eauto|].
  pose proof (keyed_rows_above (r, k) [] l Hk) as Hall. cbn [snd] in Hall.
  destruct Hk as [Hf Hs]. apply Forall_cons in Hf as [(Hwf & Hr & Hkey) Hf]. cbn [fst snd] in *.
  rewrite find_visit_written with (k := k) by assumption. cbn [mbind result_bind].
  destruct (bytes_leb k id) eqn:E.
  - apply IH. split; [exact Hf|]. cbn in Hs. inversion Hs; assumption.
  - exists true. apply bytes_leb_gt in E. rewrite find_pick_skip; [reflexivity|].
    eapply Forall_impl; [exact Hall|]. cbv beta. intros rk Hle Heq. rewrite Heq in Hle.
    exact (bytes_lt_irrefl _ (bytes_lt_le_trans _ _ _ E Hle)).
Qed.

Definition kgroups_ok (kgroups : list (list (json * bytes))) : Prop :=
  Forall group_ok (map (fmap fst) kgroups) /\ keyed_rows (concat kgroups).

Lemma kgroups_cons kg kgroups :
  kgroups_ok (kg :: kgroups) ->
  group_ok kg.*1 /\ keyed_rows kg /\ kgroups_ok kgroups /\
  (exists r k l, kg = (r, k) :: l /\ rowId r = k /\
     Forall (fun rk => bytes_le k rk.2) (kg ++ concat kgroups)) /\
  (exists r k l, kg = l ++ [(r, k)] /\ rowId r = k /\ Forall (fun rk => bytes_le rk.2 k) kg).
Proof.
  intros [Hg Hk]. cbn [map] in Hg. apply Forall_cons in Hg as [Hg1 Hg]. cbn [concat] in Hk.
  pose proof Hk as Hall. apply keyed_rows_app in Hk as [Hk1 Hk2].
  assert (Hne : kg <> []). { intros ->. destruct Hg1 as [H _]. apply H. reflexivity. }
  split_and!; auto; [split; auto| |].
  - destruct kg as [|[r k] l]; [congruence|]. exists r, k, l. split; [reflexivity|].
    destruct Hk1 as [Hf _]. apply Forall_cons in Hf as [(Hwf & _ & Hkey) _].
    split; [exact (row_key_rowId r k Hwf Hkey)|]. apply (keyed_rows_above (r, k) []) in Hall as Ha.
    apply Forall_cons. split; [apply bytes_le_alt; auto | exact Ha].
  - destruct (exists_last Hne) as (l & [r k] & ->). exists r, k, l. split; [reflexivity|].
    destruct Hk1 as [Hf Hs]. apply Forall_app in Hf as [_ Hf]. apply Forall_cons in Hf as [(Hwf & _ & Hkey) _].
    split; [exact (row_key_rowId r k Hwf Hkey)|]. rewrite fmap_app in Hs.
    apply Forall_app. split; [|constructor; [apply bytes_le_alt; auto|constructor]].
    apply Forall_forall. intros rk Hin.
    refine (StronglySorted_app_1_elem_of _ _ _ _ _ Hs _ _); [apply list_elem_of_fmap; eauto | left].
Qed.

Lemma find_blocks_written kgroups : forall pre post st,
  kgroups_ok kgroups ->
  let groups := map (fmap fst) kgroups in
  find_blocks (pre ++ sst_blocks groups ++ post) id eligible (entries (blen pre) groups) st =
  Ok (fold_left find_pick (concat kgroups) st).1.
Proof.
  induction kgroups as [|kg kgroups IH]; intros pre post st Hk; cbn [map entries find_blocks concat]; [reflexivity|].
  apply kgroups_cons in Hk as (Hg & Hkr & Hks & (r & k & l & Hkg & Hid & Hmin) & _).
  assert (Hfirst : firstKey (block_entry (blen pre) kg.*1) = k).
  { rewrite Hkg. exact Hid. }
  rewrite Hfirst. destruct (bytes_leb k id) eqn:E.
  - unfold sst_blocks. cbn [flat_map]. rewrite <- app_assoc, readBlockPayload_written by exact Hg.
    cbn [mbind result_bind]. rewrite Nat2Z.id, visitBlockRows_written by apply Hg.
    destruct (find_rows_written kg st Hkr) as (stopped & Hv). rewrite Hv. cbn [mbind result_bind].
    rewrite fold_left_app, app_assoc.
    replace (blen pre + blen (block_image kg.*1)) with (blen (pre ++ block_image kg.*1))
      by (unfold blen; rewrite length_app; lia).
    apply IH, Hks.
  - rewrite find_pick_skip; [reflexivity|]. apply bytes_leb_gt in E.
    eapply Forall_impl; [exact Hmin|]. cbv beta. intros rk Hle Heq. rewrite Heq in Hle.
    exact (bytes_lt_irrefl _ (bytes_lt_le_trans _ _ _ E Hle)).
Qed.

Lemma find_lower_bound_written kgroups : forall pre post st,
  kgroups_ok kgroups ->
  let groups := map (fmap fst) kgroups in
  find_blocks (pre ++ sst_blocks groups ++ post) id eligible
    (lower_bound id (entries (blen pre) groups)) st =
  Ok (fold_left find_pick (concat kgroups) st).1.
Proof.
  induction kgroups as [|kg kgroups IH]; intros pre post st Hk; [reflexivity|].
  cbn [map entries lower_bound]. pose proof Hk as Hk0.
  apply kgroups_cons in Hk as (Hg & Hkr & Hks & _ & (r & k & l & Hkg & Hid & Hmax)).
  assert (Hlast : lastKey (block_entry (blen pre) kg.*1) = k).
  { unfold block_entry. cbn [lastKey]. rewrite Hkg, fmap_app. cbn [fmap list_fmap fst].
    rewrite List.last_last. exact Hid. }
  rewrite Hlast. destruct (bytes_ltb k id) eqn:E; [|apply (find_blocks_written (kg :: kgroups)), Hk0].
  cbn [concat]. rewrite fold_left_app, (find_pick_skip kg).
  - unfold sst_blocks. cbn [flat_map]. rewrite <- app_assoc, app_assoc.
    replace (blen pre + blen (block_image kg.*1)) with (blen (pre ++ block_image kg.*1))
      by (unfold blen; rewrite length_app; lia).
    apply IH, Hks.
  - apply bytes_ltb_lt in E. eapply Forall_impl; [exact Hmax|]. cbv beta. intros rk Hle Heq.
    rewrite Heq in Hle. exact (bytes_lt_irrefl _ (bytes_lt_le_trans _ _ _ E Hle)).
Qed.

(** The fold keeps the newest candidate, the last one among equals. *)
Definition newest_candidate (l : list (json * bytes)) (st : option json * option Z) : Prop :=
  match st.1 with
  | None => Forall (fun rk => candidate rk = false) l
  | Some j => exists l1 r k l2, l = l1 ++ (r, k) :: l2 /\ candidate (r, k) = true /\
      j = canon r /\ st.2 = row_version r /\
      Forall (fun rk => candidate rk = true -> version_le (row_version rk.1) (row_version r) = true) l1 /\
      Forall (fun rk => candidate rk = true -> version_le (row_version r) (row_version rk.1) = false) l2
  end.

Lemma version_le_total a b : version_le a b = false -> version_le b a = true.
Proof.
  destruct a as [x|], b as [y|]; cbn; try congruence.
  destruct (Z.leb_spec x y), (Z.leb_spec y x); auto; lia.
Qed.

Lemma version_le_trans a b c : version_le a b = true -> version_le b c = true -> version_le a c = true.
Proof.
  destruct a as [x|], b as [y|], c as [z|]; cbn; try congruence.
  rewrite !Z.leb_le. lia.
Qed.

Lemma find_pick_newest l : newest_candidate l (fold_left find_pick l (None, None)).
Proof.
  induction l as [|[r k] l IH] using rev_ind; [constructor|].
  rewrite fold_left_app. cbn [fold_left]. set (st := fold_left find_pick l (None, None)) in *.
  unfold find_pick. destruct (candidate (r, k)) eqn:Ec.
  - cbn [fst snd]. destruct (match st.1 with Some _ => _ | None => true end) eqn:Er.
    + exists l, r, k, []. cbn [fst snd]. split_and!; auto.
      unfold newest_candidate in IH. destruct (st.1) as [j|].
      * destruct IH as (l1 & r0 & k0 & l2 & -> & _ & _ & Hv & H1 & H2). rewrite Hv in Er.
        apply Forall_app. split; [|constructor].
        -- eapply Forall_impl; [exact H1|]. cbv beta. intros rk Hle Hc.
           eapply version_le_trans; [apply Hle, Hc | exact Er].
        -- intros _. exact Er.
        -- eapply Forall_impl; [exact H2|]. cbv beta. intros rk Hlt Hc.
           eapply version_le_trans; [apply version_le_total, Hlt, Hc | exact Er].
      * eapply Forall_impl; [exact IH|]. cbv beta. congruence.
    + unfold newest_candidate in *. destruct (st.1) as [j|]; [|discriminate].
      destruct IH as (l1 & r0 & k0 & l2 & -> & Hc0 & Hj & Hv & H1 & H2).
      exists l1, r0, k0, (l2 ++ [(r, k)]). rewrite <- app_assoc. cbn [app]. split_and!; auto.
      apply Forall_app. split; [exact H2|]. constructor; [|constructor]. intros _. cbn [fst].
      rewrite <- Hv. exact Er.
  - unfold newest_candidate in *. destruct (st.1) as [j|].
    + destruct IH as (l1 & r0 & k0 & l2 & -> & Hc0 & Hj & Hv & H1 & H2).
      exists l1, r0, k0, (l2 ++ [(r, k)]). rewrite <- app_assoc. cbn [app]. split_and!; auto.
      apply Forall_app. split; [exact H2|]. constructor; [|constructor]. congruence.
    + apply Forall_app. split; [exact IH|]. constructor; [exact Ec|constructor].
Qed.
End Find.

Lemma split_groups {B} (groups : list (list json)) : forall (l : list (json * B)),
  concat groups = l.*1 ->
  exists kgroups : list (list (json * B)), map (fmap fst) kgroups = groups /\ concat kgroups = l.
Proof.
  induction groups as [|g groups IH]; intros l Hl; cbn [concat] in Hl.
  - exists []. destruct l; [auto|discriminate].
  - assert (Hsplit : l.*1 = g ++ concat groups) by congruence.
    pose proof (take_drop (length g) l) as Htd.
    assert (H1 : (take (length g) l).*1 = g).
    { rewrite fmap_take, Hsplit. apply take_app_length. }
    assert (H2 : concat groups = (drop (length g) l).*1).
    { rewrite fmap_drop, Hsplit. symmetry. apply drop_app_length. }
    destruct (IH _ H2) as (kgs & Hm & Hc). exists (take (length g) l :: kgs).
    cbn [map concat]. rewrite H1, Hm, Hc, Htd. auto.
Qed.

(** Point lookup finds the newest version: on an SST published by
    [writeSst] with sorted keys (and a coherent metadata cache), [findInSst]
    never errs; it returns nothing exactly when no eligible row has the id, and
    otherwise the decoded row with the highest version among the eligible rows
    with the id (a missing version ranks lowest), the last one written among
    equals, although it only reads the blocks whose key range can hold the id
    and runs may cross blocks. *)
Theorem findInSst_newest io s p rows target stats s' id eligible :
  sst_coherent s -> keyed_rows rows -> Forall (fun rk => key_fits rk.2) rows ->
  ws_blocks stats <= kMaxBlocks -> ws_stored stats < 2 ^ 63 ->
  writeSst io s p rows.*1 target = (Ok stats, s') ->
  exists found, (findInSst s' p id eligible).1 = Ok found /\
    match found with
    | None => Forall (fun rk => candidate id eligible rk = false) rows
    | Some j => exists l1 r k l2, rows = l1 ++ (r, k) :: l2 /\ candidate id eligible (r, k) = true /\
        j = canon r /\
        Forall (fun rk => candidate id eligible rk = true ->
                  version_le (row_version rk.1) (row_version r) = true) l1 /\
        Forall (fun rk => candidate id eligible rk = true ->
                  version_le (row_version r) (row_version rk.1) = false) l2
    end.
Proof.
  intros Hc Hk Hkf Hnb Hsz Hw.
  assert (Hkeys : Forall (fun r => key_fits (rowId r)) rows.*1).
  { apply Forall_fmap. destruct Hk as [Hf _]. rewrite Forall_forall in *. intros rk Hin.
    destruct (Hf rk Hin) as (Hwf & _ & Hkey). unfold compose. rewrite (row_key_rowId _ _ Hwf Hkey). apply Hkf, Hin. }
  destruct (writeSst_readable _ _ _ _ _ _ _ Hkeys Hnb Hsz Hw) as (groups & Hcat & Hrd & Hf & _).
  pose proof (writeSst_coherent _ _ _ _ _ _ _ Hc Hw) as Hc'. pose proof (clamp_target_range target).
  destruct (loadMetadata_written s' p _ (clamp_target target) groups Hc' ltac:(lia) Hrd Hf) as (H1 & H2 & _).
  destruct (split_groups groups rows Hcat) as (kgroups & Hkg & Hkc).
  assert (Hok : kgroups_ok kgroups).
  { split; [rewrite Hkg; apply Hrd | rewrite Hkc; exact Hk]. }
  unfold findInSst. destruct (loadMetadata s' p) as [md s2]. cbn [fst snd] in *. subst md.
  unfold read_file. rewrite H2, Hf. cbn [fmap option_fmap option_map f_data fst blocks].
  destruct (sst_image_blocks (clamp_target target) groups) as (hd & Hhd & ->).
  replace 64 with (blen hd) by (unfold blen; rewrite Hhd; reflexivity).
  pose proof (find_lower_bound_written id eligible kgroups hd (index_bytes (entries (blen hd) groups))
                (None, None) Hok) as Hfind.
  cbv zeta in Hfind. rewrite Hkg, Hkc in Hfind. rewrite Hfind.
  eexists. split; [reflexivity|].
  pose proof (find_pick_newest id eligible rows) as Hn. unfold newest_candidate in Hn.
  destruct (fold_left _ rows _) as [[j|] v]; cbn [fst snd] in *; [|exact Hn].
  destruct Hn as (l1 & r & k & l2 & ? & ? & ? & _ & ? & ?). exists l1, r, k, l2. auto.
Qed.

End SstQuery.

#[local] Existing Instance rle_lz4.
#[local] Existing Instance rle_lz4_correct.
#[local] Existing Instance digits_text.

#[local] Instance digits_text_laws : JsonTextLaws.
Proof. split. intros v _. destruct v; cbn; try reflexivity. destruct (_ <=? _); reflexivity. Qed.

Definition find_rows : list (json * bytes) :=
  [(JObject [(str "id", JString (str "a")); (str "version", JInt 7)], str "a");
   (JObject [(str "id", JString (str "a")); (str "version", JInt 3)], str "a");
   (JObject [(str "id", JString (str "b"))], str "b")].

Lemma find_rows_keyed : keyed_rows find_rows.
Proof.
  assert (Hr : forall k m, (0 < length k <= 4)%nat -> row_ok ((str "id", JString k) :: m) ->
    json_wf (JObject ((str "id", JString k) :: m)) /\
    row_readable (JObject ((str "id", JString k) :: m)) /\
    row_key (JObject ((str "id", JString k) :: m)) = Some k).
  { intros k m Hk Hok. split; [apply Hok|]. split; [|reflexivity]. eexists _, k. split; [reflexivity|].
    split; [exact Hok|]. split; [reflexivity|]. destruct k; [simpl in Hk; lia|discriminate]. }
  split; [|repeat constructor; discriminate].
  apply Forall_forall. intros rk Hin. repeat (apply elem_of_cons in Hin as [->|Hin]); [..|inversion Hin];
    apply Hr; try (simpl; lia); (split; [|repeat constructor]);
    apply json_wf_object; (split; [simpl; lia|]); (split; [repeat constructor|]);
    repeat constructor; cbn; unfold blen, I64_MIN, I64_MAX; try lia; reflexivity.
Qed.

Definition find_written : result SstWriteStats * store :=
  writeSst sst_io_good empty_store (str "t.sst") find_rows.*1 4096.

Lemma findInSst_newest_witness :
  (findInSst find_written.2 (str "t.sst") (str "a") (fun _ => true)).1 = Ok (head (map canon find_rows.*1)) /\
  exists found, (findInSst find_written.2 (str "t.sst") (str "a") (fun _ => true)).1 = Ok found.
Proof.
  split; [vm_compute; reflexivity|].
  destruct (find_written.1) as [stats|] eqn:E; [|vm_compute in E; discriminate].
  assert (Hb : ws_blocks stats <= kMaxBlocks /\ ws_stored stats < 2 ^ 63).
  { vm_compute in E. injection E as <-. vm_compute. split; [discriminate|reflexivity]. }
  destruct (findInSst_newest sst_io_good empty_store (str "t.sst") find_rows 4096 stats find_written.2
              (str "a") (fun _ => true)) as (found & Hf & _).
  - apply empty_store_coherent.
  - apply find_rows_keyed.
  - repeat constructor; vm_compute; discriminate.
  - apply Hb.
  - apply Hb.
  - rewrite <- E. apply surjective_pairing.
  - exists found. exact Hf.
Defined.
