(* ===== verification/SstMerge.v ===== *)
(** * The newest-version merge over several SSTs (storage_format_v2.cpp)

    [visitLatestSstRows] merges any number of SSTs, oldest to newest, with a
    priority queue of cursors.  It is related to a reference that knows nothing
    of cursors, blocks or queues: per id, the last row of highest version in
    file order. *)

From S2P Require Import Prelude FileSys Json Msgpack RowView Checksum Store Sst SstCursor SstQuery.
From stdpp Require Import base list gmap strings sorting.
From Stdlib Require Import ZArith Lia.

Open Scope Z_scope.

(** ** The reference *)

Section Reference.
Context `{JT : JsonText} (indexFields includeDeleted : bool) (eligible : MsgpackRowView -> bool).

Definition view (r : json) : MsgpackRowView := mkRowView (to_msgpack r) indexFields.

(** Of two candidate rows the later one wins unless its version is lower. *)
Definition join (older newer : option json) : option json :=
  match older, newer with
  | Some o, Some n => if version_le (row_version o) (row_version n) then newer else older
  | Some _, None => older
  | None, _ => newer
  end.

Definition keep (r : json) : option json := if eligible (view r) then Some r else None.

Definition newest (l : list json) : option json := fold_left (fun w r => join w (keep r)) l None.

(** All versions of [id], oldest file first. *)
Definition rows_of (id : bytes) (files : list (list (json * bytes))) : list json :=
  (filter (fun rk : json * bytes => rk.2 = id) (concat files)).*1.

Definition row_deleted (r : json) : bool :=
  match json_find (str "_deleted") r with Some (JBool b) => b | _ => false end.

Definition latest_row (files : list (list (json * bytes))) (id : bytes) : option MsgpackRowView :=
  r ← newest (rows_of id files);
  if includeDeleted || negb (row_deleted r) then Some (view r) else None.

Lemma join_assoc a b c : join a (join b c) = join (join a b) c.
Proof.
  destruct a as [a|], b as [b|], c as [c|]; try reflexivity; unfold join.
  - destruct (version_le (row_version b) (row_version c)) eqn:Ebc;
    destruct (version_le (row_version a) (row_version b)) eqn:Eab; rewrite ?Ebc; try reflexivity.
    + rewrite (version_le_trans _ _ _ Eab Ebc). reflexivity.
    + destruct (version_le (row_version a) (row_version c)) eqn:Eac; [|reflexivity].
      rewrite (version_le_trans _ _ _ Eac (version_le_total _ _ Ebc)) in Eab. discriminate.
  - destruct (version_le _ _); reflexivity.
Qed.

Lemma join_None_r a : join a None = a.
Proof. destruct a; reflexivity. Qed.

Lemma newest_from l : forall w, fold_left (fun w r => join w (keep r)) l w = join w (newest l).
Proof.
  unfold newest. induction l as [|r l IH]; intros w; cbn [fold_left].
  - rewrite join_None_r. reflexivity.
  - rewrite IH, (IH (join None (keep r))), <- join_assoc. reflexivity.
Qed.

Lemma newest_app l1 l2 : newest (l1 ++ l2) = join (newest l1) (newest l2).
Proof. unfold newest at 1. rewrite fold_left_app. apply newest_from. Qed.

Lemma rows_of_app id f1 f2 : rows_of id (f1 ++ f2) = rows_of id f1 ++ rows_of id f2.
Proof. unfold rows_of. rewrite concat_app, filter_app, fmap_app. reflexivity. Qed.
End Reference.

Section SstMerge.
Context `{JT : JsonText} `{LZ : Lz4} `{LZC : !Lz4Correct}.

(** ** Cursors as lists of rows *)

Lemma loadBlock_index c c' : loadBlock c = Ok c' -> c_indexFields c' = c_indexFields c.
Proof. unfold loadBlock. intros Hl. ok_inv. subst c'. reflexivity. Qed.

Lemma next_block_index fuel : forall c c', next_block fuel c = Ok (Some c') -> c_indexFields c' = c_indexFields c.
Proof.
  induction fuel as [|fuel IH]; intros c c'; cbn [next_block]; [discriminate|].
  destruct (_ <? _); [intros [= <-]; reflexivity|].
  destruct (_ <=? _); [destruct (_ || _); discriminate|].
  destruct (loadBlock c) as [c1|] eqn:El; cbn [mbind result_bind]; [|discriminate].
  intros Hn. rewrite (IH _ _ Hn). apply loadBlock_index, El.
Qed.

Lemma check_id_view c row c' :
  check_id c row = Ok c' -> c_indexFields c' = c_indexFields c /\ c_current c' = row.
Proof. unfold check_id. intros Hc. ok_inv. subst c'. auto. Qed.

(** The current row of a cursor is indexed as the cursor was opened. *)
Lemma advance_view c c' :
  advance c = Ok c' -> c_valid c' = true ->
  c_indexFields c' = c_indexFields c /\ exists data, c_current c' = mkRowView data (c_indexFields c).
Proof.
  unfold advance. intros Ha Hv. destruct (c_binary c); cbn [negb] in Ha.
  - destruct (next_block _ c) as [[c1|]|] eqn:En; cbn [mbind result_bind] in Ha; [| |discriminate].
    + apply next_block_index in En. ok_inv. apply check_id_view in Ha as [H1 H2]. cbn in H1, H2.
      rewrite H1, H2, En. eauto.
    + apply Ok_inj in Ha. subst c'. discriminate.
  - ok_inv. destruct x as [[packed rest]|]; [|apply Ok_inj in Ha; subst c'; discriminate].
    apply check_id_view in Ha as [H1 H2]. cbn in H1, H2. rewrite H1, H2. eauto.
Qed.

Lemma cursor_open_view data i c :
  cursor_open data i = Ok c -> c_valid c = true ->
  c_indexFields c = i /\ exists d, c_current c = mkRowView d i.
Proof.
  unfold cursor_open. intros Ho Hv. ok_inv.
  destruct (take_bytes 64 x) as [[header ?]|].
  - destruct (bytes_eqb _ _).
    + destruct (parseSstHeader header) as [info|]; cbn [mbind result_bind] in Ho; [|discriminate].
      apply advance_view in Ho as [H1 H2]; auto.
    + apply advance_view in Ho as [H1 H2]; auto.
  - apply advance_view in Ho as [H1 H2]; auto.
Qed.

Section Merge.
Context (i : bool) (eligible : MsgpackRowView -> bool).

(** The cursor shows the head of [l] and has its tail to come. *)
Definition stands (c : cursor) (l : list (json * bytes)) : Prop :=
  match l with
  | [] => c_valid c = false
  | (r, k) :: l' => showing c r k l'.*1 /\ c_indexFields c = i /\ c_current c = view i r
  end.

Definition in_order (l : list (json * bytes)) : Prop := keyed l.*1 l.*2.

Lemma in_order_cons r k l :
  in_order ((r, k) :: l) -> row_readable r /\ in_order l /\ Forall (bytes_le k) l.*2.
Proof. apply keyed_tail. Qed.

Lemma stands_showing c r k l :
  showing c r k l.*1 -> c_indexFields c = i -> (exists d, c_current c = mkRowView d i) ->
  stands c ((r, k) :: l).
Proof.
  intros Hs Hi (d & Hd). split; [exact Hs|]. split; [exact Hi|].
  destruct Hs as (_ & _ & _ & (i' & Hc) & _). rewrite Hd. unfold view. f_equal.
  rewrite <- (mkRowView_data d i), <- Hd, Hc. apply mkRowView_data.
Qed.

Lemma stands_next c r k l :
  stands c ((r, k) :: l) -> in_order ((r, k) :: l) -> exists c', cursor_next c = Ok c' /\ stands c' l.
Proof.
  intros (Hs & Hi & _) Hk. apply in_order_cons in Hk as (_ & Hk & Hall).
  pose proof (showing_next c r k _ _ Hs Hk Hall) as Hn. unfold cursor_next.
  destruct l as [|[r' k'] l]; cbn [fmap list_fmap] in Hn; destruct Hn as (c' & Ha & Hn); exists c'.
  - split; [exact Ha | exact Hn].
  - split; [exact Ha|]. cbn [fst snd] in Hn.
    destruct (advance_view c c' Ha) as [H1 H2]; [apply Hn|]. rewrite Hi in H1, H2.
    apply stands_showing; assumption.
Qed.

Lemma stands_head c l :
  stands c l -> c_valid c = match l with [] => false | _ => true end /\
  cursor_id c = match l with [] => [] | (_, k) :: _ => k end.
Proof.
  unfold cursor_id. destruct l as [|[r k] l]; cbn [stands].
  - intros ->. auto.
  - intros ((-> & -> & _) & _). auto.
Qed.

(** ** One id in one file *)

Fixpoint take_run (id : bytes) (l : list (json * bytes)) : list json :=
  match l with
  | (r, k) :: l' => if bytes_eqb k id then r :: take_run id l' else []
  | [] => []
  end.

Fixpoint drop_run (id : bytes) (l : list (json * bytes)) : list (json * bytes) :=
  match l with
  | (r, k) :: l' => if bytes_eqb k id then drop_run id l' else l
  | [] => []
  end.

Definition enc (r : json) (file : nat) : bytes * option Z * nat := (to_msgpack r, row_version r, file).

(** [w] is the winner after the candidates with best row [b] of file [file]
    and the best row [W] of the newer files. *)
Definition winner_is (file : nat) (b : option json) (W : option (json * nat)) (w : winner) : Prop :=
  match W with
  | None => w = (fun r => enc r file) <$> b
  | Some (r', f) => (file < f)%nat /\
      w = match b with
          | None => Some (enc r' f)
          | Some r => Some (if version_le (row_version r) (row_version r') then enc r' f else enc r file)
          end
  end.

Lemma latest_replaces_same d v f v' file :
  latest_replaces (Some (d, v, f)) v' file =
  if (f <=? file)%nat then version_le v v' else negb (version_le v' v).
Proof.
  unfold latest_replaces, version_le.
  destruct (f <=? file)%nat, v as [a|], v' as [b|]; rewrite ?andb_true_r, ?andb_false_r, ?orb_false_r;
    cbn [orb negb]; try reflexivity.
  - destruct (bool_decide_reflect (Some b = Some a)) as [[= ->]|Hne].
    + rewrite Z.leb_refl, orb_true_r. reflexivity.
    + rewrite !orb_false_r. destruct (Z.ltb_spec a b), (Z.leb_spec a b); try reflexivity; try lia.
      exfalso. apply Hne. f_equal. lia.
  - destruct (Z.ltb_spec a b), (Z.leb_spec b a); try reflexivity; lia.
Qed.

Lemma consider_step file b W w r :
  row_readable r -> winner_is file b W w ->
  winner_is file (join b (keep i eligible r)) W (consider eligible file (view i r) w).
Proof.
  intros Hr Hw. unfold consider.
  assert (Hver : rowVersion (view i r) = row_version r) by (apply rowVersion_written, Hr). rewrite Hver.
  assert (Hd : rv_data (view i r) = to_msgpack r) by apply mkRowView_data. rewrite Hd.
  unfold keep. destruct (eligible (view i r)); [|rewrite andb_false_r, join_None_r; exact Hw].
  rewrite andb_true_r. change (to_msgpack r, row_version r, file) with (enc r file).
  unfold winner_is in *. destruct W as [[r' f]|], b as [b|]; cbn [join fmap option_fmap option_map] in *.
  - destruct Hw as [Hlt ->]. split; [exact Hlt|].
    destruct (version_le (row_version b) (row_version r')) eqn:Eb;
      unfold enc at 1; rewrite latest_replaces_same.
    + rewrite (proj2 (Nat.leb_gt _ _)) by exact Hlt.
      destruct (version_le (row_version r) (row_version r')) eqn:Er; cbn [negb].
      * destruct (version_le (row_version b) (row_version r)); rewrite ?Er, ?Eb; reflexivity.
      * rewrite (version_le_trans _ _ _ Eb (version_le_total _ _ Er)), Er. reflexivity.
    + rewrite Nat.leb_refl. destruct (version_le (row_version b) (row_version r)) eqn:Ebr.
      * destruct (version_le (row_version r) (row_version r')) eqn:Er; [|reflexivity].
        rewrite (version_le_trans _ _ _ Ebr Er) in Eb. discriminate.
      * rewrite Eb. reflexivity.
  - destruct Hw as [Hlt ->]. split; [exact Hlt|]. unfold enc at 1. rewrite latest_replaces_same.
    rewrite (proj2 (Nat.leb_gt _ _)) by exact Hlt.
    destruct (version_le (row_version r) (row_version r')); reflexivity.
  - subst w. unfold enc at 1. rewrite latest_replaces_same, Nat.leb_refl.
    destruct (version_le _ _); reflexivity.
  - subst w. reflexivity.
Qed.

Lemma run_file id file : forall l c b W w,
  stands c l -> in_order l -> winner_is file b W w ->
  exists c' w', run_n (S (length (take_run id l))) (run_step eligible id file) (c, w) = inr (Ok (c', w')) /\
    stands c' (drop_run id l) /\
    winner_is file (fold_left (fun w r => join w (keep i eligible r)) (take_run id l) b) W w'.
Proof.
  induction l as [|[r k] l IH]; intros c b W w Hs Hk Hw; pose proof (stands_head c _ Hs) as [Hv Hid].
  - exists c, w. cbn [take_run length run_n]. unfold run_step. rewrite Hv. auto.
  - cbn [take_run drop_run]. destruct (bytes_eqb k id) eqn:Ek.
    + pose proof (in_order_cons _ _ _ Hk) as (Hr & Hk' & _).
      destruct (stands_next c r k l Hs Hk) as (c1 & Hc1 & Hs1).
      destruct Hs as (_ & _ & Hcur).
      destruct (IH c1 (join b (keep i eligible r)) W (consider eligible file (view i r) w) Hs1 Hk'
                  (consider_step _ _ _ _ _ Hr Hw)) as (c' & w' & Hrun & Hs' & Hw').
      exists c', w'. split; [|split; [exact Hs' | exact Hw']].
      cbn [length]. remember (S (length (take_run id l))) as n. cbn [run_n].
      unfold run_step at 1. rewrite Hv, Hid, Ek, Hcur, Hc1. cbn [andb]. exact Hrun.
    + exists c, w. cbn [length run_n fold_left]. unfold run_step. rewrite Hv, Hid, Ek. auto.
Qed.

Lemma take_run_length id l : (length (take_run id l) <= length l)%nat.
Proof.
  induction l as [|[r k] l IH]; cbn [take_run length]; [lia|]. destruct (bytes_eqb k id); cbn [length]; lia.
Qed.

Lemma consume_run_file id file l c W w :
  stands c l -> in_order l -> Z.of_nat (length l) < 2 ^ 63 -> winner_is file None W w ->
  exists c' w', consume_run eligible id file c w = Ok (c', w') /\ stands c' (drop_run id l) /\
    winner_is file (newest i eligible (take_run id l)) W w'.
Proof.
  intros Hs Hk Hlen Hw. destruct (run_file id file l c None W w Hs Hk Hw) as (c' & w' & Hrun & Hs' & Hw').
  exists c', w'. split; [|split; [exact Hs' | exact Hw']].
  unfold consume_run. pose proof (take_run_length id l).
  rewrite (while_pow2_result _ 64 _ _ _ Hrun); [reflexivity|]. change (Z.of_nat 64) with 64. lia.
Qed.

(** ** The priority queue *)

Definition item_lt (a b : Item) : Prop := item_before a b = true.

Lemma item_lt_alt a b :
  item_lt a b <-> bytes_lt (it_id a) (it_id b) \/ (it_id a = it_id b /\ (it_index b < it_index a)%nat).
Proof.
  unfold item_lt, item_before. destruct (bytes_eqb (it_id a) (it_id b)) eqn:E; cbn [negb].
  - apply bytes_eqb_eq in E. rewrite Nat.ltb_lt, E. split; [auto|].
    intros [H|[_ H]]; [destruct (bytes_lt_irrefl _ H) | exact H].
  - apply bytes_eqb_neq in E. rewrite bytes_ltb_lt. split; [auto|]. intros [H|[H _]]; [exact H | congruence].
Qed.

Lemma item_lt_trans a b c : item_lt a b -> item_lt b c -> item_lt a c.
Proof.
  rewrite !item_lt_alt. intros [H1|[E1 H1]] [H2|[E2 H2]].
  - left. eapply bytes_lt_trans; eauto.
  - left. rewrite <- E2. exact H1.
  - left. rewrite E1. exact H2.
  - right. split; [congruence | lia].
Qed.

Lemma item_before_total a b : a <> b -> item_before a b = false -> item_lt b a.
Proof.
  intros Hne Hf. rewrite item_lt_alt. destruct (bytes_lt_trichotomy (it_id a) (it_id b)) as [H|[H|H]]; auto.
  - assert (item_lt a b) by (apply item_lt_alt; auto). unfold item_lt in *. congruence.
  - right. split; [auto|]. destruct (Nat.lt_trichotomy (it_index a) (it_index b)) as [Hi|[Hi|Hi]]; auto.
    + destruct a, b; cbn in *. congruence.
    + assert (item_lt a b) by (apply item_lt_alt; auto). unfold item_lt in *. congruence.
Qed.

Lemma heap_push_elem x h y : y ∈ heap_push x h <-> y = x \/ y ∈ h.
Proof.
  induction h as [|z h IH]; cbn [heap_push]; [rewrite list_elem_of_singleton, elem_of_nil; tauto|].
  destruct (item_before x z); rewrite !elem_of_cons, ?IH, ?elem_of_cons; tauto.
Qed.

Lemma heap_push_sorted x h : StronglySorted item_lt h -> x ∉ h -> StronglySorted item_lt (heap_push x h).
Proof.
  induction 1 as [|z h Hs IH Hall]; intros Hx; cbn [heap_push]; [repeat constructor|].
  destruct (item_before x z) eqn:E.
  - constructor; [constructor; assumption|]. constructor; [exact E|].
    eapply Forall_impl; [exact Hall|]. intros y Hy. exact (item_lt_trans x z y E Hy).
  - constructor; [apply IH; set_solver|]. apply Forall_forall. intros y Hy%heap_push_elem.
    destruct Hy as [->|Hy]; [apply item_before_total; set_solver|].
    rewrite Forall_forall in Hall. auto.
Qed.

Lemma pop_matching_spec id h :
  StronglySorted item_lt h -> Forall (fun x => bytes_le id (it_id x)) h ->
  exists ms h', pop_matching id h = (ms, h') /\ h = (mkItem id <$> ms) ++ h' /\
    StronglySorted (fun a b => b < a)%nat ms /\ StronglySorted item_lt h' /\
    Forall (fun x => bytes_lt id (it_id x)) h'.
Proof.
  induction 1 as [|y h Hs IH Hall]; intros Hmin; cbn [pop_matching].
  - exists [], []. repeat split; constructor.
  - apply Forall_cons in Hmin as [Hy Hmin]. destruct (bytes_eqb (it_id y) id) eqn:E.
    + apply bytes_eqb_eq in E. destruct (IH Hmin) as (ms & h' & -> & Hh & Hd & Hs' & Hgt).
      exists (it_index y :: ms), h'. split_and!; auto.
      * cbn [fmap list_fmap app]. rewrite Hh. f_equal. destruct y. cbn in *. congruence.
      * constructor; [exact Hd|]. rewrite Hh in Hall. apply Forall_app in Hall as [Hall _].
        rewrite Forall_fmap in Hall. eapply Forall_impl; [exact Hall|]. intros j Hj. unfold compose in Hj.
        apply item_lt_alt in Hj. cbn [it_id it_index] in Hj. rewrite E in Hj.
        destruct Hj as [Hj|[_ Hj]]; [destruct (bytes_lt_irrefl _ Hj) | exact Hj].
    + apply bytes_eqb_neq in E. exists [], (y :: h). split_and!; auto; [constructor|constructor; assumption|].
      apply bytes_le_alt in Hy as [Hy|Hy]; [|congruence]. constructor; [exact Hy|].
      eapply Forall_impl; [exact Hall|]. intros x Hx%item_lt_alt.
      destruct Hx as [Hx|[Hx _]]; [eapply bytes_lt_trans; eauto | rewrite <- Hx; exact Hy].
Qed.

(** ** The files and the queue *)

Definition head_item (rem : list (list (json * bytes))) (x : Item) : Prop :=
  exists r l, rem !! it_index x = Some ((r, it_id x) :: l).

(** The queue holds the head of every unfinished file but those in [skip]. *)
Definition heap_for (skip : list nat) (rem : list (list (json * bytes))) (h : list Item) : Prop :=
  StronglySorted item_lt h /\ forall x, x ∈ h <-> head_item rem x /\ it_index x ∉ skip.

Definition file_ok (l : list (json * bytes)) : Prop := in_order l /\ Z.of_nat (length l) < 2 ^ 63.

Definition runs (id : bytes) (rem : list (list (json * bytes))) : list json := concat (take_run id <$> rem).

Lemma drop_run_idem id l : drop_run id (drop_run id l) = drop_run id l.
Proof.
  induction l as [|[r k] l IH]; cbn [drop_run]; [reflexivity|].
  destruct (bytes_eqb k id) eqn:E; [exact IH|]. cbn [drop_run]. rewrite E. reflexivity.
Qed.

Lemma take_drop_run id l : take_run id (drop_run id l) = [].
Proof.
  induction l as [|[r k] l IH]; cbn [drop_run]; [reflexivity|].
  destruct (bytes_eqb k id) eqn:E; [exact IH|]. cbn [take_run]. rewrite E. reflexivity.
Qed.

Lemma take_run_nil id l : take_run id l = [] -> drop_run id l = l.
Proof. destruct l as [|[r k] l]; cbn [take_run drop_run]; [auto|]. destruct (bytes_eqb k id); [discriminate|auto]. Qed.

Lemma drop_run_suffix id l : exists l0, l = l0 ++ drop_run id l.
Proof.
  induction l as [|[r k] l [l0 IH]]; cbn [drop_run]; [exists []; reflexivity|].
  destruct (bytes_eqb k id); [|exists []; reflexivity]. exists ((r, k) :: l0). cbn [app]. congruence.
Qed.

Lemma drop_run_order id l : in_order l -> in_order (drop_run id l).
Proof.
  intros Hk. destruct (drop_run_suffix id l) as [l0 Hl]. rewrite Hl in Hk. clear Hl.
  unfold in_order, keyed in *. rewrite !fmap_app in Hk.
  destruct Hk as [Hf Hs]. split; [|eapply StronglySorted_app_1_r; exact Hs].
  apply Forall2_app_inv in Hf as [_ Hf]; [exact Hf|]. rewrite !length_fmap. reflexivity.
Qed.

Lemma drop_run_ok id l : file_ok l -> file_ok (drop_run id l).
Proof.
  intros [Hk Hlen]. split; [apply drop_run_order, Hk|].
  destruct (drop_run_suffix id l) as [l0 Hl]. rewrite Hl, length_app in Hlen. lia.
Qed.

(** ** All files of one id *)

(** The winner over the files handled so far, all newer than those in [ms]. *)
Definition winner_above (ms : list nat) (W : option (json * nat)) (w : winner) : Prop :=
  w = (fun rf : json * nat => enc rf.1 rf.2) <$> W /\
  match W with None => True | Some (_, f) => Forall (fun m => m < f)%nat ms end.

Lemma winner_above_run m ms W w b w' :
  StronglySorted (fun a b => b < a)%nat (m :: ms) -> winner_above (m :: ms) W w ->
  winner_is m None W w /\
  (winner_is m b W w' -> exists W', winner_above ms W' w' /\ fst <$> W' = join b (fst <$> W)).
Proof.
  intros Hd [-> Hf]. inversion Hd as [|? ? _ Hm]; subst. unfold winner_is.
  destruct W as [[r' f]|]; cbn [fmap option_fmap option_map fst snd].
  - apply Forall_cons in Hf as [Hmf Hf]. split; [auto|]. intros [_ ->]. destruct b as [r|]; cbn [join].
    + destruct (version_le _ _); [exists (Some (r', f)) | exists (Some (r, m))]; repeat split; auto.
    + exists (Some (r', f)). repeat split; auto.
  - split; [auto|]. intros ->. destruct b as [r|]; cbn [join fmap option_fmap option_map].
    + exists (Some (r, m)). repeat split; auto.
    + exists None. repeat split.
Qed.

Lemma runs_last id rem m l :
  rem !! m = Some l -> (forall j l', rem !! j = Some l' -> (m < j)%nat -> take_run id l' = []) ->
  runs id rem = runs id (<[m := drop_run id l]> rem) ++ take_run id l.
Proof.
  intros Hm Hlater. apply list_elem_of_split_length in Hm as (A & B & -> & Hlen).
  rewrite insert_app_r_alt by lia. rewrite Hlen, Nat.sub_diag. cbn [insert list_insert].
  assert (HB : runs id B = []).
  { assert (Hall : Forall (fun l' => take_run id l' = []) B).
    { apply Forall_lookup. intros j l' Hj. apply (Hlater (S (length A + j)) l'); [|lia].
      rewrite lookup_app_r by lia. replace (S (length A + j) - length A)%nat with (S j) by lia. exact Hj. }
    unfold runs. clear -Hall. induction Hall as [|l' B Hl _ IH]; [reflexivity|]. cbn. rewrite Hl. exact IH. }
  unfold runs in *. rewrite !fmap_app, !concat_app. cbn [fmap list_fmap concat].
  change ((fix go (l0 : list (list (json * bytes))) : list (list json) :=
    match l0 with [] => [] | x :: l1 => take_run id x :: go l1 end) B) with (take_run id <$> B).
  rewrite HB, take_drop_run, !app_nil_r. reflexivity.
Qed.

Lemma heap_for_push m ms rem h l :
  rem !! m = Some l -> m ∉ ms -> heap_for (m :: ms) rem h ->
  forall l', heap_for ms (<[m := l']> rem)
    (match l' with (_, k) :: _ => heap_push (mkItem k m) h | [] => h end).
Proof.
  intros Hm Hnin [Hs Hh] l'. assert (Hlt : (m < length rem)%nat) by (eapply lookup_lt_Some; eauto).
  assert (Hmem : forall x, x ∈ h -> it_index x <> m).
  { intros x Hx Heq. apply Hh in Hx as [_ Hx]. apply Hx. rewrite Heq. left. }
  assert (Hitem : forall x, it_index x <> m -> x ∈ h <-> head_item (<[m:=l']> rem) x /\ it_index x ∉ ms).
  { intros x Hx. rewrite Hh. unfold head_item. rewrite list_lookup_insert_ne by congruence.
    rewrite not_elem_of_cons. tauto. }
  destruct l' as [|[r k] l'].
  - split; [exact Hs|]. intros x. destruct (decide (it_index x = m)) as [Heq|Hne]; [|apply Hitem, Hne].
    split; [intros Hx; destruct (Hmem x Hx Heq)|]. intros [(r & l0 & Hl) _].
    rewrite Heq, list_lookup_insert_eq in Hl by exact Hlt. discriminate.
  - split; [apply heap_push_sorted; [exact Hs|]; intros Hx; exact (Hmem _ Hx eq_refl)|].
    intros x. rewrite heap_push_elem. destruct (decide (it_index x = m)) as [Heq|Hne].
    + unfold head_item. rewrite Heq, list_lookup_insert_eq by exact Hlt. split.
      * intros [->|Hx]; [|destruct (Hmem x Hx Heq)]. cbn [it_id]. eauto.
      * intros [(r0 & l0 & [= -> -> ->]) _]. left. destruct x; cbn in *; congruence.
    + rewrite Hitem by exact Hne. split; [|tauto]. intros [->|Hx]; [cbn in Hne; congruence | exact Hx].
Qed.

Lemma consume_files_spec id : forall ms rem cs h W w,
  Forall2 stands cs rem -> Forall file_ok rem -> heap_for ms rem h ->
  StronglySorted (fun a b => b < a)%nat ms -> Forall (fun m => m < length rem)%nat ms ->
  (forall j l, rem !! j = Some l -> j ∉ ms -> take_run id l = []) -> winner_above ms W w ->
  exists cs' h' W', consume_files eligible id ms cs h w = Ok (cs', h', (fun rf => enc rf.1 rf.2) <$> W') /\
    Forall2 stands cs' (drop_run id <$> rem) /\ heap_for [] (drop_run id <$> rem) h' /\
    fst <$> W' = join (newest i eligible (runs id rem)) (fst <$> W).
Proof.
  induction ms as [|m ms IH]; intros rem cs h W w Hst Hok Hh Hd Hlt Hothers Hw.
  - destruct Hw as [-> _]. exists cs, h, W.
    assert (Hall : Forall (fun l => take_run id l = []) rem).
    { apply Forall_lookup. intros j l Hj. eapply Hothers; [exact Hj|]. apply not_elem_of_nil. }
    assert (Hrem : drop_run id <$> rem = rem).
    { clear -Hall. induction Hall as [|l rem Hl _ IH]; [reflexivity|]. cbn. rewrite (take_run_nil _ _ Hl).
      f_equal. exact IH. }
    assert (Hruns : runs id rem = []).
    { clear -Hall. unfold runs. induction Hall as [|l rem Hl _ IH]; [reflexivity|]. cbn. rewrite Hl. exact IH. }
    rewrite Hrem, Hruns. split_and!; auto.
  - apply Forall_cons in Hlt as [Hm Hlt]. destruct (lookup_lt_is_Some_2 rem m Hm) as [l Hl].
    destruct (Forall2_lookup_r _ _ _ _ _ Hst Hl) as (c & Hc & Hs).
    destruct (Forall_lookup_1 _ _ _ _ Hok Hl) as [Hord Hlen].
    destruct (winner_above_run m ms W w (newest i eligible (take_run id l)) w Hd Hw) as [Hw0 _].
    destruct (consume_run_file id m l c W w Hs Hord Hlen Hw0) as (c' & w1 & Hrun & Hs' & Hw1).
    destruct (winner_above_run m ms W w (newest i eligible (take_run id l)) w1 Hd Hw) as [_ Hnext].
    destruct (Hnext Hw1) as (W1 & HW1 & HW1').
    inversion Hd as [|? ? Hd' Hgt]; subst.
    assert (Hnin : m ∉ ms). { intros Hin. rewrite Forall_forall in Hgt. specialize (Hgt m Hin). lia. }
    cbn [consume_files]. rewrite Hc, Hrun. cbn [mbind result_bind].
    destruct (stands_head c' _ Hs') as [Hv Hid].
    set (h1 := if c_valid c' then _ else h).
    assert (Hh1 : heap_for ms (<[m := drop_run id l]> rem) h1).
    { unfold h1. rewrite Hv, Hid. pose proof (heap_for_push m ms rem h l Hl Hnin Hh (drop_run id l)) as Hp.
      destruct (drop_run id l) as [|[r k] l']; exact Hp. }
    destruct (IH (<[m := drop_run id l]> rem) (<[m := c']> cs) h1 W1 w1) as (cs' & h' & W' & Hrest & Hst' & Hh' & HW');
      auto.
    + apply Forall2_insert; assumption.
    + apply Forall_insert; [exact Hok|]. apply drop_run_ok. split; assumption.
    + eapply Forall_impl; [exact Hlt|]. intros j. rewrite length_insert. auto.
    + intros j l' Hj Hjn. destruct (decide (j = m)) as [->|Hne].
      * rewrite list_lookup_insert_eq in Hj by exact Hm. injection Hj as <-. apply take_drop_run.
      * rewrite list_lookup_insert_ne in Hj by congruence. eapply Hothers; [exact Hj|].
        rewrite not_elem_of_cons. auto.
    + exists cs', h', W'. rewrite list_fmap_insert, drop_run_idem in Hst', Hh'.
      assert (Hsame : <[m := drop_run id l]> (drop_run id <$> rem) = drop_run id <$> rem).
      { apply list_insert_id. rewrite list_lookup_fmap, Hl. reflexivity. }
      rewrite Hsame in Hst', Hh'. split_and!; auto.
      rewrite HW', HW1', (runs_last id rem m l Hl), newest_app, join_assoc; [reflexivity|].
      intros j l' Hj Hjm. eapply Hothers; [exact Hj|]. rewrite not_elem_of_cons. split; [lia|].
      intros Hin. rewrite Forall_forall in Hgt. specialize (Hgt j Hin). lia.
Qed.

(** ** The whole merge *)

Lemma in_order_rows l : in_order l -> Forall (fun rk => row_readable rk.1) l.
Proof.
  induction l as [|[r k] l IH]; intros Hk; [constructor|].
  apply in_order_cons in Hk as (Hr & Hk & _). constructor; auto.
Qed.

Lemma take_run_filter id l :
  in_order l -> Forall (fun rk => bytes_le id rk.2) l ->
  (filter (fun rk : json * bytes => rk.2 = id) l).*1 = take_run id l.
Proof.
  induction l as [|[r k] l IH]; intros Hk Hmin; [reflexivity|].
  apply in_order_cons in Hk as (_ & Hk & Hall). apply Forall_cons in Hmin as [Hidk Hmin]. cbn [snd] in Hidk.
  rewrite filter_cons. cbn [snd take_run]. destruct (bytes_eqb k id) eqn:E.
  - apply bytes_eqb_eq in E. rewrite decide_True by exact E. cbn [fmap list_fmap fst]. f_equal. apply IH; auto.
  - apply bytes_eqb_neq in E. rewrite decide_False by exact E.
    enough (filter (fun rk : json * bytes => rk.2 = id) l = []) as -> by reflexivity.
    rewrite Forall_fmap in Hall. clear IH Hk Hmin. induction Hall as [|[r' k'] l Hl _ IHl]; [reflexivity|].
    rewrite filter_cons_False; [exact IHl|]. cbn [snd]. unfold compose in Hl. cbn [snd] in Hl. intros ->.
    apply bytes_le_alt in Hidk as [Hlt|]; [|congruence].
    exact (bytes_lt_irrefl _ (bytes_lt_le_trans _ _ _ Hlt Hl)).
Qed.

Lemma rows_of_cons id l rem :
  rows_of id (l :: rem) = (filter (fun rk : json * bytes => rk.2 = id) l).*1 ++ rows_of id rem.
Proof. unfold rows_of. cbn [concat]. rewrite filter_app, fmap_app. reflexivity. Qed.

Lemma rows_of_runs id rem :
  Forall in_order rem -> Forall (Forall (fun rk => bytes_le id rk.2)) rem -> rows_of id rem = runs id rem.
Proof.
  induction 1 as [|l rem Hl _ IH]; intros Hmin; [reflexivity|]. apply Forall_cons in Hmin as [Hm Hmin].
  rewrite rows_of_cons, take_run_filter, IH by assumption. reflexivity.
Qed.

Lemma filter_drop_run id k l :
  k <> id -> filter (fun rk : json * bytes => rk.2 = k) (drop_run id l) = filter (fun rk => rk.2 = k) l.
Proof.
  intros Hne. induction l as [|[r k'] l IH]; [reflexivity|]. cbn [drop_run].
  destruct (bytes_eqb k' id) eqn:E; [|reflexivity]. apply bytes_eqb_eq in E. subst k'.
  rewrite filter_cons_False by (cbn [snd]; congruence). exact IH.
Qed.

Lemma rows_of_drop id k rem : k <> id -> rows_of k (drop_run id <$> rem) = rows_of k rem.
Proof.
  intros Hne. induction rem as [|l rem IH]; [reflexivity|]. cbn [fmap list_fmap].
  rewrite !rows_of_cons, filter_drop_run by exact Hne. f_equal. exact IH.
Qed.

Lemma newest_elem l r : newest i eligible l = Some r -> r ∈ l.
Proof.
  induction l as [|x l IH] using rev_ind; [discriminate|]. rewrite newest_app. intros Hn.
  apply elem_of_app. unfold newest at 2, keep in Hn. cbn [fold_left] in Hn.
  destruct (newest i eligible l) as [a|]; [|right; destruct (eligible _); [|discriminate]; cbn in Hn].
  - destruct (eligible _); cbn [join] in Hn; [destruct (version_le _ _)|];
      injection Hn as ->; [right; left | left; auto | left; auto].
  - injection Hn as ->. left.
Qed.

Lemma is_deleted_written r : row_readable r -> is_deleted (view i r) = row_deleted r.
Proof.
  intros (m & k & -> & Hok & _). unfold is_deleted, row_deleted, view, json_find.
  rewrite field_written by exact Hok. destruct (obj_find _ m) as [v|]; [|reflexivity].
  destruct v; cbn [fmap option_fmap option_map canon]; try reflexivity. destruct (_ <=? _); reflexivity.
Qed.

Lemma rows_of_readable id rem r : Forall in_order rem -> r ∈ rows_of id rem -> row_readable r.
Proof.
  intros Hok. unfold rows_of. rewrite list_elem_of_fmap. intros (rk & -> & Hin).
  apply list_elem_of_filter in Hin as [_ Hin]. apply list_elem_of_In, in_concat in Hin as (l & Hl & Hin).
  apply list_elem_of_In in Hl, Hin. rewrite Forall_forall in Hok.
  pose proof (in_order_rows l (Hok l Hl)) as Hr. rewrite Forall_forall in Hr. apply Hr, Hin.
Qed.

(** The top of the queue is the least key of all the remaining rows. *)
Lemma heap_top_least top h rem :
  heap_for [] rem (top :: h) -> Forall in_order rem ->
  Forall (Forall (fun rk : json * bytes => bytes_le (it_id top) rk.2)) rem.
Proof.
  intros [Hs Hh] Hok. apply Forall_lookup. intros j l Hj. destruct l as [|[r k] l]; [constructor|].
  assert (Hin : mkItem k j ∈ top :: h). { apply Hh. split; [exists r, l; exact Hj | apply not_elem_of_nil]. }
  assert (Hle : bytes_le (it_id top) k).
  { apply elem_of_cons in Hin as [<-|Hin]; [apply bytes_le_alt; auto|].
    inversion Hs as [|? ? _ Hall]; subst. rewrite Forall_forall in Hall.
    specialize (Hall _ Hin). apply item_lt_alt in Hall. cbn [it_id] in Hall. apply bytes_le_alt. tauto. }
  pose proof (Forall_lookup_1 _ _ _ _ Hok Hj) as Hl. apply in_order_cons in Hl as (_ & _ & Hall).
  constructor; [exact Hle|]. rewrite Forall_fmap in Hall.
  eapply Forall_impl; [exact Hall|]. intros rk Hrk. eapply bytes_le_trans; eauto.
Qed.

Lemma keys_drop id k rem :
  k ∈ (concat (drop_run id <$> rem)).*2 -> k ∈ (concat rem).*2.
Proof.
  induction rem as [|l rem IH]; cbn [fmap list_fmap concat]; [auto|]. rewrite !fmap_app, !elem_of_app.
  intros [Hk|Hk]; [|auto]. left. destruct (drop_run_suffix id l) as [l0 Hl]. rewrite Hl, fmap_app.
  apply elem_of_app. auto.
Qed.

Lemma keys_rows_of k rem : k ∈ (concat rem).*2 <-> rows_of k rem <> [].
Proof.
  unfold rows_of. rewrite list_elem_of_fmap. split.
  - intros (rk & -> & Hin) Hnil.
    assert (Hf : rk ∈ filter (fun x : json * bytes => x.2 = rk.2) (concat rem)).
    { apply list_elem_of_filter. auto. }
    apply fmap_nil_inv in Hnil. rewrite Hnil in Hf. apply elem_of_nil in Hf. exact Hf.
  - destruct (filter _ _) as [|rk l] eqn:E; [intros Hn; destruct Hn; reflexivity|]. intros _. exists rk.
    assert (Hin : rk ∈ filter (fun x : json * bytes => x.2 = k) (concat rem)) by (rewrite E; left).
    apply list_elem_of_filter in Hin. split; [symmetry|]; apply Hin.
Qed.

Lemma drop_run_length id rem j r l :
  rem !! j = Some ((r, id) :: l) ->
  (length (concat (drop_run id <$> rem)) < length (concat rem))%nat.
Proof.
  assert (Hle : forall l, (length (drop_run id l) <= length l)%nat).
  { intros l0. destruct (drop_run_suffix id l0) as [l1 Hl]. rewrite Hl at 2. rewrite length_app. lia. }
  assert (Hall : forall rem, (length (concat (drop_run id <$> rem)) <= length (concat rem))%nat).
  { intros rem0. induction rem0 as [|l0 rem0 IH]; [cbn; lia|]. rewrite fmap_cons. cbn [concat]. rewrite !length_app.
    specialize (Hle l0). lia. }
  revert j. induction rem as [|l0 rem IH]; intros [|j] Hj; cbn in Hj; try discriminate;
    rewrite fmap_cons; cbn [concat]; rewrite !length_app.
  - injection Hj as ->. cbn [drop_run length]. rewrite bytes_eqb_refl.
    specialize (Hle l). specialize (Hall rem). lia.
  - specialize (IH j Hj). specialize (Hle l0). lia.
Qed.

Section Loop.
Context {A : Type} (includeDeleted : bool) (visitor : A -> MsgpackRowView -> A * bool).

Abbreviation latest := (latest_row i includeDeleted eligible).

Lemma latest_drop id rem ids :
  Forall (bytes_lt id) ids -> omap (latest (drop_run id <$> rem)) ids = omap (latest rem) ids.
Proof.
  intros Hids. apply list_omap_ext, Forall_Forall2_diag. eapply Forall_impl; [exact Hids|].
  intros k Hk. unfold latest_row.
  rewrite rows_of_drop by (intros ->; exact (bytes_lt_irrefl _ Hk)). reflexivity.
Qed.

(** One turn of the merge loop: the least id's winner is shown, and its rows
    are gone from every file. *)
Lemma latest_step_spec top h0 rem cs acc :
  let h := top :: h0 in let id := it_id top in
  Forall2 stands cs rem -> Forall file_ok rem -> heap_for [] rem h ->
  exists cs' h', Forall2 stands cs' (drop_run id <$> rem) /\ heap_for [] (drop_run id <$> rem) h' /\
    latest_step i includeDeleted eligible visitor (cs, h, acc) =
    match latest rem id with
    | None => inl (cs', h', acc)
    | Some v => let '(acc, go) := visitor acc v in if go then inl (cs', h', acc) else inr (Ok acc)
    end.
Proof.
  intros h id Hst Hok Hh.
  assert (Hord : Forall in_order rem) by (eapply Forall_impl; [exact Hok|]; intros l [? _]; assumption).
  pose proof (heap_top_least top h0 rem Hh Hord) as Hmin.
  assert (Hhmin : Forall (fun x => bytes_le id (it_id x)) h).
  { apply Forall_forall. intros x Hx. apply Hh in Hx as [(r & l & Hl) _].
    pose proof (Forall_lookup_1 _ _ _ _ Hmin Hl) as Hf. apply Forall_cons in Hf as [Hf _]. exact Hf. }
  destruct Hh as [Hs Hh]. destruct (pop_matching_spec id h Hs Hhmin) as (ms & h' & Hpop & Hsplit & Hd & Hs' & Hgt).
  assert (Hms : forall j, j ∈ ms <-> exists r l, rem !! j = Some ((r, id) :: l)).
  { intros j. split.
    - intros Hj. assert (Hx : mkItem id j ∈ h).
      { rewrite Hsplit. apply elem_of_app. left. apply list_elem_of_fmap. eauto. }
      apply Hh in Hx as [Hx _]. exact Hx.
    - intros Hj. assert (Hx : mkItem id j ∈ h) by (apply Hh; split; [exact Hj | apply not_elem_of_nil]).
      rewrite Hsplit in Hx. apply elem_of_app in Hx as [Hx|Hx].
      + apply list_elem_of_fmap in Hx as (j' & [= ->] & Hj'). exact Hj'.
      + rewrite Forall_forall in Hgt. specialize (Hgt _ Hx). destruct (bytes_lt_irrefl _ Hgt). }
  destruct (consume_files_spec id ms rem cs h' None None) as (cs' & h2 & W & Hcons & Hst' & Hh' & HW); auto.
  - split; [exact Hs'|]. intros x. split.
    + intros Hx. assert (Hxh : x ∈ h) by (rewrite Hsplit; apply elem_of_app; auto).
      split; [apply Hh, Hxh|]. intros Hin%Hms. destruct Hin as (r & l & Hl).
      apply Hh in Hxh as [(r' & l' & Hl') _]. rewrite Hl in Hl'. injection Hl' as _ Hid _.
      rewrite Forall_forall in Hgt. specialize (Hgt _ Hx). rewrite <- Hid in Hgt. exact (bytes_lt_irrefl _ Hgt).
    + intros [Hx Hn]. assert (Hxh : x ∈ h) by (apply Hh; split; [exact Hx | apply not_elem_of_nil]).
      rewrite Hsplit in Hxh. apply elem_of_app in Hxh as [Hxh|]; [|assumption].
      apply list_elem_of_fmap in Hxh as (j & -> & Hj). destruct (Hn Hj).
  - apply Forall_forall. intros j (r & l & Hl)%Hms. eapply lookup_lt_Some; exact Hl.
  - intros j l Hl Hn. destruct l as [|[r k] l]; [reflexivity|]. cbn [take_run].
    destruct (bytes_eqb k id) eqn:E; [|reflexivity]. apply bytes_eqb_eq in E. subst k.
    destruct Hn. apply Hms. eauto.
  - split; [reflexivity|exact I].
  - exists cs', h2. split; [exact Hst'|]. split; [exact Hh'|].
    unfold latest_step. unfold h at 1. fold id. fold h. rewrite Hpop, Hcons.
    rewrite join_None_r, <- rows_of_runs in HW by assumption. unfold latest_row. rewrite <- HW.
    destruct W as [[r f]|]; cbn [fmap option_fmap option_map fst snd mbind option_bind enc]; [|reflexivity].
    fold (view i r). rewrite is_deleted_written; [destruct (includeDeleted || _); reflexivity|].
    apply (rows_of_readable id rem); [exact Hord|]. apply newest_elem. symmetry. exact HW.
Qed.

(** The ids after the least one. *)
Lemma merge_ids top h0 rem ids :
  let id := it_id top in
  Forall in_order rem -> heap_for [] rem (top :: h0) ->
  StronglySorted bytes_lt ids -> (forall k, k ∈ ids <-> k ∈ (concat (drop_run id <$> rem)).*2) ->
  StronglySorted bytes_lt (id :: ids) /\ (forall k, k ∈ id :: ids <-> k ∈ (concat rem).*2).
Proof.
  intros id Hord Hh Hs Hm. pose proof (heap_top_least top h0 rem Hh Hord) as Hmin. fold id in Hmin.
  assert (Hge : forall k, k ∈ (concat rem).*2 -> bytes_le id k).
  { intros k (rk & -> & Hrk)%list_elem_of_fmap.
    apply list_elem_of_In, in_concat in Hrk as (l' & Hl' & Hrk). apply list_elem_of_In in Hl', Hrk.
    rewrite Forall_forall in Hmin. specialize (Hmin l' Hl'). rewrite Forall_forall in Hmin. apply Hmin, Hrk. }
  assert (Hnone : rows_of id (drop_run id <$> rem) = []).
  { assert (Hall : Forall (fun l => in_order l /\ Forall (fun rk => bytes_le id rk.2) l) (drop_run id <$> rem)).
    { apply Forall_fmap, Forall_forall. intros l Hl. unfold compose. rewrite Forall_forall in Hord, Hmin.
      specialize (Hord l Hl). specialize (Hmin l Hl). destruct (drop_run_suffix id l) as [l1 Hl1].
      split; [apply drop_run_order, Hord|]. rewrite Hl1 in Hmin. apply Forall_app in Hmin. tauto. }
    apply Forall_and in Hall as [H1 H2]. rewrite rows_of_runs by assumption. unfold runs.
    clear. induction rem as [|l rem IH]; [reflexivity|]. rewrite !fmap_cons. cbn [concat].
    rewrite take_drop_run. exact IH. }
  assert (Hin : forall k, k ∈ ids <-> k ∈ (concat rem).*2 /\ k <> id).
  { intros k. rewrite Hm. split.
    - intros Hk. split; [eapply keys_drop, Hk|]. intros ->. apply keys_rows_of in Hk. exact (Hk Hnone).
    - intros [Hk Hne]. apply keys_rows_of. rewrite rows_of_drop by exact Hne. apply keys_rows_of, Hk. }
  split.
  - constructor; [exact Hs|]. apply Forall_forall. intros k (Hk & Hne)%Hin.
    apply Hge, bytes_le_alt in Hk as [|]; [assumption|congruence].
  - intros k. rewrite elem_of_cons, Hin. destruct (decide (k = id)) as [->|]; [|tauto].
    split; [|auto]. intros _. assert (Htop : head_item rem top) by (apply (proj2 Hh); left).
    destruct Htop as (r & l & Hl). apply list_elem_of_fmap. exists (r, id). split; [reflexivity|].
    apply list_elem_of_In, in_concat. exists ((r, id) :: l). split; [|left; reflexivity].
    apply list_elem_of_In. eapply list_elem_of_lookup_2; exact Hl.
Qed.

Lemma heap_empty rem : heap_for [] rem [] -> concat rem = [].
Proof.
  intros [_ Hh]. assert (Hall : Forall (fun l => l = []) rem).
  2:{ clear Hh. induction Hall as [|l rem -> _ IH]; [reflexivity | exact IH]. }
  apply Forall_lookup. intros j l Hj. destruct l as [|[r k] l]; [reflexivity|].
  assert (Hx : mkItem k j ∈ []). { apply Hh. split; [exists r, l; exact Hj | apply not_elem_of_nil]. }
  inversion Hx.
Qed.

Lemma merge_loop n : forall rem cs h acc,
  (length (concat rem) <= n)%nat ->
  Forall2 stands cs rem -> Forall file_ok rem -> heap_for [] rem h ->
  exists ids, StronglySorted bytes_lt ids /\ (forall k, k ∈ ids <-> k ∈ (concat rem).*2) /\
    run_n (S n) (latest_step i includeDeleted eligible visitor) (cs, h, acc) =
    inr (Ok (visit_all visitor (omap (latest rem) ids) acc).1).
Proof.
  induction n as [n IH] using lt_wf_ind. intros rem cs h acc Hn Hst Hok Hh. destruct h as [|top h0].
  - exists []. split; [constructor|]. split; [|reflexivity]. intros k. rewrite heap_empty by exact Hh. reflexivity.
  - set (id := it_id top).
    destruct (latest_step_spec top h0 rem cs acc Hst Hok Hh) as (cs' & h' & Hst' & Hh' & Hstep).
    fold id in Hst', Hh', Hstep.
    assert (Htop : head_item rem top) by (apply (proj2 Hh); left). destruct Htop as (r & l & Hl).
    pose proof (drop_run_length id rem _ _ _ Hl) as Hdec.
    assert (Hok' : Forall file_ok (drop_run id <$> rem)).
    { apply Forall_fmap. eapply Forall_impl; [exact Hok|]. intros l'. apply drop_run_ok. }
    assert (Hord : Forall in_order rem) by (eapply Forall_impl; [exact Hok|]; intros ? [? _]; assumption).
    assert (Hids : forall acc', exists ids', StronglySorted bytes_lt (id :: ids') /\
      (forall k, k ∈ id :: ids' <-> k ∈ (concat rem).*2) /\
      run_n n (latest_step i includeDeleted eligible visitor) (cs', h', acc') =
      inr (Ok (visit_all visitor (omap (latest rem) ids') acc').1)).
    { intros acc'. destruct n as [|n']; [lia|].
      assert (Hn' : (length (concat (drop_run id <$> rem)) <= n')%nat) by lia.
      destruct (IH n' (Nat.lt_succ_diag_r n') _ cs' h' acc' Hn' Hst' Hok' Hh') as (ids' & Hs & Hm & Hrun).
      destruct (merge_ids top h0 rem ids' Hord Hh Hs Hm) as [Hs' Hm'].
      exists ids'. split; [exact Hs'|]. split; [exact Hm'|]. inversion Hs'; subst.
      rewrite latest_drop in Hrun by assumption. exact Hrun. }
    cbn [run_n]. rewrite Hstep. destruct (latest rem id) as [v|] eqn:Elat.
    + destruct (visitor acc v) as [acc1 go] eqn:Ev. destruct (Hids acc1) as (ids' & Hs & Hm & Hrun).
      exists (id :: ids'). split; [exact Hs|]. split; [exact Hm|].
      cbn [omap list_omap]. rewrite Elat. cbn [visit_all]. rewrite Ev. destruct go; [exact Hrun|reflexivity].
    + destruct (Hids acc) as (ids' & Hs & Hm & Hrun).
      exists (id :: ids'). split; [exact Hs|]. split; [exact Hm|].
      cbn [omap list_omap]. rewrite Elat. exact Hrun.
Qed.
End Loop.

(** ** Opening the files *)

Lemma heap_for_snoc rem l h :
  heap_for [] rem h ->
  heap_for [] (rem ++ [l]) (match l with (_, k) :: _ => heap_push (mkItem k (length rem)) h | [] => h end).
Proof.
  intros [Hs Hh].
  assert (Hidx : forall x, x ∈ h -> (it_index x < length rem)%nat).
  { intros x Hx. apply Hh in Hx as [(r & l' & Hl) _]. eapply lookup_lt_Some; exact Hl. }
  assert (Hold : forall x, x ∈ h -> head_item (rem ++ [l]) x).
  { intros x Hx. apply Hh in Hx as [(r & l' & Hl) _]. exists r, l'. apply lookup_app_l_Some, Hl. }
  assert (Hnew : forall x, head_item (rem ++ [l]) x ->
    x ∈ h \/ (it_index x = length rem /\ exists r l', l = (r, it_id x) :: l')).
  { intros x (r & l' & Hl). apply lookup_app_Some in Hl as [Hl|[Hge Hl]].
    - left. apply Hh. split; [exists r, l'; exact Hl | apply not_elem_of_nil].
    - right. apply list_lookup_singleton_Some in Hl as [Hz Hl]. split; [lia|]. eauto. }
  destruct l as [|[r k] l].
  - split; [exact Hs|]. intros x. split; [intros Hx; split; [auto | apply not_elem_of_nil]|].
    intros [Hx _]. destruct (Hnew x Hx) as [|(_ & r & l' & Hl)]; [assumption|discriminate].
  - split; [apply heap_push_sorted; [exact Hs|]; intros Hx; specialize (Hidx _ Hx); cbn in Hidx; lia|].
    intros x. rewrite heap_push_elem. split.
    + intros Hx. split; [|apply not_elem_of_nil]. destruct Hx as [->|Hx]; [|auto].
      exists r, l. cbn [it_index it_id]. apply list_lookup_middle. reflexivity.
    + intros [Hx _]. destruct (Hnew x Hx) as [|(Hi & r' & l' & Hl)]; [auto|]. left.
      injection Hl as _ -> _. destruct x. cbn in *. congruence.
Qed.

(** [data] is the file [writeSst] published for the rows [l], which are in key order and can be read back. *)
Definition published (l : list (json * bytes)) (data : option bytes) : Prop :=
  exists io s p target stats s',
    Forall (fun r => key_fits (rowId r)) l.*1 /\ in_order l /\
    ws_blocks stats <= kMaxBlocks /\ ws_stored stats < 2 ^ 63 /\
    writeSst io s p l.*1 target = (Ok stats, s') /\ data = read_file (st_fs s') p.

Lemma published_open l data :
  published l data -> file_ok l /\ exists c, cursor_open data i = Ok c /\ stands c l.
Proof.
  intros (io & s & p & target & stats & s' & Hkeys & Hk & Hnb & Hsz & Hw & ->).
  destruct (writeSst_readable _ _ _ _ _ _ _ Hkeys Hnb Hsz Hw) as (groups & Hcat & Hrd & Hf & _).
  pose proof (clamp_target_range target). pose proof (readable_rows63 groups Hrd) as H63.
  rewrite Hcat, length_fmap in H63. split; [split; assumption|].
  unfold in_order in Hk. rewrite <- Hcat in Hk.
  pose proof (cursor_open_written (clamp_target target) groups l.*2 i ltac:(lia) Hrd Hk) as Ho.
  unfold read_file. rewrite Hf. cbn [fmap option_fmap option_map f_data]. rewrite Hcat in Ho.
  destruct l as [|[r k] l]; cbn [fmap list_fmap] in Ho; destruct Ho as (c & Hc & Hs);
    exists c; (split; [exact Hc|]); [exact Hs|].
  cbn [fst snd] in Hs. destruct (cursor_open_view _ _ _ Hc) as [H1 H2]; [apply Hs|].
  apply stands_showing; assumption.
Qed.

Lemma open_cursors_spec ls files : Forall2 published ls files -> forall cs rem h,
  Forall2 stands cs rem -> heap_for [] rem h ->
  exists cs' h', open_cursors i files cs h = Ok (cs', h') /\
    Forall2 stands cs' (rem ++ ls) /\ heap_for [] (rem ++ ls) h'.
Proof.
  induction 1 as [|l data ls files Hp _ IH]; intros cs rem h Hst Hh; cbn [open_cursors].
  - exists cs, h. rewrite app_nil_r. auto.
  - destruct (published_open l data Hp) as (_ & c & Hc & Hs). rewrite Hc. cbn [mbind result_bind].
    pose proof (Forall2_length _ _ _ Hst) as Hlen. destruct (stands_head c l Hs) as [Hv Hid].
    destruct (IH (cs ++ [c]) (rem ++ [l]) (match l with (_, k) :: _ => heap_push (mkItem k (length rem)) h | [] => h end))
      as (cs' & h' & Ho & Hst' & Hh').
    + apply Forall2_app; [exact Hst | repeat constructor; exact Hs].
    + apply heap_for_snoc, Hh.
    + exists cs', h'. rewrite <- app_assoc in Hst', Hh'. split; [|split; assumption].
      rewrite Hv, Hid, Hlen. destruct l as [|[r k] l]; exact Ho.
Qed.
End Merge.

(** C33: the merge shows the newest version of every id: for any number of SSTs that
    [writeSst] published, oldest to newest, [visitLatestSstRows] terminates
    without error, and its visitor sees, until it declines, exactly one row per
    distinct id of the files that has an eligible row, in increasing id order:
    the eligible row with the highest version over all files (a missing version
    ranks lowest), and among equal versions the one from the newest file, the
    last one within it; ids whose winner is a tombstone are left out unless
    [includeDeleted].  The priority queue, the equal-id runs across files and
    blocks and the early rejection of inferior versions do not change that.  Each
    file ([published]) was written from rows in the order of their ids, which may
    repeat, every row an object nested at most 64 levels deep, as the readers allow,
    with an id whose text is not empty and within the row limit, in at most
    [kMaxBlocks] blocks and fewer than 2^63 bytes; the files have fewer than 2^64
    rows together, and LZ4 decompresses what it compressed. *)
Theorem visitLatest_newest {A} (i includeDeleted : bool) (eligible : MsgpackRowView -> bool)
    (visitor : A -> MsgpackRowView -> A * bool) ls files acc :
  Forall2 published ls files -> Z.of_nat (length (concat ls)) < 2 ^ 64 ->
  exists ids, StronglySorted bytes_lt ids /\ (forall k, k ∈ ids <-> k ∈ (concat ls).*2) /\
    visitLatestSstRows i includeDeleted eligible visitor files acc =
    Ok (visit_all visitor (omap (latest_row i includeDeleted eligible ls) ids) acc).1.
Proof.
  intros Hp Hn.
  assert (Hok : Forall file_ok ls).
  { clear Hn. induction Hp as [|l data ls files Hl _ IH]; constructor; [|exact IH].
    apply (published_open i l data Hl). }
  assert (Hh0 : heap_for [] [] []).
  { split; [constructor|]. intros x. split; [intros Hx; inversion Hx|]. intros [(r & l & Hl) _]. discriminate. }
  destruct (open_cursors_spec i ls files Hp [] [] [] (List.Forall2_nil _) Hh0) as (cs & h & Ho & Hst & Hh).
  destruct (merge_loop i eligible includeDeleted visitor (length (concat ls)) ls cs h acc (le_n _) Hst Hok Hh)
    as (ids & Hs & Hm & Hrun).
  exists ids. split; [exact Hs|]. split; [exact Hm|].
  unfold visitLatestSstRows. rewrite Ho. cbn [mbind result_bind].
  rewrite (while_pow2_result _ 64 _ _ _ Hrun); [reflexivity|]. change (Z.of_nat 64) with 64. lia.
Qed.
End SstMerge.

#[local] Existing Instance rle_lz4.
#[local] Existing Instance rle_lz4_correct.
#[local] Existing Instance digits_text.

(** Two files: the newer one holds a lower version of [a] and rewrites [b]. *)
Definition version_row (id : string) (version tag : Z) : json :=
  JObject [(str "id", JString (str id)); (str "tag", JInt tag); (str "version", JInt version)].

Definition old_rows : list (json * bytes) :=
  [(version_row "a" 5 1, str "a"); (version_row "b" 1 1, str "b")].
Definition new_rows : list (json * bytes) :=
  [(version_row "a" 3 2, str "a"); (version_row "b" 1 2, str "b"); (version_row "c" 1 2, str "c")].

Definition written (rows : list (json * bytes)) : result SstWriteStats * store :=
  writeSst sst_io_good empty_store (str "t.sst") rows.*1 4096.

Definition file_of (rows : list (json * bytes)) : option bytes := read_file (st_fs (written rows).2) (str "t.sst").

Lemma version_row_readable id version tag :
  (0 < length (str id) <= 4)%nat -> 0 <= version < 100 -> 0 <= tag < 100 ->
  row_readable (version_row id version tag) /\ row_key (version_row id version tag) = Some (str id).
Proof.
  intros Hk Hv Ht. split; [|reflexivity]. eexists _, (str id). split; [reflexivity|].
  split; [|split; [reflexivity|destruct (str id); [simpl in Hk; lia|discriminate]]].
  split; [|repeat constructor].
  apply json_wf_object. split; [simpl; lia|]. split; [repeat constructor|].
  repeat constructor; cbn; unfold blen, I64_MIN, I64_MAX; try lia; reflexivity.
Qed.

Lemma sample_published rows :
  Forall (fun r => key_fits (rowId r)) rows.*1 -> in_order rows ->
  match (written rows).1 with Ok stats => (ws_blocks stats <=? kMaxBlocks) && (ws_stored stats <? 2 ^ 63) | Err _ => false end = true ->
  published rows (file_of rows).
Proof.
  intros Hk Ho Hw. destruct ((written rows).1) as [stats|] eqn:E; [|discriminate].
  apply andb_true_iff in Hw as [H1%Z.leb_le H2%Z.ltb_lt].
  exists sst_io_good, empty_store, (str "t.sst"), 4096, stats, (written rows).2.
  split_and!; auto. rewrite <- E. apply surjective_pairing.
Qed.

Lemma old_new_published : Forall2 published [old_rows; new_rows] [file_of old_rows; file_of new_rows].
Proof.
  apply Forall2_cons; split; [|apply Forall2_cons; split; [|apply List.Forall2_nil]];
    (apply sample_published; [repeat constructor; vm_compute; discriminate | | vm_compute; reflexivity]);
    (split; [repeat constructor; apply version_row_readable; simpl; lia | repeat constructor; discriminate]).
Qed.

Lemma visitLatest_newest_witness :
  exists ids, StronglySorted bytes_lt ids /\ (forall k, k ∈ ids <-> k ∈ (concat [old_rows; new_rows]).*2) /\
    visitLatestSstRows true false (fun _ => true) (fun l v => (l ++ [v], true))
      [file_of old_rows; file_of new_rows] [] =
    Ok (visit_all (fun l v => (l ++ [v], true))
          (omap (latest_row true false (fun _ => true) [old_rows; new_rows]) ids) []).1.
Proof.
  apply (visitLatest_newest true false (fun _ => true) (fun l v => (l ++ [v], true))
           [old_rows; new_rows] [file_of old_rows; file_of new_rows] []).
  - exact old_new_published.
  - vm_compute. reflexivity.
Defined.

Example visitLatest_sample :
  (r ← visitLatestSstRows false false (fun _ => true) (fun l v => (l ++ [rv_data v], true))
         [file_of old_rows; file_of new_rows] []; Ok r) =
  Ok (map to_msgpack [version_row "a" 5 1; version_row "b" 1 2; version_row "c" 1 2]).
Proof. vm_compute. reflexivity. Qed.
