(* ===== verification/JsonValue.v ===== *)
(** * Typed access to JSON values (nlohmann [get<T>] and [value(key, default)])

    [get<uint64_t>()] takes any number, a [double] by truncation;
    [get<uint32_t>()] also takes a boolean.  A [double] out of the target's
    range, which C++ leaves undefined, is an error here, like a wrong type. *)

From S2P Require Import Prelude Json Msgpack.
From stdpp Require Import base list strings.
From Stdlib Require Import ZArith Lia.

Open Scope Z_scope.

(** A [double] truncated toward zero; [None] for infinities and NaNs. *)
Definition f64_trunc (b : Z) : option Z :=
  let e := f64_exp b in
  if e =? 2047 then None else
  let m := if e =? 0 then f64_mant b else f64_mant b + 2 ^ 52 in
  let s := (if e =? 0 then 1 else e) - 1075 in
  let a := if 0 <=? s then m * 2 ^ s else m / 2 ^ (- s) in
  Some (if f64_sign b =? 1 then - a else a).

Definition in_width (w z : Z) : option Z := if (0 <=? z) && (z <? 2 ^ w) then Some z else None.

Definition as_u64 (j : json) : option Z :=
  match j with
  | JInt z | JUInt z => Some (u64 z)
  | JFloat b => z ← f64_trunc b; in_width 64 z
  | _ => None
  end.

Definition as_u32 (j : json) : option Z :=
  match j with
  | JInt z | JUInt z => Some (u32 z)
  | JFloat b => z ← f64_trunc b; in_width 32 z
  | JBool b => Some (if b then 1 else 0)
  | _ => None
  end.

Definition as_bool (j : json) : option bool := match j with JBool b => Some b | _ => None end.
Definition as_string (j : json) : option bytes := match j with JString s => Some s | _ => None end.

(** [j.value(key, default)]: the default only when an object lacks the key. *)
Definition value {A} (get : json -> option A) (j : json) (k : bytes) (default : A) : result A :=
  match j with
  | JObject m => match obj_find k m with
                 | Some v => or_err (get v) "type_error.302"
                 | None => Ok default
                 end
  | _ => Err "type_error.306"
  end.

(** [j[key] = v] on an object or on null. *)
Definition json_set (k : bytes) (v : json) (j : json) : json :=
  match j with JObject m => JObject (obj_insert k v m) | _ => JObject [(k, v)] end.

Definition json_erase (k : bytes) (j : json) : json :=
  match j with JObject m => JObject (obj_erase k m) | j => j end.

Lemma value_set_eq {A} (get : json -> option A) m k v d :
  value get (JObject (obj_insert k v m)) k d = or_err (get v) "type_error.302".
Proof. cbn. rewrite obj_find_insert_eq. reflexivity. Qed.

Lemma value_set_ne {A} (get : json -> option A) m k k' v d :
  k <> k' -> value get (JObject (obj_insert k v m)) k' d = value get (JObject m) k' d.
Proof. intros Hne. cbn. rewrite obj_find_insert_ne by exact Hne. reflexivity. Qed.

Lemma value_object {A} (get : json -> option A) m k d :
  value get (JObject m) k d =
  match obj_find k m with Some v => or_err (get v) "type_error.302" | None => Ok d end.
Proof. reflexivity. Qed.

Example f64_trunc_sample : (* -3.75, 0.5, 2^60, infinity *)
  map f64_trunc [0xC00E000000000000; 0x3FE0000000000000; 0x43B0000000000000; 0x7FF0000000000000] =
  [Some (-3); Some 0; Some (2 ^ 60); None].
Proof. vm_compute. reflexivity. Qed.
