(* ===== verification/WalIntegrity.v ===== *)
(** * Legacy WAL records and the clean-shutdown marker (wal_integrity.cpp)

    [WALRecord] and its checksum, the recovery scan of a WAL in the old
    single-file formats (JSON lines or framed payloads), which truncates what it
    cannot read, and the marker that lets the next start skip the replay. *)

From S2P Require Import Prelude FileSys Decimal Json Msgpack JsonValue Checksum.
From stdpp Require Import base list gmap strings.
From Stdlib Require Import ZArith Lia.

Open Scope Z_scope.

(** ** Payloads, shared with wal.cpp *)

Inductive WalOp := INSERT | UPDATE | DELETE | BATCH_COMPRESSED | COMPRESSED_ZLIB | SEGMENT_HEADER.

#[export] Instance WalOp_eq_dec : EqDecision WalOp.
Proof. solve_decision. Defined.

Definition op_code (op : WalOp) : Z :=
  match op with
  | INSERT => 1 | UPDATE => 2 | DELETE => 3 | BATCH_COMPRESSED => 4 | COMPRESSED_ZLIB => 5
  | SEGMENT_HEADER => 6
  end.

(** [isValidWalOp]: the operation of a byte that names one. *)
Definition isValidWalOp (b : byte) : option WalOp :=
  match byte_val b with
  | 1 => Some INSERT | 2 => Some UPDATE | 3 => Some DELETE | 4 => Some BATCH_COMPRESSED
  | 5 => Some COMPRESSED_ZLIB | 6 => Some SEGMENT_HEADER | _ => None
  end.

Lemma isValidWalOp_code op : isValidWalOp (byte_of (op_code op)) = Some op.
Proof. destruct op; reflexivity. Qed.

(** The first byte that is not a space opens an object, an array or a string. *)
Definition looksLikeJsonText (payload : bytes) : bool :=
  match skip_spaces payload with
  | [] => false
  | c :: _ => let z := byte_val c in (z =? 123) || (z =? 91) || (z =? 34)
  end.

(** [looksLikeJsonLines] of a file's contents. *)
Definition looksLikeJsonLines (data : bytes) : bool :=
  match skip_spaces data with
  | [] => false
  | c :: _ => let z := byte_val c in (z =? 123) || (z =? 91)
  end.

Section WalIntegrity.
Context `{JT : JsonText}.

Definition decodeWalPayload (payload : bytes) : option json :=
  match (if looksLikeJsonText payload then json_parse payload else from_msgpack payload) with
  | Some j => Some j
  | None => json_parse payload
  end.

(** ** [WALRecord] *)

(** The initialiser lists 208 of the 256 words; the others are zero. *)
Definition CRC32_TABLE : list Z := concat
  [
   [0x00000000; 0x77073096; 0xee0e612c; 0x990951ba; 0x076dc419; 0x706af48f; 0xe963a535; 0x9e6495a3];
   [0x0edb8832; 0x79dcb8a4; 0xe0d5e91e; 0x97d2d988; 0x09b64c2b; 0x7eb17cbd; 0xe7b82d07; 0x90bf1d91];
   [0x1db71642; 0x6ab020f2; 0xf3b97148; 0x84be41de; 0x1adad47d; 0x6ddde4eb; 0xf4d4b551; 0x83d385c7];
   [0x136c9856; 0x646ba8c0; 0xfd62f97a; 0x8a65c9ec; 0x14015c4f; 0x63066cd9; 0xfa44e5d6; 0x8d79e1d3];
   [0x29b8c6e0; 0x5eead776; 0xc2007e8c; 0xb58c1c1a; 0x28f7dd59; 0x5f0e5ccf; 0xc6bdc035; 0xb1d6d6a3];
   [0x2b0af5d2; 0x5cba3944; 0xc5ba4c2e; 0xb2bd0b8b; 0x2e909d28; 0x596f5bbc; 0xc0ba0146; 0xb7a881d0];
   [0x3cfc5a8f; 0x4b97ac19; 0xd2d7a9e3; 0xa5c88f75; 0x3c88e6d6; 0x4b49c140; 0xd293c8ba; 0xa5a65c0c];
   [0x3d58b23d; 0x4a948fab; 0xd3d27c51; 0xa4d9fdc7; 0x389d9364; 0x4f4d47f2; 0xd6d8dd08; 0xa1d1d59e];
   [0x79da4d0a; 0x0ececd9c; 0x97ddd066; 0xe0801d0f; 0x7dc7cdac; 0x0ad94d3a; 0x93d0d980; 0xe40f1816];
   [0x7d7b6267; 0x0ac542f1; 0x9df99c0b; 0xeae1e69d; 0x7737367e; 0x0a5d56e8; 0x9d0e6f12; 0xeacaef84];
   [0x607f3b9b; 0x17b0abb0; 0x8eb1515a; 0xf94ccc0c; 0x647c4aaf; 0x13ca3a39; 0x8ad0c383; 0xfd04cd15];
   [0x67c0cc44; 0x10fad0d2; 0x89d8e028; 0xfe6f60be; 0x69d0e41d; 0x1eaa548b; 0x87f7e971; 0xf0368e7];
   [0x3dc7d0d2; 0x4a5e5044; 0xd37aabe3; 0xa45aaf75; 0x393b0e3c; 0x4e458eaa; 0xd7d8e50; 0x7a89e5c6];
   [0x405e1f57; 0x37c9ffc1; 0xaea1873b; 0xd96c94ad; 0x45e4d20e; 0x329f5c98; 0xab7f84c2; 0xdce14454];
   [0x5c1c6d4b; 0x2b2fdcdd; 0xb2d59227; 0xc5c612b1; 0x587c3a12; 0x2fbaba84; 0xb63c317e; 0xc1b3b3e8];
   [0x5f45fc19; 0x283e2b8f; 0xb1f37c75; 0xc6a53ce3; 0x5a2bb1c0; 0x2dd3b756; 0xb40d3dac; 0xc39dfdda];
   [0x7bab4d9a; 0x0c5bcddc; 0x95d89226; 0xe2b712b0; 0x7f96db13; 0x085e5b85; 0x917f3f7f; 0xe6bfafe9];
   [0x7d5f8d38; 0x0ae0daae; 0x935f1054; 0xe49c6f82; 0x79988921; 0x0ed5a0b7; 0x975f564d; 0xe04d36db];
   [0xb4f1d4c4; 0xc3a55452; 0x5a3e3ea8; 0x2dbebea3; 0xb0c8a40e; 0xc76b4498; 0x5e2f2f62; 0x296fafea];
   [0xb3aba23b; 0xc0602262; 0x595d4898; 0x2edb480e; 0xb2768ead; 0xc5644a3b; 0x5c2a4ac1; 0x2b7a0a57];
   [0x8e08e08c; 0xf9802c1a; 0x60c8ae00; 0x17a50e96; 0x8a3a9835; 0xfd3e58a3; 0x64e73359; 0x13aa3dcf];
   [0x8d040c1e; 0xfa8c8c88; 0x63a78c72; 0x140e7ce4; 0x89a6eaa7; 0xfe6fca31; 0x6d0e01cb; 0x1a8d3c5d];
   [0xd9ed0672; 0xaec486e4; 0x37adf1e; 0x70489788; 0xdd9c5bcb; 0xaa8db75d; 0x33dc2ba7; 0x44eebf31];
   [0xdefc5c0; 0x7b17a056; 0xe2c74aac; 0x9551833a; 0x08f7f099; 0x7f86310f; 0xe62c35f5; 0x9163b583];
   [0xc1eaf252; 0xb6a27e24; 0x2f5445de; 0x58c45c48; 0xcfb8a00b; 0xb8af209d; 0x21a0b667; 0x568b56f1];
   [0xc6dde720; 0xb1ed8aa6; 0x2843e05c; 0x5f4080ca; 0xc2ab5669; 0xb59256ff; 0x2c917d05; 0x5bfbffb3]] ++ replicate 48 0.

Definition crc_internal_step (crc : Z) (b : byte) : Z :=
  Z.lxor (Z.shiftr crc 8) (nth (Z.to_nat (Z.land (Z.lxor crc (byte_val b)) 0xFF)) CRC32_TABLE 0).

Definition computeCRC32Internal (data : bytes) : Z :=
  Z.lxor (fold_left crc_internal_step data 0xFFFFFFFF) 0xFFFFFFFF.

Record WALRecord := mkWALRecord {
  r_lsn : Z; r_txnId : Z; r_type : bytes; r_payload : json;
  r_timestamp : Z; r_checksum : Z; r_isCommitted : bool }.

(** The streamed text; [None] when [dump] throws. *)
Definition checksum_text (r : WALRecord) : option bytes :=
  d ← json_dump (r_payload r);
  Some (to_dec (r_lsn r) ++ to_dec (r_txnId r) ++ r_type r ++ d ++ to_dec (r_timestamp r) ++
        [digit (if r_isCommitted r then 1 else 0)]).

Definition with_checksum (r : WALRecord) (c : Z) : WALRecord :=
  mkWALRecord (r_lsn r) (r_txnId r) (r_type r) (r_payload r) (r_timestamp r) c (r_isCommitted r).

Definition computeChecksum (r : WALRecord) : option WALRecord :=
  (fun t => with_checksum r (computeCRC32Internal t)) <$> checksum_text r.

Definition verifyChecksum (r : WALRecord) : option bool :=
  (fun t => computeCRC32Internal t =? r_checksum r) <$> checksum_text r.

Definition record_toJson (r : WALRecord) : json :=
  json_set (str "isCommitted") (JBool (r_isCommitted r)) (
  json_set (str "checksum") (JUInt (r_checksum r)) (
  json_set (str "timestamp") (JUInt (r_timestamp r)) (
  json_set (str "payload") (r_payload r) (
  json_set (str "type") (JString (r_type r)) (
  json_set (str "txnId") (JUInt (r_txnId r)) (
  json_set (str "lsn") (JUInt (r_lsn r)) JNull)))))).

Definition record_fromJson (j : json) : result WALRecord :=
  lsn ← value as_u64 j (str "lsn") 0;
  txnId ← value as_u64 j (str "txnId") 0;
  type ← value as_string j (str "type") [];
  payload ← value Some j (str "payload") JNull;
  timestamp ← value as_u64 j (str "timestamp") 0;
  checksum ← value as_u32 j (str "checksum") 0;
  isCommitted ← value as_bool j (str "isCommitted") false;
  Ok (mkWALRecord lsn txnId type payload timestamp checksum isCommitted).

(** ** The recovery scan *)

(** What the loops carry: the records, [lastGoodPos], [lastRecordStart] and
    [lastSeq]. *)
Record wscan := mkWscan { ws_records : list WALRecord; ws_good : Z; ws_start : Z; ws_seq : Z }.

(** The sequence check: the state the loop stops with, if it does. *)
Definition seq_stop (st : wscan) (seq : Z) (recordStart : Z) : option wscan :=
  if negb (seq =? 0) && negb (ws_seq st =? 0) && (seq <=? ws_seq st) then
    Some (if seq <? ws_seq st
          then mkWscan (removelast (ws_records st)) (ws_start st) (ws_start st) (ws_seq st)
          else mkWscan (ws_records st) recordStart (ws_start st) (ws_seq st))
  else None.

Definition push_record (st : wscan) (seq : Z) (recordStart after : Z) (r : WALRecord) : wscan :=
  mkWscan (ws_records st ++ [r]) after recordStart (if seq =? 0 then ws_seq st else seq).

(** The body of the [try] block: a parsed record whose checksum holds. *)
Definition accept_line (line : bytes) : option WALRecord :=
  j ← json_parse line;
  match record_fromJson j with
  | Err _ => None
  | Ok r => if r_checksum r =? 0 then Some r
            else ok ← verifyChecksum r; if ok : bool then Some r else None
  end.

(** The loop of both formats.  [next] takes one unit off the stream: a payload,
    an empty unit, or [None] where the loop breaks; [decode] gives its sequence
    number and its record, [Ok None] breaks, [Err] is an uncaught exception. *)
Fixpoint scan_units (next : bytes -> option (option bytes * bytes))
    (decode : bytes -> result (option (Z * (nat -> result WALRecord))))
    (fuel : nat) (size : Z) (cur : bytes) (st : wscan) : result wscan :=
  match fuel with
  | O => Ok st
  | S fuel' =>
      match next cur with
      | None => Ok st
      | Some (None, rest) =>
          scan_units next decode fuel' size rest
            (mkWscan (ws_records st) (size - blen rest) (ws_start st) (ws_seq st))
      | Some (Some payload, rest) =>
          d ← decode payload;
          match d with
          | None => Ok st
          | Some (seq, mk) =>
              match seq_stop st seq (size - blen cur) with
              | Some st => Ok st
              | None =>
                  r ← mk (length (ws_records st));
                  scan_units next decode fuel' size rest
                    (push_record st seq (size - blen cur) (size - blen rest) r)
              end
          end
      end
  end.

(** JSON lines: empty lines are skipped. *)
Definition next_json_line (cur : bytes) : option (option bytes * bytes) :=
  '(line, rest) ← getline cur;
  Some (match line with [] => None | _ => Some line end, rest).

Definition decode_line (line : bytes) : result (option (Z * (nat -> result WALRecord))) :=
  Ok ((fun r => (r_lsn r, fun _ => Ok r)) <$> accept_line line).

Definition kMaxWalEntryBytes : Z := 32 * 1024 * 1024.

(** [verifyWalPayloadCrc] of this file; [Err] is an exception it lets through. *)
Definition verifyWalPayloadCrc (entry : json) : result bool :=
  match entry with
  | JObject m =>
      match obj_find (str "_wal_crc32") m with
      | None => Ok true
      | Some v =>
          if negb (is_number_unsigned v) && negb (is_number_integer v) then Ok false
          else
            expected ← or_err (as_u32 v) "type_error.302";
            dumped ← or_err (json_dump (json_erase (str "_wal_crc32") entry)) "type_error.316";
            Ok (crc32 dumped =? expected)
      end
  | _ => Ok false
  end.

Definition record_of (records : nat) (seq : Z) (entry : json) : result WALRecord :=
  txnId ← value as_u64 entry (str "txnId") 0;
  action ← value as_string entry (str "action") [];
  type ← value as_string entry (str "op") action;
  timestamp ← value as_u64 entry (str "timestamp") 0;
  timestamp ← value as_u64 entry (str "_wal_ts_ms") timestamp;
  checksum ← value as_u32 entry (str "_wal_crc32") 0;
  isCommitted ← value as_bool entry (str "isCommitted") true;
  Ok (mkWALRecord (if seq =? 0 then Z.of_nat records + 1 else seq)
        txnId type entry timestamp checksum isCommitted).

Definition decode_frame (payload : bytes) : result (option (Z * (nat -> result WALRecord))) :=
  match decodeWalPayload payload with
  | None => Ok None
  | Some entry =>
      ok ← verifyWalPayloadCrc entry;
      if negb ok then Ok None
      else
        seq ← value as_u64 entry (str "_wal_seq") 0;
        Ok (Some (seq, fun n => record_of n seq entry))
  end.

(** One frame: [None] where the loop breaks, [Some (None, _)] for an empty one. *)
Definition read_frame (cur : bytes) : option (option bytes * bytes) :=
  '(op, cur) ← take_bytes 1 cur;
  '(size, cur) ← read_le 4 cur;
  match op with
  | b :: _ =>
      match isValidWalOp b with
      | None => None
      | Some _ =>
          if size =? 0 then Some (None, cur)
          else if kMaxWalEntryBytes <? size then None
          else '(payload, cur) ← take_bytes (Z.to_nat size) cur; Some (Some payload, cur)
      end
  | [] => None
  end.

Definition scan_start : wscan := mkWscan [] 0 0 0.

Definition scan_contents (data : bytes) : result wscan :=
  if looksLikeJsonLines data
  then scan_units next_json_line decode_line (S (length data)) (blen data) data scan_start
  else scan_units read_frame decode_frame (S (length data)) (blen data) data scan_start.

(** [scanAndTruncateWAL]: the records, and the file afterwards; [resize] tells
    whether [resize_file] succeeds. *)
Definition scanAndTruncateWAL (resize : bool) (f : option bytes) : result (list WALRecord) * option bytes :=
  match f with
  | None => (Ok [], None)
  | Some data =>
      match scan_contents data with
      | Err e => (Err e, f)
      | Ok st => (Ok (ws_records st),
                  if (ws_good st <? blen data) && resize then Some (take (Z.to_nat (ws_good st)) data) else f)
      end
  end.

(** ** Writing a record *)

Record wal_write_io := mkWalWriteIo {
  wwi_open : bool;
  wwi_written : option nat }.   (* None: the whole line; Some k: k bytes of it *)

(** [writeRecordWithFsync]: success, and the file afterwards.  The results of
    the two [fsync] calls are not looked at. *)
Definition writeRecordWithFsync (io : wal_write_io) (f : option bytes) (r : WALRecord) : bool * option bytes :=
  match computeChecksum r with
  | None => (false, f)
  | Some r =>
      if negb (wwi_open io) then (false, f)
      else
        let old := default [] f in
        match json_dump (record_toJson r) with
        | None => (false, Some old)
        | Some text =>
            let line := text ++ [byte_of 10] in
            match wwi_written io with
            | None => (true, Some (old ++ line))
            | Some k => (false, Some (old ++ take k line))
            end
        end
  end.

(** ** The clean-shutdown marker *)

Definition clean_line : bytes := str "clean-v2".

Record marker_io := mkMarkerIo {
  mi_open : bool;
  mi_written : nat;      (* bytes of the line that reached the file *)
  mi_persisted : bool;   (* fprintf, fflush, both fsyncs, fclose and the directory sync *)
  mi_removed : bool }.   (* std::remove of the failed marker *)

Definition markCleanShutdown (io : marker_io) (marker : option bytes) : result unit * option bytes :=
  let line := clean_line ++ [byte_of 10] in
  if negb (mi_open io) then (Err "cannot create clean shutdown marker", marker)
  else if mi_persisted io then (Ok tt, Some line)
  else (Err "cannot persist clean shutdown marker",
        if mi_removed io then None else Some (take (mi_written io) line)).

Definition wasCleanShutdown (marker : option bytes) : bool :=
  match marker with
  | None => false
  | Some data => bytes_eqb (match getline data with Some (line, _) => line | None => [] end) clean_line
  end.

(** [removed]: [std::remove] succeeds (or finds no file); [synced]: the
    directory is synchronised. *)
Definition clearCleanShutdownMarker (removed synced : bool) (marker : option bytes)
  : result unit * option bytes :=
  if negb removed then (Err "cannot remove clean shutdown marker", marker)
  else (if synced then Ok tt else Err "cannot persist clean shutdown marker removal", None).

(** ** Recovery is idempotent *)

(** Taking a unit off a stream reads no further than the unit. *)
Definition local_units (next : bytes -> option (option bytes * bytes)) : Prop :=
  next [] = None /\
  forall cur p rest, next cur = Some (p, rest) ->
    exists hd, cur = hd ++ rest /\ hd <> [] /\
      forall x, next (hd ++ take x rest) = Some (p, take x rest).

Lemma read_frame_local : local_units read_frame.
Proof.
  split; [reflexivity|]. intros cur p rest Hr. unfold read_frame in Hr.
  destruct (take_bytes 1 cur) as [[op c1]|] eqn:E1; [|discriminate]. cbn [mbind option_bind] in Hr.
  apply take_bytes_Some in E1 as [-> Hop].
  destruct (read_le 4 c1) as [[size c2]|] eqn:E2; [|discriminate]. cbn [mbind option_bind] in Hr.
  apply read_le_Some in E2 as (h4 & -> & Hh4 & Hsize).
  assert (Hgo : forall tl, read_frame (op ++ h4 ++ tl) =
    match op with
    | b :: _ => match isValidWalOp b with
      | None => None
      | Some _ => if size =? 0 then Some (None, tl)
                  else if kMaxWalEntryBytes <? size then None
                  else '(payload, cur) ← take_bytes (Z.to_nat size) tl; Some (Some payload, cur)
      end
    | [] => None
    end).
  { intros tl. unfold read_frame. rewrite take_bytes_app by exact Hop. cbn [mbind option_bind].
    unfold read_le. rewrite take_bytes_app by exact Hh4. cbn [mbind option_bind]. rewrite <- Hsize. reflexivity. }
  destruct op as [|b op]; [discriminate|].
  destruct (isValidWalOp b) eqn:Eb; [|discriminate].
  destruct (size =? 0) eqn:Es.
  - injection Hr as <- <-. exists ((b :: op) ++ h4). rewrite <- app_assoc. split; [reflexivity|].
    split; [discriminate|]. intros x. rewrite <- app_assoc. apply Hgo.
  - destruct (kMaxWalEntryBytes <? size) eqn:Ek; [discriminate|].
    destruct (take_bytes (Z.to_nat size) c2) as [[payload c3]|] eqn:E3; [|discriminate].
    cbn [mbind option_bind] in Hr. injection Hr as <- <-. apply take_bytes_Some in E3 as [-> Hlen].
    exists ((b :: op) ++ h4 ++ payload). rewrite <- !app_assoc. split; [reflexivity|].
    split; [discriminate|]. intros x. rewrite <- !app_assoc, Hgo. cbv beta iota.
    rewrite take_bytes_app by exact Hlen. reflexivity.
Qed.

Lemma split_line_local cur : forall line rest, split_line cur = (line, rest) ->
  rest = [] \/ exists hd, cur = hd ++ rest /\ hd <> [] /\ forall x, split_line (hd ++ x) = (line, x).
Proof.
  induction cur as [|b r IH]; intros line rest; cbn [split_line].
  - intros [= <- <-]. left. reflexivity.
  - destruct (byte_val b =? 10) eqn:Eb.
    + intros [= <- <-]. right. exists [b]. split; [reflexivity|]. split; [discriminate|].
      intros x. cbn [app split_line]. rewrite Eb. reflexivity.
    + destruct (split_line r) as [l' r'] eqn:E. intros [= <- <-].
      destruct (IH _ _ eq_refl) as [->|(hd & -> & _ & Hx)]; [left; reflexivity|].
      right. exists (b :: hd). split; [reflexivity|]. split; [discriminate|].
      intros x. cbn [app split_line]. rewrite Eb, Hx. reflexivity.
Qed.

Lemma next_json_line_local : local_units next_json_line.
Proof.
  split; [reflexivity|]. intros cur p rest Hn. unfold next_json_line in *.
  destruct (getline cur) as [[line r]|] eqn:E; [|discriminate]. cbn [mbind option_bind] in Hn.
  injection Hn as <- <-. destruct cur as [|b cur]; [discriminate|].
  assert (E' : split_line (b :: cur) = (line, r)) by (injection E as E; exact E). clear E.
  destruct (split_line_local _ _ _ E') as [->|(hd & Hcur & Hne & Hx)].
  - exists (b :: cur). rewrite app_nil_r. split; [reflexivity|]. split; [discriminate|].
    intros x. rewrite take_nil, app_nil_r. cbn [getline mbind option_bind]. rewrite E'. reflexivity.
  - exists hd. split; [exact Hcur|]. split; [exact Hne|]. intros x.
    destruct hd as [|c hd]; [congruence|]. cbn [app getline mbind option_bind].
    change (c :: hd ++ take x r) with ((c :: hd) ++ take x r). rewrite Hx. reflexivity.
Qed.

Section Rescan.
Context (next : bytes -> option (option bytes * bytes))
        (decode : bytes -> result (option (Z * (nat -> result WALRecord))))
        (Hlocal : local_units next).

Lemma take_app_beyond {A} (hd rest : list A) n :
  (length hd <= n)%nat -> take n (hd ++ rest) = hd ++ take (n - length hd) rest.
Proof. intros Hn. rewrite take_app, take_ge by lia. reflexivity. Qed.

(** Either the scan keeps what was read before [cur], and scanning the kept
    bytes again finds the same records, or it drops the last record read. *)
Lemma rescan_units fuel : forall size cur st st',
  (length cur < fuel)%nat -> ws_good st = size - blen cur ->
  scan_units next decode fuel size cur st = Ok st' ->
  (ws_good st <= ws_good st' <= size /\
   forall fuel', let kept := take (Z.to_nat (ws_good st' - ws_good st)) cur in
     (length kept < fuel')%nat ->
     exists st2, scan_units next decode fuel' (ws_good st') kept st = Ok st2 /\ ws_records st2 = ws_records st') \/
  (ws_good st' = ws_start st /\ ws_records st' = removelast (ws_records st)).
Proof.
  assert (Hstop : forall size cur (st st' : wscan), ws_good st = size - blen cur -> ws_good st' = ws_good st ->
    ws_records st' = ws_records st ->
    ws_good st <= ws_good st' <= size /\
    forall fuel', let kept := take (Z.to_nat (ws_good st' - ws_good st)) cur in
      (length kept < fuel')%nat ->
      exists st2, scan_units next decode fuel' (ws_good st') kept st = Ok st2 /\ ws_records st2 = ws_records st').
  { intros size cur st st' Hg Heq Hrec. split; [unfold blen in *; lia|]. intros fuel' kept Hf.
    exists st. split; [|auto]. destruct fuel' as [|fuel']; [lia|]. cbn [scan_units].
    unfold kept. rewrite Heq, Z.sub_diag. change (take (Z.to_nat 0) cur) with (@nil byte).
    rewrite (proj1 Hlocal). reflexivity. }
  induction fuel as [|fuel IH]; intros size cur st st' Hf Hg Hs; [lia|]. cbn [scan_units] in Hs.
  destruct (next cur) as [[p rest]|] eqn:En.
  2:{ apply Ok_inj in Hs as <-. left. apply Hstop; auto. }
  destruct (proj2 Hlocal _ _ _ En) as (hd & -> & Hne & Hx).
  assert (Hhd : (0 < length hd)%nat) by (destruct hd; [congruence|cbn; lia]).
  assert (Hlen : blen (hd ++ rest) = blen hd + blen rest) by (unfold blen; rewrite length_app; lia).
  rewrite length_app in Hf.
  (* the kept bytes go past this unit: it is read again *)
  assert (Hagain : forall st1, ws_good st1 = size - blen rest ->
    (forall fuel' size', size' - blen (hd ++ take (Z.to_nat (ws_good st' - ws_good st1)) rest) = ws_good st ->
       size' - blen (take (Z.to_nat (ws_good st' - ws_good st1)) rest) = ws_good st1 ->
       scan_units next decode (S fuel') size' (hd ++ take (Z.to_nat (ws_good st' - ws_good st1)) rest) st =
       scan_units next decode fuel' size' (take (Z.to_nat (ws_good st' - ws_good st1)) rest) st1) ->
    ws_good st1 <= ws_good st' <= size /\
    (forall fuel', let kept := take (Z.to_nat (ws_good st' - ws_good st1)) rest in
       (length kept < fuel')%nat ->
       exists st2, scan_units next decode fuel' (ws_good st') kept st1 = Ok st2 /\ ws_records st2 = ws_records st') ->
    ws_good st <= ws_good st' <= size /\
    forall fuel', let kept := take (Z.to_nat (ws_good st' - ws_good st)) (hd ++ rest) in
      (length kept < fuel')%nat ->
      exists st2, scan_units next decode fuel' (ws_good st') kept st = Ok st2 /\ ws_records st2 = ws_records st').
  { intros st1 Hg1 Hstep [Hb Hk]. split; [unfold blen in *; lia|]. intros fuel' kept Hf'. unfold kept in *.
    assert (Hkept : take (Z.to_nat (ws_good st' - ws_good st)) (hd ++ rest) =
                    hd ++ take (Z.to_nat (ws_good st' - ws_good st1)) rest).
    { rewrite take_app_beyond by (unfold blen in *; lia). f_equal. f_equal. unfold blen in *. lia. }
    rewrite Hkept in *. rewrite length_app in Hf'. destruct fuel' as [|fuel']; [lia|].
    assert (Hlk : blen (take (Z.to_nat (ws_good st' - ws_good st1)) rest) = ws_good st' - ws_good st1).
    { unfold blen in *. rewrite length_take. lia. }
    rewrite Hstep; [apply Hk; lia | |lia].
    unfold blen in *. rewrite length_app. lia. }
  destruct p as [payload|].
  - destruct (decode payload) as [[[seq mk]|]|] eqn:Ed; cbn [mbind result_bind] in Hs; [| |discriminate].
    2:{ apply Ok_inj in Hs as <-. left. apply Hstop; auto. }
    destruct (seq_stop st seq _) as [st1|] eqn:Eq.
    + apply Ok_inj in Hs as <-. unfold seq_stop in Eq. destruct (_ && _); [|discriminate].
      injection Eq as <-. destruct (seq <? ws_seq st); [right; auto|]. left. apply Hstop; auto.
    + destruct (mk _) as [r|] eqn:Em; cbn [mbind result_bind] in Hs; [|discriminate].
      set (st1 := push_record st seq (size - blen (hd ++ rest)) (size - blen rest) r) in *.
      destruct (IH size rest st1 st' ltac:(lia) eq_refl Hs) as [Hk|[Hgood Hrec]].
      * left. apply (Hagain st1 eq_refl); [|exact Hk]. intros fuel' size' Hp Hp1. cbn [scan_units].
        rewrite Hx, Ed. set (k := take _ rest) in *. clearbody k.
        cbn [mbind result_bind]. rewrite Hp. rewrite <- Hg in Eq. rewrite Eq, Em.
        cbn [mbind result_bind]. f_equal. unfold st1, push_record in *. rewrite Hp1, <- Hg. reflexivity.
      * left. apply Hstop; [exact Hg | |].
        -- rewrite Hgood. cbn. lia.
        -- rewrite Hrec. cbn. apply removelast_last.
  - set (st1 := mkWscan (ws_records st) (size - blen rest) (ws_start st) (ws_seq st)) in *.
    destruct (IH size rest st1 st' ltac:(lia) eq_refl Hs) as [Hk|Hk]; [left | right; exact Hk].
    apply (Hagain st1 eq_refl); [|exact Hk]. intros fuel' size' Hp Hp1. cbn [scan_units].
    rewrite Hx. set (k := take _ rest) in *. clearbody k. f_equal. unfold st1 in *. rewrite Hp1. reflexivity.
Qed.
End Rescan.

Lemma skip_spaces_app a b :
  skip_spaces a = [] \/ exists c r, skip_spaces a = c :: r /\ skip_spaces (a ++ b) = c :: r ++ b.
Proof.
  induction a as [|x a IH]; [left; reflexivity|]. cbn [app skip_spaces].
  destruct (is_space x); [exact IH|]. right. exists x, a. auto.
Qed.

Lemma blank_app a b : skip_spaces (a ++ b) = [] -> skip_spaces a = [] /\ skip_spaces b = [].
Proof.
  induction a as [|x a IH]; [auto|]. cbn [app skip_spaces]. destruct (is_space x); [exact IH|discriminate].
Qed.

Lemma split_line_app cur line rest :
  split_line cur = (line, rest) -> exists nl, cur = line ++ nl ++ rest.
Proof.
  revert line rest. induction cur as [|b r IH]; intros line rest; cbn [split_line].
  - intros [= <- <-]. exists []. reflexivity.
  - destruct (byte_val b =? 10); [intros [= <- <-]; exists [b]; reflexivity|].
    destruct (split_line r) as [l' r'] eqn:E. intros [= <- <-].
    destruct (IH _ _ eq_refl) as [nl ->]. exists nl. reflexivity.
Qed.

Section Idempotent.
Hypothesis parse_blank : forall t, skip_spaces t = [] -> json_parse t = None.

Lemma scan_blank fuel : forall size cur st st',
  skip_spaces cur = [] -> scan_units next_json_line decode_line fuel size cur st = Ok st' ->
  ws_records st' = ws_records st.
Proof.
  induction fuel as [|fuel IH]; intros size cur st st' Hb; cbn [scan_units]; [intros <-%Ok_inj; reflexivity|].
  unfold next_json_line. destruct (getline cur) as [[line rest]|] eqn:E; cbn [mbind option_bind];
    [|intros <-%Ok_inj; reflexivity].
  destruct cur as [|b cur]; [discriminate|].
  assert (E' : split_line (b :: cur) = (line, rest)) by (injection E as E; exact E).
  apply split_line_app in E' as [nl Hcur]. rewrite Hcur in Hb. apply blank_app in Hb as [Hl Hr].
  apply blank_app in Hr as [_ Hr]. destruct line as [|c line].
  - intros Hs. apply IH in Hs; [exact Hs | exact Hr].
  - unfold decode_line, accept_line. rewrite parse_blank by exact Hl.
    cbn [mbind option_bind fmap option_fmap option_map result_bind]. intros <-%Ok_inj. reflexivity.
Qed.

Lemma frames_blank fuel size cur : skip_spaces cur = [] ->
  scan_units read_frame decode_frame (S fuel) size cur scan_start = Ok scan_start.
Proof.
  intros Hb. cbn [scan_units]. destruct cur as [|b cur]; [reflexivity|].
  cbn [skip_spaces] in Hb. destruct (is_space b) eqn:Eb; [|discriminate].
  assert (Hop : isValidWalOp b = None).
  { clear -Eb. destruct b; try reflexivity; discriminate. }
  unfold read_frame. cbn [take_bytes mbind option_bind]. destruct (take_bytes 1 (b :: cur)) as [[op c1]|] eqn:E1;
    cbn [mbind option_bind]; [|reflexivity].
  assert (op = [b]) as ->. { unfold take_bytes in E1. cbn in E1. injection E1 as <- _. reflexivity. }
  destruct (read_le 4 c1) as [[size' c2]|]; cbn [mbind option_bind]; [|reflexivity].
  rewrite Hop. reflexivity.
Qed.

Lemma scan_start_rescan next decode data st :
  local_units next -> scan_units next decode (S (length data)) (blen data) data scan_start = Ok st ->
  0 <= ws_good st <= blen data /\
  let kept := take (Z.to_nat (ws_good st)) data in
  exists st2, scan_units next decode (S (length kept)) (blen kept) kept scan_start = Ok st2 /\
    ws_records st2 = ws_records st.
Proof.
  intros Hl Hs.
  destruct (rescan_units next decode Hl (S (length data)) (blen data) data scan_start st
              (Nat.lt_succ_diag_r _) ltac:(cbn; lia) Hs) as [[Hb Hk]|[Hg Hr]].
  - cbn [ws_good scan_start] in *. rewrite Z.sub_0_r in Hk. split; [lia|]. set (kept := take _ data) in *.
    destruct (Hk (S (length kept)) (Nat.lt_succ_diag_r _)) as (st2 & H1 & H2). exists st2. split; [|exact H2].
    rewrite <- H1. f_equal. unfold kept, blen in *. rewrite length_take. lia.
  - cbn in Hg, Hr. rewrite Hg, Hr. split; [unfold blen; lia|].
    change (take (Z.to_nat 0) data) with (@nil byte). cbv zeta. exists scan_start.
    cbn [length scan_units]. rewrite (proj1 Hl). auto.
Qed.

(** The legacy recovery scan is idempotent: whatever a WAL file holds (JSON
    lines or frames, torn, damaged or out of order), when [scanAndTruncateWAL]
    returns records and truncates the file, scanning the truncated file again
    returns the same records, so a crash during recovery or a second recovery
    loses nothing. *)
Theorem rescan_same_records resize data recs f' :
  scanAndTruncateWAL true (Some data) = (Ok recs, f') ->
  (scanAndTruncateWAL resize f').1 = Ok recs.
Proof.
  unfold scanAndTruncateWAL at 1. destruct (scan_contents data) as [st|e] eqn:Es; [|discriminate].
  intros [= <- <-]. rewrite andb_true_r. destruct (ws_good st <? blen data); [|cbn; rewrite Es; reflexivity].
  unfold scanAndTruncateWAL.
  enough (exists st2, scan_contents (take (Z.to_nat (ws_good st)) data) = Ok st2 /\ ws_records st2 = ws_records st)
    as (st2 & -> & <-) by reflexivity.
  unfold scan_contents in Es |- *. set (kept := take (Z.to_nat (ws_good st)) data).
  destruct (skip_spaces_app kept (drop (Z.to_nat (ws_good st)) data)) as [Hblank|(c & r & Hc & Hd)].
  - assert (Hlook : looksLikeJsonLines kept = false) by (unfold looksLikeJsonLines; rewrite Hblank; reflexivity).
    rewrite Hlook, frames_blank by exact Hblank. exists scan_start. split; [reflexivity|].
    destruct (looksLikeJsonLines data).
    + destruct (scan_start_rescan _ _ _ _ next_json_line_local Es) as (_ & st2 & H2 & <-). fold kept in H2.
      symmetry. eapply scan_blank; [exact Hblank | exact H2].
    + destruct (scan_start_rescan _ _ _ _ read_frame_local Es) as (_ & st2 & H2 & <-). fold kept in H2.
      rewrite frames_blank in H2 by exact Hblank. apply Ok_inj in H2 as <-. reflexivity.
  - unfold kept in Hd. rewrite take_drop in Hd.
    assert (Hlook : looksLikeJsonLines kept = looksLikeJsonLines data).
    { unfold looksLikeJsonLines. rewrite Hc, Hd. reflexivity. }
    rewrite Hlook. destruct (looksLikeJsonLines data).
    + destruct (scan_start_rescan _ _ _ _ next_json_line_local Es) as (_ & Hk). exact Hk.
    + destruct (scan_start_rescan _ _ _ _ read_frame_local Es) as (_ & Hk). exact Hk.
Qed.
End Idempotent.

(** ** Records as JSON *)

Definition record_wf (r : WALRecord) : Prop :=
  0 <= r_lsn r < 2 ^ 64 /\ 0 <= r_txnId r < 2 ^ 64 /\ 0 <= r_timestamp r < 2 ^ 64 /\
  0 <= r_checksum r < 2 ^ 32.

Lemma record_json_roundtrip r : record_wf r -> record_fromJson (record_toJson r) = Ok r.
Proof.
  destruct r as [lsn txn ty pl ts ck ic]. intros (H1 & H2 & H3 & H4). cbn [r_lsn r_txnId r_timestamp r_checksum] in *.
  assert (E64 : forall z, 0 <= z < 2 ^ 64 -> u64 z = z) by (intros; apply Z.mod_small; assumption).
  assert (E32 : forall z, 0 <= z < 2 ^ 32 -> u32 z = z) by (intros; apply Z.mod_small; assumption).
  transitivity (Ok (mkWALRecord (u64 lsn) (u64 txn) ty pl (u64 ts) (u32 ck) ic)).
  - destruct ic; reflexivity.
  - rewrite !E64, E32 by assumption. reflexivity.
Qed.

(** The clean-shutdown marker is trustworthy: after [markCleanShutdown]
    succeeds the next start sees a clean shutdown; when it fails and the marker
    could be removed, or after the marker was cleared, it does not; and a marker
    counts only if its first line is exactly [clean-v2] (not the older [clean]). *)
Theorem clean_marker_sound io marker removed synced :
  (forall m, markCleanShutdown io marker = (Ok tt, m) -> wasCleanShutdown m = true) /\
  (forall e m, markCleanShutdown io marker = (Err e, m) -> mi_open io = true -> mi_removed io = true ->
     wasCleanShutdown m = false) /\
  (forall m, clearCleanShutdownMarker removed synced marker = (Ok tt, m) -> wasCleanShutdown m = false) /\
  (forall data, wasCleanShutdown (Some data) = true ->
     data = clean_line \/ exists rest, data = clean_line ++ byte_of 10 :: rest).
Proof.
  split_and!.
  - intros m. unfold markCleanShutdown. destruct (negb _); [discriminate|].
    destruct (mi_persisted io); [|discriminate]. intros [= <-]. reflexivity.
  - intros e m. unfold markCleanShutdown. intros Hm Ho Hr. rewrite Ho, Hr in Hm. cbn [negb] in Hm.
    destruct (mi_persisted io); [discriminate|]. injection Hm as _ <-. reflexivity.
  - intros m. unfold clearCleanShutdownMarker. destruct removed; [|discriminate]. cbn [negb].
    destruct synced; [|discriminate]. intros [= <-]. reflexivity.
  - intros data. cbn [wasCleanShutdown]. destruct (getline data) as [[line rest]|] eqn:E; [|discriminate].
    intros Hl%bytes_eqb_eq. subst line. destruct data as [|b data]; [discriminate|].
    assert (E' : split_line (b :: data) = (clean_line, rest)) by (injection E as E; exact E). clear E.
    revert E'. generalize (b :: data) clean_line. clear. intros d. induction d as [|x d IH]; intros l; cbn [split_line].
    + intros [= <- _]. left. reflexivity.
    + destruct (byte_val x =? 10) eqn:Ex.
      * apply Z.eqb_eq in Ex. intros [= <- <-]. right. exists d. cbn [app].
        rewrite <- (byte_of_val x), Ex. reflexivity.
      * destruct (split_line d) as [l' r'] eqn:E. intros [= <- <-].
        destruct (IH l' eq_refl) as [->|[q ->]]; [left; reflexivity | right; exists q; reflexivity].
Qed.

(** ** Records written are records read *)

(** The text of the values in [ok] reads back, is one line, and opens with a
    brace when the value is an object. *)
Class JsonLineText (ok : json -> Prop) := {
  line_text : forall v, ok v -> exists t, json_dump v = Some t /\ json_parse t = Some v /\
    Forall (fun c => byte_val c <> 10) t /\ (is_object v = true -> exists t', t = byte_of 123 :: t') }.

Lemma split_line_written t rest :
  Forall (fun c => byte_val c <> 10) t -> split_line (t ++ byte_of 10 :: rest) = (t, rest).
Proof.
  induction 1 as [|c t Hc _ IH]; cbn [app split_line].
  - reflexivity.
  - rewrite (proj2 (Z.eqb_neq _ _)) by exact Hc. rewrite IH. reflexivity.
Qed.

Definition good_io : wal_write_io := mkWalWriteIo true None.

Definition write_records (rs : list WALRecord) (f : option bytes) : option bytes :=
  fold_left (fun f r => (writeRecordWithFsync good_io f r).2) rs f.

Section WriteScan.
Context (ok : json -> Prop) `{JL : !JsonLineText ok}.

(** A record whose payload and own JSON form have a text. *)
Definition writable (r : WALRecord) : Prop :=
  record_wf r /\ (exists d, json_dump (r_payload r) = Some d) /\
  forall c, 0 <= c < 2 ^ 32 -> ok (record_toJson (with_checksum r c)).

Definition checksummed (r : WALRecord) : WALRecord := default r (computeChecksum r).

Lemma computeCRC32Internal_range data : 0 <= computeCRC32Internal data < 2 ^ 32.
Proof.
  assert (Ht : Forall word32 CRC32_TABLE).
  { apply Forall_forall. intros x Hx.
    assert (Hall : forallb (fun x => (0 <=? x) && (x <? 2 ^ 32)) CRC32_TABLE = true) by (vm_compute; reflexivity).
    rewrite forallb_forall in Hall. specialize (Hall x (proj1 (list_elem_of_In _ _) Hx)).
    apply andb_true_iff in Hall as [H1%Z.leb_le H2%Z.ltb_lt]. split; assumption. }
  assert (Hstep : forall c b, word32 c -> word32 (crc_internal_step c b)).
  { intros c b Hc. unfold crc_internal_step. apply lxor_word32.
    - unfold word32 in *. rewrite Z.shiftr_div_pow2 by lia. split; [apply Z.div_pos; lia|].
      apply Z.div_lt_upper_bound; lia.
    - destruct (nth_in_or_default (Z.to_nat (Z.land (Z.lxor c (byte_val b)) 255)) CRC32_TABLE 0) as [Hin|Hdef].
      + rewrite Forall_forall in Ht. apply Ht, list_elem_of_In, Hin.
      + rewrite Hdef. unfold word32. lia. }
  assert (Hfold : forall c, word32 c -> word32 (fold_left crc_internal_step data c)).
  { induction data as [|b data IH]; intros c Hc; cbn [fold_left]; auto. }
  unfold computeCRC32Internal. apply (lxor_word32 _ 0xFFFFFFFF); [|unfold word32; lia].
  apply Hfold. unfold word32. lia.
Qed.

Lemma written_line r : writable r ->
  exists t, (writeRecordWithFsync good_io None r).2 = Some (t ++ [byte_of 10]) /\
    (forall f, (writeRecordWithFsync good_io f r) = (true, Some (default [] f ++ t ++ [byte_of 10]))) /\
    Forall (fun c => byte_val c <> 10) t /\ (exists t', t = byte_of 123 :: t') /\
    accept_line t = Some (checksummed r).
Proof.
  intros (Hwf & (d & Hd) & Hok).
  assert (Htxt : exists txt, checksum_text r = Some txt).
  { unfold checksum_text. rewrite Hd. cbn [mbind option_bind]. eauto. }
  destruct Htxt as [txt Htxt].
  assert (Hcs : computeChecksum r = Some (checksummed r)).
  { unfold checksummed, computeChecksum. rewrite Htxt. reflexivity. }
  assert (Hr' : checksummed r = with_checksum r (computeCRC32Internal txt)).
  { unfold checksummed, computeChecksum. rewrite Htxt. reflexivity. }
  pose proof (computeCRC32Internal_range txt) as Hrange.
  destruct (line_text _ (Hok _ Hrange)) as (t & Ht & Hparse & Hnl & Hobj).
  rewrite <- Hr' in Ht, Hparse, Hobj.
  exists t. unfold writeRecordWithFsync. rewrite Hcs. cbn [good_io wwi_open negb]. rewrite Ht.
  cbn [wwi_written]. split; [reflexivity|]. split; [intros f; reflexivity|]. split; [exact Hnl|].
  split; [apply Hobj; reflexivity|].
  assert (Hwf' : record_wf (checksummed r)).
  { rewrite Hr'. destruct Hwf as (? & ? & ? & _). unfold record_wf. cbn. auto. }
  unfold accept_line. rewrite Hparse. cbn [mbind option_bind]. rewrite record_json_roundtrip by exact Hwf'.
  destruct (r_checksum (checksummed r) =? 0); [reflexivity|].
  assert (Hv : verifyChecksum (checksummed r) = Some true).
  { assert (Htxt' : checksum_text (checksummed r) = Some txt) by (rewrite Hr'; exact Htxt).
    unfold verifyChecksum. rewrite Htxt', Hr'. cbn. rewrite Z.eqb_refl. reflexivity. }
  rewrite Hv. reflexivity.
Qed.

Definition lsn_increasing (last : Z) (rs : list WALRecord) : Prop :=
  fold_left (fun acc r => match acc with
                          | Some l => if l <? r_lsn r then Some (r_lsn r) else None
                          | None => None
                          end) rs (Some last) <> None.

Lemma fold_none {A B} (f : A -> B -> option A) l :
  fold_left (fun acc r => match acc with Some x => f x r | None => None end) l None = None.
Proof. induction l; cbn [fold_left]; auto. Qed.

Lemma lsn_increasing_cons last r rs :
  lsn_increasing last (r :: rs) -> last < r_lsn r /\ lsn_increasing (r_lsn r) rs.
Proof.
  unfold lsn_increasing. cbn [fold_left]. destruct (Z.ltb_spec last (r_lsn r)) as [Hlt|]; [auto|].
  intros Hn. destruct Hn.
  apply (fold_none (fun l (r : WALRecord) => if l <? r_lsn r then Some (r_lsn r) else None)).
Qed.

Definition line_of (r : WALRecord) (t : bytes) : Prop :=
  Forall (fun c => byte_val c <> 10) t /\ (exists t', t = byte_of 123 :: t') /\
  accept_line t = Some (checksummed r).

Definition lines_text (ts : list bytes) : bytes := flat_map (fun t => t ++ [byte_of 10]) ts.

Lemma write_records_lines rs : Forall writable rs ->
  exists ts, Forall2 line_of rs ts /\
    forall old, write_records rs (Some old) = Some (old ++ lines_text ts).
Proof.
  induction 1 as [|r rs Hr _ (ts & Hts & Hw)].
  - exists []. split; [constructor|]. intros old. cbn. rewrite app_nil_r. reflexivity.
  - destruct (written_line r Hr) as (t & _ & Hwr & Hl). exists (t :: ts). split; [constructor; assumption|].
    intros old. unfold write_records in *. cbn [fold_left]. rewrite Hwr. cbn [snd default].
    rewrite Hw. unfold lines_text. cbn [flat_map]. rewrite <- !app_assoc. reflexivity.
Qed.

Lemma scan_lines_text rs ts : Forall2 line_of rs ts -> forall fuel size st,
  (length (lines_text ts) < fuel)%nat -> 0 <= ws_seq st -> lsn_increasing (ws_seq st) rs ->
  ws_good st = size - blen (lines_text ts) ->
  exists st', scan_units next_json_line decode_line fuel size (lines_text ts) st = Ok st' /\
    ws_records st' = ws_records st ++ map checksummed rs /\ ws_good st' = size.
Proof.
  induction 1 as [|r t rs ts (Hnl & (t' & Ht') & Hacc) _ IH]; intros fuel size st Hf Hseq Hinc Hg;
    (destruct fuel as [|fuel]; [lia|]).
  - exists st. cbn. cbn in Hg. rewrite app_nil_r. change (blen []) with 0 in Hg. split_and!; auto. lia.
  - apply lsn_increasing_cons in Hinc as [Hlt Hinc].
    assert (Hlsn : r_lsn (checksummed r) = r_lsn r).
    { unfold checksummed, computeChecksum. destruct (checksum_text r); reflexivity. }
    assert (Hcur : lines_text (t :: ts) = t ++ byte_of 10 :: lines_text ts).
    { unfold lines_text. cbn [flat_map]. rewrite <- app_assoc. reflexivity. }
    rewrite Hcur in *. cbn [scan_units].
    assert (Hnext : next_json_line (t ++ byte_of 10 :: lines_text ts) = Some (Some t, lines_text ts)).
    { unfold next_json_line, getline. pose proof (split_line_written t (lines_text ts) Hnl) as Hs.
      rewrite Ht' in *. cbn [app] in *. rewrite Hs. reflexivity. }
    rewrite Hnext. unfold decode_line. rewrite Hacc. cbn [fmap option_fmap option_map mbind result_bind].
    rewrite Hlsn. unfold seq_stop. rewrite (proj2 (Z.leb_gt (r_lsn r) (ws_seq st))) by lia. rewrite andb_false_r.
    cbn [mbind result_bind]. set (st1 := push_record _ _ _ _ _).
    rewrite length_app in Hf. cbn [length] in Hf.
    destruct (IH fuel size st1) as (st' & Hs & Hrec & Hgood); [lia| | |reflexivity|].
    + unfold st1, push_record. cbn. rewrite (proj2 (Z.eqb_neq _ _)) by lia. lia.
    + unfold st1, push_record. cbn. rewrite (proj2 (Z.eqb_neq _ _)) by lia. exact Hinc.
    + exists st'. split; [exact Hs|]. split; [|exact Hgood]. rewrite Hrec. unfold st1. cbn.
      rewrite <- app_assoc. reflexivity.
Qed.

(** JSON-line WAL round trip: records with increasing LSNs written one after
    another by [writeRecordWithFsync] to an empty file are all returned by
    [scanAndTruncateWAL], in order and with the checksums that were computed,
    and the file is left as it was. *)
Theorem wal_records_roundtrip resize rs :
  Forall writable rs -> lsn_increasing 0 rs ->
  let f := write_records rs (Some []) in
  scanAndTruncateWAL resize f = (Ok (map checksummed rs), f).
Proof.
  intros Hw Hinc f. destruct (write_records_lines rs Hw) as (ts & Hts & Hwr).
  assert (Hf : f = Some (lines_text ts)) by apply Hwr. clearbody f. subst f.
  assert (Hscan : scan_contents (lines_text ts) =
                  scan_units next_json_line decode_line (S (length (lines_text ts))) (blen (lines_text ts))
                    (lines_text ts) scan_start).
  { unfold scan_contents. destruct Hts as [|r t rs ts (_ & (t' & ->) & _) _]; reflexivity. }
  destruct (scan_lines_text rs ts Hts (S (length (lines_text ts))) (blen (lines_text ts)) scan_start)
    as (st' & Hs & Hrec & Hgood); [lia | cbn; lia | exact Hinc | cbn; lia |].
  unfold scanAndTruncateWAL. rewrite Hscan, Hs, Hrec, Hgood, Z.ltb_irrefl. reflexivity.
Qed.
End WriteScan.

(** The table is not the CRC-32 table, and 48 of its words are zero: a change
    of a single digit can leave the checksum as it was. *)
Example checksum_misses_a_digit :
  computeCRC32Internal (str "100") = computeCRC32Internal (str "101") /\
  crc32 (str "100") <> crc32 (str "101") /\ nth 16 CRC32_TABLE 0 <> nth 16 crc32_table 0.
Proof. vm_compute. split_and!; congruence. Qed.
End WalIntegrity.

(** ** A concrete text form for the witnesses *)

Definition nibbles (b : byte) : bytes := [byte_of (65 + byte_val b / 16); byte_of (65 + byte_val b mod 16)].

Fixpoint unnibble (s : bytes) : option bytes :=
  match s with
  | [] => Some []
  | a :: b :: r => (fun t => byte_of ((byte_val a - 65) * 16 + (byte_val b - 65)) :: t) <$> unnibble r
  | _ => None
  end.

#[local] Instance nibble_text : JsonText := {
  json_dump v := Some (byte_of 123 :: flat_map nibbles (to_msgpack v));
  json_parse t := match t with
                  | c :: r => if byte_val c =? 123 then s ← unnibble r; from_msgpack s else None
                  | [] => None
                  end }.

Lemma unnibble_nibbles s : unnibble (flat_map nibbles s) = Some s.
Proof.
  induction s as [|b s IH]; [reflexivity|]. cbn [flat_map nibbles app unnibble]. rewrite IH.
  cbn [fmap option_fmap option_map]. pose proof (byte_val_range b).
  rewrite !byte_val_of_small by (pose proof (Z.div_pos (byte_val b) 16); pose proof (Z.mod_pos_bound (byte_val b) 16);
    pose proof (Z.div_lt_upper_bound (byte_val b) 16 16); lia).
  replace ((65 + byte_val b / 16 - 65) * 16 + (65 + byte_val b mod 16 - 65)) with (byte_val b)
    by (pose proof (Z.div_mod (byte_val b) 16); lia).
  rewrite byte_of_val. reflexivity.
Qed.

Definition stable (v : json) : Prop := json_wf v /\ canon v = v.

#[local] Instance nibble_line_text : JsonLineText stable.
Proof.
  split. intros v [Hwf Hc]. eexists. split; [reflexivity|]. split; [|split; [|eauto]].
  - cbn. rewrite unnibble_nibbles. cbn [mbind option_bind]. rewrite from_to_msgpack, Hc by exact Hwf. reflexivity.
  - constructor; [discriminate|]. apply Forall_forall. intros c Hc'.
    apply list_elem_of_In, in_flat_map in Hc' as (b & _ & Hb). pose proof (byte_val_range b).
    pose proof (Z.div_pos (byte_val b) 16). pose proof (Z.mod_pos_bound (byte_val b) 16).
    pose proof (Z.div_lt_upper_bound (byte_val b) 16 16).
    destruct Hb as [<-|[<-|[]]]; rewrite byte_val_of_small; lia.
Qed.

Definition sample_record (lsn : Z) : WALRecord :=
  mkWALRecord lsn 7 (str "INSERT") (JObject [(str "k", JBool true)]) 9 0 true.

Lemma sample_record_writable lsn : 0 <= lsn < 2 ^ 64 -> writable stable (sample_record lsn).
Proof.
  intros Hl. split; [unfold record_wf; cbn; lia|]. split; [eexists; reflexivity|]. intros c Hc.
  assert (Hj : record_toJson (with_checksum (sample_record lsn) c) =
    JObject [(str "checksum", JUInt c); (str "isCommitted", JBool true); (str "lsn", JUInt lsn);
             (str "payload", JObject [(str "k", JBool true)]); (str "timestamp", JUInt 9);
             (str "txnId", JUInt 7); (str "type", JString (str "INSERT"))]) by reflexivity.
  rewrite Hj. split.
  - apply json_wf_object. split; [simpl; lia|]. split; [repeat constructor|].
    repeat constructor; cbn; unfold blen, U64_MAX; try lia; try reflexivity.
  - cbn [canon map]. reflexivity.
Qed.

Lemma wal_records_roundtrip_witness :
  let f := write_records [sample_record 1; sample_record 2] (Some []) in
  scanAndTruncateWAL true f = (Ok (map checksummed [sample_record 1; sample_record 2]), f).
Proof.
  apply (wal_records_roundtrip stable true [sample_record 1; sample_record 2]).
  - apply Forall_cons; split; [|apply Forall_cons; split; [|apply Forall_nil_2]]; apply sample_record_writable; lia.
  - vm_compute. discriminate.
Defined.

(** Two frames, the second with a lower sequence number, and a torn third. *)
Definition torn_wal : bytes :=
  let frame seq := let p := to_msgpack (JObject [(str "_wal_seq", JUInt seq)]) in
                   byte_of 1 :: le_bytes 4 (blen p) ++ p in
  frame 5 ++ frame 6 ++ frame 2 ++ [byte_of 1; byte_of 9].

Lemma rescan_same_records_witness :
  exists recs f', scanAndTruncateWAL true (Some torn_wal) = (Ok recs, f') /\ f' <> Some torn_wal /\
    (scanAndTruncateWAL false f').1 = Ok recs.
Proof.
  destruct (scanAndTruncateWAL true (Some torn_wal)) as [[recs|] f'] eqn:E; [|vm_compute in E; discriminate].
  exists recs, f'. split; [reflexivity|]. split; [vm_compute in E; injection E as _ <-; discriminate|].
  eapply (rescan_same_records _ false torn_wal recs f'). exact E.
  Unshelve. intros t Ht. destruct t as [|c t]; [reflexivity|]. cbn [skip_spaces] in Ht.
  destruct (is_space c) eqn:Ec; [|discriminate]. cbn. clear -Ec. destruct c; try reflexivity; discriminate.
Defined.
