(* ===== verification/Wal.v ===== *)
(** * The collection write-ahead log (wal.cpp)

    A logical WAL is an optional legacy file and a directory of numbered
    segments.  Records are framed, checksummed and numbered by LSN; appends go
    to the active segment and roll to a new one by size; a scan replays all
    files in order and tells a torn tail of the last file from corruption;
    opening a log truncates a torn tail; checkpoints reclaim covered files.

    The environment variables are a [wal_config]; the file system of one
    logical WAL is a [wal_disk]; what the operating system answers to each call
    is an argument; the clock is a function of the LSN.  Metrics, latency
    averages and log output are left out. *)

From S2P Require Import Prelude FileSys Decimal Json Msgpack JsonValue Checksum WalIntegrity.
From stdpp Require Import base list gmap strings sorting.
From Stdlib Require Import ZArith Lia.

Open Scope Z_scope.

(** ** Configuration *)

Record wal_config := mkWalConfig {
  walBinaryEncodingEnabled : bool;
  walCrcEnabled : bool;
  walFsyncEnabled : bool;
  env_segmentMaxBytes : Z;     (* WAL_SEGMENT_MAX_BYTES *)
  env_maxRecordBytes : Z }.    (* WAL_MAX_RECORD_BYTES *)

Definition kSegmentHeaderBytes : Z := 32.
Definition kSegmentVersion : Z := 3.
Definition kPreparedPayloadHeaderBytes : Z := 26.

Definition segmentMaxBytes (cfg : wal_config) : Z :=
  Z.max (kSegmentHeaderBytes + 1024) (env_segmentMaxBytes cfg).
Definition maxRecordBytes (cfg : wal_config) : Z := Z.max 1024 (env_maxRecordBytes cfg).

(** ** Records *)

Section Wal.
Context `{JT : JsonText}.

(** [verifyWalPayloadCrc] of wal.cpp, which catches every exception. *)
Definition verifyPayloadCrc (entry : json) : bool :=
  match entry with
  | JObject m =>
      match obj_find (str "_wal_crc32") m with
      | None => true
      | Some v =>
          if negb (is_number_unsigned v) && negb (is_number_integer v) then false
          else
            let forCrc := JObject (obj_erase (str "_wal_crc32") m) in
            match value as_string forCrc (str "_wal_crc_encoding") [] with
            | Err _ => false
            | Ok encoding =>
                if bytes_eqb encoding (str "msgpack-v1")
                then bool_decide (as_u32 v = Some (crc32 (to_msgpack forCrc)))
                else match json_dump forCrc with
                     | Some text => bool_decide (as_u32 v = Some (crc32 text))
                     | None => false
                     end
            end
      end
  | _ => false
  end.

Definition encodeWalPayload (cfg : wal_config) (entry : json) : option bytes :=
  if walBinaryEncodingEnabled cfg then Some (to_msgpack entry) else json_dump entry.

Record PendingWalEntry := mkPending {
  p_op : WalOp; p_entry : json; preparedPayload : bytes; preparedCrc : Z; preparedHasCrc : bool }.

Definition preparePendingEntry (cfg : wal_config) (op : WalOp) (entry : json) : option PendingWalEntry :=
  payload ← encodeWalPayload cfg entry;
  Some (mkPending op entry payload (if walCrcEnabled cfg then crc32 payload else 0) (walCrcEnabled cfg)).

Definition prepared_magic : bytes := str "PDBB1".

Definition framePreparedRecord (cfg : wal_config) (p : PendingWalEntry) (lsn now : Z) : result bytes :=
  let payloadSize := kPreparedPayloadHeaderBytes + blen (preparedPayload p) in
  if (maxRecordBytes cfg <? payloadSize) || (2 ^ 32 - 1 <? payloadSize)
  then Err "collection WAL record exceeds WAL_MAX_RECORD_BYTES"
  else Ok (byte_of (op_code (p_op p)) :: le_bytes 4 payloadSize ++ prepared_magic ++
           [byte_of (if preparedHasCrc p then 1 else 0)] ++ le_bytes 8 lsn ++ le_bytes 8 now ++
           le_bytes 4 (preparedCrc p) ++ preparedPayload p).

Definition decodePreparedPayload (payload : bytes) : option json :=
  '(header, encoded) ← take_bytes 26 payload;
  if negb (bytes_eqb (take 5 header) prepared_magic) then None else
  let hasCrc := Z.odd (le_value (take 1 (drop 5 header))) in
  let lsn := le_value (take 8 (drop 6 header)) in
  let timestampMs := le_value (take 8 (drop 14 header)) in
  let expectedCrc := le_value (take 4 (drop 22 header)) in
  if bytes_eqb encoded [] || (negb hasCrc && negb (expectedCrc =? 0)) ||
     (hasCrc && negb (crc32 encoded =? expectedCrc)) then None
  else
    entry ← decodeWalPayload encoded;
    if negb (is_object entry) then None
    else Some (json_set (str "_wal_ts_ms") (JUInt timestampMs) (
               json_set (str "_wal_seq") (JUInt lsn) (
               json_set (str "_wal_lsn") (JUInt lsn) entry))).

(** [payload] decoded and verified, in either encoding. *)
Definition decodeRecord (payload : bytes) : option json :=
  if (5 <=? length payload)%nat && bytes_eqb (take 5 payload) prepared_magic
  then decodePreparedPayload payload
  else entry ← decodeWalPayload payload; if verifyPayloadCrc entry then Some entry else None.

Definition fnv64 (s : bytes) : Z :=
  fold_left (fun hash b => u64 (Z.lxor hash (byte_val b) * 1099511628211)) s 1469598103934665603.

Definition walIdentityHash (entry : json) : Z :=
  if negb (is_object entry) then 0 else
  match (u ← value as_string entry (str "userId") [];
         d ← value as_string entry (str "db") [];
         c ← value as_string entry (str "collection") [];
         Ok (u ++ [byte_of 10] ++ d ++ [byte_of 10] ++ c)) with
  | Err _ => 0
  | Ok identity => if bytes_eqb identity [byte_of 10; byte_of 10] then 0 else fnv64 identity
  end.

Definition readEntryLsn (entry : json) (legacy : bool) (fallback : Z) : option Z :=
  if negb (is_object entry) then None else
  let field := if json_contains (str "_wal_lsn") entry then str "_wal_lsn" else str "_wal_seq" in
  if negb legacy && negb (json_contains (str "_wal_lsn") entry) then None else
  match json_find field entry with
  | None => if legacy then Some fallback else None
  | Some v => if negb (is_number_unsigned v) && negb (is_number_integer v) then None else as_u64 v
  end.

Definition segment_magic : bytes := str "PDBW3".

Definition segmentHeader (segmentId firstLsn identityHash : Z) : bytes :=
  segment_magic ++ [byte_of kSegmentVersion] ++ le_bytes 2 kSegmentHeaderBytes ++
  le_bytes 8 segmentId ++ le_bytes 8 firstLsn ++ le_bytes 8 identityHash.

(** ** The files *)

Record wal_disk := mkDisk {
  d_legacy : option bytes;            (* the file [logicalWal] *)
  d_dir : bool;                       (* [logicalWal.segments] exists *)
  d_segments : gmap bytes bytes }.    (* its regular files *)

Inductive wal_file := WLegacy | WSegment (name : bytes).

Definition is_legacy (f : wal_file) : bool := match f with WLegacy => true | _ => false end.

Definition wal_contents (d : wal_disk) (f : wal_file) : option bytes :=
  match f with WLegacy => d_legacy d | WSegment n => d_segments d !! n end.

Definition segmentPath (segmentId : Z) : bytes := dec_padded 20 segmentId ++ str ".wal".

Definition sortedSegmentFiles (d : wal_disk) : list bytes :=
  merge_sort bytes_le
    (List.filter (fun n => bytes_eqb (extension n) (str ".wal")) (map_to_list (d_segments d)).*1).

(** [path.stem()]. *)
Definition path_stem (name : bytes) : bytes := take (length name - length (extension name)) name.

(** ** Scanning *)

Inductive WalScanStatus := ScanOK | PARTIAL_TAIL | CORRUPT | IO_ERROR.

#[export] Instance WalScanStatus_eq_dec : EqDecision WalScanStatus.
Proof. solve_decision. Defined.

Record WalReplayRecord := mkReplay { rr_op : WalOp; rr_lsn : Z; rr_entry : json }.

Record ScannedWalFile := mkScanned {
  sf_file : wal_file; sf_segmentId : Z; sf_firstLsn : Z; sf_endLsn : Z;
  sf_validBytes : Z; sf_identityHash : Z }.

(** What the operating system answers while scanning. *)
Record scan_io := mkScanIo {
  si_exists : bool; si_type : bool; si_list : bool; si_open : wal_file -> bool }.

Definition scan_io_good : scan_io := mkScanIo true true true (fun _ => true).

Section Scan.
Context {V : Type} (cfg : wal_config) (visitor : V -> WalReplayRecord -> V * bool).

(** [InternalScanResult] and the visitor's state. *)
Record wal_scan := mkScan {
  sc_status : WalScanStatus; sc_records : Z; sc_lastLsn : Z; sc_validBytes : Z;
  sc_error : string; sc_files : list ScannedWalFile; sc_acc : V }.

Definition setScanFailure (s : wal_scan) (status : WalScanStatus) (error : string) : wal_scan :=
  mkScan status (sc_records s) (sc_lastLsn s) (sc_validBytes s) error (sc_files s) (sc_acc s).

Definition setFileScanFailure (s : wal_scan) (f : ScannedWalFile) (status : WalScanStatus) (error : string)
  : wal_scan :=
  let s := if bool_decide (status = PARTIAL_TAIL)
           then mkScan (sc_status s) (sc_records s) (sc_lastLsn s) (sc_validBytes s + sf_validBytes f)
                  (sc_error s) (sc_files s ++ [f]) (sc_acc s)
           else s in
  setScanFailure s status error.

Definition torn (final : bool) : WalScanStatus := if final then PARTIAL_TAIL else CORRUPT.

(** The identity a legacy file takes from its entries; [None] when it changes. *)
Definition legacy_identity (m : ScannedWalFile) (entryIdentity : Z) : option ScannedWalFile :=
  if entryIdentity =? 0 then Some m else
  let ident := if sf_identityHash m =? 0 then entryIdentity else sf_identityHash m in
  if negb (ident =? entryIdentity) then None
  else Some (mkScanned (sf_file m) (sf_segmentId m) (sf_firstLsn m) (sf_endLsn m) (sf_validBytes m) ident).

(** A record is taken: the file's range and the scan advance, and the visitor
    sees it; [inr] when the visitor declines. *)
Definition take_record (s : wal_scan) (m : ScannedWalFile) (lsn validBytes : Z) (op : WalOp) (entry : json)
  : (wal_scan * ScannedWalFile) + wal_scan :=
  let m := mkScanned (sf_file m) (sf_segmentId m) (if sf_firstLsn m =? 0 then lsn else sf_firstLsn m)
             lsn validBytes (sf_identityHash m) in
  let '(acc, go) := visitor (sc_acc s) (mkReplay op lsn entry) in
  let s := mkScan (sc_status s) (sc_records s + 1) lsn (sc_validBytes s) (sc_error s) (sc_files s) acc in
  if go then inl (s, m) else inr s.

(** [WALRecord::fromJson] and its checksum, for a line that carries one. *)
Definition line_checksum (wrapper : json) : option string :=
  if negb (json_contains (str "checksum") wrapper) then None
  else match record_fromJson wrapper with
       | Err _ => Some "invalid legacy JSON WAL fields"%string
       | Ok r => if r_checksum r =? 0 then None
                 else match verifyChecksum r with
                      | None => Some "invalid legacy JSON WAL fields"%string
                      | Some true => None
                      | Some false => Some "legacy JSON WAL checksum mismatch"%string
                      end
       end.

Definition no_newline (s : bytes) : bool := forallb (fun c => negb (byte_val c =? 10)) s.

(** The loop over the lines of a legacy JSON file. *)
Fixpoint scan_json (fuel : nat) (final : bool) (size : Z) (cur : bytes) (m : ScannedWalFile) (s : wal_scan)
  : (wal_scan * ScannedWalFile) + wal_scan :=
  match fuel with
  | O => inl (s, m)
  | S fuel' =>
      match getline cur with
      | None => inl (s, m)
      | Some ([], rest) => scan_json fuel' final size rest m s
      | Some (line, rest) =>
          match json_parse line with
          | None => inr (setFileScanFailure s m (torn (final && no_newline cur)) "invalid JSON WAL record: ")
          | Some wrapper =>
              if negb (is_object wrapper)
              then inr (setScanFailure s CORRUPT "legacy WAL record is not an object") else
              match line_checksum wrapper with
              | Some e => inr (setScanFailure s CORRUPT e)
              | None =>
                  let entry := match json_find (str "payload") wrapper with Some p => p | None => wrapper end in
                  match legacy_identity m (walIdentityHash entry) with
                  | None => inr (setScanFailure s CORRUPT "legacy WAL namespace identity changed")
                  | Some m =>
                      let lsn := match json_find (str "lsn") wrapper with
                                 | Some v => default 0 (as_u64 v)
                                 | None => default 0 (readEntryLsn entry true (u64 (sc_lastLsn s + 1)))
                                 end in
                      if (lsn =? 0) || (lsn <=? sc_lastLsn s) || negb (verifyPayloadCrc entry)
                      then inr (setScanFailure s CORRUPT "invalid legacy WAL payload or LSN")
                      else match take_record s m lsn (size - blen rest) INSERT entry with
                           | inl (s, m) => scan_json fuel' final size rest m s
                           | inr s => inr s
                           end
                  end
              end
          end
      end
  end.

(** [!isValidWalOp(op) || op == WalOp::SEGMENT_HEADER] rejects. *)
Definition frame_op (b : byte) : option WalOp :=
  op ← isValidWalOp b; if bool_decide (op = SEGMENT_HEADER) then None else Some op.

(** The loop over the frames of a file. *)
Fixpoint scan_frames (fuel : nat) (final : bool) (size : Z) (cur : bytes) (first : bool)
    (m : ScannedWalFile) (s : wal_scan) : (wal_scan * ScannedWalFile) + wal_scan :=
  match fuel with
  | O => inl (s, m)
  | S fuel' =>
      match cur with
      | [] => inl (s, m)
      | op :: cur =>
          match read_le 4 cur with
          | None => inr (setFileScanFailure s m (torn final) "partial WAL frame header")
          | Some (payloadSize, cur) =>
              match frame_op op with
              | None => inr (setScanFailure s CORRUPT "invalid WAL frame")
              | Some op =>
                  if (payloadSize =? 0) || (maxRecordBytes cfg <? payloadSize)
                  then inr (setScanFailure s CORRUPT "invalid WAL frame") else
                  match take_bytes (Z.to_nat payloadSize) cur with
                  | None => inr (setFileScanFailure s m (torn final) "partial WAL payload")
                  | Some (payload, rest) =>
                      match decodeRecord payload with
                      | None => inr (setScanFailure s CORRUPT "invalid or checksummed WAL payload")
                      | Some entry =>
                          let legacy := is_legacy (sf_file m) in
                          let entryIdentity := walIdentityHash entry in
                          match (if legacy then legacy_identity m entryIdentity else Some m) with
                          | None => inr (setScanFailure s CORRUPT "legacy WAL namespace identity changed")
                          | Some m =>
                              match readEntryLsn entry legacy (u64 (sc_lastLsn s + 1)) with
                              | None => inr (setScanFailure s CORRUPT
                                               "non-increasing WAL LSN or invalid segment boundary")
                              | Some lsn =>
                                  if (lsn =? 0) || (lsn <=? sc_lastLsn s) ||
                                     (negb legacy && negb (sf_identityHash m =? 0) && negb (entryIdentity =? 0) &&
                                      negb (entryIdentity =? sf_identityHash m)) ||
                                     (first && negb (lsn =? sf_firstLsn m))
                                  then inr (setScanFailure s CORRUPT
                                              "non-increasing WAL LSN or invalid segment boundary")
                                  else match take_record s m lsn (size - blen rest) op entry with
                                       | inl (s, m) => scan_frames fuel' final size rest false m s
                                       | inr s => inr s
                                       end
                              end
                          end
                      end
                  end
              end
          end
      end
  end.

(** The end of a file's turn. *)
Definition finish_file (s : wal_scan) (m : ScannedWalFile) : wal_scan :=
  let lastLsn := if negb (is_legacy (sf_file m)) && (sf_endLsn m =? 0) && (0 <? sf_firstLsn m)
                 then Z.max (sc_lastLsn s) (sf_firstLsn m - 1) else sc_lastLsn s in
  mkScan (sc_status s) (sc_records s) lastLsn (sc_validBytes s + sf_validBytes m) (sc_error s)
    (sc_files s ++ [m]) (sc_acc s).

(** The segment header: [previousSegmentId] and [segmentIdentity] link it to
    the segments before. *)
Definition scan_header (final : bool) (name : bytes) (data : bytes) (previousId identity : Z) (s : wal_scan)
  : ScannedWalFile * bytes + wal_scan :=
  let m0 := mkScanned (WSegment name) 0 0 0 0 0 in
  match take_bytes 32 data with
  | None => inr (setFileScanFailure s m0 (torn final) "partial WAL segment header: ")
  | Some (header, rest) =>
      if negb (bytes_eqb (take 5 header) segment_magic) ||
         negb (le_value (take 1 (drop 5 header)) =? kSegmentVersion) ||
         negb (le_value (take 2 (drop 6 header)) =? kSegmentHeaderBytes)
      then inr (setScanFailure s CORRUPT "invalid WAL segment header: ")
      else
        let segmentId := le_value (take 8 (drop 8 header)) in
        let firstLsn := le_value (take 8 (drop 16 header)) in
        let identityHash := le_value (take 8 (drop 24 header)) in
        let named := default 0 (stoull (path_stem name)) in
        if (segmentId =? 0) || negb (segmentId =? named) || (segmentId <=? previousId) ||
           (firstLsn =? 0) || (negb (identity =? 0) && negb (identityHash =? identity))
        then inr (setScanFailure s CORRUPT "inconsistent WAL segment identity or range")
        else inl (mkScanned (WSegment name) segmentId firstLsn 0 kSegmentHeaderBytes identityHash, rest)
  end.

Fixpoint scan_files (io : scan_io) (d : wal_disk) (files : list wal_file) (previousId identity : Z) (s : wal_scan)
  : wal_scan :=
  match files with
  | [] => s
  | f :: rest =>
      let final := match rest with [] => true | _ => false end in
      match (if si_open io f then wal_contents d f else None) with
      | None => setScanFailure s IO_ERROR "cannot open WAL file: "
      | Some data =>
          let size := blen data in
          let loop r previousId identity :=
            match r with
            | inr s => s
            | inl (s, m) => scan_files io d rest previousId identity (finish_file s m)
            end in
          match f with
          | WLegacy =>
              let m := mkScanned WLegacy 0 0 0 0 0 in
              if looksLikeJsonLines data
              then loop (scan_json (S (length data)) final size data m s) previousId identity
              else loop (scan_frames (S (length data)) final size data false m s) previousId identity
          | WSegment name =>
              match scan_header final name data previousId identity s with
              | inr s => s
              | inl (m, cur) =>
                  loop (scan_frames (S (length data)) final size cur true m s) (sf_segmentId m) (sf_identityHash m)
              end
          end
      end
  end.

Definition scan_start (acc : V) : wal_scan := mkScan ScanOK 0 0 0 "" [] acc.

Definition physicalFiles (d : wal_disk) : list wal_file :=
  match d_legacy d with Some _ => [WLegacy] | None => [] end ++ map WSegment (sortedSegmentFiles d).

Definition scanWalFiles (io : scan_io) (d : wal_disk) (acc : V) : wal_scan :=
  let s := scan_start acc in
  if negb (si_exists io) then setScanFailure s IO_ERROR "cannot inspect legacy WAL: "
  else if negb (si_type io) then setScanFailure s IO_ERROR "cannot inspect legacy WAL type: "
  else if negb (si_list io) then setScanFailure s IO_ERROR "cannot enumerate WAL segments: "
  else scan_files io d (physicalFiles d) 0 0 s.
End Scan.

Arguments wal_scan : clear implicits.

(** ** The state of a logical WAL *)

Record LogicalWalState := mkWalState {
  clearing : bool; initialized : bool; poisoned : bool; ws_error : string;
  nextLsn : Z; activeSegment : Z; activeBytes : Z; identityHash : Z }.

Definition wal_state_new : LogicalWalState := mkWalState false false false "" 1 0 0 0.

(** The process: its state for this log, the disk, and [g_walSeq]. *)
Record wal := mkWal { w_state : LogicalWalState; w_disk : wal_disk; g_walSeq : Z }.

Definition updateGlobalWalSeq (seq lsn : Z) : Z := Z.max seq lsn.

Definition no_visitor {V} (v : V) (_ : WalReplayRecord) : V * bool := (v, true).

Definition write_segment (d : wal_disk) (name data : bytes) : wal_disk :=
  mkDisk (d_legacy d) (d_dir d) (<[name := data]> (d_segments d)).

Definition remove_file (d : wal_disk) (f : wal_file) : wal_disk :=
  match f with
  | WLegacy => mkDisk None (d_dir d) (d_segments d)
  | WSegment n => mkDisk (d_legacy d) (d_dir d) (delete n (d_segments d))
  end.

Definition resize_file (d : wal_disk) (f : wal_file) (n : Z) : wal_disk :=
  match f with
  | WLegacy => mkDisk (take (Z.to_nat n) <$> d_legacy d) (d_dir d) (d_segments d)
  | WSegment name => mkDisk (d_legacy d) (d_dir d) (alter (take (Z.to_nat n)) name (d_segments d))
  end.

Record init_io := mkInitIo {
  ii_scan : scan_io; ii_truncate : bool; ii_sync : bool; ii_dirsync : bool; ii_rescan : scan_io }.

Definition init_io_good : init_io := mkInitIo scan_io_good true true true scan_io_good.

(** The active segment is the last one scanned with the highest number. *)
Definition adopt_file (st : LogicalWalState) (f : ScannedWalFile) : LogicalWalState :=
  if negb (is_legacy (sf_file f)) && (activeSegment st <=? sf_segmentId f)
  then mkWalState (clearing st) (initialized st) (poisoned st) (ws_error st) (nextLsn st)
         (sf_segmentId f) (sf_validBytes f) (sf_identityHash f)
  else st.

Definition adopt_scan {V} (w : wal) (d : wal_disk) (scan : wal_scan V) : result unit * wal :=
  if negb (bool_decide (sc_status scan = ScanOK))
  then (Err ("cannot append after invalid WAL scan: " +:+ sc_error scan), mkWal (w_state w) d (g_walSeq w))
  else
    let st := w_state w in
    let st := mkWalState (clearing st) (initialized st) (poisoned st) (ws_error st)
                (u64 (sc_lastLsn scan + 1)) (activeSegment st) (activeBytes st) (identityHash st) in
    let st := fold_left adopt_file (sc_files scan) st in
    (Ok tt, mkWal (mkWalState (clearing st) true (poisoned st) (ws_error st) (nextLsn st)
                     (activeSegment st) (activeBytes st) (identityHash st))
              d (updateGlobalWalSeq (g_walSeq w) (sc_lastLsn scan))).

Definition initializeLogicalWal (cfg : wal_config) (io : init_io) (w : wal) : result unit * wal :=
  if initialized (w_state w) then (Ok tt, w) else
  let scan := scanWalFiles cfg no_visitor (ii_scan io) (w_disk w) tt in
  match bool_decide (sc_status scan = PARTIAL_TAIL), last (sc_files scan) with
  | true, Some tail =>
      if negb (ii_truncate io) then (Err "cannot truncate partial WAL tail: ", w) else
      let d := if sf_validBytes tail =? 0 then remove_file (w_disk w) (sf_file tail)
               else resize_file (w_disk w) (sf_file tail) (sf_validBytes tail) in
      let w := mkWal (w_state w) d (g_walSeq w) in
      if negb (sf_validBytes tail =? 0) && negb (ii_sync io)
      then (Err "cannot synchronize truncated WAL tail", w)
      else if negb (ii_dirsync io) then (Err "cannot synchronize truncated WAL directory", w)
      else adopt_scan w d (scanWalFiles cfg no_visitor (ii_rescan io) d tt)
  | _, _ => adopt_scan w (w_disk w) scan
  end.

(** ** Appending *)

(** The planning loop: where it stands, and the bytes for each segment. *)
Record plan := mkPlan {
  pl_lsn : Z; pl_segment : Z; pl_bytes : Z; pl_identity : Z; pl_chunks : list (bytes * bytes) }.

(** [chunks.back().second += bytes], after [chunks] got an entry for [physical]. *)
Definition add_to_chunk (chunks : list (bytes * bytes)) (physical bs : bytes) : list (bytes * bytes) :=
  match last chunks with
  | Some (name, data) =>
      if bytes_eqb name physical then removelast chunks ++ [(name, data ++ bs)]
      else chunks ++ [(physical, bs)]
  | None => chunks ++ [(physical, bs)]
  end.

Definition plan_entry (cfg : wal_config) (clock : Z -> Z) (pl : plan) (e : PendingWalEntry) : result plan :=
  let entryIdentity := walIdentityHash (p_entry e) in
  let identity := if pl_identity pl =? 0 then entryIdentity else pl_identity pl in
  _ ← guard_err (negb (negb (entryIdentity =? 0) && negb (identity =? 0) && negb (entryIdentity =? identity)))
        "collection WAL namespace identity changed";
  let lsn := pl_lsn pl in
  frame ← framePreparedRecord cfg e lsn (clock lsn);
  let roll := (pl_segment pl =? 0) ||
              ((kSegmentHeaderBytes <? pl_bytes pl) && (segmentMaxBytes cfg <? pl_bytes pl + blen frame)) in
  let segment := if roll then u64 (pl_segment pl + 1) else pl_segment pl in
  let bytes0 := if roll then 0 else pl_bytes pl in
  let header := if bytes0 =? 0 then segmentHeader segment lsn identity else [] in
  let bytes1 := if bytes0 =? 0 then kSegmentHeaderBytes else bytes0 in
  Ok (mkPlan (u64 (lsn + 1)) segment (bytes1 + blen frame) identity
        (add_to_chunk (pl_chunks pl) (segmentPath segment) (header ++ frame))).

Fixpoint plan_entries (cfg : wal_config) (clock : Z -> Z) (pl : plan) (es : list PendingWalEntry) : result plan :=
  match es with
  | [] => Ok pl
  | e :: r => pl ← plan_entry cfg clock pl e; plan_entries cfg clock pl r
  end.

Record append_io := mkAppendIo {
  ai_parent : bool; ai_init : init_io; ai_dirs : bool; ai_dirsync : bool;
  ai_write : nat -> option nat;   (* per chunk; Some k: fails after k bytes *)
  ai_fsync : nat -> bool }.

Definition append_io_good : append_io := mkAppendIo true init_io_good true true (fun _ => None) (fun _ => true).

Definition append_bytes (d : wal_disk) (name data : bytes) : wal_disk :=
  write_segment d name (default [] (d_segments d !! name) ++ data).

(** [for (chunk) appendWalBytes]: whether all were written, and the disk. *)
Fixpoint write_chunks (write : nat -> option nat) (i : nat) (chunks : list (bytes * bytes)) (d : wal_disk)
  : bool * wal_disk :=
  match chunks with
  | [] => (true, d)
  | (name, data) :: rest =>
      match write i with
      | None => write_chunks write (S i) rest (append_bytes d name data)
      | Some k => (false, append_bytes d name (take k data))
      end
  end.

Definition poison (w : wal) (d : wal_disk) (error : string) : wal :=
  let st := w_state w in
  mkWal (mkWalState (clearing st) (initialized st) true error (nextLsn st) (activeSegment st)
           (activeBytes st) (identityHash st)) d (g_walSeq w).

(** [appendEntries]: the first and last LSN of the batch, or the error. *)
Definition appendEntries (cfg : wal_config) (clock : Z -> Z) (io : append_io) (forceFsync : bool)
    (w : wal) (entries : list PendingWalEntry) : result (Z * Z) * wal :=
  match entries with
  | [] => (Ok (0, 0), w)
  | _ =>
      if clearing (w_state w) then (Err "collection WAL is being cleared: ", w)
      else if negb (ai_parent io) then (Err "collection WAL append exception for ", w)
      else
        let '(r, w) := initializeLogicalWal cfg (ai_init io) w in
        match r with
        | Err e => (Err ("collection WAL append exception for " +:+ e), w)
        | Ok _ =>
            let st := w_state w in
            if poisoned st then (Err ("collection WAL append exception for " +:+ ws_error st), w)
            else if negb (ai_dirs io) then (Err "collection WAL append exception for ", w)
            else
              let created := negb (d_dir (w_disk w)) in
              let d := mkDisk (d_legacy (w_disk w)) true (d_segments (w_disk w)) in
              let w := mkWal st d (g_walSeq w) in
              if created && negb (ai_dirsync io) then (Err "collection WAL append exception for cannot synchronize new WAL segment directory", w)
              else
                match plan_entries cfg clock
                        (mkPlan (nextLsn st) (activeSegment st) (activeBytes st) (identityHash st) []) entries with
                | Err e => (Err ("collection WAL append exception for " +:+ e), w)
                | Ok pl =>
                    let '(written, d) := write_chunks (ai_write io) 0 (pl_chunks pl) d in
                    if negb written
                    then (Err "failed to append collection WAL file: ",
                          poison w d "failed collection WAL append requires restart")
                    else if (forceFsync || walFsyncEnabled cfg) &&
                            negb (forallb (ai_fsync io) (seq 0 (length (pl_chunks pl))))
                    then (Err "failed to synchronize collection WAL file: ",
                          poison w d "collection WAL sync failure requires restart")
                    else (Ok (nextLsn st, u64 (pl_lsn pl - 1)),
                          mkWal (mkWalState (clearing st) (initialized st) (poisoned st) (ws_error st)
                                   (pl_lsn pl) (pl_segment pl) (pl_bytes pl) (pl_identity pl))
                            d (updateGlobalWalSeq (g_walSeq w) (u64 (pl_lsn pl - 1))))
                end
        end
  end.

(** [submitPrepared] without group commit, of what [preparePendingEntry] gives. *)
Definition submitPrepared (cfg : wal_config) (clock : Z -> Z) (io : append_io) (w : wal)
    (pending : option PendingWalEntry) : result (Z * Z) * wal :=
  match pending with
  | None => (Err "type_error.316", w)
  | Some p => appendEntries cfg clock io false w [p]
  end.

(** [WAL::log]. *)
Definition wal_log (cfg : wal_config) (clock : Z -> Z) (io : append_io) (w : wal) (entry : json)
  : result (Z * Z) * wal :=
  submitPrepared cfg clock io w (preparePendingEntry cfg INSERT entry).

(** The object of an initialiser list: later pairs do not replace earlier ones,
    and here no key is given twice. *)
Definition json_object (kvs : list (bytes * json)) : object :=
  fold_left (fun m kv => obj_insert kv.1 kv.2 m) kvs [].

Definition put_batch (userId database collection : bytes) (documents : list json) : object :=
  json_object [(str "_wal_batch_format", JInt 1); (str "op", JString (str "PUT_BATCH"));
               (str "userId", JString userId); (str "db", JString database);
               (str "collection", JString collection); (str "data", JArray documents)].

Definition logPutBatch (cfg : wal_config) (clock : Z -> Z) (io : append_io) (w : wal)
    (userId database collection : bytes) (documents : list json) : result (Z * Z) * wal :=
  match documents with
  | [] => (Ok (0, 0), w)
  | _ => submitPrepared cfg clock io w
           (preparePendingEntry cfg BATCH_COMPRESSED (JObject (put_batch userId database collection documents)))
  end.

Definition logBatch (cfg : wal_config) (clock : Z -> Z) (io : append_io) (w : wal) (entries : list json)
  : result (Z * Z) * wal :=
  match entries with
  | [] => (Ok (0, 0), w)
  | first :: _ =>
      match (u ← value as_string first (str "userId") [];
             d ← value as_string first (str "db") [];
             c ← value as_string first (str "collection") [];
             Ok (json_object [(str "_wal_batch_format", JInt 1); (str "op", JString (str "WAL_BATCH"));
                              (str "userId", JString u); (str "db", JString d); (str "collection", JString c);
                              (str "mutations", JArray entries)])) with
      | Err e => (Err e, w)
      | Ok batch => submitPrepared cfg clock io w (preparePendingEntry cfg BATCH_COMPRESSED (JObject batch))
      end
  end.

(** ** Reclaiming and clearing *)

Record reclaim_io := mkReclaimIo {
  ri_scan : scan_io;
  ri_mkdir : bool; ri_mkdirsync : bool; ri_anchor : option nat; ri_anchorsync : bool;   (* Some k: the anchor write fails after k bytes *)
  ri_remove : wal_file -> bool; ri_dirsync : bool; ri_parentsync : bool }.

Definition reclaim_io_good : reclaim_io :=
  mkReclaimIo scan_io_good true true None true (fun _ => true) true true.

Definition covered_legacy (coveredLsn : Z) (f : ScannedWalFile) : bool :=
  is_legacy (sf_file f) && negb (sf_endLsn f =? 0) && (sf_endLsn f <=? coveredLsn).

Definition covered_file (coveredLsn highest : Z) (f : ScannedWalFile) : bool :=
  covered_legacy coveredLsn f ||
  (negb (is_legacy (sf_file f)) && (sf_segmentId f <? highest) && negb (sf_endLsn f =? 0) &&
   (sf_endLsn f <=? coveredLsn)).

Fixpoint remove_covered (io : reclaim_io) (coveredLsn highest : Z) (fs : list ScannedWalFile) (d : wal_disk)
  : bool * wal_disk :=
  match fs with
  | [] => (true, d)
  | f :: r =>
      if covered_file coveredLsn highest f then
        if ri_remove io (sf_file f) then remove_covered io coveredLsn highest r (remove_file d (sf_file f))
        else (false, d)
      else remove_covered io coveredLsn highest r d
  end.

(** The anchor segment that keeps the LSN when only a legacy file is left. *)
Definition write_anchor (io : reclaim_io) (coveredLsn : Z) (fs : list ScannedWalFile) (d : wal_disk)
  : result unit * wal_disk :=
  let highest := fold_left Z.max (map sf_segmentId fs) 0 in
  match last (List.filter (covered_legacy coveredLsn) fs) with
  | Some f =>
      if negb (highest =? 0) then (Ok tt, d)
      else if coveredLsn =? U64_MAX then (Err "checkpoint WAL LSN cannot advance beyond uint64 max", d)
      else if negb (ri_mkdir io) then (Err "cannot create checkpoint WAL anchor directory", d)
      else
        let created := negb (d_dir d) in
        let header := segmentHeader 1 (coveredLsn + 1) (sf_identityHash f) in
        let d := mkDisk (d_legacy d) true (d_segments d) in
        if created && negb (ri_mkdirsync io) then (Err "cannot create checkpoint WAL anchor directory", d)
        else match ri_anchor io with
        | Some k => (Err "cannot persist checkpoint WAL LSN anchor", append_bytes d (segmentPath 1) (take k header))
        | None => (if ri_anchorsync io then Ok tt else Err "cannot persist checkpoint WAL LSN anchor",
                   append_bytes d (segmentPath 1) header)
        end
  | None => (Ok tt, d)
  end.

Definition reclaimThrough (cfg : wal_config) (io : reclaim_io) (w : wal) (coveredLsn : Z) : result unit * wal :=
  let scan := scanWalFiles cfg no_visitor (ri_scan io) (w_disk w) tt in
  if negb (bool_decide (sc_status scan = ScanOK)) then (Err (sc_error scan), w) else
  let fs := sc_files scan in
  let highest := fold_left Z.max (map sf_segmentId fs) 0 in
  let '(r, d) := write_anchor io coveredLsn fs (w_disk w) in
  match r with
  | Err e => (Err e, mkWal (w_state w) d (g_walSeq w))
  | Ok _ =>
      let '(removed, d) := remove_covered io coveredLsn highest fs d in
      let w' := mkWal (w_state w) d (g_walSeq w) in
      if negb removed then (Err "cannot remove covered WAL file: ", w')
      else if d_dir d && negb (ri_dirsync io) then (Err "cannot synchronize WAL segment directory", w')
      else if negb (ri_parentsync io) then (Err "cannot synchronize legacy WAL directory", w')
      else
        let st := w_state w in
        (Ok tt, mkWal (mkWalState (clearing st) false (poisoned st) (ws_error st) (nextLsn st)
                         (activeSegment st) (activeBytes st) (identityHash st)) d (g_walSeq w))
  end.

(** [clear]: whether the two removals succeed. *)
Definition wal_clear (removed_file removed_dir : bool) (w : wal) : wal :=
  let d := w_disk w in
  mkWal wal_state_new
    (mkDisk (if removed_file then None else d_legacy d)
            (if removed_dir then false else d_dir d)
            (if removed_dir then ∅ else d_segments d))
    (g_walSeq w).
End Wal.

Arguments wal_scan : clear implicits.
