(* ===== verification/WalLog.v ===== *)
(** * The log as a list of segments

    The abstract view of a segmented WAL: segments with consecutive records.
    A disk that holds the bytes of such a log scans without error and replays
    exactly its records. *)

From S2P Require Import Prelude FileSys Decimal Json Msgpack JsonValue Checksum WalIntegrity Wal.
From stdpp Require Import base list gmap strings sorting.
From Stdlib Require Import ZArith Lia.

Open Scope Z_scope.

Section WalLog.
Context `{JT : JsonText} (cfg : wal_config).

(** ** Records and segments *)

(** A record: what was prepared, its LSN and timestamp, and the value the
    prepared payload decodes to. *)
Record lrec := mkLrec { lr_pending : PendingWalEntry; lr_lsn : Z; lr_ts : Z; lr_decoded : json }.

Definition stamp (e : json) (lsn ts : Z) : json :=
  json_set (str "_wal_ts_ms") (JUInt ts) (
  json_set (str "_wal_seq") (JUInt lsn) (
  json_set (str "_wal_lsn") (JUInt lsn) e)).

Definition replay_of (r : lrec) : WalReplayRecord :=
  mkReplay (p_op (lr_pending r)) (lr_lsn r) (stamp (lr_decoded r) (lr_lsn r) (lr_ts r)).

Definition rec_payload (r : lrec) : bytes :=
  let p := lr_pending r in
  prepared_magic ++ [byte_of (if preparedHasCrc p then 1 else 0)] ++ le_bytes 8 (lr_lsn r) ++
  le_bytes 8 (lr_ts r) ++ le_bytes 4 (preparedCrc p) ++ preparedPayload p.

Definition rec_frame (r : lrec) : bytes :=
  byte_of (op_code (p_op (lr_pending r))) ::
  le_bytes 4 (kPreparedPayloadHeaderBytes + blen (preparedPayload (lr_pending r))) ++ rec_payload r.

(** A prepared entry that a reader accepts. *)
Record pending_ok (p : PendingWalEntry) (e : json) : Prop := {
  po_op : p_op p <> SEGMENT_HEADER;
  po_payload : preparedPayload p <> [];
  po_crc : preparedCrc p = if preparedHasCrc p then crc32 (preparedPayload p) else 0;
  po_decode : decodeWalPayload (preparedPayload p) = Some e;
  po_object : is_object e = true;
  po_identity : walIdentityHash e = walIdentityHash (p_entry p) }.

Record rec_ok (r : lrec) : Prop := {
  ro_pending : pending_ok (lr_pending r) (lr_decoded r);
  ro_size : kPreparedPayloadHeaderBytes + blen (preparedPayload (lr_pending r)) <= maxRecordBytes cfg;
  ro_size32 : kPreparedPayloadHeaderBytes + blen (preparedPayload (lr_pending r)) < 2 ^ 32;
  ro_lsn : 0 < lr_lsn r < 2 ^ 64;
  ro_ts : 0 <= lr_ts r < 2 ^ 64 }.

Record seg := mkSeg { g_id : Z; g_first : Z; g_ident : Z; g_recs : list lrec }.

Definition seg_bytes (g : seg) : bytes :=
  segmentHeader (g_id g) (g_first g) (g_ident g) ++ flat_map rec_frame (g_recs g).

Definition g_next (g : seg) : Z := g_first g + Z.of_nat (length (g_recs g)).

Fixpoint lsn_run (first : Z) (rs : list lrec) : Prop :=
  match rs with
  | [] => True
  | r :: rest => lr_lsn r = first /\ lsn_run (first + 1) rest
  end.

(** The record belongs to a segment with this identity. *)
Definition ident_ok (ident : Z) (r : lrec) : Prop :=
  ident = 0 \/ walIdentityHash (p_entry (lr_pending r)) = 0 \/
  walIdentityHash (p_entry (lr_pending r)) = ident.

Record seg_ok (g : seg) : Prop := {
  so_id : 0 < g_id g < 2 ^ 64;
  so_first : 0 < g_first g < 2 ^ 64;
  so_ident : 0 <= g_ident g < 2 ^ 64;
  so_recs : Forall rec_ok (g_recs g);
  so_idents : Forall (ident_ok (g_ident g)) (g_recs g);
  so_run : lsn_run (g_first g) (g_recs g) }.

(** Segments follow a segment with id [prevId], identity [ident] and last LSN
    [last]; only the last of them may be without records. *)
Fixpoint log_from (prevId ident last : Z) (segs : list seg) : Prop :=
  match segs with
  | [] => True
  | g :: rest =>
      seg_ok g /\ prevId < g_id g /\ last < g_first g /\ (ident = 0 \/ g_ident g = ident) /\
      (rest <> [] -> g_recs g <> []) /\ log_from (g_id g) (g_ident g) (g_next g - 1) rest
  end.

Definition log_ok (segs : list seg) : Prop := log_from 0 0 0 segs.

Definition log_records (segs : list seg) : list lrec := flat_map g_recs segs.

Definition seg_entry (g : seg) : bytes * bytes := (segmentPath (g_id g), seg_bytes g).

Definition disk_is (d : wal_disk) (segs : list seg) : Prop :=
  d_legacy d = None /\ d_segments d = list_to_map (map seg_entry segs).

(** ** One record *)

Lemma rec_payload_length r :
  blen (rec_payload r) = kPreparedPayloadHeaderBytes + blen (preparedPayload (lr_pending r)).
Proof.
  unfold rec_payload, blen. rewrite !length_app, !le_bytes_length. cbn [length].
  change (length prepared_magic) with 5%nat. unfold kPreparedPayloadHeaderBytes. lia.
Qed.

Lemma frame_rec p lsn ts e f :
  framePreparedRecord cfg p lsn ts = Ok f -> f = rec_frame (mkLrec p lsn ts e).
Proof. unfold framePreparedRecord. destruct (_ || _); [discriminate|]. intros <-%Ok_inj. reflexivity. Qed.

Lemma decodePrepared_rec r : rec_ok r -> decodeRecord (rec_payload r) = Some (stamp (lr_decoded r) (lr_lsn r) (lr_ts r)).
Proof.
  intros [[Hop Hpl Hcrc Hdec Hobj _] _ _ Hlsn Hts]. unfold decodeRecord.
  assert (Hlen : (26 <= length (rec_payload r))%nat).
  { pose proof (rec_payload_length r) as H. unfold blen, kPreparedPayloadHeaderBytes in H. lia. }
  rewrite (proj2 (Nat.leb_le 5 _)) by lia.
  replace (bytes_eqb (take 5 (rec_payload r)) prepared_magic) with true by reflexivity. cbn [andb].
  unfold decodePreparedPayload.
  set (hd := prepared_magic ++ [byte_of (if preparedHasCrc (lr_pending r) then 1 else 0)] ++
             le_bytes 8 (lr_lsn r) ++ le_bytes 8 (lr_ts r) ++ le_bytes 4 (preparedCrc (lr_pending r))).
  assert (Hhd : length hd = 26%nat).
  { unfold hd. rewrite !length_app, !le_bytes_length. reflexivity. }
  assert (Hp : rec_payload r = hd ++ preparedPayload (lr_pending r)).
  { unfold rec_payload, hd. rewrite <- !app_assoc. reflexivity. }
  rewrite Hp, take_bytes_app by exact Hhd. cbn [mbind option_bind].
  replace (bytes_eqb (take 5 hd) prepared_magic) with true by reflexivity. cbn [negb].
  change (take 1 (drop 5 hd)) with [byte_of (if preparedHasCrc (lr_pending r) then 1 else 0)].
  change (take 8 (drop 6 hd)) with (le_bytes 8 (lr_lsn r)).
  change (take 8 (drop 14 hd)) with (le_bytes 8 (lr_ts r)).
  change (take 4 (drop 22 hd)) with (le_bytes 4 (preparedCrc (lr_pending r))).
  assert (Hodd : Z.odd (le_value [byte_of (if preparedHasCrc (lr_pending r) then 1 else 0)]) =
                 preparedHasCrc (lr_pending r)) by (destruct (preparedHasCrc _); reflexivity).
  rewrite Hodd. pose proof (crc32_range (preparedPayload (lr_pending r))) as Hr.
  rewrite !le_value_bytes by (change (256 ^ Z.of_nat 8) with (2 ^ 64); change (256 ^ Z.of_nat 4) with (2 ^ 32);
    try rewrite Hcrc; destruct (preparedHasCrc _); lia).
  rewrite (proj2 (bytes_eqb_neq _ [])) by exact Hpl. cbn [orb]. rewrite Hcrc.
  assert (Htest : (negb (preparedHasCrc (lr_pending r)) &&
      negb ((if preparedHasCrc (lr_pending r) then crc32 (preparedPayload (lr_pending r)) else 0) =? 0)) ||
    (preparedHasCrc (lr_pending r) && negb (crc32 (preparedPayload (lr_pending r)) =?
      (if preparedHasCrc (lr_pending r) then crc32 (preparedPayload (lr_pending r)) else 0))) = false).
  { destruct (preparedHasCrc _); rewrite ?Z.eqb_refl; reflexivity. }
  rewrite Htest, Hdec. cbn [mbind option_bind]. rewrite Hobj. reflexivity.
Qed.

(** Stamping does not touch the fields the identity is made of. *)
Lemma identity_json_set k v e :
  is_object e = true -> k <> str "userId" -> k <> str "db" -> k <> str "collection" ->
  walIdentityHash (json_set k v e) = walIdentityHash e /\ is_object (json_set k v e) = true.
Proof.
  destruct e as [| | | | | | | |m]; try discriminate. intros _ H1 H2 H3. split; [|reflexivity].
  unfold walIdentityHash. cbn [json_set is_object negb].
  rewrite !value_set_ne by assumption. reflexivity.
Qed.

Lemma identity_stamp e lsn ts : is_object e = true -> walIdentityHash (stamp e lsn ts) = walIdentityHash e.
Proof.
  intros He. unfold stamp.
  destruct (identity_json_set (str "_wal_lsn") (JUInt lsn) e He) as [H1 O1]; try discriminate.
  destruct (identity_json_set (str "_wal_seq") (JUInt lsn) _ O1) as [H2 O2]; try discriminate.
  destruct (identity_json_set (str "_wal_ts_ms") (JUInt ts) _ O2) as [H3 _]; try discriminate.
  rewrite H3, H2. exact H1.
Qed.

Lemma readEntryLsn_stamp e lsn ts legacy fb :
  is_object e = true -> 0 <= lsn < 2 ^ 64 -> readEntryLsn (stamp e lsn ts) legacy fb = Some lsn.
Proof.
  destruct e as [| | | | | | | |m]; try discriminate. intros _ Hl. unfold readEntryLsn, stamp.
  cbn [json_set is_object negb]. unfold json_contains, json_find.
  rewrite !obj_find_insert_ne by discriminate. rewrite obj_find_insert_eq. cbn [negb andb].
  rewrite andb_false_r. rewrite !obj_find_insert_ne by discriminate. rewrite obj_find_insert_eq.
  cbn. unfold u64. rewrite Z.mod_small by lia. reflexivity.
Qed.

(** ** Scanning the frames of a segment *)

Section ScanLog.
Context {V : Type} (visitor : V -> WalReplayRecord -> V * bool).

Lemma scan_frame fuel final size r rest first (m : ScannedWalFile) (s : wal_scan V) :
  rec_ok r -> is_legacy (sf_file m) = false -> ident_ok (sf_identityHash m) r ->
  sc_lastLsn s < lr_lsn r -> (first = true -> sf_firstLsn m = lr_lsn r) ->
  scan_frames cfg visitor (S fuel) final size (rec_frame r ++ rest) first m s =
  match take_record visitor s m (lr_lsn r) (size - blen rest) (p_op (lr_pending r))
          (stamp (lr_decoded r) (lr_lsn r) (lr_ts r)) with
  | inl (s, m) => scan_frames cfg visitor fuel final size rest false m s
  | inr s => inr s
  end.
Proof.
  intros Hr Hleg Hid Hlast Hfirst. pose proof Hr as [[Hop _ _ _ Hobj Hident] Hsz Hsz32 Hlsn _].
  assert (H0 : 0 <= blen (preparedPayload (lr_pending r))) by (unfold blen; lia).
  cbn [scan_frames]. unfold rec_frame. cbn [app]. unfold read_le. rewrite <- app_assoc.
  rewrite take_bytes_app by apply le_bytes_length. cbn [mbind option_bind].
  assert (Hfop : frame_op (byte_of (op_code (p_op (lr_pending r)))) = Some (p_op (lr_pending r))).
  { unfold frame_op. rewrite isValidWalOp_code. cbn [mbind option_bind].
    rewrite bool_decide_eq_false_2 by exact Hop. reflexivity. }
  rewrite Hfop. unfold kPreparedPayloadHeaderBytes in *.
  rewrite le_value_bytes by (change (256 ^ Z.of_nat 4) with (2 ^ 32); lia).
  rewrite (proj2 (Z.eqb_neq (26 + _) 0)) by lia.
  rewrite (proj2 (Z.ltb_ge (maxRecordBytes cfg) _)) by lia. cbn [orb].
  replace (Z.to_nat (26 + blen (preparedPayload (lr_pending r)))) with (length (rec_payload r))
    by (pose proof (rec_payload_length r) as H; unfold blen, kPreparedPayloadHeaderBytes in *; lia).
  rewrite take_bytes_app by reflexivity. rewrite decodePrepared_rec by exact Hr.
  rewrite Hleg, readEntryLsn_stamp, identity_stamp, Hident by (auto; lia). cbn [negb andb].
  assert (Htest : (lr_lsn r =? 0) || (lr_lsn r <=? sc_lastLsn s) ||
     (negb (sf_identityHash m =? 0) && negb (walIdentityHash (p_entry (lr_pending r)) =? 0) &&
      negb (walIdentityHash (p_entry (lr_pending r)) =? sf_identityHash m)) ||
     (first && negb (lr_lsn r =? sf_firstLsn m)) = false).
  { rewrite (proj2 (Z.eqb_neq (lr_lsn r) 0)) by lia. rewrite (proj2 (Z.leb_gt (lr_lsn r) _)) by lia. cbn [orb].
    destruct first; [rewrite (Hfirst eq_refl), Z.eqb_refl|]; rewrite ?orb_false_r; cbn [negb andb];
      rewrite ?orb_false_r; destruct Hid as [->|[->| ->]]; rewrite ?Z.eqb_refl, ?andb_false_r; reflexivity. }
  rewrite Htest. reflexivity.
Qed.

(** The scan after the records [rs], when the visitor took them all. *)
Definition scan_after (s : wal_scan V) (rs : list lrec) (acc : V) : wal_scan V :=
  mkScan (sc_status s) (sc_records s + Z.of_nat (length rs)) (List.last (map lr_lsn rs) (sc_lastLsn s))
    (sc_validBytes s) (sc_error s) (sc_files s) acc.

Definition file_after (m : ScannedWalFile) (rs : list lrec) (validBytes : Z) : ScannedWalFile :=
  mkScanned (sf_file m) (sf_segmentId m) (sf_firstLsn m) (List.last (map lr_lsn rs) (sf_endLsn m))
    validBytes (sf_identityHash m).

Lemma last_cons_default {A} (x : A) l d : List.last (x :: l) d = List.last l x.
Proof.
  revert x d. induction l as [|y l IH]; intros x d; [reflexivity|].
  change (List.last (x :: y :: l) d) with (List.last (y :: l) d). rewrite (IH y d), (IH y x). reflexivity.
Qed.

Lemma scan_records rs : forall fuel final size rest first (m : ScannedWalFile) (s : wal_scan V) lsn,
  (length rs < fuel)%nat -> Forall rec_ok rs -> Forall (ident_ok (sf_identityHash m)) rs -> lsn_run lsn rs ->
  is_legacy (sf_file m) = false -> sf_firstLsn m <> 0 -> sc_lastLsn s < lsn ->
  (first = true -> sf_firstLsn m = lsn) ->
  sf_validBytes m = size - blen (flat_map rec_frame rs ++ rest) ->
  let '(acc, go) := visit_all visitor (map replay_of rs) (sc_acc s) in
  if go then exists fuel', (fuel - length rs = fuel')%nat /\
    scan_frames cfg visitor fuel final size (flat_map rec_frame rs ++ rest) first m s =
    scan_frames cfg visitor fuel' final size rest (match rs with [] => first | _ => false end)
      (file_after m rs (size - blen rest)) (scan_after s rs acc)
  else exists s', scan_frames cfg visitor fuel final size (flat_map rec_frame rs ++ rest) first m s = inr s' /\
    sc_acc s' = acc /\ sc_status s' = sc_status s.
Proof.
  induction rs as [|r rs IH]; intros fuel final size rest first m s lsn Hf Hok Hid Hrun Hleg Hfl Hlast Hfirst Hvb.
  - cbn [map visit_all flat_map app length] in *. exists fuel. split; [lia|].
    unfold file_after, scan_after. cbn. rewrite Z.add_0_r, <- Hvb. destruct m, s; reflexivity.
  - apply Forall_cons in Hok as [Hr Hok]. apply Forall_cons in Hid as [Hir Hid]. destruct Hrun as [Hlsn Hrun].
    destruct fuel as [|fuel]; [cbn in Hf; lia|]. cbn [flat_map length] in *. rewrite <- app_assoc in *.
    rewrite scan_frame by (auto; intros; rewrite ?Hlsn; auto; lia).
    cbn [map visit_all]. unfold replay_of at 1. unfold take_record.
    rewrite (proj2 (Z.eqb_neq (sf_firstLsn m) 0)) by exact Hfl.
    destruct (visitor (sc_acc s) _) as [acc1 go] eqn:Ev. destruct go.
    + set (s1 := mkScan _ _ _ _ _ _ acc1). set (m1 := mkScanned _ _ _ _ _ _).
      specialize (IH fuel final size rest false m1 s1 (lsn + 1) ltac:(lia) Hok Hid Hrun Hleg Hfl).
      cbn [s1 m1 sc_lastLsn sc_acc sc_status sf_validBytes] in IH. fold s1 in IH.
      specialize (IH ltac:(lia) ltac:(discriminate) eq_refl).
      destruct (visit_all visitor (map replay_of rs) acc1) as [acc go]. destruct go.
      * destruct IH as (fuel' & Hfu & IH). exists fuel'. split; [lia|]. rewrite IH.
        assert (Hm : file_after m1 rs (size - blen rest) = file_after m (r :: rs) (size - blen rest)).
        { unfold file_after, m1. cbn [map sf_file sf_segmentId sf_firstLsn sf_endLsn sf_identityHash].
          rewrite last_cons_default. reflexivity. }
        assert (Hs : scan_after s1 rs acc = scan_after s (r :: rs) acc).
        { unfold scan_after, s1.
          cbn [map length sc_status sc_records sc_lastLsn sc_validBytes sc_error sc_files].
          rewrite last_cons_default. f_equal. lia. }
        rewrite Hm, Hs. destruct rs; reflexivity.
      * exact IH.
    + eexists. split; [reflexivity|]. cbn. auto.
Qed.

(** ** Segments *)

Lemma segmentHeader_length id first ident : length (segmentHeader id first ident) = 32%nat.
Proof. unfold segmentHeader. rewrite !length_app, !le_bytes_length. reflexivity. Qed.

Lemma segmentPath_extension id : extension (segmentPath id) = str ".wal".
Proof.
  unfold segmentPath. cbn [dec_padded app].
  match goal with |- extension (?c :: ?l) = _ => change l with (dec_padded 19 id ++ str ".wal") end.
  apply extension_app; [reflexivity | simpl; lia].
Qed.

Lemma segmentPath_stem id : path_stem (segmentPath id) = dec_padded 20 id.
Proof.
  unfold path_stem. rewrite segmentPath_extension. unfold segmentPath.
  rewrite length_app, dec_padded_length. change (length (str ".wal")) with 4%nat.
  apply take_app_length'. rewrite dec_padded_length. reflexivity.
Qed.

Lemma scan_header_written final g tail prevId ident (s : wal_scan V) :
  seg_ok g -> prevId < g_id g -> (ident = 0 \/ g_ident g = ident) ->
  scan_header final (segmentPath (g_id g)) (segmentHeader (g_id g) (g_first g) (g_ident g) ++ tail) prevId ident s =
  inl (mkScanned (WSegment (segmentPath (g_id g))) (g_id g) (g_first g) 0 kSegmentHeaderBytes (g_ident g), tail).
Proof.
  intros [Hid Hfirst Hident _ _ _] Hprev Hi. unfold scan_header.
  rewrite take_bytes_app by apply segmentHeader_length.
  set (hd := segmentHeader _ _ _).
  replace (bytes_eqb (take 5 hd) segment_magic) with true by reflexivity.
  replace (le_value (take 1 (drop 5 hd)) =? kSegmentVersion) with true by reflexivity.
  replace (le_value (take 2 (drop 6 hd)) =? kSegmentHeaderBytes) with true by reflexivity. cbn [negb orb].
  change (take 8 (drop 8 hd)) with (le_bytes 8 (g_id g)).
  change (take 8 (drop 16 hd)) with (le_bytes 8 (g_first g)).
  change (take 8 (drop 24 hd)) with (le_bytes 8 (g_ident g)).
  rewrite !le_value_bytes by (change (256 ^ Z.of_nat 8) with (2 ^ 64); lia).
  rewrite segmentPath_stem, stoull_dec by (unfold stamp_ok; lia). cbn [default].
  rewrite Z.eqb_refl, (proj2 (Z.eqb_neq (g_id g) 0)), (proj2 (Z.eqb_neq (g_first g) 0)),
    (proj2 (Z.leb_gt (g_id g) prevId)) by lia. cbn [negb orb].
  destruct Hi as [->| ->]; rewrite ?Z.eqb_refl, ?andb_false_r; reflexivity.
Qed.

Lemma lsn_run_last first rs d : lsn_run first rs -> rs <> [] ->
  List.last (map lr_lsn rs) d = first + Z.of_nat (length rs) - 1.
Proof.
  revert first d. induction rs as [|r rs IH]; intros first d Hrun Hne; [congruence|]. destruct Hrun as [Hl Hr].
  cbn [map]. rewrite last_cons_default. destruct rs as [|r' rs].
  - cbn. lia.
  - rewrite (IH (first + 1)); [cbn [length]; lia | exact Hr | discriminate].
Qed.

Definition seg_scanned (g : seg) : ScannedWalFile :=
  mkScanned (WSegment (segmentPath (g_id g))) (g_id g) (g_first g) (List.last (map lr_lsn (g_recs g)) 0)
    (blen (seg_bytes g)) (g_ident g).

(** The scan after the segment [g]. *)
Definition scan_done (s : wal_scan V) (g : seg) (acc : V) : wal_scan V :=
  mkScan (sc_status s) (sc_records s + Z.of_nat (length (g_recs g))) (g_next g - 1)
    (sc_validBytes s + blen (seg_bytes g)) (sc_error s) (sc_files s ++ [seg_scanned g]) acc.

Lemma finish_segment (s : wal_scan V) g acc :
  seg_ok g -> sc_lastLsn s < g_first g ->
  finish_file (scan_after s (g_recs g) acc)
    (file_after (mkScanned (WSegment (segmentPath (g_id g))) (g_id g) (g_first g) 0 kSegmentHeaderBytes (g_ident g))
       (g_recs g) (blen (seg_bytes g))) = scan_done s g acc.
Proof.
  intros Hg Hlast. unfold finish_file, scan_after, file_after, scan_done, seg_scanned.
  cbn [sf_file sf_segmentId sf_firstLsn sf_endLsn sf_identityHash sf_validBytes is_legacy negb andb
       sc_status sc_records sc_lastLsn sc_validBytes sc_error sc_files sc_acc].
  f_equal. unfold g_next. pose proof (so_first _ Hg) as Hf. destruct (g_recs g) as [|r rs] eqn:Er.
  - cbn [map List.last length]. rewrite Z.eqb_refl, (proj2 (Z.ltb_lt _ _)) by lia. cbn [andb]. lia.
  - pose proof (so_run _ Hg) as Hrun. rewrite Er in Hrun.
    rewrite !(lsn_run_last (g_first g) (r :: rs)) by (auto; discriminate).
    rewrite (proj2 (Z.eqb_neq _ _)) by (cbn [length]; lia). reflexivity.
Qed.

Lemma rec_frame_length r : (0 < length (rec_frame r))%nat.
Proof. unfold rec_frame. cbn [length]. lia. Qed.

Lemma frames_length rs : (length rs <= length (flat_map rec_frame rs))%nat.
Proof.
  induction rs as [|r rs IH]; [cbn; lia|]. cbn [flat_map]. rewrite length_app.
  pose proof (rec_frame_length r). cbn [length]. lia.
Qed.

(** The frames of one segment, with [tail] after them. *)
Lemma scan_segment fuel final g tail (s : wal_scan V) :
  seg_ok g -> sc_lastLsn s < g_first g -> (length (g_recs g) < fuel)%nat ->
  let m := mkScanned (WSegment (segmentPath (g_id g))) (g_id g) (g_first g) 0 kSegmentHeaderBytes (g_ident g) in
  let size := blen (seg_bytes g ++ tail) in
  let '(acc, go) := visit_all visitor (map replay_of (g_recs g)) (sc_acc s) in
  if go then exists fuel', (fuel - length (g_recs g) = fuel')%nat /\
    scan_frames cfg visitor fuel final size (flat_map rec_frame (g_recs g) ++ tail) true m s =
    scan_frames cfg visitor fuel' final size tail (match g_recs g with [] => true | _ => false end)
      (file_after m (g_recs g) (blen (seg_bytes g))) (scan_after s (g_recs g) acc)
  else exists s', scan_frames cfg visitor fuel final size (flat_map rec_frame (g_recs g) ++ tail) true m s = inr s' /\
    sc_acc s' = acc /\ sc_status s' = sc_status s.
Proof.
  intros Hg Hlast Hf m size. pose proof Hg as [_ Hfirst _ Hrecs Hidents Hrun].
  pose proof (scan_records (g_recs g) fuel final size tail true m s (g_first g) Hf Hrecs Hidents Hrun
                eq_refl ltac:(cbn; lia) Hlast ltac:(reflexivity)) as H.
  assert (Hvb : sf_validBytes m = size - blen (flat_map rec_frame (g_recs g) ++ tail)).
  { unfold size, m, seg_bytes, blen, kSegmentHeaderBytes. cbn [sf_validBytes].
    rewrite <- app_assoc, (length_app (segmentHeader _ _ _)), segmentHeader_length. lia. }
  specialize (H Hvb).
  replace (size - blen tail) with (blen (seg_bytes g)) in H
    by (unfold size, blen; rewrite length_app; lia). exact H.
Qed.

Definition seg_file (g : seg) : wal_file := WSegment (segmentPath (g_id g)).

Definition log_last (last : Z) (segs : list seg) : Z := List.last (map (fun g => g_next g - 1) segs) last.

Definition scan_done_all (s : wal_scan V) (segs : list seg) (acc : V) : wal_scan V :=
  mkScan (sc_status s) (sc_records s + Z.of_nat (length (log_records segs))) (log_last (sc_lastLsn s) segs)
    (sc_validBytes s + blen (flat_map seg_bytes segs)) (sc_error s) (sc_files s ++ map seg_scanned segs) acc.

Lemma scan_segs d segs : forall prevId ident (s : wal_scan V) more,
  log_from prevId ident (sc_lastLsn s) segs ->
  Forall (fun g => d_segments d !! segmentPath (g_id g) = Some (seg_bytes g)) segs ->
  (more <> [] -> Forall (fun g => g_recs g <> []) segs) ->
  let '(acc, go) := visit_all visitor (map replay_of (log_records segs)) (sc_acc s) in
  let s' := scan_files cfg visitor scan_io_good d (map seg_file segs ++ more) prevId ident s in
  if go then s' = scan_files cfg visitor scan_io_good d more
                    (List.last (map g_id segs) prevId) (List.last (map g_ident segs) ident)
                    (scan_done_all s segs acc)
  else sc_acc s' = acc /\ sc_status s' = sc_status s.
Proof.
  induction segs as [|g segs IH]; intros prevId ident s more Hlog Hd Hmore.
  - cbn [log_records flat_map map visit_all app List.last]. cbv zeta. f_equal.
    unfold scan_done_all, log_last. cbn. change (blen []) with 0. rewrite !Z.add_0_r, app_nil_r.
    destruct s; reflexivity.
  - destruct Hlog as (Hg & Hprev & Hlast & Hi & Hne & Hlog). apply Forall_cons in Hd as [Hdg Hd].
    cbn [log_records flat_map]. rewrite map_app, visit_all_app.
    cbn [map app scan_files]. cbn [seg_file wal_contents scan_io_good si_open]. rewrite Hdg.
    cbv zeta. change (scan_header _ (segmentPath (g_id g)) (seg_bytes g)) with
      (scan_header (V := V) (match map seg_file segs ++ more with [] => true | _ => false end) (segmentPath (g_id g))
         (segmentHeader (g_id g) (g_first g) (g_ident g) ++ flat_map rec_frame (g_recs g))).
    rewrite scan_header_written by assumption.
    cbn [sf_segmentId sf_identityHash].
    pose proof (scan_segment (S (length (seg_bytes g)))
                  (match map seg_file segs ++ more with [] => true | _ => false end) g [] s Hg Hlast) as Hs.
    rewrite !app_nil_r in Hs. cbv zeta in Hs.
    assert (Hfu : (length (g_recs g) < S (length (seg_bytes g)))%nat).
    { unfold seg_bytes. rewrite length_app. pose proof (frames_length (g_recs g)). lia. }
    specialize (Hs Hfu). destruct (visit_all visitor (map replay_of (g_recs g)) (sc_acc s)) as [acc1 go1].
    destruct go1.
    + destruct Hs as (fuel' & Hfu' & Hs). rewrite Hs. destruct fuel' as [|fuel']; [lia|]. cbn [scan_frames].
      rewrite finish_segment by assumption.
      specialize (IH (g_id g) (g_ident g) (scan_done s g acc1) more). cbn [scan_done sc_lastLsn sc_acc] in IH.
      specialize (IH Hlog Hd ltac:(intros Hm; specialize (Hmore Hm); apply Forall_cons in Hmore; tauto)).
      unfold log_records in IH. destruct (visit_all visitor (map replay_of (flat_map g_recs segs)) acc1) as [acc go].
      fold (scan_done s g acc1) in IH. destruct go; [|exact IH].
      etransitivity; [exact IH|]. rewrite !last_cons_default. f_equal.
      unfold scan_done_all, scan_done, log_last, log_records. cbn [sc_status sc_records sc_lastLsn sc_validBytes sc_error sc_files map flat_map].
      rewrite last_cons_default, length_app, <- app_assoc. cbn [app]. unfold blen. rewrite length_app. f_equal; lia.
    + destruct Hs as (s' & Hs & Ha & Hst). rewrite Hs. auto.
Qed.
End ScanLog.

(** ** The listing *)

Lemma segmentPath_lt a b : stamp_ok a -> stamp_ok b -> a < b -> bytes_lt (segmentPath a) (segmentPath b).
Proof.
  intros Ha Hb Hlt. apply bytes_compare_app; [rewrite !dec_padded_length; reflexivity|].
  apply dec_padded_lt. rewrite !stamp_mod by assumption. exact Hlt.
Qed.

Lemma log_from_ids segs : forall prevId ident last, log_from prevId ident last segs ->
  StronglySorted Z.lt (map g_id segs) /\ Forall (fun g => prevId < g_id g < 2 ^ 64) segs.
Proof.
  induction segs as [|g segs IH]; intros prevId ident last Hl; [split; constructor|].
  destruct Hl as (Hg & Hprev & _ & _ & _ & Hl). destruct (IH _ _ _ Hl) as [Hs Hall]. pose proof (so_id _ Hg).
  split; cbn [map]; constructor; auto; [|lia|].
  - apply Forall_map. eapply Forall_impl; [exact Hall|]. cbn. intros; lia.
  - eapply Forall_impl; [exact Hall|]. cbn. intros; lia.
Qed.

Lemma paths_sorted segs prevId ident last : 0 <= prevId -> log_from prevId ident last segs ->
  StronglySorted bytes_lt (map (fun g => segmentPath (g_id g)) segs).
Proof.
  intros Hp Hl. apply log_from_ids in Hl as [Hs Hall].
  induction segs as [|g segs IH]; cbn [map] in *; [constructor|].
  inversion Hs as [|? ? Hs' Hlt]; subst. apply Forall_cons in Hall as [Hg Hall].
  constructor; [apply IH; assumption|]. apply Forall_map. rewrite List.Forall_map in Hlt.
  apply Forall_forall. intros g' Hin. rewrite Forall_forall in Hall, Hlt. specialize (Hall g' Hin). specialize (Hlt g' Hin).
  apply segmentPath_lt; unfold stamp_ok; lia.
Qed.

Lemma sorted_lt_NoDup l : StronglySorted bytes_lt l -> NoDup l.
Proof.
  induction 1 as [|x l _ IH Hall]; constructor; [|exact IH]. intros Hin. rewrite Forall_forall in Hall.
  exact (bytes_lt_irrefl _ (Hall x Hin)).
Qed.

Lemma sorted_lt_le l : StronglySorted bytes_lt l -> StronglySorted bytes_le l.
Proof.
  induction 1 as [|x l _ IH Hall]; constructor; [exact IH|]. eapply Forall_impl; [exact Hall|].
  intros y Hy. apply bytes_le_alt. auto.
Qed.

(** The listing depends only on the names. *)
Lemma sortedSegmentFiles_names d segs kvs :
  log_ok segs -> d_segments d = list_to_map kvs -> kvs.*1 = map (fun g => segmentPath (g_id g)) segs ->
  sortedSegmentFiles d = map (fun g => segmentPath (g_id g)) segs.
Proof.
  intros Hl Hd Hkeys. pose proof (paths_sorted segs 0 0 0 ltac:(lia) Hl) as Hs.
  assert (Hperm : (map_to_list (d_segments d)).*1 ≡ₚ map (fun g => segmentPath (g_id g)) segs).
  { rewrite Hd, map_to_list_to_map, Hkeys; [reflexivity|]. rewrite Hkeys. apply sorted_lt_NoDup, Hs. }
  assert (Hall : forall l, l ≡ₚ map (fun g => segmentPath (g_id g)) segs ->
            List.filter (fun n => bytes_eqb (extension n) (str ".wal")) l = l).
  { intros l Hp. assert (Hf : Forall (fun n => extension n = str ".wal") l).
    { rewrite Hp. apply Forall_map, Forall_forall. intros g _. apply segmentPath_extension. }
    clear Hp. induction Hf as [|n l Hn _ IHf]; [reflexivity|]. cbn [List.filter]. rewrite Hn, bytes_eqb_refl, IHf.
    reflexivity. }
  unfold sortedSegmentFiles. rewrite Hall by exact Hperm.
  apply (StronglySorted_unique bytes_le).
  - apply StronglySorted_merge_sort; apply _.
  - apply sorted_lt_le, Hs.
  - rewrite merge_sort_Permutation. exact Hperm.
Qed.

Lemma paths_keys segs : (map seg_entry segs).*1 = map (fun g => segmentPath (g_id g)) segs.
Proof. induction segs as [|g segs IH]; cbn; [reflexivity|]. f_equal. exact IH. Qed.

Lemma sortedSegmentFiles_log d segs :
  log_ok segs -> disk_is d segs -> sortedSegmentFiles d = map (fun g => segmentPath (g_id g)) segs.
Proof. intros Hl [_ Hd]. exact (sortedSegmentFiles_names d segs _ Hl Hd (paths_keys segs)). Qed.

Lemma disk_lookup d segs : log_ok segs -> disk_is d segs ->
  Forall (fun g => d_segments d !! segmentPath (g_id g) = Some (seg_bytes g)) segs.
Proof.
  intros Hl [_ Hd]. apply Forall_forall. intros g Hin. rewrite Hd. apply elem_of_list_to_map_1.
  - rewrite paths_keys. exact (sorted_lt_NoDup _ (paths_sorted segs 0 0 0 ltac:(lia) Hl)).
  - apply list_elem_of_In, in_map_iff. exists g. split; [reflexivity|]. apply list_elem_of_In, Hin.
Qed.

Lemma physicalFiles_log d segs :
  log_ok segs -> disk_is d segs -> physicalFiles d = map seg_file segs.
Proof.
  intros Hl Hd. unfold physicalFiles. rewrite (sortedSegmentFiles_log d segs Hl Hd).
  destruct Hd as [-> _]. cbn [app]. rewrite map_map. reflexivity.
Qed.

(** Scanning a log's disk. *)
Lemma scan_log {V} (visitor : V -> WalReplayRecord -> V * bool) d segs acc :
  log_ok segs -> disk_is d segs ->
  let s := scanWalFiles cfg visitor scan_io_good d acc in
  let '(acc', go) := visit_all visitor (map replay_of (log_records segs)) acc in
  if go then s = scan_done_all (scan_start acc) segs acc' else sc_acc s = acc' /\ sc_status s = ScanOK.
Proof.
  intros Hl Hd s. unfold s, scanWalFiles. cbn [si_exists si_type si_list scan_io_good negb].
  rewrite (physicalFiles_log d segs Hl Hd).
  pose proof (scan_segs visitor d segs 0 0 (scan_start acc) [] Hl (disk_lookup d segs Hl Hd) ltac:(congruence)) as H.
  cbn [scan_start sc_acc] in H. rewrite app_nil_r in H.
  destruct (visit_all visitor (map replay_of (log_records segs)) acc) as [acc' go]. destruct go; exact H.
Qed.

Lemma visit_all_no_visitor {V} (l : list WalReplayRecord) (v : V) : visit_all no_visitor l v = (v, true).
Proof. induction l as [|x l IH]; cbn [visit_all no_visitor]; auto. Qed.
End WalLog.
