(* ===== verification/WalAppend.v ===== *)
(** * Appending to the log

    [appendEntries] extends the list of segments by the new records, with
    consecutive LSNs, rolling to a new segment by size, and leaves the log
    untouched when it refuses a batch. *)

From S2P Require Import Prelude FileSys Decimal Json Msgpack JsonValue Checksum WalIntegrity Wal WalLog.
From stdpp Require Import base list gmap strings sorting.
From Stdlib Require Import ZArith Lia.

Open Scope Z_scope.

Section WalAppend.
Context `{JT : JsonText} (cfg : wal_config).

Abbreviation log_ok := (log_ok cfg).
Abbreviation log_from := (log_from cfg).

(** ** Logs in pieces *)

Lemma last_map_app {A} (f : A -> Z) l1 l2 d :
  List.last (map f (l1 ++ l2)) d = List.last (map f l2) (List.last (map f l1) d).
Proof.
  revert d. induction l1 as [|a l1 IH]; intros d; [reflexivity|].
  cbn [app map]. rewrite !last_cons_default. apply IH.
Qed.

Lemma log_from_app s1 s2 : forall p i l,
  log_from p i l (s1 ++ s2) <->
  log_from p i l s1 /\ (s2 <> [] -> Forall (fun g => g_recs g <> []) s1) /\
  log_from (List.last (map g_id s1) p) (List.last (map g_ident s1) i) (log_last l s1) s2.
Proof.
  unfold log_last. induction s1 as [|g s1 IH]; intros p i l; cbn [app map].
  - cbn. split; [intros H; split_and!; auto; constructor | tauto].
  - rewrite !last_cons_default. cbn [WalLog.log_from]. rewrite IH. split.
    + intros (Hg & Hp & Hl & Hi & Hne & H1 & H2 & H3). split_and!; auto.
      * intros Hs. apply Hne. destruct s1; [congruence|discriminate].
      * intros Hs. constructor; [|auto]. apply Hne. destruct s1; [exact Hs|discriminate].
    + intros ((Hg & Hp & Hl & Hi & Hne & H1) & H2 & H3). split_and!; auto.
      * intros Hs. destruct s1; [|apply Hne; discriminate]. specialize (H2 Hs). inversion H2; assumption.
      * intros Hs. specialize (H2 Hs). inversion H2; assumption.
Qed.

Lemma log_from_weaken segs p i l p' l' :
  log_from p i l segs -> p' <= p -> l' <= l -> log_from p' 0 l' segs.
Proof.
  destruct segs as [|g segs]; [auto|]. intros (Hg & Hp & Hl & _ & Hrest) Hp' Hl'.
  cbn [WalLog.log_from]. split_and!; auto; try lia; apply Hrest.
Qed.

Lemma log_records_app s1 s2 : log_records (s1 ++ s2) = log_records s1 ++ log_records s2.
Proof. unfold log_records. apply flat_map_app. Qed.

Lemma lsn_run_app first r1 r2 :
  lsn_run first (r1 ++ r2) <-> lsn_run first r1 /\ lsn_run (first + Z.of_nat (length r1)) r2.
Proof.
  revert first. induction r1 as [|r r1 IH]; intros first; cbn [app lsn_run length].
  - rewrite Z.add_0_r. tauto.
  - rewrite IH. replace (first + 1 + Z.of_nat (length r1)) with (first + Z.of_nat (S (length r1))) by lia. tauto.
Qed.

(** A segment with more records. *)
Definition seg_extend (g : seg) (rs : list lrec) : seg := mkSeg (g_id g) (g_first g) (g_ident g) (g_recs g ++ rs).

Lemma seg_extend_bytes g rs : seg_bytes (seg_extend g rs) = seg_bytes g ++ flat_map rec_frame rs.
Proof.
  unfold seg_bytes, seg_extend. cbn [g_id g_first g_ident g_recs]. rewrite flat_map_app, app_assoc. reflexivity.
Qed.

Lemma seg_extend_ok g rs :
  seg_ok cfg g -> Forall (rec_ok cfg) rs -> Forall (ident_ok (g_ident g)) rs -> lsn_run (g_next g) rs ->
  seg_ok cfg (seg_extend g rs).
Proof.
  intros [H1 H2 H3 H4 H5 H6] Hr Hi Hrun. split; cbn; auto.
  - apply Forall_app; auto.
  - apply Forall_app; auto.
  - apply lsn_run_app. auto.
Qed.

Lemma log_extend_last pre g rs p i l :
  log_from p i l (pre ++ [g]) -> Forall (rec_ok cfg) rs -> Forall (ident_ok (g_ident g)) rs ->
  lsn_run (g_next g) rs -> log_from p i l (pre ++ [seg_extend g rs]).
Proof.
  rewrite !log_from_app. intros (H1 & H2 & (Hg & H3 & H4 & H5 & _ & _)) Hr Hi Hrun.
  split; [exact H1|]. split; [intros _; apply H2; discriminate|]. cbn [WalLog.log_from].
  split_and!; auto. apply seg_extend_ok; auto.
Qed.

(** ** The disk under appends *)

Lemma disk_is_snoc d segs g :
  (segmentPath (g_id g) ∉ (map seg_entry segs).*1) ->
  disk_is d segs -> disk_is (append_bytes d (segmentPath (g_id g)) (seg_bytes g)) (segs ++ [g]).
Proof.
  intros Hn [Hl Hd]. split; [exact Hl|]. unfold append_bytes, write_segment. cbn [d_segments].
  rewrite Hd, (not_elem_of_list_to_map_1 _ _ Hn). cbn [default app].
  rewrite map_app. change (map seg_entry [g]) with [(segmentPath (g_id g), seg_bytes g)].
  rewrite list_to_map_snoc by exact Hn. reflexivity.
Qed.

Lemma disk_is_extend d pre g data :
  (segmentPath (g_id g) ∉ (map seg_entry pre).*1) -> disk_is d (pre ++ [g]) ->
  d_segments (append_bytes d (segmentPath (g_id g)) data) =
  <[segmentPath (g_id g) := seg_bytes g ++ data]> (list_to_map (map seg_entry pre)) /\
  d_legacy (append_bytes d (segmentPath (g_id g)) data) = None.
Proof.
  intros Hn [Hl Hd]. split; [|exact Hl]. unfold append_bytes, write_segment. cbn [d_segments].
  rewrite Hd, map_app. change (map seg_entry [g]) with [(segmentPath (g_id g), seg_bytes g)].
  rewrite list_to_map_snoc by exact Hn.
  rewrite lookup_insert_eq. cbn [default]. apply insert_insert_eq.
Qed.

(** The path of a segment after [pre] is new to [pre]. *)
Lemma path_fresh pre g p i l : 0 <= p -> log_from p i l (pre ++ [g]) ->
  segmentPath (g_id g) ∉ (map seg_entry pre).*1.
Proof.
  intros Hp Hl. pose proof (paths_sorted cfg _ _ _ _ Hp Hl) as Hs. rewrite map_app in Hs.
  rewrite paths_keys. intros Hin. cbn [map] in Hs.
  pose proof (StronglySorted_app_1_elem_of _ _ _ _ (segmentPath (g_id g)) Hs Hin ltac:(left)) as Hlt.
  exact (bytes_lt_irrefl _ Hlt).
Qed.

(** ** Planning *)

(** The chunks applied to a disk. *)
Definition apply_chunks (chunks : list (bytes * bytes)) (d : wal_disk) : wal_disk :=
  fold_left (fun d c => append_bytes d c.1 c.2) chunks d.

Lemma append_bytes_twice d n a b : append_bytes (append_bytes d n a) n b = append_bytes d n (a ++ b).
Proof.
  unfold append_bytes, write_segment. cbn [d_segments d_legacy d_dir].
  rewrite lookup_insert_eq, insert_insert_eq. cbn [default]. rewrite app_assoc. reflexivity.
Qed.

Lemma apply_add_to_chunk chunks n bs d :
  apply_chunks (add_to_chunk chunks n bs) d = append_bytes (apply_chunks chunks d) n bs.
Proof.
  unfold add_to_chunk, apply_chunks. destruct (last chunks) as [[name data]|] eqn:E.
  - apply last_Some in E as [l ->]. rewrite removelast_last.
    destruct (bytes_eqb name n) eqn:En; rewrite !fold_left_app; cbn [fold_left fst snd]; [|reflexivity].
    apply bytes_eqb_eq in En as ->. rewrite append_bytes_twice. reflexivity.
  - rewrite fold_left_app. reflexivity.
Qed.

(** What a planning state says about the log planned so far. *)
Record plan_is (pl : plan) (segs : list seg) : Prop := {
  pi_lsn : pl_lsn pl = log_last 0 segs + 1;
  pi_segment : pl_segment pl = List.last (map g_id segs) 0;
  pi_bytes : pl_bytes pl = List.last (map (fun g => blen (seg_bytes g)) segs) 0;
  pi_ident : List.last (map g_ident segs) 0 = 0 \/ pl_identity pl = List.last (map g_ident segs) 0;
  pi_range : 0 <= pl_identity pl < 2 ^ 64 }.

Lemma fnv64_range s : 0 <= fnv64 s < 2 ^ 64.
Proof.
  unfold fnv64. assert (H : forall h, 0 <= h < 2 ^ 64 ->
    0 <= fold_left (fun hash b => u64 (Z.lxor hash (byte_val b) * 1099511628211)) s h < 2 ^ 64).
  { induction s as [|b s IH]; intros h Hh; cbn [fold_left]; [exact Hh|]. apply IH. apply Z.mod_pos_bound. lia. }
  apply H. lia.
Qed.

Lemma walIdentityHash_range e : 0 <= walIdentityHash e < 2 ^ 64.
Proof.
  unfold walIdentityHash. destruct (negb _); [lia|]. case_match; [|lia].
  destruct (bytes_eqb _ _); [lia | apply fnv64_range].
Qed.

Lemma seg_bytes_length g : blen (seg_bytes g) = 32 + blen (flat_map rec_frame (g_recs g)).
Proof. unfold seg_bytes, blen. rewrite length_app, segmentHeader_length. lia. Qed.

Lemma snoc_cases {A} (l : list A) : l = [] \/ exists pre x, l = pre ++ [x].
Proof. induction l as [|x l _] using rev_ind; [left; reflexivity | right; eauto]. Qed.

Lemma log_last_snoc l pre g : log_last l (pre ++ [g]) = g_next g - 1.
Proof. unfold log_last. rewrite last_map_app. reflexivity. Qed.

(** Where the record [r] goes: the last segment, or a new one. *)
Definition log_add (segs : list seg) (roll : bool) (ident : Z) (r : lrec) : list seg :=
  if roll then segs ++ [mkSeg (List.last (map g_id segs) 0 + 1) (lr_lsn r) ident [r]]
  else match last segs with
       | Some g => removelast segs ++ [seg_extend g [r]]
       | None => segs
       end.

Lemma log_add_records segs roll ident r :
  roll = true \/ segs <> [] -> log_records (log_add segs roll ident r) = log_records segs ++ [r].
Proof.
  intros H. unfold log_add. destruct roll; [rewrite log_records_app; reflexivity|].
  destruct (snoc_cases segs) as [->|(pre & g & ->)]; [destruct H; congruence|].
  rewrite last_snoc, removelast_last, !log_records_app, <- app_assoc. f_equal.
  unfold log_records, seg_extend. cbn [flat_map g_recs]. rewrite !app_nil_r. reflexivity.
Qed.

(** The chunk data of the record, and the disk after it. *)
Definition add_data (roll : bool) (segment ident : Z) (r : lrec) : bytes :=
  (if roll then segmentHeader segment (lr_lsn r) ident else []) ++ rec_frame r.

(** A new record is admissible at the end of the log. *)
Record addable (segs : list seg) (roll : bool) (ident : Z) (r : lrec) : Prop := {
  ad_rec : rec_ok cfg r;
  ad_lsn : lr_lsn r = log_last 0 segs + 1;
  ad_ident : ident_ok ident r;
  ad_range : 0 <= ident < 2 ^ 64;
  ad_chain : List.last (map g_ident segs) 0 = 0 \/ ident = List.last (map g_ident segs) 0;
  ad_id : List.last (map g_id segs) 0 + 1 < 2 ^ 64;
  ad_roll : if roll then Forall (fun g => g_recs g <> []) segs else segs <> [] }.

Lemma log_ids_nonneg segs : log_ok segs -> 0 <= List.last (map g_id segs) 0.
Proof.
  intros Hl. destruct (snoc_cases segs) as [->|(pre & g & ->)]; [cbn; lia|].
  rewrite last_map_app. cbn. apply log_from_app in Hl as (_ & _ & (Hg & _)). pose proof (so_id _ _ Hg). lia.
Qed.

Lemma log_add_ok segs roll ident r :
  log_ok segs -> addable segs roll ident r -> log_ok (log_add segs roll ident r).
Proof.
  intros Hl [Hrec Hlsn Hid Hrange Hchain Hmax Hroll]. pose proof (log_ids_nonneg segs Hl) as H0.
  unfold log_add. destruct roll.
  - apply log_from_app. split; [exact Hl|]. split; [intros _; exact Hroll|]. cbn [WalLog.log_from].
    split_and!; cbn; auto; try lia; try congruence.
    split; cbn; auto; try lia; try (apply (ro_lsn _ _ Hrec)); apply Forall_singleton; assumption.
  - destruct (snoc_cases segs) as [->|(pre & g & ->)]; [congruence|].
    rewrite last_snoc, removelast_last. rewrite log_last_snoc in Hlsn.
    rewrite last_map_app in Hchain. cbn [map List.last] in Hchain.
    apply (log_extend_last pre g [r] 0 0 0 Hl); [apply Forall_singleton, Hrec | | cbn; lia].
    constructor; [|constructor]. unfold ident_ok in *. destruct Hchain as [->| <-]; auto.
Qed.

Lemma log_add_disk segs roll ident r d :
  log_ok segs -> addable segs roll ident r -> disk_is d segs ->
  let segment := if roll then List.last (map g_id segs) 0 + 1 else List.last (map g_id segs) 0 in
  disk_is (append_bytes d (segmentPath segment) (add_data roll segment ident r)) (log_add segs roll ident r).
Proof.
  intros Hl Ha Hd segment. pose proof (log_add_ok segs roll ident r Hl Ha) as Hl'.
  unfold segment, log_add, add_data in *. destruct roll.
  - pose proof (path_fresh segs (mkSeg (List.last (map g_id segs) 0 + 1) (lr_lsn r) ident [r]) 0 0 0
                  ltac:(lia) Hl') as Hfresh.
    pose proof (disk_is_snoc d segs _ Hfresh Hd) as Hs. unfold seg_bytes in Hs.
    cbn [g_id g_first g_ident g_recs flat_map] in Hs. rewrite app_nil_r in Hs. exact Hs.
  - pose proof (ad_roll _ _ _ _ Ha) as Hne.
    destruct (snoc_cases segs) as [->|(pre & g & ->)]; [congruence|].
    rewrite last_snoc, removelast_last in *. rewrite last_map_app. cbn [map List.last app].
    pose proof (path_fresh pre g 0 0 0 ltac:(lia) Hl) as Hfresh.
    destruct (disk_is_extend d pre g (rec_frame r) Hfresh Hd) as [H1 H2]. split; [exact H2|].
    rewrite H1, map_app.
    change (map seg_entry [seg_extend g [r]]) with [(segmentPath (g_id g), seg_bytes (seg_extend g [r]))].
    rewrite list_to_map_snoc by exact Hfresh.
    rewrite seg_extend_bytes. cbn [flat_map seg_extend g_id]. rewrite app_nil_r. reflexivity.
Qed.

Lemma log_last_nonneg segs : log_ok segs -> 0 <= log_last 0 segs.
Proof.
  intros Hl. destruct (snoc_cases segs) as [->|(pre & g & ->)]; [cbn; lia|].
  rewrite log_last_snoc. apply log_from_app in Hl as (_ & _ & (Hg & _)). pose proof (so_first _ _ Hg).
  unfold g_next. lia.
Qed.

Lemma plan_identity pl e segs :
  plan_is pl segs ->
  let ei := walIdentityHash (p_entry e) in
  let identity := if pl_identity pl =? 0 then ei else pl_identity pl in
  negb (negb (ei =? 0) && negb (identity =? 0) && negb (ei =? identity)) = true ->
  0 <= identity < 2 ^ 64 /\ (List.last (map g_ident segs) 0 = 0 \/ identity = List.last (map g_ident segs) 0) /\
  (ei = 0 \/ identity = 0 \/ ei = identity).
Proof.
  intros [_ _ _ Hi Hr] ei identity Ht. pose proof (walIdentityHash_range (p_entry e)) as He.
  unfold identity in *. fold ei in He. destruct (Z.eqb_spec (pl_identity pl) 0) as [E|E].
  - split; [lia|]. split; [|auto]. left. lia.
  - split; [lia|]. split; [exact Hi|]. apply negb_true_iff in Ht. rewrite !andb_false_iff, !negb_false_iff, !Z.eqb_eq in Ht.
    tauto.
Qed.

Lemma plan_roll pl segs n :
  log_ok segs -> plan_is pl segs ->
  let roll := (pl_segment pl =? 0) || ((kSegmentHeaderBytes <? pl_bytes pl) && (segmentMaxBytes cfg <? pl_bytes pl + n)) in
  if roll then Forall (fun g => g_recs g <> []) segs else segs <> [] /\ pl_bytes pl <> 0.
Proof.
  intros Hl [_ Hseg Hb _ _] roll. unfold roll. rewrite Hseg.
  destruct (snoc_cases segs) as [->|(pre & g & ->)]; [constructor|].
  rewrite last_map_app in *. cbn [map List.last] in *.
  apply log_from_app in Hl as (_ & Hne & (Hg & _)). pose proof (so_id _ _ Hg) as Hid.
  rewrite (proj2 (Z.eqb_neq (g_id g) 0)) by lia. cbn [orb].
  pose proof (seg_bytes_length g) as Hlen. unfold kSegmentHeaderBytes.
  destruct (Z.ltb_spec 32 (pl_bytes pl)) as [H32|H32]; cbn [andb].
  - destruct (segmentMaxBytes cfg <? pl_bytes pl + n).
    + apply Forall_app. split; [apply Hne; discriminate|]. apply Forall_singleton. intros Hr.
      rewrite Hr in Hlen. change (blen (flat_map rec_frame [])) with 0 in Hlen. lia.
    + split; [destruct pre; discriminate | lia].
  - split; [destruct pre; discriminate|]. unfold blen in *. lia.
Qed.

Lemma frame_ok p lsn ts f : framePreparedRecord cfg p lsn ts = Ok f ->
  kPreparedPayloadHeaderBytes + blen (preparedPayload p) <= maxRecordBytes cfg /\
  kPreparedPayloadHeaderBytes + blen (preparedPayload p) < 2 ^ 32.
Proof.
  unfold framePreparedRecord. destruct (_ || _) eqn:E; [discriminate|]. intros _.
  apply orb_false_iff in E as [E1%Z.ltb_ge E2%Z.ltb_ge]. lia.
Qed.

Lemma log_add_last segs roll ident r :
  addable segs roll ident r ->
  log_last 0 (log_add segs roll ident r) = lr_lsn r /\
  List.last (map g_id (log_add segs roll ident r)) 0 =
    (if roll then List.last (map g_id segs) 0 + 1 else List.last (map g_id segs) 0) /\
  List.last (map (fun g => blen (seg_bytes g)) (log_add segs roll ident r)) 0 =
    (if roll then kSegmentHeaderBytes else List.last (map (fun g => blen (seg_bytes g)) segs) 0) + blen (rec_frame r) /\
  (List.last (map g_ident (log_add segs roll ident r)) 0 = 0 \/
   ident = List.last (map g_ident (log_add segs roll ident r)) 0).
Proof.
  intros [_ Hlsn _ _ Hchain _ Hroll]. unfold log_add. destruct roll.
  - rewrite log_last_snoc, !last_map_app. cbn [map List.last g_id g_ident]. unfold g_next.
    cbn [g_first g_recs length]. rewrite seg_bytes_length. cbn [g_recs flat_map]. rewrite app_nil_r.
    unfold kSegmentHeaderBytes. split_and!; auto; lia.
  - destruct (snoc_cases segs) as [->|(pre & g & ->)]; [congruence|].
    rewrite last_snoc, removelast_last, log_last_snoc, !last_map_app in *. cbn [map List.last] in *.
    rewrite seg_extend_bytes. unfold g_next, seg_extend in *.
    cbn [g_first g_recs g_id g_ident flat_map] in *. rewrite length_app, app_nil_r. unfold blen.
    rewrite length_app. cbn [length]. split_and!; auto; lia.
Qed.

Lemma plan_entry_add (clock : Z -> Z) (pl : plan) (e : PendingWalEntry) (dec : json) (pl' : plan) (segs : list seg) :
  log_ok segs -> plan_is pl segs -> pending_ok e dec -> (forall n, 0 <= clock n < 2 ^ 64) ->
  pl_lsn pl + 1 < 2 ^ 64 -> pl_segment pl + 1 < 2 ^ 64 ->
  plan_entry cfg clock pl e = Ok pl' ->
  let r := mkLrec e (pl_lsn pl) (clock (pl_lsn pl)) dec in
  exists (roll : bool) ident,
    let segment := if roll then List.last (map g_id segs) 0 + 1 else List.last (map g_id segs) 0 in
    addable segs roll ident r /\ plan_is pl' (log_add segs roll ident r) /\ pl_lsn pl' = pl_lsn pl + 1 /\
    pl_segment pl' = segment /\
    pl_chunks pl' = add_to_chunk (pl_chunks pl) (segmentPath segment) (add_data roll segment ident r).
Proof.
  intros Hl Hpl Hp Hclock Hmax Hmaxs Hplan r. unfold plan_entry in Hplan.
  set (ei := walIdentityHash (p_entry e)) in *.
  set (identity := if pl_identity pl =? 0 then ei else pl_identity pl) in *.
  destruct (negb (negb (ei =? 0) && negb (identity =? 0) && negb (ei =? identity))) eqn:Eid;
    cbn [guard_err mbind result_bind] in Hplan; [|discriminate].
  destruct (plan_identity pl e segs Hpl Eid) as (Hir & Hichain & Hiok). fold ei identity in Hir, Hichain, Hiok.
  destruct (framePreparedRecord cfg e (pl_lsn pl) _) as [frame|] eqn:Ef; cbn [mbind result_bind] in Hplan; [|discriminate].
  apply Ok_inj in Hplan. destruct (frame_ok _ _ _ _ Ef) as [Hsz Hsz32].
  apply (frame_rec cfg _ _ _ dec) in Ef. fold r in Ef. subst frame.
  pose proof (plan_roll pl segs (blen (rec_frame r)) Hl Hpl) as Hroll. cbv zeta in Hroll.
  set (roll := (pl_segment pl =? 0) || _) in *. exists roll, identity. cbv zeta.
  pose proof Hpl as [Hlsn Hseg Hb _ _]. pose proof (log_last_nonneg segs Hl) as H0.
  assert (Hadd : addable segs roll identity r).
  { split; auto.
    - split; cbn [r lr_pending lr_decoded lr_lsn lr_ts]; auto. lia.
    - unfold ident_ok. cbn [r lr_pending]. fold ei. tauto.
    - rewrite <- Hseg. exact Hmaxs.
    - destruct roll; [exact Hroll | apply Hroll]. }
  destruct (log_add_last segs roll identity r Hadd) as (H1 & H2 & H3 & H4).
  pose proof (log_ids_nonneg segs Hl) as Hids.
  assert (Hs : (if roll then u64 (pl_segment pl + 1) else pl_segment pl) =
               (if roll then List.last (map g_id segs) 0 + 1 else List.last (map g_id segs) 0)).
  { destruct roll; [|exact Hseg]. rewrite <- Hseg. apply Z.mod_small. lia. }
  assert (Hb0 : ((if roll then 0 else pl_bytes pl) =? 0) = roll).
  { destruct roll; [reflexivity|]. apply Z.eqb_neq, Hroll. }
  rewrite Hb0, Hs in Hplan. subst pl'. cbn [pl_lsn pl_segment pl_bytes pl_identity pl_chunks].
  assert (Hu : u64 (pl_lsn pl + 1) = pl_lsn pl + 1) by (apply Z.mod_small; lia). rewrite Hu.
  split; [exact Hadd|]. split; [|split; [reflexivity|]; split; [reflexivity|]].
  - split; cbn [pl_lsn pl_segment pl_bytes pl_identity]; auto.
    + rewrite H1. reflexivity.
    + rewrite H3. destruct roll; [reflexivity | rewrite Hb; reflexivity].
  - unfold add_data. cbn [r lr_lsn]. reflexivity.
Qed.

(** ** A whole batch *)

(** One planned record: where it goes and what is written for it. *)
Record step := mkStep { st_roll : bool; st_ident : Z; st_rec : lrec }.

Definition step_segment (segs : list seg) (s : step) : Z :=
  if st_roll s then List.last (map g_id segs) 0 + 1 else List.last (map g_id segs) 0.

Definition step_piece (segs : list seg) (s : step) : bytes * bytes :=
  (segmentPath (step_segment segs s), add_data (st_roll s) (step_segment segs s) (st_ident s) (st_rec s)).

Definition step_log (segs : list seg) (s : step) : list seg := log_add segs (st_roll s) (st_ident s) (st_rec s).

Fixpoint steps_ok (segs : list seg) (ss : list step) : Prop :=
  match ss with
  | [] => True
  | s :: r => addable segs (st_roll s) (st_ident s) (st_rec s) /\ steps_ok (step_log segs s) r
  end.

Fixpoint pieces (segs : list seg) (ss : list step) : list (bytes * bytes) :=
  match ss with
  | [] => []
  | s :: r => step_piece segs s :: pieces (step_log segs s) r
  end.

Definition steps_log (segs : list seg) (ss : list step) : list seg := fold_left step_log ss segs.

(** The records of a batch that starts at [lsn]. *)
Fixpoint batch_records (clock : Z -> Z) (lsn : Z) (es : list (PendingWalEntry * json)) : list lrec :=
  match es with
  | [] => []
  | (e, dec) :: r => mkLrec e lsn (clock lsn) dec :: batch_records clock (lsn + 1) r
  end.

Lemma steps_log_ok ss : forall segs, log_ok segs -> steps_ok segs ss -> log_ok (steps_log segs ss).
Proof.
  induction ss as [|s ss IH]; intros segs Hl Hs; [exact Hl|]. destruct Hs as [Ha Hs].
  apply IH; [apply log_add_ok; assumption | exact Hs].
Qed.

Lemma step_disk segs s d : log_ok segs -> addable segs (st_roll s) (st_ident s) (st_rec s) -> disk_is d segs ->
  disk_is (append_bytes d (step_piece segs s).1 (step_piece segs s).2) (step_log segs s).
Proof. intros Hl Ha Hd. apply log_add_disk; assumption. Qed.

Lemma steps_disk ss : forall segs d, log_ok segs -> steps_ok segs ss -> disk_is d segs ->
  disk_is (apply_chunks (pieces segs ss) d) (steps_log segs ss).
Proof.
  induction ss as [|s ss IH]; intros segs d Hl Hs Hd; [exact Hd|]. destruct Hs as [Ha Hs].
  cbn [pieces apply_chunks fold_left steps_log]. apply IH; [apply log_add_ok; assumption | exact Hs|].
  apply step_disk; assumption.
Qed.

Lemma addable_cases segs roll ident r : addable segs roll ident r -> roll = true \/ segs <> [].
Proof. intros [_ _ _ _ _ _ Hr]. destruct roll; auto. Qed.

Lemma steps_records ss : forall segs, steps_ok segs ss ->
  log_records (steps_log segs ss) = log_records segs ++ map st_rec ss.
Proof.
  induction ss as [|s ss IH]; intros segs Hs; cbn [map]; [rewrite app_nil_r; reflexivity|].
  destruct Hs as [Ha Hs]. change (steps_log segs (s :: ss)) with (steps_log (step_log segs s) ss). rewrite (IH _ Hs). unfold step_log.
  rewrite log_add_records by (eapply addable_cases; exact Ha). rewrite <- app_assoc. reflexivity.
Qed.

Lemma plan_entries_steps (clock : Z -> Z) es : forall pl pl' segs,
  log_ok segs -> plan_is pl segs -> Forall (fun ed => pending_ok ed.1 ed.2) es ->
  (forall n, 0 <= clock n < 2 ^ 64) ->
  pl_lsn pl + Z.of_nat (length es) < 2 ^ 64 -> pl_segment pl + Z.of_nat (length es) < 2 ^ 64 ->
  plan_entries cfg clock pl es.*1 = Ok pl' ->
  exists ss, steps_ok segs ss /\ plan_is pl' (steps_log segs ss) /\
    map st_rec ss = batch_records clock (pl_lsn pl) es /\
    pl_lsn pl' = pl_lsn pl + Z.of_nat (length es) /\
    pl_chunks pl' = fold_left (fun c p => add_to_chunk c p.1 p.2) (pieces segs ss) (pl_chunks pl).
Proof.
  induction es as [|[e dec] es IH]; intros pl pl' segs Hl Hpl Hok Hclock Hmax Hmaxs Hplan;
    cbn [fmap list_fmap plan_entries fst] in Hplan.
  - apply Ok_inj in Hplan as <-. exists []. cbn. rewrite Z.add_0_r. auto.
  - apply Forall_cons in Hok as [He Hok]. cbn [length] in *.
    destruct (plan_entry cfg clock pl e) as [pl1|] eqn:E1; cbn [mbind result_bind] in Hplan; [|discriminate].
    destruct (plan_entry_add clock pl e dec pl1 segs Hl Hpl He Hclock ltac:(lia) ltac:(lia) E1)
      as (roll & ident & Hadd & Hpl1 & Hlsn & Hseg & Hch).
    set (s := mkStep roll ident (mkLrec e (pl_lsn pl) (clock (pl_lsn pl)) dec)).
    pose proof (log_ids_nonneg segs Hl) as H0. pose proof Hpl as [_ Hs0 _ _ _].
    destruct (IH pl1 pl' (step_log segs s)) as (ss & Hss & Hpl' & Hrec & Hlsn' & Hch'); auto.
    + apply log_add_ok; assumption.
    + lia.
    + rewrite Hseg, <- Hs0. destruct roll; lia.
    + exists (s :: ss). split; [split; [exact Hadd | exact Hss]|]. split; [exact Hpl'|].
      split; [cbn [map batch_records]; rewrite Hrec, Hlsn; reflexivity|]. split; [lia|].
      rewrite Hch', Hch. reflexivity.
Qed.

Lemma apply_merged ps : forall c d,
  apply_chunks (fold_left (fun c p => add_to_chunk c p.1 p.2) ps c) d = apply_chunks ps (apply_chunks c d).
Proof.
  induction ps as [|p ps IH]; intros c d; [reflexivity|]. cbn [fold_left]. rewrite IH, apply_add_to_chunk. reflexivity.
Qed.

(** Stopping inside a chunk is stopping inside one of its pieces. *)
Lemma merged_partial ps : forall i n data k d,
  fold_left (fun c p => add_to_chunk c p.1 p.2) ps [] !! i = Some (n, data) ->
  exists j n' data' k', ps !! j = Some (n', data') /\
    append_bytes (apply_chunks (take i (fold_left (fun c p => add_to_chunk c p.1 p.2) ps [])) d) n (take k data) =
    append_bytes (apply_chunks (take j ps) d) n' (take k' data').
Proof.
  induction ps as [|[pn pd] ps IH] using rev_ind; intros i n data k d Hi; [discriminate|].
  rewrite fold_left_app in *. cbn [fold_left fst snd] in *.
  set (C := fold_left (fun c p => add_to_chunk c p.1 p.2) ps []) in *.
  assert (Hold : forall C0 data0 k0, take i C = C0 -> C !! i = Some (n, data0) ->
    exists j n' data' k', (ps ++ [(pn, pd)]) !! j = Some (n', data') /\
      append_bytes (apply_chunks C0 d) n (take k0 data0) =
      append_bytes (apply_chunks (take j (ps ++ [(pn, pd)])) d) n' (take k' data')).
  { intros C0 data0 k0 <- Hc. destruct (IH i n data0 k0 d Hc) as (j & n' & d' & k' & Hj & Heq).
    exists j, n', d', k'. split; [apply lookup_app_l_Some, Hj|].
    rewrite take_app_le by (apply lookup_lt_Some in Hj; lia). exact Heq. }
  assert (Hnew : forall k0, exists j n' data' k', (ps ++ [(pn, pd)]) !! j = Some (n', data') /\
    append_bytes (apply_chunks C d) pn (take k0 pd) =
    append_bytes (apply_chunks (take j (ps ++ [(pn, pd)])) d) n' (take k' data')).
  { intros k0. exists (length ps), pn, pd, k0. split; [apply list_lookup_middle; reflexivity|].
    rewrite take_app_length. unfold C. rewrite apply_merged. reflexivity. }
  unfold add_to_chunk in Hi |- *. destruct (last C) as [[ln ld]|] eqn:El.
  - apply last_Some in El as [L HL]. destruct (bytes_eqb ln pn) eqn:En.
    + apply bytes_eqb_eq in En as ->. rewrite HL, removelast_last in *.
      apply lookup_app_Some in Hi as [Hi|[Hge Hi]].
      * rewrite take_app_le by (apply lookup_lt_Some in Hi; lia).
        apply (Hold _ data k); [rewrite take_app_le by (apply lookup_lt_Some in Hi; lia); reflexivity|].
        apply lookup_app_l_Some, Hi.
      * apply list_lookup_singleton_Some in Hi as [Hz [= <- <-]].
        assert (Hi : i = length L) by lia. subst i. rewrite take_app_length.
        destruct (Nat.le_gt_cases k (length ld)) as [Hk|Hk].
        -- rewrite take_app_le by exact Hk. apply (Hold _ ld k); [apply take_app_length|].
           apply list_lookup_middle. reflexivity.
        -- rewrite take_app_ge by lia. rewrite <- append_bytes_twice.
           destruct (Hnew (k - length ld)%nat) as (j & n' & d' & k' & Hj & Heq).
           exists j, n', d', k'. split; [exact Hj|]. rewrite <- Heq. unfold apply_chunks. rewrite fold_left_app. reflexivity.
    + apply lookup_app_Some in Hi as [Hi|[Hge Hi]].
      * apply (Hold _ data k); [|exact Hi]. rewrite take_app_le by (apply lookup_lt_Some in Hi; lia). reflexivity.
      * apply list_lookup_singleton_Some in Hi as [Hz [= <- <-]].
        replace i with (length C) by lia. rewrite take_app_length. apply Hnew.
  - apply lookup_app_Some in Hi as [Hi|[Hge Hi]].
    + apply (Hold _ data k); [|exact Hi]. rewrite take_app_le by (apply lookup_lt_Some in Hi; lia). reflexivity.
    + apply list_lookup_singleton_Some in Hi as [Hz [= <- <-]].
      replace i with (length C) by lia. rewrite take_app_length. apply Hnew.
Qed.

Lemma write_chunks_spec wr chunks : forall i d,
  write_chunks wr i chunks d = (true, apply_chunks chunks d) \/
  exists j n data k, chunks !! j = Some (n, data) /\
    write_chunks wr i chunks d = (false, append_bytes (apply_chunks (take j chunks) d) n (take k data)).
Proof.
  induction chunks as [|[n data] chunks IH]; intros i d; cbn [write_chunks]; [left; reflexivity|].
  destruct (wr i) as [k|].
  - right. exists 0%nat, n, data, k. auto.
  - destruct (IH (S i) (append_bytes d n data)) as [H|(j & n' & d' & k & Hj & H)]; [left; exact H|].
    right. exists (S j), n', d', k. auto.
Qed.

Lemma write_chunks_good chunks : forall i d, write_chunks (fun _ => None) i chunks d = (true, apply_chunks chunks d).
Proof. induction chunks as [|[n data] chunks IH]; intros i d; cbn [write_chunks]; [reflexivity|]. rewrite IH. reflexivity. Qed.
End WalAppend.
