(* ===== verification/WalRecovery.v ===== *)
(** * Opening, crashing and reclaiming the log

    What a process believes about its log agrees with the disk after every
    append, restart, crash and checkpoint, and the records on disk change only
    as they should. *)

From S2P Require Import Prelude FileSys Decimal Json Msgpack JsonValue Checksum WalIntegrity Wal WalLog WalAppend.
From stdpp Require Import base list gmap strings sorting.
From Stdlib Require Import ZArith Lia.

Open Scope Z_scope.

Section WalRecovery.
Context `{JT : JsonText} (cfg : wal_config).

Abbreviation log_ok := (log_ok cfg).
Abbreviation log_from := (log_from cfg).

(** ** The process and the log *)

Definition plan_of (st : LogicalWalState) : plan :=
  mkPlan (nextLsn st) (activeSegment st) (activeBytes st) (identityHash st) [].

(** The process works on the log [segs]: what it remembers is what is there. *)
Record wal_is (w : wal) (segs : list seg) : Prop := {
  wi_log : log_ok segs;
  wi_disk : disk_is (w_disk w) segs;
  wi_clearing : clearing (w_state w) = false;
  wi_poisoned : poisoned (w_state w) = false;
  wi_range : 0 <= identityHash (w_state w) < 2 ^ 64;
  wi_init : initialized (w_state w) = true -> plan_is (plan_of (w_state w)) segs;
  wi_fresh : initialized (w_state w) = false ->
    0 <= activeSegment (w_state w) <= List.last (map g_id segs) 0 /\ (segs = [] -> activeBytes (w_state w) = 0) }.

Lemma scan_log_all d segs : log_ok segs -> disk_is d segs ->
  scanWalFiles cfg no_visitor scan_io_good d tt = scan_done_all (scan_start tt) segs tt.
Proof.
  intros Hl Hd. pose proof (scan_log cfg no_visitor d segs tt Hl Hd) as H. cbv zeta in H.
  rewrite visit_all_no_visitor in H. exact H.
Qed.

Lemma adopt_active fs : forall st,
  activeSegment (fold_left adopt_file (map seg_scanned fs) st) = activeSegment st \/
  activeSegment (fold_left adopt_file (map seg_scanned fs) st) ∈ map g_id fs.
Proof.
  induction fs as [|g fs IH]; intros st; cbn [map fold_left]; [auto|].
  destruct (IH (adopt_file st (seg_scanned g))) as [H|H]; [|right; right; exact H].
  rewrite H. unfold adopt_file. destruct (_ && _); [right; left | left; reflexivity].
Qed.

Definition same_flags (a b : LogicalWalState) : Prop :=
  clearing a = clearing b /\ poisoned a = poisoned b /\ nextLsn a = nextLsn b.

Lemma adopt_flags fs : forall st, same_flags (fold_left adopt_file fs st) st.
Proof.
  induction fs as [|f fs IH]; intros st; cbn [fold_left]; [repeat split|].
  destruct (IH (adopt_file st f)) as (H1 & H2 & H3). unfold adopt_file in *.
  destruct (_ && _) in *; repeat split; auto.
Qed.

(** The state takes the numbers of the last segment. *)
Lemma adopt_last pre g st :
  log_ok (pre ++ [g]) -> activeSegment st <= g_id g ->
  let st' := fold_left adopt_file (map seg_scanned (pre ++ [g])) st in
  activeSegment st' = g_id g /\ activeBytes st' = blen (seg_bytes g) /\ identityHash st' = g_ident g.
Proof.
  intros Hl Hle. cbv zeta. rewrite map_app, fold_left_app. cbn [map fold_left].
  set (st1 := fold_left adopt_file (map seg_scanned pre) st).
  assert (H1 : activeSegment st1 <= g_id g).
  { destruct (adopt_active pre st) as [H|H]; fold st1 in H; [lia|].
    apply log_from_ids in Hl as [Hs _]. rewrite map_app in Hs.
    pose proof (StronglySorted_app_1_elem_of _ _ _ _ (g_id g) Hs H ltac:(left)). lia. }
  unfold adopt_file, seg_scanned. cbn [sf_file is_legacy sf_segmentId negb andb].
  rewrite (proj2 (Z.leb_le _ _)) by exact H1. auto.
Qed.

Lemma adopt_scan_log w d segs :
  log_ok segs -> disk_is d segs -> log_last 0 segs + 1 < 2 ^ 64 ->
  clearing (w_state w) = false -> poisoned (w_state w) = false -> 0 <= identityHash (w_state w) < 2 ^ 64 ->
  0 <= activeSegment (w_state w) <= List.last (map g_id segs) 0 -> (segs = [] -> activeBytes (w_state w) = 0) ->
  exists w', adopt_scan w d (scan_done_all (scan_start tt) segs tt) = (Ok tt, w') /\
    wal_is w' segs /\ initialized (w_state w') = true /\ w_disk w' = d.
Proof.
  intros Hl Hd Hmax Hc Hp Hid Hact Hb. unfold adopt_scan.
  cbn [scan_done_all scan_start sc_status sc_lastLsn sc_files app]. rewrite bool_decide_eq_true_2 by reflexivity.
  cbn [negb]. set (st0 := mkWalState (clearing (w_state w)) (initialized (w_state w)) (poisoned (w_state w))
    (ws_error (w_state w)) (u64 (log_last 0 segs + 1)) (activeSegment (w_state w)) (activeBytes (w_state w))
    (identityHash (w_state w))). set (st := fold_left adopt_file _ st0).
  eexists. split; [reflexivity|]. split; [|auto].
  destruct (adopt_flags (map seg_scanned segs) st0) as (F1 & F2 & F3). fold st in F1, F2, F3.
  assert (Hlsn : nextLsn st = log_last 0 segs + 1).
  { rewrite F3. cbn [st0 nextLsn]. apply Z.mod_small. pose proof (log_last_nonneg cfg segs Hl). lia. }
  assert (Hrest : activeSegment st = List.last (map g_id segs) 0 /\
    activeBytes st = List.last (map (fun g => blen (seg_bytes g)) segs) 0 /\
    (List.last (map g_ident segs) 0 = 0 \/ identityHash st = List.last (map g_ident segs) 0) /\
    0 <= identityHash st < 2 ^ 64).
  { destruct (snoc_cases segs) as [->|(pre & g & ->)].
    - cbn in *. split_and!; auto; lia.
    - destruct (adopt_last pre g st0 Hl) as (A1 & A2 & A3).
      { rewrite last_map_app in Hact. cbn in Hact |- *. lia. }
      fold st in A1, A2, A3. rewrite !last_map_app. cbn [map List.last]. rewrite A1, A2, A3.
      apply log_from_app in Hl as (_ & _ & (Hg & _)). pose proof (so_ident _ _ Hg). split_and!; auto; lia. }
  destruct Hrest as (R1 & R2 & R3 & R4).
  split; cbn [w_state w_disk clearing poisoned identityHash initialized]; auto.
  - rewrite F1. exact Hc.
  - rewrite F2. exact Hp.
  - intros _. split; cbn; auto.
  - discriminate.
Qed.

(** Opening a log that is in order. *)
Lemma init_log w segs : wal_is w segs -> log_last 0 segs + 1 < 2 ^ 64 ->
  exists w', initializeLogicalWal cfg init_io_good w = (Ok tt, w') /\
    wal_is w' segs /\ initialized (w_state w') = true /\ w_disk w' = w_disk w.
Proof.
  intros Hw Hmax. unfold initializeLogicalWal. destruct (initialized (w_state w)) eqn:Ei; [exists w; auto|].
  destruct (wi_fresh _ _ Hw Ei) as [Hact Hb]. cbn [init_io_good ii_scan].
  rewrite (scan_log_all _ segs (wi_log _ _ Hw) (wi_disk _ _ Hw)).
  cbn [scan_done_all scan_start sc_status]. rewrite bool_decide_eq_false_2 by discriminate.
  destruct Hw as [H1 H2 H3 H4 H5 _ _]. apply adopt_scan_log; assumption.
Qed.

(** ** A torn tail *)

(** The log [pre ++ [g]], but the file of [g] holds [data]. *)
Definition torn_disk (d : wal_disk) (pre : list seg) (g : seg) (data : bytes) : Prop :=
  d_legacy d = None /\ d_segments d = <[segmentPath (g_id g) := data]> (list_to_map (map seg_entry pre)).

Lemma torn_disk_whole d pre g : log_ok (pre ++ [g]) -> torn_disk d pre g (seg_bytes g) -> disk_is d (pre ++ [g]).
Proof.
  intros Hl [H1 H2]. split; [exact H1|]. rewrite H2, map_app.
  change (map seg_entry [g]) with [(segmentPath (g_id g), seg_bytes g)].
  rewrite list_to_map_snoc by (eapply (path_fresh cfg); [|exact Hl]; lia). reflexivity.
Qed.

(** Scanning it comes to the last file with the rest of the log scanned. *)
Lemma scan_torn_disk d pre g data : log_ok (pre ++ [g]) -> torn_disk d pre g data ->
  scanWalFiles cfg no_visitor scan_io_good d tt =
  scan_files cfg no_visitor scan_io_good d [seg_file g] (List.last (map g_id pre) 0) (List.last (map g_ident pre) 0)
    (scan_done_all (scan_start tt) pre tt).
Proof.
  intros Hl [Hleg Hd]. pose proof (path_fresh cfg pre g 0 0 0 ltac:(lia) Hl) as Hfresh.
  unfold scanWalFiles. cbn [si_exists si_type si_list scan_io_good negb].
  assert (Hp : physicalFiles d = map seg_file pre ++ [seg_file g]).
  { unfold physicalFiles. rewrite Hleg.
    rewrite (sortedSegmentFiles_names cfg d (pre ++ [g]) (map seg_entry pre ++ [(segmentPath (g_id g), data)]) Hl).
    - cbn [app]. rewrite map_map, map_app. reflexivity.
    - rewrite list_to_map_snoc by exact Hfresh. exact Hd.
    - rewrite fmap_app, paths_keys, map_app. reflexivity. }
  rewrite Hp. apply log_from_app in Hl as (Hpre & Hne & _). specialize (Hne ltac:(discriminate)).
  pose proof (scan_segs cfg no_visitor d pre 0 0 (scan_start tt) [seg_file g] Hpre) as H.
  rewrite visit_all_no_visitor in H. cbv zeta in H. cbn [scan_start sc_acc] in H. apply H; [|auto].
  apply Forall_forall. intros x Hx. rewrite Hd.
  rewrite lookup_insert_ne.
  - assert (Hd0 : disk_is (mkDisk None true (list_to_map (map seg_entry pre))) pre) by (split; reflexivity).
    pose proof (disk_lookup cfg _ pre Hpre Hd0) as Hall. rewrite Forall_forall in Hall. exact (Hall x Hx).
  - intros Heq. apply Hfresh. rewrite Heq, paths_keys. apply list_elem_of_In, in_map_iff. exists x.
    split; [reflexivity | apply list_elem_of_In, Hx].
Qed.

(** A frame cut anywhere is a partial tail. *)
Lemma scan_cut_frame fuel size r k first (m : ScannedWalFile) (s : wal_scan unit) :
  rec_ok cfg r -> (0 < k < length (rec_frame r))%nat ->
  exists e, scan_frames cfg no_visitor (S fuel) true size (take k (rec_frame r)) first m s =
    inr (setFileScanFailure s m PARTIAL_TAIL e).
Proof.
  intros Hr Hk. pose proof Hr as [[Hop _ _ _ _ _] Hsz Hsz32 _ _].
  assert (H0 : 0 <= blen (preparedPayload (lr_pending r))) by (unfold blen; lia).
  destruct k as [|k]; [lia|]. unfold rec_frame in *. cbn [firstn scan_frames]. cbn [length] in Hk.
  rewrite length_app, le_bytes_length in Hk. pose proof (rec_payload_length r) as Hlen.
  unfold kPreparedPayloadHeaderBytes in *.
  destruct (read_le 4 _) as [[v rest]|] eqn:E; [|eexists; reflexivity].
  unfold read_le in E. destruct (take_bytes 4 _) as [[h t]|] eqn:Et; [|discriminate].
  apply take_bytes_Some in Et as [Ht Hh]. injection E as <- <-.
  assert (H4 : (4 <= k)%nat).
  { apply (f_equal length) in Ht. rewrite length_take, !length_app, le_bytes_length in Ht. lia. }
  rewrite take_app_ge in Ht by (rewrite le_bytes_length; lia). rewrite le_bytes_length in Ht.
  apply app_inj_1 in Ht as [<- <-]; [|rewrite le_bytes_length; lia].
  rewrite le_value_bytes by (change (256 ^ Z.of_nat 4) with (2 ^ 32); lia).
  assert (Hfop : frame_op (byte_of (op_code (p_op (lr_pending r)))) = Some (p_op (lr_pending r))).
  { unfold frame_op. rewrite isValidWalOp_code. cbn [mbind option_bind].
    rewrite bool_decide_eq_false_2 by exact Hop. reflexivity. }
  rewrite Hfop. rewrite (proj2 (Z.eqb_neq (26 + _) 0)), (proj2 (Z.ltb_ge (maxRecordBytes cfg) _)) by lia. cbn [orb].
  rewrite (proj2 (take_bytes_None _ _)); [eexists; reflexivity|].
  rewrite length_take. unfold blen in *. lia.
Qed.

(** A process that has just started. *)
Definition restarted (w : wal) (d : wal_disk) : Prop :=
  w_state w = wal_state_new /\ w_disk w = d.

(** Opening finds a partial tail in the file [f], keeps [n] bytes of it, and
    what is left is the log [segs]. *)
Lemma init_truncates w d segs (tail : ScannedWalFile) (s : wal_scan unit) e :
  restarted w d -> log_ok segs -> log_last 0 segs + 1 < 2 ^ 64 ->
  scanWalFiles cfg no_visitor scan_io_good d tt = setFileScanFailure s tail PARTIAL_TAIL e ->
  disk_is (if sf_validBytes tail =? 0 then remove_file d (sf_file tail)
           else resize_file d (sf_file tail) (sf_validBytes tail)) segs ->
  exists w', initializeLogicalWal cfg init_io_good w = (Ok tt, w') /\ wal_is w' segs.
Proof.
  intros [Hst Hd] Hl Hmax Hscan Hdisk. unfold initializeLogicalWal. rewrite Hst, Hd. cbn [initialized wal_state_new].
  cbn [init_io_good ii_scan]. rewrite Hscan. unfold setFileScanFailure.
  cbn [setScanFailure sc_status sc_files]. rewrite !bool_decide_eq_true_2 by reflexivity.
  cbn [sc_files]. rewrite last_snoc. cbn [ii_truncate ii_sync ii_dirsync ii_rescan negb].
  cbv zeta. rewrite andb_false_r. set (d' := if sf_validBytes tail =? 0 then _ else _) in *.
  cbn [init_io_good ii_truncate ii_dirsync ii_rescan negb].
  rewrite (scan_log_all d' segs Hl Hdisk).
  destruct (adopt_scan_log (mkWal wal_state_new d' (g_walSeq w)) d' segs) as (w' & H1 & H2 & _); auto;
    cbn [w_state clearing poisoned identityHash activeSegment activeBytes wal_state_new]; auto; try lia.
  - pose proof (log_ids_nonneg cfg segs Hl). lia.
  - exists w'. auto.
Qed.

Lemma init_fresh w d segs : restarted w d -> log_ok segs -> disk_is d segs -> log_last 0 segs + 1 < 2 ^ 64 ->
  exists w', initializeLogicalWal cfg init_io_good w = (Ok tt, w') /\ wal_is w' segs.
Proof.
  intros [Hst Hd] Hl Hdisk Hmax. pose proof (log_ids_nonneg cfg segs Hl).
  destruct (init_log w segs) as (w' & H1 & H2 & _); [|exact Hmax | exists w'; auto].
  split; rewrite ?Hst, ?Hd; cbn; auto; lia.
Qed.

(** The last file is the bytes of [g] and something after them. *)
Lemma scan_last_file d g tail prevId ident (s : wal_scan unit) :
  seg_ok cfg g -> prevId < g_id g -> sc_lastLsn s < g_first g -> (ident = 0 \/ g_ident g = ident) ->
  d_segments d !! segmentPath (g_id g) = Some (seg_bytes g ++ tail) ->
  exists fuel first m s', sf_validBytes m = blen (seg_bytes g) /\ sf_file m = seg_file g /\
    scan_files cfg no_visitor scan_io_good d [seg_file g] prevId ident s =
    match scan_frames cfg no_visitor (S fuel) true (blen (seg_bytes g ++ tail)) tail first m s' with
    | inr s => s
    | inl (s, m) => finish_file s m
    end.
Proof.
  intros Hg Hid Hfirst Hident Hd. pose proof (sc_acc s) as u.
  cbn [scan_files seg_file wal_contents si_open scan_io_good]. rewrite Hd. cbv zeta.
  pose proof (scan_segment cfg no_visitor (S (length (seg_bytes g ++ tail))) true g tail s Hg Hfirst) as Hs.
  rewrite visit_all_no_visitor in Hs. cbv zeta in Hs.
  assert (Hfu : (length (g_recs g) < S (length (seg_bytes g ++ tail)))%nat).
  { unfold seg_bytes. rewrite !length_app. pose proof (frames_length (g_recs g)). lia. }
  destruct (Hs Hfu) as (fuel' & Hfu' & Heq). destruct fuel' as [|fuel']; [lia|].
  exists fuel'. do 3 eexists. split; [|split; [|]].
  3:{ replace (scan_header true (segmentPath (g_id g)) (seg_bytes g ++ tail) prevId ident s) with
        (scan_header true (segmentPath (g_id g))
           (segmentHeader (g_id g) (g_first g) (g_ident g) ++ flat_map rec_frame (g_recs g) ++ tail) prevId ident s)
        by (unfold seg_bytes; rewrite <- app_assoc; reflexivity).
      rewrite (scan_header_written cfg) by (auto; destruct Hident; auto). rewrite Heq. reflexivity. }
  all: reflexivity.
Qed.

Lemma torn_last d pre g data : log_ok (pre ++ [g]) -> torn_disk d pre g data ->
  seg_ok cfg g /\ List.last (map g_id pre) 0 < g_id g /\
  sc_lastLsn (scan_done_all (scan_start tt) pre tt) < g_first g /\
  (List.last (map g_ident pre) 0 = 0 \/ g_ident g = List.last (map g_ident pre) 0) /\
  d_segments d !! segmentPath (g_id g) = Some data.
Proof.
  intros Hl Hd. pose proof Hl as (_ & _ & (Hg & Hid & Hfirst & Hident & _ & _))%log_from_app.
  split_and!; auto. rewrite (proj2 Hd). apply lookup_insert_eq.
Qed.

Lemma init_cut_frame w d pre g r k :
  restarted w d -> log_ok (pre ++ [g]) -> rec_ok cfg r -> (0 < k < length (rec_frame r))%nat ->
  g_next g < 2 ^ 64 -> torn_disk d pre g (seg_bytes g ++ take k (rec_frame r)) ->
  exists w', initializeLogicalWal cfg init_io_good w = (Ok tt, w') /\ wal_is w' (pre ++ [g]).
Proof.
  intros Hw Hl Hr Hk Hmax Hd. pose proof (scan_torn_disk d pre g _ Hl Hd) as Hscan.
  destruct (torn_last d pre g _ Hl Hd) as (Hg & Hid & Hfirst & Hident & Hlook).
  destruct (scan_last_file d g _ _ _ _ Hg Hid Hfirst Hident Hlook) as (fuel & first & m & s' & Hvb & Hf & Heq).
  rewrite Heq in Hscan.
  destruct (scan_cut_frame fuel (blen (seg_bytes g ++ take k (rec_frame r))) r k first m s' Hr Hk) as [e He].
  rewrite He in Hscan. eapply (init_truncates w d); [exact Hw | exact Hl | rewrite log_last_snoc; lia | exact Hscan |].
  rewrite Hvb, Hf. pose proof (seg_bytes_length g) as Hlen.
  rewrite (proj2 (Z.eqb_neq _ _)) by (unfold blen in *; lia).
  apply torn_disk_whole; [exact Hl|]. destruct Hd as [H1 H2]. split; [exact H1|].
  cbn [resize_file seg_file d_segments]. rewrite H2. rewrite alter_insert_eq.
  f_equal. unfold blen. rewrite Nat2Z.id. apply take_app_length.
Qed.

Lemma init_cut_header w d pre g k :
  restarted w d -> log_ok (pre ++ [g]) -> (k < 32)%nat -> log_last 0 pre + 1 < 2 ^ 64 ->
  torn_disk d pre g (take k (segmentHeader (g_id g) (g_first g) (g_ident g))) ->
  exists w', initializeLogicalWal cfg init_io_good w = (Ok tt, w') /\ wal_is w' pre.
Proof.
  intros Hw Hl Hk Hmax Hd. pose proof (scan_torn_disk d pre g _ Hl Hd) as Hscan.
  pose proof (path_fresh cfg pre g 0 0 0 ltac:(lia) Hl) as Hfresh.
  cbn [scan_files seg_file wal_contents si_open scan_io_good] in Hscan.
  rewrite (proj2 Hd), lookup_insert_eq in Hscan. cbv zeta in Hscan. unfold scan_header in Hscan.
  rewrite (proj2 (take_bytes_None _ _)) in Hscan by (rewrite length_take; lia).
  eapply (init_truncates w d); [exact Hw | | exact Hmax | exact Hscan |].
  - apply log_from_app in Hl. tauto.
  - cbn [sf_validBytes sf_file remove_file]. rewrite Z.eqb_refl. destruct Hd as [H1 H2].
    split; [exact H1|]. cbn [d_segments]. rewrite H2, delete_insert_id; [reflexivity|].
    apply not_elem_of_list_to_map_1, Hfresh.
Qed.

Lemma torn_append d pre g data : log_ok (pre ++ [g]) -> disk_is d (pre ++ [g]) ->
  torn_disk (append_bytes d (segmentPath (g_id g)) data) pre g (seg_bytes g ++ data).
Proof.
  intros Hl Hd. destruct (disk_is_extend d pre g data) as [H1 H2]; [|exact Hd | split; assumption].
  eapply (path_fresh cfg); [|exact Hl]; lia.
Qed.

Lemma torn_new d pre g data : log_ok (pre ++ [g]) -> disk_is d pre ->
  torn_disk (append_bytes d (segmentPath (g_id g)) data) pre g data.
Proof.
  intros Hl [H1 H2]. pose proof (path_fresh cfg pre g 0 0 0 ltac:(lia) Hl) as Hfresh. split; [exact H1|].
  unfold append_bytes, write_segment. cbn [d_segments]. rewrite H2, (not_elem_of_list_to_map_1 _ _ Hfresh). reflexivity.
Qed.

(** The header alone, when a record opens a segment. *)
Lemma log_add_header segs ident r : log_ok segs -> addable cfg segs true ident r ->
  log_ok (segs ++ [mkSeg (List.last (map g_id segs) 0 + 1) (lr_lsn r) ident []]).
Proof.
  intros Hl [Hrec Hlsn Hid Hrange Hchain Hmax Hroll]. pose proof (log_ids_nonneg cfg segs Hl) as H0.
  apply log_from_app. split; [exact Hl|]. split; [intros _; exact Hroll|]. cbn [WalLog.log_from].
  split_and!; cbn; auto; try lia; try congruence.
  split; cbn; auto; try lia; apply (ro_lsn _ _ Hrec).
Qed.

(** Opening after one write that was cut. *)
Lemma init_cut_step w d segs s k :
  log_ok segs -> disk_is d segs -> addable cfg segs (st_roll s) (st_ident s) (st_rec s) ->
  lr_lsn (st_rec s) + 1 < 2 ^ 64 ->
  restarted w (append_bytes d (step_piece segs s).1 (take k (step_piece segs s).2)) ->
  exists w' segs', initializeLogicalWal cfg init_io_good w = (Ok tt, w') /\ wal_is w' segs' /\
    (log_records segs' = log_records segs \/ log_records segs' = log_records segs ++ [st_rec s]).
Proof.
  intros Hl Hd Ha Hmax Hw. pose proof (ad_lsn _ _ _ _ _ Ha) as Hlsn. pose proof (ad_rec _ _ _ _ _ Ha) as Hrec.
  destruct (Nat.le_gt_cases (length (step_piece segs s).2) k) as [Hk|Hk].
  { rewrite take_ge in Hw by exact Hk. pose proof (step_disk cfg segs s d Hl Ha Hd) as Hd'.
    destruct (init_fresh w _ (step_log segs s) Hw (log_add_ok cfg _ _ _ _ Hl Ha) Hd') as (w' & H1 & H2).
    - destruct (log_add_last cfg segs (st_roll s) (st_ident s) (st_rec s)) as [Hll _]; auto.
      unfold step_log. rewrite Hll. exact Hmax.
    - exists w', (step_log segs s). split; [exact H1|]. split; [exact H2|]. right.
      apply log_add_records. eapply addable_cases, Ha. }
  unfold step_piece, add_data, step_segment in *. destruct s as [roll ident r]. cbn [st_roll st_ident st_rec fst snd] in *.
  destruct roll; cbn [app] in *.
  - pose proof (log_add_header segs ident r Hl Ha) as Hl'. set (g := mkSeg _ _ _ _) in Hl'.
    assert (Hrecs : log_records (segs ++ [g]) = log_records segs) by (rewrite log_records_app; cbn; apply app_nil_r).
    assert (Hgb : seg_bytes g = segmentHeader (g_id g) (g_first g) (g_ident g)) by (unfold seg_bytes; apply app_nil_r).
    pose proof (torn_new d segs g (take k (segmentHeader (g_id g) (g_first g) (g_ident g) ++ rec_frame r)) Hl' Hd) as Ht.
    rewrite length_app, segmentHeader_length in Hk. destruct (Nat.lt_ge_cases k 32) as [Hk'|Hk'].
    + rewrite take_app_le in Ht by (rewrite segmentHeader_length; lia).
      destruct (init_cut_header w _ segs g k Hw Hl' Hk' ltac:(lia)) as (w' & H1 & H2).
      { rewrite take_app_le by (rewrite segmentHeader_length; lia). exact Ht. }
      exists w', segs. auto.
    + rewrite take_app_ge, segmentHeader_length, <- Hgb in Ht by (rewrite segmentHeader_length; lia).
      change (segmentHeader (List.last (map g_id segs) 0 + 1) (lr_lsn r) ident) with
        (segmentHeader (g_id g) (g_first g) (g_ident g)) in Hw.
      rewrite take_app_ge, segmentHeader_length, <- Hgb in Hw by (rewrite segmentHeader_length; lia).
      assert (Hnext : g_next g = lr_lsn r) by (unfold g_next; cbn; lia).
      destruct (Nat.eq_dec k 32) as [->|Hne].
      * cbn [Nat.sub firstn] in Ht, Hw. rewrite app_nil_r in Ht, Hw.
        destruct (init_fresh w _ (segs ++ [g]) Hw Hl' (torn_disk_whole _ _ _ Hl' Ht)) as (w' & H1 & H2).
        { rewrite log_last_snoc. lia. }
        exists w', (segs ++ [g]). auto.
      * destruct (init_cut_frame w _ segs g r (k - 32) Hw Hl' Hrec ltac:(lia) ltac:(lia) Ht) as (w' & H1 & H2).
        exists w', (segs ++ [g]). auto.
  - pose proof (ad_roll _ _ _ _ _ Ha) as Hne. cbn in Hne.
    destruct (snoc_cases segs) as [->|(pre & g & ->)]; [congruence|].
    rewrite last_map_app in Hw. cbn [map List.last] in Hw. rewrite log_last_snoc in Hlsn.
    pose proof (torn_append d pre g (take k (rec_frame r)) Hl Hd) as Ht.
    destruct k as [|k].
    + cbn [firstn] in Ht, Hw. rewrite app_nil_r in Ht.
      destruct (init_fresh w _ (pre ++ [g]) Hw Hl (torn_disk_whole _ _ _ Hl Ht)) as (w' & H1 & H2).
      { rewrite log_last_snoc. lia. }
      exists w', (pre ++ [g]). auto.
    + destruct (init_cut_frame w _ pre g r (S k) Hw Hl Hrec ltac:(lia) ltac:(lia) Ht) as (w' & H1 & H2).
      exists w', (pre ++ [g]). auto.
Qed.

(** ** Appending *)

Lemma steps_ok_take ss : forall segs j, steps_ok cfg segs ss -> steps_ok cfg segs (take j ss).
Proof.
  induction ss as [|s ss IH]; intros segs j Hs; [rewrite take_nil; exact Hs|].
  destruct j as [|j]; [exact I|]. destruct Hs as [Ha Hs]. split; [exact Ha | apply IH, Hs].
Qed.

Lemma pieces_take ss : forall segs j, take j (pieces segs ss) = pieces segs (take j ss).
Proof.
  induction ss as [|s ss IH]; intros segs j; [destruct j; reflexivity|].
  destruct j as [|j]; [reflexivity|]. cbn [pieces firstn]. rewrite IH. reflexivity.
Qed.

Lemma pieces_lookup ss : forall segs j p, steps_ok cfg segs ss -> pieces segs ss !! j = Some p ->
  exists s, ss !! j = Some s /\ p = step_piece (steps_log segs (take j ss)) s /\
    addable cfg (steps_log segs (take j ss)) (st_roll s) (st_ident s) (st_rec s).
Proof.
  induction ss as [|s ss IH]; intros segs j p Hs Hp; [discriminate|]. destruct Hs as [Ha Hs].
  destruct j as [|j]; cbn [pieces] in Hp.
  - injection Hp as <-. exists s. auto.
  - destruct (IH (step_log segs s) j p Hs Hp) as (s' & H1 & H2 & H3). exists s'. auto.
Qed.

(** The disk is that of [j] whole steps and a part of the next. *)
Definition cut_disk (segs : list seg) (ss : list step) (d : wal_disk) : Prop :=
  exists j s d0 k, ss !! j = Some s /\ disk_is d0 (steps_log segs (take j ss)) /\
    addable cfg (steps_log segs (take j ss)) (st_roll s) (st_ident s) (st_rec s) /\
    d = append_bytes d0 (step_piece (steps_log segs (take j ss)) s).1
          (take k (step_piece (steps_log segs (take j ss)) s).2).

Lemma write_chunks_steps wr segs ss d :
  log_ok segs -> steps_ok cfg segs ss -> disk_is d segs ->
  let '(ok, d') := write_chunks wr 0 (fold_left (fun c p => add_to_chunk c p.1 p.2) (pieces segs ss) []) d in
  if ok then disk_is d' (steps_log segs ss) else cut_disk segs ss d'.
Proof.
  intros Hl Hs Hd.
  destruct (write_chunks_spec wr (fold_left (fun c p => add_to_chunk c p.1 p.2) (pieces segs ss) []) 0 d)
    as [H|(j & n & data & k & Hj & H)]; rewrite H.
  - rewrite apply_merged. apply (steps_disk cfg); assumption.
  - destruct (merged_partial (pieces segs ss) j n data k d Hj) as (i & n' & data' & k' & Hi & Heq).
    rewrite Heq. destruct (pieces_lookup ss segs i _ Hs Hi) as (s & H1 & H2 & H3).
    exists i, s, (apply_chunks (take i (pieces segs ss)) d), k'. rewrite <- H2. split_and!; auto.
    rewrite pieces_take. apply (steps_disk cfg); auto. apply steps_ok_take, Hs.
Qed.

(** What the caller promises about a batch. *)
Record batch_ok (segs : list seg) (clock : Z -> Z) (es : list (PendingWalEntry * json)) : Prop := {
  bo_entries : Forall (fun ed => pending_ok ed.1 ed.2) es;
  bo_clock : forall n, 0 <= clock n < 2 ^ 64;
  bo_lsn : log_last 0 segs + 1 + Z.of_nat (length es) < 2 ^ 64;
  bo_segment : List.last (map g_id segs) 0 + Z.of_nat (length es) < 2 ^ 64 }.

Inductive append_result (io : append_io) (segs : list seg) (ss : list step) (n : nat) : result (Z * Z) -> wal -> Prop :=
| append_done w : wal_is w (steps_log segs ss) -> initialized (w_state w) = true ->
    append_result io segs ss n (Ok (log_last 0 segs + 1, log_last 0 segs + Z.of_nat n)) w
| append_refused e w : wal_is w segs -> append_result io segs ss n (Err e) w
| append_unsynced e w : ~ (forall i, ai_fsync io i = true) -> poisoned (w_state w) = true -> disk_is (w_disk w) (steps_log segs ss) ->
    append_result io segs ss n (Err e) w
| append_cut e w : ~ (forall i, ai_write io i = None) -> poisoned (w_state w) = true -> cut_disk segs ss (w_disk w) ->
    append_result io segs ss n (Err e) w.

Lemma write_chunks_ok wr chunks : forall i d, (forall j, wr j = None) -> (write_chunks wr i chunks d).1 = true.
Proof.
  induction chunks as [|[n data] chunks IH]; intros i d Hw; cbn [write_chunks]; [reflexivity|].
  rewrite Hw. apply IH, Hw.
Qed.

Lemma wal_is_dir w segs d' : wal_is w segs -> d_legacy d' = d_legacy (w_disk w) ->
  d_segments d' = d_segments (w_disk w) -> wal_is (mkWal (w_state w) d' (g_walSeq w)) segs.
Proof.
  intros [H1 [H2a H2b] H3 H4 H5 H6 H7] Hl Hs. split; cbn [w_state w_disk]; auto.
  split; [rewrite Hl | rewrite Hs]; assumption.
Qed.

Lemma append_cases w segs clock io force es r w' :
  wal_is w segs -> ai_init io = init_io_good -> batch_ok segs clock es -> es <> [] ->
  appendEntries cfg clock io force w es.*1 = (r, w') ->
  exists ss, steps_ok cfg segs ss /\ append_result io segs ss (length es) r w' /\
    ((exists e, r = Err e /\ ss = []) \/ map st_rec ss = batch_records clock (log_last 0 segs + 1) es).
Proof.
  intros Hw Hinit [Hes Hclock Hlsn Hseg] Hne H. unfold appendEntries in H. revert H.
  assert (Hrefuse : forall e w1, wal_is w1 segs -> (Err e, w1) = (r, w') ->
    exists ss, steps_ok cfg segs ss /\ append_result io segs ss (length es) r w' /\
      ((exists e, r = Err e /\ ss = []) \/ map st_rec ss = batch_records clock (log_last 0 segs + 1) es)).
  { intros e w1 Hw1 [= <- <-]. exists []. split; [exact I|]. split; [apply append_refused, Hw1 | left; eauto]. }
  destruct es as [|[e0 dec0] es0]; [congruence|]. set (es := (e0, dec0) :: es0) in *.
  change (es.*1) with (e0 :: es0.*1). rewrite (wi_clearing _ _ Hw).
  destruct (ai_parent io); cbn [negb]; [|apply (Hrefuse _ w Hw)]. rewrite Hinit.
  destruct (init_log w segs Hw ltac:(lia)) as (w1 & -> & Hw1 & Hi1 & Hd1).
  rewrite (wi_poisoned _ _ Hw1). destruct (ai_dirs io); cbn [negb]; [|apply (Hrefuse _ w1 Hw1)].
  set (d1 := mkDisk _ true _). cbv zeta.
  pose proof (wal_is_dir w1 segs d1 Hw1 eq_refl eq_refl) as Hw2.
  destruct (_ && negb (ai_dirsync io)); [apply (Hrefuse _ _ Hw2)|].
  change (mkPlan _ _ _ _ _) with (plan_of (w_state w1)). pose proof (wi_init _ _ Hw1 Hi1) as Hplan.
  change (e0 :: es0.*1) with (es.*1).
  destruct (plan_entries cfg clock (plan_of (w_state w1)) es.*1) as [pl|] eqn:Epl; [|apply (Hrefuse _ _ Hw2)].
  pose proof Hplan as [P1 P2 _ _ _].
  destruct (plan_entries_steps cfg clock es _ pl segs (wi_log _ _ Hw1) Hplan Hes Hclock ltac:(lia) ltac:(lia) Epl)
    as (ss & Hss & Hpl & Hrecs & Hnext & Hch).
  cbn [plan_of pl_chunks] in Hch. rewrite Hch. change (pl_lsn (plan_of (w_state w1))) with (nextLsn (w_state w1)) in *.
  pose proof (write_chunks_steps (ai_write io) segs ss d1 (wi_log _ _ Hw1) Hss (wi_disk _ _ Hw2)) as Hwr.
  pose proof (write_chunks_ok (ai_write io) (fold_left (fun c p => add_to_chunk c p.1 p.2) (pieces segs ss) []) 0 d1) as Hwok.
  destruct (write_chunks _ _ _ _) as [ok d2]. intros H. exists ss. split; [exact Hss|].
  rewrite P1 in Hrecs, Hnext. destruct ok; cbn [negb] in *.
  2:{ injection H as <- <-. split; [apply append_cut; [|reflexivity | exact Hwr] | right; exact Hrecs].
      intros Hall. specialize (Hwok Hall). discriminate. }
  destruct (_ && negb _) eqn:Ef.
  { injection H as <- <-. split; [apply append_unsynced; [|reflexivity | exact Hwr] | right; exact Hrecs].
    intros Hall. apply andb_true_iff in Ef as [_ Ef]. apply negb_true_iff in Ef.
    rewrite (proj2 (forallb_forall _ _)) in Ef by (intros; apply Hall). discriminate. }
  injection H as <- <-. split; [|right; exact Hrecs].
  assert (Hlast : u64 (pl_lsn pl - 1) = log_last 0 segs + Z.of_nat (length es)).
  { rewrite Hnext. unfold u64. rewrite Z.mod_small; [lia|]. pose proof (log_last_nonneg cfg segs (wi_log _ _ Hw)). lia. }
  rewrite Hlast, P1. apply append_done; [|exact Hi1].
  split; cbn [w_state w_disk clearing poisoned identityHash initialized activeSegment activeBytes]; auto.
  - apply (steps_log_ok cfg); [apply (wi_log _ _ Hw) | exact Hss].
  - apply (wi_clearing _ _ Hw1).
  - apply (pi_range _ _ Hpl).
  - intros _. destruct Hpl as [Q1 Q2 Q3 Q4 Q5]. split; cbn; auto.
  - rewrite Hi1. discriminate.
Qed.

(** ** What a reader sees *)

Definition collect (seen : list WalReplayRecord) (r : WalReplayRecord) : list WalReplayRecord * bool :=
  (seen ++ [r], true).

(** The status of a scan and the records it hands to its visitor. *)
Definition replayed (d : wal_disk) : WalScanStatus * list WalReplayRecord :=
  let s := scanWalFiles cfg collect scan_io_good d [] in (sc_status s, sc_acc s).

Lemma visit_all_collect l : forall seen, visit_all collect l seen = (seen ++ l, true).
Proof.
  induction l as [|r l IH]; intros seen; cbn [visit_all collect]; [rewrite app_nil_r; reflexivity|].
  rewrite IH, <- app_assoc. reflexivity.
Qed.

Lemma replayed_log d segs : log_ok segs -> disk_is d segs ->
  replayed d = (ScanOK, map replay_of (log_records segs)).
Proof.
  intros Hl Hd. pose proof (scan_log cfg collect d segs [] Hl Hd) as H. cbv zeta in H.
  rewrite visit_all_collect in H. unfold replayed. rewrite H. reflexivity.
Qed.

Lemma wal_is_replayed w segs : wal_is w segs -> replayed (w_disk w) = (ScanOK, map replay_of (log_records segs)).
Proof. intros [H1 H2 _ _ _ _ _]. apply replayed_log; assumption. Qed.

(** ** A log that failed to append *)

Lemma adopt_files_poisoned fs : forall st, poisoned (fold_left adopt_file fs st) = poisoned st.
Proof.
  induction fs as [|f fs IH]; intros st; cbn [fold_left]; [reflexivity|]. rewrite IH.
  unfold adopt_file. destruct (_ && _); reflexivity.
Qed.

Lemma adopt_scan_poisoned {V} w d (scan : wal_scan V) : poisoned (w_state (adopt_scan w d scan).2) = poisoned (w_state w).
Proof. unfold adopt_scan. destruct (negb _); [reflexivity|]. cbn. rewrite adopt_files_poisoned. reflexivity. Qed.

Lemma init_poisoned io w : poisoned (w_state (initializeLogicalWal cfg io w).2) = poisoned (w_state w).
Proof.
  unfold initializeLogicalWal. destruct (initialized _); [reflexivity|]. cbv zeta.
  destruct (bool_decide _); [|apply adopt_scan_poisoned]. destruct (last _); [|apply adopt_scan_poisoned].
  destruct (negb _); [reflexivity|]. destruct (_ && _); [reflexivity|]. destruct (negb _); [reflexivity|].
  rewrite adopt_scan_poisoned. reflexivity.
Qed.

(** A poisoned log takes no more records, whatever the storage answers. *)
Lemma poisoned_refuses w clock io force es : poisoned (w_state w) = true -> es <> [] ->
  exists e, (appendEntries cfg clock io force w es).1 = Err e.
Proof.
  intros Hp Hne. unfold appendEntries. destruct es as [|e0 es]; [congruence|].
  destruct (clearing _); [eauto|]. destruct (negb _); [eauto|].
  pose proof (init_poisoned (ai_init io) w) as Hi. destruct (initializeLogicalWal _ _ _) as [[u|e] w1]; [|eauto].
  cbn [snd] in Hi. rewrite Hi, Hp. eauto.
Qed.

(** C8: appending a batch of prepared entries to a working log of segments (no legacy
    file, files that can be read, LSNs and segment numbers that stay below 2^64) either
    returns the LSNs that follow the last record and adds exactly the records of the
    batch, in order, with these LSNs; or it fails before it has written anything and
    leaves every record readable as before and the log working; or the write or the
    synchronisation of a file failed, and then every later append is refused until
    the log is opened anew (what is found then, [append_crash_recovers] says). *)
Theorem append_adds_batch w segs clock io force es :
  wal_is w segs -> ai_init io = init_io_good -> batch_ok segs clock es -> es <> [] ->
  let '(r, w') := appendEntries cfg clock io force w es.*1 in
  match r with
  | Ok (first, last) =>
      first = log_last 0 segs + 1 /\ last = log_last 0 segs + Z.of_nat (length es) /\
      replayed (w_disk w') = (ScanOK, map replay_of (log_records segs ++ batch_records clock first es)) /\
      exists segs', wal_is w' segs'
  | Err _ =>
      replayed (w_disk w') = replayed (w_disk w) /\ wal_is w' segs \/
      (~ (forall i, ai_write io i = None) \/ ~ (forall i, ai_fsync io i = true)) /\
      forall clock' io' force' es', es' <> [] -> exists e, (appendEntries cfg clock' io' force' w' es').1 = Err e
  end.
Proof.
  intros Hw Hi Hb Hne. destruct (appendEntries _ _ _ _ _ _) as [r w'] eqn:E.
  destruct (append_cases w segs clock io force es r w' Hw Hi Hb Hne E) as (ss & Hss & Hres & Hrec).
  destruct Hres as [w' Hw' _|e w' Hw'|e w' Hf Hp _|e w' Hf Hp _].
  - destruct Hrec as [(e & He & _)|Hrec]; [discriminate|].
    split_and!; try reflexivity; [|eauto].
    rewrite (wal_is_replayed w' _ Hw'), (steps_records cfg) by exact Hss. rewrite Hrec. reflexivity.
  - left. split; [|exact Hw']. rewrite (wal_is_replayed w' _ Hw'), (wal_is_replayed w _ Hw). reflexivity.
  - right. split; [auto | intros; apply poisoned_refuses; auto].
  - right. split; [auto | intros; apply poisoned_refuses; auto].
Qed.

Lemma batch_records_length clock es : forall lsn, length (batch_records clock lsn es) = length es.
Proof. induction es as [|[e dec] es IH]; intros lsn; cbn; auto. Qed.

Lemma steps_log_last ss : forall segs, log_ok segs -> steps_ok cfg segs ss ->
  log_last 0 (steps_log segs ss) = log_last 0 segs + Z.of_nat (length ss).
Proof.
  induction ss as [|s ss IH]; intros segs Hl Hs; [symmetry; apply Z.add_0_r|]. destruct Hs as [Ha Hs].
  change (steps_log segs (s :: ss)) with (steps_log (step_log segs s) ss).
  rewrite IH by (try exact Hs; apply (log_add_ok cfg); assumption).
  destruct (log_add_last cfg segs (st_roll s) (st_ident s) (st_rec s)) as [Hll _]; auto.
  unfold step_log. rewrite Hll, (ad_lsn _ _ _ _ _ Ha). cbn [length]. lia.
Qed.

Lemma take_snoc_lookup {A} (l : list A) j x : l !! j = Some x -> take j l ++ [x] = take (S j) l.
Proof. intros H. symmetry. apply take_S_r, H. Qed.

(** Opening the disk a cut batch left: some whole records of it are there. *)
Lemma init_cut_disk w d segs ss :
  log_ok segs -> steps_ok cfg segs ss -> cut_disk segs ss d -> log_last 0 segs + Z.of_nat (length ss) + 1 < 2 ^ 64 ->
  restarted w d ->
  exists w' segs' n, initializeLogicalWal cfg init_io_good w = (Ok tt, w') /\ wal_is w' segs' /\
    log_records segs' = log_records segs ++ take n (map st_rec ss).
Proof.
  intros Hl Hs (j & s & d0 & k & Hj & Hd0 & Ha & ->) Hmax Hw.
  pose proof (steps_ok_take ss segs j Hs) as Hsj. pose proof (steps_log_ok cfg _ _ Hl Hsj) as Hlj.
  pose proof (lookup_lt_Some _ _ _ Hj) as Hlt.
  destruct (init_cut_step w d0 (steps_log segs (take j ss)) s k Hlj Hd0 Ha) as (w' & segs' & H1 & H2 & H3).
  - rewrite (ad_lsn _ _ _ _ _ Ha), steps_log_last by assumption. rewrite length_take. lia.
  - exact Hw.
  - rewrite (steps_records cfg) in H3 by exact Hsj. rewrite <- !(firstn_map st_rec) in H3.
    destruct H3 as [H3|H3].
    + exists w', segs', j. auto.
    + exists w', segs', (S j). split_and!; auto. rewrite H3, <- app_assoc. f_equal. apply take_snoc_lookup.
      change (map st_rec ss) with (st_rec <$> ss). rewrite list_lookup_fmap, Hj. reflexivity.
Qed.

(** C7: whatever happens while a batch is appended -- the directory, the write
    of any chunk after any number of bytes, or a sync fails, or the process
    dies there -- a process that opens the log afterwards succeeds, and finds
    every earlier record followed by a prefix of the batch; by all of it when
    the append had succeeded. *)
Theorem append_crash_recovers w segs clock io force es :
  wal_is w segs -> ai_init io = init_io_good -> batch_ok segs clock es -> es <> [] ->
  let '(r, w') := appendEntries cfg clock io force w es.*1 in
  exists w'' n,
    initializeLogicalWal cfg init_io_good (mkWal wal_state_new (w_disk w') (g_walSeq w')) = (Ok tt, w'') /\
    replayed (w_disk w'') =
      (ScanOK, map replay_of (log_records segs ++ take n (batch_records clock (log_last 0 segs + 1) es))) /\
    (forall lsns, r = Ok lsns -> n = length es) /\ exists segs', wal_is w'' segs'.
Proof.
  intros Hw Hinit Hb Hne. destruct (appendEntries _ _ _ _ _ _) as [r w'] eqn:E.
  destruct (append_cases w segs clock io force es r w' Hw Hinit Hb Hne E) as (ss & Hss & Hres & Hrec).
  set (w0 := mkWal wal_state_new (w_disk w') (g_walSeq w')).
  assert (Hw0 : restarted w0 (w_disk w')) by (split; reflexivity).
  pose proof (wi_log _ _ Hw) as Hl. pose proof (bo_lsn _ _ _ Hb) as Hmax.
  assert (Hfinish : forall segs' n, log_ok segs' -> disk_is (w_disk w') segs' -> log_last 0 segs' + 1 < 2 ^ 64 ->
    log_records segs' = log_records segs ++ take n (batch_records clock (log_last 0 segs + 1) es) ->
    (forall lsns, r = Ok lsns -> n = length es) ->
    exists w'' n, initializeLogicalWal cfg init_io_good w0 = (Ok tt, w'') /\
      replayed (w_disk w'') =
        (ScanOK, map replay_of (log_records segs ++ take n (batch_records clock (log_last 0 segs + 1) es))) /\
      (forall lsns, r = Ok lsns -> n = length es) /\ exists segs', wal_is w'' segs').
  { intros segs' n Hl' Hd' Hm' Hr' Hn. destruct (init_fresh w0 _ segs' Hw0 Hl' Hd' Hm') as (w'' & H1 & H2).
    exists w'', n. split_and!; eauto. rewrite (wal_is_replayed _ _ H2), Hr'. reflexivity. }
  assert (Hall : map st_rec ss = batch_records clock (log_last 0 segs + 1) es ->
    log_ok (steps_log segs ss) /\ log_last 0 (steps_log segs ss) + 1 < 2 ^ 64 /\
    log_records (steps_log segs ss) =
      log_records segs ++ take (length es) (batch_records clock (log_last 0 segs + 1) es)).
  { intros Heq. pose proof (f_equal length Heq) as Hlen. rewrite length_map, batch_records_length in Hlen.
    split; [apply (steps_log_ok cfg); assumption|]. split; [rewrite steps_log_last by assumption; lia|].
    rewrite (steps_records cfg) by exact Hss. rewrite Heq, take_ge by (rewrite batch_records_length; lia). reflexivity. }
  destruct Hrec as [(e & -> & ->)|Hrec].
  - inversion Hres as [|? ? Hw'| ? ? _ _ Hd'|? ? _ _ Hcut]; subst.
    + apply (Hfinish segs 0%nat Hl (wi_disk _ _ Hw') ltac:(lia)); [symmetry; apply app_nil_r | discriminate].
    + apply (Hfinish segs 0%nat Hl Hd' ltac:(lia)); [symmetry; apply app_nil_r | discriminate].
    + destruct Hcut as (j & s & d0 & k & Hj & _). discriminate.
  - destruct (Hall Hrec) as (A1 & A2 & A3). inversion Hres as [? Hw' Hi|? ? Hw'| ? ? _ _ Hd'|? ? _ _ Hcut]; subst.
    + apply (Hfinish _ (length es) A1 (wi_disk _ _ Hw') A2 A3). reflexivity.
    + apply (Hfinish segs 0%nat Hl (wi_disk _ _ Hw') ltac:(lia)); [symmetry; apply app_nil_r | discriminate].
    + apply (Hfinish _ (length es) A1 Hd' A2 A3). discriminate.
    + pose proof (f_equal length Hrec) as Hlen. rewrite length_map, batch_records_length in Hlen.
      destruct (init_cut_disk w0 _ segs ss Hl Hss Hcut ltac:(lia) Hw0) as (w'' & segs' & n & H1 & H2 & H3).
      exists w'', n. split_and!; eauto; [|discriminate]. rewrite (wal_is_replayed _ _ H2), H3, Hrec. reflexivity.
Qed.
End WalRecovery.
