(* ===== verification/WalEntries.v ===== *)
(** * Entries through the log

    A JSON entry that is prepared, framed and appended is the one a scan
    replays; what [WAL::log] promises its callers. *)

From S2P Require Import Prelude FileSys Decimal Json Msgpack JsonValue Checksum WalIntegrity Wal WalLog WalAppend WalRecovery.
From stdpp Require Import base list gmap strings sorting.
From Stdlib Require Import ZArith Lia.

Open Scope Z_scope.

Section WalEntries.
Context `{JT : JsonText} (cfg : wal_config).

(** ** Preparing *)

Lemma obj_find_canon k m : obj_find k (map canon_kv m) = canon <$> obj_find k m.
Proof.
  induction m as [|[k' v] m IH]; [reflexivity|]. cbn [map canon_kv obj_find fst snd].
  destruct (bytes_eqb k' k); [reflexivity | exact IH].
Qed.

Lemma as_string_canon v : as_string (canon v) = as_string v.
Proof. destruct v; try reflexivity. cbn. destruct (_ <=? _); reflexivity. Qed.

Lemma value_string_canon m k d :
  value as_string (JObject (map canon_kv m)) k d = value as_string (JObject m) k d.
Proof.
  cbn [value]. rewrite obj_find_canon. destruct (obj_find k m) as [v|]; cbn; [rewrite as_string_canon|]; reflexivity.
Qed.

(** The round trip through MessagePack keeps the namespace of an entry. *)
Lemma walIdentityHash_canon m : walIdentityHash (canon (JObject m)) = walIdentityHash (JObject m).
Proof. rewrite canon_object. unfold walIdentityHash. cbn [is_object negb]. rewrite !value_string_canon. reflexivity. Qed.

Lemma map_header_first N : 0 <= N <= U32_MAX ->
  exists c r, write_map_header N = c :: r /\ 0x80 <= byte_val c.
Proof.
  intros HN. unfold write_map_header, tagged. destruct (Z.leb_spec N 15).
  - assert (Hin : N ∈ seqZ 0 16) by (apply elem_of_seqZ; lia). apply list_elem_of_In in Hin. cbn in Hin.
    repeat destruct Hin as [<-|Hin]; try destruct Hin; (eexists _, _; split; [reflexivity | vm_compute; discriminate]).
  - destruct (Z.leb_spec N 65535); [|destruct (Z.leb_spec N U32_MAX); [|lia]];
      (eexists _, _; split; [reflexivity | vm_compute; discriminate]).
Qed.

Lemma skip_spaces_high c r : 0x80 <= byte_val c -> skip_spaces (c :: r) = c :: r.
Proof.
  intros Hc. cbn [skip_spaces]. unfold is_space.
  rewrite (proj2 (Z.eqb_neq _ _)), (proj2 (Z.leb_gt (byte_val c) 13)) by lia. rewrite andb_false_r. reflexivity.
Qed.

(** A MessagePack object does not look like text, and decodes. *)
Lemma decode_msgpack_object m : json_wf (JObject m) ->
  to_msgpack (JObject m) <> [] /\ decodeWalPayload (to_msgpack (JObject m)) = Some (canon (JObject m)).
Proof.
  intros Hwf. assert (Hlen : 0 <= Z.of_nat (length m) <= U32_MAX).
  { destruct Hwf as [Hwf _]. unfold U32_MAX. lia. }
  destruct (map_header_first _ Hlen) as (c & r & Hc & Hv).
  assert (Heq : exists r', to_msgpack (JObject m) = c :: r').
  { unfold to_msgpack. cbn [write_msgpack]. rewrite Hc. eexists. reflexivity. }
  destruct Heq as [r' Heq]. split; [rewrite Heq; discriminate|].
  unfold decodeWalPayload, looksLikeJsonText. rewrite Heq, skip_spaces_high by exact Hv.
  rewrite !(proj2 (Z.eqb_neq _ _)) by lia. cbn [orb]. rewrite <- Heq, from_to_msgpack by exact Hwf. reflexivity.
Qed.

(** A well-formed object is prepared so that a reader gets it back. *)
Lemma prepare_ok op m :
  walBinaryEncodingEnabled cfg = true -> json_wf (JObject m) -> op <> SEGMENT_HEADER ->
  exists p, preparePendingEntry cfg op (JObject m) = Some p /\ pending_ok p (canon (JObject m)) /\
    p_op p = op /\ p_entry p = JObject m /\ preparedPayload p = to_msgpack (JObject m).
Proof.
  intros Hbin Hwf Hop. destruct (decode_msgpack_object m Hwf) as [Hne Hdec].
  unfold preparePendingEntry, encodeWalPayload. rewrite Hbin. cbn [mbind option_bind].
  eexists. split; [reflexivity|]. split; [|auto].
  split; cbn [p_op preparedPayload preparedCrc preparedHasCrc p_entry]; auto.
  apply walIdentityHash_canon.
Qed.

(** ** [WAL::log] *)

Lemma frame_fits p lsn ts :
  kPreparedPayloadHeaderBytes + blen (preparedPayload p) <= Z.min (maxRecordBytes cfg) (2 ^ 32 - 1) ->
  framePreparedRecord cfg p lsn ts = Ok (rec_frame (mkLrec p lsn ts JNull)).
Proof.
  intros H. unfold framePreparedRecord. rewrite !(proj2 (Z.ltb_ge _ _)) by lia. reflexivity.
Qed.

(** Planning one entry of the right namespace and size succeeds. *)
Lemma plan_entry_total clock pl p :
  (walIdentityHash (p_entry p) = 0 \/ pl_identity pl = 0 \/ walIdentityHash (p_entry p) = pl_identity pl) ->
  kPreparedPayloadHeaderBytes + blen (preparedPayload p) <= Z.min (maxRecordBytes cfg) (2 ^ 32 - 1) ->
  exists pl', plan_entry cfg clock pl p = Ok pl'.
Proof.
  intros Hid Hsz. unfold plan_entry. rewrite frame_fits by exact Hsz.
  assert (Hg : negb (negb (walIdentityHash (p_entry p) =? 0) &&
     negb ((if pl_identity pl =? 0 then walIdentityHash (p_entry p) else pl_identity pl) =? 0) &&
     negb (walIdentityHash (p_entry p) =? (if pl_identity pl =? 0 then walIdentityHash (p_entry p) else pl_identity pl))) = true).
  { destruct Hid as [->|[->| ->]]; rewrite ?Z.eqb_refl; cbn [negb andb]; rewrite ?Z.eqb_refl, ?andb_false_r; try reflexivity.
    destruct (pl_identity pl =? 0) eqn:E; rewrite ?Z.eqb_refl, ?andb_false_r; reflexivity. }
  rewrite Hg. cbn [guard_err mbind result_bind]. eexists. reflexivity.
Qed.

(** What an entry needs to be taken by the log: a well-formed object of the
    log's namespace that fits a record, and room for one more LSN. *)
Record entry_fits (w : wal) (segs : list seg) (clock : Z -> Z) (m : object) : Prop := {
  ef_binary : walBinaryEncodingEnabled cfg = true;
  ef_wf : json_wf (JObject m);
  ef_identity : walIdentityHash (JObject m) = 0 \/ identityHash (w_state w) = 0 \/
    walIdentityHash (JObject m) = identityHash (w_state w);
  ef_size : kPreparedPayloadHeaderBytes + blen (to_msgpack (JObject m)) <= Z.min (maxRecordBytes cfg) (2 ^ 32 - 1);
  ef_clock : forall n, 0 <= clock n < 2 ^ 64;
  ef_lsn : log_last 0 segs + 2 < 2 ^ 64;
  ef_segment : List.last (map g_id segs) 0 + 1 < 2 ^ 64 }.

Lemma submit_replays w segs clock op m :
  wal_is cfg w segs -> initialized (w_state w) = true -> entry_fits w segs clock m -> op <> SEGMENT_HEADER ->
  let lsn := log_last 0 segs + 1 in
  exists w', submitPrepared cfg clock append_io_good w (preparePendingEntry cfg op (JObject m)) = (Ok (lsn, lsn), w') /\
    replayed cfg (w_disk w') =
      (ScanOK, (replayed cfg (w_disk w)).2 ++ [mkReplay op lsn (stamp (canon (JObject m)) lsn (clock lsn))]) /\
    (exists segs', wal_is cfg w' segs') /\ initialized (w_state w') = true.
Proof.
  intros Hw Hi [Hbin Hwf Hid Hsz Hclock Hmax Hmaxs] Hop0 lsn.
  destruct (prepare_ok op m Hbin Hwf Hop0) as (p & Hp & Hok & Hop & Hpe & Hpp).
  rewrite Hp. cbn [submitPrepared].
  assert (Hb : batch_ok segs clock [(p, canon (JObject m))]).
  { split; [apply Forall_singleton, Hok | exact Hclock | cbn; lia | cbn; lia]. }
  destruct (appendEntries cfg clock append_io_good false w [p]) as [r w'] eqn:E.
  destruct (append_cases cfg w segs clock append_io_good false [(p, canon (JObject m))] r w' Hw eq_refl Hb
              ltac:(discriminate) E) as (ss & Hss & Hres & Hrec).
  assert (Hr : exists v, r = Ok v).
  { unfold appendEntries in E. rewrite (wi_clearing _ _ _ Hw) in E. cbn [append_io_good ai_parent negb ai_init] in E.
    destruct (init_log cfg w segs Hw ltac:(lia)) as (w1 & Hinit & Hw1 & _ & _).
    unfold initializeLogicalWal in Hinit, E. rewrite Hi in Hinit, E. injection Hinit as <-.
    rewrite (wi_poisoned _ _ _ Hw) in E. cbn [ai_dirs ai_dirsync negb] in E. rewrite andb_false_r in E.
    change (mkPlan _ _ _ _ _) with (plan_of (w_state w)) in E. cbn [plan_entries] in E.
    destruct (plan_entry_total clock (plan_of (w_state w)) p) as [pl Hpl]; [rewrite Hpe; exact Hid | rewrite Hpp; exact Hsz |].
    rewrite Hpl in E. cbn [mbind result_bind ai_write ai_fsync] in E. rewrite write_chunks_good in E. cbn [negb] in E.
    rewrite (proj2 (forallb_forall _ _)) in E by reflexivity. rewrite andb_false_r in E.
    injection E as <- _. eauto. }
  destruct Hr as [v ->]. destruct Hrec as [(e & He & _)|Hrec]; [discriminate|].
  inversion Hres as [? Hw' Hi'| | |]; subst. exists w'. split; [|split; [|eauto]].
  - cbn [length]. reflexivity.
  - rewrite (wal_is_replayed cfg _ _ Hw'), (wal_is_replayed cfg _ _ Hw), (steps_records cfg), Hrec by exact Hss.
    rewrite map_app. cbn [snd batch_records map]. unfold replay_of at 2. cbn [lr_pending lr_lsn lr_decoded lr_ts].
    reflexivity.
Qed.

(** Logging an entry that fits succeeds: it gets the next LSN, and a scan
    replays all earlier records and then the entry, stamped with its LSN and
    time. *)
Theorem log_entry_replays w segs clock m :
  wal_is cfg w segs -> initialized (w_state w) = true -> entry_fits w segs clock m ->
  let lsn := log_last 0 segs + 1 in
  exists w', wal_log cfg clock append_io_good w (JObject m) = (Ok (lsn, lsn), w') /\
    replayed cfg (w_disk w') =
      (ScanOK, (replayed cfg (w_disk w)).2 ++ [mkReplay INSERT lsn (stamp (canon (JObject m)) lsn (clock lsn))]) /\
    (exists segs', wal_is cfg w' segs') /\ initialized (w_state w') = true.
Proof. intros Hw Hi Hf. apply submit_replays; [assumption.. | discriminate]. Qed.

Lemma canon_json_object kvs : canon (JObject (json_object kvs)) = JObject (json_object (map canon_kv kvs)).
Proof.
  rewrite canon_object. f_equal. unfold json_object.
  enough (H : forall m, map canon_kv (fold_left (fun m kv => obj_insert kv.1 kv.2 m) kvs m) =
            fold_left (fun m kv => obj_insert kv.1 kv.2 m) (map canon_kv kvs) (map canon_kv m)) by apply (H []).
  induction kvs as [|[k v] kvs IH]; intros m; [reflexivity|]. cbn [fold_left map]. rewrite IH. f_equal.
  cbn [canon_kv fst snd]. induction m as [|[k' v'] m IHm]; [reflexivity|].
  cbn [obj_insert map canon_kv fst snd]. destruct (bytes_compare k k'); cbn [map canon_kv fst snd]; try reflexivity.
  rewrite IHm. reflexivity.
Qed.

(** A batch of documents that fits is one record: after [logPutBatch] a scan
    replays all earlier records and then the batch with the documents in order. *)
Theorem put_batch_replays w segs clock u d c documents :
  wal_is cfg w segs -> initialized (w_state w) = true -> documents <> [] ->
  entry_fits w segs clock (put_batch u d c documents) ->
  let lsn := log_last 0 segs + 1 in
  exists w' m, logPutBatch cfg clock append_io_good w u d c documents = (Ok (lsn, lsn), w') /\
    replayed cfg (w_disk w') = (ScanOK, (replayed cfg (w_disk w)).2 ++ [mkReplay BATCH_COMPRESSED lsn (JObject m)]) /\
    obj_find (str "data") m = Some (JArray (map canon documents)) /\
    obj_find (str "op") m = Some (JString (str "PUT_BATCH")) /\ obj_find (str "_wal_lsn") m = Some (JUInt lsn).
Proof.
  intros Hw Hi Hne Hf lsn. unfold logPutBatch. destruct documents as [|doc docs]; [congruence|].
  destruct (submit_replays w segs clock BATCH_COMPRESSED _ Hw Hi Hf ltac:(discriminate)) as (w' & H1 & H2 & _).
  exists w'. fold lsn in H1, H2. unfold put_batch in H2 at 1. rewrite canon_json_object in H2.
  unfold stamp in H2. cbn [json_set] in H2. eexists. split; [exact H1|]. split; [exact H2|].
  rewrite !obj_find_insert_ne by discriminate. split; [|split]; [reflexivity.. | apply obj_find_insert_eq].
Qed.
End WalEntries.


(** ** Examples *)

#[local] Existing Instance nibble_text.

Definition sample_config : wal_config := mkWalConfig true true true 0 0.

Definition sample_wal : wal := mkWal (mkWalState false true false "" 1 0 0 0) (mkDisk None true ∅) 0.

Definition sample_entry : object :=
  [(str "collection", JString (str "c")); (str "db", JString (str "d")); (str "n", JInt 7)].

Lemma sample_wal_is : wal_is sample_config sample_wal [].
Proof.
  split; cbn; auto; try lia; try discriminate.
  - split; reflexivity.
  - intros _. split; cbn; auto; lia.
Qed.

Lemma sample_entry_wf : json_wf (JObject sample_entry).
Proof. vm_compute. repeat split; try discriminate; repeat constructor. Qed.

Lemma sample_clock : forall n : Z, 0 <= (fun _ : Z => 1700000000000) n < 2 ^ 64.
Proof. intros n. lia. Qed.

Lemma sample_entry_fits m :
  json_wf (JObject m) -> 26 + blen (to_msgpack (JObject m)) <= 1024 ->
  entry_fits sample_config sample_wal [] (fun _ => 1700000000000) m.
Proof. intros Hwf Hsz. split; auto; cbn; lia. Qed.

Lemma log_entry_replays_witness :
  exists w', wal_log sample_config (fun _ => 1700000000000) append_io_good sample_wal (JObject sample_entry) =
    (Ok (1, 1), w') /\ (replayed sample_config (w_disk w')).1 = ScanOK.
Proof.
  destruct (log_entry_replays sample_config sample_wal [] (fun _ => 1700000000000) sample_entry sample_wal_is
              eq_refl (sample_entry_fits _ sample_entry_wf ltac:(vm_compute; discriminate))) as (w' & H1 & H2 & _).
  exists w'. split; [exact H1 | rewrite H2; reflexivity].
Defined.

Lemma put_batch_replays_witness :
  exists w', logPutBatch sample_config (fun _ => 1700000000000) append_io_good sample_wal (str "u") (str "d") (str "c")
      [JObject sample_entry; JObject sample_entry] = (Ok (1, 1), w').
Proof.
  destruct (put_batch_replays sample_config sample_wal [] (fun _ => 1700000000000) (str "u") (str "d") (str "c")
              [JObject sample_entry; JObject sample_entry] sample_wal_is eq_refl ltac:(discriminate))
    as (w' & m & H1 & _).
  - apply sample_entry_fits; [|vm_compute; discriminate]. vm_compute. repeat split; try discriminate; repeat constructor.
  - exists w'. exact H1.
Defined.

(** Two records, the first of another [op], and the batch of an empty log. *)
Definition sample_batch : list (PendingWalEntry * json) :=
  let p op := default (mkPending op JNull [] 0 false) (preparePendingEntry sample_config op (JObject sample_entry)) in
  [(p DELETE, canon (JObject sample_entry)); (p INSERT, canon (JObject sample_entry))].

Lemma sample_batch_ok : batch_ok [] (fun _ => 1700000000000) sample_batch.
Proof.
  split; [|exact sample_clock | cbn; lia | cbn; lia].
  assert (H : forall op, op <> SEGMENT_HEADER ->
    pending_ok (default (mkPending op JNull [] 0 false) (preparePendingEntry sample_config op (JObject sample_entry)))
      (canon (JObject sample_entry))).
  { intros op Hop. destruct (prepare_ok sample_config op sample_entry eq_refl sample_entry_wf Hop) as (p & -> & Hp & _).
    exact Hp. }
  apply Forall_cons; split; [apply H; discriminate|]. apply Forall_singleton, H. discriminate.
Qed.

Lemma append_adds_batch_witness :
  let '(r, w') := appendEntries sample_config (fun _ => 1700000000000) append_io_good true sample_wal sample_batch.*1 in
  r = Ok (1, 2) /\ map rr_lsn (replayed sample_config (w_disk w')).2 = [1; 2].
Proof.
  pose proof (append_adds_batch sample_config sample_wal [] (fun _ => 1700000000000) append_io_good true sample_batch
                sample_wal_is eq_refl sample_batch_ok ltac:(discriminate)) as H.
  destruct (appendEntries _ _ _ _ _ _) as [r w'] eqn:E.
  assert (Hr : r = Ok (1, 2)).
  { apply (f_equal fst) in E. vm_compute in E. symmetry. exact E. }
  subst r. destruct H as (_ & _ & H & _). split; [reflexivity|]. rewrite H. reflexivity.
Defined.

(** The write is cut inside the second record. *)
Definition cut_io : append_io := mkAppendIo true init_io_good true true (fun _ => Some 120%nat) (fun _ => true).

Lemma append_crash_recovers_witness :
  let '(r, w') := appendEntries sample_config (fun _ => 1700000000000) cut_io true sample_wal sample_batch.*1 in
  exists w'' n, initializeLogicalWal sample_config init_io_good (mkWal wal_state_new (w_disk w') (g_walSeq w')) =
    (Ok tt, w'') /\ length (replayed sample_config (w_disk w'')).2 = Nat.min n 2.
Proof.
  pose proof (append_crash_recovers sample_config sample_wal [] (fun _ => 1700000000000) cut_io true sample_batch
                sample_wal_is eq_refl sample_batch_ok ltac:(discriminate)) as H.
  destruct (appendEntries _ _ _ _ _ _) as [r w'].
  destruct H as (w'' & n & H1 & H2 & _). exists w'', n. split; [exact H1|]. rewrite H2.
  cbn [snd]. rewrite length_map. cbn [log_records flat_map app]. rewrite length_take. reflexivity.
Defined.

(** Opening keeps the first record of it. *)
Example cut_keeps_first :
  let '(r, w') := appendEntries sample_config (fun _ => 1700000000000) cut_io true sample_wal sample_batch.*1 in
  let '(_, w'') := initializeLogicalWal sample_config init_io_good (mkWal wal_state_new (w_disk w') (g_walSeq w')) in
  (replayed sample_config (w_disk w')).1 = PARTIAL_TAIL /\
  map rr_op (replayed sample_config (w_disk w'')).2 = [DELETE] /\ nextLsn (w_state w'') = 2.
Proof. vm_compute. auto. Qed.
