(* ===== verification/WalReclaim.v ===== *)
(** * Reclaiming covered segments

    A checkpoint removes the segments whose records are all covered.  Whatever
    fails on the way, what is left is a log that ends like the old one and
    still holds every record that was not covered. *)

From S2P Require Import Prelude FileSys Decimal Json Msgpack JsonValue Checksum WalIntegrity Wal WalLog WalAppend WalRecovery WalEntries.
From stdpp Require Import base list gmap strings sorting.
From Stdlib Require Import ZArith Lia.

Open Scope Z_scope.

Section WalReclaim.
Context `{JT : JsonText} (cfg : wal_config).

(** ** Covered segments are the first ones *)

Definition seg_end (g : seg) : Z := List.last (map lr_lsn (g_recs g)) 0.

Lemma seg_end_next g : seg_ok cfg g -> g_recs g <> [] -> seg_end g = g_next g - 1.
Proof. intros Hg Hne. unfold seg_end, g_next. rewrite (lsn_run_last _ _ _ (so_run _ _ Hg) Hne). lia. Qed.

Definition covered (c highest : Z) (g : seg) : Prop := g_id g < highest /\ seg_end g <> 0 /\ seg_end g <= c.

Lemma covered_file_seg c highest g : covered_file c highest (seg_scanned g) = true <-> covered c highest g.
Proof.
  unfold covered_file, covered_legacy, seg_scanned, covered, seg_end. cbn [sf_file is_legacy sf_segmentId sf_endLsn andb orb negb].
  rewrite !andb_true_iff, negb_true_iff, Z.ltb_lt, Z.leb_le, Z.eqb_neq. tauto.
Qed.

(** Every later segment starts after this one ends. *)
Lemma log_from_first segs : forall p i l, log_from cfg p i l segs ->
  Forall (fun g => p < g_id g /\ l < g_first g) segs.
Proof.
  induction segs as [|g segs IH]; intros p i l Hl; [constructor|].
  destruct Hl as (Hg & Hp & Hf & _ & _ & Hl). constructor; [lia|].
  eapply Forall_impl; [exact (IH _ _ _ Hl)|]. cbn. intros g' [H1 H2]. unfold g_next in H2. lia.
Qed.

Lemma log_segs_ok segs : forall p i l, log_from cfg p i l segs -> Forall (seg_ok cfg) segs.
Proof.
  induction segs as [|x xs IH]; intros a b e Hl; [constructor|]. destruct Hl as (H1 & _ & _ & _ & _ & H2).
  constructor; [exact H1 | exact (IH _ _ _ H2)].
Qed.

Lemma uncovered_rest c highest g rest p i l : log_from cfg p i l (g :: rest) ->
  ~ covered c highest g -> Forall (fun g => ~ covered c highest g) rest.
Proof.
  intros Hl Hg. destruct Hl as (Hok & _ & _ & _ & Hne & Hl). pose proof (log_from_first _ _ _ _ Hl) as Hf.
  destruct rest as [|g' rest]; [constructor|]. specialize (Hne ltac:(discriminate)).
  set (rest' := g' :: rest) in *. clearbody rest'. pose proof (seg_end_next g Hok Hne) as He.
  pose proof (so_first _ _ Hok) as H0. unfold g_next in He.
  pose proof (log_segs_ok _ _ _ _ Hl) as Hoks.
  apply Forall_forall. intros x Hx (C1 & C2 & C3). rewrite Forall_forall in Hf, Hoks.
  destruct (Hf x Hx) as [F1 F2]. specialize (Hoks x Hx). apply Hg.
  assert (Hxne : g_recs x <> []) by (intros E; apply C2; unfold seg_end; rewrite E; reflexivity).
  rewrite (seg_end_next x Hoks Hxne) in C3. unfold g_next in *.
  destruct (g_recs g) as [|r rs]; [congruence|]. cbn [length] in *. unfold covered. lia.
Qed.

Lemma remove_covered_none io c highest fs d :
  Forall (fun g => ~ covered c highest g) fs -> remove_covered io c highest (map seg_scanned fs) d = (true, d).
Proof.
  induction 1 as [|g fs Hg _ IH]; [reflexivity|]. cbn [map remove_covered].
  destruct (covered_file c highest (seg_scanned g)) eqn:E; [|exact IH].
  apply covered_file_seg in E. contradiction.
Qed.

Lemma disk_is_tail d g segs p i l : 0 <= p -> log_from cfg p i l (g :: segs) -> disk_is d (g :: segs) ->
  disk_is (remove_file d (seg_file g)) segs.
Proof.
  intros Hp Hl [H1 H2]. split; [exact H1|]. cbn [remove_file seg_file d_segments]. rewrite H2.
  change (map seg_entry (g :: segs)) with ((segmentPath (g_id g), seg_bytes g) :: map seg_entry segs).
  rewrite list_to_map_cons. apply delete_insert_id, not_elem_of_list_to_map_1. rewrite paths_keys.
  pose proof (sorted_lt_NoDup _ (paths_sorted cfg _ _ _ _ Hp Hl)) as Hnd. cbn [map] in Hnd.
  apply NoDup_cons in Hnd. tauto.
Qed.

(** Removal takes a prefix of covered segments; all of them when it succeeds. *)
Lemma remove_covered_prefix io c highest segs : forall d p i l,
  0 <= p -> log_from cfg p i l segs -> disk_is d segs ->
  let '(ok, d') := remove_covered io c highest (map seg_scanned segs) d in
  exists k, disk_is d' (drop k segs) /\ Forall (covered c highest) (take k segs) /\
    (ok = true -> Forall (fun g => ~ covered c highest g) (drop k segs)) /\
    ((forall f, ri_remove io f = true) -> ok = true).
Proof.
  induction segs as [|g segs IH]; intros d p i l Hp Hl Hd.
  { exists 0%nat. cbn. repeat split; try apply Hd; constructor. }
  cbn [map remove_covered]. destruct (covered_file c highest (seg_scanned g)) eqn:E.
  - apply covered_file_seg in E. change (sf_file (seg_scanned g)) with (seg_file g).
    destruct (ri_remove io (seg_file g)) eqn:Er.
    + pose proof (disk_is_tail d g segs p i l Hp Hl Hd) as Hd'. pose proof Hl as (Hg & _ & _ & _ & _ & Hl').
      pose proof (so_id _ _ Hg).
      specialize (IH (remove_file d (seg_file g)) (g_id g) (g_ident g) (g_next g - 1) ltac:(lia) Hl' Hd').
      destruct (remove_covered _ _ _ _ _) as [ok d']. destruct IH as (k & H1 & H2 & H3 & H4).
      exists (S k). cbn [firstn drop]. split_and!; auto.
    + exists 0%nat. cbn [firstn drop]. split_and!; auto; [discriminate|].
      intros Hall. rewrite Hall in Er. discriminate.
  - assert (Hn : ~ covered c highest g) by (rewrite <- covered_file_seg, E; discriminate).
    pose proof (uncovered_rest c highest g segs p i l Hl Hn) as Hrest.
    rewrite (remove_covered_none io c highest segs d Hrest). exists 0%nat. cbn [firstn drop]. split_and!; auto.
Qed.

(** ** The highest segment *)

Lemma fold_max_sorted ids : forall a, StronglySorted Z.lt ids -> Forall (fun x => a < x) ids ->
  fold_left Z.max ids a = List.last ids a.
Proof.
  induction ids as [|x ids IH]; intros a Hs Ha; [reflexivity|]. inversion Hs as [|? ? Hs' Hx]; subst.
  apply Forall_cons in Ha as [Hax _]. cbn [fold_left]. rewrite Z.max_r by lia.
  rewrite (IH x Hs' Hx). symmetry. apply last_cons_default.
Qed.

Lemma highest_last segs : log_ok cfg segs ->
  fold_left Z.max (map sf_segmentId (map seg_scanned segs)) 0 = List.last (map g_id segs) 0.
Proof.
  intros Hl. rewrite map_map. cbn [seg_scanned sf_segmentId]. apply log_from_ids in Hl as [Hs Hall].
  apply fold_max_sorted; [exact Hs|]. apply Forall_map. eapply Forall_impl; [exact Hall|]. cbn. intros; lia.
Qed.

(** No legacy file, no anchor. *)
Lemma write_anchor_segments io c segs d : write_anchor io c (map seg_scanned segs) d = (Ok tt, d).
Proof.
  unfold write_anchor.
  assert (H : List.filter (covered_legacy c) (map seg_scanned segs) = []).
  { induction segs as [|g segs IH]; [reflexivity|]. cbn [map List.filter]. exact IH. }
  rewrite H. reflexivity.
Qed.

(** The last segment stays, so what the process knows stays true. *)
Lemma drop_keeps_last segs k c : log_ok cfg segs -> segs <> [] ->
  Forall (covered c (List.last (map g_id segs) 0)) (take k segs) -> (k < length segs)%nat.
Proof.
  intros Hl Hne Hc. destruct (Nat.lt_ge_cases k (length segs)) as [H|H]; [exact H|]. exfalso.
  rewrite take_ge in Hc by exact H. destruct (snoc_cases segs) as [->|(pre & g & ->)]; [congruence|].
  apply Forall_app in Hc as [_ Hc]. apply Forall_singleton in Hc as [Hc _].
  rewrite last_map_app in Hc. cbn in Hc. lia.
Qed.

Lemma last_drop {A} (f : A -> Z) (l : list A) k d : (k < length l)%nat ->
  List.last (map f (drop k l)) d = List.last (map f l) d.
Proof.
  intros Hk. destruct (snoc_cases l) as [->|(pre & x & ->)]; [cbn in Hk; lia|].
  rewrite length_app in Hk. cbn [length] in Hk. rewrite drop_app_le by lia. rewrite !last_map_app. reflexivity.
Qed.

Lemma log_ok_drop segs k : log_ok cfg segs -> log_ok cfg (drop k segs).
Proof.
  intros Hl. rewrite <- (take_drop k segs) in Hl. apply log_from_app in Hl as (H1 & _ & H2).
  eapply log_from_weaken; [exact H2 | |].
  - apply (log_ids_nonneg cfg), H1.
  - apply (log_last_nonneg cfg), H1.
Qed.

Definition mark_stale (st : LogicalWalState) (stale : bool) : LogicalWalState :=
  mkWalState (clearing st) (if stale then false else initialized st) (poisoned st) (ws_error st) (nextLsn st)
    (activeSegment st) (activeBytes st) (identityHash st).

Lemma wal_is_drop w segs k stale d seq :
  wal_is cfg w segs -> (segs <> [] -> (k < length segs)%nat) -> disk_is d (drop k segs) ->
  wal_is cfg (mkWal (mark_stale (w_state w) stale) d seq) (drop k segs).
Proof.
  intros [H1 H2 H3 H4 H5 H6 H7] Hk Hd.
  assert (Hlast : forall (f : seg -> Z), List.last (map f (drop k segs)) 0 = List.last (map f segs) 0).
  { intros f. destruct segs as [|g segs]; [rewrite drop_nil; reflexivity|]. apply last_drop, Hk. discriminate. }
  assert (Hnil : drop k segs = [] -> segs = []).
  { intros Hn. destruct segs as [|g segs]; [reflexivity|]. specialize (Hk ltac:(discriminate)).
    apply (f_equal length) in Hn. rewrite length_drop in Hn. cbn [length] in *. lia. }
  split; cbn [w_state w_disk mark_stale clearing poisoned identityHash initialized activeSegment activeBytes]; auto.
  - apply log_ok_drop, H1.
  - destruct stale; [discriminate|]. intros Hi. specialize (H6 Hi). destruct H6 as [P1 P2 P3 P4 P5].
    split; cbn in *; unfold log_last in *; rewrite ?Hlast; auto.
  - intros Hs. rewrite Hlast. destruct (initialized (w_state w)) eqn:Ei.
    + destruct (H6 eq_refl) as [_ P2 P3 _ _]. cbn in P2, P3. pose proof (log_ids_nonneg cfg segs H1).
      split; [lia|]. intros Hn. rewrite P3, (Hnil Hn). reflexivity.
    + destruct (H7 eq_refl) as [A1 A2]. auto.
Qed.

(** What a checkpoint promises, [k] segments being gone. *)
Definition reclaimed (segs : list seg) (coveredLsn : Z) (io : reclaim_io) (r : result unit) (w' : wal) (k : nat) : Prop :=
  wal_is cfg w' (drop k segs) /\ log_last 0 (drop k segs) = log_last 0 segs /\
  Forall (fun rec => lr_lsn rec <= coveredLsn) (log_records (take k segs)) /\
  replayed cfg (w_disk w') = (ScanOK, map replay_of (log_records (drop k segs))) /\
  ((forall f, ri_remove io f = true) -> ri_dirsync io = true -> ri_parentsync io = true -> r = Ok tt) /\
  (r = Ok tt -> Forall (fun g => coveredLsn < g_next g - 1) (removelast (drop k segs))).

Lemma covered_records c highest g : seg_ok cfg g -> covered c highest g -> Forall (fun r => lr_lsn r <= c) (g_recs g).
Proof.
  intros Hg (_ & Hne & Hc). assert (Hr : g_recs g <> []) by (intros E; apply Hne; unfold seg_end; rewrite E; reflexivity).
  rewrite (seg_end_next g Hg Hr) in Hc. unfold g_next in Hc. pose proof (so_run _ _ Hg) as Hrun.
  revert Hrun Hc. generalize (g_first g). induction (g_recs g) as [|r rs IH]; intros a Hrun Hc; [constructor|].
  destruct Hrun as [Ha Hrun]. cbn [length] in Hc. constructor; [lia|]. destruct rs as [|r' rs]; [constructor|].
  apply (IH ltac:(discriminate) (a + 1) Hrun). lia.
Qed.

(** Before the last segment, not covered means it ends later. *)
Lemma uncovered_ends segs c : log_ok cfg segs -> 
  Forall (fun g => ~ covered c (List.last (map g_id segs) 0) g) segs ->
  Forall (fun g => c < g_next g - 1) (removelast segs).
Proof.
  intros Hl Hn. destruct (snoc_cases segs) as [->|(pre & g & ->)]; [constructor|].
  rewrite removelast_last. apply Forall_app in Hn as [Hn _]. pose proof (log_from_ids cfg _ _ _ _ Hl) as [Hs _].
  apply log_from_app in Hl as (Hpre & Hne & _). specialize (Hne ltac:(discriminate)).
  rewrite map_app in Hs. rewrite last_map_app in Hn. cbn [map List.last] in Hn, Hs.
  pose proof (log_segs_ok pre _ _ _ Hpre) as Hok. rewrite Forall_forall in Hn, Hne, Hok |- *.
  intros x Hx. pose proof (Hn x Hx) as Hx1. pose proof (Hok x Hx) as Hokx.
  assert (Hlt : g_id x < g_id g).
  { apply (StronglySorted_app_1_elem_of _ _ _ _ (g_id g) Hs); [|left].
    apply list_elem_of_In, in_map_iff. exists x. split; [reflexivity | apply list_elem_of_In, Hx]. }
  pose proof (seg_end_next x Hokx (Hne x Hx)) as He. pose proof (so_first _ _ Hokx). specialize (Hne x Hx).
  unfold covered in Hx1. unfold g_next in *. destruct (g_recs x); [congruence|]. cbn [length] in *.
  destruct (Z.lt_ge_cases c (seg_end x)); [lia|]. exfalso. apply Hx1. lia.
Qed.

Lemma reclaimed_intro segs c io r w stale d k ok highest :
  wal_is cfg w segs -> highest = List.last (map g_id segs) 0 ->
  (segs <> [] -> (k < length segs)%nat) -> disk_is d (drop k segs) ->
  Forall (covered c highest) (take k segs) ->
  (ok = true -> Forall (fun g => ~ covered c highest g) (drop k segs)) ->
  ((forall f, ri_remove io f = true) -> ri_dirsync io = true -> ri_parentsync io = true -> r = Ok tt) ->
  (r = Ok tt -> ok = true) ->
  reclaimed segs c io r (mkWal (mark_stale (w_state w) stale) d (g_walSeq w)) k.
Proof.
  intros Hw -> Hk Hd Hcov Hnone Hr Hok. pose proof (wal_is_drop w segs k stale d (g_walSeq w) Hw Hk Hd) as Hw'.
  assert (Hlast : forall f : seg -> Z, List.last (map f (drop k segs)) 0 = List.last (map f segs) 0).
  { intros f. destruct segs as [|g segs]; [rewrite drop_nil; reflexivity|]. apply last_drop, Hk. discriminate. }
  split; [exact Hw'|]. split; [unfold log_last; apply Hlast|]. split; [|split; [|split]].
  - pose proof (log_segs_ok segs _ _ _ (wi_log _ _ _ Hw)) as Hall. rewrite <- (take_drop k segs) in Hall.
    apply Forall_app in Hall as [Hall _]. unfold log_records. revert Hcov Hall. generalize (take k segs). clear.
    induction l as [|g l IH]; intros Hc Ha; [constructor|]. apply Forall_cons in Hc as [Hc1 Hc]. apply Forall_cons in Ha as [Ha1 Ha].
    cbn [flat_map]. apply Forall_app. split; [eapply covered_records; eassumption | apply IH; assumption].
  - apply (wal_is_replayed cfg _ _ Hw').
  - exact Hr.
  - intros E. specialize (Hnone (Hok E)). apply uncovered_ends; [apply (wi_log _ _ _ Hw')|]. rewrite Hlast. exact Hnone.
Qed.

Lemma reclaim_cases io w segs coveredLsn :
  wal_is cfg w segs -> ri_scan io = scan_io_good ->
  let '(r, w') := reclaimThrough cfg io w coveredLsn in
  exists k, reclaimed segs coveredLsn io r w' k.
Proof.
  intros Hw Hscan. pose proof (wi_log _ _ _ Hw) as Hl. pose proof (wi_disk _ _ _ Hw) as Hd.
  unfold reclaimThrough. rewrite Hscan, (scan_log_all cfg _ segs Hl Hd).
  cbn [scan_done_all scan_start sc_status sc_files app]. rewrite bool_decide_eq_true_2 by reflexivity. cbn [negb].
  rewrite (highest_last segs Hl), write_anchor_segments.
  pose proof (remove_covered_prefix io coveredLsn (List.last (map g_id segs) 0) segs (w_disk w) 0 0 0 ltac:(lia) Hl Hd) as H.
  destruct (remove_covered _ _ _ _ _) as [ok d']. destruct H as (k & Hd' & Hcov & Hnone & Hok).
  assert (Hk : segs <> [] -> (k < length segs)%nat) by (intros Hne; eapply drop_keeps_last; eassumption).
  assert (Hdone : forall (r : result unit) stale,
    ((forall f, ri_remove io f = true) -> ri_dirsync io = true -> ri_parentsync io = true -> r = Ok tt) ->
    (r = Ok tt -> ok = true) ->
    reclaimed segs coveredLsn io r (mkWal (mark_stale (w_state w) stale) d' (g_walSeq w)) k).
  { intros r stale Hr Hr'. apply (reclaimed_intro segs coveredLsn io r w stale d' k ok (List.last (map g_id segs) 0)); auto. }
  assert (Hsame : w_state w = mark_stale (w_state w) false) by (destruct (w_state w); reflexivity).
  destruct ok; cbn [negb].
  2:{ rewrite Hsame. exists k. apply Hdone; [|discriminate]. intros A _ _. specialize (Hok A). discriminate. }
  destruct (d_dir d' && negb (ri_dirsync io)) eqn:E1.
  { rewrite Hsame. exists k. apply Hdone; [|discriminate]. intros _ A _. rewrite A, andb_false_r in E1. discriminate. }
  destruct (ri_parentsync io) eqn:E2; cbn [negb].
  2:{ rewrite Hsame. exists k. apply Hdone; [|discriminate]. discriminate. }
  exists k. apply (Hdone (Ok tt) true); auto.
Qed.

(** ** A log that is a legacy file only *)

(** What a turn of a scan keeps of the file it started with. *)
Definition same_file (m m' : ScannedWalFile) : Prop :=
  sf_file m' = sf_file m /\ sf_segmentId m' = sf_segmentId m /\
  (0 <= sf_identityHash m < 2 ^ 64 -> 0 <= sf_identityHash m' < 2 ^ 64).

Lemma same_file_trans m1 m2 m3 : same_file m1 m2 -> same_file m2 m3 -> same_file m1 m3.
Proof. intros (A1 & A2 & A3) (B1 & B2 & B3). split_and!; [congruence | congruence | auto]. Qed.

Lemma legacy_identity_same m e m' : legacy_identity m (walIdentityHash e) = Some m' -> same_file m m'.
Proof.
  unfold legacy_identity. pose proof (walIdentityHash_range e).
  destruct (_ =? 0); [intros [= <-]; split_and!; auto|]. destruct (negb _); [discriminate|].
  intros [= <-]. split_and!; cbn; auto. destruct (_ =? 0); auto.
Qed.

(** A turn ends with the same file, or the scan failed. *)
Definition turn_ok {V} (m : ScannedWalFile) (s : wal_scan V) (r : wal_scan V * ScannedWalFile + wal_scan V) : Prop :=
  match r with
  | inl (s', m') => same_file m m' /\ sc_files s' = sc_files s
  | inr s' => sc_status s' <> ScanOK
  end.

Lemma turn_stops {V} m (s : wal_scan V) : turn_ok m s (inl (s, m)).
Proof. split; [split_and!|]; auto. Qed.

Lemma turn_after {V} m m1 (s s1 : wal_scan V) r :
  same_file m m1 -> sc_files s1 = sc_files s -> turn_ok m1 s1 r -> turn_ok m s r.
Proof.
  intros Hm Hf. destruct r as [[s' m']|s']; [|auto]. intros [H1 H2]. split; [eauto using same_file_trans | congruence].
Qed.

Lemma torn_not_ok final : torn final <> ScanOK.
Proof. destruct final; discriminate. Qed.

#[local] Hint Resolve turn_stops torn_not_ok : core.
#[local] Hint Extern 1 (turn_ok _ _ (inr _)) => (cbn; first [discriminate | apply torn_not_ok]) : core.

Lemma scan_frames_turn {V} fuel final size : forall cur first m (s : wal_scan V),
  turn_ok m s (scan_frames cfg no_visitor fuel final size cur first m s).
Proof.
  induction fuel as [|fuel IH]; intros cur first m s; cbn [scan_frames]; [auto|].
  destruct cur as [|op cur]; [auto|]. destruct (read_le 4 cur) as [[n cur']|]; [|auto].
  destruct (frame_op op); [|auto]. destruct (_ || _); [auto|]. destruct (take_bytes _ _) as [[payload rest]|]; [|auto].
  destruct (decodeRecord payload) as [entry|]; [|auto]. cbv zeta.
  destruct (if is_legacy _ then _ else _) as [m1|] eqn:El; [|auto].
  assert (H1 : same_file m m1).
  { destruct (is_legacy _); [eapply legacy_identity_same, El | injection El as <-; split_and!; auto]. }
  destruct (readEntryLsn _ _ _); [|auto]. destruct (_ || _ || _ || _); [auto|].
  cbn [take_record no_visitor]. eapply turn_after; [| |apply IH]; [|reflexivity].
  eapply same_file_trans; [exact H1|]. split_and!; auto.
Qed.

Lemma scan_json_turn {V} fuel final size : forall cur m (s : wal_scan V),
  turn_ok m s (scan_json no_visitor fuel final size cur m s).
Proof.
  induction fuel as [|fuel IH]; intros cur m s; cbn [scan_json]; [auto|].
  destruct (getline cur) as [[[|c line] rest]|]; [apply IH | | auto].
  destruct (json_parse _) as [wrapper|]; [|auto]. destruct (negb _); [auto|].
  destruct (line_checksum wrapper); [auto|]. cbv zeta.
  destruct (legacy_identity _ _) as [m1|] eqn:El; [|auto]. destruct (_ || _); [auto|].
  apply legacy_identity_same in El. cbn [take_record no_visitor]. eapply turn_after; [| |apply IH]; [|reflexivity].
  eapply same_file_trans; [exact El|]. split_and!; auto.
Qed.

(** The process works on a log that is one legacy file, without segments. *)
Record legacy_only (w : wal) : Prop := {
  lo_legacy : is_Some (d_legacy (w_disk w));
  lo_segments : d_segments (w_disk w) = ∅;
  lo_clearing : clearing (w_state w) = false;
  lo_poisoned : poisoned (w_state w) = false;
  lo_range : 0 <= identityHash (w_state w) < 2 ^ 64;
  lo_active : activeSegment (w_state w) = 0 }.

Lemma legacy_scan_file w : legacy_only w -> let s := scanWalFiles cfg no_visitor scan_io_good (w_disk w) tt in
  sc_status s = ScanOK -> (exists m, sc_files s = [m] /\ sf_file m = WLegacy /\ sf_segmentId m = 0 /\ 0 <= sf_identityHash m < 2 ^ 64).
Proof.
  intros [[data Hd] Hs _ _ _ _]. cbv zeta. unfold scanWalFiles, physicalFiles, sortedSegmentFiles.
  rewrite Hd, Hs, map_to_list_empty. cbn [si_exists si_type si_list scan_io_good negb]. cbn [fmap list_fmap List.filter].
  change (merge_sort bytes_le []) with (@nil bytes). cbn [map app scan_files]. cbn [si_open scan_io_good wal_contents]. rewrite Hd. cbv zeta.
  assert (Hm : 0 <= sf_identityHash (mkScanned WLegacy 0 0 0 0 0) < 2 ^ 64) by (cbn; lia).
  assert (Hgo : forall r : wal_scan unit * ScannedWalFile + wal_scan unit,
    turn_ok (mkScanned WLegacy 0 0 0 0 0) (scan_start tt) r ->
    sc_status match r with inl (s, m) => finish_file s m | inr s => s end = ScanOK ->
    exists m, sc_files match r with inl (s, m) => finish_file s m | inr s => s end = [m] /\
      sf_file m = WLegacy /\ sf_segmentId m = 0 /\ 0 <= sf_identityHash m < 2 ^ 64).
  { intros [[s m]|s] H1 H2; [|destruct (H1 H2)]. destruct H1 as [(F1 & F2 & F3) F4].
    exists m. cbn [finish_file sc_files]. rewrite F4. split_and!; auto; apply F3, Hm. }
  destruct (looksLikeJsonLines data); (apply Hgo; [apply scan_json_turn || apply scan_frames_turn]).
Qed.

(** Every call of the checkpoint is answered. *)
Definition reclaim_answers (io : reclaim_io) : Prop :=
  ri_mkdir io = true /\ ri_mkdirsync io = true /\ ri_anchor io = None /\ ri_anchorsync io = true /\
  (forall f, ri_remove io f = true) /\ ri_dirsync io = true /\ ri_parentsync io = true.

(** The segment without records that keeps the next LSN. *)
Definition anchor_seg (coveredLsn : Z) (m : ScannedWalFile) : seg := mkSeg 1 (coveredLsn + 1) (sf_identityHash m) [].

(** What a checkpoint does to a legacy file [m]: one that ends within the
    covered range is replaced by the anchor, another one stays. *)
Definition legacy_reclaimed (w : wal) (coveredLsn : Z) (m : ScannedWalFile) (r : result unit) (w' : wal) : Prop :=
  if covered_legacy coveredLsn m
  then r = Ok tt /\ wal_is cfg w' [anchor_seg coveredLsn m] /\ log_last 0 [anchor_seg coveredLsn m] = coveredLsn /\
       replayed cfg (w_disk w') = (ScanOK, [])
  else r = Ok tt /\ w_disk w' = w_disk w.

Lemma anchor_log c m : 0 <= c < U64_MAX -> 0 <= sf_identityHash m < 2 ^ 64 -> log_ok cfg [anchor_seg c m].
Proof.
  intros Hc Hm. unfold U64_MAX in Hc. cbn. split_and!; auto; try lia; try discriminate.
  split; cbn; auto; lia.
Qed.

Lemma reclaim_legacy io w c m : ri_scan io = scan_io_good -> legacy_only w -> reclaim_answers io -> 0 <= c < U64_MAX ->
  let scan := scanWalFiles cfg no_visitor scan_io_good (w_disk w) tt in
  sc_status scan = ScanOK -> sc_files scan = [m] ->
  let '(r, w') := reclaimThrough cfg io w c in legacy_reclaimed w c m r w'.
Proof.
  intros Hscan Hw (A1 & A2 & A3 & A4 & A5 & A6 & A7) Hc scan Hok Hfiles.
  destruct (legacy_scan_file w Hw Hok) as (m' & Hf & Hl & Hi & Hr). fold scan in Hf.
  rewrite Hfiles in Hf. injection Hf as <-.
  unfold reclaimThrough. rewrite Hscan. fold scan. rewrite Hok, Hfiles.
  rewrite bool_decide_eq_true_2 by reflexivity. cbn [negb map fold_left]. rewrite Hi.
  unfold write_anchor, legacy_reclaimed. cbn [map fold_left List.filter]. rewrite Hi. change (Z.max 0 0) with 0.
  assert (Hcf : covered_file c 0 m = covered_legacy c m).
  { unfold covered_file. rewrite Hl. cbn [is_legacy negb andb]. apply orb_false_r. }
  destruct (covered_legacy c m) eqn:Ec; cbn [last remove_covered Z.eqb negb]; rewrite Hcf.
  2:{ cbn [negb]. rewrite A6, A7, andb_false_r. split; reflexivity. }
  destruct (Z.eqb_spec c U64_MAX); [lia|]. rewrite A1, A2, A3, A4, andb_false_r, A5, Hl. cbn [negb remove_file].
  cbn [d_dir append_bytes write_segment]. rewrite A6, A7. cbn [negb andb].
  assert (Hlog : log_ok cfg [anchor_seg c m]) by (apply anchor_log; auto).
  destruct Hw as [_ W2 W3 W4 W5 W6].
  match goal with |- _ /\ wal_is cfg ?w' _ /\ _ => assert (Hw' : wal_is cfg w' [anchor_seg c m]) end.
  { split; cbn [w_state w_disk clearing poisoned identityHash initialized activeSegment activeBytes map List.last anchor_seg g_id]; auto.
    - split; [reflexivity|]. cbn [d_segments append_bytes write_segment]. rewrite W2, lookup_empty.
      unfold seg_entry, seg_bytes, anchor_seg.
      cbn [default map list_to_map g_id g_first g_ident g_recs flat_map foldr fst snd from_option id app].
      rewrite app_nil_r. reflexivity.
    - discriminate.
    - intros _. rewrite W6. split; [lia|discriminate]. }
  split_and!; auto; [unfold log_last, g_next; cbn; lia|].
  rewrite (wal_is_replayed cfg _ _ Hw'). reflexivity.
Qed.

(** C9: a checkpoint of a log of segments (there is no legacy file) keeps the log
    working, whichever of its removals and synchronisations fails, given that the scan
    it starts with can read the files: some first segments are gone, every record in
    them was covered, the last segment and so the next LSN are kept, and a scan
    replays all other records; when nothing fails, only the last segment can still be
    wholly covered.  A log that is one readable legacy file, when every call is answered,
    is kept as it is unless it ends within the covered range; then the file is
    replaced by a segment without records, from which the log goes on after
    the covered LSN.  (When the anchor cannot be written or synchronised the log does
    not survive: the example [failed_anchor_breaks_log].) *)
Theorem reclaim_keeps_uncovered io w coveredLsn :
  ri_scan io = scan_io_good ->
  let '(r, w') := reclaimThrough cfg io w coveredLsn in
  (forall segs, wal_is cfg w segs -> exists k, reclaimed segs coveredLsn io r w' k) /\
  (forall m, legacy_only w -> reclaim_answers io -> 0 <= coveredLsn < U64_MAX ->
     let scan := scanWalFiles cfg no_visitor scan_io_good (w_disk w) tt in
     sc_status scan = ScanOK -> sc_files scan = [m] -> legacy_reclaimed w coveredLsn m r w').
Proof.
  intros Hscan. destruct (reclaimThrough cfg io w coveredLsn) as [r w'] eqn:E. split.
  - intros segs Hw. pose proof (reclaim_cases io w segs coveredLsn Hw Hscan) as H. rewrite E in H. exact H.
  - intros m Hw Ha Hc scan Hok Hf. pose proof (reclaim_legacy io w coveredLsn m Hscan Hw Ha Hc Hok Hf) as H.
    rewrite E in H. exact H.
Qed.
End WalReclaim.

(** ** Example *)

#[local] Existing Instance nibble_text.

Definition sample_rec (lsn : Z) : lrec :=
  mkLrec (default (mkPending INSERT JNull [] 0 false) (preparePendingEntry sample_config INSERT (JObject sample_entry)))
    lsn 5 (canon (JObject sample_entry)).

Definition sample_seg (id : Z) : seg := mkSeg id id (walIdentityHash (JObject sample_entry)) [sample_rec id].

Definition sample_segs : list seg := [sample_seg 1; sample_seg 2; sample_seg 3].

Lemma sample_seg_ok id : 0 < id < 2 ^ 64 -> seg_ok sample_config (sample_seg id).
Proof.
  intros Hid. destruct (prepare_ok sample_config INSERT sample_entry eq_refl sample_entry_wf ltac:(discriminate))
    as (p & Hp & Hok & _ & Hpe & Hpp).
  split; cbn [sample_seg g_id g_first g_ident g_recs]; try lia.
  - pose proof (walIdentityHash_range (JObject sample_entry)). lia.
  - apply Forall_singleton. unfold sample_rec. rewrite Hp. change (default _ (Some p)) with p.
    split; cbn [lr_pending lr_decoded lr_lsn lr_ts]; [exact Hok | | | lia | lia];
      rewrite Hpp; vm_compute; [discriminate | reflexivity].
  - apply Forall_singleton. unfold ident_ok, sample_rec. rewrite Hp. change (default _ (Some p)) with p. cbn [lr_pending]. rewrite Hpe. auto.
  - cbn. auto.
Qed.

Lemma sample_segs_ok : log_ok sample_config sample_segs.
Proof.
  unfold log_ok, sample_segs. cbn [log_from].
  split_and!; try (apply sample_seg_ok; lia); try discriminate; unfold g_next; cbn; auto; lia.
Qed.

Definition sample_log : wal := mkWal wal_state_new (mkDisk None true (list_to_map (map seg_entry sample_segs))) 0.

Lemma sample_log_is : wal_is sample_config sample_log sample_segs.
Proof.
  split; cbn; auto; try lia; try discriminate.
  - exact sample_segs_ok.
  - split; reflexivity.
Qed.

(** The legacy form of the same log: the frames of its records in one file. *)
Definition sample_legacy : wal :=
  mkWal wal_state_new (mkDisk (Some (flat_map (flat_map rec_frame) (map g_recs sample_segs))) false ∅) 0.

Lemma sample_legacy_is : legacy_only sample_legacy.
Proof. split; cbn; auto; try lia; eauto. Qed.

Lemma reclaim_keeps_uncovered_witness :
  (let '(r, w') := reclaimThrough sample_config reclaim_io_good sample_log 2 in
   exists k, log_last 0 (drop k sample_segs) = 3 /\ (replayed sample_config (w_disk w')).1 = ScanOK) /\
  (let '(r, w') := reclaimThrough sample_config reclaim_io_good sample_legacy 3 in
   r = Ok tt /\ replayed sample_config (w_disk w') = (ScanOK, [])).
Proof.
  split.
  - pose proof (reclaim_keeps_uncovered sample_config reclaim_io_good sample_log 2 eq_refl) as H.
    destruct (reclaimThrough _ _ _ _) as [r w']. destruct H as [H _].
    destruct (H sample_segs sample_log_is) as (k & _ & H2 & _ & H4 & _). exists k. rewrite H2, H4. split; reflexivity.
  - pose proof (reclaim_keeps_uncovered sample_config reclaim_io_good sample_legacy 3 eq_refl) as H.
    destruct (reclaimThrough _ _ _ _) as [r w']. destruct H as [_ H].
    assert (Hr : reclaim_answers reclaim_io_good) by (unfold reclaim_answers; cbn; auto 10).
    assert (Hc : 0 <= 3 < U64_MAX) by (vm_compute; split; congruence).
    remember (hd (mkScanned WLegacy 0 0 0 0 0) (sc_files (scanWalFiles sample_config no_visitor scan_io_good (w_disk sample_legacy) tt))) as m eqn:Em.
    specialize (H m sample_legacy_is Hr Hc). vm_compute in Em. subst m.
    destruct (H ltac:(vm_compute; reflexivity) ltac:(vm_compute; reflexivity)) as (H1 & _ & _ & H4). auto.
Defined.

(** Only the record of the third segment is left. *)
Example reclaim_sample :
  map rr_lsn (replayed sample_config (w_disk (reclaimThrough sample_config reclaim_io_good sample_log 2).2)).2 = [3].
Proof. vm_compute. reflexivity. Qed.

(** The anchor of a covered legacy file is written but cannot be synchronised:
    the checkpoint fails and leaves it in place.  A process that has appended nothing
    to segments yet takes its next record for segment 1 too, and appends a second
    header and the record to that file: the write is acknowledged and the log is
    corrupt. *)
Example failed_anchor_breaks_log :
  let started := (initializeLogicalWal sample_config init_io_good sample_legacy).2 in
  let failing := mkReclaimIo scan_io_good true true None false (fun _ => true) true true in
  let '(r, w1) := reclaimThrough sample_config failing started 3 in
  let '(ack, w2) := appendEntries sample_config (fun _ => 7) append_io_good false w1 [lr_pending (sample_rec 4)] in
  r = Err "cannot persist checkpoint WAL LSN anchor" /\ ack = Ok (4, 4) /\ (replayed sample_config (w_disk w2)).1 = CORRUPT.
Proof. vm_compute. auto. Qed.
