(* ===== verification/WalScan.v ===== *)
(** * Scanning any disk

    What a scan hands to its visitor whatever the files contain. *)

From S2P Require Import Prelude FileSys Decimal Json Msgpack JsonValue Checksum WalIntegrity Wal WalLog WalAppend WalRecovery WalEntries WalReclaim.
From stdpp Require Import base list gmap strings sorting.
From Stdlib Require Import ZArith Lia.

Open Scope Z_scope.

Section WalScan.
Context `{JT : JsonText} (cfg : wal_config).

(** The records seen so far have increasing LSNs up to the last one. *)
Record scan_inv (s : wal_scan (list WalReplayRecord)) : Prop := {
  si_sorted : StronglySorted Z.lt (map rr_lsn (sc_acc s));
  si_bound : Forall (fun r => 0 < rr_lsn r <= sc_lastLsn s) (sc_acc s);
  si_last : 0 <= sc_lastLsn s;
  si_count : sc_records s = Z.of_nat (length (sc_acc s)) }.

Lemma scan_inv_fail s status e : scan_inv s -> scan_inv (setScanFailure s status e).
Proof. intros [H1 H2 H3 H4]. split; assumption. Qed.

Lemma scan_inv_file_fail s m status e : scan_inv s -> scan_inv (setFileScanFailure s m status e).
Proof. intros [H1 H2 H3 H4]. unfold setFileScanFailure. destruct (bool_decide _); split; assumption. Qed.

Lemma scan_inv_finish s m : scan_inv s -> scan_inv (finish_file s m).
Proof.
  intros [H1 H2 H3 H4]. unfold finish_file. split; cbn [sc_acc sc_lastLsn sc_records]; auto.
  - eapply Forall_impl; [exact H2|]. cbn. intros r Hr. destruct (_ && _); lia.
  - destruct (_ && _); lia.
Qed.

Lemma sorted_snoc l x : StronglySorted Z.lt l -> Forall (fun y => y < x) l -> StronglySorted Z.lt (l ++ [x]).
Proof.
  intros Hs Hx. apply StronglySorted_app_2; [|exact Hs | repeat constructor].
  intros a b Ha Hb. apply list_elem_of_singleton in Hb as ->. rewrite Forall_forall in Hx. exact (Hx a Ha).
Qed.

Lemma scan_inv_take s m lsn vb op e : scan_inv s -> sc_lastLsn s < lsn ->
  match take_record collect s m lsn vb op e with inl (s', _) => scan_inv s' | inr s' => scan_inv s' end.
Proof.
  intros [H1 H2 H3 H4] Hlt. unfold take_record, collect.
  split; cbn [sc_acc sc_lastLsn sc_records]; try lia.
  - rewrite map_app. apply sorted_snoc; [exact H1|]. apply Forall_map. eapply Forall_impl; [exact H2|]. cbn. intros; lia.
  - apply Forall_app. split; [|apply Forall_singleton; cbn; lia]. eapply Forall_impl; [exact H2|]. cbn. intros; lia.
  - rewrite length_app. cbn [length]. lia.
Qed.

Definition outcome_inv (r : (wal_scan (list WalReplayRecord) * ScannedWalFile) + wal_scan (list WalReplayRecord)) : Prop :=
  match r with inl (s, _) => scan_inv s | inr s => scan_inv s end.

Create HintDb wal_scan.

#[local] Hint Resolve scan_inv_fail scan_inv_file_fail : wal_scan.

(** A test that found the LSN acceptable. *)
Lemma lsn_accepted a b c last lsn : (lsn =? 0) || (lsn <=? last) || a || b = c -> c = false -> last < lsn.
Proof. intros <- H. rewrite !orb_false_iff, Z.leb_gt in H. lia. Qed.

Lemma scan_inv_frames fuel final size : forall cur first m s,
  scan_inv s -> outcome_inv (scan_frames cfg collect fuel final size cur first m s).
Proof.
  induction fuel as [|fuel IH]; intros cur first m s Hs; [exact Hs|]. cbn [scan_frames].
  destruct cur as [|op cur]; [exact Hs|]. destruct (read_le 4 cur) as [[n cur']|]; cbn [outcome_inv]; auto with wal_scan.
  destruct (frame_op op) as [op'|]; cbn [outcome_inv]; auto with wal_scan.
  destruct (_ || _); cbn [outcome_inv]; auto with wal_scan. destruct (take_bytes _ _) as [[payload rest]|]; cbn [outcome_inv]; auto with wal_scan.
  destruct (decodeRecord payload) as [entry|]; cbn [outcome_inv]; auto with wal_scan.
  destruct (if is_legacy _ then _ else _) as [m'|]; cbn [outcome_inv]; auto with wal_scan.
  destruct (readEntryLsn _ _ _) as [lsn|]; cbn [outcome_inv]; auto with wal_scan.
  destruct (_ || _ || _ || _) eqn:E; cbn [outcome_inv]; auto with wal_scan.
  pose proof (scan_inv_take s m' lsn (size - blen rest) op' entry Hs (lsn_accepted _ _ _ _ _ E eq_refl)) as Ht.
  destruct (take_record _ _ _ _ _ _ _) as [[s' m'']|s']; [apply IH, Ht | exact Ht].
Qed.

Lemma scan_inv_json fuel final size : forall cur m s,
  scan_inv s -> outcome_inv (scan_json collect fuel final size cur m s).
Proof.
  induction fuel as [|fuel IH]; intros cur m s Hs; [exact Hs|]. cbn [scan_json].
  destruct (getline cur) as [[[|c line] rest]|]; [apply IH, Hs | | exact Hs].
  destruct (json_parse _) as [wrapper|]; cbn [outcome_inv]; auto with wal_scan.
  destruct (is_object wrapper); cbn [negb outcome_inv]; auto with wal_scan.
  destruct (line_checksum wrapper); cbn [outcome_inv]; auto with wal_scan. cbv zeta.
  destruct (legacy_identity _ _) as [m'|]; cbn [outcome_inv]; auto with wal_scan.
  set (lsn := match json_find (str "lsn") wrapper with Some _ => _ | None => _ end).
  destruct ((lsn =? 0) || (lsn <=? sc_lastLsn s) || _) eqn:E; cbn [outcome_inv]; auto with wal_scan.
  assert (Hlt : sc_lastLsn s < lsn) by (rewrite !orb_false_iff, Z.leb_gt in E; lia).
  match goal with |- context [take_record _ _ _ _ ?vb _ ?e] => pose proof (scan_inv_take s m' lsn vb INSERT e Hs Hlt) as Ht end.
  destruct (take_record _ _ _ _ _ _ _) as [[s' m'']|s']; [apply IH, Ht | exact Ht].
Qed.

Lemma scan_inv_files io d files : forall previousId identity s,
  scan_inv s -> scan_inv (scan_files cfg collect io d files previousId identity s).
Proof.
  induction files as [|f files IH]; intros prev ident s Hs; [exact Hs|]. cbn [scan_files].
  destruct (if si_open io f then _ else _) as [data|]; [|auto with wal_scan]. cbv zeta.
  destruct f as [|name].
  - destruct (looksLikeJsonLines data).
    + pose proof (scan_inv_json (S (length data)) (match files with [] => true | _ => false end) (blen data) data
                    (mkScanned WLegacy 0 0 0 0 0) s Hs) as H.
      destruct (scan_json _ _ _ _ _ _ _) as [[s' m']|s']; [apply IH, scan_inv_finish, H | exact H].
    + pose proof (scan_inv_frames (S (length data)) (match files with [] => true | _ => false end) (blen data) data false
                    (mkScanned WLegacy 0 0 0 0 0) s Hs) as H.
      destruct (scan_frames _ _ _ _ _ _ _ _) as [[s' m']|s']; [apply IH, scan_inv_finish, H | exact H].
  - unfold scan_header. destruct (take_bytes 32 data) as [[header rest]|]; [|auto with wal_scan].
    destruct (_ || _); [auto with wal_scan|]. cbv zeta. destruct (_ || _); [auto with wal_scan|].
    match goal with |- context [scan_frames _ _ ?fu ?fi ?sz ?cur ?first ?m s] =>
      pose proof (scan_inv_frames fu fi sz cur first m s Hs) as H end.
    destruct (scan_frames _ _ _ _ _ _ _ _) as [[s' m']|s']; [apply IH, scan_inv_finish, H | exact H].
Qed.

Lemma scan_inv_scan io d : scan_inv (scanWalFiles cfg collect io d []).
Proof.
  assert (H0 : scan_inv (scan_start [])) by (split; cbn; try constructor; lia).
  unfold scanWalFiles. destruct (negb _); [auto with wal_scan|]. destruct (negb _); [auto with wal_scan|].
  destruct (negb _); [auto with wal_scan|]. apply scan_inv_files, H0.
Qed.

(** C10: whatever the files hold and whichever call fails, a scan hands over
    records with strictly increasing positive LSNs, none above the last LSN it
    reports, and counts exactly the records it handed over. *)
Theorem scan_lsns_increase io d :
  let s := scanWalFiles cfg collect io d [] in
  StronglySorted Z.lt (map rr_lsn (sc_acc s)) /\
  Forall (fun r => 0 < rr_lsn r <= sc_lastLsn s) (sc_acc s) /\ sc_records s = Z.of_nat (length (sc_acc s)).
Proof.
  cbv zeta. destruct (scan_inv_scan io d). auto.
Qed.

(** ** Fuel *)

Lemma read_le_shorter n cur v rest : read_le n cur = Some (v, rest) -> (length rest <= length cur)%nat.
Proof.
  unfold read_le. destruct (take_bytes n cur) as [[h t]|] eqn:E; [|discriminate]. intros [= _ <-].
  apply take_bytes_Some in E as [-> _]. rewrite length_app. lia.
Qed.

(** The frame loop ends by itself: the fuel is never used up. *)
Lemma scan_frames_fuel {V} (visitor : V -> WalReplayRecord -> V * bool) fuel : forall fuel' final size cur first m s,
  (length cur < fuel)%nat -> (fuel <= fuel')%nat ->
  scan_frames cfg visitor fuel final size cur first m s = scan_frames cfg visitor fuel' final size cur first m s.
Proof.
  induction fuel as [|fuel IH]; intros fuel' final size cur first m s Hc Hf; [lia|].
  destruct fuel' as [|fuel']; [lia|]. cbn [scan_frames]. destruct cur as [|op cur]; [reflexivity|].
  destruct (read_le 4 cur) as [[n cur']|] eqn:E1; [|reflexivity]. apply read_le_shorter in E1.
  destruct (frame_op op); [|reflexivity]. destruct (_ || _); [reflexivity|].
  destruct (take_bytes _ _) as [[payload rest]|] eqn:E2; [|reflexivity].
  apply take_bytes_Some in E2 as [-> _]. rewrite length_app in E1. cbn [length] in Hc.
  destruct (decodeRecord payload); [|reflexivity]. destruct (if is_legacy _ then _ else _); [|reflexivity].
  destruct (readEntryLsn _ _ _); [|reflexivity]. destruct (_ || _); [reflexivity|].
  destruct (take_record _ _ _ _ _ _ _) as [[s' m']|s']; [|reflexivity]. apply IH; lia.
Qed.

(** So does the loop over lines. *)
Lemma scan_json_fuel {V} (visitor : V -> WalReplayRecord -> V * bool) fuel : forall fuel' final size cur m s,
  (length cur < fuel)%nat -> (fuel <= fuel')%nat ->
  scan_json visitor fuel final size cur m s = scan_json visitor fuel' final size cur m s.
Proof.
  induction fuel as [|fuel IH]; intros fuel' final size cur m s Hc Hf; [lia|].
  destruct fuel' as [|fuel']; [lia|]. cbn [scan_json].
  destruct (getline cur) as [[line rest]|] eqn:E; [|reflexivity]. apply getline_shrinks in E.
  destruct line as [|c line]; [apply IH; lia|].
  destruct (json_parse _); [|reflexivity]. destruct (negb _); [reflexivity|]. destruct (line_checksum _); [reflexivity|].
  cbv zeta. destruct (legacy_identity _ _); [|reflexivity]. destruct (_ || _); [reflexivity|].
  destruct (take_record _ _ _ _ _ _ _) as [[s' m']|s']; [|reflexivity]. apply IH; lia.
Qed.
End WalScan.

(** ** The two readers of a legacy log *)

#[local] Existing Instance nibble_text.

(** An entry with the checksum of its MessagePack form. *)
Definition msgpack_checked : json :=
  let body := [(str "_wal_crc_encoding", JString (str "msgpack-v1")); (str "n", JInt 7)] in
  JObject (obj_insert (str "_wal_crc32") (JUInt (crc32 (to_msgpack (JObject body)))) body).

(** [scanWalFiles] accepts it and [scanAndTruncateWAL] does not. *)
Example readers_disagree_on_msgpack_crc :
  verifyPayloadCrc msgpack_checked = true /\ verifyWalPayloadCrc msgpack_checked = Ok false.
Proof. vm_compute. auto. Qed.
