(* ===== verification/WalAdmission.v ===== *)
(** * Admission of operations and of recovery (wal.cpp, [WalOperation], [scanRecovery])

    Threads share one word per log: its high bit is an exclusive recovery, the
    other bits count the operations under way.  Every access is one atomic
    step; [compare_exchange_weak] may fail for no reason.  The interleavings of
    any number of threads are the runs of a step relation. *)

From S2P Require Import Prelude.
From stdpp Require Import base list relations.
From Stdlib Require Import ZArith Lia.

Open Scope Z_scope.

Definition RECOVERY_BIT : Z := 2 ^ 63.

(** Where a thread is: [Retry c] holds the count it loaded last. *)
Inductive thread_pc := TIdle | TRetry (count : Z) | TOperation | TRecovery.

Record admission_state := mkAdm { admission : Z; threads : list thread_pc }.

(** [count < (uint64_t{1} << 63) - 1], the loop's condition. *)
Definition may_retry (count : Z) : bool := count <? RECOVERY_BIT - 1.

Inductive adm_step : admission_state -> admission_state -> Prop :=
(* WalOperation: the load *)
| adm_load a ts i : ts !! i = Some TIdle -> adm_step (mkAdm a ts) (mkAdm a (<[i := TRetry a]> ts))
(* the loop ends: not admitted *)
| adm_refused a ts i c : ts !! i = Some (TRetry c) -> may_retry c = false ->
    adm_step (mkAdm a ts) (mkAdm a (<[i := TIdle]> ts))
(* compare_exchange_weak succeeds *)
| adm_admitted a ts i : ts !! i = Some (TRetry a) -> may_retry a = true ->
    adm_step (mkAdm a ts) (mkAdm (u64 (a + 1)) (<[i := TOperation]> ts))
(* or fails, and loads the word again *)
| adm_retry a ts i c : ts !! i = Some (TRetry c) -> may_retry c = true ->
    adm_step (mkAdm a ts) (mkAdm a (<[i := TRetry a]> ts))
(* ~WalOperation: fetch_sub(1) *)
| adm_leave a ts i : ts !! i = Some TOperation ->
    adm_step (mkAdm a ts) (mkAdm (u64 (a - 1)) (<[i := TIdle]> ts))
(* scanRecovery: compare_exchange_strong from 0; refused otherwise, with no effect *)
| adm_recover a ts i : ts !! i = Some TIdle -> a = 0 ->
    adm_step (mkAdm a ts) (mkAdm RECOVERY_BIT (<[i := TRecovery]> ts))
(* ~RecoveryGuard: store(0) *)
| adm_recovered a ts i : ts !! i = Some TRecovery ->
    adm_step (mkAdm a ts) (mkAdm 0 (<[i := TIdle]> ts)).

Definition adm_start (n : nat) : admission_state := mkAdm 0 (replicate n TIdle).

(** ** Counting threads *)

Definition is_operation (t : thread_pc) : bool := match t with TOperation => true | _ => false end.
Definition is_recovery (t : thread_pc) : bool := match t with TRecovery => true | _ => false end.

Definition count (p : thread_pc -> bool) (ts : list thread_pc) : Z := Z.of_nat (length (List.filter p ts)).

Lemma count_cons p t ts : count p (t :: ts) = (if p t then 1 else 0) + count p ts.
Proof. unfold count. cbn [List.filter]. destruct (p t); cbn [length]; lia. Qed.

Lemma count_insert p ts i x y : ts !! i = Some x ->
  count p (<[i := y]> ts) = count p ts - (if p x then 1 else 0) + (if p y then 1 else 0).
Proof.
  revert i. induction ts as [|t ts IH]; intros [|i] Hi; try discriminate.
  - injection Hi as ->. change (<[0%nat := y]> (x :: ts)) with (y :: ts). rewrite !count_cons. lia.
  - change (<[S i := y]> (t :: ts)) with (t :: <[i := y]> ts). rewrite !count_cons, (IH i Hi). lia.
Qed.

Lemma count_nonneg p ts : 0 <= count p ts.
Proof. unfold count. lia. Qed.

Lemma count_pos p ts i x : ts !! i = Some x -> p x = true -> 0 < count p ts.
Proof.
  revert i. induction ts as [|t ts IH]; intros [|i] Hi Hp; try discriminate; rewrite count_cons.
  - injection Hi as ->. rewrite Hp. pose proof (count_nonneg p ts). lia.
  - specialize (IH i Hi Hp). destruct (p t); lia.
Qed.

Lemma count_replicate p n x : p x = false -> count p (replicate n x) = 0.
Proof. intros Hp. unfold count. induction n as [|n IH]; cbn; [reflexivity|]. rewrite Hp. exact IH. Qed.

Lemma u64_small z : 0 <= z < 2 ^ 64 -> u64 z = z.
Proof. apply Z.mod_small. Qed.

(** ** The invariant *)

Definition adm_inv (s : admission_state) : Prop :=
  let ops := count is_operation (threads s) in
  let recs := count is_recovery (threads s) in
  (recs = 0 /\ admission s = ops /\ ops <= RECOVERY_BIT - 1) \/
  (recs = 1 /\ ops = 0 /\ admission s = RECOVERY_BIT).

Lemma adm_step_inv s s' : adm_step s s' -> adm_inv s -> adm_inv s'.
Proof.
  unfold adm_inv, may_retry, RECOVERY_BIT. intros Hs Hi.
  destruct Hs as [a ts i Hx|a ts i c Hx Hc|a ts i Hx Hc|a ts i c Hx Hc|a ts i Hx|a ts i Hx Ha|a ts i Hx];
    cbn [threads admission] in *;
    rewrite (count_insert is_operation _ _ _ _ Hx), (count_insert is_recovery _ _ _ _ Hx); cbn [is_operation is_recovery];
    pose proof (count_nonneg is_operation ts); pose proof (count_nonneg is_recovery ts).
  - lia.
  - lia.
  - apply Z.ltb_lt in Hc. unfold RECOVERY_BIT in Hc. rewrite u64_small by lia. lia.
  - lia.
  - pose proof (count_pos is_operation ts i _ Hx eq_refl). rewrite u64_small by lia. lia.
  - unfold RECOVERY_BIT. lia.
  - pose proof (count_pos is_recovery ts i _ Hx eq_refl). lia.
Qed.

Lemma reachable_inv n s : rtc adm_step (adm_start n) s -> adm_inv s.
Proof.
  intros H. assert (H0 : adm_inv (adm_start n)).
  { left. cbn [adm_start threads admission]. rewrite !count_replicate by reflexivity. unfold RECOVERY_BIT. lia. }
  revert H0. induction H as [|s s1 s2 H1 _ IH]; auto. intros H0. apply IH. eapply adm_step_inv; eassumption.
Qed.

(** C11: in every interleaving a recovery runs alone: while one thread recovers
    no operation is under way and no second recovery runs, and otherwise the
    word counts exactly the operations under way, without overflow. *)
Theorem recovery_is_exclusive n s :
  rtc adm_step (adm_start n) s ->
  (forall i, threads s !! i = Some TRecovery ->
     count is_operation (threads s) = 0 /\ count is_recovery (threads s) = 1) /\
  (count is_recovery (threads s) = 0 -> admission s = count is_operation (threads s) /\ admission s < RECOVERY_BIT).
Proof.
  intros H. destruct (reachable_inv n s H) as [(H1 & H2 & H3)|(H1 & H2 & H3)]; split; try lia.
  intros i Hi. pose proof (count_pos is_recovery _ i _ Hi eq_refl). lia.
Qed.

(** ** Recovery gets its turn *)

(** The operations leave, one after the other. *)
Lemma operations_leave k : forall s, adm_inv s -> count is_recovery (threads s) = 0 ->
  count is_operation (threads s) = Z.of_nat k ->
  exists s', rtc adm_step s s' /\ admission s' = 0 /\
    (forall i, threads s !! i = Some TIdle -> threads s' !! i = Some TIdle).
Proof.
  induction k as [|k IH]; intros s Hi Hr Hk.
  - exists s. split; [apply rtc_refl|]. split; [|auto]. destruct Hi as [(_ & H & _)|(H & _)]; lia.
  - assert (Hex : exists i, threads s !! i = Some TOperation).
    { clear -Hk. unfold count in Hk. destruct s as [a ts]. cbn in *.
      induction ts as [|t ts IH]; [cbn in Hk; lia|]. destruct t; cbn in Hk.
      3:{ exists 0%nat. reflexivity. }
      all: destruct (IH Hk) as [i Hi]; exists (S i); exact Hi. }
    destruct Hex as [i Hx]. destruct s as [a ts]. cbn [threads] in *.
    pose proof (adm_leave a ts i Hx) as Hstep.
    destruct (IH _ (adm_step_inv _ _ Hstep Hi)) as (s' & H1 & H2 & H3).
    + cbn [threads]. rewrite (count_insert is_recovery _ _ _ _ Hx). cbn. lia.
    + cbn [threads]. rewrite (count_insert is_operation _ _ _ _ Hx). cbn. lia.
    + exists s'. split; [eapply rtc_l; eassumption|]. split; [exact H2|]. intros j Hj. apply H3. cbn [threads].
      rewrite list_lookup_insert_ne; [exact Hj|]. intros ->. congruence.
Qed.

(** An idle thread is never shut out: from every reachable state in which no
    recovery runs, the operations under way can finish and the thread's
    recovery is then admitted. *)
Theorem recovery_can_start n s i :
  rtc adm_step (adm_start n) s -> threads s !! i = Some TIdle -> count is_recovery (threads s) = 0 ->
  exists s', rtc adm_step s s' /\ threads s' !! i = Some TRecovery.
Proof.
  intros Hreach Hidle Hrec. pose proof (reachable_inv n s Hreach) as Hinv.
  destruct (operations_leave (Z.to_nat (count is_operation (threads s))) s Hinv Hrec) as (s' & H1 & H2 & H3).
  { pose proof (count_nonneg is_operation (threads s)). lia. }
  destruct s' as [a ts]. cbn in H2. subst a. specialize (H3 i Hidle). cbn in H3.
  eexists. split; [eapply rtc_r; [exact H1 | apply adm_recover; [exact H3 | reflexivity]]|].
  cbn [threads]. apply list_lookup_insert_eq. eapply lookup_lt_Some, H3.
Qed.

(** ** A run *)

(** One thread has an operation under way, the other is idle. *)
Lemma sample_run : rtc adm_step (adm_start 2) (mkAdm 1 [TOperation; TIdle]).
Proof.
  eapply rtc_l; [apply (adm_load 0 [TIdle; TIdle] 0%nat); reflexivity|].
  eapply rtc_l; [apply (adm_admitted 0 [TRetry 0; TIdle] 0%nat); reflexivity|]. apply rtc_refl.
Qed.

Lemma recovery_is_exclusive_witness : admission (mkAdm 1 [TOperation; TIdle]) = 1.
Proof. exact (proj1 (proj2 (recovery_is_exclusive 2 _ sample_run) eq_refl)). Defined.

Lemma recovery_can_start_witness :
  exists s', rtc adm_step (mkAdm 1 [TOperation; TIdle]) s' /\ threads s' !! 1%nat = Some TRecovery.
Proof. exact (recovery_can_start 2 _ 1 sample_run eq_refl eq_refl). Defined.
