(* ===== verification/RaftLog.v ===== *)
(** * The Raft log file (raft_core.cpp, raft/log.bin)

    Log entries are JSON values, packed, optionally compressed and checksummed,
    in records [index, term, size, payload] of one file.  The file is appended
    to, cut back at a conflict, compacted behind a snapshot, and read at startup,
    when a torn tail is dropped if nothing committed is lost.

    The caches of terms and offsets only save re-reading the file and are left
    out; readers here scan it. *)

From S2P Require Import Prelude Json Msgpack Checksum Sst.
From stdpp Require Import base list strings.
From Stdlib Require Import ZArith Lia.

Open Scope Z_scope.

Definition kRaftMsgpackMagic : bytes := str "PDBR2".
Definition kRaftRecordMagic : bytes := str "PDBR3".
Definition kRaftCodecRaw : Z := 0.
Definition kRaftCodecLz4 : Z := 1.
Definition kMaxRaftPayloadBytes : Z := 64 * 1024 * 1024.
Definition kRaftFrameReserveBytes : Z := 64 * 1024.
Definition kRaftRecordHeaderBytes : Z := 14.
Definition INT_MAX : Z := 2 ^ 31 - 1.

Section RaftLog.
Context `{JT : JsonText} `{LZ : Lz4}.

(** ** Payloads *)

Definition encodeRaftLogPayload (value : json) : result bytes :=
  let packed := to_msgpack value in
  if (blen packed =? 0) || (kMaxRaftPayloadBytes - kRaftFrameReserveBytes <? blen packed) || (INT_MAX <? blen packed)
  then Err "Raft MessagePack payload is outside the supported size range"
  else
    let bound := lz4_compressBound (blen packed) in
    let compressed := if 0 <? bound then lz4_compress packed bound else [] in
    let '(codec, encoded) :=
      if (0 <? blen compressed) && (blen compressed <? blen packed)
      then (kRaftCodecLz4, compressed) else (kRaftCodecRaw, packed) in
    Ok (kRaftRecordMagic ++ [byte_of codec] ++ le_bytes 4 (blen packed) ++ le_bytes 4 (crc32c packed) ++ encoded).

Definition decodeRaftPayload (payload : bytes) : option json :=
  if (5 <=? length payload)%nat && bytes_eqb (take 5 payload) kRaftRecordMagic then
    '(header, encoded) ← take_bytes 14 payload;
    let codec := le_value (take 1 (drop 5 header)) in
    let plainSize := le_value (take 4 (drop 6 header)) in
    let expectedCrc := le_value (take 4 (drop 10 header)) in
    if (plainSize =? 0) || (kMaxRaftPayloadBytes <? plainSize) || (INT_MAX <? plainSize) then None else
    plain ← (if codec =? kRaftCodecRaw then if blen encoded =? plainSize then Some encoded else None
             else if codec =? kRaftCodecLz4 then
               if (blen encoded =? 0) || (INT_MAX <? blen encoded) then None else
               decoded ← lz4_decompress encoded plainSize;
               if blen decoded =? plainSize then Some decoded else None
             else None);
    if negb (crc32c plain =? expectedCrc) then None else from_msgpack plain
  else if (5 <=? length payload)%nat && bytes_eqb (take 5 payload) kRaftMsgpackMagic
  then from_msgpack (drop 5 payload)
  else json_parse payload.

(** ** Records *)

Record raft_record := mkRaftRecord { rec_index : Z; rec_term : Z; rec_bytes : bytes }.

Definition record_bytes (r : raft_record) : bytes :=
  le_bytes 8 (rec_index r) ++ le_bytes 8 (rec_term r) ++ le_bytes 4 (blen (rec_bytes r)) ++ rec_bytes r.

Definition appendRaftRecordBytes (bs : bytes) (index term : Z) (payload : bytes) : result bytes :=
  if bytes_eqb payload [] || (kMaxRaftPayloadBytes <? blen payload)
  then Err "Raft log payload is outside the supported size range"
  else Ok (bs ++ record_bytes (mkRaftRecord index term payload)).

Definition read_header (cur : bytes) : option (Z * Z * Z * bytes) :=
  '(idx, cur) ← read_le 8 cur;
  '(term, cur) ← read_le 8 cur;
  '(sz, cur) ← read_le 4 cur;
  Some (idx, term, sz, cur).

Definition read_record (cur : bytes) : option (raft_record * bytes) :=
  '(idx, term, sz, cur) ← read_header cur;
  '(payload, cur) ← take_bytes (Z.to_nat sz) cur;
  Some (mkRaftRecord idx term payload, cur).

(** [while (!in.eof())] over whole records; the loop ends at the first short read. *)
Fixpoint read_records (fuel : nat) (cur : bytes) : list raft_record :=
  match fuel with
  | O => []
  | S fuel' => match read_record cur with
               | Some (r, rest) => r :: read_records fuel' rest
               | None => []
               end
  end.

Definition raft_log_records (file : bytes) : list raft_record := read_records (S (length file)) file.

Definition write_records (rs : list raft_record) : bytes := flat_map record_bytes rs.

(** ** Reading by index *)

(** The payload is skipped by seeking, also past the end. *)
Fixpoint scan_term (fuel : nat) (index : Z) (cur : bytes) : Z :=
  match fuel with
  | O => 0
  | S fuel' => match read_header cur with
               | Some (idx, term, sz, rest) =>
                   if idx =? index then term else scan_term fuel' index (drop (Z.to_nat sz) rest)
               | None => 0
               end
  end.

Definition getTermForIndex (file : bytes) (snapshotIndex snapshotTerm index : Z) : Z :=
  if index =? 0 then 0
  else if (0 <? snapshotIndex) && (index =? snapshotIndex) && (0 <? snapshotTerm) then snapshotTerm
  else scan_term (S (length file)) index file.

(** The collecting loop of [readRaftEntriesRange]: the next index expected and
    what was read, or nothing when there is a gap. *)
Fixpoint collect_range (from to expected : Z) (rs : list raft_record) (acc : list (json * Z))
  : option (Z * list (json * Z)) :=
  match rs with
  | [] => Some (expected, acc)
  | r :: rest =>
      if rec_index r <? from then collect_range from to expected rest acc
      else if to <? rec_index r then Some (expected, acc)
      else if negb (rec_index r =? expected) then None
      else match decodeRaftPayload (rec_bytes r) with
           | Some v => collect_range from to (expected + 1) rest (acc ++ [(v, rec_term r)])
           | None => Some (expected, acc)
           end
  end.

Definition readRaftEntriesRange (file : bytes) (fromIndex toIndex : Z) : list (json * Z) :=
  if (fromIndex =? 0) || (toIndex <? fromIndex) then []
  else match collect_range fromIndex toIndex fromIndex (raft_log_records file) [] with
       | Some (expected, entries) => if expected =? toIndex + 1 then entries else []
       | None => []
       end.

(** ** Rewriting *)

(** What the temporary file gets, and so the log when the rename succeeds. *)
Definition compactRaftLog (file : bytes) (lastIncludedIndex : Z) : bytes :=
  write_records (List.filter (fun r => lastIncludedIndex <? rec_index r) (raft_log_records file)).

Definition truncateRaftLog (file : bytes) (truncateAfter : Z) : bytes :=
  write_records (List.filter (fun r => rec_index r <=? truncateAfter) (raft_log_records file)).

Fixpoint take_through (maxIndex : Z) (rs : list raft_record) : list raft_record :=
  match rs with
  | [] => []
  | r :: rest => if maxIndex <? rec_index r then [] else r :: take_through maxIndex rest
  end.

Definition trimRaftLog (file : bytes) (maxIndex : Z) : bytes :=
  write_records (take_through maxIndex (raft_log_records file)).

(** ** Loading at startup *)

Record PersistedRaftEntry := mkPersisted {
  pe_index : Z; pe_term : Z; pe_payload : json; startOffset : Z; endOffset : Z }.

Record load_env := mkLoadEnv {
  durableStateKnown : bool; durableCommitIndex : Z; le_snapshotIndex : Z;
  ld_resize : bool; ld_sync : bool }.    (* resize_file and the sync after it succeed *)

(** The whole records before offset [start] stay. *)
Definition discardTornTail (env : load_env) (file : bytes) (entries : list PersistedRaftEntry) (start : Z) (reason : string)
  : result (list PersistedRaftEntry * bytes) :=
  let completeIndex := match last entries with Some e => pe_index e | None => 0 end in
  if negb (durableStateKnown env) || (Z.max completeIndex (le_snapshotIndex env) <? durableCommitIndex env)
  then Err reason
  else if negb (ld_resize env) then Err "filesystem_error"
  else if negb (ld_sync env) then Err "failed to sync truncated raft/log.bin tail"
  else Ok (entries, take (Z.to_nat start) file).

Fixpoint load_entries (env : load_env) (fuel : nat) (file cur : bytes) (entries : list PersistedRaftEntry)
  : result (list PersistedRaftEntry * bytes) :=
  match fuel with
  | O => Ok (entries, file)
  | S fuel' =>
      match cur with
      | [] => Ok (entries, file)
      | _ =>
          let start := blen file - blen cur in
          match read_header cur with
          | None => discardTornTail env file entries start "truncated raft/log.bin record header"
          | Some (idx, term, sz, rest) =>
              if (sz =? 0) || (kMaxRaftPayloadBytes <? sz) then Err "invalid raft/log.bin payload size at index "
              else match take_bytes (Z.to_nat sz) rest with
                   | None => discardTornTail env file entries start "truncated raft/log.bin payload at index "
                   | Some (payload, rest) =>
                       match decodeRaftPayload payload with
                       | None => Err "invalid Raft payload"
                       | Some v => load_entries env fuel' file rest
                                     (entries ++ [mkPersisted idx term v start (blen file - blen rest)])
                       end
                   end
          end
      end
  end.

Definition loadBinaryRaftLogEntries (env : load_env) (file : bytes) : result (list PersistedRaftEntry * bytes) :=
  load_entries env (S (length file)) file file [].

(** ** Records read back *)

Record record_ok (r : raft_record) : Prop := {
  ro_index : 0 < rec_index r < 2 ^ 64;
  ro_term : 0 <= rec_term r < 2 ^ 64;
  ro_payload : 0 < blen (rec_bytes r) <= kMaxRaftPayloadBytes }.

Lemma read_header_record r rest : record_ok r ->
  read_header (record_bytes r ++ rest) = Some (rec_index r, rec_term r, blen (rec_bytes r), rec_bytes r ++ rest).
Proof.
  intros [Hi Ht Hp]. unfold read_header, record_bytes, kMaxRaftPayloadBytes in *. rewrite <- !app_assoc.
  do 2 (rewrite read_le_app by (change (256 ^ Z.of_nat 8) with (2 ^ 64); lia); cbn [mbind option_bind]).
  rewrite read_le_app by (change (256 ^ Z.of_nat 4) with (2 ^ 32); lia). reflexivity.
Qed.

Lemma read_le_more n cur v c x : read_le n cur = Some (v, c) -> read_le n (cur ++ x) = Some (v, c ++ x).
Proof.
  rewrite !read_le_Some. intros (h & -> & Hh & Hv). exists h. rewrite app_assoc. auto.
Qed.

Lemma read_record_written r rest : record_ok r -> read_record (record_bytes r ++ rest) = Some (r, rest).
Proof.
  intros Hr. unfold read_record. rewrite read_header_record by exact Hr. cbn [mbind option_bind].
  unfold blen. rewrite Nat2Z.id, take_bytes_app by reflexivity. destruct r; reflexivity.
Qed.

Lemma record_bytes_length r : (20 <= length (record_bytes r))%nat.
Proof. unfold record_bytes. rewrite !length_app, !le_bytes_length. lia. Qed.

Lemma read_header_more s i t z cur x : read_header s = Some (i, t, z, cur) ->
  read_header (s ++ x) = Some (i, t, z, cur ++ x).
Proof.
  unfold read_header. intros Eh.
  destruct (read_le 8 s) as [[v1 c1]|] eqn:E1; [|discriminate].
  rewrite (read_le_more _ _ _ _ _ E1). cbn [mbind option_bind] in *.
  destruct (read_le 8 c1) as [[v2 c2]|] eqn:E2; [|discriminate].
  rewrite (read_le_more _ _ _ _ _ E2). cbn [mbind option_bind] in *.
  destruct (read_le 4 c2) as [[v3 c3]|] eqn:E3; [|discriminate].
  rewrite (read_le_more _ _ _ _ _ E3). cbn [mbind option_bind] in *. congruence.
Qed.

(** A record cut anywhere is not read. *)
Lemma read_record_cut r k : record_ok r -> (k < length (record_bytes r))%nat -> read_record (take k (record_bytes r)) = None.
Proof.
  intros Hr Hk. destruct (read_record (take k (record_bytes r))) as [[r' rest]|] eqn:E; [|reflexivity]. exfalso.
  pose proof (read_record_written r [] Hr) as Hw. rewrite app_nil_r in Hw.
  unfold read_record in E, Hw. rewrite <- (take_drop k (record_bytes r)) in Hw.
  destruct (read_header (take k (record_bytes r))) as [[[[i t] z] cur]|] eqn:Eh; [|discriminate].
  rewrite (read_header_more _ _ _ _ _ (drop k (record_bytes r)) Eh) in Hw. cbn [mbind option_bind] in E, Hw.
  destruct (take_bytes (Z.to_nat z) cur) as [[p c]|] eqn:Ep; [|discriminate].
  apply take_bytes_Some in Ep as [-> Hp]. rewrite <- app_assoc, take_bytes_app in Hw by exact Hp.
  cbn [mbind option_bind] in Hw. injection Hw as _ Hw. apply app_eq_nil in Hw as [_ Hw].
  apply (f_equal length) in Hw. rewrite length_drop in Hw. cbn [length] in Hw. lia.
Qed.

Lemma write_records_length rs : (length rs <= length (write_records rs))%nat.
Proof.
  induction rs as [|r rs IH]; [cbn; lia|]. cbn [write_records flat_map]. rewrite length_app.
  pose proof (record_bytes_length r). cbn [length]. fold (write_records rs). lia.
Qed.

(** What is written is read, whatever partial record follows. *)
Lemma raft_read_written rs tail : Forall record_ok rs -> read_record tail = None ->
  raft_log_records (write_records rs ++ tail) = rs.
Proof.
  intros Hok Ht. unfold raft_log_records.
  assert (Hf : (length rs < S (length (write_records rs ++ tail)))%nat).
  { rewrite length_app. pose proof (write_records_length rs). lia. }
  revert Hf. generalize (S (length (write_records rs ++ tail))) as fuel. induction Hok as [|r rs Hr _ IH]; intros fuel Hf.
  - destruct fuel as [|fuel]; [cbn in Hf; lia|]. cbn [write_records flat_map app read_records]. rewrite Ht. reflexivity.
  - destruct fuel as [|fuel]; [lia|]. cbn [write_records flat_map read_records]. rewrite <- app_assoc, read_record_written by exact Hr.
    f_equal. apply IH. cbn [length] in Hf. lia.
Qed.

Lemma read_record_nil : read_record [] = None.
Proof. reflexivity. Qed.

Lemma raft_read_all rs : Forall record_ok rs -> raft_log_records (write_records rs) = rs.
Proof. intros Hok. rewrite <- (app_nil_r (write_records rs)). apply raft_read_written; [exact Hok | exact read_record_nil]. Qed.

(** ** Rewriting written logs *)

Lemma truncate_written rs k : Forall record_ok rs ->
  truncateRaftLog (write_records rs) k = write_records (List.filter (fun r => rec_index r <=? k) rs).
Proof. intros H. unfold truncateRaftLog. rewrite raft_read_all by exact H. reflexivity. Qed.

Lemma compact_written rs k : Forall record_ok rs ->
  compactRaftLog (write_records rs) k = write_records (List.filter (fun r => k <? rec_index r) rs).
Proof. intros H. unfold compactRaftLog. rewrite raft_read_all by exact H. reflexivity. Qed.

Lemma write_records_app a b : write_records (a ++ b) = write_records a ++ write_records b.
Proof. apply flat_map_app. Qed.

(** ** Terms *)

Definition term_of (rs : list raft_record) (index : Z) : Z :=
  match List.find (fun r => rec_index r =? index) rs with Some r => rec_term r | None => 0 end.

Lemma scan_term_written rs index : Forall record_ok rs -> forall fuel, (length rs < fuel)%nat ->
  scan_term fuel index (write_records rs) = term_of rs index.
Proof.
  induction 1 as [|r rs Hr _ IH]; intros fuel Hf; (destruct fuel as [|fuel]; [cbn in Hf; lia|]); [reflexivity|].
  cbn [write_records flat_map scan_term]. rewrite read_header_record by exact Hr.
  unfold term_of. cbn [List.find]. destruct (rec_index r =? index); [reflexivity|].
  unfold blen. rewrite Nat2Z.id, drop_app_length. apply IH. cbn [length] in Hf. lia.
Qed.

Lemma getTerm_written rs si st index : Forall record_ok rs ->
  getTermForIndex (write_records rs) si st index =
  if index =? 0 then 0
  else if (0 <? si) && (index =? si) && (0 <? st) then st else term_of rs index.
Proof.
  intros Hok. unfold getTermForIndex. rewrite scan_term_written; [reflexivity | exact Hok |].
  pose proof (write_records_length rs). lia.
Qed.

(** ** Payloads read back *)

Context `{LZC : !Lz4Correct}.

Lemma lz4_choice packed :
  let bound := lz4_compressBound (blen packed) in
  let compressed := if 0 <? bound then lz4_compress packed bound else [] in
  0 < blen compressed -> lz4_decompress compressed (blen packed) = Some packed.
Proof.
  intros bound compressed H. unfold compressed in *. destruct (0 <? bound) eqn:E; [|change (blen []) with 0 in H; lia].
  apply lz4_roundtrip; [apply Z.ltb_lt, E|]. intros Hn. fold bound in Hn. rewrite Hn in H. change (blen []) with 0 in H. lia.
Qed.

(** The payload written for a log entry decodes to the entry, compressed or
    not, as the MessagePack round trip returns it. *)
Theorem raft_payload_roundtrip v payload :
  json_wf v -> encodeRaftLogPayload v = Ok payload ->
  decodeRaftPayload payload = Some (canon v) /\ 0 < blen payload <= kMaxRaftPayloadBytes.
Proof.
  intros Hwf He. unfold encodeRaftLogPayload in He. set (packed := to_msgpack v) in *.
  destruct (_ || _ || _) eqn:Eg; [discriminate|]. rewrite !orb_false_iff, Z.eqb_neq, !Z.ltb_ge in Eg.
  destruct Eg as [[Hne Hmax] Hint]. pose proof (lz4_choice packed) as Hlz. cbv zeta in Hlz.
  set (compressed := if 0 <? lz4_compressBound (blen packed) then _ else []) in *.
  pose proof (crc32_range packed) as Hcrc.
  assert (Hdec : forall codec encoded,
    codec = kRaftCodecLz4 /\ encoded = compressed /\ 0 < blen compressed < blen packed \/
    codec = kRaftCodecRaw /\ encoded = packed ->
    decodeRaftPayload (kRaftRecordMagic ++ [byte_of codec] ++ le_bytes 4 (blen packed) ++ le_bytes 4 (crc32c packed) ++ encoded)
    = Some (canon v) /\
    0 < blen (kRaftRecordMagic ++ [byte_of codec] ++ le_bytes 4 (blen packed) ++ le_bytes 4 (crc32c packed) ++ encoded)
      <= kMaxRaftPayloadBytes).
  { intros codec encoded Hc. unfold kMaxRaftPayloadBytes, kRaftFrameReserveBytes, INT_MAX in *.
    assert (H0 : 0 <= blen packed) by (unfold blen; lia). split.
    2:{ unfold blen in *. rewrite !length_app, !le_bytes_length. cbn [length].
        change (length kRaftRecordMagic) with 5%nat.
        destruct Hc as [(_ & -> & Hc)|(_ & ->)]; lia. }
    unfold decodeRaftPayload. cbn [app]. set (rest := byte_of codec :: _).
    replace ((5 <=? length (kRaftRecordMagic ++ rest))%nat) with true by reflexivity.
    replace (bytes_eqb (take 5 (kRaftRecordMagic ++ rest)) kRaftRecordMagic) with true by reflexivity. cbn [andb].
    assert (Hsplit : kRaftRecordMagic ++ rest =
      (kRaftRecordMagic ++ [byte_of codec] ++ le_bytes 4 (blen packed) ++ le_bytes 4 (crc32c packed)) ++ encoded)
      by (unfold rest; rewrite <- !app_assoc; reflexivity).
    rewrite Hsplit, take_bytes_app by (rewrite !length_app, !le_bytes_length; reflexivity). cbn [mbind option_bind].
    set (hd := kRaftRecordMagic ++ _).
    change (take 1 (drop 5 hd)) with [byte_of codec]. change (take 4 (drop 6 hd)) with (le_bytes 4 (blen packed)).
    change (take 4 (drop 10 hd)) with (le_bytes 4 (crc32c packed)).
    rewrite !le_value_bytes by (change (256 ^ Z.of_nat 4) with (2 ^ 32); unfold crc32c; lia).
    unfold kMaxRaftPayloadBytes, INT_MAX. rewrite (proj2 (Z.eqb_neq (blen packed) 0)) by lia.
    rewrite !(proj2 (Z.ltb_ge _ (blen packed))) by lia. cbn [orb].
    destruct Hc as [(-> & -> & Hc)|(-> & ->)].
    - replace (le_value [byte_of kRaftCodecLz4] =? kRaftCodecRaw) with false by reflexivity.
      replace (le_value [byte_of kRaftCodecLz4] =? kRaftCodecLz4) with true by reflexivity.
      rewrite (proj2 (Z.eqb_neq (blen compressed) 0)), (proj2 (Z.ltb_ge _ (blen compressed))) by lia. cbn [orb].
      rewrite Hlz by lia. cbn [mbind option_bind]. rewrite Z.eqb_refl. cbn [mbind option_bind].
      rewrite Z.eqb_refl. cbn [negb]. apply from_to_msgpack, Hwf.
    - replace (le_value [byte_of kRaftCodecRaw] =? kRaftCodecRaw) with true by reflexivity.
      rewrite Z.eqb_refl. cbn [mbind option_bind]. rewrite Z.eqb_refl. cbn [negb]. apply from_to_msgpack, Hwf. }
  destruct ((0 <? blen compressed) && (blen compressed <? blen packed)) eqn:Ec; apply Ok_inj in He as <-; apply Hdec.
  - left. apply andb_true_iff in Ec as [H1%Z.ltb_lt H2%Z.ltb_lt]. auto.
  - right. auto.
Qed.

(** ** Loading a log, whole or cut *)

Definition entry_ok (rv : raft_record * json) : Prop := record_ok rv.1 /\ decodeRaftPayload (rec_bytes rv.1) = Some rv.2.

(** The entries of the records of a file from [offset] on. *)
Fixpoint persisted (offset : Z) (rvs : list (raft_record * json)) : list PersistedRaftEntry :=
  match rvs with
  | [] => []
  | (r, v) :: rest =>
      let next := offset + blen (record_bytes r) in
      mkPersisted (rec_index r) (rec_term r) v offset next :: persisted next rest
  end.

Definition last_index (rvs : list (raft_record * json)) : Z :=
  match last rvs with Some rv => rec_index rv.1 | None => 0 end.

Lemma last_persisted rvs : forall offset,
  match last (persisted offset rvs) with Some e => pe_index e | None => 0 end = last_index rvs.
Proof.
  unfold last_index. induction rvs as [|[r v] rvs IH]; intros offset; [reflexivity|]. cbn [persisted].
  destruct rvs as [|[r' v'] rvs]; [reflexivity|]. specialize (IH (offset + blen (record_bytes r))).
  cbn [persisted] in IH |- *. rewrite !last_cons_cons. exact IH.
Qed.

Lemma load_whole env file rvs : Forall entry_ok rvs -> forall fuel pre tail acc,
  (length rvs < fuel)%nat -> file = pre ++ write_records rvs.*1 ++ tail ->
  exists fuel', (fuel - length rvs = fuel')%nat /\
  load_entries env fuel file (write_records rvs.*1 ++ tail) acc =
  load_entries env fuel' file tail (acc ++ persisted (blen pre) rvs).
Proof.
  induction 1 as [|[r v] rvs [Hr Hv] _ IH]; intros fuel pre tail acc Hf Hfile.
  - exists fuel. split; [cbn; lia|]. cbn. rewrite app_nil_r. reflexivity.
  - destruct fuel as [|fuel]; [cbn in Hf; lia|]. cbn [length] in Hf. cbn [fst snd] in Hr, Hv.
    change ((fmap fst ((r, v) :: rvs))) with (r :: rvs.*1) in *.
    change (write_records (r :: rvs.*1)) with (record_bytes r ++ write_records rvs.*1) in *. rewrite <- app_assoc in *.
    destruct (IH fuel (pre ++ record_bytes r) tail (acc ++ [mkPersisted (rec_index r) (rec_term r) v (blen pre)
      (blen pre + blen (record_bytes r))]) ltac:(lia)) as (fuel' & Hfu & IHe); [rewrite Hfile, <- app_assoc; reflexivity|].
    exists fuel'. split; [cbn; lia|].
    assert (Hne : exists c cs, record_bytes r ++ write_records rvs.*1 ++ tail = c :: cs).
    { pose proof (record_bytes_length r). destruct (record_bytes r) as [|c cs]; [cbn in *; lia|]. eexists _, _. reflexivity. }
    destruct Hne as (c & cs & Hc). cbn [load_entries]. rewrite Hc. rewrite <- Hc. clear c cs Hc.
    rewrite read_header_record by exact Hr. pose proof (ro_payload _ Hr) as [Hp1 Hp2].
    rewrite (proj2 (Z.eqb_neq (blen (rec_bytes r)) 0)), (proj2 (Z.ltb_ge _ (blen (rec_bytes r)))) by lia. cbn [orb].
    unfold blen at 1. rewrite Nat2Z.id, take_bytes_app by reflexivity. rewrite Hv.
    cbn [persisted].
    replace (blen file - blen (record_bytes r ++ write_records rvs.*1 ++ tail)) with (blen pre)
      by (rewrite Hfile; unfold blen; rewrite !length_app; lia).
    replace (blen file - blen (write_records rvs.*1 ++ tail)) with (blen pre + blen (record_bytes r))
      by (rewrite Hfile; unfold blen; rewrite !length_app; lia).
    rewrite IHe, <- app_assoc. cbn [app]. do 3 f_equal. unfold blen. rewrite length_app, Nat2Z.inj_add. reflexivity.
Qed.

(** A cut record is a torn tail, never another error. *)
Lemma load_cut env file r k fuel acc start :
  record_ok r -> (0 < k < length (record_bytes r))%nat -> start = blen file - Z.of_nat k ->
  exists reason, load_entries env (S fuel) file (take k (record_bytes r)) acc = discardTornTail env file acc start reason.
Proof.
  intros Hr Hk ->. pose proof (read_record_cut r k Hr ltac:(lia)) as Hcut. unfold read_record in Hcut.
  assert (Hne : exists c cs, take k (record_bytes r) = c :: cs).
  { destruct (take k (record_bytes r)) eqn:E; [|eauto]. apply (f_equal length) in E. rewrite length_take in E. cbn in E. lia. }
  destruct Hne as (c & cs & Hc). cbn [load_entries]. rewrite Hc. rewrite <- Hc. clear c cs Hc.
  assert (Hl : blen (take k (record_bytes r)) = Z.of_nat k) by (unfold blen; rewrite length_take; lia). rewrite Hl.
  destruct (read_header (take k (record_bytes r))) as [[[[i t0] z] cur]|] eqn:Eh; [|eexists; reflexivity].
  cbn [mbind option_bind] in Hcut.
  assert (Hz : z = blen (rec_bytes r)).
  { pose proof (read_header_record r [] Hr) as Hw. rewrite !app_nil_r in Hw.
    rewrite <- (take_drop k (record_bytes r)) in Hw. rewrite (read_header_more _ _ _ _ _ (drop k (record_bytes r)) Eh) in Hw.
    congruence. }
  pose proof (ro_payload _ Hr). rewrite (proj2 (Z.eqb_neq z 0)), (proj2 (Z.ltb_ge _ z)) by lia. cbn [orb].
  destruct (take_bytes (Z.to_nat z) cur) as [[p c]|]; [discriminate|]. eexists. reflexivity.
Qed.

(** C15: a log whose last write was cut anywhere loads: exactly the whole records
    come back, and the torn bytes are removed, when they or the snapshot cover
    the durable commit index; otherwise startup refuses, whatever was cut. *)
Theorem raft_log_cut_recovers env rvs r k :
  Forall entry_ok rvs -> record_ok r -> (0 < k < length (record_bytes r))%nat ->
  durableStateKnown env = true -> ld_resize env = true -> ld_sync env = true ->
  let load := loadBinaryRaftLogEntries env (write_records rvs.*1 ++ take k (record_bytes r)) in
  (durableCommitIndex env <= Z.max (last_index rvs) (le_snapshotIndex env) ->
     load = Ok (persisted 0 rvs, write_records rvs.*1)) /\
  (Z.max (last_index rvs) (le_snapshotIndex env) < durableCommitIndex env -> exists reason, load = Err reason).
Proof.
  intros Hok Hr Hk Hs Hrs Hsy load. unfold load, loadBinaryRaftLogEntries. set (file := write_records _ ++ _).
  destruct (load_whole env file rvs Hok (S (length file)) [] (take k (record_bytes r)) []) as (fuel & Hfu & Heq); [|reflexivity|].
  { unfold file. rewrite length_app. pose proof (write_records_length rvs.*1) as Hl. rewrite length_fmap in Hl. lia. }
  fold file in Heq. rewrite Heq.
  destruct fuel as [|fuel].
  { unfold file in Hfu. rewrite length_app in Hfu. pose proof (write_records_length rvs.*1) as Hl. rewrite length_fmap in Hl. lia. }
  destruct (load_cut env file r k fuel ([] ++ persisted (blen []) rvs) (blen (write_records rvs.*1)) Hr Hk) as [reason ->].
  { unfold file, blen. rewrite length_app, length_take. lia. }
  cbn [app]. change (blen []) with 0. unfold discardTornTail. rewrite Hs, Hrs, Hsy, last_persisted. cbn [negb orb].
  split; intros Hc.
  - rewrite (proj2 (Z.ltb_ge _ _)) by exact Hc. unfold file, blen. rewrite Nat2Z.id, take_app_length. reflexivity.
  - rewrite (proj2 (Z.ltb_lt _ _)) by exact Hc. eauto.
Qed.
End RaftLog.

(** ** Examples *)

#[local] Existing Instance digits_text.
#[local] Existing Instance rle_lz4.
#[local] Existing Instance rle_lz4_correct.

(** A compressible entry. *)
Definition sample_value : json := JObject [(str "k", JString (replicate 40 (byte_of 65))); (str "n", JInt 3)].

Definition sample_payload : bytes := match encodeRaftLogPayload sample_value with Ok p => p | Err _ => [] end.

Lemma sample_value_wf : json_wf sample_value.
Proof. vm_compute. repeat split; try discriminate; repeat constructor. Qed.

Lemma raft_payload_roundtrip_witness : decodeRaftPayload sample_payload = Some (canon sample_value).
Proof.
  apply (raft_payload_roundtrip sample_value sample_payload sample_value_wf). vm_compute. reflexivity.
Defined.

Definition sample_record (i : Z) : raft_record * json := (mkRaftRecord i 2 sample_payload, canon sample_value).

Lemma sample_record_ok i : 0 < i < 2 ^ 64 -> entry_ok (sample_record i).
Proof.
  intros Hi. split; [split; cbn [fst sample_record rec_index rec_term rec_bytes]; try lia|].
  - vm_compute. split; [reflexivity | discriminate].
  - vm_compute. reflexivity.
Qed.

Lemma raft_log_cut_recovers_witness :
  loadBinaryRaftLogEntries (mkLoadEnv true 2 0 true true)
    (write_records ([sample_record 1; sample_record 2].*1) ++ take 30 (record_bytes (sample_record 3).1)) =
  Ok (persisted 0 [sample_record 1; sample_record 2], write_records ([sample_record 1; sample_record 2].*1)).
Proof.
  apply (raft_log_cut_recovers (mkLoadEnv true 2 0 true true) [sample_record 1; sample_record 2] (sample_record 3).1 30).
  - apply Forall_cons; split; [apply sample_record_ok; lia|]. apply Forall_singleton, sample_record_ok. lia.
  - apply sample_record_ok. lia.
  - vm_compute. lia.
  - reflexivity.
  - reflexivity.
  - reflexivity.
  - vm_compute. discriminate.
Defined.
