(* ===== verification/RaftNode.v ===== *)
(** * A Raft node (raft_core.cpp): durable state and message handlers

    The state a node keeps in memory and in [consensus_state.json], and the
    handlers that change it: persisting, voting, heartbeats, append entries,
    starting and finishing an election.  Messages are records of the fields the
    handlers read.  What the operating system answers is an argument; timers
    enter as the two facts the vote handler derives from them.  Log output,
    metrics and the audit file are left out, as is [leaderReady], which no
    decision reads. *)

From S2P Require Import Prelude Json Msgpack Checksum Sst RaftLog.
From stdpp Require Import base list strings.
From Stdlib Require Import ZArith Lia.

Open Scope Z_scope.

(** ** State *)

(** The contents of [consensus_state.json], and the members [persisted...]. *)
Record consensus := mkConsensus { c_term : Z; c_vote : bytes; c_commit : Z; c_applied : Z }.

Record election := mkElection {
  currentTerm : Z; votedFor : bytes; leaderId : bytes; leader : bool; leadershipReady : bool }.

Record durable := mkDurable {
  persistedState : consensus; publicationUncertain : bool; stateFile : option consensus }.

Record log_state := mkLog {
  log_file : bytes; lastIndex : Z; lastEntryTerm : Z; lastSnapshotIndex : Z; lastSnapshotTerm : Z }.

Record raft_node := mkNode {
  nodeId : bytes; recoveryComplete : bool; divergenceDetected : bool;
  n_election : election; n_durable : durable; n_log : log_state; commitIndex : Z; lastApplied : Z }.

Definition set_election (n : raft_node) (e : election) : raft_node :=
  mkNode (nodeId n) (recoveryComplete n) (divergenceDetected n) e (n_durable n) (n_log n) (commitIndex n) (lastApplied n).
Definition set_durable (n : raft_node) (d : durable) : raft_node :=
  mkNode (nodeId n) (recoveryComplete n) (divergenceDetected n) (n_election n) d (n_log n) (commitIndex n) (lastApplied n).
Definition set_log (n : raft_node) (l : log_state) : raft_node :=
  mkNode (nodeId n) (recoveryComplete n) (divergenceDetected n) (n_election n) (n_durable n) l (commitIndex n) (lastApplied n).
Definition set_commit (n : raft_node) (c : Z) : raft_node :=
  mkNode (nodeId n) (recoveryComplete n) (divergenceDetected n) (n_election n) (n_durable n) (n_log n) c (lastApplied n).
Definition set_recovery (n : raft_node) (b : bool) : raft_node :=
  mkNode (nodeId n) b (divergenceDetected n) (n_election n) (n_durable n) (n_log n) (commitIndex n) (lastApplied n).
Definition set_divergent (n : raft_node) : raft_node :=
  mkNode (nodeId n) (recoveryComplete n) true (n_election n) (n_durable n) (n_log n) (commitIndex n) (lastApplied n).

(** A new term clears the vote and any leadership. *)
Definition new_term (e : election) (term : Z) : election := mkElection term [] (leaderId e) false (leadershipReady e).
Definition step_down (e : election) : election :=
  mkElection (currentTerm e) (votedFor e) (leaderId e) false (leadershipReady e).
Definition set_vote (e : election) (v : bytes) : election :=
  mkElection (currentTerm e) v (leaderId e) (leader e) (leadershipReady e).
Definition set_leaderId (e : election) (l : bytes) : election :=
  mkElection (currentTerm e) (votedFor e) l (leader e) (leadershipReady e).

(** [fenceStorageFailure], also inlined in [persistConsensusState]. *)
Definition fenceStorageFailure (n : raft_node) : raft_node :=
  let e := n_election n in
  set_recovery (set_election n (mkElection (currentTerm e) (votedFor e) (leaderId e) false false)) false.

(** ** Persisting *)

(** How a publication ends: done; failed before the rename; or renamed with the
    directory not synchronised, when [landed] tells what a restart will find. *)
Inductive persist_io := PersistOk | PersistFail | PersistUnsynced (landed : bool).

Definition persistConsensusState (io : persist_io) (term : Z) (vote : bytes) (commit applied : Z) (updateElectionState : bool)
    (n : raft_node) : result unit * raft_node :=
  if commit <? applied then (Err "raft progress invariant violated: lastApplied > commitIndex", n)
  else if publicationUncertain (n_durable n) then (Err "raft_consensus_publication_uncertain_restart_required", n)
  else
    let d := n_durable n in
    let p := persistedState d in
    let newerElection := updateElectionState && (c_term p <=? term) in
    let p := if newerElection then mkConsensus term vote (c_commit p) (c_applied p) else p in
    let next := mkConsensus (c_term p) (c_vote p) (Z.max (c_commit p) commit) (Z.max (c_applied p) applied) in
    let n := set_durable n (mkDurable p false (stateFile d)) in
    if c_commit next <? c_applied next
    then (Err "durable raft progress invariant violated: lastApplied > commitIndex", n)
    else match io with
         | PersistFail => (Err "cannot atomically replace raft consensus state: ", n)
         | PersistUnsynced landed =>
             (Err "raft_consensus_publication_uncertain_restart_required",
              fenceStorageFailure (set_durable n (mkDurable p true (if landed then Some next else stateFile d))))
         | PersistOk => (Ok tt, set_durable n (mkDurable next false (Some next)))
         end.

(** [persistCurrentTerm] and [persistVotedFor]. *)
Definition persistElection (io : persist_io) (n : raft_node) : result unit * raft_node :=
  persistConsensusState io (currentTerm (n_election n)) (votedFor (n_election n)) (commitIndex n) (lastApplied n) true n.

Definition persistProgress (io : persist_io) (n : raft_node) : result unit * raft_node :=
  persistConsensusState io (currentTerm (n_election n)) (votedFor (n_election n)) (commitIndex n) (lastApplied n) false n.

Definition persistAppliedProgress (io : persist_io) (applied : Z) (n : raft_node) : result unit * raft_node :=
  if commitIndex n <? applied then (Err "cannot persist applied progress beyond commit index", n)
  else persistConsensusState io (currentTerm (n_election n)) (votedFor (n_election n)) (commitIndex n) applied false n.

(** ** Terms *)

Definition adoptLeaderTerm (io : persist_io) (term : Z) (n : raft_node) : result unit * raft_node :=
  let e := n_election n in
  if term <? currentTerm e then (Ok tt, n)
  else if currentTerm e <? term then persistElection io (set_election n (new_term e term))
  else (Ok tt, set_election n (step_down e)).

Definition observeHigherTerm (io : persist_io) (newTerm : Z) (n : raft_node) : result unit * raft_node :=
  let e := n_election n in
  if newTerm <=? currentTerm e then (Ok tt, n)
  else persistElection io (set_election n (mkElection newTerm [] (leaderId e) false false)).

(** ** Voting *)

Record vote_request := mkVoteReq { vq_term : Z; vq_candidate : bytes; vq_lastIndex : Z; vq_lastTerm : Z }.
Record vote_response := mkVoteResp { vp_term : Z; vp_granted : bool; vp_reason : string }.

Record vote_env := mkVoteEnv {
  hasQuorum : bool;                 (* enough peers answered recently *)
  heartbeatFresh : bool;            (* a heartbeat arrived within the vote fence *)
  ve_term_io : persist_io; ve_vote_io : persist_io }.

Definition candidateUpToDate (q : vote_request) (l : log_state) : bool :=
  (lastEntryTerm l <? vq_lastTerm q) ||
  ((vq_lastTerm q =? lastEntryTerm l) && (lastIndex l <=? vq_lastIndex q)).

(** [None]: an exception, answered by a plain refusal. *)
Definition handleVote (env : vote_env) (q : vote_request) (n : raft_node) : option vote_response * raft_node :=
  let e := n_election n in
  let deny n reason := (Some (mkVoteResp (currentTerm (n_election n)) false reason), n) in
  if leader e && hasQuorum env && negb (bytes_eqb (vq_candidate q) (nodeId n)) then deny n "leader_lease_active"
  else if negb (leader e) && negb (bytes_eqb (leaderId e) []) && heartbeatFresh env &&
          negb (bytes_eqb (vq_candidate q) (leaderId e))
  then deny n "fresh_leader_heartbeat"
  else
    let '(r, n) := if currentTerm e <? vq_term q
                   then persistElection (ve_term_io env) (set_election n (new_term e (vq_term q)))
                   else (Ok tt, n) in
    match r with
    | Err _ => (None, n)
    | Ok _ =>
        let e := n_election n in
        if negb (recoveryComplete n) then deny n "recovery_incomplete"
        else if (vq_term q =? currentTerm e) && negb (bytes_eqb (vq_candidate q) []) &&
                (bytes_eqb (votedFor e) [] || bytes_eqb (votedFor e) (vq_candidate q)) &&
                candidateUpToDate q (n_log n)
        then
          let '(r, n) := persistElection (ve_vote_io env) (set_election n (set_vote e (vq_candidate q))) in
          match r with
          | Err _ => (None, n)
          | Ok _ => (Some (mkVoteResp (currentTerm (n_election n)) true "granted"), n)
          end
        else deny n "denied"
    end.

(** ** Elections *)

Record election_run := mkRun { er_term : Z; er_lastIndex : Z; er_lastTerm : Z }.

(** The first part of [attemptElection]; [None] when the node may not run, and
    an error when persisting threw. *)
Definition startElection (io1 io2 : persist_io) (n : raft_node) : result (option election_run) * raft_node :=
  if negb (recoveryComplete n) then (Ok None, n)
  else
    let e := n_election n in
    let n := set_election n (mkElection (u64 (currentTerm e + 1)) (votedFor e) (leaderId e) (leader e) (leadershipReady e)) in
    let '(r, n) := persistElection io1 n in
    match r with
    | Err m => (Err m, n)
    | Ok _ =>
        let n := set_election n (set_vote (n_election n) (nodeId n)) in
        let '(r, n) := persistElection io2 n in
        match r with
        | Err m => (Err m, n)
        | Ok _ =>
            let n := set_election n (step_down (n_election n)) in
            (Ok (Some (mkRun (currentTerm (n_election n)) (lastIndex (n_log n)) (lastEntryTerm (n_log n)))), n)
        end
    end.

Definition vote_request_of (n : raft_node) (run : election_run) : vote_request :=
  mkVoteReq (er_term run) (nodeId n) (er_lastIndex run) (er_lastTerm run).

(** [granted]: what the candidate counts. *)
Definition counts_vote (run : election_run) (p : vote_response) : bool := vp_granted p && (vp_term p =? er_term run).

Definition quorumSize (nodes : Z) : Z := nodes / 2 + 1.

(** The end of [attemptElection], with [granted] votes of others. *)
Definition finishElection (nodes : Z) (run : election_run) (granted : Z) (contacted : bool) (n : raft_node)
  : bool * raft_node :=
  let e := n_election n in
  if negb (currentTerm e =? er_term run) || negb (bytes_eqb (votedFor e) (nodeId n)) then (false, n)
  else
    let won := quorumSize nodes <=? 1 + granted in
    let n := if won then set_election n (set_leaderId e (nodeId n)) else n in
    (won && negb (negb contacted && (1 <? nodes)), n).

(** What [monitorLoop] does after a win, without the lock. *)
Definition becomeLeader (n : raft_node) : raft_node :=
  let e := n_election n in
  set_election n (mkElection (currentTerm e) (votedFor e) (leaderId e) true false).

(** ** Restart *)

(** [loadPersistedState] up to the log replay, which brings back [l]: the node
    has what the file holds. *)
Definition restart (n : raft_node) (recovered : bool) (l : log_state) : raft_node :=
  let c := default (mkConsensus 0 [] 0 0) (stateFile (n_durable n)) in
  mkNode (nodeId n) recovered false (mkElection (c_term c) (c_vote c) [] false true)
    (mkDurable c false (stateFile (n_durable n))) l (c_commit c) (c_applied c).

(** ** What persisting leaves alone *)

(** Everything but the durable part and, when fencing, leadership and readiness. *)
Record same_core (n n' : raft_node) : Prop := {
  sc_id : nodeId n' = nodeId n;
  sc_log : n_log n' = n_log n;
  sc_commit : commitIndex n' = commitIndex n;
  sc_applied : lastApplied n' = lastApplied n;
  sc_term : currentTerm (n_election n') = currentTerm (n_election n);
  sc_vote : votedFor (n_election n') = votedFor (n_election n);
  sc_leader : leaderId (n_election n') = leaderId (n_election n) }.

Lemma persist_core io term vote commit applied upd n r n' :
  persistConsensusState io term vote commit applied upd n = (r, n') -> same_core n n'.
Proof.
  unfold persistConsensusState. destruct (commit <? applied); [intros [= _ <-]; split; reflexivity|].
  destruct (publicationUncertain _); [intros [= _ <-]; split; reflexivity|].
  destruct (_ <? c_applied _); [intros [= _ <-]; split; reflexivity|].
  destruct io; intros [= _ <-]; split; reflexivity.
Qed.

Lemma persistElection_core io n r n' : persistElection io n = (r, n') -> same_core n n'.
Proof. apply persist_core. Qed.

Lemma adopt_frame io term n r n' : adoptLeaderTerm io term n = (r, n') ->
  nodeId n' = nodeId n /\ n_log n' = n_log n /\ commitIndex n' = commitIndex n /\ lastApplied n' = lastApplied n /\
  (currentTerm (n_election n) <= term -> currentTerm (n_election n') = term).
Proof.
  unfold adoptLeaderTerm. destruct (term <? _) eqn:E1; [intros [= _ <-]; apply Z.ltb_lt in E1; repeat split; lia|].
  destruct (_ <? term) eqn:E2.
  - intros [H1 H2 H3 H4 H5 _ _]%persistElection_core. cbn in H1, H2, H3, H4, H5. auto.
  - intros [= _ <-]. apply Z.ltb_ge in E1, E2. repeat split. cbn. lia.
Qed.
