(* ===== verification/RaftAppend.v ===== *)
(** * Following a leader (raft_core.cpp): heartbeats and append entries

    The handlers of [heartbeat], [append_entries] and [wal_ship], each as one
    function of the request, what the operating system answers and the node.
    Applying committed entries ([scheduleFollowerApply]) happens on another
    thread and is not part of them.

    The log after an acknowledged append is the merge of the Raft paper; entries
    at or below the commit floor stay through every outcome. *)

From S2P Require Import Prelude Json Msgpack Checksum Sst RaftLog RaftNode.
From stdpp Require Import base list strings.
From Stdlib Require Import ZArith Lia ZifyBool.

Open Scope Z_scope.

(** ** Requests and answers *)

Record heartbeat_request := mkHeartbeat {
  hq_term : Z; hq_leader : bytes; hq_position : option (Z * Z);  (* leader's last index and term *)
  hq_commit : Z }.

Record append_request := mkAppend {
  aq_term : Z; aq_leader : bytes; aq_prevIndex : Z; aq_prevTerm : Z; aq_commit : Z;
  aq_entries : list json; aq_entryTerms : list json }.

Inductive append_reply :=
| StaleTerm (term : Z)
| Refused (term matchIndex : Z) (reason : string)
| Nack                                   (* "no" *)
| Ack (term matchIndex : Z)
| Threw.                                 (* an exception ended the handler *)

Record append_env := mkAppendEnv {
  ae_term_io : persist_io;
  tr_open : bool;                        (* both files of the truncation open *)
  tr_short : option nat;                 (* bytes of the temporary file that were written, if not all *)
  tr_removed : bool; tr_renamed : bool;  (* remove and rename succeed *)
  ap_written : option nat;               (* bytes of the batch that were written, if the append failed *)
  ap_synced : bool }.

Definition set_lastIndex (l : log_state) (file : bytes) (index term : Z) : log_state :=
  mkLog file index term (lastSnapshotIndex l) (lastSnapshotTerm l).

Definition log_term (l : log_state) (index : Z) : Z :=
  getTermForIndex (log_file l) (lastSnapshotIndex l) (lastSnapshotTerm l) index.

(** Progress taken from the leader. *)
Definition follow_commit (leaderCommit : Z) (n : raft_node) : raft_node :=
  let maxCommitted := Z.min leaderCommit (lastIndex (n_log n)) in
  if commitIndex n <? maxCommitted then set_commit n maxCommitted else n.

(** ** Heartbeats *)

Definition handleHeartbeat (io : persist_io) (q : heartbeat_request) (n : raft_node) : append_reply * raft_node :=
  if negb (recoveryComplete n) then (Refused (currentTerm (n_election n)) 0 "recovery_incomplete", n)
  else
    let l := n_log n in
    let e := n_election n in
    let localLastIndex := Z.max (lastIndex l) (lastSnapshotIndex l) in
    let '(localLastTerm, matches, behind) :=
      match hq_position q with
      | Some (leaderLastIndex, leaderLastTerm) =>
          let t := log_term l localLastIndex in
          let t := if t =? 0 then lastEntryTerm l else t in
          (t, (leaderLastIndex =? localLastIndex) && (leaderLastTerm =? t),
           (leaderLastTerm <? t) || ((leaderLastTerm =? t) && (leaderLastIndex <? localLastIndex)))
      | None => (0, false, false)
      end in
    if hq_term q <? currentTerm e then (Refused (currentTerm e) localLastIndex "stale_term", n)
    else if behind && negb ((hq_term q =? currentTerm e) && (localLastTerm =? hq_term q) &&
                            bytes_eqb (hq_leader q) (leaderId e))
    then
      let '(r, n) := if currentTerm e <? hq_term q
                     then persistElection io (set_election n (new_term e (hq_term q))) else (Ok tt, n) in
      match r with
      | Err _ => (Threw, n)
      | Ok _ => (Refused (currentTerm (n_election n)) localLastIndex "leader_log_behind", n)
      end
    else
      let '(r, n) := adoptLeaderTerm io (hq_term q) n in
      match r with
      | Err _ => (Threw, n)
      | Ok _ =>
          let n := set_election n (set_leaderId (n_election n) (hq_leader q)) in
          let n := if matches then follow_commit (hq_commit q) n else n in
          (Ack (currentTerm (n_election n)) (if matches then localLastIndex else 0), n)
      end.

Section Append.
Context `{LZ : Lz4}.

(** ** Append entries *)

Fixpoint encode_entries (entries : list json) : result (list bytes) :=
  match entries with
  | [] => Ok []
  | e :: rest => match encodeRaftLogPayload e with
                 | Err m => Err m
                 | Ok p => match encode_entries rest with Err m => Err m | Ok ps => Ok (p :: ps) end
                 end
  end.

(** The term of entry [k]: from [entryTerms] when it holds a number, else the leader's. *)
Definition incomingTerm (q : append_request) (k : nat) : Z :=
  match aq_entryTerms q !! k with
  | Some (JInt z) | Some (JUInt z) => u64 z
  | _ => aq_term q
  end.

Definition entryIndex (q : append_request) (k : nat) : Z := u64 (aq_prevIndex q + 1 + Z.of_nat k).

(** The loop over the entries the log already reaches: the first conflicting
    index, 0 for none, and the entry to append from. *)
Fixpoint first_conflict (q : append_request) (l : log_state) (k left : nat) : Z * nat :=
  match left with
  | O => (0, k)
  | S left' =>
      let idx := entryIndex q k in
      if lastIndex l <? idx then (0, k)
      else if negb (log_term l idx =? incomingTerm q k) then (idx, k)
      else first_conflict q l (S k) left'
  end.

(** The suffix from [firstConflict] on is cut; writes to the temporary file are not checked. *)
Definition truncateSuffix (env : append_env) (firstConflict : Z) (l : log_state) : option append_reply * log_state :=
  let truncateAfter := firstConflict - 1 in
  if negb (tr_open env) then (Some Nack, l)
  else
    let kept := List.filter (fun r => rec_index r <=? truncateAfter) (raft_log_records (log_file l)) in
    let tmp := match tr_short env with
               | None => truncateRaftLog (log_file l) truncateAfter
               | Some k => take k (truncateRaftLog (log_file l) truncateAfter)
               end in
    if negb (tr_renamed env)
    then (Some Nack, set_lastIndex l (if tr_removed env then [] else log_file l) (lastIndex l) (lastEntryTerm l))
    else
      let '(keepLastIndex, keepLastTerm) :=
        match last kept with Some r => (rec_index r, rec_term r) | None => (0, 0) end in
      if lastSnapshotIndex l <=? keepLastIndex
      then (None, set_lastIndex l tmp keepLastIndex (if keepLastIndex =? 0 then 0 else keepLastTerm))
      else (None, set_lastIndex l tmp (lastSnapshotIndex l) (lastSnapshotTerm l)).

(** The records of the entries from [k] on. *)
Fixpoint batch_bytes (q : append_request) (k : nat) (payloads : list bytes) (bs : bytes) : result bytes :=
  match payloads with
  | [] => Ok bs
  | p :: rest => match appendRaftRecordBytes bs (entryIndex q k) (incomingTerm q k) p with
                 | Err m => Err m
                 | Ok bs => batch_bytes q (S k) rest bs
                 end
  end.

Definition appendBatch (env : append_env) (q : append_request) (appendFrom : nat) (payloads : list bytes) (l : log_state)
  : option append_reply * log_state :=
  let todo := drop appendFrom payloads in
  match batch_bytes q appendFrom todo [] with
  | Err _ => (Some Threw, l)
  | Ok bs =>
      match ap_written env with
      | Some k => (Some Nack, set_lastIndex l (log_file l ++ take k bs) (lastIndex l) (lastEntryTerm l))
      | None =>
          let ks := seq appendFrom (length todo) in
          (None, set_lastIndex l (log_file l ++ bs) (fold_left (fun m k => Z.max m (entryIndex q k)) ks (lastIndex l))
                   (fold_left (fun _ k => incomingTerm q k) ks (lastEntryTerm l)))
      end
  end.

(** The part under [logMutex_]; [Some reply] ends the handler. *)
Definition appendToLog (env : append_env) (q : append_request) (payloads : list bytes) (n : raft_node)
  : option append_reply * raft_node :=
  let l := n_log n in
  let localTerm := currentTerm (n_election n) in
  let effectiveLastIndex := Z.max (lastIndex l) (lastSnapshotIndex l) in
  let have := negb (length payloads =? 0)%nat in
  if effectiveLastIndex <? aq_prevIndex q then (Some (Refused localTerm effectiveLastIndex "prev_index_conflict"), n)
  else if have && (0 <? lastSnapshotIndex l) && (aq_prevIndex q <? lastSnapshotIndex l)
  then (Some (Refused localTerm (lastSnapshotIndex l) "snapshot_floor_conflict"), n)
  else if (0 <? aq_prevIndex q) && negb (log_term l (aq_prevIndex q) =? aq_prevTerm q)
  then (Some (Refused localTerm effectiveLastIndex "prev_term_conflict"), n)
  else
    let '(conflict, appendFrom) :=
      if have && (aq_prevIndex q <? lastIndex l) then first_conflict q l 0 (length payloads) else (0, O) in
    let commitFloor := Z.max (commitIndex n) (lastApplied n) in
    if negb (conflict =? 0) && (conflict <=? commitFloor)
    then (Some (Refused localTerm commitFloor "truncation_below_commit_floor"), set_divergent n)
    else
      let '(r, l) := if negb (conflict =? 0) then truncateSuffix env conflict l else (None, l) in
      match r with
      | Some reply => (Some reply, set_log n l)
      | None =>
          if (appendFrom <? length payloads)%nat
          then let '(r, l) := appendBatch env q appendFrom payloads l in (r, set_log n l)
          else (None, set_log n l)
      end.

(** The log is synchronised, unless that is deferred, and progress taken. *)
Definition sync_and_ack (env : append_env) (leaderCommit : Z) (n : raft_node) : append_reply * raft_node :=
  if negb (ap_synced env) then (Threw, fenceStorageFailure n)
  else
    let n := follow_commit leaderCommit n in
    (Ack (currentTerm (n_election n)) (Z.max (lastIndex (n_log n)) (lastSnapshotIndex (n_log n))), n).

Definition handleAppend (env : append_env) (q : append_request) (n : raft_node) : append_reply * raft_node :=
  let e := n_election n in
  if aq_term q <? currentTerm e then (StaleTerm (currentTerm e), n)
  else
    let '(r, n) := adoptLeaderTerm (ae_term_io env) (aq_term q) n in
    match r with
    | Err _ => (Threw, n)
    | Ok _ =>
        let n := set_election n (set_leaderId (n_election n) (aq_leader q)) in
        if negb (recoveryComplete n) then (Refused (currentTerm (n_election n)) 0 "recovery_incomplete", n)
        else match encode_entries (aq_entries q) with
             | Err _ => (Threw, n)
             | Ok payloads =>
                 let '(r, n) := appendToLog env q payloads n in
                 match r with
                 | Some reply => (reply, n)
                 | None => sync_and_ack env (aq_commit q) n
                 end
             end
    end.

(** ** Shipped entries *)

(** [wal_ship]: entries are put after the log's end, with the sender's term. *)
Definition handleWalShip (env : append_env) (term leaderCommit : Z) (entries : list json) (n : raft_node)
  : append_reply * raft_node :=
  let e := n_election n in
  if term <? currentTerm e then (StaleTerm (currentTerm e), n)
  else
    let '(r, n) := adoptLeaderTerm (ae_term_io env) term n in
    match r with
    | Err _ => (Threw, n)
    | Ok _ =>
        match encode_entries entries with
        | Err _ => (Threw, n)
        | Ok payloads =>
            let l := n_log n in
            let q := mkAppend term [] (lastIndex l) 0 leaderCommit entries [] in
            match batch_bytes q 0 payloads [] with
            | Err _ => (Threw, n)
            | Ok bs =>
                match ap_written env with
                | Some k => (Nack, set_log n (set_lastIndex l (log_file l ++ take k bs) (lastIndex l) (lastEntryTerm l)))
                | None =>
                    let n := set_log n (set_lastIndex l (log_file l ++ bs) (u64 (lastIndex l + Z.of_nat (length payloads))) term) in
                    sync_and_ack env leaderCommit n
                end
            end
        end
    end.

(** ** The log a node keeps *)

(** Records [lo], [lo + 1], ... up to [lastIndex], reaching back to the snapshot. *)
Record log_wf (l : log_state) (lo : Z) (rs : list raft_record) : Prop := {
  lw_file : log_file l = write_records rs;
  lw_ok : Forall record_ok rs;
  lw_index : rec_index <$> rs = seqZ lo (Z.of_nat (length rs));
  lw_lo : 0 < lo <= lastSnapshotIndex l + 1;
  lw_last : lastIndex l = lo + Z.of_nat (length rs) - 1;
  lw_snap : 0 <= lastSnapshotIndex l <= lastIndex l;
  lw_term : lastEntryTerm l = match last rs with Some r => rec_term r | None => lastSnapshotTerm l end;
  lw_zero : lastSnapshotIndex l = 0 -> lastSnapshotTerm l = 0 }.

(** What the Raft paper does with a batch that follows on the log's common part:
    what agrees stays, and the first disagreement replaces the rest. *)
Fixpoint merge_batch (suffix batch : list raft_record) : list raft_record :=
  match suffix, batch with
  | _, [] => suffix
  | [], _ => batch
  | r :: suffix', b :: batch' => if rec_term r =? rec_term b then r :: merge_batch suffix' batch' else batch
  end.

(** The records of the entries from [k] on. *)
Fixpoint batch_from (q : append_request) (k : nat) (payloads : list bytes) : list raft_record :=
  match payloads with
  | [] => []
  | p :: rest => mkRaftRecord (entryIndex q k) (incomingTerm q k) p :: batch_from q (S k) rest
  end.

Record request_ok (q : append_request) (count : nat) : Prop := {
  rq_term : 0 <= aq_term q < 2 ^ 64;
  rq_prev : 0 <= aq_prevIndex q;
  rq_len : aq_prevIndex q + Z.of_nat count < 2 ^ 64 }.

Definition payload_ok (p : bytes) : Prop := 0 < blen p <= kMaxRaftPayloadBytes.

(** ** Contiguous records *)

Lemma wf_lookup l lo rs i r : log_wf l lo rs -> rs !! i = Some r -> rec_index r = lo + Z.of_nat i.
Proof.
  intros W Hi. pose proof (lookup_lt_Some _ _ _ Hi) as Hl.
  assert (E : (rec_index <$> rs) !! i = Some (rec_index r)) by (rewrite list_lookup_fmap, Hi; reflexivity).
  rewrite (lw_index _ _ _ W), lookup_seqZ in E. lia.
Qed.

Lemma find_index rs : forall lo i, rec_index <$> rs = seqZ lo (Z.of_nat (length rs)) ->
  List.find (fun r => rec_index r =? lo + Z.of_nat i) rs = rs !! i.
Proof.
  induction rs as [|r rs IH]; intros lo i H; [reflexivity|].
  cbn [length] in H. rewrite seqZ_cons in H by lia. cbn [fmap list_fmap] in H. injection H as Hr H. cbn [List.find].
  rewrite Hr. destruct i as [|i].
  - replace (lo =? lo + Z.of_nat 0) with true by lia. reflexivity.
  - replace (lo =? lo + Z.of_nat (S i)) with false by lia.
    replace (Z.pred (Z.of_nat (S (length rs)))) with (Z.of_nat (length rs)) in H by lia.
    replace (lo + Z.of_nat (S i)) with (Z.succ lo + Z.of_nat i) by lia. apply (IH _ i H).
Qed.

Lemma filter_upto rs : forall lo i, rec_index <$> rs = seqZ lo (Z.of_nat (length rs)) ->
  List.filter (fun r => rec_index r <=? lo + Z.of_nat i - 1) rs = take i rs.
Proof.
  induction rs as [|r rs IH]; intros lo i H; [destruct i; reflexivity|].
  cbn [length] in H. rewrite seqZ_cons in H by lia. cbn [fmap list_fmap] in H. injection H as Hr H. cbn [List.filter].
  replace (Z.pred (Z.of_nat (S (length rs)))) with (Z.of_nat (length rs)) in H by lia.
  rewrite Hr. destruct i as [|i].
  - replace (lo <=? lo + Z.of_nat 0 - 1) with false by lia. cbn [take].
    change (List.filter (fun r => rec_index r <=? lo + Z.of_nat 0 - 1) rs = take 0 rs). rewrite <- (IH _ 0%nat H).
    apply filter_ext_in. intros x Hx. apply list_elem_of_In, (list_elem_of_fmap_2 rec_index) in Hx.
    rewrite H in Hx. apply elem_of_seqZ in Hx. lia.
  - replace (lo <=? lo + Z.of_nat (S i) - 1) with true by lia. cbn [take].
    replace (lo + Z.of_nat (S i) - 1) with (Z.succ lo + Z.of_nat i - 1) by lia. rewrite (IH _ i H). reflexivity.
Qed.

Lemma index_take rs lo i : rec_index <$> rs = seqZ lo (Z.of_nat (length rs)) ->
  rec_index <$> take i rs = seqZ lo (Z.of_nat (length (take i rs))).
Proof.
  intros H. rewrite length_take. apply list_eq. intros k. rewrite list_lookup_fmap.
  destruct (decide (k < i)%nat) as [Hk|Hk].
  - rewrite lookup_take_lt by lia. rewrite <- list_lookup_fmap, H.
    destruct (decide (k < length rs)%nat).
    + rewrite !lookup_seqZ_lt by lia. reflexivity.
    + rewrite !lookup_seqZ_ge by lia. reflexivity.
  - rewrite lookup_take_ge by lia. rewrite lookup_seqZ_ge by lia. reflexivity.
Qed.

Lemma index_app a b lo :
  rec_index <$> a = seqZ lo (Z.of_nat (length a)) ->
  rec_index <$> b = seqZ (lo + Z.of_nat (length a)) (Z.of_nat (length b)) ->
  rec_index <$> (a ++ b) = seqZ lo (Z.of_nat (length (a ++ b))).
Proof.
  intros Ha Hb. rewrite fmap_app, Ha, Hb, length_app, Nat2Z.inj_add, seqZ_app by lia. reflexivity.
Qed.

Lemma wf_term l lo rs i : log_wf l lo rs -> lastSnapshotIndex l < lo + Z.of_nat i ->
  log_term l (lo + Z.of_nat i) = match rs !! i with Some r => rec_term r | None => 0 end.
Proof.
  intros W Hs. pose proof (lw_lo _ _ _ W). unfold log_term. rewrite (lw_file _ _ _ W), getTerm_written by apply W.
  replace (lo + Z.of_nat i =? 0) with false by lia. replace (lo + Z.of_nat i =? lastSnapshotIndex l) with false by lia.
  rewrite andb_false_r. cbn [andb]. unfold term_of. rewrite (find_index _ _ _ (lw_index _ _ _ W)). reflexivity.
Qed.

(** ** The entries of a request *)

Lemma u64_id z : 0 <= z < 2 ^ 64 -> u64 z = z.
Proof. intros H. unfold u64. apply Z.mod_small, H. Qed.

Lemma entryIndex_eq q count k : request_ok q count -> (k < count)%nat -> entryIndex q k = aq_prevIndex q + 1 + Z.of_nat k.
Proof. intros [_ Hp Hl] Hk. apply u64_id. lia. Qed.

Lemma incomingTerm_range q count k : request_ok q count -> 0 <= incomingTerm q k < 2 ^ 64.
Proof.
  intros [Ht _ _]. unfold incomingTerm.
  assert (H : forall z, 0 <= u64 z < 2 ^ 64) by (intros z; apply Z.mod_pos_bound; lia).
  destruct (_ !! _) as [[]|]; auto.
Qed.

Lemma batch_from_length q ps : forall k, length (batch_from q k ps) = length ps.
Proof. induction ps as [|p ps IH]; intros k; [reflexivity|]. cbn. rewrite IH. reflexivity. Qed.

Lemma batch_from_ok q count ps : request_ok q count -> Forall payload_ok ps -> forall k, (k + length ps <= count)%nat ->
  Forall record_ok (batch_from q k ps).
Proof.
  intros Hq. induction 1 as [|p ps Hp _ IH]; intros k Hk; [constructor|]. cbn [length] in Hk. cbn [batch_from].
  apply Forall_cons. split; [|apply IH; lia]. destruct Hq as [Ht Hpr Hl] eqn:E. clear E.
  split; cbn [rec_index rec_term rec_bytes].
  - rewrite (entryIndex_eq q count) by (auto; lia). lia.
  - apply (incomingTerm_range q count). exact Hq.
  - exact Hp.
Qed.

Lemma batch_from_index q count ps : request_ok q count -> forall k, (k + length ps <= count)%nat ->
  rec_index <$> batch_from q k ps = seqZ (aq_prevIndex q + 1 + Z.of_nat k) (Z.of_nat (length ps)).
Proof.
  intros Hq. induction ps as [|p ps IH]; intros k Hk; [reflexivity|]. cbn [length] in Hk |- *. cbn [batch_from fmap list_fmap].
  change (list_fmap _ _ rec_index (batch_from q (S k) ps)) with (rec_index <$> batch_from q (S k) ps).
  rewrite IH by lia. rewrite (seqZ_cons _ (Z.of_nat (S (length ps)))) by lia. cbn [rec_index].
  rewrite (entryIndex_eq q count) by (auto; lia). f_equal. f_equal; lia.
Qed.

Lemma batch_bytes_ok q ps : Forall payload_ok ps -> forall k bs,
  batch_bytes q k ps bs = Ok (bs ++ write_records (batch_from q k ps)).
Proof.
  induction 1 as [|p ps [Hp1 Hp2] _ IH]; intros k bs; [cbn; rewrite app_nil_r; reflexivity|]. cbn [batch_bytes batch_from].
  unfold appendRaftRecordBytes. replace (bytes_eqb p []) with false.
  2:{ symmetry. apply bytes_eqb_neq. intros ->. change (blen []) with 0 in Hp1. lia. }
  rewrite (proj2 (Z.ltb_ge _ (blen p))) by lia. cbn [orb]. rewrite IH.
  rewrite <- app_assoc. reflexivity.
Qed.

Lemma encode_payload_ok v p : encodeRaftLogPayload v = Ok p -> payload_ok p.
Proof.
  unfold encodeRaftLogPayload. set (packed := to_msgpack v). destruct (_ || _ || _) eqn:Eg; [discriminate|].
  unfold payload_ok, kMaxRaftPayloadBytes, kRaftFrameReserveBytes, INT_MAX in *. set (c := if _ <? _ then lz4_compress _ _ else []).
  destruct ((0 <? blen c) && (blen c <? blen packed)) eqn:Ec; intros <-%Ok_inj;
    unfold blen in *; rewrite !length_app, !le_bytes_length; cbn [length]; change (length kRaftRecordMagic) with 5%nat; lia.
Qed.

Lemma encode_entries_ok es : forall ps, encode_entries es = Ok ps -> Forall payload_ok ps /\ length ps = length es.
Proof.
  induction es as [|e es IH]; intros ps H; cbn [encode_entries] in H; [apply Ok_inj in H as <-; auto|].
  destruct (encodeRaftLogPayload e) as [p|] eqn:Ep; [|discriminate]. destruct (encode_entries es) as [ps'|]; [|discriminate].
  apply Ok_inj in H as <-. destruct (IH _ eq_refl) as [H1 H2]. split; [|cbn; congruence].
  constructor; [eapply encode_payload_ok, Ep | exact H1].
Qed.

(** ** Where the log and the batch part *)

(** After position [i] of the log, the batch from [k] on: all held, the log
    ends, or a conflict. *)
Inductive parts (rs : list raft_record) (q : append_request) (lo : Z) (i k : nat) (ps : list bytes) : Z * nat -> Prop :=
| parts_held : merge_batch (drop i rs) (batch_from q k ps) = drop i rs -> parts rs q lo i k ps (0, (k + length ps)%nat)
| parts_ends m : (m < length ps)%nat -> length (drop i rs) = m ->
    merge_batch (drop i rs) (batch_from q k ps) = drop i rs ++ batch_from q (k + m) (drop m ps) ->
    parts rs q lo i k ps (0, (k + m)%nat)
| parts_conflict m r : (m < length ps)%nat -> rs !! (i + m)%nat = Some r -> rec_term r <> incomingTerm q (k + m) ->
    merge_batch (drop i rs) (batch_from q k ps) = take m (drop i rs) ++ batch_from q (k + m) (drop m ps) ->
    parts rs q lo i k ps (lo + Z.of_nat (i + m), (k + m)%nat).

Lemma first_conflict_parts l lo rs q count j : log_wf l lo rs -> request_ok q count ->
  aq_prevIndex q + 1 = lo + Z.of_nat j -> lastSnapshotIndex l <= aq_prevIndex q -> (j <= length rs)%nat ->
  forall ps k, (k + length ps <= count)%nat -> (j + k <= length rs)%nat ->
  parts rs q lo (j + k) k ps (first_conflict q l k (length ps)).
Proof.
  intros W Hq Hj Hs Hjl. induction ps as [|p ps IH]; intros k Hk Hr; cbn [length first_conflict].
  - rewrite <- (Nat.add_0_r k) at 3. apply parts_held. cbn. destruct (drop _ _); reflexivity.
  - cbn [length] in Hk. rewrite (entryIndex_eq q count) by (auto; lia). rewrite (lw_last _ _ _ W).
    replace (aq_prevIndex q + 1 + Z.of_nat k) with (lo + Z.of_nat (j + k)) by lia.
    destruct (rs !! (j + k)%nat) as [r|] eqn:Er.
    + pose proof (lookup_lt_Some _ _ _ Er). rewrite (proj2 (Z.ltb_ge _ _)) by lia.
      rewrite (wf_term _ _ _ _ W), Er by lia. pose proof (drop_S _ _ _ Er) as Hd.
      destruct (rec_term r =? incomingTerm q k) eqn:Et; cbn [negb].
      * specialize (IH (S k) ltac:(lia) ltac:(lia)). replace (j + S k)%nat with (S (j + k)) in IH by lia.
        destruct IH as [Hm|m Hm Hlen Hmm|m r' Hm Hlen Hne Hmm].
        -- replace (S k + length ps)%nat with (k + length (p :: ps))%nat by (cbn; lia). apply parts_held.
           rewrite Hd. cbn [batch_from merge_batch rec_term]. rewrite Et, Hm. reflexivity.
        -- replace (S k + m)%nat with (k + S m)%nat in * by lia. apply parts_ends; [cbn; lia| |].
           ++ rewrite Hd. cbn [length]. lia.
           ++ rewrite Hd. cbn [batch_from merge_batch rec_term drop]. rewrite Et, Hmm. reflexivity.
        -- replace (lo + Z.of_nat (S (j + k) + m)) with (lo + Z.of_nat (j + k + S m)) by lia.
           replace (S k + m)%nat with (k + S m)%nat in * by lia. replace (S (j + k) + m)%nat with (j + k + S m)%nat in * by lia.
           apply (parts_conflict _ _ _ _ _ _ _ r'); [cbn; lia|exact Hlen|exact Hne|].
           rewrite Hd. cbn [batch_from merge_batch rec_term drop take]. rewrite Et, Hmm. reflexivity.
      * pose proof (parts_conflict rs q lo (j + k) k (p :: ps) 0 r) as P. rewrite !Nat.add_0_r in P.
        apply P; [cbn; lia|exact Er|lia|].
        rewrite Hd. cbn [batch_from merge_batch rec_term drop take app]. rewrite Et. reflexivity.
    + apply lookup_ge_None in Er. rewrite (proj2 (Z.ltb_lt _ _)) by lia.
      pose proof (parts_ends rs q lo (j + k) k (p :: ps) 0) as P. rewrite !Nat.add_0_r in P.
      apply P; [cbn; lia| |]; rewrite drop_ge by lia; reflexivity.
Qed.

(** ** Cutting and appending keep the shape *)

Lemma truncate_wf env l lo rs i l' : log_wf l lo rs -> (i <= length rs)%nat -> lastSnapshotIndex l < lo + Z.of_nat i ->
  tr_short env = None -> truncateSuffix env (lo + Z.of_nat i) l = (None, l') ->
  log_wf l' lo (take i rs) /\ lastSnapshotIndex l' = lastSnapshotIndex l.
Proof.
  intros W Hi Hs Hshort. unfold truncateSuffix. destruct (tr_open env); [|discriminate]. cbn [negb].
  rewrite Hshort. destruct (tr_renamed env); [|discriminate]. cbn [negb].
  rewrite (lw_file _ _ _ W), truncate_written, raft_read_all by apply W. rewrite filter_upto by apply W.
  pose proof (lw_lo _ _ _ W). pose proof (lw_snap _ _ _ W).
  assert (Hwf : forall idx t, idx = lo + Z.of_nat i - 1 ->
    t = match last (take i rs) with Some r => rec_term r | None => lastSnapshotTerm l end ->
    log_wf (set_lastIndex l (write_records (take i rs)) idx t) lo (take i rs)).
  { intros idx t -> ->. split; cbn [set_lastIndex log_file lastIndex lastEntryTerm lastSnapshotIndex lastSnapshotTerm].
    - reflexivity.
    - apply Forall_take, W.
    - apply index_take, W.
    - lia.
    - rewrite length_take. lia.
    - lia.
    - reflexivity.
    - apply W. }
  destruct (last (take i rs)) as [r|] eqn:Er.
  - assert (Hidx : rec_index r = lo + Z.of_nat i - 1 /\ (0 < i)%nat).
    { rewrite last_lookup, length_take in Er. apply lookup_take_Some in Er as [Er Hlt].
      rewrite (wf_lookup _ _ _ _ _ W Er). lia. }
    destruct Hidx as [-> Hpos]. rewrite (proj2 (Z.leb_le _ _)) by lia.
    replace (lo + Z.of_nat i - 1 =? 0) with false by lia. intros [= <-]. split; [|reflexivity]. apply Hwf; reflexivity.
  - apply last_None in Er. assert (i = 0%nat) as ->.
    { apply (f_equal length) in Er. rewrite length_take in Er. cbn in Er. lia. }
    destruct (lastSnapshotIndex l <=? 0) eqn:E0; intros [= <-]; (split; [|reflexivity]); apply Hwf; try lia.
    change (0 =? 0) with true. symmetry. apply (lw_zero _ _ _ W). lia.
Qed.

Lemma fold_index q count n : request_ok q count -> forall f m, (f + n <= count)%nat -> m = aq_prevIndex q + Z.of_nat f ->
  fold_left (fun m k => Z.max m (entryIndex q k)) (seq f n) m = aq_prevIndex q + Z.of_nat (f + n).
Proof.
  intros Hq. induction n as [|n IH]; intros f m Hf ->; [cbn; lia|]. cbn [seq fold_left].
  rewrite (IH (S f)); [lia|lia|]. rewrite (entryIndex_eq q count) by (auto; lia). lia.
Qed.

Lemma fold_term q ps : forall f t,
  fold_left (fun _ k => incomingTerm q k) (seq f (length ps)) t =
  match last (batch_from q f ps) with Some r => rec_term r | None => t end.
Proof.
  induction ps as [|p ps IH]; intros f t; [reflexivity|]. cbn [length seq fold_left batch_from]. rewrite IH.
  destruct ps as [|p' ps]; [reflexivity|]. cbn [batch_from]. rewrite last_cons_cons.
  destruct (last _) eqn:E; [reflexivity|]. apply last_None in E. discriminate.
Qed.

Lemma appendBatch_wf env q l lo rs from ps l' : log_wf l lo rs -> request_ok q (length ps) -> Forall payload_ok ps ->
  (from < length ps)%nat -> lo + Z.of_nat (length rs) = aq_prevIndex q + 1 + Z.of_nat from ->
  appendBatch env q from ps l = (None, l') ->
  log_wf l' lo (rs ++ batch_from q from (drop from ps)) /\ lastSnapshotIndex l' = lastSnapshotIndex l.
Proof.
  intros W Hq Hps Hf Hlo. unfold appendBatch. rewrite batch_bytes_ok by apply Forall_drop, Hps. cbn [app].
  destruct (ap_written env); [discriminate|]. intros [= <-]. split; [|reflexivity].
  rewrite fold_term. rewrite (fold_index q (length ps)); [|exact Hq|rewrite length_drop; lia|rewrite (lw_last _ _ _ W); lia].
  pose proof (lw_snap _ _ _ W). pose proof (lw_last _ _ _ W). rewrite length_drop.
  split; cbn [set_lastIndex log_file lastIndex lastEntryTerm lastSnapshotIndex lastSnapshotTerm].
  - rewrite (lw_file _ _ _ W), write_records_app. reflexivity.
  - apply Forall_app. split; [apply W|]. eapply batch_from_ok; [exact Hq|apply Forall_drop, Hps|rewrite length_drop; lia].
  - apply index_app; [apply W|]. rewrite (batch_from_index q (length ps)) by (auto; rewrite length_drop; lia).
    rewrite batch_from_length, Hlo. reflexivity.
  - apply W.
  - rewrite length_app, batch_from_length, length_drop. lia.
  - lia.
  - rewrite last_app. destruct (last (batch_from _ _ _)); [reflexivity|]. apply W.
  - apply W.
Qed.

(** The log a batch leads to. *)
Definition merged (lo : Z) (rs : list raft_record) (q : append_request) (ps : list bytes) : list raft_record :=
  let j := Z.to_nat (aq_prevIndex q + 1 - lo) in
  take j rs ++ merge_batch (drop j rs) (batch_from q 0 ps).

Lemma merge_nil suffix : merge_batch suffix [] = suffix.
Proof. destruct suffix; reflexivity. Qed.

(** What holds once the checks on the previous entry passed. *)
Record fits (l : log_state) (q : append_request) (ps : list bytes) : Prop := {
  ft_prev : aq_prevIndex q <= Z.max (lastIndex l) (lastSnapshotIndex l);
  ft_snap : ps <> [] -> lastSnapshotIndex l <= aq_prevIndex q;
  ft_term : 0 < aq_prevIndex q -> log_term l (aq_prevIndex q) = aq_prevTerm q }.

(** A batch that fits starts at position [j] of the log. *)
Lemma request_parts l lo rs q ps : log_wf l lo rs -> request_ok q (length ps) -> ps <> [] -> fits l q ps ->
  let j := Z.to_nat (aq_prevIndex q + 1 - lo) in
  aq_prevIndex q + 1 = lo + Z.of_nat j /\ (j <= length rs)%nat /\
  parts rs q lo j 0 ps (if aq_prevIndex q <? lastIndex l then first_conflict q l 0 (length ps) else (0, 0%nat)).
Proof.
  intros W Hq Hne F j. pose proof (lw_lo _ _ _ W). pose proof (lw_snap _ _ _ W). pose proof (lw_last _ _ _ W).
  pose proof (rq_prev _ _ Hq). pose proof (ft_snap _ _ _ F Hne) as Hsnap. pose proof (ft_prev _ _ _ F).
  assert (Hj : aq_prevIndex q + 1 = lo + Z.of_nat j) by lia. assert (Hjl : (j <= length rs)%nat) by lia.
  split; [exact Hj|]. split; [exact Hjl|]. destruct (_ <? lastIndex l) eqn:El.
  - pose proof (first_conflict_parts l lo rs q (length ps) j W Hq Hj Hsnap Hjl ps 0) as P. rewrite Nat.add_0_r in P.
    apply P; lia.
  - assert (Hlen : (0 < length ps)%nat) by (destruct ps; [congruence|cbn; lia]).
    apply (parts_ends rs q lo j 0 ps 0 Hlen); rewrite drop_ge by lia; [reflexivity|].
    rewrite drop_0. cbn [merge_batch app Nat.add]. destruct (batch_from q 0 ps); reflexivity.
Qed.

(** One of the [count] entries of the request contradicts the log, so that what
    follows must be replaced. *)
Definition replaces (rs : list raft_record) (q : append_request) (count : nat) : Prop :=
  exists k i r, rs !! i = Some r /\ (k < count)%nat /\ rec_index r = aq_prevIndex q + 1 + Z.of_nat k /\
    rec_term r <> incomingTerm q k.

Lemma conflict_replaces l lo rs q (ps : list bytes) j m r : log_wf l lo rs -> aq_prevIndex q + 1 = lo + Z.of_nat j ->
  (m < length ps)%nat -> rs !! (j + m)%nat = Some r -> rec_term r <> incomingTerm q m -> replaces rs q (length ps).
Proof.
  intros W Hj Hm Hl Ht. exists m, (j + m)%nat, r. pose proof (wf_lookup _ _ _ _ _ W Hl). split_and!; auto; lia.
Qed.

(** The three refusals leave the node alone; past them the batch fits. *)
Lemma appendToLog_checked env q ps n lo rs r n' : log_wf (n_log n) lo rs -> request_ok q (length ps) ->
  appendToLog env q ps n = (r, n') ->
  n' = n /\ r <> None \/
  fits (n_log n) q ps /\
  (let '(conflict, appendFrom) :=
     if negb (length ps =? 0)%nat && (aq_prevIndex q <? lastIndex (n_log n))
     then first_conflict q (n_log n) 0 (length ps) else (0, O) in
   let commitFloor := Z.max (commitIndex n) (lastApplied n) in
   if negb (conflict =? 0) && (conflict <=? commitFloor)
   then (Some (Refused (currentTerm (n_election n)) commitFloor "truncation_below_commit_floor"), set_divergent n)
   else
     let '(r, l) := if negb (conflict =? 0) then truncateSuffix env conflict (n_log n) else (None, n_log n) in
     match r with
     | Some reply => (Some reply, set_log n l)
     | None =>
         if (appendFrom <? length ps)%nat
         then let '(r, l) := appendBatch env q appendFrom ps l in (r, set_log n l)
         else (None, set_log n l)
     end) = (r, n').
Proof.
  intros W Hq. unfold appendToLog. pose proof (lw_snap _ _ _ W). pose proof (rq_prev _ _ Hq).
  destruct (_ <? aq_prevIndex q) eqn:E1; [intros [= <- <-]; left; split; [reflexivity|discriminate]|].
  destruct (_ && _ && _) eqn:E2; [intros [= <- <-]; left; split; [reflexivity|discriminate]|].
  destruct (_ && negb (_ =? aq_prevTerm q)) eqn:E3; [intros [= <- <-]; left; split; [reflexivity|discriminate]|].
  intros Hr. right. split; [|exact Hr]. split; [lia| |lia].
  intros Hne. destruct ps; [congruence|]. cbn [length] in E2. lia.
Qed.

Lemma appendToLog_none env q ps n lo rs n' : log_wf (n_log n) lo rs -> request_ok q (length ps) -> Forall payload_ok ps ->
  (replaces rs q (length ps) -> tr_short env = None) -> appendToLog env q ps n = (None, n') ->
  fits (n_log n) q ps /\ exists l', n' = set_log n l' /\ log_wf l' lo (merged lo rs q ps).
Proof.
  intros W Hq Hps Hshort Hr. pose proof (lw_lo _ _ _ W) as Hlo.
  destruct (appendToLog_checked _ _ _ _ _ _ _ _ W Hq Hr) as [[_ Hn]|[F Hr']]; [congruence|]. clear Hr. revert Hr'.
  split; [exact F|]. unfold merged. set (l := n_log n) in *. destruct (decide (ps = [])) as [->|Hne].
  { cbn [length Nat.eqb negb andb Z.eqb Nat.ltb Nat.leb] in Hr'. injection Hr' as <-. exists l. split; [reflexivity|].
    cbn [batch_from]. rewrite merge_nil, take_drop. exact W. }
  destruct (request_parts l lo rs q ps W Hq Hne F) as (Hj & Hjl & Hp). pose proof (ft_snap _ _ _ F Hne) as Hsnap.
  set (j := Z.to_nat (aq_prevIndex q + 1 - lo)) in *. revert Hr'.
  replace (negb (length ps =? 0)%nat) with true by (destruct ps; [congruence|reflexivity]). cbn [andb].
  destruct Hp as [Hm|m Hm Hl Hmm|m x Hm Hl Hx Hmm]; rewrite !Nat.add_0_l in *.
  - cbn [Z.eqb negb andb]. rewrite Nat.ltb_irrefl. intros [= <-]. exists l. split; [reflexivity|].
    rewrite Hm, take_drop. exact W.
  - cbn [Z.eqb negb andb]. rewrite (proj2 (Nat.ltb_lt m _)) by lia.
    destruct (appendBatch env q m ps l) as [r l'] eqn:Ea. intros [= -> <-]. exists l'. split; [reflexivity|].
    rewrite Hmm, app_assoc, take_drop. rewrite length_drop in Hl.
    apply (appendBatch_wf env q l lo rs m ps l'); auto. lia.
  - replace (lo + Z.of_nat (j + m) =? 0) with false by lia. cbn [negb andb].
    destruct (_ <=? Z.max (commitIndex n) (lastApplied n)); [discriminate|].
    destruct (truncateSuffix env _ l) as [[r|] l1] eqn:Etr; [discriminate|].
    specialize (Hshort (conflict_replaces _ _ _ _ _ _ _ _ W Hj Hm Hl Hx)). apply lookup_lt_Some in Hl.
    destruct (truncate_wf env l lo rs (j + m) l1 W ltac:(lia) ltac:(lia) Hshort Etr) as [W1 _].
    rewrite (proj2 (Nat.ltb_lt m _)) by lia.
    destruct (appendBatch env q m ps l1) as [r l'] eqn:Ea. intros [= -> <-]. exists l'. split; [reflexivity|].
    rewrite Hmm, app_assoc. replace (take j rs ++ take m (drop j rs)) with (take (j + m) rs) by (symmetry; apply take_take_drop).
    apply (appendBatch_wf env q l1 lo (take (j + m) rs) m ps l'); auto. rewrite length_take. lia.
Qed.

(** ** Committed entries stay *)

Lemma read_more_records fuel : forall rs x, Forall record_ok rs -> (length rs <= fuel)%nat ->
  exists more, read_records fuel (write_records rs ++ x) = rs ++ more.
Proof.
  induction fuel as [|fuel IH]; intros rs x Hok Hf.
  - destruct rs; [|cbn in Hf; lia]. exists []. reflexivity.
  - destruct Hok as [|r rs Hr Hok]; [eexists; reflexivity|]. cbn [length] in Hf.
    destruct (IH rs x Hok ltac:(lia)) as [more Hmore]. exists more. cbn [write_records flat_map read_records].
    rewrite <- app_assoc, read_record_written by exact Hr. fold (write_records rs). rewrite Hmore. reflexivity.
Qed.

(** Records of a file stay readable whatever follows them. *)
Lemma raft_read_prefix rs x i r : Forall record_ok rs -> rs !! i = Some r ->
  raft_log_records (write_records rs ++ x) !! i = Some r.
Proof.
  intros Hok Hi. unfold raft_log_records.
  destruct (read_more_records (S (length (write_records rs ++ x))) rs x Hok) as [more ->].
  { rewrite length_app. pose proof (write_records_length rs). lia. }
  apply lookup_app_l_Some, Hi.
Qed.

Lemma truncate_any env l lo rs i : log_wf l lo rs -> tr_short env = None -> tr_renamed env = true \/ tr_removed env = false ->
  forall r l', truncateSuffix env (lo + Z.of_nat i) l = (r, l') ->
  log_file l' = write_records rs \/ log_file l' = write_records (take i rs).
Proof.
  intros W Hshort Hio r l'. unfold truncateSuffix. rewrite Hshort.
  destruct (tr_open env); cbn [negb]; [|intros [= _ <-]; left; apply W].
  destruct (tr_renamed env); cbn [negb].
  - rewrite (lw_file _ _ _ W), truncate_written, raft_read_all, filter_upto by apply W.
    destruct (match last _ with Some _ => _ | None => _ end) as [ki kt].
    destruct (_ <=? ki); intros [= _ <-]; right; reflexivity.
  - destruct Hio as [Hio| ->]; [discriminate|]. intros [= _ <-]. left. apply W.
Qed.

Lemma appendBatch_any env q from ps l r l' : appendBatch env q from ps l = (r, l') -> exists x, log_file l' = log_file l ++ x.
Proof.
  unfold appendBatch. destruct (batch_bytes _ _ _ _); [|intros [= _ <-]; exists []; rewrite app_nil_r; reflexivity].
  destruct (ap_written env); intros [= _ <-]; eexists; reflexivity.
Qed.

Lemma appendToLog_floor env q ps n lo rs r n' i x : log_wf (n_log n) lo rs -> request_ok q (length ps) ->
  (replaces rs q (length ps) -> tr_short env = None /\ (tr_renamed env = true \/ tr_removed env = false)) ->
  appendToLog env q ps n = (r, n') ->
  rs !! i = Some x -> rec_index x <= Z.max (commitIndex n) (lastApplied n) ->
  raft_log_records (log_file (n_log n')) !! i = Some x /\ commitIndex n' = commitIndex n /\ lastApplied n' = lastApplied n.
Proof.
  intros W Hq Hio Hr Hi Hx. pose proof (lw_lo _ _ _ W) as Hlo. rewrite (wf_lookup _ _ _ _ _ W Hi) in Hx.
  assert (Hkeep : forall rs' y, rs' = rs \/ (exists c, rs' = take c rs /\ (i < c)%nat) ->
    raft_log_records (write_records rs' ++ y) !! i = Some x).
  { intros rs' y [->|(c & -> & Hc)]; apply raft_read_prefix.
    - apply W.
    - exact Hi.
    - apply Forall_take, W.
    - rewrite lookup_take_lt by exact Hc. exact Hi. }
  assert (Hsame : raft_log_records (log_file (n_log n)) !! i = Some x).
  { rewrite (lw_file _ _ _ W), <- (app_nil_r (write_records rs)). apply Hkeep. auto. }
  destruct (appendToLog_checked _ _ _ _ _ _ _ _ W Hq Hr) as [[-> _]|[F Hr']]; [auto|]. clear Hr.
  assert (Happ : forall f l r0 l0, (forall y, raft_log_records (log_file l ++ y) !! i = Some x) ->
    (if (f <? length ps)%nat then let '(r, l) := appendBatch env q f ps l in (r, set_log n l) else (None, set_log n l))
    = (r0, l0) -> raft_log_records (log_file (n_log l0)) !! i = Some x /\ commitIndex l0 = commitIndex n /\ lastApplied l0 = lastApplied n).
  { intros f l r0 l0 Hl. destruct (f <? length ps)%nat.
    - destruct (appendBatch env q f ps l) as [r1 l1] eqn:Ea. intros [= _ <-].
      destruct (appendBatch_any _ _ _ _ _ _ _ Ea) as [y Hy]. cbn [set_log n_log]. rewrite Hy. auto.
    - intros [= _ <-]. cbn [set_log n_log]. rewrite <- (app_nil_r (log_file l)). auto. }
  destruct (decide (ps = [])) as [->|Hne].
  { cbn [length Nat.eqb negb andb Z.eqb Nat.ltb Nat.leb] in Hr'. injection Hr' as _ <-. auto. }
  destruct (request_parts _ lo rs q ps W Hq Hne F) as (Hj & Hjl & Hp).
  set (j := Z.to_nat (aq_prevIndex q + 1 - lo)) in *.
  revert Hr'. replace (negb (length ps =? 0)%nat) with true by (destruct ps; [congruence|reflexivity]). cbn [andb].
  assert (Hcut : forall y, raft_log_records (log_file (n_log n) ++ y) !! i = Some x).
  { intros y. rewrite (lw_file _ _ _ W). apply Hkeep. auto. }
  destruct Hp as [Hm|m Hm Hl Hmm|m y0 Hm Hl Hy Hmm]; rewrite !Nat.add_0_l in *;
    [cbn [Z.eqb negb andb]; apply Happ, Hcut | cbn [Z.eqb negb andb]; apply Happ, Hcut |].
  replace (lo + Z.of_nat (j + m) =? 0) with false by lia. cbn [negb andb].
  destruct (_ <=? Z.max (commitIndex n) (lastApplied n)) eqn:Efl; [intros [= _ <-]; auto|].
  destruct (truncateSuffix env _ (n_log n)) as [r1 l1] eqn:Etr.
  assert (Hl1 : forall y, raft_log_records (log_file l1 ++ y) !! i = Some x).
  { intros y. destruct (Hio (conflict_replaces _ _ _ _ _ _ _ _ W Hj Hm Hl Hy)) as [Hshort Hswap].
    destruct (truncate_any _ _ _ _ _ W Hshort Hswap _ _ Etr) as [-> | ->]; apply Hkeep; [auto|].
    right. exists (j + m)%nat. split; [reflexivity|]. lia. }
  destruct r1; [|apply Happ, Hl1]. intros [= _ <-]. cbn [set_log n_log]. rewrite <- (app_nil_r (log_file l1)). auto.
Qed.
(** ** The handler *)

(** The handler as its checks, the log part and the end. *)
Lemma handleAppend_inv env q n reply n' : handleAppend env q n = (reply, n') ->
  (match reply with Ack _ _ => False | _ => True end /\
   n_log n' = n_log n /\ commitIndex n' = commitIndex n /\ lastApplied n' = lastApplied n) \/
  exists n1 ps r n2,
    n_log n1 = n_log n /\ commitIndex n1 = commitIndex n /\ lastApplied n1 = lastApplied n /\
    currentTerm (n_election n1) = aq_term q /\ currentTerm (n_election n) <= aq_term q /\
    recoveryComplete n1 = true /\ encode_entries (aq_entries q) = Ok ps /\ appendToLog env q ps n1 = (r, n2) /\
    match r with Some reply' => (reply', n2) | None => sync_and_ack env (aq_commit q) n2 end = (reply, n').
Proof.
  unfold handleAppend. destruct (aq_term q <? _) eqn:Et; [intros [= <- <-]; left; auto|]. apply Z.ltb_ge in Et.
  destruct (adoptLeaderTerm _ _ n) as [r1 n1] eqn:Ea. apply adopt_frame in Ea as (_ & Hl & Hc & Ha & Hterm).
  destruct r1; [|intros [= <- <-]; left; auto].
  set (n1' := set_election n1 _). change (recoveryComplete n1') with (recoveryComplete n1).
  destruct (recoveryComplete n1) eqn:Er; cbn [negb]; [|intros [= <- <-]; left; auto].
  destruct (encode_entries (aq_entries q)) as [ps|]; [|intros [= <- <-]; left; auto].
  destruct (appendToLog env q ps n1') as [r n2] eqn:El. intros H. right. exists n1', ps, r, n2.
  repeat (split; [first [exact Hl | exact Hc | exact Ha | exact (Hterm Et) | exact Et | exact Er | reflexivity | exact El]|]).
  destruct r; exact H.
Qed.

(** C3: an acknowledged append to a well-formed log leaves the log the Raft paper
    prescribes: what the follower has up to the previous entry, then the batch
    merged with the rest, every entry with its index and term; the previous entry
    agreed; the acknowledgement carries the leader's term and the log's last
    index; and the commit index follows the leader's within the log.  One thing is
    assumed of the storage, and only when an entry of the log has to be replaced:
    that the shortened copy of the log is written whole, which the code does not
    check ([short_truncation_acknowledged] shows what happens otherwise). *)
Theorem append_merges env q n lo rs t m n' :
  log_wf (n_log n) lo rs -> request_ok q (length (aq_entries q)) ->
  (replaces rs q (length (aq_entries q)) -> tr_short env = None) ->
  handleAppend env q n = (Ack t m, n') ->
  exists ps, encode_entries (aq_entries q) = Ok ps /\ fits (n_log n) q ps /\
    log_wf (n_log n') lo (merged lo rs q ps) /\
    t = aq_term q /\ m = lastIndex (n_log n') /\
    commitIndex n' = Z.max (commitIndex n) (Z.min (aq_commit q) (lastIndex (n_log n'))).
Proof.
  intros W Hq Hshort H. destruct (handleAppend_inv _ _ _ _ _ H) as [[[] _]|(n1 & ps & r & n2 & Hl & Hc & Ha & Ht & _ & Hr & He & Hlog & Hend)].
  destruct (encode_entries_ok _ _ He) as [Hps Hlen]. rewrite <- Hlen in Hq, Hshort.
  destruct r as [r|].
  { injection Hend as -> ->. exfalso. revert Hlog. unfold appendToLog, truncateSuffix, appendBatch. clear.
    repeat case_match; congruence. }
  rewrite <- Hl in W |- *. destruct (appendToLog_none _ _ _ _ _ _ _ W Hq Hps Hshort Hlog) as (F & l' & -> & W').
  unfold sync_and_ack in Hend. destruct (ap_synced env); [|discriminate]. cbn [negb] in Hend. injection Hend as <- <- <-.
  exists ps. unfold follow_commit. cbn [commitIndex set_log n_log]. rewrite <- Hc. pose proof (lw_snap _ _ _ W').
  destruct (_ <? Z.min _ _) eqn:Em; cbn [set_commit set_log n_log n_election commitIndex]; (repeat split; auto; try lia); apply F || apply W'.
Qed.

(** C4: through every outcome of an append request to a well-formed log (refusals,
    exceptions, a batch that is written in part or not synchronised, and
    acknowledgements) the entries up to the commit index and the applied index
    stay in the log file at their place, and neither index moves back.  When an entry
    of the log has to be replaced this needs two things of the storage, which the code
    does not ensure: the shortened copy is written whole, and the log is not removed
    when its replacement then fails ([short_truncation_acknowledged] and
    [failed_truncation_loses_log] show what happens otherwise). *)
Theorem committed_entries_stay env q n lo rs reply n' :
  log_wf (n_log n) lo rs -> request_ok q (length (aq_entries q)) ->
  (replaces rs q (length (aq_entries q)) -> tr_short env = None /\ (tr_renamed env = true \/ tr_removed env = false)) ->
  handleAppend env q n = (reply, n') ->
  (forall i r, rs !! i = Some r -> rec_index r <= Z.max (commitIndex n) (lastApplied n) ->
     raft_log_records (log_file (n_log n')) !! i = Some r) /\
  commitIndex n <= commitIndex n' /\ lastApplied n' = lastApplied n.
Proof.
  intros W Hq Hio H.
  assert (Hsame : forall i r, rs !! i = Some r -> raft_log_records (log_file (n_log n)) !! i = Some r).
  { intros i r Hi. rewrite (lw_file _ _ _ W), raft_read_all by apply W. exact Hi. }
  destruct (handleAppend_inv _ _ _ _ _ H) as [(_ & -> & -> & ->)|(n1 & ps & r & n2 & Hl & Hc & Ha & _ & _ & _ & He & Hlog & Hend)].
  { repeat split; auto; lia. }
  destruct (encode_entries_ok _ _ He) as [_ Hlen]. rewrite <- Hlen in Hq. rewrite <- Hl in W. rewrite <- Hc, <- Ha.
  assert (H2 : commitIndex n2 = commitIndex n1 /\ lastApplied n2 = lastApplied n1).
  { clear -Hlog. revert Hlog. unfold appendToLog. repeat case_match; intros [= _ <-]; auto. }
  assert (Hfin : n_log n' = n_log n2 /\ commitIndex n2 <= commitIndex n' /\ lastApplied n' = lastApplied n2).
  { destruct r; [injection Hend as _ <-; repeat split; lia|]. revert Hend. unfold sync_and_ack, follow_commit.
    destruct (ap_synced env); intros [= _ <-]; [|repeat split; cbn; lia].
    destruct (_ <? Z.min _ _) eqn:E; cbn; repeat split; lia. }
  destruct Hfin as (-> & Hc' & ->), H2 as [H2c H2a]. split; [|split; [lia|exact H2a]].
  rewrite <- Hlen in Hio. intros i x Hi Hx. apply (appendToLog_floor _ _ _ _ _ _ _ _ _ _ W Hq Hio Hlog Hi Hx).
Qed.
(** ** The shape of the log *)

(** Storage whose failures leave the files whole: a batch is written whole or not at
    all, and, when an entry is [replaced], the shortened copy is written whole and the
    log is not removed when its replacement fails. *)
Record atomic_io (env : append_env) (replaced : Prop) : Prop := {
  at_short : replaced -> tr_short env = None;
  at_swapped : replaced -> tr_renamed env = true \/ tr_removed env = false;
  at_written : ap_written env = None \/ ap_written env = Some 0%nat }.

Lemma set_lastIndex_same l : set_lastIndex l (log_file l) (lastIndex l) (lastEntryTerm l) = l.
Proof. destruct l; reflexivity. Qed.

Lemma appendBatch_atomic env P q from ps l r l' : atomic_io env P -> appendBatch env q from ps l = (Some r, l') -> l' = l.
Proof.
  intros [_ _ Hw]. unfold appendBatch. destruct (batch_bytes _ _ _ _); [|intros [= _ <-]; reflexivity].
  destruct Hw as [-> | ->]; [discriminate|]. intros [= _ <-]. cbn [take]. rewrite app_nil_r. apply set_lastIndex_same.
Qed.

Lemma truncate_atomic env (P : Prop) c l r l' : atomic_io env P -> P -> truncateSuffix env c l = (Some r, l') -> l' = l.
Proof.
  intros [_ Hr _] HP. unfold truncateSuffix. destruct (tr_open env); cbn [negb]; [|intros [= _ <-]; reflexivity].
  destruct (tr_renamed env); cbn [negb].
  - destruct (match last _ with Some _ => _ | None => _ end). destruct (_ <=? _); discriminate.
  - destruct (Hr HP) as [| ->]; [discriminate|]. intros [= _ <-]. apply set_lastIndex_same.
Qed.

Lemma appendToLog_shape env q ps n lo rs reply n' : atomic_io env (replaces rs q (length ps)) -> log_wf (n_log n) lo rs -> request_ok q (length ps) ->
  appendToLog env q ps n = (Some reply, n') -> exists rs', log_wf (n_log n') lo rs'.
Proof.
  intros A W Hq Hr. pose proof (lw_lo _ _ _ W).
  destruct (appendToLog_checked _ _ _ _ _ _ _ _ W Hq Hr) as [[-> _]|[F Hr']]; [eauto|]. clear Hr.
  destruct (decide (ps = [])) as [->|Hne]; [discriminate Hr'|].
  destruct (request_parts _ lo rs q ps W Hq Hne F) as (Hj & Hjl & Hp). pose proof (ft_snap _ _ _ F Hne) as Hsnap.
  set (j := Z.to_nat (aq_prevIndex q + 1 - lo)) in *. revert Hr'.
  replace (negb (length ps =? 0)%nat) with true by (destruct ps; [congruence|reflexivity]). cbn [andb].
  assert (Happ : forall f l r0 n0 rs1, log_wf l lo rs1 ->
    (if (f <? length ps)%nat then let '(r, l) := appendBatch env q f ps l in (r, set_log n l) else (None, set_log n l))
    = (Some r0, n0) -> exists rs', log_wf (n_log n0) lo rs').
  { intros f l r0 n0 rs1 W1. destruct (f <? length ps)%nat; [|discriminate].
    destruct (appendBatch env q f ps l) as [r1 l1] eqn:Ea. intros [= -> <-]. rewrite (appendBatch_atomic _ _ _ _ _ _ _ _ A Ea). eauto. }
  destruct Hp as [Hm|m Hm Hl Hmm|m x Hm Hl Hx Hmm]; rewrite !Nat.add_0_l in *; cbn [Z.eqb negb andb];
    [apply (Happ _ _ _ _ rs W)..|].
  replace (lo + Z.of_nat (j + m) =? 0) with false by lia. cbn [negb andb].
  destruct (_ <=? Z.max (commitIndex n) (lastApplied n)); [intros [= _ <-]; eauto|].
  pose proof (conflict_replaces _ _ _ _ _ _ _ _ W Hj Hm Hl Hx) as Hrep. apply lookup_lt_Some in Hl.
  destruct (truncateSuffix env _ (n_log n)) as [[r1|] l1] eqn:Etr.
  - intros [= _ <-]. rewrite (truncate_atomic _ _ _ _ _ _ A Hrep Etr). eauto.
  - destruct (truncate_wf env _ lo rs (j + m) l1 W ltac:(lia) ltac:(lia) (at_short _ _ A Hrep) Etr) as [W1 _].
    apply (Happ _ _ _ _ _ W1).
Qed.

(** C13: when the failures of the storage leave files whole (a batch is written whole
    or not at all; and when an entry of the log has to be replaced, the shortened copy
    is written whole and the log is not removed when its replacement then fails),
    every outcome of an
    append request leaves a well-formed log: its file holds whole records with
    consecutive indexes from the same first one, and the last index and term kept
    in memory are those of its end. *)
Theorem append_keeps_log_wf env q n lo rs reply n' :
  atomic_io env (replaces rs q (length (aq_entries q))) -> log_wf (n_log n) lo rs -> request_ok q (length (aq_entries q)) ->
  handleAppend env q n = (reply, n') -> exists rs', log_wf (n_log n') lo rs'.
Proof.
  intros A W Hq H.
  destruct (handleAppend_inv _ _ _ _ _ H) as [(_ & -> & _)|(n1 & ps & r & n2 & Hl & _ & _ & _ & _ & _ & He & Hlog & Hend)]; [eauto|].
  destruct (encode_entries_ok _ _ He) as [Hps Hlen]. rewrite <- Hlen in Hq, A. rewrite <- Hl in W. destruct r as [r|].
  - injection Hend as _ <-. exact (appendToLog_shape _ _ _ _ _ _ _ _ A W Hq Hlog).
  - destruct (appendToLog_none _ _ _ _ _ _ _ W Hq Hps (at_short _ _ A) Hlog) as (_ & l' & -> & W').
    exists (merged lo rs q ps). revert Hend. unfold sync_and_ack, follow_commit.
    destruct (ap_synced env); intros [= _ <-]; [|exact W']. destruct (_ <? Z.min _ _); exact W'.
Qed.

(** ** Progress *)

Record clean (env : append_env) : Prop := {
  cl_term : ae_term_io env = PersistOk; cl_open : tr_open env = true; cl_short : tr_short env = None;
  cl_renamed : tr_renamed env = true; cl_written : ap_written env = None; cl_synced : ap_synced env = true }.

Record node_ready (n : raft_node) : Prop := {
  nr_recovered : recoveryComplete n = true;
  nr_certain : publicationUncertain (n_durable n) = false;
  nr_progress : lastApplied n <= commitIndex n;
  nr_durable : c_applied (persistedState (n_durable n)) <= c_commit (persistedState (n_durable n)) }.

Lemma adopt_ready term n : node_ready n -> exists n', adoptLeaderTerm PersistOk term n = (Ok tt, n') /\ recoveryComplete n' = true.
Proof.
  intros [Hr Hc Hp Hd]. unfold adoptLeaderTerm. destruct (term <? _); [eauto|]. destruct (_ <? term); [|eexists; split; [reflexivity|exact Hr]].
  unfold persistElection, persistConsensusState. cbn [set_election n_durable n_election currentTerm votedFor new_term commitIndex lastApplied].
  rewrite Hc. rewrite (proj2 (Z.ltb_ge (commitIndex n) (lastApplied n))) by lia.
  destruct (true && _); cbn [c_term c_vote c_commit c_applied];
    (rewrite (proj2 (Z.ltb_ge (Z.max _ _) _)) by lia; eexists; split; [reflexivity|exact Hr]).
Qed.

Lemma truncate_clean env l c : clean env -> exists l', truncateSuffix env c l = (None, l').
Proof.
  intros [_ Ho Hs Hr _ _]. unfold truncateSuffix. rewrite Ho, Hs, Hr. cbn [negb].
  destruct (match last _ with Some _ => _ | None => _ end) as [ki kt]. destruct (_ <=? ki); eauto.
Qed.

Lemma appendBatch_clean env q f ps l : clean env -> Forall payload_ok ps -> exists l', appendBatch env q f ps l = (None, l').
Proof.
  intros [_ _ _ _ Hw _] Hps. unfold appendBatch. rewrite batch_bytes_ok by apply Forall_drop, Hps. rewrite Hw. eauto.
Qed.

Lemma appendToLog_clean env q ps n lo rs : clean env -> log_wf (n_log n) lo rs -> request_ok q (length ps) ->
  Forall payload_ok ps -> fits (n_log n) q ps ->
  (forall k i r, rs !! i = Some r -> (k < length ps)%nat -> rec_index r = aq_prevIndex q + 1 + Z.of_nat k ->
     rec_index r <= Z.max (commitIndex n) (lastApplied n) -> rec_term r = incomingTerm q k) ->
  exists n', appendToLog env q ps n = (None, n').
Proof.
  intros C W Hq Hps F Hfloor. unfold appendToLog. pose proof (ft_prev _ _ _ F). rewrite (proj2 (Z.ltb_ge _ (aq_prevIndex q))) by lia.
  destruct (_ && _ && _) eqn:E2.
  { destruct ps; [discriminate|]. pose proof (ft_snap _ _ _ F ltac:(discriminate)). lia. }
  destruct (_ && negb (_ =? aq_prevTerm q)) eqn:E3.
  { pose proof (ft_term _ _ _ F ltac:(lia)). lia. }
  destruct (decide (ps = [])) as [->|Hne]; [cbn; eauto|].
  destruct (request_parts _ lo rs q ps W Hq Hne F) as (Hj & Hjl & Hp). pose proof (lw_lo _ _ _ W).
  set (j := Z.to_nat (aq_prevIndex q + 1 - lo)) in *.
  replace (negb (length ps =? 0)%nat) with true by (destruct ps; [congruence|reflexivity]). cbn [andb].
  destruct Hp as [Hm|m Hm Hl Hmm|m x Hm Hl Hx Hmm]; rewrite !Nat.add_0_l in *; cbn [Z.eqb negb andb].
  - rewrite Nat.ltb_irrefl. eauto.
  - rewrite (proj2 (Nat.ltb_lt m _)) by lia. destruct (appendBatch_clean env q m ps (n_log n) C Hps) as [l' ->]. eauto.
  - replace (lo + Z.of_nat (j + m) =? 0) with false by lia. cbn [negb andb].
    destruct (_ <=? Z.max _ _) eqn:Ef.
    { pose proof (wf_lookup _ _ _ _ _ W Hl). destruct Hx. apply (Hfloor m _ _ Hl); lia. }
    destruct (truncate_clean env (n_log n) (lo + Z.of_nat (j + m)) C) as [l1 ->].
    rewrite (proj2 (Nat.ltb_lt m _)) by lia. destruct (appendBatch_clean env q m ps l1 C Hps) as [l' ->]. eauto.
Qed.

(** C12: a follower that has recovered, knows its durable state and has applied no more
    than is committed acknowledges an append request when every call to the storage
    succeeds, the request's term is not older than its own, the entries encode, the
    previous entry lies in the log with the same term, and, for a request with entries, not
    below the snapshot, and no entry contradicts one at or below the commit and
    applied indexes. *)
Theorem append_acknowledges env q n lo rs ps :
  clean env -> node_ready n -> log_wf (n_log n) lo rs -> request_ok q (length (aq_entries q)) ->
  currentTerm (n_election n) <= aq_term q -> encode_entries (aq_entries q) = Ok ps -> fits (n_log n) q ps ->
  (forall k i r, rs !! i = Some r -> (k < length ps)%nat -> rec_index r = aq_prevIndex q + 1 + Z.of_nat k ->
     rec_index r <= Z.max (commitIndex n) (lastApplied n) -> rec_term r = incomingTerm q k) ->
  exists m n', handleAppend env q n = (Ack (aq_term q) m, n').
Proof.
  intros C R W Hq Ht He F Hfloor. unfold handleAppend. rewrite (proj2 (Z.ltb_ge (aq_term q) _)) by lia.
  rewrite (cl_term _ C). destruct (adopt_ready (aq_term q) n R) as (n1 & Ha & Hr). rewrite Ha.
  apply adopt_frame in Ha as (_ & Hl & Hc & Hap & Hterm). set (n1' := set_election n1 _).
  change (recoveryComplete n1') with (recoveryComplete n1). rewrite Hr, He. cbn [negb].
  destruct (encode_entries_ok _ _ He) as [Hps Hlen]. rewrite <- Hlen in Hq.
  destruct (appendToLog_clean env q ps n1' lo rs C) as [n2 Hn2]; auto.
  - change (n_log n1') with (n_log n1). rewrite Hl. exact W.
  - change (n_log n1') with (n_log n1). rewrite Hl. exact F.
  - change (commitIndex n1') with (commitIndex n1). change (lastApplied n1') with (lastApplied n1). rewrite Hc, Hap. exact Hfloor.
  - rewrite Hn2. unfold sync_and_ack. rewrite (cl_synced _ C). cbn [negb].
    rewrite <- Hl in W. destruct (appendToLog_none env q ps n1' lo rs n2 W Hq Hps (fun _ => cl_short _ C) Hn2) as (_ & l' & -> & _).
    replace (aq_term q) with (currentTerm (n_election (follow_commit (aq_commit q) (set_log n1' l')))); [eauto|].
    unfold follow_commit. destruct (_ <? _); apply (Hterm Ht).
Qed.
End Append.

(** ** Heartbeats *)

(** A heartbeat leaves the log alone, and moves the commit index, never past
    the log's end, only when the leader's last index and term are those of the
    follower's log. *)
Theorem heartbeat_commits_matching_tail io q n reply n' :
  handleHeartbeat io q n = (reply, n') ->
  n_log n' = n_log n /\ commitIndex n <= commitIndex n' /\
  (commitIndex n' <> commitIndex n ->
     commitIndex n' <= Z.min (hq_commit q) (lastIndex (n_log n)) /\
     exists t, hq_position q = Some (Z.max (lastIndex (n_log n)) (lastSnapshotIndex (n_log n)), t) /\
       (t = log_term (n_log n) (Z.max (lastIndex (n_log n)) (lastSnapshotIndex (n_log n))) \/ t = lastEntryTerm (n_log n))).
Proof.
  assert (Hpe : forall n0 r n1, persistElection io n0 = (r, n1) -> n_log n1 = n_log n0 /\ commitIndex n1 = commitIndex n0).
  { intros n0 r n1 H. apply persistElection_core in H as [_ H1 H2 _ _ _ _]. auto. }
  unfold handleHeartbeat. destruct (recoveryComplete n); cbn [negb]; [|intros [= _ <-]; repeat split; lia].
  destruct (match hq_position q with Some _ => _ | None => _ end) as [[lt ma] be] eqn:Epos.
  destruct (_ <? currentTerm _); [intros [= _ <-]; repeat split; lia|]. destruct (be && _).
  - destruct (currentTerm _ <? _); [|intros [= _ <-]; repeat split; lia].
    destruct (persistElection _ _) as [r n1] eqn:Ep. destruct (Hpe _ _ _ Ep) as [H1 H2]. cbn in H1, H2.
    destruct r; intros [= _ <-]; rewrite H1, H2; repeat split; lia.
  - destruct (adoptLeaderTerm _ _ _) as [r n1] eqn:Ea. apply adopt_frame in Ea as (_ & Hl & Hc & _).
    destruct r; [|intros [= _ <-]; rewrite Hl, Hc; repeat split; lia]. destruct ma.
    2:{ intros [= _ <-]. cbn. rewrite Hl, Hc. repeat split; lia. }
    intros [= _ <-]. unfold follow_commit. cbn [set_election n_log commitIndex].
    destruct (hq_position q) as [[li lte]|]; [|discriminate]. injection Epos as Ht Hm _.
    destruct (commitIndex n1 <? _) eqn:Ec; cbn [set_commit set_election n_log commitIndex]; rewrite Hl, Hc in *;
      (split; [reflexivity|]); (split; [lia|]); [|lia]. intros _. split; [lia|]. exists lte.
    apply andb_true_iff in Hm as [H1%Z.eqb_eq H2%Z.eqb_eq]. split; [congruence|]. rewrite H2. destruct (_ =? 0); auto.
Qed.

(** ** Examples *)

#[local] Existing Instance rle_lz4.

Definition sample_log : list raft_record :=
  [mkRaftRecord 1 1 sample_payload; mkRaftRecord 2 2 sample_payload; mkRaftRecord 3 2 sample_payload].

(** A follower of term 2 with entry 3 uncommitted. *)
Definition sample_follower : raft_node :=
  mkNode (str "b") true false (mkElection 2 (str "a") (str "a") false true)
    (mkDurable (mkConsensus 2 (str "a") 2 1) false (Some (mkConsensus 2 (str "a") 2 1)))
    (mkLog (write_records sample_log) 3 2 0 0) 2 1.

Definition all_good : append_env := mkAppendEnv PersistOk true None true true None true.

(** The leader of term 3 replaces entry 3. *)
Definition sample_append : append_request := mkAppend 3 (str "c") 2 2 3 [sample_value] [JUInt 3].

Lemma sample_log_wf : log_wf (n_log sample_follower) 1 sample_log.
Proof.
  split; try reflexivity; try (cbn; lia).
  repeat (apply Forall_cons; split); try apply Forall_nil; try exact I;
    (split; [cbn; lia|cbn; lia|vm_compute; split; [reflexivity|discriminate]]).
Qed.

Lemma sample_request_ok : request_ok sample_append (length (aq_entries sample_append)).
Proof. split; cbn; lia. Qed.

Lemma append_merges_witness :
  let '(reply, n') := handleAppend all_good sample_append sample_follower in
  reply = Ack 3 3 /\ exists ps, log_wf (n_log n') 1 (merged 1 sample_log sample_append ps) /\ commitIndex n' = 3.
Proof.
  destruct (handleAppend all_good sample_append sample_follower) as [reply n'] eqn:E.
  assert (Hr : reply = Ack 3 3) by (vm_compute in E; congruence).
  split; [exact Hr|]. rewrite Hr in E.
  destruct (append_merges all_good sample_append sample_follower 1 sample_log 3 3 n' sample_log_wf sample_request_ok (fun _ => eq_refl) E)
    as (ps & _ & _ & W & _ & Hl & Hc).
  exists ps. split; [exact W|]. rewrite Hc, <- Hl. reflexivity.
Defined.

(** The same request when appending fails after ten bytes. *)
Definition torn_append : append_env := mkAppendEnv PersistOk true None true true (Some 10%nat) true.

Lemma committed_entries_stay_witness :
  let '(reply, n') := handleAppend torn_append sample_append sample_follower in
  reply = Nack /\ raft_log_records (log_file (n_log n')) !! 1%nat = Some (mkRaftRecord 2 2 sample_payload).
Proof.
  destruct (handleAppend torn_append sample_append sample_follower) as [reply n'] eqn:E.
  split; [vm_compute in E; congruence|].
  destruct (committed_entries_stay torn_append sample_append sample_follower 1 sample_log reply n'
              sample_log_wf sample_request_ok (fun _ => conj eq_refl (or_introl eq_refl)) E) as [H _].
  apply (H 1%nat); [reflexivity | cbn; lia].
Defined.

Lemma append_keeps_log_wf_witness :
  let '(reply, n') := handleAppend (mkAppendEnv PersistOk true None true true (Some 0%nat) true) sample_append sample_follower in
  reply = Nack /\ exists rs', log_wf (n_log n') 1 rs'.
Proof.
  destruct (handleAppend (mkAppendEnv PersistOk true None true true (Some 0%nat) true) sample_append sample_follower) as [reply n'] eqn:E.
  split; [vm_compute in E; congruence|].
  apply (append_keeps_log_wf (mkAppendEnv PersistOk true None true true (Some 0%nat) true) sample_append sample_follower 1 sample_log reply n').
  - split; auto.
  - apply sample_log_wf.
  - apply sample_request_ok.
  - exact E.
Defined.

Lemma append_acknowledges_witness : exists m n', handleAppend all_good sample_append sample_follower = (Ack 3 m, n').
Proof.
  destruct (encode_entries (aq_entries sample_append)) as [ps|] eqn:E; [|vm_compute in E; discriminate].
  apply (append_acknowledges all_good sample_append sample_follower 1 sample_log ps).
  - split; reflexivity.
  - split; cbn; first [reflexivity | lia].
  - apply sample_log_wf.
  - apply sample_request_ok.
  - cbn. lia.
  - exact E.
  - split; [cbn; lia | cbn; lia | intros _; vm_compute; reflexivity].
  - intros k i r Hi Hk Hidx Hf. cbn in Hf, Hidx. lia.
Defined.

(** A leader whose tail is this follower's lets it commit entry 3. *)
Definition sample_heartbeat : heartbeat_request := mkHeartbeat 2 (str "a") (Some (3, 2)) 3.

Lemma heartbeat_commits_matching_tail_witness :
  let '(reply, n') := handleHeartbeat PersistOk sample_heartbeat sample_follower in
  commitIndex n' = 3 /\ n_log n' = n_log sample_follower.
Proof.
  destruct (handleHeartbeat PersistOk sample_heartbeat sample_follower) as [reply n'] eqn:E.
  split; [vm_compute in E; injection E as _ <-; reflexivity|].
  exact (proj1 (heartbeat_commits_matching_tail PersistOk sample_heartbeat sample_follower reply n' E)).
Defined.

(** A leader of term 3 sends entry 2 only, with commit index 3: the follower
    acknowledges 3 and commits its own entry 3, of a term the leader never sent. *)
Example append_commits_unverified_suffix :
  let '(reply, n') := handleAppend all_good (mkAppend 3 (str "c") 1 1 3 [sample_value] [JUInt 2]) sample_follower in
  reply = Ack 3 3 /\ commitIndex n' = 3 /\ n_log n' = n_log sample_follower.
Proof. vm_compute. auto. Qed.

(** When the rename of the truncated copy fails, the log and its committed
    entries are gone. *)
Example failed_truncation_loses_log :
  let '(reply, n') := handleAppend (mkAppendEnv PersistOk true None true false None true) sample_append sample_follower in
  reply = Nack /\ log_file (n_log n') = [] /\ commitIndex n' = 2 /\ lastIndex (n_log n') = 3.
Proof. vm_compute. auto. Qed.

(** A failed write to the copy goes unnoticed: the append is acknowledged though
    the log has lost the committed entries 1 and 2. *)
Example short_truncation_acknowledged :
  let '(reply, n') := handleAppend (mkAppendEnv PersistOk true (Some 0%nat) true true None true) sample_append sample_follower in
  reply = Ack 3 3 /\ raft_log_records (log_file (n_log n')) = [mkRaftRecord 3 3 sample_payload].
Proof. vm_compute. auto. Qed.

(** Shipped entries land after the follower's end, wherever the leader has them:
    entry 5 of the leader becomes entry 4 here, and the answer is the same. *)
Example wal_ship_misplaces :
  let '(reply, n') := handleWalShip all_good 2 5 [sample_value] sample_follower in
  reply = Ack 2 4 /\ lastIndex (n_log n') = 4 /\ commitIndex n' = 4.
Proof. vm_compute. auto. Qed.
