(* ===== verification/RaftElection.v ===== *)
(** * Elections in a cluster (raft_core.cpp): at most one winner per term

    Nodes run the handlers of [RaftNode] and [RaftAppend]; messages may be lost,
    repeated and late; storage may fail at every write; nodes may restart at any
    time from what their state file holds.  Each election a node starts counts the
    replies to its own request, one for each peer.

    The invariant is that every vote a node gave stays binding: in memory, in the
    record it persists from and in its file the term has moved on or the vote is
    the one given. *)

From S2P Require Import Prelude Json Msgpack Checksum Sst RaftLog RaftNode RaftAppend.
From stdpp Require Import base list strings.
From Stdlib Require Import ZArith Lia ZifyBool.

Open Scope Z_scope.

#[export] Instance vote_request_eq_dec : EqDecision vote_request.
Proof. solve_decision. Defined.
#[export] Instance election_run_eq_dec : EqDecision election_run.
Proof. solve_decision. Defined.

(** ** The cluster *)

Record cluster := mkCluster {
  cl_nodes : list raft_node;
  cl_runs : list (nat * election_run);                       (* elections started, by node *)
  cl_replies : list (nat * vote_request * vote_response);    (* answers given, by voter *)
  cl_grants : list (nat * Z * bytes);                        (* votes given: voter, term, candidate *)
  cl_wins : list (Z * bytes);                                (* elections won: term, node *)
  cl_pending : list nat }.                                   (* winners that have not set their flag *)

Inductive event :=
| EvVote (v : nat) (env : vote_env) (q : vote_request)
| EvStart (c : nat) (io1 io2 : persist_io)
| EvFinish (c : nat) (run : election_run) (voters : list nat) (contacted : bool)
| EvLead (c : nat)
| EvHeartbeat (v : nat) (io : persist_io) (q : heartbeat_request)
| EvAppend (v : nat) (env : append_env) (q : append_request)
| EvShip (v : nat) (env : append_env) (term leaderCommit : Z) (entries : list json)
| EvObserve (v : nat) (io : persist_io) (term : Z)
| EvProgress (v : nat) (io : persist_io)
| EvApplied (v : nat) (io : persist_io) (applied : Z)
| EvFence (v : nat)
| EvRestart (v : nat) (recovered : bool) (l : log_state).

Section Election.
Context `{LZ : Lz4}.

Definition set_node (cl : cluster) (v : nat) (n : raft_node) : cluster :=
  mkCluster (<[v := n]> (cl_nodes cl)) (cl_runs cl) (cl_replies cl) (cl_grants cl) (cl_wins cl) (cl_pending cl).
Definition add_grant (cl : cluster) (v : nat) (t : Z) (c : bytes) : cluster :=
  mkCluster (cl_nodes cl) (cl_runs cl) (cl_replies cl) ((v, t, c) :: cl_grants cl) (cl_wins cl) (cl_pending cl).
Definition add_reply (cl : cluster) (v : nat) (q : vote_request) (p : vote_response) : cluster :=
  mkCluster (cl_nodes cl) (cl_runs cl) ((v, q, p) :: cl_replies cl) (cl_grants cl) (cl_wins cl) (cl_pending cl).
Definition add_run (cl : cluster) (c : nat) (run : election_run) : cluster :=
  mkCluster (cl_nodes cl) ((c, run) :: cl_runs cl) (cl_replies cl) (cl_grants cl) (cl_wins cl) (cl_pending cl).
Definition add_win (cl : cluster) (c : nat) (t : Z) (id : bytes) : cluster :=
  mkCluster (cl_nodes cl) (cl_runs cl) (cl_replies cl) (cl_grants cl) ((t, id) :: cl_wins cl) (c :: cl_pending cl).

(** A reply of [v] to this run's request that the candidate counts. *)
Definition voted_for (cl : cluster) (n : raft_node) (run : election_run) (v : nat) : bool :=
  existsb (fun '(w, q, p) => (w =? v)%nat && bool_decide (q = vote_request_of n run) && counts_vote run p) (cl_replies cl).

(** [None]: the event cannot happen. *)
Definition cluster_step (cl : cluster) (ev : event) : option cluster :=
  match ev with
  | EvVote v env q =>
      n ← cl_nodes cl !! v;
      let '(reply, n) := handleVote env q n in
      let cl := set_node cl v n in
      match reply with
      | None => Some cl
      | Some p => Some (add_reply (if vp_granted p then add_grant cl v (vq_term q) (vq_candidate q) else cl) v q p)
      end
  | EvStart c io1 io2 =>
      n ← cl_nodes cl !! c;
      if currentTerm (n_election n) + 1 <? 2 ^ 64 then
        let '(r, n) := startElection io1 io2 n in
        let cl := set_node cl c n in
        match r with
        | Ok (Some run) => Some (add_run (add_grant cl c (er_term run) (nodeId n)) c run)
        | _ => Some cl
        end
      else None
  | EvFinish c run voters contacted =>
      n ← cl_nodes cl !! c;
      if bool_decide ((c, run) ∈ cl_runs cl) && bool_decide (NoDup (c :: voters)) && forallb (voted_for cl n run) voters
      then
        let '(won, n) := finishElection (Z.of_nat (length (cl_nodes cl))) run (Z.of_nat (length voters)) contacted n in
        let cl := set_node cl c n in
        Some (if won then add_win cl c (er_term run) (nodeId n) else cl)
      else None
  | EvLead c =>
      n ← cl_nodes cl !! c;
      if bool_decide (c ∈ cl_pending cl) then Some (set_node cl c (becomeLeader n)) else None
  | EvHeartbeat v io q => n ← cl_nodes cl !! v; Some (set_node cl v (handleHeartbeat io q n).2)
  | EvAppend v env q => n ← cl_nodes cl !! v; Some (set_node cl v (handleAppend env q n).2)
  | EvShip v env t lc es => n ← cl_nodes cl !! v; Some (set_node cl v (handleWalShip env t lc es n).2)
  | EvObserve v io t => n ← cl_nodes cl !! v; Some (set_node cl v (observeHigherTerm io t n).2)
  | EvProgress v io => n ← cl_nodes cl !! v; Some (set_node cl v (persistProgress io n).2)
  | EvApplied v io a => n ← cl_nodes cl !! v; Some (set_node cl v (persistAppliedProgress io a n).2)
  | EvFence v => n ← cl_nodes cl !! v; Some (set_node cl v (fenceStorageFailure n))
  | EvRestart v rec l => n ← cl_nodes cl !! v; Some (set_node cl v (restart n rec l))
  end.

Fixpoint run_events (cl : cluster) (evs : list event) : option cluster :=
  match evs with
  | [] => Some cl
  | ev :: rest => cl' ← cluster_step cl ev; run_events cl' rest
  end.

(** New nodes: nothing voted, nothing stored. *)
Definition fresh_node (id : bytes) : raft_node := restart (mkNode id true false (mkElection 0 [] [] false true)
  (mkDurable (mkConsensus 0 [] 0 0) false None) (mkLog [] 0 0 0 0) 0 0) true (mkLog [] 0 0 0 0).
Definition fresh_cluster (ids : list bytes) : cluster := mkCluster (fresh_node <$> ids) [] [] [] [] [].

(** ** Votes stay binding *)

Definition binds (term : Z) (vote : bytes) (t : Z) (c : bytes) : Prop := t < term \/ t = term /\ vote = c.

Definition binds_mem (n : raft_node) (t : Z) (c : bytes) : Prop :=
  binds (currentTerm (n_election n)) (votedFor (n_election n)) t c.

Definition binds_store (n : raft_node) (t : Z) (c : bytes) : Prop :=
  let p := persistedState (n_durable n) in
  binds (c_term p) (c_vote p) t c /\ exists d, stateFile (n_durable n) = Some d /\ binds (c_term d) (c_vote d) t c.

Definition behind (n : raft_node) : Prop := c_term (persistedState (n_durable n)) <= currentTerm (n_election n).

(** What every handler does to a node: it keeps its name, its stored term stays
    behind, and the votes it gave stay binding. *)
Record keeps (n n' : raft_node) : Prop := {
  kp_id : nodeId n' = nodeId n;
  kp_behind : behind n -> behind n';
  kp_binds : forall t c, c <> [] -> binds_mem n t c -> binds_store n t c -> binds_mem n' t c /\ binds_store n' t c }.

Lemma keeps_refl n : keeps n n.
Proof. split; auto. Qed.

Lemma keeps_trans a b c : keeps a b -> keeps b c -> keeps a c.
Proof.
  intros [H1 H2 H3] [G1 G2 G3]. split; [congruence|auto|]. intros t v Hv Hm Hs. destruct (H3 t v Hv Hm Hs). auto.
Qed.

(** Changes of memory only. *)
Lemma keeps_mem n n' : nodeId n' = nodeId n -> n_durable n' = n_durable n ->
  (currentTerm (n_election n) < currentTerm (n_election n') \/
   currentTerm (n_election n) = currentTerm (n_election n') /\ votedFor (n_election n) = votedFor (n_election n')) -> keeps n n'.
Proof.
  intros Hid Hd Ht. split; [exact Hid| |]; unfold behind, binds_mem, binds_store, binds; rewrite Hd.
  - lia.
  - intros t c _ Hm Hs. split; [|exact Hs]. destruct Ht as [Ht|[Ht Hv]]; [lia|]. rewrite <- Ht, <- Hv. exact Hm.
Qed.

Lemma keeps_persist io commit applied upd n r n' :
  persistConsensusState io (currentTerm (n_election n)) (votedFor (n_election n)) commit applied upd n = (r, n') -> keeps n n'.
Proof.
  intros H. pose proof (persist_core _ _ _ _ _ _ _ _ _ H) as C. split; [apply C| |].
  - revert H. unfold behind. rewrite (sc_term _ _ C). unfold persistConsensusState.
    destruct (commit <? applied); [intros [= _ <-]; auto|]. destruct (publicationUncertain _); [intros [= _ <-]; auto|].
    destruct (upd && _) eqn:E; destruct (_ <? c_applied _); destruct io; intros [= _ <-]; cbn; lia.
  - intros t c _ Hm [Hp (d & Hd & Hb)]. split.
    { unfold binds_mem. rewrite (sc_term _ _ C), (sc_vote _ _ C). exact Hm. }
    revert H. unfold persistConsensusState, binds_store, binds_mem in *.
    destruct (commit <? applied); [intros [= _ <-]; eauto|]. destruct (publicationUncertain _); [intros [= _ <-]; eauto|].
    destruct (upd && _) eqn:E; destruct (_ <? c_applied _); destruct io as [| |[]]; intros [= _ <-]; cbn;
      (split; [assumption|]); eexists; (split; [eassumption || reflexivity|]); assumption.
Qed.

Lemma keeps_election io n r n' : persistElection io n = (r, n') -> keeps n n'.
Proof. apply keeps_persist. Qed.

(** A persisted vote is in the file. *)
Lemma persisted_binds io n n' : behind n -> persistElection io n = (Ok tt, n') ->
  binds_mem n' (currentTerm (n_election n)) (votedFor (n_election n)) /\
  binds_store n' (currentTerm (n_election n)) (votedFor (n_election n)).
Proof.
  intros Hb H. pose proof (persistElection_core _ _ _ _ H) as C. split.
  { unfold binds_mem. rewrite (sc_term _ _ C), (sc_vote _ _ C). right. auto. }
  revert H. unfold persistElection, persistConsensusState, binds_store, behind in *.
  destruct (_ <? lastApplied n); [discriminate|]. destruct (publicationUncertain _); [discriminate|].
  rewrite (proj2 (Z.leb_le _ _)) by exact Hb. cbn [andb]. destruct (_ <? c_applied _); [discriminate|].
  destruct io; try discriminate. intros [= <-]. cbn. split; [right; auto|]. eexists. split; [reflexivity|]. right. auto.
Qed.

(** ** Every handler keeps votes binding *)

Lemma keeps_restart n rec l : keeps n (restart n rec l).
Proof.
  split; [reflexivity| |]; unfold behind, binds_mem, binds_store, restart; cbn; [lia|].
  intros t c _ _ [_ (d & Hd & Hb)]. rewrite Hd. cbn. eauto.
Qed.

Lemma keeps_adopt io term n r n' : adoptLeaderTerm io term n = (r, n') -> keeps n n'.
Proof.
  unfold adoptLeaderTerm. destruct (term <? _); [intros [= _ <-]; apply keeps_refl|].
  destruct (_ <? term) eqn:E; [|intros [= _ <-]; apply keeps_mem; auto].
  intros H%keeps_election. eapply keeps_trans; [|exact H]. apply keeps_mem; [reflexivity..|]. left. cbn. lia.
Qed.

Lemma keeps_observe io term n r n' : observeHigherTerm io term n = (r, n') -> keeps n n'.
Proof.
  unfold observeHigherTerm. destruct (term <=? _) eqn:E; [intros [= _ <-]; apply keeps_refl|].
  intros H%keeps_election. eapply keeps_trans; [|exact H]. apply keeps_mem; [reflexivity..|]. left. cbn. lia.
Qed.

Lemma keeps_follow lc n : keeps n (follow_commit lc n).
Proof. unfold follow_commit. destruct (_ <? _); [apply keeps_mem; auto|apply keeps_refl]. Qed.

Lemma keeps_fence n : keeps n (fenceStorageFailure n).
Proof. apply keeps_mem; auto. Qed.

Lemma keeps_heartbeat io q n : keeps n (handleHeartbeat io q n).2.
Proof.
  unfold handleHeartbeat. destruct (negb _); [apply keeps_refl|].
  destruct (match hq_position q with Some _ => _ | None => _ end) as [[lt ma] be].
  destruct (_ <? currentTerm _) eqn:E1; [apply keeps_refl|]. destruct (be && _).
  - destruct (_ <? hq_term q) eqn:E2; [|apply keeps_refl]. destruct (persistElection _ _) as [r n1] eqn:Ep.
    apply keeps_election in Ep. destruct r; (eapply keeps_trans; [|exact Ep]; apply keeps_mem; [reflexivity..|]; left; cbn; lia).
  - destruct (adoptLeaderTerm _ _ _) as [r n1] eqn:Ea. apply keeps_adopt in Ea. destruct r; [|exact Ea].
    eapply keeps_trans; [exact Ea|]. destruct ma; cbn [snd]; [|apply keeps_mem; auto].
    eapply keeps_trans; [|apply keeps_follow]. apply keeps_mem; auto.
Qed.

Lemma keeps_sync env lc n : keeps n (sync_and_ack env lc n).2.
Proof. unfold sync_and_ack. destruct (negb _); [apply keeps_fence|apply keeps_follow]. Qed.

Lemma keeps_log n l : keeps n (set_log n l).
Proof. apply keeps_mem; auto. Qed.

Lemma keeps_appendToLog env q ps n r n' : appendToLog env q ps n = (r, n') -> keeps n n'.
Proof.
  unfold appendToLog. repeat case_match; intros [= _ <-]; first [apply keeps_refl | apply keeps_mem; auto; right; auto].
Qed.

Lemma keeps_append env q n : keeps n (handleAppend env q n).2.
Proof.
  unfold handleAppend. destruct (_ <? _); [apply keeps_refl|]. destruct (adoptLeaderTerm _ _ _) as [r n1] eqn:Ea.
  apply keeps_adopt in Ea. destruct r; [|exact Ea]. eapply keeps_trans; [exact Ea|]. set (n2 := set_election n1 _).
  assert (H2 : keeps n1 n2) by (apply keeps_mem; auto). eapply keeps_trans; [exact H2|].
  destruct (negb _); [apply keeps_refl|]. destruct (encode_entries _) as [ps|]; [|apply keeps_refl].
  destruct (appendToLog env q ps n2) as [r n3] eqn:El. apply keeps_appendToLog in El. destruct r; [exact El|].
  eapply keeps_trans; [exact El|apply keeps_sync].
Qed.

Lemma keeps_ship env t lc es n : keeps n (handleWalShip env t lc es n).2.
Proof.
  unfold handleWalShip. destruct (_ <? _); [apply keeps_refl|]. destruct (adoptLeaderTerm _ _ _) as [r n1] eqn:Ea.
  apply keeps_adopt in Ea. destruct r; [|exact Ea]. eapply keeps_trans; [exact Ea|].
  destruct (encode_entries _) as [ps|]; [|apply keeps_refl]. destruct (batch_bytes _ _ _ _); [|apply keeps_refl].
  destruct (ap_written env); [apply keeps_log|]. eapply keeps_trans; [apply keeps_log|apply keeps_sync].
Qed.

Lemma keeps_finish nodes run g contacted n : keeps n (finishElection nodes run g contacted n).2.
Proof.
  unfold finishElection. destruct (_ || _); [apply keeps_refl|]. cbn [snd].
  destruct (_ <=? _); [apply keeps_mem; auto|apply keeps_refl].
Qed.

Lemma keeps_applied io a n : keeps n (persistAppliedProgress io a n).2.
Proof.
  unfold persistAppliedProgress. destruct (_ <? a); [apply keeps_refl|].
  destruct (persistConsensusState _ _ _ _ _ _ _) as [r n'] eqn:E. exact (keeps_persist _ _ _ _ _ _ _ E).
Qed.

(** ** Votes given *)

(** A granted vote was free, or given to the same candidate already, in the
    request's term; from then on it binds. *)
Lemma handleVote_keeps env q n p n' : handleVote env q n = (p, n') -> keeps n n' /\
  (forall r, p = Some r -> vp_granted r = true -> behind n ->
     vq_candidate q <> [] /\ binds_mem n' (vq_term q) (vq_candidate q) /\ binds_store n' (vq_term q) (vq_candidate q) /\
     (forall c, binds_mem n (vq_term q) c -> c = [] \/ c = vq_candidate q)).
Proof.
  unfold handleVote. destruct (leader _ && _ && _); [intros [= <- <-]; split; [apply keeps_refl|intros r [= <-]; discriminate]|].
  destruct (negb _ && _ && _ && _); [intros [= <- <-]; split; [apply keeps_refl|intros r [= <-]; discriminate]|].
  destruct (if _ <? vq_term q then _ else _) as [r1 n1] eqn:E1.
  assert (K1 : keeps n n1 /\ (r1 = Ok tt -> currentTerm (n_election n1) = vq_term q ->
            forall c, binds_mem n (vq_term q) c -> votedFor (n_election n1) = c)).
  { destruct (_ <? vq_term q) eqn:Et.
    - pose proof (persistElection_core _ _ _ _ E1) as C. split.
      + eapply keeps_trans; [|exact (keeps_election _ _ _ _ E1)]. apply keeps_mem; [reflexivity..|]. left. cbn. lia.
      + intros _ _ c [Hc|[Hc _]]; lia.
    - injection E1 as <- <-. split; [apply keeps_refl|]. intros _ Ht c [Hc|[_ Hc]]; [lia|exact Hc]. }
  destruct K1 as [K1 Hfree]. destruct r1 as [[]|]; [|intros [= <- <-]; split; [exact K1|discriminate]].
  destruct (negb (recoveryComplete n1)); [intros [= <- <-]; split; [exact K1|intros r [= <-]; discriminate]|].
  destruct (_ && _ && _ && _) eqn:Eg; [|intros [= <- <-]; split; [exact K1|intros r [= <-]; discriminate]].
  rewrite !andb_true_iff, Z.eqb_eq, negb_true_iff, bytes_eqb_neq, orb_true_iff, !bytes_eqb_eq in Eg.
  destruct Eg as [[[Ht Hne] Hv] _].
  destruct (persistElection (ve_vote_io env) _) as [r2 n2] eqn:E2.
  pose proof (keeps_election _ _ _ _ E2) as K2.
  set (nv := set_election n1 (set_vote (n_election n1) (vq_candidate q))) in *.
  assert (Kv : behind n -> behind nv) by (intros B; apply (kp_behind _ _ K1) in B; exact B).
  assert (K : keeps n n2).
  { eapply keeps_trans; [exact K1|]. eapply keeps_trans; [|exact K2]. split; [reflexivity|auto|].
    intros t c Hc Hm Hs. split; [|exact Hs]. destruct Hm as [Hm|[Hm Hm']]; [left; exact Hm|].
    right. split; [exact Hm|]. cbn. destruct Hv; congruence. }
  destruct r2 as [[]|]; [|intros [= <- <-]; split; [exact K|discriminate]].
  intros [= <- <-]. split; [exact K|]. intros r [= <-] _ B.
  destruct (persisted_binds _ _ _ (Kv B) E2) as [Pm Ps]. cbn in Pm, Ps. rewrite <- Ht in Pm, Ps.
  repeat split; try assumption; try apply Pm; try apply Ps.
  intros c Hc. rewrite <- (Hfree eq_refl (eq_sym Ht) c Hc). destruct Hv; auto.
Qed.

Lemma u64_grows z : z < 2 ^ 64 -> z <= u64 z.
Proof. intros H. unfold u64. destruct (Z_lt_le_dec z 0); [|rewrite Z.mod_small; lia]. pose proof (Z.mod_pos_bound z (2 ^ 64)). lia. Qed.

Lemma startElection_keeps io1 io2 n r n' : startElection io1 io2 n = (r, n') ->
  currentTerm (n_election n) + 1 < 2 ^ 64 -> keeps n n' /\
  (forall run, r = Ok (Some run) -> behind n ->
     currentTerm (n_election n) < er_term run /\ binds_mem n' (er_term run) (nodeId n) /\ binds_store n' (er_term run) (nodeId n)).
Proof.
  intros H Hmax%u64_grows. revert H. unfold startElection. destruct (negb _); [intros [= <- <-]; split; [apply keeps_refl|discriminate]|].
  set (na := set_election n _).
  assert (Ka : keeps n na) by (apply keeps_mem; [reflexivity..|left; cbn; lia]).
  destruct (persistElection io1 na) as [r1 n1] eqn:E1. pose proof (keeps_election _ _ _ _ E1) as K1.
  pose proof (persistElection_core _ _ _ _ E1) as C1.
  assert (K01 : keeps n n1) by (eapply keeps_trans; eassumption).
  destruct r1 as [[]|]; [|intros [= <- <-]; split; [exact K01|discriminate]].
  set (nb := set_election n1 _). destruct (persistElection io2 nb) as [r2 n2] eqn:E2.
  pose proof (keeps_election _ _ _ _ E2) as K2. pose proof (persistElection_core _ _ _ _ E2) as C2.
  assert (Hterm : currentTerm (n_election nb) = u64 (currentTerm (n_election n) + 1)) by exact (sc_term _ _ C1).
  assert (Hid : nodeId n1 = nodeId n) by exact (kp_id _ _ K01).
  assert (Kb : keeps n nb).
  { split; [exact Hid| |].
    - intros B. exact (kp_behind _ _ K01 B).
    - intros t c Hc Hm Hs. split; [|exact (proj2 (kp_binds _ _ K01 t c Hc Hm Hs))].
      left. rewrite Hterm. destruct Hm; lia. }
  assert (K02 : keeps n n2) by (eapply keeps_trans; eassumption).
  destruct r2 as [[]|]; [|intros [= <- <-]; split; [exact K02|discriminate]].
  intros [= <- <-]. split; [eapply keeps_trans; [exact K02|apply keeps_mem; auto]|].
  intros run [= <-] B. cbn [er_term set_election n_election step_down currentTerm].
  destruct (persisted_binds _ _ _ (kp_behind _ _ Kb B) E2) as [Pm Ps]. rewrite <- (sc_term _ _ C2) in Pm, Ps.
  cbn in Pm, Ps. rewrite Hid in Pm, Ps. rewrite (sc_term _ _ C2), Hterm in *. repeat split; [lia|exact Pm|apply Ps|apply Ps].
Qed.

(** ** The invariant *)

Record node_inv (cl : cluster) (v : nat) (n : raft_node) : Prop := {
  ni_id : nodeId n <> [];
  ni_behind : behind n;
  ni_binds : forall t c, (v, t, c) ∈ cl_grants cl -> binds_mem n t c /\ binds_store n t c }.

Record cluster_inv (cl : cluster) : Prop := {
  ci_nodes : forall v n, cl_nodes cl !! v = Some n -> node_inv cl v n;
  ci_grants : forall v t c, (v, t, c) ∈ cl_grants cl -> c <> [] /\ (v < length (cl_nodes cl))%nat;
  ci_once : forall v t c c', (v, t, c) ∈ cl_grants cl -> (v, t, c') ∈ cl_grants cl -> c = c';
  ci_runs : forall c run n, (c, run) ∈ cl_runs cl -> cl_nodes cl !! c = Some n -> (c, er_term run, nodeId n) ∈ cl_grants cl;
  ci_replies : forall v q p, (v, q, p) ∈ cl_replies cl -> vp_granted p = true -> (v, vq_term q, vq_candidate q) ∈ cl_grants cl;
  ci_wins : forall t c, (t, c) ∈ cl_wins cl -> exists voters, NoDup voters /\
    quorumSize (Z.of_nat (length (cl_nodes cl))) <= Z.of_nat (length voters) /\ forall v, v ∈ voters -> (v, t, c) ∈ cl_grants cl }.

Lemma set_node_inv cl v n n' : cluster_inv cl -> cl_nodes cl !! v = Some n -> keeps n n' -> cluster_inv (set_node cl v n').
Proof.
  intros [N G O R P W] Hv K.
  split; cbn [set_node cl_nodes cl_runs cl_replies cl_grants cl_wins]; rewrite ?length_insert; auto.
  - intros w m Hw. destruct (decide (v = w)) as [->|Hne].
    + rewrite list_lookup_insert_eq in Hw by (apply lookup_lt_Some in Hv; exact Hv). injection Hw as <-.
      destruct (N _ _ Hv) as [I B Bi]. split; [rewrite (kp_id _ _ K); exact I|apply (kp_behind _ _ K), B|].
      intros t c Hg. destruct (Bi t c Hg). apply (kp_binds _ _ K); auto. apply (G _ _ _ Hg).
    + rewrite list_lookup_insert_ne in Hw by exact Hne. destruct (N _ _ Hw). split; auto.
  - intros c run m Hr Hm. destruct (decide (v = c)) as [->|Hne].
    + rewrite list_lookup_insert_eq in Hm by (apply lookup_lt_Some in Hv; exact Hv). injection Hm as <-.
      rewrite (kp_id _ _ K). eauto.
    + rewrite list_lookup_insert_ne in Hm by exact Hne. eauto.
Qed.

(** A vote the node is bound to and that contradicts none it gave. *)
Lemma add_grant_inv cl v n t c : cluster_inv cl -> cl_nodes cl !! v = Some n -> c <> [] ->
  binds_mem n t c -> binds_store n t c -> (forall c', (v, t, c') ∈ cl_grants cl -> c' = c) -> cluster_inv (add_grant cl v t c).
Proof.
  intros [N G O R P W] Hv Hc Hm Hs Hfree. pose proof (lookup_lt_Some _ _ _ Hv).
  split; cbn [add_grant cl_nodes cl_runs cl_replies cl_grants cl_wins].
  - intros w m Hw. destruct (N _ _ Hw) as [I B Bi]. split; auto. intros t' c' [[= -> -> ->]|Hg]%elem_of_cons; [|auto].
    assert (m = n) as -> by congruence. auto.
  - intros w t' c' [[= -> -> ->]|Hg]%elem_of_cons; eauto.
  - intros w t' c1 c2 [[= -> -> ->]|H1]%elem_of_cons [E|H2]%elem_of_cons; [congruence| | |eauto].
    + symmetry. eauto.
    + injection E as -> -> ->. eauto.
  - intros. apply elem_of_cons. eauto.
  - intros. apply elem_of_cons. eauto.
  - intros t' c' Hw. destruct (W _ _ Hw) as (vs & H1 & H2 & H3). exists vs. repeat split; auto.
    intros. apply elem_of_cons. eauto.
Qed.

Lemma vote_step_inv cl v env q n p n' : cluster_inv cl -> cl_nodes cl !! v = Some n -> handleVote env q n = (p, n') ->
  cluster_inv match p with
              | None => set_node cl v n'
              | Some r => add_reply (if vp_granted r then add_grant (set_node cl v n') v (vq_term q) (vq_candidate q)
                                     else set_node cl v n') v q r
              end.
Proof.
  intros I Hv H. destruct (handleVote_keeps _ _ _ _ _ H) as [K Hg]. pose proof (set_node_inv _ _ _ _ I Hv K) as I'.
  destruct p as [r|]; [|exact I']. destruct (ci_nodes _ I _ _ Hv) as [_ B Bi].
  assert (I'' : cluster_inv (if vp_granted r then add_grant (set_node cl v n') v (vq_term q) (vq_candidate q) else set_node cl v n')).
  { destruct (vp_granted r) eqn:Er; [|exact I']. destruct (Hg r eq_refl Er B) as (Hne & Hm & Hs & Hfree).
    eapply add_grant_inv; eauto.
    - cbn. apply list_lookup_insert_eq, (lookup_lt_Some _ _ _ Hv).
    - intros c' Hc'. destruct (Bi _ _ Hc') as [Hb _]. destruct (Hfree c' Hb) as [->|]; [|assumption].
      destruct (ci_grants _ I _ _ _ Hc') as [[] _]. reflexivity. }
  destruct I'' as [N G O R P W]. split; [intros w m Hw; destruct (N w m Hw); split; auto|exact G|exact O|exact R| |exact W].
  cbn [add_reply cl_replies cl_grants].
  intros w q' p' [[= -> -> ->]|Hin]%elem_of_cons Hp; [|eauto]. rewrite Hp. cbn. apply elem_of_cons. auto.
Qed.

Lemma start_step_inv cl c io1 io2 n r n' : cluster_inv cl -> cl_nodes cl !! c = Some n -> startElection io1 io2 n = (r, n') ->
  currentTerm (n_election n) + 1 < 2 ^ 64 ->
  cluster_inv match r with
              | Ok (Some run) => add_run (add_grant (set_node cl c n') c (er_term run) (nodeId n')) c run
              | _ => set_node cl c n'
              end.
Proof.
  intros I Hc H Hmax. destruct (startElection_keeps _ _ _ _ _ H Hmax) as [K Hg]. pose proof (set_node_inv _ _ _ _ I Hc K) as I'.
  destruct r as [[run|]|]; try exact I'. destruct (ci_nodes _ I _ _ Hc) as [Hid B Bi].
  destruct (Hg run eq_refl B) as (Hlt & Hm & Hs). rewrite <- (kp_id _ _ K) in Hid, Hm, Hs.
  assert (I'' : cluster_inv (add_grant (set_node cl c n') c (er_term run) (nodeId n'))).
  { eapply add_grant_inv; eauto.
    - cbn. apply list_lookup_insert_eq, (lookup_lt_Some _ _ _ Hc).
    - intros c' Hc'. destruct (Bi _ _ Hc') as [[Hb|[Hb _]] _]; lia. }
  destruct I'' as [N G O R P W]. split; [intros w m Hw; destruct (N w m Hw); split; auto|exact G|exact O| |exact P|exact W].
  cbn [add_run cl_runs cl_grants cl_nodes].
  intros d run' m [[= -> ->]|Hin]%elem_of_cons Hm'; [|eauto].
  cbn in Hm'. rewrite list_lookup_insert_eq in Hm' by (apply lookup_lt_Some in Hc; exact Hc).
  injection Hm' as <-. cbn. apply elem_of_cons. auto.
Qed.

Lemma voted_for_grant cl n run v : cluster_inv cl -> voted_for cl n run v = true -> (v, er_term run, nodeId n) ∈ cl_grants cl.
Proof.
  intros I H. apply existsb_exists in H as ([[w q] p] & Hin%list_elem_of_In & H).
  rewrite !andb_true_iff, Nat.eqb_eq, bool_decide_eq_true in H. destruct H as [[-> ->] Hc].
  apply andb_true_iff in Hc as [Hg _]. exact (ci_replies _ I _ _ _ Hin Hg).
Qed.

Lemma finish_step_inv cl c run voters contacted n won n' : cluster_inv cl -> cl_nodes cl !! c = Some n ->
  (c, run) ∈ cl_runs cl -> NoDup (c :: voters) -> forallb (voted_for cl n run) voters = true ->
  finishElection (Z.of_nat (length (cl_nodes cl))) run (Z.of_nat (length voters)) contacted n = (won, n') ->
  cluster_inv (if won then add_win (set_node cl c n') c (er_term run) (nodeId n') else set_node cl c n').
Proof.
  intros I Hc Hrun Hnd Hvs H.
  pose proof (keeps_finish (Z.of_nat (length (cl_nodes cl))) run (Z.of_nat (length voters)) contacted n) as K. rewrite H in K.
  cbn [snd] in K. pose proof (set_node_inv _ _ _ _ I Hc K) as I'. destruct won; [|exact I'].
  assert (Hq : quorumSize (Z.of_nat (length (cl_nodes cl))) <= 1 + Z.of_nat (length voters)).
  { revert H. unfold finishElection. destruct (_ || _); [discriminate|]. intros [= Hw _]. lia. }
  destruct I' as [N G O R P W]. split; [intros w m Hw; destruct (N w m Hw); split; auto|exact G|exact O|exact R|exact P|].
  cbn [add_win cl_wins cl_nodes cl_grants set_node]. rewrite length_insert.
  intros t' c' [[= -> ->]|Hw]%elem_of_cons.
  - exists (c :: voters). split; [exact Hnd|]. split; [cbn [length]; lia|]. rewrite (kp_id _ _ K).
    intros v [->|Hv]%elem_of_cons; [exact (ci_runs _ I _ _ _ Hrun Hc)|].
    apply voted_for_grant; [exact I|]. rewrite forallb_forall in Hvs. apply Hvs, list_elem_of_In, Hv.
  - destruct (W _ _ Hw) as (vs & H1 & H2 & H3). cbn in H2, H3. rewrite length_insert in H2. eauto.
Qed.

Lemma cluster_step_inv cl ev cl' : cluster_inv cl -> cluster_step cl ev = Some cl' -> cluster_inv cl'.
Proof.
  intros I. unfold cluster_step.
  assert (Hsimple : forall v (f : raft_node -> raft_node), (forall n, keeps n (f n)) ->
    (n ← cl_nodes cl !! v; Some (set_node cl v (f n))) = Some cl' -> cluster_inv cl').
  { intros v f Hf H. destruct (cl_nodes cl !! v) as [n|] eqn:Hv; [|discriminate]. injection H as <-.
    apply (set_node_inv _ _ _ _ I Hv (Hf n)). }
  destruct ev as [v env q|c io1 io2|c run voters contacted|c|v io q|v env q|v env t lc es|v io t|v io|v io a|v|v rec l];
    [| | | |apply Hsimple; intros..].
  - destruct (cl_nodes cl !! v) as [n|] eqn:Hv; [|discriminate]. cbn [mbind option_bind].
    destruct (handleVote env q n) as [p n'] eqn:E. pose proof (vote_step_inv _ _ _ _ _ _ _ I Hv E) as H.
    destruct p; intros [= <-]; exact H.
  - destruct (cl_nodes cl !! c) as [n|] eqn:Hc; [|discriminate]. cbn [mbind option_bind].
    destruct (_ <? 2 ^ 64) eqn:Emax; [|discriminate]. destruct (startElection io1 io2 n) as [r n'] eqn:E.
    pose proof (start_step_inv _ _ _ _ _ _ _ I Hc E ltac:(lia)) as H. destruct r as [[]|]; intros [= <-]; exact H.
  - destruct (cl_nodes cl !! c) as [n|] eqn:Hc; [|discriminate]. cbn [mbind option_bind].
    destruct (_ && _ && _) eqn:Eg; [|discriminate]. rewrite !andb_true_iff, !bool_decide_eq_true in Eg. destruct Eg as [[H1 H2] H3].
    destruct (finishElection _ _ _ _ n) as [won n'] eqn:E. intros [= <-]. exact (finish_step_inv _ _ _ _ _ _ _ _ I Hc H1 H2 H3 E).
  - destruct (cl_nodes cl !! c) as [n|] eqn:Hc; [|discriminate]. cbn [mbind option_bind].
    destruct (bool_decide _); [|discriminate]. intros [= <-]. apply (set_node_inv _ _ _ _ I Hc). apply keeps_mem; auto.
  - apply keeps_heartbeat.
  - apply keeps_append.
  - apply keeps_ship.
  - destruct (observeHigherTerm io t n) eqn:E. exact (keeps_observe _ _ _ _ _ E).
  - destruct (persistProgress io n) eqn:E. exact (keeps_persist _ _ _ _ _ _ _ E).
  - apply keeps_applied.
  - apply keeps_fence.
  - apply keeps_restart.
Qed.

Lemma run_events_inv evs : forall cl cl', cluster_inv cl -> run_events cl evs = Some cl' -> cluster_inv cl'.
Proof.
  induction evs as [|ev evs IH]; intros cl cl' I H; cbn [run_events] in H; [congruence|].
  destruct (cluster_step cl ev) as [cl1|] eqn:E; [|discriminate]. cbn [mbind option_bind] in H.
  apply (IH _ _ (cluster_step_inv _ _ _ I E) H).
Qed.

Lemma fresh_inv ids : Forall (fun id => id <> []) ids -> cluster_inv (fresh_cluster ids).
Proof.
  intros Hids. split; cbn [fresh_cluster cl_nodes cl_runs cl_replies cl_grants cl_wins]; [|intros * H; inversion H..].
  intros v n Hv. rewrite list_lookup_fmap in Hv. destruct (ids !! v) as [id|] eqn:Hid; [|discriminate]. injection Hv as <-.
  split; [exact (Forall_lookup_1 _ _ _ _ Hids Hid)|unfold behind; cbn; lia|]. intros t c Hg. inversion Hg.
Qed.

(** ** Majorities meet *)

Lemma quorums_meet (N : nat) (a b : list nat) : NoDup a -> NoDup b -> (forall v, v ∈ a -> v < N)%nat -> (forall v, v ∈ b -> v < N)%nat ->
  quorumSize (Z.of_nat N) <= Z.of_nat (length a) -> quorumSize (Z.of_nat N) <= Z.of_nat (length b) -> exists v, v ∈ a /\ v ∈ b.
Proof.
  intros Ha Hb Hra Hrb Hla Hlb. destruct (decide (Exists (fun v => v ∈ b) a)) as [H|H].
  { apply Exists_exists in H as (v & H1 & H2). eauto. }
  apply not_Exists_Forall in H; [|apply _]. rewrite Forall_forall in H. exfalso.
  assert (Hnd : NoDup (a ++ b)) by (apply NoDup_app; auto).
  assert (Hsub : (a ++ b) ⊆+ seq 0 N).
  { apply NoDup_submseteq; [exact Hnd|]. intros v Hv. apply elem_of_seq. apply elem_of_app in Hv as [Hv|Hv]; [apply Hra in Hv|apply Hrb in Hv]; lia. }
  apply submseteq_length in Hsub. rewrite length_app, length_seq in Hsub. unfold quorumSize in *.
  pose proof (Z.div_mod (Z.of_nat N) 2). pose proof (Z.mod_pos_bound (Z.of_nat N) 2). lia.
Qed.

(** C2: in every run of a cluster, with messages lost, repeated or late, storage
    failing at any write and nodes restarting at any time, two elections won in
    the same term were won by the same node. *)
Theorem election_safety ids evs cl t c c' :
  Forall (fun id => id <> []) ids -> run_events (fresh_cluster ids) evs = Some cl ->
  (t, c) ∈ cl_wins cl -> (t, c') ∈ cl_wins cl -> c = c'.
Proof.
  intros Hids Hrun H1 H2. pose proof (run_events_inv evs _ _ (fresh_inv ids Hids) Hrun) as I.
  destruct (ci_wins _ I _ _ H1) as (a & Ha & Hla & Hga), (ci_wins _ I _ _ H2) as (b & Hb & Hlb & Hgb).
  destruct (quorums_meet (length (cl_nodes cl)) a b Ha Hb) as (v & Hva & Hvb); auto.
  - intros v Hv. apply (ci_grants _ I _ _ _ (Hga v Hv)).
  - intros v Hv. apply (ci_grants _ I _ _ _ (Hgb v Hv)).
  - exact (ci_once _ I _ _ _ _ (Hga v Hva) (Hgb v Hvb)).
Qed.
End Election.

(** ** Examples *)

#[local] Existing Instance rle_lz4.

Definition quiet : vote_env := mkVoteEnv false false PersistOk PersistOk.
Definition run_of (t : Z) : election_run := mkRun t 0 0.

(** Node a wins term 1 with b's vote, then b wins term 2 with c's. *)
Definition two_elections : list event :=
  [EvStart 0 PersistOk PersistOk; EvVote 1 quiet (mkVoteReq 1 (str "a") 0 0); EvFinish 0 (run_of 1) [1%nat] true;
   EvStart 1 PersistOk PersistOk; EvVote 2 quiet (mkVoteReq 2 (str "b") 0 0); EvFinish 1 (run_of 2) [2%nat] true].

Definition three_nodes : cluster := fresh_cluster [str "a"; str "b"; str "c"].

Lemma election_safety_witness : exists cl, run_events three_nodes two_elections = Some cl /\
  (1, str "a") ∈ cl_wins cl /\ (2, str "b") ∈ cl_wins cl /\ (forall c, (1, c) ∈ cl_wins cl -> str "a" = c).
Proof.
  destruct (run_events three_nodes two_elections) as [cl|] eqn:E; [|vm_compute in E; discriminate].
  assert (Hw : cl_wins cl = [(2, str "b"); (1, str "a")]) by (vm_compute in E; injection E as <-; reflexivity).
  exists cl. split; [reflexivity|]. rewrite Hw. split; [right; left|]. split; [left|]. rewrite <- Hw. intros c Hc.
  apply (election_safety [str "a"; str "b"; str "c"] two_elections cl 1 (str "a") c).
  - do 3 (apply Forall_cons_2; [discriminate|]). apply Forall_nil_2.
  - exact E.
  - rewrite Hw. right. left.
  - exact Hc.
Defined.

(** The flag is set after the term was checked, without the lock: a takes term 2
    from b's heartbeat in between, and both lead it. *)
Example two_leaders_in_one_term :
  match run_events three_nodes (two_elections ++ [EvLead 1; EvHeartbeat 0 PersistOk (mkHeartbeat 2 (str "b") None 0); EvLead 0]) with
  | Some cl => (fun n => (leader (n_election n), currentTerm (n_election n))) <$> take 2 (cl_nodes cl) = [(true, 2); (true, 2)]
  | None => False
  end.
Proof. vm_compute. reflexivity. Qed.
