(* ===== verification/RaftApply.v ===== *)
(** * Applying committed entries (raft_core.cpp)

    [applyCommittedEntries] reads the entries after the last applied one from the
    log, starting at a cached offset, and hands them to the state machine in
    order; [replayRaftLog] does so at startup for everything after the snapshot.

    The state machine ([DatabaseEngine::applyReplicatedEntry] and the check that
    its effect is visible) is an interface: the theorems hold for every one.  The
    limits of a batch enter as numbers, its time limit as a predicate on the
    number of entries read.  Counters and log output are left out. *)

From S2P Require Import Prelude Json Msgpack JsonValue Checksum Sst RaftLog RaftNode RaftAppend.
From stdpp Require Import base list strings.
From Stdlib Require Import ZArith Lia ZifyBool.

Open Scope Z_scope.

Class StateMachine (S : Type) := {
  sm_apply : json -> S -> option bool * S;      (* [None]: an exception *)
  sm_visible : json -> S -> bool }.

(** ** Entries *)

(** [entry[key] = v], which throws on arrays and scalars. *)
Definition set_member (k : string) (v : json) (j : json) : result json :=
  match j with
  | JObject _ | JNull => Ok (json_set (str k) v j)
  | _ => Err "type_error.305"
  end.

Fixpoint set_members (kvs : list (string * json)) (j : json) : result json :=
  match kvs with
  | [] => Ok j
  | (k, v) :: rest => match set_member k v j with Err m => Err m | Ok j => set_members rest j end
  end.

Definition markEntryCommittedVisible (index term : Z) (entry : json) : result json :=
  let stamp := [("_raft_commit_index", JUInt index); ("_raft_term", JUInt term);
                ("_visibility_floor", JUInt index); ("committed", JBool true)]%string in
  match set_members (stamp ++ [("_visibility_state"%string, JString (str "COMMITTED_VISIBLE"))]) entry with
  | Err m => Err m
  | Ok (JObject m as entry) =>
      match obj_find (str "data") m with
      | Some (JObject d) =>
          match set_members stamp (JObject d) with
          | Err e => Err e
          | Ok data =>
              match value as_bool data (str "_deleted") false with
              | Err e => Err e
              | Ok tombstone =>
                  match set_member "_visibility_state" (JString (str (if tombstone then "TOMBSTONED" else "COMMITTED_VISIBLE"))) data with
                  | Err e => Err e
                  | Ok data => set_member "data" data entry
                  end
              end
          end
      | _ => Ok entry
      end
  | Ok entry => Ok entry
  end.

Definition isRaftNoopEntry (entry : json) : result bool :=
  match value as_string entry (str "type") [] with
  | Err m => Err m
  | Ok t => if bytes_eqb t (str "raft_noop") then Ok true
            else match value as_string entry (str "action") [] with
                 | Err m => Err m
                 | Ok a => Ok (bytes_eqb a (str "raft_noop"))
                 end
  end.

(** ** Progress *)

Definition set_applied (n : raft_node) (a : Z) : raft_node :=
  mkNode (nodeId n) (recoveryComplete n) (divergenceDetected n) (n_election n) (n_durable n) (n_log n) (commitIndex n) a.

Definition advanceLastApplied (newIndex : Z) (allowSnapshotJump : bool) (n : raft_node) : bool * raft_node :=
  let oldIndex := lastApplied n in
  if newIndex <? oldIndex then (false, n)
  else if newIndex =? oldIndex then (false, n)
  else if negb allowSnapshotJump && negb (newIndex =? u64 (oldIndex + 1)) then (false, n)
  else if commitIndex n <? newIndex then (false, n)
  else (true, set_applied n newIndex).

Section Apply.
Context `{JT : JsonText} `{LZ : Lz4} {S : Type} `{SM : StateMachine S}.

Record machine := mkMachine { m_node : raft_node; m_offset : Z; m_state : S }.

(** One entry: what the state machine is given, and whether it took it; [None]
    when an exception was raised. *)
Definition apply_one (index term : Z) (entry : json) (check : bool) (s : S) : option bool * S :=
  match markEntryCommittedVisible index term entry with
  | Err _ => (None, s)
  | Ok payload =>
      match isRaftNoopEntry payload with
      | Err _ => (None, s)
      | Ok true => (Some true, s)
      | Ok false =>
          match sm_apply payload s with
          | (Some true, s) => (Some (negb check || sm_visible payload s), s)
          | (r, s) => (r, s)
          end
      end
  end.

(** ** Reading a batch *)

Record log_entry := mkLogEntry { le_index : Z; le_payload : json; le_end : Z }.

Record scan_state := mkScan { sn_apply : list log_entry; sn_offset : Z; sn_expected : Z; sn_bytes : Z }.

Record apply_limits := mkLimits { maxEntries : nat; maxBytes : Z; timeUp : nat -> bool; log_opens : bool }.

Definition batch_full (lim : apply_limits) (st : scan_state) : bool :=
  negb (length (sn_apply st) =? 0)%nat &&
  ((maxEntries lim <=? length (sn_apply st))%nat || (maxBytes lim <=? sn_bytes st) || timeUp lim (length (sn_apply st))).

Definition set_offset (st : scan_state) (o : Z) : scan_state := mkScan (sn_apply st) o (sn_expected st) (sn_bytes st).

(** [scanFrom]; [false] asks for a scan from the beginning. *)
Fixpoint scan_from (lim : apply_limits) (fuel : nat) (file : bytes) (startIndex upToIndex offset : Z)
    (allowRestart firstEntry : bool) (cur : bytes) (st : scan_state) : bool * scan_state :=
  match fuel with
  | O => (true, st)
  | Datatypes.S fuel' =>
      if batch_full lim st then (true, st)
      else
        let entryStart := blen file - blen cur in
        match read_header cur with
        | None => (true, st)
        | Some (idx, _, sz, rest) =>
            if firstEntry && negb (offset =? 0) && negb (idx =? startIndex) && allowRestart then (false, st)
            else if (sz =? 0) || (kMaxRaftPayloadBytes <? sz)
            then if negb (offset =? 0) && allowRestart then (false, st) else (true, set_offset st entryStart)
            else match take_bytes (Z.to_nat sz) rest with
                 | None => (true, st)
                 | Some (payload, rest) =>
                     let entryEnd := blen file - blen rest in
                     let continue := scan_from lim fuel' file startIndex upToIndex offset allowRestart false rest in
                     if idx <? startIndex then continue (set_offset st entryEnd)
                     else if upToIndex <? idx then (true, set_offset st entryStart)
                     else if negb (idx =? sn_expected st)
                     then if allowRestart then (false, st) else (true, set_offset st entryStart)
                     else match decodeRaftPayload payload with
                          | None => (true, set_offset st entryStart)
                          | Some v => continue (mkScan (sn_apply st ++ [mkLogEntry idx v entryEnd]) entryEnd
                                                  (sn_expected st + 1) (sn_bytes st + blen payload))
                          end
                 end
        end
  end.

(** The part under [logMutex_]. *)
Definition read_batch (lim : apply_limits) (file : bytes) (startIndex upToIndex offset : Z) : scan_state :=
  let scan off restart st :=
    scan_from lim (Datatypes.S (length file)) file startIndex upToIndex off restart true (drop (Z.to_nat off) file) st in
  let offset := if blen file <? offset then 0 else offset in
  match scan offset true (mkScan [] offset startIndex 0) with
  | (true, st) => st
  | (false, st) => (scan 0 false (mkScan [] 0 startIndex (sn_bytes st))).2
  end.

(** ** Applying it *)

Fixpoint apply_batch (entries : list log_entry) (m : machine) : bool * machine :=
  match entries with
  | [] => (true, m)
  | e :: rest =>
      let n := m_node m in
      if negb (le_index e =? u64 (lastApplied n + 1)) then (false, m)
      else
        match apply_one (le_index e) (currentTerm (n_election n)) (le_payload e) true (m_state m) with
        | (Some true, s) =>
            let '(ok, n) := advanceLastApplied (le_index e) false n in
            if negb ok then (false, mkMachine n (m_offset m) s)
            else apply_batch rest (mkMachine n (le_end e) s)
        | (_, s) => (false, mkMachine n (m_offset m) s)
        end
  end.

Definition applyCommittedEntries (lim : apply_limits) (upToIndex : Z) (m : machine) : bool * machine :=
  let n := m_node m in
  if upToIndex =? 0 then (true, m)
  else if commitIndex n <? upToIndex then (false, m)
  else
    let startIndex := u64 (lastApplied n + 1) in
    if upToIndex <? startIndex then (true, m)
    else if negb (log_opens lim) then (false, m)
    else
      let st := read_batch lim (log_file (n_log n)) startIndex upToIndex (m_offset m) in
      match sn_apply st with
      | [] => (upToIndex <=? lastApplied n, mkMachine n (sn_offset st) (m_state m))
      | entries =>
          match apply_batch entries m with
          | (false, m) => (false, m)
          | (true, m) => (upToIndex <=? lastApplied (m_node m), m)
          end
      end.

(** ** Replay at startup *)

Record replay_env := mkReplay {
  rp_snapshot : result (option (Z * Z));   (* index and term of the snapshot file, if there is one *)
  rp_loaded : bool;                        (* the consensus state was read *)
  rp_clean : bool;                         (* the last shutdown was clean *)
  rp_resize : bool; rp_sync : bool;        (* dropping a torn tail succeeds *)
  rp_legacy : list json;                   (* the lines of raft_log.jsonl that parse *)
  rp_trimmed : bool;                       (* the trimmed log replaces the log *)
  rp_io : persist_io }.

(** A member that is an integer. *)
Definition integer_member (k : string) (j : json) : option Z :=
  match j with
  | JObject m => match obj_find (str k) m with Some (JInt z) | Some (JUInt z) => Some (u64 z) | _ => None end
  | _ => None
  end.

Fixpoint legacy_entries (currentTerm syntheticIndex : Z) (es : list json) : list PersistedRaftEntry :=
  match es with
  | [] => []
  | e :: rest =>
      let idx := default 0 (integer_member "_raft_commit_index" e) in
      let term := default currentTerm (integer_member "_raft_term" e) in
      let idx := if idx =? 0 then u64 (syntheticIndex + 1) else idx in
      mkPersisted idx term e 0 0 :: legacy_entries currentTerm (Z.max syntheticIndex idx) rest
  end.

(** The greatest index and the last term stored with it. *)
Definition max_entry (es : list PersistedRaftEntry) : Z * Z :=
  fold_left (fun '(mi, mt) e => if mi <=? pe_index e then (pe_index e, pe_term e) else (mi, mt)) es (0, 0).

Inductive replay_end :=
| ReplayDone (applied offset : Z) (s : S)
| ReplayBlocked (applied : Z) (s : S)     (* the state machine refused a committed entry *)
| ReplayThrew (s : S).

Fixpoint replay_entries (restored : Z) (binary : bool) (es : list PersistedRaftEntry) (applied offset expected : Z) (s : S)
  : replay_end :=
  match es with
  | [] => ReplayDone applied offset s
  | p :: rest =>
      if restored <? pe_index p then replay_entries restored binary rest applied offset expected s
      else if pe_index p <=? applied
      then replay_entries restored binary rest applied (if binary then endOffset p else offset) expected s
      else if pe_index p <? expected then replay_entries restored binary rest applied offset expected s
      else if negb (pe_index p =? expected) then ReplayThrew s
      else match apply_one (pe_index p) (pe_term p) (pe_payload p) false s with
           | (Some true, s) =>
               replay_entries restored binary rest (pe_index p) (if binary then endOffset p else offset) (u64 (pe_index p + 1)) s
           | (Some false, s) => ReplayBlocked applied s
           | (None, s) => ReplayThrew s
           end
  end.

(** A failed recovery fences the node. *)
Definition recovery_failed (m : machine) : machine :=
  let n := m_node m in
  mkMachine (set_recovery (set_election n (step_down (n_election n))) false) (m_offset m) (m_state m).

(** The snapshot's index and term enter the node. *)
Definition restore_snapshot (si st : Z) (n : raft_node) : raft_node :=
  if 0 <? si then
    let l := n_log n in
    let l := mkLog (log_file l) (Z.max (lastIndex l) si) (Z.max (lastEntryTerm l) st) (Z.max (lastSnapshotIndex l) si)
               (if lastSnapshotIndex l <=? si then st else lastSnapshotTerm l) in
    set_applied (set_commit (set_log n l) (Z.max (commitIndex n) si)) (Z.max (lastApplied n) si)
  else n.

(** The end of a successful replay: progress is persisted, and may throw. *)
Definition finish_replay (env : replay_env) (m : machine) : machine :=
  match persistProgress (rp_io env) (m_node m) with
  | (Err _, n) => recovery_failed (mkMachine n (m_offset m) (m_state m))
  | (Ok _, n) => mkMachine (set_recovery n true) (m_offset m) (m_state m)
  end.

(** Replaying the committed prefix of a log that is not empty. *)
Definition replay_log (env : replay_env) (si st : Z) (binary : bool) (es : list PersistedRaftEntry) (m : machine) : machine :=
  let n := m_node m in
  let '(maxIndex, lastLogTerm) := max_entry es in
  let available := Z.max maxIndex si in
  let durableCommit := if rp_loaded env then commitIndex n else 0 in
  if rp_loaded env && (available <? durableCommit) then recovery_failed m
  else
    let restored := if rp_loaded env then durableCommit else available in
    let n := if commitIndex n <? restored then set_commit n restored else n in
    let l := n_log n in
    let n := set_log n (set_lastIndex l (log_file l) (Z.max (lastIndex l) maxIndex) (if si <? maxIndex then lastLogTerm else st)) in
    let clean := rp_clean env && rp_loaded env && (lastApplied n =? restored) in
    let applied := if clean then lastApplied n else si in
    match replay_entries restored binary es applied 0 (u64 (applied + 1)) (m_state m) with
    | ReplayThrew s => recovery_failed (mkMachine n (m_offset m) s)
    | ReplayBlocked applied s => recovery_failed (mkMachine (set_applied n applied) (m_offset m) s)
    | ReplayDone applied offset s =>
        if applied <? restored then recovery_failed (mkMachine n (m_offset m) s)
        else
          let l := n_log n in
          let file := if rp_trimmed env then trimRaftLog (log_file l) maxIndex else log_file l in
          finish_replay env (mkMachine (set_log (set_applied n applied) (set_lastIndex l file (lastIndex l) (lastEntryTerm l)))
                               (if binary then offset else 0) s)
    end.

Definition replayRaftLog (env : replay_env) (m : machine) : machine :=
  let m := mkMachine (set_recovery (m_node m) false) (m_offset m) (m_state m) in
  match rp_snapshot env with
  | Err _ => recovery_failed m
  | Ok snap =>
      let '(si, st) := default (0, 0) snap in
      let n := restore_snapshot si st (m_node m) in
      let m := mkMachine n (m_offset m) (m_state m) in
      match loadBinaryRaftLogEntries (mkLoadEnv (rp_loaded env) (commitIndex n) si (rp_resize env) (rp_sync env)) (log_file (n_log n)) with
      | Err _ => recovery_failed m
      | Ok (entries, file) =>
          let l := n_log n in
          let n := set_log n (set_lastIndex l file (lastIndex l) (lastEntryTerm l)) in
          let m := mkMachine n (m_offset m) (m_state m) in
          let binary := negb (length entries =? 0)%nat in
          let entries := if binary then entries else legacy_entries (currentTerm (n_election n)) 0 (rp_legacy env) in
          if (length entries =? 0)%nat then
            if si <? commitIndex n then recovery_failed m
            else if 0 <? si then finish_replay env (mkMachine (set_applied (set_commit n si) si) (m_offset m) (m_state m))
            else mkMachine (set_recovery n true) (m_offset m) (m_state m)
          else replay_log env si st binary entries m
      end
  end.

(** ** Batches of a written log *)

#[local] Abbreviation entries := (list (raft_record * json)).

(** The records [rvs] at offset [off] as a batch holds them. *)
Fixpoint batch_of (off : Z) (rvs : entries) : list log_entry :=
  match rvs with
  | [] => []
  | (r, v) :: rest =>
      let next := off + blen (record_bytes r) in
      mkLogEntry (rec_index r) v next :: batch_of next rest
  end.

Definition contiguous (lo : Z) (rvs : entries) : Prop := rec_index <$> rvs.*1 = seqZ lo (Z.of_nat (length rvs)).

Lemma contiguous_cons lo rv rvs : contiguous lo (rv :: rvs) <-> rec_index rv.1 = lo /\ contiguous (lo + 1) rvs.
Proof.
  unfold contiguous. cbn [length]. rewrite seqZ_cons by lia. cbn [fmap list_fmap].
  replace (Z.pred (Z.of_nat (Datatypes.S (length rvs)))) with (Z.of_nat (length rvs)) by lia. replace (Z.succ lo) with (lo + 1) by lia.
  split; [intros [= H1 H2]; auto|intros [-> H2]; f_equal; exact H2].
Qed.

Lemma contiguous_drop i : forall lo rvs, contiguous lo rvs -> (i <= length rvs)%nat -> contiguous (lo + Z.of_nat i) (drop i rvs).
Proof.
  induction i as [|i IH]; intros lo rvs H Hi; [rewrite drop_0, Z.add_0_r; exact H|].
  destruct rvs as [|rv rvs]; [cbn in Hi; lia|]. apply contiguous_cons in H as [_ H]. cbn [length drop] in *.
  replace (lo + Z.of_nat (Datatypes.S i)) with (lo + 1 + Z.of_nat i) by lia. apply IH; [exact H|lia].
Qed.

Lemma contiguous_take i : forall lo rvs, contiguous lo rvs -> contiguous lo (take i rvs).
Proof.
  induction i as [|i IH]; intros lo rvs H; [reflexivity|]. destruct rvs as [|rv rvs]; [reflexivity|].
  apply contiguous_cons in H as [Hi H]. cbn [take]. apply contiguous_cons. auto.
Qed.

Lemma blen_written (a b : entries) : blen (write_records (a ++ b).*1) = blen (write_records a.*1) + blen (write_records b.*1).
Proof. rewrite fmap_app, write_records_app. unfold blen. rewrite length_app. lia. Qed.

Lemma batch_of_app a b : forall off, batch_of off (a ++ b) = batch_of off a ++ batch_of (off + blen (write_records a.*1)) b.
Proof.
  induction a as [|[r v] a IH]; intros off; [cbn; rewrite Z.add_0_r; reflexivity|].
  cbn [app batch_of]. rewrite IH. do 2 f_equal. f_equal.
  change (write_records ((r, v) :: a).*1) with (record_bytes r ++ write_records a.*1).
  unfold blen. rewrite length_app. lia.
Qed.

Section Scan.
Context (lim : apply_limits) (file : bytes) (startIndex upToIndex offset : Z) (allowRestart : bool).

(** Reading the next record of a written log. *)
Lemma scan_next fuel first (done : entries) r v todo st : entry_ok (r, v) ->
  file = write_records done.*1 ++ write_records ((r, v) :: todo).*1 ->
  first && negb (offset =? 0) && negb (rec_index r =? startIndex) && allowRestart = false ->
  let o := blen (write_records done.*1) in
  let next := o + blen (record_bytes r) in
  let continue := scan_from lim fuel file startIndex upToIndex offset allowRestart false (write_records todo.*1) in
  scan_from lim (Datatypes.S fuel) file startIndex upToIndex offset allowRestart first (write_records ((r, v) :: todo).*1) st =
  if batch_full lim st then (true, st)
  else if rec_index r <? startIndex then continue (set_offset st next)
  else if upToIndex <? rec_index r then (true, set_offset st o)
  else if negb (rec_index r =? sn_expected st)
  then if allowRestart then (false, st) else (true, set_offset st o)
  else continue (mkScan (sn_apply st ++ [mkLogEntry (rec_index r) v next]) next (sn_expected st + 1) (sn_bytes st + blen (rec_bytes r))).
Proof.
  intros [Hr Hv] Hfile Hfirst o next continue. cbn [fst snd] in Hr, Hv. cbn [scan_from]. destruct (batch_full lim st); [reflexivity|].
  change (write_records ((r, v) :: todo).*1) with (record_bytes r ++ write_records todo.*1) in *.
  rewrite read_header_record by exact Hr. rewrite Hfirst. pose proof (ro_payload _ Hr).
  rewrite (proj2 (Z.eqb_neq (blen (rec_bytes r)) 0)), (proj2 (Z.ltb_ge _ (blen (rec_bytes r)))) by lia. cbn [orb].
  unfold blen at 1. rewrite Nat2Z.id, take_bytes_app by reflexivity.
  replace (blen file - blen (record_bytes r ++ write_records todo.*1)) with o
    by (rewrite Hfile; unfold o, blen; rewrite !length_app; lia).
  replace (blen file - blen (write_records todo.*1)) with next
    by (rewrite Hfile; unfold next, o, blen; rewrite !length_app; lia).
  rewrite Hv. reflexivity.
Qed.

Lemma written_snoc (done : entries) r v todo : write_records done.*1 ++ write_records ((r, v) :: todo).*1 =
  write_records (done ++ [(r, v)]).*1 ++ write_records todo.*1.
Proof.
  rewrite fmap_app, write_records_app, <- app_assoc. f_equal. cbn. rewrite app_nil_r. reflexivity.
Qed.

Lemma blen_snoc (done : entries) r v : blen (write_records (done ++ [(r, v)]).*1) = blen (write_records done.*1) + blen (record_bytes r).
Proof. rewrite blen_written. cbn. rewrite app_nil_r. reflexivity. Qed.

(** From the first wanted entry on, entries are collected one after the other. *)
Lemma scan_collect todo : Forall entry_ok todo -> forall fuel first (done : entries) st,
  (length todo < fuel)%nat -> file = write_records done.*1 ++ write_records todo.*1 ->
  contiguous (sn_expected st) todo -> startIndex <= sn_expected st ->
  first = false \/ offset = 0 \/ allowRestart = false \/ sn_expected st = startIndex ->
  sn_offset st = blen (write_records done.*1) ->
  exists k st', scan_from lim fuel file startIndex upToIndex offset allowRestart first (write_records todo.*1) st = (true, st') /\
    (k <= length todo)%nat /\ sn_apply st' = sn_apply st ++ batch_of (blen (write_records done.*1)) (take k todo) /\
    sn_offset st' = blen (write_records (done ++ take k todo).*1) /\
    Z.of_nat k <= Z.max 0 (upToIndex + 1 - sn_expected st) /\
    (batch_full lim st = false -> todo <> [] -> sn_expected st <= upToIndex -> (1 <= k)%nat).
Proof.
  induction 1 as [|[r v] todo Hrv _ IH]; intros fuel first done st Hf Hfile Hc Hs Hfirst Ho.
  - exists 0%nat, st. destruct fuel as [|fuel]; [cbn in Hf; lia|]. cbn [take batch_of]. rewrite !app_nil_r. repeat split; auto; try lia; [|congruence].
    cbn [scan_from fmap list_fmap write_records flat_map]. destruct (batch_full lim st); reflexivity.
  - destruct fuel as [|fuel]; [cbn in Hf; lia|]. cbn [length] in Hf. apply contiguous_cons in Hc as [Hi Hc]. cbn [fst] in Hi.
    rewrite (scan_next fuel first done r v todo st Hrv Hfile) by lia.
    assert (Hstop : forall st', (st' = st \/ st' = set_offset st (blen (write_records done.*1))) ->
      (batch_full lim st = false -> upToIndex < sn_expected st) -> exists k st'', (true, st') = (true, st'') /\
      (k <= length ((r, v) :: todo))%nat /\ sn_apply st'' = sn_apply st ++ batch_of (blen (write_records done.*1)) (take k ((r, v) :: todo)) /\
      sn_offset st'' = blen (write_records (done ++ take k ((r, v) :: todo)).*1) /\ Z.of_nat k <= Z.max 0 (upToIndex + 1 - sn_expected st) /\
      (batch_full lim st = false -> (r, v) :: todo <> [] -> sn_expected st <= upToIndex -> (1 <= k)%nat)).
    { intros st' Hst Hend. exists 0%nat, st'. cbn [take batch_of]. rewrite !app_nil_r.
      destruct Hst as [-> | ->]; repeat split; cbn [length sn_apply sn_offset set_offset]; auto; try lia; intros Hb; specialize (Hend Hb); lia. }
    destruct (batch_full lim st) eqn:Eb; [apply Hstop; [auto|discriminate]|].
    rewrite Hi, (proj2 (Z.ltb_ge (sn_expected st) startIndex)) by lia.
    destruct (upToIndex <? sn_expected st) eqn:Eu; [apply Hstop; [auto|lia]|]. rewrite Z.eqb_refl. cbn [negb].
    edestruct (IH fuel false (done ++ [(r, v)]) (mkScan (sn_apply st ++ [mkLogEntry (sn_expected st) v (blen (write_records done.*1) + blen (record_bytes r))])
      (blen (write_records done.*1) + blen (record_bytes r)) (sn_expected st + 1) (sn_bytes st + blen (rec_bytes r)))) as (k & st' & He & Hk & Ha & Hof & Hu & _).
    + lia.
    + rewrite Hfile. apply written_snoc.
    + exact Hc.
    + cbn [sn_expected]. lia.
    + auto.
    + cbn [sn_offset]. rewrite blen_snoc. reflexivity.
    + exists (Datatypes.S k), st'. split; [exact He|]. cbn [sn_apply sn_expected] in *. split; [cbn; lia|]. split; [|split; [|split; lia]].
      * rewrite Ha. cbn [take batch_of]. rewrite Hi, blen_snoc, <- app_assoc. reflexivity.
      * rewrite Hof. cbn [take]. rewrite <- app_assoc. reflexivity.
Qed.

(** Before it, entries are passed over. *)
Lemma scan_skip skip : Forall entry_ok skip -> forall todo fuel first (done : entries) st,
  (length skip + length todo < fuel)%nat -> file = write_records done.*1 ++ write_records (skip ++ todo).*1 ->
  Forall (fun rv => rec_index rv.1 < startIndex) skip -> offset = 0 \/ allowRestart = false -> sn_apply st = [] ->
  exists fuel' first', (length todo < fuel')%nat /\
    scan_from lim fuel file startIndex upToIndex offset allowRestart first (write_records (skip ++ todo).*1) st =
    scan_from lim fuel' file startIndex upToIndex offset allowRestart first' (write_records todo.*1)
      (match skip with [] => st | _ => set_offset st (blen (write_records (done ++ skip).*1)) end).
Proof.
  induction 1 as [|[r v] skip Hrv _ IH]; intros todo fuel first done st Hf Hfile Hlt Hg Ha.
  - exists fuel, first. split; [cbn in Hf; lia|reflexivity].
  - destruct fuel as [|fuel]; [cbn in Hf; lia|]. cbn [length app] in Hf, Hfile |- *. apply Forall_cons in Hlt as [Hr Hlt]. cbn [fst] in Hr.
    rewrite (scan_next fuel first done r v (skip ++ todo) st Hrv Hfile) by lia.
    unfold batch_full at 1. rewrite Ha. cbn [length Nat.eqb negb andb]. rewrite (proj2 (Z.ltb_lt _ _)) by lia.
    rewrite written_snoc in Hfile.
    destruct (IH todo fuel false (done ++ [(r, v)]) (set_offset st (blen (write_records done.*1) + blen (record_bytes r)))) as (f' & b' & Hf' & He); auto.
    { lia. }
    exists f', b'. split; [exact Hf'|]. rewrite He. f_equal. rewrite <- app_assoc. cbn [app].
    destruct skip; [|reflexivity]. rewrite blen_snoc. reflexivity.
Qed.
End Scan.

Section Batch.
Context (lim : apply_limits) (lo : Z) (rvs : entries) (startIndex upToIndex : Z).
Context (Hok : Forall entry_ok rvs) (Hc : contiguous lo rvs).
Context (Hlo : lo <= startIndex) (Hle : startIndex <= upToIndex) (Hup : upToIndex < lo + Z.of_nat (length rvs)).

Let file := write_records rvs.*1.
Let pos := Z.to_nat (startIndex - lo).

Definition batch_read (st : scan_state) : Prop :=
  exists k, (1 <= k <= length (drop pos rvs))%nat /\ Z.of_nat k <= upToIndex + 1 - startIndex /\
    sn_apply st = batch_of (blen (write_records (take pos rvs).*1)) (take k (drop pos rvs)).

Lemma fuel_enough : (length rvs < Datatypes.S (length file))%nat.
Proof. pose proof (write_records_length rvs.*1) as H. rewrite length_fmap in H. unfold file. lia. Qed.

Lemma todo_contiguous : contiguous startIndex (drop pos rvs).
Proof. replace startIndex with (lo + Z.of_nat pos) by lia. apply contiguous_drop; [exact Hc|lia]. Qed.

Lemma scan_zero restart b : exists st',
  scan_from lim (Datatypes.S (length file)) file startIndex upToIndex 0 restart true file (mkScan [] 0 startIndex b) = (true, st') /\ batch_read st'.
Proof.
  pose proof (take_drop pos rvs) as Hsplit. pose proof fuel_enough as Hf.
  assert (Hskip : Forall (fun rv => rec_index rv.1 < startIndex) (take pos rvs)).
  { apply Forall_lookup_2. intros i rv [Hi Hlt]%lookup_take_Some.
    assert (E : (rec_index <$> rvs.*1) !! i = Some (rec_index rv.1)) by (rewrite !list_lookup_fmap, Hi; reflexivity).
    unfold contiguous in Hc. rewrite Hc, lookup_seqZ in E. lia. }
  destruct (scan_skip lim file startIndex upToIndex 0 restart (take pos rvs) (Forall_take _ _ _ Hok) (drop pos rvs)
    (Datatypes.S (length file)) true [] (mkScan [] 0 startIndex b)) as (f' & b' & Hf' & He); auto.
  { rewrite <- length_app, Hsplit. lia. }
  { rewrite Hsplit. reflexivity. }
  rewrite Hsplit in He. change (write_records rvs.*1) with file in He. rewrite He. set (st := match take pos rvs with [] => _ | _ => _ end).
  assert (Hst : sn_apply st = [] /\ sn_expected st = startIndex /\ sn_offset st = blen (write_records (take pos rvs).*1)).
  { unfold st. destruct (take pos rvs); auto. }
  destruct Hst as (Ha & Hx & Ho).
  destruct (scan_collect lim file startIndex upToIndex 0 restart (drop pos rvs) (Forall_drop _ _ _ Hok) f' b' (take pos rvs) st)
    as (k & st' & Hr & Hk & Hap & _ & Hu & Hp); auto; try lia.
  { rewrite <- write_records_app, <- fmap_app, Hsplit. reflexivity. }
  { rewrite Hx. apply todo_contiguous. }
  exists st'. split; [exact Hr|]. exists k. rewrite Ha in Hap. rewrite Hx in *. split; [split; [|exact Hk]|split; [lia|exact Hap]].
  apply Hp; [unfold batch_full; rewrite Ha; reflexivity| |exact Hle].
  intros Hn. apply (f_equal length) in Hn. rewrite length_drop in Hn. cbn in Hn. lia.
Qed.

(** A cached offset past the end, or at the start of any record, reads the same batch. *)
Lemma read_batch_spec off :
  blen file < off \/ (exists k, (k < length rvs)%nat /\ off = blen (write_records (take k rvs).*1)) ->
  batch_read (read_batch lim file startIndex upToIndex off).
Proof.
  intros Hoff. unfold read_batch.
  destruct (blen file <? off) eqn:Eo.
  { destruct (scan_zero true 0) as (st' & Hs & H). change (drop (Z.to_nat 0) file) with file. rewrite Hs. exact H. }
  destruct Hoff as [Hoff|(k & Hk & ->)]; [lia|]. set (off := blen (write_records (take k rvs).*1)).
  destruct (decide (off = 0)) as [H0|Hne].
  { rewrite H0. destruct (scan_zero true 0) as (st' & Hs & H). change (drop (Z.to_nat 0) file) with file. rewrite Hs. exact H. }
  assert (Hfile : file = write_records (take k rvs).*1 ++ write_records (drop k rvs).*1)
    by (rewrite <- write_records_app, <- fmap_app, take_drop; reflexivity).
  replace (drop (Z.to_nat off) file) with (write_records (drop k rvs).*1)
    by (rewrite Hfile; unfold off, blen; rewrite Nat2Z.id, drop_app_length; reflexivity).
  pose proof (contiguous_drop k _ _ Hc ltac:(lia)) as Hck. pose proof (Forall_drop _ k _ Hok) as Hokk. pose proof fuel_enough as Hf.
  destruct (drop k rvs) as [|[r v] todo] eqn:Ed.
  { apply (f_equal length) in Ed. rewrite length_drop in Ed. cbn in Ed. lia. }
  destruct (decide (lo + Z.of_nat k = startIndex)) as [Hs|Hs].
  - assert (Hpos : pos = k) by lia. rewrite Hs in Hck.
    destruct (scan_collect lim file startIndex upToIndex off true ((r, v) :: todo) Hokk (Datatypes.S (length file)) true (take k rvs)
      (mkScan [] off startIndex 0)) as (c & st' & Hr & Hcl & Hap & _ & Hu & Hp); auto.
    { rewrite <- Ed, length_drop. lia. }
    { cbn [sn_expected]. lia. }
    rewrite Hr. exists c. rewrite Hpos, Ed. cbn [sn_expected sn_apply app] in *. split; [split; [|exact Hcl]|split; [lia|exact Hap]].
    apply Hp; [reflexivity|discriminate|exact Hle].
  - apply contiguous_cons in Hck as [Hi _]. cbn [fst] in Hi.
    assert (Hfalse : scan_from lim (Datatypes.S (length file)) file startIndex upToIndex off true true (write_records ((r, v) :: todo).*1)
      (mkScan [] off startIndex 0) = (false, mkScan [] off startIndex 0)).
    { cbn [scan_from]. change (batch_full lim _) with false. cbn iota.
      change (write_records ((r, v) :: todo).*1) with (record_bytes r ++ write_records todo.*1).
      apply Forall_cons in Hokk as [[Hr _] _]. cbn [fst] in Hr. rewrite read_header_record by exact Hr.
      replace (true && negb (off =? 0) && negb (rec_index r =? startIndex) && true) with true by lia. reflexivity. }
    rewrite Hfalse. cbn [sn_bytes]. destruct (scan_zero false 0) as (st' & Hz & H).
    change (drop (Z.to_nat 0) file) with file. rewrite Hz. exact H.
Qed.
End Batch.

(** ** In order, each once *)

(** The state machine taking the entries one after the other. *)
Fixpoint run_entries (term : raft_record -> Z) (check : bool) (rvs : entries) (s : S) : option S :=
  match rvs with
  | [] => Some s
  | (r, v) :: rest => match apply_one (rec_index r) (term r) v check s with
                      | (Some true, s) => run_entries term check rest s
                      | _ => None
                      end
  end.

Lemma advance_next n : lastApplied n + 1 < 2 ^ 64 -> 0 <= lastApplied n -> lastApplied n < commitIndex n ->
  advanceLastApplied (lastApplied n + 1) false n = (true, set_applied n (lastApplied n + 1)).
Proof.
  intros H1 H2 H3. unfold advanceLastApplied. rewrite u64_id by lia.
  rewrite (proj2 (Z.ltb_ge _ (lastApplied n))), (proj2 (Z.eqb_neq _ (lastApplied n))), Z.eqb_refl by lia. cbn [negb andb].
  rewrite (proj2 (Z.ltb_ge (commitIndex n) _)) by lia. reflexivity.
Qed.

(** Only the applied index of a node changes. *)
Definition same_but_applied (n n' : raft_node) : Prop := n' = set_applied n (lastApplied n').

(** How a batch ends: [j] entries taken, then the end or a refusal. *)
Lemma apply_batch_spec l : forall off m, contiguous (lastApplied (m_node m) + 1) l -> 0 <= lastApplied (m_node m) ->
  lastApplied (m_node m) + Z.of_nat (length l) < 2 ^ 64 ->
  lastApplied (m_node m) + Z.of_nat (length l) <= commitIndex (m_node m) ->
  let '(ok, m') := apply_batch (batch_of off l) m in
  let term := fun _ => currentTerm (n_election (m_node m)) in
  same_but_applied (m_node m) (m_node m') /\
  exists j s, (j <= length l)%nat /\ lastApplied (m_node m') = lastApplied (m_node m) + Z.of_nat j /\
    m_offset m' = (if (j =? 0)%nat then m_offset m else off + blen (write_records (take j l).*1)) /\
    run_entries term true (take j l) (m_state m) = Some s /\
    if ok : bool then j = length l /\ m_state m' = s
    else exists r v x, l !! j = Some (r, v) /\ apply_one (rec_index r) (term r) v true s = (x, m_state m') /\ x <> Some true.
Proof.
  induction l as [|[r v] l IH]; intros off m Hc H0 Hmax Hcom.
  { cbn. split; [destruct m as [[]]; reflexivity|]. exists 0%nat, (m_state m). cbn. repeat split; try reflexivity; lia. }
  apply contiguous_cons in Hc as [Hi Hc]. cbn [fst] in Hi. cbn [length] in Hmax, Hcom. cbn [batch_of apply_batch le_index le_payload le_end].
  rewrite Hi, u64_id, Z.eqb_refl by lia. cbn [negb].
  destruct (apply_one _ _ v true (m_state m)) as [x s] eqn:Ea.
  assert (Hfail : x <> Some true ->
    same_but_applied (m_node m) (m_node m) /\ exists j s', (j <= length ((r, v) :: l))%nat /\ lastApplied (m_node m) = lastApplied (m_node m) + Z.of_nat j /\
      m_offset m = (if (j =? 0)%nat then m_offset m else off + blen (write_records (take j ((r, v) :: l)).*1)) /\
      run_entries (fun _ => currentTerm (n_election (m_node m))) true (take j ((r, v) :: l)) (m_state m) = Some s' /\
      exists r0 v0 x0, ((r, v) :: l) !! j = Some (r0, v0) /\
        apply_one (rec_index r0) (currentTerm (n_election (m_node m))) v0 true s' = (x0, s) /\ x0 <> Some true).
  { intros Hx. split; [destruct m as [[]]; reflexivity|]. exists 0%nat, (m_state m). repeat split; try (cbn; lia).
    exists r, v, x. rewrite Hi. auto. }
  destruct x as [[]|]; try (apply Hfail; discriminate). clear Hfail.
  rewrite advance_next by lia. cbn [negb].
  specialize (IH (off + blen (record_bytes r)) (mkMachine (set_applied (m_node m) (lastApplied (m_node m) + 1)) (off + blen (record_bytes r)) s)).
  cbn [m_node m_offset m_state set_applied lastApplied commitIndex n_election] in IH. specialize (IH Hc ltac:(lia) ltac:(lia) ltac:(lia)).
  destruct (apply_batch _ _) as [ok m']. destruct IH as (Hsame & j & s' & Hj & Hl & Ho & Hrun & Hend).
  split; [unfold same_but_applied in *; rewrite Hsame; reflexivity|].
  exists (Datatypes.S j), s'. split; [cbn; lia|]. split; [lia|]. split; [|split].
  - rewrite Ho. cbn [Nat.eqb take]. change (write_records ((r, v) :: take j l).*1) with (record_bytes r ++ write_records (take j l).*1).
    unfold blen. rewrite length_app. destruct (j =? 0)%nat eqn:Ej; [apply Nat.eqb_eq in Ej as ->|lia].
    rewrite take_0. change (write_records [].*1) with (@nil Byte.byte). cbn [length]. lia.
  - cbn [take run_entries]. rewrite Hi, Ea. exact Hrun.
  - destruct ok; [destruct Hend as [-> Hend]; auto|]. exact Hend.
Qed.

(** Where the next scan may start: past the file, where some record starts, or at the
    end of the file once everything in it is applied. *)
Definition resume_ok (lo : Z) (rvs : entries) (applied off : Z) : Prop :=
  blen (write_records rvs.*1) < off \/
  exists k, off = blen (write_records (take k rvs).*1) /\ ((k < length rvs)%nat \/ lo + Z.of_nat k <= applied + 1).

Lemma resume_inside lo rvs applied off : resume_ok lo rvs applied off -> applied + 1 < lo + Z.of_nat (length rvs) ->
  blen (write_records rvs.*1) < off \/ exists k, (k < length rvs)%nat /\ off = blen (write_records (take k rvs).*1).
Proof. intros [H|(k & -> & Hk)] Ha; [auto|]. right. exists k. split; [lia|reflexivity]. Qed.

(** C5: applying a target that is committed, in the log, and above the last applied index
    (which has reached the snapshot), from a log that opens and is well formed, gives
    the state machine the committed entries after the last applied one, in index order,
    each once and none beyond the target: [j] of them are taken and the applied
    index moves by [j]; either at least one was taken and the answer tells whether the
    target is reached, or the next entry was refused or threw and the answer is no.
    The scan starts at the offset remembered from the last time; that this is where a
    record starts, or the end of a log that is applied, or past the file, is assumed and is
    kept by applying.  (Compaction of the log does not keep it:
    [stale_offset_stalls].) *)
Theorem applies_in_order lim upTo m lo rvs :
  log_wf (n_log (m_node m)) lo rvs.*1 -> Forall entry_ok rvs -> resume_ok lo rvs (lastApplied (m_node m)) (m_offset m) ->
  log_opens lim = true -> lastSnapshotIndex (n_log (m_node m)) <= lastApplied (m_node m) < upTo ->
  upTo <= commitIndex (m_node m) -> upTo <= lastIndex (n_log (m_node m)) ->
  let n := m_node m in
  let pending := take (Z.to_nat (upTo - lastApplied n)) (drop (Z.to_nat (lastApplied n + 1 - lo)) rvs) in
  let term := fun _ => currentTerm (n_election n) in
  let '(answer, m') := applyCommittedEntries lim upTo m in
  same_but_applied n (m_node m') /\ resume_ok lo rvs (lastApplied (m_node m')) (m_offset m') /\
  exists j s, (j <= length pending)%nat /\ lastApplied (m_node m') = lastApplied n + Z.of_nat j /\
    run_entries term true (take j pending) (m_state m) = Some s /\
    ((1 <= j)%nat /\ m_state m' = s /\ answer = (upTo <=? lastApplied (m_node m')) \/
     answer = false /\ exists r v x, pending !! j = Some (r, v) /\
       apply_one (rec_index r) (term r) v true s = (x, m_state m') /\ x <> Some true).
Proof.
  intros W Hok Hres Hopen Hap Hcom Hlast n pending term. pose proof (lw_lo _ _ _ W). pose proof (lw_snap _ _ _ W).
  pose proof (lw_last _ _ _ W) as Hli. rewrite length_fmap in Hli.
  assert (Hc : contiguous lo rvs) by (pose proof (lw_index _ _ _ W) as Hx; rewrite length_fmap in Hx; exact Hx).
  assert (Hmax : lastIndex (n_log n) < 2 ^ 64).
  { destruct (rvs !! (length rvs - 1)%nat) as [rv|] eqn:Er; [|apply lookup_ge_None in Er; unfold n; lia].
    assert (Er' : rvs.*1 !! (length rvs - 1)%nat = Some rv.1) by (rewrite list_lookup_fmap, Er; reflexivity).
    pose proof (wf_lookup _ _ _ _ _ W Er') as Hidx. pose proof (ro_index _ (proj1 (Forall_lookup_1 _ _ _ _ Hok Er))) as Hr.
    unfold n. lia. }
  fold n in Hap, Hcom, Hlast, Hli, H, H0. unfold applyCommittedEntries. fold n.
  rewrite (proj2 (Z.eqb_neq upTo 0)), (proj2 (Z.ltb_ge (commitIndex n) _)), u64_id, (proj2 (Z.ltb_ge upTo _)), Hopen by lia. cbn [negb].
  pose proof (lw_file _ _ _ W) as Hfile. fold n in Hfile. rewrite Hfile.
  destruct (read_batch_spec lim lo rvs (lastApplied n + 1) upTo Hok Hc ltac:(lia) ltac:(lia) ltac:(lia) (m_offset m)
    (resume_inside _ _ _ _ Hres ltac:(fold n; lia))) as (k & Hk & Hku & Ha).
  set (pos := Z.to_nat (lastApplied n + 1 - lo)) in *. set (off := blen (write_records (take pos rvs).*1)) in *.
  set (l := take k (drop pos rvs)) in *. rewrite Ha.
  assert (Hl : length l = k) by (unfold l; rewrite length_take; lia).
  assert (Hlp : l = take k pending) by (unfold l, pending; rewrite take_take; f_equal; lia).
  assert (Hlc : contiguous (lastApplied n + 1) l).
  { replace (lastApplied n + 1) with (lo + Z.of_nat pos) by lia. pose proof (contiguous_drop pos _ _ Hc ltac:(lia)) as Hd.
    apply contiguous_take, Hd. }
  assert (Hkp : (k <= length pending)%nat) by (apply (f_equal length) in Hlp; rewrite Hl, length_take in Hlp; lia).
  pose proof (apply_batch_spec l off m Hlc ltac:(fold n; lia) ltac:(fold n; lia) ltac:(fold n; lia)) as Hb. fold n in Hb.
  destruct (batch_of off l) as [|e es] eqn:El; [destruct l as [|[]]; [cbn in Hl; lia|discriminate]|]. rewrite <- El in *.
  destruct (apply_batch (batch_of off l) m) as [ok m']. destruct Hb as (Hsame & j & s & Hj & Hla & Ho & Hrun & Hend).
  assert (Hres' : resume_ok lo rvs (lastApplied (m_node m')) (m_offset m')).
  { rewrite Ho, Hla. destruct (j =? 0)%nat eqn:Ej; [apply Nat.eqb_eq in Ej as ->; rewrite Z.add_0_r; exact Hres|].
    right. exists (pos + j)%nat. split; [|right; lia]. unfold off, l.
    rewrite take_take, Nat.min_l by lia. rewrite <- (take_take_drop rvs pos j), fmap_app, write_records_app. unfold blen. rewrite length_app. lia. }
  rewrite Hlp in Hrun. rewrite take_take, Nat.min_l in Hrun by lia.
  destruct ok; (split; [exact Hsame|]); (split; [exact Hres'|]); exists j, s; (split; [lia|]); (split; [exact Hla|]); (split; [exact Hrun|]).
  - left. destruct Hend as [-> Hend]. split; [lia|]. auto.
  - right. split; [reflexivity|]. destruct Hend as (r & v & x & Hlj & Hone). exists r, v, x. split; [|exact Hone].
    rewrite Hlp in Hlj. apply lookup_take_Some in Hlj as [Hlj _]. exact Hlj.
Qed.
End Apply.
