(* ===== verification/RaftRecovery.v ===== *)
(** * Recovering a node from its log (raft_core.cpp, replayRaftLog)

    At startup the state machine gets exactly the committed entries after the
    snapshot, in order; when one of them is missing or refused, the node is
    fenced.  Witnesses of the theorems on applying follow. *)

From S2P Require Import Prelude Json Msgpack JsonValue Checksum Sst RaftLog RaftNode RaftAppend RaftApply.
From stdpp Require Import base list strings.
From Stdlib Require Import ZArith Lia ZifyBool.

Open Scope Z_scope.

#[local] Abbreviation entries := (list (raft_record * json)).

Section Recovery.
Context `{JT : JsonText} `{LZ : Lz4} {S : Type} `{SM : StateMachine S}.

(** ** Reading a written log *)

Lemma load_written env rvs : Forall entry_ok rvs ->
  loadBinaryRaftLogEntries env (write_records rvs.*1) = Ok (persisted 0 rvs, write_records rvs.*1).
Proof.
  intros Hok. unfold loadBinaryRaftLogEntries. set (file := write_records rvs.*1).
  assert (Hlen : (length rvs <= length file)%nat)
    by (pose proof (write_records_length rvs.*1) as H; rewrite length_fmap in H; exact H).
  destruct (load_whole env file rvs Hok (Datatypes.S (length file)) [] [] []) as (fuel & Hf & He); [lia|unfold file; rewrite app_nil_r; reflexivity|].
  rewrite app_nil_r in He. fold file in He. rewrite He. destruct fuel as [|fuel]; [lia|]. reflexivity.
Qed.

Lemma persisted_length rvs : forall off, length (persisted off rvs) = length rvs.
Proof. induction rvs as [|[r v] rvs IH]; intros off; [reflexivity|]. cbn. rewrite IH. reflexivity. Qed.

Lemma max_entry_from rvs : forall lo off mi mt, contiguous lo rvs -> mi < lo ->
  fold_left (fun '(mi, mt) e => if mi <=? pe_index e then (pe_index e, pe_term e) else (mi, mt)) (persisted off rvs) (mi, mt) =
  match last rvs with Some rv => (lo + Z.of_nat (length rvs) - 1, rec_term rv.1) | None => (mi, mt) end.
Proof.
  induction rvs as [|[r v] rvs IH]; intros lo off mi mt Hc Hmi; [reflexivity|]. apply contiguous_cons in Hc as [Hi Hc]. cbn [fst] in Hi.
  cbn [persisted fold_left pe_index pe_term length]. rewrite Hi, (proj2 (Z.leb_le mi lo)) by lia.
  rewrite (IH (lo + 1)) by (auto; lia). destruct rvs as [|rv rvs]; [cbn; f_equal; lia|]. rewrite last_cons_cons.
  destruct (last (rv :: rvs)) as [x|] eqn:El; [f_equal; lia|apply last_None in El; discriminate].
Qed.

Lemma trim_written rvs lo : Forall entry_ok rvs -> contiguous lo rvs ->
  trimRaftLog (write_records rvs.*1) (lo + Z.of_nat (length rvs) - 1) = write_records rvs.*1.
Proof.
  intros Hok Hc. unfold trimRaftLog. rewrite raft_read_all.
  2:{ apply Forall_fmap. eapply Forall_impl; [exact Hok|]. intros rv [H _]. exact H. }
  f_equal. clear Hok. set (mx := lo + Z.of_nat (length rvs) - 1). assert (Hmx : lo + Z.of_nat (length rvs) - 1 <= mx) by (unfold mx; lia).
  clearbody mx. revert lo Hc Hmx. induction rvs as [|[r v] rvs IH]; intros lo Hc Hmx; [reflexivity|].
  apply contiguous_cons in Hc as [Hi Hc]. cbn [fst length] in *. change ((r, v) :: rvs).*1 with (r :: rvs.*1). cbn [take_through].
  rewrite Hi, (proj2 (Z.ltb_ge mx lo)) by lia. f_equal. apply (IH (lo + 1) Hc). lia.
Qed.

(** ** The replay loop *)

Lemma replay_beyond restored rvs : forall lo off applied offset expected s, contiguous lo rvs -> restored < lo ->
  replay_entries restored true (persisted off rvs) applied offset expected s = ReplayDone applied offset s.
Proof.
  induction rvs as [|[r v] rvs IH]; intros lo off applied offset expected s Hc Hlo; [reflexivity|].
  apply contiguous_cons in Hc as [Hi Hc]. cbn [fst] in Hi. cbn [persisted replay_entries pe_index].
  rewrite Hi, (proj2 (Z.ltb_lt restored lo)) by lia. apply (IH (lo + 1)); [exact Hc|lia].
Qed.

Definition replay_stopped (e : @replay_end S) : Prop :=
  match e with ReplayDone _ _ _ => False | _ => True end.

Lemma replay_written restored rvs : forall lo off applied offset s, contiguous lo rvs -> lo <= applied + 1 -> 0 <= applied ->
  lo + Z.of_nat (length rvs) < 2 ^ 64 -> applied < 2 ^ 64 - 1 ->
  let todo := take (Z.to_nat (restored - applied)) (drop (Z.to_nat (applied + 1 - lo)) rvs) in
  let e := replay_entries restored true (persisted off rvs) applied offset (applied + 1) s in
  match run_entries rec_term false todo s with
  | Some s' => exists o, e = ReplayDone (Z.max applied (Z.min restored (lo + Z.of_nat (length rvs) - 1))) o s'
  | None => replay_stopped e
  end.
Proof.
  induction rvs as [|[r v] rvs IH]; intros lo off applied offset s Hc Hlo H0 Hmax Hamax todo e.
  { unfold todo, e. rewrite drop_nil, take_nil. cbn [run_entries persisted replay_entries length]. exists offset. f_equal. lia. }
  cbn [length] in Hmax. destruct (Z_lt_le_dec restored lo) as [Hr|Hr].
  { replace todo with (@nil (raft_record * json)) by (unfold todo; replace (Z.to_nat (restored - applied)) with 0%nat by lia; reflexivity).
    cbn [run_entries]. exists offset. unfold e. rewrite (replay_beyond restored _ lo) by (auto; lia). f_equal. cbn [length]. lia. }
  apply contiguous_cons in Hc as [Hi Hc]. cbn [fst] in Hi. subst todo e. cbn [persisted replay_entries pe_index pe_term pe_payload endOffset].
  rewrite Hi, (proj2 (Z.ltb_ge restored lo)) by lia. destruct (Z_le_gt_dec lo applied) as [Ha|Ha].
  - rewrite (proj2 (Z.leb_le lo applied)) by lia.
    replace (Z.to_nat (applied + 1 - lo)) with (Datatypes.S (Z.to_nat (applied + 1 - (lo + 1)))) by lia. cbn [drop].
    set (off' := off + blen (record_bytes r)). specialize (IH (lo + 1) off' applied off' s Hc ltac:(lia) H0 ltac:(lia) Hamax).
    cbv zeta in IH. destruct (run_entries _ _ _ s); [|exact IH]. destruct IH as [o IH]. exists o. rewrite IH. f_equal. cbn [length]. lia.
  - assert (lo = applied + 1) by lia. rewrite (proj2 (Z.leb_gt lo applied)) by lia.
    rewrite (proj2 (Z.ltb_ge lo (applied + 1))), (proj2 (Z.eqb_eq lo (applied + 1))) by lia. cbn [negb].
    replace (Z.to_nat (applied + 1 - lo)) with 0%nat by lia.
    replace (Z.to_nat (restored - applied)) with (Datatypes.S (Z.to_nat (restored - lo))) by lia. cbn [drop take run_entries]. rewrite Hi.
    destruct (apply_one lo (rec_term r) v false s) as [[[]|] s']; [|exact I|exact I].
    rewrite u64_id by lia. set (off' := off + blen (record_bytes r)).
    specialize (IH (lo + 1) off' lo off' s' Hc ltac:(lia) ltac:(lia) ltac:(lia) ltac:(lia)). cbv zeta in IH.
    replace (Z.to_nat (lo + 1 - (lo + 1))) with 0%nat in IH by lia. cbn [drop] in IH.
    destruct (run_entries _ _ _ s'); [|exact IH]. destruct IH as [o IH]. exists o. rewrite IH. f_equal. cbn [length]. lia.
Qed.

(** ** A node that starts *)

(** The node before the replay: its log file, and the progress it persisted. *)
Record booting (m : @machine S) (rvs : entries) (lo si st : Z) : Prop := {
  bt_log : n_log (m_node m) = mkLog (write_records rvs.*1) 0 0 0 0;
  bt_entries : Forall entry_ok rvs;
  bt_index : contiguous lo rvs;
  bt_lo : 0 < lo <= si + 1;
  bt_bound : lo + Z.of_nat (length rvs) < 2 ^ 64;
  bt_snap : 0 <= si <= lo + Z.of_nat (length rvs) - 1;
  bt_term : 0 <= st /\ (si = 0 -> st = 0);
  bt_agree : forall r, r ∈ rvs.*1 -> rec_index r = si -> rec_term r = st;
  bt_certain : publicationUncertain (n_durable (m_node m)) = false;
  bt_progress : 0 <= lastApplied (m_node m) <= commitIndex (m_node m) /\
                c_applied (persistedState (n_durable (m_node m))) <= c_commit (persistedState (n_durable (m_node m))) }.

Definition snapshot_of (env : replay_env) : Z * Z := match rp_snapshot env with Ok (Some p) => p | _ => (0, 0) end.

Lemma persistProgress_ok n : publicationUncertain (n_durable n) = false -> lastApplied n <= commitIndex n ->
  c_applied (persistedState (n_durable n)) <= c_commit (persistedState (n_durable n)) ->
  exists n', persistProgress PersistOk n = (Ok tt, n').
Proof.
  intros Hu H1 H2. unfold persistProgress, persistConsensusState. rewrite Hu, (proj2 (Z.ltb_ge (commitIndex n) _)) by lia.
  cbn [andb c_commit c_applied]. rewrite (proj2 (Z.ltb_ge (Z.max _ _) _)) by lia. eauto.
Qed.

(** The node once the snapshot and the log are read. *)
Record loaded (m : @machine S) (n : raft_node) (rvs : entries) (si st : Z) : Prop := {
  ld_log : n_log n = mkLog (write_records rvs.*1) si st si st;
  ld_commit : commitIndex n = Z.max (commitIndex (m_node m)) si;
  ld_applied : lastApplied n = Z.max (lastApplied (m_node m)) si;
  ld_durable : n_durable n = n_durable (m_node m) }.

Lemma replay_loads env m rvs lo si st :
  rp_snapshot env = Ok (if si =? 0 then None else Some (si, st)) -> booting m rvs lo si st ->
  (rvs = [] -> rp_legacy env = []) ->
  exists n, loaded m n rvs si st /\
    replayRaftLog env m =
      let m := mkMachine n (m_offset m) (m_state m) in
      match rvs with
      | [] => if si <? commitIndex n then recovery_failed m
              else if 0 <? si then finish_replay env (mkMachine (set_applied (set_commit n si) si) (m_offset m) (m_state m))
              else mkMachine (set_recovery n true) (m_offset m) (m_state m)
      | _ => replay_log env si st true (persisted 0 rvs) m
      end.
Proof.
  intros Hsnap B Hleg. destruct B as [Hlog Hok Hc Hlo _ Hsi [Hst0 Hst] _ _ [[Ha0 Hap] _]].
  set (n1 := restore_snapshot si st (set_recovery (m_node m) false)).
  assert (Hl1 : n_log n1 = mkLog (write_records rvs.*1) si st si st).
  { unfold n1, restore_snapshot. destruct (0 <? si) eqn:E; cbn [set_applied set_commit set_log set_recovery n_log]; rewrite Hlog.
    - cbn [log_file lastIndex lastEntryTerm lastSnapshotIndex lastSnapshotTerm]. rewrite (proj2 (Z.leb_le 0 si)) by lia. f_equal; lia.
    - assert (si = 0) as -> by lia. rewrite Hst by reflexivity. reflexivity. }
  assert (L : loaded m n1 rvs si st).
  { split; [exact Hl1| | |]; unfold n1, restore_snapshot; destruct (0 <? si) eqn:E; cbn; try reflexivity; lia. }
  exists n1. split; [exact L|]. unfold replayRaftLog. rewrite Hsnap. cbn [m_node m_offset m_state].
  replace (default (0, 0) (if si =? 0 then None else Some (si, st))) with (si, st).
  2:{ destruct (si =? 0) eqn:E; [|reflexivity]. assert (si = 0) as -> by lia. rewrite Hst by reflexivity. reflexivity. }
  fold n1. rewrite Hl1. cbn [log_file]. rewrite load_written by exact Hok.
  replace (set_log n1 _) with n1.
  2:{ unfold set_lastIndex. cbn [lastIndex lastEntryTerm lastSnapshotIndex lastSnapshotTerm]. rewrite <- Hl1.
      clear. clearbody n1. destruct n1; reflexivity. }
  cbv zeta. destruct rvs as [|rv rvs]; [rewrite (Hleg eq_refl); reflexivity|].
  rewrite persisted_length. cbn [length Nat.eqb negb]. rewrite persisted_length. reflexivity.
Qed.

Definition fenced (m : @machine S) : Prop :=
  recoveryComplete (m_node m) = false /\ leader (n_election (m_node m)) = false.

Lemma recovery_failed_fenced m : fenced (recovery_failed m).
Proof. split; reflexivity. Qed.

(** The end of a replay: recovered, or its progress could not be persisted. *)
Lemma finish_cases env (m : @machine S) : publicationUncertain (n_durable (m_node m)) = false ->
  lastApplied (m_node m) <= commitIndex (m_node m) ->
  c_applied (persistedState (n_durable (m_node m))) <= c_commit (persistedState (n_durable (m_node m))) ->
  let m' := finish_replay env m in
  (recoveryComplete (m_node m') = true /\ m_state m' = m_state m /\ lastApplied (m_node m') = lastApplied (m_node m) /\
   commitIndex (m_node m') = commitIndex (m_node m) /\ n_log (m_node m') = n_log (m_node m)) \/
  rp_io env <> PersistOk /\ fenced m'.
Proof.
  intros Hu H1 H2 m'. unfold m', finish_replay.
  destruct (persistProgress (rp_io env) (m_node m)) as [[u|e] n'] eqn:Hn.
  - left. apply persist_core in Hn as [_ Hl Hc Ha _ _ _]. cbn. auto.
  - right. split; [|apply recovery_failed_fenced]. intros Hio. rewrite Hio in Hn.
    destruct (persistProgress_ok _ Hu H1 H2) as [n'' Hn']. congruence.
Qed.

(** The log a recovered node has. *)
Lemma recovered_wf m rvs lo si st : booting m rvs lo si st ->
  log_wf (mkLog (write_records rvs.*1) (lo + Z.of_nat (length rvs) - 1)
            (if si <? lo + Z.of_nat (length rvs) - 1 then match last rvs with Some rv => rec_term rv.1 | None => 0 end else st) si st)
    lo rvs.*1.
Proof.
  intros [_ Hok Hc Hlo _ Hsi [_ Hst] Hagree _ _].
  split; cbn [log_file lastIndex lastEntryTerm lastSnapshotIndex lastSnapshotTerm]; rewrite ?length_fmap; auto; try lia.
  - apply Forall_fmap. eapply Forall_impl; [exact Hok|]. intros rv [H _]. exact H.
  - rewrite fmap_last. destruct (last rvs) as [rv|] eqn:El.
    2:{ apply last_None in El as ->. cbn [length fmap option_fmap option_map] in *. rewrite (proj2 (Z.ltb_ge si _)) by lia. reflexivity. }
    cbn. destruct (si <? _) eqn:Es; [reflexivity|]. symmetry. apply Hagree.
    + apply list_elem_of_fmap. exists rv. split; [reflexivity|]. rewrite last_lookup in El. eapply list_elem_of_lookup_2, El.
    + rewrite last_lookup in El.
      assert (E : (rec_index <$> rvs.*1) !! pred (length rvs) = Some (rec_index rv.1)) by (rewrite !list_lookup_fmap, El; reflexivity).
      unfold contiguous in Hc. rewrite Hc, lookup_seqZ in E. lia.
Qed.

(** A node that has recovered up to [commit], with the log [rvs]. *)
Definition recovered (m : @machine S) (s : S) (commit lo : Z) (rvs : entries) : Prop :=
  recoveryComplete (m_node m) = true /\ m_state m = s /\ lastApplied (m_node m) = commit /\
  commitIndex (m_node m) = commit /\ log_wf (n_log (m_node m)) lo rvs.*1.

(** With no entries there is nothing to replay. *)
Lemma recover_empty env m n lo si st : booting m [] lo si st -> loaded m n [] si st ->
  log_wf (mkLog (write_records []) (lo + Z.of_nat 0 - 1) (if si <? lo + Z.of_nat 0 - 1 then 0 else st) si st) lo [] ->
  let commit := Z.max (commitIndex (m_node m)) si in
  let m0 := mkMachine n (m_offset m) (m_state m) in
  let m' := if si <? commitIndex n then recovery_failed m0
            else if 0 <? si then finish_replay env (mkMachine (set_applied (set_commit n si) si) (m_offset m) (m_state m))
            else mkMachine (set_recovery n true) (m_offset m) (m_state m) in
  if commit <=? lo + Z.of_nat 0 - 1 then recovered m' (m_state m) commit lo [] \/ rp_io env <> PersistOk /\ fenced m' else fenced m'.
Proof.
  intros [_ _ _ Hlo Hmax Hsi _ _ Hcert [[Ha0 Hap] Hdur]] [Ll Lc La Ld] W commit m0 m'. cbn [length] in Hsi.
  assert (Hsl : lo = si + 1) by lia. rewrite (proj2 (Z.ltb_ge si _)) in W by lia. unfold m'. rewrite Lc. fold commit.
  destruct (Z.leb_spec commit (lo + Z.of_nat 0 - 1)).
  2:{ rewrite (proj2 (Z.ltb_lt si commit)) by lia. apply recovery_failed_fenced. }
  assert (Hcs : commit = si) by lia. rewrite (proj2 (Z.ltb_ge si commit)) by lia.
  assert (Hlog : log_wf (n_log n) lo []) by (rewrite Ll; replace si with (lo + Z.of_nat 0 - 1) at 1 by lia; exact W).
  destruct (0 <? si) eqn:E0.
  - destruct (finish_cases env (mkMachine (set_applied (set_commit n si) si) (m_offset m) (m_state m))) as [(F1 & F2 & F3 & F4 & F5)|F].
    + cbn. rewrite Ld. exact Hcert.
    + cbn. lia.
    + cbn. rewrite Ld. exact Hdur.
    + left. unfold recovered. rewrite F1, F2, F3, F4, F5. cbn. rewrite Hcs. auto.
    + right. exact F.
  - left. unfold recovered. cbn. rewrite La, Lc. fold commit. split_and!; auto; lia.
Qed.

Lemma recover_some env m n rvs lo si st : rp_loaded env = true -> booting m rvs lo si st -> loaded m n rvs si st ->
  log_wf (mkLog (write_records rvs.*1) (lo + Z.of_nat (length rvs) - 1)
            (if si <? lo + Z.of_nat (length rvs) - 1 then match last rvs with Some rv => rec_term rv.1 | None => 0 end else st) si st)
    lo rvs.*1 -> rvs <> [] ->
  let commit := Z.max (commitIndex (m_node m)) si in
  let from := if rp_clean env && (Z.max (lastApplied (m_node m)) si =? commit) then commit else si in
  let committed := take (Z.to_nat (commit - from)) (drop (Z.to_nat (from + 1 - lo)) rvs) in
  let m' := replay_log env si st true (persisted 0 rvs) (mkMachine n (m_offset m) (m_state m)) in
  match run_entries rec_term false committed (m_state m) with
  | Some s =>
      if commit <=? lo + Z.of_nat (length rvs) - 1
      then recovered m' s commit lo rvs \/ rp_io env <> PersistOk /\ fenced m'
      else fenced m'
  | None => fenced m'
  end.
Proof.
  intros Hloaded B [Ll Lc La Ld] W Hne commit from committed m'.
  destruct B as [_ Hok Hc Hlo Hmax Hsi _ _ Hcert [[Ha0 Hap] Hdur]].
  assert (Hfence : forall m0 : @machine S,
    match run_entries rec_term false committed (m_state m) with Some _ => fenced (recovery_failed m0) | None => fenced (recovery_failed m0) end)
    by (intros m0; destruct (run_entries _ _ _ _); apply recovery_failed_fenced).
  unfold m', replay_log. cbn [m_node m_offset m_state].
  destruct (last rvs) as [rvl|] eqn:El; [|apply last_None in El; congruence].
  replace (max_entry (persisted 0 rvs)) with (lo + Z.of_nat (length rvs) - 1, rec_term rvl.1).
  2:{ symmetry. unfold max_entry. rewrite (max_entry_from rvs lo) by (auto; lia). rewrite El. reflexivity. }
  rewrite Hloaded, Lc. cbn [andb]. fold commit. rewrite (Z.max_l (lo + _ - 1)) by lia.
  rewrite (proj2 (Z.ltb_ge commit commit)) by lia.
  destruct (_ <? commit) eqn:Ec.
  { rewrite (proj2 (Z.leb_gt commit _)) by lia. apply Hfence. }
  rewrite (proj2 (Z.leb_le commit _)) by lia. rewrite Ll. cbn [set_lastIndex log_file lastIndex lastSnapshotIndex lastSnapshotTerm].
  rewrite (Z.max_r si) by lia. rewrite andb_true_r. cbn [set_log lastApplied]. rewrite La.
  replace (if rp_clean env && _ then Z.max (lastApplied (m_node m)) si else si) with from.
  2:{ unfold from. destruct (rp_clean env); [|reflexivity]. cbn [andb]. destruct (Z.eqb_spec (Z.max (lastApplied (m_node m)) si) commit); [congruence|reflexivity]. }
  assert (Hfrom : si <= from <= commit) by (unfold from; destruct (_ && _); lia). rewrite u64_id by lia.
  pose proof (replay_written commit rvs lo 0 from 0 (m_state m) Hc ltac:(lia) ltac:(lia) Hmax ltac:(lia)) as Hrep.
  cbv zeta in Hrep. fold committed in Hrep.
  destruct (run_entries rec_term false committed (m_state m)) as [s|].
  2:{ destruct (replay_entries _ _ _ _ _ _ _); [contradiction|apply recovery_failed_fenced..]. }
  destruct Hrep as [o ->]. replace (Z.max from (Z.min commit _)) with commit by lia.
  rewrite (proj2 (Z.ltb_ge commit commit)) by lia.
  match goal with |- context [finish_replay env ?m0] => destruct (finish_cases env m0) as [(F1 & F2 & F3 & F4 & F5)|F] end.
  - cbn. rewrite Ld. exact Hcert.
  - cbn. rewrite Lc. fold commit. lia.
  - cbn. rewrite Ld. exact Hdur.
  - left. unfold recovered. rewrite F1, F2, F3, F4, F5. cbn [m_node m_state set_log set_applied lastApplied commitIndex n_log]. rewrite Lc.
    do 4 (split; [reflexivity|]). unfold set_lastIndex. cbn [log_file lastIndex lastEntryTerm lastSnapshotIndex lastSnapshotTerm].
    replace (if rp_trimmed env then _ else _) with (write_records rvs.*1); [exact W|].
    destruct (rp_trimmed env); [rewrite trim_written by auto|]; reflexivity.
  - right. exact F.
Qed.

End Recovery.

(** ** Examples *)

#[local] Existing Instance digits_text.
#[local] Existing Instance rle_lz4.

(** A state machine that keeps what it is given. *)
#[local] Instance trace_machine : StateMachine (list json) :=
  { sm_apply payload s := (Some true, s ++ [payload]); sm_visible _ _ := true }.

Definition sample_entries : entries := [sample_record 1; sample_record 2; sample_record 3].

Lemma sample_entries_ok : Forall entry_ok sample_entries.
Proof. do 3 (apply Forall_cons_2; [apply sample_record_ok; lia|]). apply Forall_nil_2. Qed.

(** Entries 1 to 3 of term 2, two of them committed, one applied. *)
Definition node_with (l : log_state) (term commit applied : Z) : raft_node :=
  mkNode (str "a") true false (mkElection term [] [] false true) (mkDurable (mkConsensus term [] commit applied) false None) l commit applied.

Definition booting_machine : @machine (list json) :=
  mkMachine (node_with (mkLog (write_records sample_entries.*1) 0 0 0 0) 5 2 1) 0 [].

Definition replay_good : replay_env := mkReplay (Ok None) true false true true [] true PersistOk.

Lemma sample_booting : booting booting_machine sample_entries 1 0 0.
Proof.
  split; try reflexivity; try discriminate; cbn; try lia; try apply sample_entries_ok.
  intros r Hr Hi. exfalso. repeat (apply elem_of_cons in Hr as [->|Hr]; [cbn in Hi; lia|]). inversion Hr.
Qed.


(** A node of term 5 applies entry 2, written in term 2. *)
Definition applying_machine : @machine (list json) :=
  mkMachine (node_with (mkLog (write_records sample_entries.*1) 3 2 0 0) 5 2 1) 0 [].

Definition no_limits : apply_limits := mkLimits 64 (2 ^ 20) (fun _ => false) true.

Lemma applying_log_wf : log_wf (n_log (m_node applying_machine)) 1 sample_entries.*1.
Proof.
  split; try reflexivity; try (cbn; lia). apply Forall_fmap. eapply Forall_impl; [exact sample_entries_ok|]. intros rv [H _]. exact H.
Qed.

Lemma applies_in_order_witness :
  let '(answer, m') := applyCommittedEntries no_limits 2 applying_machine in
  answer = true /\ lastApplied (m_node m') = 2 /\ same_but_applied (m_node applying_machine) (m_node m').
Proof.
  pose proof (applies_in_order no_limits 2 applying_machine 1 sample_entries applying_log_wf sample_entries_ok) as H. cbv zeta in H.
  destruct (applyCommittedEntries no_limits 2 applying_machine) as [answer m'] eqn:E.
  split; [vm_compute in E; congruence|]. split; [vm_compute in E; injection E as _ <-; reflexivity|].
  apply H; try (cbn; lia). right. exists 0%nat. split; [reflexivity|left; cbn; lia].
Defined.

(** The term stamped on an applied entry is the node's current one, at replay the
    entry's own: the state machine is given different documents for one entry. *)
Example apply_stamps_current_term :
  match (applyCommittedEntries no_limits 2 applying_machine).2, replayRaftLog replay_good booting_machine with
  | m1, m2 => (integer_member "_raft_term" <$> m_state m1, integer_member "_raft_term" <$> drop 1 (m_state m2)) = ([Some 5], [Some 2])
  end.
Proof. vm_compute. reflexivity. Qed.

(** After compaction to entries 3 to 5 the offset cached behind entry 3 is the
    end of the file: committed entry 4 is not applied, though it is there. *)
Example stale_offset_stalls :
  let rvs := [sample_record 3; sample_record 4; sample_record 5] in
  let offset := blen (write_records sample_entries.*1) in
  let l := mkLog (compactRaftLog (write_records (sample_entries ++ drop 1 rvs).*1) 2) 5 2 2 2 in
  let m := mkMachine (node_with l 5 4 3) offset [] in
  log_file l = write_records rvs.*1 /\
  (applyCommittedEntries no_limits 4 m).1 = false /\ (applyCommittedEntries no_limits 4 m).2 = m /\
  m_state (applyCommittedEntries no_limits 4 (mkMachine (node_with l 5 4 3) 0 [])).2 <> [].
Proof. vm_compute. repeat split; discriminate. Qed.
