(* ===== verification/RaftQuorum.v ===== *)
(** * Quorums of a leader (raft_core.cpp)

    How a leader learns that an entry is on a majority: the index reached by half
    of the nodes, the writers waiting for it, and the commit index that follows.
    A write is the part up to the wait, which appends the entry, and the part
    after it; other handlers may run in between.  Admission limits and the
    wait for the entry to be applied are left out. *)

From S2P Require Import Prelude Json Msgpack Checksum Sst RaftLog RaftNode RaftAppend.
From stdpp Require Import base list sorting strings.
From Stdlib Require Import ZArith Lia ZifyBool.

Open Scope Z_scope.

(** ** Counting *)

Definition count_ge (x : Z) (l : list Z) : Z := Z.of_nat (length (List.filter (fun y => x <=? y) l)).

Definition reachedCountForIndex (target : Z) (matchIndex : list Z) : Z := 1 + count_ge target matchIndex.

Definition desc (a b : Z) : Prop := b <= a.
#[export] Instance desc_dec a b : Decision (desc a b) := Z_le_dec b a.

Definition computeQuorumIndex (lastIndex : Z) (matchIndex : list Z) : Z :=
  let idxs := lastIndex :: matchIndex in
  default 0 (merge_sort desc idxs !! ((length idxs - 1) / 2)%nat).

(** ** Waiting *)

(** [q_waiters]: the writers that wait, with their target. *)
Record quorum_state := mkQuorum { q_match : list Z; q_reached : Z; q_waiters : list (nat * Z) }.

(** The writers released, and the state after. *)
Definition publishQuorumIndex (lastIndex : Z) (st : quorum_state) : list nat * quorum_state :=
  let q := computeQuorumIndex lastIndex (q_match st) in
  (fst <$> List.filter (fun '(_, target) => target <=? q) (q_waiters st),
   mkQuorum (q_match st) (Z.max (q_reached st) q) (List.filter (fun '(_, target) => negb (target <=? q)) (q_waiters st))).

(** [waitForQuorumIndex] up to the wait: the acknowledgements counted when it
    need not wait. *)
Definition beginWait (writer : nat) (target needed lastIndex : Z) (st : quorum_state) : option Z * quorum_state :=
  if target <=? q_reached st then (Some needed, st)
  else
    let nowAcks := reachedCountForIndex target (q_match st) in
    if needed <=? nowAcks then (Some nowAcks, (publishQuorumIndex lastIndex st).2)
    else (None, mkQuorum (q_match st) (q_reached st) (q_waiters st ++ [(writer, target)])).

(** The end of it, after the writer was released or timed out. *)
Definition endWait (writer : nat) (target needed : Z) (released : bool) (st : quorum_state) : bool * Z * quorum_state :=
  let nowAcks := reachedCountForIndex target (q_match st) in
  (released || (needed <=? nowAcks) || (target <=? q_reached st), nowAcks,
   mkQuorum (q_match st) (q_reached st) (List.filter (fun '(w, _) => negb (w =? writer)%nat) (q_waiters st))).

(** An acknowledgement of peer [p] up to [remoteMatch]. *)
Definition recordMatch (p : nat) (remoteMatch lastIndex : Z) (st : quorum_state) : list nat * quorum_state :=
  publishQuorumIndex lastIndex
    (mkQuorum (alter (fun m => Z.max m remoteMatch) p (q_match st)) (q_reached st) (q_waiters st)).

(** A new leader has heard from nobody; what was reached before stays. *)
Definition resetMatches (st : quorum_state) : quorum_state :=
  mkQuorum ((fun _ => 0) <$> q_match st) (q_reached st) (q_waiters st).

(** ** A write of the leader *)

Section Leader.
Context `{LZ : Lz4}.

Record write_env := mkWriteEnv { we_written : option nat; we_synced : bool }.

(** [replicateSynchronous] up to the wait: the index and term of the entry, or
    an error when it returned false or threw. *)
Definition beginReplicate (env : write_env) (entry : json) (n : raft_node) : result (Z * Z) * raft_node :=
  match encodeRaftLogPayload entry with
  | Err m => (Err m, n)
  | Ok payload =>
      let e := n_election n in
      if negb (leader e) then (Err "Lost leadership before replication", n)
      else
        let l := n_log n in
        let index := u64 (lastIndex l + 1) in
        match appendRaftRecordBytes [] index (currentTerm e) payload with
        | Err m => (Err m, n)
        | Ok bs =>
            match we_written env with
            | Some k => (Err "Failed to open log", set_log n (set_lastIndex l (log_file l ++ take k bs) (lastIndex l) (lastEntryTerm l)))
            | None =>
                let n := set_log n (set_lastIndex l (log_file l ++ bs) index (currentTerm e)) in
                if negb (we_synced env) then (Err "raft_log_sync_failed", fenceStorageFailure n)
                else (Ok (index, currentTerm e), n)
            end
        end
  end.

(** After the wait: the commit index moves to what the majority has. *)
Definition finishReplicate (nodes index term : Z) (satisfied : bool) (observedAcks : Z) (st : quorum_state) (n : raft_node)
  : bool * raft_node :=
  let e := n_election n in
  if negb (leader e) || negb (currentTerm e =? term) then (false, n)
  else if satisfied && (quorumSize nodes <=? observedAcks)
  then
    let majorityIndex := Z.max (computeQuorumIndex (lastIndex (n_log n)) (q_match st)) index in
    (true, if commitIndex n <? majorityIndex then set_commit n majorityIndex else n)
  else (false, n).
End Leader.

(** ** The middle of a sorted list *)

#[export] Instance desc_total : Total desc.
Proof. intros x y. unfold desc. lia. Qed.
#[export] Instance desc_trans : Transitive desc.
Proof. intros x y z. unfold desc. lia. Qed.

Lemma count_ge_perm x l l' : l ≡ₚ l' -> count_ge x l = count_ge x l'.
Proof.
  intros H. unfold count_ge. f_equal. induction H as [|y l l' _ IH|y z l|l1 l2 l3 _ IH1 _ IH2]; cbn [List.filter].
  - reflexivity.
  - destruct (x <=? y); cbn [length]; lia.
  - destruct (x <=? y), (x <=? z); cbn [length]; reflexivity.
  - lia.
Qed.

Lemma count_ge_cons x y l : count_ge x (y :: l) = (if x <=? y then 1 else 0) + count_ge x l.
Proof. unfold count_ge. cbn [List.filter]. destruct (x <=? y); cbn [length]; lia. Qed.

Lemma count_ge_bound x l : 0 <= count_ge x l <= Z.of_nat (length l).
Proof. unfold count_ge. pose proof (filter_length_le (fun y => x <=? y) l). lia. Qed.

Lemma count_ge_none x l : Forall (fun y => y < x) l -> count_ge x l = 0.
Proof. induction 1 as [|y l Hy _ IH]; [reflexivity|]. rewrite count_ge_cons, IH, (proj2 (Z.leb_gt x y)) by lia. reflexivity. Qed.

(** In a list sorted downwards at least [i + 1] elements reach element [i], and
    no more than [i] reach anything greater. *)
Lemma sorted_count l : StronglySorted desc l -> forall i q x, l !! i = Some q ->
  (Z.of_nat i + 1 <= count_ge x l <-> x <= q).
Proof.
  induction 1 as [|y l Hs IH Hy]; intros i q x Hi; [discriminate|]. rewrite count_ge_cons. destruct i as [|i].
  - injection Hi as <-. pose proof (count_ge_bound x l). destruct (x <=? y) eqn:E; [lia|].
    rewrite count_ge_none; [lia|]. eapply Forall_impl; [exact Hy|]. unfold desc. intros z Hz. cbn in Hz. lia.
  - cbn in Hi. specialize (IH i q x Hi). pose proof (Forall_lookup_1 _ _ _ _ Hy Hi) as Hq. unfold desc in Hq.
    destruct (x <=? y) eqn:E; [lia|]. rewrite count_ge_none; [lia|].
    eapply Forall_impl; [exact Hy|]. unfold desc. intros z Hz. cbn in Hz. lia.
Qed.

Lemma quorum_index_count lastIndex matchIndex x :
  x <= computeQuorumIndex lastIndex matchIndex <->
  Z.of_nat (length matchIndex / 2) + 1 <= count_ge x (lastIndex :: matchIndex).
Proof.
  unfold computeQuorumIndex. set (idxs := lastIndex :: matchIndex).
  replace (length idxs - 1)%nat with (length matchIndex) by (unfold idxs; cbn; lia).
  rewrite (count_ge_perm x _ _ (symmetry (merge_sort_Permutation desc idxs))).
  assert (Hs : StronglySorted desc (merge_sort desc idxs)) by (apply StronglySorted_merge_sort; typeclasses eauto).
  assert (Hl : length (merge_sort desc idxs) = Datatypes.S (length matchIndex)).
  { rewrite (Permutation_length (merge_sort_Permutation desc idxs)). reflexivity. }
  destruct (merge_sort desc idxs !! _) as [q|] eqn:E.
  - cbn [default]. rewrite (sorted_count _ Hs _ _ x E). reflexivity.
  - apply lookup_ge_None in E. pose proof (Nat.Div0.div_le_upper_bound (length matchIndex) 2 (length matchIndex)). lia.
Qed.

Lemma quorum_index_majority lastIndex matchIndex x :
  Z.odd (1 + Z.of_nat (length matchIndex)) = true -> x <= lastIndex ->
  (x <= computeQuorumIndex lastIndex matchIndex <->
   quorumSize (1 + Z.of_nat (length matchIndex)) <= reachedCountForIndex x matchIndex).
Proof.
  intros Hodd Hx. rewrite quorum_index_count, count_ge_cons, (proj2 (Z.leb_le x lastIndex)) by exact Hx.
  unfold reachedCountForIndex, quorumSize. rewrite Nat2Z.inj_div. change (Z.of_nat 2) with 2.
  apply Z.odd_spec in Hodd as [k Hk]. replace (Z.of_nat (length matchIndex)) with (k * 2) by lia.
  rewrite Z.div_add, Z.div_mul by lia. change (1 / 2) with 0. lia.
Qed.

(** C14: with an odd number of nodes the quorum index is exact: an index up to the
    leader's last is at or below it just when a majority, the leader included,
    has reported it. *)
Theorem quorum_index_exact lastIndex matchIndex x :
  Z.odd (1 + Z.of_nat (length matchIndex)) = true -> x <= lastIndex ->
  (x <= computeQuorumIndex lastIndex matchIndex <->
   quorumSize (1 + Z.of_nat (length matchIndex)) <= reachedCountForIndex x matchIndex).
Proof. apply quorum_index_majority. Qed.

(** ** Commit *)

(** Every index up to [c], within the leader's log, is on a majority. *)
Definition on_majority (matchIndex : list Z) (c : Z) : Prop :=
  quorumSize (1 + Z.of_nat (length matchIndex)) <= reachedCountForIndex c matchIndex.

(** With an odd number of nodes, when a write ends well and no peer reports
    entries the leader does not have, the commit index it leaves is within the
    log, not below the old one or the write's index, and either the old one or
    reported by a majority, as the write's index was. *)
Theorem leader_commits_majority index term satisfied acks st n n' :
  let nodes := 1 + Z.of_nat (length (q_match st)) in
  Z.odd nodes = true -> Forall (fun m => m <= lastIndex (n_log n)) (q_match st) ->
  index <= lastIndex (n_log n) -> on_majority (q_match st) index -> commitIndex n <= lastIndex (n_log n) ->
  finishReplicate nodes index term satisfied acks st n = (true, n') ->
  n_log n' = n_log n /\ Z.max (commitIndex n) index <= commitIndex n' <= lastIndex (n_log n) /\
  (commitIndex n' = commitIndex n \/ on_majority (q_match st) (commitIndex n')).
Proof.
  intros nodes Hodd Hm Hi Hmaj Hc. unfold finishReplicate. destruct (_ || _); [discriminate|]. destruct (_ && _); [|discriminate].
  set (q := computeQuorumIndex _ _).
  assert (Hq : q <= lastIndex (n_log n)).
  { apply Z.nlt_ge. intros Hlt. assert (H : lastIndex (n_log n) + 1 <= q) by lia. apply quorum_index_count in H.
    rewrite count_ge_none in H; [lia|]. apply Forall_cons_2; [lia|]. eapply Forall_impl; [exact Hm|]. cbn. lia. }
  assert (Hqm : on_majority (q_match st) q) by (apply (quorum_index_majority (lastIndex (n_log n))); [exact Hodd|exact Hq|unfold q; lia]).
  intros [= <-]. destruct (_ <? Z.max q index) eqn:E; cbn [set_commit n_log commitIndex]; (split; [reflexivity|]); (split; [lia|]); [|auto].
  right. destruct (Z.max_spec q index) as [[_ ->]|[_ ->]]; assumption.
Qed.

(** ** Waiters *)

(** Publishing releases exactly the writers whose target the quorum index
    has reached and keeps the others waiting; what was reached never goes back. *)
Theorem publish_releases_reached lastIndex st w t :
  (w, t) ∈ q_waiters st ->
  let '(released, st') := publishQuorumIndex lastIndex st in
  (t <= computeQuorumIndex lastIndex (q_match st) -> w ∈ released) /\
  (computeQuorumIndex lastIndex (q_match st) < t -> (w, t) ∈ q_waiters st') /\
  (forall w', w' ∈ released -> exists t', (w', t') ∈ q_waiters st /\ t' <= q_reached st') /\
  q_reached st <= q_reached st'.
Proof.
  intros Hw. unfold publishQuorumIndex. set (q := computeQuorumIndex _ _). cbn [q_waiters q_reached].
  repeat split; [| | |lia].
  - intros Ht. apply list_elem_of_fmap. exists (w, t). split; [reflexivity|]. apply list_elem_of_In, filter_In.
    split; [apply list_elem_of_In, Hw|lia].
  - intros Ht. apply list_elem_of_In, filter_In. split; [apply list_elem_of_In, Hw|lia].
  - intros w' H. apply list_elem_of_fmap in H as ([w0 t0] & -> & H). apply list_elem_of_In, filter_In in H as [H Hle].
    exists t0. split; [apply list_elem_of_In, H|lia].
Qed.

(** ** Examples *)

Lemma quorum_index_exact_witness : computeQuorumIndex 9 [4; 7] = 7 /\ 2 <= reachedCountForIndex 7 [4; 7].
Proof. split; [reflexivity|]. apply (quorum_index_exact 9 [4; 7] 7); [reflexivity|lia|vm_compute; discriminate]. Defined.

Definition sample_leader : raft_node :=
  mkNode (str "a") true false (mkElection 3 (str "a") (str "a") true true)
    (mkDurable (mkConsensus 3 (str "a") 4 4) false (Some (mkConsensus 3 (str "a") 4 4))) (mkLog [] 9 3 0 0) 4 4.

Lemma leader_commits_majority_witness :
  let '(ok, n') := finishReplicate 3 7 3 true 2 (mkQuorum [4; 8] 0 []) sample_leader in
  ok = true /\ commitIndex n' = 8 /\ on_majority [4; 8] 8.
Proof.
  destruct (finishReplicate 3 7 3 true 2 (mkQuorum [4; 8] 0 []) sample_leader) as [ok n'] eqn:E.
  assert (Hok : ok = true /\ commitIndex n' = 8) by (vm_compute in E; injection E as <- <-; auto). destruct Hok as [-> Hc].
  split; [reflexivity|]. split; [exact Hc|].
  destruct (leader_commits_majority 7 3 true 2 (mkQuorum [4; 8] 0 []) sample_leader n') as (_ & _ & [H|H]).
  - reflexivity.
  - do 2 (apply Forall_cons_2; [cbn; lia|]). apply Forall_nil_2.
  - cbn. lia.
  - vm_compute. discriminate.
  - cbn. lia.
  - exact E.
  - rewrite Hc in H. discriminate.
  - rewrite Hc in H. exact H.
Defined.

Lemma publish_releases_reached_witness :
  let '(released, st') := publishQuorumIndex 9 (mkQuorum [4; 7] 0 [(0%nat, 7); (1%nat, 8)]) in
  0%nat ∈ released /\ q_waiters st' = [(1%nat, 8)].
Proof.
  destruct (publishQuorumIndex 9 (mkQuorum [4; 7] 0 [(0%nat, 7); (1%nat, 8)])) as [released st'] eqn:E.
  pose proof (publish_releases_reached 9 (mkQuorum [4; 7] 0 [(0%nat, 7); (1%nat, 8)]) 0 7) as H. rewrite E in H.
  split; [apply H; [left|vm_compute; discriminate]|]. vm_compute in E. injection E as _ <-. reflexivity.
Defined.

(** With an even number of nodes the quorum index is reached by half of them
    only: a leader of two counts its own log as a majority. *)
Example even_cluster_quorum_is_half :
  computeQuorumIndex 9 [4] = 9 /\ reachedCountForIndex 9 [4] = 1 /\ quorumSize 2 = 2.
Proof. vm_compute. auto. Qed.

(** What was reached in an earlier term outlives it: a new leader that has heard
    from nobody counts a full quorum for its next write. *)
Example reached_index_survives_term :
  let st := resetMatches (recordMatch 0 100 100 (mkQuorum [0; 0] 0 [])).2 in
  q_match st = [0; 0] /\ (beginWait 0 91 2 91 st).1 = Some 2 /\ reachedCountForIndex 91 (q_match st) = 1.
Proof. vm_compute. auto. Qed.

(** Peers that report a longer log move the commit index past the leader's own. *)
Example commit_past_own_log :
  let '(ok, n') := finishReplicate 3 9 3 true 3 (mkQuorum [12; 12] 0 []) sample_leader in
  ok = true /\ commitIndex n' = 12 /\ lastIndex (n_log n') = 9.
Proof. vm_compute. auto. Qed.
