(* ===== verification/LsmManifest.v ===== *)
(** * The manifest of published SSTs (lsm_manifest.cpp; publication in lsm.cpp)

    A collection directory names its live SSTs in [_manifest.json], with a
    generation and the WAL position they cover.  A flush or a compaction writes
    its SST, publishes a manifest of the next generation by writing a temporary
    file and renaming it, and only then drops what the new files replace.

    A directory is a [store] whose paths are file names; all its entries are
    regular files.  What synchronising, writing and renaming answer is an
    argument.  A message to which the code appends a name or the cause is kept
    up to there. *)

From S2P Require Import Prelude FileSys Json JsonValue Msgpack RowView Checksum Store Sst SstCursor WalIntegrity.
From stdpp Require Import base list gmap sorting strings.
From Stdlib Require Import ZArith Lia.

Open Scope Z_scope.

Record LsmManifest := mkManifest {
  formatVersion : Z; generation : Z; coveredWalLsn : Z; sstFiles : list bytes }.

Inductive manifest_load := ManifestAbsent | ManifestLoaded (m : LsmManifest) | ManifestError (msg : string).

Definition kManifestName : bytes := str "_manifest.json".
Definition kFormatVersion : Z := 1.
Definition kMaxManifestBytes : Z := 16 * 1024 * 1024.
Definition kTempName : bytes := kManifestName ++ str ".tmp".

(** On POSIX: a plain file name with the extension [.sst]. *)
Definition safeSstName (name : bytes) : bool :=
  negb (bytes_eqb name []) && forallb (fun c => negb (byte_val c =? 47)) name &&
  bytes_eqb (extension name) (str ".sst") && negb (bytes_eqb name (str ".sst")).

Section Manifest.
Context `{JT : JsonText} `{LZ : Lz4}.

(** ** Validation *)

Fixpoint has_adjacent (l : list bytes) : bool :=
  match l with
  | a :: ((b :: _) as r) => bytes_eqb a b || has_adjacent r
  | _ => false
  end.

Definition check_sst (d : store) (verifyContents : bool) (name : bytes) : result unit :=
  if negb (safeSstName name) then Err "unsafe SST name in LSM manifest"
  else match st_fs d !! name with
       | None => Err "missing manifest SST "
       | Some _ => if verifyContents then match verifySst d name with Ok _ => Ok tt | Err _ => Err "invalid manifest SST " end else Ok tt
       end.

Fixpoint check_ssts (d : store) (verifyContents : bool) (names : list bytes) : result unit :=
  match names with
  | [] => Ok tt
  | n :: rest => match check_sst d verifyContents n with Err e => Err e | Ok _ => check_ssts d verifyContents rest end
  end.

(** The manifest with its files sorted. *)
Definition validateManifest (d : store) (m : LsmManifest) (verifyContents : bool) : result LsmManifest :=
  if negb (formatVersion m =? kFormatVersion) || (generation m =? 0)
  then Err "unsupported LSM manifest version or generation"
  else
    let sorted := merge_sort bytes_le (sstFiles m) in
    if has_adjacent sorted then Err "duplicate SST in LSM manifest"
    else match check_ssts d verifyContents sorted with
         | Err e => Err e
         | Ok _ => Ok (mkManifest (formatVersion m) (generation m) (coveredWalLsn m) sorted)
         end.

(** ** Loading *)

Record load_io := mkLoadIo { lo_exists : bool; lo_size : bool; lo_open : bool }.

Fixpoint string_list (l : list json) : option (list bytes) :=
  match l with
  | [] => Some []
  | JString s :: rest => r ← string_list rest; Some (s :: r)
  | _ => None
  end.

Definition manifest_of_json (j : json) : result LsmManifest :=
  match j with
  | JObject m =>
      match obj_find (str "formatVersion") m, obj_find (str "generation") m, obj_find (str "coveredWalLsn") m, obj_find (str "sstFiles") m with
      | Some v, Some g, Some c, Some (JArray files) =>
          v ← or_err (as_u32 v) "type_error.302";
          g ← or_err (as_u64 g) "type_error.302";
          c ← or_err (as_u64 c) "type_error.302";
          names ← or_err (string_list files) "type_error.302";
          Ok (mkManifest v g c names)
      | _, _, _, _ => Err "missing LSM manifest fields"
      end
  | _ => Err "missing LSM manifest fields"
  end.

Definition manifest_load_file (io : load_io) (d : store) : manifest_load :=
  if negb (lo_exists io) then ManifestError "cannot inspect LSM manifest: "
  else match st_fs d !! kManifestName with
       | None => ManifestAbsent
       | Some f =>
           let size := blen (f_data f) in
           if negb (lo_size io) || (size =? 0) || (kMaxManifestBytes <? size) then ManifestError "invalid LSM manifest size"
           else if negb (lo_open io) then ManifestError "cannot open LSM manifest"
           else match json_parse (f_data f) with
                | None => ManifestError "parse_error"
                | Some j => match manifest_of_json j with
                            | Err e => ManifestError e
                            | Ok m => match validateManifest d m false with
                                      | Err e => ManifestError e
                                      | Ok m => ManifestLoaded m
                                      end
                            end
                end
       end.

Definition load_good : load_io := mkLoadIo true true true.

(** [publishedSsts]: without a manifest, every SST of the directory. *)
Definition publishedSsts (io : load_io) (listed : bool) (d : store) : result (list bytes) :=
  match manifest_load_file io d with
  | ManifestError e => Err e
  | ManifestLoaded m => Ok (sstFiles m)
  | ManifestAbsent =>
      let names := List.filter (fun n => bytes_eqb (extension n) (str ".sst")) (map_to_list (st_fs d)).*1 in
      match List.find (fun n => match verifySst d n with Ok _ => false | Err _ => true end) names with
      | Some _ => Err "invalid legacy SST "
      | None => if listed then Ok (merge_sort bytes_le names) else Err "cannot enumerate legacy SSTs: "
      end
  end.

(** ** Publishing *)

(** A new file: whether its normalised parent is the directory, and its name. *)
Record artifact := mkArtifact { ar_inside : bool; ar_name : bytes }.

Record publish_io := mkPublishIo {
  pi_load : load_io;
  pi_sync : bytes -> bool;               (* synchronising a file of the directory *)
  pi_artifacts_dir : bool;
  pi_written : option nat;               (* bytes of the temporary file written, if not all *)
  pi_temp_sync : bool; pi_rename : bool; pi_final_dir : bool;
  pi_mtime : Z }.

Definition is_sst (name : bytes) : bool := bytes_eqb (extension name) (str ".sst").

Definition sync_sidecar (io : publish_io) (d : store) (name : bytes) : bool :=
  match st_fs d !! name with None => true | Some _ => pi_sync io name end.

Fixpoint sync_artifacts (io : publish_io) (d : store) (verify : bool) (arts : list artifact) : result unit :=
  match arts with
  | [] => Ok tt
  | a :: rest =>
      let n := ar_name a in
      match st_fs d !! n with
      | None => Err "cannot synchronize new LSM artifact"
      | Some _ =>
          if negb (pi_sync io n) then Err "cannot synchronize new LSM artifact"
          else
            match (if is_sst n && verify then verifySst d n else Ok tt) with
            | Err _ => Err "invalid new SST "
            | Ok _ =>
                if is_sst n && negb (sync_sidecar io d (n ++ str ".bloom") && sync_sidecar io d (n ++ str ".sidx"))
                then Err "cannot synchronize new LSM sidecar"
                else sync_artifacts io d verify rest
            end
      end
  end.

Definition manifest_json (m : LsmManifest) : json :=
  JObject [(str "coveredWalLsn", JUInt (coveredWalLsn m)); (str "formatVersion", JUInt (formatVersion m));
           (str "generation", JUInt (generation m)); (str "sstFiles", JArray (JString <$> sstFiles m))].

Definition set_files (d : store) (fs : fsys) : store := mkStore fs (g_sstCache d) (g_bloomCache d).

Definition put_file (io : publish_io) (d : store) (name data : bytes) : store :=
  set_files d (<[name := mkFile (pi_mtime io) data]> (st_fs d)).

(** The write of the temporary file, its synchronisation and its rename. *)
Definition replace_manifest (io : publish_io) (d : store) (m : LsmManifest) : result unit * store :=
  match json_dump (manifest_json m) with
  | None => (Err "type_error.316", put_file io d kTempName [])
  | Some text =>
      match pi_written io with
      | Some k => (Err "cannot write temporary LSM manifest", put_file io d kTempName (take k text))
      | None =>
          let d' := put_file io d kTempName text in
          if negb (pi_temp_sync io) then (Err "cannot synchronize temporary LSM manifest", d')
          else if negb (pi_rename io) then (Err "cannot rename LSM manifest", d')
          else
            let d' := set_files d (delete kTempName (<[kManifestName := mkFile (pi_mtime io) text]> (st_fs d))) in
            if negb (pi_final_dir io) then (Err "cannot synchronize published LSM manifest", d') else (Ok tt, d')
      end
  end.

Definition publish (io : publish_io) (requested : LsmManifest) (arts : list artifact) (d : store) : result unit * store :=
  let current := manifest_load_file (pi_load io) d in
  let absent := match current with ManifestAbsent => true | _ => false end in
  match current with
  | ManifestError e => (Err e, d)
  | _ =>
      match validateManifest d requested absent with
      | Err e => (Err e, d)
      | Ok m =>
          if match current with
             | ManifestLoaded c => (generation m <=? generation c) || (coveredWalLsn m <? coveredWalLsn c)
             | _ => false
             end
          then (Err "LSM manifest generation or WAL boundary regressed", d)
          else if negb (forallb ar_inside arts) then (Err "new LSM artifact is outside the collection directory", d)
          else if match current with
                  | ManifestLoaded c =>
                      negb (forallb (fun n => bool_decide (n ∈ sstFiles c) ||
                                              existsb (fun a => is_sst (ar_name a) && bytes_eqb (ar_name a) n) arts) (sstFiles m))
                  | _ => false
                  end
          then (Err "manifest adds an SST that is not a new artifact", d)
          else match sync_artifacts io d (negb absent) arts with
               | Err e => (Err e, d)
               | Ok _ => if negb (pi_artifacts_dir io) then (Err "cannot synchronize LSM artifacts directory", d)
                         else replace_manifest io d m
               end
      end
  end.

(** ** The callers (lsm.cpp) *)

Definition remove_files (d : store) (names : list bytes) : store := set_files d (foldr delete (st_fs d) names).

Definition with_sidecars (n : bytes) : list bytes := [n; n ++ str ".bloom"; n ++ str ".sidx"].

Definition unique_sorted (l : list bytes) : list bytes := merge_sort bytes_le (remove_dups l).

(** The manifest of the next generation over [names]. *)
Definition next_manifest (current : manifest_load) (covered : Z) (names : list bytes) : LsmManifest :=
  match current with
  | ManifestLoaded c => mkManifest kFormatVersion (u64 (generation c + 1)) (Z.max covered (coveredWalLsn c)) names
  | _ => mkManifest kFormatVersion 1 covered names
  end.

Definition move_file (d : store) (source target : bytes) : store :=
  match st_fs d !! source with
  | Some f => set_files d (delete source (<[target := f]> (st_fs d)))
  | None => d
  end.

Record finalize_io := mkFinalizeIo { fi_bloom : bool; fi_sparse : bool; fi_sst : bool }.

Definition exists_file (d : store) (n : bytes) : bool := bool_decide (is_Some (st_fs d !! n)).

(** The sidecars, then the SST itself, get their final names. *)
Definition finalize_artifacts (io : finalize_io) (writing sst : bytes) (d : store) : bool * store :=
  let step (ok : bool) (ext : string) (acc : bool * store) :=
    let '(good, d) := acc in
    if good && exists_file d (writing ++ str ext)
    then if ok then (true, move_file d (writing ++ str ext) (sst ++ str ext)) else (false, d)
    else acc in
  let '(good, d) := step (fi_sparse io) ".sidx"%string (step (fi_bloom io) ".bloom"%string (true, d)) in
  if negb good then (false, d)
  else if fi_sst io && exists_file d writing then (true, move_file d writing sst) else (false, d).

(** The end of a flush of the file [writing]: the WAL position up to which the
    log may be reclaimed. *)
Definition publishFlush (io : publish_io) (fio : finalize_io) (writing sst : bytes) (coveredLsn : Z) (d : store)
  : result Z * store :=
  let current := manifest_load_file (pi_load io) d in
  match current, publishedSsts (pi_load io) true d with
  | ManifestError _, _ => (Err "cannot load LSM manifest before flush publish: ", d)
  | _, Err _ => (Err "cannot load published SST set for ", d)
  | _, Ok published =>
      match finalize_artifacts fio writing sst d with
      | (false, d) => (Err "cannot finalize LSM flush artifacts: ", remove_files d (with_sidecars writing ++ with_sidecars sst))
      | (true, d) =>
          let next := next_manifest current coveredLsn (unique_sorted (published ++ [sst])) in
          match publish io next [mkArtifact true sst] d with
          | (Ok _, d) => (Ok (coveredWalLsn next), d)
          | (Err _, d) => (Err "cannot publish LSM flush checkpoint: ", remove_files d (with_sidecars sst))
          end
      end
  end.

(** The end of a compaction of [inputs] into [out]. *)
Definition publishCompaction (io : publish_io) (inputs : list bytes) (out : bytes) (d : store) : result unit * store :=
  let drop_output d := remove_files d (with_sidecars out) in
  let current := manifest_load_file (pi_load io) d in
  match current, publishedSsts (pi_load io) true d with
  | ManifestError e, _ => (Err e, drop_output d)
  | _, Err e => (Err e, drop_output d)
  | _, Ok published =>
      if negb (forallb (fun n => bool_decide (n ∈ published)) inputs)
      then (Err "compaction input is no longer manifest-authoritative", drop_output d)
      else
        let kept := List.filter (fun n => negb (bool_decide (n ∈ inputs))) published in
        let next := next_manifest current 0 (unique_sorted (kept ++ [out])) in
        match publish io next [mkArtifact true out] d with
        | (Err e, d) => (Err e, drop_output d)
        | (Ok _, d) => (Ok tt, remove_files d (flat_map with_sidecars inputs))
        end
  end.

(** [publishMissingSstManifest]: a first manifest over the files there are. *)
Definition publishMissingSstManifest (io : publish_io) (d : store) : result unit * store :=
  match manifest_load_file (pi_load io) d with
  | ManifestError _ => (Err "cannot load SST manifest: ", d)
  | ManifestLoaded _ => (Ok tt, d)
  | ManifestAbsent =>
      match publishedSsts (pi_load io) true d with
      | Err _ => (Err "cannot load published SST set for ", d)
      | Ok [] => (Ok tt, d)
      | Ok files =>
          match publish io (mkManifest kFormatVersion 1 0 files) (mkArtifact true <$> files) d with
          | (Err _, d) => (Err "cannot publish initial SST manifest: ", d)
          | done => done
          end
      end
  end.

(** ** Names *)

Definition sst_name (n : bytes) : Prop := extension n = str ".sst".

Lemma last_app_some (a b : bytes) x : last b = Some x -> last (a ++ b) = Some x.
Proof. intros H. rewrite last_app, H. reflexivity. Qed.

Lemma sst_name_last n : sst_name n -> last n = Some (byte_of 116).
Proof.
  unfold sst_name, extension. destruct (_ || _); [discriminate|]. destruct n as [|c r]; [discriminate|].
  destruct (last_dot r) as [e|] eqn:E; [|discriminate]. intros ->. apply last_dot_suffix in E as [pre ->].
  change (c :: pre ++ str ".sst") with ((c :: pre) ++ str ".sst"). apply last_app_some. reflexivity.
Qed.

Lemma not_sst (n suffix : bytes) x : last suffix = Some x -> x <> byte_of 116 -> ~ sst_name (n ++ suffix).
Proof. intros Hl Hx H%sst_name_last. rewrite (last_app_some _ _ _ Hl) in H. congruence. Qed.

Lemma manifest_not_sst : ~ sst_name kManifestName.
Proof. discriminate. Qed.

Lemma temp_not_sst : ~ sst_name kTempName.
Proof. discriminate. Qed.

Lemma safe_is_sst n : safeSstName n = true -> sst_name n.
Proof. unfold safeSstName. rewrite !andb_true_iff. intros [[_ H] _]. apply bytes_eqb_eq, H. Qed.

(** ** What a directory shows through its SST names *)

Lemma verifySst_ext d d' n : st_fs d' !! n = st_fs d !! n -> verifySst d' n = verifySst d n.
Proof. intros H. unfold verifySst, isBinarySst, read_file. rewrite H. reflexivity. Qed.

Lemma check_ssts_ext d d' v names : (forall n, n ∈ names -> sst_name n -> st_fs d' !! n = st_fs d !! n) ->
  check_ssts d' v names = check_ssts d v names.
Proof.
  induction names as [|n names IH]; intros H; [reflexivity|]. cbn [check_ssts].
  assert (Hn : check_sst d' v n = check_sst d v n).
  { unfold check_sst. destruct (safeSstName n) eqn:E; [|reflexivity]. cbn [negb].
    pose proof (H n ltac:(left) (safe_is_sst _ E)) as Hn. rewrite Hn, (verifySst_ext d d' n Hn). reflexivity. }
  rewrite Hn, IH; [reflexivity|]. intros k Hk. apply H. right. exact Hk.
Qed.

Lemma validate_ext d d' m v : (forall n, n ∈ sstFiles m -> sst_name n -> st_fs d' !! n = st_fs d !! n) ->
  validateManifest d' m v = validateManifest d m v.
Proof.
  intros H. unfold validateManifest. rewrite (check_ssts_ext d d'); [reflexivity|].
  intros n Hn. apply H. rewrite merge_sort_Permutation in Hn. exact Hn.
Qed.

(** Loading depends on the manifest and the SSTs only. *)
Lemma load_ext io d d' : st_fs d' !! kManifestName = st_fs d !! kManifestName ->
  (forall n, sst_name n -> st_fs d' !! n = st_fs d !! n) -> manifest_load_file io d' = manifest_load_file io d.
Proof.
  intros Hm Hs. unfold manifest_load_file. rewrite Hm. destruct (negb _); [reflexivity|].
  destruct (st_fs d !! kManifestName); [|reflexivity]. destruct (_ || _ || _); [reflexivity|]. destruct (negb _); [reflexivity|].
  destruct (json_parse _); [|reflexivity]. destruct (manifest_of_json _) as [m|]; [|reflexivity].
  rewrite (validate_ext d d' m false); auto.
Qed.

Lemma check_ssts_Ok d v names : check_ssts d v names = Ok tt <->
  Forall (fun n => safeSstName n = true /\ is_Some (st_fs d !! n) /\ (v = true -> verifySst d n = Ok tt)) names.
Proof.
  induction names as [|n names IH]; cbn [check_ssts]; [split; auto|]. rewrite Forall_cons, <- IH. unfold check_sst.
  destruct (safeSstName n); cbn [negb]; [|split; [discriminate|intros [[[=] _] _]]].
  destruct (st_fs d !! n) as [f|]; [|split; [discriminate|intros [(_ & [? [=]] & _) _]]].
  destruct v.
  - destruct (verifySst d n) as [[]|]; [split; eauto 6; intros [_ H]; exact H|]. split; [discriminate|]. intros [(_ & _ & H) _]. discriminate (H eq_refl).
  - split; [intros H; repeat split; eauto; discriminate|]. intros [_ H]. exact H.
Qed.

(** A validated manifest has its files sorted, once each, and there. *)
Lemma validate_Ok d m v m' : validateManifest d m v = Ok m' ->
  m' = mkManifest kFormatVersion (generation m) (coveredWalLsn m) (merge_sort bytes_le (sstFiles m)) /\
  formatVersion m = kFormatVersion /\ generation m <> 0 /\ has_adjacent (merge_sort bytes_le (sstFiles m)) = false /\
  Forall (fun n => safeSstName n = true /\ is_Some (st_fs d !! n) /\ (v = true -> verifySst d n = Ok tt)) (sstFiles m').
Proof.
  unfold validateManifest. destruct (_ || _) eqn:E; [discriminate|]. apply orb_false_iff in E as [E1%negb_false_iff%Z.eqb_eq E2%Z.eqb_neq].
  destruct (has_adjacent _) eqn:Ea; [discriminate|]. destruct (check_ssts _ _ _) as [[]|] eqn:Ec; [|discriminate].
  intros <-%Ok_inj. rewrite E1. repeat split; auto. apply check_ssts_Ok, Ec.
Qed.

Lemma merge_sort_sorted (l : list bytes) : merge_sort bytes_le (merge_sort bytes_le l) = merge_sort bytes_le l.
Proof.
  eapply (StronglySorted_unique bytes_le); [apply StronglySorted_merge_sort; apply _..|]. apply merge_sort_Permutation.
Qed.

Lemma validate_again d d' m v m' : validateManifest d m v = Ok m' -> (forall n, n ∈ sstFiles m' -> st_fs d' !! n = st_fs d !! n) ->
  validateManifest d' m' false = Ok m'.
Proof.
  intros H Hd. destruct (validate_Ok _ _ _ _ H) as (-> & Hv & Hg & Ha & Hf). cbn [sstFiles] in *.
  unfold validateManifest. cbn [formatVersion generation coveredWalLsn sstFiles]. rewrite Z.eqb_refl, (proj2 (Z.eqb_neq _ 0)) by exact Hg.
  cbn [negb orb]. rewrite merge_sort_sorted, Ha.
  replace (check_ssts d' false (merge_sort bytes_le (sstFiles m))) with (Ok tt); [reflexivity|]. symmetry. apply check_ssts_Ok.
  apply Forall_forall. intros n Hn. rewrite Forall_forall in Hf. destruct (Hf n Hn) as (H1 & H2 & _).
  rewrite (Hd n Hn). repeat split; auto. discriminate.
Qed.

(** ** Text *)

Context (ok : json -> Prop) `{JL : !JsonLineText ok}.

Lemma string_list_strings l : string_list (JString <$> l) = Some l.
Proof. induction l as [|s l IH]; [reflexivity|]. rewrite fmap_cons. cbn [string_list]. rewrite IH. reflexivity. Qed.

Lemma manifest_of_to_json m : formatVersion m = kFormatVersion -> 0 <= generation m < 2 ^ 64 -> 0 <= coveredWalLsn m < 2 ^ 64 ->
  manifest_of_json (manifest_json m) = Ok m.
Proof.
  intros Hv Hg Hc. unfold manifest_of_json, manifest_json. set (obj := [_; _; _; _]).
  assert (F1 : obj_find (str "formatVersion") obj = Some (JUInt (formatVersion m))) by reflexivity.
  assert (F2 : obj_find (str "generation") obj = Some (JUInt (generation m))) by reflexivity.
  assert (F3 : obj_find (str "coveredWalLsn") obj = Some (JUInt (coveredWalLsn m))) by reflexivity.
  assert (F4 : obj_find (str "sstFiles") obj = Some (JArray (JString <$> sstFiles m))) by reflexivity.
  rewrite F1, F2, F3, F4, string_list_strings. cbn [as_u32 as_u64 mbind result_bind or_err]. rewrite Hv. unfold u32, u64. rewrite !Z.mod_small by (try lia; unfold kFormatVersion; lia).
  destruct m as [v g c l]; cbn in *. rewrite Hv. reflexivity.
Qed.

(** A manifest whose text can be written and read. *)
Definition storable (m : LsmManifest) : Prop :=
  ok (manifest_json m) /\ 0 <= generation m < 2 ^ 64 /\ 0 <= coveredWalLsn m < 2 ^ 64 /\
  forall t, json_dump (manifest_json m) = Some t -> 0 < blen t <= kMaxManifestBytes.

(** ** The new manifest is the one loaded *)

(** The directory after the rename. *)
Lemma load_replaced io d m v m' text : validateManifest d m v = Ok m' -> storable m' -> json_dump (manifest_json m') = Some text ->
  let d' := set_files d (delete kTempName (<[kManifestName := mkFile (pi_mtime io) text]> (st_fs d))) in
  manifest_load_file load_good d' = ManifestLoaded m' /\ (forall n, sst_name n -> st_fs d' !! n = st_fs d !! n).
Proof.
  intros Hval (Hok & Hg & Hc & Hlen) Hdump d'.
  assert (Hs : forall n, sst_name n -> st_fs d' !! n = st_fs d !! n).
  { intros n Hn. cbn. rewrite lookup_delete_ne by (intros <-; exact (temp_not_sst Hn)).
    apply lookup_insert_ne. intros <-. exact (manifest_not_sst Hn). }
  split; [|exact Hs]. unfold manifest_load_file. cbn [load_good lo_exists lo_size lo_open negb].
  cbn [d' set_files st_fs]. rewrite lookup_delete_ne by discriminate. rewrite lookup_insert_eq. cbn [f_data].
  pose proof (Hlen text Hdump) as [H1 H2]. rewrite (proj2 (Z.eqb_neq (blen text) 0)), (proj2 (Z.ltb_ge _ (blen text))) by lia. cbn [orb].
  destruct (line_text _ Hok) as (t & Ht & Hp & _). rewrite Ht in Hdump. injection Hdump as <-. rewrite Hp.
  destruct (validate_Ok _ _ _ _ Hval) as (Hm' & _ & _ & _ & Hf).
  rewrite manifest_of_to_json by (auto; rewrite Hm'; reflexivity).
  rewrite (validate_again d d' m v m' Hval); [reflexivity|]. intros n Hn. apply Hs. rewrite Forall_forall in Hf.
  apply safe_is_sst. apply (Hf n Hn).
Qed.

(** Failed writes touch the temporary file only. *)
Lemma load_temp io d data : manifest_load_file load_good (put_file io d kTempName data) = manifest_load_file load_good d /\
  (forall n, sst_name n -> st_fs (put_file io d kTempName data) !! n = st_fs d !! n).
Proof.
  assert (Hs : forall n, sst_name n -> st_fs (put_file io d kTempName data) !! n = st_fs d !! n).
  { intros n Hn. cbn. apply lookup_insert_ne. intros <-. exact (temp_not_sst Hn). }
  split; [|exact Hs]. apply load_ext; [|exact Hs]. cbn. apply lookup_insert_ne. discriminate.
Qed.

(** How a publication ends: nothing visible changed, or the manifest was replaced. *)
Lemma replace_manifest_ends io d m v m' r d' : validateManifest d m v = Ok m' -> storable m' ->
  replace_manifest io d m' = (r, d') ->
  (forall n, sst_name n -> st_fs d' !! n = st_fs d !! n) /\
  (r <> Ok tt /\ manifest_load_file load_good d' = manifest_load_file load_good d \/ manifest_load_file load_good d' = ManifestLoaded m').
Proof.
  intros Hval Hst. unfold replace_manifest. destruct (line_text _ (proj1 Hst)) as (text & Ht & _). rewrite Ht.
  assert (Htemp : forall data e, (forall n, sst_name n -> st_fs (put_file io d kTempName data) !! n = st_fs d !! n) /\
    ((Err e : result unit) <> Ok tt /\ manifest_load_file load_good (put_file io d kTempName data) = manifest_load_file load_good d \/
     manifest_load_file load_good (put_file io d kTempName data) = ManifestLoaded m')).
  { intros data e. destruct (load_temp io d data) as [H1 H2]. split; [exact H2|]. left. split; [discriminate|exact H1]. }
  destruct (pi_written io); [intros [= <- <-]; apply Htemp|]. destruct (pi_temp_sync io); cbn [negb]; [|intros [= <- <-]; apply Htemp].
  destruct (pi_rename io); cbn [negb]; [|intros [= <- <-]; apply Htemp].
  destruct (load_replaced io d m v m' text Hval Hst Ht) as [H1 H2].
  destruct (pi_final_dir io); intros [= <- <-]; auto.
Qed.

(** ** Publishing *)

Lemma sync_artifacts_verified io d arts : sync_artifacts io d true arts = Ok tt ->
  Forall (fun a => is_sst (ar_name a) = true -> verifySst d (ar_name a) = Ok tt) arts.
Proof.
  induction arts as [|a arts IH]; cbn [sync_artifacts]; [auto|]. destruct (st_fs d !! ar_name a); [|discriminate].
  destruct (negb _); [discriminate|]. rewrite andb_true_r. destruct (is_sst (ar_name a)) eqn:E; cbn [andb].
  - destruct (verifySst d (ar_name a)) as [[]|] eqn:Ev; [|discriminate]. destruct (negb _); [discriminate|]. intros H. constructor; auto.
  - intros H. constructor; [intros; congruence|auto].
Qed.

(** Every SST of the manifest passes verification. *)
Definition verified (d : store) : Prop :=
  forall m, manifest_load_file load_good d = ManifestLoaded m -> Forall (fun n => verifySst d n = Ok tt) (sstFiles m).

(** The checks of a publication that reaches the manifest. *)
Record accepted (d : store) (requested m : LsmManifest) (v : bool) : Prop := {
  ac_valid : validateManifest d requested v = Ok m;
  ac_newer : forall c, manifest_load_file load_good d = ManifestLoaded c -> generation c < generation m /\ coveredWalLsn c <= coveredWalLsn m;
  ac_verified : verified d -> Forall (fun n => verifySst d n = Ok tt) (sstFiles m) }.

Lemma publish_inv io requested arts d r d' : pi_load io = load_good -> publish io requested arts d = (r, d') ->
  (r <> Ok tt /\ d' = d) \/ exists m v, accepted d requested m v /\ replace_manifest io d m = (r, d').
Proof.
  intros Hl. unfold publish. rewrite Hl. set (current := manifest_load_file load_good d).
  destruct current as [|c|e] eqn:Ec; [| |intros [= <- <-]; left; split; [discriminate|reflexivity]].
  - destruct (validateManifest d requested true) as [m|] eqn:Ev; [|intros [= <- <-]; left; split; [discriminate|reflexivity]].
    destruct (negb (forallb _ _)); [intros [= <- <-]; left; split; [discriminate|reflexivity]|].
    destruct (sync_artifacts _ _ _ _); [|intros [= <- <-]; left; split; [discriminate|reflexivity]].
    destruct (negb _); [intros [= <- <-]; left; split; [discriminate|reflexivity]|]. intros H. right. exists m, true. split; [|exact H].
    split; [exact Ev|intros c Hc; unfold current in Ec; congruence|]. intros _.
    destruct (validate_Ok _ _ _ _ Ev) as (_ & _ & _ & _ & Hf). eapply Forall_impl; [exact Hf|]. cbn. intros n (_ & _ & Hn). auto.
  - destruct (validateManifest d requested false) as [m|] eqn:Ev; [|intros [= <- <-]; left; split; [discriminate|reflexivity]].
    destruct (_ || _) eqn:Eg; [intros [= <- <-]; left; split; [discriminate|reflexivity]|].
    apply orb_false_iff in Eg as [Eg1%Z.leb_gt Eg2%Z.ltb_ge].
    destruct (negb (forallb ar_inside _)); [intros [= <- <-]; left; split; [discriminate|reflexivity]|].
    destruct (negb (forallb _ (sstFiles m))) eqn:En; [intros [= <- <-]; left; split; [discriminate|reflexivity]|].
    change (negb false) with true. destruct (sync_artifacts io d true arts) as [[]|] eqn:Es; [|intros [= <- <-]; left; split; [discriminate|reflexivity]].
    destruct (pi_artifacts_dir io); cbn [negb]; [|intros [= <- <-]; left; split; [discriminate|reflexivity]]. intros H. right. exists m, false. split; [|exact H].
    split; [exact Ev|unfold current in Ec; intros c' Hc'; rewrite Ec in Hc'; injection Hc' as <-; lia|].
    intros V. apply Forall_forall. intros n Hn. apply negb_false_iff in En. rewrite forallb_forall in En.
    apply list_elem_of_In in Hn. specialize (En n Hn). apply orb_true_iff in En as [Hin|Hex].
    + apply bool_decide_eq_true in Hin. specialize (V c Ec). rewrite Forall_forall in V. auto.
    + apply existsb_exists in Hex as (a & Ha & Hx). apply andb_true_iff in Hx as [Hsst Hname%bytes_eqb_eq]. subst n.
      pose proof (sync_artifacts_verified _ _ _ Es) as Hf. rewrite Forall_forall in Hf. apply Hf; [apply list_elem_of_In, Ha|exact Hsst].
Qed.

Lemma publish_loads io requested arts d d' :
  pi_load io = load_good -> publish io requested arts d = (Ok tt, d') ->
  storable (mkManifest kFormatVersion (generation requested) (coveredWalLsn requested) (merge_sort bytes_le (sstFiles requested))) ->
  manifest_load_file load_good d' =
    ManifestLoaded (mkManifest kFormatVersion (generation requested) (coveredWalLsn requested) (merge_sort bytes_le (sstFiles requested))) /\
  (forall c, manifest_load_file load_good d = ManifestLoaded c ->
     generation c < generation requested /\ coveredWalLsn c <= coveredWalLsn requested) /\
  (forall n, sst_name n -> st_fs d' !! n = st_fs d !! n).
Proof.
  intros Hl H Hst. destruct (publish_inv _ _ _ _ _ _ Hl H) as [[Hn _]|(m & v & [Hval Hnew _] & Hr)]; [congruence|].
  destruct (validate_Ok _ _ _ _ Hval) as (Hm & _). rewrite <- Hm in Hst |- *.
  destruct (replace_manifest_ends _ _ _ _ _ _ _ Hval Hst Hr) as [Hs [[Hn _]|Hload]]; [congruence|].
  split; [exact Hload|]. split; [|exact Hs]. intros c Hc. specialize (Hnew c Hc). rewrite Hm in Hnew. exact Hnew.
Qed.

(** A published manifest is the one the directory then loads, sorted, newer
    than the one before and covering at least as much of the WAL; no SST of the
    directory is touched. *)
Theorem publish_then_load io requested arts d d' :
  pi_load io = load_good -> publish io requested arts d = (Ok tt, d') ->
  storable (mkManifest kFormatVersion (generation requested) (coveredWalLsn requested) (merge_sort bytes_le (sstFiles requested))) ->
  manifest_load_file load_good d' =
    ManifestLoaded (mkManifest kFormatVersion (generation requested) (coveredWalLsn requested) (merge_sort bytes_le (sstFiles requested))) /\
  (forall c, manifest_load_file load_good d = ManifestLoaded c ->
     generation c < generation requested /\ coveredWalLsn c <= coveredWalLsn requested) /\
  (forall n, sst_name n -> st_fs d' !! n = st_fs d !! n).
Proof. apply publish_loads. Qed.

(** Whatever fails in a publication, every SST the manifest then names still
    passes verification, when it did before. *)
Theorem publish_keeps_verified io requested arts d r d' :
  pi_load io = load_good -> verified d -> publish io requested arts d = (r, d') ->
  storable (mkManifest kFormatVersion (generation requested) (coveredWalLsn requested) (merge_sort bytes_le (sstFiles requested))) ->
  verified d'.
Proof.
  intros Hl V H Hst. destruct (publish_inv _ _ _ _ _ _ Hl H) as [[_ ->]|(m & v & [Hval _ Hver] & Hr)]; [exact V|].
  destruct (validate_Ok _ _ _ _ Hval) as (Hm & _ & _ & _ & Hf). rewrite <- Hm in Hst.
  destruct (replace_manifest_ends _ _ _ _ _ _ _ Hval Hst Hr) as [Hs Hend].
  assert (Hmove : forall l, Forall (fun n => verifySst d n = Ok tt) l -> Forall sst_name l -> Forall (fun n => verifySst d' n = Ok tt) l).
  { intros l H1 H2. rewrite Forall_forall in *. intros n Hn. rewrite (verifySst_ext d d' n (Hs n (H2 n Hn))). auto. }
  intros m0 Hm0. destruct Hend as [[_ Hload]|Hload]; rewrite Hload in Hm0.
  - apply Hmove; [exact (V m0 Hm0)|]. unfold manifest_load_file in Hm0. cbn [load_good lo_exists negb] in Hm0.
    destruct (st_fs d !! kManifestName); [|discriminate]. destruct (_ || _ || _); [discriminate|]. destruct (negb _); [discriminate|].
    destruct (json_parse _); [|discriminate]. destruct (manifest_of_json _); [|discriminate].
    destruct (validateManifest d _ false) as [mv|] eqn:Ev; [|discriminate]. injection Hm0 as ->.
    destruct (validate_Ok _ _ _ _ Ev) as (_ & _ & _ & _ & Hf0). eapply Forall_impl; [exact Hf0|]. intros n (Hn & _). apply safe_is_sst, Hn.
  - injection Hm0 as <-. apply Hmove; [exact (Hver V)|]. eapply Forall_impl; [exact Hf|]. intros n (Hn & _). apply safe_is_sst, Hn.
Qed.

(** ** Flushes *)

Lemma move_other d a b n : n <> a -> n <> b -> st_fs (move_file d a b) !! n = st_fs d !! n.
Proof.
  intros Ha Hb. unfold move_file. destruct (st_fs d !! a); [|reflexivity]. cbn.
  rewrite lookup_delete_ne by congruence. apply lookup_insert_ne. congruence.
Qed.

Lemma finalize_other fio writing sst d d1 : finalize_artifacts fio writing sst d = (true, d1) ->
  forall n, sst_name n -> n <> sst -> n <> writing -> st_fs d1 !! n = st_fs d !! n.
Proof.
  intros H n Hn Hs Hw. revert H. unfold finalize_artifacts.
  assert (Hside : forall x, n <> x ++ str ".bloom" /\ n <> x ++ str ".sidx").
  { intros x. split; intros ->.
    - exact (not_sst x (str ".bloom") (byte_of 109) eq_refl ltac:(discriminate) Hn).
    - exact (not_sst x (str ".sidx") (byte_of 120) eq_refl ltac:(discriminate) Hn). }
  assert (Hmove : forall d0 x y e, e = ".bloom"%string \/ e = ".sidx"%string ->
    st_fs (move_file d0 (x ++ str e) (y ++ str e)) !! n = st_fs d0 !! n).
  { intros d0 x y e [-> | ->]; apply move_other; apply Hside. }
  destruct (true && exists_file d (writing ++ str ".bloom")); [destruct (fi_bloom fio)|].
  - set (d2 := move_file d _ _). assert (H2 : st_fs d2 !! n = st_fs d !! n) by (apply Hmove; auto).
    destruct (true && exists_file d2 _); [destruct (fi_sparse fio)|]; cbn [negb]; try discriminate;
      (destruct (_ && _); [|discriminate]); intros [= <-]; rewrite move_other, ?Hmove by auto; exact H2.
  - cbn [andb negb]. discriminate.
  - destruct (true && exists_file d _); [destruct (fi_sparse fio)|]; cbn [negb]; try discriminate;
      (destruct (_ && _); [|discriminate]); intros [= <-]; rewrite move_other, ?Hmove by auto; reflexivity.
Qed.

Lemma unique_sorted_elem n l : n ∈ merge_sort bytes_le (unique_sorted l) <-> n ∈ l.
Proof. unfold unique_sorted. rewrite !merge_sort_Permutation. apply elem_of_remove_dups. Qed.

Lemma loaded_names d m : manifest_load_file load_good d = ManifestLoaded m ->
  Forall (fun n => sst_name n /\ is_Some (st_fs d !! n)) (sstFiles m).
Proof.
  unfold manifest_load_file. cbn [load_good lo_exists lo_size lo_open negb]. destruct (st_fs d !! kManifestName); [|discriminate].
  destruct (_ || _ || _); [discriminate|]. destruct (json_parse _); [|discriminate]. destruct (manifest_of_json _); [|discriminate].
  destruct (validateManifest d _ false) as [mv|] eqn:Ev; [|discriminate]. intros [= ->].
  destruct (validate_Ok _ _ _ _ Ev) as (_ & _ & _ & _ & Hf). eapply Forall_impl; [exact Hf|]. cbn. intros n (Hn & Hi & _).
  split; [apply safe_is_sst, Hn|exact Hi].
Qed.

Lemma move_target d a b f : st_fs d !! a = Some f -> a <> b -> st_fs (move_file d a b) !! b = Some f.
Proof. intros Hf Hne. unfold move_file. rewrite Hf. cbn. rewrite lookup_delete_ne by congruence. apply lookup_insert_eq. Qed.

Lemma suffix_neq (x e : bytes) : e <> [] -> x <> x ++ e.
Proof. intros He H. apply (f_equal length) in H. rewrite length_app in H. destruct e; [congruence|]. cbn in H. lia. Qed.

(** The SST gets its name last. *)
Lemma finalize_sst fio writing sst d d1 : finalize_artifacts fio writing sst d = (true, d1) -> writing <> sst ->
  writing <> sst ++ str ".bloom" -> writing <> sst ++ str ".sidx" -> is_Some (st_fs d !! writing) -> st_fs d1 !! sst = st_fs d !! writing.
Proof.
  intros H Hne Hb Hx [f Hw]. revert H. unfold finalize_artifacts. cbn [andb].
  assert (Hmove : forall d0 e, str e <> [] -> writing <> sst ++ str e -> st_fs d0 !! writing = Some f ->
    st_fs (move_file d0 (writing ++ str e) (sst ++ str e)) !! writing = Some f).
  { intros d0 e He Hs H0. rewrite move_other; [exact H0|apply suffix_neq, He|exact Hs]. }
  set (acc1 := if exists_file d (writing ++ str ".bloom") then _ else _).
  assert (H1 : st_fs acc1.2 !! writing = Some f) by (unfold acc1; destruct (exists_file d _); [destruct (fi_bloom fio); [apply Hmove; [discriminate|assumption..]|exact Hw]|exact Hw]).
  destruct acc1 as [g1 d2]. cbn [snd] in H1. set (acc2 := if g1 && _ then _ else _).
  assert (H2 : st_fs acc2.2 !! writing = Some f) by (unfold acc2; destruct (g1 && _); [destruct (fi_sparse fio); [apply Hmove; [discriminate|assumption..]|exact H1]|exact H1]).
  destruct acc2 as [g2 d3]. cbn [snd] in H2. destruct (negb g2); [discriminate|]. destruct (fi_sst fio && _); [|discriminate].
  intros [= <-]. rewrite (move_target _ _ _ _ H2 Hne), Hw. reflexivity.
Qed.

(** A flush that reports success: the new manifest and its files. *)
Lemma next_covers current lsn names : lsn <= coveredWalLsn (next_manifest current lsn names).
Proof. unfold next_manifest. destruct current; cbn; lia. Qed.

Lemma publishFlush_ok io fio sst lsn d names covered d' : let writing := sst ++ str ".writing" in
  pi_load io = load_good -> publishedSsts load_good true d = Ok names ->
  (let next := next_manifest (manifest_load_file load_good d) lsn (unique_sorted (names ++ [sst])) in
   storable (mkManifest kFormatVersion (generation next) (coveredWalLsn next) (merge_sort bytes_le (sstFiles next)))) ->
  publishFlush io fio writing sst lsn d = (Ok covered, d') ->
  covered = coveredWalLsn (next_manifest (manifest_load_file load_good d) lsn (unique_sorted (names ++ [sst]))) /\
  exists m, manifest_load_file load_good d' = ManifestLoaded m /\ coveredWalLsn m = covered /\
    (forall n, n ∈ sstFiles m <-> n ∈ names \/ n = sst) /\
    (forall n, sst_name n -> n <> sst -> st_fs d' !! n = st_fs d !! n) /\
    (is_Some (st_fs d !! writing) -> st_fs d' !! sst = st_fs d !! writing).
Proof.
  intros writing Hl Hpub Hst. unfold publishFlush. rewrite Hl, Hpub. cbv zeta in Hst.
  assert (Hw : ~ sst_name writing) by (apply (not_sst sst (str ".writing") (byte_of 103) eq_refl); discriminate).
  set (current := manifest_load_file load_good d) in *. set (next := next_manifest current lsn _) in *.
  assert (Hnames : sstFiles next = unique_sorted (names ++ [sst])) by (unfold next, next_manifest; destruct current; reflexivity).
  intros H. assert (Hok : exists d1, finalize_artifacts fio writing sst d = (true, d1) /\
    publish io next [mkArtifact true sst] d1 = (Ok tt, d') /\ covered = coveredWalLsn next).
  { destruct current; try discriminate H; (destruct (finalize_artifacts fio writing sst d) as [[] d1]; [|discriminate H]);
      fold next in H; (destruct (publish io next _ d1) as [[[]|] d2] eqn:Ep; [|discriminate H]); injection H as <- <-; eauto. }
  clear H. destruct Hok as (d1 & Hfin & Hp & ->). split; [reflexivity|].
  destruct (publish_loads io next _ d1 d' Hl Hp Hst) as (Hload & _ & Hsst). eexists. split; [exact Hload|]. cbn [coveredWalLsn sstFiles].
  rewrite Hnames. split; [reflexivity|].
  assert (Hin : forall n, n ∈ merge_sort bytes_le (unique_sorted (names ++ [sst])) <-> n ∈ names \/ n = sst)
    by (intros n; rewrite unique_sorted_elem, elem_of_app, list_elem_of_singleton; reflexivity).
  split; [exact Hin|].
  assert (Hname : sst_name sst).
  { pose proof (loaded_names _ _ Hload) as Hf. rewrite Forall_forall in Hf. apply (Hf sst). cbn [sstFiles]. rewrite Hnames. apply Hin. auto. }
  split; [intros n Hn Hne; rewrite (Hsst n Hn); apply (finalize_other _ _ _ _ _ Hfin n Hn Hne); intros ->; contradiction|].
  intros Hwr. rewrite (Hsst sst Hname). apply (finalize_sst _ _ _ _ _ Hfin); auto; unfold writing; [apply not_eq_sym, suffix_neq; discriminate|..]; intros E%app_inv_head; discriminate E.
Qed.

(** A flush hands out a WAL position for reclaiming only once the directory
    loads a manifest that covers it and names the flushed SST; every SST named
    before is still named and untouched. *)
Theorem flush_checkpoint io fio sst lsn d published covered d' :
  pi_load io = load_good -> publishedSsts load_good true d = Ok published -> st_fs d !! sst = None ->
  (let next := next_manifest (manifest_load_file load_good d) lsn (unique_sorted (published ++ [sst])) in
   storable (mkManifest kFormatVersion (generation next) (coveredWalLsn next) (merge_sort bytes_le (sstFiles next)))) ->
  publishFlush io fio (sst ++ str ".writing") sst lsn d = (Ok covered, d') ->
  lsn <= covered /\
  exists m, manifest_load_file load_good d' = ManifestLoaded m /\ coveredWalLsn m = covered /\ sst ∈ sstFiles m /\
    forall c, manifest_load_file load_good d = ManifestLoaded c -> forall n, n ∈ sstFiles c ->
      n ∈ sstFiles m /\ st_fs d' !! n = st_fs d !! n.
Proof.
  intros Hl Hpub Hfresh Hst H. destruct (publishFlush_ok _ _ _ _ _ _ _ _ Hl Hpub Hst H) as (Hc & m & Hm & Hcm & Hin & Hold & _).
  split; [rewrite Hc; apply next_covers|]. exists m. split; [exact Hm|]. split; [exact Hcm|]. split; [apply Hin; auto|].
  intros c Hld n Hn. pose proof (loaded_names d c Hld) as Hf. rewrite Forall_forall in Hf. destruct (Hf n Hn) as [Hsn [f Hfn]].
  unfold publishedSsts in Hpub. rewrite Hld in Hpub. apply Ok_inj in Hpub as <-. split; [apply Hin; auto|]. apply Hold; congruence.
Qed.

(** A publication that fails before the last synchronisation wrote the temporary file only. *)
Lemma publish_err_files io m arts d e d' : pi_final_dir io = true -> publish io m arts d = (Err e, d') ->
  forall q, q <> kTempName -> st_fs d' !! q = st_fs d !! q.
Proof.
  intros Hfd H q Hq. revert H. unfold publish.
  assert (Hput : forall data, st_fs (put_file io d kTempName data) !! q = st_fs d !! q) by (intros data; apply lookup_insert_ne; congruence).
  assert (Hrep : forall m', replace_manifest io d m' = (Err e, d') -> st_fs d' !! q = st_fs d !! q).
  { intros m'. unfold replace_manifest. rewrite Hfd. destruct (json_dump _); [|intros [= _ <-]; apply Hput].
    destruct (pi_written io); [intros [= _ <-]; apply Hput|]. destruct (negb (pi_temp_sync io)); [intros [= _ <-]; apply Hput|].
    destruct (negb (pi_rename io)); [intros [= _ <-]; apply Hput|discriminate]. }
  destruct (manifest_load_file (pi_load io) d) as [|c|]; [| |intros [= _ <-]; reflexivity];
    (destruct (validateManifest d m _) as [m'|]; [|intros [= _ <-]; reflexivity]).
  - destruct (negb (forallb ar_inside _)); [intros [= _ <-]; reflexivity|]. destruct (sync_artifacts _ _ _ _); [|intros [= _ <-]; reflexivity].
    destruct (negb (pi_artifacts_dir io)); [intros [= _ <-]; reflexivity|apply Hrep].
  - destruct (_ || _); [intros [= _ <-]; reflexivity|]. destruct (negb (forallb ar_inside _)); [intros [= _ <-]; reflexivity|].
    destruct (negb (forallb _ _)); [intros [= _ <-]; reflexivity|]. destruct (sync_artifacts _ _ _ _); [|intros [= _ <-]; reflexivity].
    destruct (negb (pi_artifacts_dir io)); [intros [= _ <-]; reflexivity|apply Hrep].
Qed.

Lemma finalize_far fio writing sst d q : (q ∉ with_sidecars writing ++ with_sidecars sst) ->
  st_fs (finalize_artifacts fio writing sst d).2 !! q = st_fs d !! q.
Proof.
  intros Hq. assert (Hne : forall x, x ∈ with_sidecars writing ++ with_sidecars sst -> q <> x) by (intros x Hx ->; contradiction).
  assert (Hmove : forall d0 a b, a ∈ with_sidecars writing ++ with_sidecars sst -> b ∈ with_sidecars writing ++ with_sidecars sst ->
    st_fs (move_file d0 a b) !! q = st_fs d0 !! q) by (intros d0 a b Ha Hb; apply move_other; auto).
  unfold finalize_artifacts, with_sidecars in *. cbn [andb app] in *.
  set (acc1 := if exists_file d _ then _ else _).
  assert (H1 : st_fs acc1.2 !! q = st_fs d !! q).
  { unfold acc1. destruct (exists_file d _); [|reflexivity]. destruct (fi_bloom fio); [|reflexivity]. apply Hmove; set_solver. }
  destruct acc1 as [g1 d1]. cbn [snd] in H1. set (acc2 := if g1 && _ then _ else _).
  assert (H2 : st_fs acc2.2 !! q = st_fs d !! q).
  { unfold acc2. destruct (g1 && _); [|exact H1]. destruct (fi_sparse fio); [|exact H1]. cbn [snd]. rewrite Hmove; [exact H1|set_solver..]. }
  destruct acc2 as [g2 d2]. cbn [snd] in H2. destruct (negb g2); [exact H2|]. destruct (fi_sst fio && _); [|exact H2].
  cbn [snd]. rewrite Hmove; [exact H2|set_solver..].
Qed.

Lemma remove_other d names n : n ∉ names -> st_fs (remove_files d names) !! n = st_fs d !! n.
Proof.
  unfold remove_files. cbn. induction names as [|x names IH]; [reflexivity|]. intros [Hx Hn]%not_elem_of_cons. cbn.
  rewrite lookup_delete_ne by congruence. auto.
Qed.

Lemma remove_in d names n : n ∈ names -> st_fs (remove_files d names) !! n = None.
Proof.
  unfold remove_files. cbn. induction names as [|x names IH]; [intros H; inversion H|]. intros Hn. cbn.
  destruct (decide (x = n)) as [->|Hne]; [apply lookup_delete_eq|]. rewrite lookup_delete_ne by congruence.
  apply IH. apply elem_of_cons in Hn as [->|Hn]; [congruence|exact Hn].
Qed.

(** Neither the manifest nor another SST has the name of an artifact of [sst]. *)
Lemma artifact_names sst n : sst_name sst -> n = kManifestName \/ sst_name n /\ n <> sst ->
  (n ∉ with_sidecars (sst ++ str ".writing") ++ with_sidecars sst) /\ n <> kTempName.
Proof.
  intros Hs Hn. assert (Hl : last n = Some (byte_of 110) \/ last n = Some (byte_of 116)).
  { destruct Hn as [->|[Hn _]]; [left; reflexivity|right; apply sst_name_last, Hn]. }
  assert (Hsuf : forall x e c, last e = Some c -> c <> byte_of 110 -> c <> byte_of 116 -> n <> x ++ e).
  { intros x e c He H1 H2 ->. rewrite (last_app_some x e c He) in Hl. destruct Hl as [[= ?]|[= ?]]; congruence. }
  split.
  - unfold with_sidecars. cbn [app]. rewrite !not_elem_of_cons. repeat split.
    1-3: try (eapply Hsuf; [reflexivity|discriminate..]).
    + destruct Hn as [->|[_ Hn]]; [intros <-; exact (manifest_not_sst Hs)|exact Hn].
    + eapply Hsuf; [reflexivity|discriminate..].
    + eapply Hsuf; [reflexivity|discriminate..].
    + apply not_elem_of_nil.
  - intros ->. destruct Hn as [E|[Hn _]]; [discriminate E|exact (temp_not_sst Hn)].
Qed.

(** A flush that fails before the manifest is replaced leaves the manifest and
    the SSTs as they were. *)
Lemma publishFlush_err io fio sst lsn d e d' : sst_name sst -> st_fs d !! sst = None -> pi_final_dir io = true ->
  publishFlush io fio (sst ++ str ".writing") sst lsn d = (Err e, d') ->
  st_fs d' !! kManifestName = st_fs d !! kManifestName /\ forall n, sst_name n -> st_fs d' !! n = st_fs d !! n.
Proof.
  intros Hs Hfresh Hfd H.
  enough (Hall : d' = d \/ (forall n, n = kManifestName \/ sst_name n /\ n <> sst -> st_fs d' !! n = st_fs d !! n) /\ st_fs d' !! sst = None).
  { destruct Hall as [->|[H1 H2]]; [auto|]. split; [apply H1; auto|]. intros n Hn. destruct (decide (n = sst)) as [->|Hne]; [congruence|auto]. }
  revert H. unfold publishFlush.
  assert (Hfin : forall n, n = kManifestName \/ sst_name n /\ n <> sst ->
    st_fs (finalize_artifacts fio (sst ++ str ".writing") sst d).2 !! n = st_fs d !! n).
  { intros n Hn. apply finalize_far. apply (artifact_names sst n Hs Hn). }
  destruct (manifest_load_file (pi_load io) d); [| |intros [= _ <-]; auto];
    (destruct (publishedSsts (pi_load io) true d); [|intros [= _ <-]; auto]);
    (destruct (finalize_artifacts fio (sst ++ str ".writing") sst d) as [[] d1]; cbn [snd] in Hfin;
     [match goal with |- context [publish io ?n ?a d1] => destruct (publish io n a d1) as [[] d2] eqn:Ep end; [discriminate|]|]);
    intros [= _ <-]; right.
  all: split; [intros n Hn; destruct (artifact_names sst n Hs Hn) as [Ha Ht]|apply remove_in; unfold with_sidecars; set_solver].
  all: pose proof (proj2 (proj1 (not_elem_of_app _ _ _) Ha)); rewrite remove_other by assumption.
  all: try (rewrite (publish_err_files _ _ _ _ _ _ Hfd Ep n Ht)); apply Hfin, Hn.
Qed.

(** ** Compactions *)

(** Among SST names, the files dropped with [inputs] are the inputs. *)
Lemma dropped_ssts inputs n : sst_name n -> n ∈ flat_map with_sidecars inputs -> n ∈ inputs.
Proof.
  intros Hn H. apply list_elem_of_In, in_flat_map in H as (x & Hx%list_elem_of_In & Hin).
  destruct Hin as [<-|[<-|[<-|[]]]]; [exact Hx| |].
  - destruct (not_sst x (str ".bloom") (byte_of 109) eq_refl ltac:(discriminate) Hn).
  - destruct (not_sst x (str ".sidx") (byte_of 120) eq_refl ltac:(discriminate) Hn).
Qed.

Lemma dropped_not_manifest inputs : Forall sst_name inputs -> kManifestName ∉ flat_map with_sidecars inputs.
Proof.
  intros Hf H. apply list_elem_of_In, in_flat_map in H as (x & Hx%list_elem_of_In & Hin).
  rewrite Forall_forall in Hf. destruct Hin as [E|[E|[E|[]]]].
  - exact (manifest_not_sst (eq_ind _ sst_name (Hf x Hx) _ E)).
  - apply (f_equal last) in E. rewrite (last_app_some x (str ".bloom") (byte_of 109) eq_refl) in E. discriminate E.
  - apply (f_equal last) in E. rewrite (last_app_some x (str ".sidx") (byte_of 120) eq_refl) in E. discriminate E.
Qed.

(** What loads from a directory loads from any other with the same manifest and
    the same SSTs among those it names. *)
Lemma load_named d d' m : manifest_load_file load_good d = ManifestLoaded m ->
  st_fs d' !! kManifestName = st_fs d !! kManifestName -> (forall n, n ∈ sstFiles m -> st_fs d' !! n = st_fs d !! n) ->
  manifest_load_file load_good d' = ManifestLoaded m.
Proof.
  intros H Hm Hs. revert H. unfold manifest_load_file. cbn [load_good lo_exists lo_size lo_open negb]. rewrite Hm.
  destruct (st_fs d !! kManifestName); [|discriminate]. destruct (_ || _ || _); [discriminate|].
  destruct (json_parse _); [|discriminate]. destruct (manifest_of_json _) as [m0|]; [|discriminate].
  destruct (validateManifest d m0 false) as [mv|] eqn:Ev; [|discriminate]. intros [= ->].
  rewrite (validate_ext d d' m0 false), Ev; [reflexivity|]. intros n Hn _. apply Hs.
  destruct (validate_Ok _ _ _ _ Ev) as (-> & _). cbn. rewrite merge_sort_Permutation. exact Hn.
Qed.

(** A compaction that reports success leaves a directory that loads: its
    manifest names the output and every SST published before except the inputs,
    each unchanged, and covers the same part of the WAL. *)
Theorem compaction_replaces_inputs io inputs out c d d' :
  pi_load io = load_good -> manifest_load_file load_good d = ManifestLoaded c -> out ∉ inputs -> 0 <= coveredWalLsn c ->
  (let next := next_manifest (ManifestLoaded c) 0 (unique_sorted (List.filter (fun n => negb (bool_decide (n ∈ inputs))) (sstFiles c) ++ [out])) in
   storable (mkManifest kFormatVersion (generation next) (coveredWalLsn next) (merge_sort bytes_le (sstFiles next)))) ->
  publishCompaction io inputs out d = (Ok tt, d') ->
  exists m, manifest_load_file load_good d' = ManifestLoaded m /\ coveredWalLsn m = coveredWalLsn c /\
    (forall n, n ∈ sstFiles m <-> (n ∈ sstFiles c /\ n ∉ inputs) \/ n = out) /\
    (forall n, n ∈ sstFiles m -> st_fs d' !! n = st_fs d !! n).
Proof.
  intros Hl Hc Hout Hpos Hst. unfold publishCompaction, publishedSsts. rewrite Hl, Hc. cbv zeta in Hst |- *.
  destruct (negb (forallb _ inputs)) eqn:Ein; [discriminate|]. set (next := next_manifest _ 0 _) in *.
  destruct (publish io next _ d) as [[[]|] d1] eqn:Ep; [|discriminate]. intros [= <-].
  destruct (publish_loads io next _ d d1 Hl Ep Hst) as (Hload & _ & Hs).
  assert (Hnames : forall n, n ∈ merge_sort bytes_le (sstFiles next) <-> (n ∈ sstFiles c /\ n ∉ inputs) \/ n = out).
  { intros n. unfold next. cbn [next_manifest sstFiles]. rewrite unique_sorted_elem, elem_of_app, list_elem_of_singleton.
    rewrite (list_elem_of_In (List.filter _ _)), filter_In, negb_true_iff, bool_decide_eq_false, <- list_elem_of_In. tauto. }
  assert (Hins : Forall sst_name inputs).
  { apply negb_false_iff in Ein. rewrite forallb_forall in Ein. apply Forall_forall. intros n Hn.
    pose proof (Ein n (proj1 (list_elem_of_In _ _) Hn)) as Hx%bool_decide_eq_true.
    pose proof (loaded_names d c Hc) as Hf. rewrite Forall_forall in Hf. apply (Hf n Hx). }
  assert (Hsst : forall n, n ∈ merge_sort bytes_le (sstFiles next) -> sst_name n).
  { intros n Hn. pose proof (loaded_names _ _ Hload) as Hf. rewrite Forall_forall in Hf. apply (Hf n Hn). }
  assert (Hkeep : forall n, n ∈ merge_sort bytes_le (sstFiles next) ->
    st_fs (remove_files d1 (flat_map with_sidecars inputs)) !! n = st_fs d1 !! n).
  { intros n Hn. apply remove_other. intros Hd%dropped_ssts; [|exact (Hsst n Hn)]. apply Hnames in Hn as [[_ Hn]| ->]; contradiction. }
  eexists. split; [apply (load_named d1 _ _ Hload); [apply remove_other, dropped_not_manifest, Hins|exact Hkeep]|].
  cbn [coveredWalLsn sstFiles]. split; [unfold next; cbn; lia|]. split; [exact Hnames|].
  intros n Hn. rewrite Hkeep by exact Hn. apply Hs, Hsst, Hn.
Qed.
End Manifest.

(** ** Examples *)

#[local] Existing Instance nibble_text.
#[local] Existing Instance nibble_line_text.
#[local] Existing Instance rle_lz4.

Definition publish_good : publish_io := mkPublishIo load_good (fun _ => true) true None true true true 5.

(** A directory with two SSTs, of which a manifest of generation 1 names the first. *)
Definition two_ssts : store :=
  (writeSst sst_io_good (writeSst sst_io_good empty_store (str "a.sst") sample_rows 4096).2 (str "b.sst.writing") sample_rows 4096).2.
Definition first_manifest : LsmManifest := mkManifest 1 1 10 [str "a.sst"].
Definition published_dir : store := (publish publish_good first_manifest [mkArtifact true (str "a.sst")] two_ssts).2.

(** Manifests of these names are written and read back. *)
Ltac storable_now :=
  split; [split; [vm_compute; repeat split; try discriminate; repeat constructor|vm_compute; reflexivity]|];
  split; [cbn; lia|split; [cbn; lia|intros t [= <-]; vm_compute; split; [reflexivity|discriminate]]].

Lemma first_storable : storable stable first_manifest.
Proof. storable_now. Qed.

Lemma publish_then_load_witness :
  publish publish_good first_manifest [mkArtifact true (str "a.sst")] two_ssts = (Ok tt, published_dir) /\
  manifest_load_file load_good published_dir = ManifestLoaded first_manifest.
Proof.
  assert (E : publish publish_good first_manifest [mkArtifact true (str "a.sst")] two_ssts = (Ok tt, published_dir)).
  { transitivity ((publish publish_good first_manifest [mkArtifact true (str "a.sst")] two_ssts).1, published_dir);
      [apply surjective_pairing|]. f_equal; vm_compute; reflexivity. }
  split; [exact E|].
  exact (proj1 (publish_then_load stable publish_good first_manifest [mkArtifact true (str "a.sst")] two_ssts published_dir
    eq_refl E first_storable)).
Defined.

(** A directory without a manifest names no damaged SST. *)
Lemma two_ssts_verified : verified two_ssts.
Proof. intros m Hm. assert (E : manifest_load_file load_good two_ssts = ManifestAbsent) by (vm_compute; reflexivity). congruence. Qed.

(** The manifest was replaced although the last synchronisation failed. *)
Definition unsynced : publish_io := mkPublishIo load_good (fun _ => true) true None true true false 5.

Lemma publish_keeps_verified_witness :
  (publish unsynced first_manifest [mkArtifact true (str "a.sst")] two_ssts).1 = Err "cannot synchronize published LSM manifest" /\
  verified (publish unsynced first_manifest [mkArtifact true (str "a.sst")] two_ssts).2.
Proof.
  split; [vm_compute; reflexivity|].
  exact (publish_keeps_verified stable unsynced first_manifest [mkArtifact true (str "a.sst")] two_ssts
    (publish unsynced first_manifest [mkArtifact true (str "a.sst")] two_ssts).1 _
    eq_refl two_ssts_verified (surjective_pairing _) first_storable).
Defined.

Definition finalize_good : finalize_io := mkFinalizeIo true true true.
Definition second_manifest : LsmManifest := mkManifest 1 2 25 [str "a.sst"; str "b.sst"].

Lemma second_storable : storable stable second_manifest.
Proof. storable_now. Qed.

Lemma flush_checkpoint_witness :
  let d := (publishFlush publish_good finalize_good (str "b.sst.writing") (str "b.sst") 25 published_dir).2 in
  25 <= 25 /\ exists m, manifest_load_file load_good d = ManifestLoaded m /\ coveredWalLsn m = 25 /\ str "b.sst" ∈ sstFiles m /\
    forall c, manifest_load_file load_good published_dir = ManifestLoaded c -> forall n, n ∈ sstFiles c ->
      n ∈ sstFiles m /\ st_fs d !! n = st_fs published_dir !! n.
Proof.
  intros d.
  apply (flush_checkpoint stable publish_good finalize_good (str "b.sst") 25 published_dir [str "a.sst"] 25 d).
  - reflexivity.
  - vm_compute. reflexivity.
  - vm_compute. reflexivity.
  - cbv zeta. match goal with |- storable _ ?m => replace m with second_manifest by (vm_compute; reflexivity) end. exact second_storable.
  - transitivity ((publishFlush publish_good finalize_good (str "b.sst.writing") (str "b.sst") 25 published_dir).1, d); [apply surjective_pairing|].
    f_equal; vm_compute; reflexivity.
Defined.

(** The flushed directory with the output of a compaction of both SSTs. *)
Definition compacted_dir : store :=
  (writeSst sst_io_good (publishFlush publish_good finalize_good (str "b.sst.writing") (str "b.sst") 25 published_dir).2
     (str "c.sst") sample_rows 4096).2.

Lemma third_storable : storable stable (mkManifest 1 3 25 [str "c.sst"]).
Proof. storable_now. Qed.

Lemma compaction_replaces_inputs_witness :
  let d := (publishCompaction publish_good [str "a.sst"; str "b.sst"] (str "c.sst") compacted_dir).2 in
  exists m, manifest_load_file load_good d = ManifestLoaded m /\ coveredWalLsn m = 25 /\
    (forall n, n ∈ sstFiles m <-> (n ∈ [str "a.sst"; str "b.sst"] /\ n ∉ [str "a.sst"; str "b.sst"]) \/ n = str "c.sst") /\
    (forall n, n ∈ sstFiles m -> st_fs d !! n = st_fs compacted_dir !! n).
Proof.
  intros d.
  apply (compaction_replaces_inputs stable publish_good [str "a.sst"; str "b.sst"] (str "c.sst") second_manifest compacted_dir d).
  - reflexivity.
  - vm_compute. reflexivity.
  - rewrite !not_elem_of_cons. split; [discriminate|]. split; [discriminate|apply not_elem_of_nil].
  - discriminate.
  - cbv zeta. match goal with |- storable _ ?m => replace m with (mkManifest 1 3 25 [str "c.sst"]) by (vm_compute; reflexivity) end. exact third_storable.
  - transitivity ((publishCompaction publish_good [str "a.sst"; str "b.sst"] (str "c.sst") compacted_dir).1, d); [apply surjective_pairing|].
    f_equal; vm_compute; reflexivity.
Defined.

(** When only the last directory synchronisation fails, the new manifest is in
    place but the flush removes the SST it names: the collection no longer loads. *)
Example flush_failure_breaks_manifest :
  let '(r, d) := publishFlush unsynced finalize_good (str "b.sst.writing") (str "b.sst") 25 published_dir in
  r = Err "cannot publish LSM flush checkpoint: " /\ st_fs d !! str "b.sst" = None /\
  manifest_load_file load_good d = ManifestError "missing manifest SST ".
Proof. vm_compute. repeat split. Qed.
