(* ===== verification/LsmProgress.v ===== *)
(** * Which part of the WAL the memtable holds (lsm.cpp, [markWalApplied])

    Writes reach the memtable in any order.  [WalApplyProgress] remembers the
    LSNs that were applied as a prefix [1 .. contiguous] and intervals beyond it;
    a flush covers the prefix. *)

From S2P Require Import Prelude.
From stdpp Require Import base list.
From Stdlib Require Import ZArith Lia ZifyBool.

Open Scope Z_scope.

(** [intervals] is a [std::map] from first to last LSN, in key order. *)
Record WalApplyProgress := mkProgress { contiguous : Z; intervals : list (Z * Z) }.

Definition progress_new : WalApplyProgress := mkProgress 0 [].

(** [lower_bound]: the intervals that start before [first], and the others. *)
Fixpoint split_lower (first : Z) (its : list (Z * Z)) : list (Z * Z) * list (Z * Z) :=
  match its with
  | (a, b) :: rest =>
      if a <? first then let '(before, from) := split_lower first rest in ((a, b) :: before, from)
      else ([], its)
  | [] => ([], [])
  end.

(** The loops that erase intervals reaching down to [last + 1]. *)
Fixpoint absorb (last : Z) (its : list (Z * Z)) : Z * list (Z * Z) :=
  match its with
  | (a, b) :: rest => if a <=? u64 (last + 1) then absorb (Z.max last b) rest else (last, its)
  | [] => (last, [])
  end.

(** [intervals[k] = v]. *)
Fixpoint interval_set (k v : Z) (its : list (Z * Z)) : list (Z * Z) :=
  match its with
  | (a, b) :: rest => if k <? a then (k, v) :: its else if a =? k then (k, v) :: rest else (a, b) :: interval_set k v rest
  | [] => [(k, v)]
  end.

(** The interval before [first] is joined when it reaches [first - 1]. *)
Definition join_previous (first last : Z) (before : list (Z * Z)) : Z * Z * list (Z * Z) :=
  match List.rev before with
  | (pf, pl) :: earlier => if u64 (first - 1) <=? pl then (pf, Z.max last pl, List.rev earlier) else (first, last, before)
  | [] => (first, last, before)
  end.

Definition markWalApplied (first last : Z) (p : WalApplyProgress) : WalApplyProgress :=
  if (first =? 0) || (last <? first) then p
  else if last <=? contiguous p then p
  else
    let first := Z.max first (u64 (contiguous p + 1)) in
    let '(before, from) := split_lower first (intervals p) in
    let '(first, last, before) := join_previous first last before in
    let '(last, from) := absorb last from in
    let '(contiguous, its) := absorb (contiguous p) (interval_set first last (before ++ from)) in
    mkProgress contiguous its.

(** ** Invariant *)

(** Intervals above [low], apart from each other. *)
Fixpoint gaps (low : Z) (its : list (Z * Z)) : Prop :=
  match its with
  | (a, b) :: rest => low + 1 < a /\ a <= b < 2 ^ 64 - 1 /\ gaps b rest
  | [] => True
  end.

Record progress_wf (p : WalApplyProgress) : Prop := {
  pw_contiguous : 0 <= contiguous p < 2 ^ 64 - 1;
  pw_gaps : gaps (contiguous p) (intervals p) }.

Definition within (n : Z) (its : list (Z * Z)) : Prop := Exists (fun i => i.1 <= n <= i.2) its.

Definition applied (p : WalApplyProgress) (n : Z) : Prop := 1 <= n <= contiguous p \/ within n (intervals p).

Fixpoint top (low : Z) (its : list (Z * Z)) : Z :=
  match its with (_, b) :: rest => top b rest | [] => low end.

Lemma gaps_app low l1 l2 : gaps low (l1 ++ l2) <-> gaps low l1 /\ gaps (top low l1) l2.
Proof.
  revert low. induction l1 as [|[a b] l1 IH]; intros low; [cbn; tauto|]. cbn [gaps app top]. rewrite IH. tauto.
Qed.

Lemma gaps_mono low low' its : low' <= low -> gaps low its -> gaps low' its.
Proof. destruct its as [|[a b] its]; cbn; [auto|]. intros ? (? & ? & ?). repeat split; auto; lia. Qed.

Lemma within_cons n a b its : within n ((a, b) :: its) <-> a <= n <= b \/ within n its.
Proof. unfold within. rewrite Exists_cons. reflexivity. Qed.

Lemma within_app n l1 l2 : within n (l1 ++ l2) <-> within n l1 \/ within n l2.
Proof. apply Exists_app. Qed.

Lemma gaps_within low its n : gaps low its -> within n its -> low + 1 < n.
Proof.
  revert low. induction its as [|[a b] its IH]; intros low H; [intros Hn; inversion Hn|].
  rewrite within_cons. cbn in H. destruct H as (H1 & H2 & H3). intros [?|Hn]; [lia|]. specialize (IH b H3 Hn). lia.
Qed.

Lemma split_lower_spec first its : let '(before, from) := split_lower first its in
  its = before ++ from /\ Forall (fun i => i.1 < first) before /\ (forall low, gaps low its -> Forall (fun i => first <= i.1) from).
Proof.
  induction its as [|[a b] its IH]; cbn [split_lower]; [repeat split; auto|]. destruct (Z.ltb_spec a first) as [Ha|Ha].
  - destruct (split_lower first its) as [before from]. destruct IH as (-> & H1 & H2). repeat split; [constructor; auto|].
    intros low (_ & _ & H). exact (H2 b H).
  - split; [reflexivity|]. split; [constructor|]. intros low (H1 & H2 & H3). constructor; [exact Ha|].
    apply Forall_forall. intros [c d] Hin.
    assert (Hw : within c its) by (apply Exists_exists; exists (c, d); split; [exact Hin|]; cbn;
      clear -H3 Hin; revert b H3; induction its as [|[e f] its IH]; intros b H3; [inversion Hin|];
      destruct H3 as (? & ? & ?); apply elem_of_cons in Hin as [[= -> ->]|Hin]; [lia|eauto]).
    pose proof (gaps_within b its c H3 Hw). cbn. lia.
Qed.

Lemma absorb_spec last low its : 0 <= last < 2 ^ 64 - 1 -> gaps low its ->
  let '(last', rest) := absorb last its in
  last <= last' < 2 ^ 64 - 1 /\ gaps last' rest /\ forall n, last < n -> (within n its <-> n <= last' \/ within n rest).
Proof.
  revert last low. induction its as [|[a b] its IH]; intros last low Hl H; cbn [absorb].
  - split; [lia|]. split; [exact I|]. intros n Hn. split; [auto|]. intros [?|?]; [lia|auto].
  - destruct H as (H1 & H2 & H3). unfold u64. rewrite Z.mod_small by lia. destruct (Z.leb_spec a (last + 1)) as [Ha|Ha].
    + specialize (IH (Z.max last b) b ltac:(lia) H3). destruct (absorb (Z.max last b) its) as [last' rest].
      destruct IH as (I1 & I2 & I3). split; [lia|]. split; [exact I2|]. intros n Hn. rewrite within_cons.
      destruct (Z.leb_spec n (Z.max last b)) as [Hle|Hgt].
      * split; [intros _; left; lia|]. intros _. left. lia.
      * rewrite (I3 n Hgt). split; [intros [?|?]; [lia|tauto]|tauto].
    + split; [lia|]. split; [cbn; repeat split; auto; lia|]. intros n Hn. rewrite within_cons. cbn.
      split; [tauto|]. intros [?|?]; [lia|]. tauto.
Qed.

Lemma top_snoc low its a b : top low (its ++ [(a, b)]) = b.
Proof. revert low. induction its as [|[c d] its IH]; intros low; [reflexivity|apply IH]. Qed.

Lemma join_previous_spec low first last before : gaps low before -> low + 1 < first -> 0 < first <= last -> last < 2 ^ 64 - 1 ->
  Forall (fun i => i.1 < first) before ->
  let '(f, l, b0) := join_previous first last before in
  gaps low b0 /\ top low b0 + 1 < f <= first /\ last <= l < 2 ^ 64 - 1 /\ Forall (fun i => i.1 < f) b0 /\
  forall n, within n before \/ first <= n <= last <-> within n b0 \/ f <= n <= l.
Proof.
  intros Hg Hlow Hfl Hmax Hb. destruct before as [|[pf pl] b0 _] using rev_ind; [cbn; repeat split; auto; lia || tauto|].
  unfold join_previous. rewrite rev_app_distr. cbn [List.rev app]. rewrite rev_involutive.
  apply gaps_app in Hg as [Hg0 (Hp1 & Hp2 & _)]. apply Forall_app in Hb as [Hb0 Hbp]. apply Forall_cons in Hbp as [Hbp _]. cbn in Hbp.
  unfold u64. rewrite Z.mod_small by lia. destruct (Z.leb_spec (first - 1) pl) as [Hj|Hj].
  - split; [exact Hg0|]. split; [lia|]. split; [lia|]. split.
    + clear -Hg0 Hp1. revert low Hg0 Hp1. induction b0 as [|[a b] b0 IH]; intros low Hg Hp; [constructor|].
      destruct Hg as (H1 & H2 & H3). assert (Htop : b <= top b b0).
      { clear -H3. revert b H3. induction b0 as [|[c d] b0 IH]; intros b H3; cbn; [lia|]. destruct H3 as (? & ? & H). specialize (IH d H). lia. }
      constructor; [cbn in *; lia|]. exact (IH b H3 Hp).
    + intros n. rewrite within_app, within_cons. assert (within n [] <-> False) by (split; [intros H; inversion H|tauto]).
      split; [intros [[?|[?|?]]|?]; try tauto; right; lia|]. intros [?|?]; [tauto|]. destruct (Z.leb_spec n pl); [left; right; left; lia|right; lia].
  - split; [apply gaps_app; cbn; auto|]. rewrite top_snoc. split; [lia|]. split; [lia|]. split; [apply Forall_app; auto|]. reflexivity.
Qed.

Lemma interval_set_mid k v before rest : Forall (fun i => i.1 < k) before -> Forall (fun i => k < i.1) rest ->
  interval_set k v (before ++ rest) = before ++ (k, v) :: rest.
Proof.
  intros Hb Hr. induction Hb as [|[a b] before Ha Hb IH]; cbn [app interval_set].
  - destruct Hr as [|[a b] rest Ha Hr]; [reflexivity|]. cbn in Ha |- *. destruct (Z.ltb_spec k a); [reflexivity|lia].
  - cbn in Ha. destruct (Z.ltb_spec k a); [lia|]. destruct (Z.eqb_spec a k); [lia|]. rewrite IH. reflexivity.
Qed.

Lemma gaps_starts low its : gaps low its -> Forall (fun i => low + 1 < i.1) its.
Proof.
  revert low. induction its as [|[a b] its IH]; intros low H; [constructor|]. destruct H as (H1 & H2 & H3).
  constructor; [exact H1|]. eapply Forall_impl; [exact (IH b H3)|]. cbn. intros i. lia.
Qed.

(** One call adds exactly the LSNs it names. *)
Lemma markWalApplied_spec first last p : progress_wf p -> 0 < first -> last < 2 ^ 64 - 1 ->
  progress_wf (markWalApplied first last p) /\
  (forall n, applied (markWalApplied first last p) n <-> applied p n \/ first <= n <= last).
Proof.
  intros [Hc Hg] Hf Hl. unfold markWalApplied. destruct (Z.eqb_spec first 0) as [H0|H0]; [lia|]. cbn [orb].
  destruct (Z.ltb_spec last first) as [Hlt|Hlt]; [split; [split; auto|intros n; split; [auto|intros [?|?]; [auto|lia]]]|].
  destruct (Z.leb_spec last (contiguous p)) as [Hle|Hle].
  { split; [split; auto|]. intros n. split; [auto|]. intros [?|?]; [auto|]. left. lia. }
  set (c := contiguous p) in *. replace (u64 (c + 1)) with (c + 1) by (unfold u64; rewrite Z.mod_small; lia). set (f0 := Z.max first (c + 1)).
  pose proof (split_lower_spec f0 (intervals p)) as Hs. destruct (split_lower f0 (intervals p)) as [before from].
  destruct Hs as (Hi & Hb & Hfrom). specialize (Hfrom c Hg). rewrite Hi in Hg.
  pose proof (gaps_mono c (c - 1) _ ltac:(lia) Hg) as Hg'. apply gaps_app in Hg' as [Hgb Hgf].
  pose proof (join_previous_spec (c - 1) f0 last before Hgb ltac:(lia) ltac:(lia) Hl Hb) as Hj.
  destruct (join_previous f0 last before) as [[f l] b0]. destruct Hj as (Hg0 & Hf0 & Hl0 & Hb0 & Hjn).
  pose proof (absorb_spec l _ from ltac:(lia) Hgf) as Ha. destruct (absorb l from) as [l' rest]. destruct Ha as (Hl' & Hgr & Han).
  assert (Hrest : Forall (fun i => f < i.1) rest) by (eapply Forall_impl; [exact (gaps_starts _ _ Hgr)|]; cbn; intros; lia).
  rewrite (interval_set_mid f l' b0 rest Hb0 Hrest).
  assert (Hgn : gaps (c - 1) (b0 ++ (f, l') :: rest)) by (apply gaps_app; split; [exact Hg0|]; cbn; repeat split; auto; lia).
  pose proof (absorb_spec c _ _ Hc Hgn) as Hfin. destruct (absorb c (b0 ++ (f, l') :: rest)) as [c' its]. destruct Hfin as (Hc' & Hgi & Hin).
  split; [split; cbn; [lia|exact Hgi]|]. intros n. unfold applied. cbn [contiguous intervals]. fold c. rewrite Hi.
  destruct (Z.leb_spec n c) as [Hnc|Hnc].
  - split.
    + intros [?|Hw]; [left; lia|]. pose proof (gaps_within _ _ _ Hgi Hw). lia.
    + intros [[?|Hw]|?]; [left; lia| |left; lia]. pose proof (gaps_within c _ n Hg Hw). lia.
  - transitivity (within n (b0 ++ (f, l') :: rest)); [rewrite (Hin n Hnc); split; intros [?|?]; auto; left; lia|].
    rewrite !within_app, within_cons. specialize (Hjn n). assert (Hff : within n from -> f0 <= n).
    { intros Hw. unfold within in Hw. apply Exists_exists in Hw as ([a b] & Hin' & Hab). rewrite Forall_forall in Hfrom.
      specialize (Hfrom _ Hin'). cbn in *. lia. }
    destruct (Z.leb_spec n l) as [Hnl|Hnl].
    + assert (Hr : within n rest -> False) by (intros Hw; pose proof (gaps_within _ _ _ Hgr Hw); lia).
      split; [intros [?|[?|?]]; [|assert (Hx : within n b0 \/ f <= n <= l) by lia; apply Hjn in Hx as [?|?]; [auto|right; lia]|tauto]|].
      * assert (Hx : within n b0 \/ f <= n <= l) by auto. apply Hjn in Hx as [?|?]; [auto|right; lia].
      * intros [[?|[?|Hw]]|?]; [lia| | |].
        -- assert (Hx : within n before \/ f0 <= n <= last) by auto. apply Hjn in Hx as [?|?]; [auto|right; left; lia].
        -- specialize (Hff Hw). right; left; lia.
        -- assert (Hx : within n before \/ f0 <= n <= last) by (right; lia). apply Hjn in Hx as [?|?]; [auto|right; left; lia].
    + specialize (Han n ltac:(lia)). assert (Hx : within n before <-> within n b0) by (split; intros H;
        [assert (Hy : within n before \/ f0 <= n <= last) by auto; apply Hjn in Hy as [?|?]; [auto|lia]
        |assert (Hy : within n b0 \/ f <= n <= l) by auto; apply Hjn in Hy as [?|?]; [auto|lia]]).
      rewrite Hx, Han. split; [intros [?|[?|?]]; auto; left; right; right; left; lia|].
      intros [[?|[?|[?|?]]]|?]; auto; try lia.
Qed.

(** [markWalApplied] adds exactly the LSNs of its interval to the applied
    ones, in any order of calls, and [contiguous] is exact: every LSN up to it
    is applied and the next one is not. *)
Theorem markWalApplied_exact first last p : progress_wf p -> 0 < first -> last < 2 ^ 64 - 1 ->
  let p' := markWalApplied first last p in
  progress_wf p' /\ (forall n, applied p' n <-> applied p n \/ first <= n <= last) /\
  (forall n, 1 <= n <= contiguous p' -> applied p' n) /\ ~ applied p' (contiguous p' + 1).
Proof.
  intros Hp Hf Hl. destruct (markWalApplied_spec first last p Hp Hf Hl) as [Hw Hn]. split; [exact Hw|]. split; [exact Hn|].
  split; [intros n; left; assumption|]. intros [?|Hin]; [lia|].
  pose proof (gaps_within _ _ _ (pw_gaps _ Hw) Hin). lia.
Qed.

Lemma markWalApplied_exact_witness :
  let p := markWalApplied 3 4 (markWalApplied 6 6 progress_new) in
  contiguous p = 0 /\ contiguous (markWalApplied 1 2 p) = 4 /\ ~ applied (markWalApplied 1 2 p) 5.
Proof.
  cbv zeta. split; [reflexivity|]. split; [reflexivity|].
  refine (proj2 (proj2 (proj2 (markWalApplied_exact 1 2 (markWalApplied 3 4 (markWalApplied 6 6 progress_new)) _ _ _)))).
  - split; vm_compute; repeat split; discriminate.
  - reflexivity.
  - reflexivity.
Defined.

(** The next LSN in order extends the prefix. *)
Lemma mark_next lsn p : progress_wf p -> intervals p = [] -> lsn = contiguous p + 1 -> lsn < 2 ^ 64 - 1 ->
  markWalApplied lsn lsn p = mkProgress lsn [].
Proof.
  intros [Hc _] Hi -> Hl. unfold markWalApplied. rewrite Hi. destruct (Z.eqb_spec (contiguous p + 1) 0); [lia|].
  rewrite Z.ltb_irrefl. cbn [orb]. destruct (Z.leb_spec (contiguous p + 1) (contiguous p)); [lia|].
  unfold u64. rewrite Z.mod_small, Z.max_id by lia. cbn [split_lower join_previous List.rev absorb app interval_set].
  unfold u64. rewrite Z.mod_small by lia. rewrite Z.leb_refl, Z.max_r by lia. reflexivity.
Qed.
