(* ===== verification/LsmDoc.v ===== *)
(** * Documents of the LSM engine (lsm.cpp)

    Which of two versions of a document is newer, which documents a reader may
    see, what a write stamps into them, and the key of a collection.  What the
    engine asks Raft is an argument, [raft_env]. *)

From S2P Require Import Prelude Json JsonValue FileSys Decimal Msgpack RowView Checksum Store Sst SstCursor SstQuery.
From stdpp Require Import base list gmap strings.
From Stdlib Require Import ZArith Lia.

Open Scope Z_scope.

(** ** Visibility *)

(** The state of [RaftCore] and the two environment variables. *)
Record raft_env := mkRaftEnv {
  re_enabled : bool; re_leader : bool; re_peers : Z; re_commitIndex : Z;
  re_standalone_bypass : option bytes; re_bypass_single_node : option bytes }.

Definition tolower (b : byte) : byte :=
  if (65 <=? byte_val b) && (byte_val b <=? 90) then byte_of (byte_val b + 32) else b.

Definition env_false (v : option bytes) : bool :=
  match v with
  | None | Some [] => false
  | Some s => existsb (bytes_eqb (map tolower s)) [str "0"; str "false"; str "no"; str "off"]
  end.

Definition standaloneRaftVisibilityBypass (e : raft_env) : bool :=
  if env_false (re_standalone_bypass e) || env_false (re_bypass_single_node e) then false
  else re_enabled e && re_leader e && (re_peers e =? 0).

Section Fields.
Context (lookup : bytes -> option json).

Fixpoint first_string (names : list bytes) : option bytes :=
  match names with
  | [] => None
  | n :: rest => match lookup n with Some (JString s) => Some s | _ => first_string rest end
  end.

Definition fieldsHaveVisibleCommitState : bool :=
  match first_string [str "_visibility_state"; str "visibility_state"] with
  | Some state => bytes_eqb state (str "COMMITTED_VISIBLE") || bytes_eqb state (str "TOMBSTONED")
  | None => match lookup (str "committed") with Some (JBool b) => b | _ => true end
  end.

Fixpoint first_index (names : list bytes) : option Z :=
  match names with
  | [] => None
  | n :: rest =>
      match lookup n with
      | Some v => if is_number_integer v || is_number_unsigned v then get_u64 v else first_index rest
      | None => first_index rest
      end
  end.

Definition fieldsRowCommitIndex : option Z := first_index [str "_raft_commit_index"; str "commit_index"].

Definition fieldsVisibleByCommitIndex (e : raft_env) (committedIndex : Z) : bool :=
  if negb (re_enabled e) then
    match lookup (str "_visibility_state") with
    | Some (JString s) => negb (bytes_eqb s (str "PENDING"))
    | _ => true
    end
  else if negb fieldsHaveVisibleCommitState then false
  else if standaloneRaftVisibilityBypass e then true
  else
    match fieldsRowCommitIndex with
    | None => false
    | Some rowCommit =>
        if committedIndex <? rowCommit then false
        else
          let floor := match lookup (str "_visibility_floor") with
                       | Some v => if is_number_integer v || is_number_unsigned v then default rowCommit (get_u64 v) else rowCommit
                       | None => rowCommit
                       end in
          negb (committedIndex <? floor)
    end.
End Fields.

Definition documentField (doc : json) (name : bytes) : option json := json_find name doc.

Definition docVisibleByCommitIndex (e : raft_env) (doc : json) (committedIndex : Z) : bool :=
  is_object doc && fieldsVisibleByCommitIndex (documentField doc) e committedIndex.

Definition isDeletedDoc (doc : json) : bool :=
  match json_find (str "_deleted") doc with Some (JBool b) => b | _ => false end.

Definition extractRowCommitIndex (doc : json) : option Z := fieldsRowCommitIndex (documentField doc).

Definition visible_state (doc : json) : json :=
  JString (if isDeletedDoc doc then str "TOMBSTONED" else str "COMMITTED_VISIBLE").

Definition set_default (k : bytes) (v : json) (doc : json) : json :=
  if json_contains k doc then doc else json_set k v doc.

Definition stampVisibilityMetadata (e : raft_env) (doc : json) (committedIndex : Z) : result json :=
  if negb (is_object doc) then Ok doc
  else if negb (re_enabled e) then Ok (set_default (str "_visibility_state") (visible_state doc) doc)
  else if standaloneRaftVisibilityBypass e then
    let doc := set_default (str "_visibility_state") (visible_state doc) doc in
    if json_contains (str "committed") doc then Ok doc
    else
      state ← value as_string doc (str "_visibility_state") [];
      Ok (json_set (str "committed") (JBool (negb (bytes_eqb state (str "PENDING")))) doc)
  else
    let '(rowCommit, doc) := match extractRowCommitIndex doc with
                             | Some c => (c, doc)
                             | None => (committedIndex, json_set (str "_raft_commit_index") (JUInt committedIndex) doc)
                             end in
    let doc := set_default (str "_visibility_floor") (JUInt rowCommit) doc in
    let committed := rowCommit <=? committedIndex in
    let doc := json_set (str "committed") (JBool committed) doc in
    Ok (json_set (str "_visibility_state") (if committed then visible_state doc else JString (str "PENDING")) doc).

(** ** Versions *)

Definition extractDocVersionScore (doc : json) : option Z :=
  if is_object doc then first_version (documentField doc) version_names else None.

Definition isCandidateNewer (candidate current : json) : bool :=
  match extractDocVersionScore candidate, extractDocVersionScore current with
  | Some c, Some o => if negb (c =? o) then o <? c else true
  | Some _, None => true
  | None, Some _ => false
  | None, None => true
  end.

Section Merge.
Context `{JT : JsonText}.

(** The text of [doc["id"]]; [None] without one, when [dump] throws and for the empty text. *)
Definition doc_id (doc : json) : option bytes :=
  match json_find (str "id") doc with
  | Some v => match id_text v with Some [] => None | id => id end
  | None => None
  end.

(** [latestById] and [noIdDocs]. *)
Definition merged : Type := gmap bytes json * list json.

Definition mergeLatestById (m : merged) (doc : json) : merged :=
  let '(latest, noId) := m in
  match doc_id doc with
  | None => (latest, noId ++ [doc])
  | Some id =>
      match latest !! id with
      | None => (<[id := doc]> latest, noId)
      | Some current => if isCandidateNewer doc current then (<[id := doc]> latest, noId) else m
      end
  end.

Definition Memtable : Type := gmap bytes json.

(** The order of an [unordered_map] is left to [map_to_list]. *)
Definition table_docs (t : Memtable) : list json := (map_to_list t).*2.

Definition mergeVisibleMemtableInto (e : raft_env) (committedIndex : Z) (m : merged) (table : Memtable) : merged :=
  fold_left mergeLatestById (List.filter (fun d => docVisibleByCommitIndex e d committedIndex) (table_docs table)) m.
End Merge.

(** ** The key of a collection *)

Definition key_part (s : bytes) : bytes := to_dec (blen s) ++ str ":" ++ s.

Definition colKey (userId db coll : bytes) : bytes := key_part userId ++ key_part db ++ key_part coll.

Fixpoint split_colon (cur : bytes) : option (bytes * bytes) :=
  match cur with
  | [] => None
  | c :: r => if byte_val c =? 58 then Some ([], r)
              else '(a, b) ← split_colon r; Some (c :: a, b)
  end.

Fixpoint key_length (digits : bytes) (length : Z) : option Z :=
  match digits with
  | [] => Some length
  | c :: r =>
      if (byte_val c <? 48) || (57 <? byte_val c) then None
      else let d := byte_val c - 48 in
           if (U64_MAX - d) / 10 <? length then None else key_length r (length * 10 + d)
  end.

Definition readComponent (cur : bytes) : option (bytes * bytes) :=
  '(digits, rest) ← split_colon cur;
  if bytes_eqb digits [] then None
  else n ← key_length digits 0;
       if blen rest <? n then None else Some (take (Z.to_nat n) rest, drop (Z.to_nat n) rest).

Definition parseColKey (key : bytes) : option (bytes * bytes * bytes) :=
  '(userId, cur) ← readComponent key;
  '(db, cur) ← readComponent cur;
  '(coll, cur) ← readComponent cur;
  if bytes_eqb cur [] then Some (userId, db, coll) else None.

(** ** Facts *)

Lemma isCandidateNewer_le candidate current :
  isCandidateNewer candidate current = version_le (extractDocVersionScore current) (extractDocVersionScore candidate).
Proof.
  unfold isCandidateNewer, version_le. destruct (extractDocVersionScore candidate) as [c|], (extractDocVersionScore current) as [o|]; try reflexivity.
  destruct (Z.eqb_spec c o) as [->|Hne]; cbn [negb]; [rewrite Z.leb_refl; reflexivity|].
  destruct (Z.ltb_spec o c), (Z.leb_spec o c); lia || reflexivity.
Qed.

Definition is_key_digit (c : byte) : Prop := 48 <= byte_val c <= 57.

Lemma dec_padded_digits n v : Forall is_key_digit (dec_padded n v).
Proof.
  induction n as [|n IH]; cbn [dec_padded]; [constructor|]. constructor; [|exact IH].
  pose proof (dec_digit_range n v). unfold is_key_digit. rewrite digit_val by assumption. lia.
Qed.

Lemma key_length_padded n v : forall a, 0 <= a -> a * 10 ^ Z.of_nat n + v mod 10 ^ Z.of_nat n <= U64_MAX ->
  key_length (dec_padded n v) a = Some (a * 10 ^ Z.of_nat n + v mod 10 ^ Z.of_nat n).
Proof.
  induction n as [|n IH]; intros a Ha Hle; cbn [dec_padded key_length].
  - rewrite Z.mod_1_r. f_equal. lia.
  - pose proof (dec_digit_range n v) as Hd. rewrite digit_val by assumption. set (d := (v / 10 ^ Z.of_nat n) mod 10) in *.
    rewrite dec_split, pow10_succ in Hle. fold d in Hle. pose proof (pow10_pos n). pose proof (Z.mod_pos_bound v _ (pow10_pos n)).
    rewrite (proj2 (Z.ltb_ge (48 + d) 48)), (proj2 (Z.ltb_ge 57 (48 + d))) by lia. cbn [orb].
    replace (48 + d - 48) with d by lia.
    assert (Hstep : a * 10 + d <= U64_MAX) by nia.
    rewrite (proj2 (Z.ltb_ge _ a)) by (apply Z.div_le_lower_bound; lia).
    rewrite IH by (try nia; lia). rewrite dec_split, pow10_succ. fold d. f_equal. ring.
Qed.

Lemma strip_zeros_digits s : Forall is_key_digit s -> s <> [] ->
  Forall is_key_digit (strip_zeros s) /\ strip_zeros s <> [] /\ key_length (strip_zeros s) 0 = key_length s 0.
Proof.
  induction 1 as [|c s Hc Hs IH]; [congruence|]. intros _. destruct s as [|c' s]; [repeat split; [constructor; auto|discriminate]|].
  change (strip_zeros (c :: c' :: s)) with (if byte_val c =? 48 then strip_zeros (c' :: s) else c :: c' :: s).
  destruct (Z.eqb_spec (byte_val c) 48) as [E|E]; [|repeat split; [constructor; auto|discriminate]].
  destruct (IH ltac:(discriminate)) as (H1 & H2 & H3). split; [exact H1|]. split; [exact H2|]. rewrite H3.
  cbn [key_length]. rewrite E. cbn [Z.ltb Z.compare orb Pos.compare Pos.compare_cont]. reflexivity.
Qed.

Lemma to_dec_key v : 0 <= v < 2 ^ 64 ->
  Forall is_key_digit (to_dec v) /\ to_dec v <> [] /\ key_length (to_dec v) 0 = Some v.
Proof.
  intros Hv. destruct (strip_zeros_digits (dec_padded 20 v) (dec_padded_digits 20 v) ltac:(discriminate)) as (H1 & H2 & H3).
  split; [exact H1|]. split; [exact H2|]. unfold to_dec. rewrite H3, key_length_padded; rewrite ?(stamp_mod v Hv); [reflexivity|lia|unfold U64_MAX; lia].
Qed.

Lemma split_colon_digits ds rest : Forall is_key_digit ds -> split_colon (ds ++ str ":" ++ rest) = Some (ds, rest).
Proof.
  induction 1 as [|c ds Hc Hds IH]; [reflexivity|]. cbn [app split_colon]. unfold is_key_digit in Hc.
  rewrite (proj2 (Z.eqb_neq (byte_val c) 58)) by lia. rewrite IH. reflexivity.
Qed.

Lemma readComponent_part s rest : blen s < 2 ^ 64 -> readComponent (key_part s ++ rest) = Some (s, rest).
Proof.
  intros Hs. assert (H0 : 0 <= blen s) by apply Nat2Z.is_nonneg. destruct (to_dec_key (blen s) (conj H0 Hs)) as (H1 & H2 & H3).
  unfold readComponent, key_part. rewrite <- !app_assoc, split_colon_digits by exact H1. cbn [mbind option_bind].
  rewrite (proj2 (bytes_eqb_neq _ []) H2), H3. cbn [mbind option_bind].
  rewrite (proj2 (Z.ltb_ge _ _)) by (unfold blen; rewrite length_app; lia).
  unfold blen. rewrite Nat2Z.id, take_app_length, drop_app_length. reflexivity.
Qed.

(** A collection key names its user, database and collection: parsing it gives
    them back, so different collections never share a key whatever bytes their
    names contain. *)
Theorem colKey_roundtrip u d c : blen u < 2 ^ 64 -> blen d < 2 ^ 64 -> blen c < 2 ^ 64 ->
  parseColKey (colKey u d c) = Some (u, d, c).
Proof.
  intros Hu Hd Hc. unfold parseColKey, colKey. rewrite readComponent_part by exact Hu. cbn [mbind option_bind].
  rewrite readComponent_part by exact Hd. cbn [mbind option_bind]. rewrite <- (app_nil_r (key_part c)), readComponent_part by exact Hc.
  reflexivity.
Qed.

Lemma colKey_roundtrip_witness : parseColKey (str "2:u:0:4:1:ab") = Some (str "u:", [], str "1:ab").
Proof. exact (colKey_roundtrip (str "u:") [] (str "1:ab") eq_refl eq_refl eq_refl). Defined.
