(* ===== verification/LsmCollection.v ===== *)
(** * One collection of the LSM engine (lsm.cpp)

    A collection is its memtable, the memtables being flushed, its directory of
    SSTs with the manifest, and its WAL.  [put], [putMany] and [del] log a
    mutation and apply it to the memtable; a flush swaps the memtable out, writes
    it as an SST, publishes the manifest and reclaims the WAL; [getAll] merges all
    layers; [replayCollectionWal] rebuilds the memtable after a restart.

    The two critical sections of a flush are two operations, so writes can come
    between them.  The state is that of one collection: [colKey] keeps the
    collections of the process apart.  Column indexes, the vector registry, the
    id cache and metrics are not part of it; [validateRecord] stands for the
    check of vector fields. *)

From S2P Require Import Prelude FileSys Decimal Json JsonValue Msgpack RowView Checksum Store Sst SstCursor SstQuery Bloom WalIntegrity Wal.
From S2P Require Import LsmManifest LsmProgress LsmDoc.
From stdpp Require Import base list gmap sorting strings.
From Stdlib Require Import ZArith Lia.

Open Scope Z_scope.

Record coll := mkColl {
  memtable : Memtable;
  immutables : list (nat * Memtable);        (* newest first; the number stands for the pointer *)
  tables : nat;
  progress : WalApplyProgress;
  flushing : option (nat * Memtable * Z);    (* the running flush: its snapshot and covered LSN *)
  c_dir : store;
  c_wal : wal }.

Definition with_wal (s : coll) (w : wal) : coll :=
  mkColl (memtable s) (immutables s) (tables s) (progress s) (flushing s) (c_dir s) w.
Definition with_dir (s : coll) (d : store) : coll :=
  mkColl (memtable s) (immutables s) (tables s) (progress s) (flushing s) d (c_wal s).
Definition with_flushing (s : coll) (f : option (nat * Memtable * Z)) : coll :=
  mkColl (memtable s) (immutables s) (tables s) (progress s) f (c_dir s) (c_wal s).

Section Collection.
Context `{JT : JsonText} `{LZ : Lz4}.
Context (cfg : wal_config) (validateRecord : json -> result unit) (MEMTABLE_LIMIT sstBlockBytes : Z).
Context (userId dbName collection : bytes).

(** ** Writes *)

Record put_io := mkPutIo {
  pt_raft : raft_env; pt_time : Z; pt_dirs : bool; pt_clock : Z -> Z; pt_append : append_io }.

Inductive PutIntent := Record_ | Tombstone.

(** The entry of one mutation; a tombstone also carries its id. *)
Definition mutation_entry (op : string) (id : option bytes) (data : json) : json :=
  JObject (json_object ([(str "op", JString (str op)); (str "userId", JString userId); (str "db", JString dbName);
    (str "collection", JString collection)] ++
    match id with Some i => [(str "id", JString i)] | None => [] end ++ [(str "data", data)])).

Definition check_intent (intent : PutIntent) (doc : json) : result unit :=
  match intent with
  | Tombstone => guard_err (is_object doc && json_contains (str "id") doc && isDeletedDoc doc) "vector_schema invalid trusted tombstone"
  | Record_ => validateRecord doc
  end.

(** The memtable key of a document; [time(nullptr)] without id. *)
Definition row_key_of (now : Z) (doc : json) : result bytes :=
  match json_find (str "id") doc with
  | Some v => or_err (id_text v) "type_error.316"
  | None => Ok (to_dec now)
  end.

(** The document as stored, and its key. *)
Definition prepare_put (io : put_io) (intent : PutIntent) (doc : json) : result (bytes * json) :=
  _ ← check_intent intent doc;
  stored ← stampVisibilityMetadata (pt_raft io) doc (re_commitIndex (pt_raft io));
  id ← row_key_of (pt_time io) stored;
  Ok (id, if json_contains (str "id") stored then json_set (str "id") (JString id) stored else stored).

Definition log_if (writeWal : bool) (io : put_io) (w : wal) (entry : json) : result (Z * Z) * wal :=
  if writeWal then wal_log cfg (pt_clock io) (pt_append io) w entry else (Ok (0, 0), w).

Definition apply_docs (docs : list (bytes * json)) (t : Memtable) : Memtable :=
  fold_left (fun t kd => <[kd.1 := kd.2]> t) docs t.

Definition memtable_full (t : Memtable) : bool := MEMTABLE_LIMIT <=? Z.of_nat (size t).

(** The memtable insertion under the lock. *)
Definition apply_write (s : coll) (w : wal) (docs : list (bytes * json)) (lsns : option (Z * Z)) : coll :=
  mkColl (apply_docs docs (memtable s)) (immutables s) (tables s)
    (match lsns with Some (first, last) => markWalApplied first last (progress s) | None => progress s end)
    (flushing s) (c_dir s) w.

(** [LSM::put]: whether the memtable is to be flushed. *)
Definition put (io : put_io) (intent : PutIntent) (writeWal : bool) (doc : json) (s : coll) : result bool * coll :=
  match prepare_put io intent doc with
  | Err e => (Err e, s)
  | Ok (id, stored) =>
      if negb (pt_dirs io) then (Err "cannot create storage directory", s)
      else
        let entry := match intent with
                     | Tombstone => mutation_entry "DELETE" (Some id) stored
                     | Record_ => mutation_entry "PUT" None stored
                     end in
        match log_if writeWal io (c_wal s) entry with
        | (Err e, w) => (Err e, with_wal s w)
        | (Ok lsns, w) => let s := apply_write s w [(id, stored)] (Some lsns) in (Ok (memtable_full (memtable s)), s)
        end
  end.

(** The documents of [putMany] as stored; those that are no objects are kept as they are. *)
Fixpoint prepare_many (io : put_io) (docs : list json) : result (list json) :=
  match docs with
  | [] => Ok []
  | doc :: rest =>
      _ ← validateRecord doc;
      stored ← (if is_object doc then stampVisibilityMetadata (pt_raft io) doc (re_commitIndex (pt_raft io)) else Ok doc);
      r ← prepare_many io rest;
      Ok (stored :: r)
  end.

(** The insertions up to the first document whose id cannot be printed. *)
Fixpoint keyed_docs (now : Z) (docs : list json) : list (bytes * json) * option string :=
  match docs with
  | [] => ([], None)
  | doc :: rest =>
      if negb (is_object doc) then keyed_docs now rest
      else match row_key_of now doc with
           | Err e => ([], Some e)
           | Ok id => let '(r, e) := keyed_docs now rest in ((id, doc) :: r, e)
           end
  end.

Definition putMany (io : put_io) (writeWal : bool) (docs : list json) (s : coll) : result bool * coll :=
  if bool_decide (docs = []) then (Ok false, s)
  else
    match prepare_many io docs with
    | Err e => (Err e, s)
    | Ok stored =>
        if negb (pt_dirs io) then (Err "cannot create storage directory", s)
        else
          match (if writeWal then logPutBatch cfg (pt_clock io) (pt_append io) (c_wal s) userId dbName collection stored
                 else (Ok (0, 0), c_wal s)) with
          | (Err e, w) => (Err e, with_wal s w)
          | (Ok lsns, w) =>
              let '(rows, failed) := keyed_docs (pt_time io) stored in
              match failed with
              | Some e => (Err e, apply_write s w rows None)
              | None =>
                  let s := apply_write s w rows (if forallb is_object docs then Some lsns else None) in
                  (Ok (memtable_full (memtable s)), s)
              end
          end
    end.

(** The version of a tombstone: later than the clock, the version the caller saw
    and the one in the memtable. *)
Definition tombstone_version (nowNs previousVersion : Z) (current : option json) : result Z :=
  if previousVersion =? U64_MAX then Err "mvcc_version_exhausted"
  else
    let tomb := Z.max (Z.max 1 nowNs) (previousVersion + 1) in
    match current with
    | Some doc =>
        match extractDocVersionScore doc with
        | Some v => if (0 <=? v) && (tomb <=? v) then (if v =? U64_MAX then Err "mvcc_version_exhausted" else Ok (v + 1)) else Ok tomb
        | None => Ok tomb
        end
    | None => Ok tomb
    end.

Definition tombstone (id : bytes) (version nowMs : Z) : json :=
  JObject (json_object [(str "id", JString id); (str "_deleted", JBool true); (str "version", JUInt version);
    (str "_mvcc_version", JUInt version); (str "deleted_txn", JUInt version); (str "deleted_at_ms", JInt nowMs)]).

Definition del (io : put_io) (nowNs nowMs : Z) (id : bytes) (previousVersion : Z) (s : coll) : result bool * coll :=
  if negb (pt_dirs io) then (Err "cannot create storage directory", s)
  else
    match (v ← tombstone_version nowNs previousVersion (memtable s !! id);
           stampVisibilityMetadata (pt_raft io) (tombstone id v nowMs) (re_commitIndex (pt_raft io))) with
    | Err e => (Err e, s)
    | Ok tomb =>
        match wal_log cfg (pt_clock io) (pt_append io) (c_wal s) (mutation_entry "DELETE" (Some id) tomb) with
        | (Err e, w) => (Err e, with_wal s w)
        | (Ok lsns, w) => let s := apply_write s w [(id, tomb)] (Some lsns) in (Ok (memtable_full (memtable s)), s)
        end
    end.

(** ** Flush *)

Record flush_io := mkFlushIo {
  fl_dirs : bool;
  fl_name : bytes;                           (* nextSstFileName() *)
  fl_sst : sst_io; fl_bloom : bloom_io; fl_finalize : finalize_io; fl_publish : publish_io;
  fl_reclaim : reclaim_io }.

Definition nextSstFileName (micros seq : Z) : bytes := to_dec micros ++ str "_" ++ to_dec seq ++ str ".sst".

(** The first critical section: the memtable becomes an immutable one. *)
Definition flush_begin (s : coll) : coll :=
  match flushing s with
  | Some _ => s
  | None =>
      if bool_decide (memtable s = ∅) then s
      else mkColl ∅ ((tables s, memtable s) :: immutables s) (S (tables s)) (progress s)
             (Some (tables s, memtable s, contiguous (progress s))) (c_dir s) (c_wal s)
  end.

(** The rows of a memtable, by id. *)
Definition flush_rows (t : Memtable) : list json :=
  omap (fun id => t !! id) (merge_sort bytes_le (map_to_list t).*1).

Definition collect_row (acc : list json) (row : json) : list json * bool := (acc ++ [row], true).

(** The key a row has in the bloom filter. *)
Definition bloom_keys (rows : list json) : option (list bytes) :=
  foldr (fun r acc => ks ← acc;
                      match json_find (str "id") r with
                      | Some v => k ← id_text v; Some (k :: ks)
                      | None => Some ks
                      end) (Some []) rows.

(** [buildBloomForSST] on a file in the binary format; every error is ignored. *)
Definition buildBloomForSST (io : bloom_io) (d : store) (sst : path) : store :=
  if isBinarySst d sst then
    match scanSst d sst collect_row [] with
    | (Ok rows, d) => match bloom_keys rows with
                      | Some keys => (buildBloom io d sst keys).2
                      | None => d
                      end
    | (Err _, d) => d
    end
  else d.

Definition drop_table (n : nat) (l : list (nat * Memtable)) : list (nat * Memtable) :=
  List.filter (fun t => negb (Nat.eqb t.1 n)) l.

(** The rest of a flush; [replaying] keeps the WAL. *)
Definition flush_end (io : flush_io) (replaying : bool) (s : coll) : result unit * coll :=
  match flushing s with
  | None => (Ok tt, s)
  | Some (n, snapshot, covered) =>
      let s := with_flushing s None in
      if negb (fl_dirs io) then (Err "cannot create storage directory", s)
      else
        let sst := fl_name io in
        let writing := sst ++ str ".writing" in
        match writeSst (fl_sst io) (c_dir s) writing (flush_rows snapshot) sstBlockBytes with
        | (Err _, d) => (Ok tt, with_dir s d)
        | (Ok _, d) =>
            let d := buildBloomForSST (fl_bloom io) d writing in
            match publishFlush (fl_publish io) (fl_finalize io) writing sst covered d with
            | (Err e, d) => (Err e, with_dir s d)
            | (Ok published, d) =>
                let w := if (0 <? published) && negb replaying then (reclaimThrough cfg (fl_reclaim io) (c_wal s) published).2
                         else c_wal s in
                (Ok tt, mkColl (memtable s) (drop_table n (immutables s)) (tables s) (progress s) None d w)
            end
        end
  end.

(** [LSM::flush] without other writers. *)
Definition flush (io : flush_io) (replaying : bool) (s : coll) : result unit * coll :=
  match flushing s with
  | Some _ => (Ok tt, s)
  | None => flush_end io replaying (flush_begin s)
  end.

(** ** Reads *)

(** The text branch of [scanSstRows]. *)
Fixpoint scan_lines {A} (fuel : nat) (cur : bytes) (visitor : A -> json -> A * bool) (acc : A) : result A :=
  match fuel with
  | O => Err "out of fuel"
  | Datatypes.S fuel =>
      match getline cur with
      | None => Ok acc
      | Some ([], rest) => scan_lines fuel rest visitor acc
      | Some (line, rest) =>
          match json_parse line with
          | None => Err "corrupt legacy SST row: "
          | Some j => let '(acc, go) := visitor acc j in if go : bool then scan_lines fuel rest visitor acc else Ok acc
          end
      end
  end.

Definition scanSstRows {A} (d : store) (p : path) (visitor : A -> json -> A * bool) (acc : A) : result A * store :=
  if isBinarySst d p then scanSst d p visitor acc
  else match read_file (st_fs d) p with
       | None => (Err "cannot open legacy SST", d)
       | Some data => (scan_lines (Datatypes.S (length data)) data visitor acc, d)
       end.

Definition merge_visible (e : raft_env) (c : Z) (m : merged) (doc : json) : merged * bool :=
  (if docVisibleByCommitIndex e doc c then mergeLatestById m doc else m, true).

Fixpoint merge_files (e : raft_env) (c : Z) (d : store) (names : list bytes) (m : merged) : result merged * store :=
  match names with
  | [] => (Ok m, d)
  | n :: rest =>
      match scanSstRows d n (merge_visible e c) m with
      | (Err _, d) => (Err "cannot scan SST ", d)
      | (Ok m, d) => merge_files e c d rest m
      end
  end.

(** [LSM::getAll]; [exists_dir] tells whether the directory is there. *)
Definition getAll (e : raft_env) (io : load_io) (listed exists_dir : bool) (s : coll) : result (list json) * coll :=
  let c := re_commitIndex e in
  let finish m := let m := fold_right (fun t m => mergeVisibleMemtableInto e c m t.2) m (immutables s) in
                  let '(latest, noId) := mergeVisibleMemtableInto e c m (memtable s) in
                  List.filter (fun d => negb (isDeletedDoc d)) (noId ++ (map_to_list latest).*2) in
  if exists_dir then
    match publishedSsts io listed (c_dir s) with
    | Err _ => (Err "cannot load published SST set for ", s)
    | Ok names =>
        match merge_files e c (c_dir s) names (∅, []) with
        | (Err m, d) => (Err m, with_dir s d)
        | (Ok m, d) => (Ok (finish m), with_dir s d)
        end
    end
  else (Ok (finish (∅, [])), s).

(** ** Recovery *)

(** The mutations of one log entry. *)
Definition entry_mutations (entry : json) : result (list json) :=
  op ← value as_string entry (str "op") (str "PUT");
  if bytes_eqb op (str "PUT_BATCH") then
    match json_find (str "data") entry with
    | Some (JArray (d :: ds)) => Ok (map (fun d => JObject (json_object [(str "op", JString (str "PUT")); (str "data", d)])) (d :: ds))
    | _ => Err "PUT_BATCH WAL entry has no documents"
    end
  else if bytes_eqb op (str "WAL_BATCH") then
    match json_find (str "mutations") entry with
    | Some (JArray (m :: ms)) => Ok (m :: ms)
    | _ => Err "WAL_BATCH entry has no mutations"
    end
  else Ok [entry].

(** One mutation of the collection [u], [d], [c]: its key and document. *)
Definition mutation_document (u d c : bytes) (mutation : json) : result (bytes * json) :=
  if negb (is_object mutation) then Err "WAL batch mutation is not an object"
  else
    mu ← value as_string mutation (str "userId") u;
    md ← value as_string mutation (str "db") d;
    mc ← value as_string mutation (str "collection") c;
    if negb (bytes_eqb mu u && bytes_eqb md d && bytes_eqb mc c) then Err "WAL batch namespace identity changed"
    else
      op ← value as_string mutation (str "op") (str "PUT");
      document ←
        (if bytes_eqb op (str "DELETE") then
           id ← value as_string mutation (str "id") [];
           if bytes_eqb id [] then Err "DELETE WAL entry has no id"
           else match json_find (str "data") mutation with
                | Some (JObject m) => Ok (JObject m)
                | _ => Ok (JObject (json_object [(str "id", JString id); (str "_deleted", JBool true)]))
                end
         else match json_find (str "data") mutation with
              | Some (JObject m) => Ok (JObject m)
              | _ => Err "mutation WAL entry has no object data"
              end);
      match json_find (str "id") document with
      | None => Err "mutation WAL document has no id"
      | Some v =>
          id ← or_err (id_text v) "type_error.316";
          let document := json_set (str "id") (JString id) document in
          _ ← (if bytes_eqb op (str "DELETE") then Ok tt else validateRecord document);
          Ok (id, document)
      end.

Fixpoint mutation_documents (u d c : bytes) (ms : list json) : result (list (bytes * json)) :=
  match ms with
  | [] => Ok []
  | m :: rest => kd ← mutation_document u d c m; r ← mutation_documents u d c rest; Ok (kd :: r)
  end.

Definition entry_names (entry : json) : result (bytes * bytes * bytes) :=
  if negb (is_object entry) then Err "WAL entry is not an object"
  else
    u ← value as_string entry (str "userId") [];
    d ← value as_string entry (str "db") [];
    c ← value as_string entry (str "collection") [];
    if bytes_eqb u [] || bytes_eqb d [] || bytes_eqb c [] then Err "WAL entry has no namespace identity" else Ok (u, d, c).

(** The locals of [replayCollectionWal]; [rp_flushes] counts the flushes so far. *)
Record replaying := mkReplaying {
  rp_coll : coll; rp_expected : option (bytes * bytes * bytes); rp_covered : Z;
  rp_error : option string; rp_flushes : nat }.

(** The first record names the collection, whose manifest says what is covered. *)
Definition begin_replay (io : load_io) (names : bytes * bytes * bytes) (r : replaying) : result replaying :=
  match rp_expected r with
  | None =>
      let l := manifest_load_file io (c_dir (rp_coll r)) in
      match l with
      | ManifestError _ => Err "invalid recovery manifest: "
      | _ =>
          let covered := match l with ManifestLoaded m => coveredWalLsn m | _ => 0 end in
          let s := rp_coll r in
          Ok (mkReplaying (mkColl (memtable s) (immutables s) (tables s) (mkProgress covered []) (flushing s) (c_dir s) (c_wal s))
                (Some names) covered (rp_error r) (rp_flushes r))
      end
  | Some expected => if bool_decide (names = expected) then Ok r else Err "collection WAL namespace identity changed"
  end.

Definition fail_replay (r : replaying) (e : string) : replaying * bool :=
  (mkReplaying (rp_coll r) (rp_expected r) (rp_covered r) (Some e) (rp_flushes r), false).

Definition replay_record (io : load_io) (fio : nat -> flush_io) (r : replaying) (rec : WalReplayRecord) : replaying * bool :=
  match (names ← entry_names (rr_entry rec); begin_replay io names r) with
  | Err e => fail_replay r e
  | Ok r =>
      let '(u, d, c) := default ([], [], []) (rp_expected r) in
      if rr_lsn rec <=? rp_covered r then (r, true)
      else
        match (ms ← entry_mutations (rr_entry rec); mutation_documents u d c ms) with
        | Err e => fail_replay r e
        | Ok docs =>
            let s := apply_write (rp_coll r) (c_wal (rp_coll r)) docs (Some (rr_lsn rec, rr_lsn rec)) in
            if memtable_full (memtable s) then
              match flush (fio (rp_flushes r)) true s with
              | (Ok _, s) => (mkReplaying s (rp_expected r) (rp_covered r) None (S (rp_flushes r)), true)
              | (Err e, s) => fail_replay (mkReplaying s (rp_expected r) (rp_covered r) None (S (rp_flushes r))) e
              end
            else (mkReplaying s (rp_expected r) (rp_covered r) None (rp_flushes r), true)
        end
  end.

Definition replayCollectionWal (io : load_io) (sio : scan_io) (fio : nat -> flush_io) (rio : reclaim_io) (s : coll)
  : result unit * coll :=
  let scan := scanWalFiles cfg (replay_record io fio) sio (w_disk (c_wal s)) (mkReplaying s None 0 None 0%nat) in
  let r := sc_acc scan in
  let s := rp_coll r in
  match rp_error r with
  | Some _ => (Err "collection WAL replay failed: ", s)
  | None =>
      match sc_status scan with
      | CORRUPT | IO_ERROR => (Err "collection WAL scan failed: ", s)
      | status =>
          match rp_expected r with
          | None => (Ok tt, s)
          | Some _ =>
              match (if bool_decide (memtable s = ∅) then (Ok tt, s) else flush (fio (rp_flushes r)) true s) with
              | (Err e, s) => (Err e, s)
              | (Ok _, s) =>
                  match status, manifest_load_file io (c_dir s) with
                  | ScanOK, ManifestLoaded m => (Ok tt, with_wal s (reclaimThrough cfg rio (c_wal s) (coveredWalLsn m)).2)
                  | _, _ => (Ok tt, s)
                  end
              end
          end
      end
  end.

(** A process that starts on the files of [s]. *)
Definition reopen (s : coll) : coll :=
  mkColl ∅ [] 0 progress_new None (mkStore (st_fs (c_dir s)) ∅ ∅) (mkWal wal_state_new (w_disk (c_wal s)) 0).
End Collection.
