(* ===== verification/LsmLatest.v ===== *)
(** * The newest version of every document

    What a collection means is a map from ids to documents, the newest version
    of each.  Layers (memtables, SSTs, log records) are sets of documents; moving
    documents between layers does not change the map as long as every document
    that goes is covered by one that stays. *)

From S2P Require Import Prelude Json SstQuery LsmDoc.
From stdpp Require Import base list gmap.
From Stdlib Require Import ZArith Lia.

Open Scope Z_scope.

Abbreviation docset := (json -> Prop).

Section Latest.
Context `{JT : JsonText}.

Abbreviation ver d := (extractDocVersionScore d).

(** A document with an id and a version. *)
Definition versioned (d : json) : Prop := is_Some (doc_id d) /\ is_Some (ver d).

(** [d] is there in this or a newer version. *)
Definition covers (D : docset) (d : json) : Prop :=
  exists d', D d' /\ doc_id d' = doc_id d /\ version_le (ver d) (ver d') = true.

(** One document per id and version. *)
Record consistent (D : docset) : Prop := {
  cs_versioned : forall d, D d -> versioned d;
  cs_unique : forall d d', D d -> D d' -> doc_id d = doc_id d' -> ver d = ver d' -> d = d' }.

Definition newest_of (D : docset) (id : bytes) (o : option json) : Prop :=
  match o with
  | Some d => D d /\ doc_id d = Some id /\ forall d', D d' -> doc_id d' = Some id -> version_le (ver d') (ver d) = true
  | None => forall d, D d -> doc_id d <> Some id
  end.

(** [m] is the collection that the documents of [D] make up. *)
Definition represents (D : docset) (m : gmap bytes json) : Prop := forall id, newest_of D id (m !! id).

Lemma version_le_refl v : version_le v v = true.
Proof. destruct v; cbn; [apply Z.leb_refl|reflexivity]. Qed.

Lemma version_le_antisym v w : version_le v w = true -> version_le w v = true -> v = w.
Proof. destruct v, w; cbn; try congruence. rewrite !Z.leb_le. intros. f_equal. lia. Qed.

Lemma covers_in (D : docset) d : D d -> covers D d.
Proof. intros H. exists d. repeat split; [exact H|apply version_le_refl]. Qed.

Lemma covers_mono (D D' : docset) d : (forall x, D x -> covers D' x) -> covers D d -> covers D' d.
Proof.
  intros H (x & Hx & Hid & Hv). destruct (H x Hx) as (y & Hy & Hid' & Hv'). exists y.
  split; [exact Hy|]. split; [congruence|]. exact (version_le_trans _ _ _ Hv Hv').
Qed.

Lemma represents_ext (D D' : docset) m : (forall d, D d <-> D' d) -> represents D m -> represents D' m.
Proof.
  intros H Hr id. specialize (Hr id). destruct (m !! id) as [d|]; cbn in *.
  - destruct Hr as (H1 & H2 & H3). split; [apply H, H1|]. split; [exact H2|]. intros d' Hd'. apply H3, H, Hd'.
  - intros d Hd. apply Hr, H, Hd.
Qed.

Lemma represents_unique D m m' : consistent D -> represents D m -> represents D m' -> m = m'.
Proof.
  intros [_ Hu] H H'. apply map_eq. intros id. specialize (H id). specialize (H' id).
  destruct (m !! id) as [d|], (m' !! id) as [d'|]; cbn in *; try reflexivity.
  - destruct H as (H1 & H2 & H3), H' as (H1' & H2' & H3'). f_equal. apply Hu; try congruence.
    apply version_le_antisym; auto.
  - destruct H as (H1 & H2 & _). destruct (H' d H1 H2).
  - destruct H' as (H1 & H2 & _). destruct (H d' H1 H2).
Qed.

Lemma consistent_sub (D D' : docset) : consistent D -> (forall d, D' d -> D d) -> consistent D'.
Proof. intros [H1 H2] H. split; eauto. Qed.

(** Fewer documents, every one that went covered. *)
Lemma represents_shrink (D D' : docset) m : consistent D -> represents D m ->
  (forall d, D' d -> D d) -> (forall d, D d -> covers D' d) -> represents D' m.
Proof.
  intros [Hv Hu] Hr Hsub Hcov id. specialize (Hr id). destruct (m !! id) as [d|]; cbn in *.
  - destruct Hr as (H1 & H2 & H3). destruct (Hcov d H1) as (d' & Hd' & Hid & Hle).
    assert (d' = d) as -> by (apply Hu; [apply Hsub, Hd'|exact H1|congruence|]; apply version_le_antisym; [apply H3; [apply Hsub, Hd'|congruence]|exact Hle]).
    split; [exact Hd'|]. split; [exact H2|]. intros x Hx. apply H3, Hsub, Hx.
  - intros d Hd. apply Hr, Hsub, Hd.
Qed.

(** Documents already covered add nothing. *)
Lemma represents_grow (D D' : docset) m : represents D m ->
  (forall d, D d -> D' d) -> (forall d, D' d -> covers D d) -> represents D' m.
Proof.
  intros Hr Hsub Hcov id. specialize (Hr id). destruct (m !! id) as [d|]; cbn in *.
  - destruct Hr as (H1 & H2 & H3). split; [apply Hsub, H1|]. split; [exact H2|]. intros x Hx Hid.
    destruct (Hcov x Hx) as (y & Hy & Hid' & Hle). exact (version_le_trans _ _ _ Hle (H3 y Hy ltac:(congruence))).
  - intros d Hd Hid. destruct (Hcov d Hd) as (y & Hy & Hid' & _). apply (Hr y Hy). congruence.
Qed.

(** A newer version of one document. *)
Lemma represents_add (D : docset) m id d : represents D m -> doc_id d = Some id ->
  (forall d', D d' -> doc_id d' = Some id -> version_le (ver d') (ver d) = true) ->
  represents (fun x => D x \/ x = d) (<[id := d]> m).
Proof.
  intros Hr Hid Hnew k. destruct (decide (k = id)) as [->|Hne].
  - rewrite lookup_insert_eq. cbn. split; [auto|]. split; [exact Hid|]. intros x [Hx| ->] Hxid; [auto|apply version_le_refl].
  - rewrite lookup_insert_ne by congruence. specialize (Hr k). destruct (m !! k) as [x|]; cbn in *.
    + destruct Hr as (H1 & H2 & H3). split; [auto|]. split; [exact H2|]. intros y [Hy| ->] Hyid; [auto|congruence].
    + intros y [Hy| ->] Hyid; [exact (Hr y Hy Hyid)|congruence].
Qed.

Lemma consistent_add (D : docset) id d : consistent D -> versioned d -> doc_id d = Some id ->
  (forall d', D d' -> doc_id d' = Some id -> version_le (ver d) (ver d') = false) ->
  consistent (fun x => D x \/ x = d).
Proof.
  intros [Hv Hu] Hd Hid Hnew. split; [intros x [Hx| ->]; auto|]. intros x y [Hx| ->] [Hy| ->] Hxy Hvv; auto.
  - specialize (Hnew x Hx ltac:(congruence)). rewrite Hvv, version_le_refl in Hnew. discriminate.
  - specialize (Hnew y Hy ltac:(congruence)). rewrite Hvv, version_le_refl in Hnew. discriminate.
Qed.

(** ** The merge of the readers computes the newest versions *)

Lemma merge_newest (D : docset) m noId d : represents D m -> is_Some (doc_id d) ->
  exists m', mergeLatestById (m, noId) d = (m', noId) /\ represents (fun x => D x \/ x = d) m'.
Proof.
  intros Hr [id Hid]. unfold mergeLatestById. rewrite Hid. pose proof (Hr id) as Hcur.
  destruct (m !! id) as [cur|] eqn:Ecur; cbn in Hcur.
  - destruct Hcur as (H1 & H2 & H3). rewrite isCandidateNewer_le. destruct (version_le (ver cur) (ver d)) eqn:E.
    + eexists. split; [reflexivity|]. apply represents_add; auto. intros x Hx Hxid. exact (version_le_trans _ _ _ (H3 x Hx Hxid) E).
    + exists m. split; [reflexivity|]. eapply represents_grow; [exact Hr|auto|]. intros x [Hx| ->]; [apply covers_in, Hx|].
      exists cur. split; [exact H1|]. split; [congruence|]. apply version_le_total, E.
  - eexists. split; [reflexivity|]. apply represents_add; auto. intros x Hx Hxid. destruct (Hcur x Hx Hxid).
Qed.

Lemma merge_all_newest docs : forall (D : docset) m noId, represents D m -> Forall (fun d => is_Some (doc_id d)) docs ->
  exists m', fold_left mergeLatestById docs (m, noId) = (m', noId) /\ represents (fun x => D x \/ x ∈ docs) m'.
Proof.
  induction docs as [|d docs IH]; intros D m noId Hr Hf; cbn [fold_left].
  - exists m. split; [reflexivity|]. eapply represents_ext; [|exact Hr]. intros x. rewrite elem_of_nil. tauto.
  - apply Forall_cons in Hf as [Hd Hf]. destruct (merge_newest D m noId d Hr Hd) as (m1 & -> & H1).
    destruct (IH _ m1 noId H1 Hf) as (m' & -> & H'). exists m'. split; [reflexivity|].
    eapply represents_ext; [|exact H']. intros x. cbn. rewrite elem_of_cons. tauto.
Qed.

Lemma represents_empty (D : docset) : (forall d, ~ D d) -> represents D ∅.
Proof. intros H id. rewrite lookup_empty. intros d Hd. destruct (H d Hd). Qed.
End Latest.
