(* ===== verification/LsmCanon.v ===== *)
(** * Documents and their stored form

    A row of an SST and a document of the log come back as [canon] of what was
    written: an integer that is not negative becomes unsigned, a non-finite float
    loses precision.  No reader of the engine can tell the difference: id,
    version, visibility and the tombstone flag are the same, so merging commutes
    with [canon]. *)

From S2P Require Import Prelude Json JsonValue Msgpack Sst SstQuery WalIntegrity Wal WalEntries LsmDoc LsmLatest.
From stdpp Require Import base list gmap strings.
From Stdlib Require Import ZArith Lia.

Open Scope Z_scope.

(** ** [canon] twice *)

Lemma f64_make_fields s e m : 0 <= s < 2 -> 0 <= e < 2048 -> 0 <= m < 2 ^ 52 ->
  f64_sign (f64_make s e m) = s /\ f64_exp (f64_make s e m) = e /\ f64_mant (f64_make s e m) = m.
Proof.
  intros Hs He Hm. unfold f64_sign, f64_exp, f64_mant, f64_make.
  change (2 ^ 63) with (2048 * 2 ^ 52). change (2 ^ 11) with 2048. split_and!.
  - symmetry. apply (Z.div_unique _ _ _ (e * 2 ^ 52 + m)); lia.
  - assert ((s * (2048 * 2 ^ 52) + e * 2 ^ 52 + m) / 2 ^ 52 = s * 2048 + e) as ->.
    { symmetry. apply (Z.div_unique _ _ _ m); lia. }
    symmetry. apply (Z.mod_unique _ _ s); lia.
  - symmetry. apply (Z.mod_unique _ _ (s * 2048 + e)); lia.
Qed.

Lemma lor_nonzero a b : 0 < b -> Z.lor a b <> 0.
Proof. intros Hb H%Z.lor_eq_0_iff. lia. Qed.

(** The mantissa of a non-finite float on its way through 32 bits. *)
Definition kept_mant (m : Z) : Z := if m =? 0 then 0 else Z.lor (m / 2 ^ 29) (2 ^ 22).

Lemma kept_mant_range m : 0 <= m < 2 ^ 52 -> 0 <= kept_mant m < 2 ^ 23.
Proof.
  intros Hm. unfold kept_mant. destruct (m =? 0); [lia|].
  assert (Hd : 0 <= m / 2 ^ 29 < 2 ^ 23) by (split; [apply Z.div_pos; lia|apply Z.div_lt_upper_bound; lia]).
  replace (Z.lor (m / 2 ^ 29) (2 ^ 22)) with (Z.lor (m / 2 ^ 29) (2 ^ 22) mod 2 ^ 23); [apply Z.mod_pos_bound; lia|].
  rewrite <- !Z.land_ones, Z.land_lor_distr_l, !Z.land_ones by lia. f_equal. apply Z.mod_small, Hd.
Qed.

Lemma canon_nonfinite b : 0 <= b < 2 ^ 64 -> f32_widen (f64_narrow_nonfinite b) = f64_make (f64_sign b) 2047 (kept_mant (f64_mant b) * 2 ^ 29).
Proof.
  intros Hb. destruct (f64_fields b Hb) as (Hs & _ & Hm & _). pose proof (kept_mant_range _ Hm) as Hk.
  destruct (f32_fields (f64_sign b) 255 (kept_mant (f64_mant b))) as (E1 & E2 & E3); [lia|lia|exact Hk|].
  unfold f64_narrow_nonfinite. fold (kept_mant (f64_mant b)). unfold f32_widen. rewrite E1, E2, E3, Z.eqb_refl. f_equal.
  destruct (Z.eqb_spec (kept_mant (f64_mant b)) 0) as [->|Hn]; [reflexivity|]. rewrite <- !(Z.shiftl_mul_pow2 _ 29) by lia.
  change (2 ^ 51) with (Z.shiftl (2 ^ 22) 29). rewrite <- Z.shiftl_lor. f_equal. unfold kept_mant in *. destruct (_ =? 0); [contradiction|].
  rewrite <- Z.lor_assoc, Z.lor_diag. reflexivity.
Qed.

(** What is left of a non-finite float is not changed again. *)
Lemma narrow_again b : 0 <= b < 2 ^ 64 -> f64_is_finite b = false ->
  f64_is_finite (f32_widen (f64_narrow_nonfinite b)) = false /\ f64_narrow_nonfinite (f32_widen (f64_narrow_nonfinite b)) = f64_narrow_nonfinite b.
Proof.
  intros Hb Ef. destruct (f64_fields b Hb) as (Hs & _ & Hm & _). pose proof (kept_mant_range _ Hm) as Hk. rewrite (canon_nonfinite b Hb).
  set (s := f64_sign b) in *. set (m := f64_mant b) in *.
  destruct (f64_make_fields s 2047 (kept_mant m * 2 ^ 29)) as (F1 & F2 & F3); [lia|lia|lia|].
  split; [unfold f64_is_finite; rewrite F2; reflexivity|]. unfold f64_narrow_nonfinite. rewrite F1, F3. fold s m. f_equal. rewrite Z.div_mul by lia. fold (kept_mant m).
  unfold kept_mant. destruct (Z.eqb_spec m 0) as [->|Hn]; [reflexivity|].
  destruct (Z.eqb_spec (Z.lor (m / 2 ^ 29) (2 ^ 22) * 2 ^ 29) 0) as [H0|_]; [|rewrite <- Z.lor_assoc, Z.lor_diag; reflexivity].
  exfalso. apply (lor_nonzero (m / 2 ^ 29) (2 ^ 22)); lia.
Qed.

Lemma canon_float_idem b : 0 <= b < 2 ^ 64 -> canon_float (canon_float b) = canon_float b.
Proof.
  intros Hb. unfold canon_float at 2 3. destruct (f64_is_finite b) eqn:Ef; [unfold canon_float; rewrite Ef; reflexivity|].
  destruct (narrow_again b Hb Ef) as [H1 H2]. unfold canon_float. rewrite H1, H2. reflexivity.
Qed.

(** MessagePack does not tell a value from its stored form. *)
Lemma to_msgpack_canon j : json_wf j -> to_msgpack (canon j) = to_msgpack j.
Proof.
  unfold to_msgpack. induction j using json_ind'; intros Hwf; cbn [canon]; try reflexivity.
  - cbn [write_msgpack]. unfold write_integer. destruct (Z.leb_spec 0 z); [reflexivity|]. cbn [write_msgpack]. unfold write_integer.
    destruct (Z.leb_spec 0 z); [lia|reflexivity].
  - cbn [write_msgpack]. unfold canon_float. destruct (f64_is_finite z) eqn:Ef; [reflexivity|].
    destruct (narrow_again z Hwf Ef) as [H1 H2]. unfold write_compact_float. rewrite Ef, H1, H2. reflexivity.
  - apply json_wf_array in Hwf as [_ Hl]. cbn [write_msgpack]. rewrite length_map, !flat_map_concat_map, map_map. do 2 f_equal.
    apply map_ext_in. intros x Hx%list_elem_of_In. rewrite Forall_forall in H, Hl. auto.
  - apply json_wf_object in Hwf as (_ & _ & Hm). cbn [write_msgpack]. rewrite length_map, !flat_map_concat_map, map_map. do 2 f_equal.
    apply map_ext_in. intros x Hx%list_elem_of_In. cbn. rewrite Forall_forall in H, Hm. rewrite H; [reflexivity|exact Hx|apply Hm, Hx].
Qed.

Lemma canon_idem j : json_wf j -> canon (canon j) = canon j.
Proof.
  induction j using json_ind'; intros Hwf; cbn [canon]; try reflexivity.
  - destruct (Z.leb_spec 0 z); [reflexivity|]. cbn [canon]. destruct (Z.leb_spec 0 z); [lia|reflexivity].
  - rewrite canon_float_idem by exact Hwf. reflexivity.
  - apply json_wf_array in Hwf as [_ Hl]. f_equal. rewrite map_map. apply map_ext_in. intros x Hx%list_elem_of_In.
    rewrite Forall_forall in H, Hl. auto.
  - apply json_wf_object in Hwf as (_ & _ & Hm). f_equal. rewrite map_map. apply map_ext_in. intros x Hx%list_elem_of_In. cbn.
    rewrite Forall_forall in H, Hm. rewrite H; [reflexivity|exact Hx|apply Hm, Hx].
Qed.

Lemma json_wf_canon j : json_wf j -> json_wf (canon j).
Proof.
  induction j using json_ind'; intros Hwf; cbn [canon]; try exact Hwf.
  - cbn in Hwf. destruct (Z.leb_spec 0 z); cbn; unfold I64_MAX, I64_MIN, U64_MAX in *; lia.
  - cbn in Hwf |- *. unfold canon_float. destruct (f64_is_finite z); [exact Hwf|].
    rewrite canon_nonfinite by exact Hwf. destruct (f64_fields z Hwf) as (Hs & _ & Hm & _). pose proof (kept_mant_range _ Hm). unfold f64_make. lia.
  - apply json_wf_array in Hwf as [Hn Hl]. apply json_wf_array. rewrite length_map. split; [exact Hn|]. apply Forall_map.
    rewrite Forall_forall in *. intros x Hx. auto.
  - apply json_wf_object in Hwf as (Hn & Hs & Hm). change (json_wf (JObject (map canon_kv m))). apply json_wf_object. rewrite length_map.
    split; [exact Hn|]. split; [apply obj_sorted_canon, Hs|]. apply Forall_map. rewrite Forall_forall in *. intros x Hx. cbn. split; [apply Hm, Hx|apply H; [exact Hx|apply Hm, Hx]].
Qed.

Lemma canon_find k d : json_find k (canon d) = canon <$> json_find k d.
Proof. destruct d; try reflexivity; [cbn; destruct (_ <=? _); reflexivity|]. rewrite canon_object. apply obj_find_canon. Qed.

Lemma field_canon d n : documentField (canon d) n = canon <$> documentField d n.
Proof. apply canon_find. Qed.

Lemma is_object_canon d : is_object (canon d) = is_object d.
Proof. destruct d; try reflexivity. cbn. destruct (_ <=? _); reflexivity. Qed.

(** ** What the readers see *)

Section Steady.
Context `{JT : JsonText}.

(** The stored form of [d] reads as [d]. *)
Record steady (d : json) : Prop := {
  sd_id : doc_id (canon d) = doc_id d;
  sd_version : extractDocVersionScore (canon d) = extractDocVersionScore d;
  sd_visible : forall e c, docVisibleByCommitIndex e (canon d) c = docVisibleByCommitIndex e d c;
  sd_deleted : isDeletedDoc (canon d) = isDeletedDoc d }.

Lemma first_version_canon d names : json_wf d -> first_version (documentField (canon d)) names = first_version (documentField d) names.
Proof.
  intros Hwf. induction names as [|n names IH]; cbn [first_version]; [reflexivity|]. rewrite field_canon.
  destruct (documentField d n) as [v|] eqn:E; cbn [fmap option_fmap option_map]; [|exact IH].
  replace (version_of (canon v)) with (version_of v); [rewrite IH; reflexivity|]. pose proof (find_wf n d v Hwf E) as Hv.
  destruct v as [|b|z|z|z|s|o b|l|m]; try reflexivity. cbn [canon]. destruct (Z.leb_spec 0 z); [|reflexivity]. cbn in Hv |- *.
  unfold to_signed. destruct (Z.ltb_spec z (2 ^ (64 - 1))); [reflexivity|]. unfold I64_MAX in Hv. lia.
Qed.

Lemma index_canon v : (is_number_integer (canon v) || is_number_unsigned (canon v)) = (is_number_integer v || is_number_unsigned v) /\
  get_u64 (canon v) = get_u64 v.
Proof. destruct v; try (split; reflexivity). cbn. destruct (_ <=? _); split; reflexivity. Qed.

Lemma first_index_canon d names : first_index (documentField (canon d)) names = first_index (documentField d) names.
Proof.
  induction names as [|n names IH]; cbn [first_index]; [reflexivity|]. rewrite field_canon.
  destruct (documentField d n) as [v|]; cbn [fmap option_fmap option_map]; [|exact IH].
  destruct (index_canon v) as [-> ->]. rewrite IH. reflexivity.
Qed.

Lemma first_string_canon d names : first_string (documentField (canon d)) names = first_string (documentField d) names.
Proof.
  induction names as [|n names IH]; cbn [first_string]; [reflexivity|]. rewrite field_canon.
  destruct (documentField d n) as [[]|]; cbn; try exact IH; try reflexivity. destruct (_ <=? _); exact IH.
Qed.

Lemma visible_canon e d c : docVisibleByCommitIndex e (canon d) c = docVisibleByCommitIndex e d c.
Proof.
  unfold docVisibleByCommitIndex, fieldsVisibleByCommitIndex, fieldsHaveVisibleCommitState, fieldsRowCommitIndex.
  rewrite is_object_canon, first_string_canon, first_index_canon. f_equal.
  assert (Hs : forall n (f : bytes -> bool), match documentField (canon d) n with Some (JString s) => f s | _ => true end =
    match documentField d n with Some (JString s) => f s | _ => true end).
  { intros n f. unfold documentField. rewrite canon_find. destruct (json_find n d) as [[]|]; cbn; try reflexivity. destruct (_ <=? _); reflexivity. }
  rewrite Hs. f_equal.
  assert (Hb : match documentField (canon d) (str "committed") with Some (JBool b) => b | _ => true end =
    match documentField d (str "committed") with Some (JBool b) => b | _ => true end).
  { unfold documentField. rewrite canon_find. destruct (json_find _ d) as [[]|]; cbn; try reflexivity. destruct (_ <=? _); reflexivity. }
  rewrite Hb. destruct (standaloneRaftVisibilityBypass e); [reflexivity|]. destruct (first_index (documentField d) _) as [row|]; [|reflexivity].
  unfold documentField. rewrite canon_find. destruct (json_find (str "_visibility_floor") d) as [v|]; cbn [fmap option_fmap option_map]; [|reflexivity].
  destruct (index_canon v) as [-> ->]. reflexivity.
Qed.

Lemma deleted_canon d : isDeletedDoc (canon d) = isDeletedDoc d.
Proof. unfold isDeletedDoc. rewrite canon_find. destruct (json_find _ d) as [[]|]; cbn; try reflexivity. destruct (_ <=? _); reflexivity. Qed.

(** A document as the engine stores it: within machine ranges, with a text as id. *)
Definition plain (id : bytes) (d : json) : Prop := json_wf d /\ json_find (str "id") d = Some (JString id) /\ id <> [].

Lemma plain_id id d : plain id d -> doc_id d = Some id.
Proof. intros (_ & H & Hne). unfold doc_id. rewrite H. cbn [id_text]. destruct id; [contradiction|reflexivity]. Qed.

Lemma plain_steady id d : plain id d -> steady d.
Proof.
  intros Hp. pose proof Hp as (Hwf & Hid & _). split; [|unfold extractDocVersionScore; rewrite is_object_canon, first_version_canon by exact Hwf; reflexivity
    |intros; apply visible_canon|apply deleted_canon].
  unfold doc_id. rewrite canon_find, Hid. reflexivity.
Qed.

Lemma canonical_steady d : canon d = d -> steady d.
Proof. intros H. split; intros; rewrite H; reflexivity. Qed.

(** ** Merging commutes with [canon] *)

Lemma merge_canon m noId d m' : (forall id x, m !! id = Some x -> steady x) -> steady d -> is_Some (doc_id d) ->
  mergeLatestById (m, noId) d = (m', noId) ->
  mergeLatestById (canon <$> m, noId) (canon d) = (canon <$> m', noId) /\ (forall id x, m' !! id = Some x -> steady x).
Proof.
  intros Hm Hd [id Hid]. unfold mergeLatestById. rewrite (sd_id _ Hd), Hid, lookup_fmap.
  assert (Hins : forall k x, <[id := d]> m !! k = Some x -> steady x).
  { intros k x. rewrite lookup_insert_Some. intros [[_ <-]|[_ Hx]]; eauto. }
  destruct (m !! id) as [cur|] eqn:E; cbn [fmap option_fmap option_map].
  - assert (Hc : isCandidateNewer (canon d) (canon cur) = isCandidateNewer d cur)
      by (unfold isCandidateNewer; rewrite (sd_version _ Hd), (sd_version _ (Hm _ _ E)); reflexivity).
    rewrite Hc. destruct (isCandidateNewer d cur); intros [= <-]; rewrite ?fmap_insert; auto.
  - intros [= <-]. rewrite fmap_insert. auto.
Qed.

Lemma merge_all_canon docs : forall (D : docset) m noId, (forall id x, m !! id = Some x -> steady x) ->
  Forall (fun d => steady d /\ is_Some (doc_id d)) docs -> represents D (canon <$> m) ->
  exists m', fold_left mergeLatestById docs (m, noId) = (m', noId) /\ (forall id x, m' !! id = Some x -> steady x) /\
    represents (fun x => D x \/ x ∈ map canon docs) (canon <$> m').
Proof.
  induction docs as [|d docs IH]; intros D m noId Hm Hf Hr; cbn [fold_left map].
  - exists m. split; [reflexivity|]. split; [exact Hm|]. eapply represents_ext; [|exact Hr]. intros x. rewrite elem_of_nil. tauto.
  - apply Forall_cons in Hf as [[Hs Hid] Hf].
    assert (Hex : exists m1, mergeLatestById (m, noId) d = (m1, noId)).
    { destruct Hid as [id Hid]. unfold mergeLatestById. rewrite Hid. destruct (m !! id); [destruct (isCandidateNewer _ _)|]; eauto. }
    destruct Hex as [m1 E1]. rewrite E1. destruct (merge_canon m noId d m1 Hm Hs Hid E1) as [E2 H1].
    destruct (merge_newest D (canon <$> m) noId (canon d) Hr) as (m2 & E3 & H3); [rewrite (sd_id _ Hs); exact Hid|].
    rewrite E2 in E3. injection E3 as <-. destruct (IH _ m1 noId H1 Hf H3) as (m' & -> & H' & Hr'). exists m'. split; [reflexivity|].
    split; [exact H'|]. eapply represents_ext; [|exact Hr']. intros x. cbn. rewrite elem_of_cons. tauto.
Qed.
End Steady.
