(* ===== verification/LsmReads.v ===== *)
(** * Reading a collection (lsm.cpp, [getAll])

    The layers of a collection as sets of documents, and [getAll] as the map of
    the newest versions. *)

From S2P Require Import Prelude FileSys Json JsonValue Msgpack RowView Checksum Store Sst SstCursor SstQuery Bloom WalIntegrity Wal.
From S2P Require Import LsmManifest LsmProgress LsmDoc LsmCollection LsmLatest LsmCanon.
From stdpp Require Import base list gmap sorting strings.
From Stdlib Require Import ZArith Lia.

Open Scope Z_scope.

Section Reads.
Context `{JT : JsonText} `{LZ : Lz4}.

(** ** Files *)

(** Scanning the file hands out [rows], under whatever name, with the cache
    coherent before and after. *)
Definition sst_holds (f : file) (rows : list json) : Prop :=
  forall d n, sst_coherent d -> st_fs d !! n = Some f ->
  forall A (visitor : A -> json -> A * bool) acc,
    (scanSstRows d n visitor acc).1 = Ok (visit_all visitor rows acc).1 /\
    st_fs (scanSstRows d n visitor acc).2 = st_fs d /\ sst_coherent (scanSstRows d n visitor acc).2.

(** The published names and the rows of each file. *)
Definition holds (d : store) (names : list bytes) (rowss : list (list json)) : Prop :=
  Forall2 (fun n rows => exists f, st_fs d !! n = Some f /\ sst_holds f rows) names rowss.

Lemma holds_ext d d' names rowss : (forall n, n ∈ names -> st_fs d' !! n = st_fs d !! n) -> holds d names rowss -> holds d' names rowss.
Proof.
  intros Hn H. induction H as [|n rows names rowss (f & Hf & Hh) H IH]; constructor.
  - exists f. split; [|exact Hh]. rewrite Hn by left. exact Hf.
  - apply IH. intros k Hk. apply Hn. right. exact Hk.
Qed.

Lemma visit_merge_visible e c rows : forall m, visit_all (merge_visible e c) rows m =
  (fold_left mergeLatestById (List.filter (fun d => docVisibleByCommitIndex e d c) rows) m, true).
Proof.
  induction rows as [|r rows IH]; intros m; cbn [visit_all List.filter fold_left]; [reflexivity|].
  unfold merge_visible at 1. destruct (docVisibleByCommitIndex e r c); cbn [fold_left]; apply IH.
Qed.

Lemma merge_files_holds e c names rowss : forall d m, sst_coherent d -> holds d names rowss ->
  let '(r, d') := merge_files e c d names m in
  r = Ok (fold_left mergeLatestById (List.filter (fun d => docVisibleByCommitIndex e d c) (concat rowss)) m) /\
  st_fs d' = st_fs d /\ sst_coherent d'.
Proof.
  intros d m Hc H. revert d m Hc H. revert rowss. induction names as [|n names IH]; intros rowss d m Hc H; cbn [merge_files].
  - inversion H; subst. auto.
  - inversion H as [|? rows ? rowss' (f & Hf & Hh) H' Hn Hr]; subst. destruct (Hh d n Hc Hf _ (merge_visible e c) m) as (H1 & H2 & H3).
    destruct (scanSstRows d n (merge_visible e c) m) as [r d1]. cbn [fst snd] in *. rewrite visit_merge_visible in H1. subst r. cbn [fst].
    assert (H1' : holds d1 names rowss') by (eapply holds_ext; [|exact H']; intros; rewrite H2; reflexivity).
    specialize (IH rowss' d1 (fold_left mergeLatestById (List.filter (fun d0 => docVisibleByCommitIndex e d0 c) rows) m) H3 H1').
    destruct (merge_files e c d1 names _) as [r d']. destruct IH as (-> & I2 & I3). split; [|split; [congruence|exact I3]].
    cbn [concat]. rewrite List.filter_app, fold_left_app. reflexivity.
Qed.

(** ** Layers *)

(** The documents of a memtable, in their stored form. *)
Definition in_table (t : Memtable) : docset := fun d => exists k x, t !! k = Some x /\ d = canon x.

Definition steady_table (t : gmap bytes json) : Prop := forall k x, t !! k = Some x -> steady x.

Definition in_memory (s : coll) : docset := fun d =>
  in_table (memtable s) d \/ exists t, t ∈ immutables s /\ in_table t.2 d.

Lemma in_empty d : ~ in_table ∅ d.
Proof. intros (k & x & H & _). exact (lookup_empty_Some (M := gmap bytes) k x H). Qed.

(** The rows of the published files. *)
Definition on_disk (d : store) (names : list bytes) : docset := fun x =>
  exists n f rows, n ∈ names /\ st_fs d !! n = Some f /\ sst_holds f rows /\ x ∈ rows.

Definition files_ok (d : store) (names : list bytes) : Prop :=
  forall n, n ∈ names -> exists f rows, st_fs d !! n = Some f /\ sst_holds f rows /\ Forall (fun r => canon r = r) rows.

Definition all_docs (s : coll) (names : list bytes) : docset := fun d => on_disk (c_dir s) names d \/ in_memory s d.

Lemma empty_coherent fs : sst_coherent (mkStore fs ∅ ∅).
Proof. intros p v f Hp. cbn in Hp. rewrite lookup_empty in Hp. discriminate. Qed.

(** The rows of a file are determined by it. *)
Lemma sst_holds_unique f rows rows' : sst_holds f rows -> sst_holds f rows' -> rows = rows'.
Proof.
  intros H H'. set (d := mkStore {[ [] := f ]} ∅ ∅). assert (Hf : st_fs d !! [] = Some f) by apply lookup_singleton_eq.
  pose proof (proj1 (H d [] (empty_coherent _) Hf _ collect_row [])) as E. rewrite (proj1 (H' d [] (empty_coherent _) Hf _ collect_row [])) in E.
  apply Ok_inj in E. assert (Hc : forall l acc, (visit_all collect_row l acc).1 = acc ++ l).
  { induction l as [|r l IH]; intros acc; cbn; [rewrite app_nil_r; reflexivity|]. rewrite IH, <- app_assoc. reflexivity. }
  rewrite !Hc in E. symmetry. exact E.
Qed.

Lemma files_ok_holds d names : files_ok d names ->
  exists rowss, holds d names rowss /\ Forall (fun r => canon r = r) (concat rowss) /\ forall x, x ∈ concat rowss <-> on_disk d names x.
Proof.
  induction names as [|n names IH]; intros H.
  - exists []. split; [constructor|]. split; [constructor|]. intros x. cbn. rewrite elem_of_nil. split; [tauto|]. intros (n & f & rows & Hn & _). inversion Hn.
  - destruct (H n ltac:(left)) as (f & rows & Hf & Hh & Hcn). destruct IH as (rowss & H1 & H0 & H2); [intros k Hk; apply H; right; exact Hk|].
    exists (rows :: rowss). split; [constructor; eauto|]. split; [apply Forall_app; auto|]. intros x. cbn [concat]. rewrite elem_of_app, H2. split.
    + intros [Hx|(k & g & r & Hk & Hg)]; [exists n, f, rows; split; [left|auto]|exists k, g, r; split; [right; exact Hk|exact Hg]].
    + intros (k & g & r & Hk & Hg & Hr & Hx). apply elem_of_cons in Hk as [->|Hk]; [|right; exists k, g, r; auto].
      left. rewrite Hf in Hg. injection Hg as <-. rewrite (sst_holds_unique f rows r Hh Hr). exact Hx.
Qed.

Lemma elem_table_docs t d : d ∈ map canon (table_docs t) <-> in_table t d.
Proof.
  unfold table_docs, in_table. rewrite list_elem_of_In, in_map_iff. setoid_rewrite <- list_elem_of_In. split.
  - intros (x & <- & H). apply list_elem_of_fmap in H as ([k y] & -> & H%elem_of_map_to_list). eauto.
  - intros (k & x & H & ->). exists x. split; [reflexivity|]. apply list_elem_of_fmap. exists (k, x). split; [reflexivity|]. apply elem_of_map_to_list, H.
Qed.

Lemma elem_docs_table t x : x ∈ table_docs t -> exists k, t !! k = Some x.
Proof. intros H. apply list_elem_of_fmap in H as ([k y] & -> & H%elem_of_map_to_list). eauto. Qed.

Lemma filter_all {A} (p : A -> bool) l : Forall (fun x => p x = true) l -> List.filter p l = l.
Proof. induction 1 as [|x l Hx H IH]; cbn; [reflexivity|]. rewrite Hx, IH. reflexivity. Qed.

(** What the readers ask of the documents of a table. *)
Definition readable_table (e : raft_env) (c : Z) (t : Memtable) : Prop := steady_table t /\
  forall d, in_table t d -> is_Some (doc_id d) /\ docVisibleByCommitIndex e d c = true.

Lemma merge_table e c (D : docset) m noId t : steady_table m -> represents D (canon <$> m) -> readable_table e c t ->
  exists m', mergeVisibleMemtableInto e c (m, noId) t = (m', noId) /\ steady_table m' /\
    represents (fun x => D x \/ in_table t x) (canon <$> m').
Proof.
  intros Hm Hr [Hs Ht]. unfold mergeVisibleMemtableInto.
  assert (Hall : forall x, x ∈ table_docs t -> steady x /\ is_Some (doc_id x) /\ docVisibleByCommitIndex e x c = true).
  { intros x Hx. destruct (elem_docs_table t x Hx) as [k Hk]. pose proof (Hs k x Hk) as Hst. split; [exact Hst|].
    rewrite <- (sd_id _ Hst), <- (sd_visible _ Hst e c). apply Ht. exists k, x. auto. }
  rewrite filter_all by (apply Forall_forall; intros x Hx; apply Hall, Hx).
  destruct (merge_all_canon (table_docs t) D m noId Hm) as (m' & H1 & H2 & H3);
    [apply Forall_forall; intros x Hx; destruct (Hall x Hx) as (? & ? & _); auto|exact Hr|].
  exists m'. split; [exact H1|]. split; [exact H2|]. eapply represents_ext; [|exact H3]. intros d. cbn. rewrite elem_table_docs. reflexivity.
Qed.

Lemma merge_tables e c (ts : list (nat * Memtable)) : forall (D : docset) m noId, steady_table m -> represents D (canon <$> m) ->
  (forall t, t ∈ ts -> readable_table e c t.2) ->
  exists m', fold_right (fun t m => mergeVisibleMemtableInto e c m t.2) (m, noId) ts = (m', noId) /\ steady_table m' /\
    represents (fun x => D x \/ exists t, t ∈ ts /\ in_table t.2 x) (canon <$> m').
Proof.
  induction ts as [|t ts IH]; intros D m noId Hm Hr Ht; cbn [fold_right].
  - exists m. split; [reflexivity|]. split; [exact Hm|]. eapply represents_ext; [|exact Hr]. intros d. split; [auto|]. intros [?|(t & Hin & _)]; [auto|]. inversion Hin.
  - destruct (IH D m noId Hm Hr) as (m1 & -> & Hm1 & H1); [intros t' Hin; apply Ht; right; exact Hin|].
    destruct (merge_table e c _ m1 noId t.2 Hm1 H1) as (m2 & -> & Hm2 & H2); [apply Ht; left|].
    exists m2. split; [reflexivity|]. split; [exact Hm2|]. eapply represents_ext; [|exact H2]. intros d. cbn. split.
    + intros [[?|(t' & Hin & Hd)]|Hd]; [auto|right; exists t'; split; [right; exact Hin|exact Hd]|right; exists t; split; [left|exact Hd]].
    + intros [?|(t' & Hin & Hd)]; [auto|]. apply elem_of_cons in Hin as [->|Hin]; [auto|]. left. right. eauto.
Qed.

(** The names a directory publishes: those of its manifest, or none. *)
Definition listed (d : store) (names : list bytes) : Prop :=
  match manifest_load_file load_good d with
  | ManifestLoaded m => names = sstFiles m
  | ManifestAbsent => names = [] /\ forall n, sst_name n -> st_fs d !! n = None
  | ManifestError _ => False
  end.

Lemma listed_published d names : listed d names -> publishedSsts load_good true d = Ok names.
Proof.
  unfold listed, publishedSsts. destruct (manifest_load_file load_good d) as [|m|]; [|intros ->; reflexivity|tauto].
  intros [-> Hn]. replace (List.filter _ _) with (@nil bytes); [reflexivity|].
  destruct (List.filter _ _) as [|n l] eqn:E; [reflexivity|]. exfalso.
  assert (Hin : In n (List.filter (fun n => bytes_eqb (extension n) (str ".sst")) (map_to_list (st_fs d)).*1)) by (rewrite E; left; reflexivity).
  apply filter_In in Hin as [Hin Hx%bytes_eqb_eq]. apply list_elem_of_In, list_elem_of_fmap in Hin as ([k f] & -> & Hk%elem_of_map_to_list).
  cbn in Hx. rewrite (Hn k Hx) in Hk. discriminate.
Qed.

(** ** [getAll] *)

(** What the state of a collection is worth to its readers. *)
Record reads_as (e : raft_env) (s : coll) (names : list bytes) (spec : gmap bytes json) : Prop := {
  ra_coherent : sst_coherent (c_dir s);
  ra_listed : listed (c_dir s) names;
  ra_files : files_ok (c_dir s) names;
  ra_steady : steady_table (memtable s) /\ forall t, t ∈ immutables s -> steady_table t.2;
  ra_consistent : consistent (all_docs s names);
  ra_visible : forall d, all_docs s names d -> docVisibleByCommitIndex e d (re_commitIndex e) = true;
  ra_spec : represents (all_docs s names) spec }.

(** The documents a reader gets for the collection [spec], in their stored form. *)
Definition live (spec : gmap bytes json) : list json := List.filter (fun d => negb (isDeletedDoc d)) (map_to_list spec).*2.

Lemma live_canon (m : gmap bytes json) : steady_table m -> map canon (live m) = live (canon <$> m).
Proof.
  intros Hm. unfold live. rewrite map_to_list_fmap.
  assert (Hall : Forall (fun kx : bytes * json => steady kx.2) (map_to_list m)).
  { apply Forall_forall. intros [k x] H%elem_of_map_to_list. exact (Hm k x H). }
  revert Hall. generalize (map_to_list m). intros l. induction 1 as [|[k x] l Hx H IH]; [reflexivity|].
  cbn [fmap list_fmap List.filter snd prod_map fst] in *. rewrite (sd_deleted _ Hx). destruct (isDeletedDoc x); cbn [negb map]; rewrite IH; reflexivity.
Qed.

Lemma getAll_newest e s names spec : reads_as e s names spec ->
  exists docs, (getAll e load_good true true s).1 = Ok docs /\ map canon docs = live spec.
Proof.
  intros [Hc Hl Hf [Hs1 Hs2] Hcs Hv Hr]. unfold getAll. rewrite (listed_published _ _ Hl).
  destruct (files_ok_holds _ _ Hf) as (rowss & Hh & Hcn & Hrows).
  pose proof (merge_files_holds e (re_commitIndex e) names rowss (c_dir s) (∅, []) Hc Hh) as Hm.
  destruct (merge_files e (re_commitIndex e) (c_dir s) names (∅, [])) as [r d']. destruct Hm as (-> & _ & _). cbn [fst].
  assert (Hid : forall d, all_docs s names d -> is_Some (doc_id d)) by (intros d Hd; apply (cs_versioned _ Hcs d Hd)).
  assert (Hin : forall d, d ∈ concat rowss -> all_docs s names d) by (intros d Hd; left; apply Hrows, Hd).
  rewrite filter_all by (apply Forall_forall; intros d Hd; apply Hv, Hin, Hd). rewrite Forall_forall in Hcn.
  destruct (merge_all_canon (concat rowss) (fun _ => False) ∅ []) as (m1 & -> & Hm1 & H1).
  { intros k x Hx. destruct (lookup_empty_Some (M := gmap bytes) k x Hx). }
  { apply Forall_forall. intros d Hd. split; [apply canonical_steady, Hcn, Hd|apply Hid, Hin, Hd]. }
  { rewrite fmap_empty. apply represents_empty. tauto. }
  destruct (merge_tables e (re_commitIndex e) (immutables s) _ m1 [] Hm1 H1) as (m2 & -> & Hm2 & H2).
  { intros t Ht. split; [apply Hs2, Ht|]. intros d Hd. assert (Ha : all_docs s names d) by (right; right; eauto). auto. }
  destruct (merge_table e (re_commitIndex e) _ m2 [] (memtable s) Hm2 H2) as (m3 & -> & Hm3 & H3).
  { split; [exact Hs1|]. intros d Hd. assert (Ha : all_docs s names d) by (right; left; exact Hd). auto. }
  cbn [app]. eexists. split; [reflexivity|]. change (map canon (live m3) = live spec). rewrite live_canon by exact Hm3. f_equal.
  eapply represents_unique; [exact Hcs| |exact Hr]. eapply represents_ext; [|exact H3].
  assert (Hmap : map canon (concat rowss) = concat rowss).
  { rewrite <- (map_id (concat rowss)) at 2. apply map_ext_in. intros x Hx%list_elem_of_In. apply Hcn, Hx. }
  intros d. unfold all_docs, in_memory. cbn. rewrite Hmap, <- Hrows. tauto.
Qed.

(** [getAll] over the published SSTs, the memtables being flushed and the
    memtable returns exactly one document per id, the newest version over all
    layers, and none whose newest version is a tombstone. *)
Theorem getAll_returns_newest e s names spec : reads_as e s names spec ->
  exists docs, (getAll e load_good true true s).1 = Ok docs /\ map canon docs = live spec.
Proof. apply getAll_newest. Qed.
End Reads.
