(* ===== verification/LsmFlush.v ===== *)
(** * Flushing a memtable (lsm.cpp, [LSM::flush])

    What each step of a flush does to the directory, and that a flush, whatever
    fails in it, leaves the collection what it was. *)

From S2P Require Import Prelude FileSys Json JsonValue Msgpack RowView Checksum Store Sst SstCursor SstQuery Bloom WalIntegrity Wal.
From S2P Require Import LsmManifest LsmProgress LsmDoc LsmCollection LsmLatest LsmCanon LsmReads.
From stdpp Require Import base list gmap sorting strings.
From Stdlib Require Import ZArith Lia.

Open Scope Z_scope.

Section Flush.
Context `{JT : JsonText} `{LZ : Lz4} `{LZC : !Lz4Correct}.

(** ** Written files *)

Lemma image_holds m target groups rows : 0 <= target < 2 ^ 32 -> readable groups -> concat groups = rows -> Forall json_wf rows ->
  sst_holds (mkFile m (sst_image target groups)) (map canon rows).
Proof.
  intros Ht Hr <- Hwf d n Hc Hf A visitor acc. unfold scanSstRows. rewrite (isBinarySst_written _ _ _ _ _ Hf).
  unfold scanSst. edestruct (scanSstViews_written (S := A)) as [H1 H2]; [exact Hc|exact Ht|exact Hr|exact Hf|].
  rewrite H1, visit_rows_json by exact Hwf. split; [reflexivity|]. split; [|exact H2].
  unfold scanSstViews. destruct (loadMetadata_file d n _ Hc Hf) as (_ & H3 & _). destruct (loadMetadata d n) as [[] d']; exact H3.
Qed.

(** ** What a flush may touch *)

(** The files of a new SST, and the manifest. *)
Definition near (sst q : bytes) : Prop := is_prefix sst q = true \/ q = kManifestName \/ q = kTempName.

Definition targets (sst : bytes) : list bytes := [sst; sst ++ str ".bloom"; sst ++ str ".sidx"; kManifestName; kTempName].

(** Only files near [sst] changed, and only the targets were created. *)
Record frame (sst : bytes) (d d' : store) : Prop := {
  fr_cache : g_sstCache d' = g_sstCache d;
  fr_far : forall q, ~ near sst q -> st_fs d' !! q = st_fs d !! q;
  fr_kept : forall q, q ∉ targets sst -> st_fs d' !! q = st_fs d !! q \/ st_fs d' !! q = None }.

Lemma frame_refl sst d : frame sst d d.
Proof. split; auto. Qed.

Lemma frame_trans sst d1 d2 d3 : frame sst d1 d2 -> frame sst d2 d3 -> frame sst d1 d3.
Proof.
  intros [A1 A2 A3] [B1 B2 B3]. split; [congruence|intros q Hq; rewrite B2, A2 by exact Hq; reflexivity|].
  intros q Hq. destruct (A3 q Hq) as [E|E], (B3 q Hq) as [E'|E']; rewrite E', ?E; auto.
Qed.

Lemma frame_set sst d fs : (forall q, ~ near sst q -> fs !! q = st_fs d !! q) ->
  (forall q, q ∉ targets sst -> fs !! q = st_fs d !! q \/ fs !! q = None) -> frame sst d (set_files d fs).
Proof. intros H1 H2. split; [reflexivity|exact H1|exact H2]. Qed.

Lemma frame_move sst d a b : near sst a -> b ∈ targets sst -> near sst b -> frame sst d (move_file d a b).
Proof.
  intros Ha Hb Hb'. unfold move_file. destruct (st_fs d !! a) as [f|]; [|apply frame_refl]. apply frame_set.
  - intros q Hq. rewrite lookup_delete_ne, lookup_insert_ne by (intros <-; contradiction). reflexivity.
  - intros q Hq. destruct (decide (q = a)) as [->|Hne]; [rewrite lookup_delete_eq; auto|].
    rewrite lookup_delete_ne, lookup_insert_ne; [auto|intros ->; contradiction|congruence].
Qed.

Lemma foldr_delete_lookup (names : list bytes) (fs : fsys) (q : bytes) :
  (foldr (delete (M := fsys)) fs names) !! q = fs !! q \/ (foldr (delete (M := fsys)) fs names) !! q = None.
Proof.
  induction names as [|x names IH]; cbn; [auto|]. destruct (decide (x = q)) as [->|Hne]; [rewrite lookup_delete_eq; auto|].
  rewrite lookup_delete_ne by congruence. exact IH.
Qed.

Lemma frame_remove sst d names : Forall (near sst) names -> frame sst d (remove_files d names).
Proof.
  intros Hn. apply frame_set; [|intros q _; apply foldr_delete_lookup]. intros q Hq.
  induction Hn as [|x names Hx Hn IH]; cbn; [reflexivity|]. rewrite lookup_delete_ne by (intros <-; contradiction). exact IH.
Qed.

Lemma near_manifest sst : near sst kManifestName.
Proof. right. left. reflexivity. Qed.

Lemma near_temp sst : near sst kTempName.
Proof. right. right. reflexivity. Qed.

Lemma near_suffix sst e : near sst (sst ++ e).
Proof. left. apply is_prefix_app. Qed.

Lemma near_self sst : near sst sst.
Proof. left. apply is_prefix_refl. Qed.

Lemma near_writing sst e : near sst ((sst ++ str ".writing") ++ e).
Proof. rewrite <- app_assoc. apply near_suffix. Qed.

#[local] Hint Resolve near_manifest near_temp near_suffix near_self near_writing : core.

Lemma near_sidecars sst : Forall (near sst) (with_sidecars sst) /\ Forall (near sst) (with_sidecars (sst ++ str ".writing")).
Proof. unfold with_sidecars. split; repeat apply Forall_cons_2; auto; apply Forall_nil_2. Qed.

Lemma frame_publish sst io m arts d : frame sst d (publish io m arts d).2.
Proof.
  unfold publish. destruct (manifest_load_file (pi_load io) d) as [|c|]; [| |apply frame_refl];
    (destruct (validateManifest d m _) as [m'|]; [|apply frame_refl]).
  1: cbn [andb]. 2: destruct (_ || _); [apply frame_refl|].
  all: destruct (negb (forallb ar_inside _)); [apply frame_refl|].
  2: destruct (negb (forallb _ _)); [apply frame_refl|].
  all: destruct (sync_artifacts _ _ _ _); [|apply frame_refl]; destruct (negb (pi_artifacts_dir io)); [apply frame_refl|].
  all: assert (Hput : forall data, frame sst d (put_file io d kTempName data)) by
    (intros data; apply frame_set; intros q Hq;
      [rewrite lookup_insert_ne by (intros <-; apply Hq; auto); reflexivity
      |left; apply lookup_insert_ne; intros <-; apply Hq; unfold targets; right; right; right; right; left]).
  all: unfold replace_manifest; destruct (json_dump _) as [text|]; [|apply Hput]; destruct (pi_written io); [apply Hput|];
    destruct (negb (pi_temp_sync io)); [apply Hput|]; destruct (negb (pi_rename io)); [apply Hput|].
  all: assert (Hrep : frame sst d (set_files d (delete kTempName (<[kManifestName := mkFile (pi_mtime io) text]> (st_fs d))))) by
    (apply frame_set; intros q Hq;
      [rewrite lookup_delete_ne, lookup_insert_ne by (intros <-; apply Hq; auto); reflexivity
      |left; rewrite lookup_delete_ne, lookup_insert_ne; [reflexivity| |]; intros <-; apply Hq; unfold targets;
        [right; right; right; left|right; right; right; right; left]]).
  all: destruct (negb (pi_final_dir io)); exact Hrep.
Qed.

Lemma frame_finalize fio sst d : frame sst d (finalize_artifacts fio (sst ++ str ".writing") sst d).2.
Proof.
  unfold finalize_artifacts. cbn [andb].
  set (acc1 := if exists_file d ((sst ++ str ".writing") ++ str ".bloom") then _ else _).
  assert (H1 : frame sst d acc1.2).
  { unfold acc1. destruct (exists_file d _); [|apply frame_refl]. destruct (fi_bloom fio); [|apply frame_refl].
    apply frame_move; auto. unfold targets. right. left. }
  destruct acc1 as [good1 d1]. cbn [snd] in H1. set (acc2 := if good1 && _ then _ else _).
  assert (H2 : frame sst d acc2.2).
  { unfold acc2. destruct (good1 && _); [|exact H1]. destruct (fi_sparse fio); [|exact H1]. eapply frame_trans; [exact H1|].
    apply frame_move; auto. unfold targets. right. right. left. }
  destruct acc2 as [good2 d2]. cbn [snd] in H2. destruct (negb good2); [exact H2|].
  destruct (fi_sst fio && _); [|exact H2]. eapply frame_trans; [exact H2|]. apply frame_move; auto. unfold targets. left.
Qed.

Lemma frame_publishFlush io fio sst c d : frame sst d (publishFlush io fio (sst ++ str ".writing") sst c d).2.
Proof.
  destruct (near_sidecars sst) as [Hs1 Hs2]. unfold publishFlush.
  destruct (manifest_load_file (pi_load io) d); [| |apply frame_refl];
    (destruct (publishedSsts (pi_load io) true d); [|apply frame_refl]);
    (pose proof (frame_finalize fio sst d) as Hf; destruct (finalize_artifacts fio (sst ++ str ".writing") sst d) as [[] d1]; cbn [snd] in Hf;
     [|eapply frame_trans; [exact Hf|]; apply frame_remove, Forall_app; split; assumption]);
    match goal with |- context [publish io ?n ?a d1] => pose proof (frame_publish sst io n a d1) as Hp; destruct (publish io n a d1) as [[] d2] end;
    cbn [snd] in *; (eapply frame_trans; [exact Hf|]); auto; (eapply frame_trans; [exact Hp|]); apply frame_remove; assumption.
Qed.

(** ** Caches *)

Definition cache_sub (d d' : store) : Prop := forall q v, g_sstCache d' !! q = Some v -> g_sstCache d !! q = Some v.

(** Coherence survives when cached files are unchanged or gone. *)
Lemma coherent_change d d' : sst_coherent d -> cache_sub d d' ->
  (forall q v, g_sstCache d' !! q = Some v -> st_fs d' !! q = st_fs d !! q \/ st_fs d' !! q = None) -> sst_coherent d'.
Proof.
  intros Hc Hsub H q v f Hq Hf Hs Hm. destruct (H q v Hq) as [E|E]; [|congruence].
  rewrite E in Hf. exact (Hc q v f (Hsub q v Hq) Hf Hs Hm).
Qed.

(** Nothing near [sst] but the file being written, [sst ++ e], is cached. *)
Definition tame (sst e : bytes) (d : store) : Prop :=
  sst_coherent d /\ forall q, near sst q -> q <> sst ++ e -> g_sstCache d !! q = None.

Lemma tame_frame sst e d d' : tame sst e d -> frame sst d d' -> (sst ++ e ∉ targets sst) -> tame sst e d'.
Proof.
  intros [Hc Hn] [F1 F2 F3] Hw. split; [|rewrite F1; exact Hn]. apply (coherent_change d); [exact Hc|intros q v; rewrite F1; auto|].
  intros q v. rewrite F1. intros Hq. destruct (decide (q ∈ targets sst)) as [Ht|Ht]; [|auto].
  destruct (decide (q = sst ++ e)) as [->|Hne]; [contradiction|].
  assert (Hq' : near sst q).
  { unfold targets in Ht. rewrite !elem_of_cons in Ht. destruct Ht as [->|[->|[->|[->|[->|Ht]]]]]; auto. inversion Ht. }
  rewrite (Hn q Hq' Hne) in Hq. discriminate.
Qed.

Lemma writing_not_target sst : sst ++ str ".writing" ∉ targets sst.
Proof.
  unfold targets. rewrite !not_elem_of_cons. repeat split.
  - intros E. exact (suffix_neq sst (str ".writing") ltac:(discriminate) (eq_sym E)).
  - intros E%app_inv_head. discriminate E.
  - intros E%app_inv_head. discriminate E.
  - intros E%(f_equal last). rewrite (last_app_some sst (str ".writing") (byte_of 103) eq_refl) in E. discriminate E.
  - intros E%(f_equal last). rewrite (last_app_some sst (str ".writing") (byte_of 103) eq_refl) in E. discriminate E.
  - apply not_elem_of_nil.
Qed.

(** ** [writeSst] and the bloom sidecar *)

Lemma writeSst_other io d p rows target : cache_sub d (writeSst io d p rows target).2 /\
  forall q, q <> p -> q <> p ++ str ".writing" -> st_fs (writeSst io d p rows target).2 !! q = st_fs d !! q.
Proof.
  assert (Hdel : forall q fs, q <> p ++ str ".writing" -> (delete (p ++ str ".writing") fs : fsys) !! q = fs !! q)
    by (intros; apply lookup_delete_ne; congruence).
  assert (Hins : forall q fs f, q <> p ++ str ".writing" -> (<[p ++ str ".writing" := f]> fs : fsys) !! q = fs !! q)
    by (intros; apply lookup_insert_ne; congruence).
  assert (Hout : forall out q, q <> p ++ str ".writing" ->
    (<[p ++ str ".writing" := mkFile (sio_mtime io) out]> (delete (p ++ str ".writing") (st_fs d)) : fsys) !! q = st_fs d !! q)
    by (intros out q Hq; rewrite Hins, Hdel by exact Hq; reflexivity).
  unfold writeSst. cbn [with_fs st_fs]. destruct (sio_open io); cbn [negb]; [|split; [intros q v; auto|intros; cbn; apply Hdel; assumption]].
  destruct (add_rows _ _ _ _) as [[ob|e] b0]; [|split; [intros q v; auto|intros; cbn; apply Hout; assumption]].
  destruct (negb (b_rows ob =? 0) && _); [split; [intros q v; auto|intros; cbn; apply Hout; assumption]|].
  do 2 (destruct (negb (sio_good io _)); [split; [intros q v; auto|intros; cbn; apply Hout; assumption]|]).
  destruct (negb (sio_sync io)); [split; [intros q v; auto|intros; cbn; apply Hout; assumption]|].
  destruct (negb (sio_rename io)); [split; [intros q v; auto|intros; cbn; apply Hout; assumption]|].
  destruct (negb (sio_dirsync io)); (split; [intros q v; cbn; rewrite ?erase_prefix_lookup; tauto|]);
    intros q Hq Hw; cbn; rewrite lookup_insert_ne by congruence; rewrite Hdel by exact Hw; apply Hout; exact Hw.
Qed.

Lemma scanSst_cache {A} d p (v : A -> json -> A * bool) acc q : q <> p -> g_sstCache (scanSst d p v acc).2 !! q = g_sstCache d !! q.
Proof.
  intros Hq. unfold scanSst, scanSstViews. assert (H : g_sstCache (loadMetadata d p).2 !! q = g_sstCache d !! q).
  { unfold loadMetadata. destruct (st_fs d !! p) as [f|]; [|reflexivity]. destruct (_ <? _); [reflexivity|].
    unfold cached_load. destruct (g_sstCache d !! p); [destruct (_ && _); [reflexivity|]|];
      destruct (parseMetadata_opt f); cbn; try reflexivity; apply lookup_insert_ne; congruence. }
  destruct (loadMetadata d p) as [[] d']; exact H.
Qed.

Lemma buildBloom_other io d p keys : cache_sub d (buildBloom io d p keys).2 /\
  forall q, q <> bloom_path p -> q <> bloom_path p ++ str ".tmp" -> st_fs (buildBloom io d p keys).2 !! q = st_fs d !! q.
Proof.
  unfold buildBloom. destruct (bio_stream io); [split; [intros q v; auto|intros q H1 H2; cbn [snd st_fs with_fs]; apply lookup_insert_ne; congruence]|].
  destruct (bio_sync io); cbn [negb]; [|split; [intros q v; auto|intros q H1 H2; cbn [snd st_fs with_fs]; apply lookup_insert_ne; congruence]].
  destruct (bio_rename io), (bio_rename_again io), (bio_dirsync io); cbn [andb negb];
    (split; [intros q v; cbn; rewrite ?erase_prefix_lookup; tauto|]); intros q H1 H2; cbn [snd st_fs with_fs invalidateCaches];
    rewrite ?lookup_insert_ne, ?lookup_delete_ne, ?lookup_insert_ne by congruence; reflexivity.
Qed.

(** The sidecar step: files other than the sidecar stay, the cache is as good. *)
Lemma bloom_step io sst e d f : tame sst e d -> st_fs d !! (sst ++ e) = Some f ->
  let d' := buildBloomForSST io d (sst ++ e) in
  tame sst e d' /\ forall q, q <> bloom_path (sst ++ e) -> q <> bloom_path (sst ++ e) ++ str ".tmp" -> st_fs d' !! q = st_fs d !! q.
Proof.
  intros [Hc Hn] Hf d'. unfold d', buildBloomForSST. set (w := sst ++ e) in *.
  destruct (isBinarySst d w); [|split; [split; assumption|auto]].
  assert (Hs : sst_coherent (scanSst d w collect_row []).2 /\ st_fs (scanSst d w collect_row []).2 = st_fs d).
  { unfold scanSst, scanSstViews. destruct (loadMetadata_file d w f Hc Hf) as (_ & H2 & H3). destruct (loadMetadata d w) as [[] d1]; auto. }
  assert (Ht : tame sst e (scanSst d w collect_row []).2).
  { split; [apply Hs|]. intros q Hq Hne. rewrite scanSst_cache by exact Hne. auto. }
  destruct Hs as [_ Hfs]. destruct (scanSst d w collect_row []) as [[rows|] d1]; cbn [snd] in *; [|split; [exact Ht|intros; rewrite Hfs; reflexivity]].
  destruct (bloom_keys rows) as [keys|]; [|split; [exact Ht|intros; rewrite Hfs; reflexivity]].
  destruct (buildBloom_other io d1 w keys) as [Hsub Hoth]. destruct Ht as [Hc1 Hn1].
  assert (Hfar : forall q, is_prefix (w ++ str ".bloom") q <> true -> st_fs (buildBloom io d1 w keys).2 !! q = st_fs d1 !! q).
  { intros q Hq. apply Hoth; intros ->; apply Hq; [apply is_prefix_refl|apply is_prefix_app]. }
  assert (Hnone : forall q, is_prefix (w ++ str ".bloom") q = true -> g_sstCache d1 !! q = None).
  { intros q Hq. apply Hn1.
    - left. unfold w in Hq. revert Hq. rewrite <- !app_assoc. generalize (e ++ str ".bloom").
      clear. intros e. revert q. induction sst as [|a sst IH]; intros q Hq; [reflexivity|]. destruct q as [|b q]; [discriminate|].
      cbn in *. apply andb_true_iff in Hq as [H1 H2]. rewrite H1. cbn. apply IH, H2.
    - intros ->. assert (Hl : (length (w ++ str ".bloom") <= length w)%nat).
      { clear -Hq. fold w in Hq. revert Hq. generalize (w ++ str ".bloom"). induction w as [|a w IH]; intros [|b l] Hq; cbn in *; try lia; try discriminate.
        apply andb_true_iff in Hq as [_ Hq]. specialize (IH l Hq). lia. }
      rewrite length_app in Hl. cbn in Hl. lia. }
  split; [split|].
  - apply (coherent_change d1 _ Hc1 Hsub). intros q v Hq. left. apply Hfar. intros Hp. pose proof (Hsub q v Hq) as Hq1.
    rewrite (Hnone q Hp) in Hq1. discriminate.
  - intros q Hq Hne. destruct (g_sstCache (buildBloom io d1 w keys).2 !! q) eqn:E; [|reflexivity].
    apply Hsub in E. rewrite (Hn1 q Hq Hne) in E. discriminate.
  - intros q Hq Hq'. rewrite Hoth by assumption. rewrite Hfs. reflexivity.
Qed.

(** ** The rows of a memtable *)

Lemma flush_rows_elem t x : x ∈ flush_rows t <-> exists k, t !! k = Some x.
Proof.
  unfold flush_rows. rewrite list_elem_of_omap. split.
  - intros (id & _ & H). eauto.
  - intros (k & H). exists k. split; [|exact H]. rewrite merge_sort_Permutation. apply list_elem_of_fmap. exists (k, x).
    split; [reflexivity|]. apply elem_of_map_to_list, H.
Qed.

Lemma elem_flush_rows t d : d ∈ map canon (flush_rows t) <-> in_table t d.
Proof.
  rewrite list_elem_of_In, in_map_iff. setoid_rewrite <- list_elem_of_In. setoid_rewrite flush_rows_elem. unfold in_table. split.
  - intros (x & <- & k & H). eauto.
  - intros (k & x & H & ->). eauto.
Qed.

(** The position a manifest covers. *)
Definition covered_of (l : manifest_load) : Z := match l with ManifestLoaded m => coveredWalLsn m | _ => 0 end.

Lemma next_covered l lsn names : 0 <= lsn -> coveredWalLsn (next_manifest l lsn names) = Z.max lsn (covered_of l).
Proof. intros H. destruct l; cbn; lia. Qed.

Context (ok : json -> Prop) `{JL : !JsonLineText ok}.
Context (cfg : wal_config) (sstBlockBytes : Z).

(** What a flush of [snapshot] under the name of [io] relies on: a new name, rows
    the format can hold, a manifest that can be stored, and that the directory
    can be synchronised after the manifest was replaced. *)
Record flush_ready (io : flush_io) (s : coll) (names : list bytes) (snapshot : Memtable) (covered : Z) : Prop := {
  fr_coherent : sst_coherent (c_dir s);
  fr_name : sst_name (fl_name io);
  fr_fresh : st_fs (c_dir s) !! fl_name io = None;
  fr_uncached : forall q, near (fl_name io) q -> g_sstCache (c_dir s) !! q = None;
  fr_load : pi_load (fl_publish io) = load_good;
  fr_synced : pi_final_dir (fl_publish io) = true;
  fr_rows : forall k x, snapshot !! k = Some x -> json_wf x /\ key_fits (rowId x);
  fr_covered : 0 <= covered;
  fr_limits : forall stats d', writeSst (fl_sst io) (c_dir s) (fl_name io ++ str ".writing") (flush_rows snapshot) sstBlockBytes = (Ok stats, d') ->
    ws_blocks stats <= kMaxBlocks /\ ws_stored stats < 2 ^ 63;
  fr_storable : let next := next_manifest (manifest_load_file load_good (c_dir s)) covered (unique_sorted (names ++ [fl_name io])) in
    storable ok (mkManifest kFormatVersion (generation next) (coveredWalLsn next) (merge_sort bytes_le (sstFiles next))) }.

(** The manifest and the files of [s'] are those of [s]. *)
Definition same_files (d d' : store) : Prop :=
  st_fs d' !! kManifestName = st_fs d !! kManifestName /\ forall n, sst_name n -> st_fs d' !! n = st_fs d !! n.

Lemma same_files_load d d' : same_files d d' -> manifest_load_file load_good d' = manifest_load_file load_good d.
Proof. intros [H1 H2]. apply load_ext; assumption. Qed.

Lemma same_files_trans d1 d2 d3 : same_files d1 d2 -> same_files d2 d3 -> same_files d1 d3.
Proof. intros [A1 A2] [B1 B2]. split; [congruence|]. intros n Hn. rewrite B2, A2 by exact Hn. reflexivity. Qed.

Lemma same_files_listed d d' names : same_files d d' -> listed d names -> listed d' names.
Proof.
  intros Hs. unfold listed. rewrite (same_files_load d d' Hs). destruct (manifest_load_file load_good d); auto.
  intros [-> Hn]. split; [reflexivity|]. intros n Hsn. rewrite (proj2 Hs n Hsn). auto.
Qed.

Lemma listed_names d names : listed d names -> forall n, n ∈ names -> sst_name n /\ is_Some (st_fs d !! n).
Proof.
  unfold listed. destruct (manifest_load_file load_good d) as [|m|] eqn:E; [|intros ->|tauto].
  - intros [-> _] n Hn. inversion Hn.
  - intros n Hn. pose proof (loaded_names d m E) as Hf. rewrite Forall_forall in Hf. exact (Hf n Hn).
Qed.

(** How a flush ends: not published, and the directory reads as before; or
    published, with the snapshot as one more SST. *)
Inductive flush_ends (io : flush_io) (replaying : bool) (s : coll) (names : list bytes) (n : nat) (snapshot : Memtable) (covered : Z) :
  result unit -> coll -> Prop :=
| flush_failed r d : sst_coherent d -> (forall q, near (fl_name io) q -> q <> fl_name io ++ str ".writing" -> g_sstCache d !! q = None) ->
    same_files (c_dir s) d ->
    flush_ends io replaying s names n snapshot covered r (with_dir (with_flushing s None) d)
| flush_published d m w : sst_coherent d -> (forall q, near (fl_name io) q -> q <> fl_name io ++ str ".writing" -> g_sstCache d !! q = None) ->
    manifest_load_file load_good d = ManifestLoaded m -> coveredWalLsn m = Z.max covered (covered_of (manifest_load_file load_good (c_dir s))) ->
    (forall k, k ∈ sstFiles m <-> k ∈ names \/ k = fl_name io) ->
    (forall k, sst_name k -> k <> fl_name io -> st_fs d !! k = st_fs (c_dir s) !! k) ->
    (exists f, st_fs d !! fl_name io = Some f /\ sst_holds f (map canon (flush_rows snapshot))) ->
    Forall (fun r => canon r = r) (map canon (flush_rows snapshot)) ->
    w = (if (0 <? coveredWalLsn m) && negb replaying then (reclaimThrough cfg (fl_reclaim io) (c_wal s) (coveredWalLsn m)).2 else c_wal s) ->
    flush_ends io replaying s names n snapshot covered (Ok tt)
      (mkColl (memtable s) (drop_table n (immutables s)) (tables s) (progress s) None d w).

(** [rows] as an SST under the temporary name [sst ++ e]. *)
Lemma write_rows sio sst e x d rows : last e = Some x -> x <> byte_of 110 -> x <> byte_of 116 ->
  sst_coherent d -> (forall q, near sst q -> g_sstCache d !! q = None) ->
  (forall r, r ∈ rows -> json_wf r /\ key_fits (rowId r)) ->
  (forall stats d', writeSst sio d (sst ++ e) rows sstBlockBytes = (Ok stats, d') -> ws_blocks stats <= kMaxBlocks /\ ws_stored stats < 2 ^ 63) ->
  let '(r, d') := writeSst sio d (sst ++ e) rows sstBlockBytes in
  tame sst e d' /\ same_files d d' /\
  (is_ok r = true -> exists f, st_fs d' !! (sst ++ e) = Some f /\ sst_holds f (map canon rows)).
Proof.
  intros Hx Hn Ht Hc Hunc Hrows Hlim. set (w := sst ++ e) in *.
  destruct (writeSst_other sio d w rows sstBlockBytes) as [Hsub Hoth].
  destruct (writeSst sio d w rows sstBlockBytes) as [r d1] eqn:Ew. cbn [snd] in *.
  assert (Hnone : forall q, near sst q -> g_sstCache d1 !! q = None).
  { intros q Hq. destruct (g_sstCache d1 !! q) eqn:E; [|reflexivity]. apply Hsub in E. rewrite (Hunc q Hq) in E. discriminate. }
  split; [|split].
  - split; [|auto]. apply (coherent_change d _ Hc Hsub). intros q v Hq. left. apply Hoth; intros ->; (rewrite Hnone in Hq; [discriminate|]).
    + apply near_suffix.
    + unfold w. rewrite <- app_assoc. apply near_suffix.
  - assert (Hww : forall k, k = kManifestName \/ sst_name k -> k <> w /\ k <> w ++ str ".writing").
    { intros k Hk. assert (Hlast : last k = Some (byte_of 110) \/ last k = Some (byte_of 116)) by
        (destruct Hk as [->|Hk]; [left; reflexivity|right; apply sst_name_last, Hk]).
      split; intros E%(f_equal last).
      - unfold w in E. rewrite (last_app_some sst e x Hx) in E. rewrite E in Hlast. destruct Hlast as [[= H]|[= H]]; contradiction.
      - rewrite (last_app_some w (str ".writing") (byte_of 103) eq_refl) in E. rewrite E in Hlast. destruct Hlast as [H|H]; discriminate H. }
    split; [apply Hoth; apply Hww; auto|]. intros k Hk. apply Hoth; apply Hww; auto.
  - destruct r as [stats|]; [|discriminate]. intros _. destruct (Hlim _ _ eq_refl) as [Hb Hz].
    assert (Hkeys : Forall (fun r => key_fits (rowId r)) rows) by (apply Forall_forall; intros y Hy; apply Hrows, Hy).
    destruct (writeSst_readable _ _ _ _ _ _ _ Hkeys Hb Hz Ew) as (groups & Hcat & Hrd & Hf & _). eexists. split; [exact Hf|].
    pose proof (clamp_target_range sstBlockBytes). apply (image_holds _ _ groups); [lia|exact Hrd|exact Hcat|].
    apply Forall_forall. intros y Hy. apply Hrows, Hy.
Qed.

(** The first step of a flush. *)
Lemma write_step io s names snapshot covered : flush_ready io s names snapshot covered ->
  let w := fl_name io ++ str ".writing" in
  let '(r, d) := writeSst (fl_sst io) (c_dir s) w (flush_rows snapshot) sstBlockBytes in
  tame (fl_name io) (str ".writing") d /\ same_files (c_dir s) d /\
  (is_ok r = true -> exists f, st_fs d !! w = Some f /\ sst_holds f (map canon (flush_rows snapshot))).
Proof.
  intros [Hc _ _ Hunc _ _ Hrows _ Hlim _] w.
  apply (write_rows _ _ _ (byte_of 103)); [reflexivity|discriminate|discriminate|exact Hc|exact Hunc| |exact Hlim].
  intros r [k Hr]%flush_rows_elem. apply (Hrows k r Hr).
Qed.

(** The sidecar is neither the manifest nor an SST nor the file it belongs to. *)
Lemma bloom_same io sst e d f : tame sst e d -> st_fs d !! (sst ++ e) = Some f ->
  let d' := buildBloomForSST io d (sst ++ e) in
  tame sst e d' /\ same_files d d' /\ st_fs d' !! (sst ++ e) = Some f.
Proof.
  intros Ht Hf d'. destruct (bloom_step io sst e d f Ht Hf) as [Ht' Hfar]. fold d' in Ht', Hfar. set (w := sst ++ e) in *.
  assert (Hk : forall k, k = kManifestName \/ sst_name k -> st_fs d' !! k = st_fs d !! k).
  { intros k Hk. assert (Hlast : last k = Some (byte_of 110) \/ last k = Some (byte_of 116)) by
      (destruct Hk as [->|Hk]; [left; reflexivity|right; apply sst_name_last, Hk]).
    apply Hfar; intros E%(f_equal last); unfold bloom_path in E.
    - rewrite (last_app_some _ (str ".bloom") (byte_of 109) eq_refl) in E. rewrite E in Hlast. destruct Hlast as [H|H]; discriminate H.
    - rewrite (last_app_some _ (str ".tmp") (byte_of 112) eq_refl) in E. rewrite E in Hlast. destruct Hlast as [H|H]; discriminate H. }
  split; [exact Ht'|]. split; [split; [apply Hk; auto|intros n Hn; apply Hk; auto]|].
  rewrite Hfar; [exact Hf|apply suffix_neq; discriminate|unfold bloom_path; rewrite <- app_assoc; apply suffix_neq; discriminate].
Qed.

Lemma flush_end_cases io replaying s names n snapshot covered :
  flushing s = Some (n, snapshot, covered) -> listed (c_dir s) names -> flush_ready io s names snapshot covered ->
  let '(r, s') := flush_end cfg sstBlockBytes io replaying s in flush_ends io replaying s names n snapshot covered r s'.
Proof.
  intros Hfl Hl Hr. pose proof (write_step io s names snapshot covered Hr) as Hw. cbv zeta in Hw.
  destruct Hr as [Hc Hname Hfresh Hunc Hload Hsync Hrows Hcov0 _ Hst]. unfold flush_end. rewrite Hfl.
  destruct (fl_dirs io); cbn [negb]; [|apply (flush_failed io replaying s names n snapshot covered (Err _) (c_dir s)); auto; split; auto].
  cbn [with_flushing c_dir c_wal memtable immutables tables progress]. set (sst := fl_name io) in *.
  destruct (writeSst (fl_sst io) (c_dir s) (sst ++ str ".writing") (flush_rows snapshot) sstBlockBytes) as [[stats|e] d1].
  2:{ destruct Hw as (Ht & Hsame & _). apply flush_failed; [apply Ht|apply Ht|exact Hsame]. }
  destruct Hw as (Ht1 & Hsame1 & (f & Hf & Hholds)); [reflexivity|].
  destruct (bloom_same (fl_bloom io) sst (str ".writing") d1 f Ht1 Hf) as (Ht2 & Hsame2 & Hf2).
  set (d2 := buildBloomForSST (fl_bloom io) d1 (sst ++ str ".writing")) in *.
  pose proof (same_files_trans _ _ _ Hsame1 Hsame2) as Hsame.
  pose proof (frame_publishFlush (fl_publish io) (fl_finalize io) sst covered d2) as Hfr.
  destruct (publishFlush (fl_publish io) (fl_finalize io) (sst ++ str ".writing") sst covered d2) as [[published|e] d3] eqn:Ep; cbn [snd] in Hfr;
    pose proof (tame_frame sst (str ".writing") d2 d3 Ht2 Hfr (writing_not_target sst)) as [Hc3 Hn3].
  - destruct (publishFlush_ok ok (fl_publish io) (fl_finalize io) sst covered d2 names published d3 Hload) as (Hcov & m & Hm & Hcm & Hin & Hold & Hnew); [| |exact Ep|].
    + apply listed_published, (same_files_listed _ _ _ Hsame Hl).
    + cbv zeta. rewrite (same_files_load _ _ Hsame). exact Hst.
    + rewrite next_covered, (same_files_load _ _ Hsame) in Hcov by exact Hcov0. rewrite Hcov in Hcm. subst published.
      rewrite <- Hcm. apply flush_published with (m := m); auto.
      * intros k Hk Hne. rewrite (Hold k Hk Hne). apply (proj2 Hsame k Hk).
      * exists f. split; [|exact Hholds]. change (fl_name io) with sst. rewrite Hnew; [exact Hf2|]. rewrite Hf2. eauto.
      * apply Forall_map, Forall_forall. intros d [k Hd]%flush_rows_elem. apply canon_idem, (Hrows k d Hd).
  - apply flush_failed; [exact Hc3|exact Hn3|]. eapply same_files_trans; [exact Hsame|].
    apply (publishFlush_err ok (fl_publish io) (fl_finalize io) sst covered d2 e d3); auto. rewrite (proj2 Hsame sst Hname). exact Hfresh.
Qed.

Lemma flush_end_idle io replaying s : flushing (flush_end cfg sstBlockBytes io replaying s).2 = None.
Proof.
  unfold flush_end. destruct (flushing s) as [[[n snap] c]|] eqn:E; [|exact E]. destruct (negb (fl_dirs io)); [reflexivity|].
  destruct (writeSst _ _ _ _ _) as [[] d]; [|reflexivity]. destruct (publishFlush _ _ _ _ _ _) as [[] d']; reflexivity.
Qed.

(** ** A flush does not change the collection *)

Lemma flush_begin_reads e s names spec : reads_as e s names spec -> reads_as e (flush_begin s) names spec.
Proof.
  intros H. unfold flush_begin. destruct (flushing s); [exact H|]. destruct (bool_decide (memtable s = ∅)) eqn:E; [exact H|].
  destruct H as [Hc Hl Hf [Hs1 Hs2] Hcs Hv Hr].
  assert (Heq : forall d, all_docs s names d <-> all_docs (mkColl ∅ ((tables s, memtable s) :: immutables s) (S (tables s)) (progress s)
    (Some (tables s, memtable s, contiguous (progress s))) (c_dir s) (c_wal s)) names d).
  { intros d. unfold all_docs, in_memory. cbn [memtable immutables c_dir]. split.
    - intros [?|[H|(t & Ht & Hd)]]; [auto|right; right; exists (tables s, memtable s); split; [left|exact H]|right; right; exists t; split; [right; exact Ht|exact Hd]].
    - intros [?|[H|(t & Ht & Hd)]]; [auto|destruct (in_empty d H)|].
      apply elem_of_cons in Ht as [->|Ht]; [auto|]. right. right. eauto. }
  split; cbn [c_dir memtable immutables]; auto.
  - split; [intros k x Hx; destruct (lookup_empty_Some (M := gmap bytes) k x Hx)|].
    intros t Ht. apply elem_of_cons in Ht as [->|Ht]; [exact Hs1|apply Hs2, Ht].
  - eapply consistent_sub; [exact Hcs|]. intros d Hd. apply Heq, Hd.
  - intros d Hd. apply Hv, Heq, Hd.
  - eapply represents_ext; [exact Heq|exact Hr].
Qed.

Lemma elem_drop_table n t ts : t ∈ drop_table n ts <-> t ∈ ts /\ t.1 <> n.
Proof. unfold drop_table. rewrite list_elem_of_In, filter_In, <- list_elem_of_In, negb_true_iff, Nat.eqb_neq. reflexivity. Qed.

Lemma nodup_table (ts : list (nat * Memtable)) n t t' : NoDup ts.*1 -> (n, t) ∈ ts -> (n, t') ∈ ts -> t = t'.
Proof.
  induction ts as [|[m u] ts IH]; [intros _ H; inversion H|]. rewrite fmap_cons. intros Hnd H H'. pose proof (NoDup_cons_1_1 _ _ Hnd) as Hm. pose proof (NoDup_cons_1_2 _ _ Hnd) as Hn.
  assert (Hfst : forall x, (m, x) ∈ ts -> False) by (intros x Hx; apply Hm, list_elem_of_fmap; exists (m, x); auto).
  apply elem_of_cons in H as [E|H]; apply elem_of_cons in H' as [E'|H']; simplify_eq; auto; exfalso; eapply Hfst; eassumption.
Qed.

Lemma flush_ends_tables io replaying s names n snapshot covered r s' : flush_ends io replaying s names n snapshot covered r s' ->
  memtable s' = memtable s /\ (forall t, t ∈ immutables s' -> t ∈ immutables s) /\ sst_coherent (c_dir s').
Proof. intros []; (split; [reflexivity|]); (split; [|assumption]); intros t Ht; [exact Ht|apply elem_drop_table in Ht; tauto]. Qed.

(** The files of a published flush: those before and the snapshot. *)
Lemma published_docs io s names snapshot d m :
  listed (c_dir s) names -> files_ok (c_dir s) names -> st_fs (c_dir s) !! fl_name io = None ->
  (forall k, k ∈ sstFiles m <-> k ∈ names \/ k = fl_name io) ->
  (forall k, sst_name k -> k <> fl_name io -> st_fs d !! k = st_fs (c_dir s) !! k) ->
  (exists f, st_fs d !! fl_name io = Some f /\ sst_holds f (map canon (flush_rows snapshot))) ->
  Forall (fun r => canon r = r) (map canon (flush_rows snapshot)) ->
  files_ok d (sstFiles m) /\ forall x, on_disk d (sstFiles m) x <-> on_disk (c_dir s) names x \/ in_table snapshot x.
Proof.
  intros Hl Hf Hfresh Hnames Hold (f & Hff & Hh) Hcn.
  assert (Hd : forall k, k ∈ names -> st_fs d !! k = st_fs (c_dir s) !! k).
  { intros k Hk. destruct (listed_names _ _ Hl k Hk) as [Hs [g Hg]]. apply Hold; [exact Hs|intros ->; congruence]. }
  split.
  - intros k Hk. apply Hnames in Hk as [Hk| ->]; [rewrite (Hd k Hk); apply Hf, Hk|eauto].
  - intros x. rewrite <- elem_flush_rows. split.
    + intros (k & g & rows & Hk & Hg & Hr & Hx). apply Hnames in Hk as [Hk| ->]; [left; exists k, g, rows; rewrite <- (Hd k Hk); auto|].
      right. rewrite Hff in Hg. injection Hg as <-. rewrite (sst_holds_unique f _ _ Hh Hr). exact Hx.
    + intros [(k & g & rows & Hk & Hg & Hx)|Hx]; [exists k, g, rows; rewrite (Hd k Hk); split; [apply Hnames; auto|auto]|].
      exists (fl_name io), f, (map canon (flush_rows snapshot)). split; [apply Hnames; auto|auto].
Qed.

Lemma on_disk_same d d' names x : listed d names -> same_files d d' -> on_disk d' names x <-> on_disk d names x.
Proof.
  intros Hl Hs. assert (Hn : forall n, n ∈ names -> st_fs d' !! n = st_fs d !! n) by (intros n Hn; apply Hs, (listed_names _ _ Hl n Hn)).
  split; intros (k & f & rows & Hk & Hf & Hx); exists k, f, rows; (split; [exact Hk|]); [rewrite <- (Hn k Hk)|rewrite (Hn k Hk)]; auto.
Qed.

(** The documents of a collection after a flush. *)
Lemma flush_ends_docs io replaying s names n snapshot covered r s' :
  listed (c_dir s) names -> files_ok (c_dir s) names -> st_fs (c_dir s) !! fl_name io = None ->
  (n, snapshot) ∈ immutables s -> NoDup (immutables s).*1 ->
  flush_ends io replaying s names n snapshot covered r s' ->
  exists names', listed (c_dir s') names' /\ files_ok (c_dir s') names' /\ forall d, all_docs s' names' d <-> all_docs s names d.
Proof.
  intros Hl Hf Hfresh Hin Hnd [r' d Hc Hn Hsame|d m w Hc Hn Hm Hcov Hnames Hold Hff Hcn _].
  - exists names. cbn [c_dir with_dir with_flushing]. split; [apply (same_files_listed _ _ _ Hsame Hl)|]. split.
    + intros k Hk. rewrite (proj2 Hsame k) by apply (listed_names _ _ Hl k Hk). apply Hf, Hk.
    + intros x. unfold all_docs. cbn [c_dir with_dir with_flushing]. rewrite (on_disk_same _ _ _ _ Hl Hsame). reflexivity.
  - cbn [c_dir]. destruct (published_docs io s names snapshot d m Hl Hf Hfresh Hnames Hold Hff Hcn) as [Hf' Hon].
    exists (sstFiles m). split; [unfold listed; rewrite Hm; reflexivity|]. split; [exact Hf'|].
    intros x. unfold all_docs, in_memory. cbn [c_dir memtable immutables]. rewrite Hon. split.
    + intros [[?|?]|[?|(t & Ht & Hx)]]; [auto|right; right; exists (n, snapshot); auto|auto|].
      apply elem_drop_table in Ht as [Ht _]. right. right. eauto.
    + intros [?|[?|([k t] & Ht & Hx)]]; [auto|auto|]. destruct (decide (k = n)) as [->|Hne].
      * rewrite (nodup_table _ _ _ _ Hnd Ht Hin) in Hx. auto.
      * right. right. exists (k, t). split; [apply elem_drop_table; auto|exact Hx].
Qed.

(** A flush never changes what the collection holds: whatever its steps
    answer, success or failure, the directory and the memtables together are
    still the same newest versions, so [getAll] returns the same documents, up to
    the form in which they are stored.  (When the last directory synchronisation
    fails this does not hold, see [flush_failure_breaks_manifest].) *)
Theorem flush_keeps_collection e io replaying s names n snapshot covered spec :
  reads_as e s names spec -> flushing s = Some (n, snapshot, covered) -> (n, snapshot) ∈ immutables s -> NoDup (immutables s).*1 ->
  flush_ready io s names snapshot covered ->
  let s' := (flush_end cfg sstBlockBytes io replaying s).2 in
  (exists names', reads_as e s' names' spec) /\
  exists docs docs', (getAll e load_good true true s).1 = Ok docs /\ (getAll e load_good true true s').1 = Ok docs' /\
    map canon docs = map canon docs'.
Proof.
  intros H Hfl Hin Hnd Hr. pose proof H as [Hc Hl Hf [Hs1 Hs2] Hcs Hv Hrep]. pose proof (flush_end_cases io replaying s names n snapshot covered Hfl Hl Hr) as Hends.
  destruct (flush_end cfg sstBlockBytes io replaying s) as [r s']. cbn [snd]. cbv zeta.
  destruct (flush_ends_tables _ _ _ _ _ _ _ _ _ Hends) as (Hm & Him & Hc').
  destruct (flush_ends_docs _ _ _ _ _ _ _ _ _ Hl Hf (fr_fresh _ _ _ _ _ Hr) Hin Hnd Hends) as (names' & Hl' & Hf' & Hdocs).
  assert (H' : reads_as e s' names' spec).
  { split; auto.
    - rewrite Hm. auto.
    - eapply consistent_sub; [exact Hcs|]. intros d Hd. apply Hdocs, Hd.
    - intros d Hd. apply Hv, Hdocs, Hd.
    - eapply represents_ext; [intros d; symmetry; apply Hdocs|exact Hrep]. }
  split; [eauto|]. destruct (getAll_newest e s names spec H) as (docs & E & Ed). destruct (getAll_newest e s' names' spec H') as (docs' & E' & Ed').
  exists docs, docs'. split; [exact E|]. split; [exact E'|]. congruence.
Qed.
End Flush.
