(* ===== verification/LsmDurability.v ===== *)
(** * Acknowledged writes survive a crash (lsm.cpp)

    The durable part of a collection is its published SSTs and the log records
    its manifest does not cover.  Every write and both halves of a flush keep this
    part up to date with the collection, and a restart reads it back. *)

From S2P Require Import Prelude FileSys Decimal Json JsonValue Msgpack RowView Checksum Store Sst SstCursor SstQuery Bloom WalIntegrity Wal.
From S2P Require Import WalLog WalAppend WalRecovery WalEntries WalReclaim WalScan LsmManifest LsmProgress LsmDoc LsmCollection LsmLatest LsmCanon LsmReads LsmFlush.
From stdpp Require Import base list gmap sorting strings.
From Stdlib Require Import ZArith Lia.

Open Scope Z_scope.

(** ** The log as the LSM engine sees it

    [log_is]: a log that replays a list of records.  The operations of [Wal] the
    engine calls, stated on this list. *)

Section Log.
Context `{JT : JsonText} (cfg : wal_config).

(** The log replays [recs]; the last LSN and the number of the last segment. *)
Definition log_is (w : wal) (recs : list WalReplayRecord) (last seg : Z) : Prop :=
  exists segs, wal_is cfg w segs /\ map replay_of (log_records segs) = recs /\ log_last 0 segs = last /\ List.last (map g_id segs) 0 = seg.

Lemma log_add_seg segs roll ident r : List.last (map g_id (log_add segs roll ident r)) 0 <= List.last (map g_id segs) 0 + 1.
Proof.
  unfold log_add. destruct roll; [rewrite map_app; cbn [map g_id]; rewrite List.last_last; lia|].
  destruct (snoc_cases segs) as [->|(pre & g & ->)]; [cbn; lia|]. rewrite last_snoc, removelast_last, !map_app. cbn [map seg_extend g_id].
  rewrite !List.last_last. lia.
Qed.

Lemma log_append clock io w recs last seg m lsns w' :
  log_is w recs last seg -> walBinaryEncodingEnabled cfg = true -> json_wf (JObject m) -> ai_init io = init_io_good ->
  (forall n, 0 <= clock n < 2 ^ 64) -> last + 2 < 2 ^ 64 -> seg + 1 < 2 ^ 64 ->
  wal_log cfg clock io w (JObject m) = (Ok lsns, w') ->
  lsns = (last + 1, last + 1) /\ exists seg', seg' <= seg + 1 /\
    log_is w' (recs ++ [mkReplay INSERT (last + 1) (stamp (canon (JObject m)) (last + 1) (clock (last + 1)))]) (last + 1) seg'.
Proof.
  intros (segs & Hw & <- & <- & <-) Hbin Hwf Hinit Hclock Hmax Hseg H.
  destruct (prepare_ok cfg INSERT m Hbin Hwf ltac:(discriminate)) as (p & Hp & Hok & Hop & Hpe & Hpp).
  unfold wal_log in H. rewrite Hp in H. cbn [submitPrepared] in H.
  assert (Hb : batch_ok segs clock [(p, canon (JObject m))]) by (split; [apply Forall_singleton, Hok|exact Hclock|cbn; lia|cbn; lia]).
  destruct (append_cases cfg w segs clock io false [(p, canon (JObject m))] _ w' Hw Hinit Hb ltac:(discriminate) H) as (ss & Hss & Hres & Hrec).
  destruct Hrec as [(e & He & _)|Hrec]; [discriminate|]. inversion Hres as [? Hw' Hi'| | |]; subst. split; [reflexivity|].
  assert (Hone : exists st, ss = [st]).
  { cbn [batch_records] in Hrec. destruct ss as [|st []]; try discriminate Hrec. eauto. }
  exists (List.last (map g_id (steps_log segs ss)) 0). split.
  { destruct Hone as [st ->]. apply log_add_seg. }
  exists (steps_log segs ss). split; [exact Hw'|]. split; [|split; [|reflexivity]].
  - rewrite (steps_records cfg) by exact Hss. rewrite Hrec, map_app. cbn [batch_records map]. unfold replay_of at 2.
    cbn [lr_pending lr_lsn lr_decoded lr_ts]. rewrite Hop. reflexivity.
  - rewrite (steps_log_last cfg) by (try exact Hss; apply (wi_log _ _ _ Hw)). apply (f_equal length) in Hrec.
    rewrite length_map, batch_records_length in Hrec. rewrite Hrec. reflexivity.
Qed.

Lemma last_drop_Z (l : list Z) : forall k d, (k < length l)%nat -> List.last (drop k l) d = List.last l d.
Proof.
  induction l as [|x l IH]; intros k d Hk; [cbn in Hk; lia|]. destruct k as [|k]; [reflexivity|]. cbn [drop].
  rewrite IH by (cbn in Hk; lia). destruct l as [|y l]; [cbn in Hk; lia|reflexivity].
Qed.

Lemma map_drop {A B} (f : A -> B) k (l : list A) : map f (drop k l) = drop k (map f l).
Proof. revert k. induction l as [|x l IH]; intros [|k]; cbn; auto. Qed.

Lemma log_reclaim io w recs last seg c : log_is w recs last seg -> ri_scan io = scan_io_good ->
  exists k seg', seg' <= seg /\ log_is (reclaimThrough cfg io w c).2 (drop k recs) last seg' /\ Forall (fun r => rr_lsn r <= c) (take k recs).
Proof.
  intros (segs & Hw & <- & <- & <-) Hs. pose proof (reclaim_cases cfg io w segs c Hw Hs) as H.
  destruct (reclaimThrough cfg io w c) as [r w']. destruct H as (k & Hw' & Hlast & Hcov & _ & _ & _). cbn [snd].
  set (recs := log_records segs). assert (Hsplit : recs = log_records (take k segs) ++ log_records (drop k segs)).
  { unfold recs, log_records. rewrite <- flat_map_app, take_drop. reflexivity. }
  exists (length (log_records (take k segs))), (List.last (map g_id (drop k segs)) 0). split.
  { destruct (Nat.lt_ge_cases k (length segs)) as [Hk|Hk]; [rewrite map_drop, last_drop_Z by (rewrite length_map; exact Hk); lia|].
    rewrite drop_ge by exact Hk. cbn. apply (log_ids_nonneg cfg), (wi_log _ _ _ Hw). }
  split.
  - exists (drop k segs). split; [exact Hw'|]. split; [|auto]. rewrite Hsplit, map_app, drop_app_length'; [reflexivity|].
    rewrite length_map. reflexivity.
  - rewrite Hsplit, map_app, take_app_length' by (rewrite length_map; reflexivity).
    apply Forall_map. eapply Forall_impl; [exact Hcov|]. auto.
Qed.

(** A new process on the same disk. *)
Lemma log_restart w recs last seg : log_is w recs last seg -> log_is (mkWal wal_state_new (w_disk w) 0) recs last seg.
Proof.
  intros (segs & [H1 H2 H3 H4 H5 H6 H7] & Hr & Hl & Hs). exists segs. split; [|auto].
  split; cbn [w_state w_disk wal_state_new clearing poisoned identityHash initialized activeSegment activeBytes]; auto; try discriminate; try lia.
  intros _. split; [|auto]. split; [lia|]. apply (log_ids_nonneg cfg), H1.
Qed.

(** A scan hands every record to its visitor. *)
Lemma log_scan {V} (visitor : V -> WalReplayRecord -> V * bool) w recs last seg acc : log_is w recs last seg ->
  sc_status (scanWalFiles cfg visitor scan_io_good (w_disk w) acc) = ScanOK /\
  sc_acc (scanWalFiles cfg visitor scan_io_good (w_disk w) acc) = (visit_all visitor recs acc).1.
Proof.
  intros (segs & Hw & <- & _). pose proof (scan_log cfg visitor (w_disk w) segs acc (wi_log _ _ _ Hw) (wi_disk _ _ _ Hw)) as H.
  cbv zeta in H. destruct (visit_all visitor _ acc) as [acc' []]; [|tauto]. rewrite H. auto.
Qed.

(** LSNs increase up to the last one. *)
Lemma log_sorted w recs last seg : log_is w recs last seg ->
  StronglySorted Z.lt (map rr_lsn recs) /\ Forall (fun r => 0 < rr_lsn r <= last) recs.
Proof.
  intros (segs & Hw & <- & <- & _). destruct (scan_inv_scan cfg scan_io_good (w_disk w)) as [H1 H2 _ _].
  pose proof (scan_log cfg collect (w_disk w) segs [] (wi_log _ _ _ Hw) (wi_disk _ _ _ Hw)) as H. cbv zeta in H.
  rewrite visit_all_collect in H. rewrite H in H1, H2. cbn [scan_done_all sc_acc sc_lastLsn scan_start app] in H1, H2. auto.
Qed.
End Log.

(** ** Fields of a logged entry *)

Lemma value_find {A} (get : json -> option A) j k d : is_object j = true ->
  value get j k d = match json_find k j with Some v => or_err (get v) "type_error.302" | None => Ok d end.
Proof. destruct j; try discriminate. reflexivity. Qed.

Lemma find_stamp k e lsn ts : is_object e = true -> k ∉ [str "_wal_ts_ms"; str "_wal_seq"; str "_wal_lsn"] ->
  json_find k (stamp e lsn ts) = json_find k e.
Proof.
  destruct e as [| | | | | | | |m]; try discriminate. intros _ Hk. rewrite !not_elem_of_cons in Hk. destruct Hk as (H1 & H2 & H3 & _).
  unfold stamp. cbn [json_set json_find]. rewrite !obj_find_insert_ne by congruence. reflexivity.
Qed.

(** Setting a field to the value it has changes nothing. *)
Lemma json_set_same k v d : json_wf d -> json_find k d = Some v -> json_set k v d = d.
Proof.
  destruct d as [| | | | | | | |m]; try discriminate. intros (_ & Hs & _)%json_wf_object. cbn [json_find json_set]. intros H. f_equal.
  induction m as [|[k' v'] m IH]; [discriminate|]. cbn [obj_find obj_insert] in *.
  destruct (bytes_eqb k' k) eqn:E; [apply bytes_eqb_eq in E as ->; rewrite bytes_compare_refl; injection H as ->; reflexivity|].
  pose proof (obj_sorted_head_fresh _ _ _ Hs) as [_ Hs']. unfold obj_sorted in Hs. cbn [map fst] in Hs. apply StronglySorted_cons in Hs as [Hlt _].
  rewrite Forall_forall in Hlt. pose proof (obj_find_Some_elem _ _ _ H) as Hin.
  assert (Hk : bytes_lt k' k) by (apply Hlt; apply list_elem_of_In, in_map_iff; exists (k, v); split; [reflexivity|apply list_elem_of_In, Hin]).
  unfold bytes_lt in Hk. rewrite bytes_compare_antisym, Hk. cbn [CompOpp]. rewrite IH by assumption. reflexivity.
Qed.

Section Durability.
Context `{JT : JsonText} `{LZ : Lz4} `{LZC : !Lz4Correct} (ok : json -> Prop) `{JL : !JsonLineText ok}.
Context (cfg : wal_config) (validateRecord : json -> result unit) (MEMTABLE_LIMIT sstBlockBytes : Z).
Context (userId dbName collection : bytes) (e : raft_env).
Context (Hnamed : userId <> [] /\ dbName <> [] /\ collection <> []).

Abbreviation ver d := (extractDocVersionScore d).
Abbreviation visible d := (docVisibleByCommitIndex e d (re_commitIndex e)).

(** ** Records *)

(** The documents a record replays, with their keys. *)
Definition entry_docs (entry : json) : result (list (bytes * json)) :=
  ms ← entry_mutations entry; mutation_documents validateRecord userId dbName collection ms.

Definition rdocs (r : WalReplayRecord) : list (bytes * json) :=
  match entry_docs (rr_entry r) with Ok l => l | Err _ => [] end.

(** A record of this collection, whose documents are in their stored form. *)
Record rec_good (r : WalReplayRecord) : Prop := {
  rg_names : entry_names (rr_entry r) = Ok (userId, dbName, collection);
  rg_docs : entry_docs (rr_entry r) = Ok (rdocs r);
  rg_plain : Forall (fun kd => plain kd.1 kd.2 /\ canon kd.2 = kd.2) (rdocs r);
  rg_keys : NoDup (rdocs r).*1 }.

(** The operation of a write: a deletion is not validated again. *)
Definition replayable (op : string) (id : option bytes) (key : bytes) (stored : json) : Prop :=
  (op = "PUT"%string /\ validateRecord (canon stored) = Ok tt) \/ (op = "DELETE"%string /\ id = Some key).

(** The fields of an entry with one mutation. *)
Record one_mutation (E : json) (op : string) (key : bytes) (doc : json) : Prop := {
  om_object : is_object E = true;
  om_user : json_find (str "userId") E = Some (JString userId);
  om_db : json_find (str "db") E = Some (JString dbName);
  om_collection : json_find (str "collection") E = Some (JString collection);
  om_op : json_find (str "op") E = Some (JString (str op));
  om_data : json_find (str "data") E = Some doc;
  om_id : op = "DELETE"%string -> json_find (str "id") E = Some (JString key) }.

Lemma one_mutation_names E op key doc : one_mutation E op key doc -> entry_names E = Ok (userId, dbName, collection).
Proof.
  intros [Ho F1 F2 F3 _ _ _]. unfold entry_names. rewrite Ho. cbn [negb]. rewrite !value_find, F1, F2, F3 by exact Ho.
  cbn [as_string or_err mbind result_bind]. destruct Hnamed as (N1 & N2 & N3). destruct userId, dbName, collection; try contradiction. reflexivity.
Qed.

Lemma one_mutation_docs E op key doc : one_mutation E op key doc -> plain key doc ->
  (op = "PUT"%string /\ validateRecord doc = Ok tt) \/ op = "DELETE"%string -> entry_docs E = Ok [(key, doc)].
Proof.
  intros [Ho F1 F2 F3 F4 F5 F6] (Hwf & Hid & Hkey) Hop. pose proof (json_set_same _ _ _ Hwf Hid) as Hsame.
  unfold entry_docs, entry_mutations. rewrite value_find, F4 by exact Ho. cbn [as_string or_err mbind result_bind].
  assert (Hb : bytes_eqb (str op) (str "PUT_BATCH") = false /\ bytes_eqb (str op) (str "WAL_BATCH") = false) by (destruct Hop as [[-> _]| ->]; auto).
  destruct Hb as [-> ->]. cbn [mbind result_bind mutation_documents]. unfold mutation_document. rewrite Ho. cbn [negb]. rewrite !value_find, F1, F2, F3, F4, F5 by exact Ho.
  cbn [as_string or_err mbind result_bind]. rewrite !bytes_eqb_refl. cbn [andb negb].
  destruct doc as [| | | | | | | |m]; try discriminate Hid. destruct Hop as [[-> Hv]| ->].
  - change (bytes_eqb (str "PUT") (str "DELETE")) with false. cbn [mbind result_bind]. rewrite Hid. cbn [id_text or_err mbind result_bind].
    rewrite Hsame, Hv. reflexivity.
  - rewrite F6 by reflexivity. rewrite bytes_eqb_refl. cbn [as_string or_err mbind result_bind].
    replace (bytes_eqb key []) with false by (destruct key; [contradiction|reflexivity]). cbn [mbind result_bind]. rewrite Hid. cbn [id_text or_err mbind result_bind].
    rewrite Hsame. reflexivity.
Qed.

Lemma mutation_fields op id key stored lsn ts : json_find (str "id") stored = Some (JString key) -> replayable op id key stored ->
  one_mutation (stamp (canon (mutation_entry userId dbName collection op id stored)) lsn ts) op key (canon stored).
Proof.
  intros Hid Hop. set (entry := mutation_entry userId dbName collection op id stored).
  assert (Hf : forall k, k ∉ [str "_wal_ts_ms"; str "_wal_seq"; str "_wal_lsn"] -> json_find k (stamp (canon entry) lsn ts) = canon <$> json_find k entry)
    by (intros k Hk; rewrite find_stamp, canon_find; [reflexivity|reflexivity|exact Hk]).
  split; [reflexivity|..]; rewrite ?Hf by (rewrite !not_elem_of_cons; repeat split; discriminate || apply not_elem_of_nil); unfold entry, mutation_entry.
  all: try (destruct id; reflexivity). intros ->. destruct Hop as [[? _]|[_ ->]]; [discriminate|reflexivity].
Qed.

Lemma plain_canon key d : plain key d -> plain key (canon d).
Proof. intros (Hwf & Hid & Hk). split; [apply json_wf_canon, Hwf|]. split; [|exact Hk]. rewrite canon_find, Hid. reflexivity. Qed.

Lemma mutation_record op id key stored lsn ts : plain key stored -> replayable op id key stored ->
  let r := mkReplay INSERT lsn (stamp (canon (mutation_entry userId dbName collection op id stored)) lsn ts) in
  rec_good r /\ rdocs r = [(key, canon stored)].
Proof.
  intros Hp Hop r. pose proof (mutation_fields op id key stored lsn ts (proj1 (proj2 Hp)) Hop) as Hm. fold (rr_entry r) in Hm.
  assert (Hdocs : entry_docs (rr_entry r) = Ok [(key, canon stored)]).
  { apply (one_mutation_docs _ op); [exact Hm|apply plain_canon, Hp|]. destruct Hop as [?|[? _]]; auto. }
  assert (Hr : rdocs r = [(key, canon stored)]) by (unfold rdocs; rewrite Hdocs; reflexivity).
  split; [|exact Hr]. split; rewrite ?Hr; [apply (one_mutation_names _ _ _ _ Hm)|exact Hdocs| |].
  - constructor; [|constructor]. split; [apply plain_canon, Hp|apply canon_idem, Hp].
  - apply NoDup_singleton.
Qed.

(** ** The invariant *)

(** The documents of the records beyond [cov]. *)
Definition logged (cov : Z) (recs : list WalReplayRecord) : docset := fun x =>
  exists r k, r ∈ recs /\ cov < rr_lsn r /\ (k, x) ∈ rdocs r.

(** What survives the process: the published files and the uncovered records. *)
Definition stored_docs (d : store) (names : list bytes) (recs : list WalReplayRecord) (cov : Z) : docset := fun x =>
  on_disk d names x \/ logged cov recs x.

(** The files make up the collection [spec]. *)
Record filed (d : store) (w : wal) (names : list bytes) (recs : list WalReplayRecord) (last seg cov : Z) (spec : gmap bytes json) : Prop := {
  fd_listed : listed d names;
  fd_files : files_ok d names;
  fd_cov : covered_of (manifest_load_file load_good d) = cov /\ 0 <= cov <= last;
  fd_log : log_is cfg w recs last seg;
  fd_good : Forall rec_good recs;
  fd_order : forall r1 r2 k x1 x2, r1 ∈ recs -> r2 ∈ recs -> cov < rr_lsn r1 < rr_lsn r2 ->
    (k, x1) ∈ rdocs r1 -> (k, x2) ∈ rdocs r2 -> version_le (ver x1) (ver x2) = true;
  fd_consistent : consistent (stored_docs d names recs cov);
  fd_visible : forall x, stored_docs d names recs cov x -> visible x = true;
  fd_spec : represents (stored_docs d names recs cov) spec }.

Definition plain_table (t : Memtable) : Prop := forall k x, t !! k = Some x -> plain k x.

(** The running flush: its snapshot and the files cover the records up to the
    position it will publish, and the memtable is logged beyond it. *)
Definition flush_covers (s : coll) (names : list bytes) (recs : list WalReplayRecord) (last cov : Z) : Prop :=
  forall n snap c, flushing s = Some (n, snap, c) ->
    immutables s = [(n, snap)] /\ 0 <= c <= last /\
    (forall x, logged cov recs x -> logged (Z.max c cov) recs x \/ covers (fun y => on_disk (c_dir s) names y \/ in_table snap y) x) /\
    (forall d, in_table (memtable s) d -> logged (Z.max c cov) recs d).

(** The memory is a copy of the uncovered part of the log. *)
Record durable (s : coll) (names : list bytes) (recs : list WalReplayRecord) (last seg cov : Z) (spec : gmap bytes json) : Prop := {
  du_filed : filed (c_dir s) (c_wal s) names recs last seg cov spec;
  du_coherent : sst_coherent (c_dir s);
  du_progress : progress_wf (progress s) /\ forall n, applied (progress s) n -> n <= last;
  du_plain : plain_table (memtable s) /\ forall t, t ∈ immutables s -> plain_table t.2;
  du_flush : flush_covers s names recs last cov;
  du_applied : forall x, logged cov recs x -> covers (all_docs s names) x;
  du_memory : forall d, in_memory s d -> logged cov recs d }.

Lemma plain_table_steady t : plain_table t -> steady_table t.
Proof. intros H k x Hx. eapply plain_steady, H, Hx. Qed.

(** A durable collection reads as what is filed. *)
Lemma durable_reads s names recs last seg cov spec : durable s names recs last seg cov spec -> reads_as e s names spec.
Proof.
  intros [[H1 H2 H3 H4 H5 H6 H7 H8 H9] Hc _ [Hp1 Hp2] _ Happ Hmem].
  assert (Hsub : forall d, all_docs s names d -> stored_docs (c_dir s) names recs cov d) by (intros d [Hd|Hd]; [left; exact Hd|right; apply Hmem, Hd]).
  split; auto.
  - split; [apply plain_table_steady, Hp1|]. intros t Ht. apply plain_table_steady, Hp2, Ht.
  - eapply consistent_sub; [exact H7|exact Hsub].
  - eapply represents_shrink; [exact H7|exact H9|exact Hsub|]. intros d [Hd|Hd]; [apply covers_in; left; exact Hd|apply Happ, Hd].
Qed.

(** ** Writes *)

Lemma logged_snoc cov recs r x : logged cov (recs ++ [r]) x <-> logged cov recs x \/ (cov < rr_lsn r /\ exists k, (k, x) ∈ rdocs r).
Proof.
  unfold logged. split.
  - intros (r' & k & Hr & Hc & Hk). rewrite elem_of_app, list_elem_of_singleton in Hr. destruct Hr as [Hr| ->]; [left|right]; eauto 6.
  - intros [(r' & k & Hr & Hc & Hk)|(Hc & k & Hk)]; [exists r', k|exists r, k]; rewrite elem_of_app, list_elem_of_singleton; auto.
Qed.

(** The version is newer than the one of the collection. *)
Definition newer (spec : gmap bytes json) (key : bytes) (x : json) : Prop :=
  match spec !! key with Some cur => version_le (ver x) (ver cur) = false | None => True end.

Lemma newer_all D spec key x : represents D spec -> newer spec key x ->
  forall d, D d -> doc_id d = Some key -> version_le (ver x) (ver d) = false /\ version_le (ver d) (ver x) = true.
Proof.
  intros Hr Hn d Hd Hid. specialize (Hr key). unfold newer in Hn. destruct (spec !! key) as [cur|]; cbn in Hr; [|destruct (Hr d Hd Hid)].
  destruct Hr as (_ & _ & H3). assert (Hf : version_le (ver x) (ver d) = false).
  { destruct (version_le (ver x) (ver d)) eqn:E; [|reflexivity]. rewrite (version_le_trans _ _ _ E (H3 d Hd Hid)) in Hn. discriminate. }
  split; [exact Hf|apply version_le_total, Hf].
Qed.

Lemma in_table_insert key y (t : Memtable) d : in_table (<[key := y]> t) d <-> d = canon y \/ exists k z, k <> key /\ t !! k = Some z /\ d = canon z.
Proof.
  unfold in_table. split.
  - intros (k & z & H & ->). apply lookup_insert_Some in H as [[<- <-]|[Hne H]]; [auto|right; exists k, z; auto].
  - intros [->|(k & z & Hne & H & ->)]; [exists key, y|exists k, z]; (split; [|reflexivity]); apply lookup_insert_Some; auto.
Qed.

(** A new record of one document, newer than what is filed. *)
Lemma filed_write d w names recs last seg cov spec w' r seg' key x :
  filed d w names recs last seg cov spec -> log_is cfg w' (recs ++ [r]) (last + 1) seg' -> rr_lsn r = last + 1 -> rec_good r ->
  rdocs r = [(key, x)] -> is_Some (ver x) -> visible x = true -> newer spec key x ->
  filed d w' names (recs ++ [r]) (last + 1) seg' cov (<[key := x]> spec).
Proof.
  intros [H1 H2 [H3 H3'] H4 H5 H6 H7 H8 H9] Hlog Hlsn Hgood Hdocs Hver Hvis Hnew.
  assert (Hid : doc_id x = Some key) by (pose proof (rg_plain _ Hgood) as Hp; rewrite Hdocs in Hp; apply Forall_cons in Hp as [[Hp _] _]; apply plain_id, Hp).
  assert (Hset : forall y, stored_docs d names (recs ++ [r]) cov y <-> stored_docs d names recs cov y \/ y = x).
  { intros y. unfold stored_docs. rewrite logged_snoc, Hdocs. split.
    - intros [?|[?|(_ & k & Hk)]]; [auto|auto|]. apply list_elem_of_singleton in Hk. injection Hk as _ ->. auto.
    - intros [[?|?]| ->]; [auto|auto|]. right. right. split; [lia|]. exists key. apply list_elem_of_singleton. reflexivity. }
  pose proof (newer_all _ _ _ _ H9 Hnew) as Hall. destruct (log_sorted cfg _ _ _ _ H4) as [_ Hmax]. rewrite Forall_forall in Hmax.
  split; [exact H1|exact H2|split; [exact H3|lia]|exact Hlog|apply Forall_app; split; [exact H5|constructor; [exact Hgood|constructor]]|..].
  - intros r1 r2 k x1 x2 Hr1 Hr2 Hlt Hx1 Hx2. rewrite elem_of_app, list_elem_of_singleton in Hr1, Hr2.
    assert (Hr1' : r1 ∈ recs) by (destruct Hr1 as [?| ->]; [assumption|]; destruct Hr2 as [Hr2| ->]; [pose proof (Hmax _ Hr2)|]; lia).
    destruct Hr2 as [Hr2| ->]; [eauto|]. rewrite Hdocs in Hx2. apply list_elem_of_singleton in Hx2. injection Hx2 as -> ->.
    apply Hall; [right; exists r1, key; repeat split; auto; lia|]. rewrite Forall_forall in H5. pose proof (rg_plain _ (H5 _ Hr1')) as Hp.
    rewrite Forall_forall in Hp. apply plain_id, (Hp _ Hx1).
  - eapply consistent_sub; [|intros y Hy; exact (proj1 (Hset y) Hy)]. apply (consistent_add _ key); [exact H7|split; [rewrite Hid; eauto|exact Hver]|exact Hid|].
    intros y Hy Hyid. apply Hall; assumption.
  - intros y [Hy| ->]%Hset; auto.
  - eapply represents_ext; [intros y; symmetry; apply Hset|]. apply represents_add; [exact H9|exact Hid|]. intros y Hy Hyid. apply Hall; assumption.
Qed.

Lemma durable_write s names recs last seg cov spec w r seg' key stored :
  durable s names recs last seg cov spec -> log_is cfg w (recs ++ [r]) (last + 1) seg' -> rr_lsn r = last + 1 -> rec_good r ->
  rdocs r = [(key, canon stored)] -> plain key stored -> is_Some (ver stored) -> visible stored = true -> newer spec key (canon stored) ->
  last + 2 < 2 ^ 64 ->
  durable (apply_write s w [(key, stored)] (Some (last + 1, last + 1))) names (recs ++ [r]) (last + 1) seg' cov (<[key := canon stored]> spec).
Proof.
  intros [Hf Hc [Hp1 Hp2] [Hq1 Hq2] Hfl Happ Hmem] Hlog Hlsn Hgood Hdocs Hpl Hver Hvis Hnew Hmax. pose proof (plain_steady _ _ Hpl) as Hst.
  rewrite <- (sd_version _ Hst) in Hver. rewrite <- (sd_visible _ Hst) in Hvis. pose proof (fd_cov _ _ _ _ _ _ _ _ Hf) as [_ Hcov].
  pose proof (newer_all _ _ _ _ (fd_spec _ _ _ _ _ _ _ _ Hf) Hnew) as Hall.
  assert (Hx : forall c, c <= last -> logged c (recs ++ [r]) (canon stored)).
  { intros c Hcl. apply logged_snoc. right. split; [lia|]. exists key. rewrite Hdocs. apply list_elem_of_singleton. reflexivity. }
  assert (Hold : forall c y, logged c recs y -> logged c (recs ++ [r]) y) by (intros; apply logged_snoc; auto).
  assert (Htab : forall c, c <= last -> (forall y, in_table (memtable s) y -> logged c recs y) ->
    forall y, in_table (<[key := stored]> (memtable s)) y -> logged c (recs ++ [r]) y).
  { intros c Hcl H y [->|(k & z & _ & Hz & ->)]%in_table_insert; [auto|]. apply Hold, H. exists k, z. auto. }
  unfold apply_write, apply_docs. cbn [fold_left fst snd]. split; cbn [c_dir c_wal memtable immutables progress flushing].
  - eapply filed_write; eassumption.
  - exact Hc.
  - destruct (markWalApplied_spec (last + 1) (last + 1) (progress s) Hp1 ltac:(lia) ltac:(lia)) as [Hw Ha]. split; [exact Hw|].
    intros n [Hn|Hn]%Ha; [specialize (Hp2 n Hn)|]; lia.
  - split; [|exact Hq2]. intros k y [[<- <-]|[_ Hy]]%lookup_insert_Some; auto.
  - intros n snap c Hs. destruct (Hfl n snap c Hs) as (F1 & F2 & F3 & F4). cbn [c_dir memtable immutables]. split; [exact F1|]. split; [lia|]. split.
    + intros y Hy%logged_snoc. destruct Hy as [Hy|(Hl & k & Hk)]; [destruct (F3 y Hy) as [Hl|Hl]; [left; apply Hold, Hl|right; exact Hl]|].
      rewrite Hdocs in Hk. apply list_elem_of_singleton in Hk. injection Hk as _ ->. left. apply Hx. lia.
    + apply Htab; [lia|exact F4].
  - assert (Hcov' : forall d, all_docs s names d -> covers (all_docs (mkColl (<[key := stored]> (memtable s)) (immutables s) (tables s)
        (markWalApplied (last + 1) (last + 1) (progress s)) (flushing s) (c_dir s) w) names) d).
    { intros d [Hd|[(k & z & Hz & ->)|Hd]]; [apply covers_in; left; exact Hd| |apply covers_in; right; right; exact Hd].
      destruct (decide (k = key)) as [->|Hne]; [|apply covers_in; right; left; apply in_table_insert; right; exists k, z; auto].
      assert (Hid : doc_id (canon z) = Some key) by (apply plain_id, plain_canon, Hq1, Hz).
      exists (canon stored). split; [right; left; apply in_table_insert; auto|]. split; [rewrite Hid; apply plain_id, plain_canon, Hpl|].
      apply Hall; [|exact Hid]. right. apply Hmem. left. exists key, z. auto. }
    intros y [Hy|(_ & k & Hk)]%logged_snoc; [eapply covers_mono; [exact Hcov'|apply Happ, Hy]|].
    rewrite Hdocs in Hk. apply list_elem_of_singleton in Hk. injection Hk as _ ->. apply covers_in. right. left. apply in_table_insert. auto.
  - intros d [Hd|Hd]; cbn [memtable immutables] in Hd; [|apply Hold, Hmem; right; exact Hd].
    apply (Htab cov ltac:(lia)); [intros y Hy; apply Hmem; left; exact Hy|exact Hd].
Qed.

(** ** Flushes *)

(** The first half, when no earlier snapshot is left over. *)
Lemma durable_flush_begin s names recs last seg cov spec : durable s names recs last seg cov spec -> immutables s = [] ->
  durable (flush_begin s) names recs last seg cov spec.
Proof.
  intros H Him. unfold flush_begin. destruct (flushing s) eqn:Ef; [exact H|]. destruct (bool_decide (memtable s = ∅)); [exact H|].
  destruct H as [Hf Hc [Hp1 Hp2] [Hq1 _] _ Happ Hmem]. rewrite Him in *.
  assert (Hdocs : forall d, all_docs s names d -> on_disk (c_dir s) names d \/ in_table (memtable s) d).
  { intros d [?|[?|(t & Ht & _)]]; auto. rewrite Him in Ht. inversion Ht. }
  pose proof (pw_contiguous _ Hp1) as Hcon. assert (Hcl : contiguous (progress s) <= last).
  { destruct (Z.eq_dec (contiguous (progress s)) 0) as [->|Hne]; [pose proof (proj2 (fd_cov _ _ _ _ _ _ _ _ Hf)); lia|]. apply Hp2. left. lia. }
  split; cbn [c_dir c_wal memtable immutables progress flushing]; auto.
  - split; [intros k x Hx; destruct (lookup_empty_Some (M := gmap bytes) k x Hx)|]. intros t Ht. apply list_elem_of_singleton in Ht as ->. exact Hq1.
  - intros n snap c [= <- <- <-]. split; [reflexivity|]. split; [lia|]. cbn [c_dir memtable]. split; [|intros d Hd; destruct (in_empty d Hd)].
    intros x Hx. right. eapply covers_mono; [|apply Happ, Hx]. intros y Hy. apply covers_in, Hdocs, Hy.
  - intros x Hx. eapply covers_mono; [|apply Happ, Hx]. intros y [Hy|Hy]%Hdocs; apply covers_in; [left; exact Hy|].
    right. right. exists (tables s, memtable s). split; [apply list_elem_of_singleton; reflexivity|exact Hy].
  - intros d [Hd|(t & Ht & Hd)]; [destruct (in_empty d Hd)|]. apply list_elem_of_singleton in Ht as ->. apply Hmem. left. exact Hd.
Qed.

Lemma logged_le c c' recs x : c <= c' -> logged c' recs x -> logged c recs x.
Proof. intros Hc (r & k & Hr & Hl & Hk). exists r, k. repeat split; auto. lia. Qed.

(** Reclaiming covered records takes nothing that is not covered. *)
Lemma logged_drop c k recs x : Forall (fun r => rr_lsn r <= c) (take k recs) -> logged c (drop k recs) x <-> logged c recs x.
Proof.
  intros H. rewrite Forall_forall in H. split; intros (r & key & Hr & Hl & Hk); exists r, key; (split; [|auto]).
  - rewrite <- (take_drop k recs). apply elem_of_app. auto.
  - rewrite <- (take_drop k recs) in Hr. apply elem_of_app in Hr as [Hr|Hr]; [|exact Hr]. specialize (H r Hr). lia.
Qed.

Lemma drop_elem {A} k (l : list A) x : x ∈ drop k l -> x ∈ l.
Proof. intros H. rewrite <- (take_drop k l). apply elem_of_app. auto. Qed.

(** A flush that was not published: the snapshot stays in memory. *)
Lemma durable_flush_failed s names recs last seg cov spec d : durable s names recs last seg cov spec -> sst_coherent d ->
  same_files (c_dir s) d -> durable (with_dir (with_flushing s None) d) names recs last seg cov spec.
Proof.
  intros [[H1 H2 H3 H4 H5 H6 H7 H8 H9] Hc Hp Hq _ Happ Hmem] Hcd Hs. pose proof (fun x => on_disk_same _ _ _ x H1 Hs) as Hon.
  assert (Hst : forall x, stored_docs d names recs cov x <-> stored_docs (c_dir s) names recs cov x) by (intros x; unfold stored_docs; rewrite Hon; reflexivity).
  split; cbn [c_dir c_wal memtable immutables progress flushing with_dir with_flushing]; auto.
  - split; auto.
    + apply (same_files_listed _ _ _ Hs H1).
    + intros n Hn. rewrite (proj2 Hs n) by apply (listed_names _ _ H1 n Hn). apply H2, Hn.
    + rewrite (same_files_load _ _ Hs). exact H3.
    + eapply consistent_sub; [exact H7|]. intros x. apply Hst.
    + intros x Hx. apply H8, Hst, Hx.
    + eapply represents_ext; [intros x; symmetry; apply Hst|exact H9].
  - intros n snap c Hn. discriminate Hn.
  - intros x Hx. eapply covers_mono; [|apply Happ, Hx]. intros y [Hy|Hy]; apply covers_in; [left; apply Hon, Hy|right; exact Hy].
Qed.

(** A published flush: the snapshot is on disk, the manifest covers its records
    and the log may lose them. *)
Lemma filed_published d d' w w' names names' recs k last seg seg' cov c spec snap :
  filed d w names recs last seg cov spec -> listed d' names' -> files_ok d' names' ->
  covered_of (manifest_load_file load_good d') = Z.max c cov -> 0 <= c <= last ->
  log_is cfg w' (drop k recs) last seg' -> Forall (fun r => rr_lsn r <= Z.max c cov) (take k recs) ->
  (forall x, on_disk d' names' x <-> on_disk d names x \/ in_table snap x) ->
  (forall x, in_table snap x -> logged cov recs x) ->
  (forall x, logged cov recs x -> logged (Z.max c cov) recs x \/ covers (fun y => on_disk d names y \/ in_table snap y) x) ->
  filed d' w' names' (drop k recs) last seg' (Z.max c cov) spec.
Proof.
  intros [H1 H2 [H3 H3'] H4 H5 H6 H7 H8 H9] Hl Hf Hcov Hc Hlog Hk Hon Hsnap Hcv.
  assert (Hsub : forall x, stored_docs d' names' (drop k recs) (Z.max c cov) x -> stored_docs d names recs cov x).
  { intros x [Hx|Hx]; [apply Hon in Hx as [Hx|Hx]; [left; exact Hx|right; apply Hsnap, Hx]|]. right.
    apply (logged_drop _ _ _ _ Hk) in Hx. apply (logged_le cov (Z.max c cov)); [lia|exact Hx]. }
  split; auto.
  - split; [exact Hcov|lia].
  - apply Forall_forall. intros r Hr%drop_elem. rewrite Forall_forall in H5. auto.
  - intros r1 r2 key x1 x2 Hr1 Hr2 Hlt. apply H6; [apply (drop_elem k), Hr1|apply (drop_elem k), Hr2|lia].
  - eapply consistent_sub; [exact H7|exact Hsub].
  - eapply represents_shrink; [exact H7|exact H9|exact Hsub|]. intros x [Hx|Hx]; [apply covers_in; left; apply Hon; auto|].
    destruct (Hcv x Hx) as [Hx'|Hx']; [apply covers_in; right; apply (logged_drop _ _ _ _ Hk), Hx'|].
    eapply covers_mono; [|exact Hx']. intros y Hy. apply covers_in. left. apply Hon, Hy.
Qed.

(** What a flush does to the log. *)
Lemma flush_log io (replaying : bool) w recs last seg published : log_is cfg w recs last seg -> (replaying = false -> ri_scan (fl_reclaim io) = scan_io_good) ->
  exists k seg', seg' <= seg /\ Forall (fun r => rr_lsn r <= published) (take k recs) /\
    log_is cfg (if (0 <? published) && negb replaying then (reclaimThrough cfg (fl_reclaim io) w published).2 else w) (drop k recs) last seg'.
Proof.
  intros Hlog Hs. destruct ((0 <? published) && negb replaying) eqn:E.
  - apply andb_true_iff in E as [_ ->%negb_true_iff].
    destruct (log_reclaim cfg (fl_reclaim io) w recs last seg published Hlog (Hs eq_refl)) as (k & seg' & H1 & H2 & H3). eauto 6.
  - exists O, seg. rewrite drop_0. repeat split; [lia|constructor|exact Hlog].
Qed.

(** The second half, whatever its outcome. *)
Lemma durable_flush_end io replaying s names recs last seg cov spec n snap c : durable s names recs last seg cov spec ->
  flushing s = Some (n, snap, c) -> flush_ready ok sstBlockBytes io s names snap c -> (replaying = false -> ri_scan (fl_reclaim io) = scan_io_good) ->
  exists names' recs' seg' cov', seg' <= seg /\ durable (flush_end cfg sstBlockBytes io replaying s).2 names' recs' last seg' cov' spec.
Proof.
  intros H Hfl Hr Hscan. pose proof H as [Hf Hc Hp [Hq1 Hq2] Hcovers Happ Hmem].
  pose proof (flush_end_cases ok cfg sstBlockBytes io replaying s names n snap c Hfl (fd_listed _ _ _ _ _ _ _ _ Hf) Hr) as Hends.
  destruct (flush_end cfg sstBlockBytes io replaying s) as [res s']. cbn [snd]. destruct (Hcovers n snap c Hfl) as (Him & Hcl & Hcv & Htab).
  destruct Hends as [r' d Hcd Hn Hsame|d m w Hcd Hn Hm Hcm Hnames Hold Hff Hcn ->].
  { exists names, recs, seg, cov. split; [lia|]. apply durable_flush_failed; assumption. }
  destruct (published_docs io s names snap d m (fd_listed _ _ _ _ _ _ _ _ Hf) (fd_files _ _ _ _ _ _ _ _ Hf) (fr_fresh _ _ _ _ _ _ _ Hr) Hnames Hold Hff Hcn) as [Hf' Hon].
  destruct (flush_log io replaying (c_wal s) recs last seg (coveredWalLsn m) (fd_log _ _ _ _ _ _ _ _ Hf) Hscan) as (k & seg' & Hseg & Hk & Hlog).
  rewrite (proj1 (fd_cov _ _ _ _ _ _ _ _ Hf)) in Hcm. rewrite Hcm in Hk.
  exists (sstFiles m), (drop k recs), seg', (Z.max c cov). split; [exact Hseg|].
  assert (Hdrop : drop_table n (immutables s) = []) by (rewrite Him; unfold drop_table; cbn; rewrite Nat.eqb_refl; reflexivity).
  assert (Hsnap : forall x, in_table snap x -> logged cov recs x).
  { intros x Hx. apply Hmem. right. exists (n, snap). rewrite Him. split; [apply list_elem_of_singleton; reflexivity|exact Hx]. }
  split; cbn [c_dir c_wal memtable immutables progress flushing]; rewrite ?Hdrop; auto.
  - eapply filed_published; [exact Hf|unfold listed; rewrite Hm; reflexivity|exact Hf'|rewrite Hm; exact Hcm|exact Hcl|exact Hlog|exact Hk|exact Hon|exact Hsnap|exact Hcv].
  - split; [exact Hq1|]. intros t Ht. inversion Ht.
  - intros n' snap' c' Hn'. discriminate Hn'.
  - intros x Hx. apply (logged_drop _ _ _ _ Hk) in Hx. eapply covers_mono; [|apply Happ, (logged_le cov (Z.max c cov)); [lia|exact Hx]].
    intros y [Hy|[Hy|(t & Ht & Hy)]]; apply covers_in; [left; apply Hon; auto|right; left; exact Hy|].
    rewrite Him in Ht. apply list_elem_of_singleton in Ht as ->. left. apply Hon. auto.
  - intros x [Hx|(t & Ht & _)]; [|inversion Ht]. apply (logged_drop _ _ _ _ Hk), Htab, Hx.
Qed.

(** ** Recovery *)

Lemma filed_reopen s names recs last seg cov spec : filed (c_dir s) (c_wal s) names recs last seg cov spec ->
  filed (c_dir (reopen s)) (c_wal (reopen s)) names recs last seg cov spec.
Proof.
  intros [H1 H2 H3 H4 H5 H6 H7 H8 H9]. assert (Hs : same_files (c_dir s) (c_dir (reopen s))) by (split; auto).
  assert (Hon : forall x, stored_docs (c_dir (reopen s)) names recs cov x <-> stored_docs (c_dir s) names recs cov x)
    by (intros x; unfold stored_docs; rewrite (on_disk_same _ _ _ x H1 Hs); reflexivity).
  split; auto.
  - apply (same_files_listed _ _ _ Hs H1).
  - rewrite (same_files_load _ _ Hs). exact H3.
  - apply (log_restart cfg), H4.
Qed.

Lemma apply_docs_lookup docs : forall t k, NoDup docs.*1 ->
  (forall x, (k, x) ∈ docs -> apply_docs docs t !! k = Some x) /\ (k ∉ docs.*1 -> apply_docs docs t !! k = t !! k).
Proof.
  induction docs as [|[k' x'] docs IH]; intros t k Hnd; [split; [intros x Hx; inversion Hx|reflexivity]|].
  rewrite fmap_cons in Hnd. pose proof (NoDup_cons_1_1 _ _ Hnd) as Hk'. pose proof (NoDup_cons_1_2 _ _ Hnd) as Hnd'.
  change (apply_docs ((k', x') :: docs) t) with (apply_docs docs (<[k' := x']> t)). destruct (IH (<[k' := x']> t) k Hnd') as [I1 I2]. split.
  - intros x Hx. apply elem_of_cons in Hx as [[= -> ->]|Hx]; [|apply I1, Hx]. rewrite I2 by exact Hk'. apply lookup_insert_Some. auto.
  - rewrite fmap_cons, not_elem_of_cons. intros [Hne Hk]. rewrite I2 by exact Hk. apply (lookup_insert_ne (M := gmap bytes)). cbn in Hne. congruence.
Qed.

Lemma apply_docs_size docs : forall t, (size (apply_docs docs t) <= size t + length docs)%nat.
Proof.
  induction docs as [|[k x] docs IH]; intros t; [cbn; lia|]. change (apply_docs ((k, x) :: docs) t) with (apply_docs docs (<[k := x]> t)).
  specialize (IH (<[k := x]> t)). assert (Hs : (size (<[k := x]> t) <= S (size t))%nat).
  { pose proof (map_size_insert (M := gmap bytes) k x t) as E. unfold Memtable in *. etransitivity; [apply Nat.eq_le_incl, E|]. destruct (t !! k); cbn; lia. }
  cbn [length]. lia.
Qed.

(** The memtable that [done] makes up: for every key a document of [done], as new as any. *)
Record rebuilt (cov : Z) (done : list WalReplayRecord) (t : Memtable) : Prop := {
  rb_from : forall k x, t !! k = Some x -> exists r, r ∈ done /\ cov < rr_lsn r /\ (k, x) ∈ rdocs r;
  rb_newest : forall r k x, r ∈ done -> cov < rr_lsn r -> (k, x) ∈ rdocs r -> exists y, t !! k = Some y /\ version_le (ver x) (ver y) = true;
  rb_size : (size t <= length (flat_map rdocs done))%nat }.

Lemma rebuilt_skip cov done t r : rebuilt cov done t -> rr_lsn r <= cov -> rebuilt cov (done ++ [r]) t.
Proof.
  intros [H1 H2 H3] Hr. split.
  - intros k x Hx. destruct (H1 k x Hx) as (r' & Hr' & Hl). exists r'. rewrite elem_of_app. auto.
  - intros r' k x Hr' Hl. rewrite elem_of_app, list_elem_of_singleton in Hr'. destruct Hr' as [Hr'| ->]; [eauto|lia].
  - rewrite flat_map_app, length_app. lia.
Qed.

Lemma rebuilt_apply cov done t r : rebuilt cov done t -> rec_good r -> cov < rr_lsn r ->
  (forall r' k x x', r' ∈ done -> cov < rr_lsn r' -> (k, x') ∈ rdocs r' -> (k, x) ∈ rdocs r -> version_le (ver x') (ver x) = true) ->
  rebuilt cov (done ++ [r]) (apply_docs (rdocs r) t).
Proof.
  intros [H1 H2 H3] Hg Hl Hord. pose proof (fun k => apply_docs_lookup (rdocs r) t k (rg_keys _ Hg)) as Hlook. split.
  - intros k x Hx. destruct (Hlook k) as [L1 L2]. destruct (decide (k ∈ (rdocs r).*1)) as [Hk|Hk].
    + apply list_elem_of_fmap in Hk as ([k' y] & -> & Hy). cbn in Hx, L1. rewrite (L1 y Hy) in Hx. injection Hx as ->.
      exists r. rewrite elem_of_app, list_elem_of_singleton. auto.
    + rewrite (L2 Hk) in Hx. destruct (H1 k x Hx) as (r' & Hr' & Hl'). exists r'. rewrite elem_of_app. auto.
  - intros r' k x Hr' Hl' Hx. destruct (Hlook k) as [L1 L2]. rewrite elem_of_app, list_elem_of_singleton in Hr'.
    destruct Hr' as [Hr'| ->]; [|exists x; split; [apply L1, Hx|apply version_le_refl]].
    destruct (H2 r' k x Hr' Hl' Hx) as (y & Hy & Hle). destruct (decide (k ∈ (rdocs r).*1)) as [Hk|Hk]; [|exists y; rewrite (L2 Hk); auto].
    apply list_elem_of_fmap in Hk as ([k' z] & E & Hz). cbn in E. subst k'. exists z. split; [apply L1, Hz|]. eapply Hord; eauto.
  - pose proof (apply_docs_size (rdocs r) t). rewrite flat_map_app, length_app. cbn [flat_map]. rewrite app_nil_r. lia.
Qed.

(** The recovery visitor between two records. *)
Record replays (s0 : coll) (cov : Z) (done : list WalReplayRecord) (r : replaying) : Prop := {
  rp_kept : c_dir (rp_coll r) = c_dir s0 /\ c_wal (rp_coll r) = c_wal s0 /\ immutables (rp_coll r) = [] /\ flushing (rp_coll r) = None;
  rp_fine : rp_error r = None /\ rp_flushes r = O;
  rp_table : rebuilt cov done (memtable (rp_coll r));
  rp_names : match rp_expected r with
             | None => done = [] /\ progress (rp_coll r) = progress_new
             | Some names => names = (userId, dbName, collection) /\ rp_covered r = cov
             end;
  rp_progress : progress_wf (progress (rp_coll r)) /\
    forall n, applied (progress (rp_coll r)) n -> n <= cov \/ exists r, r ∈ done /\ n <= rr_lsn r }.

Abbreviation replay fio := (replay_record cfg validateRecord MEMTABLE_LIMIT sstBlockBytes load_good fio).

Lemma begin_replays s0 cov done r : replays s0 cov done r -> covered_of (manifest_load_file load_good (c_dir s0)) = cov -> 0 <= cov < 2 ^ 64 - 1 ->
  (forall m, manifest_load_file load_good (c_dir s0) <> ManifestError m) ->
  exists r', begin_replay load_good (userId, dbName, collection) r = Ok r' /\ replays s0 cov done r' /\
    rp_expected r' = Some (userId, dbName, collection) /\ rp_covered r' = cov.
Proof.
  intros [H1 H2 H3 H4 H5] Hcov Hc Hno. unfold begin_replay. destruct (rp_expected r) as [names|] eqn:E.
  - destruct H4 as [-> Hcr]. rewrite bool_decide_eq_true_2 by reflexivity. exists r. split; [reflexivity|]. split; [|auto]. split; auto. rewrite E. auto.
  - destruct H1 as (E1 & E2 & E3 & E4). rewrite E1. destruct (manifest_load_file load_good (c_dir s0)) as [|m|m] eqn:El; [..|destruct (Hno m eq_refl)]; cbn [covered_of] in Hcov;
      (eexists; split; [reflexivity|]; split; [|split; [reflexivity|exact Hcov]]); split; cbn [rp_coll rp_error rp_flushes rp_expected rp_covered memtable immutables flushing c_dir c_wal progress]; auto;
      (split; [split; cbn [contiguous intervals gaps]; [lia|exact I]|]); intros n [Hn|Hn]; cbn in Hn; [left; lia|inversion Hn|left; lia|inversion Hn].
Qed.

(** What recovery relies on: a manifest that loads, good records in order, and
    fewer documents than fill a memtable. *)
Record recoverable (s0 : coll) (cov : Z) (recs : list WalReplayRecord) : Prop := {
  rv_cov : covered_of (manifest_load_file load_good (c_dir s0)) = cov /\ 0 <= cov < 2 ^ 64 - 1;
  rv_loads : forall m, manifest_load_file load_good (c_dir s0) <> ManifestError m;
  rv_good : Forall rec_good recs;
  rv_lsns : StronglySorted Z.lt (map rr_lsn recs) /\ Forall (fun r => 0 < rr_lsn r < 2 ^ 64 - 1) recs;
  rv_order : forall r1 r2 k x1 x2, r1 ∈ recs -> r2 ∈ recs -> cov < rr_lsn r1 < rr_lsn r2 ->
    (k, x1) ∈ rdocs r1 -> (k, x2) ∈ rdocs r2 -> version_le (ver x1) (ver x2) = true;
  rv_fits : Z.of_nat (length (flat_map rdocs recs)) < MEMTABLE_LIMIT }.

Lemma sorted_before (done : list WalReplayRecord) r rest : StronglySorted Z.lt (map rr_lsn (done ++ r :: rest)) ->
  forall r', r' ∈ done -> rr_lsn r' < rr_lsn r.
Proof.
  induction done as [|x done IH]; intros Hs r' Hr'; [inversion Hr'|]. cbn [map app] in Hs. apply StronglySorted_cons in Hs as [Hx Hs].
  apply elem_of_cons in Hr' as [->|Hr']; [|apply IH; assumption]. rewrite Forall_forall in Hx. apply Hx.
  apply list_elem_of_In, in_map_iff. exists r. split; [reflexivity|]. apply in_or_app. right. left. reflexivity.
Qed.

Lemma replay_step s0 cov fio done r rec rest : recoverable s0 cov (done ++ rec :: rest) -> replays s0 cov done r ->
  exists r', replay fio r rec = (r', true) /\ replays s0 cov (done ++ [rec]) r' /\ rp_expected r' = Some (userId, dbName, collection).
Proof.
  intros [[Hcov Hc] Hno Hgood [Hsort Hlsn] Hord Hfits] Hr. rewrite Forall_forall in Hgood, Hlsn.
  assert (Hin : rec ∈ done ++ rec :: rest) by (apply elem_of_app; right; left). pose proof (Hgood _ Hin) as Hg. pose proof (Hlsn _ Hin) as Hl.
  destruct (begin_replays s0 cov done r Hr Hcov Hc Hno) as (r1 & E1 & [(K1 & K2 & K3 & K4) [F1 F2] Ht _ [P1 P2]] & Ee & Ec).
  unfold replay_record. rewrite (rg_names _ Hg). cbn [mbind result_bind]. rewrite E1. cbn [mbind result_bind]. rewrite Ee. cbn [default from_option id]. rewrite Ec.
  assert (Hmono : forall n, n <= cov \/ (exists r, r ∈ done /\ n <= rr_lsn r) -> n <= cov \/ exists r, r ∈ done ++ [rec] /\ n <= rr_lsn r).
  { intros n [?|(r' & Hr' & Hn)]; [auto|]. right. exists r'. rewrite elem_of_app. auto. }
  destruct (Z.leb_spec (rr_lsn rec) cov) as [Hle|Hgt].
  { exists r1. split; [reflexivity|]. split; [|exact Ee]. split; [auto|auto|apply rebuilt_skip; assumption|rewrite Ee; auto|split; auto]. }
  pose proof (rg_docs _ Hg) as Hd. unfold entry_docs in Hd. destruct (entry_mutations (rr_entry rec)) as [ms|]; [|discriminate Hd]. cbn [mbind result_bind] in Hd |- *.
  rewrite Hd. cbn [mbind result_bind].
  assert (Ht' : rebuilt cov (done ++ [rec]) (apply_docs (rdocs rec) (memtable (rp_coll r1)))).
  { apply rebuilt_apply; auto. intros r' k x x' Hr' Hl' Hx' Hx. apply (Hord r' rec k x' x); auto; [apply elem_of_app; auto|].
    split; [exact Hl'|]. apply (sorted_before done rec rest Hsort r' Hr'). }
  replace (memtable_full _ _) with false.
  2:{ symmetry. unfold memtable_full. apply Z.leb_gt. cbn [apply_write memtable]. pose proof (rb_size _ _ _ Ht') as Hs.
      rewrite flat_map_app, length_app in Hfits, Hs. cbn [flat_map] in Hfits, Hs. rewrite length_app in Hfits. rewrite app_nil_r in Hs. lia. }
  eexists. split; [reflexivity|]. split; [|reflexivity].
  destruct (markWalApplied_spec (rr_lsn rec) (rr_lsn rec) (progress (rp_coll r1)) P1 ltac:(lia) ltac:(lia)) as [Hw Ha].
  split; cbn [rp_coll rp_error rp_flushes rp_expected rp_covered apply_write memtable immutables flushing c_dir c_wal progress]; auto.
  - split; [exact Hw|]. intros n [Hn|Hn]%Ha; [auto|]. right. exists rec. rewrite elem_of_app, list_elem_of_singleton. split; [auto|lia].
Qed.

Lemma replay_all s0 cov fio rest : forall done r, recoverable s0 cov (done ++ rest) -> replays s0 cov done r ->
  exists r', visit_all (replay fio) rest r = (r', true) /\ replays s0 cov (done ++ rest) r' /\
    (rest <> [] -> rp_expected r' = Some (userId, dbName, collection)).
Proof.
  induction rest as [|rec rest IH]; intros done r Hv Hr.
  - exists r. rewrite app_nil_r. split; [reflexivity|]. split; [exact Hr|congruence].
  - destruct (replay_step s0 cov fio done r rec rest Hv Hr) as (r1 & E1 & H1 & Ee). cbn [visit_all]. rewrite E1.
    assert (Eq : done ++ rec :: rest = (done ++ [rec]) ++ rest) by (rewrite <- app_assoc; reflexivity).
    rewrite Eq in Hv |- *. destruct (IH (done ++ [rec]) r1 Hv H1) as (r' & E' & H' & Ex).
    exists r'. split; [exact E'|]. split; [exact H'|]. intros _. destruct rest as [|x rest]; [|apply Ex; discriminate].
    cbn in E'. injection E' as <-. exact Ee.
Qed.

(** The state when all records have been visited. *)
Lemma replayed_durable s names recs last seg cov spec r : filed (c_dir s) (c_wal s) names recs last seg cov spec -> sst_coherent (c_dir s) ->
  replays s cov recs r -> durable (rp_coll r) names recs last seg cov spec.
Proof.
  intros Hf Hc [(K1 & K2 & K3 & K4) _ [T1 T2 _] _ [P1 P2]]. pose proof (fd_good _ _ _ _ _ _ _ _ Hf) as Hgood. rewrite Forall_forall in Hgood.
  destruct (log_sorted cfg _ _ _ _ (fd_log _ _ _ _ _ _ _ _ Hf)) as [_ Hmax]. rewrite Forall_forall in Hmax.
  assert (Hplain : forall r k x, r ∈ recs -> (k, x) ∈ rdocs r -> plain k x /\ canon x = x).
  { intros r' k x Hr Hx. pose proof (rg_plain _ (Hgood r' Hr)) as Hp. rewrite Forall_forall in Hp. exact (Hp _ Hx). }
  assert (Hkeys : plain_table (memtable (rp_coll r))).
  { intros k x Hx. destruct (T1 k x Hx) as (r' & Hr & _ & Hk). apply (Hplain r'); assumption. }
  split; rewrite ?K1, ?K2, ?K3; auto.
  - split; [exact P1|]. intros n Hn. destruct (P2 n Hn) as [?|(r' & Hr & Hn')]; [pose proof (proj2 (fd_cov _ _ _ _ _ _ _ _ Hf)); lia|specialize (Hmax r' Hr); lia].
  - split; [exact Hkeys|]. intros t Ht. inversion Ht.
  - intros n snap c Hn. congruence.
  - intros x (r' & k & Hr & Hl & Hk). destruct (T2 r' k x Hr Hl Hk) as (y & Hy & Hle). destruct (T1 k y Hy) as (r2 & Hr2 & _ & Hk2).
    destruct (Hplain r' k x Hr Hk) as [Hpx _]. destruct (Hplain r2 k y Hr2 Hk2) as [Hpy Hcy].
    exists y. split; [right; left; exists k, y; auto|]. split; [rewrite (plain_id _ _ Hpx), (plain_id _ _ Hpy); reflexivity|exact Hle].
  - intros d [(k & x & Hx & ->)|(t & Ht & _)]; [|rewrite K3 in Ht; inversion Ht].
    destruct (T1 k x Hx) as (r' & Hr & Hl & Hk). destruct (Hplain r' k x Hr Hk) as [_ ->]. exists r', k. auto.
Qed.

Lemma durable_reclaim io s names recs last seg cov spec : durable s names recs last seg cov spec -> flushing s = None -> ri_scan io = scan_io_good ->
  exists k seg', seg' <= seg /\ durable (with_wal s (reclaimThrough cfg io (c_wal s) cov).2) names (drop k recs) last seg' cov spec.
Proof.
  intros [Hf Hc Hp Hq _ Happ Hmem] Hfl Hs. pose proof Hf as [H1 H2 [H3 H3'] H4 H5 H6 H7 H8 H9].
  destruct (log_reclaim cfg io (c_wal s) recs last seg cov H4 Hs) as (k & seg' & Hseg & Hlog & Hk). exists k, seg'. split; [exact Hseg|].
  assert (Hmax : Z.max 0 cov = cov) by lia.
  split; cbn [c_dir c_wal memtable immutables progress flushing with_wal]; auto.
  - rewrite <- Hmax. eapply (filed_published (c_dir s) (c_dir s) (c_wal s) _ names names recs k last seg seg' cov 0 spec ∅); rewrite ?Hmax; auto.
    + lia.
    + intros x. split; [auto|]. intros [?|Hx]; [auto|destruct (in_empty x Hx)].
    + intros x Hx. destruct (in_empty x Hx).
  - intros n snap c Hn. cbn [flushing with_wal] in Hn. congruence.
  - intros x Hx. apply (logged_drop _ _ _ _ Hk) in Hx. exact (Happ x Hx).
  - intros x Hx. apply (logged_drop _ _ _ _ Hk), Hmem, Hx.
Qed.

Lemma filed_recoverable s names recs last seg cov spec : filed (c_dir s) (c_wal s) names recs last seg cov spec ->
  last < 2 ^ 64 - 1 -> Z.of_nat (length (flat_map rdocs recs)) < MEMTABLE_LIMIT -> recoverable s cov recs.
Proof.
  intros [H1 H2 [H3 H3'] H4 H5 H6 H7 H8 H9] Hlast Hfit. destruct (log_sorted cfg _ _ _ _ H4) as [Hs Hm]. split; auto; [split; [exact H3|lia]|..].
  - intros m Hm'. unfold listed in H1. rewrite Hm' in H1. exact H1.
  - split; [exact Hs|]. eapply Forall_impl; [exact Hm|]. intros r Hr. cbn in Hr. lia.
Qed.

(** The collection in memory when the scan of a restart is over. *)
Definition replayed_coll (fio : nat -> flush_io) (s : coll) : coll :=
  rp_coll (sc_acc (scanWalFiles cfg (replay fio) scan_io_good (w_disk (c_wal s)) (mkReplaying s None 0 None 0%nat))).

Lemma start_replays s cov : replays (reopen s) cov [] (mkReplaying (reopen s) None 0 None 0%nat).
Proof.
  split; cbn; auto.
  - split; [intros k x Hx; destruct (lookup_empty_Some (M := gmap bytes) k x Hx)|intros r k x Hr; inversion Hr|reflexivity].
  - split; [split; cbn; [lia|exact I]|]. intros n [Hn|Hn]; cbn in Hn; [lia|inversion Hn].
Qed.

(** The whole of recovery, whatever its flush answers. *)
Lemma recover_durable fio rio s names recs last seg cov spec : filed (c_dir s) (c_wal s) names recs last seg cov spec ->
  last < 2 ^ 64 - 1 -> Z.of_nat (length (flat_map rdocs recs)) < MEMTABLE_LIMIT -> ri_scan rio = scan_io_good ->
  (let s1 := replayed_coll fio (reopen s) in
   listed (c_dir (flush_begin s1)) names -> memtable s1 <> ∅ -> flush_ready ok sstBlockBytes (fio O) (flush_begin s1) names (memtable s1) (contiguous (progress s1))) ->
  exists names' recs' seg' cov', seg' <= seg /\
    durable (replayCollectionWal cfg validateRecord MEMTABLE_LIMIT sstBlockBytes load_good scan_io_good fio rio (reopen s)).2 names' recs' last seg' cov' spec.
Proof.
  intros Hf Hlast Hfit Hrio Hready. pose proof (filed_reopen _ _ _ _ _ _ _ Hf) as Hf'.
  destruct (replay_all (reopen s) cov fio recs [] _ (filed_recoverable _ _ _ _ _ _ _ Hf' Hlast Hfit) (start_replays s cov)) as (r & Ev & Hr & Hexp).
  destruct (log_scan cfg (replay fio) _ _ _ _ (mkReplaying (reopen s) None 0 None 0%nat) (fd_log _ _ _ _ _ _ _ _ Hf')) as [Hst Hacc].
  rewrite Ev in Hacc. cbn [fst] in Hacc. unfold replayed_coll in Hready. unfold replayCollectionWal. rewrite Hst. rewrite Hacc in Hready |- *. clear Hst Hacc Ev.
  pose proof (replayed_durable _ _ _ _ _ _ _ _ Hf' (empty_coherent _) Hr) as Hd. destruct Hr as [(K1 & K2 & K3 & K4) [F1 F2] _ Hn _]. rewrite F1, F2.
  destruct (rp_expected r); [|exists names, recs, seg, cov; split; [lia|exact Hd]]. clear Hn Hexp.
  assert (Hend : exists names' recs' seg' cov' s2 res, seg' <= seg /\ durable s2 names' recs' last seg' cov' spec /\ flushing s2 = None /\
    (if bool_decide (memtable (rp_coll r) = ∅) then (Ok tt, rp_coll r) else flush cfg sstBlockBytes (fio O) true (rp_coll r)) = (res, s2)).
  { destruct (bool_decide_reflect (memtable (rp_coll r) = ∅)) as [He|He]; [exists names, recs, seg, cov, (rp_coll r), (Ok tt); split; [lia|auto]|].
    pose proof (durable_flush_begin _ _ _ _ _ _ _ Hd K3) as Hb.
    unfold flush. rewrite K4. specialize (Hready (fd_listed _ _ _ _ _ _ _ _ (du_filed _ _ _ _ _ _ _ Hb)) He). assert (Hfl : flushing (flush_begin (rp_coll r)) = Some (tables (rp_coll r), memtable (rp_coll r), contiguous (progress (rp_coll r)))).
    { unfold flush_begin. rewrite K4, bool_decide_eq_false_2 by exact He. reflexivity. }
    destruct (durable_flush_end (fio O) true _ _ _ _ _ _ _ _ _ _ Hb Hfl Hready ltac:(discriminate)) as (n' & r' & sg' & c' & Hsg & Hd').
    pose proof (flush_end_idle cfg sstBlockBytes (fio O) true (flush_begin (rp_coll r))) as Hidle.
    destruct (flush_end cfg sstBlockBytes (fio O) true (flush_begin (rp_coll r))) as [res s2]. exists n', r', sg', c', s2, res. auto 6. }
  destruct Hend as (n' & r' & sg' & c' & s2 & res & Hsg & Hd' & Hidle & ->). destruct res as [[]|err]; [|exists n', r', sg', c'; auto].
  pose proof (proj1 (fd_cov _ _ _ _ _ _ _ _ (du_filed _ _ _ _ _ _ _ Hd'))) as Hcov. cbn [snd].
  destruct (manifest_load_file load_good (c_dir s2)) as [|m|]; [exists n', r', sg', c'; auto| |exists n', r', sg', c'; auto].
  cbn [covered_of] in Hcov. rewrite Hcov. destruct (durable_reclaim rio s2 _ _ _ _ _ _ Hd' Hidle Hrio) as (k & sg2 & Hsg2 & Hd2).
  exists n', (drop k r'), sg2, c'. split; [lia|exact Hd2].
Qed.
End Durability.
