(* ===== verification/LsmCrash.v ===== *)
(** * A collection over its whole life (lsm.cpp)

    Writes, deletions, the two halves of a flush and crashes with recovery, as a
    step relation that carries the collection a client expects.  A flush begins
    only while no table of a failed flush is left in memory.  Every reachable state
    reads as that collection. *)

From S2P Require Import Prelude FileSys Decimal Json JsonValue Msgpack RowView Checksum Store Sst SstCursor SstQuery Bloom WalIntegrity Wal.
From S2P Require Import WalLog WalRecovery WalEntries WalReclaim WalScan LsmManifest LsmProgress LsmDoc LsmCollection LsmLatest LsmCanon LsmReads LsmFlush LsmDurability.
From stdpp Require Import base list gmap sorting strings relations.
From Stdlib Require Import ZArith Lia.

Open Scope Z_scope.

(** The state of a run: the collection, what its clients expect, and the number of writes. *)
Record run := mkRun { run_coll : coll; run_spec : gmap bytes json; run_writes : Z }.

Section Runs.
Context `{JT : JsonText} `{LZ : Lz4} `{LZC : !Lz4Correct} (ok : json -> Prop) `{JL : !JsonLineText ok}.
Context (cfg : wal_config) (validateRecord : json -> result unit) (MEMTABLE_LIMIT sstBlockBytes : Z).
Context (userId dbName collection : bytes) (e : raft_env).

(** What a client owes for a document to be kept: an id, a version newer than the
    one it replaces, values the log can hold; and a clock and an opening of the
    log that work. *)
Record acceptable (io : put_io) (entry : json) (spec : gmap bytes json) (n : Z) (id : bytes) (stored : json) : Prop := {
  ac_clock : forall n, 0 <= pt_clock io n < 2 ^ 64;
  ac_open : ai_init (pt_append io) = init_io_good;
  ac_entry : json_wf entry;
  ac_plain : plain id stored;
  ac_version : is_Some (extractDocVersionScore stored);
  ac_visible : docVisibleByCommitIndex e stored (re_commitIndex e) = true;
  ac_newer : newer spec id (canon stored);
  ac_room : n + 2 < 2 ^ 64 }.

Definition put_entry (intent : PutIntent) (id : bytes) (stored : json) : json :=
  match intent with
  | Tombstone => mutation_entry userId dbName collection "DELETE" (Some id) stored
  | Record_ => mutation_entry userId dbName collection "PUT" None stored
  end.

(** The flush of [snapshot] can be published under the files of [s]. *)
Definition publishable (io : flush_io) (s : coll) (snapshot : Memtable) (covered : Z) : Prop :=
  exists names, publishedSsts load_good true (c_dir s) = Ok names /\ flush_ready ok sstBlockBytes io s names snapshot covered.

Inductive run_step : run -> run -> Prop :=
| step_put io intent doc id stored b s s' spec n :
    prepare_put validateRecord io intent doc = Ok (id, stored) -> acceptable io (put_entry intent id stored) spec n id stored ->
    (intent = Record_ -> validateRecord (canon stored) = Ok tt) ->
    put cfg validateRecord MEMTABLE_LIMIT userId dbName collection io intent true doc s = (Ok b, s') ->
    run_step (mkRun s spec n) (mkRun s' (<[id := canon stored]> spec) (n + 1))
| step_del io nowNs nowMs id previous v stored b s s' spec n :
    tombstone_version nowNs previous (memtable s !! id) = Ok v ->
    stampVisibilityMetadata (pt_raft io) (tombstone id v nowMs) (re_commitIndex (pt_raft io)) = Ok stored ->
    acceptable io (put_entry Tombstone id stored) spec n id stored ->
    del cfg MEMTABLE_LIMIT userId dbName collection io nowNs nowMs id previous s = (Ok b, s') ->
    run_step (mkRun s spec n) (mkRun s' (<[id := canon stored]> spec) (n + 1))
(* No table of a failed flush is left. *)
| step_flush_begin s spec n : immutables s = [] -> run_step (mkRun s spec n) (mkRun (flush_begin s) spec n)
| step_flush_end io s snapshot k covered spec n : flushing s = Some (k, snapshot, covered) -> publishable io s snapshot covered ->
    ri_scan (fl_reclaim io) = scan_io_good ->
    run_step (mkRun s spec n) (mkRun (flush_end cfg sstBlockBytes io false s).2 spec n)
| step_crash fio rio s spec n :
    n < 2 ^ 64 - 1 -> ri_scan rio = scan_io_good ->
    Z.of_nat (length (flat_map (rdocs validateRecord userId dbName collection) (replayed cfg (w_disk (c_wal s))).2)) < MEMTABLE_LIMIT ->
    (let s1 := replayed_coll cfg validateRecord MEMTABLE_LIMIT sstBlockBytes fio (reopen s) in
     memtable s1 <> ∅ -> publishable (fio O) (flush_begin s1) (memtable s1) (contiguous (progress s1))) ->
    run_step (mkRun s spec n)
      (mkRun (replayCollectionWal cfg validateRecord MEMTABLE_LIMIT sstBlockBytes load_good scan_io_good fio rio (reopen s)).2 spec n).

(** An empty collection without files. *)
Definition fresh_coll : coll := mkColl ∅ [] 0 progress_new None (mkStore ∅ ∅ ∅) (mkWal wal_state_new (mkDisk None false ∅) 0).

Context (Hnamed : userId <> [] /\ dbName <> [] /\ collection <> []) (Hbinary : walBinaryEncodingEnabled cfg = true).

Abbreviation durable := (durable cfg validateRecord userId dbName collection e).

(** The invariant of a run. *)
Definition sound (r : run) : Prop := exists names recs last seg cov,
  0 <= last <= run_writes r /\ seg <= run_writes r /\ durable (run_coll r) names recs last seg cov (run_spec r).

Lemma log_replayed w recs last seg : log_is cfg w recs last seg -> (replayed cfg (w_disk w)).2 = recs.
Proof. intros H. destruct (log_scan cfg collect w recs last seg [] H) as [_ Ha]. rewrite visit_all_collect in Ha. exact Ha. Qed.

(** A logged and applied mutation. *)
Lemma sound_write io s spec n op id key stored lsns w :
  sound (mkRun s spec n) -> acceptable io (mutation_entry userId dbName collection op id stored) spec n key stored ->
  replayable validateRecord op id key stored ->
  wal_log cfg (pt_clock io) (pt_append io) (c_wal s) (mutation_entry userId dbName collection op id stored) = (Ok lsns, w) ->
  sound (mkRun (apply_write s w [(key, stored)] (Some lsns)) (<[key := canon stored]> spec) (n + 1)).
Proof.
  intros (names & recs & last & seg & cov & Hl & Hs & Hd) [A1 A2 A3 A4 A5 A6 A7 A8] Hop Hlog. cbn [run_writes run_coll run_spec] in *.
  pose proof Hd as [[_ _ _ Hlg _ _ _ _ _] _ _ _ _ _ _]. destruct (log_append cfg (pt_clock io) (pt_append io) (c_wal s) recs last seg _ lsns w Hlg Hbinary A3 A2 A1
    ltac:(lia) ltac:(lia) Hlog) as [-> (seg' & Hseg & Hlog')].
  destruct (mutation_record validateRecord userId dbName collection Hnamed op id key stored (last + 1) (pt_clock io (last + 1)) A4 Hop) as [Hg Hdocs].
  exists names, (recs ++ [mkReplay INSERT (last + 1) (stamp (canon (mutation_entry userId dbName collection op id stored)) (last + 1) (pt_clock io (last + 1)))]), (last + 1), seg', cov.
  cbn [run_writes run_coll run_spec]. split; [lia|]. split; [lia|]. eapply durable_write; eauto. lia.
Qed.

Lemma publishable_names io s snapshot covered names : listed (c_dir s) names -> publishable io s snapshot covered ->
  flush_ready ok sstBlockBytes io s names snapshot covered.
Proof. intros Hl (names' & Hp & Hr). rewrite (listed_published _ _ Hl) in Hp. apply Ok_inj in Hp as ->. exact Hr. Qed.

Lemma run_step_sound r r' : run_step r r' -> sound r -> sound r'.
Proof.
  intros Hstep Hs. destruct Hstep as [io intent doc id stored b s s' spec n Hprep Hac Hval Hput|io nowNs nowMs id previous v stored b s s' spec n Hv Hst Hac Hdel|s spec n Him
    |io s snapshot k covered spec n Hfl Hp Hscan|fio rio s spec n Hn Hrio Hfit Hready].
  - unfold put in Hput. rewrite Hprep in Hput. destruct (negb (pt_dirs io)); [discriminate|]. unfold log_if in Hput. fold (put_entry intent id stored) in Hput.
    destruct (wal_log cfg (pt_clock io) (pt_append io) (c_wal s) (put_entry intent id stored)) as [[lsns|] w] eqn:El; [|discriminate].
    injection Hput as _ <-. destruct intent; cbn [put_entry] in *; eapply sound_write; eauto; [left|right]; auto.
  - unfold del in Hdel. destruct (negb (pt_dirs io)); [discriminate|]. rewrite Hv in Hdel. cbn [mbind result_bind] in Hdel. rewrite Hst in Hdel.
    destruct (wal_log _ _ _ _ _) as [[lsns|] w] eqn:El; [|discriminate]. injection Hdel as _ <-. eapply sound_write; eauto. right. auto.
  - destruct Hs as (names & recs & last & seg & cov & Hl & Hsg & Hd). exists names, recs, last, seg, cov. split; [exact Hl|]. split; [exact Hsg|].
    apply durable_flush_begin; assumption.
  - destruct Hs as (names & recs & last & seg & cov & Hl & Hsg & Hd). cbn [run_writes run_coll run_spec] in *.
    pose proof Hd as [[Hls _ _ _ _ _ _ _ _] _ _ _ _ _ _].
    edestruct (durable_flush_end ok cfg) as (n' & r' & sg' & c' & Hsg' & Hd'); [exact Hd|exact Hfl|apply (publishable_names io s snapshot covered names Hls Hp)|intros _; exact Hscan|].
    exists n', r', last, sg', c'. cbn [run_writes run_coll run_spec]. split; [exact Hl|]. split; [lia|exact Hd'].
  - destruct Hs as (names & recs & last & seg & cov & Hl & Hsg & Hd). cbn [run_writes run_coll run_spec] in *. pose proof Hd as [Hf _ _ _ _ _ _].
    pose proof Hf as [_ _ _ Hlg _ _ _ _ _]. rewrite (log_replayed _ _ _ _ Hlg) in Hfit.
    edestruct (recover_durable ok cfg) as (n' & r' & sg' & c' & Hsg' & Hd'); [exact Hf|lia|exact Hfit|exact Hrio|..].
    { cbv zeta. intros Hls He. apply publishable_names; [exact Hls|apply Hready, He]. }
    exists n', r', last, sg', c'. cbn [run_writes run_coll run_spec]. split; [exact Hl|]. split; [lia|exact Hd'].
Qed.

Lemma fresh_sound : sound (mkRun fresh_coll ∅ 0).
Proof.
  exists [], [], 0, 0, 0. cbn [run_writes run_coll run_spec]. split; [lia|]. split; [lia|].
  assert (Hlisted : listed (c_dir fresh_coll) []) by (split; [reflexivity|]; intros n _; apply lookup_empty).
  assert (Hno : forall x, ~ stored_docs validateRecord userId dbName collection (c_dir fresh_coll) [] [] 0 x).
  { intros x [(n & f & rows & Hn & _)|(r & k & Hr & _)]; [inversion Hn|inversion Hr]. }
  assert (Hmem : forall x, ~ in_memory fresh_coll x) by (intros x [Hx|(t & Ht & _)]; [destruct (in_empty x Hx)|inversion Ht]).
  split; cbn [c_wal c_dir fresh_coll memtable immutables progress flushing].
  - split; auto.
    + intros n Hn. inversion Hn.
    + split; [reflexivity|lia].
    + exists []. split; [|repeat split]. split; cbn; auto; try lia; try discriminate. split; reflexivity.
    + intros r1 r2 k x1 x2 Hr. inversion Hr.
    + split; intros d; [|intros d']; intros Hd; destruct (Hno d Hd).
    + intros x Hx. destruct (Hno x Hx).
    + apply represents_empty, Hno.
  - apply empty_coherent.
  - split; [split; cbn; [lia|exact I]|]. intros n [Hn|Hn]; cbn in Hn; [lia|inversion Hn].
  - split; [intros k x Hx; destruct (lookup_empty_Some (M := gmap bytes) k x Hx)|intros t Ht; inversion Ht].
  - intros n snap c Hn. discriminate Hn.
  - intros x (r & k & Hr & _). inversion Hr.
  - intros x Hx. destruct (Hmem x Hx).
Qed.

Lemma run_sound r r' : rtc run_step r r' -> sound r -> sound r'.
Proof. induction 1; eauto using run_step_sound. Qed.

End Runs.


(** ** Example *)

#[local] Existing Instance nibble_text.
#[local] Existing Instance nibble_line_text.
#[local] Existing Instance rle_lz4.
#[local] Existing Instance rle_lz4_correct.

(** A flush on a directory whose files are not cached. *)
Lemma ready_now rows io s names snapshot covered :
  g_sstCache (c_dir s) = ∅ -> sst_name (fl_name io) -> st_fs (c_dir s) !! fl_name io = None ->
  pi_load (fl_publish io) = load_good -> pi_final_dir (fl_publish io) = true ->
  map_to_list snapshot = rows -> Forall (fun kx => json_wf kx.2 /\ key_fits (rowId kx.2)) rows -> 0 <= covered ->
  match writeSst (fl_sst io) (c_dir s) (fl_name io ++ str ".writing") (flush_rows snapshot) 4096 with
  | (Ok stats, _) => (ws_blocks stats <=? kMaxBlocks) && (ws_stored stats <? 2 ^ 63)
  | _ => true
  end = true ->
  (let next := next_manifest (manifest_load_file load_good (c_dir s)) covered (unique_sorted (names ++ [fl_name io])) in
   storable stable (mkManifest kFormatVersion (generation next) (coveredWalLsn next) (merge_sort bytes_le (sstFiles next)))) ->
  flush_ready stable 4096 io s names snapshot covered.
Proof.
  intros Hc Hn Hf Hl Hd <- Hr Hcov Hlim Hst. split; auto.
  - intros p v f Hp. rewrite Hc, lookup_empty in Hp. discriminate Hp.
  - intros q _. rewrite Hc. apply lookup_empty.
  - intros k x Hx. rewrite Forall_forall in Hr. apply (Hr (k, x)), elem_of_map_to_list, Hx.
  - intros stats d' E. rewrite E in Hlim. apply andb_true_iff in Hlim as [H1%Z.leb_le H2%Z.ltb_lt]. auto.
Qed.

Definition env_single : raft_env := mkRaftEnv false false 0 0 None None.
Definition put_good : put_io := mkPutIo env_single 1700000000 true (fun _ => 1700000000000) append_io_good.
Definition flush_good (name : string) : flush_io :=
  mkFlushIo true (str name) sst_io_good (mkBloomIo None true true true true 5) finalize_good publish_good reclaim_io_good.
Definition no_check (_ : json) : result unit := Ok tt.
Definition doc_v (id : string) (v : Z) : json := JObject (json_object [(str "id", JString (str id)); (str "version", JUInt v)]).

Definition sample_put (id : string) (v : Z) (s : coll) : coll :=
  (put sample_config no_check 100 (str "u") (str "d") (str "c") put_good Record_ true (doc_v id v) s).2.
Definition sample_crash (s : coll) : coll :=
  (replayCollectionWal sample_config no_check 100 4096 load_good scan_io_good (fun _ => flush_good "2.sst") reclaim_io_good (reopen s)).2.

(** A write, a flush with a write in between, a newer version, a deletion and a crash. *)
Definition life1 : coll := sample_put "a" 1 fresh_coll.
Definition life2 : coll := flush_begin life1.
Definition life3 : coll := sample_put "b" 1 life2.
Definition life4 : coll := (flush_end sample_config 4096 (flush_good "1.sst") false life3).2.
Definition life5 : coll := sample_put "a" 2 life4.
Definition life6 : coll := (del sample_config 100 (str "u") (str "d") (str "c") put_good 5 6 (str "b") 1 life5).2.
Definition life7 : coll := sample_crash life6.

Definition stored_form (d : json) : json := json_set (str "_visibility_state") (JString (str "COMMITTED_VISIBLE")) d.
Definition sample_tombstone : json := json_set (str "_visibility_state") (JString (str "TOMBSTONED")) (tombstone (str "b") 5 6).

Abbreviation sample_step := (run_step stable sample_config no_check 100 4096 (str "u") (str "d") (str "c") env_single).

Definition spec1 : gmap bytes json := <[str "a" := canon (stored_form (doc_v "a" 1))]> ∅.
Definition spec3 : gmap bytes json := <[str "b" := canon (stored_form (doc_v "b" 1))]> spec1.
Definition spec5 : gmap bytes json := <[str "a" := canon (stored_form (doc_v "a" 2))]> spec3.
Definition spec6 : gmap bytes json := <[str "b" := canon sample_tombstone]> spec5.

Ltac wf_now := vm_compute; repeat split; try discriminate; repeat constructor.

Ltac acceptable_now := split; [intros; cbn; lia|reflexivity|wf_now|split; [wf_now|split; [reflexivity|discriminate]]|eexists; vm_compute; reflexivity
  |vm_compute; reflexivity|first [exact I|vm_compute; reflexivity]|cbn; lia].

Ltac pair_now := match goal with |- ?f = (_, _) => transitivity (f.1, f.2); [apply surjective_pairing|]; f_equal; vm_compute; reflexivity end.

Lemma put_step id v s s' b spec n : sample_put id v s = s' ->
  acceptable env_single put_good (put_entry (str "u") (str "d") (str "c") Record_ (str id) (stored_form (doc_v id v))) spec n (str id) (stored_form (doc_v id v)) ->
  prepare_put no_check put_good Record_ (doc_v id v) = Ok (str id, stored_form (doc_v id v)) ->
  (put sample_config no_check 100 (str "u") (str "d") (str "c") put_good Record_ true (doc_v id v) s).1 = Ok b ->
  sample_step (mkRun s spec n) (mkRun s' (<[str id := canon (stored_form (doc_v id v))]> spec) (n + 1)).
Proof.
  intros <- Hac Hprep Hb. eapply step_put; [exact Hprep|exact Hac|reflexivity|]. rewrite surjective_pairing at 1. rewrite Hb. reflexivity.
Qed.

Lemma sample_run_writes : rtc sample_step (mkRun fresh_coll ∅ 0) (mkRun life3 spec3 2).
Proof.
  eapply rtc_l; [eapply (put_step "a" 1 fresh_coll life1 false); [reflexivity|acceptable_now|vm_compute; reflexivity|vm_compute; reflexivity]|].
  eapply rtc_l; [apply step_flush_begin; vm_compute; reflexivity|].
  apply rtc_once. eapply (put_step "b" 1 life2 life3 false); [reflexivity|acceptable_now|vm_compute; reflexivity|vm_compute; reflexivity].
Qed.

Ltac ready_tac rows := apply (ready_now rows); [vm_compute; reflexivity|vm_compute; reflexivity|vm_compute; reflexivity|reflexivity|reflexivity
  |vm_compute; reflexivity|repeat constructor; wf_now|vm_compute; discriminate|vm_compute; reflexivity|].

Lemma sample_publishable : publishable stable 4096 (flush_good "1.sst") life3 (memtable life1) 1.
Proof.
  exists []. split; [vm_compute; reflexivity|]. ready_tac [(str "a", stored_form (doc_v "a" 1))]. cbv zeta.
  match goal with |- storable _ ?m => replace m with (mkManifest 1 1 1 [str "1.sst"]) by (vm_compute; reflexivity) end. storable_now.
Qed.

Lemma sample_flush : sample_step (mkRun life3 spec3 2) (mkRun life4 spec3 2).
Proof.
  refine (step_flush_end stable sample_config no_check 100 4096 (str "u") (str "d") (str "c") env_single (flush_good "1.sst") life3 (memtable life1) 0%nat 1 spec3 2 _
    sample_publishable eq_refl). vm_cast_no_check (eq_refl (flushing life3)).
Qed.

Lemma sample_rewrite : sample_step (mkRun life4 spec3 2) (mkRun life5 spec5 3).
Proof. eapply (put_step "a" 2 life4 life5 false); [reflexivity|acceptable_now|vm_compute; reflexivity|vm_compute; reflexivity]. Qed.

Lemma sample_delete : sample_step (mkRun life5 spec5 3) (mkRun life6 spec6 4).
Proof.
  refine (step_del stable sample_config no_check 100 4096 (str "u") (str "d") (str "c") env_single put_good 5 6 (str "b") 1 5 sample_tombstone false life5 life6 spec5 3 _ _ _ _).
  - vm_compute. reflexivity.
  - vm_compute. reflexivity.
  - acceptable_now.
  - etransitivity; [apply surjective_pairing|]. apply (f_equal (fun r => (r, life6))). vm_compute. reflexivity.
Qed.

Lemma sample_recovery : sample_step (mkRun life6 spec6 4) (mkRun life7 spec6 4).
Proof.
  refine (step_crash stable sample_config no_check 100 4096 (str "u") (str "d") (str "c") env_single (fun _ => flush_good "2.sst") reclaim_io_good life6 spec6 4 _ eq_refl _ _).
  - lia.
  - vm_compute. reflexivity.
  - cbv zeta. intros _. exists [str "1.sst"]. split; [vm_compute; reflexivity|].
    ready_tac [(str "b", canon sample_tombstone); (str "a", canon (stored_form (doc_v "a" 2)))]. cbv zeta.
    match goal with |- storable _ ?m => replace m with (mkManifest 1 2 4 [str "1.sst"; str "2.sst"]) by (vm_compute; reflexivity) end. storable_now.
Qed.


(** The state in the middle of the flush. *)
Lemma life3_reads : exists names, publishedSsts load_good true (c_dir life3) = Ok names /\ reads_as env_single life3 names spec3.
Proof.
  destruct (run_sound stable sample_config no_check 100 4096 (str "u") (str "d") (str "c") env_single
    ltac:(repeat split; discriminate) eq_refl _ _ sample_run_writes (fresh_sound sample_config no_check (str "u") (str "d") (str "c") env_single eq_refl))
    as (names & recs & last & seg & cov & _ & _ & Hd). pose proof Hd as [[Hls _ _ _ _ _ _ _ _] _ _ _ _ _ _].
  exists names. split; [apply listed_published, Hls|]. eapply durable_reads, Hd.
Qed.

Lemma getAll_returns_newest_witness :
  exists docs, (getAll env_single load_good true true life3).1 = Ok docs /\ map canon docs = live spec3.
Proof. destruct life3_reads as (names & _ & H). exact (getAll_returns_newest env_single life3 names spec3 H). Defined.

Lemma flush_keeps_collection_witness :
  (exists names, reads_as env_single life4 names spec3) /\
  exists docs docs', (getAll env_single load_good true true life3).1 = Ok docs /\ (getAll env_single load_good true true life4).1 = Ok docs' /\
    map canon docs = map canon docs'.
Proof.
  destruct life3_reads as (names & Hp & H). assert (E : names = []) by (apply Ok_inj; rewrite <- Hp; vm_compute; reflexivity). subst names.
  apply (flush_keeps_collection stable sample_config 4096 env_single (flush_good "1.sst") false life3 [] 0%nat (memtable life1) 1 spec3 H).
  - vm_cast_no_check (eq_refl (flushing life3)).
  - assert (Ei : immutables life3 = [(0%nat, memtable life1)]) by vm_cast_no_check (eq_refl (immutables life3)). rewrite Ei. left.
  - apply (bool_decide_unpack _). vm_compute. exact I.
  - destruct sample_publishable as (names & Hp' & Hr). rewrite Hp in Hp'. apply Ok_inj in Hp' as <-. exact Hr.
Defined.

(** ** A flush that fails *)

(** The SST of the first flush cannot be written, the second flush succeeds. *)
Definition flush_bad : flush_io :=
  mkFlushIo true (str "1.sst") (mkSstIo false (fun _ => true) true true true 5) (mkBloomIo None true true true true 5) finalize_good publish_good reclaim_io_good.
Definition failed1 : coll := (flush_end sample_config 4096 flush_bad false (flush_begin (sample_put "a" 1 fresh_coll))).2.
Definition failed2 : coll := (flush_end sample_config 4096 (flush_good "2.sst") false (flush_begin (sample_put "b" 1 failed1))).2.

(** The snapshot of the failed flush stays in memory and is never written again,
    but the next checkpoint covers its LSN: after a restart the acknowledged
    document is gone. *)
Example failed_flush_loses_documents :
  (getAll env_single load_good true true failed2).1 = Ok [stored_form (doc_v "b" 1); stored_form (doc_v "a" 1)] /\
  (getAll env_single load_good true true (sample_crash failed2)).1 = Ok [stored_form (doc_v "b" 1)].
Proof. split; vm_compute; reflexivity. Qed.

(** Two documents without an id written in the same second: one is left. *)
Definition no_id (v : Z) : json := JObject (json_object [(str "version", JUInt v)]).
Definition put_no_id (v : Z) (s : coll) : coll :=
  (put sample_config no_check 100 (str "u") (str "d") (str "c") put_good Record_ true (no_id v) s).2.

Example documents_without_id_collide :
  (getAll env_single load_good true true (put_no_id 2 (put_no_id 1 fresh_coll))).1 = Ok [stored_form (no_id 2)] /\
  (replayCollectionWal sample_config no_check 100 4096 load_good scan_io_good (fun _ => flush_good "1.sst") reclaim_io_good
     (reopen (put_no_id 1 fresh_coll))).1 = Err "collection WAL replay failed: ".
Proof. split; vm_compute; reflexivity. Qed.
