(* ===== verification/BTree.v ===== *)
(** * The B+ tree of the index manager (btree_index.hpp)

    Nodes are shared objects: a [BPlusTreeNode] is reached from its parent, from
    its children ([parent], a weak pointer) and from its neighbours in the leaf
    chain.  They are kept in a heap of numbered nodes; [None] is an access through
    a dangling pointer or past the end of a vector. *)

From S2P Require Import Prelude.
From stdpp Require Import base list gmap sorting.
From Stdlib Require Import ZArith Lia.

Definition BTREE_ORDER : nat := 128.

Section Nodes.
Context {K V : Type} (comparator : K -> K -> Z).

Record node := mkNode {
  isLeaf : bool; keys : list K; values : list V; children : list nat;
  parent : option nat; next : option nat; prev : option nat }.

Record bptree := mkTree { heap : gmap nat node; root_ : nat; size_ : nat; fresh_ : nat }.

Definition new_node (leaf : bool) : node := mkNode leaf [] [] [] None None None.

Definition bptree_new : bptree := mkTree {[ 0%nat := new_node true ]} 0 0 1.

Definition isFull (n : node) : bool := (BTREE_ORDER <=? length (keys n))%nat.

(** ** Vectors *)

Definition insert_at {A} (i : nat) (x : A) (l : list A) : option (list A) :=
  if (i <=? length l)%nat then Some (take i l ++ x :: drop i l) else None.

(** [while (pos < keys.size() && f(keys[pos])) pos++]. *)
Fixpoint count_while (f : K -> bool) (ks : list K) : nat :=
  match ks with
  | k :: rest => if f k then S (count_while f rest) else O
  | [] => O
  end.

Definition insert_pos (key : K) (ks : list K) : nat := count_while (fun x => (0 <? comparator key x)%Z) ks.
Definition child_pos (key : K) (ks : list K) : nat := count_while (fun x => (0 <=? comparator key x)%Z) ks.
Definition equal_pos (key : K) (ks : list K) : nat := count_while (fun x => negb (comparator key x =? 0)%Z) ks.

(** [keys[i]] with [values[i]], for every [i]. *)
Definition entries (n : node) : option (list (K * V)) :=
  if (length (keys n) =? length (values n))%nat then Some (combine (keys n) (values n)) else None.

(** ** Nodes *)

Definition set_heap (t : bptree) (h : gmap nat node) : bptree := mkTree h (root_ t) (size_ t) (fresh_ t).

Definition with_parent (n : node) (p : option nat) : node := mkNode (isLeaf n) (keys n) (values n) (children n) p (next n) (prev n).
Definition with_keys (n : node) (ks : list K) (vs : list V) (cs : list nat) : node := mkNode (isLeaf n) ks vs cs (parent n) (next n) (prev n).
Definition with_next (n : node) (x : option nat) : node := mkNode (isLeaf n) (keys n) (values n) (children n) (parent n) x (prev n).
Definition with_prev (n : node) (x : option nat) : node := mkNode (isLeaf n) (keys n) (values n) (children n) (parent n) (next n) x.

Definition set_parent (h : gmap nat node) (c : nat) (p : nat) : option (gmap nat node) :=
  n ← h !! c; Some (<[c := with_parent n (Some p)]> h).

Fixpoint set_parents (h : gmap nat node) (cs : list nat) (p : nat) : option (gmap nat node) :=
  match cs with
  | [] => Some h
  | c :: rest => h ← set_parent h c p; set_parents h rest p
  end.

(** Every loop over pointers visits a node at most once. *)
Definition fuel (t : bptree) : nat := S (fresh_ t).

Fixpoint find_leaf (fuel : nat) (h : gmap nat node) (p : nat) (key : K) : option nat :=
  match fuel with
  | O => None
  | S fuel =>
      n ← h !! p;
      if isLeaf n then Some p
      else c ← children n !! child_pos key (keys n); find_leaf fuel h c key
  end.

Definition findLeaf (t : bptree) (key : K) : option nat := find_leaf (fuel t) (heap t) (root_ t) key.

(** ** Insertion *)

(** A new root over [left] and [right]. *)
Definition grow_root (t : bptree) (key : K) (left right : nat) : option bptree :=
  let r := fresh_ t in
  h ← set_parent (<[r := mkNode false [key] [] [left; right] None None None]> (heap t)) left r;
  h ← set_parent h right r;
  Some (mkTree h r (size_ t) (S r)).

(** [insertInternal], and [splitInternal] when the node is full. *)
Fixpoint insertInternal (fuel : nat) (t : bptree) (p : nat) (key : K) (child : nat) : option bptree :=
  match fuel with
  | O => None
  | S fuel =>
      n ← heap t !! p;
      let pos := insert_pos key (keys n) in
      ks ← insert_at pos key (keys n);
      cs ← insert_at (pos + 1) child (children n);
      let n := with_keys n ks (values n) cs in
      let t := set_heap t (<[p := n]> (heap t)) in
      if isFull n then
        let mid := (length ks / 2)%nat in
        promotedKey ← ks !! mid;
        let q := fresh_ t in
        let newNode := mkNode false (drop (mid + 1) ks) [] (drop (mid + 1) cs) None None None in
        h ← set_parents (<[q := newNode]> (heap t)) (children newNode) q;
        n ← h !! p;
        let h := <[p := with_keys n (take mid ks) (values n) (take (mid + 1) cs)]> h in
        let t := mkTree h (root_ t) (size_ t) (S q) in
        match parent n with
        | Some up => h ← set_parent h q up; insertInternal fuel (set_heap t h) up promotedKey q
        | None => grow_root t promotedKey p q
        end
      else Some t
  end.

Definition splitLeaf (t : bptree) (l : nat) : option bptree :=
  leaf ← heap t !! l;
  let mid := (length (keys leaf) / 2)%nat in
  let q := fresh_ t in
  let newLeaf := mkNode true (drop mid (keys leaf)) (drop mid (values leaf)) [] None (next leaf) (Some l) in
  let leaf' := with_keys leaf (take mid (keys leaf)) (take mid (values leaf)) (children leaf) in
  let h := <[q := newLeaf]> (<[l := leaf']> (heap t)) in
  h ← match next leaf with
      | Some x => n ← h !! x; Some (<[x := with_prev n (Some q)]> h)
      | None => Some h
      end;
  n ← h !! l;
  let h := <[l := with_next n (Some q)]> h in
  promotedKey ← keys newLeaf !! 0%nat;
  let t := mkTree h (root_ t) (size_ t) (S q) in
  match parent leaf with
  | Some p => h ← set_parent h q p; insertInternal (fuel t) (set_heap t h) p promotedKey q
  | None => grow_root t promotedKey l q
  end.

(** [insert] once the leaf is found. *)
Definition leaf_insert (t : bptree) (l : nat) (key : K) (value : V) : option (bool * bptree) :=
  leaf ← heap t !! l;
  let pos := insert_pos key (keys leaf) in
  if match keys leaf !! pos with Some k => (comparator key k =? 0)%Z | None => false end then
    if (pos <? length (values leaf))%nat then
      Some (true, set_heap t (<[l := with_keys leaf (keys leaf) (<[pos := value]> (values leaf)) (children leaf)]> (heap t)))
    else None
  else
    ks ← insert_at pos key (keys leaf);
    vs ← insert_at pos value (values leaf);
    let leaf := with_keys leaf ks vs (children leaf) in
    let t := mkTree (<[l := leaf]> (heap t)) (root_ t) (S (size_ t)) (fresh_ t) in
    if isFull leaf then t ← splitLeaf t l; Some (true, t) else Some (true, t).

Definition insert (t : bptree) (key : K) (value : V) : option (bool * bptree) :=
  l ← findLeaf t key; leaf_insert t l key value.

(** ** Removal *)

Definition erase_at {A} (i : nat) (l : list A) : option (list A) :=
  if (i <? length l)%nat then Some (take i l ++ drop (S i) l) else None.

Definition removeFromLeaf (t : bptree) (l : nat) (key : K) : option bptree :=
  leaf ← heap t !! l;
  let i := equal_pos key (keys leaf) in
  if (i <? length (keys leaf))%nat then
    ks ← erase_at i (keys leaf);
    vs ← erase_at i (values leaf);
    Some (set_heap t (<[l := with_keys leaf ks vs (children leaf)]> (heap t)))
  else Some t.

(** [handleUnderflow] does nothing. *)
Definition remove (t : bptree) (key : K) : option (bool * bptree) :=
  l ← findLeaf t key;
  leaf ← heap t !! l;
  if (length (keys leaf) <=? equal_pos key (keys leaf))%nat then Some (false, t)
  else
    t ← removeFromLeaf t l key;
    Some (true, mkTree (heap t) (root_ t) (pred (size_ t)) (fresh_ t)).

(** ** Lookups *)

Definition find (t : bptree) (key : K) : option (option V) :=
  l ← findLeaf t key;
  leaf ← heap t !! l;
  es ← entries leaf;
  Some (snd <$> List.find (fun kv => (comparator key kv.1 =? 0)%Z) es).

Definition contains (t : bptree) (key : K) : option bool :=
  r ← find t key; Some (match r with Some _ => true | None => false end).

(** Walk the leaf chain; the visitor of an entry tells whether to return. *)
Fixpoint visit_entries {A} (visit : A -> K * V -> A * bool) (es : list (K * V)) (acc : A) : A * bool :=
  match es with
  | [] => (acc, false)
  | kv :: rest => let '(acc, stop) := visit acc kv in if stop : bool then (acc, true) else visit_entries visit rest acc
  end.

Fixpoint walk {A} (fuel : nat) (h : gmap nat node) (leaf : option nat) (visit : A -> K * V -> A * bool) (acc : A) : option A :=
  match leaf with
  | None => Some acc
  | Some p =>
      match fuel with
      | O => None
      | S fuel =>
          n ← h !! p;
          es ← entries n;
          let '(acc, stop) := visit_entries visit es acc in
          if stop : bool then Some acc else walk fuel h (next n) visit acc
      end
  end.

Definition range_visit (start stop : K) (inclusiveStart inclusiveEnd : bool) (acc : list V) (kv : K * V) : list V * bool :=
  let cmpStart := comparator kv.1 start in
  let cmpEnd := comparator kv.1 stop in
  let afterStart := (0 <? cmpStart)%Z || (inclusiveStart && (cmpStart =? 0)%Z) in
  let beforeEnd := (cmpEnd <? 0)%Z || (inclusiveEnd && (cmpEnd =? 0)%Z) in
  (if afterStart && beforeEnd then acc ++ [kv.2] else acc, (0 <? cmpEnd)%Z).

Definition range (t : bptree) (start stop : K) (inclusiveStart inclusiveEnd : bool) : option (list V) :=
  l ← findLeaf t start; walk (fuel t) (heap t) (Some l) (range_visit start stop inclusiveStart inclusiveEnd) [].

Fixpoint left_most (fuel : nat) (h : gmap nat node) (p : nat) : option nat :=
  match fuel with
  | O => None
  | S fuel => n ← h !! p; if isLeaf n then Some p else c ← children n !! 0%nat; left_most fuel h c
  end.

Definition getLeftMostLeaf (t : bptree) : option nat := left_most (fuel t) (heap t) (root_ t).

Definition less_visit (key : K) (inclusive : bool) (acc : list V) (kv : K * V) : list V * bool :=
  let cmp := comparator kv.1 key in
  if (cmp <? 0)%Z || (inclusive && (cmp =? 0)%Z) then (acc ++ [kv.2], false) else (acc, true).

Definition lessThan (t : bptree) (key : K) (inclusive : bool) : option (list V) :=
  l ← getLeftMostLeaf t; walk (fuel t) (heap t) (Some l) (less_visit key inclusive) [].

Definition greater_visit (key : K) (inclusive : bool) (acc : list V) (kv : K * V) : list V * bool :=
  let cmp := comparator kv.1 key in
  (if (0 <? cmp)%Z || (inclusive && (cmp =? 0)%Z) then acc ++ [kv.2] else acc, false).

Definition greaterThan (t : bptree) (key : K) (inclusive : bool) : option (list V) :=
  l ← findLeaf t key; walk (fuel t) (heap t) (Some l) (greater_visit key inclusive) [].

Fixpoint height_from (fuel : nat) (h : gmap nat node) (p : nat) : option nat :=
  match fuel with
  | O => None
  | S fuel => n ← h !! p; if isLeaf n then Some 1%nat else c ← children n !! 0%nat; r ← height_from fuel h c; Some (S r)
  end.

Definition height (t : bptree) : option nat := height_from (fuel t) (heap t) (root_ t).

(** [limit < 0] is no limit; the count is kept with the result. *)
Definition scan_visit (limit : Z) (acc : list (K * V)) (kv : K * V) : list (K * V) * bool :=
  if (0 <=? limit)%Z && (limit <=? Z.of_nat (length acc))%Z then (acc, true) else (acc ++ [kv], false).

Definition scan (t : bptree) (limit : Z) : option (list (K * V)) :=
  l ← getLeftMostLeaf t; walk (fuel t) (heap t) (Some l) (scan_visit limit) [].

Definition clear (t : bptree) : bptree :=
  mkTree {[ fresh_ t := new_node true ]} (fresh_ t) 0 (S (fresh_ t)).

(** ** Bulk loading *)

(** [insert] begins by locking [mutex_]; a mutex its own thread holds is never obtained. *)
Definition insert_locking (mutex_held : bool) (t : bptree) (key : K) (value : V) : option (bool * bptree) :=
  if mutex_held then None else insert t key value.

Fixpoint load_entries_locking (mutex_held : bool) (t : bptree) (sortedData : list (K * V)) : option bptree :=
  match sortedData with
  | [] => Some t
  | (key, value) :: rest => r ← insert_locking mutex_held t key value; load_entries_locking mutex_held r.2 rest
  end.

(** [bulkLoad] holds the mutex while it inserts. *)
Definition bulkLoad (t : bptree) (sortedData : list (K * V)) : option bptree :=
  load_entries_locking true (clear t) sortedData.
End Nodes.
