(* ===== verification/BTreeShape.v ===== *)
(** * The shape of a B+ tree (btree_index.hpp)

    The tree a heap of nodes holds, as a value: all leaves at the same depth, keys
    between the separators of the inner nodes, parent pointers and the leaf chain
    as the code maintains them. *)

From S2P Require Import Prelude BTree.
From stdpp Require Import base list gmap sorting.
From Stdlib Require Import ZArith Lia.

(** A comparator that is a total order. *)
Class KeyOrder {K} (comparator : K -> K -> Z) : Prop := {
  cmp_eq : forall a b, comparator a b = 0%Z <-> a = b;
  cmp_sym : forall a b, (0 < comparator a b)%Z <-> (comparator b a < 0)%Z;
  cmp_trans : forall a b c, (comparator a b < 0)%Z -> (comparator b c < 0)%Z -> (comparator a c < 0)%Z }.

Section Shape.
Context {K V : Type} (comparator : K -> K -> Z) `{TO : !KeyOrder comparator}.

Abbreviation node := (@node K V).
Abbreviation bptree := (@bptree K V).

Definition key_lt (a b : K) : Prop := (comparator a b < 0)%Z.

Lemma key_lt_trans a b c : key_lt a b -> key_lt b c -> key_lt a c.
Proof. apply cmp_trans. Qed.

Lemma key_lt_irrefl a : ~ key_lt a a.
Proof. unfold key_lt. pose proof (proj2 (cmp_eq a a) eq_refl). lia. Qed.

Lemma key_cases a b : key_lt a b \/ a = b \/ key_lt b a.
Proof.
  unfold key_lt. destruct (Z.lt_trichotomy (comparator a b) 0) as [?|[?|?]]; [auto|right; left; apply cmp_eq; assumption|].
  right; right. apply cmp_sym. assumption.
Qed.

Lemma cmp_gt a b : (0 < comparator a b)%Z <-> key_lt b a.
Proof. apply cmp_sym. Qed.

Definition key_le (a b : K) : Prop := ~ key_lt b a.

Lemma key_le_cases a b : key_le a b <-> key_lt a b \/ a = b.
Proof.
  unfold key_le. destruct (key_cases a b) as [H|[->|H]].
  - split; [auto|]. intros _ H'. exact (key_lt_irrefl _ (key_lt_trans _ _ _ H H')).
  - split; [auto|]. intros _. apply key_lt_irrefl.
  - split; [contradiction|]. intros [H'| ->]; [destruct (key_lt_irrefl _ (key_lt_trans _ _ _ H H'))|exact (fun _ => key_lt_irrefl _ H)].
Qed.

Lemma le_lt_trans a b c : key_le a b -> key_lt b c -> key_lt a c.
Proof. intros [H| ->]%key_le_cases Hc; [exact (key_lt_trans _ _ _ H Hc)|exact Hc]. Qed.

Lemma lt_le_trans a b c : key_lt a b -> key_le b c -> key_lt a c.
Proof. intros H [H'| <-]%key_le_cases; [exact (key_lt_trans _ _ _ H H')|exact H]. Qed.

(** ** Sorted entries, the reference *)

Definition before (x y : K * V) : Prop := key_lt x.1 y.1.
Definition sorted (l : list (K * V)) : Prop := StronglySorted before l.

Fixpoint ins (k : K) (v : V) (l : list (K * V)) : list (K * V) :=
  match l with
  | [] => [(k, v)]
  | x :: rest =>
      if (comparator k x.1 <? 0)%Z then (k, v) :: l
      else if (comparator k x.1 =? 0)%Z then (k, v) :: rest
      else x :: ins k v rest
  end.

Lemma ins_before k v a b : Forall (fun x => key_lt x.1 k) a -> ins k v (a ++ b) = a ++ ins k v b.
Proof.
  induction 1 as [|x a Hx Ha IH]; [reflexivity|]. cbn [ins app]. apply cmp_sym in Hx.
  destruct (Z.ltb_spec (comparator k x.1) 0); [lia|]. destruct (Z.eqb_spec (comparator k x.1) 0); [lia|]. rewrite IH. reflexivity.
Qed.

Lemma ins_after k v a b : Forall (fun x => key_lt k x.1) b -> ins k v (a ++ b) = ins k v a ++ b.
Proof.
  intros Hb. induction a as [|x a IH]; cbn [ins app].
  - destruct Hb as [|y b Hy Hb]; [reflexivity|]. cbn [ins]. unfold key_lt in Hy. destruct (Z.ltb_spec (comparator k y.1) 0); [reflexivity|lia].
  - destruct (_ <? _)%Z; [reflexivity|]. destruct (_ =? _)%Z; [reflexivity|]. rewrite IH. reflexivity.
Qed.

(** ** Positions *)

Lemma count_while_split (f : K -> bool) ks : exists a b : list K, ks = a ++ b /\ count_while f ks = length a /\ Forall (fun k => f k = true) a /\
  match b with k :: _ => f k = false | [] => True end.
Proof.
  induction ks as [|k ks (a & b & E & Hc & Ha & Hb)]; [exists [], []; cbn; auto|]. cbn [count_while]. destruct (f k) eqn:Ef.
  - exists (k :: a), b. cbn [length app]. rewrite Hc, E. repeat split; auto.
  - exists [], (k :: ks). cbn. auto.
Qed.

Lemma count_while_app (f : K -> bool) a b : Forall (fun k => f k = true) a -> match b with k :: _ => f k = false | [] => True end ->
  count_while f (a ++ b) = length a.
Proof.
  induction 1 as [|x a Hx Ha IH]; intros Hb; cbn [count_while app length]; [|rewrite Hx, IH by exact Hb; reflexivity].
  destruct b as [|k b]; [reflexivity|]. cbn. rewrite Hb. reflexivity.
Qed.

Lemma insert_at_app {A} (x : A) a b : insert_at (length a) x (a ++ b) = Some (a ++ x :: b).
Proof.
  unfold insert_at. destruct (Nat.leb_spec (length a) (length (a ++ b))) as [_|H]; [|rewrite length_app in H; lia].
  rewrite take_app_length, drop_app_length. reflexivity.
Qed.

(** ** Trees of depth [d] *)

Fixpoint tree (d : nat) : Type :=
  match d with
  | O => nat * list (K * V)
  | S d => nat * list K * list (tree d)
  end.

Definition ptr {d} : tree d -> nat := match d with O => fun t => t.1 | S d => fun t => t.1.1 end.

Fixpoint flat {d} : tree d -> list (K * V) :=
  match d with O => fun t => t.2 | S d => fun t => flat_map flat t.2 end.

Fixpoint ids {d} : tree d -> list nat :=
  match d with O => fun t => [t.1] | S d => fun t => t.1.1 :: flat_map ids t.2 end.

(** The leftmost leaf. *)
Fixpoint first {d} : tree d -> nat :=
  match d with O => fun t => t.1 | S d => fun t => match t.2 with c :: _ => first c | [] => O end end.

Section Lists.
Context {T : Type} (R : option nat -> T -> Prop) (fst_leaf : T -> nat) (O : option K -> option K -> T -> Prop).

(** Neighbours in the leaf chain. *)
Fixpoint linked (nxt : option nat) (ts : list T) : Prop :=
  match ts with
  | [] => True
  | t :: rest => R (match rest with t' :: _ => Some (fst_leaf t') | [] => nxt end) t /\ linked nxt rest
  end.

(** Children between their separators. *)
Fixpoint separated (lo hi : option K) (ks : list K) (ts : list T) : Prop :=
  match ks, ts with
  | [], [t] => O lo hi t
  | k :: ks, t :: ts => O lo (Some k) t /\ match lo with Some x => key_lt x k | None => True end /\ match hi with Some x => key_lt k x | None => True end /\
                        separated (Some k) hi ks ts
  | _, _ => False
  end.
End Lists.

(** The heap holds the tree under the parent [par], followed in the leaf chain by [nxt]. *)
Fixpoint repr {d} : gmap nat node -> option nat -> option nat -> tree d -> Prop :=
  match d with
  | O => fun h par nxt t => exists pv, h !! t.1 = Some (mkNode true t.2.*1 t.2.*2 [] par nxt pv)
  | S d => fun h par nxt t => (exists pv, h !! t.1.1 = Some (mkNode false t.1.2 [] (map ptr t.2) par None pv)) /\
                              linked (repr h (Some t.1.1)) first nxt t.2
  end.

Definition above (lo : option K) (k : K) : Prop := match lo with Some x => key_le x k | None => True end.
Definition below (hi : option K) (k : K) : Prop := match hi with Some x => key_lt k x | None => True end.

(** Keys between [lo] (inclusive) and [hi], in order. *)
Fixpoint ordered {d} : option K -> option K -> tree d -> Prop :=
  match d with
  | O => fun lo hi t => sorted t.2 /\ Forall (fun x => above lo x.1 /\ below hi x.1) t.2
  | S d => fun lo hi t => separated ordered lo hi t.1.2 t.2
  end.

(** No node is full. *)
Fixpoint bounded {d} : tree d -> Prop :=
  match d with
  | O => fun t => (length t.2 < BTREE_ORDER)%nat
  | S d => fun t => (length t.1.2 < BTREE_ORDER)%nat /\ Forall bounded t.2
  end.

(** ** Lists of children *)

Lemma linked_app {T} (R : option nat -> T -> Prop) f nxt a b : linked R f nxt (a ++ b) <->
  linked R f (match b with t :: _ => Some (f t) | [] => nxt end) a /\ linked R f nxt b.
Proof.
  induction a as [|t a IH]; cbn [linked app]; [tauto|]. rewrite IH. destruct a as [|t' a]; cbn [app]; [destruct b; tauto|tauto].
Qed.

Lemma linked_impl {T} (R R' : option nat -> T -> Prop) f nxt ts : (forall x t, t ∈ ts -> R x t -> R' x t) -> linked R f nxt ts -> linked R' f nxt ts.
Proof.
  induction ts as [|t ts IH]; cbn [linked]; [auto|]. intros H [H1 H2]. split; [apply H; [left|exact H1]|]. apply IH; [|exact H2]. intros x t' Ht. apply H. right. exact Ht.
Qed.

Lemma separated_length {T} (O : option K -> option K -> T -> Prop) ks : forall lo hi ts, separated O lo hi ks ts -> length ts = S (length ks).
Proof.
  induction ks as [|k ks IH]; intros lo hi [|t ts] H; cbn in H; try contradiction; [destruct ts; [reflexivity|contradiction]|].
  destruct H as (_ & _ & _ & H). cbn [length]. rewrite (IH _ _ _ H). reflexivity.
Qed.

Definition last_or (lo : option K) (ks : list K) : option K := match last ks with Some k => Some k | None => lo end.
Definition head_or (hi : option K) (ks : list K) : option K := match ks with k :: _ => Some k | [] => hi end.

Lemma last_or_cons lo k ks : last_or lo (k :: ks) = last_or (Some k) ks.
Proof. unfold last_or. destruct ks; [reflexivity|]. rewrite last_cons_cons. destruct (last (k0 :: ks)) eqn:E; [reflexivity|]. apply last_None in E. discriminate. Qed.

Definition strictly (lo hi : option K) (k : K) : Prop :=
  match lo with Some x => key_lt x k | None => True end /\ match hi with Some x => key_lt k x | None => True end.

Section Separated.
Context {T : Type} (O : option K -> option K -> T -> Prop).

(** One child among its siblings, and what may replace it. *)
Lemma sep_child ksl : forall lo hi ksr tsl t tsr, length ksl = length tsl -> separated O lo hi (ksl ++ ksr) (tsl ++ t :: tsr) ->
  O (last_or lo ksl) (head_or hi ksr) t /\
  (forall t', O (last_or lo ksl) (head_or hi ksr) t' -> separated O lo hi (ksl ++ ksr) (tsl ++ t' :: tsr)) /\
  (forall k tl tr, strictly (last_or lo ksl) (head_or hi ksr) k -> O (last_or lo ksl) (Some k) tl -> O (Some k) (head_or hi ksr) tr ->
     separated O lo hi (ksl ++ k :: ksr) (tsl ++ tl :: tr :: tsr)).
Proof.
  induction ksl as [|k0 ksl IH]; intros lo hi ksr tsl t tsr Hlen H.
  - destruct tsl; [|discriminate]. cbn [app last_or last] in *. destruct ksr as [|k1 ksr]; cbn [separated head_or] in *.
    + destruct tsr; [|contradiction]. split; [exact H|]. split; [auto|]. intros k tl tr [H1 H2] Hl Hr. auto.
    + destruct H as (H1 & H2 & H3 & H4). split; [exact H1|]. split; [auto|]. intros k tl tr [S1 S2] Hl Hr.
      split; [exact Hl|]. split; [exact S1|]. split; [|auto]. destruct hi; [|exact I]. exact (key_lt_trans _ _ _ S2 H3).
  - destruct tsl as [|t0 tsl]; [discriminate|]. injection Hlen as Hlen. cbn [app separated] in *. destruct H as (H1 & H2 & H3 & H4).
    rewrite last_or_cons. destruct (IH (Some k0) hi ksr tsl t tsr Hlen H4) as (I1 & I2 & I3). auto 10.
Qed.

(** A full list of children, split at a separator. *)
Lemma sep_split a : forall lo hi k b ta tb, length ta = S (length a) -> separated O lo hi (a ++ k :: b) (ta ++ tb) ->
  strictly lo hi k /\ separated O lo (Some k) a ta /\ separated O (Some k) hi b tb.
Proof.
  induction a as [|k0 a IH]; intros lo hi k b ta tb Hlen H.
  - destruct ta as [|t []]; try discriminate. cbn [app separated] in H. destruct H as (H1 & H2 & H3 & H4). cbn. repeat split; auto.
  - destruct ta as [|t ta]; [discriminate|]. injection Hlen as Hlen. cbn [app separated] in *. destruct H as (H1 & H2 & H3 & H4).
    destruct (IH (Some k0) hi k b ta tb Hlen H4) as ([S1 S2] & I2 & I3). repeat split; auto.
    destruct lo; [|exact I]. exact (key_lt_trans _ _ _ H2 S1).
Qed.

Context (F : T -> list (K * V)) (HO : forall lo hi t, O lo hi t -> Forall (fun x => above lo x.1 /\ below hi x.1) (F t)).

Lemma above_weaken lo k x : match lo with Some y => key_lt y k | None => True end -> key_le k x -> above lo x.
Proof. destruct lo as [y|]; cbn; [|auto]. intros H1 H2. apply key_le_cases. left. exact (lt_le_trans _ _ _ H1 H2). Qed.

Lemma below_weaken hi k x : match hi with Some y => key_lt k y | None => True end -> key_lt x k -> below hi x.
Proof. destruct hi as [y|]; cbn; [|auto]. intros H1 H2. exact (key_lt_trans _ _ _ H2 H1). Qed.

Lemma sep_bounds ks : forall lo hi ts, separated O lo hi ks ts -> Forall (fun x => above lo x.1 /\ below hi x.1) (flat_map F ts).
Proof.
  induction ks as [|k ks IH]; intros lo hi [|t ts] H; cbn [separated] in H; try contradiction.
  - destruct ts; [|contradiction]. cbn [flat_map]. rewrite app_nil_r. apply HO, H.
  - destruct H as (H1 & H2 & H3 & H4). cbn [flat_map]. apply Forall_app. split.
    + eapply Forall_impl; [exact (HO _ _ _ H1)|]. intros x [Ha Hb]. split; [exact Ha|exact (below_weaken hi k _ H3 Hb)].
    + eapply Forall_impl; [exact (IH _ _ _ H4)|]. intros x [Ha Hb]. split; [exact (above_weaken lo k _ H2 Ha)|exact Hb].
Qed.

(** The entries on both sides of one child. *)
Lemma sep_siblings ksl : forall lo hi ksr tsl t tsr, length ksl = length tsl -> separated O lo hi (ksl ++ ksr) (tsl ++ t :: tsr) ->
  Forall (fun x => match last ksl with Some k => key_lt x.1 k | None => False end) (flat_map F tsl) /\
  Forall (fun x => match ksr with k :: _ => key_le k x.1 | [] => False end) (flat_map F tsr).
Proof.
  induction ksl as [|k0 ksl IH]; intros lo hi ksr tsl t tsr Hlen H.
  - destruct tsl; [|discriminate]. split; [constructor|]. cbn [app] in H. destruct ksr as [|k1 ksr]; cbn [separated] in H.
    + destruct tsr; [constructor|contradiction].
    + destruct H as (_ & _ & _ & H). eapply Forall_impl; [exact (sep_bounds _ _ _ _ H)|]. intros x [Hx _]. exact Hx.
  - destruct tsl as [|t0 tsl]; [discriminate|]. injection Hlen as Hlen. cbn [app separated] in H. destruct H as (H1 & _ & _ & H4).
    destruct (IH (Some k0) hi ksr tsl t tsr Hlen H4) as [I1 I2]. split; [|exact I2]. cbn [flat_map]. apply Forall_app. split.
    + assert (Hk : match last (k0 :: ksl) with Some k => key_le k0 k | None => False end).
      { clear -H4 Hlen TO. revert k0 tsl Hlen H4. induction ksl as [|k1 ksl IH]; intros k0 tsl Hlen H4; [apply key_lt_irrefl|].
        destruct tsl as [|t1 tsl]; [discriminate|]. injection Hlen as Hlen. cbn [app separated] in H4. destruct H4 as (_ & H2 & _ & H4).
        specialize (IH k1 tsl Hlen H4). rewrite last_cons_cons. destruct (last (k1 :: ksl)); [|exact IH].
        apply key_le_cases. left. exact (lt_le_trans _ _ _ H2 IH). }
      eapply Forall_impl; [exact (HO _ _ _ H1)|]. intros x [_ Hx]. destruct (last (k0 :: ksl)); [|exact Hk]. exact (lt_le_trans _ _ _ Hx Hk).
    + eapply Forall_impl; [exact I1|]. intros x Hx. destruct ksl as [|k1 ksl]; [destruct Hx|]. rewrite last_cons_cons. exact Hx.
Qed.

Lemma sep_sorted ks : (forall lo hi t, O lo hi t -> sorted (F t)) -> forall lo hi ts, separated O lo hi ks ts -> sorted (flat_map F ts).
Proof.
  intros HS. induction ks as [|k ks IH]; intros lo hi [|t ts] H; cbn [separated] in H; try contradiction.
  - destruct ts; [|contradiction]. cbn [flat_map]. rewrite app_nil_r. exact (HS _ _ _ H).
  - destruct H as (H1 & H2 & H3 & H4). cbn [flat_map]. pose proof (HO _ _ _ H1) as Hl. pose proof (sep_bounds _ _ _ _ H4) as Hr.
    pose proof (HS _ _ _ H1) as Hs. specialize (IH _ _ _ H4). revert Hl Hs. generalize (F t). intros l. unfold sorted.
    induction l as [|x l IHl]; intros Hl Hs; [exact IH|]. apply Forall_cons in Hl as [[_ Hx] Hl]. apply StronglySorted_cons in Hs as [Hx' Hs].
    cbn [app]. apply StronglySorted_cons. split; [|auto]. apply Forall_app. split; [exact Hx'|].
    eapply Forall_impl; [exact Hr|]. intros y [Hy _]. exact (lt_le_trans _ _ _ Hx Hy).
Qed.
End Separated.

Lemma ordered_bounds d : forall lo hi (t : tree d), ordered lo hi t -> Forall (fun x => above lo x.1 /\ below hi x.1) (flat t).
Proof.
  induction d as [|d IH]; intros lo hi t H; cbn [ordered flat] in *; [apply H|]. eapply sep_bounds; [exact IH|exact H].
Qed.

Lemma ordered_sorted d : forall lo hi (t : tree d), ordered lo hi t -> sorted (flat t).
Proof.
  induction d as [|d IH]; intros lo hi t H; cbn [ordered flat] in *; [apply H|]. eapply sep_sorted; [apply ordered_bounds|exact IH|exact H].
Qed.

(** The child that may hold [key]. *)
Lemma child_split key ks {T} (O : option K -> option K -> T -> Prop) lo hi ts : separated O lo hi ks ts -> above lo key -> below hi key ->
  exists ksl ksr tsl t tsr, ks = ksl ++ ksr /\ ts = tsl ++ t :: tsr /\ length ksl = length tsl /\ child_pos comparator key ks = length ksl /\
    above (last_or lo ksl) key /\ below (head_or hi ksr) key.
Proof.
  intros H Hlo Hhi. destruct (count_while_split (fun x => (0 <=? comparator key x)%Z) ks) as (ksl & ksr & E & Hc & Hl & Hr).
  pose proof (separated_length _ _ _ _ _ H) as Hlen. rewrite E, length_app in Hlen.
  exists ksl, ksr, (take (length ksl) ts). destruct (drop (length ksl) ts) as [|t tsr] eqn:Ed.
  { apply (f_equal length) in Ed. rewrite length_drop in Ed. cbn in Ed. lia. }
  exists t, tsr. split; [exact E|]. split; [rewrite <- Ed, take_drop; reflexivity|]. split; [rewrite length_take; lia|]. split; [exact Hc|]. split.
  - unfold last_or. destruct (last ksl) as [k|] eqn:El; [|exact Hlo]. apply last_Some in El as [a ->]. apply Forall_app in Hl as [_ Hl].
    apply Forall_cons in Hl as [Hk%Z.leb_le _]. cbn. intros Hn. unfold key_lt in Hn. lia.
  - unfold head_or. destruct ksr as [|k ksr]; [exact Hhi|]. cbn. apply Z.leb_gt in Hr. exact Hr.
Qed.
End Shape.
