(* ===== verification/BTreeHeap.v ===== *)
(** * Trees in a heap of nodes (btree_index.hpp)

    What an update of some nodes does to the trees the heap holds.  Nothing ever
    reads [prev], so heaps are compared up to it. *)

From S2P Require Import Prelude BTree BTreeShape.
From stdpp Require Import base list gmap sorting.
From Stdlib Require Import ZArith Lia.

Section Heap.
Context {K V : Type} (comparator : K -> K -> Z) `{TO : !KeyOrder comparator}.

Abbreviation node := (@node K V).
Abbreviation tree := (@tree K V).

(** The node [p] is the same in both heaps, but for [prev]. *)
Definition same_at (h h' : gmap nat node) (p : nat) : Prop := (fun n => with_prev n None) <$> h !! p = (fun n => with_prev n None) <$> h' !! p.

Lemma same_at_eq h h' p : h' !! p = h !! p -> same_at h h' p.
Proof. unfold same_at. intros ->. reflexivity. Qed.

Lemma same_at_sym h h' p : same_at h h' p -> same_at h' h p.
Proof. unfold same_at. auto. Qed.

Lemma same_at_trans h1 h2 h3 p : same_at h1 h2 p -> same_at h2 h3 p -> same_at h1 h3 p.
Proof. unfold same_at. congruence. Qed.

Lemma same_at_some h h' p b ks vs cs par nxt pv : same_at h h' p -> h !! p = Some (mkNode b ks vs cs par nxt pv) ->
  exists pv', h' !! p = Some (mkNode b ks vs cs par nxt pv').
Proof.
  unfold same_at. intros Hs Hp. rewrite Hp in Hs. destruct (h' !! p) as [[b' ks' vs' cs' par' nxt' pv']|]; [|discriminate].
  cbn in Hs. injection Hs as -> -> -> -> -> ->. eauto.
Qed.

Lemma ptr_ids d (t : tree d) : ptr t ∈ ids t.
Proof. destruct d; cbn; left. Qed.

Lemma elem_ids_list d (ts : list (tree d)) t p : t ∈ ts -> p ∈ ids t -> p ∈ flat_map ids ts.
Proof. intros Ht Hp. apply list_elem_of_In, in_flat_map. exists t. split; apply list_elem_of_In; assumption. Qed.

Lemma ptrs_ids d (ts : list (tree d)) p : p ∈ map ptr ts -> p ∈ flat_map ids ts.
Proof.
  intros H. apply list_elem_of_In, in_map_iff in H as (t & <- & Ht). apply (elem_ids_list d ts t); [apply list_elem_of_In, Ht|apply ptr_ids].
Qed.

Lemma repr_frame d : forall h h' par nxt (t : tree d), (forall p, p ∈ ids t -> same_at h h' p) -> repr h par nxt t -> repr h' par nxt t.
Proof.
  induction d as [|d IH]; intros h h' par nxt t Hs H.
  - destruct H as [pv H]. destruct (same_at_some _ _ _ _ _ _ _ _ _ _ (Hs _ (ptr_ids O t)) H) as [pv' H']. exists pv'. exact H'.
  - destruct H as [[pv H] Hl]. destruct (same_at_some _ _ _ _ _ _ _ _ _ _ (Hs _ (ptr_ids (S d) t)) H) as [pv' H']. split; [exists pv'; exact H'|].
    eapply linked_impl; [|exact Hl]. intros x c Hc. apply IH. intros p Hp. apply Hs. cbn [ids]. right. exact (elem_ids_list _ _ _ _ Hc Hp).
Qed.

Lemma linked_frame d h h' par nxt (ts : list (tree d)) : (forall p, p ∈ flat_map ids ts -> same_at h h' p) ->
  linked (repr h par) first nxt ts -> linked (repr h' par) first nxt ts.
Proof.
  intros Hs. apply linked_impl. intros x c Hc. apply repr_frame. intros p Hp. apply Hs. exact (elem_ids_list _ _ _ _ Hc Hp).
Qed.

Lemma repr_node d h par nxt (t : tree d) : repr h par nxt t -> exists n, h !! ptr t = Some n /\ parent n = par.
Proof. destruct d; [intros [pv H]|intros [[pv H] _]]; eexists; (split; [exact H|reflexivity]). Qed.

(** A tree under another parent. *)
Lemma repr_reparent d h par par' nxt (t : tree d) n : repr h par nxt t -> NoDup (ids t) -> h !! ptr t = Some n ->
  repr (<[ptr t := with_parent n par']> h) par' nxt t.
Proof.
  destruct d as [|d]; cbn [repr ids ptr]; intros H Hnd Hn.
  - destruct H as [pv H]. rewrite H in Hn. injection Hn as <-. exists pv. apply lookup_insert_eq.
  - destruct H as [[pv H] Hl]. rewrite H in Hn. injection Hn as <-. split; [exists pv; apply lookup_insert_eq|].
    eapply linked_frame; [|exact Hl]. intros p Hp. apply same_at_eq. apply lookup_insert_ne. intros <-. exact (NoDup_cons_1_1 _ _ Hnd Hp).
Qed.

Lemma set_parent_spec d h par q nxt (t : tree d) : repr h par nxt t -> NoDup (ids t) ->
  exists h', set_parent h (ptr t) q = Some h' /\ repr h' (Some q) nxt t /\ (forall p, p <> ptr t -> h' !! p = h !! p).
Proof.
  intros H Hnd. destruct (repr_node d h par nxt t H) as (n & Hn & _). unfold set_parent. rewrite Hn. eexists. split; [reflexivity|].
  split; [exact (repr_reparent d h par (Some q) nxt t n H Hnd Hn)|]. intros p Hp. apply lookup_insert_ne. congruence.
Qed.

Lemma set_parents_spec d q (ts : list (tree d)) : forall h par nxt, linked (repr h par) first nxt ts -> NoDup (flat_map ids ts) ->
  exists h', set_parents h (map ptr ts) q = Some h' /\ linked (repr h' (Some q)) first nxt ts /\ (forall p, p ∉ map ptr ts -> h' !! p = h !! p).
Proof.
  induction ts as [|t ts IH]; intros h par nxt Hl Hnd; [exists h; cbn; auto|]. cbn [linked flat_map map set_parents] in *.
  destruct Hl as [Ht Hl]. apply NoDup_app in Hnd as (Hnd1 & Hdis & Hnd2).
  destruct (set_parent_spec d h par q _ t Ht Hnd1) as (h1 & E1 & Ht1 & Hoth1). rewrite E1.
  assert (Hl1 : linked (repr h1 par) first nxt ts).
  { eapply linked_frame; [|exact Hl]. intros p Hp. apply same_at_eq, Hoth1. intros ->. exact (Hdis _ (ptr_ids d t) Hp). }
  destruct (IH h1 par nxt Hl1 Hnd2) as (h' & E' & Hl' & Hoth'). exists h'. split; [exact E'|]. split; [split; [|exact Hl']|].
  - eapply repr_frame; [|exact Ht1]. intros p Hp. apply same_at_eq, Hoth'. intros Hin%ptrs_ids. exact (Hdis p Hp Hin).
  - intros p Hp. apply not_elem_of_cons in Hp as [H1 H2]. rewrite (Hoth' p H2). apply Hoth1, H1.
Qed.

(** ** Depth and fuel *)

Lemma depth_ids d : forall lo hi (t : tree d), ordered comparator lo hi t -> (d < length (ids t))%nat.
Proof.
  induction d as [|d IH]; intros lo hi t H; cbn [ids length]; [lia|]. cbn [ordered] in H. destruct t as [[p ks] ts]. cbn [fst snd] in *.
  assert (Hc : exists c rest lo' hi', ts = c :: rest /\ ordered comparator lo' hi' c).
  { destruct ks, ts as [|c [|]]; cbn in H; try contradiction; try (exists c; eauto 10; fail); destruct H as [H _]; eauto 10. }
  destruct Hc as (c & rest & lo' & hi' & -> & Hc). specialize (IH _ _ _ Hc). cbn [flat_map]. rewrite length_app. lia.
Qed.

Lemma nodup_bound (l : list nat) n : NoDup l -> Forall (fun x => (x < n)%nat) l -> (length l <= n)%nat.
Proof.
  intros Hnd Hf. rewrite <- (length_seq n 0). apply NoDup_incl_length; [apply NoDup_ListNoDup, Hnd|]. intros x Hx. apply in_seq.
  rewrite Forall_forall in Hf. specialize (Hf x (proj2 (list_elem_of_In _ _) Hx)). lia.
Qed.
End Heap.
