(* ===== verification/BTreeInsert.v ===== *)
(** * Insertion into the B+ tree (btree_index.hpp)

    [insert] descends to a leaf, and splits go up along the parent pointers.  Seen
    from a subtree, an insertion either stays within it, or leaves two trees and
    asks the parent to take the second one. *)

From S2P Require Import Prelude BTree BTreeShape BTreeHeap.
From stdpp Require Import base list gmap sorting.
From Stdlib Require Import ZArith Lia.

Section Insert.
Context {K V : Type} (comparator : K -> K -> Z) `{TO : !KeyOrder comparator}.

Abbreviation node := (@node K V).
Abbreviation tree := (@tree K V).
Abbreviation bptree := (@bptree K V).
Abbreviation key_lt := (key_lt comparator).
Abbreviation key_le := (key_le comparator).
Abbreviation ordered := (ordered comparator).
Abbreviation above := (above comparator).
Abbreviation below := (below comparator).
Abbreviation strictly := (strictly comparator).
Abbreviation ins := (ins comparator).

(** The end of both splits: the parent takes [right], or a new root does. *)
Definition bubble (fuel : nat) (T : bptree) (par : option nat) (key : K) (left right : nat) : option bptree :=
  match par with
  | Some up => h ← set_parent (heap T) right up; insertInternal comparator fuel (set_heap T h) up key right
  | None => grow_root T key left right
  end.

(** What [T'] keeps of [T] when the entries of [t] with the new one are in [ts]. *)
Record grown {d} (T T' : bptree) (t : tree d) (ts : list (tree d)) (key : K) (v : V) : Prop := {
  gr_nodup : NoDup (flat_map ids ts);
  gr_fresh : Forall (fun p => (p < fresh_ T')%nat) (flat_map ids ts);
  gr_mono : (fresh_ T <= fresh_ T')%nat;
  gr_ids : forall p, p ∈ flat_map ids ts -> p ∈ ids t \/ (fresh_ T <= p)%nat;
  gr_frame : forall p, p ∉ ids t -> (p < fresh_ T)%nat -> same_at (heap T) (heap T') p;
  gr_flat : flat_map flat ts = ins key v (flat t);
  gr_root : root_ T' = root_ T;
  gr_size : (size_ T' + length (flat t) = size_ T + length (ins key v (flat t)))%nat }.

(** The insertion stays below [t]. *)
Definition absorbed {d} (T : bptree) (par nxt : option nat) (lo hi : option K) (t : tree d) (key : K) (v : V) (r : option (bool * bptree)) : Prop :=
  exists T' t', r = Some (true, T') /\ grown T T' t [t'] key v /\ ptr t' = ptr t /\ first t' = first t /\
    repr (heap T') par nxt t' /\ ordered lo hi t' /\ bounded t'.

(** The parent has to take a second tree. *)
Definition splits {d} (T : bptree) (par nxt : option nat) (lo hi : option K) (t : tree d) (key : K) (v : V) (r : option (bool * bptree)) : Prop :=
  exists T' tl k tr fuel, r = (T'' ← bubble fuel T' par k (ptr t) (ptr tr); Some (true, T'')) /\ grown T T' t [tl; tr] key v /\
    ptr tl = ptr t /\ first tl = first t /\ repr (heap T') par (Some (first tr)) tl /\ repr (heap T') None nxt tr /\
    ordered lo (Some k) tl /\ ordered (Some k) hi tr /\ bounded tl /\ bounded tr /\ strictly lo hi k /\
    (fresh_ T < fuel + d)%nat.

(** ** Leaves *)

Lemma sorted_app_inv (a b : list (K * V)) : sorted comparator (a ++ b) -> sorted comparator a /\ sorted comparator b /\
  forall x y, x ∈ a -> y ∈ b -> key_lt x.1 y.1.
Proof.
  unfold sorted. induction a as [|x a IH]; cbn [app]; intros H; [split; [constructor|]; split; [exact H|]; intros x y Hx; inversion Hx|].
  apply StronglySorted_cons in H as [Hx H]. destruct (IH H) as (H1 & H2 & H3). apply Forall_app in Hx as [Hx1 Hx2].
  split; [apply StronglySorted_cons; auto|]. split; [exact H2|]. intros y z Hy Hz. apply elem_of_cons in Hy as [->|Hy]; [|auto].
  rewrite Forall_forall in Hx2. apply Hx2, Hz.
Qed.

Lemma sorted_app (a b : list (K * V)) : sorted comparator a -> sorted comparator b -> (forall x y, x ∈ a -> y ∈ b -> key_lt x.1 y.1) -> sorted comparator (a ++ b).
Proof.
  unfold sorted. induction a as [|x a IH]; cbn [app]; intros Ha Hb H; [exact Hb|]. apply StronglySorted_cons in Ha as [Hx Ha]. apply StronglySorted_cons. split.
  - apply Forall_app. split; [exact Hx|]. apply Forall_forall. intros y Hy. apply H; [left|exact Hy].
  - apply IH; auto. intros y z Hy. apply H. right. exact Hy.
Qed.

(** Where the key goes in a leaf. *)
Lemma leaf_pos key (es : list (K * V)) : sorted comparator es -> exists a b, es = a ++ b /\ insert_pos comparator key es.*1 = length a /\
  Forall (fun x => key_lt x.1 key) a /\ Forall (fun x => key_le key x.1) b.
Proof.
  intros Hs. induction es as [|x es IH]; [exists [], []; repeat split; constructor|]. unfold insert_pos in *. rewrite fmap_cons. cbn [count_while].
  unfold sorted in Hs. apply StronglySorted_cons in Hs as [Hx Hs].
  destruct (Z.ltb_spec 0 (comparator key x.1)) as [Hlt|Hge].
  - destruct (IH Hs) as (a & b & -> & Hc & Ha & Hb). exists (x :: a), b. cbn [length app]. rewrite Hc. repeat split; auto.
    constructor; [apply cmp_sym, Hlt|exact Ha].
  - exists [], (x :: es). repeat split; [constructor|]. assert (Hk : key_le key x.1) by (unfold BTreeShape.key_le; rewrite <- cmp_gt by exact TO; lia).
    constructor; [exact Hk|]. eapply Forall_impl; [exact Hx|]. intros y Hy. apply key_le_cases; [exact TO|]. left. exact (le_lt_trans comparator _ _ _ Hk Hy).
Qed.

Lemma ins_here key v (a b : list (K * V)) : Forall (fun x => key_lt x.1 key) a -> Forall (fun x => key_lt key x.1) b -> ins key v (a ++ b) = a ++ (key, v) :: b.
Proof. intros Ha Hb. rewrite ins_before by assumption. rewrite <- (app_nil_l b) at 1. rewrite ins_after by assumption. reflexivity. Qed.

Lemma ins_same key v v0 (a b : list (K * V)) : Forall (fun x => key_lt x.1 key) a -> ins key v (a ++ (key, v0) :: b) = a ++ (key, v) :: b.
Proof.
  intros Ha. rewrite ins_before by assumption. cbn [BTreeShape.ins fst]. rewrite (proj2 (cmp_eq key key) eq_refl). reflexivity.
Qed.

Lemma sorted_insert key v (a b : list (K * V)) : sorted comparator (a ++ b) -> Forall (fun x => key_lt x.1 key) a -> Forall (fun x => key_lt key x.1) b ->
  sorted comparator (a ++ (key, v) :: b).
Proof.
  intros Hs Ha Hb. destruct (sorted_app_inv a b Hs) as (H1 & H2 & H3). rewrite Forall_forall in Ha. apply sorted_app; [exact H1| |].
  - apply StronglySorted_cons. split; [exact Hb|exact H2].
  - intros x y Hx Hy. apply elem_of_cons in Hy as [->|Hy]; [apply Ha, Hx|auto].
Qed.

(** The next leaf can be reached. *)
Definition live (T : bptree) (nxt : option nat) : Prop :=
  match nxt with Some x => is_Some (heap T !! x) /\ (x < fresh_ T)%nat | None => True end.

Lemma grown_leaf T h (l : nat) (es es' : list (K * V)) key v n : (l < fresh_ T)%nat -> ins key v es = es' ->
  (n + length es = size_ T + length es')%nat -> (forall p, p <> l -> same_at (heap T) h p) ->
  grown (d := 0) T (mkTree h (root_ T) n (fresh_ T)) (l, es) [(l, es')] key v.
Proof.
  intros Hl Hins Hs Hh. split; cbn [flat_map ids flat fst snd app fresh_ heap root_ size_]; auto.
  - apply NoDup_singleton.
  - intros p Hp _. apply Hh. intros ->. apply Hp. left.
  - rewrite app_nil_r. auto.
  - rewrite Hins. exact Hs.
Qed.

(** [splitLeaf] of a leaf [es]: the halves are linked, the second has no parent yet. *)
Lemma splitLeaf_bubble T l es par nxt pv : heap T !! l = Some (mkNode true es.*1 es.*2 [] par nxt pv) -> (l < fresh_ T)%nat -> live T nxt ->
  (length es = BTREE_ORDER)%nat ->
  exists a k v b T', es = a ++ (k, v) :: b /\ (0 < length a)%nat /\ (length a < BTREE_ORDER)%nat /\ (length ((k, v) :: b) < BTREE_ORDER)%nat /\
    splitLeaf comparator T l = bubble (fuel T') T' par k l (fresh_ T) /\ fresh_ T' = S (fresh_ T) /\ root_ T' = root_ T /\ size_ T' = size_ T /\
    (exists pv, heap T' !! l = Some (mkNode true a.*1 a.*2 [] par (Some (fresh_ T)) pv)) /\
    (exists pv, heap T' !! fresh_ T = Some (mkNode true ((k, v) :: b).*1 ((k, v) :: b).*2 [] None nxt pv)) /\
    (forall p, p <> l -> p <> fresh_ T -> same_at (heap T) (heap T') p).
Proof.
  intros Hl Hlt Hlive Hlen. unfold BTREE_ORDER in *. set (q := fresh_ T).
  destruct (drop 64 es) as [|[k v] b] eqn:Ed; [apply (f_equal length) in Ed; rewrite length_drop in Ed; cbn in Ed; lia|].
  assert (Hes : es = take 64 es ++ (k, v) :: b) by (rewrite <- Ed, take_drop; reflexivity).
  assert (Hta : length (take 64 es) = 64%nat) by (rewrite length_take; lia).
  assert (Hb : length ((k, v) :: b) = 64%nat) by (rewrite <- Ed, length_drop; lia).
  set (nl := mkNode true ((k, v) :: b).*1 ((k, v) :: b).*2 [] None nxt (Some l)).
  set (ll := mkNode true (take 64 es).*1 (take 64 es).*2 [] par nxt pv).
  set (h0 := <[q := nl]> (<[l := ll]> (heap T))).
  assert (Hh : exists h1, match nxt with Some x => n ← h0 !! x; Some (<[x := with_prev n (Some q)]> h0) | None => Some h0 end = Some h1 /\
    (exists pv', h1 !! l = Some (mkNode true (take 64 es).*1 (take 64 es).*2 [] par nxt pv')) /\ (exists pv', h1 !! q = Some (mkNode true ((k, v) :: b).*1 ((k, v) :: b).*2 [] None nxt pv')) /\
    (forall p, p <> l -> p <> q -> same_at (heap T) h1 p)).
  { assert (H0 : same_at h0 h0 l) by reflexivity. assert (Hl0 : h0 !! l = Some ll) by (unfold h0; rewrite lookup_insert_ne by (unfold q; lia); apply lookup_insert_eq).
    assert (Hq0 : h0 !! q = Some nl) by apply lookup_insert_eq.
    assert (Ho0 : forall p, p <> l -> p <> q -> h0 !! p = heap T !! p) by (intros p H1 H2; unfold h0; rewrite !lookup_insert_ne by congruence; reflexivity).
    destruct nxt as [x|]; [|exists h0; split; [reflexivity|]; split; [exists pv; exact Hl0|]; split; [exists (Some l); exact Hq0|]; intros p H1 H2; apply same_at_eq, Ho0; assumption].
    destruct Hlive as [[nx Hx] Hxlt]. assert (Hx0 : exists n, h0 !! x = Some n).
    { destruct (decide (x = l)) as [->|]; [eauto|]. rewrite Ho0 by (unfold q; lia). eauto. }
    destruct Hx0 as [n Hn]. rewrite Hn. eexists. split; [reflexivity|].
    assert (Hsame : forall p, same_at h0 (<[x := with_prev n (Some q)]> h0) p).
    { intros p. unfold same_at. destruct (decide (p = x)) as [->|]; [rewrite lookup_insert_eq, Hn; reflexivity|rewrite lookup_insert_ne by congruence; reflexivity]. }
    split; [exact (same_at_some _ _ _ _ _ _ _ _ _ _ (Hsame l) Hl0)|]. split; [exact (same_at_some _ _ _ _ _ _ _ _ _ _ (Hsame q) Hq0)|].
    intros p H1 H2. eapply same_at_trans; [apply same_at_eq, Ho0; assumption|apply Hsame]. }
  destruct Hh as (h1 & E1 & [pvl El] & [pvq Eq] & Hoth).
  exists (take 64 es), k, v, b, (mkTree (<[l := mkNode true (take 64 es).*1 (take 64 es).*2 [] par (Some q) pvl]> h1) (root_ T) (size_ T) (S q)).
  split; [exact Hes|]. split; [lia|]. split; [lia|]. split; [lia|]. cbn [fresh_ root_ size_ heap]. split.
  - unfold splitLeaf, with_keys, with_next. rewrite Hl. cbn [mbind option_bind keys values next children parent isLeaf prev]. rewrite length_fmap, Hlen.
    change (128 / 2)%nat with 64%nat. rewrite <- !fmap_take, <- !fmap_drop, Ed. fold q. fold nl. fold ll. fold h0. rewrite E1. cbn [mbind option_bind]. rewrite El.
    cbn [mbind option_bind isLeaf keys values children parent prev].
    reflexivity.
  - split; [reflexivity|]. split; [reflexivity|]. split; [reflexivity|]. split; [exists pvl; apply lookup_insert_eq|].
    split; [exists pvq; rewrite lookup_insert_ne by (unfold q; lia); exact Eq|]. intros p H1 H2. eapply same_at_trans; [apply Hoth; assumption|].
    apply same_at_eq, lookup_insert_ne. congruence.
Qed.

Lemma leaf_lookup (a b : list (K * V)) x : (a ++ x :: b).*1 !! length a = Some x.1.
Proof. rewrite list_lookup_fmap, list_lookup_middle by reflexivity. reflexivity. Qed.

Lemma insert_case T par nxt lo hi (t : tree 0) key v : repr (heap T) par nxt t -> ordered lo hi t -> bounded t -> (ptr t < fresh_ T)%nat -> live T nxt ->
  above lo key -> below hi key ->
  absorbed T par nxt lo hi t key v (leaf_insert comparator T (ptr t) key v) \/ splits T par nxt lo hi t key v (leaf_insert comparator T (ptr t) key v).
Proof.
  destruct t as [l es]. cbn [repr BTreeShape.ordered bounded ptr fst snd]. intros [pv Hl] [Hs Hr] Hb Hlt Hlive Hlo Hhi.
  destruct (leaf_pos key es Hs) as (a & b & E & Hpos & Ha & Hb'). unfold leaf_insert. rewrite Hl. cbn [mbind option_bind keys values children]. rewrite Hpos.
  assert (Hcase : (exists v0 b', b = (key, v0) :: b') \/ Forall (fun x => key_lt key x.1) b).
  { destruct b as [|[k v0] b]; [right; constructor|]. apply Forall_cons in Hb' as [Hk Hb']. apply key_le_cases in Hk as [Hk|Hk]; [|left; cbn in Hk; subst k; eauto|exact TO].
    right. constructor; [exact Hk|]. subst es. destruct (sorted_app_inv _ _ Hs) as (_ & Hs2 & _). apply StronglySorted_cons in Hs2 as [Hs2 _].
    eapply Forall_impl; [exact Hs2|]. intros y Hy. exact (key_lt_trans comparator _ _ _ Hk Hy). }
  destruct Hcase as [(v0 & b' & ->)|Hgt].
  - (* the value of an existing key *)
    left. subst es. rewrite leaf_lookup. cbn [fst]. rewrite (proj2 (cmp_eq key key) eq_refl). cbn [Z.eqb].
    destruct (Nat.ltb_spec (length a) (length (a ++ (key, v0) :: b').*2)) as [_|Hn]; [|rewrite length_fmap, length_app in Hn; cbn in Hn; lia].
    exists (set_heap T (<[l := mkNode true (a ++ (key, v) :: b').*1 (a ++ (key, v) :: b').*2 [] par nxt pv]> (heap T))), (l, a ++ (key, v) :: b').
    split; [|split; [|split; [reflexivity|split; [reflexivity|split; [exists pv; apply lookup_insert_eq|split]]]]].
    + unfold with_keys. cbn [isLeaf parent next prev]. do 5 f_equal; [rewrite !fmap_app, !fmap_cons; reflexivity|].
      rewrite !fmap_app, !fmap_cons, insert_app_r_alt, length_fmap, Nat.sub_diag by (rewrite length_fmap; lia). reflexivity.
    + apply grown_leaf; [exact Hlt|apply ins_same, Ha|rewrite !length_app; cbn; lia|].
      intros p Hp. apply same_at_eq, lookup_insert_ne. congruence.
    + cbn [BTreeShape.ordered fst snd]. apply Forall_app in Hr as [Hr1 Hr2]. apply Forall_cons in Hr2 as [Hk Hr2]. split; [|apply Forall_app; auto].
      destruct (sorted_app_inv _ _ Hs) as (H1 & H2 & H3). apply StronglySorted_cons in H2 as [H2 H2']. apply sorted_app; [exact H1|apply StronglySorted_cons; auto|].
      intros x y Hx Hy. apply elem_of_cons in Hy as [->|Hy]; [apply (H3 x (key, v0) Hx); left|apply H3; [exact Hx|right; exact Hy]].
    + cbn [bounded snd]. rewrite !length_app in *. exact Hb.
  - (* a new entry *)
    replace (match es.*1 !! length a with Some k => (comparator key k =? 0)%Z | None => false end) with false.
    2:{ subst es. destruct b as [|y b]; [rewrite app_nil_r, lookup_ge_None_2 by (rewrite length_fmap; lia); reflexivity|]. rewrite leaf_lookup.
        apply Forall_cons in Hgt as [Hy _]. unfold BTreeShape.key_lt in Hy. destruct (Z.eqb_spec (comparator key y.1) 0); [lia|reflexivity]. }
    set (es' := a ++ (key, v) :: b). assert (Hins : ins key v es = es') by (subst es; apply ins_here; assumption).
    assert (Hs' : sorted comparator es') by (subst es; apply sorted_insert; assumption).
    assert (Hr' : Forall (fun x => above lo x.1 /\ below hi x.1) es').
    { subst es. unfold es'. apply Forall_app in Hr as [Hr1 Hr2]. apply Forall_app. split; [exact Hr1|]. constructor; [split; assumption|exact Hr2]. }
    assert (Hlen : length es' = S (length es)) by (subst es; unfold es'; rewrite !length_app; cbn; lia).
    assert (Hk : insert_at (length a) key es.*1 = Some es'.*1 /\ insert_at (length a) v es.*2 = Some es'.*2).
    { subst es. unfold es'. rewrite !fmap_app, !fmap_cons. split; [rewrite <- (length_fmap fst a)|rewrite <- (length_fmap snd a)]; apply insert_at_app. }
    destruct Hk as [-> ->]. cbn [mbind option_bind]. unfold with_keys. cbn [isLeaf parent next prev]. unfold isFull. cbn [keys]. rewrite length_fmap, Hlen.
    set (T1 := mkTree (<[l := mkNode true es'.*1 es'.*2 [] par nxt pv]> (heap T)) (root_ T) (S (size_ T)) (fresh_ T)).
    assert (Hoth1 : forall p, p <> l -> heap T1 !! p = heap T !! p) by (intros p Hp; apply lookup_insert_ne; congruence).
    destruct (Nat.leb_spec BTREE_ORDER (S (length es))) as [Hfull|Hfit].
    + right. assert (Hl1 : heap T1 !! l = Some (mkNode true es'.*1 es'.*2 [] par nxt pv)) by apply lookup_insert_eq.
      assert (Hlive1 : live T1 nxt).
      { destruct nxt as [x|]; [|exact I]. destruct Hlive as [Hx Hxlt]. split; [|exact Hxlt]. destruct (decide (x = l)) as [->|Hne]; [rewrite Hl1; eauto|rewrite Hoth1 by exact Hne; exact Hx]. }
      destruct (splitLeaf_bubble T1 l es' par nxt pv Hl1 Hlt Hlive1 ltac:(lia)) as (a' & k & w & b' & T' & E' & A1 & A2 & A3 & Esp & Ef & Er & Es & Hl' & Hq' & Hoth').
      rewrite Esp. cbn [fresh_ T1] in *. exists T', (l, a'), k, (fresh_ T, (k, w) :: b'), (fuel T'). rewrite E' in Hs', Hr'.
      destruct (sorted_app_inv _ _ Hs') as (S1 & S2 & S3). apply Forall_app in Hr' as [R1 R2].
      split; [reflexivity|]. split; [|split; [reflexivity|split; [reflexivity|split; [exact Hl'|split; [exact Hq'|split; [|split; [|split; [exact A2|split; [exact A3|split]]]]]]]]].
      * split; cbn [flat_map ids flat fst snd app]; rewrite ?app_nil_r; auto.
        -- apply NoDup_cons. split; [rewrite list_elem_of_singleton; lia|apply NoDup_singleton].
        -- rewrite Ef. repeat constructor; lia.
        -- rewrite Ef. lia.
        -- intros p Hp. apply elem_of_cons in Hp as [->|Hp]; [left; left|]. apply list_elem_of_singleton in Hp as ->. right. lia.
        -- intros p Hp Hlp. assert (p <> l) by (intros ->; apply Hp; left). eapply same_at_trans; [apply same_at_eq, Hoth1; assumption|]. apply Hoth'; [assumption|lia].
        -- congruence.
        -- rewrite Hins, Hlen, Es. cbn [T1 size_]. lia.
      * cbn [BTreeShape.ordered fst snd]. split; [exact S1|]. apply Forall_forall. intros x Hx. rewrite Forall_forall in R1. split; [apply R1, Hx|]. apply (S3 x (k, w) Hx). left.
      * cbn [BTreeShape.ordered fst snd]. split; [exact S2|]. apply StronglySorted_cons in S2 as [S2 _]. apply Forall_cons in R2 as [R2 R2']. constructor.
        -- split; [apply (key_lt_irrefl comparator); exact TO|apply R2].
        -- apply Forall_forall. intros x Hx. rewrite Forall_forall in S2, R2'. split; [|apply R2', Hx]. apply key_le_cases; [exact TO|]. left. apply (S2 x Hx).
      * split.
        -- destruct lo as [x|]; [|exact I]. destruct a' as [|y a']; [cbn in A1; lia|]. apply Forall_cons in R1 as [[R1 _] _]. cbn in R1.
           exact (le_lt_trans comparator _ _ _ R1 (S3 y (k, w) ltac:(left) ltac:(left))).
        -- apply Forall_cons in R2 as [[_ R2] _]. exact R2.
      * unfold fuel. rewrite Ef. lia.
    + left. exists T1, (l, es'). split; [reflexivity|]. split; [|split; [reflexivity|split; [reflexivity|split; [exists pv; apply lookup_insert_eq|split; [split; assumption|cbn [bounded snd]; lia]]]]].
      apply grown_leaf; [exact Hlt|exact Hins|lia|]. intros p Hp. apply same_at_eq, Hoth1, Hp.
Qed.
End Insert.
