(* ===== verification/BTreeInner.v ===== *)
(** * Insertion into the inner nodes of the B+ tree (btree_index.hpp)

    An inner node takes the second half of a split child, and is split itself when
    that fills it. *)

From S2P Require Import Prelude BTree BTreeShape BTreeHeap BTreeInsert.
From stdpp Require Import base list gmap sorting.
From Stdlib Require Import ZArith Lia.

Section Inner.
Context {K V : Type} (comparator : K -> K -> Z) `{TO : !KeyOrder comparator}.

Abbreviation node := (@node K V).
Abbreviation tree := (@tree K V).
Abbreviation bptree := (@bptree K V).
Abbreviation key_lt := (key_lt comparator).
Abbreviation key_le := (key_le comparator).
Abbreviation ordered := (ordered comparator).
Abbreviation above := (above comparator).
Abbreviation below := (below comparator).
Abbreviation strictly := (strictly comparator).
Abbreviation ins := (ins comparator).
Abbreviation grown := (grown comparator).
Abbreviation separated := (separated comparator).

(** ** Separators *)

Lemma sep_strict {T} (O : option K -> option K -> T -> Prop) ks : forall lo hi ts, separated O lo hi ks ts -> Forall (strictly lo hi) ks.
Proof.
  induction ks as [|k ks IH]; intros lo hi [|t ts] H; cbn [BTreeShape.separated] in H; try contradiction; [constructor|].
  destruct H as (_ & H1 & H2 & H3). constructor; [split; assumption|]. eapply Forall_impl; [exact (IH _ _ _ H3)|]. intros x [Hx1 Hx2]. split; [|exact Hx2].
  destruct lo; [|exact I]. exact (key_lt_trans comparator _ _ _ H1 Hx1).
Qed.

(** The new separator goes right after the one left of the split child. *)
Lemma sep_pos {T} (O : option K -> option K -> T -> Prop) lo hi a k b ts : separated O lo hi (a ++ k :: b) ts -> insert_pos comparator k (a ++ b) = length a.
Proof.
  intros H. pose proof (separated_length _ _ _ _ _ _ H) as Hlen. rewrite length_app in Hlen. cbn [length] in Hlen.
  rewrite <- (take_drop (S (length a)) ts) in H. apply sep_split in H as (_ & Ha%sep_strict & Hb%sep_strict); [|exact TO|rewrite length_take; lia].
  apply count_while_app.
  - eapply Forall_impl; [exact Ha|]. intros x [_ Hx]. apply Z.ltb_lt, cmp_sym. exact Hx.
  - destruct b as [|x b]; [exact I|]. apply Forall_cons in Hb as [[Hx _] _]. apply Z.ltb_ge. unfold BTreeShape.key_lt in Hx. lia.
Qed.

(** ** One inner node *)

(** [insertInternal] of [k] and [tr] into a node with room. *)
Definition fits {d} (fuel : nat) (T : bptree) (p : nat) (k : K) (tr : tree d) (par nxt : option nat) (ks : list K) (ts : list (tree d)) : Prop :=
  exists T', insertInternal comparator fuel T p k (ptr tr) = Some T' /\ fresh_ T' = fresh_ T /\ root_ T' = root_ T /\ size_ T' = size_ T /\
    repr (d := S d) (heap T') par nxt (p, ks, ts) /\ (forall x, x <> p -> heap T' !! x = heap T !! x) /\ (length ks < BTREE_ORDER)%nat.

(** ... and into a node without. *)
Definition overflows {d} (fuel : nat) (T : bptree) (p : nat) (k : K) (tr : tree d) (par nxt : option nat) (ks : list K) (ts : list (tree d)) : Prop :=
  exists T' ksa km ksb tsa c tsb, ks = ksa ++ km :: ksb /\ ts = tsa ++ c :: tsb /\ length tsa = S (length ksa) /\
    insertInternal comparator (S fuel) T p k (ptr tr) = bubble comparator fuel T' par km p (fresh_ T) /\
    fresh_ T' = S (fresh_ T) /\ root_ T' = root_ T /\ size_ T' = size_ T /\
    repr (d := S d) (heap T') par (Some (first c)) (p, ksa, tsa) /\ repr (d := S d) (heap T') None nxt (fresh_ T, ksb, c :: tsb) /\
    (forall x, x ∉ p :: flat_map ids ts -> x <> fresh_ T -> heap T' !! x = heap T !! x) /\
    (length ksa < BTREE_ORDER)%nat /\ (length ksb < BTREE_ORDER)%nat.

Lemma lookup_insert_frame (h : gmap nat node) p n x : x <> p -> <[p := n]> h !! x = h !! x.
Proof. intros H. apply lookup_insert_ne. congruence. Qed.

Lemma split_node d T p par pv nxt ks (ts : list (tree d)) : (length ks = BTREE_ORDER)%nat -> length ts = S (length ks) ->
  linked (repr (heap T) (Some p)) first nxt ts -> NoDup (p :: flat_map ids ts) -> Forall (fun x => (x < fresh_ T)%nat) (p :: flat_map ids ts) ->
  let n := mkNode false ks [] (map ptr ts) par None pv in
  let q := fresh_ T in
  exists ksa km ksb tsa c tsb h h', ks = ksa ++ km :: ksb /\ ts = tsa ++ c :: tsb /\ length tsa = S (length ksa) /\ ksa = take 64 ks /\
    map ptr tsa = take 65 (map ptr ts) /\ ks !! 64%nat = Some km /\ ksb = drop 65 ks /\ map ptr (c :: tsb) = drop 65 (map ptr ts) /\
    set_parents (<[q := mkNode false ksb [] (map ptr (c :: tsb)) None None None]> (<[p := n]> (heap T))) (map ptr (c :: tsb)) q = Some h /\
    h !! p = Some n /\ h' = <[p := mkNode false ksa [] (map ptr tsa) par None pv]> h /\
    repr (d := S d) h' par (Some (first c)) (p, ksa, tsa) /\ repr (d := S d) h' None nxt (q, ksb, c :: tsb) /\
    (forall x, x ∉ p :: flat_map ids ts -> x <> q -> h' !! x = heap T !! x) /\ (length ksa < BTREE_ORDER)%nat /\ (length ksb < BTREE_ORDER)%nat.
Proof.
  intros Hk Ht Hl Hnd Hlt n q. unfold BTREE_ORDER in *.
  destruct (drop 64 ks) as [|km ksb] eqn:Ek; [apply (f_equal length) in Ek; rewrite length_drop in Ek; cbn in Ek; lia|].
  destruct (drop 65 ts) as [|c tsb] eqn:Et; [apply (f_equal length) in Et; rewrite length_drop in Et; cbn in Et; lia|].
  assert (Eks : ks = take 64 ks ++ km :: ksb) by (rewrite <- Ek, take_drop; reflexivity).
  assert (Ets : ts = take 65 ts ++ c :: tsb) by (rewrite <- Et, take_drop; reflexivity).
  assert (Ekb : ksb = drop 65 ks) by (change 65%nat with (64 + 1)%nat; rewrite <- drop_drop, Ek; reflexivity).
  set (tsa := take 65 ts) in *. apply NoDup_cons in Hnd as [Hp Hnd]. apply Forall_cons in Hlt as [Hplt Hlt].
  assert (Hq : q ∉ flat_map ids ts) by (intros Hin; rewrite Forall_forall in Hlt; specialize (Hlt q Hin); unfold q in Hlt; lia).
  pose proof Hl as Hl0. rewrite Ets in Hl0, Hnd, Hp, Hq. apply linked_app in Hl0 as [Hla Hlb]. rewrite flat_map_app in Hnd, Hp, Hq.
  apply NoDup_app in Hnd as (Hnda & Hdis & Hndb). rewrite elem_of_app in Hp, Hq.
  set (h0 := <[q := mkNode false ksb [] (map ptr (c :: tsb)) None None None]> (<[p := n]> (heap T))).
  assert (H0 : forall x, x <> p -> x <> q -> h0 !! x = heap T !! x) by (intros x H1 H2; unfold h0; rewrite !lookup_insert_ne by congruence; reflexivity).
  assert (Hlb0 : linked (repr h0 (Some p)) first nxt (c :: tsb)).
  { eapply linked_frame; [|exact Hlb]. intros x Hx. apply same_at_eq, H0; intros ->; tauto. }
  destruct (set_parents_spec d q (c :: tsb) h0 (Some p) nxt Hlb0 Hndb) as (h & Eh & Hlh & Hoth).
  assert (Hpb : p ∉ map ptr (c :: tsb)) by (intros Hin%ptrs_ids; tauto). assert (Hqb : q ∉ map ptr (c :: tsb)) by (intros Hin%ptrs_ids; tauto).
  assert (Hpq : p <> q) by (unfold q; lia).
  assert (Hhp : h !! p = Some n) by (rewrite (Hoth p Hpb); unfold h0; rewrite lookup_insert_ne by congruence; apply lookup_insert_eq).
  exists (take 64 ks), km, ksb, tsa, c, tsb, h, (<[p := mkNode false (take 64 ks) [] (map ptr tsa) par None pv]> h).
  split; [exact Eks|]. split; [exact Ets|]. split; [unfold tsa; rewrite !length_take; lia|]. split; [reflexivity|].
  split; [unfold tsa; rewrite <- firstn_map; reflexivity|].
  split; [rewrite <- (Nat.add_0_r 64), <- lookup_drop, Ek; reflexivity|]. split; [exact Ekb|].
  split; [rewrite <- Et, <- skipn_map; reflexivity|]. split; [exact Eh|]. split; [exact Hhp|]. split; [reflexivity|].
  split; [split; [exists pv; apply lookup_insert_eq|]|]; [|split; [split; [exists None; cbn [fst snd]; rewrite lookup_insert_ne by exact Hpq; rewrite (Hoth q Hqb); apply lookup_insert_eq|]|split; [|split]]].
  - eapply linked_frame; [|exact Hla]. intros x Hx. apply same_at_eq. rewrite lookup_insert_ne by (intros <-; tauto).
    rewrite Hoth by (intros Hin%ptrs_ids; exact (Hdis x Hx Hin)). apply H0; intros ->; tauto.
  - cbn [fst snd]. eapply linked_frame; [|exact Hlh]. intros x Hx. apply same_at_eq, lookup_insert_ne. intros <-. tauto.
  - intros x Hx Hxq. apply not_elem_of_cons in Hx as [Hxp Hx]. rewrite lookup_insert_ne by congruence. rewrite Hoth; [exact (H0 x Hxp Hxq)|].
    intros Hin%ptrs_ids. apply Hx. rewrite Ets, flat_map_app, elem_of_app. right. exact Hin.
  - rewrite length_take. lia.
  - rewrite Ekb, length_drop. lia.
Qed.

Lemma node_insert d fuel T p par pv nxt lo hi ksl k ksr tsl (tl tr : tree d) tsr :
  heap T !! p = Some (mkNode false (ksl ++ ksr) [] (map ptr (tsl ++ tl :: tsr)) par None pv) -> (length (ksl ++ ksr) < BTREE_ORDER)%nat ->
  length ksl = length tsl -> linked (repr (heap T) (Some p)) first nxt (tsl ++ tl :: tr :: tsr) ->
  separated ordered lo hi (ksl ++ k :: ksr) (tsl ++ tl :: tr :: tsr) ->
  NoDup (p :: flat_map ids (tsl ++ tl :: tr :: tsr)) -> Forall (fun x => (x < fresh_ T)%nat) (p :: flat_map ids (tsl ++ tl :: tr :: tsr)) ->
  fits (S fuel) T p k tr par nxt (ksl ++ k :: ksr) (tsl ++ tl :: tr :: tsr) \/ overflows fuel T p k tr par nxt (ksl ++ k :: ksr) (tsl ++ tl :: tr :: tsr).
Proof.
  intros Hp Hlt Hlen Hl Hsep Hnd Hfr. pose proof (sep_pos _ _ _ _ _ _ _ Hsep) as Hpos. pose proof (separated_length _ _ _ _ _ _ Hsep) as Hts.
  set (ks := ksl ++ k :: ksr) in *. set (ts := tsl ++ tl :: tr :: tsr) in *.
  assert (Hks : length ks = S (length (ksl ++ ksr))) by (unfold ks; rewrite !length_app; cbn; lia).
  assert (Ecs : insert_at (length ksl + 1) (ptr tr) (map ptr (tsl ++ tl :: tsr)) = Some (map ptr ts)).
  { unfold ts. rewrite !map_app. cbn [map]. rewrite !(cons_middle (ptr tl)), !app_assoc.
    replace (length ksl + 1)%nat with (length (map ptr tsl ++ [ptr tl])) by (rewrite length_app, length_map; cbn; lia). apply insert_at_app. }
  set (n := (mkNode false ks [] (map ptr ts) par None pv : node)).
  assert (E : forall f, insertInternal comparator (S f) T p k (ptr tr) = if isFull n then
    let mid := (length ks / 2)%nat in promotedKey ← ks !! mid; let q := fresh_ T in
        h ← set_parents (<[q := mkNode false (drop (mid + 1) ks) [] (drop (mid + 1) (map ptr ts)) None None None]> (<[p := n]> (heap T))) (drop (mid + 1) (map ptr ts)) q;
        n ← h !! p;
        bubble comparator f (mkTree (<[p := with_keys n (take mid ks) (values n) (take (mid + 1) (map ptr ts))]> h) (root_ T) (size_ T) (S q)) (parent n) promotedKey p q
      else Some (set_heap T (<[p := n]> (heap T)))).
  { intros f. cbn [insertInternal]. rewrite Hp. cbn [mbind option_bind keys children]. rewrite Hpos, insert_at_app. cbn [mbind option_bind]. rewrite Ecs. cbn [mbind option_bind]. reflexivity. }
  unfold isFull in E. cbn [keys n] in E. destruct (Nat.leb_spec BTREE_ORDER (length ks)) as [Hfull|Hfit].
  - right. assert (Hk128 : length ks = BTREE_ORDER) by lia.
    destruct (split_node d T p par pv nxt ks ts Hk128 Hts Hl Hnd Hfr) as (ksa & km & ksb & tsa & c & tsb & h & h' & E1 & E2 & E3 & E4 & E5 & E6 & E7 & E8 & E9 & E10 & E11 & R1 & R2 & Hoth & B1 & B2).
    exists (mkTree h' (root_ T) (size_ T) (S (fresh_ T))), ksa, km, ksb, tsa, c, tsb. do 3 (split; [assumption|]). split; [|do 3 (split; [reflexivity|]); auto].
    rewrite E, Hk128. change (BTREE_ORDER / 2)%nat with 64%nat. change (64 + 1)%nat with 65%nat. cbv zeta. rewrite E6. cbn [mbind option_bind].
    rewrite <- E7, <- E8. fold n in E9, E10. rewrite E9. cbn [mbind option_bind]. rewrite E10. cbn [mbind option_bind]. rewrite E11, <- E4, <- E5. reflexivity.
  - left. exists (set_heap T (<[p := n]> (heap T))). split; [apply E|]. do 3 (split; [reflexivity|]). split; [|split; [|exact Hfit]].
    + split; [exists pv; apply lookup_insert_eq|]. cbn [fst snd]. eapply linked_frame; [|exact Hl]. intros x Hx. apply same_at_eq, lookup_insert_frame.
      intros ->. apply NoDup_cons in Hnd as [Hnd _]. exact (Hnd Hx).
    + intros x Hx. apply lookup_insert_frame, Hx.
Qed.
End Inner.
