(* ===== verification/BTreeGrow.v ===== *)
(** * Insertion into the whole B+ tree (btree_index.hpp)

    By induction on the depth, an insertion below a node either stays there or
    splits the node; at the root a split makes the tree one level deeper. *)

From S2P Require Import Prelude BTree BTreeShape BTreeHeap BTreeInsert BTreeInner.
From stdpp Require Import base list gmap sorting.
From Stdlib Require Import ZArith Lia.

Section Grow.
Context {K V : Type} (comparator : K -> K -> Z) `{TO : !KeyOrder comparator}.

Abbreviation node := (@node K V).
Abbreviation tree := (@tree K V).
Abbreviation bptree := (@bptree K V).
Abbreviation key_lt := (key_lt comparator).
Abbreviation key_le := (key_le comparator).
Abbreviation ordered := (ordered comparator).
Abbreviation above := (above comparator).
Abbreviation below := (below comparator).
Abbreviation strictly := (strictly comparator).
Abbreviation ins := (ins comparator).
Abbreviation grown := (grown comparator).
Abbreviation separated := (separated comparator).
Abbreviation absorbed := (absorbed comparator).
Abbreviation splits := (splits comparator).

(** The subtree [t] is in [T], and all its nodes are allocated. *)
Record lives {d} (T : bptree) (par nxt : option nat) (lo hi : option K) (t : tree d) : Prop := {
  lv_repr : repr (heap T) par nxt t;
  lv_ordered : ordered lo hi t;
  lv_bounded : bounded t;
  lv_nodup : NoDup (ids t);
  lv_fresh : Forall (fun p => (p < fresh_ T)%nat) (ids t) }.

Lemma first_ids d : forall lo hi (t : tree d), ordered lo hi t -> first t ∈ ids t.
Proof.
  induction d as [|d IH]; intros lo hi t H; cbn [first ids]; [left|]. right. destruct t as [[p ks] ts]. cbn [BTreeShape.ordered fst snd] in *.
  destruct ts as [|c ts]; [destruct ks; destruct H|]. cbn [flat_map]. apply elem_of_app. left.
  destruct ks; [destruct ts; [|destruct H]|destruct H as [H _]]; eapply IH; exact H.
Qed.

Lemma repr_alive d : forall h par nxt (t : tree d) p, repr h par nxt t -> p ∈ ids t -> is_Some (h !! p).
Proof.
  induction d as [|d IH]; intros h par nxt t p H Hp; cbn [ids] in Hp.
  - apply list_elem_of_singleton in Hp as ->. destruct H as [pv H]. eauto.
  - destruct H as [[pv H] Hl]. apply elem_of_cons in Hp as [->|Hp]; [eauto|]. revert Hl Hp. generalize t.2. intros ts.
    induction ts as [|c ts IHts]; cbn [linked flat_map]; [intros _ Hp; inversion Hp|]. intros [Hc Hl] Hp.
    apply elem_of_app in Hp as [Hp|Hp]; [exact (IH _ _ _ _ _ Hc Hp)|exact (IHts Hl Hp)].
Qed.

(** ** Replacing a child *)

Lemma nodup_replace (p n : nat) (L C C' R : list nat) : NoDup (p :: L ++ C ++ R) -> Forall (fun x => (x < n)%nat) (p :: L ++ C ++ R) ->
  NoDup C' -> (forall x, x ∈ C' -> x ∈ C \/ (n <= x)%nat) -> NoDup (p :: L ++ C' ++ R).
Proof.
  intros Hnd Hlt HC Hsub. rewrite Forall_forall in Hlt.
  assert (Hout : forall x, x ∈ C' -> x ∈ p :: L ++ R -> False).
  { intros x Hx Hin. destruct (Hsub x Hx) as [Hc|Hge].
    - apply NoDup_cons in Hnd as [Hp Hnd]. rewrite !elem_of_app in Hp. apply NoDup_app in Hnd as (_ & H1 & Hnd). apply NoDup_app in Hnd as (_ & H2 & _).
      rewrite elem_of_cons, elem_of_app in Hin. destruct Hin as [->|[Hin|Hin]]; [tauto|apply (H1 x Hin), elem_of_app; tauto|exact (H2 x Hc Hin)].
    - assert (x < n)%nat; [|lia]. apply Hlt. rewrite elem_of_cons, !elem_of_app. rewrite elem_of_cons, elem_of_app in Hin. tauto. }
  apply NoDup_cons in Hnd as [Hp Hnd]. rewrite !elem_of_app in Hp. apply NoDup_app in Hnd as (HL & H1 & Hnd). apply NoDup_app in Hnd as (_ & H2 & HR).
  apply NoDup_cons. split.
  - rewrite !elem_of_app. intros [H|[H|H]]; [tauto| |tauto]. apply (Hout p H). left.
  - apply NoDup_app. split; [exact HL|]. split.
    + intros x Hx. rewrite elem_of_app. intros [H|H]; [apply (Hout x H); right; apply elem_of_app; tauto|]. apply (H1 x Hx), elem_of_app. tauto.
    + apply NoDup_app. split; [exact HC|]. split; [|exact HR]. intros x Hx H. apply (Hout x Hx). right. apply elem_of_app. tauto.
Qed.

Lemma ins_middle key v (L C R : list (K * V)) : Forall (fun x => key_lt x.1 key) L -> Forall (fun x => key_lt key x.1) R ->
  ins key v (L ++ C ++ R) = L ++ ins key v C ++ R.
Proof. intros HL HR. rewrite ins_before by assumption. rewrite ins_after by assumption. reflexivity. Qed.

(** The entries of the other children are on the right side of the key. *)
Lemma siblings_side d lo hi ksl ksr tsl (c : tree d) tsr key : separated ordered lo hi (ksl ++ ksr) (tsl ++ c :: tsr) -> length ksl = length tsl ->
  above (last_or lo ksl) key -> below (head_or hi ksr) key ->
  Forall (fun x => key_lt x.1 key) (flat_map flat tsl) /\ Forall (fun x => key_lt key x.1) (flat_map flat tsr).
Proof.
  intros Hsep Hlen Hlo Hhi. destruct (sep_siblings comparator ordered flat (ordered_bounds comparator d) ksl lo hi ksr tsl c tsr Hlen Hsep) as [Hl Hr]. split.
  - eapply Forall_impl; [exact Hl|]. intros x Hx. unfold last_or in Hlo. destruct (last ksl) as [k|]; [|destruct Hx]. exact (lt_le_trans comparator _ _ _ Hx Hlo).
  - eapply Forall_impl; [exact Hr|]. intros x Hx. destruct ksr as [|k ksr]; [destruct Hx|]. exact (lt_le_trans comparator _ _ _ Hhi Hx).
Qed.

(** The child [c] of a node became [cs]. *)
Lemma graft d T T' p ks ks' tsl (c : tree d) tsr cs key v : grown T T' c cs key v -> NoDup (p :: flat_map ids (tsl ++ c :: tsr)) ->
  Forall (fun x => (x < fresh_ T)%nat) (p :: flat_map ids (tsl ++ c :: tsr)) ->
  Forall (fun x => key_lt x.1 key) (flat_map flat tsl) -> Forall (fun x => key_lt key x.1) (flat_map flat tsr) ->
  BTreeInsert.grown comparator (d := S d) T T' (p, ks, tsl ++ c :: tsr) [(p, ks', tsl ++ cs ++ tsr)] key v.
Proof.
  intros G Hnd Hlt Hl Hr.
  assert (Ei : forall x, flat_map (ids (d := S d)) [(p, x, tsl ++ cs ++ tsr)] = p :: flat_map ids tsl ++ flat_map ids cs ++ flat_map ids tsr).
  { intros x. cbn [flat_map ids fst snd]. rewrite app_nil_r, !flat_map_app. reflexivity. }
  assert (Et : p :: flat_map ids (tsl ++ c :: tsr) = p :: flat_map ids tsl ++ ids c ++ flat_map ids tsr) by (rewrite flat_map_app; reflexivity).
  assert (Ef : flat (d := S d) (p, ks, tsl ++ c :: tsr) = flat_map flat tsl ++ flat c ++ flat_map flat tsr) by (cbn [flat snd]; rewrite flat_map_app; reflexivity).
  assert (Hins : ins key v (flat (d := S d) (p, ks, tsl ++ c :: tsr)) = flat_map flat tsl ++ ins key v (flat c) ++ flat_map flat tsr) by (rewrite Ef; apply ins_middle; assumption).
  split; rewrite ?Ei; cbn [ids fst snd].
  - rewrite Et in Hnd, Hlt. exact (nodup_replace _ _ _ _ _ _ Hnd Hlt (gr_nodup _ _ _ _ _ _ _ G) (gr_ids _ _ _ _ _ _ _ G)).
  - rewrite Et in Hlt. pose proof (gr_mono _ _ _ _ _ _ _ G). apply Forall_cons in Hlt as [H1 Hlt]. rewrite !Forall_app in Hlt. destruct Hlt as (H2 & _ & H3).
    constructor; [lia|]. rewrite !Forall_app. split; [eapply Forall_impl; [exact H2|]; cbn; lia|]. split; [exact (gr_fresh _ _ _ _ _ _ _ G)|eapply Forall_impl; [exact H3|]; cbn; lia].
  - exact (gr_mono _ _ _ _ _ _ _ G).
  - intros x. rewrite Et. rewrite !elem_of_cons, !elem_of_app. intros [H|[H|[H|H]]]; try tauto. destruct (gr_ids _ _ _ _ _ _ _ G x H); tauto.
  - intros x Hx Hlx. apply (gr_frame _ _ _ _ _ _ _ G); [|exact Hlx]. intros Hc. apply Hx. rewrite Et, elem_of_cons, !elem_of_app. tauto.
  - rewrite Hins. cbn [flat_map flat snd]. rewrite app_nil_r, !flat_map_app, (gr_flat _ _ _ _ _ _ _ G). reflexivity.
  - exact (gr_root _ _ _ _ _ _ _ G).
  - rewrite Hins, Ef, !length_app. pose proof (gr_size _ _ _ _ _ _ _ G). lia.
Qed.

(** More changes within the same nodes and new ones. *)
Lemma grown_after d T T1 T2 (t : tree d) ts ts' key v : grown T T1 t ts key v -> (fresh_ T1 <= fresh_ T2)%nat -> flat_map flat ts' = flat_map flat ts ->
  NoDup (flat_map ids ts') -> (forall x, x ∈ flat_map ids ts' -> x ∈ flat_map ids ts \/ (fresh_ T1 <= x < fresh_ T2)%nat) ->
  (forall x, x ∉ flat_map ids ts -> (x < fresh_ T1)%nat -> same_at (heap T1) (heap T2) x) -> root_ T2 = root_ T1 -> size_ T2 = size_ T1 ->
  grown T T2 t ts' key v.
Proof.
  intros G Hf Hfl Hnd Hids Hfr Hr Hs. pose proof (gr_mono _ _ _ _ _ _ _ G). split; auto.
  - apply Forall_forall. intros x Hx. destruct (Hids x Hx) as [Hx'|]; [|lia]. pose proof (gr_fresh _ _ _ _ _ _ _ G) as G'. rewrite Forall_forall in G'. specialize (G' x Hx'). lia.
  - lia.
  - intros x Hx. destruct (Hids x Hx) as [Hx'|]; [exact (gr_ids _ _ _ _ _ _ _ G x Hx')|right; lia].
  - intros x Hx Hlx. eapply same_at_trans; [exact (gr_frame _ _ _ _ _ _ _ G x Hx Hlx)|]. apply Hfr; [|lia]. intros Hin. destruct (gr_ids _ _ _ _ _ _ _ G x Hin); [contradiction|lia].
  - rewrite Hfl. exact (gr_flat _ _ _ _ _ _ _ G).
  - rewrite Hr. exact (gr_root _ _ _ _ _ _ _ G).
  - rewrite Hs. exact (gr_size _ _ _ _ _ _ _ G).
Qed.

(** ** One level up *)

Definition after {d} (nxt : option nat) (ts : list (tree d)) : option nat := match ts with t :: _ => Some (first t) | [] => nxt end.

Section Level.
Context {d : nat} (T : bptree) (par nxt : option nat) (lo hi : option K) (p : nat) (ksl ksr : list K) (tsl : list (tree d)) (c : tree d) (tsr : list (tree d))
  (key : K) (v : V).
Let t : tree (S d) := (p, ksl ++ ksr, tsl ++ c :: tsr).
Context (L : lives T par nxt lo hi t) (Hlen : length ksl = length tsl) (Hlo : above (last_or lo ksl) key) (Hhi : below (head_or hi ksr) key).

Lemma level_nodup : NoDup (p :: flat_map ids tsl ++ ids c ++ flat_map ids tsr).
Proof. pose proof (lv_nodup _ _ _ _ _ _ L) as H. unfold t in H. cbn [ids fst snd] in H. rewrite flat_map_app in H. exact H. Qed.

Lemma level_fresh : Forall (fun x => (x < fresh_ T)%nat) (p :: flat_map ids tsl ++ ids c ++ flat_map ids tsr).
Proof. pose proof (lv_fresh _ _ _ _ _ _ L) as H. unfold t in H. cbn [ids fst snd] in H. rewrite flat_map_app in H. exact H. Qed.

Lemma level_out x : x = p \/ x ∈ flat_map ids tsl \/ x ∈ flat_map ids tsr -> (x ∉ ids c) /\ (x < fresh_ T)%nat.
Proof.
  intros Hx. split.
  - intros Hc. pose proof level_nodup as Hnd. apply NoDup_cons in Hnd as [Hp Hnd]. rewrite !elem_of_app in Hp. apply NoDup_app in Hnd as (_ & H1 & Hnd).
    apply NoDup_app in Hnd as (_ & H2 & _). destruct Hx as [->|[Hx|Hx]]; [tauto|apply (H1 x Hx), elem_of_app; tauto|exact (H2 x Hc Hx)].
  - pose proof level_fresh as Hf. rewrite Forall_forall in Hf. apply Hf. rewrite elem_of_cons, !elem_of_app. tauto.
Qed.

Lemma level_child : lives T (Some p) (after nxt tsr) (last_or lo ksl) (head_or hi ksr) c.
Proof.
  destruct L as [[_ Hl] Ho [_ Hb] _ _]. unfold t in *. cbn [fst snd BTreeShape.ordered bounded] in *. apply linked_app in Hl as [_ Hl]. cbn [linked] in Hl. split.
  - exact (proj1 Hl).
  - apply (sep_child comparator ordered ksl lo hi ksr tsl c tsr Hlen Ho).
  - apply Forall_app in Hb as [_ Hb]. apply Forall_cons in Hb as [Hb _]. exact Hb.
  - pose proof level_nodup as H. apply NoDup_cons in H as [_ H]. apply NoDup_app in H as (_ & _ & H). apply NoDup_app in H as (H & _ & _). exact H.
  - pose proof level_fresh as H. apply Forall_cons in H as [_ H]. rewrite !Forall_app in H. apply H.
Qed.

(** The heap after a change below [c]. *)
Lemma level_frame T' cs : grown T T' c cs key v ->
  (exists pv, heap T' !! p = Some (mkNode false (ksl ++ ksr) [] (map ptr (tsl ++ c :: tsr)) par None pv)) /\
  linked (repr (heap T') (Some p)) first (Some (first c)) tsl /\ linked (repr (heap T') (Some p)) first nxt tsr.
Proof.
  intros G. destruct L as [[[pv Hp] Hl] _ _ _ _]. unfold t in *. cbn [fst snd] in *. apply linked_app in Hl as [Hl1 [_ Hl2]].
  assert (Hs : forall x, x = p \/ x ∈ flat_map ids tsl \/ x ∈ flat_map ids tsr -> same_at (heap T) (heap T') x).
  { intros x Hx. destruct (level_out x Hx). apply (gr_frame _ _ _ _ _ _ _ G); assumption. }
  split; [exact (same_at_some _ _ _ _ _ _ _ _ _ _ (Hs p ltac:(tauto)) Hp)|]. split; (eapply linked_frame; [|eassumption]); intros x Hx; apply Hs; tauto.
Qed.

Lemma level_grown T' cs ks' : grown T T' c cs key v -> grown T T' t [((p, ks', tsl ++ cs ++ tsr) : tree (S d))] key v.
Proof.
  intros G. destruct (siblings_side d lo hi ksl ksr tsl c tsr key (lv_ordered _ _ _ _ _ _ L) Hlen Hlo Hhi) as [Hl Hr].
  apply graft; [exact G|exact (lv_nodup _ _ _ _ _ _ L)|exact (lv_fresh _ _ _ _ _ _ L)|exact Hl|exact Hr].
Qed.

Lemma level_bounded cs : Forall bounded cs -> Forall bounded (tsl ++ cs ++ tsr).
Proof.
  intros Hc. destruct (lv_bounded _ _ _ _ _ _ L) as [_ Hb]. unfold t in Hb. cbn [fst snd] in Hb. rewrite Forall_app in Hb. destruct Hb as [H1 [_ H2]%Forall_cons].
  rewrite !Forall_app. auto.
Qed.

Lemma level_absorbed r : absorbed T (Some p) (after nxt tsr) (last_or lo ksl) (head_or hi ksr) c key v r -> absorbed T par nxt lo hi t key v r.
Proof.
  intros (T' & c' & Er & G & Ep & Ef & Hr & Ho & Hb). destruct (level_frame T' _ G) as ([pv Hp] & Hl1 & Hl2).
  exists T', ((p, ksl ++ ksr, tsl ++ [c'] ++ tsr) : tree (S d)). split; [exact Er|]. split; [exact (level_grown T' [c'] _ G)|]. split; [reflexivity|].
  split; [unfold t; cbn [first snd]; destruct tsl; [exact Ef|reflexivity]|]. split; [split; [exists pv|]|split].
  - cbn [fst snd]. rewrite Hp, !map_app. cbn [map app]. rewrite Ep. reflexivity.
  - cbn [fst snd]. apply linked_app. cbn [app linked]. rewrite Ef. auto.
  - apply (sep_child comparator ordered ksl lo hi ksr tsl c tsr Hlen (lv_ordered _ _ _ _ _ _ L)). exact Ho.
  - split; [apply (lv_bounded _ _ _ _ _ _ L)|]. apply level_bounded. auto.
Qed.

(** The node with both halves of the split child, before it takes the second one. *)
Lemma level_taken T1 cl cr k : grown T T1 c [cl; cr] key v -> ptr cl = ptr c -> first cl = first c ->
  repr (heap T1) (Some p) (Some (first cr)) cl -> repr (heap T1) None (after nxt tsr) cr ->
  exists h pv, set_parent (heap T1) (ptr cr) p = Some h /\ linked (repr h (Some p)) first nxt (tsl ++ cl :: cr :: tsr) /\
    h !! p = Some (mkNode false (ksl ++ ksr) [] (map ptr (tsl ++ cl :: tsr)) par None pv) /\
    grown T (set_heap T1 h) t [((p, ksl ++ k :: ksr, tsl ++ [cl; cr] ++ tsr) : tree (S d))] key v.
Proof.
  intros G Ep Ef Hcl Hcr. pose proof (level_grown T1 [cl; cr] (ksl ++ k :: ksr) G) as G1. destruct (level_frame T1 _ G) as ([pv Hp] & Hl1 & Hl2).
  pose proof (gr_nodup _ _ _ _ _ _ _ G1) as Hnd. cbn [flat_map ids fst snd app] in Hnd. rewrite app_nil_r, flat_map_app in Hnd. cbn [flat_map] in Hnd.
  apply NoDup_cons in Hnd as [Hpn Hnd]. rewrite !elem_of_app in Hpn. apply NoDup_app in Hnd as (_ & D1 & Hnd). apply NoDup_app in Hnd as (_ & D2 & Hnd).
  apply NoDup_app in Hnd as (Hndr & D3 & _). destruct (set_parent_spec d (heap T1) None p _ cr Hcr Hndr) as (h & Eh & Hcr' & Hoth). exists h, pv.
  assert (Hs : forall x, x ∉ ids cr -> h !! x = heap T1 !! x) by (intros x Hx; apply Hoth; intros ->; apply Hx, ptr_ids).
  split; [exact Eh|]. split; [|split].
  - apply linked_app. cbn [linked]. split; [|split; [|split; [exact Hcr'|]]].
    + rewrite Ef. eapply linked_frame; [|exact Hl1]. intros x Hx. apply same_at_eq, Hs. intros Hx'. apply (D1 x Hx). rewrite !elem_of_app. tauto.
    + eapply repr_frame; [|exact Hcl]. intros x Hx. apply same_at_eq, Hs. intros Hx'. apply (D2 x Hx). rewrite elem_of_app. tauto.
    + eapply linked_frame; [|exact Hl2]. intros x Hx. apply same_at_eq, Hs. intros Hx'. exact (D3 x Hx' Hx).
  - rewrite Hs by tauto. rewrite Hp, !map_app. cbn [map]. rewrite Ep. reflexivity.
  - apply (grown_after (S d) T T1 _ _ _ _ _ _ G1); cbn [set_heap fresh_ root_ size_ heap]; auto; [exact (gr_nodup _ _ _ _ _ _ _ G1)|].
    intros x Hx _. apply same_at_eq, Hs. intros Hx'. apply Hx. cbn [flat_map ids fst snd app]. rewrite app_nil_r, flat_map_app. cbn [flat_map].
    rewrite elem_of_cons, !elem_of_app. tauto.
Qed.

Lemma level_fits T2 cl cr k fuel : grown T T2 t [((p, ksl ++ k :: ksr, tsl ++ [cl; cr] ++ tsr) : tree (S d))] key v -> first cl = first c ->
  separated ordered lo hi (ksl ++ k :: ksr) (tsl ++ cl :: cr :: tsr) -> bounded cl -> bounded cr ->
  fits comparator fuel T2 p k cr par nxt (ksl ++ k :: ksr) (tsl ++ cl :: cr :: tsr) ->
  absorbed T par nxt lo hi t key v (T'' ← insertInternal comparator fuel T2 p k (ptr cr); Some (true, T'')).
Proof.
  intros G Ef Hsep Hbl Hbr (T3 & E & F1 & F2 & F3 & Hr & Hoth & Hb). exists T3, ((p, ksl ++ k :: ksr, tsl ++ [cl; cr] ++ tsr) : tree (S d)). rewrite E.
  split; [reflexivity|]. split; [|split; [reflexivity|split; [|split; [exact Hr|split; [exact Hsep|split; [exact Hb|]]]]]].
  - apply (grown_after (S d) T T2 _ _ _ _ _ _ G); [lia|reflexivity|exact (gr_nodup _ _ _ _ _ _ _ G)|tauto| |exact F2|exact F3].
    intros x Hx _. apply same_at_eq, Hoth. intros ->. apply Hx. cbn. left.
  - unfold t. cbn [first snd]. destruct tsl; [exact Ef|reflexivity].
  - cbn [snd]. apply level_bounded. auto.
Qed.

Lemma level_overflows T2 cl cr k f : grown T T2 t [((p, ksl ++ k :: ksr, tsl ++ [cl; cr] ++ tsr) : tree (S d))] key v -> first cl = first c ->
  separated ordered lo hi (ksl ++ k :: ksr) (tsl ++ cl :: cr :: tsr) -> bounded cl -> bounded cr -> (fresh_ T < S f + d)%nat ->
  overflows comparator f T2 p k cr par nxt (ksl ++ k :: ksr) (tsl ++ cl :: cr :: tsr) ->
  splits T par nxt lo hi t key v (T'' ← insertInternal comparator (S f) T2 p k (ptr cr); Some (true, T'')).
Proof.
  intros G Ef Hsep Hbl Hbr Hfuel (T3 & ksa & km & ksb & tsa & c0 & tsb & E1 & E2 & E3 & E & F1 & F2 & F3 & R1 & R2 & Hoth & B1 & B2).
  pose proof (level_bounded [cl; cr] ltac:(auto)) as Hbd. cbn [app] in Hbd, G.
  exists T3, ((p, ksa, tsa) : tree (S d)), km, ((fresh_ T2, ksb, c0 :: tsb) : tree (S d)), f. rewrite E. rewrite E2 in Hbd. apply Forall_app in Hbd as [Hba Hbb].
  pose proof (gr_nodup _ _ _ _ _ _ _ G) as Hnd. pose proof (gr_fresh _ _ _ _ _ _ _ G) as Hfr. cbn [flat_map ids fst snd] in Hnd, Hfr. rewrite app_nil_r in Hnd, Hfr.
  assert (Hq : fresh_ T2 ∉ p :: flat_map ids (tsa ++ c0 :: tsb)) by (rewrite <- E2; intros Hin; rewrite Forall_forall in Hfr; specialize (Hfr _ Hin); lia).
  assert (Ei : flat_map ids [((p, ksa, tsa) : tree (S d)); ((fresh_ T2, ksb, c0 :: tsb) : tree (S d))] ≡ₚ fresh_ T2 :: p :: flat_map ids (tsl ++ cl :: cr :: tsr)).
  { rewrite E2. cbn [flat_map ids fst snd]. rewrite app_nil_r, flat_map_app, <- app_comm_cons, <- Permutation_middle. apply perm_swap. }
  rewrite E1, E2 in Hsep. apply sep_split in Hsep as (Hst & Hsa & Hsb); [|exact TO|exact E3].
  split; [reflexivity|]. split; [|split; [reflexivity|split; [|do 4 (split; [assumption|])]]].
  - apply (grown_after (S d) T T2 _ _ _ _ _ _ G); [lia| | | | |exact F2|exact F3].
    + cbn [flat_map flat snd]. rewrite !app_nil_r, E2, flat_map_app. reflexivity.
    + rewrite Ei. apply NoDup_cons. split; [rewrite E2; exact Hq|exact Hnd].
    + intros x Hx. rewrite Ei in Hx. cbn [flat_map ids fst snd]. rewrite app_nil_r. apply elem_of_cons in Hx as [->|Hx]; [right; lia|left; exact Hx].
    + intros x Hx Hlx. apply same_at_eq, Hoth; [|lia]. cbn [flat_map ids fst snd] in Hx. rewrite app_nil_r in Hx. exact Hx.
  - unfold t. cbn [first snd]. destruct tsa as [|x tsa]; [discriminate|]. destruct tsl as [|y tsl']; injection E2 as <- _; [exact Ef|reflexivity].
  - split; [split; [exact B1|exact Hba]|]. split; [split; [exact B2|exact Hbb]|]. split; [exact Hst|lia].
Qed.

Lemma level_splits r : splits T (Some p) (after nxt tsr) (last_or lo ksl) (head_or hi ksr) c key v r ->
  absorbed T par nxt lo hi t key v r \/ splits T par nxt lo hi t key v r.
Proof.
  intros (T1 & cl & k & cr & fuel & Er & G & Ep & Ef & Hcl & Hcr & Ocl & Ocr & Bl & Br & Hk & Hfuel).
  destruct (level_taken T1 cl cr k G Ep Ef Hcl Hcr) as (h & pv & Eh & Hl & Hp & G2).
  assert (Hsep : separated ordered lo hi (ksl ++ k :: ksr) (tsl ++ cl :: cr :: tsr)).
  { apply (sep_child comparator ordered ksl lo hi ksr tsl c tsr Hlen (lv_ordered _ _ _ _ _ _ L)); assumption. }
  assert (Hd : (d < fresh_ T)%nat).
  { pose proof (depth_ids comparator d _ _ c (lv_ordered _ _ _ _ _ _ level_child)). pose proof (nodup_bound _ _ (lv_nodup _ _ _ _ _ _ level_child) (lv_fresh _ _ _ _ _ _ level_child)). lia. }
  destruct fuel as [|f]; [lia|]. cbn [bubble] in Er. rewrite Eh in Er. cbn [mbind option_bind] in Er. subst r.
  pose proof (gr_nodup _ _ _ _ _ _ _ G2) as Hnd. pose proof (gr_fresh _ _ _ _ _ _ _ G2) as Hfr. cbn [flat_map ids fst snd] in Hnd, Hfr. rewrite app_nil_r in Hnd, Hfr.
  destruct (node_insert comparator d f (set_heap T1 h) p par pv nxt lo hi ksl k ksr tsl cl cr tsr Hp (proj1 (lv_bounded _ _ _ _ _ _ L)) Hlen Hl Hsep Hnd Hfr) as [F|F].
  - left. exact (level_fits _ cl cr k (S f) G2 Ef Hsep Bl Br F).
  - right. exact (level_overflows _ cl cr k f G2 Ef Hsep Bl Br Hfuel F).
Qed.
End Level.

(** ** Any depth *)

Lemma lives_live d T par nxt lo hi (t : tree d) : lives T par nxt lo hi t -> live T (Some (first t)).
Proof.
  intros L. pose proof (first_ids d _ _ t (lv_ordered _ _ _ _ _ _ L)) as Hin. split; [exact (repr_alive d _ _ _ _ _ (lv_repr _ _ _ _ _ _ L) Hin)|].
  pose proof (lv_fresh _ _ _ _ _ _ L) as Hf. rewrite Forall_forall in Hf. exact (Hf _ Hin).
Qed.

Lemma level_live d T par nxt lo hi p ksl ksr tsl (c : tree d) tsr : lives (d := S d) T par nxt lo hi (p, ksl ++ ksr, tsl ++ c :: tsr) -> length ksl = length tsl ->
  live T nxt -> live T (after nxt tsr).
Proof.
  intros L Hlen Hn. destruct tsr as [|c' tsr]; [exact Hn|]. destruct ksr as [|k ksr].
  { pose proof (separated_length _ _ _ _ _ _ (lv_ordered _ _ _ _ _ _ L)) as H. cbn [fst snd] in H. rewrite !length_app in H. cbn in H. lia. }
  assert (L' : lives (d := S d) T par nxt lo hi (p, (ksl ++ [k]) ++ ksr, (tsl ++ [c]) ++ c' :: tsr)) by (rewrite <- !app_assoc; exact L).
  eapply lives_live. eapply (level_child T par nxt lo hi p (ksl ++ [k]) ksr (tsl ++ [c]) c' tsr L'). rewrite !length_app. cbn. lia.
Qed.

Lemma sub_insert d : forall T par nxt lo hi (t : tree d) key v f, lives T par nxt lo hi t -> live T nxt -> above lo key -> below hi key -> (d < f)%nat ->
  exists l, find_leaf comparator f (heap T) (ptr t) key = Some l /\
    (absorbed T par nxt lo hi t key v (leaf_insert comparator T l key v) \/ splits T par nxt lo hi t key v (leaf_insert comparator T l key v)).
Proof.
  induction d as [|d IH]; intros T par nxt lo hi t key v f L Hn Hlo Hhi Hf; (destruct f as [|f]; [lia|]); cbn [find_leaf].
  - destruct (lv_repr _ _ _ _ _ _ L) as [pv Hp]. exists (ptr t). cbn [ptr]. rewrite Hp. cbn [mbind option_bind isLeaf]. split; [reflexivity|].
    apply insert_case; [exact TO|exact (lv_repr _ _ _ _ _ _ L)|exact (lv_ordered _ _ _ _ _ _ L)|exact (lv_bounded _ _ _ _ _ _ L)| |exact Hn|exact Hlo|exact Hhi].
    pose proof (lv_fresh _ _ _ _ _ _ L) as Hfr. apply Forall_cons in Hfr as [Hfr _]. exact Hfr.
  - destruct t as [[p ks] ts]. destruct (child_split comparator key ks ordered lo hi ts (lv_ordered _ _ _ _ _ _ L) Hlo Hhi) as (ksl & ksr & tsl & c & tsr & -> & -> & Hlen & Hpos & Hlo' & Hhi').
    destruct (lv_repr _ _ _ _ _ _ L) as [[pv Hp] _]. cbn [ptr fst snd] in *. rewrite Hp. cbn [mbind option_bind isLeaf keys children]. rewrite Hpos, map_app, Hlen. cbn [map].
    rewrite list_lookup_middle by (rewrite length_map; reflexivity). cbn [mbind option_bind].
    destruct (IH T (Some p) (after nxt tsr) _ _ c key v f (level_child _ _ _ _ _ _ _ _ _ _ _ L Hlen) (level_live _ _ _ _ _ _ _ _ _ _ _ _ L Hlen Hn) Hlo' Hhi' ltac:(lia)) as (l & El & H).
    exists l. split; [exact El|]. destruct H as [H|H]; [left; exact (level_absorbed _ _ _ _ _ _ _ _ _ _ _ _ _ L Hlen Hlo' Hhi' _ H)|].
    exact (level_splits _ _ _ _ _ _ _ _ _ _ _ _ _ L Hlen Hlo' Hhi' _ H).
Qed.
End Grow.
