(* ===== verification/BTreeOps.v ===== *)
(** * The B+ tree holds a sorted map (btree_index.hpp)

    The entries of the tree as a sorted list, and what [insert], [remove] and
    [clear] do to them. *)

From stdpp Require Import base list gmap sorting.
From Stdlib Require Import ZArith Lia.
From S2P Require Import Prelude BTree BTreeShape BTreeHeap BTreeInsert BTreeInner BTreeGrow.

Section Ops.
Context {K V : Type} (comparator : K -> K -> Z) `{TO : !KeyOrder comparator}.

Abbreviation tree := (@tree K V).
Abbreviation bptree := (@bptree K V).
Abbreviation key_lt := (key_lt comparator).
Abbreviation ordered := (ordered comparator).
Abbreviation above := (above comparator).
Abbreviation below := (below comparator).
Abbreviation ins := (ins comparator).
Abbreviation lives := (lives comparator).

(** The tree is well formed and its entries are [l]. *)
Definition btree_rep (T : bptree) (l : list (K * V)) : Prop :=
  exists d (t : tree d), lives T None None None None t /\ ptr t = root_ T /\ flat t = l /\ size_ T = length l.

Lemma rep_sorted T l : btree_rep T l -> sorted comparator l.
Proof. intros (d & t & L & _ & <- & _). exact (ordered_sorted comparator d _ _ t (lv_ordered _ _ _ _ _ _ _ L)). Qed.

Lemma lives_depth d T par nxt lo hi (t : tree d) : lives T par nxt lo hi t -> (d < length (ids t) /\ length (ids t) <= fresh_ T)%nat.
Proof.
  intros L. split; [exact (depth_ids comparator d _ _ t (lv_ordered _ _ _ _ _ _ _ L))|].
  exact (nodup_bound _ _ (lv_nodup _ _ _ _ _ _ _ L) (lv_fresh _ _ _ _ _ _ _ L)).
Qed.

Lemma new_rep : btree_rep bptree_new [].
Proof.
  exists O, ((0%nat, []) : tree O). split; [|auto]. split; cbn [ids fst snd fresh_ bptree_new].
  - exists None. apply lookup_singleton_eq.
  - split; constructor.
  - cbn. unfold BTREE_ORDER. lia.
  - apply NoDup_singleton.
  - repeat constructor.
Qed.

(** [clear] forgets every node. *)
Lemma clear_rep T : btree_rep (clear T) [].
Proof.
  exists O, ((fresh_ T, []) : tree O). split; [|auto]. split; cbn [ids fst snd fresh_ clear].
  - exists None. apply lookup_singleton_eq.
  - split; constructor.
  - cbn. unfold BTREE_ORDER. lia.
  - apply NoDup_singleton.
  - repeat constructor.
Qed.

(** ** Insertion *)

(** A root split makes a new root over both halves. *)
Lemma grow_root_lives d T k (tl tr : tree d) : repr (heap T) None (Some (first tr)) tl -> repr (heap T) None None tr -> ordered None (Some k) tl ->
  ordered (Some k) None tr -> bounded tl -> bounded tr -> NoDup (ids tl ++ ids tr) -> Forall (fun p => (p < fresh_ T)%nat) (ids tl ++ ids tr) ->
  exists T', grow_root T k (ptr tl) (ptr tr) = Some T' /\ root_ T' = fresh_ T /\ size_ T' = size_ T /\
    lives T' None None None None ((fresh_ T, [k], [tl; tr]) : tree (S d)).
Proof.
  intros Rl Rr Ol Or Bl Br Hnd Hfr. set (r := fresh_ T) in *. pose proof Hfr as Hfr'. rewrite Forall_forall in Hfr'. apply NoDup_app in Hnd as (Hl & Hd & Hr).
  set (n := (mkNode false [k] [] [ptr tl; ptr tr] None None None : @node K V)). set (h0 := <[r := n]> (heap T)).
  assert (H0 : forall p, p ∈ ids tl \/ p ∈ ids tr -> p <> r /\ same_at (heap T) h0 p).
  { intros p Hp. specialize (Hfr' p ltac:(apply elem_of_app; exact Hp)). split; [lia|]. apply same_at_eq, lookup_insert_ne. lia. }
  destruct (set_parent_spec d h0 None r (Some (first tr)) tl) as (h1 & E1 & Rl1 & O1); [eapply repr_frame; [|exact Rl]; intros p Hp; apply H0; tauto|exact Hl|].
  destruct (set_parent_spec d h1 None r None tr) as (h2 & E2 & Rr2 & O2); [|exact Hr|].
  { eapply repr_frame; [|exact Rr]. intros p Hp. eapply same_at_trans; [apply H0; tauto|]. apply same_at_eq, O1. intros ->. exact (Hd _ (ptr_ids d tl) Hp). }
  exists (mkTree h2 r (size_ T) (S r)). unfold grow_root. fold r. fold n. fold h0. rewrite E1. cbn [mbind option_bind]. rewrite E2. cbn [mbind option_bind].
  do 3 (split; [reflexivity|]).
  assert (Hids : ids ((r, [k], [tl; tr]) : tree (S d)) = r :: ids tl ++ ids tr) by (cbn [ids fst snd flat_map]; rewrite app_nil_r; reflexivity).
  split; rewrite ?Hids; cbn [fresh_ heap].
  - split; [exists None|].
    + cbn [fst snd]. rewrite O2, O1 by (intros Heq; destruct (H0 r) as [Hne _]; [rewrite Heq; (left; apply ptr_ids) || (right; apply ptr_ids)|exact (Hne eq_refl)]). apply lookup_insert_eq.
    + cbn [fst snd linked]. split; [|auto]. eapply repr_frame; [|exact Rl1]. intros p Hp. apply same_at_eq, O2. intros ->. exact (Hd _ Hp (ptr_ids d tr)).
  - cbn. auto.
  - cbn. unfold BTREE_ORDER. split; [lia|auto].
  - apply NoDup_cons. split; [|apply NoDup_app; auto]. intros Hin. specialize (Hfr' r Hin). lia.
  - constructor; [lia|]. eapply Forall_impl; [exact Hfr|]. cbn. lia.
Qed.

Lemma insert_rep T l k v : btree_rep T l -> exists T', insert comparator T k v = Some (true, T') /\ btree_rep T' (ins k v l).
Proof.
  intros (d & t & L & Hp & <- & Hs). unfold insert, findLeaf, fuel. rewrite <- Hp. pose proof (lives_depth d T _ _ _ _ t L) as Hd.
  destruct (sub_insert comparator d T None None None None t k v (S (fresh_ T)) L I I I ltac:(lia)) as (p & -> & H). cbn [mbind option_bind].
  destruct H as [(T' & t' & -> & G & E1 & _ & Hr & Ho & Hb)|(T' & tl & km & tr & f & -> & G & E1 & E2 & Rl & Rr & Ol & Or & Bl & Br & _ & _)].
  - exists T'. split; [reflexivity|]. destruct G as [G1 G2 _ _ _ G3 G4 G5]. cbn [flat_map] in *. rewrite app_nil_r in *.
    exists d, t'. split; [split; assumption|]. split; [congruence|]. split; [exact G3|lia].
  - destruct G as [G1 G2 _ _ _ G3 G4 G5]. cbn [flat_map] in *. rewrite app_nil_r in *.
    destruct (grow_root_lives d T' km tl tr Rl Rr Ol Or Bl Br G1 G2) as (T'' & E & E3 & E4 & L'). cbn [bubble]. rewrite <- E1, E. exists T''. split; [reflexivity|].
    exists (S d), ((fresh_ T', [km], [tl; tr]) : tree (S d)). split; [exact L'|]. split; [symmetry; exact E3|]. split; [cbn [flat flat_map snd]; rewrite app_nil_r; exact G3|lia].
Qed.

(** ** The leaf of a key *)

(** [l] is the leaf where [key] belongs: the entries before it are smaller, those after it larger. *)
Record leaf_at {d} (T : bptree) (t : tree d) (key : K) (l : nat) (es : list (K * V)) (L R : list (K * V)) (par nxt pv : option nat) : Prop := {
  la_node : heap T !! l = Some (mkNode true es.*1 es.*2 [] par nxt pv);
  la_flat : flat t = L ++ es ++ R;
  la_left : Forall (fun x => key_lt x.1 key) L;
  la_right : Forall (fun x => key_lt key x.1) R;
  la_in : l ∈ ids t }.

Definition set_leaf (T : bptree) (l : nat) (es : list (K * V)) (par nxt pv : option nat) : bptree :=
  set_heap T (<[l := mkNode true es.*1 es.*2 [] par nxt pv]> (heap T)).

(** Its entries may be replaced by fewer of them. *)
Definition shrinks {d} (T : bptree) (par nxt : option nat) (lo hi : option K) (t : tree d) (l : nat) (es L R : list (K * V)) (par' nxt' pv : option nat) : Prop :=
  forall es', sorted comparator es' -> (forall x, x ∈ es' -> x ∈ es) -> (length es' <= length es)%nat ->
    exists t' : tree d, lives (set_leaf T l es' par' nxt' pv) par nxt lo hi t' /\ ptr t' = ptr t /\ first t' = first t /\ ids t' = ids t /\ flat t' = L ++ es' ++ R.

Lemma shrinks_leaf T par nxt lo hi (t : tree 0) pv : lives T par nxt lo hi t -> heap T !! t.1 = Some (mkNode true t.2.*1 t.2.*2 [] par nxt pv) ->
  shrinks T par nxt lo hi t t.1 t.2 [] [] par nxt pv.
Proof.
  intros [_ [Ho1 Ho2] Hb Hnd Hf] Hp es' Hs Hin Hle. exists ((t.1, es') : tree 0). split; [|rewrite app_nil_r; auto]. split; auto.
  - exists pv. apply lookup_insert_eq.
  - split; [exact Hs|]. rewrite Forall_forall in Ho2. apply Forall_forall. intros x Hx. apply Ho2, Hin, Hx.
  - cbn [bounded snd] in *. lia.
Qed.

Lemma shrinks_level d T par nxt lo hi p ksl ksr tsl (c : tree d) tsr l es L R par' nxt' pv : lives T par nxt lo hi ((p, ksl ++ ksr, tsl ++ c :: tsr) : tree (S d)) ->
  length ksl = length tsl -> l ∈ ids c -> shrinks T (Some p) (after nxt tsr) (last_or lo ksl) (head_or hi ksr) c l es L R par' nxt' pv ->
  shrinks T par nxt lo hi ((p, ksl ++ ksr, tsl ++ c :: tsr) : tree (S d)) l es (flat_map flat tsl ++ L) (R ++ flat_map flat tsr) par' nxt' pv.
Proof.
  intros Hlv Hlen Hl H es' Hs Hin Hle. destruct (H es' Hs Hin Hle) as (c' & [C1 C2 C3 C4 C5] & Ep & Ef & Ei & Efl).
  set (T' := set_leaf T l es' par' nxt' pv) in *.
  assert (Hoth : forall x, x = p \/ x ∈ flat_map ids tsl \/ x ∈ flat_map ids tsr -> same_at (heap T) (heap T') x).
  { intros x Hx. destruct (level_out comparator T par nxt lo hi p ksl ksr tsl c tsr Hlv x Hx) as [Hc _]. apply same_at_eq, lookup_insert_ne. intros <-. exact (Hc Hl). }
  exists ((p, ksl ++ ksr, tsl ++ c' :: tsr) : tree (S d)). destruct Hlv as [[[pv0 Hp] Hlk] Ho [Hb1 Hb2] Hnd Hfr]. cbn [fst snd] in *. apply linked_app in Hlk as [Hlk1 [_ Hlk2]].
  assert (Eids : ids ((p, ksl ++ ksr, tsl ++ c' :: tsr) : tree (S d)) = ids ((p, ksl ++ ksr, tsl ++ c :: tsr) : tree (S d))).
  { cbn [ids fst snd]. rewrite !flat_map_app. cbn [flat_map]. rewrite Ei. reflexivity. }
  split; [|split; [reflexivity|split; [cbn [first snd]; destruct tsl; [exact Ef|reflexivity]|split; [exact Eids|]]]].
  - split; rewrite ?Eids; [| | |exact Hnd|exact Hfr].
    + split; cbn [fst snd].
      * destruct (same_at_some _ _ _ _ _ _ _ _ _ _ (Hoth p ltac:(tauto)) Hp) as [pv1 H1]. exists pv1. rewrite H1, !map_app. cbn [map]. rewrite Ep. reflexivity.
      * apply linked_app. cbn [linked]. rewrite Ef. split; [|split; [exact C1|]]; (eapply linked_frame; [|eassumption]); intros x Hx; apply Hoth; tauto.
    + apply (sep_child comparator ordered ksl lo hi ksr tsl c tsr Hlen Ho). exact C2.
    + split; [exact Hb1|]. cbn [snd]. rewrite Forall_app in *. destruct Hb2 as [B1 [_ B2]%Forall_cons]. auto.
  - cbn [flat snd]. rewrite flat_map_app. cbn [flat_map]. rewrite Efl, <- !app_assoc. reflexivity.
Qed.

Lemma find_leaf_at d : forall T par nxt lo hi (t : tree d) key f, lives T par nxt lo hi t -> above lo key -> below hi key -> (d < f)%nat ->
  exists l es L R par' nxt' pv, find_leaf comparator f (heap T) (ptr t) key = Some l /\ leaf_at T t key l es L R par' nxt' pv /\ shrinks T par nxt lo hi t l es L R par' nxt' pv.
Proof.
  induction d as [|d IH]; intros T par nxt lo hi t key f Hlv Hlo Hhi Hf; (destruct f as [|f]; [lia|]); cbn [find_leaf].
  - destruct (lv_repr _ _ _ _ _ _ _ Hlv) as [pv Hp]. exists t.1, t.2, [], [], par, nxt, pv. cbn [ptr]. rewrite Hp. cbn [mbind option_bind isLeaf]. split; [reflexivity|].
    split; [|exact (shrinks_leaf T par nxt lo hi t pv Hlv Hp)]. split; [exact Hp|cbn; rewrite app_nil_r; reflexivity|constructor|constructor|left].
  - destruct t as [[p ks] ts]. destruct (child_split comparator key ks ordered lo hi ts (lv_ordered _ _ _ _ _ _ _ Hlv) Hlo Hhi) as (ksl & ksr & tsl & c & tsr & -> & -> & Hlen & Hpos & Hlo' & Hhi').
    destruct (lv_repr _ _ _ _ _ _ _ Hlv) as [[pv Hp] _]. cbn [ptr fst snd] in *. rewrite Hp. cbn [mbind option_bind isLeaf keys children]. rewrite Hpos, map_app, Hlen. cbn [map].
    rewrite list_lookup_middle by (rewrite length_map; reflexivity). cbn [mbind option_bind].
    destruct (IH T (Some p) (after nxt tsr) _ _ c key f (level_child _ _ _ _ _ _ _ _ _ _ _ _ Hlv Hlen) Hlo' Hhi' ltac:(lia)) as (l & es & L & R & par' & nxt' & pv' & El & [A1 A2 A3 A4 A5] & Hsh).
    destruct (siblings_side comparator d lo hi ksl ksr tsl c tsr key (lv_ordered _ _ _ _ _ _ _ Hlv) Hlen Hlo' Hhi') as [Hl Hr].
    exists l, es, (flat_map flat tsl ++ L), (R ++ flat_map flat tsr), par', nxt', pv'. split; [exact El|]. split; [|exact (shrinks_level _ _ _ _ _ _ _ _ _ _ _ _ _ _ _ _ _ _ _ Hlv Hlen A5 Hsh)].
    split; [exact A1| |apply Forall_app; auto|apply Forall_app; auto|].
    + cbn [flat snd]. rewrite flat_map_app. cbn [flat_map]. rewrite A2, <- !app_assoc. reflexivity.
    + cbn [ids snd]. right. rewrite flat_map_app. cbn [flat_map]. rewrite !elem_of_app. tauto.
Qed.

(** ** Removal *)

Definition is_key (k : K) (x : K * V) : bool := (comparator k x.1 =? 0)%Z.
Definition has (k : K) (l : list (K * V)) : bool := existsb (is_key k) l.
Definition del (k : K) (l : list (K * V)) : list (K * V) := List.filter (fun x => negb (is_key k x)) l.

Lemma is_key_true k x : is_key k x = true <-> x.1 = k.
Proof. unfold is_key. rewrite Z.eqb_eq, cmp_eq. split; congruence. Qed.

Lemma is_key_lt k x : key_lt x.1 k \/ key_lt k x.1 -> is_key k x = false.
Proof.
  intros H. apply not_true_iff_false. rewrite is_key_true. intros <-. destruct H as [H|H]; exact (key_lt_irrefl comparator _ H).
Qed.

Lemma no_key k l : Forall (fun x => is_key k x = false) l -> has k l = false /\ del k l = l.
Proof. induction 1 as [|x l Hx Hl [IH1 IH2]]; [auto|]. unfold has, del in *. cbn. rewrite Hx, IH1, IH2. auto. Qed.

Lemma del_app k a b : del k (a ++ b) = del k a ++ del k b.
Proof. apply List.filter_app. Qed.

Lemma has_app k a b : has k (a ++ b) = has k a || has k b.
Proof. apply existsb_app. Qed.

Lemma equal_pos_cases k (es : list (K * V)) :
  (exists a v b, es = a ++ (k, v) :: b /\ equal_pos comparator k es.*1 = length a /\ Forall (fun x => is_key k x = false) a) \/
  (equal_pos comparator k es.*1 = length es /\ Forall (fun x => is_key k x = false) es).
Proof.
  unfold equal_pos. induction es as [|x es IH]; [right; auto|]. rewrite fmap_cons. cbn [count_while]. fold (is_key k x). destruct (is_key k x) eqn:E; cbn [negb].
  - left. apply is_key_true in E. destruct x as [k' v]. cbn in E. subst k'. exists [], v, es. auto.
  - destruct IH as [(a & v & b & -> & -> & Ha)|[-> Ha]]; [left; exists (x :: a), v, b|right]; auto.
Qed.

Lemma erase_middle {A} (a : list A) x b : erase_at (length a) (a ++ x :: b) = Some (a ++ b).
Proof.
  unfold erase_at. destruct (Nat.ltb_spec (length a) (length (a ++ x :: b))) as [_|H]; [|rewrite length_app in H; cbn in H; lia].
  rewrite take_app_length. replace (S (length a)) with (length (a ++ [x])) by (rewrite length_app; cbn; lia).
  rewrite (cons_middle x a b), app_assoc, drop_app_length. reflexivity.
Qed.

Lemma erase_keys {A} (f : K * V -> A) a x b : erase_at (length a) (f <$> (a ++ x :: b)) = Some (f <$> (a ++ b)).
Proof. rewrite !fmap_app, fmap_cons, <- (length_fmap f a). apply erase_middle. Qed.

Lemma side_keys k L R : Forall (fun x => key_lt x.1 k) L -> Forall (fun x => key_lt k x.1) R ->
  Forall (fun x => is_key k x = false) L /\ Forall (fun x => is_key k x = false) R.
Proof. intros HL HR. split; [eapply Forall_impl; [exact HL|]|eapply Forall_impl; [exact HR|]]; intros x Hx; apply is_key_lt; auto. Qed.

Lemma sorted_drop_middle (a : list (K * V)) x b : sorted comparator (a ++ x :: b) -> sorted comparator (a ++ b) /\ Forall (fun y => key_lt x.1 y.1) b.
Proof.
  intros H. destruct (sorted_app_inv comparator _ _ H) as (H1 & H2 & H3). apply StronglySorted_cons in H2 as [H2 H2']. split; [|exact H2].
  apply sorted_app; [exact H1|exact H2'|]. intros y z Hy Hz. apply H3; [exact Hy|right; exact Hz].
Qed.

Lemma remove_rep T l k : btree_rep T l -> exists T', remove comparator T k = Some (has k l, T') /\ btree_rep T' (del k l).
Proof.
  intros HT. pose proof (rep_sorted T l HT) as Hsort. destruct HT as (d & t & Hlv & Hp & <- & Hs). unfold remove, findLeaf, fuel. rewrite <- Hp. pose proof (lives_depth d T _ _ _ _ t Hlv) as Hd.
  destruct (find_leaf_at d T None None None None t k (S (fresh_ T)) Hlv I I ltac:(lia)) as (p & es & L & R & par & nxt & pv & -> & [A1 A2 A3 A4 A5] & Hsh).
  cbn [mbind option_bind]. rewrite A1. cbn [mbind option_bind keys]. destruct (side_keys k L R A3 A4) as [KL KR]. destruct (no_key k L KL) as [HL DL]. destruct (no_key k R KR) as [HR DR].
  rewrite A2 in Hsort |- *. rewrite !has_app, !del_app, HL, HR, DL, DR, orb_false_r. cbn [orb].
  destruct (equal_pos_cases k es) as [(a & v & b & -> & Epos & Ka)|[Epos Kes]]; rewrite Epos, length_fmap.
  - destruct (sorted_app_inv comparator _ _ Hsort) as (_ & Hse & _). destruct (sorted_app_inv comparator _ _ Hse) as (Hse' & _ & _). destruct (sorted_drop_middle _ _ _ Hse') as [Hse2 Hb].
    destruct (no_key k a Ka) as [Ha Da]. destruct (no_key k b) as [Hb' Db]; [eapply Forall_impl; [exact Hb|]; intros x Hx; apply is_key_lt; auto|].
    assert (Hk : is_key k (k, v) = true) by (apply is_key_true; reflexivity).
    replace (has k (a ++ (k, v) :: b)) with true by (rewrite has_app, Ha; unfold has; cbn [existsb]; rewrite Hk; reflexivity).
    replace (del k (a ++ (k, v) :: b)) with (a ++ b) by (rewrite del_app, Da; unfold del at 1; cbn [List.filter]; rewrite Hk; cbn [negb]; fold (del k b); rewrite Db; reflexivity).
    destruct (Nat.leb_spec (length (a ++ (k, v) :: b)) (length a)) as [Hbad|_]; [rewrite length_app in Hbad; cbn in Hbad; lia|].
    destruct (Hsh (a ++ b) Hse2) as (t' & Hlv' & Ep & _ & _ & Ef); [intros x; rewrite !elem_of_app, elem_of_cons; tauto|rewrite !length_app; cbn; lia|].
    unfold removeFromLeaf. rewrite A1. cbn [mbind option_bind keys values children]. rewrite Epos, length_fmap.
    destruct (Nat.ltb_spec (length a) (length (a ++ (k, v) :: b))) as [_|Hbad]; [|rewrite length_app in Hbad; cbn in Hbad; lia].
    rewrite (erase_keys fst), (erase_keys snd). cbn [mbind option_bind].
    eexists. split; [reflexivity|]. exists d, t'. split; [|split; [rewrite Ep; exact Hp|split; [exact Ef|]]].
    + unfold with_keys. cbn [isLeaf parent next prev]. destruct Hlv' as [B1 B2 B3 B4 B5]. split; [exact B1|exact B2|exact B3|exact B4|exact B5].
    + cbn [size_ set_heap]. rewrite Hs, A2, !length_app. cbn [length]. lia.
  - destruct (no_key k es Kes) as [He De]. rewrite He, De. destruct (Nat.leb_spec (length es) (length es)); [|lia]. exists T. split; [reflexivity|].
    exists d, t. rewrite <- A2. auto.
Qed.
End Ops.
