(* ===== verification/BTreeReads.v ===== *)
(** * Reads of the B+ tree (btree_index.hpp)

    [find] looks into the leaf of the key; [range], [lessThan], [greaterThan] and
    [scan] walk the leaf chain.  Each is a query of the sorted list of entries. *)

From stdpp Require Import base list gmap sorting.
From Stdlib Require Import ZArith Lia.
From S2P Require Import Prelude BTree BTreeShape BTreeHeap BTreeInsert BTreeInner BTreeGrow BTreeOps.

Section Reads.
Context {K V : Type} (comparator : K -> K -> Z) `{TO : !KeyOrder comparator}.

Abbreviation node := (@node K V).
Abbreviation tree := (@tree K V).
Abbreviation bptree := (@bptree K V).
Abbreviation key_lt := (key_lt comparator).
Abbreviation key_le := (key_le comparator).
Abbreviation ordered := (ordered comparator).
Abbreviation above := (above comparator).
Abbreviation below := (below comparator).
Abbreviation lives := (lives comparator).
Abbreviation btree_rep := (btree_rep comparator).
Abbreviation is_key := (is_key comparator).

(** ** The leaf chain *)

(** The leaves from [p] up to [stop], with their entries. *)
Fixpoint chain (h : gmap nat node) (p : option nat) (ls : list (list (K * V))) (stop : option nat) : Prop :=
  match ls with
  | [] => p = stop
  | es :: rest => exists l par nxt pv, p = Some l /\ h !! l = Some (mkNode true es.*1 es.*2 [] par nxt pv) /\ chain h nxt rest stop
  end.

Lemma chain_app h a b : forall p q stop, chain h p a q -> chain h q b stop -> chain h p (a ++ b) stop.
Proof.
  induction a as [|es a IH]; intros p q stop Ha Hb; cbn [app chain] in *; [subst p; exact Hb|].
  destruct Ha as (l & par & nxt & pv & -> & Hl & Ha). exists l, par, nxt, pv. split; [reflexivity|]. split; [exact Hl|exact (IH _ _ _ Ha Hb)].
Qed.

Lemma ordered_children d lo hi (t : tree (S d)) : ordered lo hi t -> Forall (fun c => exists lo hi, ordered lo hi c) t.2.
Proof.
  destruct t as [[p ks] ts]. cbn [BTreeShape.ordered fst snd]. revert lo hi ts.
  induction ks as [|k ks IH]; intros lo hi [|c ts] H; cbn [separated] in H; try contradiction.
  - destruct ts; [|contradiction]. repeat constructor. eauto.
  - destruct H as (H1 & _ & _ & H2). constructor; [eauto|exact (IH _ _ _ H2)].
Qed.

(** The leaves below [t]. *)
Definition leaves {d} (h : gmap nat node) (nxt : option nat) (t : tree d) (ls : list (list (K * V))) : Prop :=
  chain h (Some (first t)) ls nxt /\ concat ls = flat t /\ (length ls <= length (ids t))%nat.

Lemma linked_chain d h par nxt (ts : list (tree d)) : (forall nxt c, c ∈ ts -> repr h par nxt c -> exists ls, leaves h nxt c ls) ->
  linked (repr h par) first nxt ts ->
  exists ls, chain h (after nxt ts) ls nxt /\ concat ls = flat_map flat ts /\ (length ls <= length (flat_map ids ts))%nat.
Proof.
  induction ts as [|c ts IHts]; intros H Hl; [exists []; cbn; auto|]. cbn [linked flat_map after] in *. destruct Hl as [Hr Hl].
  destruct (IHts ltac:(intros nxt' c' Hc'; apply H; right; exact Hc') Hl) as (ls & C & E & Hle). destruct (H _ c ltac:(left) Hr) as (ls0 & C0 & E0 & Hle0).
  exists (ls0 ++ ls). split; [exact (chain_app _ _ _ _ _ _ C0 C)|]. rewrite concat_app, E, E0, !length_app. split; [reflexivity|lia].
Qed.

Lemma repr_chain d : forall h par nxt (t : tree d), repr h par nxt t -> (exists lo hi, ordered lo hi t) -> exists ls, leaves h nxt t ls.
Proof.
  induction d as [|d IH]; intros h par nxt t Hr (lo & hi & Ho).
  - destruct Hr as [pv Hr]. exists [t.2]. unfold leaves. cbn [chain concat ids length flat]. rewrite app_nil_r. split; [|auto]. exists t.1, par, nxt, pv. auto.
  - destruct Hr as [_ Hl]. pose proof (ordered_children d lo hi t Ho) as Hc. rewrite Forall_forall in Hc.
    destruct (linked_chain d h (Some t.1.1) nxt t.2 (fun nxt c Hin Hr => IH _ _ _ c Hr (Hc c Hin)) Hl) as (ls & C & E & Hle).
    exists ls. unfold leaves. cbn [first flat ids length]. destruct t as [[p ks] ts]. cbn [fst snd] in *. destruct ts as [|c ts]; [destruct ks; destruct Ho|]. auto.
Qed.

(** From the leaf of a key. *)
Lemma find_leaf_chain d : forall T par nxt lo hi (t : tree d) key f, lives T par nxt lo hi t -> above lo key -> below hi key -> (d < f)%nat ->
  exists l es ls L, find_leaf comparator f (heap T) (ptr t) key = Some l /\ chain (heap T) (Some l) (es :: ls) nxt /\ flat t = L ++ concat (es :: ls) /\
    Forall (fun x => key_lt x.1 key) L /\ Forall (fun x => key_lt key x.1) (concat ls) /\ (length (es :: ls) <= length (ids t))%nat.
Proof.
  induction d as [|d IH]; intros T par nxt lo hi t key f Hlv Hlo Hhi Hf; (destruct f as [|f]; [lia|]); cbn [find_leaf].
  - destruct (lv_repr _ _ _ _ _ _ _ Hlv) as [pv Hp]. exists t.1, t.2, [], []. cbn [ptr]. rewrite Hp. cbn [mbind option_bind isLeaf]. split; [reflexivity|].
    split; [exists t.1, par, nxt, pv; split; [reflexivity|split; [exact Hp|reflexivity]]|]. cbn [concat flat length ids]. rewrite app_nil_r. auto.
  - pose proof (ordered_children d lo hi t (lv_ordered _ _ _ _ _ _ _ Hlv)) as Hoc. destruct t as [[p ks] ts].
    destruct (child_split comparator key ks ordered lo hi ts (lv_ordered _ _ _ _ _ _ _ Hlv) Hlo Hhi) as (ksl & ksr & tsl & c & tsr & -> & -> & Hlen & Hpos & Hlo' & Hhi').
    destruct (lv_repr _ _ _ _ _ _ _ Hlv) as [[pv Hp] Hlk]. cbn [ptr fst snd] in *. rewrite Hp. cbn [mbind option_bind isLeaf keys children]. rewrite Hpos, map_app, Hlen. cbn [map].
    rewrite list_lookup_middle by (rewrite length_map; reflexivity). cbn [mbind option_bind]. apply linked_app in Hlk as [_ [_ Hlk]].
    destruct (IH T (Some p) (after nxt tsr) _ _ c key f (level_child _ _ _ _ _ _ _ _ _ _ _ _ Hlv Hlen) Hlo' Hhi' ltac:(lia)) as (l & es & ls & L & El & C & Ef & HL & HR & Hle).
    destruct (siblings_side comparator d lo hi ksl ksr tsl c tsr key (lv_ordered _ _ _ _ _ _ _ Hlv) Hlen Hlo' Hhi') as [Hl Hr].
    destruct (linked_chain d (heap T) (Some p) nxt tsr) as (ls' & C' & E' & Hle'); [|exact Hlk|].
    { intros nxt' c' Hc' Hr'. apply (repr_chain d _ _ _ c' Hr'). rewrite Forall_forall in Hoc. apply Hoc, elem_of_app. right. right. exact Hc'. }
    exists l, es, (ls ++ ls'), (flat_map flat tsl ++ L). split; [exact El|].
    split; [exact (chain_app _ (es :: ls) _ _ _ _ C C')|]. split; [|split; [apply Forall_app; auto|split]].
    + cbn [flat snd]. rewrite flat_map_app. cbn [flat_map]. rewrite Ef. cbn [concat]. rewrite concat_app, E', <- !app_assoc. reflexivity.
    + rewrite concat_app, E'. apply Forall_app. auto.
    + cbn [length ids snd]. rewrite flat_map_app. cbn [flat_map]. rewrite !length_app. cbn [length] in Hle. lia.
Qed.

(** ** Walking the chain *)

Lemma entries_leaf es par nxt pv : entries (mkNode true es.*1 es.*2 [] par nxt pv : node) = Some es.
Proof. unfold entries. cbn [keys values]. rewrite !length_fmap, Nat.eqb_refl. f_equal. apply zip_fst_snd. Qed.

Lemma visit_app {A} (visit : A -> K * V -> A * bool) a b : forall acc, visit_entries visit (a ++ b) acc =
  if (visit_entries visit a acc).2 then ((visit_entries visit a acc).1, true) else visit_entries visit b (visit_entries visit a acc).1.
Proof.
  induction a as [|x a IH]; intros acc; cbn [app visit_entries]; [reflexivity|]. destruct (visit acc x) as [acc' []]; [reflexivity|]. apply IH.
Qed.

Lemma walk_chain {A} (visit : A -> K * V -> A * bool) h ls : forall p f acc, chain h p ls None -> (length ls <= f)%nat ->
  walk f h p visit acc = Some (visit_entries visit (concat ls) acc).1.
Proof.
  induction ls as [|es ls IH]; intros p f acc C Hf; cbn [chain] in C; [subst p; destruct f; reflexivity|].
  destruct C as (l & par & nxt & pv & -> & Hl & C). cbn [length] in Hf. destruct f as [|f]; [lia|]. cbn [walk concat]. rewrite Hl. cbn [mbind option_bind].
  rewrite entries_leaf. cbn [mbind option_bind next]. rewrite visit_app. destruct (visit_entries visit es acc) as [acc' []]; cbn [fst snd]; [reflexivity|].
  apply IH; [exact C|lia].
Qed.

Lemma find_walk {A} (visit : A -> K * V -> A * bool) T l key acc : btree_rep T l ->
  exists p L R, findLeaf comparator T key = Some p /\ l = L ++ R /\ Forall (fun x => key_lt x.1 key) L /\
    walk (fuel T) (heap T) (Some p) visit acc = Some (visit_entries visit R acc).1.
Proof.
  intros (d & t & Hlv & Hp & <- & _). pose proof (lives_depth comparator d T _ _ _ _ t Hlv) as Hd.
  destruct (find_leaf_chain d T None None None None t key (fuel T) Hlv I I ltac:(unfold fuel; lia)) as (p & es & ls & L & E & C & Ef & HL & _ & Hle).
  exists p, L, (concat (es :: ls)). unfold findLeaf. rewrite <- Hp, E. do 3 (split; [auto|]). apply walk_chain; [exact C|unfold fuel; lia].
Qed.

Lemma left_most_first d : forall h par nxt (t : tree d) f, repr h par nxt t -> (exists lo hi, ordered lo hi t) -> (d < f)%nat -> left_most f h (ptr t) = Some (first t) /\ height_from f h (ptr t) = Some (S d).
Proof.
  induction d as [|d IH]; intros h par nxt t f Hr Ho Hf; (destruct f as [|f]; [lia|]); cbn [left_most height_from ptr].
  - destruct Hr as [pv ->]. auto.
  - destruct Ho as (lo & hi & Ho). pose proof (ordered_children d lo hi t Ho) as Hc. destruct Hr as [[pv ->] Hl]. destruct t as [[p ks] ts]. cbn [fst snd mbind option_bind isLeaf children first] in *.
    destruct ts as [|c ts]; [destruct ks; destruct Ho|]. apply Forall_cons in Hc as [Hc _]. destruct Hl as [Hl _].
    destruct (IH h _ _ c f Hl Hc ltac:(lia)) as [E1 E2]. change (map ptr (c :: ts) !! 0%nat) with (Some (ptr c)). cbn [mbind option_bind]. rewrite E1, E2. auto.
Qed.

Lemma left_walk {A} (visit : A -> K * V -> A * bool) T l acc : btree_rep T l ->
  exists p, getLeftMostLeaf T = Some p /\ walk (fuel T) (heap T) (Some p) visit acc = Some (visit_entries visit l acc).1.
Proof.
  intros (d & t & Hlv & Hp & <- & _). pose proof (lives_depth comparator d T _ _ _ _ t Hlv) as Hd.
  assert (Ho : exists lo hi, ordered lo hi t) by (exists None, None; apply Hlv).
  destruct (left_most_first d (heap T) None None t (fuel T) (lv_repr _ _ _ _ _ _ _ Hlv) Ho ltac:(unfold fuel; lia)) as [E _].
  destruct (repr_chain d (heap T) None None t (lv_repr _ _ _ _ _ _ _ Hlv) Ho) as (ls & C & <- & Hle).
  exists (first t). unfold getLeftMostLeaf. rewrite <- Hp. split; [exact E|]. apply walk_chain; [exact C|unfold fuel; lia].
Qed.

(** ** The queries, on the sorted list *)

Definition lookup_key (k : K) (l : list (K * V)) : option V := snd <$> List.find (is_key k) l.

Definition in_range (start stop : K) (inclusiveStart inclusiveEnd : bool) (x : K * V) : bool :=
  ((0 <? comparator x.1 start)%Z || (inclusiveStart && (comparator x.1 start =? 0)%Z)) &&
  ((comparator x.1 stop <? 0)%Z || (inclusiveEnd && (comparator x.1 stop =? 0)%Z)).
Definition is_less (k : K) (inclusive : bool) (x : K * V) : bool := (comparator x.1 k <? 0)%Z || (inclusive && (comparator x.1 k =? 0)%Z).
Definition is_greater (k : K) (inclusive : bool) (x : K * V) : bool := (0 <? comparator x.1 k)%Z || (inclusive && (comparator x.1 k =? 0)%Z).

Definition select (f : K * V -> bool) (l : list (K * V)) : list V := map snd (List.filter f l).

Lemma select_app f a b : select f (a ++ b) = select f a ++ select f b.
Proof. unfold select. rewrite List.filter_app, map_app. reflexivity. Qed.

Lemma select_none f l : Forall (fun x => f x = false) l -> select f l = [].
Proof. unfold select. induction 1 as [|x l Hx Hl IH]; [reflexivity|]. cbn [List.filter]. rewrite Hx. exact IH. Qed.

Lemma select_cons f x l : select f (x :: l) = (if f x then [x.2] else []) ++ select f l.
Proof. unfold select. cbn [List.filter]. destruct (f x); reflexivity. Qed.

(** Once past the end, every later entry is. *)
Lemma range_visit_all start stop i1 i2 l : forall acc, sorted comparator l ->
  (visit_entries (range_visit comparator start stop i1 i2) l acc).1 = acc ++ select (in_range start stop i1 i2) l.
Proof.
  induction l as [|x l IH]; intros acc Hs; cbn [visit_entries]; [rewrite app_nil_r; reflexivity|]. apply StronglySorted_cons in Hs as [Hx Hs]. rewrite select_cons.
  unfold range_visit at 1. fold (in_range start stop i1 i2 x). destruct (Z.ltb_spec 0 (comparator x.1 stop)) as [Hgt|Hle].
  - cbn [fst]. rewrite (select_none _ l), app_nil_r; [destruct (in_range _ _ _ _ x); [reflexivity|rewrite app_nil_r; reflexivity]|].
    eapply Forall_impl; [exact Hx|]. intros y Hy. apply andb_false_iff. right. apply (cmp_gt comparator) in Hgt.
    pose proof (key_lt_trans comparator _ _ _ Hgt Hy) as H. apply (cmp_gt comparator) in H. apply orb_false_iff. split; [apply Z.ltb_ge; lia|].
    apply andb_false_iff. right. apply Z.eqb_neq. lia.
  - rewrite IH by exact Hs. destruct (in_range _ _ _ _ x); [rewrite <- app_assoc; reflexivity|reflexivity].
Qed.

Lemma less_visit_all k i l : forall acc, sorted comparator l -> (visit_entries (less_visit comparator k i) l acc).1 = acc ++ select (is_less k i) l.
Proof.
  induction l as [|x l IH]; intros acc Hs; cbn [visit_entries]; [rewrite app_nil_r; reflexivity|]. apply StronglySorted_cons in Hs as [Hx Hs]. rewrite select_cons.
  unfold less_visit at 1. fold (is_less k i x). destruct (is_less k i x) eqn:E.
  - rewrite IH by exact Hs. rewrite <- app_assoc. reflexivity.
  - cbn [fst app]. rewrite (select_none _ l); [rewrite app_nil_r; reflexivity|]. eapply Forall_impl; [exact Hx|]. intros y Hy.
    apply orb_false_iff in E as [E _]. apply Z.ltb_ge in E. assert (Hk : key_lt k y.1) by (apply (le_lt_trans comparator k x.1 y.1); [|exact Hy]; unfold BTreeShape.key_le, BTreeShape.key_lt; lia).
    apply (cmp_gt comparator) in Hk. unfold is_less. apply orb_false_iff. split; [apply Z.ltb_ge; lia|]. apply andb_false_iff. right. apply Z.eqb_neq. lia.
Qed.

Lemma greater_visit_all k i l : forall acc, (visit_entries (greater_visit comparator k i) l acc).1 = acc ++ select (is_greater k i) l.
Proof.
  induction l as [|x l IH]; intros acc; cbn [visit_entries]; [rewrite app_nil_r; reflexivity|]. rewrite select_cons. unfold greater_visit at 1. fold (is_greater k i x).
  rewrite IH. destruct (is_greater k i x); [rewrite <- app_assoc; reflexivity|reflexivity].
Qed.

Lemma scan_visit_all limit (l : list (K * V)) : forall acc, (visit_entries (scan_visit limit) l acc).1 =
  acc ++ (if (limit <? 0)%Z then l else take (Z.to_nat limit - length acc) l).
Proof.
  induction l as [|x l IH]; intros acc; cbn [visit_entries].
  - destruct (limit <? 0)%Z; [|rewrite take_nil]; rewrite app_nil_r; reflexivity.
  - unfold scan_visit at 1. destruct (Z.ltb_spec limit 0) as [Hl|Hl].
    + replace (0 <=? limit)%Z with false by (symmetry; apply Z.leb_gt; lia). cbn [andb]. rewrite IH. replace (limit <? 0)%Z with true by (symmetry; apply Z.ltb_lt; lia).
      rewrite <- app_assoc. reflexivity.
    + replace (0 <=? limit)%Z with true by (symmetry; apply Z.leb_le; lia). cbn [andb]. destruct (Z.leb_spec limit (Z.of_nat (length acc))) as [Hc|Hc]; cbn [fst].
      * replace (Z.to_nat limit - length acc)%nat with 0%nat by lia. rewrite take_0, app_nil_r. reflexivity.
      * rewrite IH. replace (limit <? 0)%Z with false by (symmetry; apply Z.ltb_ge; lia). rewrite length_app. cbn [length].
        replace (Z.to_nat limit - length acc)%nat with (S (Z.to_nat limit - (length acc + 1)))%nat by lia. rewrite <- app_assoc. reflexivity.
Qed.
End Reads.
