(* ===== verification/BTreeMap.v ===== *)
(** * The B+ tree refines a sorted map (btree_index.hpp)

    Any sequence of calls on a new [BPlusTree] answers as the same calls on the
    sorted list of the entries. *)

From stdpp Require Import base list gmap sorting.
From Stdlib Require Import ZArith Lia.
From S2P Require Import Prelude BTree BTreeShape BTreeHeap BTreeInsert BTreeInner BTreeGrow BTreeOps BTreeReads.

Section Map.
Context {K V : Type} (comparator : K -> K -> Z).

(** ** Calls and answers *)

Inductive call :=
| CInsert (key : K) (value : V)
| CRemove (key : K)
| CFind (key : K)
| CContains (key : K)
| CRange (start stop : K) (inclusiveStart inclusiveEnd : bool)
| CLessThan (key : K) (inclusive : bool)
| CGreaterThan (key : K) (inclusive : bool)
| CScan (limit : Z)
| CSize
| CEmpty
| CClear.

Inductive answer :=
| ABool (b : bool)
| AValue (v : option V)
| AValues (vs : list V)
| AEntries (es : list (K * V))
| ASize (n : nat)
| ADone.

Definition tree_call (t : @bptree K V) (c : call) : option (answer * @bptree K V) :=
  match c with
  | CInsert key value => r ← insert comparator t key value; Some (ABool r.1, r.2)
  | CRemove key => r ← remove comparator t key; Some (ABool r.1, r.2)
  | CFind key => r ← find comparator t key; Some (AValue r, t)
  | CContains key => r ← contains comparator t key; Some (ABool r, t)
  | CRange start stop i1 i2 => r ← range comparator t start stop i1 i2; Some (AValues r, t)
  | CLessThan key i => r ← lessThan comparator t key i; Some (AValues r, t)
  | CGreaterThan key i => r ← greaterThan comparator t key i; Some (AValues r, t)
  | CScan limit => r ← scan t limit; Some (AEntries r, t)
  | CSize => Some (ASize (size_ t), t)
  | CEmpty => Some (ABool (size_ t =? 0)%nat, t)
  | CClear => Some (ADone, clear t)
  end.

(** The same call on the sorted list. *)
Definition list_call (l : list (K * V)) (c : call) : answer * list (K * V) :=
  match c with
  | CInsert key value => (ABool true, ins comparator key value l)
  | CRemove key => (ABool (has comparator key l), del comparator key l)
  | CFind key => (AValue (lookup_key comparator key l), l)
  | CContains key => (ABool (has comparator key l), l)
  | CRange start stop i1 i2 => (AValues (select (in_range comparator start stop i1 i2) l), l)
  | CLessThan key i => (AValues (select (is_less comparator key i) l), l)
  | CGreaterThan key i => (AValues (select (is_greater comparator key i) l), l)
  | CScan limit => (AEntries (if (limit <? 0)%Z then l else take (Z.to_nat limit) l), l)
  | CSize => (ASize (length l), l)
  | CEmpty => (ABool match l with [] => true | _ => false end, l)
  | CClear => (ADone, [])
  end.

Fixpoint tree_run (t : @bptree K V) (cs : list call) : option (list answer * @bptree K V) :=
  match cs with
  | [] => Some ([], t)
  | c :: cs => r ← tree_call t c; rs ← tree_run r.2 cs; Some (r.1 :: rs.1, rs.2)
  end.

Fixpoint list_run (l : list (K * V)) (cs : list call) : list answer * list (K * V) :=
  match cs with
  | [] => ([], l)
  | c :: cs => let '(a, l) := list_call l c in let '(rs, l) := list_run l cs in (a :: rs, l)
  end.

(** ** Each call *)

Context `{TO : !KeyOrder comparator}.

Abbreviation btree_rep := (btree_rep comparator).

Lemma find_in_leaf k (L es R : list (K * V)) : Forall (fun x => key_lt comparator x.1 k) L -> Forall (fun x => key_lt comparator k x.1) R ->
  List.find (is_key comparator k) (L ++ es ++ R) = List.find (is_key comparator k) es.
Proof.
  intros HL HR. destruct (side_keys comparator k L R HL HR) as [KL KR].
  assert (Hr : List.find (is_key comparator k) R = None) by (clear -KR; induction KR as [|x R Hx _ IH]; [reflexivity|]; cbn; rewrite Hx; exact IH).
  induction KL as [|x L Hx _ IH]; [|cbn; rewrite Hx; apply IH; inversion HL; assumption].
  cbn [app]. induction es as [|x es IH]; [exact Hr|]. cbn [List.find app]. destruct (is_key comparator k x); [reflexivity|exact IH].
Qed.

Lemma find_rep (T : @bptree K V) l k : btree_rep T l -> find comparator T k = Some (lookup_key comparator k l).
Proof.
  intros (d & t & Hlv & Hp & <- & _). pose proof (lives_depth comparator d T _ _ _ _ t Hlv) as Hd.
  destruct (find_leaf_at comparator d T None None None None t k (fuel T) Hlv I I ltac:(unfold fuel; lia)) as (p & es & L & R & par & nxt & pv & E & [A1 A2 A3 A4 _] & _).
  unfold find, findLeaf, lookup_key. rewrite <- Hp, E. cbn [mbind option_bind]. rewrite A1. cbn [mbind option_bind]. rewrite entries_leaf. cbn [mbind option_bind].
  rewrite A2, find_in_leaf by assumption. reflexivity.
Qed.

Lemma lookup_has k (l : list (K * V)) : match lookup_key comparator k l with Some _ => true | None => false end = has comparator k l.
Proof. unfold lookup_key, has. induction l as [|x l IH]; [reflexivity|]. cbn [List.find existsb]. destruct (is_key comparator k x); [reflexivity|exact IH]. Qed.

Lemma contains_rep (T : @bptree K V) l k : btree_rep T l -> contains comparator T k = Some (has comparator k l).
Proof. intros H. unfold contains. rewrite (find_rep T l k H). cbn [mbind option_bind]. rewrite lookup_has. reflexivity. Qed.

Lemma sorted_tail (L R : list (K * V)) : sorted comparator (L ++ R) -> sorted comparator R.
Proof. intros H. apply (sorted_app_inv comparator L R H). Qed.

(** Entries before the leaf of [start] are outside. *)
Lemma before_start start L : Forall (fun x => key_lt comparator x.1 start) L ->
  forall stop i1 i2, select (in_range comparator start stop i1 i2) (L : list (K * V)) = [].
Proof.
  intros HL stop i1 i2. apply select_none. eapply Forall_impl; [exact HL|]. intros x Hx. unfold key_lt in Hx. unfold in_range.
  replace (0 <? comparator x.1 start)%Z with false by (symmetry; apply Z.ltb_ge; lia). replace (comparator x.1 start =? 0)%Z with false by (symmetry; apply Z.eqb_neq; lia).
  rewrite andb_false_r. reflexivity.
Qed.

Lemma range_rep (T : @bptree K V) l start stop i1 i2 : btree_rep T l -> range comparator T start stop i1 i2 = Some (select (in_range comparator start stop i1 i2) l).
Proof.
  intros H. pose proof (rep_sorted comparator T l H) as Hs.
  destruct (find_walk comparator (range_visit comparator start stop i1 i2) T l start [] H) as (p & L & R & E & -> & HL & W).
  unfold range. rewrite E. cbn [mbind option_bind]. rewrite W, (range_visit_all comparator) by exact (sorted_tail L R Hs). rewrite select_app, (before_start start L HL). reflexivity.
Qed.

Lemma lessThan_rep (T : @bptree K V) l k i : btree_rep T l -> lessThan comparator T k i = Some (select (is_less comparator k i) l).
Proof.
  intros H. destruct (left_walk comparator (less_visit comparator k i) T l [] H) as (p & E & W). unfold lessThan. rewrite E. cbn [mbind option_bind].
  rewrite W, (less_visit_all comparator) by exact (rep_sorted comparator T l H). reflexivity.
Qed.

Lemma greaterThan_rep (T : @bptree K V) l k i : btree_rep T l -> greaterThan comparator T k i = Some (select (is_greater comparator k i) l).
Proof.
  intros H. destruct (find_walk comparator (greater_visit comparator k i) T l k [] H) as (p & L & R & E & -> & HL & W). unfold greaterThan. rewrite E. cbn [mbind option_bind].
  rewrite W, greater_visit_all, select_app, (select_none (is_greater comparator k i) L); [reflexivity|]. eapply Forall_impl; [exact HL|]. intros x Hx.
  unfold key_lt in Hx. unfold is_greater. apply orb_false_iff. split; [apply Z.ltb_ge; lia|]. apply andb_false_iff. right. apply Z.eqb_neq. lia.
Qed.

Lemma scan_rep (T : @bptree K V) l limit : btree_rep T l -> scan T limit = Some (if (limit <? 0)%Z then l else take (Z.to_nat limit) l).
Proof.
  intros H. destruct (left_walk comparator (scan_visit limit) T l [] H) as (p & E & W). unfold scan. rewrite E. cbn [mbind option_bind].
  rewrite W, scan_visit_all. cbn [length app]. rewrite Nat.sub_0_r. reflexivity.
Qed.

Lemma size_rep (T : @bptree K V) l : btree_rep T l -> size_ T = length l.
Proof. intros (d & t & _ & _ & _ & H). exact H. Qed.

Lemma call_rep (T : @bptree K V) l c : btree_rep T l -> exists T', tree_call T c = Some ((list_call l c).1, T') /\ btree_rep T' (list_call l c).2.
Proof.
  intros H. destruct c; cbn [tree_call list_call fst snd].
  - destruct (insert_rep comparator T l key value H) as (T' & -> & H'). exists T'. auto.
  - destruct (remove_rep comparator T l key H) as (T' & -> & H'). exists T'. auto.
  - rewrite (find_rep T l key H). exists T. auto.
  - rewrite (contains_rep T l key H). exists T. auto.
  - rewrite (range_rep T l _ _ _ _ H). exists T. auto.
  - rewrite (lessThan_rep T l _ _ H). exists T. auto.
  - rewrite (greaterThan_rep T l _ _ H). exists T. auto.
  - rewrite (scan_rep T l _ H). exists T. auto.
  - rewrite (size_rep T l H). exists T. auto.
  - rewrite (size_rep T l H). exists T. destruct l; auto.
  - exists (clear T). split; [reflexivity|apply clear_rep].
Qed.

Lemma run_rep cs : forall T l, btree_rep T l -> exists T', tree_run T cs = Some ((list_run l cs).1, T') /\ btree_rep T' (list_run l cs).2.
Proof.
  induction cs as [|c cs IH]; intros T l H; cbn [tree_run list_run]; [exists T; auto|]. destruct (call_rep T l c H) as (T1 & -> & H1). cbn [mbind option_bind fst snd].
  destruct (list_call l c) as [a l1]. cbn [fst snd] in *. destruct (IH T1 l1 H1) as (T' & -> & H'). cbn [mbind option_bind fst snd].
  destruct (list_run l1 cs) as [rs l2]. exists T'. auto.
Qed.

(** C24: any sequence of [insert], [remove], [find], [contains], [range], [lessThan],
    [greaterThan], [scan], [size], [empty] and [clear] calls on a new B+ tree runs
    to its end without reading past a vector or a dangling pointer, and every call
    answers as on the list of entries sorted by key, where an insertion replaces the
    value of an equal key; the pointers the calls leave behind form again a tree
    whose leaves are that list. *)
Theorem btree_refines_sorted_map cs : exists T, tree_run bptree_new cs = Some ((list_run [] cs).1, T) /\ btree_rep T (list_run [] cs).2.
Proof. exact (run_rep cs _ _ (new_rep comparator)). Qed.
End Map.

(** ** Numbers as keys *)

#[local] Instance sub_order : KeyOrder Z.sub.
Proof. split; intros; lia. Qed.

(** [n] ascending insertions. *)
Definition ascending (n : nat) : list (@call Z Z) := map (fun i => CInsert (Z.of_nat i) (Z.of_nat i)) (seq 0 n).

Lemma btree_refines_sorted_map_witness : KeyOrder Z.sub /\
  exists T, tree_run Z.sub bptree_new (ascending 200 ++ [CRemove 64; CFind 100; CRange 62 66 true false; CScan 3]%Z) =
    Some (repeat (ABool true) 201 ++ [AValue (Some 100%Z); AValues [62; 63; 65]%Z; AEntries [(0, 0); (1, 1); (2, 2)]%Z], T).
Proof.
  split; [exact sub_order|]. destruct (btree_refines_sorted_map Z.sub (ascending 200 ++ [CRemove 64; CFind 100; CRange 62 66 true false; CScan 3]%Z)) as (T & E & _).
  exists T. rewrite E. apply (f_equal (fun r => Some (r, T))). vm_compute. reflexivity.
Defined.

(** The root was split. *)
Example ascending_height : (r ← tree_run Z.sub bptree_new (ascending 200); height r.2) = Some 2%nat.
Proof. vm_compute. reflexivity. Qed.
