(* ===== verification/BTreeIndex.v ===== *)
(** * The index manager (btree_index.hpp, btree_index.cpp)

    [IndexManager] keeps the definitions and the B+ trees of the indexes of all
    collections, under names joined with dots.  Its calls are compared with a
    catalogue that maps such a name to a definition and to sorted entries. *)

From stdpp Require Import base list gmap sorting strings.
From Stdlib Require Import ZArith Lia.
From S2P Require Import Prelude Json BTree BTreeShape BTreeHeap BTreeInsert BTreeInner BTreeGrow BTreeOps BTreeReads BTreeMap.

(** ** Keys are strings *)

Definition defaultComparator (a b : bytes) : Z := if bytes_ltb a b then -1 else if bytes_ltb b a then 1 else 0.

Lemma defaultComparator_spec a b : defaultComparator a b = match bytes_compare a b with Lt => -1 | Eq => 0 | Gt => 1 end%Z.
Proof. unfold defaultComparator, bytes_ltb. rewrite (bytes_compare_antisym a b). destruct (bytes_compare a b); reflexivity. Qed.

#[export] Instance defaultComparator_order : KeyOrder defaultComparator.
Proof.
  split; intros a b; rewrite ?defaultComparator_spec.
  - rewrite <- bytes_compare_eq. destruct (bytes_compare a b); split; try discriminate; auto.
  - rewrite (bytes_compare_antisym a b). destruct (bytes_compare a b); cbn; lia.
  - intros c. rewrite !defaultComparator_spec. pose proof (bytes_lt_trans a b c) as H. unfold bytes_lt in H.
    destruct (bytes_compare a b); try lia. destruct (bytes_compare b c); try lia. rewrite H by reflexivity. lia.
Qed.

(** ** Definitions of indexes *)

Inductive IndexType := BTREE | HASH | FULLTEXT | GEOSPATIAL | COMPOUND.
Inductive SortOrder := ASCENDING | DESCENDING.

Record IndexField := mkField { fieldName : bytes; order : SortOrder; sparse : bool }.

Record IndexDefinition := mkDefinition {
  name : bytes; collection : bytes; database : bytes; type : IndexType; fields : list IndexField; unique : bool; partial : bool; partialFilter : bytes }.

Definition type_code (t : IndexType) : Z :=
  match t with BTREE => 0 | HASH => 1 | FULLTEXT => 2 | GEOSPATIAL => 3 | COMPOUND => 4 end.

(** Objects keep their keys in order. *)
Definition IndexField_toJson (f : IndexField) : json :=
  JObject [(str "fieldName", JString (fieldName f)); (str "order", JString (match order f with ASCENDING => str "asc" | DESCENDING => str "desc" end));
           (str "sparse", JBool (sparse f))].

Definition IndexDefinition_toJson (d : IndexDefinition) : json :=
  JObject [(str "collection", JString (collection d)); (str "database", JString (database d)); (str "fields", JArray (IndexField_toJson <$> fields d));
           (str "name", JString (name d)); (str "partial", JBool (partial d)); (str "partialFilter", JString (partialFilter d));
           (str "type", JInt (type_code (type d))); (str "unique", JBool (unique d))].

(** ** The manager *)

Abbreviation btree := (@bptree bytes bytes).

Record IndexManager := mkManager { definitions_ : gmap bytes IndexDefinition; indexes_ : gmap bytes btree }.

Definition makeIndexKey (db coll name : bytes) : bytes := db ++ str "." ++ coll ++ str "." ++ name.

Definition set_index (m : IndexManager) (key : bytes) (t : btree) : IndexManager := mkManager (definitions_ m) (<[key := t]> (indexes_ m)).

Definition createIndex (m : IndexManager) (def : IndexDefinition) : bool * IndexManager :=
  let key := makeIndexKey (database def) (collection def) (name def) in
  match indexes_ m !! key with
  | Some _ => (false, m)
  | None =>
      match type def with
      | BTREE | COMPOUND => (true, mkManager (<[key := def]> (definitions_ m)) (<[key := bptree_new]> (indexes_ m)))
      | HASH | FULLTEXT | GEOSPATIAL => (false, m)
      end
  end.

Definition dropIndex (m : IndexManager) (database collection indexName : bytes) : bool * IndexManager :=
  let key := makeIndexKey database collection indexName in
  (true, mkManager (delete key (definitions_ m)) (delete key (indexes_ m))).

Definition indexExists (m : IndexManager) (database collection indexName : bytes) : bool :=
  match indexes_ m !! makeIndexKey database collection indexName with Some _ => true | None => false end.

Definition insertEntry (m : IndexManager) (database collection indexName key documentId : bytes) : option (bool * IndexManager) :=
  let indexKey := makeIndexKey database collection indexName in
  match indexes_ m !! indexKey with
  | None => Some (false, m)
  | Some t => r ← insert defaultComparator t key documentId; Some (r.1, set_index m indexKey r.2)
  end.

Definition removeEntry (m : IndexManager) (database collection indexName key : bytes) : option (bool * IndexManager) :=
  let indexKey := makeIndexKey database collection indexName in
  match indexes_ m !! indexKey with
  | None => Some (false, m)
  | Some t => r ← remove defaultComparator t key; Some (r.1, set_index m indexKey r.2)
  end.

Definition lookupIndex (m : IndexManager) (database collection indexName key : bytes) : option (list bytes) :=
  match indexes_ m !! makeIndexKey database collection indexName with
  | None => Some []
  | Some t => r ← find defaultComparator t key; Some (match r with Some v => [v] | None => [] end)
  end.

Definition rangeQuery (m : IndexManager) (database collection indexName startKey endKey : bytes) : option (list bytes) :=
  match indexes_ m !! makeIndexKey database collection indexName with
  | None => Some []
  | Some t => range defaultComparator t startKey endKey true true
  end.

(** [key.find(prefix) == 0]. *)
Definition starts_with (prefix key : bytes) : bool := bytes_eqb (take (length prefix) key) prefix.

(** In the order of the hash map, which is unspecified. *)
Definition listIndexes (m : IndexManager) (database collection : bytes) : list IndexDefinition :=
  let prefix := database ++ str "." ++ collection ++ str "." in
  map snd (List.filter (fun kd => starts_with prefix kd.1) (map_to_list (definitions_ m))).

Definition getIndexStats (m : IndexManager) (database collection indexName : bytes) : option json :=
  let key := makeIndexKey database collection indexName in
  match indexes_ m !! key, definitions_ m !! key with
  | Some t, Some d =>
      h ← height t;
      Some (JObject [(str "fields", JArray (IndexField_toJson <$> fields d)); (str "height", JInt (Z.of_nat h)); (str "name", JString indexName);
                     (str "size", JUInt (Z.of_nat (size_ t))); (str "type", JInt (type_code (type d))); (str "unique", JBool (unique d))])
  | _, _ => Some (JObject [(str "error", JString (str "Index not found"))])
  end.

(** The entries are inserted again one by one. *)
Fixpoint insert_entries (t : btree) (es : list (bytes * bytes)) : option btree :=
  match es with
  | [] => Some t
  | (k, v) :: rest => r ← insert defaultComparator t k v; insert_entries r.2 rest
  end.

Definition rebuildIndex (m : IndexManager) (database collection indexName : bytes) : option (bool * IndexManager) :=
  let key := makeIndexKey database collection indexName in
  match indexes_ m !! key with
  | None => Some (false, m)
  | Some t => es ← scan t (-1); t ← insert_entries (clear t) es; Some (true, set_index m key t)
  end.

(** ** The catalogue *)

Abbreviation catalogue := (gmap bytes (IndexDefinition * list (bytes * bytes))).

Inductive request :=
| RCreate (def : IndexDefinition)
| RDrop (database collection indexName : bytes)
| RExists (database collection indexName : bytes)
| RInsert (database collection indexName key documentId : bytes)
| RRemove (database collection indexName key : bytes)
| RLookup (database collection indexName key : bytes)
| RRange (database collection indexName startKey endKey : bytes)
| RList (database collection : bytes)
| RRebuild (database collection indexName : bytes).

Inductive reply :=
| RBool (b : bool)
| RIds (ids : list bytes)
| RDefinitions (defs : list IndexDefinition).

Definition manager_call (m : IndexManager) (r : request) : option (reply * IndexManager) :=
  match r with
  | RCreate def => let '(b, m) := createIndex m def in Some (RBool b, m)
  | RDrop db c n => let '(b, m) := dropIndex m db c n in Some (RBool b, m)
  | RExists db c n => Some (RBool (indexExists m db c n), m)
  | RInsert db c n key id => x ← insertEntry m db c n key id; Some (RBool x.1, x.2)
  | RRemove db c n key => x ← removeEntry m db c n key; Some (RBool x.1, x.2)
  | RLookup db c n key => x ← lookupIndex m db c n key; Some (RIds x, m)
  | RRange db c n s e => x ← rangeQuery m db c n s e; Some (RIds x, m)
  | RList db c => Some (RDefinitions (listIndexes m db c), m)
  | RRebuild db c n => x ← rebuildIndex m db c n; Some (RBool x.1, x.2)
  end.

Abbreviation ins := (ins defaultComparator).
Abbreviation del := (del defaultComparator).
Abbreviation has := (has defaultComparator).

(** An update of the entries of one index, with its answer; [false] when there is none. *)
Definition on_index (A : catalogue) (key : bytes) (f : list (bytes * bytes) -> bool * list (bytes * bytes)) : reply * catalogue :=
  match A !! key with
  | None => (RBool false, A)
  | Some (d, l) => let '(b, l) := f l in (RBool b, <[key := (d, l)]> A)
  end.

Definition from_index (A : catalogue) (key : bytes) (f : list (bytes * bytes) -> list bytes) : reply * catalogue :=
  (RIds (match A !! key with None => [] | Some (_, l) => f l end), A).

Definition catalogue_call (A : catalogue) (r : request) : reply * catalogue :=
  match r with
  | RCreate def =>
      let key := makeIndexKey (database def) (collection def) (name def) in
      match A !! key, type def with
      | None, (BTREE | COMPOUND) => (RBool true, <[key := (def, [])]> A)
      | _, _ => (RBool false, A)
      end
  | RDrop db c n => (RBool true, delete (makeIndexKey db c n) A)
  | RExists db c n => (RBool (bool_decide (is_Some (A !! makeIndexKey db c n))), A)
  | RInsert db c n key id => on_index A (makeIndexKey db c n) (fun l => (true, ins key id l))
  | RRemove db c n key => on_index A (makeIndexKey db c n) (fun l => (has key l, del key l))
  | RLookup db c n key => from_index A (makeIndexKey db c n) (fun l => match lookup_key defaultComparator key l with Some v => [v] | None => [] end)
  | RRange db c n s e => from_index A (makeIndexKey db c n) (select (in_range defaultComparator s e true true))
  | RList db c => (RDefinitions (listIndexes (mkManager (fst <$> A) ∅) db c), A)
  | RRebuild db c n => on_index A (makeIndexKey db c n) (fun l => (true, l))
  end.

Fixpoint manager_run (m : IndexManager) (rs : list request) : option (list reply * IndexManager) :=
  match rs with
  | [] => Some ([], m)
  | r :: rs => x ← manager_call m r; xs ← manager_run x.2 rs; Some (x.1 :: xs.1, xs.2)
  end.

Fixpoint catalogue_run (A : catalogue) (rs : list request) : list reply * catalogue :=
  match rs with
  | [] => ([], A)
  | r :: rs => let '(x, A) := catalogue_call A r in let '(xs, A) := catalogue_run A rs in (x :: xs, A)
  end.

(** ** Refinement *)

Record manager_rep (m : IndexManager) (A : catalogue) : Prop := {
  mr_defs : definitions_ m = fst <$> A;
  mr_trees : forall key, match A !! key, indexes_ m !! key with
                         | Some (_, l), Some t => btree_rep defaultComparator t l
                         | None, None => True
                         | _, _ => False
                         end }.

Lemma rep_cases m A key : manager_rep m A ->
  (A !! key = None /\ indexes_ m !! key = None) \/
  exists d l t, A !! key = Some (d, l) /\ indexes_ m !! key = Some t /\ btree_rep defaultComparator t l.
Proof.
  intros [_ H]. specialize (H key). destruct (A !! key) as [[d l]|], (indexes_ m !! key) as [t|]; try contradiction; [right; eauto 10|left; auto].
Qed.

Lemma rep_update m A key d l l' t : manager_rep m A -> A !! key = Some (d, l) -> btree_rep defaultComparator t l' ->
  manager_rep (set_index m key t) (<[key := (d, l')]> A).
Proof.
  intros [Hd Ht] HA Hr. split; cbn [set_index definitions_ indexes_].
  - rewrite Hd, fmap_insert. symmetry. apply insert_id. rewrite lookup_fmap, HA. reflexivity.
  - intros k. destruct (decide (k = key)) as [->|Hne]; [rewrite !lookup_insert_eq; exact Hr|]. rewrite !lookup_insert_ne by congruence. apply Ht.
Qed.

Lemma ins_last (k v : bytes) l : Forall (fun x => key_lt defaultComparator x.1 k) l -> ins k v l = l ++ [(k, v)].
Proof. intros H. rewrite <- (app_nil_r l) at 1. rewrite (ins_before defaultComparator k v l [] H). reflexivity. Qed.

Lemma insert_entries_rep es : forall T l, btree_rep defaultComparator T l -> sorted defaultComparator (l ++ es) ->
  exists T', insert_entries T es = Some T' /\ btree_rep defaultComparator T' (l ++ es).
Proof.
  induction es as [|[k v] es IH]; intros T l H Hs; cbn [insert_entries]; [exists T; rewrite app_nil_r; auto|].
  destruct (insert_rep defaultComparator T l k v H) as (T1 & -> & H1). cbn [mbind option_bind snd]. destruct (sorted_app_inv _ _ _ Hs) as (_ & _ & Hlt).
  rewrite ins_last in H1 by (apply Forall_forall; intros x Hx; apply (Hlt x (k, v) Hx); left).
  rewrite (cons_middle (k, v)), app_assoc in Hs |- *. exact (IH _ _ H1 Hs).
Qed.

(** [rebuildIndex] gives the same entries. *)
Lemma rebuild_rep T l : btree_rep defaultComparator T l ->
  exists T', scan T (-1) = Some l /\ insert_entries (clear T) l = Some T' /\ btree_rep defaultComparator T' l.
Proof.
  intros H. destruct (insert_entries_rep l (clear T) [] (clear_rep defaultComparator T) (rep_sorted _ _ _ H)) as (T' & E & H').
  exists T'. rewrite (scan_rep defaultComparator T l (-1) H). auto.
Qed.

Lemma create_rep m A def : manager_rep m A ->
  exists m', manager_call m (RCreate def) = Some ((catalogue_call A (RCreate def)).1, m') /\ manager_rep m' (catalogue_call A (RCreate def)).2.
Proof.
  intros H. cbn [manager_call catalogue_call]. unfold createIndex. set (key := makeIndexKey _ _ _).
  destruct (rep_cases m A key H) as [[-> ->]|(d & l & t & -> & -> & _)]; [|exists m; auto].
  assert (Hnew : manager_rep (mkManager (<[key := def]> (definitions_ m)) (<[key := bptree_new]> (indexes_ m))) (<[key := (def, [])]> A)).
  { destruct H as [Hd Ht]. split; cbn [definitions_ indexes_]; [rewrite Hd, fmap_insert; reflexivity|]. intros k.
    destruct (decide (k = key)) as [->|Hne]; [rewrite !lookup_insert_eq; apply new_rep|]. rewrite !lookup_insert_ne by congruence. apply Ht. }
  destruct (type def); eauto.
Qed.

Lemma drop_rep m A db c n : manager_rep m A -> manager_rep (dropIndex m db c n).2 (delete (makeIndexKey db c n) A).
Proof.
  intros [Hd Ht]. unfold dropIndex. set (key := makeIndexKey db c n). split; cbn [snd definitions_ indexes_]; [rewrite Hd, fmap_delete; reflexivity|].
  intros k. destruct (decide (k = key)) as [->|Hne]; [rewrite !lookup_delete_eq; exact I|]. rewrite !lookup_delete_ne by congruence. apply Ht.
Qed.

Lemma manager_call_rep m A r : manager_rep m A -> exists m', manager_call m r = Some ((catalogue_call A r).1, m') /\ manager_rep m' (catalogue_call A r).2.
Proof.
  intros H. destruct r as [def|db c n|db c n|db c n k id|db c n k|db c n k|db c n s e|db c|db c n]; [apply create_rep, H|..]; cbn [manager_call catalogue_call].
  - exists (dropIndex m db c n).2. split; [reflexivity|apply drop_rep, H].
  - exists m. split; [|exact H]. unfold indexExists. destruct (rep_cases m A (makeIndexKey db c n) H) as [[-> ->]|(d & l & t & -> & -> & _)]; reflexivity.
  - unfold insertEntry, on_index. destruct (rep_cases m A (makeIndexKey db c n) H) as [[-> ->]|(d & l & t & E & -> & Ht)]; [exists m; auto|]. rewrite E.
    destruct (insert_rep defaultComparator t l k id Ht) as (t' & -> & Ht'). eexists. split; [reflexivity|exact (rep_update m A _ d l _ t' H E Ht')].
  - unfold removeEntry, on_index. destruct (rep_cases m A (makeIndexKey db c n) H) as [[-> ->]|(d & l & t & E & -> & Ht)]; [exists m; auto|]. rewrite E.
    destruct (remove_rep defaultComparator t l k Ht) as (t' & -> & Ht'). eexists. split; [reflexivity|exact (rep_update m A _ d l _ t' H E Ht')].
  - unfold lookupIndex, from_index. destruct (rep_cases m A (makeIndexKey db c n) H) as [[-> ->]|(d & l & t & -> & -> & Ht)]; [exists m; auto|].
    rewrite (find_rep defaultComparator t l k Ht). exists m. auto.
  - unfold rangeQuery, from_index. destruct (rep_cases m A (makeIndexKey db c n) H) as [[-> ->]|(d & l & t & -> & -> & Ht)]; [exists m; auto|].
    rewrite (range_rep defaultComparator t l s e true true Ht). exists m. auto.
  - exists m. split; [|exact H]. unfold listIndexes. cbn [definitions_ fst]. rewrite (mr_defs m A H). reflexivity.
  - unfold rebuildIndex, on_index. destruct (rep_cases m A (makeIndexKey db c n) H) as [[-> ->]|(d & l & t & E & -> & Ht)]; [exists m; auto|]. rewrite E.
    destruct (rebuild_rep t l Ht) as (t' & -> & E' & Ht'). cbn [mbind option_bind]. rewrite E'. eexists. split; [reflexivity|exact (rep_update m A _ d l _ t' H E Ht')].
Qed.

Definition manager_new : IndexManager := mkManager ∅ ∅.

Lemma new_manager_rep : manager_rep manager_new ∅.
Proof. split; cbn [manager_new definitions_ indexes_]; [rewrite fmap_empty; reflexivity|]. intros k. rewrite !lookup_empty. exact I. Qed.

Lemma manager_run_rep rs : forall m A, manager_rep m A -> exists m', manager_run m rs = Some ((catalogue_run A rs).1, m') /\ manager_rep m' (catalogue_run A rs).2.
Proof.
  induction rs as [|r rs IH]; intros m A H; cbn [manager_run catalogue_run]; [exists m; auto|]. destruct (manager_call_rep m A r H) as (m1 & -> & H1).
  cbn [mbind option_bind fst snd]. destruct (catalogue_call A r) as [x A1]. cbn [fst snd] in *. destruct (IH m1 A1 H1) as (m' & -> & H').
  cbn [mbind option_bind fst snd]. destruct (catalogue_run A1 rs) as [xs A2]. exists m'. auto.
Qed.

(** C25: any sequence of requests to a new index manager (creating, dropping and listing
    indexes, adding and removing entries, point and range lookups, rebuilds) answers
    as the catalogue that keeps, for every name [database.collection.index], its
    definition and its entries sorted by key, one document per key; a rebuild changes
    nothing, and definitions and trees always exist for the same names. *)
Theorem index_manager_refines rs : exists m, manager_run manager_new rs = Some ((catalogue_run ∅ rs).1, m) /\ manager_rep m (catalogue_run ∅ rs).2.
Proof. exact (manager_run_rep rs _ _ new_manager_rep). Qed.

(** The size [getIndexStats] reports is the number of entries. *)
Lemma stats_size m A db c n d l : manager_rep m A -> A !! makeIndexKey db c n = Some (d, l) ->
  exists h, getIndexStats m db c n =
    Some (JObject [(str "fields", JArray (IndexField_toJson <$> fields d)); (str "height", JInt (Z.of_nat (S h))); (str "name", JString n);
                   (str "size", JUInt (Z.of_nat (length l))); (str "type", JInt (type_code (type d))); (str "unique", JBool (unique d))]).
Proof.
  intros H HA. destruct (rep_cases m A (makeIndexKey db c n) H) as [[HA' _]|(d' & l' & t & HA' & Ht & Hr)]; [congruence|].
  rewrite HA in HA'. injection HA' as <- <-. pose proof (size_rep defaultComparator t l Hr) as Hs. destruct Hr as (h & tr & Hlv & Hp & _ & _). exists h. unfold getIndexStats. rewrite Ht, (mr_defs m A H), lookup_fmap, HA. cbn [fmap option_fmap option_map fst].
  pose proof (lives_depth defaultComparator h t _ _ _ _ tr Hlv) as Hd.
  assert (Ho : exists lo hi, ordered defaultComparator lo hi tr) by (exists None, None; apply Hlv).
  destruct (left_most_first defaultComparator h (heap t) None None tr (fuel t) (lv_repr _ _ _ _ _ _ _ Hlv) Ho ltac:(unfold fuel; lia)) as [_ E].
  unfold height. rewrite <- Hp, E. cbn [mbind option_bind]. rewrite Hs. reflexivity.
Qed.

(** ** What the names and the trees do not distinguish *)

Definition index_def (db coll n : bytes) (u : bool) : IndexDefinition := mkDefinition n coll db BTREE [mkField (str "f") ASCENDING false] u false [].

(** Names joined with dots: an index of collection [c] of database [a.b] is also one of collection [b.c] of database [a]. *)
Example index_names_collide :
  indexExists (createIndex manager_new (index_def (str "a.b") (str "c") (str "n") false)).2 (str "a") (str "b.c") (str "n") = true /\
  (createIndex (createIndex manager_new (index_def (str "a.b") (str "c") (str "n") false)).2 (index_def (str "a") (str "b.c") (str "n") false)).1 = false.
Proof. split; vm_compute; reflexivity. Qed.

(** Two documents with the same key: the second insertion succeeds and the first document is no longer found, in an index that is unique as in one that is not. *)
Example second_document_hides_first u :
  (fun x => x.1) <$> manager_run manager_new
    [RCreate (index_def (str "a") (str "c") (str "n") u); RInsert (str "a") (str "c") (str "n") (str "k") (str "doc1");
     RInsert (str "a") (str "c") (str "n") (str "k") (str "doc2"); RLookup (str "a") (str "c") (str "n") (str "k")] =
  Some [RBool true; RBool true; RBool true; RIds [str "doc2"]].
Proof. destruct u; vm_compute; reflexivity. Qed.

(** [dropIndex] of an index that does not exist succeeds. *)
Example drop_unknown_index : (dropIndex manager_new (str "a") (str "c") (str "n")).1 = true.
Proof. reflexivity. Qed.

(** [bulkLoad] of any entry waits for the mutex it holds. *)
Example bulkLoad_never_returns {K V} (comparator : K -> K -> Z) (t : @bptree K V) k v rest : bulkLoad comparator t ((k, v) :: rest) = None.
Proof. reflexivity. Qed.
