(* ===== verification/Float64.v ===== *)
(** * Doubles

    A [double] is its IEEE-754 binary64 pattern, as in [JFloat]; its value is a
    [spec_float], and arithmetic and comparison are those of the format, rounding
    to nearest even. *)

From S2P Require Import Prelude Msgpack.
From stdpp Require Import base list.
From Stdlib Require Import ZArith Lia.
From Stdlib Require Import SpecFloat.

Open Scope Z_scope.

Abbreviation double := spec_float.

(** The value of a pattern. *)
Definition double_of_bits (b : Z) : double :=
  let s := f64_sign b =? 1 in
  let e := f64_exp b in
  let m := f64_mant b in
  if e =? 2047 then (if m =? 0 then S754_infinity s else S754_nan)
  else if e =? 0 then match m with Zpos p => S754_finite s p (-1074) | _ => S754_zero s end
  else match m + 2 ^ 52 with Zpos p => S754_finite s p (e - 1075) | _ => S754_zero s end.

(** [static_cast<double>] of an integer. *)
Definition double_of_int (z : Z) : double := binary_normalize 53 1024 z 0 false.

Definition dadd : double -> double -> double := SFadd 53 1024.
Definition dsub : double -> double -> double := SFsub 53 1024.
Definition dmul : double -> double -> double := SFmul 53 1024.
Definition ddiv : double -> double -> double := SFdiv 53 1024.
Definition dsqrt : double -> double := SFsqrt 53 1024.
Definition deq (x y : double) : bool := SFeqb x y.
Definition dlt (x y : double) : bool := SFltb x y.
Definition dle (x y : double) : bool := SFleb x y.
Definition is_nan (x : double) : bool := match x with S754_nan => true | _ => false end.

(** ** Comparison *)

Lemma compare_swap x y : SFcompare y x = CompOpp <$> SFcompare x y.
Proof.
  destruct x as [sx|sx| |sx mx ex], y as [sy|sy| |sy my ey]; cbn; try (destruct sx; reflexivity); try (destruct sy; reflexivity); try reflexivity;
    try (destruct sx, sy; reflexivity).
  destruct sx, sy; cbn; try reflexivity; rewrite (Z.compare_antisym ex ey); destruct (ex ?= ey) eqn:E; cbn; try reflexivity;
    rewrite (Pos.compare_cont_antisym mx my Eq); destruct (Pos.compare_cont Eq mx my); reflexivity.
Qed.

Lemma compare_some x y : is_nan x = false -> is_nan y = false -> is_Some (SFcompare x y).
Proof.
  destruct x as [[]|[]| |[]], y as [[]|[]| |[]]; cbn; try discriminate; intros _ _; try (eexists; reflexivity); destruct (_ ?= _); eexists; reflexivity.
Qed.

Lemma deq_sym x y : deq x y = deq y x.
Proof. unfold deq, SFeqb. rewrite (compare_swap x y). destruct (SFcompare x y) as [[]|]; reflexivity. Qed.

Lemma deq_refl x : is_nan x = false -> deq x x = true.
Proof.
  unfold deq, SFeqb. destruct x as [[]|[]| |[] m e]; try discriminate; cbn; try reflexivity; rewrite Z.compare_refl; rewrite Pos.compare_cont_refl; reflexivity.
Qed.

(** Of two numbers either one is smaller or they are equal. *)
Lemma dlt_dle x y : is_nan x = false -> is_nan y = false -> dle x y = negb (dlt y x).
Proof.
  intros Hx Hy. unfold dle, dlt, SFleb, SFltb. destruct (compare_some x y Hx Hy) as [c E]. rewrite (compare_swap x y), E. destruct c; reflexivity.
Qed.

Lemma dle_cases x y : dle x y = dlt x y || deq x y.
Proof. unfold dle, dlt, deq, SFleb, SFltb, SFeqb. destruct (SFcompare x y) as [[]|]; reflexivity. Qed.

Example double_samples : (* 1.5 + 2.25 = 3.75; 2^53 + 1 is rounded *)
  dadd (double_of_bits 0x3FF8000000000000) (double_of_bits 0x4002000000000000) = double_of_bits 0x400E000000000000 /\
  deq (double_of_int (2 ^ 53)) (double_of_int (2 ^ 53 + 1)) = true.
Proof. split; vm_compute; reflexivity. Qed.
