(* ===== verification/JsonCompare.v ===== *)
(** * Comparing JSON values (nlohmann [operator==] and [get<T>])

    Numbers of different kinds are compared after a conversion: to [double] when
    one of them is a [double], else to [int64_t].  Arrays and objects are compared
    element by element. *)

From S2P Require Import Prelude Json Msgpack JsonValue Float64.
From stdpp Require Import base list strings.
From Stdlib Require Import ZArith Lia.

Open Scope Z_scope.

Definition is_number (j : json) : bool := match j with JInt _ | JUInt _ | JFloat _ => true | _ => false end.
Definition is_array (j : json) : bool := match j with JArray _ => true | _ => false end.
Definition is_number_float (j : json) : bool := match j with JFloat _ => true | _ => false end.

(** [get<double>()]. *)
Definition as_double (j : json) : option double :=
  match j with
  | JInt z | JUInt z => Some (double_of_int z)
  | JFloat b => Some (double_of_bits b)
  | _ => None
  end.

(** [get<int>()] and [get<long long>()] take any number and a boolean; a [double] is truncated, which out of range
    is undefined and an error here. *)
Definition in_signed (w z : Z) : option Z := if (- 2 ^ (w - 1) <=? z) && (z <? 2 ^ (w - 1)) then Some z else None.

Definition as_i32 (j : json) : option Z :=
  match j with
  | JInt z | JUInt z => Some (to_signed 32 (u32 z))
  | JFloat b => z ← f64_trunc b; in_signed 32 z
  | JBool b => Some (if b then 1 else 0)
  | _ => None
  end.

Definition as_i64 (j : json) : option Z :=
  match j with
  | JInt z => Some z
  | JUInt z => Some (to_signed 64 z)
  | JFloat b => z ← f64_trunc b; in_signed 64 z
  | JBool b => Some (if b then 1 else 0)
  | _ => None
  end.

(** ** [operator==] *)

Fixpoint json_eqb (a b : json) {struct a} : bool :=
  match a, b with
  | JNull, JNull => true
  | JBool x, JBool y => Bool.eqb x y
  | JString x, JString y => bytes_eqb x y
  | JBinary s x, JBinary t y => bool_decide (s = t) && bytes_eqb x y
  | JInt x, JInt y | JUInt x, JUInt y => x =? y
  | JInt x, JUInt y => x =? to_signed 64 y
  | JUInt x, JInt y => to_signed 64 x =? y
  | JFloat x, JFloat y => deq (double_of_bits x) (double_of_bits y)
  | JInt x, JFloat y | JUInt x, JFloat y => deq (double_of_int x) (double_of_bits y)
  | JFloat x, JInt y | JFloat x, JUInt y => deq (double_of_bits x) (double_of_int y)
  | JArray x, JArray y =>
      (fix go (x y : list json) : bool := match x, y with
       | [], [] => true
       | v :: x, w :: y => json_eqb v w && go x y
       | _, _ => false
       end) x y
  | JObject x, JObject y =>
      (fix go (x y : list (bytes * json)) : bool := match x, y with
       | [], [] => true
       | (k, v) :: x, (l, w) :: y => bytes_eqb k l && json_eqb v w && go x y
       | _, _ => false
       end) x y
  | _, _ => false
  end.

Fixpoint all2 {A} (f : A -> A -> bool) (x y : list A) : bool :=
  match x, y with
  | [], [] => true
  | v :: x, w :: y => f v w && all2 f x y
  | _, _ => false
  end.

Lemma json_eqb_array x y : json_eqb (JArray x) (JArray y) = all2 json_eqb x y.
Proof. cbn [json_eqb]. revert y. induction x as [|v x IH]; intros [|w y]; cbn; try reflexivity. rewrite IH. reflexivity. Qed.

Lemma json_eqb_object x y : json_eqb (JObject x) (JObject y) = all2 (fun v w => bytes_eqb v.1 w.1 && json_eqb v.2 w.2) x y.
Proof. cbn [json_eqb]. revert y. induction x as [|[k v] x IH]; intros [|[l w] y]; cbn; try reflexivity. rewrite IH. reflexivity. Qed.

Lemma bytes_eqb_sym a b : bytes_eqb a b = bytes_eqb b a.
Proof. unfold bytes_eqb. apply bool_decide_ext. split; congruence. Qed.

Lemma json_eqb_sym a : forall b, json_eqb a b = json_eqb b a.
Proof.
  induction a as [| | | | |s|o s|l Hl|m Hm] using json_ind'; intros [| | | | |s'|o' s'|l'|m']; try reflexivity; try (cbn [json_eqb]; try apply Z.eqb_sym; try apply deq_sym; fail).
  - destruct b, b0; reflexivity.
  - apply bytes_eqb_sym.
  - cbn [json_eqb]. rewrite (bytes_eqb_sym s s'). f_equal. apply bool_decide_ext. split; congruence.
  - rewrite !json_eqb_array. revert l'. induction Hl as [|v l Hv _ IH]; intros [|w l']; cbn [all2]; try reflexivity. rewrite Hv, IH. reflexivity.
  - rewrite !json_eqb_object. revert m'. induction Hm as [|[k v] m Hv _ IH]; intros [|[k' w] m']; cbn [all2 fst snd]; try reflexivity. rewrite bytes_eqb_sym, Hv, IH. reflexivity.
Qed.

(** Values without a NaN inside. *)
Fixpoint nan_free (j : json) : bool :=
  match j with
  | JFloat b => negb (is_nan (double_of_bits b))
  | JArray l => (fix go (l : list json) : bool := match l with [] => true | v :: l => nan_free v && go l end) l
  | JObject m => (fix go (m : list (bytes * json)) : bool := match m with [] => true | (_, v) :: m => nan_free v && go m end) m
  | _ => true
  end.

Lemma json_eqb_refl a : nan_free a = true -> json_eqb a a = true.
Proof.
  induction a as [|b|z|z|z|s|o s|l Hl|m Hm] using json_ind'; intros H.
  - reflexivity.
  - destruct b; reflexivity.
  - apply Z.eqb_refl.
  - apply Z.eqb_refl.
  - apply deq_refl. apply negb_true_iff. exact H.
  - apply bytes_eqb_refl.
  - cbn [json_eqb]. rewrite bytes_eqb_refl, bool_decide_eq_true_2 by reflexivity. reflexivity.
  - rewrite json_eqb_array. cbn [nan_free] in H. induction Hl as [|v l Hv _ IH]; [reflexivity|]. apply andb_true_iff in H as [H1 H2]. cbn [all2]. rewrite Hv, IH by assumption. reflexivity.
  - rewrite json_eqb_object. cbn [nan_free] in H. induction Hm as [|[k v] m Hv _ IH]; [reflexivity|]. apply andb_true_iff in H as [H1 H2]. cbn [all2 fst snd] in *.
    rewrite bytes_eqb_refl, Hv, IH by assumption. reflexivity.
Qed.
