(* ===== verification/Query.v ===== *)
(** * Queries (query.hpp, query_parser.cpp)

    [parseQuery] turns a JSON filter into a tree of nodes, [evalQuery] decides
    whether a document satisfies it; [validateQuery] and [analyzeQuery] estimate
    its cost and its plan.  RE2 and the conversion of text to a [double] are
    parameters. *)

From S2P Require Import Prelude Json Msgpack JsonValue Float64 JsonCompare.
From stdpp Require Import base list strings gmap.
From Stdlib Require Import ZArith Lia.

Open Scope Z_scope.

(** RE2 and [std::stod]: the error of a pattern that does not compile, a match
    anywhere in a text, and the value of a numeral. *)
Class QueryLib := {
  re2_error : bytes -> bool -> option bytes;
  re2_partial_match : bytes -> bool -> bytes -> bool;
  stod : bytes -> option double;
}.

Section Query.
Context `{QL : QueryLib} `{JT : JsonText}.

(** ** Regular expressions *)

Definition MAX_REGEX_CACHE : nat := 100.
Definition MAX_REGEX_PATTERN_BYTES : Z := 4096.

(** The checks and the compilation, without the cache; the result says whether case matters. *)
Definition getOrCompileRegex (pattern options : bytes) : result bool :=
  if MAX_REGEX_PATTERN_BYTES <? blen pattern then Err "$regex pattern exceeds 4096 bytes"
  else if negb (bytes_eqb options []) && negb (bytes_eqb options (str "i")) then Err "$regex supports only the i option"
  else
    let case_sensitive := bytes_eqb options [] in
    match re2_error pattern case_sensitive with
    | Some _ => Err "invalid $regex pattern"
    | None => Ok case_sensitive
    end.

(** A compiled expression: its pattern and whether case matters. *)
Record compiled := mkCompiled { rx_pattern : bytes; rx_case : bool }.

Definition cacheKey (pattern options : bytes) : bytes := pattern ++ str "|" ++ options.

(** With the cache; [victim] is the entry [erase(begin())] removes. *)
Definition getOrCompileRegex_cached (victim : gmap bytes compiled -> bytes) (cache : gmap bytes compiled) (pattern options : bytes)
  : result compiled * gmap bytes compiled :=
  if MAX_REGEX_PATTERN_BYTES <? blen pattern then (Err "$regex pattern exceeds 4096 bytes", cache)
  else if negb (bytes_eqb options []) && negb (bytes_eqb options (str "i")) then (Err "$regex supports only the i option", cache)
  else
    match cache !! cacheKey pattern options with
    | Some re => (Ok re, cache)
    | None =>
        let case_sensitive := bytes_eqb options [] in
        match re2_error pattern case_sensitive with
        | Some _ => (Err "invalid $regex pattern", cache)
        | None =>
            let cache := if (MAX_REGEX_CACHE <=? size cache)%nat then delete (victim cache) cache else cache in
            let re := mkCompiled pattern case_sensitive in
            (Ok re, <[cacheKey pattern options := re]> cache)
        end
    end.

(** ** Vectors *)

Definition nan_double : double := double_of_bits 0x7FF8000000000000.
Definition zero_double : double := double_of_int 0.
Definition one_double : double := double_of_int 1.

(** [a.size() != b.size() || a.empty()]. *)
Definition incomparable (a b : list double) : bool := negb (length a =? length b)%nat || (length a =? 0)%nat.

Definition dotProduct (a b : list double) : double :=
  if incomparable a b then nan_double
  else fold_left (fun sum xy => dadd sum (dmul xy.1 xy.2)) (zip a b) zero_double.

Definition magnitude (v : list double) : double :=
  dsqrt (fold_left (fun sum x => dadd sum (dmul x x)) v zero_double).

(** [1e-10]. *)
Definition tiny : double := double_of_bits 0x3DDB7CDFD9D7BDBB.

Definition cosineSimilarity (a b : list double) : double :=
  if incomparable a b then nan_double
  else
    let dot := dotProduct a b in
    let magA := magnitude a in
    let magB := magnitude b in
    if dlt magA tiny || dlt magB tiny then zero_double else ddiv dot (dmul magA magB).

Definition euclideanDistance (a b : list double) : double :=
  if incomparable a b then nan_double
  else dsqrt (fold_left (fun sum xy => let d := dsub xy.1 xy.2 in dadd sum (dmul d d)) (zip a b) zero_double).

(** Elements that are neither numbers nor strings are skipped. *)
Definition jsonToVector (jvec : json) : list double :=
  match jvec with
  | JArray l => flat_map (fun x => match as_double x with
                                   | Some d => [d]
                                   | None => match x with
                                             | JString s => [match stod s with Some d => d | None => zero_double end]
                                             | _ => []
                                             end
                                   end) l
  | _ => []
  end.

(** ** Types of values *)

Definition getJsonTypeName (val : json) : bytes :=
  match val with
  | JNull => str "null"
  | JBool _ => str "bool"
  | JInt _ | JUInt _ => str "int"
  | JFloat _ => str "double"
  | JString _ => str "string"
  | JArray _ => str "array"
  | JObject _ => str "object"
  | JBinary _ _ => str "unknown"
  end.

Definition getJsonTypeCode (val : json) : Z :=
  match val with
  | JFloat _ => 1
  | JString _ => 2
  | JObject _ => 3
  | JArray _ => 4
  | JBool _ => 8
  | JNull => 10
  | JInt _ | JUInt _ => 16
  | JBinary _ _ => -1
  end.

(** ** Nodes *)

Inductive NodeType :=
| ALWAYS_FALSE | MATCH_ALL | INVALID
| AND | OR | NOT | NOR
| EQ | NE | GT | GTE | LT | LTE
| IN | NIN | ALL | SIZE | ELEM_MATCH
| EXISTS | TYPE
| REGEX | TEXT
| VECTOR_SEARCH | GEO_NEAR | GEO_WITHIN.

#[global] Instance NodeType_eq : EqDecision NodeType.
Proof. solve_decision. Defined.

Inductive QueryNode := mkQuery {
  q_type : NodeType; q_field : bytes; q_value : json; q_children : list QueryNode;
  regexPattern : bytes; regexOptions : bytes;
  queryVector : list double; vectorThreshold : double; vectorMetric : bytes; vectorTopK : Z }.

(** [0.8]. *)
Definition default_threshold : double := double_of_bits 0x3FE999999999999A.

(** A node with the defaults of the struct for the rest. *)
Definition qnode (type : NodeType) (field : bytes) (val : json) (children : list QueryNode) : QueryNode :=
  mkQuery type field val children [] [] [] default_threshold (str "cosine") 10.

(** ** Parsing *)

Fixpoint map_result {A B} (f : A -> result B) (l : list A) : result (list B) :=
  match l with
  | [] => Ok []
  | x :: l => y ← f x; ys ← map_result f l; Ok (y :: ys)
  end.

Definition nonempty_object (j : json) : bool := match j with JObject (_ :: _) => true | _ => false end.

(** Operators whose value is kept as it is. *)
Definition plain_operators : list (bytes * NodeType) :=
  [(str "$eq", EQ); (str "$ne", NE); (str "$gt", GT); (str "$gte", GTE); (str "$lt", LT); (str "$lte", LTE)].
Definition array_operators : list (bytes * NodeType) := [(str "$in", IN); (str "$nin", NIN); (str "$all", ALL)].

(** The first operator of the table the object has. *)
Fixpoint find_operator (ops : list (bytes * NodeType)) (m : object) : option (NodeType * json) :=
  match ops with
  | [] => None
  | (name, t) :: rest => match obj_find name m with Some v => Some (t, v) | None => find_operator rest m end
  end.

(** [{ $vectorSearch: ... }]. *)
Definition parse_vector (vsearch : json) : result QueryNode :=
  field ← value as_string vsearch (str "field") (str "vector");
  vec ← value Some vsearch (str "queryVector") (JArray []);
  threshold ← value as_double vsearch (str "threshold") default_threshold;
  metric ← value as_string vsearch (str "metric") (str "cosine");
  topK ← value as_i32 vsearch (str "topK") 10;
  Ok (mkQuery VECTOR_SEARCH field JNull [] [] [] (jsonToVector vec) threshold metric topK).

(** [{ field: { $regex: ..., $options: ... , ... } }]. *)
Definition parse_regex (parse : json -> result QueryNode) (field : bytes) (vobj : object) (rx : json) : result QueryNode :=
  let options := obj_find (str "$options") vobj in
  match as_string rx, match options with Some o => as_string o | None => Some [] end with
  | Some pattern, Some opts =>
      let regexFields := match options with Some _ => 2%nat | None => 1%nat end in
      if (regexFields <? length vobj)%nat then
        let regexObject := match options with Some o => obj_insert (str "$options") o [(str "$regex", rx)] | None => [(str "$regex", rx)] end in
        first ← parse (JObject [(field, JObject regexObject)]);
        rest ← map_result (fun kv => parse (JObject [(field, JObject [kv])]))
                 (List.filter (fun kv => negb (bytes_eqb kv.1 (str "$regex")) && negb (bytes_eqb kv.1 (str "$options"))) vobj);
        Ok (qnode AND field (JObject vobj) (first :: rest))
      else
        _ ← getOrCompileRegex pattern opts;
        Ok (mkQuery REGEX field (JObject vobj) [] pattern opts [] default_threshold (str "cosine") 10)
  | _, _ => Err "invalid $regex expression"
  end.

(** An object with at most one operator. *)
Definition parse_operator (parse : json -> result QueryNode) (field : bytes) (vobj : object) : result QueryNode :=
  let val := JObject vobj in
  match find_operator plain_operators vobj with
  | Some (t, v) => Ok (qnode t field v [])
  | None =>
  match find_operator array_operators vobj with
  | Some (t, v) => if is_array v then Ok (qnode t field v []) else Ok (qnode INVALID field val [])
  | None =>
  match obj_find (str "$size") vobj with
  | Some v => Ok (qnode SIZE field v [])
  | None =>
  match obj_find (str "$elemMatch") vobj with
  | Some v => c ← parse v; Ok (qnode ELEM_MATCH field val [c])
  | None =>
  match obj_find (str "$exists") vobj with
  | Some v => Ok (qnode EXISTS field v [])
  | None =>
  match obj_find (str "$type") vobj with
  | Some v => Ok (qnode TYPE field v [])
  | None =>
  match obj_find (str "$text") vobj with
  | Some v => s ← value as_string v (str "$search") []; Ok (qnode TEXT field (JString s) [])
  | None =>
  match obj_find (str "$not") vobj with
  | Some v => c ← parse (JObject [(field, v)]); Ok (qnode NOT [] val [c])
  | None => Ok (qnode EQ field val [])
  end end end end end end end end.

(** [{ field: val }]. *)
Definition parse_field (parse : json -> result QueryNode) (field : bytes) (val : json) : result QueryNode :=
  match val with
  | JObject vobj =>
      match obj_find (str "$regex") vobj with
      | Some rx => parse_regex parse field vobj rx
      | None =>
          if (1 <? length vobj)%nat then
            cs ← map_result (fun kv => parse (JObject [(field, JObject [kv])])) vobj;
            Ok (qnode AND field val cs)
          else parse_operator parse field vobj
      end
  | _ => Ok (qnode EQ field val [])
  end.

Definition invalid : QueryNode := qnode INVALID [] JNull [].

(** The body of [parseQuery], with its recursive calls. *)
Definition parse_filter (parse : json -> result QueryNode) (filter : json) : result QueryNode :=
  match filter with
  | JNull | JObject [] => Ok (qnode MATCH_ALL [] JNull [])
  | JObject m =>
      match obj_find (str "$or") m with
      | Some (JArray l) =>
          cs ← map_result parse (List.filter nonempty_object l);
          Ok (qnode (match cs with [] => ALWAYS_FALSE | _ => OR end) [] JNull cs)
      | Some _ => Ok invalid
      | None =>
      match obj_find (str "$and") m with
      | Some (JArray l) => cs ← map_result parse l; Ok (qnode AND [] JNull cs)
      | Some _ => Ok invalid
      | None =>
      match obj_find (str "$nor") m with
      | Some (JArray l) => cs ← map_result parse l; Ok (qnode NOR [] JNull cs)
      | Some _ => Ok invalid
      | None =>
      match obj_find (str "$not") m with
      | Some v => c ← parse v; Ok (qnode NOT [] JNull [c])
      | None =>
      match obj_find (str "$vectorSearch") m with
      | Some v => parse_vector v
      | None =>
          match m with
          | [(field, val)] => parse_field parse field val
          | _ => cs ← map_result (fun kv => parse (JObject [kv])) m; Ok (qnode AND [] JNull cs)
          end
      end end end end end
  | _ => Ok invalid
  end.

Fixpoint parse_fuel (fuel : nat) (filter : json) : result QueryNode :=
  match fuel with
  | O => Err "fuel"
  | S fuel => parse_filter (parse_fuel fuel) filter
  end.

Fixpoint sum_sizes (l : list nat) : nat := match l with [] => O | x :: l => (x + sum_sizes l)%nat end.

(** The number of values in a value; every recursive call is on a smaller filter. *)
Fixpoint json_size (j : json) : nat :=
  match j with
  | JArray l => S (sum_sizes (map json_size l))
  | JObject m => S (sum_sizes (map (fun kv => S (json_size kv.2)) m))
  | _ => 1
  end.

Definition parseQuery (filter : json) : result QueryNode := parse_fuel (json_size filter) filter.

(** ** Evaluation *)

(** The parts of a path, split at dots. *)
Fixpoint path_parts (acc path : bytes) : list bytes :=
  match path with
  | [] => [acc]
  | c :: path => if bool_decide (c = byte_of (46)) then acc :: path_parts [] path else path_parts (acc ++ [c]) path
  end.

(** From [current] along all parts but the last: the value where the last part is looked up. *)
Fixpoint descend (current : json) (parts : list bytes) : option (json * bytes) :=
  match parts with
  | [] => None
  | [last] => Some (current, last)
  | part :: rest => v ← json_find part current; descend v rest
  end.

Definition should_exist (j : json) : bool := match j with JBool b => b | _ => true end.

(** [a > b], [a >= b], [a < b], [a <= b] from the order of [double] or of [std::string]. *)
Definition order_holds {A} (lt le : A -> A -> bool) (t : NodeType) (a b : A) : bool :=
  match t with
  | GT => lt b a
  | GTE => le b a
  | LT => lt a b
  | LTE => le a b
  | _ => false
  end.

(** The text a value is compared by: itself, or its JSON. *)
Definition compare_text (j : json) : option bytes := match j with JString s => Some s | j => json_dump j end.

Definition match_order (t : NodeType) (dv val : json) : bool :=
  match as_double dv, as_double val with
  | Some a, Some b => order_holds dlt dle t a b
  | _, _ =>
      match dv, val with
      | JString a, JString b => order_holds bytes_ltb bytes_leb t a b
      | _, _ =>
          match compare_text dv, compare_text val with
          | Some a, Some b => order_holds bytes_ltb bytes_leb t a b
          | _, _ => false
          end
      end
  end.

(** Equal to an element of the list, or an array with an element of the list. *)
Definition in_values (dv : json) (vals : list json) : bool :=
  existsb (json_eqb dv) vals ||
  match dv with JArray items => existsb (fun docItem => existsb (json_eqb docItem) vals) items | _ => false end.

(** [::tolower] in the C locale. *)
Definition lower_byte (b : byte) : byte := let z := byte_val b in if (65 <=? z) && (z <=? 90) then byte_of (z + 32) else b.

(** [text.find(term) != npos]. *)
Fixpoint contains_text (text term : bytes) : bool :=
  bytes_eqb (take (length term) text) term || match text with [] => false | _ :: text => contains_text text term end.

(** The value of the field against the operator; an exception is caught and is no match. *)
Definition match_value (node : QueryNode) (dv : json) : bool :=
  match q_type node with
  | EQ => json_eqb dv (q_value node)
  | NE => negb (json_eqb dv (q_value node))
  | GT | GTE | LT | LTE => match_order (q_type node) dv (q_value node)
  | IN => match q_value node with JArray vals => in_values dv vals | _ => false end
  | NIN => match q_value node with JArray vals => negb (in_values dv vals) | _ => true end
  | ALL => match dv, q_value node with
           | JArray items, JArray vals => forallb (fun required => existsb (fun docItem => json_eqb docItem required) items) vals
           | _, _ => false
           end
  | SIZE => match dv with
            | JArray items => match (if is_number (q_value node) then as_i32 (q_value node) else Some (-1)) with
                              | Some expectedSize => to_signed 32 (u32 (Z.of_nat (length items))) =? expectedSize
                              | None => false
                              end
            | _ => false
            end
  | TYPE => match q_value node with
            | JString typeName => bytes_eqb (getJsonTypeName dv) typeName
            | v => if is_number v then match as_i32 v with Some typeCode => getJsonTypeCode dv =? typeCode | None => false end else false
            end
  | REGEX => match dv with
             | JString text => match getOrCompileRegex (regexPattern node) (regexOptions node) with
                               | Ok case_sensitive => re2_partial_match (regexPattern node) case_sensitive text
                               | Err _ => false
                               end
             | _ => false
             end
  | TEXT => match dv, q_value node with
            | JString docText, JString searchTerm => contains_text (map lower_byte docText) (map lower_byte searchTerm)
            | _, _ => false
            end
  | _ => false
  end.

Definition is_exists (t : NodeType) : bool := match t with EXISTS => true | _ => false end.

Definition matchField (node : QueryNode) (doc : json) : bool :=
  match descend doc (path_parts [] (q_field node)) with
  | None => is_exists (q_type node) && negb (should_exist (q_value node))
  | Some (current, last) =>
      let found := json_find last current in
      if is_exists (q_type node) then Bool.eqb (match found with Some _ => true | None => false end) (should_exist (q_value node))
      else match found with Some dv => match_value node dv | None => false end
  end.

Definition match_vector (node : QueryNode) (doc : json) : bool :=
  match queryVector node with
  | [] => false
  | _ =>
      match json_find (q_field node) doc with
      | None => false
      | Some v =>
          match jsonToVector v with
          | [] => false
          | docVector =>
              let similarity :=
                if bytes_eqb (vectorMetric node) (str "cosine") then cosineSimilarity (queryVector node) docVector
                else if bytes_eqb (vectorMetric node) (str "euclidean") then
                  ddiv one_double (dadd one_double (euclideanDistance (queryVector node) docVector))
                else if bytes_eqb (vectorMetric node) (str "dot_product") then dotProduct (queryVector node) docVector
                else cosineSimilarity (queryVector node) docVector in
              if is_nan similarity then false else dle (vectorThreshold node) similarity
          end
      end
  end.

Fixpoint evalQuery (node : QueryNode) (doc : json) {struct node} : bool :=
  match q_type node with
  | MATCH_ALL => true
  | ALWAYS_FALSE | INVALID => false
  | EQ | NE | GT | GTE | LT | LTE | IN | NIN | ALL | SIZE | EXISTS | TYPE | REGEX | TEXT => matchField node doc
  | ELEM_MATCH =>
      match q_children node with
      | [] => false
      | c :: _ => match json_find (q_field node) doc with
                  | Some (JArray items) => existsb (evalQuery c) items
                  | _ => false
                  end
      end
  | AND => forallb (fun c => evalQuery c doc) (q_children node)
  | OR => existsb (fun c => evalQuery c doc) (q_children node)
  | NOT => match q_children node with [] => true | c :: _ => negb (evalQuery c doc) end
  | NOR => negb (existsb (fun c => evalQuery c doc) (q_children node))
  | VECTOR_SEARCH => match_vector node doc
  | GEO_NEAR | GEO_WITHIN => false
  end.

(** [DatabaseEngine::match]. *)
Definition json_empty (j : json) : bool := match j with JNull | JArray [] | JObject [] => true | _ => false end.

Definition db_match (doc filter : json) : result bool :=
  if json_empty filter then Ok true
  else q ← parseQuery filter; Ok (evalQuery q doc).

(** ** Validation *)

Record QueryValidationResult := mkValidation { valid : bool; v_error : string; warnings : list string; estimatedCost : Z }.

(** The checks of one member of an object: a warning and a cost each. *)
Definition check_key (key : bytes) (val : json) : list (string * Z) :=
  (if bytes_eqb key (str "$regex") then [("$regex may be slow without text index", 30)] else []) ++
  (match val with
   | JArray l => if bytes_eqb key (str "$or") && (5 <? length l)%nat then [("$or with many clauses may be slow", Z.of_nat (length l) * 5)] else []
   | _ => []
   end) ++
  (if bytes_eqb key (str "$nin") then [("$nin requires full collection scan", 40)] else []) ++
  (if bytes_eqb key (str "$not") || bytes_eqb key (str "$ne") then [("Negation operators may not use indexes efficiently", 15)] else []).

(** The warnings of a filter in the order they are found, with their costs. *)
Fixpoint checkNode (node : json) (depth : Z) {struct node} : list (string * Z) :=
  if 10 <? depth then [("Deep nesting detected (>10 levels) - may impact performance", 20)]
  else
    match node with
    | JObject m =>
        (fix members (m : list (bytes * json)) : list (string * Z) := match m with
         | [] => []
         | (key, val) :: m =>
             check_key key val ++
             match val with
             | JObject _ => checkNode val (depth + 1)
             | JArray l =>
                 (fix items (l : list json) : list (string * Z) := match l with
                  | [] => []
                  | item :: l => match item with JObject _ => checkNode item (depth + 1) | _ => [] end ++ items l
                  end) l
             | _ => []
             end ++ members m
         end) m
    | _ => []
    end.

Definition validateQuery (filter : json) : QueryValidationResult :=
  match filter with
  | JNull | JObject [] => mkValidation true "" ["Empty filter will scan all documents"] 100
  | JObject _ =>
      let found := checkNode filter 0 in
      let cost := fold_left (fun c w => c + w.2) found 10 in
      mkValidation true "" (map fst found) (if 100 <? cost then 100 else cost)
  | _ => mkValidation false "Filter must be an object" [] 10
  end.

(** ** Plans *)

Record QueryPlan := mkPlan { useIndex : bool; indexField : bytes; fullScan : bool; estimatedDocs : Z }.

Fixpoint findIndexableField (node : QueryNode) (plan : QueryPlan) {struct node} : QueryPlan :=
  let plan :=
    match q_type node with
    | EQ => if bytes_eqb (q_field node) (str "id") || bytes_eqb (q_field node) (str "_id") then mkPlan true (q_field node) false 1 else plan
    | _ => plan
    end in
  fold_left (fun plan child => findIndexableField child plan) (q_children node) plan.

Definition analyzeQuery (query : QueryNode) : QueryPlan := findIndexableField query (mkPlan false [] true (-1)).
End Query.
