(* ===== verification/QueryMeaning.v ===== *)
(** * What a query means (query_parser.cpp)

    Conditions on documents, the filters that express them, and the theorem that
    the engine evaluates the filter of a condition to its meaning. *)

From S2P Require Import Prelude Json Msgpack JsonValue Float64 JsonCompare Query.
From stdpp Require Import base list strings gmap sorting.
From Stdlib Require Import ZArith Lia.

Open Scope Z_scope.

Section Meaning.
Context `{QL : QueryLib} `{JT : JsonText}.

(** ** Parsing ends *)

Lemma map_result_ext {A B} (f g : A -> result B) l : (forall x, x ∈ l -> f x = g x) -> map_result f l = map_result g l.
Proof.
  induction l as [|x l IH]; intros H; cbn [map_result]; [reflexivity|]. rewrite (H x) by left. rewrite IH; [reflexivity|]. intros y Hy. apply H. right. exact Hy.
Qed.

Lemma sum_sizes_app a b : sum_sizes (a ++ b) = (sum_sizes a + sum_sizes b)%nat.
Proof. induction a as [|x a IH]; cbn [app sum_sizes]; [reflexivity|]. rewrite IH. lia. Qed.

Lemma sum_elem {A} (f : A -> nat) l x : x ∈ l -> (f x <= sum_sizes (map f l))%nat.
Proof. induction 1; cbn [map sum_sizes]; lia. Qed.

Lemma sum_filter {A} (f : A -> nat) (p : A -> bool) l : (sum_sizes (map f (List.filter p l)) <= sum_sizes (map f l))%nat.
Proof. induction l as [|x l IH]; cbn [List.filter map sum_sizes]; [lia|]. destruct (p x); cbn [map sum_sizes]; lia. Qed.

Lemma size_array l x : x ∈ l -> (json_size x < json_size (JArray l))%nat.
Proof. intros H. cbn [json_size]. pose proof (sum_elem json_size l x H). lia. Qed.

Lemma size_member (m : object) k v : (k, v) ∈ m -> (S (json_size v) < json_size (JObject m))%nat.
Proof. intros H. cbn [json_size]. pose proof (sum_elem (fun kv => S (json_size kv.2)) m (k, v) H). cbn in *. lia. Qed.

Lemma size_find (m : object) k v : obj_find k m = Some v -> (S (json_size v) < json_size (JObject m))%nat.
Proof. intros H. exact (size_member m k v (obj_find_Some_elem k m v H)). Qed.

(** One member of an object with several. *)
Lemma size_alone (m : object) kv : kv ∈ m -> (1 < length m)%nat -> (json_size (JObject [kv]) < json_size (JObject m))%nat.
Proof.
  intros H Hl. cbn [json_size map sum_sizes]. destruct kv as [k v]. cbn [snd].
  assert (Hs : (S (S (json_size v)) <= sum_sizes (map (fun kv => S (json_size kv.2)) m))%nat); [|lia].
  apply list_elem_of_split in H as (a & b & ->). rewrite map_app. cbn [map]. rewrite sum_sizes_app. cbn [sum_sizes snd].
  destruct a as [|[]], b as [|[]]; cbn in *; lia.
Qed.

Lemma size_alone_field (m : object) f kv : kv ∈ m -> (1 < length m)%nat -> (json_size (JObject [(f, JObject [kv])]) < json_size (JObject [(f, JObject m)]))%nat.
Proof. intros H Hl. pose proof (size_alone m kv H Hl). cbn [json_size map sum_sizes snd] in *. lia. Qed.

Lemma parse_operator_ext p q f m : (forall j, (json_size j < json_size (JObject [(f, JObject m)]))%nat -> p j = q j) -> parse_operator p f m = parse_operator q f m.
Proof.
  intros H. unfold parse_operator.
  assert (H1 : forall k v, obj_find k m = Some v -> p v = q v /\ p (JObject [(f, v)]) = q (JObject [(f, v)])).
  { intros k v Hf. pose proof (size_find m k v Hf). split; apply H; cbn [json_size map sum_sizes snd] in *; lia. }
  repeat match goal with |- context [match ?x with _ => _ end] => destruct x eqn:?; try reflexivity end;
    match goal with E : obj_find _ m = Some _ |- _ => destruct (H1 _ _ E) as [E1 E2]; rewrite ?E1, ?E2; reflexivity end.
Qed.

Lemma regex_object_size (m : object) f rx : obj_find (str "$regex") m = Some rx ->
  (match obj_find (str "$options") m with Some _ => 2 | None => 1 end < length m)%nat ->
  (json_size (JObject [(f, JObject (match obj_find (str "$options") m with Some o => obj_insert (str "$options") o [(str "$regex", rx)] | None => [(str "$regex", rx)] end))])
   < json_size (JObject [(f, JObject m)]))%nat.
Proof.
  intros Hr Hl. pose proof (obj_find_Some_elem _ _ _ Hr) as Hin. destruct (obj_find (str "$options") m) as [o|] eqn:Ho.
  - pose proof (obj_find_Some_elem _ _ _ Ho) as Hin'. change (obj_insert (str "$options") o [(str "$regex", rx)]) with [(str "$options", o); (str "$regex", rx)].
    assert (Hs : (S (S (json_size o)) + S (json_size rx) <= sum_sizes (map (fun kv => S (json_size kv.2)) m))%nat).
    { apply list_elem_of_split in Hin as (a & b & ->). rewrite map_app. cbn [map]. rewrite sum_sizes_app. cbn [sum_sizes snd].
      assert (Hab : (str "$options", o) ∈ a ++ b) by (rewrite elem_of_app in *; rewrite elem_of_cons in Hin'; destruct Hin' as [?|[[=]|?]]; auto).
      assert (Hs : (S (S (json_size o)) <= sum_sizes (map (fun kv => S (json_size kv.2)) (a ++ b)))%nat).
      { apply list_elem_of_split in Hab as (c & d & E). rewrite E. rewrite !length_app in Hl. cbn [length] in Hl. apply (f_equal length) in E as El. rewrite !length_app in El. cbn [length] in El.
        rewrite map_app. cbn [map]. rewrite sum_sizes_app. cbn [sum_sizes snd]. destruct c as [|[]], d as [|[]]; cbn in *; lia. }
      rewrite map_app, sum_sizes_app in Hs. lia. }
    cbn [json_size map sum_sizes snd]. lia.
  - exact (size_alone_field m f _ Hin Hl).
Qed.

Lemma parse_field_ext p q f v : (forall j, (json_size j < json_size (JObject [(f, v)]))%nat -> p j = q j) -> parse_field p f v = parse_field q f v.
Proof.
  intros H. destruct v as [| | | | | | | |m]; try reflexivity. cbn [parse_field]. destruct (obj_find (str "$regex") m) as [rx|] eqn:Er.
  - unfold parse_regex. destruct (as_string rx); [|reflexivity]. destruct (match obj_find (str "$options") m with Some o => as_string o | None => Some [] end); [|reflexivity].
    destruct (Nat.ltb_spec (match obj_find (str "$options") m with Some _ => 2 | None => 1 end)%nat (length m)) as [Hl|]; [|reflexivity].
    rewrite H by exact (regex_object_size m f rx Er Hl). destruct (q _); cbn [mbind result_bind]; [|reflexivity].
    rewrite (map_result_ext _ (fun kv => q (JObject [(f, JObject [kv])]))); [reflexivity|].
    intros kv Hin. apply H, size_alone_field; [|destruct (obj_find (str "$options") m); lia]. apply list_elem_of_In, filter_In in Hin as [Hin _]. apply list_elem_of_In, Hin.
  - destruct (Nat.ltb_spec 1 (length m)) as [Hl|_]; [|apply parse_operator_ext, H]. rewrite (map_result_ext _ (fun kv => q (JObject [(f, JObject [kv])]))); [reflexivity|].
    intros kv Hin. apply H, size_alone_field; assumption.
Qed.

Lemma parse_filter_ext p q j : (forall j', (json_size j' < json_size j)%nat -> p j' = q j') -> parse_filter p j = parse_filter q j.
Proof.
  intros H. destruct j as [| | | | | | | |m]; try reflexivity. destruct m as [|[f v] m]; [reflexivity|]. cbn [parse_filter]. set (mm := (f, v) :: m) in *.
  assert (Ha : forall k l, obj_find k mm = Some (JArray l) -> map_result p l = map_result q l).
  { intros k l Hk. apply map_result_ext. intros x Hx. apply H. pose proof (size_find mm k _ Hk). pose proof (size_array l x Hx). lia. }
  destruct (obj_find (str "$or") mm) as [[| | | | | | |l|]|] eqn:E1; try reflexivity.
  { rewrite (map_result_ext p q); [reflexivity|]. intros x Hx. apply list_elem_of_In, filter_In in Hx as [Hx _]. apply H.
    pose proof (size_find mm _ _ E1). pose proof (size_array l x ltac:(apply list_elem_of_In, Hx)). lia. }
  destruct (obj_find (str "$and") mm) as [[| | | | | | |l|]|] eqn:E2; try reflexivity; [rewrite (Ha _ l E2); reflexivity|].
  destruct (obj_find (str "$nor") mm) as [[| | | | | | |l|]|] eqn:E3; try reflexivity; [rewrite (Ha _ l E3); reflexivity|].
  destruct (obj_find (str "$not") mm) as [w|] eqn:E4; [rewrite H; [reflexivity|]; pose proof (size_find mm _ _ E4); lia|].
  destruct (obj_find (str "$vectorSearch") mm); [reflexivity|]. unfold mm. destruct m as [|kv m]; [apply parse_field_ext, H|].
  rewrite (map_result_ext _ (fun kv => q (JObject [kv]))); [reflexivity|]. intros x Hx. apply H, size_alone; [exact Hx|cbn; lia].
Qed.

Lemma parse_enough n : forall m j, (json_size j <= n)%nat -> (json_size j <= m)%nat -> parse_fuel n j = parse_fuel m j.
Proof.
  assert (Hpos : forall j, (0 < json_size j)%nat) by (intros []; cbn; lia).
  induction n as [|n IH]; intros [|m] j Hn Hm; try (pose proof (Hpos j); lia). cbn [parse_fuel]. apply parse_filter_ext. intros j' Hj. apply IH; lia.
Qed.

(** The recursive equation of [parseQuery]. *)
Lemma parseQuery_unfold j : parseQuery j = parse_filter parseQuery j.
Proof.
  unfold parseQuery. destruct (json_size j) as [|n] eqn:E; [destruct j; discriminate|]. cbn [parse_fuel]. apply parse_filter_ext. intros j' Hj. apply parse_enough; lia.
Qed.

(** ** Conditions *)

(** A test of the value of a field. *)
Inductive test :=
| Eq (v : json) | Ne (v : json)
| Gt (v : json) | Gte (v : json) | Lt (v : json) | Lte (v : json)
| In (vs : list json) | Nin (vs : list json) | All (vs : list json)
| Exists (b : bool)
| Text (term : bytes).

Definition op_name (t : test) : bytes :=
  match t with
  | Eq _ => str "$eq" | Ne _ => str "$ne" | Gt _ => str "$gt" | Gte _ => str "$gte" | Lt _ => str "$lt" | Lte _ => str "$lte"
  | In _ => str "$in" | Nin _ => str "$nin" | All _ => str "$all" | Exists _ => str "$exists" | Text _ => str "$text"
  end.

Definition op_value (t : test) : json :=
  match t with
  | Eq v | Ne v | Gt v | Gte v | Lt v | Lte v => v
  | In vs | Nin vs | All vs => JArray vs
  | Exists b => JBool b
  | Text term => JObject [(str "$search", JString term)]
  end.

(** The value at a path, if every object on the way has it. *)
Fixpoint at_path (j : json) (path : list bytes) : option json :=
  match path with
  | [] => Some j
  | part :: rest => v ← json_find part j; at_path v rest
  end.

Definition value_at (doc : json) (field : bytes) : option json := at_path doc (path_parts [] field).

(** A document that lacks the field satisfies no test but [$exists: false]. *)
Definition test_holds (t : test) (found : option json) : bool :=
  match t, found with
  | Exists b, _ => Bool.eqb (match found with Some _ => true | None => false end) b
  | _, None => false
  | Eq v, Some d => json_eqb d v
  | Ne v, Some d => negb (json_eqb d v)
  | Gt v, Some d => match_order GT d v
  | Gte v, Some d => match_order GTE d v
  | Lt v, Some d => match_order LT d v
  | Lte v, Some d => match_order LTE d v
  | In vs, Some d => in_values d vs
  | Nin vs, Some d => negb (in_values d vs)
  | All vs, Some d => match d with JArray items => forallb (fun v => existsb (fun i => json_eqb i v) items) vs | _ => false end
  | Text term, Some d => match d with JString s => contains_text (map lower_byte s) (map lower_byte term) | _ => false end
  end.

Inductive cond :=
| Fields (fs : list (bytes * list test))
| FieldNot (field : bytes) (ts : list test)
| Elem (field : bytes) (c : cond)
| And (cs : list cond)
| Or (cs : list cond)
| Nor (cs : list cond)
| Not (c : cond).

Fixpoint holds (c : cond) (doc : json) : bool :=
  match c with
  | Fields fs => forallb (fun ft => forallb (fun t => test_holds t (value_at doc ft.1)) ft.2) fs
  | FieldNot field ts => negb (forallb (fun t => test_holds t (value_at doc field)) ts)
  | Elem field c => match json_find field doc with Some (JArray items) => existsb (holds c) items | _ => false end
  | And cs => forallb (fun c => holds c doc) cs
  | Or cs => existsb (fun c => holds c doc) cs
  | Nor cs => negb (existsb (fun c => holds c doc) cs)
  | Not c => negb (holds c doc)
  end.

(** ** Filters *)

Definition ops_json (ts : list test) : json := JObject (map (fun t => (op_name t, op_value t)) ts).

Fixpoint filter_of (c : cond) : json :=
  match c with
  | Fields fs => JObject (map (fun ft => (ft.1, ops_json ft.2)) fs)
  | FieldNot field ts => JObject [(field, JObject [(str "$not", ops_json ts)])]
  | Elem field c => JObject [(field, JObject [(str "$elemMatch", filter_of c)])]
  | And cs => JObject [(str "$and", JArray (map filter_of cs))]
  | Or cs => JObject [(str "$or", JArray (map filter_of cs))]
  | Nor cs => JObject [(str "$nor", JArray (map filter_of cs))]
  | Not c => JObject [(str "$not", filter_of c)]
  end.

(** Names that are operators of a whole filter. *)
Definition reserved (f : bytes) : bool :=
  existsb (bytes_eqb f) [str "$or"; str "$and"; str "$nor"; str "$not"; str "$vectorSearch"].

Definition field_ok (f : bytes) (ts : list test) : Prop := reserved f = false /\ ts <> [].

(** Fields are not operators and have tests, the field of [$elemMatch] has no dot, and
    [$or] has no empty alternative. *)
Fixpoint cond_ok (c : cond) : Prop :=
  match c with
  | Fields fs => Forall (fun ft => field_ok ft.1 ft.2) fs
  | FieldNot field ts => field_ok field ts
  | Elem field c => (reserved field = false /\ path_parts [] field = [field]) /\ cond_ok c
  | And cs | Nor cs => (fix go (cs : list cond) : Prop := match cs with [] => True | c :: cs => cond_ok c /\ go cs end) cs
  | Or cs => (fix go (cs : list cond) : Prop := match cs with [] => True | c :: cs => (cond_ok c /\ c <> Fields []) /\ go cs end) cs
  | Not c => cond_ok c
  end.

(** ** Filters evaluate to their meaning *)

Definition evaluates (f : json) (b : json -> bool) : Prop := exists q, parseQuery f = Ok q /\ forall doc, evalQuery q doc = b doc.

Lemma map_result_map {A B C} (g : A -> B) (f : B -> result C) l : map_result f (map g l) = map_result (fun x => f (g x)) l.
Proof. induction l as [|x l IH]; cbn [map map_result]; [reflexivity|]. rewrite IH. reflexivity. Qed.

Lemma map_evaluates {A} (j : A -> json) (b : A -> json -> bool) xs : (forall x, x ∈ xs -> evaluates (j x) (b x)) ->
  exists cs, map_result (fun x => parseQuery (j x)) xs = Ok cs /\ length cs = length xs /\ forall doc,
    forallb (fun c => evalQuery c doc) cs = forallb (fun x => b x doc) xs /\ existsb (fun c => evalQuery c doc) cs = existsb (fun x => b x doc) xs.
Proof.
  induction xs as [|x xs IH]; intros H; [exists []; cbn; auto|]. destruct (H x ltac:(left)) as (q & E & Hq).
  destruct IH as (cs & E' & Hl & Hcs); [intros y Hy; apply H; right; exact Hy|]. exists (q :: cs). cbn [map_result length forallb existsb]. rewrite E. cbn [mbind result_bind]. rewrite E'.
  split; [reflexivity|]. split; [rewrite Hl; reflexivity|]. intros doc. destruct (Hcs doc) as [-> ->]. rewrite Hq. auto.
Qed.

Lemma find_last (part : bytes) j : json_find part j ≫= (fun v => Some v) = json_find part j.
Proof. destruct (json_find part j); reflexivity. Qed.

(** The loop of [matchField] finds the value at the path. *)
Lemma descend_at path : path <> [] -> forall j, at_path j path = match descend j path with Some (current, last) => json_find last current | None => None end.
Proof.
  induction path as [|part rest IH]; [congruence|]. intros _ j. cbn [at_path]. destruct rest as [|part' rest]; [apply find_last|].
  change (descend j (part :: part' :: rest)) with (v ← json_find part j; descend v (part' :: rest)). destruct (json_find part j) as [v|]; cbn [mbind option_bind]; [|reflexivity]. apply IH. discriminate.
Qed.

Lemma path_parts_nonempty path : forall acc, path_parts acc path <> [].
Proof. induction path as [|c path IH]; intros acc; cbn [path_parts]; [discriminate|]. destruct (bool_decide _); [discriminate|apply IH]. Qed.

Lemma matchField_at node doc : matchField node doc =
  if is_exists (q_type node) then Bool.eqb (match value_at doc (q_field node) with Some _ => true | None => false end) (should_exist (q_value node))
  else match value_at doc (q_field node) with Some dv => match_value node dv | None => false end.
Proof.
  unfold matchField, value_at. rewrite (descend_at _ (path_parts_nonempty _ _)). destruct (descend doc (path_parts [] (q_field node))) as [[current last]|]; [reflexivity|].
  destruct (is_exists (q_type node)); cbn [andb]; [|reflexivity]. destruct (should_exist (q_value node)); reflexivity.
Qed.

Lemma obj_find_one k f v : obj_find k [(f, v)] = if bytes_eqb f k then Some v else None.
Proof. reflexivity. Qed.

Lemma reserved_find f : reserved f = false -> forall k, k ∈ [str "$or"; str "$and"; str "$nor"; str "$not"; str "$vectorSearch"] -> bytes_eqb f k = false.
Proof.
  intros H k Hk. unfold reserved in H. rewrite <- not_true_iff_false in H |- *. intros E. apply H, existsb_exists. exists k. split; [apply list_elem_of_In, Hk|exact E].
Qed.

Lemma fields_find k fs : k ∈ [str "$or"; str "$and"; str "$nor"; str "$not"; str "$vectorSearch"] -> Forall (fun ft => field_ok ft.1 ft.2) fs ->
  obj_find k (map (fun ft => (ft.1, ops_json ft.2)) fs) = None.
Proof.
  intros Hk. induction 1 as [|[f ts] fs [Hf _] _ IH]; cbn [map obj_find fst snd] in *; [reflexivity|]. rewrite (reserved_find f Hf k Hk). exact IH.
Qed.

(** A filter with one field. *)
Lemma parse_one f v : reserved f = false -> parseQuery (JObject [(f, v)]) = parse_field parseQuery f v.
Proof.
  intros Hf. rewrite parseQuery_unfold. cbn [parse_filter]. rewrite !obj_find_one.
  rewrite !(reserved_find f Hf) by (rewrite ?elem_of_cons; tauto). reflexivity.
Qed.

Lemma test_evaluates f t : reserved f = false -> evaluates (JObject [(f, JObject [(op_name t, op_value t)])]) (fun doc => test_holds t (value_at doc f)).
Proof.
  intros Hf. unfold evaluates. rewrite (parse_one f _ Hf). destruct t; (eexists; split; [reflexivity|]); intros doc; cbn [evalQuery q_type qnode];
    rewrite matchField_at; cbn [q_type q_field q_value qnode is_exists should_exist test_holds]; destruct (value_at doc f); reflexivity.
Qed.

Lemma ops_no_regex ts : obj_find (str "$regex") (map (fun t => (op_name t, op_value t)) ts) = None.
Proof. induction ts as [|t ts IH]; [reflexivity|]. cbn [map obj_find]. replace (bytes_eqb (op_name t) (str "$regex")) with false by (destruct t; reflexivity). exact IH. Qed.

Lemma ops_evaluates f ts : field_ok f ts -> evaluates (JObject [(f, ops_json ts)]) (fun doc => forallb (fun t => test_holds t (value_at doc f)) ts).
Proof.
  intros [Hf Hts]. destruct ts as [|t [|t' ts]]; [congruence| |].
  - destruct (test_evaluates f t Hf) as (q & E & Hq). exists q. split; [exact E|]. intros doc. rewrite Hq. cbn [forallb]. rewrite andb_true_r. reflexivity.
  - unfold evaluates. rewrite (parse_one f _ Hf). unfold ops_json. cbn [parse_field]. rewrite ops_no_regex, length_map. cbn [length Nat.ltb Nat.leb]. rewrite map_result_map.
    destruct (map_evaluates (fun t => JObject [(f, JObject [(op_name t, op_value t)])]) (fun t doc => test_holds t (value_at doc f)) (t :: t' :: ts)) as (cs & E & _ & Hcs); [intros x _; apply test_evaluates, Hf|].
    rewrite E. eexists. split; [reflexivity|]. intros doc. cbn [evalQuery q_type q_children qnode]. apply Hcs.
Qed.

(** ** All conditions *)

Section CondInd.
Variable P : cond -> Prop.
Hypothesis HFields : forall fs, P (Fields fs).
Hypothesis HFieldNot : forall f ts, P (FieldNot f ts).
Hypothesis HElem : forall f c, P c -> P (Elem f c).
Hypothesis HAnd : forall cs, Forall P cs -> P (And cs).
Hypothesis HOr : forall cs, Forall P cs -> P (Or cs).
Hypothesis HNor : forall cs, Forall P cs -> P (Nor cs).
Hypothesis HNot : forall c, P c -> P (Not c).

Fixpoint cond_induction (c : cond) : P c :=
  let all := fix all (cs : list cond) : Forall P cs :=
    match cs with [] => @Forall_nil_2 cond P | c :: cs => Forall_cons_2 P c cs (cond_induction c) (all cs) end in
  match c with
  | Fields fs => HFields fs
  | FieldNot f ts => HFieldNot f ts
  | Elem f c => HElem f c (cond_induction c)
  | And cs => HAnd cs (all cs)
  | Or cs => HOr cs (all cs)
  | Nor cs => HNor cs (all cs)
  | Not c => HNot c (cond_induction c)
  end.
End CondInd.

Lemma cond_ok_and cs : cond_ok (And cs) <-> Forall cond_ok cs.
Proof. cbn [cond_ok]. induction cs as [|c cs IH]; [split; [constructor|auto]|]. rewrite IH, Forall_cons. reflexivity. Qed.

Lemma cond_ok_or cs : cond_ok (Or cs) <-> Forall (fun c => cond_ok c /\ c <> Fields []) cs.
Proof. cbn [cond_ok]. induction cs as [|c cs IH]; [split; [constructor|auto]|]. rewrite IH, Forall_cons. reflexivity. Qed.

Lemma conds_evaluate cs : Forall (fun c => cond_ok c -> evaluates (filter_of c) (holds c)) cs -> Forall cond_ok cs ->
  exists qs, map_result parseQuery (map filter_of cs) = Ok qs /\ length qs = length cs /\ forall doc,
    forallb (fun c => evalQuery c doc) qs = forallb (fun c => holds c doc) cs /\ existsb (fun c => evalQuery c doc) qs = existsb (fun c => holds c doc) cs.
Proof.
  intros IH Hok. rewrite map_result_map. apply (map_evaluates filter_of holds cs). intros c Hc. rewrite Forall_forall in IH, Hok. exact (IH c Hc (Hok c Hc)).
Qed.

Lemma fields_evaluate fs : Forall (fun ft => field_ok ft.1 ft.2) fs -> evaluates (filter_of (Fields fs)) (holds (Fields fs)).
Proof.
  intros Hok. destruct fs as [|ft [|ft' fs]].
  - exists (qnode MATCH_ALL [] JNull []). split; [reflexivity|]. reflexivity.
  - apply Forall_cons in Hok as [Hok _]. destruct (ops_evaluates _ _ Hok) as (q & E & Hq). exists q. split; [exact E|]. intros doc. rewrite Hq. cbn [holds forallb]. rewrite andb_true_r. reflexivity.
  - unfold evaluates. rewrite parseQuery_unfold. cbn [filter_of map parse_filter].
    change ((ft.1, ops_json ft.2) :: (ft'.1, ops_json ft'.2) :: map (fun ft => (ft.1, ops_json ft.2)) fs) with (map (fun ft => (ft.1, ops_json ft.2)) (ft :: ft' :: fs)).
    rewrite !(fields_find _ _) by first [exact Hok|rewrite ?elem_of_cons; tauto]. cbn [map]. rewrite Forall_forall in Hok.
    change ((ft.1, ops_json ft.2) :: (ft'.1, ops_json ft'.2) :: map (fun ft => (ft.1, ops_json ft.2)) fs) with (map (fun ft => (ft.1, ops_json ft.2)) (ft :: ft' :: fs)).
    rewrite map_result_map. destruct (map_evaluates (fun ft => JObject [(ft.1, ops_json ft.2)]) (fun ft doc => forallb (fun t => test_holds t (value_at doc ft.1)) ft.2) (ft :: ft' :: fs)) as (cs & E & _ & Hcs).
    { intros x Hx. apply ops_evaluates, Hok, Hx. }
    rewrite E. eexists. split; [reflexivity|]. intros doc. cbn [evalQuery q_type q_children qnode]. apply Hcs.
Qed.

Lemma filter_nonempty_object cs : Forall (fun c => cond_ok c /\ c <> Fields []) cs -> List.filter nonempty_object (map filter_of cs) = map filter_of cs.
Proof.
  induction 1 as [|c cs [_ Hc] _ IH]; [reflexivity|]. cbn [map List.filter]. rewrite IH. replace (nonempty_object (filter_of c)) with true; [reflexivity|].
  destruct c as [[|]| | | | | |]; try reflexivity. congruence.
Qed.

Lemma cond_evaluates c : cond_ok c -> evaluates (filter_of c) (holds c).
Proof.
  induction c as [fs|f ts|f c IH|cs IH|cs IH|cs IH|c IH] using cond_induction; intros Hok.
  - exact (fields_evaluate fs Hok).
  - destruct (ops_evaluates f ts Hok) as (q & E & Hq). exists (qnode NOT [] (JObject [(str "$not", ops_json ts)]) [q]). split; [|intros doc; cbn; rewrite Hq; reflexivity].
    destruct Hok as [Hf _]. cbn [filter_of]. rewrite (parse_one f _ Hf). change (parse_field parseQuery f (JObject [(str "$not", ops_json ts)])) with (c ← parseQuery (JObject [(f, ops_json ts)]); Ok (qnode NOT [] (JObject [(str "$not", ops_json ts)]) [c])).
    rewrite E. reflexivity.
  - destruct Hok as [[Hf _] Hc]. destruct (IH Hc) as (q & E & Hq). exists (qnode ELEM_MATCH f (JObject [(str "$elemMatch", filter_of c)]) [q]). split.
    + cbn [filter_of]. rewrite (parse_one f _ Hf). change (parse_field parseQuery f (JObject [(str "$elemMatch", filter_of c)])) with (q ← parseQuery (filter_of c); Ok (qnode ELEM_MATCH f (JObject [(str "$elemMatch", filter_of c)]) [q])).
      rewrite E. reflexivity.
    + intros doc. cbn [evalQuery q_type q_children q_field qnode holds]. destruct (json_find f doc) as [[| | | | | | |items|]|]; try reflexivity. induction items as [|x items IHi]; [reflexivity|]. cbn [existsb]. rewrite Hq, IHi. reflexivity.
  - destruct (conds_evaluate cs IH (proj1 (cond_ok_and cs) Hok)) as (qs & E & _ & Hqs). exists (qnode AND [] JNull qs). split; [|intros doc; apply Hqs].
    rewrite parseQuery_unfold. cbn [filter_of]. change (parse_filter parseQuery (JObject [(str "$and", JArray (map filter_of cs))])) with (qs ← map_result parseQuery (map filter_of cs); Ok (qnode AND [] JNull qs)). rewrite E. reflexivity.
  - pose proof (proj1 (cond_ok_or cs) Hok) as Hor. assert (Hall : Forall cond_ok cs) by (eapply Forall_impl; [exact Hor|]; intros x [Hx _]; exact Hx).
    destruct (conds_evaluate cs IH Hall) as (qs & E & Hl & Hqs). exists (qnode (match qs with [] => ALWAYS_FALSE | _ => OR end) [] JNull qs). split.
    + rewrite parseQuery_unfold. cbn [filter_of].
      change (parse_filter parseQuery (JObject [(str "$or", JArray (map filter_of cs))])) with
        (qs ← map_result parseQuery (List.filter nonempty_object (map filter_of cs)); Ok (qnode (match qs with [] => ALWAYS_FALSE | _ => OR end) [] JNull qs)).
      rewrite (filter_nonempty_object cs Hor), E. reflexivity.
    + intros doc. destruct (Hqs doc) as [_ H]. cbn [holds]. rewrite <- H. destruct qs; reflexivity.
  - destruct (conds_evaluate cs IH (proj1 (cond_ok_and cs) Hok)) as (qs & E & _ & Hqs). exists (qnode NOR [] JNull qs). split; [|intros doc; cbn [evalQuery q_type q_children qnode holds]; f_equal; apply Hqs].
    rewrite parseQuery_unfold. cbn [filter_of]. change (parse_filter parseQuery (JObject [(str "$nor", JArray (map filter_of cs))])) with (qs ← map_result parseQuery (map filter_of cs); Ok (qnode NOR [] JNull qs)). rewrite E. reflexivity.
  - destruct (IH Hok) as (q & E & Hq). exists (qnode NOT [] JNull [q]). split; [|intros doc; cbn; rewrite Hq; reflexivity].
    rewrite parseQuery_unfold. cbn [filter_of]. change (parse_filter parseQuery (JObject [(str "$not", filter_of c)])) with (q ← parseQuery (filter_of c); Ok (qnode NOT [] JNull [q])). rewrite E. reflexivity.
Qed.

Lemma cond_match c doc : cond_ok c -> db_match doc (filter_of c) = Ok (holds c doc).
Proof.
  intros Hok. destruct (cond_evaluates c Hok) as (q & E & Hq). unfold db_match. destruct (json_empty (filter_of c)) eqn:He.
  - destruct c as [[|]| | | | | |]; try discriminate. reflexivity.
  - rewrite E. cbn [mbind result_bind]. rewrite Hq. reflexivity.
Qed.

(** ** The documented meaning *)

(** The value is there, or one of its elements is; an absent field is null. *)
Definition equals (v : json) (found : option json) : bool :=
  match found with
  | None => json_eqb JNull v
  | Some d => json_eqb d v || match d with JArray items => existsb (fun i => json_eqb i v) items | _ => false end
  end.

(** Numbers are ordered among themselves, as doubles, and so are texts; nothing else is. *)
Definition ordered (t : NodeType) (v : json) (found : option json) : bool :=
  match found with
  | Some d => match as_double d, as_double v, d, v with
              | Some a, Some b, _, _ => order_holds dlt dle t a b
              | _, _, JString a, JString b => order_holds bytes_ltb bytes_leb t a b
              | _, _, _, _ => false
              end
  | None => false
  end.

Definition test_satisfied (t : test) (found : option json) : bool :=
  match t with
  | Exists b => Bool.eqb (match found with Some _ => true | None => false end) b
  | Eq v => equals v found
  | Ne v => negb (equals v found)
  | Gt v => ordered GT v found
  | Gte v => ordered GTE v found
  | Lt v => ordered LT v found
  | Lte v => ordered LTE v found
  | In vs => existsb (fun v => equals v found) vs
  | Nin vs => negb (existsb (fun v => equals v found) vs)
  | All vs => forallb (fun v => equals v found) vs
  | Text term => match found with Some (JString s) => contains_text (map lower_byte s) (map lower_byte term) | _ => false end
  end.

Fixpoint satisfies (c : cond) (doc : json) : bool :=
  match c with
  | Fields fs => forallb (fun ft => forallb (fun t => test_satisfied t (value_at doc ft.1)) ft.2) fs
  | FieldNot field ts => negb (forallb (fun t => test_satisfied t (value_at doc field)) ts)
  | Elem field c => match value_at doc field with Some (JArray items) => existsb (satisfies c) items | _ => false end
  | And cs => forallb (fun c => satisfies c doc) cs
  | Or cs => existsb (fun c => satisfies c doc) cs
  | Nor cs => negb (existsb (fun c => satisfies c doc) cs)
  | Not c => negb (satisfies c doc)
  end.

(** ** Where the engine keeps to it *)

Definition is_array (j : json) : bool := match j with JArray _ => true | _ => false end.
Definition is_null (j : json) : bool := match j with JNull => true | _ => false end.

(** [$ne] and [$nin] meet the field, an absent field meets no null, [$eq] and [$ne] meet
    no array, [$all] meets an array and asks for none, and an ordering operator meets
    a number with a number or a text with a text. *)
Definition regular (t : test) (found : option json) : bool :=
  match t, found with
  | (Exists _ | Text _), _ => true
  | (Ne _ | Nin _), None => false
  | (Gt _ | Gte _ | Lt _ | Lte _), None => true
  | Eq v, None => negb (is_null v)
  | In vs, None => forallb (fun v => negb (is_null v)) vs
  | All vs, None => negb (bool_decide (vs = [])) && forallb (fun v => negb (is_null v)) vs
  | (Eq _ | Ne _), Some d => negb (is_array d)
  | (Gt v | Gte v | Lt v | Lte v), Some d => is_number d && is_number v || is_string d && is_string v
  | (In _ | Nin _), Some _ => true
  | All vs, Some d => is_array d && forallb (fun v => negb (is_array v)) vs
  end.

(** No array on the way to the end of the path. *)
Fixpoint through_objects (j : json) (path : list bytes) : bool :=
  match path with
  | [] => true
  | part :: rest => negb (is_array j) && match json_find part j with Some v => through_objects v rest | None => true end
  end.

Definition tests_apply (doc : json) (field : bytes) (ts : list test) : bool :=
  through_objects doc (path_parts [] field) && forallb (fun t => regular t (value_at doc field)) ts.

Fixpoint applies (c : cond) (doc : json) : bool :=
  match c with
  | Fields fs => forallb (fun ft => tests_apply doc ft.1 ft.2) fs
  | FieldNot field ts => tests_apply doc field ts
  | Elem field c => match value_at doc field with Some (JArray items) => forallb (applies c) items | _ => true end
  | And cs | Or cs | Nor cs => forallb (fun c => applies c doc) cs
  | Not c => applies c doc
  end.

Lemma forallb_eq {A} (f g : A -> bool) l : (forall x, x ∈ l -> f x = g x) -> forallb f l = forallb g l.
Proof. induction l as [|x l IH]; intros H; [reflexivity|]. cbn [forallb]. rewrite (H x) by left. rewrite IH; [reflexivity|]. intros y Hy. apply H. right. exact Hy. Qed.

Lemma existsb_eq {A} (f g : A -> bool) l : (forall x, x ∈ l -> f x = g x) -> existsb f l = existsb g l.
Proof. induction l as [|x l IH]; intros H; [reflexivity|]. cbn [existsb]. rewrite (H x) by left. rewrite IH; [reflexivity|]. intros y Hy. apply H. right. exact Hy. Qed.

Lemma forallb_elem {A} (f : A -> bool) l : forallb f l = true -> forall x, x ∈ l -> f x = true.
Proof. rewrite forallb_forall. intros H x Hx. apply H, list_elem_of_In, Hx. Qed.

Lemma existsb_or {A} (f g : A -> bool) l : existsb (fun x => f x || g x) l = existsb f l || existsb g l.
Proof. induction l as [|x l IH]; [reflexivity|]. cbn [existsb]. rewrite IH. destruct (f x), (g x), (existsb f l), (existsb g l); reflexivity. Qed.

Lemma existsb_swap {A B} (f : A -> B -> bool) l m : existsb (fun a => existsb (f a) m) l = existsb (fun b => existsb (fun a => f a b) l) m.
Proof.
  induction l as [|a l IH]; cbn [existsb]; [induction m as [|b m IHm]; [reflexivity|exact IHm]|]. rewrite IH, <- existsb_or. apply existsb_eq. reflexivity.
Qed.

Lemma null_not_equal v : is_null v = false -> json_eqb JNull v = false.
Proof. destruct v; try discriminate; reflexivity. Qed.

Lemma array_not_equal items v : is_array v = false -> json_eqb (JArray items) v = false.
Proof. destruct v; try discriminate; reflexivity. Qed.

Lemma in_values_equals d vs : in_values d vs = existsb (fun v => equals v (Some d)) vs.
Proof.
  unfold in_values, equals. rewrite existsb_or. f_equal. destruct d as [| | | | | | |items|]; try (induction vs as [|v vs IH]; [reflexivity|exact IH]). apply existsb_swap.
Qed.

Lemma order_regular t v d : is_number d && is_number v || is_string d && is_string v = true -> match_order t d v = ordered t v (Some d).
Proof. unfold match_order, ordered. destruct d, v; try discriminate; reflexivity. Qed.

Lemma test_regular t found : regular t found = true -> test_holds t found = test_satisfied t found.
Proof.
  assert (Hnull : forall vs, forallb (fun v => negb (is_null v)) vs = true -> forall v, v ∈ vs -> equals v None = false).
  { intros vs H v Hv. apply null_not_equal. apply negb_true_iff, (forallb_elem _ _ H v Hv). }
  destruct t as [v|v|v|v|v|v|vs|vs|vs|b|term], found as [d|]; cbn [regular test_holds test_satisfied]; intros H; try discriminate; try reflexivity;
    try exact (order_regular _ v d H).
  - apply negb_true_iff in H. destruct d; try discriminate; unfold equals; rewrite ?orb_false_r; reflexivity.
  - symmetry. apply null_not_equal, negb_true_iff, H.
  - apply negb_true_iff in H. destruct d; try discriminate; unfold equals; rewrite ?orb_false_r; reflexivity.
  - apply in_values_equals.
  - rewrite (existsb_eq _ (fun _ => false) vs (Hnull vs H)). clear. induction vs as [|v vs IH]; [reflexivity|exact IH].
  - rewrite in_values_equals. reflexivity.
  - apply andb_true_iff in H as [Hd Hvs]. destruct d as [| | | | | | |items|]; try discriminate. apply forallb_eq. intros v Hv. cbn [equals].
    rewrite (array_not_equal items v); [reflexivity|]. apply negb_true_iff, (forallb_elem _ _ Hvs v Hv).
  - apply andb_true_iff in H as [Hne Hvs]. destruct vs as [|v vs]; [discriminate|]. cbn [forallb]. rewrite (Hnull _ Hvs v) by left. reflexivity.
Qed.

Lemma tests_regular doc field ts : tests_apply doc field ts = true ->
  forallb (fun t => test_holds t (value_at doc field)) ts = forallb (fun t => test_satisfied t (value_at doc field)) ts.
Proof. intros H. apply andb_true_iff in H as [_ H]. apply forallb_eq. intros t Ht. apply test_regular, (forallb_elem _ _ H t Ht). Qed.

Lemma value_at_plain doc field : path_parts [] field = [field] -> value_at doc field = json_find field doc.
Proof. intros H. unfold value_at. rewrite H. apply find_last. Qed.

Lemma conds_satisfied cs doc : Forall (fun c => forall doc, cond_ok c -> applies c doc = true -> holds c doc = satisfies c doc) cs -> Forall cond_ok cs ->
  forallb (fun c => applies c doc) cs = true -> forall c, c ∈ cs -> holds c doc = satisfies c doc.
Proof. rewrite !Forall_forall. intros IH Hok Ha c Hc. apply IH; [exact Hc|exact (Hok c Hc)|exact (forallb_elem _ _ Ha c Hc)]. Qed.

Lemma holds_satisfies c : forall doc, cond_ok c -> applies c doc = true -> holds c doc = satisfies c doc.
Proof.
  induction c as [fs|f ts|f c IH|cs IH|cs IH|cs IH|c IH] using cond_induction; intros doc Hok Ha; cbn [applies holds satisfies] in *.
  - apply forallb_eq. intros ft Hft. apply tests_regular, (forallb_elem _ _ Ha ft Hft).
  - f_equal. apply tests_regular, Ha.
  - destruct Hok as [[_ Hf] Hc]. rewrite (value_at_plain doc f Hf) in Ha |- *. destruct (json_find f doc) as [[| | | | | | |items|]|]; try reflexivity.
    apply existsb_eq. intros x Hx. exact (IH x Hc (forallb_elem _ _ Ha x Hx)).
  - apply forallb_eq, conds_satisfied; [exact IH|apply cond_ok_and, Hok|exact Ha].
  - apply existsb_eq, conds_satisfied; [exact IH| |exact Ha]. apply cond_ok_or in Hok. eapply Forall_impl; [exact Hok|]. intros c [Hc _]. exact Hc.
  - f_equal. apply existsb_eq, conds_satisfied; [exact IH|apply cond_ok_and, Hok|exact Ha].
  - f_equal. exact (IH doc Hok Ha).
Qed.

(** C23: the engine matches a document against the filter of a condition exactly when
    the document satisfies the condition: several fields and several operators of one
    field are a conjunction, [$and], [$or], [$nor] and [$not] combine conditions,
    [$elemMatch] asks for one element, a dotted name is a path through objects, and
    [$in] and [$nin] look at an array and at its elements.  The conditions
    ([cond_ok]): a logical operator stands alone in its object, a field is not named
    like one and has at least one of the operators [$eq], [$ne], [$gt], [$gte], [$lt],
    [$lte], [$in], [$nin], [$all], [$exists], [$text], the field of [$elemMatch] has no
    dot, and no alternative of [$or] is the empty filter.  The documents ([applies]):
    no array on the way of a dotted name; [$ne] and [$nin] only on fields the document
    has; null, and [$all] of no values, only on fields it has; [$eq] and [$ne] on a
    field that is not an array, [$all] on one that is and for values that are not;
    [$gt], [$gte], [$lt] and [$lte] between two numbers, compared as doubles, or two
    texts, or on a field the document lacks, which they never match. *)
Theorem query_means c doc : cond_ok c -> applies c doc = true -> db_match doc (filter_of c) = Ok (satisfies c doc).
Proof. intros Hok Ha. rewrite <- (holds_satisfies c doc Hok Ha). exact (cond_match c doc Hok). Qed.
End Meaning.
