(* ===== verification/QueryLaws.v ===== *)
(** * Laws and surprises of queries (query_parser.cpp)

    The cache of compiled expressions changes no result, the ordering operators
    are complementary, the estimated cost is bounded; and the filters whose
    meaning a caller might not expect. *)

From stdpp Require Import base list strings gmap.
From Stdlib Require Import ZArith Lia.
From S2P Require Import Prelude Json Msgpack JsonValue Float64 JsonCompare Query QueryMeaning.

Open Scope Z_scope.

Section Laws.
Context `{QL : QueryLib} `{JT : JsonText}.

(** ** The cache of regular expressions *)

(** Every entry is what its key compiles to. *)
Definition cache_ok (cache : gmap bytes compiled) : Prop :=
  forall k re, cache !! k = Some re -> exists options, (options = [] \/ options = str "i") /\ k = cacheKey (rx_pattern re) options /\
    rx_case re = bytes_eqb options [] /\ re2_error (rx_pattern re) (rx_case re) = None.

Lemma app_last_inj {A} (a b : list A) x y : a ++ [x] = b ++ [y] -> a = b /\ x = y.
Proof. apply app_inj_tail. Qed.

(** Different expressions have different keys. *)
Lemma cacheKey_inj p o p' o' : (o = [] \/ o = str "i") -> (o' = [] \/ o' = str "i") -> cacheKey p o = cacheKey p' o' -> p = p' /\ o = o'.
Proof.
  unfold cacheKey. assert (Hi : str "i" <> [] /\ str "|" ++ [] = [byte_of 124] /\ str "|" ++ str "i" = [byte_of 124] ++ [byte_of 105] /\ byte_of 124 <> byte_of 105).
  { split; [discriminate|]. split; [reflexivity|]. split; [reflexivity|]. intros [=]. }
  destruct Hi as (_ & E1 & E2 & Hne). intros [->| ->] [->| ->]; rewrite ?E1, ?E2, ?app_assoc; intros H; apply app_last_inj in H as [H H'].
  - auto.
  - congruence.
  - congruence.
  - apply app_last_inj in H as [H _]. auto.
Qed.

Lemma options_valid o : negb (bytes_eqb o []) && negb (bytes_eqb o (str "i")) = false <-> o = [] \/ o = str "i".
Proof. rewrite andb_false_iff, !negb_false_iff, !bytes_eqb_eq. reflexivity. Qed.

Lemma cache_delete cache k : cache_ok cache -> cache_ok (delete k cache).
Proof. intros H k' re Hk. apply lookup_delete_Some in Hk as [_ Hk]. exact (H k' re Hk). Qed.

Lemma cache_insert cache p o : cache_ok cache -> (o = [] \/ o = str "i") -> re2_error p (bytes_eqb o []) = None ->
  cache_ok (<[cacheKey p o := mkCompiled p (bytes_eqb o [])]> cache).
Proof. intros H Ho He k re Hk. apply lookup_insert_Some in Hk as [[<- <-]|[_ Hk]]; [exists o; auto|exact (H k re Hk)]. Qed.

Lemma evicted_size (victim : gmap bytes compiled -> bytes) (cache : gmap bytes compiled) : (forall c : gmap bytes compiled, c <> ∅ -> is_Some (c !! victim c)) -> (size cache <= MAX_REGEX_CACHE)%nat ->
  (size (if (MAX_REGEX_CACHE <=? size cache)%nat then delete (victim cache) cache else cache) < MAX_REGEX_CACHE)%nat.
Proof.
  intros Hv Hs. destruct (Nat.leb_spec MAX_REGEX_CACHE (size cache)) as [Hle|Hlt]; [|exact Hlt].
  destruct (Hv cache) as [re Hre]; [intros ->; rewrite map_size_empty in Hle; unfold MAX_REGEX_CACHE in Hle; lia|].
  rewrite map_size_delete_Some by eauto. unfold MAX_REGEX_CACHE in *. lia.
Qed.

Lemma insert_size_le (m : gmap bytes compiled) k x : (size m < MAX_REGEX_CACHE)%nat -> (size (<[k := x]> m) <= MAX_REGEX_CACHE)%nat.
Proof. intros H. rewrite map_size_insert. destruct (m !! k); unfold id; lia. Qed.

(** C28: [getOrCompileRegex] answers with its cache as it would without: the errors are
    the same, and the expression is the one compiled from the pattern and the
    options asked for, never one stored under the same key for another pattern.  The
    cache keeps at most 100 expressions, whichever entry is evicted. *)
Theorem regex_cache_transparent victim cache pattern options : cache_ok cache -> (size cache <= MAX_REGEX_CACHE)%nat ->
  (forall c : gmap bytes compiled, c <> ∅ -> is_Some (c !! victim c)) ->
  (getOrCompileRegex_cached victim cache pattern options).1 = (c ← getOrCompileRegex pattern options; Ok (mkCompiled pattern c)) /\
  cache_ok (getOrCompileRegex_cached victim cache pattern options).2 /\ (size (getOrCompileRegex_cached victim cache pattern options).2 <= MAX_REGEX_CACHE)%nat.
Proof.
  intros Hok Hs Hv. unfold getOrCompileRegex_cached, getOrCompileRegex. destruct (MAX_REGEX_PATTERN_BYTES <? blen pattern); [auto|].
  destruct (negb (bytes_eqb options []) && negb (bytes_eqb options (str "i"))) eqn:Ho; [auto|]. apply options_valid in Ho.
  destruct (cache !! cacheKey pattern options) as [re|] eqn:Hc.
  - destruct (Hok _ _ Hc) as (o & Ho' & Hk & Hcase & He). apply cacheKey_inj in Hk as [-> ->]; [|assumption..]. rewrite <- Hcase, He. destruct re; cbn in *. auto.
  - destruct (re2_error pattern (bytes_eqb options [])) eqn:He; [auto|]. cbn [fst snd mbind result_bind]. split; [reflexivity|].
    pose proof (evicted_size victim cache Hv Hs) as Hlt. destruct (MAX_REGEX_CACHE <=? size cache)%nat.
    + split; [apply cache_insert; auto using cache_delete|]. pose proof (insert_size_le _ (cacheKey pattern options) (mkCompiled pattern (bytes_eqb options [])) Hlt). assumption.
    + split; [apply cache_insert; auto|]. pose proof (insert_size_le _ (cacheKey pattern options) (mkCompiled pattern (bytes_eqb options [])) Hlt). assumption.
Qed.

(** ** Order *)

(** Two values the ordering operators can compare. *)
Definition comparable (a b : json) : Prop :=
  match as_double a, as_double b with
  | Some x, Some y => is_nan x = false /\ is_nan y = false
  | _, _ => is_Some (compare_text a) /\ is_Some (compare_text b)
  end.

Lemma bytes_leb_ltb a b : bytes_leb a b = negb (bytes_ltb b a).
Proof. unfold bytes_leb, bytes_ltb. rewrite (bytes_compare_antisym a b). destruct (bytes_compare a b); reflexivity. Qed.

Lemma text_order t a b : match_order t a b = match as_double a, as_double b with
  | Some x, Some y => order_holds dlt dle t x y
  | _, _ => match compare_text a, compare_text b with Some x, Some y => order_holds bytes_ltb bytes_leb t x y | _, _ => false end end.
Proof. unfold match_order. destruct (as_double a), (as_double b), a, b; reflexivity. Qed.

(** [$gte] is the opposite of [$lt], and [$lte] that of [$gt], also across types. *)
Lemma order_complement a b : comparable a b ->
  match_order GTE a b = negb (match_order LT a b) /\ match_order LTE a b = negb (match_order GT a b).
Proof.
  unfold comparable. rewrite !text_order. destruct (as_double a) as [x|], (as_double b) as [y|]; intros [Ha Hb];
    [cbn [order_holds]; rewrite !dlt_dle by assumption; auto|..]; destruct Ha as [u ->], Hb as [w ->]; cbn [order_holds]; rewrite !bytes_leb_ltb; auto.
Qed.

(** ** Cost *)

Lemma check_key_costs k v : Forall (fun w => 0 <= w.2) (check_key k v).
Proof.
  unfold check_key. rewrite !Forall_app. split; [|split; [|split]].
  - destruct (bytes_eqb _ _); repeat constructor; cbn; lia.
  - destruct v; try constructor. destruct (_ && _); repeat constructor; cbn; lia.
  - destruct (bytes_eqb _ _); repeat constructor; cbn; lia.
  - destruct (_ || _); repeat constructor; cbn; lia.
Qed.

(** The costs found below a value, and below the elements of an array. *)
Definition costs_ok (j : json) : Prop := forall depth, Forall (fun w => 0 <= w.2) (checkNode j depth).

Lemma check_items depth l : Forall costs_ok l -> Forall (fun w : string * Z => 0 <= w.2)
  ((fix items (l : list json) : list (string * Z) := match l with [] => [] | item :: l => match item with JObject _ => checkNode item (depth + 1) | _ => [] end ++ items l end) l).
Proof. induction 1 as [|x l Hx _ IH]; [constructor|]. apply Forall_app. split; [destruct x; try constructor; apply Hx|exact IH]. Qed.

Lemma check_costs node : costs_ok node /\ match node with JArray l => Forall costs_ok l | _ => True end.
Proof.
  induction node as [| | | | | | |l IH|m IH] using json_ind'; (split; [intros depth; cbn [checkNode]; destruct (10 <? depth); try (repeat constructor; cbn; lia)|]); try exact I.
  - eapply Forall_impl; [exact IH|]. intros x [Hx _]. exact Hx.
  - induction IH as [|[k v] m [Hv Hl] _ IHm]; [constructor|]. cbn [snd] in *. rewrite !Forall_app. split; [apply check_key_costs|]. split; [|exact IHm].
    destruct v as [| | | | | | |l|m']; try constructor; [apply check_items, Hl|apply Hv].
Qed.

Lemma fold_costs l : Forall (fun w : string * Z => 0 <= w.2) l -> forall c, c <= fold_left (fun c w => c + w.2) l c.
Proof. induction 1 as [|w l Hw _ IH]; intros c; cbn [fold_left]; [lia|]. specialize (IH (c + w.2)). lia. Qed.

(** The estimated cost is between 10 and 100. *)
Lemma validate_cost filter : 10 <= estimatedCost (validateQuery filter) <= 100.
Proof.
  destruct filter as [| | | | | | | |m]; try (cbn; lia). destruct m as [|kv m]; [cbn; lia|]. cbn [validateQuery estimatedCost].
  pose proof (fold_costs _ (proj1 (check_costs (JObject (kv :: m))) 0) 10). destruct (Z.ltb_spec 100 (fold_left (fun c w => c + w.2) (checkNode (JObject (kv :: m)) 0) 10)); lia.
Qed.
End Laws.

(** ** Examples *)

(** A library whose patterns are plain text. *)
#[local] Instance plain_lib : QueryLib := {| re2_error := fun _ _ => None; re2_partial_match := fun p _ t => contains_text t p; stod := fun _ => None |}.
#[local] Instance no_text : JsonText := {| json_dump := fun _ => Some []; json_parse := fun _ => None |}.

Definition adults : cond :=
  And [Fields [(str "user.age", [Gte (JInt 18); Lt (JInt 65)])]; Or [Fields [(str "name", [Eq (JString (str "x"))])]; Elem (str "tags") (Fields [(str "k", [Exists true])])]].

Definition adult_doc : json :=
  JObject [(str "tags", JArray [JNull; JObject [(str "k", JNull)]]); (str "user", JObject [(str "age", JFloat 0x4033000000000000)])].

Lemma query_means_witness : cond_ok adults /\ applies adults adult_doc = true /\ db_match adult_doc (filter_of adults) = Ok true.
Proof.
  assert (H : cond_ok adults) by (repeat split; try reflexivity; try discriminate; repeat constructor; try reflexivity; discriminate).
  split; [exact H|]. split; [vm_compute; reflexivity|]. rewrite (query_means adults adult_doc H ltac:(vm_compute; reflexivity)). vm_compute. reflexivity.
Defined.

Definition first_key (c : gmap bytes compiled) : bytes := match map_to_list c with (k, _) :: _ => k | [] => [] end.

Lemma first_key_in (c : gmap bytes compiled) : c <> ∅ -> is_Some (c !! first_key c).
Proof.
  intros H. unfold first_key. destruct (map_to_list c) as [|[k v] l] eqn:E; [apply map_to_list_empty_iff in E; contradiction|].
  exists v. apply elem_of_map_to_list. rewrite E. left.
Qed.

Lemma regex_cache_transparent_witness :
  (getOrCompileRegex_cached first_key ∅ (str "a|i") (str "")).1 = Ok (mkCompiled (str "a|i") true) /\
  cache_ok (getOrCompileRegex_cached first_key ∅ (str "a|i") (str "")).2.
Proof.
  assert (H0 : cache_ok ∅) by (intros k re Hk; rewrite lookup_empty in Hk; discriminate).
  destruct (regex_cache_transparent first_key ∅ (str "a|i") (str "") H0 ltac:(rewrite map_size_empty; unfold MAX_REGEX_CACHE; lia) first_key_in) as (E & H & _). split; [rewrite E; reflexivity|exact H].
Defined.

(** Fields beside a top-level [$or] are not looked at. *)
Example or_drops_other_fields :
  db_match (JObject [(str "status", JString (str "closed"))])
    (JObject [(str "$or", JArray [JObject [(str "hidden", JObject [(str "$exists", JBool false)])]]); (str "status", JString (str "open"))]) = Ok true.
Proof. vm_compute. reflexivity. Qed.

(** An empty alternative of [$or] is dropped, although the empty filter matches everything. *)
Example or_of_everything_matches_nothing :
  db_match (JObject []) (JObject [(str "$or", JArray [JObject []])]) = Ok false /\ db_match (JObject []) (JObject []) = Ok true.
Proof. split; vm_compute; reflexivity. Qed.

(** [$ne] and [$not] of [$eq] differ on documents without the field. *)
Example ne_needs_the_field :
  db_match (JObject []) (JObject [(str "a", JObject [(str "$ne", JInt 1)])]) = Ok false /\
  db_match (JObject []) (JObject [(str "a", JObject [(str "$not", JObject [(str "$eq", JInt 1)])])]) = Ok true.
Proof. split; vm_compute; reflexivity. Qed.

(** Integers are ordered as doubles: a larger one is not [$gt]. *)
Example order_loses_precision :
  db_match (JObject [(str "n", JInt 9007199254740993)]) (JObject [(str "n", JObject [(str "$gt", JInt 9007199254740992)])]) = Ok false.
Proof. vm_compute. reflexivity. Qed.

(** A plan that reads one document by id for a query with another alternative. *)
Example plan_misses_alternative :
  (q ← parseQuery (JObject [(str "$or", JArray [JObject [(str "id", JInt 1)]; JObject [(str "age", JInt 2)]])]);
   Ok (analyzeQuery q, evalQuery q (JObject [(str "age", JInt 2); (str "id", JInt 7)]))) = Ok (mkPlan true (str "id") false 1, true).
Proof. vm_compute. reflexivity. Qed.
