(* ===== verification/UpdateOps.v ===== *)
(** * Updating documents (update_ops.hpp)

    [applyUpdateOps] applies [$set], then [$unset], then [$inc]. *)

From stdpp Require Import base list strings.
From Stdlib Require Import ZArith Lia.
From S2P Require Import Prelude Json Decimal Msgpack JsonValue JsonCompare.

Open Scope Z_scope.

(** [j.items()]: the members, or the elements under their indexes; a scalar is one item without a key. *)
Definition json_items (j : json) : list (bytes * json) :=
  match j with
  | JObject m => m
  | JArray l => imap (fun i v => (to_dec (Z.of_nat i), v)) l
  | JNull => []
  | j => [([], j)]
  end.

(** [for (auto& v : j)]. *)
Definition json_elements (j : json) : list json := map snd (json_items j).

(** [doc[k] = v], for an object or null. *)
Definition assign_key (k : bytes) (v : json) (doc : json) : result json :=
  match doc with
  | JNull => Ok (JObject [(k, v)])
  | JObject m => Ok (JObject (obj_insert k v m))
  | _ => Err "type_error.305"
  end.

Definition erase_key (k : bytes) (doc : json) : result json :=
  match doc with JObject m => Ok (JObject (obj_erase k m)) | _ => Err "type_error.307" end.

Fixpoint fold_result {A B} (f : B -> A -> result A) (l : list B) (a : A) : result A :=
  match l with
  | [] => Ok a
  | x :: l => a ← f x a; fold_result f l a
  end.

Definition set_field (kv : bytes * json) (doc : json) : result json := assign_key kv.1 kv.2 doc.

Definition unset_field (k : json) (doc : json) : result json := name ← or_err (as_string k) "type_error.302"; erase_key name doc.

(** The sum of two [long long]; an overflow is undefined and an error here. *)
Definition inc_field (kv : bytes * json) (doc : json) : result json :=
  doc ← match json_find kv.1 doc with
        | Some v => if is_number v then Ok doc else assign_key kv.1 (JInt 0) doc
        | None => assign_key kv.1 (JInt 0) doc
        end;
  a ← or_err (json_find kv.1 doc ≫= as_i64) "type_error.302";
  b ← or_err (as_i64 kv.2) "type_error.302";
  s ← or_err (in_signed 64 (a + b)) "overflow";
  assign_key kv.1 (JInt s) doc.

(** The items an operator has in the update. *)
Definition op_items {A} (items : json -> list A) (op : bytes) (update : json) : list A :=
  match json_find op update with Some v => items v | None => [] end.

Definition applyUpdateOps (doc update : json) : result json :=
  doc ← fold_result set_field (op_items json_items (str "$set") update) doc;
  doc ← fold_result unset_field (op_items json_elements (str "$unset") update) doc;
  fold_result inc_field (op_items json_items (str "$inc") update) doc.

(** [updateOne]: an update without operators is a [$set]. *)
Definition effective_update (update : json) : json :=
  if existsb (fun kv => match kv.1 with c :: _ => bool_decide (c = byte_of 36) | [] => false end) (json_items update)
  then update else JObject [(str "$set", update)].

(** ** Field by field *)

(** What a field is after [$set] with [s], [$unset] of [u] and [$inc] by [i]. *)
Definition after_set (s : object) (k : bytes) (old : option json) : option json :=
  match obj_find k s with Some v => Some v | None => old end.
Definition after_unset (u : list bytes) (k : bytes) (old : option json) : option json :=
  if existsb (bytes_eqb k) u then None else old.
(** The value of an integer, if a [long long] holds it. *)
Definition int_value (j : json) : option Z :=
  match j with JInt z => Some z | JUInt z => if z <? 2 ^ 63 then Some z else None | _ => None end.
(** A field that is absent or not a number counts as zero. *)
Definition number_of (old : option json) : Z := default 0 (old ≫= int_value).
Definition after_inc (i : object) (k : bytes) (old : option json) : option json :=
  match obj_find k i with Some v => Some (JInt (number_of old + default 0 (int_value v))) | None => old end.

Lemma fold_set s m : obj_sorted s -> exists m', fold_result set_field s (JObject m) = Ok (JObject m') /\ forall k, obj_find k m' = after_set s k (obj_find k m).
Proof.
  revert m. induction s as [|[k v] s IH]; intros m Hs; cbn [fold_result]; [exists m; auto|]. cbn [set_field assign_key fst snd mbind result_bind].
  destruct (obj_sorted_head_fresh k v s Hs) as [Hk Hs']. destruct (IH (obj_insert k v m) Hs') as (m' & E & H). exists m'. split; [exact E|]. intros x. rewrite H.
  unfold after_set. cbn [obj_find]. destruct (bytes_eqb k x) eqn:Ex.
  - apply bytes_eqb_eq in Ex as <-. rewrite (proj2 (obj_find_None k s) Hk). apply obj_find_insert_eq.
  - apply bytes_eqb_neq in Ex. rewrite (obj_find_insert_ne k x v m Ex). reflexivity.
Qed.

Lemma fold_unset u m : exists m', fold_result unset_field (JString <$> u) (JObject m) = Ok (JObject m') /\ forall k, obj_find k m' = after_unset u k (obj_find k m).
Proof.
  revert m. induction u as [|k u IH]; intros m; cbn [fmap list_fmap fold_result]; [exists m; auto|]. cbn [unset_field as_string or_err mbind result_bind erase_key].
  destruct (IH (obj_erase k m)) as (m' & E & H). exists m'. split; [exact E|]. intros x. rewrite H. unfold after_unset. cbn [existsb]. destruct (bytes_eqb x k) eqn:Ex; cbn [orb].
  - apply bytes_eqb_eq in Ex as ->. rewrite obj_find_erase_eq. destruct (existsb _ u); reflexivity.
  - apply bytes_eqb_neq in Ex. rewrite (obj_find_erase_ne k x m) by congruence. reflexivity.
Qed.

(** The increment is an integer, a field that is a number is one, and a [long long] holds the sum. *)
Definition summand (old : option json) (v : json) : Prop :=
  (forall o, old = Some o -> is_number o = true -> is_Some (int_value o)) /\
  exists n, int_value v = Some n /\ is_Some (in_signed 64 (number_of old + n)).

Lemma int_value_reads v n : int_value v = Some n -> as_i64 v = Some n.
Proof.
  destruct v as [| |z|z| | | | |]; try discriminate; [auto|]. cbn [int_value as_i64]. unfold to_signed. destruct (Z.ltb_spec z (2 ^ 63)); [|discriminate].
  destruct (Z.ltb_spec z (2 ^ (64 - 1))); [auto|lia].
Qed.

Lemma in_signed_eq w z s : in_signed w z = Some s -> s = z.
Proof. unfold in_signed. destruct (_ && _); congruence. Qed.

(** A number is read as it is, anything else is replaced by zero first. *)
Lemma inc_reads m k v old : obj_find k m = old -> summand old v ->
  exists m1, (match obj_find k m with Some o => if is_number o then Ok (JObject m) else assign_key k (JInt 0) (JObject m) | None => assign_key k (JInt 0) (JObject m) end) = Ok (JObject m1) /\
    obj_find k m1 ≫= as_i64 = Some (number_of old) /\ forall x, x <> k -> obj_find x m1 = obj_find x m.
Proof.
  intros <- [Hn _].
  assert (H0 : forall v', exists m1, assign_key k v' (JObject m) = Ok (JObject m1) /\ obj_find k m1 = Some v' /\ forall x, x <> k -> obj_find x m1 = obj_find x m).
  { intros v'. eexists. split; [reflexivity|]. split; [apply obj_find_insert_eq|]. intros x Hx. apply obj_find_insert_ne. congruence. }
  destruct (H0 (JInt 0)) as (m0 & Ea & Ef & Hoth). destruct (obj_find k m) as [o|] eqn:Ek; [destruct (is_number o) eqn:Eo|].
  - destruct (Hn o eq_refl Eo) as [z Hz]. exists m. split; [reflexivity|]. split; [|auto]. rewrite Ek. cbn [mbind option_bind number_of]. unfold number_of. cbn [mbind option_bind]. rewrite (int_value_reads o z Hz), Hz. reflexivity.
  - exists m0. split; [exact Ea|]. split; [|exact Hoth]. rewrite Ef. unfold number_of. cbn [mbind option_bind as_i64]. replace (int_value o) with (@None Z) by (destruct o; try discriminate; reflexivity). reflexivity.
  - exists m0. split; [exact Ea|]. split; [|exact Hoth]. rewrite Ef. reflexivity.
Qed.

Lemma inc_one m k v : summand (obj_find k m) v ->
  exists m', inc_field (k, v) (JObject m) = Ok (JObject m') /\ obj_find k m' = Some (JInt (number_of (obj_find k m) + default 0 (int_value v))) /\ forall x, x <> k -> obj_find x m' = obj_find x m.
Proof.
  intros H. destruct (inc_reads m k v _ eq_refl H) as (m1 & E1 & Ea & Hoth). destruct H as [_ (n & Hn & s & Hs)].
  unfold inc_field. cbn [fst snd json_find]. rewrite E1. cbn [mbind result_bind json_find]. cbn [mbind option_bind] in Ea. rewrite Ea, (int_value_reads v n Hn). cbn [or_err mbind result_bind]. rewrite Hs.
  apply in_signed_eq in Hs. cbn [or_err mbind result_bind assign_key]. eexists. split; [reflexivity|]. split; [rewrite obj_find_insert_eq, Hs, Hn; reflexivity|].
  intros x Hx. rewrite obj_find_insert_ne by congruence. exact (Hoth x Hx).
Qed.

Lemma fold_inc incs : forall m, obj_sorted incs -> (forall k v, (k, v) ∈ incs -> summand (obj_find k m) v) ->
  exists m', fold_result inc_field incs (JObject m) = Ok (JObject m') /\ forall k, obj_find k m' = after_inc incs k (obj_find k m).
Proof.
  induction incs as [|[k v] incs IH]; intros m Hs H; cbn [fold_result]; [exists m; auto|].
  destruct (obj_sorted_head_fresh k v incs Hs) as [Hk Hs']. destruct (inc_one m k v (H k v ltac:(left))) as (m1 & -> & E1 & Hoth). cbn [mbind result_bind].
  assert (Hne : forall x y, (x, y) ∈ incs -> x <> k).
  { intros x y Hin ->. apply Hk. apply list_elem_of_In, in_map_iff. exists (k, y). split; [reflexivity|apply list_elem_of_In, Hin]. }
  destruct (IH m1 Hs') as (m' & E & Hm'). { intros x y Hin. rewrite Hoth by exact (Hne x y Hin). apply H. right. exact Hin. }
  exists m'. split; [exact E|]. intros x. rewrite Hm'. unfold after_inc. cbn [obj_find]. destruct (bytes_eqb k x) eqn:Ex.
  - apply bytes_eqb_eq in Ex as <-. rewrite (proj2 (obj_find_None k incs) Hk). exact E1.
  - apply bytes_eqb_neq in Ex. rewrite (Hoth x) by congruence. reflexivity.
Qed.

Lemma array_elements l : json_elements (JArray l) = l.
Proof.
  unfold json_elements. cbn [json_items]. change (map snd) with (fmap (M := list) (@snd bytes json)). rewrite fmap_imap. etransitivity; [apply imap_const|]. apply list_fmap_id.
Qed.

(** C26: applying an update with any of the operators [$set], [$unset] and [$inc] to a
    document that is an object succeeds and changes each field in that order and
    nothing else: a field set has the value given, a field unset is gone even if it was
    set, and an incremented field is the sum, counting from zero when it is absent or
    not a number.  [$set] and [$inc] are objects, [$unset] is an array of field names,
    increments are integers, signed or unsigned, a number incremented is an integer as
    well, and the numbers and their sum are within 64-bit signed integers; names are
    fields of the document itself, dots included. *)
Theorem update_exact m upd s u incs :
  obj_find (str "$set") upd = JObject <$> s -> obj_find (str "$unset") upd = (fun u => JArray (JString <$> u)) <$> u -> obj_find (str "$inc") upd = JObject <$> incs ->
  obj_sorted (default [] s) -> obj_sorted (default [] incs) ->
  (forall k v, (k, v) ∈ default [] incs -> summand (after_unset (default [] u) k (after_set (default [] s) k (obj_find k m))) v) ->
  exists m', applyUpdateOps (JObject m) (JObject upd) = Ok (JObject m') /\
    forall k, obj_find k m' = after_inc (default [] incs) k (after_unset (default [] u) k (after_set (default [] s) k (obj_find k m))).
Proof.
  intros Es Eu Ei Hs Hi Hsum. destruct (fold_set (default [] s) m Hs) as (m1 & E1 & H1). destruct (fold_unset (default [] u) m1) as (m2 & E2 & H2).
  destruct (fold_inc (default [] incs) m2 Hi) as (m3 & E3 & H3). { intros k v Hin. rewrite H2, H1. exact (Hsum k v Hin). }
  exists m3. unfold applyUpdateOps, op_items. cbn [json_find]. rewrite Es, Eu, Ei.
  replace (match JObject <$> s with Some v => json_items v | None => [] end) with (default [] s) by (destruct s; reflexivity). rewrite E1. cbn [mbind result_bind].
  replace (match (fun u => JArray (JString <$> u)) <$> u with Some v => json_elements v | None => [] end) with (JString <$> default [] u) by (destruct u; [symmetry; apply array_elements|reflexivity]).
  rewrite E2. cbn [mbind result_bind]. replace (match JObject <$> incs with Some v => json_items v | None => [] end) with (default [] incs) by (destruct incs; reflexivity).
  split; [exact E3|]. intros k. rewrite H3, H2, H1. reflexivity.
Qed.

Lemma update_exact_witness :
  (exists m', applyUpdateOps (JObject [(str "a", JInt 1); (str "b", JString (str "x")); (str "c", JNull)])
    (JObject [(str "$inc", JObject [(str "a", JUInt 5)]); (str "$set", JObject [(str "d", JBool true)]); (str "$unset", JArray (JString <$> [str "c"]))]) = Ok (JObject m') /\
    obj_find (str "a") m' = Some (JInt 6) /\ obj_find (str "c") m' = None /\ obj_find (str "d") m' = Some (JBool true)) /\
  exists m', applyUpdateOps (JObject []) (JObject [(str "$set", JObject [(str "d", JNull)])]) = Ok (JObject m') /\ obj_find (str "d") m' = Some JNull.
Proof.
  split.
  - destruct (update_exact [(str "a", JInt 1); (str "b", JString (str "x")); (str "c", JNull)]
      [(str "$inc", JObject [(str "a", JUInt 5)]); (str "$set", JObject [(str "d", JBool true)]); (str "$unset", JArray (JString <$> [str "c"]))]
      (Some [(str "d", JBool true)]) (Some [str "c"]) (Some [(str "a", JUInt 5)]) eq_refl eq_refl eq_refl) as (m' & E & H).
    + repeat constructor.
    + repeat constructor.
    + intros k v Hin. apply list_elem_of_singleton in Hin as [= -> ->]. split; [intros o [= <-] _; eexists; reflexivity|]. exists 5. split; [reflexivity|eexists; reflexivity].
    + exists m'. split; [exact E|]. rewrite !H. repeat split.
  - destruct (update_exact [] [(str "$set", JObject [(str "d", JNull)])] (Some [(str "d", JNull)]) None None eq_refl eq_refl eq_refl) as (m' & E & H).
    + repeat constructor.
    + constructor.
    + intros k v Hin. inversion Hin.
    + exists m'. split; [exact E|]. rewrite H. reflexivity.
Defined.

(** Increments go through integers: a fraction is cut off, in the field and in the increment. *)
Example inc_truncates : (* 1.5 incremented by 0.75 *)
  applyUpdateOps (JObject [(str "a", JFloat 0x3FF8000000000000)]) (JObject [(str "$inc", JObject [(str "a", JFloat 0x3FE8000000000000)])]) = Ok (JObject [(str "a", JInt 1)]).
Proof. vm_compute. reflexivity. Qed.

(** [$unset] given as an object removes the field its value names, not the one its key names. *)
Example unset_object_uses_values :
  applyUpdateOps (JObject [(str "a", JInt 1); (str "b", JInt 2)]) (JObject [(str "$unset", JObject [(str "a", JString (str "b"))])]) = Ok (JObject [(str "a", JInt 1)]).
Proof. vm_compute. reflexivity. Qed.
