(* ===== verification/Aggregate.v ===== *)
(** * Aggregation pipelines (community_query.cpp)

    [aggregateDocuments] checks a pipeline and runs its stages over an array of
    documents, reporting how many documents go into and come out of each stage. *)

From stdpp Require Import base list strings sorting.
From Stdlib Require Import ZArith Lia Permutation.
From S2P Require Import Prelude Json Msgpack JsonValue Float64 JsonCompare Query UpdateOps.

Open Scope Z_scope.

Section Aggregate.
Context `{QL : QueryLib} `{JT : JsonText}.

(** ** Validation *)

(** [get<int>()] and [get<long long>()] of an integer. *)
Definition direction_ok (d : json) : bool :=
  is_number_integer d && match as_i32 d with Some n => (n =? 1) || (n =? -1) | None => false end.

Definition integer_at_least (lo : Z) (v : json) : bool :=
  is_number_integer v && match as_i64 v with Some n => lo <=? n | None => false end.

(** One stage; [last] when no stage follows. *)
Definition check_stage (stage : json) (last : bool) : result unit :=
  match stage with
  | JObject [(name, v)] =>
      if bytes_eqb name (str "$match") then (if is_object v then Ok tt else Err "$match must be an object")
      else if bytes_eqb name (str "$project") then
        match v with
        | JObject ((_ :: _) as fields) =>
            if forallb (fun kv => json_eqb kv.2 (JInt 1) || json_eqb kv.2 (JBool true)) fields then Ok tt else Err "Community $project supports inclusion only"
        | _ => Err "$project must be a nonempty object"
        end
      else if bytes_eqb name (str "$sort") then
        match v with
        | JObject ((_ :: _) as fields) => if forallb (fun kv => direction_ok kv.2) fields then Ok tt else Err "$sort directions must be 1 or -1"
        | _ => Err "$sort must be a nonempty object"
        end
      else if bytes_eqb name (str "$skip") then (if integer_at_least 0 v then Ok tt else Err "$skip must be a nonnegative integer")
      else if bytes_eqb name (str "$limit") then (if integer_at_least 1 v then Ok tt else Err "$limit must be a positive integer")
      else if bytes_eqb name (str "$count") then
        match v with
        | JString (_ :: _) => if last then Ok tt else Err "$count must be terminal with a field name"
        | _ => Err "$count must be terminal with a field name"
        end
      else Err "unsupported Community aggregation stage"
  | _ => Err "each aggregation stage must have one operator"
  end.

Fixpoint check_stages (stages : list json) : result unit :=
  match stages with
  | [] => Ok tt
  | stage :: rest => _ ← check_stage stage (match rest with [] => true | _ => false end); check_stages rest
  end.

Definition validatePipeline (pipeline : json) : result (list json) :=
  match pipeline with
  | JArray stages => _ ← check_stages stages; Ok stages
  | _ => Err "pipeline must be an array"
  end.

(** ** Sorting *)

Definition compareJson (left right : json) : result Z :=
  if json_eqb left right then Ok 0
  else
    match as_double left, as_double right with
    | Some a, Some b => Ok (if dlt a b then -1 else 1)
    | _, _ =>
        match left, right with
        | JString a, JString b => Ok (if bytes_ltb a b then -1 else 1)
        | _, _ =>
            a ← or_err (json_dump left) "type_error.316";
            b ← or_err (json_dump right) "type_error.316";
            Ok (if bytes_ltb a b then -1 else 1)
        end
    end.

(** [doc.value(field, json())]. *)
Definition field_or_null (doc : json) (field : bytes) : result json := value Some doc field JNull.

(** The comparison of the [$sort] stage. *)
Fixpoint sort_less (fields : object) (a b : json) : result bool :=
  match fields with
  | [] => Ok false
  | (field, direction) :: rest =>
      left ← field_or_null a field;
      right ← field_or_null b field;
      order ← compareJson left right;
      if order =? 0 then sort_less rest a b
      else Ok (match as_i32 direction with Some 1 => order <? 0 | _ => 0 <? order end)
  end.

(** [std::stable_sort], as an insertion from the right: an element goes before the
    first one that is not smaller.  A comparison that throws ends it. *)
Fixpoint insert_stable (less : json -> json -> result bool) (x : json) (l : list json) : result (list json) :=
  match l with
  | [] => Ok [x]
  | y :: rest => lt ← less y x; if lt : bool then (rest ← insert_stable less x rest; Ok (y :: rest)) else Ok (x :: l)
  end.

Fixpoint stable_sort (less : json -> json -> result bool) (l : list json) : result (list json) :=
  match l with
  | [] => Ok []
  | x :: l => l ← stable_sort less l; insert_stable less x l
  end.

(** ** Stages *)

Fixpoint filter_result (f : json -> result bool) (l : list json) : result (list json) :=
  match l with
  | [] => Ok []
  | x :: l => b ← f x; l ← filter_result f l; Ok (if b : bool then x :: l else l)
  end.

(** [projected[field] = document[field]] for the fields the document has. *)
Definition project_document (fields : object) (doc : json) : json :=
  JObject (fold_left (fun m kv => match json_find kv.1 doc with Some v => obj_insert kv.1 v m | None => m end) fields []).

Definition run_stage (name : bytes) (v : json) (documents : list json) : result (list json) :=
  if bytes_eqb name (str "$match") then filter_result (fun doc => db_match doc v) documents
  else if bytes_eqb name (str "$project") then Ok (map (project_document (json_items v)) documents)
  else if bytes_eqb name (str "$sort") then stable_sort (sort_less (json_items v)) documents
  else if bytes_eqb name (str "$skip") then n ← or_err (as_u64 v) "type_error.302"; Ok (drop (Z.to_nat n) documents)
  else if bytes_eqb name (str "$limit") then n ← or_err (as_u64 v) "type_error.302"; Ok (take (Z.to_nat n) documents)
  else if bytes_eqb name (str "$count") then
    field ← or_err (as_string v) "type_error.302";
    Ok [JObject [(field, JUInt (Z.of_nat (length documents)))]]
  else Ok documents.

Definition stage_report (name : bytes) (input output : nat) : json :=
  JObject [(str "input_count", JUInt (Z.of_nat input)); (str "output_count", JUInt (Z.of_nat output)); (str "stage", JString name)].

Fixpoint run_stages (stages : list json) (documents : list json) : result (list json * list json) :=
  match stages with
  | [] => Ok (documents, [])
  | JObject ((name, v) :: _) :: rest =>
      out ← run_stage name v documents;
      r ← run_stages rest out;
      Ok (r.1, stage_report name (length documents) (length out) :: r.2)
  | _ :: _ => Err "invalid_iterator.214"
  end.

Definition aggregateDocuments (documents pipeline : json) : result json :=
  match documents with
  | JArray docs =>
      stages ← validatePipeline pipeline;
      r ← run_stages stages docs;
      Ok (JObject [(str "documents", JArray r.1); (str "stages", JArray r.2)])
  | _ => Err "documents must be an array"
  end.

(** ** Explaining a filter *)

Definition explainFind (filter : json) : result json :=
  match filter with
  | JObject m =>
      match List.find (fun kv => negb (is_object kv.2) && negb (is_array kv.2)) m with
      | Some (field, _) =>
          Ok (JObject [(str "field", JString field); (str "plan", JString (str "INDEX_LOOKUP")); (str "reason", JString (str "simple scalar equality predicate"))])
      | None => Ok (JObject [(str "plan", JString (str "FULL_SCAN")); (str "reason", JString (str "no simple scalar equality predicate"))])
      end
  | _ => Err "filter must be an object"
  end.

(** ** Sorting is stable and in order *)

Section Sort.
Context (less : json -> json -> result bool) (lt : json -> json -> bool) (Ok_in : json -> Prop).
Context (Hless : forall a b, Ok_in a -> Ok_in b -> less a b = Ok (lt a b)).
Context (Hasym : forall a b, Ok_in a -> Ok_in b -> lt a b = true -> lt b a = false).
Context (Htrans : forall a b c, Ok_in a -> Ok_in b -> Ok_in c -> lt b a = false -> lt c b = false -> lt c a = false).

(** No element is smaller than an earlier one. *)
Definition in_order (l : list json) : Prop := StronglySorted (fun a b => lt b a = false) l.

Lemma insert_spec x l : Ok_in x -> Forall Ok_in l -> in_order l ->
  exists l', insert_stable less x l = Ok l' /\ in_order l' /\ l' ≡ₚ x :: l /\
    forall p : json -> bool, (forall y, Ok_in y -> p y = true -> p x = true -> lt y x = false) -> List.filter p l' = List.filter p (x :: l).
Proof.
  intros Hx. induction l as [|y l IH]; intros Hl Hs; cbn [insert_stable]; [exists [x]; split; [reflexivity|]; split; [repeat constructor|auto]|].
  apply Forall_cons in Hl as [Hy Hl]. unfold in_order in Hs. apply StronglySorted_cons in Hs as [Hyl Hs]. rewrite (Hless y x Hy Hx). cbn [mbind result_bind].
  destruct (lt y x) eqn:E.
  - destruct (IH Hl Hs) as (l' & -> & Ho & Hp & Hf). exists (y :: l'). cbn [mbind result_bind]. split; [reflexivity|]. split; [|split; [rewrite Hp; apply perm_swap|]].
    + apply StronglySorted_cons. split; [|exact Ho]. rewrite Hp. constructor; [exact (Hasym y x Hy Hx E)|exact Hyl].
    + intros p Hpx. cbn [List.filter]. rewrite (Hf p Hpx). cbn [List.filter]. destruct (p y) eqn:Ey, (p x) eqn:Ex; try reflexivity. rewrite (Hpx y Hy Ey eq_refl) in E. discriminate.
  - exists (x :: y :: l). split; [reflexivity|]. split; [|auto]. apply StronglySorted_cons. split; [|apply StronglySorted_cons; auto]. constructor; [exact E|].
    rewrite Forall_forall in Hyl, Hl |- *. intros z Hz. exact (Htrans x y z Hx Hy (Hl z Hz) E (Hyl z Hz)).
Qed.

(** Sorted, a permutation, and elements that are not ordered keep their order. *)
Lemma sort_spec l : Forall Ok_in l -> exists l', stable_sort less l = Ok l' /\ in_order l' /\ l' ≡ₚ l /\
  forall p : json -> bool, (forall x y, Ok_in x -> Ok_in y -> p x = true -> p y = true -> lt x y = false) -> List.filter p l' = List.filter p l.
Proof.
  induction l as [|x l IH]; intros Hl; cbn [stable_sort]; [exists []; split; [reflexivity|]; split; [constructor|auto]|]. apply Forall_cons in Hl as [Hx Hl].
  destruct (IH Hl) as (l1 & -> & Ho1 & Hp1 & Hf1). cbn [mbind result_bind]. destruct (insert_spec x l1 Hx) as (l' & E & Ho & Hp & Hf); [rewrite Hp1; exact Hl|exact Ho1|].
  exists l'. split; [exact E|]. split; [exact Ho|]. split; [rewrite Hp, Hp1; reflexivity|]. intros p Hpp. rewrite Hf by (intros y Hy Hy' Hx'; exact (Hpp y x Hy Hx Hy' Hx')).
  cbn [List.filter]. rewrite (Hf1 p Hpp). reflexivity.
Qed.
End Sort.
End Aggregate.
