(* ===== verification/AggregateLaws.v ===== *)
(** * What pipelines compute (community_query.cpp)

    Sorting by text fields, pages of matching documents, and the counts that are
    reported. *)

From stdpp Require Import base list strings sorting.
From Stdlib Require Import ZArith Lia Permutation.
From S2P Require Import Prelude Json Msgpack JsonValue Float64 JsonCompare Query QueryMeaning QueryLaws UpdateOps Aggregate.

Open Scope Z_scope.

Section AggregateLaws.
Context `{QL : QueryLib} `{JT : JsonText}.

(** ** Sorting by text *)

Definition text_of (doc : json) (field : bytes) : bytes := match json_find field doc with Some (JString s) => s | _ => [] end.

(** An object with a text in every field of the sort. *)
Definition has_texts (fields : object) (doc : json) : Prop :=
  is_object doc = true /\ Forall (fun kv => exists s, json_find kv.1 doc = Some (JString s)) fields.

Definition along (direction : json) (c : comparison) : comparison := match as_i32 direction with Some 1 => c | _ => CompOpp c end.

(** The first field in which the documents differ decides. *)
Fixpoint text_compare (fields : object) (a b : json) : comparison :=
  match fields with
  | [] => Datatypes.Eq
  | (field, direction) :: rest =>
      match along direction (bytes_compare (text_of a field) (text_of b field)) with
      | Datatypes.Eq => text_compare rest a b
      | c => c
      end
  end.

Definition text_less (fields : object) (a b : json) : bool := match text_compare fields a b with Datatypes.Lt => true | _ => false end.

Lemma field_or_null_find doc f v : is_object doc = true -> json_find f doc = Some v -> field_or_null doc f = Ok v.
Proof. destruct doc; try discriminate. intros _ H. unfold field_or_null. rewrite value_object. cbn in H. rewrite H. reflexivity. Qed.

Lemma compare_texts s t : compareJson (JString s) (JString t) = Ok (match bytes_compare s t with Datatypes.Eq => 0 | Datatypes.Lt => -1 | Datatypes.Gt => 1 end).
Proof.
  unfold compareJson. cbn [json_eqb as_double]. unfold bytes_ltb. destruct (bytes_eqb s t) eqn:E.
  - apply bytes_eqb_eq in E as ->. rewrite bytes_compare_refl. reflexivity.
  - apply bytes_eqb_neq in E. destruct (bytes_compare s t) eqn:Ec; try reflexivity. apply bytes_compare_eq in Ec. contradiction.
Qed.

Lemma sort_less_texts fields a b : has_texts fields a -> has_texts fields b -> sort_less fields a b = Ok (text_less fields a b).
Proof.
  intros [Ha Hfa] [Hb Hfb]. unfold text_less. induction fields as [|[f d] fields IH]; cbn [sort_less text_compare]; [reflexivity|].
  apply Forall_cons in Hfa as [[s Es] Hfa]. apply Forall_cons in Hfb as [[t Et] Hfb]. cbn [fst] in Es, Et.
  rewrite (field_or_null_find a f _ Ha Es), (field_or_null_find b f _ Hb Et). cbn [mbind result_bind]. rewrite compare_texts. cbn [mbind result_bind].
  unfold text_of. rewrite Es, Et. unfold along. destruct (bytes_compare s t); cbn [Z.eqb]; [destruct (as_i32 d) as [[|[]|]|]; apply IH; assumption|..];
    destruct (as_i32 d) as [[|[]|]|]; reflexivity.
Qed.

Lemma along_cases d : (forall c, along d c = c) \/ (forall c, along d c = CompOpp c).
Proof. unfold along. destruct (as_i32 d) as [[|[]|]|]; auto. Qed.

Lemma along_opp d c : along d (CompOpp c) = CompOpp (along d c).
Proof. destruct (along_cases d) as [H|H]; rewrite !H; reflexivity. Qed.

Lemma text_compare_antisym fields a b : text_compare fields b a = CompOpp (text_compare fields a b).
Proof.
  induction fields as [|[f d] fields IH]; cbn [text_compare]; [reflexivity|]. rewrite (bytes_compare_antisym (text_of a f)), along_opp.
  destruct (along d (bytes_compare (text_of a f) (text_of b f))); [exact IH|reflexivity|reflexivity].
Qed.

Lemma along_trans d x y z : along d (bytes_compare x y) <> Datatypes.Gt -> along d (bytes_compare y z) <> Datatypes.Gt ->
  along d (bytes_compare x z) <> Datatypes.Gt /\ (along d (bytes_compare x z) = Datatypes.Eq -> x = y /\ y = z).
Proof.
  assert (Hle : forall x y z, bytes_compare x y <> Datatypes.Gt -> bytes_compare y z <> Datatypes.Gt ->
    bytes_compare x z <> Datatypes.Gt /\ (bytes_compare x z = Datatypes.Eq -> x = y /\ y = z)).
  { clear. intros x y z H1 H2. split; [exact (bytes_le_trans x y z H1 H2)|]. intros E. apply bytes_compare_eq in E as ->.
    destruct (bytes_compare z y) eqn:E; [apply bytes_compare_eq in E as ->; auto| |contradiction]. rewrite bytes_compare_antisym, E in H2. cbn in H2. contradiction. }
  destruct (along_cases d) as [Ha|Ha]; rewrite !Ha; [apply Hle|]. rewrite <- !bytes_compare_antisym. intros H1 H2.
  destruct (Hle z y x H2 H1) as [H3 H4]. split; [exact H3|]. intros E. destruct (H4 E) as [-> ->]. auto.
Qed.

Lemma text_compare_trans fields a b c : text_compare fields a b <> Datatypes.Gt -> text_compare fields b c <> Datatypes.Gt -> text_compare fields a c <> Datatypes.Gt.
Proof.
  induction fields as [|[f d] fields IH]; cbn [text_compare]; [auto|]. intros H1 H2.
  destruct (along_trans d (text_of a f) (text_of b f) (text_of c f)) as [H3 H4].
  - intros E. rewrite E in H1. contradiction.
  - intros E. rewrite E in H2. contradiction.
  - destruct (along d (bytes_compare (text_of a f) (text_of c f))) eqn:E; [|discriminate|contradiction]. destruct (H4 eq_refl) as [E1 E2]. rewrite E1, E2 in *.
    rewrite bytes_compare_refl in H1, H2. unfold along in H1, H2. destruct (as_i32 d) as [[|[]|]|]; cbn in H1, H2; auto.
Qed.

Lemma text_less_false fields a b : text_less fields b a = false <-> text_compare fields a b <> Datatypes.Gt.
Proof. unfold text_less. rewrite (text_compare_antisym fields a b). destruct (text_compare fields a b); cbn; split; congruence. Qed.

(** The [$sort] stage on documents whose sort fields are texts gives the same
    documents, with none smaller than an earlier one, field by field in the given
    directions; documents equal in all sort fields keep their order. *)
Theorem sort_stage_stable fields docs : Forall (has_texts fields) docs ->
  exists out, run_stage (str "$sort") (JObject fields) docs = Ok out /\ out ≡ₚ docs /\ StronglySorted (fun a b => text_compare fields a b <> Datatypes.Gt) out /\
    forall x, List.filter (fun y => match text_compare fields x y with Datatypes.Eq => true | _ => false end) out =
              List.filter (fun y => match text_compare fields x y with Datatypes.Eq => true | _ => false end) docs.
Proof.
  intros H. change (run_stage (str "$sort") (JObject fields) docs) with (stable_sort (sort_less fields) docs).
  destruct (sort_spec (sort_less fields) (text_less fields) (has_texts fields)) with (l := docs) as (out & E & Ho & Hp & Hf).
  - intros a b Ha Hb. exact (sort_less_texts fields a b Ha Hb).
  - intros a b _ _ Hab. unfold text_less in *. rewrite (text_compare_antisym fields a b). destruct (text_compare fields a b); [discriminate|reflexivity|discriminate].
  - intros a b c _ _ _. rewrite !text_less_false. apply text_compare_trans.
  - exact H.
  - exists out. split; [exact E|]. split; [exact Hp|]. split.
    + unfold in_order in Ho. clear -Ho. induction Ho as [|a l _ IH Ha]; constructor; [exact IH|]. eapply Forall_impl; [exact Ha|]. intros b. apply text_less_false.
    + intros x. apply Hf. intros y z _ _ Hy Hz. apply text_less_false. apply (text_compare_trans fields z x y).
      * rewrite (text_compare_antisym fields x z). destruct (text_compare fields x z); [discriminate|discriminate|discriminate].
      * destruct (text_compare fields x y); discriminate.
Qed.

(** ** Counts *)

(** Each stage starts with what the one before it left. *)
Fixpoint counts_chain (n : nat) (reports : list json) (m : nat) : Prop :=
  match reports with
  | [] => n = m
  | r :: rest => exists name k, r = stage_report name n k /\ counts_chain k rest m
  end.

Lemma run_stages_counts stages : forall docs out reports, run_stages stages docs = Ok (out, reports) ->
  length reports = length stages /\ counts_chain (length docs) reports (length out).
Proof.
  induction stages as [|stage stages IH]; intros docs out reports H; cbn [run_stages] in H; [apply Ok_inj in H as [= <- <-]; cbn; auto|].
  destruct stage as [| | | | | | | |[|[name v] m]]; try discriminate. apply bind_Ok in H as (mid & _ & H). apply bind_Ok in H as ([out' reports'] & E & H).
  apply Ok_inj in H as [= <- <-]. destruct (IH _ _ _ E) as [H1 H2]. cbn [length fst snd counts_chain]. split; [rewrite H1; reflexivity|eauto].
Qed.

(** ** Pages of matching documents *)

Lemma filter_match c docs : cond_ok c -> filter_result (fun doc => db_match doc (filter_of c)) docs = Ok (List.filter (holds c) docs).
Proof.
  intros Hc. induction docs as [|doc docs IH]; cbn [filter_result List.filter]; [reflexivity|]. rewrite (cond_match c doc Hc). cbn [mbind result_bind]. rewrite IH. reflexivity.
Qed.

Definition stage (name : bytes) (v : json) : json := JObject [(name, v)].

(** The JSON integers with a value, signed or unsigned. *)
Definition counts (j : json) (z : Z) : Prop := (j = JInt z \/ j = JUInt z) /\ z < 2 ^ 63.

Lemma count_reads j z : counts j z -> 0 <= z -> as_u64 j = Some z /\ as_i64 j = Some z /\ is_number_integer j = true.
Proof.
  intros [[->| ->] H] Hz; cbn [as_u64 as_i64 is_number_integer]; unfold u64; rewrite Z.mod_small by lia; [auto|].
  unfold to_signed. destruct (Z.ltb_spec z (2 ^ (64 - 1))); [auto|lia].
Qed.

Lemma count_at_least j z lo : counts j z -> 0 <= lo <= z -> integer_at_least lo j = true.
Proof. intros H Hz. destruct (count_reads j z H ltac:(lia)) as (_ & E & Hi). unfold integer_at_least. rewrite E, Hi. destruct (Z.leb_spec lo z); [reflexivity|lia]. Qed.

Lemma check_match c last : check_stage (stage (str "$match") (filter_of c)) last = Ok tt.
Proof. destruct c; reflexivity. Qed.

Lemma check_sort fields last : fields <> [] -> forallb (fun kv => direction_ok kv.2) fields = true -> check_stage (stage (str "$sort") (JObject fields)) last = Ok tt.
Proof.
  intros Hne H. destruct fields as [|kv fields]; [congruence|].
  change (check_stage (stage (str "$sort") (JObject (kv :: fields))) last) with (if forallb (fun kv => direction_ok kv.2) (kv :: fields) then Ok tt else Err "$sort directions must be 1 or -1").
  rewrite H. reflexivity.
Qed.

Lemma check_skip j z last : counts j z -> 0 <= z -> check_stage (stage (str "$skip") j) last = Ok tt.
Proof.
  intros H Hz. change (check_stage (stage (str "$skip") j) last) with (if integer_at_least 0 j then Ok tt else Err "$skip must be a nonnegative integer").
  rewrite (count_at_least j z) by (assumption || lia). reflexivity.
Qed.

Lemma check_limit j z last : counts j z -> 1 <= z -> check_stage (stage (str "$limit") j) last = Ok tt.
Proof.
  intros H Hz. change (check_stage (stage (str "$limit") j) last) with (if integer_at_least 1 j then Ok tt else Err "$limit must be a positive integer").
  rewrite (count_at_least j z) by (assumption || lia). reflexivity.
Qed.

Lemma run_skip j z docs : counts j z -> 0 <= z -> run_stage (str "$skip") j docs = Ok (drop (Z.to_nat z) docs).
Proof.
  intros H Hz. change (run_stage (str "$skip") j docs) with (n ← or_err (as_u64 j) "type_error.302"; Ok (drop (Z.to_nat n) docs)).
  rewrite (proj1 (count_reads j z H Hz)). reflexivity.
Qed.

Lemma run_limit j z docs : counts j z -> 0 <= z -> run_stage (str "$limit") j docs = Ok (take (Z.to_nat z) docs).
Proof.
  intros H Hz. change (run_stage (str "$limit") j docs) with (n ← or_err (as_u64 j) "type_error.302"; Ok (take (Z.to_nat n) docs)).
  rewrite (proj1 (count_reads j z H Hz)). reflexivity.
Qed.

Lemma run_match c docs : cond_ok c -> forallb (applies c) docs = true -> run_stage (str "$match") (filter_of c) docs = Ok (List.filter (satisfies c) docs).
Proof.
  intros Hc Ha. change (run_stage (str "$match") (filter_of c) docs) with (filter_result (fun doc => db_match doc (filter_of c)) docs). rewrite (filter_match c docs Hc). f_equal.
  apply List.filter_ext_in. intros doc Hd. apply holds_satisfies; [exact Hc|]. rewrite forallb_forall in Ha. exact (Ha doc Hd).
Qed.

(** The documents in the order of the sort fields, equal ones as they were. *)
Definition sorted_stably (fields : object) (docs out : list json) : Prop :=
  out ≡ₚ docs /\ StronglySorted (fun a b => text_compare fields a b <> Datatypes.Gt) out /\
  forall x, List.filter (fun y => match text_compare fields x y with Datatypes.Eq => true | _ => false end) out =
            List.filter (fun y => match text_compare fields x y with Datatypes.Eq => true | _ => false end) docs.

(** C27: a pipeline of [$match], [$sort], [$skip] and [$limit] returns that page of the
    documents that satisfy the condition, sorted: no document comes after one it
    precedes in the first sort field in which they differ, by the bytes of the texts
    there and in the field's direction, and documents equal in all sort fields keep
    their order; it reports the number of documents before and after each stage.  With
    [$count] after [$match] it returns the number of matches, under a name that is not
    empty.  The condition and the documents are as for filters ([cond_ok] and
    [applies], for every document); every match is an object with a text in each sort
    field, a field of the document itself; there is a sort field, taken in the order
    of the sort object, which keeps its keys sorted by name, and each direction is 1
    or -1 as a 32-bit integer; the skip is from 0 and the limit from 1 to below 2^63,
    each signed or unsigned. *)
Theorem pipeline_page c fields docs js s jl l field b :
  cond_ok c -> forallb (applies c) docs = true ->
  fields <> [] -> forallb (fun kv => direction_ok kv.2) fields = true -> Forall (has_texts fields) (List.filter (satisfies c) docs) ->
  counts js s -> 0 <= s -> counts jl l -> 1 <= l ->
  let hits := List.filter (satisfies c) docs in
  (exists sorted, sorted_stably fields hits sorted /\
    let page := take (Z.to_nat l) (drop (Z.to_nat s) sorted) in
    aggregateDocuments (JArray docs)
      (JArray [stage (str "$match") (filter_of c); stage (str "$sort") (JObject fields); stage (str "$skip") js; stage (str "$limit") jl]) =
    Ok (JObject [(str "documents", JArray page);
                 (str "stages", JArray [stage_report (str "$match") (length docs) (length hits); stage_report (str "$sort") (length hits) (length hits);
                                        stage_report (str "$skip") (length hits) (length hits - Z.to_nat s);
                                        stage_report (str "$limit") (length hits - Z.to_nat s) (length page)])])) /\
  aggregateDocuments (JArray docs) (JArray [stage (str "$match") (filter_of c); stage (str "$count") (JString (b :: field))]) =
    Ok (JObject [(str "documents", JArray [JObject [(b :: field, JUInt (Z.of_nat (length hits)))]]);
                 (str "stages", JArray [stage_report (str "$match") (length docs) (length hits); stage_report (str "$count") (length hits) 1])]).
Proof.
  intros Hc Ha Hne Hd Ht Hs Hs0 Hl Hl1 hits. pose proof (run_match c docs Hc Ha) as Hrun. fold hits in Hrun, Ht. split.
  - destruct (sort_stage_stable fields hits Ht) as (sorted & Hsort & Hp & Hrest). exists sorted. split; [exact (conj Hp Hrest)|]. intros page.
    unfold aggregateDocuments, validatePipeline. cbn [check_stages]. rewrite check_match, (check_sort fields _ Hne Hd), (check_skip js s _ Hs Hs0), (check_limit jl l _ Hl Hl1).
    cbn [mbind result_bind run_stages stage]. rewrite Hrun. cbn [mbind result_bind]. rewrite Hsort. cbn [mbind result_bind]. rewrite (run_skip js s _ Hs Hs0). cbn [mbind result_bind].
    rewrite (run_limit jl l _ Hl) by lia. cbn [mbind result_bind fst snd]. fold page. rewrite length_drop, (Permutation_length Hp). reflexivity.
  - unfold aggregateDocuments, validatePipeline. cbn [check_stages]. rewrite check_match. cbn [mbind result_bind].
    change (check_stage (stage (str "$count") (JString (b :: field))) true) with (@Ok unit tt). cbn [mbind result_bind run_stages stage]. rewrite Hrun. cbn [mbind result_bind].
    change (run_stage (str "$count") (JString (b :: field)) hits) with (@Ok (list json) [JObject [(b :: field, JUInt (Z.of_nat (length hits)))]]). reflexivity.
Qed.
End AggregateLaws.

(** ** Examples *)

#[local] Existing Instance plain_lib.
#[local] Existing Instance no_text.

Definition person (n t : string) : json := JObject [(str "name", JString (str n)); (str "team", JString (str t))].
Definition people : list json := [person "ann" "red"; person "bob" "blue"; person "cid" "red"; person "dan" "blue"].

Lemma sort_stage_stable_witness :
  exists out, run_stage (str "$sort") (JObject [(str "team", JInt (-1))]) people = Ok out /\ out ≡ₚ people /\
    out = [person "ann" "red"; person "cid" "red"; person "bob" "blue"; person "dan" "blue"].
Proof.
  assert (H : Forall (has_texts [(str "team", JInt (-1))]) people).
  { repeat constructor; try (eexists; reflexivity). }
  destruct (sort_stage_stable [(str "team", JInt (-1))] people H) as (out & E & Hp & _). exists out. split; [exact E|]. split; [exact Hp|].
  apply Ok_inj. rewrite <- E. vm_compute. reflexivity.
Defined.

Definition in_red : cond := Fields [(str "team", [Eq (JString (str "red"))])].

Lemma pipeline_page_witness :
  exists sorted, sorted_stably [(str "name", JInt (-1))] [person "ann" "red"; person "cid" "red"] sorted /\
    aggregateDocuments (JArray people)
      (JArray [stage (str "$match") (filter_of in_red); stage (str "$sort") (JObject [(str "name", JInt (-1))]); stage (str "$skip") (JUInt 1); stage (str "$limit") (JUInt 5)]) =
    Ok (JObject [(str "documents", JArray (take 5 (drop 1 sorted)));
                 (str "stages", JArray [stage_report (str "$match") 4 2; stage_report (str "$sort") 2 2; stage_report (str "$skip") 2 1;
                                        stage_report (str "$limit") 1 (length (take 5 (drop 1 sorted)))])]).
Proof.
  assert (H : cond_ok in_red) by (repeat constructor; discriminate).
  destruct (pipeline_page in_red [(str "name", JInt (-1))] people (JUInt 1) 1 (JUInt 5) 5 [] (byte_of 110) H ltac:(vm_compute; reflexivity) ltac:(discriminate) ltac:(vm_compute; reflexivity))
    as [(sorted & Hs & E) _].
  - vm_compute. repeat constructor; eexists; reflexivity.
  - split; [right; reflexivity|lia].
  - lia.
  - split; [right; reflexivity|lia].
  - lia.
  - exists sorted. split; [exact Hs|exact E].
Defined.

(** Integers above 2^53 that are equal as doubles: in a descending sort each is smaller than the other, which no sort allows. *)
Example descending_order_inconsistent :
  let a := JObject [(str "n", JInt 9007199254740992)] in
  let b := JObject [(str "n", JInt 9007199254740993)] in
  sort_less [(str "n", JInt (-1))] a b = Ok true /\ sort_less [(str "n", JInt (-1))] b a = Ok true.
Proof. split; vm_compute; reflexivity. Qed.

(** A plan with an index is reported for any scalar value, whether or not there is an index. *)
Example explain_needs_no_index :
  explainFind (JObject [(str "anything", JInt 1)]) =
    Ok (JObject [(str "field", JString (str "anything")); (str "plan", JString (str "INDEX_LOOKUP")); (str "reason", JString (str "simple scalar equality predicate"))]).
Proof. reflexivity. Qed.
