(* ===== verification/MediaUpload.v ===== *)
(** * Media uploads (media_upload_state.cpp)

    The states of an upload, and its progress rebuilt from the manifest and the
    metadata of the chunks that are stored. *)

From stdpp Require Import base list strings sorting gmap.
From Stdlib Require Import ZArith Lia.
From S2P Require Import Prelude Json Msgpack JsonValue JsonCompare.

Open Scope Z_scope.

(** ** States *)

Inductive MediaState := uploading | verifying | ready | failed | aborted.

#[global] Instance MediaState_eq : EqDecision MediaState.
Proof. solve_decision. Defined.

Definition mediaStateName (s : MediaState) : bytes :=
  match s with
  | uploading => str "uploading" | verifying => str "verifying" | ready => str "ready" | failed => str "failed" | aborted => str "aborted"
  end.

Definition parseMediaState (v : bytes) : result MediaState :=
  if bytes_eqb v (str "uploading") then Ok uploading
  else if bytes_eqb v (str "verifying") then Ok verifying
  else if bytes_eqb v (str "ready") then Ok ready
  else if bytes_eqb v (str "failed") then Ok failed
  else if bytes_eqb v (str "aborted") then Ok aborted
  else Err "unknown media state".

Definition canTransition (from to : MediaState) : bool :=
  bool_decide (from = to) ||
  match from with
  | uploading => bool_decide (to = verifying) || bool_decide (to = failed) || bool_decide (to = aborted)
  | verifying => bool_decide (to = uploading) || bool_decide (to = ready) || bool_decide (to = failed) || bool_decide (to = aborted)
  | failed => bool_decide (to = aborted)
  | ready | aborted => false
  end.

(** ** Progress *)

Record MediaProgress := mkProgress {
  stateVersion : Z; receivedChunks : Z; receivedBytes : Z; nextMissingIndex : Z; leaseExpiresAtMs : Z; receivedIndices : list Z }.

Record ChunkIdentity := mkChunk { chunk_size : Z; chunk_sha256 : bytes }.

#[global] Instance ChunkIdentity_eq : EqDecision ChunkIdentity.
Proof. solve_decision. Defined.

(** [std::map<long long, ChunkIdentity>], as its contents in order of the index. *)
Abbreviation durable := (list (Z * ChunkIdentity)).

(** [durable.emplace]: the entry under the index, and the map with it. *)
Fixpoint emplace (i : Z) (c : ChunkIdentity) (d : durable) : ChunkIdentity * durable :=
  match d with
  | [] => (c, [(i, c)])
  | (j, e) :: rest =>
      if i <? j then (c, (i, c) :: d)
      else if i =? j then (e, d)
      else let '(r, rest) := emplace i c rest in (r, (j, e) :: rest)
  end.

(** The metadata of one chunk. *)
Definition read_chunk (chunkCount : Z) (chunk : json) : result (Z * ChunkIdentity) :=
  if negb (is_object chunk) then Err "media chunk metadata must be an object"
  else
    index ← value as_i64 chunk (str "index") (-1);
    chunkBytes ← value as_i64 chunk (str "size_bytes") (-1);
    sha256 ← value as_string chunk (str "sha256") [];
    if (index <? 0) || (chunkCount <=? index) || (chunkBytes <? 0) then Err "media chunk progress is out of range"
    else Ok (index, mkChunk chunkBytes sha256).

Definition add_chunk (chunkCount : Z) (d : durable) (chunk : json) : result durable :=
  ic ← read_chunk chunkCount chunk;
  let '(entry, d) := emplace ic.1 ic.2 d in
  if bool_decide (entry = ic.2) then Ok d else Err "conflicting duplicate media chunk metadata".

Fixpoint add_chunks (chunkCount : Z) (d : durable) (chunks : list json) : result durable :=
  match chunks with
  | [] => Ok d
  | chunk :: rest => d ← add_chunk chunkCount d chunk; add_chunks chunkCount d rest
  end.

(** The bytes of all chunks, within the size of the manifest. *)
Fixpoint sum_chunks (sizeBytes received : Z) (d : durable) : result Z :=
  match d with
  | [] => Ok received
  | (_, c) :: rest =>
      if I64_MAX - received <? chunk_size c then Err "media progress size overflow"
      else
        let received := received + chunk_size c in
        if sizeBytes <? received then Err "media progress exceeds manifest size" else sum_chunks sizeBytes received rest
  end.

Definition has_chunk (i : Z) (d : durable) : bool := existsb (fun ic => ic.1 =? i) d.

(** The first index from [i] on that is not stored; there are at most [fuel] more. *)
Fixpoint first_missing (fuel : nat) (i chunkCount : Z) (d : durable) : Z :=
  match fuel with
  | O => chunkCount
  | S fuel => if i <? chunkCount then (if has_chunk i d then first_missing fuel (i + 1) chunkCount d else i) else chunkCount
  end.

Definition reconstructMediaProgress (manifest : json) (chunks : list json) : result MediaProgress :=
  if negb (is_object manifest) then Err "media manifest must be an object"
  else
    status ← value as_string manifest (str "status") [];
    _ ← parseMediaState status;
    chunkCount ← value as_i64 manifest (str "chunk_count") (-1);
    sizeBytes ← value as_i64 manifest (str "size_bytes") (-1);
    if (chunkCount <=? 0) || (sizeBytes <? 0) then Err "media manifest limits are invalid"
    else
      version ← value as_i32 manifest (str "state_version") 1;
      if (version <? 1) || (2 <? version) then Err "unsupported media state version"
      else
        lease ← (if json_contains (str "lease_expires_at_ms") manifest then
                   e ← value as_i64 manifest (str "lease_expires_at_ms") 0;
                   if e <=? 0 then Err "media lease expiry must be positive" else Ok e
                 else Ok 0);
        d ← add_chunks chunkCount [] chunks;
        received ← sum_chunks sizeBytes 0 d;
        Ok (mkProgress version (Z.of_nat (length d)) received (first_missing (S (length d)) 0 chunkCount d) lease (map fst d)).

Definition leaseExpired (manifest : json) (nowMs : Z) : result bool :=
  if negb (is_object manifest) || negb (json_contains (str "lease_expires_at_ms") manifest) then Ok false
  else
    expiry ← value as_i64 manifest (str "lease_expires_at_ms") 0;
    if expiry <=? 0 then Err "media lease expiry must be positive" else Ok (expiry <=? nowMs).

(** ** The stored chunks *)

Definition by_index (d : durable) : Prop := StronglySorted (fun a b : Z * ChunkIdentity => a.1 < b.1) d.

Lemma emplace_spec i c d : by_index d -> by_index (emplace i c d).2 /\ (i, (emplace i c d).1) ∈ (emplace i c d).2 /\
  (forall x, x ∈ (emplace i c d).2 <-> x ∈ d \/ x = (i, (emplace i c d).1)) /\ ((emplace i c d).1 = c \/ (i, (emplace i c d).1) ∈ d).
Proof.
  unfold by_index. induction d as [|[j e] d IH]; intros Hs; cbn [emplace].
  - cbn [fst snd]. split; [repeat constructor|]. split; [left|]. split; [intros x; rewrite !list_elem_of_singleton; split; [auto|intros [H|H]; [inversion H|exact H]]|auto].
  - destruct (Z.ltb_spec i j) as [Hij|Hij]; [|destruct (Z.eqb_spec i j) as [->|Hne]]; cbn [fst snd].
    + split; [|split; [left|split; [intros x; rewrite (elem_of_cons _ x (i, c)); tauto|auto]]]. apply StronglySorted_cons. split; [|exact Hs].
      apply StronglySorted_cons in Hs as [Hs _]. constructor; [exact Hij|]. eapply Forall_impl; [exact Hs|]. intros x Hx. cbn in *. lia.
    + split; [exact Hs|]. split; [left|]. split; [intros x; rewrite elem_of_cons; tauto|]. right. left.
    + apply StronglySorted_cons in Hs as [Hj Hs]. destruct (IH Hs) as (H1 & H2 & H3 & H4). destruct (emplace i c d) as [r d'] eqn:E. cbn [fst snd] in *.
      split; [|split; [right; exact H2|split; [intros x; rewrite !elem_of_cons, H3; tauto|destruct H4; [auto|right; right; assumption]]]].
      apply StronglySorted_cons. split; [|exact H1]. rewrite Forall_forall in Hj |- *. intros x Hx. apply H3 in Hx as [Hx| ->]; [exact (Hj x Hx)|cbn; lia].
Qed.

(** One identity per index. *)
Definition functional (P : Z * ChunkIdentity -> Prop) : Prop := forall i c c', P (i, c) -> P (i, c') -> c = c'.

Lemma by_index_functional d : by_index d -> functional (fun x => x ∈ d).
Proof.
  unfold by_index, functional. induction d as [|[j e] d IH]; intros Hs i c c' H H'; [inversion H|]. apply StronglySorted_cons in Hs as [Hj Hs]. rewrite Forall_forall in Hj.
  rewrite elem_of_cons in H, H'. destruct H as [E|H], H' as [E'|H']; simplify_eq; [reflexivity| | |exact (IH Hs i c c' H H')].
  - specialize (Hj _ H'). cbn in Hj. lia.
  - specialize (Hj _ H). cbn in Hj. lia.
Qed.

(** What the metadata of some chunks says. *)
Definition described (cc : Z) (chunks : list json) (x : Z * ChunkIdentity) : Prop := exists chunk, chunk ∈ chunks /\ read_chunk cc chunk = Ok x.

Lemma add_chunks_sound cc chunks : forall d d', by_index d -> add_chunks cc d chunks = Ok d' ->
  by_index d' /\ Forall (fun chunk => exists x, read_chunk cc chunk = Ok x) chunks /\ forall x, x ∈ d' <-> x ∈ d \/ described cc chunks x.
Proof.
  induction chunks as [|chunk chunks IH]; intros d d' Hs H; cbn [add_chunks] in H.
  - apply Ok_inj in H as <-. split; [exact Hs|]. split; [constructor|]. intros x. split; [auto|]. intros [Hx|(c & Hc & _)]; [exact Hx|inversion Hc].
  - apply bind_Ok in H as (d1 & H1 & H). unfold add_chunk in H1. apply bind_Ok in H1 as ([i c] & Er & H1). cbn [fst snd] in H1.
    destruct (emplace_spec i c d Hs) as (S1 & S2 & S3 & S4). destruct (emplace i c d) as [e d2]. cbn [fst snd] in *. destruct (bool_decide (e = c)) eqn:Eb; [|discriminate].
    apply bool_decide_eq_true in Eb as ->. apply Ok_inj in H1 as <-. destruct (IH d2 d' S1 H) as (T1 & T2 & T3). split; [exact T1|]. split; [constructor; eauto|].
    intros x. rewrite T3, S3. unfold described. split.
    + intros [[Hx| ->]|(y & Hy & Ey)]; [auto|right; exists chunk; split; [left|exact Er]|right; exists y; split; [right; exact Hy|exact Ey]].
    + intros [Hx|(y & Hy & Ey)]; [auto|]. apply elem_of_cons in Hy as [->|Hy]; [rewrite Er in Ey; apply Ok_inj in Ey as <-; auto|right; eauto].
Qed.

Lemma add_chunks_complete cc chunks : forall d, by_index d -> Forall (fun chunk => exists x, read_chunk cc chunk = Ok x) chunks ->
  functional (fun x => x ∈ d \/ described cc chunks x) -> exists d', add_chunks cc d chunks = Ok d'.
Proof.
  induction chunks as [|chunk chunks IH]; intros d Hs Hr Hf; cbn [add_chunks]; [eauto|]. apply Forall_cons in Hr as [[[i c] Er] Hr].
  unfold add_chunk. rewrite Er. cbn [mbind result_bind fst snd]. destruct (emplace_spec i c d Hs) as (S1 & S2 & S3 & S4). destruct (emplace i c d) as [e d2]. cbn [fst snd] in *.
  assert (Hc : (i, c) ∈ d \/ described cc (chunk :: chunks) (i, c)) by (right; exists chunk; split; [left|exact Er]).
  assert (e = c) as -> by (destruct S4 as [S4|S4]; [exact S4|exact (Hf i e c (or_introl S4) Hc)]). rewrite bool_decide_eq_true_2 by reflexivity.
  assert (Hsub : forall x, x ∈ d2 \/ described cc chunks x -> x ∈ d \/ described cc (chunk :: chunks) x).
  { intros x [Hx|(y & Hy & Ey)]; [apply S3 in Hx as [Hx| ->]; auto|right; exists y; split; [right; exact Hy|exact Ey]]. }
  apply IH; [exact S1|exact Hr|]. intros j a b Ha Hb. exact (Hf j a b (Hsub _ Ha) (Hsub _ Hb)).
Qed.

Lemma by_index_unique d d' : by_index d -> by_index d' -> (forall x, x ∈ d <-> x ∈ d') -> d = d'.
Proof.
  unfold by_index. revert d'. induction d as [|x d IH]; intros [|y d'] Hs Hs' H; [reflexivity|exfalso; apply (not_elem_of_nil y), H; left|exfalso; apply (not_elem_of_nil x), H; left|].
  apply StronglySorted_cons in Hs as [Hx Hs], Hs' as [Hy Hs']. rewrite Forall_forall in Hx, Hy.
  assert (x = y) as <-.
  { destruct (proj1 (elem_of_cons _ _ _) (proj1 (H x) ltac:(left))) as [->|H1]; [reflexivity|]. destruct (proj1 (elem_of_cons _ _ _) (proj2 (H y) ltac:(left))) as [->|H2]; [reflexivity|].
    specialize (Hx _ H2). specialize (Hy _ H1). lia. }
  f_equal. apply IH; [exact Hs|exact Hs'|]. intros z. split; intros Hz.
  - destruct (proj1 (elem_of_cons _ _ _) (proj1 (H z) ltac:(right; exact Hz))) as [->|]; [specialize (Hx _ Hz); lia|assumption].
  - destruct (proj1 (elem_of_cons _ _ _) (proj2 (H z) ltac:(right; exact Hz))) as [->|]; [specialize (Hy _ Hz); lia|assumption].
Qed.

(** The order of the metadata does not matter. *)
Lemma add_chunks_perm cc chunks chunks' d : chunks ≡ₚ chunks' -> add_chunks cc [] chunks = Ok d -> add_chunks cc [] chunks' = Ok d.
Proof.
  intros Hp H. assert (H0 : by_index []) by constructor. destruct (add_chunks_sound cc chunks [] d H0 H) as (Hs & Hr & Hx).
  assert (Hd : forall x, described cc chunks x <-> described cc chunks' x) by (intros x; unfold described; setoid_rewrite Hp; reflexivity).
  destruct (add_chunks_complete cc chunks' [] H0) as [d' H'].
  - rewrite <- Hp. exact Hr.
  - intros i c c' Hc Hc'. apply (by_index_functional d Hs i); apply Hx; rewrite Hd; tauto.
  - rewrite H'. f_equal. destruct (add_chunks_sound cc chunks' [] d' H0 H') as (Hs' & _ & Hx'). apply by_index_unique; [exact Hs'|exact Hs|]. intros x. rewrite Hx, Hx', Hd. reflexivity.
Qed.

(** ** The next missing chunk *)

Definition chunks_from (i : Z) (d : durable) : durable := List.filter (fun ic => i <=? ic.1) d.

Lemma has_chunk_in i d : has_chunk i d = true <-> i ∈ map fst d.
Proof.
  unfold has_chunk. rewrite existsb_exists, list_elem_of_In, in_map_iff. split; intros (x & H1 & H2); exists x; [apply Z.eqb_eq in H2|rewrite Z.eqb_eq]; auto.
Qed.

Lemma chunks_from_succ i d : i ∈ map fst d -> (length (chunks_from (i + 1) d) < length (chunks_from i d))%nat.
Proof.
  unfold chunks_from. induction d as [|[j e] d IH]; cbn [map fst List.filter]; intros H; [inversion H|].
  assert (Hle : (length (List.filter (fun ic : Z * ChunkIdentity => (i + 1 <=? ic.1)%Z) d) <= length (List.filter (fun ic : Z * ChunkIdentity => (i <=? ic.1)%Z) d))%nat).
  { clear. induction d as [|[j e] d IH]; cbn [List.filter fst]; [lia|]. destruct (Z.leb_spec (i + 1) j), (Z.leb_spec i j); cbn [length]; lia. }
  apply elem_of_cons in H as [<-|H].
  - destruct (Z.leb_spec (i + 1) i), (Z.leb_spec i i); cbn [length]; lia.
  - specialize (IH H). destruct (Z.leb_spec (i + 1) j), (Z.leb_spec i j); cbn [length]; lia.
Qed.

Lemma first_missing_spec fuel : forall i cc d, i <= cc -> (length (chunks_from i d) < fuel)%nat -> Forall (fun ic => ic.1 < cc) d ->
  let n := first_missing fuel i cc d in
  i <= n <= cc /\ (forall j, i <= j < n -> j ∈ map fst d) /\ (n < cc -> n ∉ map fst d).
Proof.
  induction fuel as [|fuel IH]; intros i cc d Hi Hf Hd; [lia|]. cbn [first_missing]. destruct (Z.ltb_spec i cc) as [Hlt|Hge].
  - destruct (has_chunk i d) eqn:Eh.
    + apply has_chunk_in in Eh as Hin. pose proof (chunks_from_succ i d Hin) as Hs. destruct (IH (i + 1) cc d) as (H1 & H2 & H3); [lia|lia|exact Hd|].
      split; [lia|]. split; [|exact H3]. intros j Hj. destruct (Z.eq_dec j i) as [->|]; [exact Hin|apply H2; lia].
    + split; [lia|]. split; [intros j Hj; lia|]. intros _ Hin. apply has_chunk_in in Hin. congruence.
  - split; [lia|]. split; [intros j Hj; lia|lia].
Qed.

(** ** Progress *)

Lemma read_chunk_bounds cc chunk i c : read_chunk cc chunk = Ok (i, c) -> 0 <= i < cc /\ 0 <= chunk_size c.
Proof.
  unfold read_chunk. destruct (is_object chunk); [|discriminate]. cbn [negb]. intros H. apply bind_Ok in H as (a & _ & H). apply bind_Ok in H as (b & _ & H). apply bind_Ok in H as (h & _ & H).
  destruct (Z.ltb_spec a 0); [discriminate|]. destruct (Z.leb_spec cc a); [discriminate|]. destruct (Z.ltb_spec b 0); [discriminate|]. apply Ok_inj in H as [= <- <-]. cbn. lia.
Qed.

Definition bytes_of (d : durable) : Z := fold_right (fun ic s => chunk_size ic.2 + s) 0 d.

Lemma sum_chunks_exact size d : forall r s, sum_chunks size r d = Ok s -> Forall (fun ic => 0 <= chunk_size ic.2) d -> s = r + bytes_of d /\ (r <= size -> s <= size).
Proof.
  induction d as [|[i c] d IH]; intros r s H Hd; cbn [sum_chunks bytes_of fold_right snd] in *; [apply Ok_inj in H as <-; lia|]. fold (bytes_of d) in *.
  apply Forall_cons in Hd as [Hc Hd]. destruct (_ <? chunk_size c); [discriminate|]. destruct (Z.ltb_spec size (r + chunk_size c)) as [|Hle]; [discriminate|].
  destruct (IH _ _ H Hd) as [-> H2]. split; [lia|]. intros _. apply H2. exact Hle.
Qed.

Lemma reconstruct_parts manifest chunks p : reconstructMediaProgress manifest chunks = Ok p ->
  exists cc size d, value as_i64 manifest (str "chunk_count") (-1) = Ok cc /\ value as_i64 manifest (str "size_bytes") (-1) = Ok size /\ 0 < cc /\ 0 <= size /\
    add_chunks cc [] chunks = Ok d /\ sum_chunks size 0 d = Ok (receivedBytes p) /\ receivedChunks p = Z.of_nat (length d) /\
    nextMissingIndex p = first_missing (S (length d)) 0 cc d /\ receivedIndices p = map fst d.
Proof.
  unfold reconstructMediaProgress. destruct (is_object manifest); [|discriminate]. cbn [negb]. intros H. apply bind_Ok in H as (st & _ & H). apply bind_Ok in H as (ms & _ & H).
  apply bind_Ok in H as (cc & Ec & H). apply bind_Ok in H as (size & Es & H). destruct (Z.leb_spec cc 0); [discriminate|]. destruct (Z.ltb_spec size 0); [discriminate|]. cbn [orb] in H.
  apply bind_Ok in H as (v & _ & H). destruct ((v <? 1) || (2 <? v)); [discriminate|]. apply bind_Ok in H as (lease & _ & H). apply bind_Ok in H as (d & Ed & H).
  apply bind_Ok in H as (r & Er & H). apply Ok_inj in H as <-. exists cc, size, d. cbn. auto 12.
Qed.

(** The progress rebuilt from stored chunk metadata is exact: the indices are those
    the metadata names, once each, ascending and within the manifest's count; the
    bytes are the sum of the sizes of these chunks and do not exceed the manifest's
    size; and the next missing index is the least one that is not stored, or the
    count when all are. *)
Theorem media_progress_exact manifest chunks p : reconstructMediaProgress manifest chunks = Ok p ->
  exists cc size d, value as_i64 manifest (str "chunk_count") (-1) = Ok cc /\ value as_i64 manifest (str "size_bytes") (-1) = Ok size /\
    by_index d /\ (forall x, x ∈ d <-> described cc chunks x) /\ receivedIndices p = map fst d /\ receivedChunks p = Z.of_nat (length d) /\
    receivedBytes p = bytes_of d /\ receivedBytes p <= size /\ Forall (fun i => 0 <= i < cc) (receivedIndices p) /\
    0 <= nextMissingIndex p <= cc /\ (forall i, 0 <= i < nextMissingIndex p -> i ∈ receivedIndices p) /\ (nextMissingIndex p < cc -> nextMissingIndex p ∉ receivedIndices p).
Proof.
  intros H. destruct (reconstruct_parts manifest chunks p H) as (cc & size & d & Ec & Es & Hcc & Hsz & Ed & Er & En & Em & Ei).
  destruct (add_chunks_sound cc chunks [] d ltac:(constructor) Ed) as (Hs & _ & Hx). exists cc, size, d.
  assert (Hd : forall x, x ∈ d -> 0 <= x.1 < cc /\ 0 <= chunk_size x.2).
  { intros [i c] Hin. apply Hx in Hin as [Hin|(chunk & _ & Hr)]; [inversion Hin|]. exact (read_chunk_bounds cc chunk i c Hr). }
  destruct (sum_chunks_exact size d 0 _ Er) as [Hb Hle]; [apply Forall_forall; intros x Hin; apply Hd, Hin|].
  destruct (first_missing_spec (S (length d)) 0 cc d) as (F1 & F2 & F3); [lia|unfold chunks_from; pose proof (List.filter_length_le (fun ic : Z * ChunkIdentity => (0 <=? ic.1)%Z) d); lia|apply Forall_forall; intros x Hin; apply Hd in Hin; lia|].
  rewrite Ei, Em. split; [exact Ec|]. split; [exact Es|]. split; [exact Hs|]. split; [intros x; rewrite Hx; split; [intros [Hn|]; [inversion Hn|assumption]|auto]|].
  split; [reflexivity|]. split; [exact En|]. split; [rewrite Hb; lia|]. split; [apply Hle; lia|]. split; [|split; [exact F1|split; [exact F2|exact F3]]].
  apply Forall_forall. intros i Hin. apply list_elem_of_In, in_map_iff in Hin as (x & <- & Hin). apply list_elem_of_In in Hin. apply Hd, Hin.
Qed.

(** The metadata may come in any order. *)
Lemma media_progress_order manifest chunks chunks' p : chunks ≡ₚ chunks' -> reconstructMediaProgress manifest chunks = Ok p -> reconstructMediaProgress manifest chunks' = Ok p.
Proof.
  intros Hp. unfold reconstructMediaProgress. destruct (is_object manifest); [|discriminate]. cbn [negb]. intros H.
  apply bind_Ok in H as (st & -> & H). cbn [mbind result_bind]. apply bind_Ok in H as (ms & -> & H). cbn [mbind result_bind].
  apply bind_Ok in H as (cc & -> & H). cbn [mbind result_bind]. apply bind_Ok in H as (size & -> & H). cbn [mbind result_bind]. destruct (_ || _); [discriminate|].
  apply bind_Ok in H as (v & -> & H). cbn [mbind result_bind]. destruct (_ || _); [discriminate|]. apply bind_Ok in H as (lease & -> & H). cbn [mbind result_bind].
  apply bind_Ok in H as (d & Ed & H). rewrite (add_chunks_perm cc _ _ d Hp Ed). exact H.
Qed.

(** ** States *)

Lemma state_name_roundtrip s : parseMediaState (mediaStateName s) = Ok s.
Proof. destruct s; reflexivity. Qed.

(** An upload that is ready or aborted stays so. *)
Lemma terminal_states s s' : rtc (fun a b => canTransition a b = true) s s' -> s = ready \/ s = aborted -> s' = s.
Proof. induction 1 as [|a b c H _ IH]; [auto|]. intros [->| ->]; destruct b; try discriminate H; auto. Qed.

(** ** An upload of three chunks with the second missing *)

Definition chunk_json (i n : Z) (h : string) : json := JObject [(str "index", JInt i); (str "sha256", JString (str h)); (str "size_bytes", JInt n)].
Definition upload_manifest : json := JObject [(str "chunk_count", JInt 3); (str "size_bytes", JInt 100); (str "status", JString (str "uploading"))].

Lemma media_progress_exact_witness :
  exists p, reconstructMediaProgress upload_manifest [chunk_json 2 20 "c"; chunk_json 0 40 "a"; chunk_json 2 20 "c"] = Ok p /\
    receivedIndices p = [0; 2] /\ receivedBytes p = 60 /\ nextMissingIndex p = 1 /\ receivedBytes p <= 100.
Proof.
  eexists. split; [vm_compute; reflexivity|]. split; [reflexivity|]. split; [reflexivity|]. split; [reflexivity|].
  destruct (media_progress_exact upload_manifest [chunk_json 2 20 "c"; chunk_json 0 40 "a"; chunk_json 2 20 "c"] (mkProgress 1 2 60 1 0 [0; 2]) ltac:(vm_compute; reflexivity))
    as (cc & size & d & _ & Es & _ & _ & _ & _ & _ & H & _). vm_compute in Es. apply Ok_inj in Es as <-. exact H.
Defined.

(** Two different chunks under one index are refused. *)
Example conflicting_chunks : reconstructMediaProgress upload_manifest [chunk_json 0 40 "a"; chunk_json 0 40 "b"] = Err "conflicting duplicate media chunk metadata".
Proof. vm_compute. reflexivity. Qed.
