(* ===== verification/Ranked.v ===== *)
(** * Keeping the best k (vector_top_k.hpp, the heaps of lexical_index.cpp)

    A heap of at most [k] elements whose top is the worst of them.  The standard
    library's heap operations promise which element the top is and nothing of how
    the rest is laid out, so the heap is the list of its elements, best first. *)

From stdpp Require Import base list.
From Stdlib Require Import ZArith Lia SpecFloat.
From S2P Require Import Prelude Msgpack Float64.

Open Scope Z_scope.

(** ** The order of doubles *)

(** The format's comparison is lexicographic in class, exponent and mantissa. *)
Definition order_key (x : double) : Z * Z * Z :=
  match x with
  | S754_nan => (0, 0, 0)
  | S754_zero _ => (0, 0, 0)
  | S754_infinity s => (if s then -2 else 2, 0, 0)
  | S754_finite s m e => if s then (-1, - e, - Zpos m) else (1, e, Zpos m)
  end.

Definition lex3 (a b : Z * Z * Z) : comparison :=
  let '(a1, a2, a3) := a in
  let '(b1, b2, b3) := b in
  match a1 ?= b1 with Eq => match a2 ?= b2 with Eq => a3 ?= b3 | c => c end | c => c end.

Lemma compare_key x y : is_nan x = false -> is_nan y = false -> SFcompare x y = Some (lex3 (order_key x) (order_key y)).
Proof.
  destruct x as [sx|[]| |[] mx ex], y as [sy|[]| |[] my ey]; try done; intros _ _; cbn.
  rewrite <-Z.compare_opp. rewrite (Z.compare_antisym (- ey) (- ex)). destruct (- ey ?= - ex); done.
Qed.

Lemma lex3_antisym a b : lex3 b a = CompOpp (lex3 a b).
Proof.
  destruct a as [[a1 a2] a3], b as [[b1 b2] b3]. unfold lex3. rewrite (Z.compare_antisym a1 b1), (Z.compare_antisym a2 b2), (Z.compare_antisym a3 b3).
  destruct (a1 ?= b1); [destruct (a2 ?= b2)|..]; done.
Qed.

Lemma lex3_lt a b : lex3 a b = Lt <-> let '(a1, a2, a3) := a in let '(b1, b2, b3) := b in a1 < b1 \/ (a1 = b1 /\ (a2 < b2 \/ (a2 = b2 /\ a3 < b3))).
Proof.
  destruct a as [[a1 a2] a3], b as [[b1 b2] b3]. unfold lex3. destruct (Z.compare_spec a1 b1); [destruct (Z.compare_spec a2 b2); [destruct (Z.compare_spec a3 b3)|..]|..]; split; intros; try done; lia.
Qed.
Lemma lex3_eq a b : lex3 a b = Eq <-> a = b.
Proof.
  destruct a as [[a1 a2] a3], b as [[b1 b2] b3]. unfold lex3. destruct (Z.compare_spec a1 b1); [destruct (Z.compare_spec a2 b2); [destruct (Z.compare_spec a3 b3)|..]|..]; split; intros H'; try done; try congruence; injection H'; lia.
Qed.

Lemma dlt_key x y : is_nan x = false -> is_nan y = false -> dlt x y = true <-> lex3 (order_key x) (order_key y) = Lt.
Proof. intros Hx Hy. unfold dlt, SFltb. rewrite compare_key by done. destruct (lex3 _ _); done. Qed.
Lemma deq_key x y : is_nan x = false -> is_nan y = false -> deq x y = true <-> order_key x = order_key y.
Proof. intros Hx Hy. unfold deq, SFeqb. rewrite compare_key by done. rewrite <-lex3_eq. destruct (lex3 _ _); done. Qed.

(** ** Scores and ids *)

(** [better]: the higher score first, then the smaller id. *)
Definition better (a b : bytes * double) : bool := dlt b.2 a.2 || (deq a.2 b.2 && bytes_ltb a.1 b.1).

Definition scored (a : bytes * double) : Prop := is_nan a.2 = false.

Lemma better_spec a b : scored a -> scored b ->
  better a b = true <-> lex3 (order_key b.2) (order_key a.2) = Lt \/ (order_key a.2 = order_key b.2 /\ bytes_lt a.1 b.1).
Proof. intros Ha Hb. unfold better. rewrite orb_true_iff, andb_true_iff, dlt_key, deq_key, bytes_ltb_lt by done. done. Qed.

Lemma lex3_trans a b c : lex3 a b = Lt -> lex3 b c = Lt -> lex3 a c = Lt.
Proof. rewrite !lex3_lt. destruct a as [[]], b as [[]], c as [[]]. lia. Qed.

Lemma better_trans a b c : scored a -> scored b -> scored c -> better a b = true -> better b c = true -> better a c = true.
Proof.
  intros Ha Hb Hc. rewrite !better_spec by done. intros [H1|[H1 L1]] [H2|[H2 L2]].
  - left. by eapply lex3_trans.
  - left. by rewrite <-H2.
  - left. by rewrite H1.
  - right. split; [congruence|]. by eapply bytes_lt_trans.
Qed.

Lemma better_irrefl a : scored a -> better a a = false.
Proof.
  intros Ha. destruct (better a a) eqn:E; [|done]. apply better_spec in E; [|done..]. destruct E as [E|[_ E]].
  - assert (lex3 (order_key a.2) (order_key a.2) = Eq) by by apply lex3_eq. congruence.
  - by apply bytes_lt_irrefl in E.
Qed.

Lemma better_total a b : scored a -> scored b -> a.1 <> b.1 -> better a b = true \/ better b a = true.
Proof.
  intros Ha Hb Hne. rewrite !better_spec by done. destruct (lex3 (order_key b.2) (order_key a.2)) eqn:E.
  - apply lex3_eq in E. destruct (bytes_lt_trichotomy a.1 b.1) as [H|[H|H]]; [left; right; done|done|right; right; done].
  - by left; left.
  - right; left. by rewrite lex3_antisym, E.
Qed.

(** ** The bounded heap *)

Section Heap.
Context {A : Type} (kv : A -> bytes * double).

Definition beats (a b : A) : bool := better (kv a) (kv b).

Fixpoint rank_insert (x : A) (l : list A) : list A :=
  match l with
  | [] => [x]
  | y :: rest => if beats x y then x :: y :: rest else y :: rank_insert x rest
  end.

(** The whole list in order, the reference. *)
Definition rank (l : list A) : list A := foldr rank_insert [] l.

Definition heap_full (k : nat) (h : list A) : bool := (length h =? k)%nat.

(** The test before an element may enter: a full heap's top must be worse. *)
Definition heap_refuses (k : nat) (h : list A) (x : A) : bool :=
  heap_full k h && match last h with Some top => negb (beats x top) | None => true end.

Definition heap_pop (h : list A) : list A := take (length h - 1) h.

Definition heap_keep (k : nat) (h : list A) (x : A) : list A :=
  if heap_refuses k h x then h else rank_insert x (if heap_full k h then heap_pop h else h).

Definition ranked (l : list A) : Prop := Forall (fun a => scored (kv a)) l /\ NoDup (map (fun a => (kv a).1) l).

Inductive in_rank : list A -> Prop :=
| in_rank_nil : in_rank []
| in_rank_cons x l : Forall (fun y => beats x y = true) l -> in_rank l -> in_rank (x :: l).

Lemma rank_insert_perm x l : rank_insert x l ≡ₚ x :: l.
Proof. induction l as [|y l IH]; simpl; [done|]. destruct (beats x y); [done|]. rewrite IH. constructor. Qed.

Lemma rank_perm l : rank l ≡ₚ l.
Proof. induction l as [|x l IH]; simpl; [done|]. by rewrite rank_insert_perm, IH. Qed.

Lemma ranked_perm l l' : l ≡ₚ l' -> ranked l -> ranked l'.
Proof. intros H [H1 H2]. split; [by rewrite <-H|]. by rewrite <-H. Qed.

Lemma ranked_tail x l : ranked (x :: l) -> ranked l.
Proof. intros [H1 H2]. split; [by inversion H1|]. by inversion H2. Qed.

Lemma ranked_pair x l y : ranked (x :: l) -> y ∈ l -> scored (kv x) /\ scored (kv y) /\ (kv x).1 <> (kv y).1.
Proof.
  intros [H1 H2] Hy. inversion H1; subst. simpl in H2. apply NoDup_cons in H2 as [H2 _]. split; [done|]. split; [by eapply Forall_forall in H4; [exact H4|]|].
  intros E. apply H2. rewrite E. apply list_elem_of_fmap; by exists y.
Qed.

Lemma beats_not x l y : ranked (x :: l) -> y ∈ l -> beats x y = false -> beats y x = true.
Proof. intros R Hy E. destruct (ranked_pair x l y R Hy) as (Sx & Sy & Hne). destruct (better_total _ _ Sx Sy Hne) as [H|H]; [unfold beats in E; congruence|done]. Qed.

Lemma beats_chain x l y z : ranked (x :: l) -> y ∈ l -> z ∈ l -> beats x y = true -> beats y z = true -> beats x z = true.
Proof. intros R Hy Hz. destruct (ranked_pair x l y R Hy) as (Sx & Sy & _), (ranked_pair x l z R Hz) as (_ & Sz & _). by apply better_trans. Qed.

Lemma rank_insert_sorted x l : ranked (x :: l) -> in_rank l -> in_rank (rank_insert x l).
Proof.
  intros R H. induction H as [|y l Hy H IH]; simpl; [by repeat constructor|]. destruct (beats x y) eqn:E.
  - constructor; [|by constructor]. constructor; [done|]. apply Forall_forall. intros z Hz. rewrite Forall_forall in Hy.
    apply (beats_chain x (y :: l) y z R); [left|by right|done|by apply Hy].
  - constructor; [|apply IH; apply (ranked_tail y), (ranked_perm (x :: y :: l)); [constructor|done]].
    rewrite rank_insert_perm. constructor; [|done]. apply (beats_not x (y :: l)); [done|left|done].
Qed.

Lemma rank_sorted l : ranked l -> in_rank (rank l).
Proof.
  induction l as [|x l IH]; intros R; simpl; [constructor|]. apply rank_insert_sorted; [|apply IH; by eapply ranked_tail].
  apply (ranked_perm (x :: l)); [|done]. by rewrite rank_perm.
Qed.

(** An order without ties leaves one way to sort. *)
Lemma in_rank_unique l l' : ranked l -> in_rank l -> in_rank l' -> l ≡ₚ l' -> l = l'.
Proof.
  intros R H. revert l' R. induction H as [|x l Hx H IH]; intros l' R H' P; [by apply Permutation_nil_l in P|].
  destruct H' as [|y l' Hy H']; [by apply Permutation_nil_r in P|].
  assert (x = y) as <-; [|f_equal; apply IH; [by eapply ranked_tail|done|by eapply Permutation_cons_inv]].
  assert (Hyl : y ∈ x :: l) by (rewrite P; left). assert (Hxl : x ∈ y :: l') by (rewrite <-P; left).
  apply elem_of_cons in Hyl as [->|Hyl]; [done|]. apply elem_of_cons in Hxl as [->|Hxl]; [done|].
  rewrite Forall_forall in Hx, Hy. specialize (Hx y Hyl). specialize (Hy x Hxl). destruct (ranked_pair x l y R Hyl) as (Sx & Sy & _).
  unfold beats in *. pose proof (better_trans _ _ _ Sx Sy Sx Hx Hy) as E. by rewrite better_irrefl in E.
Qed.

Lemma rank_of_perm l l' : ranked l -> l ≡ₚ l' -> rank l = rank l'.
Proof.
  intros R P. apply in_rank_unique.
  - apply (ranked_perm l); [by rewrite rank_perm|done].
  - by apply rank_sorted.
  - apply rank_sorted. by apply (ranked_perm l).
  - by rewrite !rank_perm.
Qed.

Lemma rank_insert_length x l : length (rank_insert x l) = S (length l).
Proof. exact (Permutation_length (rank_insert_perm x l)). Qed.

Lemma take_insert_in k x l y : ranked (x :: l) -> in_rank l -> l !! k = Some y -> beats x y = true -> take (S k) (rank_insert x l) = rank_insert x (take k l).
Proof.
  intros R H. revert k. induction H as [|z l Hz H IH]; intros k Hy E; [done|]. simpl. destruct (beats x z) eqn:Ez.
  - destruct k as [|k]; [done|]. simpl. by rewrite Ez.
  - destruct k as [|k]; simpl in Hy; [congruence|]. simpl. rewrite Ez. f_equal. apply IH; [|done|done]. apply (ranked_tail z), (ranked_perm (x :: z :: l)); [constructor|done].
Qed.

Lemma take_insert_out k x l y : ranked (x :: l) -> in_rank l -> l !! k = Some y -> beats x y = false -> take (S k) (rank_insert x l) = take (S k) l.
Proof.
  intros R H. revert k. induction H as [|z l Hz H IH]; intros k Hy E; [done|]. simpl. destruct (beats x z) eqn:Ez.
  - exfalso. destruct k as [|k]; simpl in Hy; [congruence|]. apply list_elem_of_lookup_2 in Hy. rewrite Forall_forall in Hz.
    rewrite (beats_chain x (z :: l) z y R) in E; [done|left|by right|done|by apply Hz].
  - destruct k as [|k]; [done|]. change (z :: take (S k) (rank_insert x l) = z :: take (S k) l). f_equal. apply IH; [|done|done]. apply (ranked_tail z), (ranked_perm (x :: z :: l)); [constructor|done].
Qed.

(** One element more: the heap of the best stays the heap of the best. *)
Lemma heap_keep_take k x l : (0 < k)%nat -> ranked (x :: l) -> in_rank l -> heap_keep k (take k l) x = take k (rank_insert x l).
Proof.
  intros Hk R H. unfold heap_keep, heap_refuses, heap_full, heap_pop. rewrite length_take. destruct (decide (k <= length l)%nat) as [Hl|Hl].
  - rewrite (Nat.min_l k) by done. rewrite Nat.eqb_refl. simpl. destruct k as [|k]; [lia|]. destruct (lookup_lt_is_Some_2 l k) as [y Hy]; [lia|].
    rewrite (last_lookup (take (S k) l)), length_take, Nat.min_l by done. simpl. rewrite lookup_take_lt, Hy by lia. destruct (beats x y) eqn:E; simpl.
    + rewrite take_take, Nat.sub_0_r, Nat.min_l by lia. symmetry. by eapply take_insert_in.
    + symmetry. by eapply take_insert_out.
  - rewrite Nat.min_r by lia. rewrite (proj2 (Nat.eqb_neq _ _)) by lia. simpl. rewrite !take_ge; [done|rewrite rank_insert_length; lia|lia].
Qed.

(** The bounded heap ends with the best [k], whatever order the elements come in. *)
Lemma heap_keeps_best k l : (0 < k)%nat -> ranked l -> foldl (heap_keep k) [] l = take k (rank l).
Proof.
  intros Hk R. rewrite (rank_of_perm l (rev l)) by (done || apply Permutation_rev).
  assert (Hg : forall l, ranked l -> fold_right (fun x h => heap_keep k h x) [] l = take k (rank l)).
  { clear l R. intros l R. induction l as [|x l IH]; simpl; [by rewrite take_nil|]. rewrite IH by by eapply ranked_tail. apply heap_keep_take; [done| |by apply rank_sorted; eapply ranked_tail].
    apply (ranked_perm (x :: l)); [|done]. by rewrite rank_perm. }
  rewrite <-Hg by (apply (ranked_perm l); [apply Permutation_rev|done]). clear. induction l as [|x l IH] using rev_ind; [done|]. rewrite foldl_snoc, rev_unit, IH. done.
Qed.
End Heap.
