(* ===== verification/Lexical.v ===== *)
(** * The lexical index (lexical_index.cpp)

    An inverted index over the text of a collection, with BM25 scores.  A document
    that is written again gets a new entry and its old one is marked dead; the
    postings of dead entries stay. *)

From stdpp Require Import base list gmap strings sorting.
From Stdlib Require Import ZArith Lia SpecFloat.
From S2P Require Import Prelude Msgpack Float64 Ranked.

Open Scope Z_scope.

Record LexicalConfig := mkLexicalConfig { maxMemoryBytes : Z; maxRecords : Z; maxCandidates : Z; k1 : double; b_ : double }.

Record Document := mkDocument { d_id : bytes; d_terms : list nat; d_length : Z; d_live : bool }.
Record Term := mkTerm { liveFrequency : Z; postings : list (nat * Z) }.

Record lexical := mkLexical {
  documents_ : list Document; terms_ : list Term; vocabulary_ : gmap bytes nat; ids_ : gmap bytes nat;
  liveRecords_ : Z; totalLength_ : Z; failed_ : bool }.

(** The order in which a hash map is iterated is the library's; the logarithm is the C library's. *)
Class LexicalLib := {
  term_order : gmap bytes Z -> list (bytes * Z);
  score_order : gmap nat (double * nat) -> list (nat * (double * nat));
  log1p : double -> double }.

Class LexicalLibLaws `{LexicalLib} := {
  term_order_all : forall m, term_order m ≡ₚ map_to_list m;
  score_order_all : forall m, score_order m ≡ₚ map_to_list m }.

Definition is_finite (x : double) : bool := match x with S754_finite _ _ _ | S754_zero _ => true | _ => false end.
Definition dzero : double := S754_zero false.
Definition dhalf : double := double_of_bits 0x3FE0000000000000.

Definition lexical_new (c : LexicalConfig) : result lexical :=
  if (maxMemoryBytes c <? 1024) || (maxRecords c =? 0) || (10000000 <? maxRecords c) || (maxCandidates c =? 0) || (10000000 <? maxCandidates c) ||
     negb (is_finite (k1 c)) || dlt (k1 c) dzero || dlt (double_of_int 10) (k1 c) ||
     negb (is_finite (b_ c)) || dlt (b_ c) dzero || dlt (double_of_int 1) (b_ c)
  then Err "invalid lexical index configuration" else Ok (mkLexical [] [] ∅ ∅ 0 0 false).

(** ** Words *)

Definition is_upper (c : byte) : bool := (65 <=? byte_val c) && (byte_val c <=? 90).
Definition is_token_byte (c : byte) : bool :=
  ((97 <=? byte_val c) && (byte_val c <=? 122)) || is_upper c || ((48 <=? byte_val c) && (byte_val c <=? 57)) || (128 <=? byte_val c).
Definition lower (c : byte) : byte := if is_upper c then byte_of (byte_val c + 32) else c.

Definition flush_token (token : bytes) (found : list bytes) (maximum : Z) : result (list bytes) :=
  match token with
  | [] => Ok found
  | _ => if Z.of_nat (length found) =? maximum then Err "lexical token limit exceeded" else Ok (found ++ [token])
  end.

Fixpoint tokenize_loop (text token : bytes) (found : list bytes) (maximum : Z) : result (list bytes) :=
  match text with
  | [] => flush_token token found maximum
  | c :: rest =>
      if is_token_byte c then tokenize_loop rest (token ++ [lower c]) found maximum
      else found ← flush_token token found maximum; tokenize_loop rest [] found maximum
  end.

Definition tokenize (text : bytes) (maximumBytes maximumTokens : Z) : result (list bytes) :=
  if maximumBytes <? blen text then Err "lexical text byte limit exceeded" else tokenize_loop text [] [] maximumTokens.

(** How often a word occurs. *)
Definition occurrences (w : bytes) (tokens : list bytes) : Z := Z.of_nat (length (List.filter (bytes_eqb w) tokens)).

Fixpoint count_tokens (tokens : list bytes) (m : gmap bytes Z) : gmap bytes Z :=
  match tokens with
  | [] => m
  | t :: rest => count_tokens rest (<[t := default 0 (m !! t) + 1]> m)
  end.

(** ** Changes *)

Definition drop_frequency (t : nat) (terms : list Term) : list Term :=
  alter (fun e => mkTerm (liveFrequency e - 1) (postings e)) t terms.

(** [remove]: the entry is marked dead and its words' live counts go down. *)
Definition remove (index : nat) (s : lexical) : lexical :=
  match documents_ s !! index with
  | None => s
  | Some d =>
      if d_live d then
        mkLexical (<[index := mkDocument (d_id d) (d_terms d) (d_length d) false]> (documents_ s)) (foldl (fun ts t => drop_frequency t ts) (terms_ s) (d_terms d))
          (vocabulary_ s) (ids_ s) (liveRecords_ s - 1) (totalLength_ s - d_length d) (failed_ s)
      else s
  end.

Definition post (index : nat) (term : nat) (frequency : Z) (s : lexical) : lexical :=
  mkLexical (alter (fun d => mkDocument (d_id d) (d_terms d ++ [term]) (d_length d) (d_live d)) index (documents_ s))
    (alter (fun e => mkTerm (liveFrequency e + 1) (postings e ++ [(index, frequency)])) term (terms_ s))
    (vocabulary_ s) (ids_ s) (liveRecords_ s) (totalLength_ s) (failed_ s).

(** The word's number; a new word gets the next one. *)
Definition intern (word : bytes) (s : lexical) : nat * lexical :=
  match vocabulary_ s !! word with
  | Some t => (t, s)
  | None =>
      let t := length (terms_ s) in
      (t, mkLexical (documents_ s) (terms_ s ++ [mkTerm 0 []]) (<[word := t]> (vocabulary_ s)) (ids_ s) (liveRecords_ s) (totalLength_ s) (failed_ s))
  end.

(** [check n] tells whether the caller's [n]th check throws, as a deadline does. *)
Fixpoint post_words (words : list (bytes * Z)) (index : nat) (check : nat -> bool) (n : nat) (s : lexical) : bool * lexical :=
  match words with
  | [] => (true, s)
  | (w, f) :: rest =>
      if check n then (false, s)
      else let '(t, s) := intern w s in post_words rest index check (S n) (post index t f s)
  end.

Definition fail (s : lexical) : lexical := mkLexical (documents_ s) (terms_ s) (vocabulary_ s) (ids_ s) (liveRecords_ s) (totalLength_ s) true.

Definition bad_id (id : bytes) : bool := bytes_eqb id [] || (1024 <? blen id).

Section Lib.
Context `{LexicalLib} (config : LexicalConfig).

Definition upsert (s : lexical) (id text : bytes) (check : nat -> bool) : result bool * lexical :=
  if bad_id id then (Err "invalid lexical record ID", s)
  else
    match tokenize text (1024 * 1024) 65536 with
    | Err e => (Err e, s)
    | Ok tokens =>
        if failed_ s then (Err "lexical_index_unhealthy", s)
        else if Z.of_nat (length (documents_ s)) =? maxRecords config then (Err "lexical_record_limit_exceeded", s)
        else if check 0%nat then (Err "check", fail s)
        else
          let previous := ids_ s !! id in
          let index := length (documents_ s) in
          let s := mkLexical (documents_ s ++ [mkDocument id [] (Z.of_nat (length tokens)) true]) (terms_ s) (vocabulary_ s) (ids_ s) (liveRecords_ s) (totalLength_ s) (failed_ s) in
          match post_words (term_order (count_tokens tokens ∅)) index check 1 s with
          | (false, s) => (Err "check", fail s)
          | (true, s) =>
              let s := match previous with Some p => remove p s | None => s end in
              (Ok true, mkLexical (documents_ s) (terms_ s) (vocabulary_ s) (<[id := index]> (ids_ s)) (liveRecords_ s + 1) (totalLength_ s + Z.of_nat (length tokens)) (failed_ s))
          end
    end.

Definition erase (s : lexical) (id : bytes) : result bool * lexical :=
  if bad_id id then (Err "invalid lexical record ID", s)
  else if failed_ s then (Err "lexical_index_unhealthy", s)
  else
    match ids_ s !! id with
    | None => (Ok false, s)
    | Some i => match documents_ s !! i with
                | Some d => if d_live d then (Ok true, remove i s) else (Ok false, s)
                | None => (Ok false, s)
                end
    end.

(** ** Search *)

(** A [std::set] of words, in order. *)
Fixpoint word_insert (w : bytes) (l : list bytes) : list bytes :=
  match l with
  | [] => [w]
  | x :: rest => if bytes_ltb w x then w :: x :: rest else if bytes_eqb w x then x :: rest else x :: word_insert w rest
  end.
Definition word_set (tokens : list bytes) : list bytes := foldl (fun l w => word_insert w l) [] tokens.

Definition idf (live frequency : Z) : double :=
  log1p (ddiv (dadd (dsub (double_of_int live) (double_of_int frequency)) dhalf) (dadd (double_of_int frequency) dhalf)).

Definition norm (length : Z) (average : double) : double :=
  dmul (k1 config) (dadd (dsub (double_of_int 1) (b_ config)) (ddiv (dmul (b_ config) (double_of_int length)) average)).

Definition contribution (idf_ : double) (frequency length : Z) (average : double) : double :=
  ddiv (dmul idf_ (dmul (double_of_int frequency) (dadd (k1 config) (double_of_int 1)))) (dadd (double_of_int frequency) (norm length average)).

Definition tick (check : nat -> bool) (n : nat) : result nat := if check n then Err "check" else Ok (S n).

Fixpoint score_postings (docs : list Document) (ps : list (nat * Z)) (idf_ average : double) (check : nat -> bool) (n : nat) (scores : gmap nat (double * nat)) : result (nat * gmap nat (double * nat)) :=
  match ps with
  | [] => Ok (n, scores)
  | (i, f) :: rest =>
      n ← tick check n;
      match docs !! i with
      | Some d =>
          if d_live d then
            match scores !! i with
            | None =>
                if Z.of_nat (size scores) =? maxCandidates config then Err "lexical_candidate_limit_exceeded"
                else score_postings docs rest idf_ average check n (<[i := (dadd dzero (contribution idf_ f (d_length d) average), 1%nat)]> scores)
            | Some (sc, k) => score_postings docs rest idf_ average check n (<[i := (dadd sc (contribution idf_ f (d_length d) average), S k)]> scores)
            end
          else score_postings docs rest idf_ average check n scores
      | None => Err "posting out of range"
      end
  end.

(** [None]: a word nobody has, where all are required. *)
Fixpoint score_terms (s : lexical) (words : list bytes) (all : bool) (average : double) (check : nat -> bool) (n : nat) (scores : gmap nat (double * nat)) : result (option (nat * gmap nat (double * nat))) :=
  match words with
  | [] => Ok (Some (n, scores))
  | w :: rest =>
      n ← tick check n;
      match vocabulary_ s !! w ≫= fun t => terms_ s !! t with
      | None => if all then Ok None else score_terms s rest all average check n scores
      | Some e =>
          r ← score_postings (documents_ s) (postings e) (idf (liveRecords_ s) (liveFrequency e)) average check n scores;
          score_terms s rest all average check r.1 r.2
      end
  end.

Definition id_of (docs : list Document) (i : nat) : bytes := match docs !! i with Some d => d_id d | None => [] end.

(** The candidates, in the order of the score table. *)
Fixpoint pick (docs : list Document) (scores : list (nat * (double * nat))) (k : nat) (all : bool) (wanted : nat) (eligible : bytes -> bool) (check : nat -> bool) (n : nat)
    (heap : list (nat * double)) : result (list (nat * double)) :=
  match scores with
  | [] => Ok heap
  | (i, (sc, terms)) :: rest =>
      n ← tick check n;
      if (all && negb (terms =? wanted)%nat) || negb (eligible (id_of docs i)) then pick docs rest k all wanted eligible check n heap
      else pick docs rest k all wanted eligible check n (heap_keep (fun c => (id_of docs c.1, c.2)) k heap (i, sc))
  end.

Definition search (s : lexical) (query : bytes) (k : Z) (all : bool) (check : nat -> bool) (eligible : bytes -> bool) : result (list (bytes * double)) :=
  if (k =? 0) || (10000 <? k) then Err "lexical k out of range"
  else
    tokens ← tokenize query 4096 64;
    let unique := word_set tokens in
    if failed_ s then Err "lexical_index_unhealthy"
    else
      n ← tick check 0;
      match unique with
      | [] => Ok []
      | _ =>
          if (liveRecords_ s =? 0) || (totalLength_ s =? 0) then Ok []
          else
            let average := ddiv (double_of_int (totalLength_ s)) (double_of_int (liveRecords_ s)) in
            found ← score_terms s unique all average check n ∅;
            match found with
            | None => Ok []
            | Some (n, scores) =>
                heap ← pick (documents_ s) (score_order scores) (Z.to_nat k) all (length unique) eligible check n [];
                Ok (map (fun c => (id_of (documents_ s) c.1, c.2)) heap)
            end
      end.
End Lib.
