(* ===== verification/LexicalInv.v ===== *)
(** * The lexical index: documents, words and postings agree

    What the live entries of the index are, and that every change keeps the
    postings and the live counts in step with them. *)

From stdpp Require Import base list gmap strings sorting.
From Stdlib Require Import ZArith Lia SpecFloat.
From S2P Require Import Prelude Msgpack Float64 Ranked Lexical.

Open Scope Z_scope.

(** A live entry: its id, its length in words, and how often each word occurs. *)
Record live_doc := mkLive { ld_id : bytes; ld_length : Z; ld_words : gmap bytes Z }.

Definition has_word (w : bytes) (p : nat * live_doc) : Prop := is_Some (ld_words p.2 !! w).

#[export] Instance has_word_dec w p : Decision (has_word w p).
Proof. unfold has_word. apply _. Defined.

(** In how many live entries a word occurs. *)
Definition live_count (w : bytes) (lives : gmap nat live_doc) : Z := Z.of_nat (size (filter (has_word w) lives)).

Definition one_if (P : Prop) `{Decision P} : Z := if decide P then 1 else 0.

Lemma live_count_fresh w lives i ld : lives !! i = None -> live_count w (<[i := ld]> lives) = live_count w lives + one_if (is_Some (ld_words ld !! w)).
Proof.
  intros Hi. unfold live_count, one_if. rewrite map_filter_insert. unfold has_word at 1. simpl. case_decide as Hd; case_decide; try done.
  - rewrite map_size_insert_None; [lia|]. apply map_lookup_filter_None. by left.
  - rewrite (delete_id lives) by done. lia.
Qed.

Lemma live_count_delete w lives i ld : lives !! i = Some ld -> live_count w (delete i lives) = live_count w lives - one_if (is_Some (ld_words ld !! w)).
Proof.
  intros Hi. rewrite <-(insert_delete_id lives i ld Hi) at 2. rewrite live_count_fresh by apply lookup_delete_eq. lia.
Qed.

Lemma live_count_change w lives i ld ld' : lives !! i = Some ld ->
  live_count w (<[i := ld']> lives) = live_count w lives - one_if (is_Some (ld_words ld !! w)) + one_if (is_Some (ld_words ld' !! w)).
Proof. intros Hi. rewrite <-insert_delete_eq, live_count_fresh by apply lookup_delete_eq. by rewrite (live_count_delete w lives i ld Hi). Qed.

(** ** The invariant *)

Record entry_ok (voc : gmap bytes nat) (ld : live_doc) (d : Document) : Prop := {
  eo_id : d_id d = ld_id ld;
  eo_length : d_length d = ld_length ld;
  eo_live : d_live d = true;
  eo_nodup : NoDup (d_terms d);
  eo_terms : forall t, t ∈ d_terms d <-> exists w, voc !! w = Some t /\ is_Some (ld_words ld !! w) }.

Record term_ok (ndocs : nat) (lives : gmap nat live_doc) (w : bytes) (e : Term) : Prop := {
  to_nodup : NoDup (map fst (postings e));
  to_range : forall i f, (i, f) ∈ postings e -> (i < ndocs)%nat;
  to_posts : forall i ld f, lives !! i = Some ld -> (i, f) ∈ postings e <-> ld_words ld !! w = Some f;
  to_count : liveFrequency e = live_count w lives }.

Record index_ok (s : lexical) (lives : gmap nat live_doc) : Prop := {
  io_live : forall i ld, lives !! i = Some ld -> exists d, documents_ s !! i = Some d /\ entry_ok (vocabulary_ s) ld d;
  io_dead : forall i d, documents_ s !! i = Some d -> lives !! i = None -> d_live d = false;
  io_inj : forall w w' t, vocabulary_ s !! w = Some t -> vocabulary_ s !! w' = Some t -> w = w';
  io_words : forall i ld w, lives !! i = Some ld -> is_Some (ld_words ld !! w) -> is_Some (vocabulary_ s !! w);
  io_terms : forall w t, vocabulary_ s !! w = Some t -> exists e, terms_ s !! t = Some e /\ term_ok (length (documents_ s)) lives w e }.

Lemma index_ok_fresh s lives : index_ok s lives -> lives !! length (documents_ s) = None.
Proof.
  intros I. destruct (lives !! _) as [ld|] eqn:E; [|done]. destruct (io_live _ _ I _ _ E) as (d & Hd & _). apply lookup_lt_Some in Hd. lia.
Qed.

(** An entry without words. *)
Lemma push_ok s lives id len : index_ok s lives ->
  index_ok (mkLexical (documents_ s ++ [mkDocument id [] len true]) (terms_ s) (vocabulary_ s) (ids_ s) (liveRecords_ s) (totalLength_ s) (failed_ s))
    (<[length (documents_ s) := mkLive id len ∅]> lives).
Proof.
  intros I. pose proof (index_ok_fresh _ _ I) as Hf. destruct I as [I1 I2 I3 I4 I5]. split; simpl; [| |done| |].
  - intros i ld [[<- <-]|[Hne Hi]]%lookup_insert_Some.
    + eexists. split; [apply list_lookup_middle; done|]. split; simpl; try done; [constructor|]. intros t. rewrite list_elem_of_In. simpl. split; [done|]. intros (w & _ & [? H]). by rewrite lookup_empty in H.
    + destruct (I1 i ld Hi) as (d & Hd & Ho). exists d. split; [by apply lookup_app_l_Some|done].
  - intros i d Hd [Hl Hne]%lookup_insert_None. apply lookup_app_Some in Hd as [Hd|[Hge Hd]]; [by eapply I2|]. destruct (i - _)%nat eqn:Ei in Hd; [lia|done].
  - intros i ld w [[<- <-]|[Hne Hi]]%lookup_insert_Some; [intros [? H]; simpl in H; by rewrite lookup_empty in H|by eapply I4].
  - intros w t Hw. destruct (I5 w t Hw) as (e & He & [O1 O2 O3 O4]). exists e. split; [done|]. split; [done| | |].
    + intros i f Hp. rewrite length_app. specialize (O2 i f Hp). simpl. lia.
    + intros i ld f [[<- <-]|[Hne Hi]]%lookup_insert_Some; [|by apply O3]. simpl. rewrite lookup_empty. split; [|done]. intros Hp. specialize (O2 _ _ Hp). lia.
    + rewrite O4, live_count_fresh by done. unfold one_if. simpl. rewrite lookup_empty. by case_decide as Hd; [destruct Hd|rewrite Z.add_0_r].
Qed.

Lemma intern_ok w s lives : index_ok s lives ->
  let '(t, s') := intern w s in index_ok s' lives /\ vocabulary_ s' !! w = Some t /\ documents_ s' = documents_ s /\ ids_ s' = ids_ s /\
    liveRecords_ s' = liveRecords_ s /\ totalLength_ s' = totalLength_ s /\ failed_ s' = failed_ s.
Proof.
  intros I. unfold intern. destruct (vocabulary_ s !! w) as [t|] eqn:Ew; [done|]. split; [|simpl; by rewrite lookup_insert_eq]. destruct I as [I1 I2 I3 I4 I5].
  assert (Hnew : forall w' t, vocabulary_ s !! w' = Some t -> t <> length (terms_ s)).
  { intros w' t Hw' ->. destruct (I5 w' _ Hw') as (e & He & _). apply lookup_lt_Some in He. lia. }
  split; simpl; [|done| | |].
  - intros i ld Hi. destruct (I1 i ld Hi) as (d & Hd & [E1 E2 E3 E4 E5]). exists d. split; [done|]. split; try done. intros t. rewrite E5. split; intros (w' & Hw' & Hs).
    + exists w'. split; [|done]. rewrite lookup_insert_ne; [done|]. intros <-. congruence.
    + exists w'. split; [|done]. apply lookup_insert_Some in Hw' as [[<- _]|[_ Hw']]; [|done]. destruct (I4 i ld w Hi Hs). congruence.
  - intros w1 w2 t [[<- <-]|[Hn1 H1]]%lookup_insert_Some [[<- E]|[Hn2 H2]]%lookup_insert_Some; try done; [by destruct (Hnew _ _ H2)|by destruct (Hnew _ _ H1)|by eapply I3].
  - intros i ld w' Hi Hs. destruct (I4 i ld w' Hi Hs) as [t Ht]. exists t. rewrite lookup_insert_ne; [done|]. intros <-. congruence.
  - intros w' t [[<- <-]|[Hne Hw']]%lookup_insert_Some.
    + exists (mkTerm 0 []). split; [by apply list_lookup_middle|]. split; simpl; [constructor| | |].
      * intros i f Hp. by apply list_elem_of_In in Hp.
      * intros i ld f Hi. rewrite list_elem_of_In. simpl. split; [done|]. intros Hw. destruct (I4 i ld w Hi) as [t Ht]; [by exists f|]. congruence.
      * unfold live_count. assert (filter (has_word w) lives = ∅) as ->; [|done]. apply map_empty_filter. intros i ld Hi Hs. destruct (I4 i ld w Hi Hs) as [t Ht]. congruence.
    + destruct (I5 w' t Hw') as (e & He & Ho). exists e. split; [by apply lookup_app_l_Some|done].
Qed.

(** One word of an entry. *)
Lemma post_ok i t f w s lives ld : index_ok s lives -> vocabulary_ s !! w = Some t -> lives !! i = Some ld -> ld_words ld !! w = None ->
  index_ok (post i t f s) (<[i := mkLive (ld_id ld) (ld_length ld) (<[w := f]> (ld_words ld))]> lives).
Proof.
  intros [I1 I2 I3 I4 I5] Hw Hi Hfresh. destruct (I1 i ld Hi) as (d & Hd & [E1 E2 E3 E4 E5]). destruct (I5 w t Hw) as (e & He & [O1 O2 O3 O4]).
  assert (Ht : t ∉ d_terms d). { rewrite E5. intros (w' & Hw' & Hs). rewrite (I3 _ _ _ Hw' Hw), Hfresh in Hs. by destruct Hs. }
  split; simpl; [| |done| |].
  - intros j lj [[<- <-]|[Hne Hj]]%lookup_insert_Some.
    + eexists. split; [rewrite list_lookup_alter_eq, Hd; done|]. split; simpl; try done.
      * apply NoDup_app. split; [done|]. split; [|apply NoDup_singleton]. intros x Hx Hx'. apply list_elem_of_singleton in Hx' as ->. done.
      * intros t'. rewrite elem_of_app, list_elem_of_singleton, E5. split.
        -- intros [(w' & Hw' & Hs)| ->]; [exists w'; split; [done|]|exists w; split; [done|by rewrite lookup_insert_eq]].
           destruct (decide (w = w')) as [<-|Hn]; [by rewrite lookup_insert_eq|by rewrite lookup_insert_ne].
        -- intros (w' & Hw' & Hs). destruct (decide (w = w')) as [<-|Hn]; [right; congruence|]. rewrite lookup_insert_ne in Hs by done. left. by exists w'.
    + destruct (I1 j lj Hj) as (dj & Hdj & Ho). exists dj. split; [by rewrite list_lookup_alter_ne|done].
  - intros j dj Hdj [Hj Hne]%lookup_insert_None. rewrite list_lookup_alter_ne in Hdj by done. by eapply I2.
  - intros j lj w' [[<- <-]|[Hne Hj]]%lookup_insert_Some Hs; [|by eapply I4]. simpl in Hs. destruct (decide (w = w')) as [<-|Hn]; [by exists t|].
    rewrite lookup_insert_ne in Hs by done. by eapply I4.
  - intros w' t' Hw'. rewrite length_alter. destruct (decide (w = w')) as [<-|Hn].
    + assert (t' = t) as -> by congruence. eexists. split; [by rewrite list_lookup_alter_eq, He|]. split; simpl.
      * rewrite map_app. simpl. apply NoDup_app. split; [done|]. split; [|apply NoDup_singleton]. intros x Hx Hx'. apply list_elem_of_singleton in Hx' as ->.
        apply list_elem_of_fmap in Hx as ([j g] & -> & Hx). simpl in *. apply (O3 _ _ _ Hi) in Hx. congruence.
      * intros j g. rewrite elem_of_app, list_elem_of_singleton. intros [Hp|[= -> ->]]; [by eapply O2|]. by apply lookup_lt_Some in Hd.
      * intros j lj g [[<- <-]|[Hne Hj]]%lookup_insert_Some; rewrite elem_of_app, list_elem_of_singleton; simpl.
        -- rewrite (O3 _ _ _ Hi), Hfresh, lookup_insert_eq. split; [intros [?|[= ->]]; done|intros [= ->]; by right].
        -- rewrite (O3 _ _ _ Hj). split; [intros [?|[= -> _]]; done|by left].
      * rewrite (live_count_change w lives i ld) by done. simpl. rewrite Hfresh, lookup_insert_eq, O4. unfold one_if. rewrite decide_False by (intros [? ?]; done). rewrite decide_True by done. lia.
    + assert (t' <> t) by (intros ->; destruct Hn; by eapply I3). destruct (I5 w' t' Hw') as (e' & He' & [P1 P2 P3 P4]). exists e'. split; [by rewrite list_lookup_alter_ne|].
      split; [done|done| |].
      * intros j lj g [[<- <-]|[Hne Hj]]%lookup_insert_Some; [|by apply P3]. simpl. rewrite lookup_insert_ne by done. by apply P3.
      * rewrite (live_count_change w' lives i ld) by done. simpl. rewrite lookup_insert_ne, P4 by done. lia.
Qed.

Lemma drop_all l ts t : NoDup l ->
  foldl (fun ts t => drop_frequency t ts) ts l !! t = (if decide (t ∈ l) then (fun e => mkTerm (liveFrequency e - 1) (postings e)) <$> ts !! t else ts !! t).
Proof.
  revert ts. induction l as [|x l IH]; intros ts Hd; cbn [foldl]; [done|]. apply NoDup_cons in Hd as [Hx Hd]. rewrite IH by done.
  unfold drop_frequency. destruct (decide (t = x)) as [->|Hn].
  - rewrite list_lookup_alter_eq. case_decide; [done|]. case_decide as H2; [done|]. by destruct H2; left.
  - rewrite !list_lookup_alter_ne by done. case_decide as H1; case_decide as H2; try done; exfalso; rewrite elem_of_cons in H2; naive_solver.
Qed.

(** A live entry dies. *)
Lemma remove_ok i s lives ld : index_ok s lives -> lives !! i = Some ld ->
  index_ok (remove i s) (delete i lives) /\ length (documents_ (remove i s)) = length (documents_ s) /\ ids_ (remove i s) = ids_ s /\ failed_ (remove i s) = failed_ s /\
  liveRecords_ (remove i s) = liveRecords_ s - 1 /\ totalLength_ (remove i s) = totalLength_ s - ld_length ld.
Proof.
  intros [I1 I2 I3 I4 I5] Hi. destruct (I1 i ld Hi) as (d & Hd & [E1 E2 E3 E4 E5]). unfold remove. rewrite Hd, E3.
  split; [|simpl; rewrite length_insert; repeat split; try done; by rewrite E2]. split; simpl; [| |done| |].
  - intros j lj [Hne Hj]%lookup_delete_Some. destruct (I1 j lj Hj) as (dj & Hdj & Ho). exists dj. split; [by rewrite list_lookup_insert_ne|done].
  - intros j dj Hdj Hl. destruct (decide (i = j)) as [<-|Hne].
    + rewrite list_lookup_insert_eq in Hdj by by eapply lookup_lt_Some. by injection Hdj as <-.
    + rewrite list_lookup_insert_ne in Hdj by done. rewrite lookup_delete_ne in Hl by done. by eapply I2.
  - intros j lj w [Hne Hj]%lookup_delete_Some. by eapply I4.
  - intros w t Hw. destruct (I5 w t Hw) as (e & He & [O1 O2 O3 O4]). rewrite drop_all, He, length_insert by done.
    assert (Hin : t ∈ d_terms d <-> is_Some (ld_words ld !! w)).
    { rewrite E5. split; [intros (w' & Hw' & Hs); by rewrite (I3 _ _ _ Hw Hw')|]. by exists w. }
    assert (Hcount : live_count w (delete i lives) = liveFrequency e - one_if (t ∈ d_terms d)).
    { rewrite (live_count_delete w lives i ld Hi), O4. unfold one_if. by rewrite (decide_ext _ _ _ _ Hin). }
    exists (mkTerm (live_count w (delete i lives)) (postings e)). split.
    + rewrite Hcount. unfold one_if. case_decide; simpl; [done|]. rewrite Z.sub_0_r. by destruct e.
    + split; simpl; [done|done| |done]. intros j lj f [Hne Hj]%lookup_delete_Some. by apply O3.
Qed.
