(* ===== verification/LexicalOps.v ===== *)
(** * The lexical index refines a map from ids to words

    Writes and erasures of the index against the same on a finite map: same answers,
    same errors, and the state of the one represents the state of the other. *)

From stdpp Require Import base list gmap strings sorting.
From Stdlib Require Import ZArith Lia SpecFloat.
From S2P Require Import Prelude Msgpack Float64 Ranked Lexical LexicalInv.

Open Scope Z_scope.

(** The words of every document that is there. *)
Abbreviation corpus := (gmap bytes (list bytes)).

Definition corpus_length (c : corpus) : Z := map_fold (fun _ toks n => Z.of_nat (length toks) + n) 0 c.

Lemma corpus_length_insert c id toks : c !! id = None -> corpus_length (<[id := toks]> c) = Z.of_nat (length toks) + corpus_length c.
Proof. intros H. unfold corpus_length. rewrite map_fold_insert_L; [done| |done]. intros; lia. Qed.

Lemma corpus_length_delete c id toks : c !! id = Some toks -> corpus_length (delete id c) = corpus_length c - Z.of_nat (length toks).
Proof. intros H. rewrite <-(insert_delete_id c id toks H) at 2. rewrite corpus_length_insert by apply lookup_delete_eq. lia. Qed.

(** The specification: documents, how many versions were ever stored, and whether a write was cut short. *)
Record lspec := mkLspec { sp_corpus : corpus; sp_versions : Z; sp_broken : bool }.

Inductive lop := LUpsert (id text : bytes) (check : nat -> bool) | LErase (id : bytes).

Definition distinct_words (tokens : list bytes) : nat := size (list_to_set tokens : gset bytes).

Section Refinement.
Context `{LexicalLibLaws} (config : LexicalConfig).

Definition spec_step (op : lop) (sp : lspec) : result bool * lspec :=
  match op with
  | LUpsert id text check =>
      if bad_id id then (Err "invalid lexical record ID", sp)
      else match tokenize text (1024 * 1024) 65536 with
           | Err e => (Err e, sp)
           | Ok tokens =>
               if sp_broken sp then (Err "lexical_index_unhealthy", sp)
               else if sp_versions sp =? maxRecords config then (Err "lexical_record_limit_exceeded", sp)
               else if existsb check (seq 0 (S (distinct_words tokens))) then (Err "check", mkLspec (sp_corpus sp) (sp_versions sp) true)
               else (Ok true, mkLspec (<[id := tokens]> (sp_corpus sp)) (sp_versions sp + 1) false)
           end
  | LErase id =>
      if bad_id id then (Err "invalid lexical record ID", sp)
      else if sp_broken sp then (Err "lexical_index_unhealthy", sp)
      else (Ok (bool_decide (is_Some (sp_corpus sp !! id))), mkLspec (delete id (sp_corpus sp)) (sp_versions sp) false)
  end.

Definition index_step (op : lop) (s : lexical) : result bool * lexical :=
  match op with LUpsert id text check => upsert config s id text check | LErase id => erase s id end.

(** ** Words of a document *)

Lemma count_tokens_lookup tokens m w : count_tokens tokens m !! w = if occurrences w tokens =? 0 then m !! w else Some (default 0 (m !! w) + occurrences w tokens).
Proof.
  revert m. induction tokens as [|t tokens IH]; intros m; [done|]. cbn [count_tokens]. rewrite IH. unfold occurrences. cbn [List.filter].
  destruct (bytes_eqb w t) eqn:E; cbn [length].
  - apply bytes_eqb_eq in E as ->. rewrite lookup_insert_eq. rewrite (proj2 (Z.eqb_neq (Z.of_nat (S _)) 0)) by lia. cbn [from_option]; unfold id; destruct (Z.of_nat (length _) =? 0) eqn:E; f_equal; lia.
  - rewrite lookup_insert_ne; [done|]. intros ->. by rewrite bytes_eqb_refl in E.
Qed.

Definition has (w : bytes) (tokens : list bytes) : bool := negb (occurrences w tokens =? 0).

Lemma words_lookup tokens w : count_tokens tokens ∅ !! w = if has w tokens then Some (occurrences w tokens) else None.
Proof. rewrite count_tokens_lookup, lookup_empty. unfold has. by destruct (occurrences w tokens =? 0). Qed.

Lemma occurrences_elem w tokens : occurrences w tokens <> 0 <-> w ∈ tokens.
Proof.
  unfold occurrences. induction tokens as [|t tokens IH]; simpl; [rewrite list_elem_of_In; done|]. rewrite elem_of_cons, <-IH. destruct (bytes_eqb w t) eqn:E; simpl.
  - apply bytes_eqb_eq in E as ->. split; [by left|lia].
  - split; [by right|]. intros [->|]; [by rewrite bytes_eqb_refl in E|done].
Qed.

Lemma words_size tokens : length (term_order (count_tokens tokens ∅)) = distinct_words tokens.
Proof.
  rewrite (Permutation_length (term_order_all _)), length_map_to_list. unfold distinct_words. rewrite <-size_dom. f_equal. apply set_eq. intros w.
  rewrite elem_of_dom, words_lookup, elem_of_list_to_set, <-occurrences_elem. unfold has. destruct (occurrences w tokens =? 0) eqn:E; simpl; split; try done; try lia; by intros [].
Qed.

(** ** Posting *)

Record same_rest (s s' : lexical) : Prop := {
  sr_docs : length (documents_ s') = length (documents_ s);
  sr_ids : ids_ s' = ids_ s; sr_live : liveRecords_ s' = liveRecords_ s; sr_total : totalLength_ s' = totalLength_ s; sr_failed : failed_ s' = failed_ s }.

Lemma post_words_ok words index check n s lives id len m : index_ok s lives -> lives !! index = Some (mkLive id len m) ->
  NoDup (map fst words) -> (forall w, w ∈ map fst words -> m !! w = None) ->
  let '(done, s') := post_words words index check n s in
  done = negb (existsb check (seq n (length words))) /\ same_rest s s' /\
  (done = true -> index_ok s' (<[index := mkLive id len (list_to_map words ∪ m)]> lives)).
Proof.
  revert n s lives m. induction words as [|[w f] words IH]; intros n s lives m I Hi Hd Hm; simpl.
  - rewrite (left_id_L ∅ (∪)), insert_id by done. done.
  - destruct (check n); [simpl; done|]. pose proof (intern_ok w s lives I) as Hw. destruct (intern w s) as [t s1] eqn:Es. destruct Hw as (I1 & Hw & E1 & E2 & E3 & E4 & E5).
    simpl in Hd. apply NoDup_cons in Hd as [Hnw Hd]. assert (Hfresh : m !! w = None) by (apply Hm; left).
    pose proof (post_ok index t f w s1 lives _ I1 Hw Hi Hfresh) as I2. simpl in I2.
    specialize (IH (S n) (post index t f s1) _ (<[w := f]> m) I2). rewrite lookup_insert_eq in IH. specialize (IH eq_refl Hd).
    destruct (post_words words index check (S n) (post index t f s1)) as [ok s2]. destruct IH as (Hdone & [R1 R2 R3 R4 R5] & Hok).
    { intros w' Hw'. rewrite lookup_insert_ne; [apply Hm; by right|]. intros <-. done. }
    split; [done|]. split; [split; simpl in *; rewrite ?length_alter in R1; congruence|]. intros Hd'. specialize (Hok Hd'). rewrite insert_insert_eq in Hok.
    rewrite <-insert_union_l, (insert_union_r (list_to_map words)); [done|]. by apply not_elem_of_list_to_map_1.
Qed.

(** ** The refinement *)

Definition doc_of (id : bytes) (toks : list bytes) : live_doc := mkLive id (Z.of_nat (length toks)) (count_tokens toks ∅).

Record represents (s : lexical) (c : corpus) (lives : gmap nat live_doc) : Prop := {
  rp_index : index_ok s lives;
  rp_ids : forall i ld, lives !! i = Some ld -> ids_ s !! ld_id ld = Some i /\ exists toks, c !! ld_id ld = Some toks /\ ld = doc_of (ld_id ld) toks;
  rp_corpus : forall id toks, c !! id = Some toks -> exists i, lives !! i = Some (doc_of id toks);
  rp_known : forall id i, ids_ s !! id = Some i -> (i < length (documents_ s))%nat /\ forall ld, lives !! i = Some ld -> ld_id ld = id;
  rp_live : liveRecords_ s = Z.of_nat (size c);
  rp_total : totalLength_ s = corpus_length c }.

Definition refines (s : lexical) (sp : lspec) : Prop :=
  if sp_broken sp then failed_ s = true
  else failed_ s = false /\ sp_versions sp = Z.of_nat (length (documents_ s)) /\ exists lives, represents s (sp_corpus sp) lives.

(** An id that is known: its entry is live when the document is there, dead when it was erased. *)
Lemma previous_cases s c lives id p : represents s c lives -> ids_ s !! id = Some p ->
  match c !! id with
  | Some toks => lives !! p = Some (doc_of id toks)
  | None => lives !! p = None
  end.
Proof.
  intros R Hp. destruct (c !! id) as [toks|] eqn:Ec.
  - destruct (rp_corpus _ _ _ R id toks Ec) as [i Hi]. destruct (rp_ids _ _ _ R i _ Hi) as [Hi' _]. simpl in Hi'. rewrite Hp in Hi'. by injection Hi' as ->.
  - destruct (lives !! p) as [ld|] eqn:El; [|done]. destruct (rp_ids _ _ _ R p ld El) as [_ (toks & Ht & _)]. rewrite (proj2 (rp_known _ _ _ R id p Hp) ld El) in Ht. congruence.
Qed.

Lemma remove_dead p s lives d : index_ok s lives -> documents_ s !! p = Some d -> lives !! p = None -> remove p s = s.
Proof. intros I Hd Hl. unfold remove. rewrite Hd. by rewrite (io_dead _ _ I p d Hd Hl). Qed.

(** An entry that is not replaced. *)
Lemma others_kept s c lives id p i ld : represents s c lives -> ids_ s !! id = Some p -> lives !! i = Some ld -> i <> p <-> ld_id ld <> id.
Proof.
  intros R Hp Hi. destruct (rp_ids _ _ _ R i ld Hi) as [Hi' _]. split; intros Hne E.
  - rewrite E in Hi'. congruence.
  - subst i. by destruct Hne; apply (rp_known _ _ _ R id p Hp).
Qed.

Lemma no_previous s c lives s2 id toks : represents s c lives -> c !! id = None -> length (documents_ s2) = S (length (documents_ s)) ->
  ids_ s2 = ids_ s -> liveRecords_ s2 = liveRecords_ s -> totalLength_ s2 = totalLength_ s ->
  index_ok s2 (<[length (documents_ s) := doc_of id toks]> lives) ->
  exists kept, index_ok s2 (<[length (documents_ s) := doc_of id toks]> kept) /\ length (documents_ s2) = S (length (documents_ s)) /\ ids_ s2 = ids_ s /\ failed_ s2 = failed_ s2 /\
    (forall i ld, kept !! i = Some ld <-> lives !! i = Some ld /\ ld_id ld <> id) /\
    liveRecords_ s2 = Z.of_nat (size (delete id c)) /\ totalLength_ s2 = corpus_length (delete id c).
Proof.
  intros R Ec Hlen Hids Hlive Htot I2. exists lives. do 4 (split; [done|]). split; [|rewrite delete_id, Hlive, (rp_live _ _ _ R), Htot, (rp_total _ _ _ R) by done; done].
  intros i ld. split; [|by intros []]. intros Hi. split; [done|]. destruct (rp_ids _ _ _ R i ld Hi) as [_ (t & Ht & _)]. intros E. congruence.
Qed.

Lemma erase_kept s c lives s3 id toks p : represents s c lives -> ids_ s !! id = Some p -> c !! id = Some toks -> index_ok s3 (delete p lives) -> length (documents_ s3) = length (documents_ s) ->
  ids_ s3 = ids_ s -> liveRecords_ s3 = liveRecords_ s - 1 -> totalLength_ s3 = totalLength_ s - ld_length (doc_of id toks) -> represents s3 (delete id c) (delete p lives).
Proof.
  intros R Ep Ec I3 D1 D2 D4 D5. split; [done|..].
  - intros i ld [Hne Hi]%lookup_delete_Some. rewrite D2, lookup_delete_ne; [by apply (rp_ids _ _ _ R)|]. apply not_eq_sym. apply (others_kept s c lives id p i ld R Ep Hi). done.
  - intros id' t [Hne Hc]%lookup_delete_Some. destruct (rp_corpus _ _ _ R id' t Hc) as [i Hi]. exists i. rewrite lookup_delete_ne; [done|]. apply not_eq_sym. by apply (others_kept s c lives id p i _ R Ep Hi).
  - intros id' i Hi. rewrite D2 in Hi. destruct (rp_known _ _ _ R id' i Hi) as [Hlt Hk]. split; [lia|]. intros ld [_ Hl]%lookup_delete_Some. by apply Hk.
  - rewrite map_size_delete_Some by done. rewrite D4, (rp_live _ _ _ R). assert (size c <> 0%nat) by (apply map_size_non_empty_iff; intros ->; done). lia.
  - rewrite D5, (rp_total _ _ _ R), (corpus_length_delete c id toks) by done. done.
Qed.

(** After the words of the new entry are posted, the old entry of the id goes. *)
Lemma drop_previous s c lives s2 id toks : represents s c lives -> length (documents_ s2) = S (length (documents_ s)) ->
  ids_ s2 = ids_ s -> liveRecords_ s2 = liveRecords_ s -> totalLength_ s2 = totalLength_ s ->
  index_ok s2 (<[length (documents_ s) := doc_of id toks]> lives) ->
  let s3 := match ids_ s !! id with Some p => remove p s2 | None => s2 end in
  exists kept, index_ok s3 (<[length (documents_ s) := doc_of id toks]> kept) /\ length (documents_ s3) = S (length (documents_ s)) /\ ids_ s3 = ids_ s /\ failed_ s3 = failed_ s2 /\
    (forall i ld, kept !! i = Some ld <-> lives !! i = Some ld /\ ld_id ld <> id) /\
    liveRecords_ s3 = Z.of_nat (size (delete id c)) /\ totalLength_ s3 = corpus_length (delete id c).
Proof.
  intros R Hlen Hids Hlive Htot I2. pose proof (index_ok_fresh _ _ (rp_index _ _ _ R)) as Hfresh. destruct (ids_ s !! id) as [p|] eqn:Ep.
  - destruct (rp_known _ _ _ R id p Ep) as [Hlt _]. assert (Hpn : length (documents_ s) <> p) by lia. pose proof (previous_cases _ _ _ _ _ R Ep) as Hc. destruct (c !! id) as [old|] eqn:Ec.
    + destruct (remove_ok p s2 _ (doc_of id old) I2) as (I3 & D1 & D2 & D3 & D4 & D5); [by rewrite lookup_insert_ne|]. exists (delete p lives).
      rewrite delete_insert_ne in I3 by done. split; [done|]. do 3 (split; [congruence|]). split; [|split].
      * intros i ld. rewrite lookup_delete_Some. split; intros [H1 H2]; [split; [done|]; by apply (others_kept s c lives id p i ld R Ep H2)|split; [|done]].
        apply not_eq_sym. by apply (others_kept s c lives id p i ld R Ep H1).
      * rewrite map_size_delete_Some by done. rewrite D4, Hlive, (rp_live _ _ _ R). assert (size c <> 0%nat) by (apply map_size_non_empty_iff; intros ->; done). lia.
      * rewrite D5, Htot, (rp_total _ _ _ R), (corpus_length_delete c id old) by done. done.
    + destruct (lookup_lt_is_Some_2 (documents_ s2) p) as [d Hd]; [lia|]. rewrite (remove_dead p s2 _ d I2 Hd) by by rewrite lookup_insert_ne. by apply no_previous.
  - apply no_previous; try done. destruct (c !! id) as [t|] eqn:E; [|done]. destruct (rp_corpus _ _ _ R id t E) as [i Hi]. destruct (rp_ids _ _ _ R i _ Hi) as [Hi' _]. simpl in Hi'. congruence.
Qed.

(** The new entry becomes the id's. *)
Lemma install_new s c lives kept s3 id toks : represents s c lives ->
  index_ok s3 (<[length (documents_ s) := doc_of id toks]> kept) -> length (documents_ s3) = S (length (documents_ s)) -> ids_ s3 = ids_ s ->
  (forall i ld, kept !! i = Some ld <-> lives !! i = Some ld /\ ld_id ld <> id) ->
  liveRecords_ s3 = Z.of_nat (size (delete id c)) -> totalLength_ s3 = corpus_length (delete id c) ->
  represents (mkLexical (documents_ s3) (terms_ s3) (vocabulary_ s3) (<[id := length (documents_ s)]> (ids_ s3)) (liveRecords_ s3 + 1) (totalLength_ s3 + Z.of_nat (length toks)) (failed_ s3))
    (<[id := toks]> c) (<[length (documents_ s) := doc_of id toks]> kept).
Proof.
  intros R I3 Hlen Hids Hkept Hlive Htot. split; simpl.
  - destruct I3. by split.
  - intros i ld [[<- <-]|[Hne Hi]]%lookup_insert_Some; simpl; [rewrite !lookup_insert_eq; by eauto|]. apply Hkept in Hi as [Hi Hn]. rewrite !lookup_insert_ne by done. rewrite Hids. by apply (rp_ids _ _ _ R).
  - intros id' t [[<- <-]|[Hne Hc]]%lookup_insert_Some; [eexists; by rewrite lookup_insert_eq|]. destruct (rp_corpus _ _ _ R id' t Hc) as [i Hi]. exists i. rewrite lookup_insert_ne; [by apply Hkept|].
    intros <-. rewrite (index_ok_fresh _ _ (rp_index _ _ _ R)) in Hi. done.
  - intros id' i [[<- <-]|[Hne Hi]]%lookup_insert_Some.
    + split; [lia|]. intros ld. rewrite lookup_insert_eq. by intros [= <-].
    + rewrite Hids in Hi. destruct (rp_known _ _ _ R id' i Hi) as [Hlt Hk]. split; [lia|]. intros ld. rewrite lookup_insert_ne by lia. intros [Hl _]%Hkept. by apply Hk.
  - rewrite Hlive, <-insert_delete_eq, map_size_insert_None by apply lookup_delete_eq. lia.
  - rewrite Htot, <-insert_delete_eq, corpus_length_insert by apply lookup_delete_eq. lia.
Qed.

Lemma words_map tokens : list_to_map (term_order (count_tokens tokens ∅)) = count_tokens tokens ∅.
Proof.
  assert (Hd : NoDup (term_order (count_tokens tokens ∅)).*1) by (rewrite term_order_all; apply NoDup_fst_map_to_list).
  rewrite (list_to_map_proper _ (map_to_list (count_tokens tokens ∅))); [apply list_to_map_to_list|done|apply term_order_all].
Qed.

Lemma upsert_refines s sp id text check : refines s sp ->
  (upsert config s id text check).1 = (spec_step (LUpsert id text check) sp).1 /\ refines (upsert config s id text check).2 (spec_step (LUpsert id text check) sp).2.
Proof.
  intros R. unfold upsert, spec_step. destruct (bad_id id); [done|]. destruct (tokenize text _ _) as [toks|e]; [|done]. unfold refines in R. destruct (sp_broken sp) eqn:Eb.
  { rewrite R. simpl. split; [done|]. unfold refines. by rewrite Eb. }
  destruct R as (Hf & Hv & lives & R). rewrite Hf, Hv. destruct (Z.of_nat (length (documents_ s)) =? maxRecords config); [simpl; split; [done|]; unfold refines; rewrite Eb; by eauto|].
  cbn [seq existsb]. destruct (check 0%nat); [done|]. cbn [orb].
  pose proof (push_ok s lives id (Z.of_nat (length toks)) (rp_index _ _ _ R)) as I1. rewrite Hf in I1. set (s1 := mkLexical (documents_ s ++ _) _ _ _ _ _ _) in *.
  pose proof (post_words_ok (term_order (count_tokens toks ∅)) (length (documents_ s)) check 1 s1 _ id (Z.of_nat (length toks)) ∅ I1) as P.
  destruct (post_words _ _ _ _ s1) as [ok s2]. destruct P as (Hok & [Q1 Q2 Q3 Q4 Q5] & I2); [apply lookup_insert_eq|change (NoDup (term_order (count_tokens toks ∅)).*1); rewrite term_order_all; apply NoDup_fst_map_to_list|intros; apply lookup_empty|].
  rewrite words_size in Hok. destruct (existsb check (seq 1 (distinct_words toks))); simpl in Hok; subst ok; [by simpl|]. simpl. split; [done|].
  specialize (I2 eq_refl). rewrite (right_id_L ∅ (∪)), words_map, insert_insert_eq in I2. change (mkLive id _ _) with (doc_of id toks) in I2. simpl in Q1, Q2, Q3, Q4, Q5. rewrite length_app in Q1. simpl in Q1.
  destruct (drop_previous s _ lives s2 id toks R) as (kept & K1 & K2 & K3 & K4 & K5 & K6 & K7); [lia|done..|].
  unfold refines. simpl. split; [congruence|]. split; [rewrite K2; lia|]. eexists. apply (install_new s _ lives kept); done.
Qed.

Lemma erase_refines s sp id : refines s sp -> (erase s id).1 = (spec_step (LErase id) sp).1 /\ refines (erase s id).2 (spec_step (LErase id) sp).2.
Proof.
  intros R. unfold erase, spec_step. destruct (bad_id id); [done|]. unfold refines in R. destruct (sp_broken sp) eqn:Eb.
  { rewrite R. simpl. split; [done|]. unfold refines. by rewrite Eb. }
  destruct R as (Hf & Hv & lives & R). rewrite Hf.
  assert (Hnone : sp_corpus sp !! id = None -> refines s (mkLspec (delete id (sp_corpus sp)) (sp_versions sp) false)).
  { intros E. unfold refines. simpl. rewrite delete_id by done. by eauto. }
  destruct (ids_ s !! id) as [p|] eqn:Ep.
  - destruct (rp_known _ _ _ R id p Ep) as [Hlt _]. destruct (lookup_lt_is_Some_2 (documents_ s) p Hlt) as [d Hd]. rewrite Hd. pose proof (previous_cases _ _ _ _ _ R Ep) as Hc.
    destruct (sp_corpus sp !! id) as [toks|] eqn:Ec.
    + destruct (io_live _ _ (rp_index _ _ _ R) p _ Hc) as (d' & Hd' & Ho). rewrite Hd in Hd'. injection Hd' as <-. rewrite (eo_live _ _ _ Ho). simpl. split; [done|]. 
      destruct (remove_ok p s lives _ (rp_index _ _ _ R) Hc) as (I3 & D1 & D2 & D3 & D4 & D5). unfold refines. simpl. split; [congruence|]. split; [congruence|]. exists (delete p lives). by apply (erase_kept s _ lives _ id toks p).
    + rewrite (io_dead _ _ (rp_index _ _ _ R) p d Hd Hc). simpl. split; [done|]. by apply Hnone.
  - assert (Ec : sp_corpus sp !! id = None). { destruct (sp_corpus sp !! id) as [t|] eqn:E; [|done]. destruct (rp_corpus _ _ _ R id t E) as [i Hi]. destruct (rp_ids _ _ _ R i _ Hi) as [Hi' _]. simpl in Hi'. congruence. }
    rewrite Ec. simpl. split; [done|]. by apply Hnone.
Qed.

Lemma step_refines op s sp : refines s sp -> (index_step op s).1 = (spec_step op sp).1 /\ refines (index_step op s).2 (spec_step op sp).2.
Proof. destruct op; [apply upsert_refines|apply erase_refines]. Qed.

Lemma new_refines s : lexical_new config = Ok s -> refines s (mkLspec ∅ 0 false).
Proof.
  unfold lexical_new. case_match; [done|]. intros [= <-]. split; [done|]. split; [done|]. exists ∅. split; simpl; try done.
Qed.
End Refinement.
