(* ===== verification/LexicalSearch.v ===== *)
(** * What a lexical search returns

    Whatever was written, rewritten and erased before, a search ranks the documents
    that are there now by their BM25 score and returns the best. *)

From stdpp Require Import base list gmap strings sorting.
From Stdlib Require Import ZArith Lia SpecFloat.
From S2P Require Import Prelude Msgpack Float64 Ranked Lexical LexicalInv LexicalOps.

Open Scope Z_scope.

Section Search.
Context `{LexicalLibLaws} (config : LexicalConfig).

(** ** The reference *)

Definition frequency (c : corpus) (w : bytes) : Z := Z.of_nat (length (List.filter (fun p => has w p.2) (map_to_list c))).

Definition average_length (c : corpus) : double := ddiv (double_of_int (corpus_length c)) (double_of_int (Z.of_nat (size c))).

Definition bm25 (c : corpus) (words toks : list bytes) : double :=
  foldl (fun acc w => if has w toks
    then dadd acc (contribution config (idf (Z.of_nat (size c)) (frequency c w)) (occurrences w toks) (Z.of_nat (length toks)) (average_length c)) else acc) dzero words.

Definition matches (words : list bytes) (all : bool) (toks : list bytes) : bool :=
  match words with [] => false | _ => if all then forallb (fun w => has w toks) words else existsb (fun w => has w toks) words end.

Definition scored_corpus (c : corpus) (words : list bytes) (all : bool) (eligible : bytes -> bool) : list (bytes * double) :=
  map (fun p => (p.1, bm25 c words p.2)) (List.filter (fun p => matches words all p.2 && eligible p.1) (map_to_list c)).

Definition ranking (c : corpus) (words : list bytes) (all : bool) (eligible : bytes -> bool) : list (bytes * double) :=
  rank (fun p => p) (scored_corpus c words all eligible).

(** ** Scores of live entries *)

Context (lives : gmap nat live_doc) (live : Z) (average : double).

Definition live_score (words : list bytes) (ld : live_doc) : double :=
  foldl (fun acc w => match ld_words ld !! w with
    | Some f => dadd acc (contribution config (idf live (live_count w lives)) f (ld_length ld) average)
    | None => acc end) dzero words.

Definition live_hits (words : list bytes) (ld : live_doc) : nat := length (List.filter (fun w => bool_decide (is_Some (ld_words ld !! w))) words).

Definition expected (words : list bytes) (i : nat) : option (double * nat) :=
  ld ← lives !! i; if (live_hits words ld =? 0)%nat then None else Some (live_score words ld, live_hits words ld).

Definition old_score (o : option (double * nat)) : double := match o with Some (sc, _) => sc | None => dzero end.
Definition old_hits (o : option (double * nat)) : nat := match o with Some (_, k) => k | None => 0%nat end.

Definition never (n : nat) : bool := false.

Lemma room (scores : gmap nat (double * nat)) i : dom scores ⊆ dom lives -> scores !! i = None -> is_Some (lives !! i) -> (size scores < size lives)%nat.
Proof.
  intros Hd Hs Hl. rewrite <-!size_dom. apply subset_size. split; [done|]. intros Hx. apply elem_of_dom in Hl. apply Hx in Hl. apply elem_of_dom in Hl. rewrite Hs in Hl. by destruct Hl.
Qed.

(** What one word's postings do to the score table. *)
Lemma score_postings_spec docs ps idf_ n scores :
  (forall i d, docs !! i = Some d -> d_live d = true -> exists ld, lives !! i = Some ld /\ d_length d = ld_length ld) ->
  (forall i ld, lives !! i = Some ld -> exists d, docs !! i = Some d /\ d_live d = true) ->
  NoDup (map fst ps) -> (forall i f, (i, f) ∈ ps -> (i < length docs)%nat) ->
  dom scores ⊆ dom lives -> Z.of_nat (size lives) <= maxCandidates config ->
  exists n' scores', score_postings config docs ps idf_ average never n scores = Ok (n', scores') /\ dom scores' ⊆ dom lives /\
    forall i, scores' !! i = match lives !! i, (list_to_map ps : gmap nat Z) !! i with
      | Some ld, Some f => Some (dadd (old_score (scores !! i)) (contribution config idf_ f (ld_length ld) average), S (old_hits (scores !! i)))
      | _, _ => scores !! i end.
Proof.
  intros Hdocs Hlive. revert n scores. induction ps as [|[i f] ps IH]; intros n scores Hd Hr Hsub Hmax; simpl.
  - exists n, scores. split; [done|]. split; [done|]. intros i. rewrite lookup_empty. by destruct (lives !! i).
  - apply NoDup_cons in Hd as [Hi Hd]. destruct (lookup_lt_is_Some_2 docs i) as [d Hdi]; [apply (Hr i f); left|]. rewrite Hdi.
    assert (Hr' : forall j g, (j, g) ∈ ps -> (j < length docs)%nat) by (intros j g Hj; apply (Hr j g); by right).
    assert (Hnot : (list_to_map ps : gmap nat Z) !! i = None) by by apply not_elem_of_list_to_map_1.
    destruct (d_live d) eqn:El.
    + destruct (Hdocs i d Hdi El) as (ld & Hl & Hlen). rewrite Hlen.
      assert (Hstep : exists n' scores', score_postings config docs ps idf_ average never (S n) (<[i := (dadd (old_score (scores !! i)) (contribution config idf_ f (ld_length ld) average), S (old_hits (scores !! i)))]> scores) = Ok (n', scores') /\ dom scores' ⊆ dom lives /\
        forall j, scores' !! j = match lives !! j, (<[i := f]> (list_to_map ps) : gmap nat Z) !! j with
          | Some ld, Some f => Some (dadd (old_score (scores !! j)) (contribution config idf_ f (ld_length ld) average), S (old_hits (scores !! j)))
          | _, _ => scores !! j end).
      { edestruct (IH (S n)) as (n' & scores' & E & Hs' & Hj); [done|done| |done|].
        { rewrite dom_insert_L. apply union_subseteq. split; [|exact Hsub]. apply singleton_subseteq_l, elem_of_dom. by exists ld. }
        exists n', scores'. split; [exact E|]. split; [done|]. intros j. rewrite Hj. destruct (decide (i = j)) as [<-|Hne].
        - by rewrite Hnot, !lookup_insert_eq, Hl.
        - by rewrite !lookup_insert_ne by done. }
      destruct (scores !! i) as [[sc k]|] eqn:Esc; simpl in Hstep; [exact Hstep|].
      pose proof (room scores i Hsub Esc) as Hroom. rewrite (proj2 (Z.eqb_neq _ _)); [exact Hstep|]. rewrite Hl in Hroom. specialize (Hroom (mk_is_Some _ _ eq_refl)). lia.
    + destruct (IH (S n) scores Hd Hr' Hsub Hmax) as (n' & scores' & E & Hs' & Hj). exists n', scores'. split; [exact E|]. split; [done|]. intros j. rewrite Hj.
      destruct (decide (i = j)) as [<-|Hne]; [|by rewrite lookup_insert_ne]. destruct (lives !! i) as [ld|] eqn:Hl; [|done]. destruct (Hlive i ld Hl) as (d' & Hd' & Hl'). congruence.
Qed.

Lemma live_score_snoc words w ld : live_score (words ++ [w]) ld =
  match ld_words ld !! w with Some f => dadd (live_score words ld) (contribution config (idf live (live_count w lives)) f (ld_length ld) average) | None => live_score words ld end.
Proof. unfold live_score. by rewrite foldl_snoc. Qed.

Lemma live_hits_snoc words w ld : live_hits (words ++ [w]) ld = (live_hits words ld + if decide (is_Some (ld_words ld !! w)) then 1 else 0)%nat.
Proof.
  unfold live_hits. rewrite List.filter_app, length_app. simpl. destruct (decide (is_Some (ld_words ld !! w))) as [Hs|Hs]; [rewrite bool_decide_true by done|rewrite bool_decide_false by done]; done.
Qed.

Lemma live_score_none words ld : live_hits words ld = 0%nat -> live_score words ld = dzero.
Proof.
  induction words as [|w words IH] using rev_ind; [done|]. rewrite live_hits_snoc, live_score_snoc. intros E. destruct (ld_words ld !! w) as [f|]; [|apply IH; lia].
  rewrite decide_True in E by done. lia.
Qed.

(** The table after one more word. *)
Lemma expected_snoc words w i (o : option Z) : (forall ld, lives !! i = Some ld -> o = ld_words ld !! w) ->
  match lives !! i, o with
  | Some ld, Some f => Some (dadd (old_score (expected words i)) (contribution config (idf live (live_count w lives)) f (ld_length ld) average), S (old_hits (expected words i)))
  | _, _ => expected words i end = expected (words ++ [w]) i.
Proof.
  intros Ho. unfold expected. destruct (lives !! i) as [ld|] eqn:Hl; simpl; [|done]. rewrite (Ho ld eq_refl), live_score_snoc, live_hits_snoc. destruct (ld_words ld !! w) as [f|].
  - rewrite decide_True by done. rewrite (proj2 (Nat.eqb_neq (_ + 1) 0)) by lia. destruct (live_hits words ld =? 0)%nat eqn:E; simpl; [|do 2 f_equal; lia].
    apply Nat.eqb_eq in E. by rewrite live_score_none, E.
  - rewrite decide_False by (intros [? ?]; done). by rewrite Nat.add_0_r.
Qed.

(** All words in turn; or a word that no live entry has, where all are required. *)
Lemma score_terms_spec s todo : index_ok s lives -> liveRecords_ s = live -> Z.of_nat (size lives) <= maxCandidates config ->
  forall all n done scores, (forall i, scores !! i = expected done i) ->
  exists r, score_terms config s todo all average never n scores = Ok r /\
    match r with
    | Some (_, scores') => forall i, scores' !! i = expected (done ++ todo) i
    | None => all = true /\ exists w, w ∈ todo /\ forall i ld, lives !! i = Some ld -> ld_words ld !! w = None
    end.
Proof.
  intros I Hlive Hmax all. induction todo as [|w todo IH]; intros n done scores Hs; simpl.
  { exists (Some (n, scores)). split; [done|]. by rewrite app_nil_r. }
  destruct (vocabulary_ s !! w) as [t|] eqn:Ew; simpl.
  - destruct (io_terms _ _ I w t Ew) as (e & He & [O1 O2 O3 O4]). rewrite He.
    destruct (score_postings_spec (documents_ s) (postings e) (idf (liveRecords_ s) (liveFrequency e)) (S n) scores) as (n' & scores' & E & Hsub & Hj); try done.
    { intros i d Hd Hl. destruct (lives !! i) as [ld|] eqn:E; [|by rewrite (io_dead _ _ I i d Hd E) in Hl]. destruct (io_live _ _ I i ld E) as (d' & Hd' & Ho). exists ld. split; [done|]. rewrite Hd in Hd'. injection Hd' as <-. apply Ho. }
    { intros i ld Hi. destruct (io_live _ _ I i ld Hi) as (d & Hd & Ho). exists d. split; [done|]. apply Ho. }
    { intros i Hi. apply elem_of_dom in Hi as [x Hx]. rewrite Hs in Hx. unfold expected in Hx. apply elem_of_dom. destruct (lives !! i); [done|]. by simpl in Hx. }
    rewrite E. simpl. destruct (IH n' (done ++ [w]) scores') as (r & Er & Hr).
    { intros i. rewrite Hj, !Hs, Hlive, O4. apply (expected_snoc done w i). intros ld Hld. destruct (ld_words ld !! w) as [f|] eqn:Ef.
      - apply elem_of_list_to_map_1; [done|]. by apply (O3 i ld f Hld).
      - apply not_elem_of_list_to_map_1. intros Hin. apply list_elem_of_fmap in Hin as ([j g] & -> & Hin). apply (O3 _ ld g Hld) in Hin. simpl in *. congruence. }
    exists r. split; [exact Er|]. rewrite <-app_assoc in Hr. destruct r as [[? ?]|]; [exact Hr|]. destruct Hr as (Ha & w' & Hw' & Hn). split; [done|]. exists w'. split; [by right|done].
  - assert (Hnone : forall i ld, lives !! i = Some ld -> ld_words ld !! w = None).
    { intros i ld Hi. destruct (ld_words ld !! w) as [f|] eqn:Ef; [|done]. destruct (io_words _ _ I i ld w Hi) as [t Ht]; [by rewrite Ef|]. congruence. }
    destruct all.
    + exists None. split; [done|]. split; [done|]. exists w. split; [left|done].
    + destruct (IH (S n) (done ++ [w]) scores) as (r & Er & Hr).
      { intros i. rewrite Hs, <-(expected_snoc done w i None); [by destruct (lives !! i)|]. intros ld Hld. by rewrite (Hnone i ld Hld). }
      exists r. split; [exact Er|]. rewrite <-app_assoc in Hr. destruct r as [[? ?]|]; [exact Hr|]. by destruct Hr.
Qed.

(** ** The candidates *)

Definition candidate_ok (docs : list Document) (all : bool) (wanted : nat) (eligible : bytes -> bool) (p : nat * (double * nat)) : bool :=
  negb ((all && negb (p.2.2 =? wanted)%nat) || negb (eligible (id_of docs p.1))).

Definition candidates (docs : list Document) (all : bool) (wanted : nat) (eligible : bytes -> bool) (l : list (nat * (double * nat))) : list (nat * double) :=
  map (fun p => (p.1, p.2.1)) (List.filter (candidate_ok docs all wanted eligible) l).

Lemma pick_spec docs l k all wanted eligible n heap :
  pick docs l k all wanted eligible never n heap = Ok (foldl (heap_keep (fun c => (id_of docs c.1, c.2)) k) heap (candidates docs all wanted eligible l)).
Proof.
  revert n heap. induction l as [|[i [sc h]] l IH]; intros n heap; simpl; [done|]. unfold candidates. simpl. unfold candidate_ok at 1. simpl.
  destruct ((all && negb (h =? wanted)%nat) || negb (eligible (id_of docs i))) eqn:E; simpl; apply IH.
Qed.
End Search.

Lemma rank_map {A} (kv : A -> bytes * double) l : map kv (rank kv l) = rank (fun p => p) (map kv l).
Proof.
  induction l as [|x l IH]; simpl; [done|]. unfold rank in *. rewrite <-IH. generalize (foldr (rank_insert kv) [] l) as m. intros m.
  induction m as [|y m IHm]; simpl; [done|]. unfold beats. destruct (better (kv x) (kv y)); simpl; [done|]. by rewrite IHm.
Qed.

Lemma NoDup_map_filter {A B} (f : A -> B) (g : A -> bool) l : List.NoDup (map f l) -> List.NoDup (map f (List.filter g l)).
Proof.
  induction l as [|x l IH]; simpl; [done|]. intros Hd. apply List.NoDup_cons_iff in Hd as [Hx Hd]. destruct (g x); [|by apply IH]. simpl. apply List.NoDup_cons_iff. split; [|by apply IH].
  intros Hin. apply in_map_iff in Hin as (y & E & Hy). apply filter_In in Hy as [Hy _]. destruct Hx. rewrite <-E. by apply in_map.
Qed.

Section Final.
Context `{LexicalLibLaws} (config : LexicalConfig).

(** ** Live entries and the corpus *)

Lemma filter_perm_length {A} (f : A -> bool) l l' : l ≡ₚ l' -> length (List.filter f l) = length (List.filter f l').
Proof. induction 1; simpl; repeat case_match; simpl; congruence. Qed.

Lemma live_count_list w (lives : gmap nat live_doc) : live_count w lives = Z.of_nat (length (List.filter (fun ld => bool_decide (is_Some (ld_words ld !! w))) (map_to_list lives).*2)).
Proof.
  induction lives as [|i ld lives Hi IH] using map_ind; [done|]. rewrite live_count_fresh, IH by done. rewrite (filter_perm_length _ (map_to_list (<[i:=ld]> lives)).*2 (ld :: (map_to_list lives).*2)).
  - simpl. unfold one_if. destruct (decide (is_Some (ld_words ld !! w))); [rewrite bool_decide_true by done|rewrite bool_decide_false by done]; simpl; lia.
  - by rewrite map_to_list_insert.
Qed.

Lemma lives_corpus s c lives : represents s c lives -> (map_to_list lives).*2 ≡ₚ map (fun p => doc_of p.1 p.2) (map_to_list c).
Proof.
  intros R. apply NoDup_Permutation.
  - apply NoDup_fmap_2_strong; [|apply NoDup_map_to_list]. intros [i ld] [j ld'] Hi Hj E. simpl in E. subst ld'. apply elem_of_map_to_list in Hi, Hj.
    destruct (rp_ids _ _ _ R i ld Hi) as [E1 _], (rp_ids _ _ _ R j ld Hj) as [E2 _]. congruence.
  - change (NoDup ((fun p => doc_of p.1 p.2) <$> map_to_list c)). apply NoDup_fmap_2_strong; [|apply NoDup_map_to_list]. intros [a ta] [b tb] Ha Hb E. apply elem_of_map_to_list in Ha, Hb. simpl in E. injection E as -> _ _. by rewrite Ha in Hb; injection Hb as ->.
  - intros ld. change (ld ∈ (map_to_list lives).*2 <-> ld ∈ (fun p => doc_of p.1 p.2) <$> map_to_list c). rewrite !list_elem_of_fmap. split.
    + intros ([i ld'] & -> & Hi). apply elem_of_map_to_list in Hi. destruct (rp_ids _ _ _ R i ld' Hi) as [_ (toks & Ht & E)]. exists (ld_id ld', toks). split; [done|]. by apply elem_of_map_to_list.
    + intros ([id toks] & -> & Hi). apply elem_of_map_to_list in Hi. destruct (rp_corpus _ _ _ R id toks Hi) as [i Hl]. exists (i, doc_of id toks). split; [done|]. by apply elem_of_map_to_list.
Qed.

Lemma frequency_live s c lives w : represents s c lives -> live_count w lives = frequency c w.
Proof.
  intros R. rewrite live_count_list, (filter_perm_length _ _ _ (lives_corpus _ _ _ R)). unfold frequency. f_equal. induction (map_to_list c) as [|[id toks] l IH]; simpl; [done|].
  rewrite words_lookup. destruct (has w toks); [rewrite bool_decide_true by done|rewrite bool_decide_false by (intros [? ?]; done)]; simpl; by rewrite IH.
Qed.

Lemma size_lives s c lives : represents s c lives -> size lives = size c.
Proof. intros R. rewrite <-!length_map_to_list, <-(length_map (fun p => doc_of p.1 p.2)), <-(lives_corpus _ _ _ R). by rewrite length_fmap. Qed.

Lemma score_live s c lives words id toks : represents s c lives ->
  live_score config lives (liveRecords_ s) (average_length c) words (doc_of id toks) = bm25 config c words toks.
Proof.
  intros R. unfold live_score, bm25. generalize dzero as acc. induction words as [|w words IH]; intros acc; simpl; [done|].
  rewrite IH, words_lookup, (frequency_live _ _ _ _ R), (rp_live _ _ _ R). by destruct (has w toks).
Qed.

Lemma hits_live words id toks : live_hits words (doc_of id toks) = length (List.filter (fun w => has w toks) words).
Proof.
  unfold live_hits, doc_of. cbn [ld_words]. induction words as [|w words IH]; simpl; [done|]. rewrite words_lookup. destruct (has w toks); [rewrite bool_decide_true by done|rewrite bool_decide_false by (intros [? ?]; done)]; simpl; by rewrite IH.
Qed.

Lemma matches_hits words (all : bool) toks : words <> [] ->
  matches words all toks = negb (length (List.filter (fun w => has w toks) words) =? 0)%nat && negb (all && negb (length (List.filter (fun w => has w toks) words) =? length words)%nat).
Proof.
  intros Hne. unfold matches. destruct words as [|w0 ws] eqn:E; [done|]. rewrite <-E. clear Hne.
  assert (Hex : forall l, existsb (fun w => has w toks) l = negb (length (List.filter (fun w => has w toks) l) =? 0)%nat) by (induction l as [|x l IH]; simpl; [done|]; destruct (has x toks); done).
  assert (Hle : forall l, (length (List.filter (fun w => has w toks) l) <= length l)%nat) by (induction l as [|x l IH]; simpl; [lia|]; destruct (has x toks); simpl; lia).
  assert (Hall : forall l, forallb (fun w => has w toks) l = (length (List.filter (fun w => has w toks) l) =? length l)%nat).
  { induction l as [|x l IH]; simpl; [done|]. destruct (has x toks); simpl; [done|]. symmetry. apply Nat.eqb_neq. pose proof (Hle l). lia. }
  rewrite Hex, Hall. destruct all; simpl; [|by rewrite andb_true_r]. rewrite negb_involutive. destruct (_ =? length words)%nat eqn:El; [|by rewrite andb_false_r].
  apply Nat.eqb_eq in El. rewrite El, E. done.
Qed.

(** ** The answer *)

Definition kv (s : lexical) (p : nat * double) : bytes * double := (id_of (documents_ s) p.1, p.2).

Lemma live_id s c lives i ld : represents s c lives -> lives !! i = Some ld -> id_of (documents_ s) i = ld_id ld.
Proof. intros R Hi. destruct (io_live _ _ (rp_index _ _ _ R) i ld Hi) as (d & Hd & Ho). unfold id_of. rewrite Hd. apply Ho. Qed.

Lemma candidate_elem s c lives words all eligible scores x : represents s c lives -> words <> [] ->
  (forall i, scores !! i = expected config lives (liveRecords_ s) (average_length c) words i) ->
  x ∈ candidates (documents_ s) all (length words) eligible (score_order scores) <->
  exists id toks, lives !! x.1 = Some (doc_of id toks) /\ c !! id = Some toks /\ x.2 = bm25 config c words toks /\ matches words all toks && eligible id = true.
Proof.
  intros R Hne Hs. unfold candidates. rewrite list_elem_of_fmap. split.
  - intros ([i [sc h]] & -> & Hin). apply list_elem_of_In, filter_In in Hin as [Hin Hok]. apply list_elem_of_In in Hin. rewrite score_order_all in Hin. apply elem_of_map_to_list in Hin.
    rewrite Hs in Hin. unfold expected in Hin. destruct (lives !! i) as [ld|] eqn:Hi; [|done]. simpl in Hin. destruct (live_hits words ld =? 0)%nat eqn:Eh; [done|]. injection Hin as <- <-.
    destruct (rp_ids _ _ _ R i ld Hi) as [_ (toks & Ht & E)]. exists (ld_id ld), toks. simpl. rewrite <-E. split; [done|]. split; [done|].
    unfold candidate_ok in Hok. simpl in Hok. rewrite (live_id _ _ _ _ _ R Hi) in Hok. rewrite E in Hok, Eh |- *. simpl. rewrite hits_live in Hok, Eh. rewrite (score_live s) by done. split; [done|].
    rewrite matches_hits, Eh by done. simpl. simpl in Hok. rewrite negb_orb, negb_involutive in Hok. done.
  - destruct x as [i sc]. simpl. intros (id & toks & Hi & Hc & -> & Hm). apply andb_true_iff in Hm as [Hm He]. rewrite matches_hits in Hm by done. apply andb_true_iff in Hm as [Hm1 Hm2]. apply negb_true_iff in Hm1.
    exists (i, (bm25 config c words toks, live_hits words (doc_of id toks))). split; [done|]. apply list_elem_of_In, filter_In. split.
    + apply list_elem_of_In. rewrite score_order_all. apply elem_of_map_to_list. rewrite Hs. unfold expected. rewrite Hi. simpl. rewrite hits_live, Hm1. by rewrite (score_live s).
    + unfold candidate_ok. simpl. rewrite (live_id _ _ _ _ _ R Hi). simpl. rewrite hits_live, negb_orb, negb_involutive, He. by rewrite andb_true_r.
Qed.

Lemma candidates_corpus s c lives words all eligible scores : represents s c lives -> words <> [] ->
  (forall i, scores !! i = expected config lives (liveRecords_ s) (average_length c) words i) ->
  map (kv s) (candidates (documents_ s) all (length words) eligible (score_order scores)) ≡ₚ scored_corpus config c words all eligible /\
  NoDup (map fst (scored_corpus config c words all eligible)).
Proof.
  intros R Hne Hs. assert (Hmem : forall x, _) by exact (fun x => candidate_elem s c lives words all eligible scores x R Hne Hs).
  assert (Hc : NoDup (map fst (scored_corpus config c words all eligible))).
  { unfold scored_corpus. rewrite map_map. simpl. apply NoDup_ListNoDup. apply NoDup_map_filter. apply NoDup_ListNoDup. apply NoDup_fst_map_to_list. }
  split; [|exact Hc]. apply NoDup_Permutation.
  - change (NoDup (kv s <$> candidates (documents_ s) all (length words) eligible (score_order scores))). apply NoDup_fmap_2_strong.
    + intros [i x] [j y] Hi Hj E. apply Hmem in Hi as (id & toks & Hi & _), Hj as (id' & toks' & Hj & _). unfold kv in E. simpl in *. injection E as E ->. f_equal.
      rewrite (live_id _ _ _ _ _ R Hi), (live_id _ _ _ _ _ R Hj) in E. simpl in E. subst id'. destruct (rp_ids _ _ _ R _ _ Hi) as [E1 _], (rp_ids _ _ _ R _ _ Hj) as [E2 _]. simpl in *. congruence.
    + unfold candidates. apply (NoDup_fmap_1 fst). change (NoDup (map fst (map (fun p : nat * (double * nat) => (p.1, p.2.1)) (List.filter (candidate_ok (documents_ s) all (length words) eligible) (score_order scores))))).
      rewrite map_map. simpl. apply NoDup_ListNoDup, NoDup_map_filter, NoDup_ListNoDup. change (NoDup (score_order scores).*1). rewrite score_order_all. apply NoDup_fst_map_to_list.
  - apply (NoDup_fmap_1 fst). exact Hc.
  - intros [id sc]. change ((id, sc) ∈ kv s <$> candidates (documents_ s) all (length words) eligible (score_order scores) <-> (id, sc) ∈ scored_corpus config c words all eligible).
    unfold scored_corpus. rewrite !list_elem_of_fmap. split.
    + intros ([i x] & E & Hi). apply Hmem in Hi. simpl in Hi. destruct Hi as (id' & toks & Hi & Hc' & -> & Hm). unfold kv in E. simpl in E. rewrite (live_id _ _ _ _ _ R Hi) in E. injection E as -> ->. exists (id', toks). split; [done|].
      apply list_elem_of_In, filter_In. split; [by apply list_elem_of_In, elem_of_map_to_list|done].
    + intros ([id' toks] & [= -> ->] & Hin). apply list_elem_of_In, filter_In in Hin as [Hin Hm]. apply list_elem_of_In, elem_of_map_to_list in Hin. destruct (rp_corpus _ _ _ R id' toks Hin) as [i Hi].
      exists (i, bm25 config c words toks). unfold kv. simpl. rewrite (live_id _ _ _ _ _ R Hi). split; [done|]. apply Hmem. exists id', toks. done.
Qed.

Lemma corpus_length_ge c id toks : c !! id = Some toks -> Z.of_nat (length toks) <= corpus_length c.
Proof.
  intros Hc. assert (Hnn : forall c : corpus, 0 <= corpus_length c). { clear. intros c. induction c as [|i x c Hi IH] using map_ind; [done|]. rewrite corpus_length_insert by done. lia. }
  pose proof (Hnn (delete id c)) as Hd. rewrite (corpus_length_delete c id toks Hc) in Hd. lia.
Qed.

Lemma nothing_matches c words all eligible : (forall id toks, c !! id = Some toks -> matches words all toks = false) -> ranking config c words all eligible = [].
Proof.
  intros Hn. unfold ranking, scored_corpus. assert (E : List.filter (fun p : bytes * list bytes => matches words all p.2 && eligible p.1) (map_to_list c) = []); [|by rewrite E].
  destruct (List.filter _ _) as [|[id toks] l] eqn:E; [done|]. exfalso. assert (Hin : In (id, toks) ((id, toks) :: l)) by by left. rewrite <-E in Hin. apply filter_In in Hin as [Hin Hm].
  apply list_elem_of_In, elem_of_map_to_list in Hin. simpl in Hm. by rewrite (Hn id toks Hin) in Hm.
Qed.

Lemma matches_unknown w words toks : w ∈ words -> has w toks = false -> matches words true toks = false.
Proof.
  intros Hw Hf. unfold matches. destruct words; [done|]. apply not_true_iff_false. intros Ha. rewrite forallb_forall in Ha. rewrite Ha in Hf; [done|]. by apply list_elem_of_In.
Qed.

Definition scores_ok (c : corpus) (words : list bytes) : Prop := forall id toks, c !! id = Some toks -> is_nan (bm25 config c words toks) = false.

Lemma search_exact s c lives query k all eligible tokens : represents s c lives -> failed_ s = false -> Z.of_nat (size c) <= maxCandidates config ->
  1 <= k <= 10000 -> tokenize query 4096 64 = Ok tokens -> scores_ok c (word_set tokens) ->
  search config s query k all never eligible = Ok (take (Z.to_nat k) (ranking config c (word_set tokens) all eligible)).
Proof.
  intros R Hf Hmax Hk Ht Hok. unfold search. rewrite (proj2 (Z.eqb_neq k 0)), (proj2 (Z.ltb_ge 10000 k)) by lia. simpl. rewrite Ht. simpl. rewrite Hf.
  set (words := word_set tokens) in *. destruct words as [|w0 ws] eqn:Ew; [by rewrite nothing_matches, take_nil|]. assert (Hne : words <> []) by by rewrite Ew. rewrite <-Ew in *. clearbody words. clear Ew.
  destruct ((liveRecords_ s =? 0) || (totalLength_ s =? 0)) eqn:Ez.
  { rewrite nothing_matches, take_nil; [done|]. intros id toks Hc. rewrite (rp_live _ _ _ R), (rp_total _ _ _ R) in Ez. pose proof (corpus_length_ge c id toks Hc) as Hg.
    assert (Hs : size c <> 0%nat) by (apply map_size_non_empty_iff; intros ->; done). assert (toks = []) as ->. { apply orb_true_iff in Ez as [Ez|Ez]; apply Z.eqb_eq in Ez; [lia|]. apply length_zero_iff_nil. lia. }
    unfold matches. destruct words as [|w l]; [done|]. destruct all; [done|]. apply not_true_iff_false. by intros (x & _ & Hx)%existsb_exists. }
  replace (ddiv (double_of_int (totalLength_ s)) (double_of_int (liveRecords_ s))) with (average_length c) by (unfold average_length; by rewrite (rp_live _ _ _ R), (rp_total _ _ _ R)).
  destruct (score_terms_spec config lives (liveRecords_ s) (average_length c) s words (rp_index _ _ _ R) eq_refl) with (all := all) (n := 1%nat) (done := @nil bytes) (scores := ∅ : gmap nat (double * nat)) as (r & Er & Hr).
  { by rewrite (size_lives _ _ _ R). }
  { intros i. rewrite lookup_empty. unfold expected. by destruct (lives !! i). }
  rewrite Er. simpl. destruct r as [[n scores]|].
  - simpl in Hr. rewrite pick_spec. simpl. destruct (candidates_corpus s c lives words all eligible scores R Hne Hr) as [Hp Hd].
    assert (Rc : ranked (fun p => p) (scored_corpus config c words all eligible)).
    { split; [|exact Hd]. apply Forall_forall. intros [id sc] Hin. unfold scored_corpus in Hin. apply list_elem_of_In, in_map_iff in Hin as ([id' toks] & [= <- <-] & Hin). apply filter_In in Hin as [Hin _].
      apply list_elem_of_In, elem_of_map_to_list in Hin. by apply (Hok id'). }
    assert (Rs : ranked (kv s) (candidates (documents_ s) all (length words) eligible (score_order scores))).
    { apply (ranked_perm (fun p => p) _ (map (kv s) (candidates (documents_ s) all (length words) eligible (score_order scores)))) in Rc; [|by symmetry]. destruct Rc as [R1 R2]. split.
      - apply Forall_forall. intros x Hx. rewrite Forall_forall in R1. apply (R1 (kv s x)). apply list_elem_of_fmap. by exists x.
      - by rewrite map_map in R2. }
    change (fun c0 : nat * double => (id_of (documents_ s) c0.1, c0.2)) with (kv s). rewrite heap_keeps_best by (done || lia). rewrite <-firstn_map, rank_map. unfold ranking. by rewrite (rank_of_perm _ _ _ Rc (Permutation_sym Hp)).
  - destruct Hr as (-> & w & Hw & Hn). rewrite nothing_matches, take_nil; [done|]. intros id toks Hc. destruct (rp_corpus _ _ _ R id toks Hc) as [i Hi]. apply (matches_unknown w); [done|].
    specialize (Hn i _ Hi). simpl in Hn. rewrite words_lookup in Hn. by destruct (has w toks).
Qed.
End Final.

(** ** Whole histories *)

Section Histories.
Context `{LexicalLibLaws} (config : LexicalConfig).

Fixpoint index_run (ops : list lop) (s : lexical) : list (result bool) * lexical :=
  match ops with
  | [] => ([], s)
  | op :: rest => let '(r, s) := index_step config op s in let '(rs, s) := index_run rest s in (r :: rs, s)
  end.

Fixpoint spec_run (ops : list lop) (sp : lspec) : list (result bool) * lspec :=
  match ops with
  | [] => ([], sp)
  | op :: rest => let '(r, sp) := spec_step config op sp in let '(rs, sp) := spec_run rest sp in (r :: rs, sp)
  end.

Lemma run_refines ops s sp : refines s sp -> (index_run ops s).1 = (spec_run ops sp).1 /\ refines (index_run ops s).2 (spec_run ops sp).2.
Proof.
  revert s sp. induction ops as [|op ops IH]; intros s sp R; simpl; [done|]. destruct (step_refines config op s sp R) as [E R'].
  destruct (index_step config op s) as [r s'], (spec_step config op sp) as [r' sp']. simpl in E, R'. subst r'. destruct (IH s' sp' R') as [E2 R2].
  destruct (index_run ops s') as [rs s''], (spec_run ops sp') as [rs' sp'']. simpl in *. by subst.
Qed.

(** C29: the lexical index is a ranking of what is there.  Any sequence of writes,
    rewrites and erasures, with bad ids, texts that are too long, a full index and
    writes cut short by a deadline among them, answers each call as the same calls on
    a map from ids to words would; and a search then returns, best first, the [k]
    eligible documents of that map that match, each with its BM25 score over that
    map: the versions that were overwritten or erased leave no trace in document
    frequencies, average length or scores, and the hash tables' order none in the
    answer.  After a write that was cut short every search is refused.  The search is
    one that is not cancelled, with [k] from 1 to 10000 and a query of at most 4096
    bytes and 64 words, on an index that holds at most [maxCandidates] documents (with
    more, it may fail with [lexical_candidate_limit_exceeded]), and no document's score
    is a NaN. *)
Theorem lexical_search_ranks s0 ops query k all eligible tokens :
  lexical_new config = Ok s0 -> 1 <= k <= 10000 -> tokenize query 4096 64 = Ok tokens ->
  let '(answers, s) := index_run ops s0 in
  let '(expected_answers, sp) := spec_run ops (mkLspec ∅ 0 false) in
  Z.of_nat (size (sp_corpus sp)) <= maxCandidates config -> scores_ok config (sp_corpus sp) (word_set tokens) ->
  answers = expected_answers /\
  search config s query k all never eligible =
    if sp_broken sp then Err "lexical_index_unhealthy"
    else Ok (take (Z.to_nat k) (ranking config (sp_corpus sp) (word_set tokens) all eligible)).
Proof.
  intros Hnew Hk Ht. pose proof (run_refines ops s0 _ (new_refines config s0 Hnew)) as [E R].
  destruct (index_run ops s0) as [answers s], (spec_run ops _) as [answers' sp]. simpl in *. intros Hmax Hok. split; [done|]. unfold refines in R. destruct (sp_broken sp).
  - unfold search. rewrite (proj2 (Z.eqb_neq k 0)), (proj2 (Z.ltb_ge 10000 k)) by lia. simpl. rewrite Ht. simpl. by rewrite R.
  - destruct R as (Hf & Hv & lives & R). apply (search_exact config s _ lives); done.
Qed.
End Histories.

(** A hash table that is iterated by key and a logarithm that is the identity. *)
#[export] Instance sample_lexical_lib : LexicalLib := {| term_order := map_to_list; score_order := map_to_list; log1p := fun x => x |}.
#[export] Instance sample_lexical_laws : LexicalLibLaws.
Proof. split; intros; reflexivity. Defined.

Definition sample_lexical_config : LexicalConfig :=
  mkLexicalConfig 65536 100 100 (double_of_bits 0x3FF3333333333333) (double_of_bits 0x3FE8000000000000).

Definition sample_lexical_ops : list lop :=
  [LUpsert (str "a") (str "Red fox") never; LUpsert (str "b") (str "red, RED dog!") never; LUpsert (str "c") (str "the red cat sleeps") never;
   LUpsert (str "a") (str "blue fox") never; LErase (str "d"); LErase (str "c")].

(** The rewritten and the erased document are gone, whatever they said. *)
Lemma lexical_search_ranks_witness :
  let '(answers, s) := index_run sample_lexical_config sample_lexical_ops (mkLexical [] [] ∅ ∅ 0 0 false) in
  answers = [Ok true; Ok true; Ok true; Ok true; Ok false; Ok true] /\
  map fst (match search sample_lexical_config s (str "red fox red") 5 false never (fun _ => true) with Ok l => l | Err _ => [] end) = [str "b"; str "a"].
Proof.
  pose proof (lexical_search_ranks sample_lexical_config (mkLexical [] [] ∅ ∅ 0 0 false) sample_lexical_ops (str "red fox red") 5 false (fun _ => true) [str "red"; str "fox"; str "red"]) as H.
  specialize (H eq_refl ltac:(lia) ltac:(vm_compute; reflexivity)).
  assert (Es : (spec_run sample_lexical_config sample_lexical_ops (mkLspec ∅ 0 false)).1 = [Ok true; Ok true; Ok true; Ok true; Ok false; Ok true] /\
    (spec_run sample_lexical_config sample_lexical_ops (mkLspec ∅ 0 false)).2 = mkLspec (<[str "a" := [str "blue"; str "fox"]]> {[str "b" := [str "red"; str "red"; str "dog"]]}) 4 false)
    by (split; vm_compute; reflexivity).
  destruct (index_run _ _ _) as [answers s]. destruct (spec_run _ _ _) as [answers' sp]. simpl in Es. destruct Es as [-> ->]. destruct H as [-> Hs].
  - vm_compute. discriminate.
  - intros id toks Hc. simpl in Hc. apply lookup_insert_Some in Hc as [[<- <-]|[_ Hc]]; [vm_compute; reflexivity|]. apply lookup_singleton_Some in Hc as [<- <-]. vm_compute. reflexivity.
  - split; [reflexivity|]. rewrite Hs. vm_compute. reflexivity.
Defined.
