(* ===== verification/VectorTopK.v ===== *)
(** * The best documents of a vector search (vector_top_k.hpp, vector_memory_budget.hpp, reciprocalRankFusion)

    A bounded collector of documents with a limit on their size, the byte budget that
    indexes share, and the fusion of two rankings. *)

From stdpp Require Import base list gmap strings sorting.
From Stdlib Require Import ZArith Lia SpecFloat.
From S2P Require Import Prelude Json Msgpack JsonValue Float64 Query UpdateOps Ranked Lexical.

Open Scope Z_scope.

(** ** The collector *)

(** [te_score] is the score's bit pattern. *)
Record TEntry := mkTEntry { te_score : Z; te_id : bytes; te_doc : json; te_bytes : Z }.
Record topk := mkTopK { tk_k : nat; tk_maxBytes : Z; tk_bytes : Z; tk_heap : list TEntry }.

Definition te_kv (e : TEntry) : bytes * double := (te_id e, double_of_bits (te_score e)).

Definition topk_new (k : nat) (maxDocumentBytes : Z) : topk := mkTopK k maxDocumentBytes 0 [].

Section Collector.
Context `{JsonText}.

(** [materialize]: the document, or the exception it ends with. *)
Definition topk_consider (t : topk) (score : Z) (id : bytes) (materialize : result json) : result topk :=
  if negb (f64_is_finite score) || (tk_k t =? 0)%nat then Ok t
  else if heap_refuses te_kv (tk_k t) (tk_heap t) (mkTEntry score id JNull 0) then Ok t
  else
    doc ← materialize;
    text ← or_err (json_dump doc) "type_error.316";
    let bytes_ := blen text in
    let removed := if heap_full (tk_k t) (tk_heap t) then match last (tk_heap t) with Some e => te_bytes e | None => 0 end else 0 in
    if (tk_maxBytes t <? bytes_) || (u64 (tk_maxBytes t - bytes_) <? u64 (tk_bytes t - removed)) then Err "vector_candidate_bytes_exceeded"
    else Ok (mkTopK (tk_k t) (tk_maxBytes t) (u64 (u64 (tk_bytes t - removed) + bytes_))
      (rank_insert te_kv (mkTEntry score id doc bytes_) (if heap_full (tk_k t) (tk_heap t) then heap_pop (tk_heap t) else tk_heap t))).

Definition finish (t : topk) : result (list json * topk) :=
  docs ← map_result (fun e => assign_key (str "score") (JFloat (te_score e)) (te_doc e)) (rank te_kv (tk_heap t));
  Ok (docs, mkTopK (tk_k t) (tk_maxBytes t) 0 []).

(** The rows of a scan, in its order. *)
Fixpoint consider_all (t : topk) (rows : list (Z * bytes * json)) : result topk :=
  match rows with
  | [] => Ok t
  | (score, id, doc) :: rest => t ← topk_consider t score id (Ok doc); consider_all t rest
  end.

Definition doc_bytes (doc : json) : Z := match json_dump doc with Some text => blen text | None => 0 end.
Definition entry_of (r : Z * bytes * json) : TEntry := mkTEntry r.1.1 r.1.2 r.2 (doc_bytes r.2).
Definition finite_row (r : Z * bytes * json) : bool := f64_is_finite r.1.1.

Definition heap_bytes (h : list TEntry) : Z := foldr (fun e n => te_bytes e + n) 0 h.

Lemma finite_scored r : finite_row r = true -> scored (te_kv (entry_of r)).
Proof.
  unfold finite_row, f64_is_finite, scored, te_kv, entry_of, double_of_bits. simpl. destruct (f64_exp r.1.1 =? 2047); [done|]. intros _. repeat case_match; done.
Qed.

Lemma heap_bytes_perm h h' : h ≡ₚ h' -> heap_bytes h = heap_bytes h'.
Proof. induction 1; simpl; lia. Qed.

Lemma heap_bytes_split h n : heap_bytes h = heap_bytes (take n h) + heap_bytes (drop n h).
Proof. revert n. induction h as [|e h IH]; intros [|n]; simpl; try lia. rewrite (IH n). lia. Qed.

Lemma heap_bytes_nonneg h : Forall (fun e => 0 <= te_bytes e) h -> 0 <= heap_bytes h.
Proof. induction 1; simpl; lia. Qed.

(** The rows to keep of those seen: the [k] of highest finite score, ties by id. *)
Definition best (k : nat) (rows : list (Z * bytes * json)) : list TEntry := take k (rank te_kv (map entry_of (List.filter finite_row rows))).

(** What the collector holds after some rows: the best of them, and their size. *)
Record collected (k : nat) (maxBytes : Z) (rows : list (Z * bytes * json)) (t : topk) : Prop := {
  co_k : tk_k t = k; co_max : tk_maxBytes t = maxBytes;
  co_heap : tk_heap t = best k rows;
  co_bytes : tk_bytes t = heap_bytes (tk_heap t);
  co_fit : heap_bytes (tk_heap t) <= maxBytes }.

(** The ids of the finite rows do not repeat and every document can be written as text. *)
Definition rows_ok (rows : list (Z * bytes * json)) : Prop :=
  ranked te_kv (map entry_of (List.filter finite_row rows)) /\ Forall (fun r => is_Some (json_dump r.2)) rows.

Lemma pop_bytes h e : last h = Some e -> heap_bytes (heap_pop h) = heap_bytes h - te_bytes e.
Proof.
  intros Hl. rewrite last_lookup in Hl. unfold heap_pop. rewrite (heap_bytes_split h (length h - 1)), (drop_S h e (length h - 1)) by (by rewrite <-Nat.sub_1_r in Hl). simpl.
  rewrite drop_ge by lia. simpl. lia.
Qed.

Lemma rank_snoc (l : list TEntry) x : ranked te_kv (l ++ [x]) -> rank te_kv (l ++ [x]) = rank_insert te_kv x (rank te_kv l) /\ ranked te_kv (x :: rank te_kv l) /\ in_rank te_kv (rank te_kv l).
Proof.
  intros R. assert (R' : ranked te_kv (x :: l)) by (apply (ranked_perm _ _ _ (Permutation_app_comm l [x])); exact R). split; [|split].
  - rewrite (rank_of_perm _ _ (x :: l) R); [done|]. apply Permutation_app_comm.
  - apply (ranked_perm te_kv (x :: l)); [by rewrite rank_perm|done].
  - apply rank_sorted. by eapply ranked_tail.
Qed.

Lemma best_bytes k rows : Forall (fun e => 0 <= te_bytes e) (best k rows).
Proof.
  unfold best. apply Forall_take, Forall_forall. intros e He. rewrite rank_perm in He. apply list_elem_of_fmap in He as (r & -> & _). simpl. unfold doc_bytes, blen. case_match; lia.
Qed.

(** The heap without its last entry when it is full. *)
Definition made_room (k : nat) (h : list TEntry) : list TEntry := if heap_full k h then heap_pop h else h.

Lemma made_room_bytes k h : (0 < k)%nat -> Forall (fun e => 0 <= te_bytes e) h ->
  heap_bytes h - (if heap_full k h then match last h with Some e => te_bytes e | None => 0 end else 0) = heap_bytes (made_room k h) /\ 0 <= heap_bytes (made_room k h) <= heap_bytes h.
Proof.
  intros Hk Hb. pose proof (heap_bytes_nonneg h Hb) as H0. unfold made_room, heap_full. destruct (length h =? k)%nat eqn:E; [|lia].
  apply Nat.eqb_eq in E. destruct (last h) as [e|] eqn:El; [|apply last_None in El; rewrite El in E; simpl in E; lia].
  rewrite (pop_bytes _ e El). assert (0 <= te_bytes e) by (rewrite Forall_forall in Hb; by apply Hb, last_Some_elem_of).
  assert (0 <= heap_bytes (heap_pop h)) by (apply heap_bytes_nonneg; unfold heap_pop; by apply Forall_take). rewrite (pop_bytes _ e El) in *. lia.
Qed.

(** A row leaves the collector with the best of what was seen, or ends the scan when these exceed the limit. *)
Lemma consider_row k maxBytes rows r t : (0 < k)%nat -> 0 <= maxBytes < 2 ^ 64 -> rows_ok (rows ++ [r]) -> collected k maxBytes rows t ->
  if heap_bytes (best k (rows ++ [r])) <=? maxBytes
  then exists t', topk_consider t r.1.1 r.1.2 (Ok r.2) = Ok t' /\ collected k maxBytes (rows ++ [r]) t'
  else topk_consider t r.1.1 r.1.2 (Ok r.2) = Err "vector_candidate_bytes_exceeded".
Proof.
  intros Hk Hmax [R Hs] [C1 C2 C3 C4 C5]. assert (Hsame : best k (rows ++ [r]) = tk_heap t -> forall res, res = Ok t ->
    if heap_bytes (best k (rows ++ [r])) <=? maxBytes then exists t', res = Ok t' /\ collected k maxBytes (rows ++ [r]) t' else res = Err "vector_candidate_bytes_exceeded").
  { intros E res ->. rewrite E, (proj2 (Z.leb_le _ _) C5). exists t. split; [done|]. by split. }
  unfold topk_consider. destruct (f64_is_finite r.1.1) eqn:Ef; simpl.
  2: { apply Hsame; [|done]. rewrite C3. unfold best. rewrite List.filter_app. simpl. unfold finite_row at 2. by rewrite Ef, app_nil_r. }
  assert (Efin : List.filter finite_row (rows ++ [r]) = List.filter finite_row rows ++ [r]) by (rewrite List.filter_app; simpl; unfold finite_row at 2; by rewrite Ef).
  rewrite Efin, map_app in R. cbn [map] in R. destruct (rank_snoc _ _ R) as (Er & R1 & R2). pose proof (heap_keep_take te_kv k (entry_of r) _ Hk R1 R2) as Hkeep. rewrite <-Er in Hkeep. fold (best k rows) in Hkeep. rewrite <-C3 in Hkeep.
  assert (Ebest : best k (rows ++ [r]) = heap_keep te_kv k (tk_heap t) (entry_of r)) by (unfold best; rewrite Efin, map_app; by rewrite Hkeep). clear Hkeep Er R1 R2.
  rewrite C1. rewrite (proj2 (Nat.eqb_neq k 0)) by lia. change (heap_refuses te_kv k (tk_heap t) (mkTEntry r.1.1 r.1.2 JNull 0)) with (heap_refuses te_kv k (tk_heap t) (entry_of r)).
  unfold heap_keep in Ebest. destruct (heap_refuses te_kv k (tk_heap t) (entry_of r)) eqn:Eref; [by apply Hsame|]. fold (made_room k (tk_heap t)) in Ebest |- *.
  apply Forall_app in Hs as [_ Hr]. apply Forall_singleton in Hr as [text Ht]. rewrite Ht. simpl. assert (Hd : doc_bytes r.2 = blen text) by (unfold doc_bytes; by rewrite Ht).
  pose proof (best_bytes k rows) as Hb. rewrite <-C3 in Hb. destruct (made_room_bytes k _ Hk Hb) as [Em Hm]. rewrite C4, Em, C2. assert (H0 : 0 <= blen text) by (unfold blen; lia).
  assert (Etotal : heap_bytes (best k (rows ++ [r])) = heap_bytes (made_room k (tk_heap t)) + blen text) by (rewrite Ebest, (heap_bytes_perm _ _ (rank_insert_perm te_kv (entry_of r) _)); simpl; lia).
  rewrite Etotal. destruct (Z.leb_spec (heap_bytes (made_room k (tk_heap t)) + blen text) maxBytes) as [Hfit|Hover].
  - unfold u64. rewrite !(Z.mod_small (heap_bytes (made_room k (tk_heap t)))), (Z.mod_small (maxBytes - blen text)), (Z.mod_small (heap_bytes (made_room k (tk_heap t)) + blen text)) by lia.
    rewrite (proj2 (Z.ltb_ge _ _)), (proj2 (Z.ltb_ge _ _)) by lia. simpl. eexists. split; [reflexivity|]. rewrite <-Hd in *. change (mkTEntry r.1.1 r.1.2 r.2 (doc_bytes r.2)) with (entry_of r).
    split; simpl; rewrite <-?Ebest; done || lia.
  - destruct (Z.ltb_spec maxBytes (blen text)) as [|Hone]; simpl; [done|]. unfold u64. rewrite (Z.mod_small (heap_bytes (made_room k (tk_heap t)))), (Z.mod_small (maxBytes - blen text)) by lia.
    by rewrite (proj2 (Z.ltb_lt _ _)) by lia.
Qed.

Lemma rows_ok_prefix a b : rows_ok (a ++ b) -> rows_ok a.
Proof.
  intros [R Hs]. split; [|by apply Forall_app in Hs as [Hs _]]. rewrite List.filter_app, map_app in R. destruct R as [R1 R2]. split; [by apply Forall_app in R1 as [R1 _]|].
  rewrite map_app in R2. by apply NoDup_app in R2 as [R2 _].
Qed.

Lemma consider_all_collected k maxBytes rest : forall rows t, (0 < k)%nat -> 0 <= maxBytes < 2 ^ 64 -> rows_ok (rows ++ rest) -> collected k maxBytes rows t ->
  ((forall n, heap_bytes (best k (rows ++ take n rest)) <= maxBytes) -> exists t', consider_all t rest = Ok t' /\ collected k maxBytes (rows ++ rest) t') /\
  ((exists n, maxBytes < heap_bytes (best k (rows ++ take n rest))) -> consider_all t rest = Err "vector_candidate_bytes_exceeded").
Proof.
  induction rest as [|r rest IH]; intros rows t Hk Hmax Hok C.
  - split; [intros _; exists t; split; [done|by rewrite app_nil_r]|]. intros [n Hn]. rewrite take_nil, app_nil_r, <-(co_heap _ _ _ _ C) in Hn. pose proof (co_fit _ _ _ _ C). lia.
  - assert (Hassoc : forall l, rows ++ r :: l = (rows ++ [r]) ++ l) by (intros l; by rewrite <-app_assoc). rewrite Hassoc in Hok. pose proof (rows_ok_prefix _ _ Hok) as Hok'.
    pose proof (consider_row k maxBytes rows r t Hk Hmax Hok' C) as Hrow. destruct r as [[score id] doc]. cbn [fst snd] in Hrow. cbn [consider_all].
    destruct (Z.leb_spec (heap_bytes (best k (rows ++ [(score, id, doc)]))) maxBytes) as [Hfit|Hover].
    + destruct Hrow as (t1 & E & C1). rewrite E. simpl. destruct (IH _ t1 Hk Hmax Hok C1) as [IH1 IH2]. split.
      * intros Hall. rewrite Hassoc. apply IH1. intros n. specialize (Hall (S n)). simpl in Hall. by rewrite Hassoc in Hall.
      * intros [n Hn]. apply IH2. destruct n as [|n]; [|exists n; simpl in Hn; by rewrite Hassoc in Hn].
        simpl in Hn. rewrite app_nil_r, <-(co_heap _ _ _ _ C) in Hn. pose proof (co_fit _ _ _ _ C). lia.
    + rewrite Hrow. split; [|done]. intros Hall. specialize (Hall 1%nat). simpl in Hall. rewrite take_0 in Hall. lia.
Qed.

Lemma in_rank_take k l : in_rank te_kv l -> in_rank te_kv (take k l).
Proof. intros Hin. revert k. induction Hin as [|x l Hx Hin IH]; intros [|k]; simpl; try constructor; [by apply Forall_take|apply IH]. Qed.

Lemma ranked_take k l : ranked te_kv l -> ranked te_kv (take k l).
Proof.
  intros [R1 R2]. split; [by apply Forall_take|]. rewrite <-(take_drop k l), map_app in R2. by apply NoDup_app in R2 as [R2 _].
Qed.

Lemma rank_again k l : ranked te_kv l -> rank te_kv (take k (rank te_kv l)) = take k (rank te_kv l).
Proof.
  intros R. assert (R' : ranked te_kv (take k (rank te_kv l))) by (apply ranked_take, (ranked_perm te_kv l); [by rewrite rank_perm|done]).
  apply (in_rank_unique te_kv); [apply (ranked_perm te_kv (take k (rank te_kv l))); [symmetry; apply rank_perm|done]|by apply rank_sorted|by apply in_rank_take, rank_sorted|apply rank_perm].
Qed.

Definition with_score (e : TEntry) : json := match te_doc e with JObject m => JObject (obj_insert (str "score") (JFloat (te_score e)) m) | d => d end.

(** C32: a vector search keeps the best documents it sees.  Rows come in any order, with
    scores that may not be numbers; at every moment the documents to keep are the [k]
    rows seen so far of highest finite score, ties by id.  If these never take more
    than the limit together, the scan succeeds, what [finish] returns is exactly those
    of the whole scan, best first, each document with its score, and the collector is
    empty again; a document that is not kept costs nothing, whatever its size.  If at
    some moment they take more, the scan ends with an error.  [k] is at least 1, the
    limit below 2^64, the ids of rows with finite scores do not repeat, and documents
    are objects whose text can be written, the number of its bytes being their size. *)
Theorem topk_best k maxBytes rows :
  (0 < k)%nat -> 0 <= maxBytes < 2 ^ 64 -> rows_ok rows -> Forall (fun r => is_object r.2 = true) rows ->
  ((forall n, heap_bytes (best k (take n rows)) <= maxBytes) ->
    exists t, consider_all (topk_new k maxBytes) rows = Ok t /\ finish t = Ok (map with_score (best k rows), topk_new k maxBytes)) /\
  ((exists n, maxBytes < heap_bytes (best k (take n rows))) -> consider_all (topk_new k maxBytes) rows = Err "vector_candidate_bytes_exceeded").
Proof.
  intros Hk Hmax Hok Hobj. assert (C0 : collected k maxBytes [] (topk_new k maxBytes)) by (split; simpl; try done; [by destruct k|lia]).
  destruct (consider_all_collected k maxBytes rows [] (topk_new k maxBytes) Hk Hmax Hok C0) as [Hfit Hover]. split; [|exact Hover]. intros Hall.
  destruct (Hfit Hall) as (t & Et & [C1 C2 C3 C4 _]). exists t. split; [done|]. unfold finish. rewrite C3, C1, C2. simpl. destruct Hok as [R _]. unfold best. rewrite rank_again by done.
  set (l := take k _). assert (Hl : Forall (fun e => is_object (te_doc e) = true) l).
  { subst l. apply Forall_take, Forall_forall. intros e He. rewrite rank_perm in He. apply list_elem_of_fmap in He as (r & -> & Hr). apply list_elem_of_In, filter_In in Hr as [Hr _].
    rewrite Forall_forall in Hobj. by apply Hobj, list_elem_of_In. }
  clearbody l. assert (E : map_result (fun e => assign_key (str "score") (JFloat (te_score e)) (te_doc e)) l = Ok (map with_score l)); [|by rewrite E].
  induction Hl as [|e l He Hl IH]; simpl; [done|]. unfold with_score at 1. destruct (te_doc e) eqn:Ed; try done. simpl. by rewrite IH.
Qed.
End Collector.

(** ** Shared byte budgets *)

Record budget := mkBudget { bg_limit : Z; bg_used : Z; bg_peak : Z }.

Definition reserve (b : budget) (bytes_ : Z) : bool * budget :=
  if bytes_ <=? u64 (bg_limit b - bg_used b) then (true, mkBudget (bg_limit b) (u64 (bg_used b + bytes_)) (Z.max (bg_peak b) (u64 (bg_used b + bytes_)))) else (false, b).
Definition release (b : budget) (bytes_ : Z) : budget := mkBudget (bg_limit b) (u64 (bg_used b - bytes_)) (bg_peak b).

Definition charged (bytes_ : Z) : Z := Z.max bytes_ 1.

(** [do_allocate]: charged to the resource and to the shared budget; [available] tells whether the system has the memory. *)
Definition allocate (local : budget) (shared : option budget) (bytes_ : Z) (available : bool) : bool * budget * option budget :=
  match reserve local (charged bytes_) with
  | (false, local) => (false, local, shared)
  | (true, local) =>
      match shared with
      | None => if available then (true, local, None) else (false, release local (charged bytes_), None)
      | Some sh =>
          match reserve sh (charged bytes_) with
          | (false, sh) => (false, release local (charged bytes_), Some sh)
          | (true, sh) => if available then (true, local, Some sh) else (false, release local (charged bytes_), Some (release sh (charged bytes_)))
          end
      end
  end.

Definition deallocate (local : budget) (shared : option budget) (bytes_ : Z) : budget * option budget :=
  (release local (charged bytes_), (fun sh => release sh (charged bytes_)) <$> shared).

Definition budget_ok (b : budget) : Prop := 0 <= bg_used b <= bg_limit b /\ bg_used b <= bg_peak b <= bg_limit b /\ bg_limit b < 2 ^ 64.

(** A budget is never exceeded, and its peak records how far it went. *)
Lemma reserve_ok b n : budget_ok b -> 0 <= n -> budget_ok (reserve b n).2 /\
  ((reserve b n).1 = true <-> bg_used b + n <= bg_limit b) /\ bg_used (reserve b n).2 = bg_used b + (if (reserve b n).1 then n else 0).
Proof.
  intros (H1 & H2 & H3) Hn. unfold reserve, budget_ok, u64. rewrite (Z.mod_small (bg_limit b - bg_used b)) by lia. case_match eqn:E; simpl.
  - rewrite (Z.mod_small (bg_used b + n)) by lia. lia.
  - repeat split; try lia.
Qed.

(** An allocation that fails has charged nothing in the end, to either budget. *)
Lemma allocate_fails_clean local shared n available : budget_ok local -> (forall sh, shared = Some sh -> budget_ok sh) -> 0 <= n ->
  let '(ok, local', shared') := allocate local shared n available in
  bg_used local' = bg_used local + (if ok then charged n else 0) /\ (bg_used <$> shared') = (fun sh => bg_used sh + (if ok then charged n else 0)) <$> shared.
Proof.
  intros Hl Hs Hn. assert (Hc : 0 <= charged n) by (unfold charged; lia). destruct (reserve_ok local (charged n) Hl Hc) as (L1 & L2 & L3). unfold allocate. destruct (reserve local (charged n)) as [[] local1]; simpl in *.
  2: { split; [done|]. destruct shared; simpl; [|done]. by rewrite Z.add_0_r. }
  assert (Hrel : bg_used (release local1 (charged n)) = bg_used local) by (simpl; rewrite L3, Z.add_simpl_r; unfold u64; destruct Hl as (? & ? & ?); rewrite Z.mod_small; lia).
  destruct shared as [sh|]; [|destruct available; simpl in *; split; try done; lia]. specialize (Hs sh eq_refl). destruct (reserve_ok sh (charged n) Hs Hc) as (S1 & S2 & S3).
  destruct (reserve sh (charged n)) as [[] sh1]; simpl in *; [destruct available; simpl in *|]; split; try done; try lia; f_equal; try lia.
  rewrite S3, Z.add_simpl_r, Z.add_0_r. unfold u64. destruct Hs as (? & ? & ?). rewrite Z.mod_small; lia.
Qed.

(** ** Fusing two rankings *)

Fixpoint combine (input : list (bytes * double)) (weight rankConstant : double) (position : Z) (seen : gset bytes) (scores : gmap bytes double) : result (gmap bytes double) :=
  match input with
  | [] => Ok scores
  | (id, score) :: rest =>
      if bytes_eqb id [] || (1024 <? blen id) || negb (is_finite score) || bool_decide (id ∈ seen) then Err "invalid or duplicate fusion input ID/score"
      else
        let part := ddiv weight (dadd (dadd rankConstant (double_of_int position)) (double_of_int 1)) in
        combine rest weight rankConstant (position + 1) ({[id]} ∪ seen) (if dlt dzero weight then <[id := dadd (default dzero (scores !! id)) part]> scores else scores)
  end.

Definition million : double := double_of_int 1000000.

Definition reciprocalRankFusion (vectors lexical_ : list (bytes * double)) (k : Z) (vectorWeight lexicalWeight rankConstant : double) : result (list (bytes * double)) :=
  if (k =? 0) || (10000 <? k) || (10000 <? Z.of_nat (length vectors)) || (10000 <? Z.of_nat (length lexical_)) ||
     negb (is_finite vectorWeight) || negb (is_finite lexicalWeight) || dlt vectorWeight dzero || dlt lexicalWeight dzero ||
     dlt million vectorWeight || dlt million lexicalWeight || dle (dadd vectorWeight lexicalWeight) dzero ||
     negb (is_finite rankConstant) || dlt rankConstant (double_of_int 1) || dlt million rankConstant
  then Err "invalid reciprocal rank fusion parameters"
  else
    scores ← combine vectors vectorWeight rankConstant 0 ∅ ∅;
    scores ← combine lexical_ lexicalWeight rankConstant 0 ∅ scores;
    Ok (take (Z.to_nat k) (rank (fun p => p) (map_to_list scores))).

Lemma combine_dom input weight rc pos seen scores scores' : combine input weight rc pos seen scores = Ok scores' ->
  forall id, is_Some (scores' !! id) <-> is_Some (scores !! id) \/ (dlt dzero weight = true /\ id ∈ map fst input).
Proof.
  revert pos seen scores. induction input as [|[x sc] input IH]; intros pos seen scores E id; simpl in *.
  - injection E as ->. split; [by left|]. intros [?|[_ H]]; [done|]. by apply list_elem_of_In in H.
  - case_match; [done|]. rewrite (IH _ _ _ E), elem_of_cons. destruct (dlt dzero weight); [|naive_solver]. destruct (decide (x = id)) as [->|Hne]; [rewrite lookup_insert_eq; naive_solver|]. rewrite lookup_insert_ne by done. naive_solver.
Qed.

(** Every fused answer comes from a ranking that counts, and none of those is lost when [k] is enough. *)
Lemma fusion_sources vectors lexical_ k vw lw rc out : reciprocalRankFusion vectors lexical_ k vw lw rc = Ok out ->
  (forall id sc, (id, sc) ∈ out -> (dlt dzero vw = true /\ id ∈ map fst vectors) \/ (dlt dzero lw = true /\ id ∈ map fst lexical_)) /\ Z.of_nat (length out) <= Z.max 0 k.
Proof.
  unfold reciprocalRankFusion. case_match; [done|]. intros E. apply bind_Ok in E as (s1 & E1 & E). apply bind_Ok in E as (s2 & E2 & E). injection E as <-. split.
  - intros id sc Hin. apply elem_of_take in Hin as (i & Hin & _). apply list_elem_of_lookup_2 in Hin. rewrite rank_perm in Hin. apply elem_of_map_to_list in Hin.
    destruct (proj1 (combine_dom _ _ _ _ _ _ _ E2 id)) as [Hs|Hs]; [by eexists| |by right]. destruct (proj1 (combine_dom _ _ _ _ _ _ _ E1 id) Hs) as [[? H']|Hs']; [|by left]. by rewrite lookup_empty in H'.
  - rewrite length_take. lia.
Qed.

(** A text for witnesses: the document's id is not printed, every document is one byte. *)
Definition one_byte_text : JsonText := {| json_dump := fun _ => Some (str "x"); json_parse := fun _ => None |}.

Definition sample_topk_rows : list (Z * bytes * json) :=
  [(0x3FF0000000000000, str "a", JObject []); (0x7FF0000000000000, str "n", JObject []); (0x4000000000000000, str "c", JObject []); (0x4000000000000000, str "b", JObject [])].

(** 1.0, an infinity, and 2.0 twice: the two of 2.0, by id; with room for one document only, an error. *)
Lemma topk_best_witness :
  (exists t, consider_all (H := one_byte_text) (topk_new 2 2) sample_topk_rows = Ok t /\
    finish t = Ok ([JObject [(str "score", JFloat 0x4000000000000000)]; JObject [(str "score", JFloat 0x4000000000000000)]], topk_new 2 2)) /\
  consider_all (H := one_byte_text) (topk_new 2 1) sample_topk_rows = Err "vector_candidate_bytes_exceeded".
Proof.
  assert (Hok : rows_ok (H := one_byte_text) sample_topk_rows).
  { split; [split|].
    - repeat constructor.
    - apply (bool_decide_unpack _). vm_compute. reflexivity.
    - repeat constructor; eexists; reflexivity. }
  assert (Hobj : Forall (fun r => is_object r.2 = true) sample_topk_rows) by repeat constructor. split.
  - destruct (topk_best (H := one_byte_text) 2 2 sample_topk_rows ltac:(lia) ltac:(lia) Hok Hobj) as [Hfit _]. destruct Hfit as (t & E & F).
    + intros n. do 5 (destruct n as [|n]; [vm_compute; discriminate|]). vm_compute. discriminate.
    + exists t. split; [exact E|]. rewrite F. vm_compute. reflexivity.
  - apply (topk_best (H := one_byte_text) 2 1 sample_topk_rows ltac:(lia) ltac:(lia) Hok Hobj). exists 3%nat. vm_compute. reflexivity.
Defined.
