(* ===== verification/VectorJournal.v ===== *)
(** * The change journal of vector indexes (vector_change_journal.cpp, vector_change_registry.cpp)

    A bounded history of the ids a collection has changed.  A reader with a cursor
    asks for what came after it; what the journal no longer knows must show as a
    gap, since an index that believes it has seen every change is served. *)

From stdpp Require Import base list gmap strings sorting.
From Stdlib Require Import ZArith Lia.
From S2P Require Import Prelude Json Msgpack JsonValue JsonCompare.

Open Scope Z_scope.

Definition U64_LAST : Z := 2 ^ 64 - 1.

(** ** The journal *)

Record Cursor := mkCursor { c_epoch : Z; c_sequence : Z }.
Record Change := mkChange { ch_sequence : Z; ch_id : bytes; ch_visibility : Z }.
Inductive JState := Covered | More | Gap | VisibilityBlocked.
Record Batch := mkBatch { b_state : JState; b_next : Cursor; b_changes : list Change }.

Record journal := mkJournal {
  j_entries : list Change; j_capacity : nat; j_epoch : Z; j_sequence : Z; j_floor : Z; j_poisoned : bool }.

(** [epoch()]: the next epoch, and the counter behind it; 0 when they are used up. *)
Definition next_epoch (epochs : Z) : Z * Z := if epochs =? U64_LAST then (0, epochs) else (epochs, epochs + 1).

Definition journal_new (records bytes_ : Z) (epochs : Z) : result (journal * Z) :=
  let '(e, epochs) := next_epoch epochs in
  if (records =? 0) || (65536 <? records) || (bytes_ <? 1024) || (64 * 1024 * 1024 <? bytes_) then Err "vector journal invalid capacity"
  else if (e =? 0) || (e =? U64_LAST) then Err "vector journal epoch exhausted"
  else Ok (mkJournal [] (Z.to_nat records) e 0 0 false, epochs).

Definition journal_capture (j : journal) : Cursor := if j_poisoned j then mkCursor 0 0 else mkCursor (j_epoch j) (j_sequence j).

Definition gapLocked (j : journal) : journal := mkJournal [] (j_capacity j) (j_epoch j) (j_sequence j) (j_sequence j) (j_poisoned j).
Definition poison_journal (j : journal) : journal := mkJournal (j_entries j) (j_capacity j) (j_epoch j) (j_sequence j) (j_floor j) true.
Definition with_sequence (j : journal) (s : Z) : journal := mkJournal (j_entries j) (j_capacity j) (j_epoch j) s (j_floor j) (j_poisoned j).

(** The oldest entry of a full journal. *)
Definition drop_oldest (j : journal) : journal :=
  if (length (j_entries j) =? j_capacity j)%nat then
    match j_entries j with
    | e :: rest => mkJournal rest (j_capacity j) (j_epoch j) (j_sequence j) (ch_sequence e) (j_poisoned j)
    | [] => j
    end
  else j.

(** [allocated] tells whether there is memory for the entry. *)
Definition journal_append (j : journal) (id : bytes) (visibility : Z) (allocated : bool) : bool * journal :=
  if j_poisoned j then (false, j)
  else if j_sequence j =? U64_LAST then (false, gapLocked (poison_journal j))
  else
    let j := with_sequence j (j_sequence j + 1) in
    if bytes_eqb id [] || (1024 <? blen id) then (false, gapLocked j)
    else
      let j := drop_oldest j in
      if allocated then (true, mkJournal (j_entries j ++ [mkChange (j_sequence j) id visibility]) (j_capacity j) (j_epoch j) (j_sequence j) (j_floor j) (j_poisoned j))
      else (false, gapLocked j).

Definition journal_gap (j : journal) : journal :=
  gapLocked (if j_sequence j =? U64_LAST then poison_journal j else with_sequence j (j_sequence j + 1)).

Definition journal_reset (j : journal) (epochs : Z) : journal * Z :=
  let '(e, epochs) := next_epoch epochs in
  (mkJournal [] (j_capacity j) e 0 0 ((e =? 0) || (e =? U64_LAST)), epochs).

(** The loop of [after]. *)
Fixpoint collect (entries : list Change) (cursor : Cursor) (epoch visibility : Z) (maximum : nat) (next : Cursor) (changes : list Change) : Batch :=
  match entries with
  | [] => mkBatch Covered next changes
  | e :: rest =>
      if ch_sequence e <=? c_sequence cursor then collect rest cursor epoch visibility maximum next changes
      else if visibility <? ch_visibility e then mkBatch VisibilityBlocked next changes
      else if (length changes =? maximum)%nat then mkBatch More next changes
      else collect rest cursor epoch visibility maximum (mkCursor epoch (ch_sequence e)) (changes ++ [e])
  end.

Definition journal_after (j : journal) (cursor : Cursor) (visibility : Z) (maximum : nat) : result Batch :=
  if (maximum =? 0)%nat || (4096 <? Z.of_nat maximum) then Err "vector journal invalid batch bound"
  else if j_poisoned j || negb (c_epoch cursor =? j_epoch j) || (c_sequence cursor <? j_floor j) || (j_sequence j <? c_sequence cursor) then Ok (mkBatch Gap cursor [])
  else
    let b := collect (j_entries j) cursor (j_epoch j) visibility maximum cursor [] in
    match b_state b with
    | Covered => Ok (if c_sequence (b_next b) =? j_sequence j then b else mkBatch Gap (b_next b) (b_changes b))
    | _ => Ok b
    end.

(** ** Observing documents *)

(** What happens to a journal; [JReset others] resets it after other journals have
    drawn [others] epochs from the shared counter. *)
Inductive jop := JAppend (id : bytes) (visibility : Z) (allocated : bool) | JGap | JReset (others : nat).

(** The floor of the fields that are present; [None] when one is not a non-negative integer. *)
Fixpoint visibility_floor (names : list bytes) (doc : json) (floor : Z) : option Z :=
  match names with
  | [] => Some floor
  | f :: rest =>
      match json_find f doc with
      | None => visibility_floor rest doc floor
      | Some (JUInt z) => visibility_floor rest doc (Z.max floor z)
      | Some (JInt z) => if z <? 0 then None else visibility_floor rest doc (Z.max floor z)
      | Some _ => None
      end
  end.

Definition uncommitted (doc : json) : result bool :=
  if match json_find (str "committed") doc with Some v => json_eqb v (JBool false) | None => false end then Ok true
  else state ← value as_string doc (str "_visibility_state") []; Ok (bytes_eqb state (str "PENDING")).

(** What [observe] does to a journal of the document's collection, and whether it
    goes on to further journals of it; what throws is a gap. *)
Definition observe_doc (doc : json) (allocated : bool) : jop * bool :=
  match json_find (str "id") doc with
  | Some (JString id) =>
      match visibility_floor [str "_raft_commit_index"; str "commit_index"; str "_visibility_floor"] doc 0 with
      | None => (JGap, false)
      | Some floor =>
          match uncommitted doc with
          | Err _ => (JGap, true)
          | Ok pending => if pending && (floor =? 0) then (JGap, false) else (JAppend id floor allocated, true)
          end
      end
  | _ => (JGap, true)
  end.

(** ** Runs *)

Definition jstep (op : jop) (w : journal * Z) : journal * Z :=
  let '(j, epochs) := w in
  match op with
  | JAppend id visibility allocated => ((journal_append j id visibility allocated).2, epochs)
  | JGap => (journal_gap j, epochs)
  | JReset others => journal_reset j (Z.min U64_LAST (epochs + Z.of_nat others))
  end.

Fixpoint jrun (ops : list jop) (w : journal * Z) : journal * Z :=
  match ops with
  | [] => w
  | op :: rest => jrun rest (jstep op w)
  end.

(** ** The registry *)

Record rentry := mkREntry { e_root : bytes; e_user : bytes; e_database : bytes; e_collection : bytes; e_journal : nat }.

(** [r_journals]: the journals somebody still holds; a weak pointer to another is expired. *)
Record registry := mkRegistry { r_entries : list rentry; r_journals : gmap nat journal; r_next : nat; r_epochs : Z; r_enabled : bool }.

Definition registry_new : registry := mkRegistry [] ∅ 0 1 false.

Definition is_sep (b : byte) : bool := bytes_eqb [b] (str "/").

(** [lexically_normal] of a path on a POSIX system, without a trailing separator. *)
Fixpoint path_split (s current : bytes) : list bytes :=
  match s with
  | [] => [rev current]
  | b :: rest => if is_sep b then rev current :: path_split rest [] else path_split rest (b :: current)
  end.

Fixpoint normal_parts (absolute : bool) (parts stack : list bytes) : list bytes :=
  match parts with
  | [] => rev stack
  | p :: rest =>
      if bytes_eqb p [] || bytes_eqb p (str ".") then normal_parts absolute rest stack
      else if bytes_eqb p (str "..") then
        match stack with
        | [] => if absolute then normal_parts absolute rest [] else normal_parts absolute rest [p]
        | q :: below => if bytes_eqb q (str "..") then normal_parts absolute rest (p :: stack) else normal_parts absolute rest below
        end
      else normal_parts absolute rest (p :: stack)
  end.

Fixpoint path_join (parts : list bytes) : bytes :=
  match parts with
  | [] => []
  | [p] => p
  | p :: rest => p ++ str "/" ++ path_join rest
  end.

Definition canonicalRoot (root : bytes) : bytes :=
  match root with
  | [] => []
  | b :: _ =>
      let path := path_join (normal_parts (is_sep b) (path_split root []) []) in
      if is_sep b then str "/" ++ path else if bytes_eqb path [] then str "." else path
  end.

Definition ends_with_sep (root : bytes) : bool :=
  match last root with Some b => is_sep b || bytes_eqb [b] (str "\") | None => false end.

Definition same_root (entry root : bytes) : bool :=
  bytes_eqb entry root ||
  (ends_with_sep root && (length root =? length entry + 1)%nat && bytes_eqb (take (length entry) root) entry).

Definition match_entry (e : rentry) (root user db collection : bytes) : bool :=
  same_root (e_root e) root && bytes_eqb (e_user e) user && bytes_eqb (e_database e) db && bytes_eqb (e_collection e) collection.

(** The first live journal of the collection, or the entries that are still live. *)
Fixpoint find_live (es : list rentry) (journals : gmap nat journal) (root user db collection : bytes) (kept : list rentry) : nat + list rentry :=
  match es with
  | [] => inr kept
  | e :: rest =>
      match journals !! e_journal e with
      | None => find_live rest journals root user db collection kept
      | Some _ => if match_entry e root user db collection then inl (e_journal e) else find_live rest journals root user db collection (kept ++ [e])
      end
  end.

Definition subscribe (r : registry) (root user db collection : bytes) : result (nat * registry) :=
  match find_live (r_entries r) (r_journals r) root user db collection [] with
  | inl n => Ok (n, r)
  | inr kept =>
      if (64 <=? length kept)%nat then Err "vector_index_history_subscription_limit"
      else
        made ← journal_new 4096 (1024 * 1024) (r_epochs r);
        let '(j, epochs) := made in
        Ok (r_next r, mkRegistry (kept ++ [mkREntry (canonicalRoot root) user db collection (r_next r)]) (<[r_next r := j]> (r_journals r)) (S (r_next r)) epochs true)
  end.

(** A mutation of one journal, with the shared epoch counter. *)
Definition journal_apply (op : jop) (n : nat) (js : gmap nat journal * Z) : gmap nat journal * Z :=
  match js.1 !! n with
  | None => js
  | Some j => let '(j', epochs) := jstep op (j, js.2) in (<[n := j']> js.1, epochs)
  end.

(** The loop over the entries, left early when [op] says so. *)
Fixpoint apply_matching (es : list rentry) (matches : rentry -> bool) (op : jop * bool) (js : gmap nat journal * Z) : gmap nat journal * Z :=
  match es with
  | [] => js
  | e :: rest =>
      match js.1 !! e_journal e with
      | Some _ => if matches e then (if op.2 then apply_matching rest matches op (journal_apply op.1 (e_journal e) js) else journal_apply op.1 (e_journal e) js)
                  else apply_matching rest matches op js
      | None => apply_matching rest matches op js
      end
  end.

Definition with_journals (r : registry) (js : gmap nat journal * Z) : registry := mkRegistry (r_entries r) js.1 (r_next r) js.2 (r_enabled r).

Definition observe (r : registry) (root user db collection : bytes) (doc : json) (allocated : bool) : registry :=
  if r_enabled r then with_journals r (apply_matching (r_entries r) (fun e => match_entry e root user db collection) (observe_doc doc allocated) (r_journals r, r_epochs r)) else r.

Definition invalidate (r : registry) (root user db collection : bytes) : registry :=
  if r_enabled r then with_journals r (apply_matching (r_entries r) (fun e => match_entry e root user db collection) (JReset 0, true) (r_journals r, r_epochs r)) else r.

Definition invalidateAll (r : registry) : registry :=
  if r_enabled r then with_journals r (apply_matching (r_entries r) (fun _ => true) (JReset 0, true) (r_journals r, r_epochs r)) else r.

(** The last holder of a journal lets go of it. *)
Definition unsubscribe (r : registry) (n : nat) : registry := mkRegistry (r_entries r) (delete n (r_journals r)) (r_next r) (r_epochs r) (r_enabled r).

Lemma jrun_app a b w : jrun (a ++ b) w = jrun b (jrun a w).
Proof. revert w. induction a as [|op a IH]; intros w; [done|apply IH]. Qed.

(** A journal holds the changes after its floor, one per sequence number. *)
Record jinv (w : journal * Z) : Prop := {
  inv_floor : 0 <= j_floor w.1 <= j_sequence w.1;
  inv_seq : j_sequence w.1 <= U64_LAST;
  inv_length : Z.of_nat (length (j_entries w.1)) = j_sequence w.1 - j_floor w.1;
  inv_entries : forall i e, j_entries w.1 !! i = Some e -> ch_sequence e = j_floor w.1 + 1 + Z.of_nat i;
  inv_capacity : (0 < j_capacity w.1)%nat /\ (length (j_entries w.1) <= j_capacity w.1)%nat;
  inv_epoch : j_poisoned w.1 = false -> 1 <= j_epoch w.1 < w.2;
  inv_epochs : 1 <= w.2 <= U64_LAST }.

(** What an observer who held cursor [c] knows of a later journal of the same epoch. *)
Definition tracks (c : Cursor) (ops : list jop) (j : journal) : Prop :=
  j_poisoned j = false -> c_epoch c = j_epoch j ->
  j_sequence j = c_sequence c + Z.of_nat (length ops) /\
  forall i op, ops !! i = Some op -> j_floor j <= c_sequence c + Z.of_nat i ->
    exists id vis, op = JAppend id vis true /\
      j_entries j !! Z.to_nat (c_sequence c + Z.of_nat i - j_floor j) = Some (mkChange (c_sequence c + Z.of_nat i + 1) id vis).

Lemma next_epoch_fresh epochs : 1 <= epochs <= U64_LAST ->
  1 <= (next_epoch epochs).2 <= U64_LAST /\ epochs <= (next_epoch epochs).2 /\
  ((next_epoch epochs).1 = 0 \/ epochs <= (next_epoch epochs).1 < (next_epoch epochs).2).
Proof. unfold next_epoch. intros H. case_match eqn:E; simpl; lia. Qed.

Lemma inv_gapLocked j epochs : jinv (j, epochs) -> jinv (gapLocked j, epochs).
Proof. intros []; split; simpl in *; try done; try lia. Qed.

Lemma inv_poisoned j epochs : jinv (j, epochs) -> jinv (poison_journal j, epochs).
Proof. intros []; split; simpl in *; done. Qed.

Lemma inv_bump_gap j epochs : jinv (j, epochs) -> (j_sequence j =? U64_LAST) = false -> jinv (gapLocked (with_sequence j (j_sequence j + 1)), epochs).
Proof. intros [] ?; split; simpl in *; try done; try lia. Qed.

Lemma inv_recorded j epochs id v : jinv (j, epochs) -> j_poisoned j = false -> (j_sequence j =? U64_LAST) = false ->
  let k := drop_oldest (with_sequence j (j_sequence j + 1)) in
  jinv (mkJournal (j_entries k ++ [mkChange (j_sequence k) id v]) (j_capacity k) (j_epoch k) (j_sequence k) (j_floor k) (j_poisoned k), epochs).
Proof.
  intros [] Hp Hs k. subst k. unfold drop_oldest; simpl in *. case_match eqn:E; [case_match eqn:Es|]; simpl in *; try rewrite Es in *; simpl in *.
  - destruct (j_capacity j); [lia|done].
  - pose proof (inv_entries0 0%nat _ eq_refl) as H0. simpl in H0.
    split; simpl; rewrite ?length_app; simpl; try done; try lia.
    intros i e [Hi|[Hi He]]%lookup_app_Some; [|destruct (i - _)%nat eqn:Ei in He; [|done]].
    + pose proof (inv_entries0 (S i) e Hi). lia.
    + injection He as <-. simpl. lia.
  - apply Nat.eqb_neq in E. split; simpl; rewrite ?length_app; simpl; try done; try lia.
    intros i e [Hi|[Hi He]]%lookup_app_Some; [by apply inv_entries0|]. destruct (i - _)%nat eqn:Ei in He; [|done].
    injection He as <-. simpl. lia.
Qed.

Lemma inv_drop j epochs : jinv (j, epochs) -> (j_sequence j =? U64_LAST) = false -> jinv (gapLocked (drop_oldest (with_sequence j (j_sequence j + 1))), epochs).
Proof.
  intros [] Hs. unfold drop_oldest; simpl in *. case_match eqn:E; [case_match eqn:Es|]; split; simpl in *; try done; try lia.
Qed.

Lemma inv_step op w : jinv w -> jinv (jstep op w).
Proof.
  destruct w as [j epochs]. intros I. destruct op as [id v alloc| |others]; simpl.
  - unfold journal_append. case_match eqn:Ep; [done|]. case_match eqn:Es; [apply inv_gapLocked, inv_poisoned, I|].
    case_match; [by apply inv_bump_gap|]. case_match; [by apply inv_recorded|by apply inv_drop].
  - unfold journal_gap. case_match; [apply inv_gapLocked, inv_poisoned, I|by apply inv_bump_gap].
  - unfold journal_reset. pose proof (next_epoch_fresh (Z.min U64_LAST (epochs + Z.of_nat others))) as H. destruct (next_epoch _) as [e k]. destruct I as []. simpl in *.
    destruct H as (H1 & H2 & H3); [lia|]. split; simpl; try done; try lia.
Qed.

Lemma inv_run ops w : jinv w -> jinv (jrun ops w).
Proof. revert w. induction ops as [|op ops IH]; intros w I; [done|]. by apply IH, inv_step. Qed.

Lemma inv_new records bytes_ epochs w : 1 <= epochs <= U64_LAST -> 0 <= records -> journal_new records bytes_ epochs = Ok w -> jinv w /\ j_capacity w.1 = Z.to_nat records /\ j_poisoned w.1 = false.
Proof.
  intros He Hr. unfold journal_new. pose proof (next_epoch_fresh epochs He) as H. destruct (next_epoch epochs) as [e k]; simpl in H.
  repeat case_match; try done. intros [= <-]. split; [|done]. split; simpl in *; try done; lia.
Qed.

(** ** Reading back *)

Lemma epochs_grow op w : jinv w -> w.2 <= (jstep op w).2.
Proof.
  intros I. destruct w as [j epochs], op as [| |others]; simpl; try lia. unfold journal_reset.
  pose proof (next_epoch_fresh (Z.min U64_LAST (epochs + Z.of_nat others))) as H. destruct (next_epoch _) as [e k]. destruct I; simpl in *. lia.
Qed.

Lemma tracks_start j : tracks (mkCursor (j_epoch j) (j_sequence j)) [] j.
Proof. intros _ _. simpl. split; [lia|]. intros i op [=]. Qed.

(** A change without an entry leaves nothing retained. *)
Lemma tracks_lost c ops op j k : tracks c ops j -> j_poisoned k = j_poisoned j -> j_epoch k = j_epoch j ->
  j_sequence k = j_sequence j + 1 -> j_floor k = j_sequence k -> tracks c (ops ++ [op]) k.
Proof.
  intros T Hp He Hs Hf Hk Hc. destruct T as [T1 _]; [congruence|congruence|]. rewrite length_app. simpl. split; [lia|].
  intros i o Hi. apply lookup_lt_Some in Hi. rewrite length_app in Hi. simpl in Hi. lia.
Qed.

Lemma tracks_recorded c ops j epochs id v : jinv (j, epochs) -> tracks c ops j ->
  let k := drop_oldest (with_sequence j (j_sequence j + 1)) in
  tracks c (ops ++ [JAppend id v true]) (mkJournal (j_entries k ++ [mkChange (j_sequence k) id v]) (j_capacity k) (j_epoch k) (j_sequence k) (j_floor k) (j_poisoned k)).
Proof.
  intros I T k. assert (Hk : j_poisoned k = j_poisoned j /\ j_epoch k = j_epoch j /\ j_sequence k = j_sequence j + 1 /\
    j_floor j <= j_floor k <= j_sequence j /\ j_entries k = drop (Z.to_nat (j_floor k - j_floor j)) (j_entries j)).
  { subst k. destruct I; simpl in *. unfold drop_oldest; simpl. case_match eqn:E; [case_match eqn:Es|]; simpl; try rewrite Es in *; simpl in *; repeat split; try lia.
    - by rewrite drop_nil.
    - by rewrite (inv_entries0 0%nat c0 eq_refl); lia.
    - by rewrite (inv_entries0 0%nat c0 eq_refl); lia.
    - rewrite (inv_entries0 0%nat c0 eq_refl). by replace (Z.to_nat _) with 1%nat by lia.
    - by rewrite Z.sub_diag. }
  destruct Hk as (Hp & He & Hs & Hf & Hd). intros Hq Hc. simpl in *. destruct T as [T1 T2]; [congruence|congruence|].
  rewrite length_app. simpl. split; [lia|]. intros i o [Hi|[Hi Ho]]%lookup_app_Some Hr.
  - destruct (T2 i o Hi) as (id' & v' & -> & Hl); [lia|]. exists id', v'. split; [done|]. apply lookup_app_l_Some.
    rewrite Hd, lookup_drop. rewrite <-Hl. f_equal. lia.
  - destruct (i - _)%nat eqn:Ei in Ho; [|done]. injection Ho as <-. exists id, v. split; [done|]. destruct I; simpl in *.
    rewrite lookup_app_r, Hd, length_drop by (rewrite Hd, length_drop; lia). replace (_ - _)%nat with 0%nat by lia. simpl. do 2 f_equal. lia.
Qed.

Lemma tracks_step c ops op w : jinv w -> tracks c ops w.1 -> c_epoch c < w.2 -> tracks c (ops ++ [op]) (jstep op w).1.
Proof.
  destruct w as [j epochs]. intros I T Hc. destruct op as [id v alloc| |others]; simpl in *.
  - unfold journal_append. case_match eqn:Ep; [intros H1; simpl in H1; congruence|]. case_match; [by intros ?|].
    case_match; [by eapply tracks_lost|]. destruct alloc; simpl; [by eapply tracks_recorded|].
    eapply tracks_lost; [exact T|..]; unfold drop_oldest; simpl; repeat case_match; done.
  - unfold journal_gap. case_match; [by intros ?|]. by eapply tracks_lost.
  - unfold journal_reset. pose proof (next_epoch_fresh (Z.min U64_LAST (epochs + Z.of_nat others))) as H. destruct (next_epoch _) as [e k]. destruct I; simpl in *.
    intros Hq He. simpl in *. destruct (e =? 0) eqn:E0; [done|]. lia.
Qed.

Lemma tracks_run c ops later w : jinv w -> tracks c ops w.1 -> c_epoch c < w.2 -> tracks c (ops ++ later) (jrun later w).1.
Proof.
  revert ops w. induction later as [|op later IH]; intros ops w I T Hc; [by rewrite app_nil_r|].
  replace (ops ++ op :: later) with ((ops ++ [op]) ++ later) by by rewrite <-app_assoc. apply IH.
  - by apply inv_step.
  - by apply tracks_step.
  - pose proof (epochs_grow op w I). lia.
Qed.

Lemma collect_skip entries cursor epoch v m next acc n : (forall i e, (i < n)%nat -> entries !! i = Some e -> ch_sequence e <= c_sequence cursor) ->
  collect entries cursor epoch v m next acc = collect (drop n entries) cursor epoch v m next acc.
Proof.
  revert n. induction entries as [|e entries IH]; intros n H; [by rewrite drop_nil|]. destruct n as [|n]; [done|]. simpl.
  rewrite (proj2 (Z.leb_le _ _)) by (apply (H 0%nat); [lia|done]). apply IH. intros i e' Hi He'. by apply (H (S i)); [lia|].
Qed.

(** The loop takes a prefix, stopped by an invisible change or a full batch. *)
Lemma collect_takes entries cursor epoch v m s acc : c_sequence cursor <= s ->
  (forall i e, entries !! i = Some e -> ch_sequence e = s + 1 + Z.of_nat i) -> (length acc <= m)%nat ->
  exists k, let b := collect entries cursor epoch v m (mkCursor epoch s) acc in
    (k <= length entries)%nat /\ b_changes b = acc ++ take k entries /\ b_next b = mkCursor epoch (s + Z.of_nat k) /\
    Forall (fun e => ch_visibility e <= v) (take k entries) /\
    match b_state b with
    | Covered => k = length entries
    | More => (length acc + k = m)%nat /\ (k < length entries)%nat
    | VisibilityBlocked => exists e, entries !! k = Some e /\ v < ch_visibility e
    | Gap => False
    end.
Proof.
  revert s acc. induction entries as [|e entries IH]; intros s acc Hs Hseq Hm; simpl.
  - exists 0%nat. rewrite app_nil_r, Z.add_0_r. done.
  - pose proof (Hseq 0%nat e eq_refl) as He. simpl in He. rewrite (proj2 (Z.leb_gt _ _)) by lia.
    destruct (v <? ch_visibility e) eqn:Ev; [|destruct (length acc =? m)%nat eqn:Em]; simpl.
    + exists 0%nat. rewrite app_nil_r, Z.add_0_r. repeat split; simpl; [lia|done|]. exists e. split; [done|lia].
    + apply Nat.eqb_eq in Em. exists 0%nat. rewrite app_nil_r, Z.add_0_r. repeat split; simpl; done || lia.
    + apply Nat.eqb_neq in Em. rewrite He, Z.add_0_r. destruct (IH (s + 1) (acc ++ [e])) as (k & Hk & Hch & Hn & Hv & Hst); [lia| |rewrite length_app; simpl; lia|].
      { intros i e' Hi. rewrite (Hseq (S i) e' Hi). lia. }
      exists (S k). simpl. rewrite Hch, Hn, <-app_assoc. repeat split; [lia|f_equal; lia|constructor; [lia|done]|].
      revert Hst. case_match; rewrite ?length_app; simpl; try done; lia.
Qed.

Lemma lookup_pairs {A B} (f : B -> A) (l : list A) (m : list B) n k : (forall i, (i < k)%nat -> exists y, m !! (n + i)%nat = Some y /\ l !! i = Some (f y)) ->
  map f (take k (drop n m)) = take k l.
Proof.
  intros H. apply list_eq. intros i. rewrite list_lookup_fmap. destruct (decide (i < k)%nat) as [Hi|Hi].
  - rewrite !lookup_take_lt, lookup_drop by done. destruct (H i Hi) as (y & -> & ->). done.
  - by rewrite !lookup_take_ge by lia.
Qed.

Definition change_op (c : Change) : jop := JAppend (ch_id c) (ch_visibility c) true.

(** A cursor within what the journal retains: never a gap. *)
Lemma after_inside c w v m b : jinv w -> journal_after w.1 c v m = Ok b -> j_poisoned w.1 = false -> c_epoch c = j_epoch w.1 ->
  j_floor w.1 <= c_sequence c <= j_sequence w.1 ->
  let rest := drop (Z.to_nat (c_sequence c - j_floor w.1)) (j_entries w.1) in
  exists k, Z.of_nat k <= j_sequence w.1 - c_sequence c /\ b_changes b = take k rest /\ b_next b = mkCursor (c_epoch c) (c_sequence c + Z.of_nat k) /\
    Forall (fun e => ch_visibility e <= v) (take k rest) /\
    match b_state b with
    | Covered => Z.of_nat k = j_sequence w.1 - c_sequence c
    | More => k = m /\ Z.of_nat k < j_sequence w.1 - c_sequence c
    | VisibilityBlocked => exists e, rest !! k = Some e /\ v < ch_visibility e
    | Gap => False
    end.
Proof.
  intros [] Hb Hp He Hc rest. simpl in *. revert Hb. unfold journal_after. case_match; [done|]. rewrite Hp, He, Z.eqb_refl. simpl.
  rewrite (proj2 (Z.ltb_ge _ _)) by lia. rewrite (proj2 (Z.ltb_ge _ _)) by lia. simpl.
  rewrite (collect_skip _ _ _ _ _ _ _ (Z.to_nat (c_sequence c - j_floor w.1))) by (intros i e Hi Hl; rewrite (inv_entries0 _ _ Hl); lia). fold rest.
  assert (Hlen : Z.of_nat (length rest) = j_sequence w.1 - c_sequence c) by (subst rest; rewrite length_drop; lia).
  destruct (collect_takes rest c (j_epoch w.1) v m (c_sequence c) []) as (k & Hk & Hch & Hnx & Hv & Hst); [lia| |simpl; lia|].
  { intros i e Hi. subst rest. rewrite lookup_drop in Hi. rewrite (inv_entries0 _ _ Hi). lia. }
  replace (mkCursor (j_epoch w.1) (c_sequence c)) with c in * by (destruct c; f_equal; simpl in *; lia). simpl in *.
  set (B := collect _ _ _ _ _ _ _) in *. intros Hb.
  assert (HB : B = b).
  { destruct (b_state B); try by injection Hb. rewrite Hnx in Hb. simpl in Hb. rewrite (proj2 (Z.eqb_eq _ _)) in Hb by lia. by injection Hb. }
  subst b. exists k. rewrite Hch, Hnx. repeat split; [lia|done|]. destruct (b_state B); try done; lia.
Qed.

(** A later journal of the same epoch, without losses since the cursor. *)
Lemma after_tracked c later w v m b : jinv w -> tracks c later w.1 -> journal_after w.1 c v m = Ok b -> b_state b <> Gap ->
  j_poisoned w.1 = false /\ c_epoch c = j_epoch w.1 /\
  exists n, (n <= length later)%nat /\ map change_op (b_changes b) = take n later /\ b_next b = mkCursor (c_epoch c) (c_sequence c + Z.of_nat n) /\
    Forall (fun e => ch_visibility e <= v) (b_changes b) /\
    match b_state b with
    | Covered => n = length later
    | More => n = m /\ (n < length later)%nat
    | VisibilityBlocked => exists id vis, later !! n = Some (JAppend id vis true) /\ v < vis
    | Gap => False
    end.
Proof.
  intros I T Hb Hg.
  assert (Hin : j_poisoned w.1 = false /\ c_epoch c = j_epoch w.1 /\ j_floor w.1 <= c_sequence c <= j_sequence w.1).
  { revert Hb. unfold journal_after. case_match; [done|]. case_match eqn:Eg; [by intros [= <-]|]. intros _.
    apply orb_false_elim in Eg as [[[Hp He]%orb_false_elim Hf]%orb_false_elim Hs]. apply negb_false_iff in He. repeat split; [done|lia..]. }
  destruct Hin as (Hp & He & Hc). destruct (T Hp He) as [T1 T2]. destruct (after_inside _ _ _ _ _ I Hb Hp He Hc) as (k & Hk & Hch & Hnx & Hv & Hst).
  set (n := Z.to_nat (c_sequence c - j_floor w.1)) in *.
  assert (Hent : forall i o, later !! i = Some o -> exists e, j_entries w.1 !! (n + i)%nat = Some e /\ o = change_op e).
  { intros i o Hi. destruct (T2 i o Hi) as (id & vis & -> & Hl); [lia|]. replace (Z.to_nat _) with (n + i)%nat in Hl by lia. eexists. split; [exact Hl|done]. }
  split; [done|]. split; [done|]. exists k. rewrite Hch, Hnx. split; [lia|]. split.
  { apply lookup_pairs. intros i Hi. destruct (lookup_lt_is_Some_2 later i) as [o Ho]; [lia|]. destruct (Hent i o Ho) as (e & He' & ->). eauto. }
  split; [done|]. split; [done|]. destruct (b_state b); try done; try lia.
  destruct Hst as (e & Hl & Hve). rewrite lookup_drop in Hl. pose proof (lookup_lt_Some _ _ _ Hl). destruct I; simpl in *.
  destruct (lookup_lt_is_Some_2 later k) as [o Ho]; [lia|].
  destruct (Hent k o Ho) as (e' & He' & ->). rewrite Hl in He'. injection He' as <-. by exists (ch_id e), (ch_visibility e).
Qed.

(** An epoch older than the counter is never entered again. *)
Lemma epoch_back ops w E : jinv w -> E < w.2 -> j_poisoned (jrun ops w).1 = false -> j_epoch (jrun ops w).1 = E -> j_poisoned w.1 = false /\ j_epoch w.1 = E.
Proof.
  revert w. induction ops as [|op ops IH]; intros w I HE Hp He; [done|]. simpl in *.
  pose proof (epochs_grow op w I). destruct (IH (jstep op w)) as [Hp' He']; [by apply inv_step|lia|done|done|].
  destruct w as [j epochs], op as [id v alloc| |others]; simpl in *.
  - revert Hp' He'. unfold journal_append, drop_oldest. repeat case_match; simpl; intros; split; congruence.
  - revert Hp' He'. unfold journal_gap. case_match; by simpl.
  - revert Hp' He'. unfold journal_reset. pose proof (next_epoch_fresh (Z.min U64_LAST (epochs + Z.of_nat others))) as F. destruct (next_epoch _) as [e k]. destruct I; simpl in *.
    destruct (e =? 0) eqn:E0; [done|]. lia.
Qed.

Lemma capture_start w : jinv w -> tracks (journal_capture w.1) [] w.1 /\ c_epoch (journal_capture w.1) < w.2.
Proof.
  intros []. unfold journal_capture. case_match eqn:Ep; simpl; [|split; [apply tracks_start|by apply inv_epoch0]].
  split; [intros Hp; congruence|lia].
Qed.

Lemma capture_prefix w a b : jinv w -> j_poisoned (jrun (a ++ b) w).1 = false -> c_epoch (journal_capture w.1) = j_epoch (jrun (a ++ b) w).1 ->
  journal_capture (jrun a w).1 = mkCursor (c_epoch (journal_capture w.1)) (c_sequence (journal_capture w.1) + Z.of_nat (length a)).
Proof.
  intros I Hp He. destruct (capture_start w I) as [T Hlt]. rewrite jrun_app in Hp, He.
  assert (Hgrow : w.2 <= (jrun a w).2).
  { clear -I. revert w I. induction a as [|op a IH]; intros w I; [done|]. simpl. pose proof (epochs_grow op w I). pose proof (IH _ (inv_step op w I)). lia. }
  destruct (epoch_back b (jrun a w) (c_epoch (journal_capture w.1))) as [Hp' He']; [by apply inv_run|lia|done|done|].
  destruct (tracks_run _ [] a w I T Hlt Hp') as [Hs _]; [done|]. unfold journal_capture at 1. rewrite Hp'. by f_equal.
Qed.

Definition recorded (op : jop) : bool :=
  match op with JAppend id _ true => negb (bytes_eqb id [] || (1024 <? blen id)) | _ => false end.

(** Recorded changes push the floor up only when the journal is full. *)
Lemma recorded_run ops w : jinv w -> forallb recorded ops = true -> j_poisoned w.1 = false -> j_sequence w.1 + Z.of_nat (length ops) <= U64_LAST ->
  let w' := jrun ops w in
  j_poisoned w'.1 = false /\ j_epoch w'.1 = j_epoch w.1 /\ j_capacity w'.1 = j_capacity w.1 /\ j_sequence w'.1 = j_sequence w.1 + Z.of_nat (length ops) /\
  j_floor w'.1 <= Z.max (j_floor w.1) (j_sequence w'.1 - Z.of_nat (j_capacity w.1)).
Proof.
  revert w. induction ops as [|op ops IH]; intros w I Hr Hp Hs; simpl in *; [repeat split; done || lia|].
  apply andb_true_iff in Hr as [Hop Hr]. pose proof (inv_step op w I) as I'.
  assert (Hstep : j_poisoned (jstep op w).1 = false /\ j_epoch (jstep op w).1 = j_epoch w.1 /\ j_capacity (jstep op w).1 = j_capacity w.1 /\
    j_sequence (jstep op w).1 = j_sequence w.1 + 1 /\ j_floor (jstep op w).1 <= Z.max (j_floor w.1) (j_sequence w.1 + 1 - Z.of_nat (j_capacity w.1))).
  { destruct w as [j epochs], op as [id v []| |]; try done. simpl in *. apply negb_true_iff in Hop. unfold journal_append. rewrite Hp, Hop.
    rewrite (proj2 (Z.eqb_neq _ _)) by lia. destruct I; unfold drop_oldest; simpl in *. case_match eqn:E; [case_match eqn:Es|]; simpl; try rewrite Es in *; repeat split; try done; try lia.
    pose proof (inv_entries0 0%nat c eq_refl). apply Nat.eqb_eq in E. simpl in *. lia. }
  destruct Hstep as (H1 & H2 & H3 & H4 & H5). destruct (IH (jstep op w) I' Hr H1) as (K1 & K2 & K3 & K4 & K5); [lia|].
  rewrite H2 in K2. rewrite H3 in *. repeat split; try done; lia.
Qed.

Lemma capacity_run ops w : j_capacity (jrun ops w).1 = j_capacity w.1.
Proof.
  revert w. induction ops as [|op ops IH]; intros w; [done|]. simpl. rewrite IH. destruct w as [j epochs], op; simpl.
  - unfold journal_append, drop_oldest. repeat case_match; done.
  - unfold journal_gap. by case_match.
  - unfold journal_reset. by destruct (next_epoch _).
Qed.

(** C30: a reader of the change journal is told the truth.  Take any life of a journal:
    changes with and without memory for them, explicit gaps, resets, the bounded queue
    overflowing, the sequence counter running out.  A reader captures a cursor, more
    happens, and it reads.  Unless the answer is a gap, the changes it gets are exactly
    what happened next, in order, none missing, none it may not see yet; "covered" is
    said only when that is everything, "more" when the batch is full, "blocked" when
    the next change is not visible yet; and the new cursor is what a capture at that
    moment would have given, so reading on from it is covered again.  And a reader who
    is at most a queue's length of recorded changes behind is never told of a gap. *)
Theorem journal_reads_history records bytes_ epochs w0 before later visibility maximum b :
  1 <= epochs <= U64_LAST -> 0 <= records -> journal_new records bytes_ epochs = Ok w0 ->
  let w1 := jrun before w0 in
  let w2 := jrun later w1 in
  journal_after w2.1 (journal_capture w1.1) visibility maximum = Ok b ->
  (b_state b <> Gap -> exists n, (n <= length later)%nat /\
     map change_op (b_changes b) = take n later /\
     b_next b = journal_capture (jrun (take n later) w1).1 /\
     Forall (fun e => ch_visibility e <= visibility) (b_changes b) /\
     match b_state b with
     | Covered => n = length later
     | More => n = maximum /\ (n < length later)%nat
     | VisibilityBlocked => exists id vis, later !! n = Some (JAppend id vis true) /\ visibility < vis
     | Gap => False
     end) /\
  (forallb recorded later = true -> j_poisoned w1.1 = false -> j_sequence w1.1 + Z.of_nat (length later) <= U64_LAST ->
   Z.of_nat (length later) <= records -> b_state b <> Gap).
Proof.
  intros He Hr Hnew w1 w2 Hb. destruct (inv_new _ _ _ _ He Hr Hnew) as (I0 & Hcap & _). pose proof (inv_run before w0 I0 : jinv w1) as I1. pose proof (inv_run later w1 I1 : jinv w2) as I2.
  destruct (capture_start w1 I1) as [T Hlt]. pose proof (tracks_run _ [] later w1 I1 T Hlt) as T2. simpl in T2. split.
  - intros Hg. destruct (after_tracked _ _ w2 _ _ _ I2 T2 Hb Hg) as (Hp & Hep & n & Hn & Hch & Hnx & Hv & Hst). exists n. repeat split; try done.
    pose proof (take_drop n later) as E. subst w2. rewrite <-E in Hp, Hep. rewrite (capture_prefix w1 _ _ I1 Hp Hep), length_take, Nat.min_l by done. done.
  - intros Hrec Hp Hs Hl. destruct (recorded_run later w1 I1 Hrec Hp Hs) as (K1 & K2 & K3 & K4 & K5). fold w2 in K1, K2, K3, K4, K5.
    assert (Hc : j_floor w1.1 <= j_sequence w1.1) by apply I1. rewrite <-(capacity_run before w0) in Hcap. fold w1 in Hcap.
    destruct (after_inside _ _ _ _ _ I2 Hb K1) as (k & _ & _ & _ & _ & Hst); unfold journal_capture; rewrite ?Hp; simpl; [done|lia|].
    by intros Eg; rewrite Eg in Hst.
Qed.

(** A queue of two holds one of three changes back: the reader who saw the first goes on. *)
Lemma journal_reads_history_witness : exists w0 b,
  journal_new 2 1024 1 = Ok w0 /\
  journal_after (jrun [JAppend (str "b") 0 true; JAppend (str "c") 9 true] (jrun [JAppend (str "a") 0 true] w0)).1
    (journal_capture (jrun [JAppend (str "a") 0 true] w0).1) 5 16 = Ok b /\
  b_state b <> Gap /\ exists n, (n <= 2)%nat /\ map change_op (b_changes b) = take n [JAppend (str "b") 0 true; JAppend (str "c") 9 true] /\
    b_next b = journal_capture (jrun (take n [JAppend (str "b") 0 true; JAppend (str "c") 9 true]) (jrun [JAppend (str "a") 0 true] w0)).1.
Proof.
  eexists _, _. split; [reflexivity|]. split; [vm_compute; reflexivity|].
  pose proof (journal_reads_history 2 1024 1 (mkJournal [] 2 1 0 0 false, 2) [JAppend (str "a") 0 true] [JAppend (str "b") 0 true; JAppend (str "c") 9 true] 5 16
    (mkBatch VisibilityBlocked (mkCursor 1 2) [mkChange 2 (str "b") 0])) as H.
  destruct H as [H H']; [unfold U64_LAST; lia|lia|reflexivity|vm_compute; reflexivity|].
  split; [apply H'; [vm_compute; reflexivity|vm_compute; reflexivity|vm_compute; discriminate|simpl; lia]|].
  destruct H as (n & Hn & Hch & Hnx & _); [discriminate|]. exists n. split; [exact Hn|]. split; [exact Hch|exact Hnx].
Defined.

(** A reader who is more than the queue behind, one before a reset, and one across a change nobody could record: gaps. *)
Lemma journal_gaps : forall w0, journal_new 1 1024 7 = Ok w0 ->
  let state ops := match journal_after (jrun ops w0).1 (journal_capture w0.1) 0 4 with Ok b => b_state b | Err _ => Covered end in
  state [JAppend (str "a") 0 true; JAppend (str "b") 0 true] = Gap /\ state [JAppend (str "a") 0 false] = Gap /\ state [JGap] = Gap /\ state [JReset 0] = Gap /\
  state [JAppend (str "a") 0 true] = Covered.
Proof. intros w0 [= <-]. repeat split; vm_compute; reflexivity. Qed.

(** ** What the registry delivers *)

Lemma apply_none es matches op js : (forall e, e ∈ es -> is_Some (js.1 !! e_journal e) -> matches e = false) -> apply_matching es matches op js = js.
Proof.
  induction es as [|e es IH]; intros H; [done|]. simpl. case_match eqn:E.
  - rewrite H; [apply IH|left|by rewrite E]. intros e' He'. apply H. by right.
  - apply IH. intros e' He'. apply H. by right.
Qed.

Lemma journal_apply_other op n m js : m <> n -> (journal_apply op n js).1 !! m = js.1 !! m.
Proof. intros Hm. unfold journal_apply. case_match; [|done]. destruct (jstep op _). simpl. by rewrite lookup_insert_ne. Qed.

(** With one live entry for the collection, its journal makes the step and no other changes. *)
Lemma observe_reaches r root user db collection doc allocated before e after :
  r_enabled r = true -> r_entries r = before ++ e :: after -> is_Some (r_journals r !! e_journal e) -> match_entry e root user db collection = true ->
  (forall e', e' ∈ before ++ after -> is_Some (r_journals r !! e_journal e') -> match_entry e' root user db collection = false /\ e_journal e' <> e_journal e) ->
  observe r root user db collection doc allocated = with_journals r (journal_apply (observe_doc doc allocated).1 (e_journal e) (r_journals r, r_epochs r)).
Proof.
  intros He Hes [j Hj] Hm Hother. unfold observe. rewrite He, Hes. f_equal.
  assert (Hb : forall l js, (forall e', e' ∈ l -> is_Some (js.1 !! e_journal e') -> match_entry e' root user db collection = false) ->
    forall l', apply_matching (l ++ l') (fun e => match_entry e root user db collection) (observe_doc doc allocated) js =
      apply_matching l' (fun e => match_entry e root user db collection) (observe_doc doc allocated) js).
  { induction l as [|x l IH]; intros js H l'; [done|]. simpl. case_match eqn:E; [rewrite H; [|left|by rewrite E]|]; apply IH; intros; apply H; done || by right. }
  rewrite Hb by (intros e' He' Hl; apply Hother; [by apply elem_of_app; left|done]). simpl. rewrite Hj, Hm. case_match; [|done]. apply apply_none.
  intros e' He' Hl. destruct (decide (e_journal e' = e_journal e)) as [Eq|Ne].
  - destruct (Hother e') as [_ []]; [by apply elem_of_app; right|by rewrite Eq, Hj|done].
  - rewrite journal_apply_other in Hl by done. apply Hother; [by apply elem_of_app; right|done].
Qed.

(** Two subscriptions through a root that is not in normal form make two journals of
    one collection; a change the first cannot place is a gap there, and the second,
    which never hears of it, says it has seen everything. *)
Lemma duplicate_journal_misses_change : exists r1 r2 n1 n2,
  subscribe registry_new (str "/srv/./data") (str "u") (str "d") (str "c") = Ok (n1, r1) /\
  subscribe r1 (str "/srv/./data") (str "u") (str "d") (str "c") = Ok (n2, r2) /\ n1 <> n2 /\
  let r3 := observe r2 (str "/srv/data/") (str "u") (str "d") (str "c") (JObject [(str "commit_index", JInt (-1)); (str "id", JString (str "x"))]) true in
  exists j j', r_journals r2 !! n2 = Some j /\ r_journals r3 !! n2 = Some j' /\
    journal_after j' (journal_capture j) 10 16 = Ok (mkBatch Covered (journal_capture j) []).
Proof. eexists _, _, _, _. split; [vm_compute; reflexivity|]. split; [vm_compute; reflexivity|]. split; [discriminate|]. eexists _, _. split; [reflexivity|]. split; [vm_compute; reflexivity|]. vm_compute. reflexivity. Qed.

Lemma canonical_samples : map canonicalRoot [str "/a/./b/"; str "/a/../b"; str "a/.."; str "../x"; str "/.."; str "./d//e"] = [str "/a/b"; str "/b"; str "."; str "../x"; str "/"; str "d/e"].
Proof. vm_compute. reflexivity. Qed.
