(* ===== verification/VectorFreshness.v ===== *)
(** * Certificates of vector indexes (vector_freshness.hpp)

    An index that was built from a collection may serve a query when nothing has
    changed since.  Writers hold a [Mutation] on the collection's counter, or on the
    root's; a reader captures a stamp of the counters without locking.  Every load,
    store and fetch-and-add here is one step, and the writers' steps fall between the
    reader's in any order. *)

From stdpp Require Import base list strings functions.
From Stdlib Require Import ZArith Lia.
From S2P Require Import Prelude.

Open Scope Z_scope.

Definition SIZE64 : Z := 2 ^ 64.

(** A counter of the root, or of one of the 4096 slots. *)
Inductive cid := Root | Slot (i : Z).

#[export] Instance cid_eq_dec : EqDecision cid.
Proof. solve_decision. Defined.

(** [bumps] is what [revision] would be without its width; no code reads it. *)
Record Counter := mkCounter { active : Z; revision : Z; poisoned : bool; bumps : Z }.

(** Where a writer stands.  [Entering]: [active] is raised; [Poisoning c next]: the
    revision has wrapped and [poisoned] is not stored yet; [Live]: the mutation is
    held; [Leaving]: the destructor has bumped. *)
Inductive after_poison := ThenLive | ThenLeaving.
Inductive pc := Idle | Entering (c : cid) | Poisoning (c : cid) (next : after_poison) | Live (c : cid) | Leaving (c : cid).

(** [writers]: one place per mutation that can exist at once; [log]: the counters under which data has changed. *)
Record world := mkWorld { counters : cid -> Counter; writers : list pc; log : list cid }.

Definition counter_new : Counter := mkCounter 0 0 false 0.
Definition freshness_new (n : nat) : world := mkWorld (fun _ => counter_new) (replicate n Idle) [].

(** What a writer at rest starts on, and whether one that holds a mutation changes data or lets go. *)
Inductive choice := Start (c : cid) | Change | Finish.

Definition set_active (k : Counter) (a : Z) : Counter := mkCounter a (revision k) (poisoned k) (bumps k).

(** [revision.fetch_add(1)], and whether it found the last value. *)
Definition fetch_bump (k : Counter) : Counter * bool :=
  (mkCounter (active k) ((revision k + 1) mod SIZE64) (poisoned k) (bumps k + 1), revision k =? SIZE64 - 1).

Definition set_poisoned (k : Counter) : Counter := mkCounter (active k) (revision k) true (bumps k).

Definition place (w : world) (i : nat) (p : pc) (c : cid) (k : Counter) : world :=
  mkWorld (<[c := k]> (counters w)) (<[i := p]> (writers w)) (log w).

(** The next atomic step of writer [i]. *)
Definition step (w : world) (a : nat * choice) : world :=
  let '(i, ch) := a in
  match writers w !! i with
  | None => w
  | Some Idle =>
      match ch with
      | Start c => place w i (Entering c) c (set_active (counters w c) ((active (counters w c) + 1) mod SIZE64))
      | _ => w
      end
  | Some (Entering c) =>
      let '(k, wrapped) := fetch_bump (counters w c) in place w i (if wrapped then Poisoning c ThenLive else Live c) c k
  | Some (Poisoning c next) =>
      place w i (match next with ThenLive => Live c | ThenLeaving => Leaving c end) c (set_poisoned (counters w c))
  | Some (Live c) =>
      match ch with
      | Change => mkWorld (counters w) (writers w) (log w ++ [c])
      | Finish => let '(k, wrapped) := fetch_bump (counters w c) in place w i (if wrapped then Poisoning c ThenLeaving else Leaving c) c k
      | Start _ => w
      end
  | Some (Leaving c) => place w i Idle c (set_active (counters w c) ((active (counters w c) - 1) mod SIZE64))
  end.

Definition exec (w : world) (acts : list (nat * choice)) : world := foldl step w acts.

Record Stamp := mkStamp { s_root : Z; s_collection : Z; s_visibility : Z; s_configuration : Z }.

Definition stamp_eqb (a b : Stamp) : bool :=
  (s_root a =? s_root b) && (s_collection a =? s_collection b) && (s_visibility a =? s_visibility b) && (s_configuration a =? s_configuration b).

Definition sameSourceAtOrAfter (a previous : Stamp) : bool :=
  (s_root a =? s_root previous) && (s_collection a =? s_collection previous) && (s_configuration a =? s_configuration previous) && (s_visibility previous <=? s_visibility a).

Section Reader.
Context (hash : bytes -> Z).

Definition slot (key : bytes) : cid := Slot (hash key mod 4096).

(** [schedule]: what the writers do before each load but the first. *)
Record schedule := mkSchedule { before_collection : list (nat * choice); before_rootActive : list (nat * choice); before_active : list (nat * choice);
  before_rootPoisoned : list (nat * choice); before_poisoned : list (nat * choice); before_rootAgain : list (nat * choice); before_again : list (nat * choice) }.

Definition capture (w : world) (sc : schedule) (key : bytes) (visibility : Z) : option Stamp * world :=
  let c := slot key in
  let root := revision (counters w Root) in
  let w := exec w (before_collection sc) in
  let collection := revision (counters w c) in
  let w := exec w (before_rootActive sc) in
  if negb (active (counters w Root) =? 0) then (None, w) else
  let w := exec w (before_active sc) in
  if negb (active (counters w c) =? 0) then (None, w) else
  let w := exec w (before_rootPoisoned sc) in
  if poisoned (counters w Root) then (None, w) else
  let w := exec w (before_poisoned sc) in
  if poisoned (counters w c) then (None, w) else
  let w := exec w (before_rootAgain sc) in
  if negb (root =? revision (counters w Root)) then (None, w) else
  let w := exec w (before_again sc) in
  if negb (collection =? revision (counters w c)) then (None, w) else
  (Some (mkStamp root collection visibility 0), w).
End Reader.

(** ** Writers and counters *)

Definition holds (c : cid) (p : pc) : bool :=
  match p with Idle => false | Entering d | Poisoning d _ | Live d | Leaving d => bool_decide (c = d) end.
Definition inside (c : cid) (p : pc) : bool :=
  match p with Poisoning d ThenLive | Live d => bool_decide (c = d) | _ => false end.
Definition is_poisoning (c : cid) (p : pc) : bool :=
  match p with Poisoning d _ => bool_decide (c = d) | _ => false end.

Definition count (f : pc -> bool) (l : list pc) : nat := length (List.filter f l).
Definition bit (b : bool) : nat := if b then 1%nat else 0%nat.

Lemma count_replace f l i p q : l !! i = Some p -> (count f (<[i := q]> l) + bit (f p) = count f l + bit (f q))%nat.
Proof.
  unfold count. revert i. induction l as [|x l IH]; intros [|i] H; simplify_eq/=.
  - destruct (f p), (f q); simpl; lia.
  - specialize (IH i H). destruct (f x); simpl; lia.
Qed.

Lemma count_le f l : (count f l <= length l)%nat.
Proof. unfold count. induction l as [|x l IH]; simpl; [lia|]. destruct (f x); simpl; lia. Qed.

Lemma count_mono f g l : (forall p, f p = true -> g p = true) -> (count f l <= count g l)%nat.
Proof. intros H. unfold count. induction l as [|x l IH]; simpl; [lia|]. pose proof (H x). destruct (f x), (g x); simpl; lia || naive_solver. Qed.

Lemma count_zero f l i p : count f l = 0%nat -> l !! i = Some p -> f p = false.
Proof.
  intros Hc Hi. pose proof (count_replace f l i p Idle Hi). destruct (f p) eqn:E; [|done]. simpl in *.
  assert (Hx : (count f l > 0)%nat); [|lia]. clear -Hi E. unfold count. revert i Hi. induction l as [|x l IH]; intros [|i] H; simplify_eq/=; [rewrite E; simpl; lia|].
  specialize (IH i H). destruct (f x); simpl; lia.
Qed.

(** [active] counts the writers of its counter, and a revision that has wrapped is or is about to be poisoned. *)
Record winv (w : world) : Prop := {
  inv_small : Z.of_nat (length (writers w)) < SIZE64;
  inv_active : forall c, active (counters w c) = Z.of_nat (count (holds c) (writers w));
  inv_bumps : forall c, 0 <= bumps (counters w c) /\ revision (counters w c) = bumps (counters w c) mod SIZE64;
  inv_poison : forall c, SIZE64 <= bumps (counters w c) -> poisoned (counters w c) = true \/ (0 < count (is_poisoning c) (writers w))%nat }.

Ltac writer_counts Hi q c :=
  pose proof (count_replace (holds c) _ _ _ q Hi); pose proof (count_replace (is_poisoning c) _ _ _ q Hi).

Lemma place_inv w i p q c k : winv w -> writers w !! i = Some p ->
  (forall d, d <> c -> holds d p = false /\ holds d q = false) ->
  (active k = Z.of_nat (count (holds c) (<[i := q]> (writers w)))) ->
  (0 <= bumps k /\ revision k = bumps k mod SIZE64) ->
  (SIZE64 <= bumps k -> poisoned k = true \/ (0 < count (is_poisoning c) (<[i := q]> (writers w)))%nat) ->
  winv (place w i q c k).
Proof.
  intros [I1 I2 I3 I4] Hi Hd Ha Hb Hp. split; simpl.
  - by rewrite length_insert.
  - intros d. destruct (decide (d = c)) as [->|Hne]; [by rewrite fn_lookup_insert|]. rewrite fn_lookup_insert_ne, I2 by done.
    destruct (Hd d Hne) as [E1 E2]. writer_counts Hi q d. rewrite E1, E2 in *. simpl in *. lia.
  - intros d. destruct (decide (d = c)) as [->|Hne]; [by rewrite fn_lookup_insert|]. by rewrite fn_lookup_insert_ne.
  - intros d. destruct (decide (d = c)) as [->|Hne]; [by rewrite fn_lookup_insert|]. rewrite fn_lookup_insert_ne by done. intros Hs.
    destruct (I4 d Hs) as [Hq|Hq]; [by left|right]. destruct (Hd d Hne) as [E1 E2]. writer_counts Hi q d.
    assert (F : forall x, holds d x = false -> is_poisoning d x = false) by (intros []; done). rewrite (F p E1), (F q E2) in *. simpl in *. lia.
Qed.

(** A writer's bump. *)
Lemma bump_inv w i p next c : winv w -> writers w !! i = Some p -> p = Entering c \/ p = Live c ->
  holds c next = true -> is_poisoning c next = false -> (forall d, d <> c -> holds d next = false) -> forall after,
  winv (place w i (if (fetch_bump (counters w c)).2 then Poisoning c after else next) c (fetch_bump (counters w c)).1).
Proof.
  intros I Hi Hp Hn Hpn Hnd after. pose proof I as [I1 I2 I3 I4]. destruct (I3 c) as [Hb0 Hrev]. set (wrapped := (fetch_bump (counters w c)).2).
  assert (Hhp : holds c p = true /\ is_poisoning c p = false /\ forall d, d <> c -> holds d p = false).
  { destruct Hp as [->| ->]; simpl; rewrite bool_decide_true by done; repeat split; try done; intros d Hd; by rewrite bool_decide_false by done. }
  destruct Hhp as (Hp1 & Hp2 & Hp3). set (q := if wrapped then Poisoning c after else next).
  assert (Hq : holds c q = true /\ is_poisoning c q = wrapped /\ forall d, d <> c -> holds d q = false).
  { subst q. destruct wrapped; [|done]. simpl. rewrite bool_decide_true by done. repeat split; try done. intros d Hd; by rewrite bool_decide_false. }
  destruct Hq as (Hq1 & Hq2 & Hq3). writer_counts Hi q c. rewrite Hp1, Hp2, Hq1, Hq2 in *. simpl in *.
  apply (place_inv w i p); try done.
  - intros d Hd. split; [by apply Hp3|by apply Hq3].
  - simpl. rewrite I2. lia.
  - simpl. rewrite Hrev. split; [lia|]. by rewrite Zplus_mod_idemp_l.
  - simpl. intros Hs. destruct (decide (SIZE64 <= bumps (counters w c))) as [Hl|Hl]; [destruct (I4 c Hl) as [Hpo|Hpo]; [by left|right; lia]|].
    right. assert (wrapped = true) as E; [|rewrite E in *; simpl in *; lia]. subst wrapped. simpl. rewrite Hrev, Z.mod_small by lia. lia.
Qed.

Lemma count_holds_pos w i p c : winv w -> writers w !! i = Some p -> holds c p = true -> (0 < count (holds c) (writers w))%nat.
Proof. intros _ Hi Hh. destruct (count (holds c) (writers w)) eqn:E; [|lia]. by rewrite (count_zero _ _ _ _ E Hi) in Hh. Qed.

Lemma act_inv w a : winv w -> winv (step w a).
Proof.
  destruct a as [i ch]. intros I. pose proof I as [I1 I2 I3 I4]. unfold step. destruct (writers w !! i) as [p|] eqn:Hi; [|done].
  assert (Hown : forall c d : cid, d <> c -> bool_decide (d = c) = false) by (intros; by apply bool_decide_false).
  assert (Hself : forall c : cid, bool_decide (c = c) = true) by (intros; by apply bool_decide_true).
  destruct p as [|c|c next|c|c].
  - destruct ch as [c| |]; try done. writer_counts Hi (Entering c) c. pose proof (count_le (holds c) (<[i:=Entering c]> (writers w))) as Hl. rewrite length_insert in Hl.
    simpl in *. rewrite Hself in *. simpl in *. apply (place_inv w i Idle); simpl; auto.
    + rewrite I2, Z.mod_small; lia.
    + intros Hs. destruct (I4 c Hs); [by left|right; lia].
  - apply (bump_inv w i (Entering c)); simpl; auto.
  - writer_counts Hi (match next with ThenLive => Live c | ThenLeaving => Leaving c end) c. apply (place_inv w i (Poisoning c next)); simpl; auto.
    + intros d Hd. destruct next; simpl; auto.
    + rewrite I2. destruct next; simpl in *; rewrite Hself in *; simpl in *; lia.
  - destruct ch as [c'| |]; [done|by split|]. apply (bump_inv w i (Live c)); simpl; auto.
  - pose proof (count_holds_pos w i _ c I Hi) as Hpos. writer_counts Hi Idle c. pose proof (count_le (holds c) (writers w)). simpl in *. rewrite Hself in *. simpl in *.
    apply (place_inv w i (Leaving c)); simpl; auto.
    + rewrite I2, Z.mod_small; lia.
    + intros Hs. destruct (I4 c Hs); [by left|right; lia].
Qed.

Lemma exec_inv acts w : winv w -> winv (exec w acts).
Proof. revert w. induction acts as [|a acts IH]; intros w I; [done|]. by apply IH, act_inv. Qed.

Lemma new_inv n : Z.of_nat n < SIZE64 -> winv (freshness_new n).
Proof.
  intros Hn. split; simpl.
  - by rewrite length_replicate.
  - intros c. induction n as [|n IH]; simpl; [done|]. apply IH. lia.
  - intros c. split; [lia|done].
  - intros c. unfold SIZE64. lia.
Qed.

(** ** Quiet stretches *)

Definition changes (c : cid) (w : world) : list cid := filter (fun d => d = c) (log w).

Lemma put_counter w i q c k d : counters (place w i q c k) d = if decide (d = c) then k else counters w d.
Proof. simpl. case_decide; [subst; apply fn_lookup_insert|by apply fn_lookup_insert_ne]. Qed.

Record onward (c : cid) (w w' : world) : Prop := {
  on_bumps : bumps (counters w c) <= bumps (counters w' c);
  on_poison : poisoned (counters w c) = true -> poisoned (counters w' c) = true;
  on_grows : changes c w `prefix_of` changes c w';
  on_inside : bumps (counters w' c) = bumps (counters w c) -> count (inside c) (writers w') = count (inside c) (writers w);
  on_log : bumps (counters w' c) = bumps (counters w c) -> count (inside c) (writers w) = 0%nat -> changes c w' = changes c w }.

Lemma onward_refl c w : onward c w w.
Proof. by split. Qed.

Lemma onward_put c w i p q d k : writers w !! i = Some p ->
  (c = d -> bumps (counters w c) <= bumps k /\ (poisoned (counters w c) = true -> poisoned k = true)) ->
  (c <> d \/ bumps k = bumps (counters w c) -> inside c q = inside c p) -> onward c w (place w i q d k).
Proof.
  intros Hi Hk Hin. pose proof (count_replace (inside c) _ _ _ q Hi) as Hc. split; try reflexivity; rewrite ?put_counter; case_decide as Hd; try (by apply Hk); try done; try lia; intros Hb; simpl.
  - rewrite (Hin (or_intror Hb)) in Hc. lia.
  - rewrite (Hin (or_introl Hd)) in Hc. lia.
Qed.

Lemma step_onward c w a : onward c w (step w a).
Proof.
  destruct a as [i ch]. unfold step. destruct (writers w !! i) as [p|] eqn:Hi; [|apply onward_refl].
  destruct p as [|d|d next|d|d]; [destruct ch as [d| |]| | |destruct ch as [d'| |]|]; try apply onward_refl; simpl.
  - apply (onward_put _ _ _ _ _ _ _ Hi); [intros ->; simpl; split; done || lia|done].
  - apply (onward_put _ _ _ _ _ _ _ Hi); [intros ->; simpl; split; done || lia|]. simpl. intros [Hd|Hd]; [|destruct (decide (c = d)); [subst; lia|]]; case_match; simpl; by rewrite bool_decide_false.
  - apply (onward_put _ _ _ _ _ _ _ Hi); [intros ->; simpl; split; done || lia|]. intros _. by destruct next.
  - split; simpl; try done; [unfold changes; simpl; rewrite list.filter_app; by apply prefix_app_r|]. intros _ Hz. unfold changes. simpl. rewrite list.filter_app, filter_cons_False, filter_nil, app_nil_r; [done|].
    intros ->. pose proof (count_zero _ _ _ _ Hz Hi) as E. simpl in E. by rewrite bool_decide_true in E.
  - apply (onward_put _ _ _ _ _ _ _ Hi); [intros ->; simpl; split; done || lia|]. simpl. intros [Hd|Hd]; [|destruct (decide (c = d)); [subst; lia|]]; case_match; simpl; by rewrite ?bool_decide_false.
  - apply (onward_put _ _ _ _ _ _ _ Hi); [intros ->; simpl; split; done || lia|done].
Qed.

Lemma onward_trans c w1 w2 w3 : onward c w1 w2 -> onward c w2 w3 -> onward c w1 w3.
Proof.
  intros [B1 P1 G1 I1 L1] [B2 P2 G2 I2 L2]. split.
  - lia.
  - auto.
  - by transitivity (changes c w2).
  - intros E. rewrite I2, I1 by lia. done.
  - intros E Hz. rewrite L2, L1; [done|lia|done|lia|]. rewrite I1 by lia. done.
Qed.

Lemma exec_onward c acts w : onward c w (exec w acts).
Proof. revert w. induction acts as [|a acts IH]; intros w; [apply onward_refl|]. exact (onward_trans _ _ _ _ (step_onward c w a) (IH (step w a))). Qed.

(** A counter that reads the same before and after, and idle in between: nothing changed under it. *)
Lemma quiet c w m w' : winv m -> onward c w m -> onward c m w' -> active (counters m c) = 0 -> bumps (counters w' c) = bumps (counters w c) -> changes c w' = changes c w.
Proof.
  intros I O1 O2 Ha Hb. pose proof (on_bumps _ _ _ O1). pose proof (on_bumps _ _ _ O2).
  assert (Hz : count (inside c) (writers m) = 0%nat).
  { rewrite (inv_active _ I) in Ha. pose proof (count_mono (inside c) (holds c) (writers m)) as Hm. assert (count (holds c) (writers m) = 0%nat) by lia. lapply Hm; [lia|].
    intros [| |? []| |]; done. }
  rewrite (on_log _ _ _ O2), (on_log _ _ _ O1); [done|lia| |lia|done]. rewrite <-(on_inside _ _ _ O1) by lia. done.
Qed.

(** Where the counter was seen idle and later not poisoned, it has never wrapped. *)
Lemma unwrapped c m m' : winv m -> onward c m m' -> active (counters m c) = 0 -> poisoned (counters m' c) = false -> bumps (counters m c) < SIZE64.
Proof.
  intros I O Ha Hp. destruct (decide (SIZE64 <= bumps (counters m c))) as [Hs|]; [|lia]. destruct (inv_poison _ I c Hs) as [E|E].
  - by rewrite (on_poison _ _ _ O E) in Hp.
  - rewrite (inv_active _ I) in Ha. pose proof (count_mono (is_poisoning c) (holds c) (writers m)) as Hm. lapply Hm; [lia|]. intros []; done.
Qed.

Lemma revision_exact w c : winv w -> bumps (counters w c) < SIZE64 -> revision (counters w c) = bumps (counters w c).
Proof. intros I H. destruct (inv_bumps _ I c). rewrite Z.mod_small in *; lia. Qed.

(** ** Stamps *)

(** What a stamp was read from: worlds of the capture, in the order of its loads. *)
Record seen (hash : bytes -> Z) (key : bytes) (w : world) (s : Stamp) (w2 m3 m4 p5 p6 : world) : Prop := {
  seen_root : s_root s = revision (counters w Root);
  seen_collection : s_collection s = revision (counters w2 (slot hash key));
  seen_order : forall c, onward c w w2 /\ onward c w2 m3 /\ onward c m3 m4 /\ onward c m4 p5 /\ onward c p5 p6;
  seen_inv : winv w2 /\ winv m3 /\ winv m4;
  seen_rootIdle : active (counters m3 Root) = 0;
  seen_idle : active (counters m4 (slot hash key)) = 0;
  seen_rootClean : poisoned (counters p5 Root) = false;
  seen_clean : poisoned (counters p6 (slot hash key)) = false }.

Lemma capture_seen hash w sc key v s w' : winv w -> capture hash w sc key v = (Some s, w') ->
  winv w' /\ exists m3 m4 p5 p6, seen hash key w s (exec w (before_collection sc)) m3 m4 p5 p6 /\ forall c, onward c p6 w'.
Proof.
  intros I. unfold capture. set (w2 := exec w (before_collection sc)). set (m3 := exec w2 _). case_match eqn:E3; [done|]. set (m4 := exec m3 _). case_match eqn:E4; [done|].
  set (p5 := exec m4 _). case_match eqn:E5; [done|]. set (p6 := exec p5 _). case_match eqn:E6; [done|]. set (w7 := exec p6 _). case_match; [done|]. case_match; [done|].
  intros [= <- <-]. split; [repeat apply exec_inv; done|]. exists m3, m4, p5, p6. split.
  - split; try done.
    + intros c. repeat split; apply exec_onward.
    + repeat split; repeat apply exec_inv; done.
    + apply negb_false_iff in E3. lia.
    + apply negb_false_iff in E4. lia.
  - intros c. exact (onward_trans _ _ _ _ (exec_onward _ _ _) (exec_onward _ _ _)).
Qed.

Ltac onwards := solve [eauto 12 using onward_trans, onward_refl].

(** One counter of two equal stamps. *)
Lemma same_revision c a m b n q : winv a -> winv m -> winv b -> winv n -> onward c a m -> onward c m b -> onward c b n -> onward c n q ->
  active (counters m c) = 0 -> active (counters n c) = 0 -> poisoned (counters q c) = false -> revision (counters a c) = revision (counters b c) -> changes c b = changes c a.
Proof.
  intros Ia Im Ib In O1 O2 O3 O4 Ha Hn Hp Hr. pose proof (unwrapped c n q In O4 Hn Hp) as Hu.
  pose proof (on_bumps _ _ _ O1). pose proof (on_bumps _ _ _ O2). pose proof (on_bumps _ _ _ O3). rewrite !revision_exact in Hr by (done || lia).
  by apply (quiet c a m b).
Qed.

Lemma between c a x b : onward c a x -> onward c x b -> changes c b = changes c a -> changes c b = changes c x.
Proof. intros O1 O2 E. pose proof (on_grows _ _ _ O1) as G1. pose proof (on_grows _ _ _ O2) as G2. rewrite <-E in G1. by apply (anti_symm prefix). Qed.

(** C31: a vector index is not served stale.  Any number of writers enter, change data
    and leave, their atomic steps falling anywhere between the loads of the readers;
    a reader captures a stamp, anything happens, and a capture for the same
    collection later gives a stamp that equals it, or one that the weaker test for
    sources with known visibility accepts.  Then from the moment the first capture
    read the collection's revision until the second capture began nothing was changed
    under the collection's slot nor under the root; a revision counter that wraps
    around to an old value does not fake this, at whichever of its steps a writer is
    held up. *)
Theorem equal_stamps_unchanged hash n pre key v1 v2 a b sc1 sc2 mid w1 w2 :
  Z.of_nat n < SIZE64 ->
  let w := exec (freshness_new n) pre in
  capture hash w sc1 key v1 = (Some a, w1) ->
  let w' := exec w1 mid in
  capture hash w' sc2 key v2 = (Some b, w2) ->
  stamp_eqb b a || sameSourceAtOrAfter b a = true ->
  let first := exec w (before_collection sc1) in
  changes Root w' = changes Root first /\ changes (slot hash key) w' = changes (slot hash key) first.
Proof.
  intros Hn w Ha w' Hb Heq first. assert (I : winv w) by by apply exec_inv, new_inv.
  destruct (capture_seen _ _ _ _ _ _ _ I Ha) as (I1 & m3 & m4 & p5 & p6 & Sa & Oa). pose proof (exec_inv mid w1 I1 : winv w') as I'.
  destruct (capture_seen _ _ _ _ _ _ _ I' Hb) as (_ & n3 & n4 & q5 & q6 & Sb & _). fold first in Sa. set (first' := exec w' (before_collection sc2)) in *.
  assert (Hs : s_root a = s_root b /\ s_collection a = s_collection b).
  { unfold stamp_eqb, sameSourceAtOrAfter in Heq. apply orb_true_iff in Heq as [H|H]; rewrite !andb_true_iff in H; lia. }
  destruct Hs as [Hr Hc]. destruct Sa as [A1 A2 Ao (Ai2 & Ai3 & Ai4) A3 A4 A5 A6], Sb as [B1 B2 Bo (Bi2 & Bi3 & Bi4) B3 B4 B5 B6].
  rewrite A1, B1 in Hr. rewrite A2, B2 in Hc.
  assert (Om : forall c, onward c p6 w') by (intros c; exact (onward_trans _ _ _ _ (Oa c) (exec_onward c mid w1))).
  split.
  - destruct (Ao Root) as (O1 & O2 & O3 & O4 & O5), (Bo Root) as (P1 & P2 & P3 & P4 & P5). specialize (Om Root).
    apply (between Root w); [done|onwards|]. apply (same_revision Root w m3 w' n3 q5); auto; onwards.
  - set (c := slot hash key) in *. destruct (Ao c) as (O1 & O2 & O3 & O4 & O5), (Bo c) as (P1 & P2 & P3 & P4 & P5). specialize (Om c).
    assert (E : changes c first' = changes c first) by (apply (same_revision c first m4 first' n4 q6); auto; onwards).
    rewrite <-E. symmetry. apply (between c first); [onwards|done|done].
Qed.

Definition quiet_schedule : schedule := mkSchedule [] [] [] [] [] [] [].

(** A writer that comes and goes before both captures. *)
Lemma equal_stamps_unchanged_witness :
  let pre := [(0%nat, Start Root); (0%nat, Finish); (0%nat, Change); (0%nat, Finish); (0%nat, Finish)] in
  let w := exec (freshness_new 2) pre in
  let c := capture (fun _ => 7) w quiet_schedule (str "k") 3 in
  log w = [Root] /\ c.1 = Some (mkStamp 2 0 3 0) /\ changes Root (exec c.2 [(1%nat, Start (Slot 8))]) = changes Root w.
Proof.
  split; [reflexivity|]. split; [reflexivity|].
  refine (proj1 (equal_stamps_unchanged (fun _ => 7) 2 [(0%nat, Start Root); (0%nat, Finish); (0%nat, Change); (0%nat, Finish); (0%nat, Finish)] (str "k") 3 3
    (mkStamp 2 0 3 0) (mkStamp 2 0 3 0) quiet_schedule quiet_schedule [(1%nat, Start (Slot 8))] _ _ _ _ _ _)); [simpl; unfold SIZE64; lia|vm_compute; reflexivity|vm_compute; reflexivity|reflexivity].
Defined.

(** A stamp is refused while a writer is inside, and differs once it has left. *)
Lemma writer_seen : 
  let c := capture (fun _ => 7) in
  let w0 := freshness_new 1 in
  let w1 := exec w0 [(0%nat, Start (Slot 7)); (0%nat, Finish); (0%nat, Change)] in
  let w2 := exec w1 [(0%nat, Finish); (0%nat, Finish)] in
  (c w0 quiet_schedule (str "k") 1).1 = Some (mkStamp 0 0 1 0) /\ (c w1 quiet_schedule (str "k") 1).1 = None /\ (c w2 quiet_schedule (str "k") 1).1 = Some (mkStamp 0 2 1 0).
Proof. repeat split; vm_compute; reflexivity. Qed.
