(* ===== verification/SnapshotBundle.v ===== *)
(** * Snapshot bundles (snapshot_bundle.cpp)

    One file that carries a manifest and the artifacts it lists, back to back, with
    their offsets, sizes and SHA-256 in the manifest. *)

From stdpp Require Import base list strings.
From Stdlib Require Import ZArith Lia.
From S2P Require Import Prelude Json Msgpack JsonValue Checksum.

Open Scope Z_scope.

Definition kMagic : bytes := str "PDBSNAP3".
Definition kHeaderBytes : Z := 16.
Definition kMaxBundleManifest : Z := 64 * 1024 * 1024.

Definition is_xdigit (c : byte) : bool :=
  let v := byte_val c in ((48 <=? v) && (v <=? 57)) || ((65 <=? v) && (v <=? 70)) || ((97 <=? v) && (v <=? 102)).

Definition isSha256 (value_ : bytes) : bool := (length value_ =? 64)%nat && forallb is_xdigit value_.

Record Bundle := mkBundle { manifest : json; dataOffset : Z }.

(** The library's digest of a file; [None] when it fails. *)
Class Digest := { evp_sha256 : bytes -> option bytes }.

Definition hex_of (digest : bytes) : bytes := flat_map (fun b => [hex_digit (Z.shiftr (byte_val b) 4); hex_digit (Z.land (byte_val b) 15)]) digest.

Definition sha256File `{Digest} (contents : bytes) : bytes := match evp_sha256 contents with Some d => hex_of d | None => [] end.

(** The list of artifacts of a manifest. *)
Definition files (m : json) : result (list json) :=
  if negb (is_object m) then Err "snapshot bundle manifest is malformed"
  else
    format ← value as_string m (str "snapshot_format") [];
    if negb (bytes_eqb format (str "pdb-snapshot-bundle-v3")) then Err "snapshot bundle manifest is malformed"
    else
      match json_find (str "lsm_payload") m with
      | Some (JObject payload) =>
          match obj_find (str "files") payload with
          | Some (JArray artifacts) => Ok artifacts
          | _ => Err "snapshot bundle manifest is malformed"
          end
      | _ => Err "snapshot bundle manifest is malformed"
      end.

(** The manifest with its artifacts changed in place. *)
Definition put_artifacts (m : json) (artifacts : list json) : json :=
  match json_find (str "lsm_payload") m with
  | Some payload => json_set (str "lsm_payload") (json_set (str "files") (JArray artifacts) payload) m
  | None => m
  end.

Definition isBundle (image : bytes) : bool := bytes_eqb (take 8 image) kMagic && (8 <=? length image)%nat.

Section Bundle.
Context `{JsonText} `{Digest}.

(** ** Writing *)

Definition annotate (artifact : json) (offset size : Z) (checksum : bytes) : json :=
  json_set (str "artifactSha256") (JString checksum)
    (json_set (str "artifactBytes") (JUInt size)
      (json_set (str "artifactOffset") (JUInt offset)
        (json_set (str "contentEncoding") (JString (str "raw")) (json_erase (str "content") artifact)))).

(** [sources]: the contents of each file, [None] when it is not a regular file. *)
Fixpoint annotate_all (artifacts : list json) (sources : list (option bytes)) (offset : Z) : result (list json * list bytes) :=
  match artifacts, sources with
  | [], [] => Ok ([], [])
  | a :: artifacts, s :: sources =>
      match s with
      | None => Err "snapshot artifact source is not a regular file"
      | Some contents =>
          if U64_MAX - offset <? blen contents then Err "snapshot artifact size overflows bundle"
          else
            let checksum := sha256File contents in
            if negb (isSha256 checksum) then Err "cannot checksum snapshot artifact"
            else if negb (is_object a) then Err "type_error.307"
            else
              r ← annotate_all artifacts sources (offset + blen contents);
              Ok (annotate a offset (blen contents) checksum :: r.1, contents :: r.2)
      end
  | _, _ => Err "snapshot artifact source count does not match manifest"
  end.

Definition write (m : json) (sources : list (option bytes)) : result bytes :=
  artifacts ← files m;
  if negb (length artifacts =? length sources)%nat then Err "snapshot artifact source count does not match manifest"
  else
    r ← annotate_all artifacts sources 0;
    let m := json_erase (str "snapshot_checksum") (put_artifacts m r.1) in
    checksumInput ← or_err (json_dump m) "type_error.316";
    let m := json_set (str "snapshot_checksum") (JString (sha256 checksumInput)) m in
    encoded ← or_err (json_dump m) "type_error.316";
    if (length encoded =? 0)%nat || (kMaxBundleManifest <? blen encoded) then Err "snapshot bundle manifest is too large"
    else Ok (kMagic ++ le_bytes 8 (blen encoded) ++ encoded ++ concat r.2).

(** ** Reading *)

(** The checks of one artifact's metadata; the size it declares. *)
Definition check_artifact (artifact : json) (expectedOffset : Z) : result Z :=
  match json_find (str "artifactOffset") artifact, json_find (str "artifactBytes") artifact, json_find (str "artifactSha256") artifact with
  | Some (JUInt offset), Some (JUInt size), Some (JString sha) =>
      encoding ← value as_string artifact (str "contentEncoding") [];
      if negb (bytes_eqb encoding (str "raw")) || match json_find (str "content") artifact with Some _ => true | None => false end
      then Err "snapshot bundle artifact metadata is malformed"
      else if negb (offset =? expectedOffset) || (U64_MAX - offset <? size) || negb (isSha256 sha) then Err "snapshot bundle artifact range is invalid"
      else Ok size
  | _, _, _ => Err "snapshot bundle artifact metadata is malformed"
  end.

Fixpoint check_artifacts (artifacts : list json) (expectedOffset : Z) : result Z :=
  match artifacts with
  | [] => Ok expectedOffset
  | a :: rest => size ← check_artifact a expectedOffset; check_artifacts rest (expectedOffset + size)
  end.

Definition read (image : bytes) : result Bundle :=
  if negb (isBundle image) then Err "snapshot bundle magic is invalid"
  else
    let rest := drop 8 image in
    match read_le 8 rest with
    | None => Err "snapshot bundle header is truncated"
    | Some (manifestBytes, rest) =>
        if (manifestBytes =? 0) || (kMaxBundleManifest <? manifestBytes) then Err "snapshot bundle manifest size is invalid"
        else
          let fileBytes := blen image in
          if fileBytes - Z.min fileBytes kHeaderBytes <? manifestBytes then Err "snapshot bundle manifest is truncated"
          else
            encoded ← or_err (fst <$> take_bytes (Z.to_nat manifestBytes) rest) "snapshot bundle manifest is truncated";
            m ← or_err (json_parse encoded) "parse_error";
            let offset := kHeaderBytes + manifestBytes in
            artifacts ← files m;
            expectedOffset ← check_artifacts artifacts 0;
            if (fileBytes <? offset) || negb (expectedOffset =? fileBytes - offset) then Err "snapshot bundle data length is invalid"
            else Ok (mkBundle m offset)
    end.

Definition STREAM_MAX : Z := 2 ^ 63 - 1.

(** [opened] tells whether both files could be opened, [written] whether the target took the bytes. *)
Definition extract (image : bytes) (bundle : Bundle) (artifactIndex : nat) (opened written : bool) : result bytes :=
  artifacts ← files (manifest bundle);
  match artifacts !! artifactIndex with
  | None => Err "snapshot artifact index is invalid"
  | Some artifact =>
      offset ← or_err (json_find (str "artifactOffset") artifact ≫= as_u64) "type_error.302";
      size ← or_err (json_find (str "artifactBytes") artifact ≫= as_u64) "type_error.302";
      if (STREAM_MAX <? offset) || (STREAM_MAX - offset <? dataOffset bundle) then Err "snapshot artifact offset exceeds stream limits"
      else if negb opened then Err "cannot open snapshot artifact"
      else
        data ← or_err (fst <$> take_bytes (Z.to_nat size) (drop (Z.to_nat (dataOffset bundle + offset)) image)) "snapshot artifact is truncated";
        if negb written then Err "cannot write snapshot artifact"
        else
          sha ← or_err (json_find (str "artifactSha256") artifact ≫= as_string) "type_error.302";
          if negb (bytes_eqb (sha256File data) sha) then Err "snapshot artifact checksum mismatch"
          else Ok data
  end.

(** ** What was written is read *)

Lemma set_find k v k' m : json_find k' (json_set k v (JObject m)) = if bytes_eqb k k' then Some v else obj_find k' m.
Proof.
  cbn. destruct (bytes_eqb k k') eqn:E; [apply bytes_eqb_eq in E as ->; apply obj_find_insert_eq|]. apply bytes_eqb_neq in E. by apply obj_find_insert_ne.
Qed.

Lemma annotate_fields m offset size checksum :
  let a := annotate (JObject m) offset size checksum in
  is_object a = true /\ json_find (str "artifactOffset") a = Some (JUInt offset) /\ json_find (str "artifactBytes") a = Some (JUInt size) /\
  json_find (str "artifactSha256") a = Some (JString checksum) /\ value as_string a (str "contentEncoding") [] = Ok (str "raw") /\ json_find (str "content") a = None.
Proof.
  unfold annotate, json_erase, json_set. cbn [is_object json_find value]. repeat split.
  - rewrite obj_find_insert_ne, obj_find_insert_ne, obj_find_insert_eq by (vm_compute; discriminate). done.
  - rewrite obj_find_insert_ne, obj_find_insert_eq by (vm_compute; discriminate). done.
  - by rewrite obj_find_insert_eq.
  - rewrite obj_find_insert_ne, obj_find_insert_ne, obj_find_insert_ne, obj_find_insert_eq by (vm_compute; discriminate). done.
  - rewrite obj_find_insert_ne, obj_find_insert_ne, obj_find_insert_ne, obj_find_insert_ne, obj_find_erase_eq by (vm_compute; discriminate). done.
Qed.

Lemma blen_cons_app (c r : bytes) : blen (c ++ r) = blen c + blen r.
Proof. unfold blen. rewrite length_app. lia. Qed.

Lemma blen_nonneg (c : bytes) : 0 <= blen c.
Proof. unfold blen. lia. Qed.

Lemma annotate_all_written artifacts sources offset arts contents : 0 <= offset <= U64_MAX -> annotate_all artifacts sources offset = Ok (arts, contents) ->
  sources = map Some contents /\ length arts = length contents /\ offset + blen (concat contents) <= U64_MAX /\ check_artifacts arts offset = Ok (offset + blen (concat contents)) /\
  forall i c, contents !! i = Some c -> exists a, arts !! i = Some a /\
    json_find (str "artifactOffset") a = Some (JUInt (offset + blen (concat (take i contents)))) /\ json_find (str "artifactBytes") a = Some (JUInt (blen c)) /\
    json_find (str "artifactSha256") a = Some (JString (sha256File c)).
Proof.
  revert sources offset arts contents. induction artifacts as [|a artifacts IH]; intros [|[c|] sources] offset arts contents Ho E; simpl in E; try done.
  { injection E as <- <-. simpl. rewrite Z.add_0_r. repeat split; try done; lia. }
  destruct (U64_MAX - offset <? blen c) eqn:Eo; [done|]. destruct (isSha256 (sha256File c)) eqn:Es; [|done]. destruct (is_object a) eqn:Ea; [|done]. simpl in E.
  apply bind_Ok in E as ([arts' contents'] & E & E'). injection E' as <- <-. simpl. pose proof (blen_nonneg c). apply Z.ltb_ge in Eo.
  destruct (IH sources (offset + blen c) arts' contents') as (-> & Hl & Hle & Hc & Hi); [lia|done|]. rewrite blen_cons_app. destruct a as [| | | | | | | |m]; try done.
  destruct (annotate_fields m offset (blen c) (sha256File c)) as (A0 & A1 & A2 & A3 & A4 & A5).
  split; [done|]. split; [simpl; lia|]. split; [lia|]. split.
  - unfold check_artifact. rewrite A1, A2, A3, A4, A5. simpl. rewrite Z.eqb_refl, Es, (proj2 (Z.ltb_ge _ _)) by lia. simpl. rewrite Hc. f_equal. lia.
  - intros [|i] c' Hi'; simpl in Hi'.
    + injection Hi' as <-. eexists. split; [reflexivity|]. simpl. rewrite Z.add_0_r. done.
    + destruct (Hi i c' Hi') as (a' & Ha' & B1 & B2 & B3). exists a'. split; [done|]. split; [|done]. rewrite B1. simpl. rewrite blen_cons_app. do 2 f_equal. lia.
Qed.

(** The manifest that ends up in the file lists the annotated artifacts. *)
Lemma files_final m artifacts arts checksum : files m = Ok artifacts ->
  files (json_set (str "snapshot_checksum") (JString checksum) (json_erase (str "snapshot_checksum") (put_artifacts m arts))) = Ok arts.
Proof.
  unfold files, put_artifacts. destruct m as [| | | | | | | |o]; try done. simpl. destruct (obj_find (str "snapshot_format") o) as [f|] eqn:Ef; [|done].
  destruct (as_string f) as [format|] eqn:Es; [|done]. simpl. destruct (bytes_eqb format _) eqn:Eb; [|done]. simpl. destruct (obj_find (str "lsm_payload") o) as [[| | | | | | | |p]|] eqn:Ep; try done. intros _. simpl.
  assert (N1 : str "snapshot_checksum" <> str "snapshot_format") by (vm_compute; discriminate). assert (N2 : str "lsm_payload" <> str "snapshot_format") by (vm_compute; discriminate).
  assert (N3 : str "snapshot_checksum" <> str "lsm_payload") by (vm_compute; discriminate).
  rewrite (obj_find_insert_ne _ _ _ _ N1), (obj_find_erase_ne _ _ _ N1), (obj_find_insert_ne _ _ _ _ N2), Ef, Es. simpl. rewrite Eb. simpl.
  rewrite (obj_find_insert_ne _ _ _ _ N3), (obj_find_erase_ne _ _ _ N3), obj_find_insert_eq. by rewrite obj_find_insert_eq.
Qed.

(** The manifest [write] stores. *)
Definition stored_manifest (m : json) (sources : list (option bytes)) : option json :=
  match files m with
  | Ok artifacts =>
      match annotate_all artifacts sources 0 with
      | Ok (arts, _) =>
          let m := json_erase (str "snapshot_checksum") (put_artifacts m arts) in
          checksumInput ← json_dump m; Some (json_set (str "snapshot_checksum") (JString (sha256 checksumInput)) m)
      | Err _ => None
      end
  | Err _ => None
  end.

Lemma write_layout m sources image : write m sources = Ok image ->
  exists m' encoded contents arts, stored_manifest m sources = Some m' /\ json_dump m' = Some encoded /\ 0 < blen encoded <= kMaxBundleManifest /\ sources = map Some contents /\
    image = kMagic ++ le_bytes 8 (blen encoded) ++ encoded ++ concat contents /\ files m' = Ok arts /\ length arts = length contents /\ check_artifacts arts 0 = Ok (blen (concat contents)) /\
    forall i c, contents !! i = Some c -> exists a, arts !! i = Some a /\
      json_find (str "artifactOffset") a = Some (JUInt (blen (concat (take i contents)))) /\ json_find (str "artifactBytes") a = Some (JUInt (blen c)) /\ json_find (str "artifactSha256") a = Some (JString (sha256File c)).
Proof.
  unfold write, stored_manifest. intros E. apply bind_Ok in E as (artifacts & Ef & E). case_match; [done|]. apply bind_Ok in E as ([arts contents] & Ea & E). apply bind_Ok in E as (ci & Ec & E). apply bind_Ok in E as (encoded & Ee & E).
  apply or_err_Ok in Ec, Ee. cbn [fst snd] in *. destruct ((length encoded =? 0)%nat || _) eqn:El; [done|]. injection E as <-. rewrite Ef, Ea, Ec. simpl. apply orb_false_iff in El as [El1 El2]. apply Nat.eqb_neq in El1.
  destruct (annotate_all_written artifacts sources 0 arts contents) as (Hs & Hl & Hle & Hc & Hi); [unfold U64_MAX; lia|done|].
  eexists _, encoded, contents, arts. split; [reflexivity|]. split; [done|]. split; [unfold blen in *; lia|]. split; [done|]. split; [done|]. split; [by eapply files_final|]. done.
Qed.

Lemma magic_length : length kMagic = 8%nat.
Proof. reflexivity. Qed.

Lemma isBundle_magic t : isBundle (kMagic ++ t) = true.
Proof. unfold isBundle. rewrite take_app_length' by apply magic_length. rewrite bytes_eqb_refl, length_app, magic_length. reflexivity. Qed.

(** The header and the manifest are there: what the data says decides. *)
Lemma read_layout encoded data m' arts total : 0 < blen encoded <= kMaxBundleManifest -> json_parse encoded = Some m' -> files m' = Ok arts -> check_artifacts arts 0 = Ok total ->
  read (kMagic ++ le_bytes 8 (blen encoded) ++ encoded ++ data) =
    if total =? blen data then Ok (mkBundle m' (kHeaderBytes + blen encoded)) else Err "snapshot bundle data length is invalid".
Proof.
  intros He Hp Hf Hc. unfold read. rewrite isBundle_magic. cbn [negb].
  rewrite drop_app_length' by apply magic_length. assert (Hs : blen encoded < 2 ^ 64) by (unfold kMaxBundleManifest in He; lia). rewrite read_le_app by lia.
  assert (Hlen : blen (kMagic ++ le_bytes 8 (blen encoded) ++ encoded ++ data) = kHeaderBytes + blen encoded + blen data).
  { rewrite !blen_cons_app. unfold blen at 1 2. rewrite magic_length, le_bytes_length. unfold kHeaderBytes. lia. }
  rewrite Hlen. pose proof (blen_nonneg data). rewrite (proj2 (Z.eqb_neq (blen encoded) 0)), (proj2 (Z.ltb_ge kMaxBundleManifest (blen encoded))) by lia. cbn [orb].
  rewrite (proj2 (Z.ltb_ge _ (blen encoded))) by (unfold kHeaderBytes in *; lia). replace (Z.to_nat (blen encoded)) with (length encoded) by (unfold blen; lia). rewrite take_bytes_app by done. simpl. rewrite Hp. simpl. rewrite Hf. simpl. rewrite Hc. simpl.
  rewrite (proj2 (Z.ltb_ge (kHeaderBytes + blen encoded + blen data) (kHeaderBytes + blen encoded))) by lia. simpl. replace (kHeaderBytes + blen encoded + blen data - (kHeaderBytes + blen encoded)) with (blen data) by lia. by destruct (total =? blen data).
Qed.

(** Cut in the header or in the manifest. *)
Lemma read_cut encoded data n : 0 < blen encoded <= kMaxBundleManifest -> (n < 16 + length encoded)%nat ->
  exists e, read (take n (kMagic ++ le_bytes 8 (blen encoded) ++ encoded ++ data)) = Err e.
Proof.
  intros He Hn. unfold read. destruct (decide (n < 8)%nat) as [H8|H8].
  { eexists. unfold isBundle. rewrite length_take. rewrite (proj2 (Nat.leb_gt 8 (Nat.min n (length (kMagic ++ le_bytes 8 (blen encoded) ++ encoded ++ data))))) by lia. rewrite andb_false_r. reflexivity. }
  set (image := kMagic ++ _). assert (Ht : take n image = kMagic ++ take (n - 8) (le_bytes 8 (blen encoded) ++ encoded ++ data)).
  { subst image. rewrite take_app, magic_length, take_ge by (rewrite magic_length; lia). done. }
  rewrite Ht, isBundle_magic. cbn [negb]. rewrite drop_app_length' by apply magic_length.
  destruct (read_le 8 _) as [[mb rest]|] eqn:Er; [|by eexists]. destruct (decide (n < 16)%nat) as [H16|H16].
  { exfalso. apply read_le_Some in Er as (h & Hh & Hl & _). apply (f_equal length) in Hh. rewrite length_app, length_take in Hh. lia. }
  rewrite take_app, le_bytes_length, take_ge in Er by (rewrite le_bytes_length; lia). assert (Hs : blen encoded < 2 ^ 64) by (unfold kMaxBundleManifest in He; lia). rewrite read_le_app in Er by lia. injection Er as <- <-.
  case_match; [by eexists|]. case_match eqn:Eb; [by eexists|]. exfalso. apply Z.ltb_ge in Eb. rewrite blen_cons_app in Eb. unfold blen in Eb. rewrite magic_length, length_take, !length_app, le_bytes_length in Eb. unfold kHeaderBytes, blen in *. lia.
Qed.

Lemma concat_part (contents : list bytes) i c : contents !! i = Some c -> exists tail, drop (Z.to_nat (blen (concat (take i contents)))) (concat contents) = c ++ tail.
Proof.
  intros Hi. exists (concat (drop (S i) contents)). rewrite <-(take_drop_middle contents i c Hi) at 2. rewrite concat_app. rewrite drop_app_length' by (unfold blen; lia). done.
Qed.

(** One artifact, at its place. *)
Lemma extract_written encoded contents m' arts i c : 0 < blen encoded -> files m' = Ok arts -> contents !! i = Some c ->
  (exists a, arts !! i = Some a /\ json_find (str "artifactOffset") a = Some (JUInt (blen (concat (take i contents)))) /\ json_find (str "artifactBytes") a = Some (JUInt (blen c)) /\
    json_find (str "artifactSha256") a = Some (JString (sha256File c))) ->
  let image := kMagic ++ le_bytes 8 (blen encoded) ++ encoded ++ concat contents in
  blen image <= STREAM_MAX ->
  extract image (mkBundle m' (kHeaderBytes + blen encoded)) i true true = Ok c.
Proof.
  intros He Hf Hi (a & Ha & A1 & A2 & A3) image Hmax. unfold extract. cbn [manifest dataOffset]. rewrite Hf. simpl. rewrite Ha, A1, A2, A3. simpl.
  destruct (concat_part contents i c Hi) as [tail Ht]. pose proof (blen_nonneg c) as Hc0. pose proof (blen_nonneg (concat (take i contents))) as Hp0.
  assert (Htot : blen (concat (take i contents)) + blen c <= blen (concat contents)).
  { apply (f_equal length) in Ht. rewrite length_drop, length_app in Ht. assert (Hle : (length (concat (take i contents)) <= length (concat contents))%nat) by (rewrite <-(take_drop i contents) at 2; rewrite concat_app, length_app; lia). unfold blen in *. lia. }
  assert (Himg : blen image = kHeaderBytes + blen encoded + blen (concat contents)).
  { subst image. rewrite !blen_cons_app. unfold blen at 1 2. rewrite magic_length, le_bytes_length. unfold kHeaderBytes. lia. }
  unfold STREAM_MAX, kHeaderBytes in *. unfold u64. rewrite (Z.mod_small (blen (concat (take i contents)))), (Z.mod_small (blen c)) by lia.
  rewrite (proj2 (Z.ltb_ge _ _)), (proj2 (Z.ltb_ge _ _)) by lia. simpl.
  assert (Hd : drop (Z.to_nat (16 + blen encoded + blen (concat (take i contents)))) image = c ++ tail).
  { rewrite <-Ht. subst image. rewrite (app_assoc kMagic), (app_assoc (kMagic ++ _)). replace (Z.to_nat _) with (length ((kMagic ++ le_bytes 8 (blen encoded)) ++ encoded) + Z.to_nat (blen (concat (take i contents))))%nat.
    - by rewrite drop_app_add.
    - rewrite !length_app, magic_length, le_bytes_length. unfold blen in *. lia. }
  rewrite Hd. replace (Z.to_nat (blen c)) with (length c) by (unfold blen; lia). rewrite take_bytes_app by done. simpl. by rewrite bytes_eqb_refl.
Qed.

(** C36: a snapshot bundle gives back what went into it, and nothing else passes for it.
    When [write] accepts a manifest and its files, and the text of the manifest it
    stores parses to it again, [read] accepts the bundle with that manifest, every
    artifact is extracted byte for byte and an index past the last is refused.  The
    bundle cut short at any point, in the header, the manifest or the data, is refused
    by [read], and so is one with anything appended. *)
Theorem bundle_roundtrip m sources image m' :
  write m sources = Ok image -> stored_manifest m sources = Some m' -> (forall t, json_dump m' = Some t -> json_parse t = Some m') -> blen image <= STREAM_MAX ->
  exists bundle, read image = Ok bundle /\ manifest bundle = m' /\
    (forall i c, sources !! i = Some (Some c) -> extract image bundle i true true = Ok c) /\
    (forall i opened written, (length sources <= i)%nat -> extract image bundle i opened written = Err "snapshot artifact index is invalid") /\
    (forall n, (n < length image)%nat -> exists e, read (take n image) = Err e) /\
    (forall junk, junk <> [] -> exists e, read (image ++ junk) = Err e).
Proof.
  intros Hw Hm Hparse Hmax. destruct (write_layout m sources image Hw) as (m1 & encoded & contents & arts & Hm1 & Hdump & He & Hs & Hi & Hf & Hl & Hc & Hget). rewrite Hm in Hm1. injection Hm1 as <-.
  specialize (Hparse encoded Hdump). pose proof (fun data => read_layout encoded data m' arts _ He Hparse Hf Hc) as Hread. exists (mkBundle m' (kHeaderBytes + blen encoded)).
  assert (Hassoc : forall data, kMagic ++ le_bytes 8 (blen encoded) ++ encoded ++ data = (kMagic ++ le_bytes 8 (blen encoded) ++ encoded) ++ data) by (intros; by rewrite <-!app_assoc).
  repeat split.
  - by rewrite Hi, Hread, Z.eqb_refl.
  - intros i c Hic. rewrite Hs in Hic. apply list_lookup_fmap_Some in Hic as (c' & [= <-] & Hic). rewrite Hi in *. apply (extract_written encoded contents m' arts i c); try done; [lia|]. by apply Hget.
  - intros i opened written Hge. unfold extract. cbn [manifest]. rewrite Hf. simpl. rewrite (proj2 (lookup_ge_None arts i)); [done|]. rewrite Hl. rewrite Hs, length_map in Hge. done.
  - intros n Hn. rewrite Hi in *. destruct (decide (n < 16 + length encoded)%nat) as [Hc16|Hc16]; [by apply read_cut|].
    assert (Hpre : length (kMagic ++ le_bytes 8 (blen encoded) ++ encoded) = (16 + length encoded)%nat) by (rewrite !length_app, magic_length, le_bytes_length; lia).
    rewrite Hassoc in Hn |- *. rewrite length_app, Hpre in Hn. rewrite take_app, take_ge by lia. rewrite <-Hassoc, Hread. rewrite (proj2 (Z.eqb_neq _ _)); [by eexists|]. rewrite Hpre. unfold blen. rewrite length_take. lia.
  - intros junk Hj. rewrite Hi, <-!app_assoc, Hread. rewrite (proj2 (Z.eqb_neq _ _)); [by eexists|]. rewrite blen_cons_app. destruct junk; [done|]. unfold blen. simpl. lia.
Qed.
End Bundle.

(** ** A bundle of two files *)

Definition msgpack_text : JsonText := {| json_dump := fun v => Some (to_msgpack v); json_parse := from_msgpack |}.
Definition sample_digest : Digest := {| evp_sha256 := fun b => Some (le_bytes 32 (le_value b)) |}.

Definition sample_bundle_manifest : json :=
  JObject [(str "lsm_payload", JObject [(str "files", JArray [JObject [(str "path", JString (str "a.sst"))]; JObject [(str "content", JString []); (str "path", JString (str "b.sst"))]])]);
           (str "snapshot_checksum", JString (str "old")); (str "snapshot_format", JString (str "pdb-snapshot-bundle-v3"))].

Lemma bundle_roundtrip_witness : exists image bundle,
  write (H := msgpack_text) (H0 := sample_digest) sample_bundle_manifest [Some (str "first"); Some []] = Ok image /\
  read (H := msgpack_text) image = Ok bundle /\ extract (H0 := sample_digest) image bundle 0 true true = Ok (str "first").
Proof.
  destruct (write (H := msgpack_text) (H0 := sample_digest) sample_bundle_manifest [Some (str "first"); Some []]) as [image|e] eqn:Ew; [|vm_compute in Ew; discriminate].
  destruct (stored_manifest (H := msgpack_text) (H0 := sample_digest) sample_bundle_manifest [Some (str "first"); Some []]) as [m'|] eqn:Em; [|vm_compute in Em; discriminate].
  destruct (bundle_roundtrip (H := msgpack_text) (H0 := sample_digest) sample_bundle_manifest [Some (str "first"); Some []] image m') as (bundle & R & _ & X & _); [exact Ew|exact Em| | |].
  - intros t Ht. cbn in Ht. injection Ht as <-. vm_compute in Em. injection Em as <-. vm_compute. reflexivity.
  - vm_compute in Ew. injection Ew as <-. vm_compute. discriminate.
  - exists image, bundle. split; [reflexivity|]. split; [exact R|]. apply X. reflexivity.
Defined.
