(* ===== verification/Sharding.v ===== *)
(** * The shard map (shard_manager.cpp)

    [ShardManager] keeps the ranges of keys and the nodes that serve them: a
    [std::map] from start keys to [ShardInfo], the registered nodes, and the file
    the map is written to after every change.  An operation is a function of the
    manager; the functions that persist also take what the file system answers. *)

From stdpp Require Import base list gmap strings sorting.
From Stdlib Require Import ZArith Lia SpecFloat.
From S2P Require Import Prelude Json JsonValue Msgpack Decimal Float64 JsonCompare.

Open Scope Z_scope.

(** ** [std::map] with string keys

    The in-order contents of a [std::map<std::string, V>]: iteration is the list
    itself, [m[k] = v] and [m.erase(k)] keep it sorted by key. *)

Section StdMap.
Context {V : Type}.

Definition std_map := list (bytes * V).

Fixpoint sm_find (k : bytes) (m : std_map) : option V :=
  match m with
  | [] => None
  | (k', v) :: r => if bytes_eqb k' k then Some v else sm_find k r
  end.

(** [m[k] = v]: overwrite, or insert at the key's place in the order. *)
Fixpoint sm_set (k : bytes) (v : V) (m : std_map) : std_map :=
  match m with
  | [] => [(k, v)]
  | (k', v') :: r =>
      match bytes_compare k k' with
      | Lt => (k, v) :: m
      | Eq => (k, v) :: r
      | Gt => (k', v') :: sm_set k v r
      end
  end.

Fixpoint sm_erase (k : bytes) (m : std_map) : std_map :=
  match m with
  | [] => []
  | (k', v) :: r => if bytes_eqb k' k then r else (k', v) :: sm_erase k r
  end.

Definition sm_sorted (m : std_map) : Prop := StronglySorted bytes_lt (map fst m).

Lemma bytes_lt_gt a b : bytes_lt a b -> bytes_compare b a = Gt.
Proof. intros H. rewrite bytes_compare_antisym, H. reflexivity. Qed.

Lemma sm_sorted_app l1 l2 : sm_sorted (l1 ++ l2) <->
  sm_sorted l1 /\ sm_sorted l2 /\ forall a b, a ∈ l1 -> b ∈ l2 -> bytes_lt a.1 b.1.
Proof.
  unfold sm_sorted. rewrite map_app. induction l1 as [|[k v] l1 IH]; simpl.
  - split; [intros H; split_and!; [constructor|done|intros ??[]%not_elem_of_nil] | tauto].
  - rewrite !StronglySorted_cons, IH, Forall_app. split.
    + intros [[H1 H2] (H3 & H4 & H5)]. split_and!; auto. intros a b [->|Ha]%elem_of_cons Hb; [|eauto].
      rewrite Forall_forall in H2. apply H2. apply list_elem_of_fmap. eauto.
    + intros ([H1 H2] & H3 & H4). split_and!; auto.
      * apply Forall_forall. intros x (b & -> & Hb)%list_elem_of_fmap. apply (H4 (k, v) b); [left|done].
      * intros a b Ha Hb. apply H4; [by right|done].
Qed.

(** An entry of a sorted map, overwritten, erased, or followed by a new one. *)
Lemma sm_set_at l1 k v w l2 : sm_sorted (l1 ++ (k, v) :: l2) -> sm_set k w (l1 ++ (k, v) :: l2) = l1 ++ (k, w) :: l2.
Proof.
  intros H. induction l1 as [|[a x] l1 IH]; simpl; [by rewrite bytes_compare_refl|].
  assert (Ha : bytes_lt a k).
  { apply (proj1 (sm_sorted_app [(a, x)] (l1 ++ (k, v) :: l2))) in H as (_ & _ & H). apply (H (a, x) (k, v)); [by left|]. apply elem_of_app. right. left. }
  rewrite (bytes_lt_gt _ _ Ha). f_equal. apply IH. apply (StronglySorted_cons) in H as [_ H]. exact H.
Qed.

Lemma sm_set_between l1 k w l2 : (forall a, a ∈ l1 -> bytes_lt a.1 k) -> (forall b, b ∈ l2 -> bytes_lt k b.1) ->
  sm_set k w (l1 ++ l2) = l1 ++ (k, w) :: l2.
Proof.
  intros H1 H2. induction l1 as [|[a x] l1 IH]; simpl.
  - destruct l2 as [|[b y] l2]; [done|]. simpl. pose proof (H2 (b, y) ltac:(left)) as Hb. unfold bytes_lt in Hb. simpl in Hb. by rewrite Hb.
  - rewrite (bytes_lt_gt a k) by (apply (H1 (a, x)); left). f_equal. apply IH. intros b Hb. apply H1. by right.
Qed.

Lemma sm_sorted_fresh l1 k v l2 : sm_sorted (l1 ++ (k, v) :: l2) ->
  (forall a, a ∈ l1 -> bytes_lt a.1 k) /\ (forall b, b ∈ l2 -> bytes_lt k b.1).
Proof.
  intros (H1 & H2 & H3)%sm_sorted_app. split; [intros a Ha; apply (H3 a (k, v)); [done|left]|].
  intros b Hb. apply StronglySorted_cons in H2 as [H2 _]. rewrite Forall_forall in H2. apply H2. apply list_elem_of_fmap. eauto.
Qed.

Lemma sm_erase_at l1 k v l2 : sm_sorted (l1 ++ (k, v) :: l2) -> sm_erase k (l1 ++ (k, v) :: l2) = l1 ++ l2.
Proof.
  intros H. apply sm_sorted_fresh in H as [H _]. induction l1 as [|[a x] l1 IH]; simpl; [by rewrite bytes_eqb_refl|].
  assert (Ha : bytes_lt a k) by (apply (H (a, x)); left).
  destruct (bytes_eqb a k) eqn:E; [apply bytes_eqb_eq in E as ->; destruct (bytes_lt_irrefl k Ha)|].
  f_equal. apply IH. intros b Hb. apply H. by right.
Qed.

Lemma sm_find_at l1 k v l2 : sm_sorted (l1 ++ (k, v) :: l2) -> sm_find k (l1 ++ (k, v) :: l2) = Some v.
Proof.
  intros H. apply sm_sorted_fresh in H as [H _]. induction l1 as [|[a x] l1 IH]; simpl; [by rewrite bytes_eqb_refl|].
  assert (Ha : bytes_lt a k) by (apply (H (a, x)); left).
  destruct (bytes_eqb a k) eqn:E; [apply bytes_eqb_eq in E as ->; destruct (bytes_lt_irrefl k Ha)|].
  apply IH. intros b Hb. apply H. by right.
Qed.

(** Where a set key lands. *)
Lemma sm_set_elem k w m e : e ∈ sm_set k w m -> e = (k, w) \/ (e ∈ m).
Proof.
  induction m as [|[a x] m IH]; simpl; [intros ?%list_elem_of_singleton; auto|].
  destruct (bytes_compare k a); rewrite !elem_of_cons; [tauto|tauto|]. intros [->|H]; [tauto|]. apply IH in H. tauto.
Qed.

Lemma sm_set_sorted k w m : sm_sorted m -> sm_sorted (sm_set k w m).
Proof.
  unfold sm_sorted. induction m as [|[a x] m IH]; simpl; [repeat constructor|].
  intros [Ha Hs]%StronglySorted_cons. destruct (bytes_compare k a) eqn:E; simpl; apply StronglySorted_cons.
  - apply bytes_compare_eq in E as ->. auto.
  - split; [|by apply StronglySorted_cons]. constructor; [exact E|]. eapply Forall_impl; [exact Ha|]. intros y Hy. exact (bytes_lt_trans k a y E Hy).
  - split; [|auto]. apply Forall_forall. intros y (e & -> & He)%list_elem_of_fmap. apply sm_set_elem in He as [->|He].
    + simpl. unfold bytes_lt. rewrite bytes_compare_antisym, E. done.
    + rewrite Forall_forall in Ha. apply Ha. apply list_elem_of_fmap. eauto.
Qed.

End StdMap.

Arguments std_map : clear implicits.

(** ** Shards and nodes *)

Inductive ShardStatus := ACTIVE | MIGRATING | SPLITTING | DRAINING | OFFLINE | INITIALIZING | STATUS_CODE (code : Z).

Definition status_code (s : ShardStatus) : Z :=
  match s with ACTIVE => 0 | MIGRATING => 1 | SPLITTING => 2 | DRAINING => 3 | OFFLINE => 4 | INITIALIZING => 5 | STATUS_CODE c => c end.

(** [static_cast<Status>(int)], also of values that name no status. *)
Definition status_of (c : Z) : ShardStatus :=
  if c =? 0 then ACTIVE else if c =? 1 then MIGRATING else if c =? 2 then SPLITTING else if c =? 3 then DRAINING
  else if c =? 4 then OFFLINE else if c =? 5 then INITIALIZING else STATUS_CODE c.

Record ShardInfo := mkShard {
  shardId : bytes; startKey : bytes; endKey : bytes; primaryHost : bytes; replicas : list bytes; status : ShardStatus;
  documentCount : Z; sizeBytes : Z; loadFactor : double; avgLatencyMs : double;
  totalOperations : Z; totalReads : Z; totalWrites : Z; totalErrors : Z; si_isHealthy : bool }.

Definition dzero : double := S754_zero false.

(** A shard with the members that are set, the others as initialised. *)
Definition new_shard (id lo hi host : bytes) (reps : list bytes) : ShardInfo :=
  mkShard id lo hi host reps ACTIVE 0 0 dzero dzero 0 0 0 0 true.

Definition containsKey (s : ShardInfo) (key : bytes) : bool :=
  bytes_leb (startKey s) key && (bytes_eqb (endKey s) [] || bytes_ltb key (endKey s)).

Definition set_range (s : ShardInfo) (lo hi : bytes) : ShardInfo :=
  mkShard (shardId s) lo hi (primaryHost s) (replicas s) (status s) (documentCount s) (sizeBytes s) (loadFactor s) (avgLatencyMs s)
    (totalOperations s) (totalReads s) (totalWrites s) (totalErrors s) (si_isHealthy s).
Definition set_primary (s : ShardInfo) (host : bytes) (st : ShardStatus) : ShardInfo :=
  mkShard (shardId s) (startKey s) (endKey s) host (replicas s) st (documentCount s) (sizeBytes s) (loadFactor s) (avgLatencyMs s)
    (totalOperations s) (totalReads s) (totalWrites s) (totalErrors s) (si_isHealthy s).
Definition set_load (s : ShardInfo) (load : double) : ShardInfo :=
  mkShard (shardId s) (startKey s) (endKey s) (primaryHost s) (replicas s) (status s) (documentCount s) (sizeBytes s) load (avgLatencyMs s)
    (totalOperations s) (totalReads s) (totalWrites s) (totalErrors s) (si_isHealthy s).

Record ClusterNode := mkNode {
  nodeId : bytes; host : bytes; port : Z; isAlive : bool; lastHeartbeat : Z;
  cpuUsage : double; memoryUsage : double; diskUsage : double; networkUsage : double }.

Record QueryStats := mkStats { latencyEwmaMs : double; rpsEwma : double; lastQuery : option Z }.

Record manager := mkManager {
  shardMap_ : std_map ShardInfo; nodes_ : std_map ClusterNode; shardQueryStats_ : gmap bytes QueryStats; map_file : option bytes }.

Definition with_map (s : manager) (m : std_map ShardInfo) : manager := mkManager m (nodes_ s) (shardQueryStats_ s) (map_file s).
Definition with_nodes (s : manager) (n : std_map ClusterNode) : manager := mkManager (shardMap_ s) n (shardQueryStats_ s) (map_file s).

(** ** The file of the map *)

(** The pattern of a double. *)
Definition bits_of_double (x : double) : Z :=
  let sign (s : bool) := if s then 2 ^ 63 else 0 in
  match x with
  | S754_zero s => sign s
  | S754_infinity s => sign s + 2047 * 2 ^ 52
  | S754_nan => 4095 * 2 ^ 51
  | S754_finite s m e => if Zpos m <? 2 ^ 52 then sign s + Zpos m else sign s + (e + 1075) * 2 ^ 52 + (Zpos m - 2 ^ 52)
  end.

(** The object of a shard; [st] is the value of its status. *)
Definition shard_object (st : json) (s : ShardInfo) : json :=
  JObject [(str "avg_latency_ms", JFloat (bits_of_double (avgLatencyMs s))); (str "doc_count", JUInt (documentCount s));
           (str "end_key", JString (endKey s)); (str "is_healthy", JBool (si_isHealthy s));
           (str "load_factor", JFloat (bits_of_double (loadFactor s))); (str "primary", JString (primaryHost s));
           (str "replicas", JArray (map JString (replicas s))); (str "shard_id", JString (shardId s));
           (str "size_bytes", JUInt (sizeBytes s)); (str "start_key", JString (startKey s)); (str "status", st);
           (str "total_errors", JUInt (totalErrors s)); (str "total_operations", JUInt (totalOperations s))].

Definition toJson (s : ShardInfo) : json := shard_object (JInt (status_code (status s))) s.

Fixpoint strings_of (l : list json) : option (list bytes) :=
  match l with
  | [] => Some []
  | JString s :: r => (fun rest => s :: rest) <$> strings_of r
  | _ :: _ => None
  end.

(** [get<std::vector<std::string>>] *)
Definition as_strings (j : json) : option (list bytes) := match j with JArray l => strings_of l | _ => None end.

Definition fromJson (v : json) : result ShardInfo :=
  id ← value as_string v (str "shard_id") [];
  lo ← value as_string v (str "start_key") [];
  hi ← value as_string v (str "end_key") [];
  primary ← value as_string v (str "primary") [];
  reps ← value as_strings v (str "replicas") [];
  st ← value as_i32 v (str "status") 0;
  docs ← value as_u64 v (str "doc_count") 0;
  size ← value as_u64 v (str "size_bytes") 0;
  load ← value as_double v (str "load_factor") dzero;
  Ok (mkShard id lo hi primary reps (status_of st) docs size load dzero 0 0 0 0 true).

(** What the stream of the map's file does: cannot be opened (and then is left as it
    was), stops after some bytes, or writes everything. *)
Inductive map_io := MapUnopened | MapShort (n : nat) | MapWritten.

Section Text.
Context `{T : JsonText}.

Definition map_json (m : std_map ShardInfo) : json := JObject [(str "shards", JArray (map (fun e => toJson e.2) m))].

(** Opening truncates the file before the text is made, and the text is not made
    when a string is not valid UTF-8. *)
Definition persistShardMap (io : map_io) (s : manager) : manager :=
  let file := match io with
              | MapUnopened => map_file s
              | MapShort n => Some (match json_dump (map_json (shardMap_ s)) with Some text => take n text | None => [] end)
              | MapWritten => Some (default [] (json_dump (map_json (shardMap_ s))))
              end in
  mkManager (shardMap_ s) (nodes_ s) (shardQueryStats_ s) file.

(** The elements a range-based [for] visits. *)
Definition elements_of (j : json) : list json :=
  match j with JNull => [] | JArray l => l | JObject m => map snd m | v => [v] end.

(** An entry that cannot be read ends the loop, with what was read before. *)
Fixpoint load_shards (l : list json) (m : std_map ShardInfo) : std_map ShardInfo :=
  match l with
  | [] => m
  | j :: r => match fromJson j with Ok info => load_shards r (sm_set (startKey info) info m) | Err _ => m end
  end.

Definition loadShardMap (text : bytes) (m : std_map ShardInfo) : std_map ShardInfo :=
  match json_parse text with
  | Some (JObject o) => load_shards (elements_of (default JNull (obj_find (str "shards") o))) m
  | _ => m
  end.

(** ** Start *)

(** What the environment says; [None] for a variable that is not set. *)
Record env := mkEnv { SHARD_COUNT : option bytes; SHARD_REPLICA_COUNT : option bytes; SHARD_NODE_HOSTS : option bytes;
                      ENGINE_HOST : option bytes; ENGINE_PORT : option bytes }.

Definition stoi (s : bytes) : option Z := v ← stoll s; in_signed 32 v.

(** [std::to_string(int)] *)
Definition to_string (z : Z) : bytes := if z <? 0 then str "-" ++ to_dec (- z) else to_dec z.

(** [std::max(1, std::stoi(v))], [d] when it is not set or not a number. *)
Definition env_count (v : option bytes) (unset invalid : Z) : Z :=
  match v with Some t => match stoi t with Some n => Z.max 1 n | None => invalid end | None => unset end.

(** The fields of [std::getline(ss, host, ',')] that are not empty. *)
Fixpoint split_hosts (s cur : bytes) : list bytes :=
  match s with
  | [] => if bytes_eqb cur [] then [] else [cur]
  | c :: r => if byte_val c =? 44 then (if bytes_eqb cur [] then [] else [cur]) ++ split_hosts r [] else split_hosts r (cur ++ [c])
  end.

Definition engine_hosts (e : env) : list bytes :=
  match (match SHARD_NODE_HOSTS e with Some t => split_hosts t [] | None => [] end) with
  | [] =>
      let h := match ENGINE_HOST e with Some h => if bytes_eqb h [] || bytes_eqb h (str "0.0.0.0") then str "127.0.0.1" else h | None => str "127.0.0.1" end in
      let p := match ENGINE_PORT e with Some t => default 9000 (stoi t) | None => 9000 end in
      [h ++ str ":" ++ to_string p]
  | hosts => hosts
  end.

Definition hexBounds : bytes := str "0123456789abcdef".

(** [std::string(1, hexBounds[i])] *)
Definition hex_key (i : Z) : bytes := [default Byte.x00 (hexBounds !! Z.to_nat i)].

Definition nth_host (hosts : list bytes) (i : Z) : bytes := default [] (hosts !! Z.to_nat (i mod Z.of_nat (length hosts))).

Definition bootstrap_replicas (hosts : list bytes) (i replicaCount : Z) : list bytes :=
  List.filter (fun h => negb (bytes_eqb h (nth_host hosts i)))
    (map (fun r => nth_host hosts (i + Z.of_nat r)) (seq 1 (Z.to_nat (Z.min replicaCount (Z.of_nat (length hosts))) - 1))).

(** [index * 16] as an [int].  The product leaves the range of an [int] when [SHARD_COUNT] is above
    2^27, which C++ leaves undefined; here it wraps around. *)
Definition bound_product (index : Z) : Z := to_signed 32 (u32 (index * 16)).

Definition bootstrap_shard (hosts : list bytes) (shardCount replicaCount i : Z) : ShardInfo :=
  new_shard (str "shard-" ++ to_string i)
    (if i =? 0 then [] else hex_key (Z.quot (bound_product i) shardCount))
    (if i =? shardCount - 1 then [] else hex_key (Z.quot (bound_product (i + 1)) shardCount))
    (nth_host hosts i) (bootstrap_replicas hosts i replicaCount).

Fixpoint bootstrap_loop (hosts : list bytes) (shardCount replicaCount : Z) (n : nat) : std_map ShardInfo :=
  match n with
  | O => []
  | S n' => let shard := bootstrap_shard hosts shardCount replicaCount (Z.of_nat n') in
            sm_set (startKey shard) shard (bootstrap_loop hosts shardCount replicaCount n')
  end.

Definition bootstrap (e : env) : std_map ShardInfo :=
  let shardCount := env_count (SHARD_COUNT e) 1 1 in
  bootstrap_loop (engine_hosts e) shardCount (env_count (SHARD_REPLICA_COUNT e) 3 3) (Z.to_nat shardCount).

(** [init], from the point where the paths are validated. *)
Definition init (e : env) (s : manager) : manager :=
  let m := match map_file s with Some text => loadShardMap text (shardMap_ s) | None => shardMap_ s end in
  with_map s (match m with [] => bootstrap e | _ => m end).

(** ** Routing *)

Definition getShardForKey (s : manager) (key : bytes) : bytes :=
  match List.find (fun e => containsKey e.2 key) (shardMap_ s) with
  | Some e => shardId e.2
  | None => match shardMap_ s with e :: _ => shardId e.2 | [] => [] end
  end.

(** [overlaps], of a shard and a range whose end may be open. *)
Definition overlaps (info : ShardInfo) (lo hi : bytes) : bool :=
  (bytes_eqb (endKey info) [] || bytes_ltb lo (endKey info)) && (bytes_eqb hi [] || bytes_ltb (startKey info) hi).

Definition getShardsForRange (s : manager) (lo hi : bytes) : list bytes :=
  map (fun e => shardId e.2) (List.filter (fun e => overlaps e.2 lo hi) (shardMap_ s)).

Definition getAllShards (s : manager) : list bytes := map (fun e => shardId e.2) (shardMap_ s).

Definition has_id (id : bytes) (e : bytes * ShardInfo) : bool := bytes_eqb (shardId e.2) id.

(** The first entry with an id. *)
Definition find_id (id : bytes) (m : std_map ShardInfo) : option (bytes * ShardInfo) := List.find (has_id id) m.

Definition getShardInfo (s : manager) (id : bytes) : ShardInfo :=
  match find_id id (shardMap_ s) with Some e => e.2 | None => new_shard [] [] [] [] [] end.

(** Change the first shard with an id in place, if there is one. *)
Fixpoint alter_id (id : bytes) (f : ShardInfo -> ShardInfo) (m : std_map ShardInfo) : std_map ShardInfo :=
  match m with
  | [] => []
  | (k, info) :: r => if bytes_eqb (shardId info) id then (k, f info) :: r else (k, info) :: alter_id id f r
  end.

(** ** Changes of the map *)

Definition createShard (io : map_io) (s : manager) (info : ShardInfo) : manager * bool :=
  if existsb (fun e => overlaps e.2 (startKey info) (endKey info)) (shardMap_ s) then (s, false)
  else (persistShardMap io (with_map s (sm_set (startKey info) info (shardMap_ s))), true).

Definition removeShard (io : map_io) (s : manager) (id : bytes) : manager * bool :=
  match find_id id (shardMap_ s) with
  | Some e => (persistShardMap io (with_map s (sm_erase e.1 (shardMap_ s))), true)
  | None => (s, false)
  end.

Definition updateShard (io : map_io) (s : manager) (info : ShardInfo) : manager * bool :=
  match find_id (shardId info) (shardMap_ s) with
  | Some _ => (persistShardMap io (with_map s (alter_id (shardId info) (fun _ => info) (shardMap_ s))), true)
  | None => (s, false)
  end.

Definition dhalf : double := double_of_bits 0x3FE0000000000000.
Definition dmax : double := double_of_bits 0x7FEFFFFFFFFFFFFF.

Definition node_load (n : ClusterNode) : double := dadd (dmul (cpuUsage n) dhalf) (dmul (memoryUsage n) dhalf).
Definition node_address (n : ClusterNode) : bytes := host n ++ str ":" ++ to_string (port n).

Fixpoint best_node (l : std_map ClusterNode) (minLoad : double) (bestNode : bytes) : bytes :=
  match l with
  | [] => bestNode
  | (_, n) :: r => if isAlive n && dlt (node_load n) minLoad then best_node r (node_load n) (node_address n) else best_node r minLoad bestNode
  end.

Definition findBestNodeForShard (s : manager) : bytes :=
  match best_node (nodes_ s) dmax [] with [] => str "127.0.0.1:9000" | b => b end.

Definition splitShard (io : map_io) (s : manager) (id splitKey : bytes) : manager * bool :=
  match find_id id (shardMap_ s) with
  | None => (s, false)
  | Some (originalKey, original) =>
      if negb (containsKey original splitKey) then (s, false) else
      let newShard := new_shard (id ++ str "-split") splitKey (endKey original) (findBestNodeForShard s) [] in
      let lower := set_primary (set_range original (startKey original) splitKey) (primaryHost original) ACTIVE in
      let m := sm_set originalKey lower (shardMap_ s) in
      (persistShardMap io (with_map s (sm_set splitKey newShard m)), true)
  end.

(** The loop of [mergeShard] keeps the last entry of each id. *)
Definition find_last (id : bytes) (m : std_map ShardInfo) : option (bytes * ShardInfo) := List.find (has_id id) (rev m).

Definition mergeShard (io : map_io) (s : manager) (id1 id2 : bytes) : manager * bool :=
  match find_last id1 (shardMap_ s), find_last id2 (shardMap_ s) with
  | Some (key1, shard1), Some (key2, shard2) =>
      if negb (bytes_eqb (endKey shard1) (startKey shard2)) && negb (bytes_eqb (endKey shard2) (startKey shard1)) then (s, false) else
      let merged := if bytes_eqb (endKey shard1) (startKey shard2) then set_range shard1 (startKey shard1) (endKey shard2)
                    else set_range shard1 (startKey shard2) (endKey shard1) in
      (persistShardMap io (with_map s (sm_erase key2 (sm_set key1 merged (shardMap_ s)))), true)
  | _, _ => (s, false)
  end.

(** The loop of [rebalanceShards]: live nodes in turn, from the [idx]-th. *)
Fixpoint assign_round_robin (hosts : list bytes) (idx : nat) (m : std_map ShardInfo) : std_map ShardInfo :=
  match m with
  | [] => []
  | (k, info) :: r =>
      match hosts !! idx with
      | Some h => (k, set_primary info h (status info)) :: assign_round_robin hosts ((idx + 1) mod length hosts) r
      | None => (k, info) :: assign_round_robin hosts idx r
      end
  end.

Definition live_nodes (s : manager) : list ClusterNode := List.filter isAlive (map snd (nodes_ s)).

Definition rebalanceShards (io : map_io) (s : manager) : manager * bool :=
  match nodes_ s, shardMap_ s, live_nodes s with
  | [], _, _ | _, [], _ | _, _, [] => (s, false)
  | _, _, live => (persistShardMap io (with_map s (assign_round_robin (map node_address live) 0 (shardMap_ s))), true)
  end.

Definition migrateShard (io : map_io) (s : manager) (id target : bytes) : manager * bool :=
  match sm_find target (nodes_ s) with
  | Some n =>
      if negb (isAlive n) then (s, false) else
      match find_id id (shardMap_ s) with
      | Some _ => (persistShardMap io (with_map s (alter_id id (fun info => set_primary info (node_address n) ACTIVE) (shardMap_ s))), true)
      | None => (s, false)
      end
  | None => (s, false)
  end.

(** ** Nodes *)

Definition registerNode (s : manager) (n : ClusterNode) (now : Z) : manager :=
  with_nodes s (sm_set (nodeId n) (mkNode (nodeId n) (host n) (port n) (isAlive n) now (cpuUsage n) (memoryUsage n) (diskUsage n) (networkUsage n)) (nodes_ s)).

Definition unregisterNode (s : manager) (id : bytes) : manager := with_nodes s (sm_erase id (nodes_ s)).

Definition updateNodeHealth (s : manager) (id : bytes) (cpu memory disk network : double) (now : Z) : manager :=
  match sm_find id (nodes_ s) with
  | Some n => with_nodes s (sm_set id (mkNode (nodeId n) (host n) (port n) true now cpu memory disk network) (nodes_ s))
  | None => s
  end.

(** One turn of [monitorLoop], with times in seconds. *)
Definition monitor_turn (s : manager) (now : Z) : manager :=
  with_nodes s (map (fun e => let n := e.2 in
    (e.1, if 30 <? now - lastHeartbeat n
          then mkNode (nodeId n) (host n) (port n) false (lastHeartbeat n) (cpuUsage n) (memoryUsage n) (diskUsage n) (networkUsage n) else n)) (nodes_ s)).

Definition getActiveNodes (s : manager) : nat := length (live_nodes s).

Definition isHealthy (s : manager) : bool := (0 <? getActiveNodes s)%nat && negb (bool_decide (shardMap_ s = [])).

(** ** Load *)

Definition recordOperation (s : manager) (id opType : bytes) (latencyMs : double) (bytes_ : Z) (success : bool) : manager :=
  with_map s (alter_id id (fun i =>
    let total := u64 (totalOperations i + 1) in
    mkShard (shardId i) (startKey i) (endKey i) (primaryHost i) (replicas i) (status i) (documentCount i) (u64 (sizeBytes i + bytes_)) (loadFactor i)
      (dadd (avgLatencyMs i) (ddiv (dsub latencyMs (avgLatencyMs i)) (double_of_int total)))
      total (if bytes_eqb opType (str "read") then u64 (totalReads i + 1) else totalReads i)
      (if bytes_eqb opType (str "read") then totalWrites i else u64 (totalWrites i + 1))
      (if success then totalErrors i else u64 (totalErrors i + 1)) (si_isHealthy i)) (shardMap_ s)).

(** [std::max] *)
Definition dmax2 (a b : double) : double := if dlt a b then b else a.

Definition ewma (old new : double) : double :=
  let alpha := double_of_bits 0x3FC999999999999A in
  if deq old dzero then new else dadd (dmul alpha new) (dmul (dsub (double_of_int 1) alpha) old).

Definition next_stats (st : QueryStats) (latencyMs : double) (now : Z) : QueryStats :=
  let rps := match lastQuery st with
             | Some t => if 0 <? now - t then ewma (rpsEwma st) (ddiv (double_of_int 1000) (double_of_int (now - t))) else rpsEwma st
             | None => rpsEwma st
             end in
  mkStats (ewma (latencyEwmaMs st) latencyMs) rps (Some now).

Definition updateShardQueryLoad (latencyThreshold rpsThreshold : double) (s : manager) (id : bytes) (latencyMs : double) (now : Z) : manager :=
  if bytes_eqb id [] then s else
  let st := next_stats (default (mkStats dzero dzero None) (shardQueryStats_ s !! id)) latencyMs now in
  let latencyRatio := if dlt dzero latencyThreshold then ddiv (latencyEwmaMs st) latencyThreshold else dzero in
  let rpsRatio := if dlt dzero rpsThreshold then ddiv (rpsEwma st) rpsThreshold else dzero in
  let load0 := dmax2 latencyRatio rpsRatio in
  let queryLoad := if dlt (double_of_int 1) load0 then double_of_int 1 else load0 in
  mkManager (alter_id id (fun i => set_load i (dmax2 queryLoad (dmul (loadFactor i) (double_of_bits 0x3FECCCCCCCCCCCCD)))) (shardMap_ s))
    (nodes_ s) (<[id := st]> (shardQueryStats_ s)) (map_file s).

(** ** Split keys *)

(** The first position at which two keys differ, as the shared prefix and the tails. *)
Fixpoint common_prefix (a b : bytes) : bytes * bytes * bytes :=
  match a, b with
  | x :: a', y :: b' => if byte_val x =? byte_val y then let '(p, ra, rb) := common_prefix a' b' in (x :: p, ra, rb) else ([], a, b)
  | _, _ => ([], a, b)
  end.

Definition midpoint_key (lo hi : bytes) : option bytes :=
  if bytes_eqb lo [] || bytes_eqb hi [] then None else
  match common_prefix lo hi with
  | (p, x :: _, y :: _) => if byte_val x + 1 <? byte_val y then Some (p ++ [byte_of ((byte_val x + byte_val y) / 2)]) else None
  | _ => None
  end.

(** The last byte that is not zero decremented, what follows it cut off. *)
Fixpoint decremented (rev_key : bytes) : option bytes :=
  match rev_key with
  | [] => None
  | c :: r => if 0 <? byte_val c then Some (rev (byte_of (byte_val c - 1) :: r)) else decremented r
  end.

Definition guard_key (c : bool) (k : bytes) : option bytes := if c then Some k else None.

Definition computeSplitKey (info : ShardInfo) : bytes :=
  let lo := startKey info in
  let hi := endKey info in
  let suffixed := lo ++ [byte_of 0x7f] in
  match midpoint_key lo hi with
  | Some k => k
  | None =>
      if negb (bytes_eqb lo []) && containsKey info suffixed then suffixed else
      match (if bytes_eqb hi [] then None
             else k ← decremented (rev hi); guard_key (containsKey info k && negb (bytes_eqb k lo)) k) with
      | Some k => k
      | None => if containsKey info (str "m") then str "m" else if containsKey info (str "M") then str "M" else []
      end
  end.

Definition suggestSplitKey (s : manager) (id : bytes) : bytes :=
  match find_id id (shardMap_ s) with Some e => computeSplitKey e.2 | None => [] end.

End Text.
