(* ===== verification/ShardRouting.v ===== *)
(** * Routing of keys to shards

    The ranges of a shard map that is only changed through valid operations lie one
    after the other, and cover the keys until a shard is removed; so a key has one
    shard, which is the one routing returns, and a range query reaches exactly the
    shards that hold keys of the range. *)

From stdpp Require Import base list gmap strings sorting.
From Stdlib Require Import ZArith Lia.
From S2P Require Import Prelude Json JsonValue Msgpack Decimal Float64 JsonCompare Sharding.

Open Scope Z_scope.

(** ** Ranges in order *)

(** The shards from [lo] on: each is stored under its start key, has a range that is
    not empty, and ends before the next begins. *)
Fixpoint ranges (lo : bytes) (m : std_map ShardInfo) : Prop :=
  match m with
  | [] => True
  | (k, i) :: r => bytes_le lo k /\ startKey i = k /\ ((endKey i = [] /\ r = []) \/ (endKey i <> [] /\ bytes_lt k (endKey i) /\ ranges (endKey i) r))
  end.

(** Every key from [lo] on has a shard. *)
Fixpoint gapless (lo : bytes) (m : std_map ShardInfo) : Prop :=
  match m with
  | [] => False
  | (k, i) :: r => k = lo /\ (endKey i = [] \/ gapless (endKey i) r)
  end.

Definition owns (s : manager) (e : bytes * ShardInfo) (key : bytes) : Prop := e ∈ shardMap_ s /\ containsKey e.2 key = true.

Lemma containsKey_spec i key : containsKey i key = true <-> bytes_le (startKey i) key /\ (endKey i = [] \/ bytes_lt key (endKey i)).
Proof. unfold containsKey. rewrite andb_true_iff, orb_true_iff, bytes_leb_le, bytes_eqb_eq, bytes_ltb_lt. done. Qed.

Lemma bytes_le_refl a : bytes_le a a.
Proof. apply bytes_le_alt. by right. Qed.

Lemma bytes_le_nil a : bytes_le [] a.
Proof. destruct a; unfold bytes_le; simpl; congruence. Qed.

Lemma bytes_lt_nil a : ~ bytes_lt a [].
Proof. destruct a; unfold bytes_lt; simpl; congruence. Qed.

Lemma bytes_lt_le a b : bytes_lt a b -> bytes_le a b.
Proof. rewrite bytes_le_alt. auto. Qed.

Lemma bytes_lt_not_le a b : bytes_lt a b -> ~ bytes_le b a.
Proof. intros H1 H2. exact (bytes_lt_irrefl a (bytes_lt_le_trans a b a H1 H2)). Qed.

Lemma bytes_le_or_lt a b : bytes_le a b \/ bytes_lt b a.
Proof. destruct (bytes_lt_trichotomy a b) as [?|[->|?]]; [left; by apply bytes_lt_le|left; apply bytes_le_refl|by right]. Qed.

#[local] Hint Resolve bytes_le_refl bytes_le_nil bytes_lt_le : core.

Lemma ranges_weaken lo lo' m : bytes_le lo' lo -> ranges lo m -> ranges lo' m.
Proof. destruct m as [|[k i] r]; simpl; [done|]. intros H (H1 & H2). split; [exact (bytes_le_trans _ _ _ H H1)|done]. Qed.

Lemma ranges_above lo m e : ranges lo m -> e ∈ m -> bytes_le lo e.1 /\ startKey e.2 = e.1.
Proof.
  revert lo. induction m as [|[k i] r IH]; intros lo; [intros _ []%not_elem_of_nil|].
  intros (H1 & H2 & H3) [->|He]%elem_of_cons; [done|].
  destruct H3 as [[_ ->]|(_ & H3 & H4)]; [by apply not_elem_of_nil in He|].
  destruct (IH _ H4 He) as [Ha ->]. split; [|done]. apply (bytes_le_trans _ k); [done|]. apply (bytes_le_trans _ (endKey i)); auto.
Qed.

Lemma ranges_sorted lo m : ranges lo m -> sm_sorted m.
Proof.
  unfold sm_sorted. revert lo. induction m as [|[k i] r IH]; intros lo; simpl; [constructor|].
  intros (_ & _ & H3). apply StronglySorted_cons. destruct H3 as [[_ ->]|(_ & H3 & H4)]; [split; constructor|]. split; [|by eapply IH].
  apply Forall_forall. intros x (e & -> & He)%list_elem_of_fmap. exact (bytes_lt_le_trans _ _ _ H3 (proj1 (ranges_above _ _ _ H4 He))).
Qed.

Lemma ranges_range lo m e : ranges lo m -> e ∈ m -> endKey e.2 = [] \/ bytes_lt e.1 (endKey e.2).
Proof.
  revert lo. induction m as [|[k i] r IH]; intros lo; [intros _ []%not_elem_of_nil|].
  intros (H1 & H2 & H3) [->|He]%elem_of_cons; [tauto|].
  destruct H3 as [[_ ->]|(_ & H3 & H4)]; [by apply not_elem_of_nil in He|]. eapply IH; eauto.
Qed.

Lemma ranges_head_alone lo k i r e key : ranges lo ((k, i) :: r) -> e ∈ r -> containsKey i key = true -> containsKey e.2 key = true -> False.
Proof.
  intros (_ & _ & H3) He0 Hi H0. destruct H3 as [[_ ->]|(Hn & _ & Hr)]; [by apply not_elem_of_nil in He0|].
  apply containsKey_spec in Hi as [_ [Hi|Hi]]; [done|]. apply containsKey_spec in H0 as [H0 _].
  destruct (ranges_above _ _ _ Hr He0) as [Ha Hs]. rewrite Hs in H0.
  apply (bytes_lt_not_le _ _ Hi). exact (bytes_le_trans _ _ _ Ha H0).
Qed.

(** A key lies in one range at most. *)
Lemma ranges_unique lo m e e' key : ranges lo m -> e ∈ m -> e' ∈ m -> containsKey e.2 key = true -> containsKey e'.2 key = true -> e = e'.
Proof.
  revert lo. induction m as [|[k i] r IH]; intros lo Hm; [intros []%not_elem_of_nil|].
  intros [->|He]%elem_of_cons [->|He']%elem_of_cons Hc Hc'; [done|exfalso; eauto using ranges_head_alone..|].
  destruct Hm as (H1 & H2 & [[_ ->]|(H3 & H4 & H5)]); [by apply not_elem_of_nil in He|]. eauto.
Qed.

Lemma gapless_covers lo m key : ranges lo m -> gapless lo m -> bytes_le lo key -> exists e, e ∈ m /\ containsKey e.2 key = true.
Proof.
  revert lo. induction m as [|[k i] r IH]; intros lo; simpl; [done|].
  intros (H1 & H2 & H3) [-> H4] Hk. destruct H3 as [[Hn ->]|(Hn & H5 & H6)].
  - exists (lo, i). split; [left|]. apply containsKey_spec. simpl. rewrite H2. auto.
  - destruct H4 as [?|H4]; [done|]. destruct (bytes_le_or_lt (endKey i) key) as [Hge|Hlt].
    + destruct (IH _ H6 H4 Hge) as (e & He & Hc). exists e. split; [by right|done].
    + exists (lo, i). split; [left|]. apply containsKey_spec. simpl. rewrite H2. auto.
Qed.

(** ** What routing answers *)

Lemma find_first {A} (f : A -> bool) (l : list A) x : x ∈ l -> f x = true -> exists y, List.find f l = Some y /\ y ∈ l /\ f y = true.
Proof.
  intros Hx Hf. destruct (List.find f l) as [y|] eqn:E.
  - exists y. apply find_some in E as [E1 E2]. split; [done|]. split; [by apply list_elem_of_In|done].
  - pose proof (find_none _ _ E x ltac:(by apply list_elem_of_In)). congruence.
Qed.

Lemma getShardForKey_owner s key e : ranges [] (shardMap_ s) -> owns s e key -> getShardForKey s key = shardId e.2.
Proof.
  intros Hr [He Hc]. unfold getShardForKey. destruct (find_first (fun e => containsKey e.2 key) (shardMap_ s) e He Hc) as (y & -> & Hy & Hcy).
  by rewrite (ranges_unique [] _ _ _ _ Hr He Hy Hc Hcy).
Qed.

(** A nonempty query range, whose end may be open. *)
Definition query_range (lo hi : bytes) : Prop := hi = [] \/ bytes_lt lo hi.

Lemma overlaps_spec s e lo hi : ranges [] (shardMap_ s) -> e ∈ shardMap_ s -> query_range lo hi ->
  overlaps e.2 lo hi = true <-> exists key, containsKey e.2 key = true /\ bytes_le lo key /\ (hi = [] \/ bytes_lt key hi).
Proof.
  intros Hr He Hq. destruct (ranges_above _ _ _ Hr He) as [_ Hs]. pose proof (ranges_range _ _ _ Hr He) as Hn.
  unfold overlaps. rewrite andb_true_iff, !orb_true_iff, !bytes_eqb_eq, !bytes_ltb_lt, Hs. split.
  - intros [H1 H2]. destruct (bytes_le_or_lt lo e.1) as [Hle|Hlt].
    + exists e.1. rewrite containsKey_spec, Hs. auto.
    + exists lo. rewrite containsKey_spec, Hs. unfold query_range in Hq. auto.
  - intros (key & Hc & H1 & H2). apply containsKey_spec in Hc as [H3 H4]. rewrite Hs in H3. split.
    + destruct H4; [auto|right; eapply bytes_le_lt_trans; eauto].
    + destruct H2; [auto|right; eapply bytes_le_lt_trans; eauto].
Qed.

Lemma getShardsForRange_exact s lo hi : ranges [] (shardMap_ s) -> query_range lo hi ->
  exists es, getShardsForRange s lo hi = map (fun e => shardId e.2) es /\ sublist es (shardMap_ s) /\
    forall e, e ∈ es <-> exists key, owns s e key /\ bytes_le lo key /\ (hi = [] \/ bytes_lt key hi).
Proof.
  intros Hr Hq. exists (List.filter (fun e => overlaps e.2 lo hi) (shardMap_ s)). split; [done|]. split.
  - clear. induction (shardMap_ s) as [|e r IH]; simpl; [constructor|]. case_match; by constructor.
  - intros e. rewrite list_elem_of_In, filter_In, <- list_elem_of_In. unfold owns. split.
    + intros [He Ho]. apply (overlaps_spec s) in Ho as (key & ?); [|done..]. exists key. tauto.
    + intros (key & [He Hc] & H1 & H2). split; [done|]. apply (overlaps_spec s); eauto.
Qed.

(** ** Changes that keep the ranges *)

(** A suffix of the map, exchanged for another. *)
Lemma ranges_suffix lo l1 t t' : t <> [] -> (forall lo', ranges lo' t -> ranges lo' t') -> ranges lo (l1 ++ t) -> ranges lo (l1 ++ t').
Proof.
  intros Hne Ht. revert lo. induction l1 as [|[k i] l1 IH]; intros lo; simpl; [apply Ht|].
  intros (H1 & H2 & [[_ H3]|(H3 & H4 & H5)]); [by apply app_eq_nil in H3 as [_ ?]|]. split_and!; [done..|]. right. eauto.
Qed.

Lemma gapless_suffix lo l1 t t' : t <> [] -> (forall lo', ranges lo' t -> gapless lo' t -> gapless lo' t') ->
  ranges lo (l1 ++ t) -> gapless lo (l1 ++ t) -> gapless lo (l1 ++ t').
Proof.
  intros Hne Ht. revert lo. induction l1 as [|[k i] l1 IH]; intros lo; simpl; [apply Ht|].
  intros (H1 & H2 & [[_ H3]|(H3 & H4 & H5)]); [by apply app_eq_nil in H3 as [_ ?]|]. intros [-> [?|H6]]; [done|]. split; [done|]. right. eauto.
Qed.

(** The entries an operation names. *)
Lemma find_split {A} (f : A -> bool) (l : list A) x : List.find f l = Some x -> exists l1 l2, l = l1 ++ x :: l2 /\ f x = true /\ Forall (fun y => f y = false) l1.
Proof.
  induction l as [|y l IH]; simpl; [done|]. destruct (f y) eqn:E.
  - intros [= ->]. exists [], l. done.
  - intros H. destruct (IH H) as (l1 & l2 & -> & Hx & Hl). exists (y :: l1), l2. split_and!; [done..|]. by constructor.
Qed.

Lemma find_last_split id m e : find_last id m = Some e -> exists l1 l2, m = l1 ++ e :: l2 /\ has_id id e = true.
Proof.
  intros (l1 & l2 & H & Hx & _)%find_split. exists (rev l2), (rev l1). split; [|done].
  rewrite <- (rev_involutive m), H, rev_app_distr. simpl. by rewrite <- app_assoc.
Qed.

(** Changes of other members keep the ranges. *)
Definition same_ranges (m m' : std_map ShardInfo) : Prop := Forall2 (fun e e' => e.1 = e'.1 /\ startKey e.2 = startKey e'.2 /\ endKey e.2 = endKey e'.2) m m'.

Lemma same_ranges_refl m : same_ranges m m.
Proof. induction m; constructor; auto. Qed.

Lemma same_ranges_ranges m m' : same_ranges m m' -> forall lo, ranges lo m -> ranges lo m'.
Proof.
  induction 1 as [|[k i] [k' i'] m m' (H1 & H2 & H3) Hm IH]; intros lo; simpl in *; [done|]. subst k'. rewrite <- H2, <- H3.
  intros (? & ? & [[? ->]|(? & ? & ?)]); split_and!; auto. left. inversion Hm. done.
Qed.

Lemma same_ranges_gapless m m' : same_ranges m m' -> forall lo, gapless lo m -> gapless lo m'.
Proof.
  induction 1 as [|[k i] [k' i'] m m' (H1 & H2 & H3) Hm IH]; intros lo; simpl in *; [done|]. subst k'. rewrite <- H3. naive_solver.
Qed.

Lemma alter_id_same id f m : (forall i, shardId i = id -> i ∈ map snd m -> startKey (f i) = startKey i /\ endKey (f i) = endKey i) -> same_ranges m (alter_id id f m).
Proof.
  induction m as [|[k i] m IH]; simpl; intros Hf; [constructor|]. destruct (bytes_eqb (shardId i) id) eqn:E.
  - apply bytes_eqb_eq in E. constructor; [|apply same_ranges_refl]. destruct (Hf i E) as [H1 H2]; [left|]. simpl. auto.
  - constructor; [done|]. apply IH. intros j Hj Hin. apply Hf; [done|]. by right.
Qed.

Lemma assign_same hosts idx m : same_ranges m (assign_round_robin hosts idx m).
Proof. revert idx. induction m as [|[k i] m IH]; intros idx; simpl; [constructor|]. case_match; (constructor; [done|apply IH]). Qed.

(** ** Operations *)

Lemma ranges_drop lo e r : ranges lo (e :: r) -> ranges lo r.
Proof.
  destruct e as [k i]. intros (H1 & _ & [[_ ->]|(_ & H2 & H3)]); [done|]. eapply ranges_weaken; [|exact H3].
  apply (bytes_le_trans _ k); auto.
Qed.

Lemma remove_ranges lo l1 e l2 : ranges lo (l1 ++ e :: l2) -> ranges lo (sm_erase e.1 (l1 ++ e :: l2)).
Proof.
  intros H. pose proof (ranges_sorted _ _ H) as Hs. destruct e as [k i]. simpl. rewrite sm_erase_at by exact Hs. revert H. apply ranges_suffix; [done|].
  intros lo'. apply ranges_drop.
Qed.

Lemma create_ranges lo info m : (endKey info = [] \/ bytes_lt (startKey info) (endKey info)) -> bytes_le lo (startKey info) ->
  existsb (fun e => overlaps e.2 (startKey info) (endKey info)) m = false -> ranges lo m -> ranges lo (sm_set (startKey info) info m).
Proof.
  intros Hn. revert lo. induction m as [|[k i] m IH]; intros lo Hlo; simpl.
  { intros _ _. split_and!; [done..|]. destruct (decide (endKey info = [])); [by left|right]. split_and!; [done| |done]. tauto. }
  rewrite orb_false_iff. intros [Ho Hm] (H1 & H2 & H3).
  assert (Hi : ~ ((endKey i = [] \/ bytes_lt (startKey info) (endKey i)) /\ (endKey info = [] \/ bytes_lt k (endKey info)))).
  { rewrite <- not_true_iff_false in Ho. contradict Ho. unfold overlaps. rewrite andb_true_iff, !orb_true_iff, !bytes_eqb_eq, !bytes_ltb_lt, H2. exact Ho. }
  assert (Hik : endKey i = [] \/ bytes_lt k (endKey i)) by tauto.
  destruct (bytes_compare (startKey info) k) eqn:E.
  - apply bytes_compare_eq in E. rewrite E in *. tauto.
  - assert (Hlt : bytes_lt (startKey info) (endKey i) \/ endKey i = []) by (destruct Hik as [?|Hik]; [by right|left; exact (bytes_lt_trans _ _ _ E Hik)]).
    assert (He : endKey info <> [] /\ bytes_le (endKey info) k) by (destruct (bytes_le_or_lt (endKey info) k); [split; [intros ?|]|]; tauto).
    simpl. destruct He. split_and!; [done..|]. right. split_and!; [done|tauto|done..].
  - assert (Hgt : bytes_lt k (startKey info)) by (unfold bytes_lt; by rewrite bytes_compare_antisym, E).
    assert (He : endKey i <> [] /\ bytes_le (endKey i) (startKey info)).
    { destruct Hn as [Hn|Hn]; [|pose proof (bytes_lt_trans _ _ _ Hgt Hn)]; (destruct (bytes_le_or_lt (endKey i) (startKey info)); [split; [intros ?|]|]; tauto). }
    destruct He as [He1 He2]. simpl. split_and!; [done..|]. destruct H3 as [[? _]|(_ & H3 & H4)]; [done|]. right. split_and!; [done..|]. by apply IH.
Qed.

Lemma create_refused m info : ranges [] m -> gapless [] m -> (endKey info = [] \/ bytes_lt (startKey info) (endKey info)) ->
  existsb (fun e => overlaps e.2 (startKey info) (endKey info)) m = true.
Proof.
  intros Hr Hg Hn. destruct (gapless_covers [] m (startKey info) Hr Hg ltac:(auto)) as (e & He & Hc).
  apply existsb_exists. exists e. split; [by apply list_elem_of_In|]. apply containsKey_spec in Hc as [H1 H2].
  unfold overlaps. rewrite andb_true_iff, !orb_true_iff, !bytes_eqb_eq, !bytes_ltb_lt. split; [done|]. destruct Hn; [auto|]. right. eapply bytes_le_lt_trans; eauto.
Qed.

(** A split at a key inside the range, and what the map becomes. *)
Lemma split_shape lo l1 k i l2 splitKey lower new : ranges lo (l1 ++ (k, i) :: l2) -> containsKey i splitKey = true -> splitKey <> k ->
  sm_set splitKey new (sm_set k lower (l1 ++ (k, i) :: l2)) = l1 ++ (k, lower) :: (splitKey, new) :: l2 /\ bytes_lt k splitKey.
Proof.
  intros Hr Hc Hne. pose proof (ranges_sorted _ _ Hr) as Hs. rewrite sm_set_at by exact Hs.
  destruct (ranges_above _ _ (k, i) Hr ltac:(apply elem_of_app; right; left)) as [_ Hk]. simpl in Hk.
  apply containsKey_spec in Hc as [Hc1 Hc2]. rewrite Hk in Hc1. apply bytes_le_alt in Hc1 as [Hlt|?]; [|congruence].
  split; [|done]. rewrite (cons_middle (k, lower)), app_assoc. rewrite sm_set_between.
  - by rewrite <- app_assoc.
  - intros a Ha. apply sm_sorted_fresh in Hs as [Hs _]. apply elem_of_app in Ha as [Ha|Ha%list_elem_of_singleton]; [|by subst a]. exact (bytes_lt_trans _ _ _ (Hs a Ha) Hlt).
  - assert (Ht : exists lo', ranges lo' ((k, i) :: l2)).
    { clear -Hr. revert lo Hr. induction l1 as [|[a x] l1 IH]; intros lo; simpl; [eauto|]. intros (_ & _ & [[_ H]|(_ & _ & H)]); [by destruct l1|eauto]. }
    intros b Hb. destruct Ht as (lo' & _ & _ & [[_ ->]|(Hn & _ & Ht)]); [by apply not_elem_of_nil in Hb|].
    destruct Hc2 as [?|Hc2]; [done|]. exact (bytes_lt_le_trans _ _ _ Hc2 (proj1 (ranges_above _ _ _ Ht Hb))).
Qed.

Lemma split_ranges lo l1 k i l2 splitKey lower new : ranges lo (l1 ++ (k, i) :: l2) -> containsKey i splitKey = true -> bytes_lt k splitKey ->
  startKey lower = startKey i -> endKey lower = splitKey -> startKey new = splitKey -> endKey new = endKey i ->
  ranges lo (l1 ++ (k, lower) :: (splitKey, new) :: l2) /\ (gapless lo (l1 ++ (k, i) :: l2) -> gapless lo (l1 ++ (k, lower) :: (splitKey, new) :: l2)).
Proof.
  intros Hr [_ Hc]%containsKey_spec Hlt E1 E2 E3 E4.
  assert (Hne : splitKey <> []) by (intros ->; exact (bytes_lt_nil _ Hlt)). split.
  - revert Hr. apply ranges_suffix; [done|]. intros lo' (H1 & H2 & H3). cbn [ranges]. rewrite E1, E2, E3, E4.
    split_and!; [done..|]. right. split_and!; [done|done|auto|done|]. destruct H3 as [?|(H3 & H4 & H5)]; [by left|right]. split_and!; [done| |done]. tauto.
  - revert Hr. apply gapless_suffix; [done|]. intros lo' Hr (H1 & H2). cbn [gapless]. rewrite E2, E4. tauto.
Qed.

(** The shard that begins where another ends comes right after it. *)
Lemma next_shard lo l1 k i l2 e : ranges lo (l1 ++ (k, i) :: l2) -> endKey i <> [] -> e ∈ l1 ++ (k, i) :: l2 -> startKey e.2 = endKey i ->
  exists l3, l2 = e :: l3.
Proof.
  intros Hr Hn He Hk. pose proof (ranges_sorted _ _ Hr) as Hs. destruct (ranges_above _ _ _ Hr He) as [_ Hek]. rewrite Hk in Hek.
  assert (Hlt : bytes_lt k (endKey i)).
  { destruct (ranges_range _ _ (k, i) Hr) as [?|?]; [apply elem_of_app; right; left|done..]. }
  apply sm_sorted_fresh in Hs as Hf. destruct Hf as [Hf1 _].
  assert (Hin : e ∈ l2).
  { apply elem_of_app in He as [He|[->|He]%elem_of_cons]; [exfalso|exfalso|done].
    - apply Hf1 in He. rewrite <- Hek in He. exact (bytes_lt_irrefl _ (bytes_lt_trans _ _ _ He Hlt)).
    - simpl in Hek. rewrite Hek in Hlt. exact (bytes_lt_irrefl _ Hlt). }
  assert (Ht : ranges (endKey i) l2).
  { clear -Hr Hn. revert lo Hr. induction l1 as [|[a x] l1 IH]; intros lo; simpl; [naive_solver|]. intros (_ & _ & [[_ H]|(_ & _ & H)]); [by destruct l1|eauto]. }
  destruct l2 as [|h l3]; [by apply not_elem_of_nil in Hin|]. exists l3. apply elem_of_cons in Hin as [->|Hin]; [done|exfalso].
  apply sm_sorted_app in Hs as (_ & [_ [Hh _]%StronglySorted_cons]%StronglySorted_cons & _).
  destruct (ranges_above _ _ h Ht ltac:(left)) as [Hle _]. rewrite Forall_forall in Hh.
  apply (bytes_lt_not_le h.1 (endKey i)); [|done]. rewrite Hek. apply Hh. apply list_elem_of_fmap. eauto.
Qed.

Lemma merge_ranges lo l1 k i e l3 merged : ranges lo (l1 ++ (k, i) :: e :: l3) -> endKey i <> [] ->
  startKey merged = startKey i -> endKey merged = endKey e.2 ->
  sm_erase e.1 (sm_set k merged (l1 ++ (k, i) :: e :: l3)) = l1 ++ (k, merged) :: l3 /\
  ranges lo (l1 ++ (k, merged) :: l3) /\ (gapless lo (l1 ++ (k, i) :: e :: l3) -> gapless lo (l1 ++ (k, merged) :: l3)).
Proof.
  intros Hr Hn E1 E2. pose proof (ranges_sorted _ _ Hr) as Hs. destruct e as [k2 j]. cbn [fst snd] in *. split_and!.
  - rewrite sm_set_at by exact Hs. rewrite (cons_middle (k, merged)), app_assoc. rewrite sm_erase_at; [by rewrite <- app_assoc|].
    unfold sm_sorted in *. rewrite <- app_assoc, !map_app in *. exact Hs.
  - revert Hr. apply ranges_suffix; [done|]. intros lo' (H1 & H2 & [[? _]|(_ & H4 & H5)]); [done|]. destruct H5 as (H5 & H6 & H7).
    cbn [ranges]. rewrite E1, E2. split_and!; [done..|]. destruct H7 as [?|(? & ? & ?)]; [by left|right]. split_and!; [done| |done].
    apply (bytes_lt_trans _ (endKey i)); [done|]. eapply bytes_le_lt_trans; eauto.
  - revert Hr. apply gapless_suffix; [done|]. intros lo' _ (H1 & [?|(H2 & H3)]); [done|]. cbn [gapless]. rewrite E2. tauto.
Qed.

(** ** Sequences of operations *)

Section Run.
Context `{T : JsonText} (latencyThreshold rpsThreshold : double).

Inductive op :=
| Create (io : map_io) (info : ShardInfo)
| Remove (io : map_io) (id : bytes)
| Update (io : map_io) (info : ShardInfo)
| Split (io : map_io) (id key : bytes)
| Merge (io : map_io) (id1 id2 : bytes)
| Rebalance (io : map_io)
| Migrate (io : map_io) (id target : bytes)
| Register (n : ClusterNode) (now : Z)
| Unregister (id : bytes)
| Health (id : bytes) (cpu memory disk network : double) (now : Z)
| Monitor (now : Z)
| Operation (id opType : bytes) (latencyMs : double) (size : Z) (success : bool)
| QueryLoad (id : bytes) (latencyMs : double) (now : Z).

Definition run_op (s : manager) (o : op) : manager :=
  match o with
  | Create io info => (createShard io s info).1
  | Remove io id => (removeShard io s id).1
  | Update io info => (updateShard io s info).1
  | Split io id key => (splitShard io s id key).1
  | Merge io id1 id2 => (mergeShard io s id1 id2).1
  | Rebalance io => (rebalanceShards io s).1
  | Migrate io id target => (migrateShard io s id target).1
  | Register n now => registerNode s n now
  | Unregister id => unregisterNode s id
  | Health id c m d n now => updateNodeHealth s id c m d n now
  | Monitor now => monitor_turn s now
  | Operation id t l b ok => recordOperation s id t l b ok
  | QueryLoad id l now => updateShardQueryLoad latencyThreshold rpsThreshold s id l now
  end.

(** A valid request: a new shard has a range, an update keeps the range of the shards
    with its id, a split is not at the start of the shard, and a merge does not name
    the last shard first, nor the upper of two neighbours (see the examples below). *)
Definition valid_op (s : manager) (o : op) : Prop :=
  match o with
  | Create _ info => endKey info = [] \/ bytes_lt (startKey info) (endKey info)
  | Update _ info => forall e, e ∈ shardMap_ s -> shardId e.2 = shardId info -> startKey info = startKey e.2 /\ endKey info = endKey e.2
  | Split _ id key => forall e, find_id id (shardMap_ s) = Some e -> key <> startKey e.2
  | Merge _ id1 id2 => forall e1 e2, find_last id1 (shardMap_ s) = Some e1 -> find_last id2 (shardMap_ s) = Some e2 ->
                       endKey e1.2 <> [] /\ endKey e2.2 <> startKey e1.2
  | _ => True
  end.

Definition is_remove (o : op) : bool := match o with Remove _ _ => true | _ => false end.

Lemma persist_map io s : shardMap_ (persistShardMap io s) = shardMap_ s.
Proof. done. Qed.

(** An operation leaves a map with ranges in order, and without gaps where it had none,
    unless it removes a shard. *)
Definition keeps (m m' : std_map ShardInfo) : Prop := ranges [] m' /\ (gapless [] m -> gapless [] m').

Lemma keeps_same m m' : ranges [] m -> same_ranges m m' -> keeps m m'.
Proof. intros Hr H. split; [exact (same_ranges_ranges _ _ H _ Hr)|exact (same_ranges_gapless _ _ H _)]. Qed.

Lemma alter_keeps m id f : ranges [] m -> (forall i, startKey (f i) = startKey i /\ endKey (f i) = endKey i) -> keeps m (alter_id id f m).
Proof. intros Hr Hf. apply keeps_same; [done|]. apply alter_id_same. intros i _ _. apply Hf. Qed.

Lemma find_id_split id m e : find_id id m = Some e -> exists l1 l2, m = l1 ++ e :: l2.
Proof. intros (l1 & l2 & -> & _)%find_split. eauto. Qed.

Lemma split_keeps io s id key : ranges [] (shardMap_ s) -> valid_op s (Split io id key) -> keeps (shardMap_ s) (shardMap_ (splitShard io s id key).1).
Proof.
  intros Hr Hv. unfold splitShard. destruct (find_id id (shardMap_ s)) as [[k i]|] eqn:E; [|done].
  specialize (Hv _ E). simpl in Hv. destruct (containsKey i key) eqn:Ec; [|done]. cbn [negb fst]. rewrite persist_map. cbn [shardMap_ with_map].
  apply find_id_split in E as (l1 & l2 & Em). rewrite Em in Hr |- *.
  destruct (ranges_above _ _ (k, i) Hr ltac:(apply elem_of_app; right; left)) as [_ Hk]. simpl in Hk. rewrite Hk in Hv.
  set (lower := set_primary _ _ _). set (new := new_shard _ _ _ _ _).
  destruct (split_shape [] l1 k i l2 key lower new Hr Ec Hv) as [-> Hlt]. apply split_ranges; done.
Qed.

Lemma merge_keeps io s id1 id2 : ranges [] (shardMap_ s) -> valid_op s (Merge io id1 id2) -> keeps (shardMap_ s) (shardMap_ (mergeShard io s id1 id2).1).
Proof.
  intros Hr Hv. unfold mergeShard. destruct (find_last id1 (shardMap_ s)) as [[k i]|] eqn:E1; [|done].
  destruct (find_last id2 (shardMap_ s)) as [[k2 j]|] eqn:E2; [|done]. destruct (Hv _ _ E1 E2) as [Hn Hlow]. cbn [fst snd] in Hn, Hlow.
  apply bytes_eqb_neq in Hlow as ->. cbn [negb]. rewrite andb_true_r. destruct (bytes_eqb (endKey i) (startKey j)) eqn:Ea; [|done].
  apply bytes_eqb_eq in Ea. cbn [negb fst]. rewrite persist_map. cbn [shardMap_ with_map].
  apply find_last_split in E1 as (l1 & l2 & Em & _). apply find_last_split in E2 as (l1' & l2' & Em' & _).
  assert (He : (k2, j) ∈ shardMap_ s) by (rewrite Em'; apply elem_of_app; right; left). rewrite Em in Hr, He |- *. clear Em'.
  destruct (next_shard [] l1 k i l2 (k2, j) Hr Hn He (eq_sym Ea)) as [l3 ->].
  set (merged := set_range _ _ _). destruct (merge_ranges [] l1 k i (k2, j) l3 merged Hr Hn eq_refl eq_refl) as (E & H1 & H2).
  cbn [fst] in E. rewrite E. done.
Qed.

Lemma rebalance_shape io s : (rebalanceShards io s).1 = s \/
  exists hosts, (rebalanceShards io s).1 = persistShardMap io (with_map s (assign_round_robin hosts 0 (shardMap_ s))).
Proof. unfold rebalanceShards. destruct s as [m ns q f]. cbn [nodes_ shardMap_]. destruct ns, m; [by left..|]. destruct (live_nodes _); [by left|]. right. by eexists. Qed.

Lemma op_keeps s o : ranges [] (shardMap_ s) -> valid_op s o -> is_remove o = false -> keeps (shardMap_ s) (shardMap_ (run_op s o)).
Proof.
  intros Hr Hv Ho. destruct o; cbn [run_op valid_op is_remove] in *; try discriminate; try done.
  - unfold createShard. destruct (existsb _ _) eqn:E; [done|]. cbn [fst]. rewrite persist_map. split; [apply create_ranges; auto|].
    intros Hg. rewrite create_refused in E; done.
  - unfold updateShard. destruct (find_id _ _); [|done]. apply keeps_same; [done|]. apply alter_id_same.
    intros i Hi (e & -> & He)%list_elem_of_fmap. by apply Hv.
  - by apply split_keeps.
  - by apply merge_keeps.
  - destruct (rebalance_shape io s) as [->|[hosts ->]]; [done|]. apply keeps_same; [done|apply assign_same].
  - unfold migrateShard. destruct (sm_find _ _); [|done]. case_match; [done|]. destruct (find_id _ _); [|done]. by apply alter_keeps.
  - unfold updateNodeHealth. case_match; done.
  - by apply alter_keeps.
  - unfold updateShardQueryLoad. case_match; [done|]. by apply alter_keeps.
Qed.

Lemma op_ranges s o : ranges [] (shardMap_ s) -> valid_op s o -> ranges [] (shardMap_ (run_op s o)).
Proof.
  intros Hr Hv. destruct (is_remove o) eqn:E; [|by apply op_keeps]. destruct o; try discriminate. cbn [run_op].
  unfold removeShard. destruct (find_id id (shardMap_ s)) as [e|] eqn:Ef; [|done]. cbn [fst]. rewrite persist_map. cbn [shardMap_ with_map].
  apply find_id_split in Ef as (l1 & l2 & Em). rewrite Em in Hr |- *. by apply remove_ranges.
Qed.

(** Requests from the first on, each valid when it is made. *)
Fixpoint valid_run (s : manager) (ops : list op) : Prop :=
  match ops with [] => True | o :: r => valid_op s o /\ valid_run (run_op s o) r end.

Definition run (s : manager) (ops : list op) : manager := fold_left run_op ops s.

Lemma run_ranges ops : forall s, ranges [] (shardMap_ s) -> valid_run s ops -> ranges [] (shardMap_ (run s ops)).
Proof. induction ops as [|o r IH]; intros s Hr; simpl; [done|]. intros [Hv Hrun]. apply IH; [by apply op_ranges|done]. Qed.

Lemma run_gapless ops : forall s, ranges [] (shardMap_ s) -> gapless [] (shardMap_ s) -> valid_run s ops -> Forall (fun o => is_remove o = false) ops ->
  gapless [] (shardMap_ (run s ops)).
Proof.
  induction ops as [|o r IH]; intros s Hr Hg; simpl; [done|]. intros [Hv Hrun] [Ho Hn]%Forall_cons.
  destruct (op_keeps s o Hr Hv Ho) as [H1 H2]. apply IH; auto.
Qed.

End Run.

(** ** The first map *)

(** Ranges that are not empty, from [lo] up to [hi]. *)
Fixpoint tiled (lo : bytes) (m : std_map ShardInfo) (hi : bytes) : Prop :=
  match m with
  | [] => lo = hi
  | (k, i) :: r => k = lo /\ startKey i = k /\ bytes_lt k (endKey i) /\ tiled (endKey i) r hi
  end.

Lemma tiled_snoc lo l k i : tiled lo l k -> startKey i = k -> bytes_lt k (endKey i) -> tiled lo (l ++ [(k, i)]) (endKey i).
Proof. revert lo. induction l as [|[a x] l IH]; intros lo; simpl; [intros ->; auto|]. intros (? & ? & ? & ?) ? ?. split_and!; auto. Qed.

Lemma tiled_closed lo l k i : tiled lo l k -> startKey i = k -> endKey i = [] -> ranges lo (l ++ [(k, i)]) /\ gapless lo (l ++ [(k, i)]).
Proof.
  revert lo. induction l as [|[a x] l IH]; intros lo; simpl.
  - intros ->. intros. split; [split_and!; auto|auto].
  - intros (-> & H1 & H2 & H3) H4 H5. destruct (IH _ H3 H4 H5) as [H6 H7].
    assert (endKey x <> []) by (intros E; rewrite E in H2; exact (bytes_lt_nil _ H2)). split; [split_and!; auto|auto].
Qed.

Lemma tiled_above lo l k e : tiled lo l k -> e ∈ l -> bytes_le lo e.1 /\ bytes_lt e.1 k.
Proof.
  revert lo. induction l as [|[a x] l IH]; intros lo; simpl; [intros _ []%not_elem_of_nil|].
  intros (-> & H1 & H2 & H3). assert (Hk : bytes_lt lo k).
  { destruct l as [|e' l]; [by rewrite <- H3|]. apply (bytes_lt_trans _ (endKey x)); [done|].
    destruct e' as [b y]. replace (endKey x) with b by apply H3. clear -H3. destruct H3 as (_ & _ & H2 & H3). revert H2 H3. generalize (endKey y). revert b.
    induction l as [|[c z] l IH]; intros b hi H2; simpl; [by intros <-|]. intros (-> & _ & H3 & H4). exact (bytes_lt_trans _ _ _ H2 (IH _ _ H3 H4)). }
  intros [->|He]%elem_of_cons; [auto|]. destruct (IH _ H3 He) as [H4 H5]. split; [|done]. apply (bytes_le_trans _ (endKey x)); auto.
Qed.

Lemma tiled_sorted lo l k : tiled lo l k -> sm_sorted l.
Proof.
  unfold sm_sorted. revert lo. induction l as [|[a x] l IH]; intros lo; simpl; [constructor|]. intros (-> & H1 & H2 & H3).
  apply StronglySorted_cons. split; [|eauto]. apply Forall_forall. intros y (e & -> & He)%list_elem_of_fmap.
  exact (bytes_lt_le_trans _ _ _ H2 (proj1 (tiled_above _ _ _ _ H3 He))).
Qed.

Lemma hex_key_lt a b : 0 <= a < b -> b < 16 -> bytes_lt (hex_key a) (hex_key b).
Proof.
  intros Ha Hb.
  assert (H : forallb (fun x => forallb (fun y => implb (x <? y)%nat (bytes_ltb (hex_key (Z.of_nat x)) (hex_key (Z.of_nat y)))) (seq 0 16)) (seq 0 16) = true) by reflexivity.
  rewrite forallb_forall in H. specialize (H (Z.to_nat a) ltac:(apply in_seq; lia)). rewrite forallb_forall in H.
  specialize (H (Z.to_nat b) ltac:(apply in_seq; lia)). rewrite !Z2Nat.id in H by lia.
  rewrite (proj2 (Nat.ltb_lt _ _)) in H by lia. by apply bytes_ltb_lt.
Qed.

Section Bootstrap.
Context (hosts : list bytes) (n replicaCount : Z) (Hn : 1 <= n <= 2 ^ 27).

(** The bound before the [j]-th shard. *)
Definition bound (j : Z) : bytes := if j =? 0 then [] else hex_key ((j * 16) / n).

Lemma bound_index j : 0 <= j < n -> 0 <= (j * 16) / n < 16.
Proof. intros. split; [apply Z.div_pos; lia|]. apply Z.div_lt_upper_bound; lia. Qed.

Lemma bound_step j : 0 <= j -> j + 1 < n -> bound j = bound (j + 1) \/ bytes_lt (bound j) (bound (j + 1)).
Proof.
  intros Hj Hj1. unfold bound. rewrite (proj2 (Z.eqb_neq (j + 1) 0)) by lia. destruct (j =? 0) eqn:E; [right; done|].
  destruct (bound_index j ltac:(lia)), (bound_index (j + 1) ltac:(lia)).
  assert ((j * 16) / n <= ((j + 1) * 16) / n) by (apply Z.div_le_mono; lia).
  destruct (Z.eq_dec ((j * 16) / n) (((j + 1) * 16) / n)) as [->|]; [by left|]. right. apply hex_key_lt; lia.
Qed.

(** Up to 2^27 shards the product is exact. *)
Lemma bound_exact j : 0 <= j < n -> Z.quot (bound_product j) n = (j * 16) / n.
Proof.
  intros Hj. unfold bound_product, to_signed, u32. rewrite Z.mod_small by lia.
  rewrite (proj2 (Z.ltb_lt _ _)) by lia. apply Z.quot_div_nonneg; lia.
Qed.

Lemma bootstrap_chain j : (Z.of_nat j < n)%Z -> exists l i, bootstrap_loop hosts n replicaCount (S j) = l ++ [(bound (Z.of_nat j), i)] /\
  tiled [] l (bound (Z.of_nat j)) /\ startKey i = bound (Z.of_nat j) /\ endKey i = (if Z.of_nat j =? n - 1 then [] else bound (Z.of_nat j + 1)).
Proof.
  set (shard j := bootstrap_shard hosts n replicaCount (Z.of_nat j)).
  assert (Hs : forall j, Z.of_nat j < n -> startKey (shard j) = bound (Z.of_nat j)).
  { intros j' Hj'. cbn. unfold bound. rewrite bound_exact by lia. done. }
  assert (He : forall j, Z.of_nat j < n -> endKey (shard j) = if Z.of_nat j =? n - 1 then [] else bound (Z.of_nat j + 1)).
  { intros j' Hj'. cbn. unfold bound. rewrite (proj2 (Z.eqb_neq (Z.of_nat j' + 1) 0)) by lia.
    destruct (Z.eqb_spec (Z.of_nat j') (n - 1)); [done|]. rewrite bound_exact by lia. done. }
  induction j as [|j IH]; intros Hj.
  - exists [], (shard 0%nat). split_and!; [done|done|by apply Hs|by apply He].
  - destruct IH as (l & i & El & Ht & Hsi & Hei); [lia|]. rewrite (proj2 (Z.eqb_neq _ _)) in Hei by lia.
    replace (Z.of_nat j + 1) with (Z.of_nat (S j)) in Hei by lia.
    change (bootstrap_loop hosts n replicaCount (S (S j))) with (sm_set (startKey (shard (S j))) (shard (S j)) (bootstrap_loop hosts n replicaCount (S j))).
    specialize (Hs _ Hj). specialize (He _ Hj). rewrite El, Hs. destruct (bound_step (Z.of_nat j)) as [Eb|Hb]; [lia|lia|..]; replace (Z.of_nat j + 1) with (Z.of_nat (S j)) in * by lia.
    + exists l, (shard (S j)). rewrite Eb in *. split_and!; [|done..]. apply sm_set_at.
      apply sm_sorted_app. split_and!; [|repeat constructor|].
      * exact (tiled_sorted _ _ _ Ht).
      * intros a b Ha Hb%list_elem_of_singleton. subst b. exact (proj2 (tiled_above _ _ _ _ Ht Ha)).
    + exists (l ++ [(bound (Z.of_nat j), i)]), (shard (S j)). split_and!; [|rewrite <- Hei; apply tiled_snoc; [done..|by rewrite Hei]|done..].
      rewrite <- (app_nil_r (l ++ _)) at 1. rewrite sm_set_between; [done| |by intros ? ?%not_elem_of_nil].
      intros a Ha. apply elem_of_app in Ha as [Ha|Ha%list_elem_of_singleton]; [|by subst a]. exact (bytes_lt_trans _ _ _ (proj2 (tiled_above _ _ _ _ Ht Ha)) Hb).
Qed.

Lemma bootstrap_tiles : ranges [] (bootstrap_loop hosts n replicaCount (Z.to_nat n)) /\ gapless [] (bootstrap_loop hosts n replicaCount (Z.to_nat n)).
Proof.
  destruct (bootstrap_chain (Z.to_nat n - 1) ltac:(lia)) as (l & i & E & Ht & Hs & He).
  replace (Z.to_nat n) with (S (Z.to_nat n - 1)) by lia. rewrite E. rewrite (proj2 (Z.eqb_eq _ _)) in He by lia. by apply tiled_closed.
Qed.

End Bootstrap.

Lemma env_count_pos v u i : 1 <= u -> 1 <= i -> 1 <= env_count v u i.
Proof. intros. unfold env_count. destruct v; [|done]. destruct (stoi _); lia. Qed.

(** The number of shards of a first start. *)
Definition shard_count (e : env) : Z := env_count (SHARD_COUNT e) 1 1.

Lemma init_tiles `{T : JsonText} e s : map_file s = None -> shardMap_ s = [] -> shard_count e <= 2 ^ 27 -> ranges [] (shardMap_ (init e s)) /\ gapless [] (shardMap_ (init e s)).
Proof.
  intros Hf Hm Hc. unfold init. rewrite Hf, Hm. cbn [shardMap_ with_map]. apply bootstrap_tiles. split; [by apply env_count_pos|exact Hc].
Qed.

(** ** Suggested split keys *)

Lemma bytes_compare_prefix p a b : bytes_compare (p ++ a) (p ++ b) = bytes_compare a b.
Proof. induction p as [|x p IH]; simpl; [done|]. by rewrite Z.compare_refl. Qed.

Lemma common_prefix_spec a b p ra rb : common_prefix a b = (p, ra, rb) -> a = p ++ ra /\ b = p ++ rb.
Proof.
  revert b p ra rb. induction a as [|x a IH]; intros [|y b] p ra rb; simpl; try (intros [= <- <- <-]; done).
  destruct (byte_val x =? byte_val y) eqn:E; [|intros [= <- <- <-]; done].
  destruct (common_prefix a b) as [[p' ra'] rb'] eqn:Ep. intros [= <- <- <-]. apply Z.eqb_eq, byte_val_inj in E as ->.
  destruct (IH _ _ _ _ Ep) as [-> ->]. done.
Qed.

Lemma bytes_lt_cons x y a b : byte_val x < byte_val y -> bytes_lt (x :: a) (y :: b).
Proof. intros H. unfold bytes_lt. simpl. by rewrite (proj2 (Z.compare_lt_iff _ _) H). Qed.

Lemma midpoint_between lo hi k : midpoint_key lo hi = Some k -> bytes_lt lo k /\ bytes_lt k hi.
Proof.
  unfold midpoint_key. destruct (_ || _); [done|]. destruct (common_prefix lo hi) as [[p ra] rb] eqn:E.
  apply common_prefix_spec in E as [-> ->]. destruct ra as [|x ra]; [done|]. destruct rb as [|y rb]; [done|].
  destruct (byte_val x + 1 <? byte_val y) eqn:El; [|done]. apply Z.ltb_lt in El. intros [= <-]. unfold bytes_lt. rewrite !bytes_compare_prefix.
  pose proof (byte_val_range x). pose proof (byte_val_range y).
  assert (byte_val x + 1 <= (byte_val x + byte_val y) / 2) by (apply Z.div_le_lower_bound; lia).
  assert ((byte_val x + byte_val y) / 2 < byte_val y) by (apply Z.div_lt_upper_bound; lia).
  split; apply bytes_lt_cons; rewrite byte_val_of_small; lia.
Qed.

Lemma split_key_inside info k : computeSplitKey info = k -> k <> [] -> endKey info = [] \/ bytes_lt (startKey info) (endKey info) ->
  containsKey info k = true /\ (k = startKey info -> k = str "m" \/ k = str "M").
Proof.
  unfold computeSplitKey. destruct (midpoint_key _ _) as [k0|] eqn:Em.
  { intros <- _ _. apply midpoint_between in Em as [H1 H2]. split; [apply containsKey_spec; auto|]. intros ->. destruct (bytes_lt_irrefl _ H1). }
  destruct (negb _ && containsKey info _) eqn:Es.
  { intros <- _ _. apply andb_true_iff in Es as [_ Es]. split; [done|]. intros E. exfalso.
    apply (f_equal length) in E. rewrite length_app in E. simpl in E. lia. }
  assert (Hfall : (if containsKey info (str "m") then str "m" else if containsKey info (str "M") then str "M" else []) = k -> k <> [] ->
                  containsKey info k = true /\ (k = str "m" \/ k = str "M")).
  { destruct (containsKey info (str "m")) eqn:Hm; [intros <-; auto|]. destruct (containsKey info (str "M")) eqn:HM; [intros <-; auto|]. by intros <-. }
  destruct (bytes_eqb (endKey info) []); [intros E Hk _; destruct (Hfall E Hk); auto|].
  destruct (decremented (rev (endKey info))) as [d|] eqn:Ed; cbn [mbind option_bind]; [|intros E Hk _; destruct (Hfall E Hk); auto].
  destruct (containsKey info d && _) eqn:Ec; cbn [guard_key]; [|intros E Hk _; destruct (Hfall E Hk); auto].
  intros <- _ _. apply andb_true_iff in Ec as [H1 H2]. split; [done|]. intros ->. by rewrite bytes_eqb_refl in H2.
Qed.

(** C19: from a first start with at most 2^27 shards, through any sequence of valid requests (shards created,
    removed, updated, split, merged, migrated, rebalanced, nodes coming and going, whatever becomes of the map's
    file), no key has two shards, every key has one unless a shard was removed, a key is routed to its shard, and a
    query for a range that is not empty lists, in key order, exactly the shards that hold keys of it.  Valid means that a created
    shard has a range, an update does not change the range of its shard, a split is not at the start of the
    shard, and a merge names neither the last shard nor the upper of two neighbours first; the examples below show what the code does
    otherwise.  And a key that is suggested for a split is valid and accepted, when the shard starts neither at m nor at
    M, where the fallback of the suggestion may be the start key itself ([suggests_start_key]). *)
Theorem shard_routing_exact `{T : JsonText} latency rps e s0 ops s :
  map_file s0 = None -> shardMap_ s0 = [] -> shard_count e <= 2 ^ 27 -> s = run latency rps (init e s0) ops -> valid_run latency rps (init e s0) ops ->
  (forall key a b, owns s a key -> owns s b key -> a = b) /\
  (Forall (fun o => is_remove o = false) ops -> forall key, exists a, owns s a key) /\
  (forall key a, owns s a key -> getShardForKey s key = shardId a.2) /\
  (forall lo hi, query_range lo hi -> exists es, getShardsForRange s lo hi = map (fun a => shardId a.2) es /\ sublist es (shardMap_ s) /\
     forall a, a ∈ es <-> exists key, owns s a key /\ bytes_le lo key /\ (hi = [] \/ bytes_lt key hi)) /\
  (forall io id a key, find_id id (shardMap_ s) = Some a -> suggestSplitKey s id = key -> key <> [] -> startKey a.2 <> str "m" -> startKey a.2 <> str "M" ->
     valid_op s (Split io id key) /\ (splitShard io s id key).2 = true).
Proof.
  intros Hf Hm Hn -> Hv. destruct (init_tiles e s0 Hf Hm Hn) as [Hr0 Hg0]. set (s := run latency rps (init e s0) ops).
  assert (Hr : ranges [] (shardMap_ s)) by (by apply run_ranges). split_and!.
  - intros key a b [Ha Hca] [Hb Hcb]. exact (ranges_unique _ _ _ _ _ Hr Ha Hb Hca Hcb).
  - intros Hno key. destruct (gapless_covers [] (shardMap_ s) key Hr) as (a & Ha & Hc); [by apply run_gapless|auto|]. exists a. split; done.
  - intros key a Ha. by apply getShardForKey_owner.
  - intros lo hi Hq. by apply getShardsForRange_exact.
  - intros io id a key Ea Hk Hne Hm1 Hm2. unfold suggestSplitKey in Hk. rewrite Ea in Hk.
    pose proof Ea as (l1 & l2 & El)%find_id_split. assert (Ha : a ∈ shardMap_ s) by (rewrite El; apply elem_of_app; right; left).
    destruct (split_key_inside a.2 key Hk Hne) as [Hc Hs]; [rewrite (proj2 (ranges_above _ _ _ Hr Ha)); exact (ranges_range _ _ _ Hr Ha)|]. split.
    + intros a' Ha'. rewrite Ea in Ha'. injection Ha' as <-. intros ->. destruct (Hs eq_refl); done.
    + unfold splitShard. rewrite Ea. destruct a as [ka ia]. cbn [snd] in Hc. by rewrite Hc.
Qed.

(** ** Restart *)

(** What a shard is after a restart: the latencies and counts of operations start anew. *)
Definition reloaded (i : ShardInfo) : ShardInfo :=
  mkShard (shardId i) (startKey i) (endKey i) (primaryHost i) (replicas i) (status i) (documentCount i) (sizeBytes i)
    (double_of_bits (bits_of_double (loadFactor i))) dzero 0 0 0 0 true.

(** A status that is a 32-bit number, and counts of 64 bits. *)
Definition storable_shard (i : ShardInfo) : Prop :=
  0 <= status_code (status i) < 2 ^ 31 /\ status_of (status_code (status i)) = status i /\ 0 <= documentCount i < 2 ^ 64 /\ 0 <= sizeBytes i < 2 ^ 64.

(** The map as its text is parsed: a status is then unsigned. *)
Definition map_text (m : std_map ShardInfo) : json :=
  JObject [(str "shards", JArray (map (fun e => shard_object (JUInt (status_code (status e.2))) e.2) m))].

Lemma strings_of_strings l : strings_of (map JString l) = Some l.
Proof. induction l as [|s l IH]; simpl; [done|]. by rewrite IH. Qed.

Lemma value_at {A} (get : json -> option A) o k d v a : obj_find k o = Some v -> get v = Some a -> value get (JObject o) k d = Ok a.
Proof. intros H1 H2. unfold value. by rewrite H1, H2. Qed.

Lemma fromJson_text i : storable_shard i -> fromJson (shard_object (JUInt (status_code (status i))) i) = Ok (reloaded i).
Proof.
  intros (Hs & Hs' & Hd & Hz). unfold fromJson, shard_object.
  rewrite (value_at as_string _ (str "shard_id") [] (JString (shardId i)) (shardId i)) by reflexivity. cbn [mbind result_bind].
  rewrite (value_at as_string _ (str "start_key") [] (JString (startKey i)) (startKey i)) by reflexivity. cbn [mbind result_bind].
  rewrite (value_at as_string _ (str "end_key") [] (JString (endKey i)) (endKey i)) by reflexivity. cbn [mbind result_bind].
  rewrite (value_at as_string _ (str "primary") [] (JString (primaryHost i)) (primaryHost i)) by reflexivity. cbn [mbind result_bind].
  rewrite (value_at as_strings _ (str "replicas") [] (JArray (map JString (replicas i))) (replicas i)) by (reflexivity || apply strings_of_strings). cbn [mbind result_bind].
  rewrite (value_at as_i32 _ (str "status") 0 (JUInt (status_code (status i))) (to_signed 32 (u32 (status_code (status i))))) by reflexivity. cbn [mbind result_bind].
  rewrite (value_at as_u64 _ (str "doc_count") 0 (JUInt (documentCount i)) (u64 (documentCount i))) by reflexivity. cbn [mbind result_bind].
  rewrite (value_at as_u64 _ (str "size_bytes") 0 (JUInt (sizeBytes i)) (u64 (sizeBytes i))) by reflexivity. cbn [mbind result_bind].
  rewrite (value_at as_double _ (str "load_factor") dzero (JFloat (bits_of_double (loadFactor i))) (double_of_bits (bits_of_double (loadFactor i)))) by reflexivity. cbn [mbind result_bind].
  unfold u64, u32, to_signed, reloaded. rewrite !Z.mod_small by lia. change (32 - 1) with 31. rewrite (proj2 (Z.ltb_lt _ _)) by lia. by rewrite Hs'.
Qed.

Lemma load_sorted m acc : Forall (fun e => startKey e.2 = e.1 /\ storable_shard e.2) m -> sm_sorted (acc ++ m) ->
  load_shards (map (fun e => shard_object (JUInt (status_code (status e.2))) e.2) m) acc = acc ++ map (fun e => (e.1, reloaded e.2)) m.
Proof.
  revert acc. induction m as [|[k i] m IH]; intros acc; cbn [map load_shards]; [by rewrite app_nil_r|].
  intros [[Hk Hst] Hm]%Forall_cons Hs. cbn [snd fst] in *. rewrite fromJson_text by done.
  apply sm_sorted_fresh in Hs as Hf. destruct Hf as [Hf1 Hf2].
  change (startKey (reloaded i)) with (startKey i). rewrite Hk.
  rewrite <- (app_nil_r acc) at 1. rewrite sm_set_between; [|done|by intros ? ?%not_elem_of_nil].
  rewrite IH; [by rewrite <- app_assoc|done|]. unfold sm_sorted in *. rewrite <- app_assoc, !map_app in *. exact Hs.
Qed.

(** A map that was written completely is the one a restart loads. *)
Lemma restart_reloads `{T : JsonText} e io s text : ranges [] (shardMap_ s) -> shardMap_ s <> [] -> Forall (fun a => storable_shard a.2) (shardMap_ s) ->
  io = MapWritten -> json_dump (map_json (shardMap_ s)) = Some text -> json_parse text = Some (map_text (shardMap_ s)) ->
  shardMap_ (init e (mkManager [] [] ∅ (map_file (persistShardMap io s)))) = map (fun a => (a.1, reloaded a.2)) (shardMap_ s).
Proof.
  intros Hr Hne Hst -> Hd Hp. unfold init, persistShardMap. cbn [map_file shardMap_]. rewrite Hd. unfold loadShardMap. change (default [] (Some text)) with text. rewrite Hp. unfold map_text.
  match goal with |- context [elements_of ?x] => change (elements_of x) with (map (fun a : bytes * ShardInfo => shard_object (JUInt (status_code (status a.2))) a.2) (shardMap_ s)) end.
  rewrite (load_sorted (shardMap_ s) []).
  - cbn [app with_map shardMap_]. destruct (shardMap_ s); done.
  - rewrite Forall_forall in Hst |- *. intros a Ha. split; [exact (proj2 (ranges_above _ _ _ Hr Ha))|auto].
  - exact (ranges_sorted _ _ Hr).
Qed.

(** ** Rebalancing *)

(** The [j]-th shard goes to the [j mod n]-th live node, so no node gets more than its share. *)
Lemma assign_lookup hosts m : hosts <> [] -> forall idx j e, (idx < length hosts)%nat -> assign_round_robin hosts idx m !! j = Some e ->
  hosts !! ((idx + j) mod length hosts)%nat = Some (primaryHost e.2).
Proof.
  intros Hne. assert (Hl : length hosts <> 0%nat) by (by destruct hosts). induction m as [|[k i] m IH]; intros idx j e Hidx; simpl; [done|].
  destruct (lookup_lt_is_Some_2 hosts idx Hidx) as [h Hh]. rewrite Hh. destruct j as [|j]; simpl.
  - intros [= <-]. by rewrite Nat.add_0_r, Nat.mod_small.
  - intros H. apply IH in H; [|by apply Nat.mod_upper_bound]. rewrite <- H. f_equal. rewrite Nat.Div0.add_mod_idemp_l. f_equal. lia.
Qed.

Lemma rebalance_round_robin `{T : JsonText} io s j a : shardMap_ (rebalanceShards io s).1 !! j = Some a -> (rebalanceShards io s).2 = true ->
  exists n, live_nodes s !! (j mod getActiveNodes s)%nat = Some n /\ primaryHost a.2 = node_address n.
Proof.
  unfold rebalanceShards, getActiveNodes. destruct s as [m ns q f]. cbn [nodes_ shardMap_]. destruct ns as [|n0 ns]; [done|]. destruct m as [|e m]; [done|].
  destruct (live_nodes _) as [|n1 live] eqn:El; [done|]. cbn [fst]. rewrite persist_map. cbn [shardMap_ with_map]. intros H _.
  apply assign_lookup in H; [|done|simpl; lia]. rewrite Nat.add_0_l, length_map, <- El in H. rewrite <- El. apply list_lookup_fmap_Some in H as (n & Hn & Hl). eauto.
Qed.

(** ** Concrete runs *)

Module ShardExamples.

#[local] Instance text : JsonText := {| json_dump := fun v => Some (to_msgpack v); json_parse := from_msgpack |}.

Definition env_of (count : string) : env := mkEnv (Some (str count)) None (Some (str "a:1,,b:2")) None None.
Definition none : manager := mkManager [] [] ∅ None.
Definition two : manager := init (env_of "2") none.
Definition node (id : string) : ClusterNode := mkNode (str id) (str "10.0.0.1") 9000 true 0 dzero dzero dzero dzero.
Definition go : manager -> list op -> manager := run (double_of_int 50) (double_of_int 100).
Definition views (s : manager) : list (bytes * bytes * bytes) := map (fun e => (shardId e.2, startKey e.2, endKey e.2)) (shardMap_ s).

Definition requests : list op :=
  [Register (node "n") 5; Split MapWritten (str "shard-0") (str "2"); Migrate MapUnopened (str "shard-3") (str "n"); Rebalance (MapShort 3);
   Merge MapWritten (str "shard-1") (str "shard-2"); Create MapWritten (new_shard (str "x") (str "5") [] (str "h") []);
   Operation (str "shard-3") (str "read") (double_of_int 3) 7 true; QueryLoad (str "shard-3") (double_of_int 3) 12; Monitor 40].

Example requests_map : views (go (init (env_of "4") none) requests) =
  [(str "shard-0", [], str "2"); (str "shard-0-split", str "2", str "4"); (str "shard-1", str "4", str "c"); (str "shard-3", str "c", [])].
Proof. vm_compute. reflexivity. Qed.

(** More shards than hexadecimal digits: seventeen are made, and they cover the keys. *)
Example seventeen_shards : length (shardMap_ (init (env_of "100") none)) = 17%nat.
Proof. vm_compute. reflexivity. Qed.

Lemma shard_routing_exact_witness :
  getShardForKey (go (init (env_of "4") none) requests) (str "3f") = str "shard-0-split" /\
  (forall key, exists a, owns (go (init (env_of "4") none) requests) a key).
Proof.
  assert (Hv : valid_run (double_of_int 50) (double_of_int 100) (init (env_of "4") none) requests).
  { cbn [valid_run requests]. split_and!; try exact I.
    - intros e E. vm_compute in E. injection E as <-. vm_compute. discriminate.
    - intros e1 e2 E1 E2. vm_compute in E1, E2. injection E1 as <-. injection E2 as <-. vm_compute. split; discriminate.
    - left. reflexivity. }
  destruct (shard_routing_exact (double_of_int 50) (double_of_int 100) (env_of "4") none requests _ eq_refl eq_refl ltac:(vm_compute; discriminate) eq_refl Hv) as (_ & Hall & Hroute & _).
  assert (Hno : Forall (fun o => is_remove o = false) requests) by (repeat constructor). split; [|exact (Hall Hno)].
  vm_compute. reflexivity.
Defined.

(** A restart loads the map that was written. *)
Example reload_requests : let s := go (init (env_of "4") none) requests in
  shardMap_ (init (env_of "1") (mkManager [] [] ∅ (map_file (persistShardMap MapWritten s)))) = map (fun a => (a.1, reloaded a.2)) (shardMap_ s).
Proof. vm_compute. reflexivity. Qed.

(** Splitting a shard at its own start replaces it: the shard, its hosts and its counts are gone. *)
Example split_at_start_drops_shard : (splitShard MapWritten two (str "shard-1") (str "8")).2 = true /\
  views (splitShard MapWritten two (str "shard-1") (str "8")).1 = [(str "shard-0", [], str "8"); (str "shard-1-split", str "8", [])].
Proof. vm_compute. split; reflexivity. Qed.

(** Two splits of a shard give two shards with one id. *)
Example second_split_repeats_id : views (go two [Split MapWritten (str "shard-0") (str "4"); Split MapWritten (str "shard-0") (str "2")]) =
  [(str "shard-0", [], str "2"); (str "shard-0-split", str "2", str "4"); (str "shard-0-split", str "4", str "8"); (str "shard-1", str "8", [])].
Proof. vm_compute. reflexivity. Qed.

(** The open end of the last shard equals the open start of the first: they merge, and no shard is left for any key. *)
Example merge_wraps_around : (mergeShard MapWritten two (str "shard-1") (str "shard-0")).2 = true /\
  views (mergeShard MapWritten two (str "shard-1") (str "shard-0")).1 = [(str "shard-1", str "8", str "8")].
Proof. vm_compute. split; reflexivity. Qed.

(** The only shard merged with itself is erased. *)
Example merge_with_itself_erases : (mergeShard MapWritten (init (env_of "1") none) (str "shard-0") (str "shard-0")).2 = true /\
  shardMap_ (mergeShard MapWritten (init (env_of "1") none) (str "shard-0") (str "shard-0")).1 = [].
Proof. vm_compute. split; reflexivity. Qed.

(** Merging a shard with its lower neighbour leaves it under its old key; a split at that key then overwrites it,
    and the keys of the lower half have no shard. *)
Example merge_down_then_split_loses_range :
  let s := go (init (env_of "4") none) [Merge MapWritten (str "shard-2") (str "shard-1"); Split MapWritten (str "shard-2") (str "8")] in
  views s = [(str "shard-0", [], str "4"); (str "shard-2-split", str "8", str "c"); (str "shard-3", str "c", [])] /\ getShardForKey s (str "5") = str "shard-0".
Proof. vm_compute. split; reflexivity. Qed.

(** A shard with an empty range passes the overlap test at a boundary and replaces the shard that starts there. *)
Example empty_range_replaces_shard : (createShard MapWritten two (new_shard (str "x") (str "8") (str "8") [] [])).2 = true /\
  views (createShard MapWritten two (new_shard (str "x") (str "8") (str "8") [] [])).1 = [(str "shard-0", [], str "8"); (str "x", str "8", str "8")].
Proof. vm_compute. split; reflexivity. Qed.

(** The suggestion for a range that holds one key is that key. *)
Example suggests_start_key : computeSplitKey (new_shard (str "x") (str "m") (str "m" ++ [Byte.x00]) [] []) = str "m".
Proof. vm_compute. reflexivity. Qed.

(** The file is truncated before the text is made or written: after a short write the
    next start finds no map it can read and makes the default ranges. *)
Example short_write_resets_map : let s := go two [Split (MapShort 5) (str "shard-1") (str "c")] in
  length (shardMap_ s) = 3%nat /\ views (init (env_of "2") (mkManager [] [] ∅ (map_file s))) = views two.
Proof. vm_compute. split; reflexivity. Qed.

End ShardExamples.
