(* ===== verification/TaskQueue.v ===== *)
(** * Task queues: lanes and the priority queue (db_task_queue.cpp)

    A task waits in the lane of its priority, in the deque of its collection, which is
    ordered by cost and age.  [popNextTaskLocked] serves the lanes in turn, each for
    its budget, and the collections of a lane round robin.  The lanes and their
    invariant are shared with the sharded queue. *)

From stdpp Require Import base list gmap strings sorting.
From Stdlib Require Import ZArith Lia.
From S2P Require Import Prelude.

Open Scope Z_scope.

Inductive Priority := HIGH | MEDIUM | LOW.

#[export] Instance priority_eq_dec : EqDecision Priority.
Proof. solve_decision. Defined.

(** [(cursor + 1) % 3] *)
Definition next_priority (p : Priority) : Priority := match p with HIGH => MEDIUM | MEDIUM => LOW | LOW => HIGH end.

Definition priorityQuantum_ (p : Priority) : Z := match p with HIGH => 8 | MEDIUM => 4 | LOW => 2 end.

Section Queue.
Context {Task : Type}.

Record TaskEnvelope := mkEnvelope { task : Task; priority : Priority; collection : bytes; costHint : Z; sequence : Z }.

(** The comparison of [std::upper_bound]. *)
Definition envelope_ltb (lhs rhs : TaskEnvelope) : bool :=
  if negb (costHint lhs =? costHint rhs) then costHint lhs <? costHint rhs else sequence lhs <? sequence rhs.

(** [q.insert(upper_bound(q, envelope), envelope)]: before the first that is greater. *)
Fixpoint insert_envelope (e : TaskEnvelope) (q : list TaskEnvelope) : list TaskEnvelope :=
  match q with
  | [] => [e]
  | x :: r => if envelope_ltb e x then e :: q else x :: insert_envelope e r
  end.

(** One priority: the deques by collection, the order of the collections, the next of
    them, and what is left of the budget. *)
Record lane := mkLane { buckets : gmap bytes (list TaskEnvelope); order : list bytes; rrIndex : nat; budget : Z }.

Definition lane_enqueue (l : lane) (e : TaskEnvelope) : lane :=
  match buckets l !! collection e with
  | None => mkLane (<[collection e := insert_envelope e []]> (buckets l)) (order l ++ [collection e]) (rrIndex l) (budget l)
  | Some q => mkLane (<[collection e := insert_envelope e q]> (buckets l)) (order l) (rrIndex l) (budget l)
  end.

Record queue := mkQueue { lanes : Priority -> lane; priorityCursor_ : Priority; totalQueued_ : Z; sequence_ : Z; maxQueueSize_ : Z }.

Definition lane_new (p : Priority) : lane := mkLane ∅ [] 0 (priorityQuantum_ p).
Definition queue_new (maxQueue : Z) : queue := mkQueue lane_new HIGH 0 0 maxQueue.

Definition set_lane (f : Priority -> lane) (p : Priority) (l : lane) : Priority -> lane := fun p' => if decide (p' = p) then l else f p'.

Definition make_envelope (seq : Z) (t : Task) (p : Priority) (coll : bytes) (cost : Z) : TaskEnvelope :=
  mkEnvelope t p (if bytes_eqb coll [] then str "__default__" else coll) (Z.max 1 cost) seq.

(** [enqueue], from the point where a producer that waited for a slot holds the lock again. *)
Definition enqueue (q : queue) (t : Task) (p : Priority) (coll : bytes) (cost : Z) : queue * bool :=
  if maxQueueSize_ q <=? totalQueued_ q then (q, false) else
  let seq := u64 (sequence_ q + 1) in
  (mkQueue (set_lane (lanes q) p (lane_enqueue (lanes q p) (make_envelope seq t p coll cost))) (priorityCursor_ q)
     (totalQueued_ q + 1) seq (maxQueueSize_ q), true).

(** The loop of [popFromPriority]; [attempts] counts down. *)
Fixpoint pop_attempts (attempts : nat) (l : lane) : option TaskEnvelope * lane :=
  match attempts with
  | O => (None, l)
  | S n =>
      let rr := if (length (order l) <=? rrIndex l)%nat then 0%nat else rrIndex l in
      match order l !! rr with
      | None => (None, l)
      | Some key =>
          let order' := delete rr (order l) in
          let rr' := if (length order' <=? rr)%nat then 0%nat else rr in
          match buckets l !! key with
          | None | Some [] => pop_attempts n (mkLane (delete key (buckets l)) order' rr' (budget l))
          | Some [t] => (Some t, mkLane (delete key (buckets l)) order' (match order' with [] => rr | _ => rr' end) (budget l))
          | Some (t :: rest) => (Some t, mkLane (<[key := rest]> (buckets l)) (order l) ((rr + 1) mod length (order l))%nat (budget l))
          end
      end
  end.

Definition popFromPriority (l : lane) : option TaskEnvelope * lane := pop_attempts (length (order l)) l.

Definition set_budget (l : lane) (b : Z) : lane := mkLane (buckets l) (order l) (rrIndex l) b.

(** [priorityBudgetRemaining_[p] = priorityQuantum_[p]] *)
Definition renew (p : Priority) (l : lane) : lane := set_budget l (priorityQuantum_ p).

(** The lane at the cursor becomes [l] with a new budget, and the cursor goes on. *)
Definition pass_lane (q : queue) (l : lane) (total : Z) : queue :=
  let p := priorityCursor_ q in mkQueue (set_lane (lanes q) p (renew p l)) (next_priority p) total (sequence_ q) (maxQueueSize_ q).

(** The loop of [popNextTaskLocked]; [n] lanes are left to check. *)
Fixpoint pop_lanes (n : nat) (q : queue) : option TaskEnvelope * queue :=
  match n with
  | O => (None, q)
  | S n' =>
      let p := priorityCursor_ q in
      if budget (lanes q p) =? 0 then pop_lanes n' (pass_lane q (lanes q p) (totalQueued_ q)) else
      match popFromPriority (lanes q p) with
      | (Some t, l) =>
          let l := set_budget l (if 0 <? budget l then budget l - 1 else budget l) in
          (Some t, if (budget l =? 0) || bool_decide (order l = []) then pass_lane q l (totalQueued_ q - 1)
                   else mkQueue (set_lane (lanes q) p l) p (totalQueued_ q - 1) (sequence_ q) (maxQueueSize_ q))
      | (None, l) => pop_lanes n' (pass_lane q l (totalQueued_ q))
      end
  end.

Definition popNextTaskLocked (q : queue) : option TaskEnvelope * queue := if totalQueued_ q =? 0 then (None, q) else pop_lanes 3 q.

(** What a worker takes under the lock: up to [max(1, batchSize)] tasks. *)
Fixpoint take_batch (limit : nat) (q : queue) : list TaskEnvelope * queue :=
  match limit with
  | O => ([], q)
  | S n => match popNextTaskLocked q with
           | (Some t, q) => let '(ts, q) := take_batch n q in (t :: ts, q)
           | (None, q) => ([], q)
           end
  end.

(** ** Lanes *)

Definition lane_tasks (l : lane) : list TaskEnvelope := concat (map_to_list (buckets l)).*2.

Definition env_le (a b : TaskEnvelope) : Prop := envelope_ltb b a = false.

Definition bucket_ok (p : Priority) (k : bytes) (q : list TaskEnvelope) : Prop :=
  q <> [] /\ StronglySorted env_le q /\ Forall (fun e => collection e = k /\ priority e = p) q.

(** The order lists the collections that have tasks, each once. *)
Definition lane_ok (p : Priority) (l : lane) : Prop :=
  (forall k, k ∈ order l <-> is_Some (buckets l !! k)) /\ NoDup (order l) /\ map_Forall (bucket_ok p) (buckets l).

Lemma envelope_ltb_spec a b : envelope_ltb a b = true <-> costHint a < costHint b \/ (costHint a = costHint b /\ sequence a < sequence b).
Proof.
  unfold envelope_ltb. destruct (Z.eqb_spec (costHint a) (costHint b)) as [E|E]; simpl; rewrite Z.ltb_lt; lia.
Qed.

Lemma env_le_spec a b : env_le a b <-> costHint a < costHint b \/ (costHint a = costHint b /\ sequence a <= sequence b).
Proof. unfold env_le. rewrite <- not_true_iff_false, envelope_ltb_spec. lia. Qed.

Lemma insert_envelope_perm e q : insert_envelope e q ≡ₚ e :: q.
Proof. induction q as [|x q IH]; simpl; [done|]. destruct (envelope_ltb e x); [done|]. rewrite IH. constructor. Qed.

Lemma insert_envelope_sorted e q : StronglySorted env_le q -> StronglySorted env_le (insert_envelope e q).
Proof.
  induction q as [|x q IH]; simpl; [intros _; repeat constructor|]. intros [Hx Hq]%StronglySorted_cons.
  destruct (envelope_ltb e x) eqn:E.
  - apply StronglySorted_cons. split; [|by apply StronglySorted_cons].
    assert (Hex : env_le e x) by (apply env_le_spec; apply envelope_ltb_spec in E; lia).
    constructor; [done|]. eapply Forall_impl; [exact Hx|]. intros y Hy. rewrite env_le_spec in *. lia.
  - apply StronglySorted_cons. split; [|auto]. rewrite insert_envelope_perm. constructor; done.
Qed.

Lemma lane_tasks_insert b o r bu k q : b !! k = None -> lane_tasks (mkLane (<[k := q]> b) o r bu) ≡ₚ q ++ lane_tasks (mkLane b o r bu).
Proof. intros H. unfold lane_tasks. simpl. rewrite map_to_list_insert by done. done. Qed.

Lemma lane_tasks_at b o r bu o' r' bu' k q : b !! k = Some q -> lane_tasks (mkLane b o r bu) ≡ₚ q ++ lane_tasks (mkLane (delete k b) o' r' bu').
Proof. intros H. unfold lane_tasks. simpl. rewrite <- (map_to_list_delete b k q H). done. Qed.

Lemma lane_tasks_set b o r bu o' r' bu' k q q' : b !! k = Some q ->
  lane_tasks (mkLane (<[k := q']> b) o r bu) ≡ₚ q' ++ lane_tasks (mkLane (delete k b) o' r' bu').
Proof.
  intros H. rewrite <- insert_delete_eq. unfold lane_tasks. simpl. rewrite map_to_list_insert by apply lookup_delete_eq. done.
Qed.

Lemma lane_enqueue_tasks l e : lane_tasks (lane_enqueue l e) ≡ₚ e :: lane_tasks l.
Proof.
  unfold lane_enqueue. destruct l as [b o r bu]. cbn [buckets order rrIndex budget]. destruct (b !! collection e) as [q|] eqn:E.
  - rewrite (lane_tasks_set _ _ _ _ o r bu _ _ _ E), (lane_tasks_at b o r bu o r bu _ _ E), insert_envelope_perm. done.
  - rewrite lane_tasks_insert by done. done.
Qed.

Lemma lane_enqueue_ok p l e : priority e = p -> lane_ok p l -> lane_ok p (lane_enqueue l e).
Proof.
  intros Hp (Ho & Hn & Hb). unfold lane_enqueue. destruct (buckets l !! collection e) as [q|] eqn:E; split_and!; cbn [order buckets].
  - intros k. rewrite Ho. destruct (decide (collection e = k)) as [<-|Hk]; [by rewrite lookup_insert_eq, E|by rewrite lookup_insert_ne].
  - done.
  - apply map_Forall_insert_2; [|done]. destruct (Hb _ _ E) as (H1 & H2 & H3). split_and!.
    + intros H. apply (f_equal length) in H. rewrite insert_envelope_perm in H. done.
    + by apply insert_envelope_sorted.
    + rewrite insert_envelope_perm. by constructor.
  - intros k. rewrite elem_of_app, list_elem_of_singleton, Ho. destruct (decide (collection e = k)) as [<-|Hk].
    + rewrite lookup_insert_eq. split; [by eexists|auto].
    + rewrite lookup_insert_ne by done. split; [intros [?|Hk']; [done|congruence]|auto].
  - apply NoDup_app. split_and!; [done| |apply NoDup_singleton]. intros k Hk Hk'%list_elem_of_singleton. subst k. apply Ho in Hk. rewrite E in Hk. by apply is_Some_None in Hk.
  - apply map_Forall_insert_2; [|done]. simpl. split_and!; [done|repeat constructor|by constructor].
Qed.

Lemma lane_tasks_nil p l : lane_ok p l -> order l = [] <-> lane_tasks l = [].
Proof.
  intros (Ho & _ & Hb). split.
  - intros E. unfold lane_tasks. replace (buckets l) with (∅ : gmap bytes (list TaskEnvelope)); [by rewrite map_to_list_empty|].
    symmetry. apply map_empty. intros k. apply eq_None_not_Some. rewrite <- Ho, E. apply not_elem_of_nil.
  - intros E. destruct (order l) as [|k o] eqn:Eo; [done|exfalso]. destruct (proj1 (Ho k) ltac:(left)) as [q Hq].
    destruct l as [b o' r bu]. cbn [buckets] in *. pose proof (lane_tasks_at b o' r bu o' r bu k q Hq) as HP. rewrite E in HP. apply Permutation_nil_l in HP.
    destruct (Hb k q Hq) as [Hne _]. destruct q; done.
Qed.

Lemma lane_tasks_elem p l e : lane_ok p l -> e ∈ lane_tasks l <-> exists q, buckets l !! collection e = Some q /\ e ∈ q.
Proof.
  intros (_ & _ & Hb). unfold lane_tasks. rewrite list_elem_of_In, in_concat. split.
  - intros (q & Hq%list_elem_of_In & He%list_elem_of_In). apply list_elem_of_fmap in Hq as ([k q'] & -> & Hk). simpl in *. apply elem_of_map_to_list in Hk.
    exists q'. destruct (Hb _ _ Hk) as (_ & _ & Hf). rewrite Forall_forall in Hf. by rewrite (proj1 (Hf e He)).
  - intros (q & Hq & He). exists q. split; apply list_elem_of_In; [|done]. apply list_elem_of_fmap. exists (collection e, q). split; [done|]. by apply elem_of_map_to_list.
Qed.

(** Erasing an index of a list without repetitions. *)
Lemma delete_nodup (o : list bytes) i k : o !! i = Some k -> NoDup o -> NoDup (delete i o) /\ forall x, x ∈ delete i o <-> x ∈ o /\ x <> k.
Proof.
  intros Hi Hn. rewrite delete_take_drop. pose proof (take_drop_middle o i k Hi) as E. rewrite <- E in Hn.
  apply NoDup_app in Hn as (H1 & H2 & H3). apply NoDup_cons in H3 as [H3 H4]. split.
  - apply NoDup_app. split_and!; [done| |done]. intros x Hx Hx'. apply (H2 x Hx). by right.
  - intros x. assert (Ex : x ∈ o <-> x ∈ take i o ++ k :: drop (S i) o) by (by rewrite E). rewrite Ex, !elem_of_app, elem_of_cons. split.
    + intros [Hx|Hx]; (split; [tauto|]); intros ->; [apply (H2 k Hx); left|done].
    + intros [[?|[->|?]] ?]; [by left|done|by right].
Qed.

(** A lane with tasks gives the first of one of its collections. *)
Lemma popFromPriority_some p l : lane_ok p l -> order l <> [] -> exists e l', popFromPriority l = (Some e, l') /\ lane_ok p l' /\
  lane_tasks l ≡ₚ e :: lane_tasks l' /\ priority e = p /\ budget l' = budget l /\ (forall x, x ∈ lane_tasks l -> collection x = collection e -> env_le e x).
Proof.
  intros Hok Hne. pose proof Hok as (Ho & Hn & Hb). unfold popFromPriority. destruct (length (order l)) as [|n] eqn:El; [by apply nil_length_inv in El|].
  cbn [pop_attempts]. rewrite El. set (rr := if (S n <=? rrIndex l)%nat then 0%nat else rrIndex l).
  assert (Hrr : (rr < length (order l))%nat) by (unfold rr; destruct (Nat.leb_spec (S n) (rrIndex l)); lia).
  destruct (lookup_lt_is_Some_2 _ _ Hrr) as [key Hkey]. rewrite Hkey.
  assert (Hk : key ∈ order l) by (by eapply list_elem_of_lookup_2). destruct (proj1 (Ho key) Hk) as [q Hq]. rewrite Hq.
  destruct (Hb _ _ Hq) as (Hqn & Hqs & Hqf). destruct q as [|e q]; [done|]. apply Forall_cons in Hqf as [[Hec Hep] Hqf].
  assert (Hmin : forall x, x ∈ lane_tasks l -> collection x = collection e -> env_le e x).
  { intros x Hx Hxe. apply (lane_tasks_elem p) in Hx as (q' & Hq' & Hx); [|done]. rewrite Hxe, Hec, Hq in Hq'. injection Hq' as <-.
    apply StronglySorted_cons in Hqs as [Hqs _]. apply elem_of_cons in Hx as [->|Hx]; [apply env_le_spec; lia|]. rewrite Forall_forall in Hqs. auto. }
  destruct (delete_nodup _ _ _ Hkey Hn) as [Hn' Hd]. destruct q as [|e2 q].
  - eexists e, _. split; [reflexivity|]. split_and!; [..|done|done|done].
    + split_and!; cbn [order buckets]; [|done|by apply map_Forall_delete]. intros k. rewrite Hd, Ho. destruct (decide (k = key)) as [->|Hk'].
      * rewrite lookup_delete_eq. split; [tauto|by intros ?%is_Some_None].
      * rewrite lookup_delete_ne by done. tauto.
    + destruct l as [b o r bu]. exact (lane_tasks_at b o r bu _ _ _ key [e] Hq).
  - eexists e, _. split; [reflexivity|]. split_and!; [..|done|done|done].
    + split_and!; cbn [order buckets]; [|done|].
      * intros k. rewrite Ho. destruct (decide (key = k)) as [<-|Hk']; [by rewrite lookup_insert_eq, Hq|by rewrite lookup_insert_ne].
      * apply map_Forall_insert_2; [|done]. apply StronglySorted_cons in Hqs as [_ Hqs]. done.
    + destruct l as [b o r bu]. cbn [buckets] in *. rewrite (lane_tasks_at b o r bu o r bu key _ Hq).
      rewrite (lane_tasks_set b _ _ _ o r bu key _ (e2 :: q) Hq). done.
Qed.

(** ** The queue *)

Definition tasks (q : queue) : list TaskEnvelope := lane_tasks (lanes q HIGH) ++ lane_tasks (lanes q MEDIUM) ++ lane_tasks (lanes q LOW).

(** Only the lane at the cursor has used some of its budget, and never all of it. *)
Definition budgets_ok (q : queue) : Prop :=
  0 < budget (lanes q (priorityCursor_ q)) <= priorityQuantum_ (priorityCursor_ q) /\
  forall p, p <> priorityCursor_ q -> budget (lanes q p) = priorityQuantum_ p.

Definition queue_ok (q : queue) : Prop :=
  (forall p, lane_ok p (lanes q p)) /\ budgets_ok q /\ totalQueued_ q = Z.of_nat (length (tasks q)).

(** How many tasks of other priorities can be taken before one of [p]. *)
Definition distance (q : queue) (p : Priority) : Z :=
  let c := priorityCursor_ q in
  if decide (c = p) then 0 else budget (lanes q c) + (if decide (next_priority c = p) then 0 else priorityQuantum_ (next_priority c)).

Definition wait_bound (p : Priority) : Z := match p with HIGH => 6 | MEDIUM => 10 | LOW => 12 end.

Lemma distance_bound q p : budgets_ok q -> 0 <= distance q p <= wait_bound p.
Proof. intros [Hb _]. unfold distance. destruct (priorityCursor_ q), p; simpl in *; repeat case_decide; simpl; try discriminate; lia. Qed.

Lemma set_lane_eq f p l : set_lane f p l p = l.
Proof. unfold set_lane. by rewrite decide_True. Qed.

Lemma set_lane_ne f p l p' : p' <> p -> set_lane f p l p' = f p'.
Proof. intros. unfold set_lane. by rewrite decide_False. Qed.

Lemma set_lane_cases (P : Priority -> lane -> Prop) f p l : P p l -> (forall p', p' <> p -> P p' (f p')) -> forall p', P p' (set_lane f p l p').
Proof. intros Hp Hf p'. unfold set_lane. destruct (decide (p' = p)) as [->|]; auto. Qed.

(** The tasks of a queue in which one lane has changed. *)
Lemma tasks_set_lane q p l c n s m x : (x ++ lane_tasks l ≡ₚ lane_tasks (lanes q p)) -> x ++ tasks (mkQueue (set_lane (lanes q) p l) c n s m) ≡ₚ tasks q.
Proof.
  intros H. unfold tasks. cbn [lanes]. destruct p; rewrite set_lane_eq, !set_lane_ne by done; rewrite <- H, <- ?app_assoc.
  - done.
  - apply Permutation_app_swap_app.
  - rewrite Permutation_app_swap_app. apply Permutation_app_head. apply Permutation_app_swap_app.
Qed.

Lemma set_budget_ok p l b : lane_ok p l -> lane_ok p (set_budget l b).
Proof. done. Qed.

(** The cursor leaves a lane that has become [l], of which [x] was taken. *)
Lemma pass_ok q l x total : (forall p, lane_ok p (lanes q p)) -> budgets_ok q -> lane_ok (priorityCursor_ q) l ->
  x ++ lane_tasks l ≡ₚ lane_tasks (lanes q (priorityCursor_ q)) -> total + Z.of_nat (length x) = Z.of_nat (length (tasks q)) ->
  queue_ok (pass_lane q l total) /\ x ++ tasks (pass_lane q l total) ≡ₚ tasks q /\
  forall p, p <> priorityCursor_ q -> distance (pass_lane q l total) p < distance q p.
Proof.
  intros Hl [Hb1 Hb2] Hok Hx Ht. set (c := priorityCursor_ q) in *.
  assert (HP : x ++ tasks (pass_lane q l total) ≡ₚ tasks q) by (by apply tasks_set_lane).
  assert (Hq : forall p, budget (lanes (pass_lane q l total) p) = priorityQuantum_ p).
  { cbn [lanes pass_lane]. apply (set_lane_cases (fun p l => budget l = priorityQuantum_ p)); [done|]. auto. }
  split_and!; [|done|].
  - split_and!.
    + cbn [lanes pass_lane]. apply set_lane_cases; [by apply set_budget_ok|]; auto.
    + split; [rewrite Hq; destruct (priorityCursor_ (pass_lane q l total)); simpl; lia|]. intros p _. apply Hq.
    + cbn [totalQueued_ pass_lane]. apply Permutation_length in HP. rewrite length_app in HP. lia.
  - intros p Hp. unfold distance. rewrite Hq. cbn [priorityCursor_ pass_lane]. fold c. rewrite (decide_False (P := c = p)) by congruence.
    destruct c, p; simpl in *; repeat case_decide; simpl; try discriminate; try done; lia.
Qed.

(** What taking [e] does to a queue. *)
Definition taken (q : queue) (e : TaskEnvelope) (q' : queue) : Prop :=
  queue_ok q' /\ tasks q ≡ₚ e :: tasks q' /\ sequence_ q' = sequence_ q /\ maxQueueSize_ q' = maxQueueSize_ q /\
  (forall x, x ∈ lane_tasks (lanes q (priority e)) -> collection x = collection e -> env_le e x) /\
  (forall p, lane_tasks (lanes q p) <> [] -> priority e <> p -> distance q' p < distance q p).

Lemma pop_hit n q : queue_ok q -> order (lanes q (priorityCursor_ q)) <> [] -> exists e q', pop_lanes (S n) q = (Some e, q') /\ taken q e q'.
Proof.
  intros (Hl & Hb & Ht) Hne. cbn [pop_lanes]. set (c := priorityCursor_ q) in *. pose proof Hb as [Hb1 Hb2]. fold c in Hb1.
  rewrite (proj2 (Z.eqb_neq (budget (lanes q c)) 0)) by lia.
  destruct (popFromPriority_some c (lanes q c) (Hl c) Hne) as (e & l' & -> & Hok & HP & Hpr & Hbl & Hmin).
  set (l := set_budget l' _). assert (Hbud : budget l = budget (lanes q c) - 1) by (cbn; rewrite Hbl, (proj2 (Z.ltb_lt 0 _)) by lia; done).
  assert (HlP : [e] ++ lane_tasks l ≡ₚ lane_tasks (lanes q c)) by (symmetry; exact HP).
  assert (Htot : totalQueued_ q - 1 + Z.of_nat (length [e]) = Z.of_nat (length (tasks q))) by (simpl; lia).
  eexists e, _. split; [reflexivity|]. destruct ((budget l =? 0) || bool_decide (order l = [])) eqn:Eleave.
  - destruct (pass_ok q l [e] (totalQueued_ q - 1) Hl Hb Hok HlP Htot) as (H1 & H2 & H3). fold c in H3.
    split; [exact H1|]. split; [by symmetry|]. split; [done|]. split; [done|]. split; [by rewrite Hpr|]. intros p _ Hp. apply H3. congruence.
  - apply orb_false_iff in Eleave as [E0 _]. apply Z.eqb_neq in E0.
    assert (HPq : [e] ++ tasks (mkQueue (set_lane (lanes q) c l) c (totalQueued_ q - 1) (sequence_ q) (maxQueueSize_ q)) ≡ₚ tasks q) by (by apply tasks_set_lane).
    split; [|split; [by symmetry|split; [done|split; [done|split; [by rewrite Hpr|]]]]].
    + split_and!; [cbn [lanes]; apply set_lane_cases; auto| |].
      * split; cbn [priorityCursor_ lanes]; [rewrite set_lane_eq; lia|]. intros p Hp. rewrite set_lane_ne by done. auto.
      * cbn [totalQueued_]. apply Permutation_length in HPq. rewrite length_app in HPq. simpl in *. lia.
    + intros p _ Hp. unfold distance. cbn [priorityCursor_ lanes]. fold c. rewrite set_lane_eq. rewrite Hpr in Hp. repeat case_decide; try congruence; lia.
Qed.

Lemma pop_miss n q : queue_ok q -> order (lanes q (priorityCursor_ q)) = [] ->
  pop_lanes (S n) q = pop_lanes n (pass_lane q (lanes q (priorityCursor_ q)) (totalQueued_ q)).
Proof.
  intros (Hl & [Hb1 _] & _) E. cbn [pop_lanes]. rewrite (proj2 (Z.eqb_neq (budget _) 0)) by lia. unfold popFromPriority. by rewrite E.
Qed.

Lemma pop_lanes_some n : forall q, queue_ok q -> (exists i, (i < n)%nat /\ order (lanes q (Nat.iter i next_priority (priorityCursor_ q))) <> []) ->
  exists e q', pop_lanes n q = (Some e, q') /\ taken q e q'.
Proof.
  induction n as [|n IH]; intros q Hq (i & Hi & Hne); [lia|].
  destruct (order (lanes q (priorityCursor_ q))) as [|k o] eqn:Eo; [|by apply pop_hit; [|rewrite Eo]].
  rewrite pop_miss by done. pose proof Hq as (Hl & Hb & Ht). set (c := priorityCursor_ q) in *.
  destruct (pass_ok q (lanes q c) [] (totalQueued_ q) Hl Hb (Hl c) (reflexivity _)) as (H1 & H2 & H3); [simpl; lia|].
  set (q1 := pass_lane q (lanes q c) (totalQueued_ q)) in *.
  assert (Ho : forall p, order (lanes q1 p) = order (lanes q p)).
  { cbn [q1 pass_lane lanes]. apply (set_lane_cases (fun p l => order l = order (lanes q p))); done. }
  assert (Hlt : forall p, lane_tasks (lanes q1 p) = lane_tasks (lanes q p)).
  { cbn [q1 pass_lane lanes]. apply (set_lane_cases (fun p l => lane_tasks l = lane_tasks (lanes q p))); done. }
  destruct i as [|i]; [by change (order (lanes q c) <> []) in Hne; rewrite Eo in Hne|].
  destruct (IH q1 H1) as (e & q' & E & (T1 & T2 & T3 & T4 & T5 & T6)).
  { exists i. split; [lia|]. rewrite Ho. change (priorityCursor_ q1) with (next_priority c). by rewrite <- Nat.iter_succ_r. }
  exists e, q'. split; [done|]. split; [exact T1|]. split; [by rewrite <- H2, <- T2|]. split; [done|]. split; [done|]. split; [by intros x; rewrite <- Hlt; apply T5|].
  intros p Hp Hpe. assert (p <> c) by (intros ->; apply Hp; by apply (lane_tasks_nil c)). specialize (H3 p ltac:(done)).
  specialize (T6 p ltac:(by rewrite Hlt) Hpe). lia.
Qed.

Lemma three_lanes c p : exists i, (i < 3)%nat /\ Nat.iter i next_priority c = p.
Proof. destruct c, p; ((exists 0%nat; split; [lia|reflexivity]) || (exists 1%nat; split; [lia|reflexivity]) || (exists 2%nat; split; [lia|reflexivity])). Qed.

(** Something is taken exactly when something is queued. *)
Lemma pop_spec q : queue_ok q -> match popNextTaskLocked q with
  | (None, q') => q' = q /\ tasks q = []
  | (Some e, q') => taken q e q'
  end.
Proof.
  intros Hq. pose proof Hq as (Hl & Hb & Ht). unfold popNextTaskLocked. destruct (totalQueued_ q =? 0) eqn:E0.
  - apply Z.eqb_eq in E0. split; [done|]. apply nil_length_inv. lia.
  - apply Z.eqb_neq in E0.
    assert (Hp : exists p, order (lanes q p) <> []).
    { destruct (order (lanes q HIGH)) eqn:E1; [|exists HIGH; by rewrite E1]. destruct (order (lanes q MEDIUM)) eqn:E2; [|exists MEDIUM; by rewrite E2].
      destruct (order (lanes q LOW)) eqn:E3; [|exists LOW; by rewrite E3]. exfalso. apply E0. rewrite Ht. unfold tasks.
      by rewrite (proj1 (lane_tasks_nil HIGH _ (Hl HIGH)) E1), (proj1 (lane_tasks_nil MEDIUM _ (Hl MEDIUM)) E2), (proj1 (lane_tasks_nil LOW _ (Hl LOW)) E3). }
    destruct Hp as [p Hp]. destruct (three_lanes (priorityCursor_ q) p) as (i & Hi & <-).
    destruct (pop_lanes_some 3 q Hq) as (e & q' & -> & H); [by exists i|]. exact H.
Qed.

Lemma enqueue_spec q t p coll cost : queue_ok q -> totalQueued_ q < maxQueueSize_ q -> 0 <= sequence_ q < 2 ^ 64 - 1 ->
  let e := make_envelope (sequence_ q + 1) t p coll cost in
  exists q', enqueue q t p coll cost = (q', true) /\ queue_ok q' /\ tasks q' ≡ₚ e :: tasks q /\ sequence_ q' = sequence_ q + 1 /\
    maxQueueSize_ q' = maxQueueSize_ q /\ (forall p', distance q' p' = distance q p') /\ (forall p', lane_tasks (lanes q p') <> [] -> lane_tasks (lanes q' p') <> []).
Proof.
  intros (Hl & [Hb1 Hb2] & Ht) Hm Hs e. unfold enqueue. rewrite (proj2 (Z.leb_gt _ _)) by lia. unfold u64. rewrite Z.mod_small by lia. fold e.
  set (l := lane_enqueue (lanes q p) e). assert (HlP : lane_tasks l ≡ₚ e :: lane_tasks (lanes q p)) by apply lane_enqueue_tasks.
  assert (Hbud : forall p', budget (set_lane (lanes q) p l p') = budget (lanes q p')).
  { apply (set_lane_cases (fun p' l => budget l = budget (lanes q p'))); [|done]. unfold l, lane_enqueue. by destruct (buckets _ !! _). }
  eexists. split; [reflexivity|].
  assert (HP : tasks (mkQueue (set_lane (lanes q) p l) (priorityCursor_ q) (totalQueued_ q + 1) (sequence_ q + 1) (maxQueueSize_ q)) ≡ₚ e :: tasks q).
  { rewrite <- (tasks_set_lane (mkQueue (set_lane (lanes q) p l) (priorityCursor_ q) 0 0 0) p (lanes q p) (priorityCursor_ q) (totalQueued_ q) (sequence_ q) (maxQueueSize_ q) [e]).
    - simpl. constructor. unfold tasks. cbn [lanes]. destruct p; by rewrite ?set_lane_eq, !set_lane_ne, ?set_lane_ne by done.
    - cbn [lanes]. rewrite set_lane_eq. by rewrite HlP. }
  split_and!; [|done|done|done|..].
  - split; [cbn [lanes]; apply set_lane_cases; [by apply lane_enqueue_ok|auto]|]. split; [split; cbn [lanes priorityCursor_]|].
    + by rewrite Hbud.
    + intros p' Hp'. rewrite Hbud. auto.
    + cbn [totalQueued_]. rewrite HP. cbn [length]. lia.
  - intros p'. unfold distance. cbn [lanes priorityCursor_]. by rewrite Hbud.
  - cbn [lanes]. apply (set_lane_cases (fun p' l => lane_tasks (lanes q p') <> [] -> lane_tasks l <> [])); [|done].
    intros _ E. rewrite E in HlP. by apply Permutation_nil_cons in HlP.
Qed.

(** ** Sequences of requests *)

Inductive event := Put (t : Task) (p : Priority) (coll : bytes) (cost : Z) | Work (limit : nat).

(** The queue, the tasks that workers took, in order, and those that were accepted. *)
Definition trace := (queue * list TaskEnvelope * list TaskEnvelope)%type.

Definition event_step (s : trace) (ev : event) : trace :=
  let '(q, done_, accepted) := s in
  match ev with
  | Put t p coll cost =>
      match enqueue q t p coll cost with
      | (q', true) => (q', done_, accepted ++ [make_envelope (sequence_ q') t p coll cost])
      | (q', false) => (q', done_, accepted)
      end
  | Work limit => let '(ts, q') := take_batch limit q in (q', done_ ++ ts, accepted)
  end.

Definition events_run (q : queue) (evs : list event) : trace := fold_left event_step evs (q, [], []).

Lemma lane_task q p x : queue_ok q -> x ∈ lane_tasks (lanes q p) -> priority x = p /\ x ∈ tasks q.
Proof.
  intros (Hl & _) Hx. split.
  - apply (lane_tasks_elem p) in Hx as (b & Hb1 & Hb2); [|done]. pose proof (proj2 (proj2 (Hl p)) _ _ Hb1) as (_ & _ & Hf). rewrite Forall_forall in Hf. apply (Hf x Hb2).
  - unfold tasks. rewrite !elem_of_app. destruct p; tauto.
Qed.

Lemma task_lane q x : queue_ok q -> x ∈ tasks q -> x ∈ lane_tasks (lanes q (priority x)).
Proof.
  intros Hq Hx. assert (Hlane : exists p, x ∈ lane_tasks (lanes q p)) by (unfold tasks in Hx; rewrite !elem_of_app in Hx; destruct Hx as [?|[?|?]]; eauto).
  destruct Hlane as [p Hp]. by destruct (lane_task q p x Hq Hp) as [-> _].
Qed.

Lemma take_batch_spec limit : forall q ts q', queue_ok q -> take_batch limit q = (ts, q') ->
  queue_ok q' /\ tasks q ≡ₚ ts ++ tasks q' /\ sequence_ q' = sequence_ q /\ maxQueueSize_ q' = maxQueueSize_ q /\ length ts = Nat.min limit (length (tasks q)) /\
  (forall p, lane_tasks (lanes q p) <> [] -> Forall (fun e => priority e <> p) ts -> lane_tasks (lanes q' p) <> [] /\ distance q' p + Z.of_nat (length ts) <= distance q p).
Proof.
  induction limit as [|n IH]; intros q ts q' Hq; cbn [take_batch].
  { intros [= <- <-]. split_and!; try done. intros p Hp _. split; [done|]. simpl. lia. }
  pose proof (pop_spec q Hq) as Hpop. destruct (popNextTaskLocked q) as [[e|] q1].
  - destruct (take_batch n q1) as [ts1 q2] eqn:E. intros [= <- <-]. destruct Hpop as (T1 & T2 & T3 & T4 & _ & T6).
    destruct (IH q1 ts1 q2 T1 E) as (H1 & H2 & H3 & H4 & H5 & H6). split_and!; [done|by rewrite T2, H2|congruence|congruence|rewrite T2; simpl; lia|].
    intros p Hp [Hpe Hps]%Forall_cons. specialize (T6 p Hp Hpe).
    assert (Hp1 : lane_tasks (lanes q1 p) <> []).
    { destruct (lane_tasks (lanes q p)) as [|x xs] eqn:Ex; [done|]. intros E1.
      assert (Hx : x ∈ lane_tasks (lanes q p)) by (rewrite Ex; left). destruct (lane_task q p x Hq Hx) as [Hprio Hin].
      rewrite T2 in Hin. apply elem_of_cons in Hin as [->|Hin]; [done|]. apply (task_lane q1 x T1) in Hin. rewrite Hprio, E1 in Hin. by apply not_elem_of_nil in Hin. }
    destruct (H6 p Hp1 Hps) as [H7 H8]. split; [done|]. cbn [length]. lia.
  - intros [= <- <-]. destruct Hpop as [-> E]. split_and!; try done; [by rewrite E|]. intros p Hp _. split; [done|]. simpl. lia.
Qed.

(** What holds after a sequence of requests. *)
Definition trace_ok (max : Z) (n : nat) (s : trace) : Prop :=
  let '(q, done_, accepted) := s in
  queue_ok q /\ accepted ≡ₚ done_ ++ tasks q /\ maxQueueSize_ q = max /\ totalQueued_ q <= max /\ 0 <= sequence_ q <= Z.of_nat n /\
  NoDup (map sequence accepted) /\ Forall (fun e => sequence e <= sequence_ q) accepted.

Lemma event_step_ok max n s ev : 0 <= max -> Z.of_nat n < 2 ^ 64 - 1 -> trace_ok max n s -> trace_ok max (S n) (event_step s ev).
Proof.
  destruct s as [[q done_] acc]. intros Hmax Hn (Hq & HP & Hm & Ht & Hs & Hd & Hf). destruct ev as [t p coll cost|limit]; cbn [event_step].
  - destruct (decide (totalQueued_ q < maxQueueSize_ q)) as [Hlt|Hge].
    + destruct (enqueue_spec q t p coll cost Hq Hlt ltac:(lia)) as (q' & -> & H1 & H2 & H3 & H4 & _). split_and!; [done|by rewrite HP, H2, H3; solve_Permutation|congruence|..].
      * destruct Hq as (_ & _ & Hq). destruct H1 as (_ & _ & H1). rewrite H1, H2. cbn [length]. lia.
      * lia.
      * lia.
      * rewrite map_app. apply NoDup_app. split_and!; [done| |apply NoDup_singleton]. intros x (e & -> & He)%list_elem_of_fmap Hx%list_elem_of_singleton.
        rewrite Forall_forall in Hf. specialize (Hf e He). simpl in Hx. lia.
      * apply Forall_app. split; [|constructor; [simpl; lia|constructor]]. eapply Forall_impl; [exact Hf|]. simpl. intros; lia.
    + unfold enqueue. rewrite (proj2 (Z.leb_le _ _)) by lia. split_and!; try done; lia.
  - destruct (take_batch limit q) as [ts q'] eqn:E. destruct (take_batch_spec _ _ _ _ Hq E) as (H1 & H2 & H3 & H4 & H5 & _).
    split_and!; [done|by rewrite HP, H2, app_assoc|congruence|..]; try (rewrite ?H3; done || lia).
    destruct Hq as (_ & _ & Hq). destruct H1 as (_ & _ & H1). rewrite H1. rewrite Hq, H2, length_app in Ht. lia.
Qed.

Lemma queue_new_ok max : queue_ok (queue_new max).
Proof.
  split_and!; [|split; simpl; [lia|done]|reflexivity]. intros p. split_and!; [|constructor|apply map_Forall_empty]. intros k. simpl. rewrite lookup_empty.
  split; [by intros ?%not_elem_of_nil|by intros ?%is_Some_None].
Qed.

Lemma events_run_ok max evs : forall n s, 0 <= max -> Z.of_nat (n + length evs) < 2 ^ 64 -> trace_ok max n s -> trace_ok max (n + length evs) (fold_left event_step evs s).
Proof.
  induction evs as [|ev evs IH]; intros n s Hm Hn Hs; cbn [fold_left length]; [by rewrite Nat.add_0_r|].
  replace (n + S (length evs))%nat with (S n + length evs)%nat by lia. cbn [length] in Hn. apply IH; [done|lia|]. apply event_step_ok; [done|lia|done].
Qed.

Lemma trace_start max : 0 <= max -> trace_ok max 0 (queue_new max, [], []).
Proof. intros. split_and!; try done; try (simpl; lia); [apply queue_new_ok|constructor]. Qed.

Lemma done_grows evs s : exists more, (fold_left event_step evs s).1.2 = s.1.2 ++ more.
Proof.
  revert s. induction evs as [|ev evs IH]; intros [[q d] a]; cbn [fold_left fst snd]; [exists []; by rewrite app_nil_r|].
  destruct (IH (event_step (q, d, a) ev)) as [more Hmore]. rewrite Hmore. destruct ev as [t pr coll cost|limit]; cbn [event_step].
  - destruct (enqueue q t pr coll cost) as [q1 []]; simpl; eauto.
  - destruct (take_batch limit q) as [ts q1]. exists (ts ++ more). cbn [fst snd]. by rewrite app_assoc.
Qed.

(** What was accepted before does not matter. *)
Lemma done_same evs q d a a' : (fold_left event_step evs (q, d, a)).1.2 = (fold_left event_step evs (q, d, a')).1.2.
Proof.
  revert q d a a'. induction evs as [|ev evs IH]; intros q d a a'; cbn [fold_left]; [done|]. destruct ev as [t pr coll cost|limit]; cbn [event_step].
  - destruct (enqueue q t pr coll cost) as [q1 []]; apply IH.
  - destruct (take_batch limit q) as [ts q1]. apply IH.
Qed.

(** A lane with tasks is served before more than [distance] others are. *)
Lemma fair_run max p evs : forall n q d a, 0 <= max -> Z.of_nat (n + length evs) < 2 ^ 64 -> trace_ok max n (q, d, a) -> lane_tasks (lanes q p) <> [] ->
  exists more, (fold_left event_step evs (q, d, a)).1.2 = d ++ more /\ (Forall (fun e => priority e <> p) more -> Z.of_nat (length more) <= distance q p).
Proof.
  induction evs as [|ev evs IH]; intros n q d a Hm Hn Hok Hp; cbn [fold_left].
  { exists []. split; [simpl; by rewrite app_nil_r|]. intros _. simpl. destruct Hok as ((_ & Hb & _) & _). pose proof (distance_bound q p Hb). lia. }
  cbn [length] in Hn. pose proof (event_step_ok max n (q, d, a) ev Hm ltac:(lia) Hok) as Hok'. destruct Hok as (Hq & _ & Hmax & Htot & Hs & _).
  destruct ev as [t pr coll cost|limit]; cbn [event_step] in Hok' |- *.
  - assert (Henq : exists q1 b, enqueue q t pr coll cost = (q1, b) /\ distance q1 p = distance q p /\ lane_tasks (lanes q1 p) <> []).
    { destruct (decide (totalQueued_ q < maxQueueSize_ q)) as [Hlt|Hge].
      - destruct (enqueue_spec q t pr coll cost Hq Hlt ltac:(lia)) as (q1 & -> & H1 & H2 & H3 & H4 & H5 & H6). exists q1, true. auto.
      - unfold enqueue. rewrite (proj2 (Z.leb_le _ _)) by lia. eauto. }
    destruct Henq as (q1 & b & E & Ed & Hp1). rewrite E in Hok' |- *. rewrite <- Ed. destruct b; (eapply (IH (S n)); [done|lia|exact Hok'|done]).
  - destruct (take_batch limit q) as [ts q1] eqn:E. destruct (take_batch_spec _ _ _ _ Hq E) as (_ & _ & _ & _ & _ & H6).
    destruct (decide (Forall (fun e => priority e <> p) ts)) as [Hts|Hts].
    + destruct (H6 p Hp Hts) as [H7 H8]. destruct (IH (S n) q1 (d ++ ts) a Hm ltac:(lia) Hok' H7) as (more & -> & Hmore). exists (ts ++ more). split; [by rewrite app_assoc|]. intros [_ Hm2]%Forall_app. specialize (Hmore Hm2). rewrite length_app. lia.
    + destruct (done_grows evs (q1, d ++ ts, a)) as [more Hmore]. exists (ts ++ more). split; [by rewrite Hmore, app_assoc|].
      intros [Hf _]%Forall_app. done.
Qed.

(** C20: through any sequence of requests and of workers taking batches, every accepted task is taken once or still
    queued, under its own sequence number; at most [maxQueue] are queued and the counter is their number; a worker
    gets as many tasks as its batch holds or all there are; a task is taken only when none of its priority and
    collection is cheaper, or as cheap and older; and while tasks of a priority wait, at most 6 (high), 10 (medium)
    or 12 (low) others are taken before one of them, whatever is enqueued meanwhile. *)
Theorem task_queue_schedules maxQueue before after q done_ accepted :
  0 <= maxQueue -> Z.of_nat (length before + length after) < 2 ^ 64 ->
  events_run (queue_new maxQueue) before = (q, done_, accepted) ->
  accepted ≡ₚ done_ ++ tasks q /\ NoDup (map sequence accepted) /\ totalQueued_ q = Z.of_nat (length (tasks q)) /\ totalQueued_ q <= maxQueue /\
  (forall limit, length (take_batch limit q).1 = Nat.min limit (length (tasks q))) /\
  (forall e q', popNextTaskLocked q = (Some e, q') -> e ∈ tasks q /\
     forall x, x ∈ tasks q -> priority x = priority e -> collection x = collection e -> costHint e < costHint x \/ (costHint e = costHint x /\ sequence e <= sequence x)) /\
  (forall p, (exists x, x ∈ tasks q /\ priority x = p) -> Forall (fun e => priority e <> p) (events_run q after).1.2 ->
     Z.of_nat (length (events_run q after).1.2) <= wait_bound p).
Proof.
  intros Hm Hn E. pose proof (events_run_ok maxQueue before 0 _ Hm ltac:(lia) (trace_start maxQueue Hm)) as Hok. unfold events_run in E. rewrite E in Hok.
  pose proof Hok as (Hq & HP & Hmax & Htot & Hs & Hd & Hf). split_and!; [done|done|apply Hq|lia|..].
  - intros limit. destruct (take_batch limit q) as [ts q'] eqn:Eb. by destruct (take_batch_spec _ _ _ _ Hq Eb) as (_ & _ & _ & _ & H & _).
  - intros e q' Ep. pose proof (pop_spec q Hq) as Hpop. rewrite Ep in Hpop. destruct Hpop as (_ & T2 & _ & _ & T5 & _). split; [rewrite T2; left|].
    intros x Hx Hxp Hxc. apply env_le_spec, T5; [rewrite <- Hxp; by apply task_lane|done].
  - intros p (x & Hx & <-). pose proof (task_lane q x Hq Hx) as Hmem. assert (Hne : lane_tasks (lanes q (priority x)) <> []) by (intros E0; rewrite E0 in Hmem; by apply not_elem_of_nil in Hmem).
    assert (Hok0 : trace_ok maxQueue (length before) (q, [], tasks q)).
    { split_and!; try done; [apply Hs..| |].
      - apply (Permutation_map sequence) in HP. rewrite HP, map_app in Hd. by apply NoDup_app in Hd as (_ & _ & Hd).
      - rewrite HP in Hf. by apply Forall_app in Hf as [_ Hf]. }
    pose proof (fair_run maxQueue (priority x) after (length before) q [] (tasks q) Hm Hn Hok0 Hne) as Hfair. unfold events_run.
    rewrite (done_same after q [] [] (tasks q)). destruct Hfair as (more & -> & Hfair). cbn [app]. intros Hnone. specialize (Hfair Hnone). destruct Hq as (_ & Hb & _). pose proof (distance_bound q (priority x) Hb). lia.
Qed.

End Queue.

(** ** Concrete runs *)

Module TaskExamples.

Definition mixed : list (@event nat) :=
  [Put 1%nat LOW (str "a") 5; Put 2%nat MEDIUM [] 0; Put 3%nat MEDIUM (str "a") 9; Put 4%nat MEDIUM (str "a") 2; Put 5%nat HIGH (str "b") 1; Work 2; Put 6%nat HIGH (str "b") 1; Work 1].

Example mixed_order : map task (events_run (queue_new 4) mixed).1.2 = [2; 4; 3]%nat.
Proof. vm_compute. reflexivity. Qed.

Lemma task_queue_schedules_witness :
  length (take_batch 8 (events_run (queue_new 4) mixed).1.1).1 = 2%nat /\ totalQueued_ (events_run (queue_new 4) mixed).1.1 <= 4.
Proof.
  destruct (task_queue_schedules 4 mixed [] (events_run (queue_new 4) mixed).1.1 (events_run (queue_new 4) mixed).1.2 (events_run (queue_new 4) mixed).2) as (_ & _ & _ & Hle & Hb & _).
  - lia.
  - simpl. lia.
  - destruct (events_run (queue_new 4) mixed) as [[q d] a]. reflexivity.
  - split; [|exact Hle]. rewrite Hb. vm_compute. reflexivity.
Defined.

(** Collections are served in turn, but a collection that becomes empty leaves the order and the next takes its
    place: while new collections keep coming, one that is before the index is not served. *)
Definition one_shot (n : nat) : list (@event nat) :=
  Put 0%nat MEDIUM (str "old") 1 :: Put 0%nat MEDIUM (str "old") 1 :: Put 1%nat MEDIUM [byte_of 1] 1 :: Work 1 ::
  flat_map (fun i => [Put i MEDIUM [byte_of (Z.of_nat i)] 1; Work 1]) (seq 2 n).

Example new_collections_starve_old : map task (events_run (queue_new 10) (one_shot 60)).1.2 = 0%nat :: seq 1 60.
Proof. vm_compute. reflexivity. Qed.

End TaskExamples.
