(* ===== verification/ShardedQueue.v ===== *)
(** * Task queues: sharded and partitioned (db_task_queue_sharded.cpp, db_task_queue_partitioned.cpp)

    The server's queue, [DBTaskQueuePartitioned], spreads tasks over partitions, each
    a [DBTaskQueueSharded] with workers of its own.  A shard is a [queue] of lanes;
    its workers take batches in another way than [popNextTaskLocked], and may steal
    from other shards of the same queue. *)

From stdpp Require Import base list gmap strings sorting.
From Stdlib Require Import ZArith Lia SpecFloat.
From S2P Require Import Prelude Float64 TaskQueue.

Open Scope Z_scope.

Section Sharded.
Context {Task : Type}.

#[local] Abbreviation queue := (@queue Task).
#[local] Abbreviation lane := (@lane Task).
#[local] Abbreviation TaskEnvelope := (@TaskEnvelope Task).

(** The body of the loop over priorities in [workerThread], for one lane. *)
Definition lane_take (l : lane) : option TaskEnvelope * lane :=
  if (budget l =? 0) || bool_decide (buckets l = ∅) || bool_decide (order l = []) then (None, l) else
  let collIdx := (rrIndex l mod length (order l))%nat in
  match order l !! collIdx with
  | None => (None, l)
  | Some key =>
      match buckets l !! key with
      | Some [t] =>
          let colls := delete collIdx (order l) in
          (Some t, mkLane (delete key (buckets l)) colls (match colls with [] => 0 | _ => collIdx mod length colls end)%nat (budget l - 1))
      | Some (t :: rest) => (Some t, mkLane (<[key := rest]> (buckets l)) (order l) ((collIdx + 1) mod length (order l))%nat (budget l - 1))
      | _ => (None, mkLane (buckets l) (order l) (collIdx + 1) (budget l))
      end
  end.

Definition with_lane (q : queue) (p : Priority) (l : lane) (total : Z) : queue :=
  mkQueue (set_lane (lanes q) p l) (priorityCursor_ q) total (sequence_ q) (maxQueueSize_ q).

(** [n] lanes from [p] on, until one gives a task. *)
Fixpoint dequeue_one (n : nat) (p : Priority) (q : queue) : option TaskEnvelope * queue :=
  match n with
  | O => (None, q)
  | S n' => match lane_take (lanes q p) with
            | (Some t, l) => (Some t, with_lane q p l (totalQueued_ q - 1))
            | (None, l) => dequeue_one n' (next_priority p) (with_lane q p l (totalQueued_ q))
            end
  end.

(** [queuedBehindDepletedBudget] *)
Definition depleted (q : queue) : bool :=
  existsb (fun p => (budget (lanes q p) =? 0) && negb (bool_decide (buckets (lanes q p) = ∅))) [HIGH; MEDIUM; LOW].

Definition reset_budgets (q : queue) : queue :=
  mkQueue (fun p => renew p (lanes q p)) (priorityCursor_ q) (totalQueued_ q) (sequence_ q) (maxQueueSize_ q).

Definition advance_cursor (q : queue) : queue := mkQueue (lanes q) (next_priority (priorityCursor_ q)) (totalQueued_ q) (sequence_ q) (maxQueueSize_ q).

(** The dequeue loop; a batch is never longer than [dequeueCount], which stays below 8,
    so the bound of 32 does not matter. *)
Fixpoint dequeue_loop (fuel count : nat) (q : queue) : list TaskEnvelope * queue :=
  match fuel with
  | O => ([], q)
  | S f =>
      if (0 <? totalQueued_ q) && (count <? 8)%nat then
        match dequeue_one 3 (priorityCursor_ q) q with
        | (Some t, q1) => let '(ts, q2) := dequeue_loop f (S count) (advance_cursor q1) in (t :: ts, q2)
        | (None, q1) => if (0 <? totalQueued_ q1) && depleted q1 then dequeue_loop f count (reset_budgets q1)
                        else dequeue_loop f (S count) (advance_cursor q1)
        end
      else ([], q)
  end.

(** What a worker takes from its shard. *)
Definition dequeue_batch (q : queue) : list TaskEnvelope * queue :=
  let '(ts, q1) := dequeue_loop 17 0 q in
  (ts, if forallb (fun p => budget (lanes q1 p) =? 0) [HIGH; MEDIUM; LOW] then reset_budgets q1 else q1).

(** ** Stealing *)

(** The first task of the first collection that has one; the order is left as it is. *)
Fixpoint steal_first (colls : list bytes) (b : gmap bytes (list TaskEnvelope)) : option (TaskEnvelope * gmap bytes (list TaskEnvelope)) :=
  match colls with
  | [] => None
  | k :: r => match b !! k with
              | Some [t] => Some (t, delete k b)
              | Some (t :: rest) => Some (t, <[k := rest]> b)
              | _ => steal_first r b
              end
  end.

(** One task of each priority, while fewer than [maxTasks] are stolen. *)
Fixpoint steal_lanes (ps : list Priority) (room : nat) (q : queue) : list TaskEnvelope * queue :=
  match ps, room with
  | [], _ | _, O => ([], q)
  | p :: r, S room' =>
      match steal_first (order (lanes q p)) (buckets (lanes q p)) with
      | Some (t, b) =>
          let l := lanes q p in
          let '(ts, q') := steal_lanes r room' (with_lane q p (mkLane b (order l) (rrIndex l) (budget l)) (totalQueued_ q - 1)) in (t :: ts, q')
      | None => steal_lanes r room q
      end
  end.

(** Up to three neighbours, in ring order; [locked] says which of them are busy. *)
Fixpoint steal_ring (attempts : list nat) (room : nat) (locked : nat -> bool) (shards : list queue) : list TaskEnvelope * list queue :=
  match attempts, room with
  | [], _ | _, O => ([], shards)
  | target :: r, _ =>
      if locked target then steal_ring r room locked shards else
      match shards !! target with
      | None => ([], shards)
      | Some q => let '(ts, q') := steal_lanes [HIGH; MEDIUM; LOW] room q in
                  let '(ts', shards') := steal_ring r (room - length ts) locked (<[target := q']> shards) in (ts ++ ts', shards')
      end
  end.

Definition stealFromNeighbor (current maxTasks : nat) (locked : nat -> bool) (shards : list queue) : list TaskEnvelope * list queue :=
  if (length shards <=? 1)%nat then ([], shards)
  else steal_ring (map (fun a => ((current + a + 1) mod length shards)%nat) [0; 1; 2]%nat) maxTasks locked shards.

(** ** The sharded queue *)

(** [std::hash<std::string>] is left open. *)
Definition hashCollection (hash : bytes -> nat) (n : nat) (coll : bytes) : nat := if bytes_eqb coll [] then 0%nat else (hash coll mod n)%nat.

Definition sharded_enqueue (hash : bytes -> nat) (shards : list queue) (t : Task) (p : Priority) (coll : bytes) (cost : Z) : list queue * bool :=
  let id := hashCollection hash (length shards) coll in
  match shards !! id with
  | Some q => let '(q', ok) := enqueue q t p coll cost in (<[id := q']> shards, ok)
  | None => (shards, false)
  end.

(** One turn of a worker: its own shard, or what it can steal. *)
Definition worker_turn (locked : nat -> bool) (shards : list queue) (id : nat) : list TaskEnvelope * list queue :=
  match shards !! id with
  | None => ([], shards)
  | Some q => match dequeue_batch q with
              | ([], q') => stealFromNeighbor id 4 locked (<[id := q']> shards)
              | (ts, q') => (ts, <[id := q']> shards)
              end
  end.

Definition sharded_new (shards : nat) (maxQueue : Z) : list queue := replicate (Nat.max 1 shards) (queue_new (Z.max 1 maxQueue)).

(** ** Nothing is lost or taken twice *)

(** What is taken from a queue, and what it still counts. *)
Definition conserves (q : queue) (ts : list TaskEnvelope) (q' : queue) : Prop :=
  tasks q ≡ₚ ts ++ tasks q' /\ totalQueued_ q' = totalQueued_ q - Z.of_nat (length ts) /\ maxQueueSize_ q' = maxQueueSize_ q /\ sequence_ q' = sequence_ q.

Lemma conserves_refl q : conserves q [] q.
Proof. split_and!; try done. simpl. lia. Qed.

Lemma conserves_trans q ts q1 ts' q2 : conserves q ts q1 -> conserves q1 ts' q2 -> conserves q (ts ++ ts') q2.
Proof. intros (H1 & H2 & H3 & H4) (H5 & H6 & H7 & H8). split_and!; [by rewrite H1, H5, app_assoc|rewrite length_app; lia|congruence|congruence]. Qed.

Lemma conserves_same q q' : (forall p, lane_tasks (lanes q' p) = lane_tasks (lanes q p)) -> totalQueued_ q' = totalQueued_ q -> maxQueueSize_ q' = maxQueueSize_ q -> sequence_ q' = sequence_ q ->
  conserves q [] q'.
Proof. intros H1 H2 H3 H4. split_and!; [|simpl; lia|done|done]. unfold tasks. by rewrite !H1. Qed.

Lemma with_lane_conserves q p l ts : lane_tasks (lanes q p) ≡ₚ ts ++ lane_tasks l -> conserves q ts (with_lane q p l (totalQueued_ q - Z.of_nat (length ts))).
Proof. intros H. split_and!; [|done..]. symmetry. apply tasks_set_lane. by symmetry. Qed.

Lemma lane_take_tasks l : match lane_take l with (Some e, l') => lane_tasks l ≡ₚ e :: lane_tasks l' | (None, l') => lane_tasks l' = lane_tasks l end.
Proof.
  unfold lane_take. destruct (_ || _); [done|]. destruct (order l !! _) as [key|]; [|done].
  destruct (buckets l !! key) as [[|t [|t2 rest]]|] eqn:E; try done; destruct l as [b o' r bu]; cbn [buckets order budget] in *.
  - exact (lane_tasks_at b o' r bu _ _ _ key [t] E).
  - rewrite (lane_tasks_at b o' r bu o' r bu key _ E), (lane_tasks_set b _ _ _ o' r bu key _ (t2 :: rest) E). done.
Qed.

Lemma dequeue_one_conserves n : forall p q, conserves q (option_list (dequeue_one n p q).1) (dequeue_one n p q).2.
Proof.
  induction n as [|n IH]; intros p q; cbn [dequeue_one]; [apply conserves_refl|].
  pose proof (lane_take_tasks (lanes q p)) as H. destruct (lane_take (lanes q p)) as [[t|] l].
  - cbn [fst snd option_list]. exact (with_lane_conserves q p l [t] H).
  - apply (conserves_trans q [] (with_lane q p l (totalQueued_ q))); [|apply IH].
    replace (totalQueued_ q) with (totalQueued_ q - Z.of_nat (length (@nil TaskEnvelope))) by (simpl; lia). apply with_lane_conserves. by rewrite H.
Qed.

Lemma dequeue_loop_conserves fuel : forall count q, conserves q (dequeue_loop fuel count q).1 (dequeue_loop fuel count q).2.
Proof.
  induction fuel as [|f IH]; intros count q; cbn [dequeue_loop]; [apply conserves_refl|]. destruct (_ && _); [|apply conserves_refl].
  pose proof (dequeue_one_conserves 3 (priorityCursor_ q) q) as H. destruct (dequeue_one 3 (priorityCursor_ q) q) as [[t|] q1]; cbn [fst snd option_list] in H.
  - specialize (IH (S count) (advance_cursor q1)). destruct (dequeue_loop f (S count) (advance_cursor q1)) as [ts q2]. exact (conserves_trans _ _ _ _ _ H IH).
  - destruct (_ && _); apply (conserves_trans _ _ _ _ _ H); [apply (conserves_trans _ [] (reset_budgets q1)); [by apply conserves_same|apply IH]|].
    apply (conserves_trans _ [] (advance_cursor q1)); [by apply conserves_same|apply IH].
Qed.

Lemma dequeue_batch_conserves q : conserves q (dequeue_batch q).1 (dequeue_batch q).2.
Proof.
  unfold dequeue_batch. pose proof (dequeue_loop_conserves 17 0 q) as H. destruct (dequeue_loop 17 0 q) as [ts q1]. cbn [fst snd] in *.
  destruct (forallb _ _); [|done]. rewrite <- (app_nil_r ts). apply (conserves_trans _ _ q1); [done|by apply conserves_same].
Qed.

Lemma steal_first_tasks colls b o r bu t b' : steal_first colls b = Some (t, b') -> lane_tasks (mkLane b o r bu) ≡ₚ t :: lane_tasks (mkLane b' o r bu).
Proof.
  induction colls as [|k colls IH]; cbn [steal_first]; [done|]. destruct (b !! k) as [[|x [|x2 rest]]|] eqn:E; auto; intros [= -> <-].
  - exact (lane_tasks_at b o r bu o r bu k [t] E).
  - rewrite (lane_tasks_at b o r bu o r bu k _ E), (lane_tasks_set b o r bu o r bu k _ (x2 :: rest) E). done.
Qed.

Lemma steal_lanes_conserves ps : forall room q, conserves q (steal_lanes ps room q).1 (steal_lanes ps room q).2 /\ (length (steal_lanes ps room q).1 <= room)%nat.
Proof.
  induction ps as [|p ps IH]; intros room q; [split; [apply conserves_refl|simpl; lia]|]. cbn [steal_lanes]. destruct room as [|room]; [split; [apply conserves_refl|done]|].
  destruct (steal_first _ _) as [[t b]|] eqn:E; [|apply IH]. set (l := mkLane b _ _ _).
  destruct (IH room (with_lane q p l (totalQueued_ q - 1))) as [H1 H2]. destruct (steal_lanes ps room _) as [ts q']. cbn [fst snd] in *. split; [|simpl; lia].
  apply (conserves_trans q [t] (with_lane q p l (totalQueued_ q - 1))); [|done]. apply (with_lane_conserves q p l [t]).
  destruct (lanes q p) as [b0 o0 r0 bu0] eqn:El. exact (steal_first_tasks _ _ _ _ _ _ _ E).
Qed.

(** ** Many shards *)

Definition all_tasks (shards : list queue) : list TaskEnvelope := concat (map tasks shards).

(** Every shard counts its tasks and keeps its bound. *)
Definition counted (maxQueue : Z) (q : queue) : Prop := totalQueued_ q = Z.of_nat (length (tasks q)) /\ totalQueued_ q <= maxQueue /\ maxQueueSize_ q = maxQueue.

Lemma conserves_counted m q ts q' : counted m q -> conserves q ts q' -> counted m q'.
Proof. intros (H1 & H2 & H3) (H4 & H5 & H6 & _). apply Permutation_length in H4. rewrite length_app in H4. unfold counted. split_and!; lia || congruence. Qed.

Lemma all_tasks_insert shards i q q' ts : shards !! i = Some q -> tasks q ≡ₚ ts ++ tasks q' -> all_tasks shards ≡ₚ ts ++ all_tasks (<[i := q']> shards).
Proof.
  intros Hi H. unfold all_tasks. rewrite (insert_take_drop shards i q') by (by eapply lookup_lt_Some).
  rewrite <- (take_drop_middle shards i q Hi) at 1.
  rewrite !map_app, !concat_app. cbn [map concat]. rewrite H, <- app_assoc. apply Permutation_app_swap_app.
Qed.

Lemma steal_ring_conserves m targets : forall room locked shards, Forall (counted m) shards ->
  let '(ts, shards') := steal_ring targets room locked shards in
  all_tasks shards ≡ₚ ts ++ all_tasks shards' /\ Forall (counted m) shards' /\ length shards' = length shards /\ (length ts <= room)%nat.
Proof.
  induction targets as [|x targets IH]; intros room locked shards Hc; cbn [steal_ring]; [split_and!; (done || (simpl; lia))|].
  destruct room as [|room]; [done|]. destruct (locked x); [apply IH, Hc|]. destruct (shards !! x) as [q|] eqn:E; [|split_and!; done || simpl; lia].
  destruct (steal_lanes_conserves [HIGH; MEDIUM; LOW] (S room) q) as [H1 H2]. destruct (steal_lanes _ _ _) as [ts q']. cbn [fst snd] in *.
  assert (Hq' : counted m q') by (eapply conserves_counted; [|exact H1]; by eapply Forall_lookup_1).
  specialize (IH (S room - length ts)%nat locked (<[x := q']> shards) ltac:(by apply Forall_insert)). destruct (steal_ring targets _ _ _) as [ts' shards'].
  destruct IH as (H3 & H4 & H5 & H6). split_and!; [|done|by rewrite H5, length_insert|rewrite length_app; lia].
  rewrite (all_tasks_insert shards x q q' ts E (proj1 H1)), H3. by rewrite app_assoc.
Qed.

(** A turn of a worker takes tasks and loses none, also when it steals. *)
Lemma worker_turn_conserves m locked shards id : Forall (counted m) shards -> let '(ts, shards') := worker_turn locked shards id in
  all_tasks shards ≡ₚ ts ++ all_tasks shards' /\ Forall (counted m) shards' /\ length shards' = length shards.
Proof.
  intros Hc. unfold worker_turn. destruct (shards !! id) as [q|] eqn:E; [|done]. pose proof (dequeue_batch_conserves q) as H. destruct (dequeue_batch q) as [ts q'].
  cbn [fst snd] in H. assert (Hq' : counted m q') by (eapply conserves_counted; [|exact H]; by eapply Forall_lookup_1).
  pose proof (all_tasks_insert shards id q q' ts E (proj1 H)) as HP. assert (Hins : Forall (counted m) (<[id := q']> shards)) by (by apply Forall_insert).
  destruct ts as [|t ts]; [|split_and!; [done|done|by rewrite length_insert]].
  unfold stealFromNeighbor. destruct (_ <=? 1)%nat; [split_and!; [done|done|by rewrite length_insert]|].
  pose proof (steal_ring_conserves m (map (fun a => ((id + a + 1) mod length (<[id := q']> shards))%nat) [0; 1; 2]%nat) 4 locked (<[id := q']> shards) Hins) as H0.
  destruct (steal_ring _ _ _ _) as [ts' shards']. destruct H0 as (H1 & H2 & H3 & _). split_and!; [by rewrite HP, H1|done|by rewrite H3, length_insert].
Qed.

(** ** Progress without stealing *)

Definition shard_ok (q : queue) : Prop := (forall p, lane_ok p (lanes q p)) /\ (forall p, 0 <= budget (lanes q p)) /\ totalQueued_ q = Z.of_nat (length (tasks q)).

Lemma lane_ok_buckets p (l : lane) : lane_ok p l -> bool_decide (buckets l = ∅) = bool_decide (order l = []).
Proof.
  intros (Ho & _). apply bool_decide_ext. split; intros E.
  - destruct (order l) as [|k o] eqn:Eo; [done|]. destruct (proj1 (Ho k) ltac:(left)) as [q Hq]. by rewrite E, lookup_empty in Hq.
  - apply map_empty. intros k. apply eq_None_not_Some. rewrite <- Ho, E. apply not_elem_of_nil.
Qed.

Lemma lane_take_ok p (l : lane) : lane_ok p l -> 0 <= budget l -> match lane_take l with
  | (Some e, l') => lane_ok p l' /\ 0 <= budget l'
  | (None, l') => l' = l /\ (budget l = 0 \/ order l = [])
  end.
Proof.
  intros Hok Hb. pose proof Hok as (Ho & Hn & Hbk). unfold lane_take. rewrite (lane_ok_buckets p) by done.
  destruct (Z.eqb_spec (budget l) 0) as [E0|E0]; [simpl; auto|]. destruct (decide (order l = [])) as [Eo|Eo]; [rewrite bool_decide_true by done; simpl; auto|].
  rewrite bool_decide_false by done. cbn [orb]. cbv zeta. set (i := (rrIndex l mod length (order l))%nat).
  assert (Hi : (i < length (order l))%nat) by (apply Nat.mod_upper_bound; by intros ?%nil_length_inv). destruct (lookup_lt_is_Some_2 _ _ Hi) as [key Hkey]. rewrite Hkey.
  destruct (proj1 (Ho key) ltac:(by eapply list_elem_of_lookup_2)) as [q Hq]. rewrite Hq. destruct (Hbk _ _ Hq) as (Hqn & Hqs & Hqf).
  destruct q as [|e [|e2 q]]; [done|..]; (split; [|cbn [budget]; lia]).
  - destruct (delete_nodup _ _ _ Hkey Hn) as [Hn' Hd]. split_and!; cbn [order buckets]; [|done|by apply map_Forall_delete]. intros k. rewrite Hd, Ho.
    destruct (decide (k = key)) as [->|Hk']; [rewrite lookup_delete_eq; split; [tauto|by intros ?%is_Some_None]|]. rewrite lookup_delete_ne by done. tauto.
  - split_and!; cbn [order buckets]; [|done|].
    + intros k. rewrite Ho. destruct (decide (key = k)) as [<-|Hk']; [by rewrite lookup_insert_eq, Hq|by rewrite lookup_insert_ne].
    + apply map_Forall_insert_2; [|done]. apply StronglySorted_cons in Hqs as [_ Hqs]. apply Forall_cons in Hqf as [_ Hqf]. done.
Qed.

Lemma with_lane_ok q p l total : (forall p', lane_ok p' (lanes q p')) -> (forall p', 0 <= budget (lanes q p')) -> lane_ok p l -> 0 <= budget l ->
  (forall p', lane_ok p' (lanes (with_lane q p l total) p')) /\ (forall p', 0 <= budget (lanes (with_lane q p l total) p')).
Proof. intros H1 H2 H3 H4. split; cbn [lanes with_lane]; [apply set_lane_cases|apply (set_lane_cases (fun _ l => 0 <= budget l))]; auto. Qed.

(** A turn over [n] lanes finds a task if one of them has a task and a budget. *)
Lemma dequeue_one_ok n : forall p q, shard_ok q -> let '(o, q') := dequeue_one n p q in shard_ok q' /\
  match o with
  | Some _ => True
  | None => (forall p', lanes q' p' = lanes q p') /\ totalQueued_ q' = totalQueued_ q /\
            forall i, (i < n)%nat -> let l := lanes q (Nat.iter i next_priority p) in budget l = 0 \/ order l = []
  end.
Proof.
  induction n as [|n IH]; intros p q Hq; cbn [dequeue_one].
  { split; [done|]. split_and!; [done|done|]. intros i Hi. lia. }
  pose proof Hq as (Hl & Hb & Ht). pose proof (dequeue_one_conserves 1 p q) as Hc. cbn [dequeue_one] in Hc. pose proof (lane_take_ok p (lanes q p) (Hl p) (Hb p)) as Htake.
  destruct (lane_take (lanes q p)) as [[t|] l].
  - destruct Htake as [H1 H2]. destruct (with_lane_ok q p l (totalQueued_ q - 1) Hl Hb H1 H2) as [H3 H4]. split; [|done]. split_and!; [done|done|].
    destruct Hc as (HP & Hn & _). cbn [fst snd] in HP, Hn. change (option_list (Some t)) with [t] in HP, Hn. apply Permutation_length in HP. cbn [app length] in HP, Hn. rewrite Hn. lia.
  - destruct Htake as [-> Hnone]. assert (Hsame : forall p', lanes (with_lane q p (lanes q p) (totalQueued_ q)) p' = lanes q p').
    { cbn [lanes with_lane]. apply (set_lane_cases (fun p' l => l = lanes q p')); done. }
    specialize (IH (next_priority p) (with_lane q p (lanes q p) (totalQueued_ q))). destruct (dequeue_one n _ _) as [o q']. destruct IH as [H1 H2].
    { split_and!; [by intros p'; rewrite Hsame|by intros p'; rewrite Hsame|]. unfold tasks. rewrite !Hsame. exact Ht. }
    split; [done|]. destruct o as [t|]; [done|]. destruct H2 as (H3 & H4 & H5). split_and!; [intros p'; by rewrite H3, Hsame|done|].
    intros [|i] Hi; [done|]. rewrite Nat.iter_succ_r. specialize (H5 i ltac:(lia)). by rewrite Hsame in H5.
Qed.

Lemma tasks_nil_orders q : shard_ok q -> tasks q = [] <-> forall p, order (lanes q p) = [].
Proof.
  intros (Hl & _ & _). unfold tasks. split.
  - intros (E1 & (E2 & E3)%app_eq_nil)%app_eq_nil [| |]; by apply (lane_tasks_nil _ _ (Hl _)).
  - intros H. by rewrite !(proj1 (lane_tasks_nil _ _ (Hl _)) (H _)).
Qed.

Lemma reset_ok q : shard_ok q -> shard_ok (reset_budgets q).
Proof. intros (Hl & Hb & Ht). split_and!; [exact Hl| |done]. intros p. simpl. destruct p; simpl; lia. Qed.

Lemma advance_ok q : shard_ok q -> shard_ok (advance_cursor q).
Proof. done. Qed.

(** When no lane gave a task although there are some, a budget is used up. *)
Lemma none_depleted q q1 : shard_ok q -> dequeue_one 3 (priorityCursor_ q) q = (None, q1) -> 0 < totalQueued_ q -> depleted q1 = true /\ totalQueued_ q1 = totalQueued_ q.
Proof.
  intros Hq E Hpos. pose proof (dequeue_one_ok 3 (priorityCursor_ q) q Hq) as H. rewrite E in H. destruct H as (_ & Hsame & Ht & Hall). split; [|done].
  assert (Hall' : forall p, budget (lanes q p) = 0 \/ order (lanes q p) = []) by (intros p; destruct (three_lanes (priorityCursor_ q) p) as (i & Hi & <-); by apply Hall).
  pose proof Hq as (Hl & _ & Hn). destruct (depleted q1) eqn:Ed; [done|exfalso].
  assert (Hno : forall p, order (lanes q p) = []).
  { intros p. destruct (Hall' p) as [Hb|?]; [|done]. unfold depleted in Ed. cbn [existsb] in Ed. rewrite !orb_false_iff in Ed.
    assert (Hp : (budget (lanes q1 p) =? 0) && negb (bool_decide (buckets (lanes q1 p) = ∅)) = false) by (destruct p; tauto).
    rewrite Hsame, Hb, (lane_ok_buckets p) in Hp by done. cbn [Z.eqb andb] in Hp. apply negb_false_iff, bool_decide_eq_true in Hp. done. }
  apply (tasks_nil_orders q Hq) in Hno. rewrite Hno in Hn. simpl in Hn. lia.
Qed.

(** With budgets in every lane, a shard that has tasks gives one. *)
Lemma reset_gives q : shard_ok q -> 0 < totalQueued_ q -> exists t q1, dequeue_one 3 (priorityCursor_ (reset_budgets q)) (reset_budgets q) = (Some t, q1).
Proof.
  intros Hq Hpos. destruct (dequeue_one 3 _ (reset_budgets q)) as [[t|] q1] eqn:E; [by eauto|exfalso].
  destruct (none_depleted (reset_budgets q) q1 (reset_ok q Hq) E Hpos) as [Hd _].
  pose proof (dequeue_one_ok 3 (priorityCursor_ (reset_budgets q)) (reset_budgets q) (reset_ok q Hq)) as H. rewrite E in H. destruct H as (_ & Hsame & _).
  unfold depleted in Hd. cbn [existsb] in Hd. rewrite !Hsame in Hd. done.
Qed.

Lemma dequeue_one_pop q t q1 : shard_ok q -> dequeue_one 3 (priorityCursor_ q) q = (Some t, q1) -> shard_ok (advance_cursor q1) /\ length (tasks q) = S (length (tasks q1)).
Proof.
  intros Hq E. pose proof (dequeue_one_ok 3 (priorityCursor_ q) q Hq) as H. pose proof (dequeue_one_conserves 3 (priorityCursor_ q) q) as Hc. rewrite E in H, Hc.
  split; [apply H|]. destruct Hc as (HP & _). cbn [fst snd] in HP. change (option_list (Some t)) with [t] in HP. by rewrite HP.
Qed.

Lemma dequeue_loop_progress fuel : forall count q, shard_ok q -> (2 * (8 - count) < fuel)%nat ->
  shard_ok (dequeue_loop fuel count q).2 /\ length (dequeue_loop fuel count q).1 = Nat.min (8 - count) (length (tasks q)).
Proof.
  induction fuel as [fuel IH] using lt_wf_ind; intros count q Hq Hf. destruct fuel as [|f]; [lia|]. cbn [dequeue_loop]. pose proof Hq as (_ & _ & Hn).
  destruct (Z.ltb_spec 0 (totalQueued_ q)) as [Hpos|Hzero]; cbn [andb]; [|split; [done|]; simpl; lia].
  destruct (Nat.ltb_spec count 8) as [Hc|Hc]; [|split; [done|]; simpl; lia].
  destruct (dequeue_one 3 (priorityCursor_ q) q) as [[t|] q1] eqn:E.
  - destruct (dequeue_one_pop q t q1 Hq E) as [H1 H2]. destruct (IH f ltac:(lia) (S count) (advance_cursor q1) H1 ltac:(lia)) as [H3 H4].
    destruct (dequeue_loop f (S count) (advance_cursor q1)) as [ts q2]. cbn [fst snd] in *. split; [done|]. cbn [length]. rewrite H4. change (tasks (advance_cursor q1)) with (tasks q1). lia.
  - destruct (none_depleted q q1 Hq E Hpos) as [-> Ht1]. rewrite (proj2 (Z.ltb_lt _ _)) by lia. cbn [andb].
    pose proof (dequeue_one_ok 3 (priorityCursor_ q) q Hq) as H. rewrite E in H. destruct H as (Hq1 & Hsame & _).
    assert (Htasks : tasks q1 = tasks q) by (unfold tasks; by rewrite !Hsame).
    destruct f as [|f]; [lia|]. cbn [dequeue_loop]. change (totalQueued_ (reset_budgets q1)) with (totalQueued_ q1).
    rewrite (proj2 (Z.ltb_lt _ _)), (proj2 (Nat.ltb_lt _ _)) by lia. cbn [andb]. destruct (reset_gives q1 Hq1 ltac:(lia)) as (t & q2 & E2). rewrite E2.
    destruct (dequeue_one_pop (reset_budgets q1) t q2 (reset_ok q1 Hq1) E2) as [H1 H2]. change (tasks (reset_budgets q1)) with (tasks q1) in H2. rewrite Htasks in H2.
    destruct (IH f ltac:(lia) (S count) (advance_cursor q2) H1 ltac:(lia)) as [H3 H4]. destruct (dequeue_loop f (S count) (advance_cursor q2)) as [ts q3].
    cbn [fst snd] in *. split; [done|]. cbn [length]. rewrite H4. change (tasks (advance_cursor q2)) with (tasks q2). lia.
Qed.

(** A worker takes eight tasks, or all there are. *)
Lemma dequeue_batch_progress q : shard_ok q -> shard_ok (dequeue_batch q).2 /\ length (dequeue_batch q).1 = Nat.min 8 (length (tasks q)).
Proof.
  intros Hq. unfold dequeue_batch. destruct (dequeue_loop_progress 17 0 q Hq ltac:(lia)) as [H1 H2]. destruct (dequeue_loop 17 0 q) as [ts q1]. cbn [fst snd] in *.
  split; [|done]. destruct (forallb _ _); [by apply reset_ok|done].
Qed.


Lemma enqueue_shard_ok m q t p coll cost : shard_ok q -> counted m q -> let '(q', ok) := enqueue q t p coll cost in
  shard_ok q' /\ counted m q' /\ (ok = true <-> totalQueued_ q < m) /\ (if ok then exists e, task e = t /\ tasks q' ≡ₚ e :: tasks q else q' = q).
Proof.
  intros (Hl & Hb & Ht) (_ & Hle & Hm). unfold enqueue. rewrite Hm. destruct (Z.leb_spec m (totalQueued_ q)) as [Hge|Hlt].
  { split_and!; try done. split; [done|lia]. }
  set (e := make_envelope _ t p coll cost). set (l := lane_enqueue (lanes q p) e). set (q' := mkQueue _ _ _ _ _).
  assert (HP : tasks q' ≡ₚ e :: tasks q).
  { pose proof (tasks_set_lane q' p (lanes q p) (priorityCursor_ q) (totalQueued_ q) (sequence_ q) (maxQueueSize_ q) [e]) as H.
    rewrite <- H; [|cbn [q' lanes]; rewrite set_lane_eq; unfold l; by rewrite lane_enqueue_tasks].
    cbn [app]. constructor. unfold tasks. cbn [lanes q']. destruct p; by rewrite ?set_lane_eq, !set_lane_ne, ?set_lane_ne by done. }
  assert (Hlanes : forall p', lane_ok p' (lanes q' p') /\ 0 <= budget (lanes q' p')).
  { cbn [q' lanes]. apply (set_lane_cases (fun p' l => lane_ok p' l /\ 0 <= budget l)); [|auto]. split; [by apply lane_enqueue_ok|].
    unfold l, lane_enqueue. specialize (Hb p). by destruct (buckets _ !! _). }
  assert (Hlen : Z.of_nat (length (tasks q')) = totalQueued_ q + 1) by (rewrite HP; cbn [length]; lia).
  split; [split_and!; [intros p'; apply Hlanes|intros p'; apply Hlanes|by rewrite Hlen]|].
  split; [split_and!; [by rewrite Hlen|cbn [q' totalQueued_]; lia|done]|]. split; [done|by exists e].
Qed.

(** ** The partitioned queue *)

Inductive ProPriority := CRITICAL | P_HIGH | P_MEDIUM | P_LOW.

Definition dbqPriority (p : ProPriority) : Priority := match p with CRITICAL | P_HIGH => HIGH | P_MEDIUM => MEDIUM | P_LOW => LOW end.

Record partition := mkPartition { pt_shards : list queue; isHot : bool; tasksProcessed : Z; tasksRejected : Z }.

Record partitioned := mkPartitioned { partitions : list partition; roundRobin : Z; enableWorkStealing_ : bool }.

Definition partitioned_new (shards : nat) (maxQueue : Z) (stealing : bool) : partitioned :=
  mkPartitioned (replicate (Nat.max 1 shards) (mkPartition (sharded_new 1 (Z.max 1 maxQueue)) false 0 0)) 0 stealing.

Context (hash : bytes -> nat).

Definition hot_at (s : partitioned) (i : nat) : bool := match partitions s !! i with Some pt => isHot pt | None => false end.

(** The partition for a task, and the counter of the round robin. *)
Definition selectShardAdaptive (s : partitioned) (coll hint : bytes) : nat * Z :=
  let n := length (partitions s) in
  if negb (bytes_eqb hint []) then ((hash hint mod n)%nat, roundRobin s)
  else if negb (bytes_eqb coll []) then
    let base := (hash coll mod n)%nat in
    (if hot_at s base then default base (List.find (fun c => negb (hot_at s c)) (map (fun i => ((base + i) mod n)%nat) (seq 1 (n - 1)))) else base, roundRobin s)
  else (Z.to_nat (roundRobin s mod Z.of_nat n), u64 (roundRobin s + 1)).

(** The enqueue on the queue of one partition. *)
Definition offer (pt : partition) (t : Task) (p : Priority) (coll : bytes) (cost : Z) : partition * bool :=
  let '(shards, ok) := sharded_enqueue hash (pt_shards pt) t p coll cost in
  (mkPartition shards (isHot pt) (if ok then u64 (tasksProcessed pt + 1) else tasksProcessed pt) (tasksRejected pt), ok).

Definition reject (pt : partition) : partition := mkPartition (pt_shards pt) (isHot pt) (tasksProcessed pt) (u64 (tasksRejected pt + 1)).

(** The other partitions, until one takes the task. *)
Fixpoint offer_others (ids : list nat) (ps : list partition) (t : Task) (p : Priority) (coll : bytes) (cost : Z) : list partition * bool :=
  match ids with
  | [] => (ps, false)
  | i :: r => match ps !! i with
              | Some pt => match offer pt t p coll cost with
                           | (pt', true) => (<[i := pt']> ps, true)
                           | (pt', false) => offer_others r (<[i := pt']> ps) t p coll cost
                           end
              | None => offer_others r ps t p coll cost
              end
  end.

(** A call of [enqueue] that no other call interrupts. *)
Definition partitioned_enqueue (s : partitioned) (t : Task) (pr : ProPriority) (coll : bytes) (cost : Z) (hint : bytes) : partitioned * bool :=
  let n := length (partitions s) in
  let '(id0, rr) := selectShardAdaptive s coll hint in
  let id := if (n <=? id0)%nat then 0%nat else id0 in
  match partitions s !! id with
  | None => (mkPartitioned (partitions s) rr (enableWorkStealing_ s), false)
  | Some pt =>
      match offer pt t (dbqPriority pr) coll cost with
      | (pt', true) => (mkPartitioned (<[id := pt']> (partitions s)) rr (enableWorkStealing_ s), true)
      | (pt', false) =>
          let ps := <[id := pt']> (partitions s) in
          let '(ps, ok) := if enableWorkStealing_ s then offer_others (map (fun i => ((id + i) mod n)%nat) (seq 1 (n - 1))) ps t (dbqPriority pr) coll cost else (ps, false) in
          (mkPartitioned (alter reject id ps) rr (enableWorkStealing_ s), ok)
      end
  end.

(** *** Calls in flight

    Each partition has its own lock, so other calls and workers come between the
    partitions that a call asks. *)

(** A call with the partitions it has yet to ask. *)
Record call := mkCall { cl_task : Task; cl_priority : Priority; cl_coll : bytes; cl_cost : Z; cl_primary : nat; cl_left : list nat }.

(** Up to the first lock. *)
Definition begin_enqueue (s : partitioned) (t : Task) (pr : ProPriority) (coll : bytes) (cost : Z) (hint : bytes) : partitioned * call :=
  let n := length (partitions s) in
  let '(id0, rr) := selectShardAdaptive s coll hint in
  let id := if (n <=? id0)%nat then 0%nat else id0 in
  (mkPartitioned (partitions s) rr (enableWorkStealing_ s),
   mkCall t (dbqPriority pr) coll cost id (id :: if enableWorkStealing_ s then map (fun i => ((id + i) mod n)%nat) (seq 1 (n - 1)) else [])).

(** The next partition is asked, or there is none left; the call goes on or answers. *)
Definition try_next (s : partitioned) (c : call) : partitioned * (call + bool) :=
  match cl_left c with
  | [] => (mkPartitioned (alter reject (cl_primary c) (partitions s)) (roundRobin s) (enableWorkStealing_ s), inr false)
  | i :: rest =>
      let next := mkCall (cl_task c) (cl_priority c) (cl_coll c) (cl_cost c) (cl_primary c) rest in
      match partitions s !! i with
      | None => (s, inl next)
      | Some pt =>
          match offer pt (cl_task c) (cl_priority c) (cl_coll c) (cl_cost c) with
          | (pt', true) =>
              let ps := <[i := pt']> (partitions s) in
              (mkPartitioned (if (i =? cl_primary c)%nat then ps else alter reject (cl_primary c) ps) (roundRobin s) (enableWorkStealing_ s), inr true)
          | (pt', false) => (mkPartitioned (<[i := pt']> (partitions s)) (roundRobin s) (enableWorkStealing_ s), inl next)
          end
      end
  end.

(** A worker of the [i]-th partition takes a batch. *)
Definition partition_work (s : partitioned) (i : nat) : list TaskEnvelope * partitioned :=
  match partitions s !! i with
  | None => ([], s)
  | Some pt => let '(ts, shards) := worker_turn (fun _ => false) (pt_shards pt) 0 in
               (ts, mkPartitioned (<[i := mkPartition shards (isHot pt) (tasksProcessed pt) (tasksRejected pt)]> (partitions s)) (roundRobin s) (enableWorkStealing_ s))
  end.

(** [updateShardMetrics]: a partition is hot when the part of its capacity that is used, in percent, reaches the target. *)
Definition set_hot (pt : partition) (hot : bool) : partition := mkPartition (pt_shards pt) hot (tasksProcessed pt) (tasksRejected pt).

Definition getQueued (pt : partition) : Z := foldr (fun q n => totalQueued_ q + n) 0 (pt_shards pt).

Definition utilization (maxQueue : Z) (pt : partition) : double :=
  dmul (ddiv (double_of_int (getQueued pt)) (double_of_int maxQueue)) (double_of_int 100).

Definition updateShardMetrics (s : partitioned) (i : nat) (maxQueue : Z) (target : double) : partitioned :=
  mkPartitioned (alter (fun pt => set_hot pt (dle (dmul target (double_of_int 100)) (utilization maxQueue pt))) i (partitions s)) (roundRobin s) (enableWorkStealing_ s).

(** *** What holds of the partitions *)

Definition partition_ok (m : Z) (pt : partition) : Prop := exists q, pt_shards pt = [q] /\ shard_ok q /\ counted m q.

Definition partition_tasks (pt : partition) : list TaskEnvelope := all_tasks (pt_shards pt).

Definition queued (s : partitioned) : list TaskEnvelope := concat (map partition_tasks (partitions s)).

Definition full (m : Z) (pt : partition) : Prop := Z.of_nat (length (partition_tasks pt)) = m.

Lemma queued_insert ps i pt pt' ts : ps !! i = Some pt -> partition_tasks pt ≡ₚ ts ++ partition_tasks pt' ->
  concat (map partition_tasks ps) ≡ₚ ts ++ concat (map partition_tasks (<[i := pt']> ps)).
Proof.
  intros Hi H. rewrite (insert_take_drop ps i pt') by (by eapply lookup_lt_Some). rewrite <- (take_drop_middle ps i pt Hi) at 1.
  rewrite !map_app, !concat_app. cbn [map concat]. rewrite H, <- app_assoc. apply Permutation_app_swap_app.
Qed.

Lemma partition_tasks_one pt q : pt_shards pt = [q] -> partition_tasks pt = tasks q.
Proof. intros E. unfold partition_tasks, all_tasks. rewrite E. simpl. by rewrite app_nil_r. Qed.

Lemma offer_ok m pt t p coll cost : partition_ok m pt -> let '(pt', ok) := offer pt t p coll cost in
  partition_ok m pt' /\ (ok = true <-> ~ full m pt) /\ (if ok then exists e, task e = t /\ partition_tasks pt' ≡ₚ e :: partition_tasks pt else partition_tasks pt' = partition_tasks pt).
Proof.
  intros (q & E & Hq & Hc). unfold offer, sharded_enqueue. rewrite E.
  assert (Hid : hashCollection hash (length [q]) coll = 0%nat) by (unfold hashCollection; destruct (bytes_eqb coll []); [done|apply Nat.mod_1_r]).
  rewrite Hid. cbn [lookup list_lookup]. pose proof (enqueue_shard_ok m q t p coll cost Hq Hc) as H. destruct (enqueue q t p coll cost) as [q' ok]. destruct H as (H1 & H2 & H3 & H4).
  cbn [insert list_insert]. split_and!.
  - by exists q'.
  - rewrite H3. unfold full. rewrite (partition_tasks_one pt q E). destruct Hc as (Hc1 & Hc2 & _). lia.
  - rewrite (partition_tasks_one pt q E), (partition_tasks_one (mkPartition [q'] _ _ _) q' eq_refl). destruct ok; [done|by rewrite H4].
Qed.

#[local] Instance full_dec m pt : Decision (full m pt).
Proof. unfold full. apply _. Defined.

Lemma insert_same_tasks (ps : list partition) i pt pt' : ps !! i = Some pt -> partition_tasks pt' = partition_tasks pt -> partition_tasks <$> <[i := pt']> ps = partition_tasks <$> ps.
Proof. intros Hi H. rewrite list_fmap_insert, H. apply list_insert_id. by rewrite list_lookup_fmap, Hi. Qed.

(** A task that is refused leaves the tasks as they are, and those asked are full. *)
Lemma offer_others_ok m ids t p coll cost : forall ps, Forall (partition_ok m) ps -> let '(ps', ok) := offer_others ids ps t p coll cost in
  Forall (partition_ok m) ps' /\ length ps' = length ps /\
  if ok then (exists e, task e = t /\ concat (partition_tasks <$> ps') ≡ₚ e :: concat (partition_tasks <$> ps)) /\ exists l, l ∈ partition_tasks <$> ps /\ Z.of_nat (length l) <> m
  else partition_tasks <$> ps' = partition_tasks <$> ps /\ forall i l, i ∈ ids -> (partition_tasks <$> ps) !! i = Some l -> Z.of_nat (length l) = m.
Proof.
  induction ids as [|i ids IH]; intros ps Hps; cbn [offer_others]; [split_and!; try done; by intros ? ? ?%not_elem_of_nil|].
  destruct (ps !! i) as [pt|] eqn:E.
  - pose proof (offer_ok m pt t p coll cost ltac:(by eapply Forall_lookup_1)) as H. destruct (offer pt t p coll cost) as [pt' ok]. destruct H as (H1 & H2 & H3).
    assert (Hins : Forall (partition_ok m) (<[i := pt']> ps)) by (by apply Forall_insert). destruct ok.
    + destruct H3 as (e & He & HP). split_and!; [done|by rewrite length_insert| |].
      * exists e. split; [done|]. pose proof (queued_insert (<[i := pt']> ps) i pt' pt [e]) as Hq. rewrite list_insert_insert_eq, (list_insert_id ps i pt E) in Hq.
        apply Hq; [|by rewrite HP]. apply list_lookup_insert_eq. by eapply lookup_lt_Some.
      * exists (partition_tasks pt). split; [apply list_elem_of_fmap; exists pt; split; [done|by eapply list_elem_of_lookup_2]|]. by apply H2.
    + pose proof (insert_same_tasks ps i pt pt' E H3) as Hsame.
      specialize (IH (<[i := pt']> ps) Hins). destruct (offer_others ids (<[i := pt']> ps) t p coll cost) as [ps' ok]. rewrite Hsame in IH. destruct IH as (I1 & I2 & I3).
      split_and!; [done|by rewrite I2, length_insert|]. destruct ok; [done|]. destruct I3 as [I3 I4]. split; [done|]. intros j l [->|Hj]%elem_of_cons Hl; [|eauto].
      rewrite list_lookup_fmap, E in Hl. simpl in Hl. injection Hl as <-. destruct (decide (full m pt)) as [?|Hn]; [done|]. by apply H2 in Hn.
  - specialize (IH ps Hps). destruct (offer_others ids ps t p coll cost) as [ps' ok]. destruct IH as (I1 & I2 & I3). split_and!; [done|done|]. destruct ok; [done|].
    destruct I3 as [I3 I4]. split; [done|]. intros j l [->|Hj]%elem_of_cons Hl; [by rewrite list_lookup_fmap, E in Hl|eauto].
Qed.

(** The ring of the other partitions reaches every one. *)
Lemma ring_covers n id j : (id < n)%nat -> (j < n)%nat -> j <> id -> j ∈ map (fun i => ((id + i) mod n)%nat) (seq 1 (n - 1)).
Proof.
  intros Hi Hj Hne. apply list_elem_of_fmap. destruct (decide (id < j)%nat) as [Hlt|Hge].
  - exists (j - id)%nat. split; [rewrite Nat.mod_small; lia|]. apply elem_of_seq. lia.
  - exists (n - id + j)%nat. split; [|apply elem_of_seq; lia]. replace (id + (n - id + j))%nat with (j + 1 * n)%nat by lia. rewrite Nat.Div0.mod_add. by rewrite Nat.mod_small.
Qed.

Definition system_ok (m : Z) (s : partitioned) : Prop := Forall (partition_ok m) (partitions s) /\ partitions s <> [].

Lemma alter_reject_ok m id (ps : list partition) : Forall (partition_ok m) ps -> Forall (partition_ok m) (alter reject id ps) /\ partition_tasks <$> alter reject id ps = partition_tasks <$> ps.
Proof.
  intros H. split.
  - apply Forall_alter; [done|]. intros pt _ (q & E & Hq). by exists q.
  - revert id. clear H. induction ps as [|pt ps IH]; intros [|id]; simpl; [done..|]. f_equal. apply IH.
Qed.

Lemma enqueue_ok m s t pr coll cost hint : system_ok m s -> let '(s', ok) := partitioned_enqueue s t pr coll cost hint in
  system_ok m s' /\ enableWorkStealing_ s' = enableWorkStealing_ s /\
  if ok then (exists e, task e = t /\ queued s' ≡ₚ e :: queued s) /\ ~ Forall (full m) (partitions s)
  else queued s' = queued s /\ (enableWorkStealing_ s = true -> Forall (full m) (partitions s)).
Proof.
  intros [Hps Hne]. unfold partitioned_enqueue. destruct (selectShardAdaptive s coll hint) as [id0 rr]. set (n := length (partitions s)).
  set (id := if (n <=? id0)%nat then 0%nat else id0).
  assert (Hn : (0 < n)%nat) by (unfold n; destruct (partitions s); [done|simpl; lia]).
  assert (Hid : (id < n)%nat) by (unfold id; destruct (Nat.leb_spec n id0); lia). destruct (lookup_lt_is_Some_2 _ _ Hid) as [pt Hpt]. rewrite Hpt.
  assert (Hkeep : forall ps : list partition, length ps = n -> ps <> []) by (intros ps Hl ->; simpl in Hl; lia).
  pose proof (offer_others_ok m [id] t (dbqPriority pr) coll cost (partitions s) Hps) as Hfirst. cbn [offer_others] in Hfirst. rewrite Hpt in Hfirst.
  assert (Hnf : (exists l, l ∈ partition_tasks <$> partitions s /\ Z.of_nat (length l) <> m) -> ~ Forall (full m) (partitions s)).
  { intros (l & (x & -> & Hx)%list_elem_of_fmap & Hl) Hf. rewrite Forall_forall in Hf. by apply Hl, Hf. }
  destruct (offer pt t (dbqPriority pr) coll cost) as [pt' []]; destruct Hfirst as (F1 & F2 & F3).
  { destruct F3 as [F3 F4]. split; [split; [done|cbn [partitions]; apply Hkeep; by rewrite length_insert]|]. split; [done|]. split; [exact F3|auto]. }
  destruct F3 as [F3 F4]. destruct (enableWorkStealing_ s) eqn:Es.
  - pose proof (offer_others_ok m (map (fun i => ((id + i) mod n)%nat) (seq 1 (n - 1))) t (dbqPriority pr) coll cost (<[id := pt']> (partitions s)) F1) as Hoth.
    destruct (offer_others _ (<[id := pt']> (partitions s)) t _ coll cost) as [ps ok]. rewrite F3 in Hoth. destruct Hoth as (O1 & O2 & O3).
    destruct (alter_reject_ok m id ps O1) as [A1 A2]. split; [|split; [done|]].
    + split; [done|]. cbn [partitions]. apply Hkeep. by rewrite length_alter, O2, length_insert.
    + unfold queued. cbn [partitions]. change (map partition_tasks) with (fmap (M := list) partition_tasks). rewrite A2. destruct ok; [destruct O3 as [O3 O4]; auto|].
      destruct O3 as [O3 O4]. split; [by rewrite O3|]. intros _. apply Forall_lookup_2. intros j x Hx. unfold full.
      assert (Hl : (partition_tasks <$> partitions s) !! j = Some (partition_tasks x)) by (by rewrite list_lookup_fmap, Hx).
      destruct (decide (j = id)) as [->|Hj]; [by apply (F4 id); [left|]|]. apply (O4 j); [|done]. apply ring_covers; [done| |done]. by eapply lookup_lt_Some.
  - destruct (alter_reject_ok m id (<[id := pt']> (partitions s)) F1) as [A1 A2]. split; [|split; [done|]].
    + split; [done|]. cbn [partitions]. apply Hkeep. by rewrite length_alter, length_insert.
    + unfold queued. cbn [partitions]. change (map partition_tasks) with (fmap (M := list) partition_tasks). rewrite A2, F3. done.
Qed.

Lemma work_ok m s i : system_ok m s -> system_ok m (partition_work s i).2 /\ queued s ≡ₚ (partition_work s i).1 ++ queued (partition_work s i).2 /\
  forall pt, partitions s !! i = Some pt -> length (partition_work s i).1 = Nat.min 8 (length (partition_tasks pt)) /\ Z.of_nat (length (partition_tasks pt)) <= m.
Proof.
  intros [Hps Hne]. unfold partition_work. destruct (partitions s !! i) as [pt|] eqn:E; [|done].
  destruct (Forall_lookup_1 _ _ _ _ Hps E) as (q & Eq & Hq & Hc). rewrite Eq.
  pose proof (dequeue_batch_conserves q) as Hcons. destruct (dequeue_batch_progress q Hq) as [Hok Hlen]. destruct (dequeue_batch q) as [ts q'] eqn:Ed. cbn [fst snd] in *.
  assert (Hturn : worker_turn (fun _ => false) [q] 0 = (ts, [q'])) by (unfold worker_turn; cbn [lookup list_lookup]; rewrite Ed; by destruct ts).
  assert (Hpt : partition_tasks pt ≡ₚ ts ++ partition_tasks (mkPartition [q'] (isHot pt) (tasksProcessed pt) (tasksRejected pt))).
  { rewrite (partition_tasks_one pt q Eq), (partition_tasks_one (mkPartition [q'] _ _ _) q' eq_refl). apply Hcons. }
  rewrite Hturn. cbn [fst snd]. split; [split|split].
  - cbn [partitions]. apply Forall_insert; [done|]. exists q'. split; [done|]. split; [done|]. by eapply conserves_counted.
  - cbn [partitions]. intros H%(f_equal length). rewrite length_insert in H. by apply nil_length_inv in H.
  - by apply (queued_insert (partitions s) i pt).
  - intros pt0 [= <-]. rewrite (partition_tasks_one pt q Eq). split; [done|]. destruct Hc as (Hc1 & Hc2 & _). lia.
Qed.

(** One lock: the task is in the partition, or the partition is full. *)
Lemma try_next_ok m s c : system_ok m s -> let '(s', r) := try_next s c in
  system_ok m s' /\ enableWorkStealing_ s' = enableWorkStealing_ s /\
  match r with
  | inr true => exists e, task e = cl_task c /\ queued s' ≡ₚ e :: queued s
  | inr false => queued s' = queued s /\ cl_left c = []
  | inl c' => queued s' = queued s /\ cl_task c' = cl_task c /\ exists i, cl_left c = i :: cl_left c' /\ forall pt, partitions s !! i = Some pt -> full m pt
  end.
Proof.
  intros [Hps Hne]. unfold try_next. assert (Hkeep : forall ps : list partition, length ps = length (partitions s) -> ps <> []) by (intros ps Hl ->; symmetry in Hl; by apply nil_length_inv in Hl).
  destruct (cl_left c) as [|i rest] eqn:El.
  - destruct (alter_reject_ok m (cl_primary c) _ Hps) as [A1 A2]. split; [split; [done|apply Hkeep; cbn [partitions]; by rewrite length_alter]|]. split; [done|]. split; [|done].
    unfold queued. cbn [partitions]. change (map partition_tasks) with (fmap (M := list) partition_tasks). by rewrite A2.
  - pose proof (offer_others_ok m [i] (cl_task c) (cl_priority c) (cl_coll c) (cl_cost c) (partitions s) Hps) as H. cbn [offer_others] in H.
    destruct (partitions s !! i) as [pt|] eqn:E; [|split_and!; [done..|]; exists i; split_and!; [done|]; intros pt Hp; by rewrite E in Hp].
    destruct (offer pt _ _ _ _) as [pt' []]; destruct H as (F1 & F2 & F3).
    + destruct F3 as [F3 _]. destruct (alter_reject_ok m (cl_primary c) _ F1) as [A1 A2].
      assert (Hs' : system_ok m (mkPartitioned (if (i =? cl_primary c)%nat then <[i:=pt']> (partitions s) else alter reject (cl_primary c) (<[i:=pt']> (partitions s))) (roundRobin s) (enableWorkStealing_ s))).
      { split; cbn [partitions]; [by destruct (_ =? _)%nat|]. apply Hkeep. destruct (_ =? _)%nat; rewrite ?length_alter; apply length_insert. }
      split; [done|]. split; [done|]. unfold queued. cbn [partitions]. change (map partition_tasks) with (fmap (M := list) partition_tasks). destruct (_ =? _)%nat; [exact F3|]. by rewrite A2.
    + destruct F3 as [F3 F4]. split; [split; [done|apply Hkeep, length_insert]|]. split; [done|]. unfold queued. cbn [partitions cl_task cl_left]. change (map partition_tasks) with (fmap (M := list) partition_tasks).
      split; [by rewrite F3|]. split; [done|]. exists i. split; [done|]. intros pt0 Hp. rewrite E in Hp. injection Hp as <-. unfold full. apply (F4 i); [left|]. by rewrite list_lookup_fmap, E.
Qed.

(** With work stealing a call asks every partition. *)
Lemma begin_asks_all s t pr coll cost hint i : enableWorkStealing_ s = true -> (i < length (partitions s))%nat -> i ∈ cl_left (begin_enqueue s t pr coll cost hint).2.
Proof.
  intros Hst Hi. unfold begin_enqueue. destruct (selectShardAdaptive s coll hint) as [id0 rr]. rewrite Hst. cbn [snd cl_left]. set (n := length (partitions s)) in *.
  set (id := if (n <=? id0)%nat then 0%nat else id0). assert (Hid : (id < n)%nat) by (unfold id; destruct (Nat.leb_spec n id0); lia).
  destruct (decide (i = id)) as [->|Hne]; [left|right]. by apply ring_covers.
Qed.

Fixpoint run_call (left_ : list nat) (s : partitioned) (c : call) : partitioned * bool :=
  match try_next s c with
  | (s', inr ok) => (s', ok)
  | (s', inl c') => match left_ with [] => (s', false) | _ :: rest => run_call rest s' c' end
  end.

Lemma run_call_others ids : forall s c, cl_left c = ids -> Forall (fun i => i <> cl_primary c) ids ->
  run_call ids s c = let '(ps, ok) := offer_others ids (partitions s) (cl_task c) (cl_priority c) (cl_coll c) (cl_cost c) in
    (mkPartitioned (alter reject (cl_primary c) ps) (roundRobin s) (enableWorkStealing_ s), ok).
Proof.
  induction ids as [|i ids IH]; intros s c El Hne; cbn [run_call offer_others]; unfold try_next at 1; rewrite El; [done|]. apply Forall_cons in Hne as [Hi Hne].
  destruct (partitions s !! i) as [pt|]; [|by rewrite IH]. destruct (offer pt _ _ _ _) as [pt' []]; [|by rewrite IH]. by rewrite (proj2 (Nat.eqb_neq _ _) Hi).
Qed.

Lemma ring_others n id : (id < n)%nat -> Forall (fun i => i <> id) (map (fun i => ((id + i) mod n)%nat) (seq 1 (n - 1))).
Proof.
  intros Hid. apply Forall_forall. intros j (i & -> & Hi)%list_elem_of_fmap. apply elem_of_seq in Hi. destruct (decide (id + i < n)%nat) as [H|H]; [rewrite Nat.mod_small by lia; lia|].
  replace (id + i)%nat with ((id + i - n) + 1 * n)%nat by lia. rewrite Nat.Div0.mod_add, Nat.mod_small by lia. lia.
Qed.

(** A call that is not interrupted, lock by lock. *)
Lemma enqueue_is_calls s t pr coll cost hint : partitions s <> [] ->
  partitioned_enqueue s t pr coll cost hint = let '(s', c) := begin_enqueue s t pr coll cost hint in run_call (cl_left c) s' c.
Proof.
  intros Hne. unfold partitioned_enqueue, begin_enqueue. destruct (selectShardAdaptive s coll hint) as [id0 rr]. set (n := length (partitions s)). set (id := if (n <=? id0)%nat then 0%nat else id0).
  assert (Hid : (id < n)%nat) by (unfold id, n; destruct (partitions s); [done|]; destruct (Nat.leb_spec (length (p :: l)) id0); cbn [length] in *; lia).
  cbn [cl_left run_call]. unfold try_next at 1. cbn [cl_left cl_task cl_priority cl_coll cl_cost cl_primary partitions roundRobin enableWorkStealing_].
  destruct (partitions s !! id) as [pt|] eqn:E; [|apply lookup_ge_None in E; fold n in E; lia].
  destruct (offer pt t (dbqPriority pr) coll cost) as [pt' []]; [by rewrite Nat.eqb_refl|]. rewrite run_call_others; [|done|destruct (enableWorkStealing_ s); [by apply ring_others|constructor]].
  cbn [cl_task cl_priority cl_coll cl_cost cl_primary partitions roundRobin enableWorkStealing_]. by destruct (enableWorkStealing_ s).
Qed.

Inductive p_event :=
| Offer (t : Task) (pr : ProPriority) (coll : bytes) (cost : Z) (hint : bytes)
| Begin (t : Task) (pr : ProPriority) (coll : bytes) (cost : Z) (hint : bytes)
| Try (j : nat)
| Turn (i : nat)
| Metrics (i : nat) (maxQueue : Z) (target : double).

(** The queue, the calls in flight, what workers took, and what was accepted. *)
Definition p_state : Type := partitioned * list call * list TaskEnvelope * list Task.

Definition p_step (s : p_state) (ev : p_event) : p_state :=
  let '(s, calls, done_, accepted) := s in
  match ev with
  | Offer t pr coll cost hint => let '(s', ok) := partitioned_enqueue s t pr coll cost hint in (s', calls, done_, if ok then accepted ++ [t] else accepted)
  | Begin t pr coll cost hint => let '(s', c) := begin_enqueue s t pr coll cost hint in (s', calls ++ [c], done_, accepted)
  | Try j =>
      match calls !! j with
      | None => (s, calls, done_, accepted)
      | Some c => match try_next s c with
                  | (s', inl c') => (s', <[j := c']> calls, done_, accepted)
                  | (s', inr ok) => (s', delete j calls, done_, if ok then accepted ++ [cl_task c] else accepted)
                  end
      end
  | Turn i => let '(ts, s') := partition_work s i in (s', calls, done_ ++ ts, accepted)
  | Metrics i maxQueue target => (updateShardMetrics s i maxQueue target, calls, done_, accepted)
  end.

Definition p_run (s : partitioned) (evs : list p_event) : p_state := fold_left p_step evs (s, [], [], []).

Definition p_trace_ok (m : Z) (stealing : bool) (s : p_state) : Prop :=
  let '(s, _, done_, accepted) := s in system_ok m s /\ enableWorkStealing_ s = stealing /\ accepted ≡ₚ map task (done_ ++ queued s).

Lemma accept_one (accepted : list Task) done_ (e : TaskEnvelope) (s s' : partitioned) : accepted ≡ₚ map task (done_ ++ queued s) -> queued s' ≡ₚ e :: queued s ->
  accepted ++ [task e] ≡ₚ map task (done_ ++ queued s').
Proof. intros HP He. rewrite HP, He, !map_app. cbn [map]. solve_Permutation. Qed.

Lemma p_step_ok m st s ev : p_trace_ok m st s -> p_trace_ok m st (p_step s ev).
Proof.
  destruct s as [[[s calls] done_] accepted]. intros (Hs & Hst & HP). destruct ev as [t pr coll cost hint|t pr coll cost hint|j|i|i mq target]; cbn [p_step].
  - pose proof (enqueue_ok m s t pr coll cost hint Hs) as H. destruct (partitioned_enqueue s t pr coll cost hint) as [s' []]; destruct H as (H1 & H2 & H3).
    + destruct H3 as [(e & <- & He) _]. split; [done|]. split; [congruence|]. by apply (accept_one accepted done_ e s).
    + destruct H3 as [H3 _]. split; [done|]. split; [congruence|]. by rewrite H3.
  - unfold begin_enqueue. by destruct (selectShardAdaptive s coll hint).
  - destruct (calls !! j) as [c|]; [|done]. pose proof (try_next_ok m s c Hs) as H. destruct (try_next s c) as [s' [c'|[]]]; destruct H as (H1 & H2 & H3).
    + destruct H3 as [H3 _]. split; [done|]. split; [congruence|]. by rewrite H3.
    + destruct H3 as (e & <- & He). split; [done|]. split; [congruence|]. by apply (accept_one accepted done_ e s).
    + destruct H3 as [H3 _]. split; [done|]. split; [congruence|]. by rewrite H3.
  - destruct (work_ok m s i Hs) as (H1 & H2 & _). assert (Hst' : enableWorkStealing_ (partition_work s i).2 = st).
    { unfold partition_work. destruct (partitions s !! i); [|done]. by destruct (worker_turn _ _ _). }
    destruct (partition_work s i) as [ts s']. split; [done|]. split; [done|]. cbn [fst snd] in *. by rewrite HP, H2, app_assoc.
  - destruct Hs as [Hps Hne].
    split; [split|split; [done|]].
    + cbn [partitions updateShardMetrics]. apply Forall_alter; [done|]. intros pt _ (q & E & Hq). by exists q.
    + cbn [partitions updateShardMetrics]. intros H%(f_equal length). rewrite length_alter in H. by apply nil_length_inv in H.
    + rewrite HP. f_equiv. f_equiv. unfold queued. cbn [partitions updateShardMetrics]. clear. revert i.
      induction (partitions s) as [|pt ps IH]; intros [|i]; simpl; [done|done|done|]. f_equiv. apply IH.
Qed.

Lemma p_start_ok shards maxQueue stealing : p_trace_ok (Z.max 1 maxQueue) stealing (partitioned_new shards maxQueue stealing, [], [], []).
Proof.
  split; [split|split; [done|]].
  - apply Forall_replicate. exists (queue_new (Z.max 1 maxQueue)). split; [unfold sharded_new; simpl; do 2 f_equal; lia|].
    destruct (queue_new_ok (Task := Task) (Z.max 1 maxQueue)) as (H1 & _ & H2). split; [split_and!; [done| |done]|split_and!; [done|simpl; lia|done]]. intros []; simpl; lia.
  - cbn [partitions partitioned_new]. intros H%(f_equal length). rewrite length_replicate in H. cbn [length] in H. lia.
  - unfold queued. cbn [partitions partitioned_new app]. induction (Nat.max 1 shards) as [|k IH]; simpl; [done|]. by rewrite <- IH.
Qed.

Lemma p_run_ok evs : forall m st s, p_trace_ok m st s -> p_trace_ok m st (fold_left p_step evs s).
Proof. induction evs as [|ev evs IH]; intros m st s Hs; [done|]. apply IH, p_step_ok, Hs. Qed.

(** C21: through any sequence of offered tasks, turns of workers and updates of the metrics, every accepted task is
    taken by one worker or still waits in one partition; a partition never holds more than its capacity; a worker
    takes eight tasks of its partition, or all there are, so no task is stuck; and, with work stealing, a task is
    refused only when every partition is full.  Calls of [enqueue] may be in flight together: a call takes the lock of
    one partition at a time, and other calls and workers come between.  A call that nothing interrupts is refused
    exactly when every partition is full at that moment; one in flight asks every partition, goes on to the next only
    when the one it asks is full at that moment, and is refused only after the last. *)
Theorem partitioned_queue_exact shards maxQueue stealing evs s calls done_ accepted :
  p_run (partitioned_new shards maxQueue stealing) evs = (s, calls, done_, accepted) ->
  accepted ≡ₚ map task (done_ ++ queued s) /\
  (forall i pt, partitions s !! i = Some pt -> length (partition_work s i).1 = Nat.min 8 (length (partition_tasks pt)) /\ Z.of_nat (length (partition_tasks pt)) <= Z.max 1 maxQueue) /\
  (forall t pr coll cost hint, stealing = true -> (partitioned_enqueue s t pr coll cost hint).2 = false <-> Forall (full (Z.max 1 maxQueue)) (partitions s)) /\
  (forall t pr coll cost hint i, stealing = true -> (i < length (partitions s))%nat -> i ∈ cl_left (begin_enqueue s t pr coll cost hint).2) /\
  (forall c, match (try_next s c).2 with
             | inl c' => exists i, cl_left c = i :: cl_left c' /\ forall pt, partitions s !! i = Some pt -> full (Z.max 1 maxQueue) pt
             | inr ok => ok = false -> cl_left c = []
             end).
Proof.
  intros E. set (m := Z.max 1 maxQueue).
  pose proof (p_run_ok evs _ _ _ (p_start_ok shards maxQueue stealing)) as Hok. unfold p_run in E.
  rewrite E in Hok. destruct Hok as (Hs & Hst & HP). split_and!; [done|..].
  - intros i pt Hpt. destruct (work_ok m s i Hs) as (_ & _ & H). exact (H pt Hpt).
  - intros t pr coll cost hint Hsteal. pose proof (enqueue_ok m s t pr coll cost hint Hs) as H. destruct (partitioned_enqueue s t pr coll cost hint) as [s' []]; destruct H as (_ & _ & H).
    + destruct H as [_ H]. split; [done|]. by intros.
    + destruct H as [_ H]. split; [|done]. intros _. apply H. congruence.
  - intros t pr coll cost hint i Hsteal. apply begin_asks_all. congruence.
  - intros c. pose proof (try_next_ok m s c Hs) as H. destruct (try_next s c) as [s' [c'|[]]]; destruct H as (_ & _ & H); cbn [snd]; [by destruct H as (_ & _ & H)|done|by destruct H].
Qed.

End Sharded.

(** ** Concrete runs *)

Module PartitionExamples.

Definition hash (b : bytes) : nat := length b.

Definition offers : list (@p_event nat) :=
  [Offer 1%nat P_LOW (str "a") 3 []; Offer 2%nat CRITICAL (str "a") 1 []; Metrics 1 2 (double_of_bits 0x3FE0000000000000); Offer 3%nat P_MEDIUM (str "a") 1 []; Turn 1; Offer 4%nat P_LOW [] 1 [];
   Offer 5%nat P_LOW (str "b") 1 (str "xx"); Offer 6%nat P_LOW (str "b") 1 (str "xx"); Offer 7%nat P_LOW (str "b") 1 (str "xx"); Offer 8%nat P_LOW (str "b") 1 (str "xx")].

Example offers_taken : let '(s, _, d, a) := p_run hash (partitioned_new 2 2 true) offers in (map task d, a, map task (queued s)) = ([2; 1]%nat, [1; 2; 3; 4; 5; 6]%nat, [3; 4; 5; 6]%nat).
Proof. vm_compute. reflexivity. Qed.

Lemma partitioned_queue_exact_witness : let '(s, _, d, a) := p_run hash (partitioned_new 2 2 true) offers in
  a ≡ₚ map task (d ++ queued s) /\ Forall (full 2) (partitions s).
Proof.
  destruct (p_run hash (partitioned_new 2 2 true) offers) as [[[s calls] d] a] eqn:E.
  destruct (partitioned_queue_exact hash 2 2 true offers s calls d a E) as (HP & _ & Hfull & _). split; [exact HP|].
  apply (Hfull 9%nat P_LOW (str "c") 1 [] eq_refl). replace s with (p_run hash (partitioned_new 2 2 true) offers).1.1.1 by (by rewrite E). vm_compute. reflexivity.
Defined.

(** A call is refused although a partition has room when it answers: the partition was emptied after it was asked. *)
Example refused_with_room :
  let '(s, calls, d, a) := p_run hash (partitioned_new 2 1 true)
    [Offer 1%nat P_LOW (str "xx") 1 []; Offer 2%nat P_LOW (str "x") 1 []; Begin 3%nat P_LOW (str "xx") 1 []; Try 0; Turn 0; Try 0; Try 0] in
  (length calls, map task d, a, map (fun pt => length (partition_tasks pt)) (partitions s)) = (0%nat, [1]%nat, [1; 2]%nat, [0; 1]%nat).
Proof. vm_compute. reflexivity. Qed.

(** The queue calls a task processed when it is accepted. *)
Example processed_counts_accepted : map tasksProcessed (partitions (p_run hash (partitioned_new 1 5 true) [Offer 1%nat P_LOW (str "a") 3 []]).1.1.1) = [1].
Proof. vm_compute. reflexivity. Qed.

(** A stolen task leaves the name of its collection in the order, and the next task of the collection adds it again. *)
Definition stealing_rounds (n : nat) : list (@queue nat) :=
  Nat.iter n (fun shards => (stealFromNeighbor 1 4 (fun _ => false) (sharded_enqueue (fun _ => 0%nat) shards 7%nat HIGH (str "c") 1).1).2) (sharded_new 2 10).

Example stolen_names_accumulate : map (fun q => (order (lanes q HIGH), totalQueued_ q)) (stealing_rounds 3) = [([str "c"; str "c"; str "c"], 0); ([], 0)].
Proof. vm_compute. reflexivity. Qed.

End PartitionExamples.
