(* ===== verification/Compression.v ===== *)
(** * The compression engine (ttl_engine.cpp)

    [CompressionEngine] stores data as it is or as sequences of literals and matches
    in the manner of LZ4, found with a table of 4096 positions.  The decompressor
    rebuilds the data from the sequences. *)

From stdpp Require Import base list gmap strings.
From Stdlib Require Import ZArith Lia.
From S2P Require Import Prelude.

Open Scope Z_scope.

Inductive CompressionType := NONE | LZ4 | SNAPPY | ZSTD.

#[export] Instance compression_type_eq_dec : EqDecision CompressionType.
Proof. solve_decision. Defined.

(** ** Compression *)

Definition slice (src : bytes) (pos n : nat) : bytes := take n (drop pos src).

Definition HASH_SIZE : Z := 4096.

(** [(val * 2654435761u) >> 20 & (HASH_SIZE - 1)] *)
Definition hash_at (src : bytes) (pos : nat) : Z := Z.land (Z.shiftr (u32 (le_value (slice src pos 4) * 2654435761)) 20) (HASH_SIZE - 1).

(** The bytes that agree from two positions on, up to [limit] more. *)
Fixpoint extend (src : bytes) (pos matchPos len limit : nat) : nat :=
  match limit with
  | O => len
  | S limit' => match src !! (pos + len)%nat, src !! (matchPos + len)%nat with
                | Some a, Some b => if byte_val a =? byte_val b then extend src pos matchPos (S len) limit' else len
                | _, _ => len
                end
  end.

(** From 4 to [255 + 15] bytes. *)
Definition match_length (src : bytes) (pos matchPos : nat) : nat := extend src pos matchPos 4 266.

(** The bytes of a length of 15 or more beyond its four bits. *)
Fixpoint extended (fuel : nat) (remaining : Z) : bytes :=
  match fuel with
  | O => []
  | S f => if 255 <=? remaining then byte_of 255 :: extended f (remaining - 255) else [byte_of remaining]
  end.

Definition length_tail (len : Z) : bytes := if 15 <=? len then extended (S (Z.to_nat len)) (len - 15) else [].

Definition token_of (literalLen matchCode : Z) : byte := byte_of (Z.lor (Z.shiftl (Z.min literalLen 15) 4) (Z.min matchCode 15)).

(** One sequence: token, length of the literals, literals, offset, length of the match. *)
Definition emit_match (literals : bytes) (offset matchLen : Z) : bytes :=
  token_of (blen literals) (matchLen - 4) :: length_tail (blen literals) ++ literals ++ le_bytes 2 (u16 offset) ++ length_tail (matchLen - 4).

Definition emit_last (literals : bytes) : bytes :=
  match literals with [] => [] | _ => token_of (blen literals) 0 :: length_tail (blen literals) ++ literals end.

Fixpoint compress_loop (fuel : nat) (src : bytes) (pos literalStart : nat) (hashTable : gmap Z Z) : bytes :=
  match fuel with
  | O => emit_last (drop literalStart src)
  | S f =>
      if (pos + 4 <=? length src)%nat then
        let h := hash_at src pos in
        let matchPos := Z.to_nat (default 0 (hashTable !! h)) in
        let hashTable := <[h := u16 (Z.of_nat pos)]> hashTable in
        if (matchPos <? pos)%nat && (Z.of_nat (pos - matchPos) <? 65535) && bytes_eqb (slice src pos 4) (slice src matchPos 4) then
          let matchLen := match_length src pos matchPos in
          emit_match (slice src literalStart (pos - literalStart)) (Z.of_nat (pos - matchPos)) (Z.of_nat matchLen) ++
          compress_loop f src (pos + matchLen) (pos + matchLen) hashTable
        else compress_loop f src (S pos) literalStart hashTable
      else emit_last (drop literalStart src)
  end.

Definition lz4Compress (src : bytes) : bytes := compress_loop (S (length src)) src 0 0 ∅.

(** ** Decompression *)

(** [while (srcPos < compressedLength) { b = src[srcPos++]; len += b; if (b < 255) break; }] *)
Fixpoint read_extended (cur : bytes) (len : Z) : Z * bytes :=
  match cur with
  | [] => (len, [])
  | b :: r => if byte_val b <? 255 then (len + byte_val b, r) else read_extended r (len + byte_val b)
  end.

(** The copy of a match, byte by byte, so that it may reach into itself. *)
Fixpoint copy_match (n : nat) (offset : nat) (room : nat) (out : bytes) : bytes :=
  match n, room with
  | O, _ | _, O => out
  | S n', S room' => match out !! (length out - offset)%nat with Some b => copy_match n' offset room' (out ++ [b]) | None => out end
  end.

(** [out] is what was written so far; its length is [dstPos]. *)
Fixpoint decompress_loop (fuel : nat) (cur : bytes) (originalLength : nat) (out : bytes) : bytes :=
  match fuel with
  | O => out
  | S f =>
      match cur with
      | [] => out
      | token :: cur =>
          if (originalLength <=? length out)%nat then out else
          let literalBits := Z.land (Z.shiftr (byte_val token) 4) 15 in
          let matchBits := Z.land (byte_val token) 15 in
          let '(literalLen, cur) := if literalBits =? 15 then read_extended cur literalBits else (literalBits, cur) in
          if (0 <? literalLen) && (literalLen <=? blen cur) && (blen out + literalLen <=? Z.of_nat originalLength) then
            let out := out ++ take (Z.to_nat literalLen) cur in
            let cur := drop (Z.to_nat literalLen) cur in
            match read_le 2 cur with
            | None => out
            | Some (offset, cur) =>
                let '(matchLen, cur) := if matchBits =? 15 then read_extended cur (matchBits + 4) else (matchBits + 4, cur) in
                let out := if (0 <? offset) && (offset <=? blen out) then copy_match (Z.to_nat matchLen) (Z.to_nat offset) (originalLength - length out) out else out in
                decompress_loop f cur originalLength out
            end
          else out
      end
  end.

Definition lz4Decompress (input : bytes) (originalLength : nat) : bytes := decompress_loop (S (length input)) input originalLength [].

(** ** The engine *)

Record CompressionResult := mkCompressed { cr_data : bytes; cr_type : CompressionType; originalSize : nat; compressedSize : nat }.

Definition compress (minCompressSize : nat) (data : bytes) (type : CompressionType) : CompressionResult :=
  let stored := mkCompressed data NONE (length data) (length data) in
  if bool_decide (type = NONE) || (length data <? minCompressSize)%nat then stored else
  let packed := lz4Compress data in
  if (length data <=? length packed)%nat then stored else mkCompressed packed type (length data) (length packed).

Definition decompress (data : bytes) (originalLength : nat) (type : CompressionType) : bytes :=
  match type with NONE => data | _ => lz4Decompress data originalLength end.

(** ** Sequences *)

(** What a sequence adds: its literals, and a copy of what lies [offset] back. *)
Record sequence := mkSeq { s_literals : bytes; s_offset : nat; s_length : nat }.

Definition seq_bytes (s : sequence) : bytes := emit_match (s_literals s) (Z.of_nat (s_offset s)) (Z.of_nat (s_length s)).

Definition play (out : bytes) (s : sequence) : bytes := copy_match (s_length s) (s_offset s) (s_length s) (out ++ s_literals s).

Definition play_all (out : bytes) (ss : list sequence) : bytes := fold_left play ss out.

(** The sequence can be read back at this point. *)
Definition seq_ok (out : bytes) (s : sequence) : Prop :=
  (4 <= s_length s <= 270)%nat /\ 0 < Z.of_nat (s_offset s) < 65535 /\ (s_offset s <= length (out ++ s_literals s))%nat.

Fixpoint seqs_ok (out : bytes) (ss : list sequence) : Prop :=
  match ss with [] => True | s :: r => seq_ok out s /\ seqs_ok (play out s) r end.

(** A match in the source is what copying from its offset gives. *)
Lemma copy_match_source src p m n : (m < p)%nat -> (p + n <= length src)%nat -> slice src p n = slice src m n ->
  copy_match n (p - m) n (take p src) = take (p + n) src.
Proof.
  revert p m. induction n as [|n IH]; intros p m Hm Hn Heq; cbn [copy_match]; [by rewrite Nat.add_0_r|].
  rewrite length_take, Nat.min_l by lia. replace (p - (p - m))%nat with m by lia. rewrite lookup_take_lt by lia.
  assert (Hb : forall k, (k < S n)%nat -> src !! (p + k)%nat = src !! (m + k)%nat).
  { intros k Hk. pose proof (f_equal (fun l => l !! k) Heq) as Hk'. unfold slice in Hk'. cbv beta in Hk'. by rewrite !lookup_take_lt, !lookup_drop in Hk' by lia. }
  destruct (lookup_lt_is_Some_2 src m ltac:(lia)) as [b Hbm]. rewrite Hbm.
  assert (Hbp : src !! p = Some b) by (specialize (Hb 0%nat ltac:(lia)); rewrite !Nat.add_0_r in Hb; congruence).
  rewrite <- (take_S_r _ _ _ Hbp). replace (p - m)%nat with (S p - S m)%nat by lia. replace (p + S n)%nat with (S p + n)%nat by lia. apply IH; [lia..|].
  unfold slice. apply list_eq. intros k. destruct (decide (k < n)%nat) as [Hk|Hk].
  - rewrite !lookup_take_lt, !lookup_drop by lia. specialize (Hb (S k) ltac:(lia)). rewrite !Nat.add_succ_r in Hb. exact Hb.
  - by rewrite !lookup_take_ge by lia.
Qed.

Lemma extend_spec src p m len limit : (p + len <= length src)%nat -> slice src p len = slice src m len -> (m < p)%nat ->
  let n := extend src p m len limit in (len <= n <= len + limit)%nat /\ (p + n <= length src)%nat /\ slice src p n = slice src m n.
Proof.
  revert len. induction limit as [|limit IH]; intros len Hl Heq Hm; cbn [extend]; [split_and!; done || lia|].
  destruct (src !! (p + len)%nat) as [a|] eqn:Ea; [|split_and!; done || lia]. destruct (src !! (m + len)%nat) as [b|] eqn:Eb; [|split_and!; done || lia].
  destruct (Z.eqb_spec (byte_val a) (byte_val b)) as [E|E]; [|split_and!; done || lia]. apply byte_val_inj in E as ->.
  destruct (IH (S len)) as (H1 & H2 & H3); [apply lookup_lt_Some in Ea; lia| |done|].
  - unfold slice in *. rewrite (take_S_r (drop p src) len b), (take_S_r (drop m src) len b), Heq by (by rewrite lookup_drop). done.
  - split_and!; done || lia.
Qed.

Lemma take_slice (src : bytes) lit pos : (lit <= pos)%nat -> take lit src ++ slice src lit (pos - lit) = take pos src.
Proof. intros H. unfold slice. rewrite take_take_drop. f_equal. lia. Qed.

(** The compressor writes sequences that play the source, and the rest. *)
Lemma compress_loop_spec fuel src : forall pos lit table, (lit <= pos <= length src)%nat -> (length src - pos < fuel)%nat ->
  exists ss tail, compress_loop fuel src pos lit table = concat (map seq_bytes ss) ++ emit_last tail /\
    play_all (take lit src) ss ++ tail = src /\ seqs_ok (take lit src) ss.
Proof.
  induction fuel as [|f IH]; intros pos lit table Hp Hf; [lia|]. cbn [compress_loop].
  assert (Hlast : exists ss tail, emit_last (drop lit src) = concat (map seq_bytes ss) ++ emit_last tail /\ play_all (take lit src) ss ++ tail = src /\ seqs_ok (take lit src) ss).
  { exists [], (drop lit src). split_and!; [done| |done]. cbn. apply take_drop. }
  destruct (Nat.leb_spec (pos + 4) (length src)) as [H4|_]; [|done]. cbv zeta. set (m := Z.to_nat _). set (table' := <[_ := _]> table).
  destruct ((m <? pos)%nat && _ && _) eqn:Ec; [|destruct (IH (S pos) lit table') as (ss & tail & H); [lia|lia|eauto]].
  apply andb_true_iff in Ec as [[Hm%Nat.ltb_lt Ho%Z.ltb_lt]%andb_true_iff Heq%bytes_eqb_eq].
  destruct (extend_spec src pos m 4 266 H4 Heq Hm) as (Hlen & Hend & Hslice). change (extend src pos m 4 266) with (match_length src pos m) in *. set (len := match_length src pos m) in *. clearbody len.
  destruct (IH (pos + len)%nat (pos + len)%nat table') as (ss & tail & E & Hplay & Hok); [lia|lia|].
  set (q := mkSeq (slice src lit (pos - lit)) (pos - m) len).
  assert (Hq : play (take lit src) q = take (pos + len) src) by (unfold play; cbn [q s_length s_offset s_literals]; rewrite take_slice by lia; by apply copy_match_source).
  exists (q :: ss), tail. cbn [map concat play_all fold_left seqs_ok]. rewrite Hq. split_and!; [by rewrite E, <- app_assoc|done| |done].
  unfold seq_ok. cbn [q s_length s_offset s_literals]. rewrite take_slice, length_take by lia. lia.
Qed.

(** ** Reading sequences back *)

Lemma token_bits l c : 0 <= l -> 0 <= c ->
  Z.land (Z.shiftr (byte_val (token_of l c)) 4) 15 = Z.min l 15 /\ Z.land (byte_val (token_of l c)) 15 = Z.min c 15.
Proof.
  intros Hl Hc. unfold token_of. rewrite Z.lor_comm, lor_shiftl_add_gen by lia. rewrite byte_val_of_small by lia.
  rewrite Z.shiftr_div_pow2 by lia. change (2 ^ 4) with 16. rewrite Z.div_add, (Z.div_small (Z.min c 15)) by lia.
  assert (H15 : forall z, Z.land z 15 = z mod 16) by (intros z; apply (land_ones_mod z 4); lia). rewrite !H15, Z.mod_add, !Z.mod_small by lia. lia.
Qed.

Lemma read_extended_written fuel r acc rest : 0 <= r < Z.of_nat fuel -> read_extended (extended fuel r ++ rest) acc = (acc + r, rest).
Proof.
  revert r acc. induction fuel as [|f IH]; intros r acc Hr; [lia|]. cbn [extended]. destruct (Z.leb_spec 255 r) as [H|H].
  - cbn [app read_extended]. rewrite byte_val_of_small by lia. change (255 <? 255) with false. cbv iota. rewrite IH by lia. f_equal. lia.
  - cbn [app read_extended]. rewrite byte_val_of_small by lia. by rewrite (proj2 (Z.ltb_lt r 255)) by lia.
Qed.

(** A length in four bits and its tail, read from a base of [k]. *)
Lemma read_length k len rest : 0 <= len ->
  (if Z.min len 15 =? 15 then read_extended (length_tail len ++ rest) (Z.min len 15 + k) else (Z.min len 15 + k, length_tail len ++ rest)) = (len + k, rest).
Proof.
  intros Hl. unfold length_tail. destruct (Z.leb_spec 15 len) as [H|H].
  - rewrite Z.min_r by lia. cbn [Z.eqb]. change (15 =? 15) with true. cbv iota. rewrite read_extended_written by lia. f_equal. lia.
  - rewrite Z.min_l by lia. rewrite (proj2 (Z.eqb_neq len 15)) by lia. done.
Qed.

Lemma copy_match_room n off room out : (n <= room)%nat -> copy_match n off room out = copy_match n off n out.
Proof.
  revert room out. induction n as [|n IH]; intros room out Hr; [by destruct room|]. destruct room as [|room]; [lia|]. cbn [copy_match].
  destruct (out !! _); [|done]. rewrite IH by lia. reflexivity.
Qed.

Lemma copy_match_grows n off room out : exists more, copy_match n off room out = out ++ more.
Proof.
  revert room out. induction n as [|n IH]; intros room out; [exists []; destruct room; by rewrite app_nil_r|]. destruct room as [|room]; cbn [copy_match]; [exists []; by rewrite app_nil_r|].
  destruct (out !! _) as [b|]; [|exists []; by rewrite app_nil_r]. destruct (IH room (out ++ [b])) as [more ->]. exists (b :: more). by rewrite <- app_assoc.
Qed.

Lemma copy_match_length n off out : (0 < off <= length out)%nat -> length (copy_match n off n out) = (length out + n)%nat.
Proof.
  revert out. induction n as [|n IH]; intros out Ho; cbn [copy_match]; [lia|].
  destruct (lookup_lt_is_Some_2 out (length out - off)%nat ltac:(lia)) as [b ->]. rewrite IH by (rewrite length_app; simpl; lia). rewrite length_app. simpl. lia.
Qed.

Lemma play_grows out s : exists more, play out s = out ++ more.
Proof. unfold play. destruct (copy_match_grows (s_length s) (s_offset s) (s_length s) (out ++ s_literals s)) as [more ->]. exists (s_literals s ++ more). by rewrite app_assoc. Qed.

Lemma play_all_grows ss : forall out, exists more, play_all out ss = out ++ more.
Proof.
  induction ss as [|s ss IH]; intros out; cbn [play_all fold_left]; [exists []; by rewrite app_nil_r|]. destruct (play_grows out s) as [m1 E1].
  destruct (IH (play out s)) as [m2 E2]. unfold play_all in E2. rewrite E2, E1. exists (m1 ++ m2). by rewrite app_assoc.
Qed.

(** A sequence with literals is read back; one without ends the loop. *)
Lemma decompress_sequence f s rest N out : seq_ok out s -> (length (play out s) <= N)%nat ->
  decompress_loop (S f) (seq_bytes s ++ rest) N out = match s_literals s with [] => out | _ => decompress_loop f rest N (play out s) end.
Proof.
  intros (Hlen & Hoff & Hin) HN. cbn [decompress_loop seq_bytes emit_match app]. unfold seq_bytes, emit_match. cbn [app].
  destruct (Nat.leb_spec N (length out)) as [Hfull|Hroom].
  { destruct (s_literals s) as [|b l] eqn:El; [done|exfalso]. unfold play in HN. rewrite copy_match_length in HN by (rewrite El in *; lia). rewrite length_app in HN. lia. }
  destruct (token_bits (blen (s_literals s)) (Z.of_nat (s_length s) - 4)) as [-> ->]; [unfold blen; lia|lia|].
  rewrite <- !app_assoc. match goal with |- context [length_tail (blen (s_literals s)) ++ ?r] => pose proof (read_length 0 (blen (s_literals s)) r ltac:(unfold blen; lia)) as Hlit end.
  rewrite !Z.add_0_r in Hlit. rewrite Hlit. clear Hlit.
  destruct (s_literals s) as [|b l] eqn:El; [done|]. rewrite <- El in *. set (L := s_literals s) in *.
  assert (HL : 0 < blen L) by (rewrite El; unfold blen; simpl; lia).
  assert (HoL : (length (out ++ L) + s_length s <= N)%nat) by (unfold play in HN; fold L in HN; rewrite copy_match_length in HN by lia; lia).
  rewrite length_app in HoL.
  rewrite (proj2 (Z.ltb_lt 0 _)), (proj2 (Z.leb_le (blen L) _)), (proj2 (Z.leb_le _ (Z.of_nat N))) by (unfold blen in *; rewrite ?length_app; lia). cbn [andb].
  replace (Z.to_nat (blen L)) with (length L) by (unfold blen; lia). rewrite take_app_length, drop_app_length.
  unfold u16. rewrite Z.mod_small by lia. rewrite read_le_app by (simpl; lia).
  pose proof (read_length 4 (Z.of_nat (s_length s) - 4) rest ltac:(lia)) as Hml. rewrite Hml.
  rewrite (proj2 (Z.ltb_lt 0 _)), (proj2 (Z.leb_le _ _)) by (unfold blen; lia). cbn [andb].
  replace (Z.to_nat (Z.of_nat (s_length s) - 4 + 4)) with (s_length s) by lia. rewrite Nat2Z.id, copy_match_room by (rewrite length_app; lia). done.
Qed.

Lemma decompress_last f tail N out : (length out + length tail <= N)%nat -> decompress_loop (S (S f)) (emit_last tail) N out = out ++ tail.
Proof.
  intros HN. destruct tail as [|b l] eqn:El; [simpl; by rewrite app_nil_r|]. unfold emit_last. rewrite <- El in *. cbn [decompress_loop].
  assert (HL : 0 < blen tail) by (rewrite El; unfold blen; simpl; lia).
  rewrite (proj2 (Nat.leb_gt N (length out))) by (rewrite El in HN; simpl in HN; lia).
  destruct (token_bits (blen tail) 0) as [-> _]; [lia|lia|].
  pose proof (read_length 0 (blen tail) tail ltac:(lia)) as Hlit. rewrite !Z.add_0_r in Hlit. rewrite Hlit.
  rewrite (proj2 (Z.ltb_lt 0 _)), (proj2 (Z.leb_le (blen tail) _)), (proj2 (Z.leb_le _ (Z.of_nat N))) by (unfold blen in *; lia). cbn [andb].
  replace (Z.to_nat (blen tail)) with (length tail) by (unfold blen; lia). rewrite take_ge, drop_ge by lia. done.
Qed.

(** The sequences before the first that has no literals. *)
Fixpoint readable (ss : list sequence) : list sequence :=
  match ss with [] => [] | s :: r => match s_literals s with [] => [] | _ => s :: readable r end end.

Definition all_readable (ss : list sequence) : bool := forallb (fun s => match s_literals s with [] => false | _ => true end) ss.

Lemma decompress_sequences ss : forall f out tail N, seqs_ok out ss -> (length (play_all out ss ++ tail) <= N)%nat -> (length ss + 2 <= f)%nat ->
  decompress_loop f (concat (map seq_bytes ss) ++ emit_last tail) N out = if all_readable ss then play_all out ss ++ tail else play_all out (readable ss).
Proof.
  induction ss as [|s ss IH]; intros f out tail N Hok HN Hf.
  - cbn [map concat app all_readable forallb play_all fold_left]. destruct f as [|[|f]]; [simpl in Hf; lia..|]. apply decompress_last. cbn in HN. by rewrite length_app in HN.
  - cbn [length] in Hf. destruct f as [|f]; [lia|]. cbn [map concat]. rewrite <- app_assoc. destruct Hok as [Hs Hok].
    change (play_all out (s :: ss)) with (play_all (play out s) ss) in *.
    assert (HP : (length (play out s) <= N)%nat) by (destruct (play_all_grows ss (play out s)) as [more E]; rewrite E, !length_app in HN; lia).
    rewrite decompress_sequence by done. cbn [all_readable forallb readable]. destruct (s_literals s) as [|b l]; [done|]. cbn [andb].
    rewrite IH by (done || lia). done.
Qed.

Lemma sequences_short ss : (2 * length ss <= length (concat (map seq_bytes ss)))%nat.
Proof.
  induction ss as [|s ss IH]; cbn [map concat length]; [lia|]. rewrite length_app. unfold seq_bytes at 1, emit_match. cbn [length]. rewrite !length_app, le_bytes_length. lia.
Qed.

(** What is compressed is read back up to the first sequence without literals. *)
Lemma lz4_decompresses data : exists ss tail, lz4Compress data = concat (map seq_bytes ss) ++ emit_last tail /\ seqs_ok [] ss /\ play_all [] ss ++ tail = data /\
  lz4Decompress (lz4Compress data) (length data) = if all_readable ss then data else play_all [] (readable ss).
Proof.
  destruct data as [|b0 data0] eqn:Ed; [exists [], []; done|]. rewrite <- Ed. assert (Hne : data <> []) by (by rewrite Ed).
  destruct (compress_loop_spec (S (length data)) data 0 0 ∅) as (ss & tail & E & Hplay & Hok); [lia|lia|]. change (take 0 data) with (@nil byte) in Hplay, Hok.
  exists ss, tail. split_and!; [done|done|done|]. unfold lz4Compress. rewrite E. unfold lz4Decompress. pose proof (sequences_short ss) as Hshort.
  rewrite decompress_sequences; [by rewrite Hplay|done|by rewrite Hplay|]. rewrite length_app. destruct ss as [|s ss]; [|cbn [length] in *; lia].
  cbn in Hplay. rewrite Hplay. rewrite Ed. cbn [emit_last length]. lia.
Qed.

Lemma readable_prefix ss : forall out, exists more, play_all out ss = play_all out (readable ss) ++ more.
Proof.
  induction ss as [|s ss IH]; intros out; [exists []; by rewrite app_nil_r|]. cbn [readable]. destruct (s_literals s); [|apply (IH (play out s))].
  exact (play_all_grows (s :: ss) out).
Qed.

(** The engine never restores anything but a prefix of the data. *)
Lemma decompress_prefix minCompressSize data type :
  let r := compress minCompressSize data type in exists rest, data = decompress (cr_data r) (originalSize r) (cr_type r) ++ rest.
Proof.
  cbv zeta. unfold compress. destruct (bool_decide (type = NONE) || (length data <? minCompressSize)%nat) eqn:E; [exists []; by rewrite app_nil_r|].
  destruct (Nat.leb_spec (length data) (length (lz4Compress data))) as [Hl|Hl]; [exists []; by rewrite app_nil_r|].
  apply orb_false_iff in E as [Ht%bool_decide_eq_false _]. cbn [originalSize cr_data cr_type].
  assert (Hd : decompress (lz4Compress data) (length data) type = lz4Decompress (lz4Compress data) (length data)) by (by destruct type). rewrite Hd.
  destruct (lz4_decompresses data) as (ss & tail & _ & _ & H2 & ->).
  destruct (all_readable ss); [exists []; by rewrite app_nil_r|]. destruct (readable_prefix ss []) as [more Em]. exists (more ++ tail). by rewrite app_assoc, <- Em.
Qed.

(** C37: compression is right, and reversible where no two matches touch.  The result has the sizes it reports and is never
    longer than the data.  Data that is stored as it is comes back unchanged.  Otherwise the result is a series of
    sequences in the LZ4 format (literals, then a copy of 4 or more bytes from 1 to 65535 bytes back, within what was
    written) and last literals which, carried out one after the other, give the data; and the engine's own decompressor gives
    the data back whenever every sequence has literals.  (A sequence without literals, written where two
    matches touch, is taken for the end: [touching_matches_truncate].) *)
Theorem compression_roundtrip minCompressSize data type :
  let r := compress minCompressSize data type in
  originalSize r = length data /\ compressedSize r = length (cr_data r) /\ (length (cr_data r) <= length data)%nat /\
  (cr_type r = NONE -> decompress (cr_data r) (originalSize r) (cr_type r) = data) /\
  (cr_type r <> NONE -> exists ss tail, cr_data r = concat (map seq_bytes ss) ++ emit_last tail /\ seqs_ok [] ss /\ play_all [] ss ++ tail = data /\
     (all_readable ss = true -> decompress (cr_data r) (originalSize r) (cr_type r) = data)).
Proof.
  cbv zeta. unfold compress. destruct (bool_decide (type = NONE) || (length data <? minCompressSize)%nat) eqn:E; [cbn; split_and!; done|].
  destruct (Nat.leb_spec (length data) (length (lz4Compress data))) as [Hl|Hl]; [cbn; split_and!; done|].
  apply orb_false_iff in E as [Ht%bool_decide_eq_false _]. cbn [originalSize compressedSize cr_data cr_type].
  assert (Hd : decompress (lz4Compress data) (length data) type = lz4Decompress (lz4Compress data) (length data)) by (by destruct type). rewrite Hd.
  destruct (lz4_decompresses data) as (ss & tail & H1 & H2 & H3 & H4). split_and!; [done|done|lia|done|].
  intros _. exists ss, tail. split_and!; [done..|]. intros Hr. by rewrite H4, Hr.
Qed.

(** ** Concrete data *)

Module CompressionExamples.

Example text_roundtrip : let data := str "abcdefgh-abcdefgh-abcdefgh-abcdefgh: the same again, the same again." in
  let r := compress 64 data LZ4 in cr_type r = LZ4 /\ compressedSize r = 36%nat /\ decompress (cr_data r) (originalSize r) (cr_type r) = data.
Proof. vm_compute. split_and!; reflexivity. Qed.

(** Three hundred equal bytes are one literal and two matches that touch; twenty-nine bytes are lost. *)
Example touching_matches_truncate : let r := compress 64 (replicate 300 Byte.x41) LZ4 in
  cr_type r = LZ4 /\ decompress (cr_data r) (originalSize r) (cr_type r) = replicate 271 Byte.x41.
Proof. vm_compute. split; reflexivity. Qed.

End CompressionExamples.
