(* ===== verification/Ttl.v ===== *)
(** * Documents with a time to live (ttl_engine.cpp)

    [TTLEngine] keeps the expiry of documents by a key that joins their names, and a
    reaper deletes those that have expired.  Times are nanoseconds of the system clock. *)

From stdpp Require Import base list gmap strings.
From Stdlib Require Import ZArith Lia.
From S2P Require Import Prelude.

Open Scope Z_scope.

(** User, database, collection and document. *)
Definition doc_name : Type := bytes * bytes * bytes * bytes.

Record TTLEntry := mkTTLEntry { te_doc : doc_name; expiresAt : Z; ttlSeconds : Z }.

Record ttl_engine := mkTTL { entries_ : gmap bytes TTLEntry; collectionDefaults_ : gmap bytes Z; totalExpired_ : Z; totalTracked_ : Z }.

Definition ttl_new : ttl_engine := mkTTL ∅ ∅ 0 0.

Definition makeKey (d : doc_name) : bytes :=
  let '(userId, dbName, collection, documentId) := d in userId ++ str "/" ++ dbName ++ str "/" ++ collection ++ str "/" ++ documentId.

(** [now + std::chrono::seconds(ttlSeconds)] in 64 bits. *)
Definition expiry (now ttl : Z) : Z := to_signed 64 (u64 (now + ttl * 1000000000)).

Definition setTTL (s : ttl_engine) (d : doc_name) (ttl now : Z) : ttl_engine :=
  mkTTL (<[makeKey d := mkTTLEntry d (expiry now ttl) ttl]> (entries_ s)) (collectionDefaults_ s) (totalExpired_ s) (u64 (totalTracked_ s + 1)).

Definition removeTTL (s : ttl_engine) (d : doc_name) : ttl_engine :=
  mkTTL (delete (makeKey d) (entries_ s)) (collectionDefaults_ s) (totalExpired_ s) (totalTracked_ s).

Definition isExpired (s : ttl_engine) (d : doc_name) (now : Z) : bool :=
  match entries_ s !! makeKey d with Some e => expiresAt e <=? now | None => false end.

(** Whole seconds, toward zero. *)
Definition getRemainingTTL (s : ttl_engine) (d : doc_name) (now : Z) : Z :=
  match entries_ s !! makeKey d with
  | Some e => let remaining := Z.quot (expiresAt e - now) 1000000000 in if remaining <? 0 then -1 else remaining
  | None => 0
  end.

Definition setCollectionDefaultTTL (s : ttl_engine) (userId dbName collection : bytes) (ttl : Z) : ttl_engine :=
  mkTTL (entries_ s) (<[userId ++ str "/" ++ dbName ++ str "/" ++ collection := ttl]> (collectionDefaults_ s)) (totalExpired_ s) (totalTracked_ s).

Definition expired_at (now : Z) (e : TTLEntry) : bool := expiresAt e <=? now.

(** [reapExpired]: the documents for which [LSM::del] was called, with whether it threw, and the
    callbacks made; [fails] says for which documents it throws.  The order is that of the table. *)
Definition reapExpired (s : ttl_engine) (now : Z) (fails : doc_name -> bool) : ttl_engine * list (doc_name * bool) :=
  let expired := List.filter (expired_at now) (map snd (map_to_list (entries_ s))) in
  (mkTTL (filter (fun ke => expired_at now ke.2 = false) (entries_ s)) (collectionDefaults_ s) (u64 (totalExpired_ s + Z.of_nat (length expired))) (totalTracked_ s),
   map (fun e => (te_doc e, fails (te_doc e))) expired).

(** ** The engine as a map from documents to expiries *)

Definition no_slash (b : bytes) : Prop := ~ byte_of 47 ∈ b.

(** Names that a key tells apart; the document's own name may hold a slash. *)
Definition plain_doc (d : doc_name) : Prop := let '(userId, dbName, collection, _) := d in no_slash userId /\ no_slash dbName /\ no_slash collection.

Lemma split_at_slash a b x y : no_slash a -> no_slash b -> a ++ str "/" ++ x = b ++ str "/" ++ y -> a = b /\ x = y.
Proof.
  unfold no_slash. revert b. induction a as [|c a IH]; intros [|c' b] Ha Hb; cbn [app].
  - intros [= E]. done.
  - intros [= E1 _]. exfalso. apply Hb. rewrite <- E1. left.
  - intros [= E1 _]. exfalso. apply Ha. rewrite E1. left.
  - intros [= -> E]. rewrite elem_of_cons in Ha, Hb. destruct (IH b) as [-> ->]; [tauto|tauto|done|done].
Qed.

Lemma makeKey_inj d d' : plain_doc d -> plain_doc d' -> makeKey d = makeKey d' -> d = d'.
Proof.
  destruct d as [[[u db] c] i], d' as [[[u' db'] c'] i']. intros (Hu & Hd & Hc) (Hu' & Hd' & Hc') E. unfold makeKey in E.
  apply split_at_slash in E as [-> E]; [|done..]. apply split_at_slash in E as [-> E]; [|done..]. apply split_at_slash in E as [-> ->]; [|done..]. done.
Qed.

(** Every entry is under the key of its document. *)
Definition ttl_ok (s : ttl_engine) : Prop := map_Forall (fun k e => k = makeKey (te_doc e) /\ plain_doc (te_doc e)) (entries_ s).

(** The expiry of a document. *)
Definition expiry_of (s : ttl_engine) (d : doc_name) : option Z := expiresAt <$> entries_ s !! makeKey d.

Lemma expiry_of_set s d ttl now d' : plain_doc d -> plain_doc d' -> expiry_of (setTTL s d ttl now) d' = if decide (d' = d) then Some (expiry now ttl) else expiry_of s d'.
Proof.
  intros Hd Hd'. unfold expiry_of, setTTL. cbn [entries_]. case_decide as E; [subst; by rewrite lookup_insert_eq|].
  rewrite lookup_insert_ne; [done|]. intros H. by apply E, makeKey_inj.
Qed.

Lemma expiry_of_remove s d d' : plain_doc d -> plain_doc d' -> expiry_of (removeTTL s d) d' = if decide (d' = d) then None else expiry_of s d'.
Proof.
  intros Hd Hd'. unfold expiry_of, removeTTL. cbn [entries_]. case_decide as E; [subst; by rewrite lookup_delete_eq|].
  rewrite lookup_delete_ne; [done|]. intros H. by apply E, makeKey_inj.
Qed.

Lemma expiry_of_reap s now fails d : expiry_of (reapExpired s now fails).1 d = match expiry_of s d with Some t => if t <=? now then None else Some t | None => None end.
Proof.
  unfold expiry_of. cbn [reapExpired fst entries_]. destruct (entries_ s !! makeKey d) as [e|] eqn:E; cbn [fmap option_fmap option_map].
  - destruct (expired_at now e) eqn:Ee; unfold expired_at in Ee; rewrite Ee.
    + rewrite (proj2 (map_lookup_filter_None _ _ _)); [done|]. right. intros x Hx. rewrite E in Hx. injection Hx as <-. unfold expired_at. simpl. by rewrite Ee.
    + rewrite (proj2 (map_lookup_filter_Some _ _ _ _) (conj E Ee)). done.
  - rewrite (proj2 (map_lookup_filter_None _ _ _)); [done|]. by left.
Qed.

(** The reaper deletes the expired documents, each once. *)
Lemma reap_deletes s now fails : ttl_ok s -> NoDup (reapExpired s now fails).2 /\
  forall d b, (d, b) ∈ (reapExpired s now fails).2 <-> plain_doc d /\ b = fails d /\ exists t, expiry_of s d = Some t /\ t <= now.
Proof.
  intros Hok. cbn [reapExpired snd]. set (l := map_to_list (entries_ s)).
  assert (Hl : forall k e, (k, e) ∈ l -> k = makeKey (te_doc e) /\ plain_doc (te_doc e) /\ entries_ s !! k = Some e).
  { intros k e H%elem_of_map_to_list. destruct (Hok k e H). auto. }
  split.
  - assert (Hn : NoDup l) by apply NoDup_map_to_list. assert (Hk : NoDup (map (fun e => te_doc e) (map snd l))).
    { rewrite map_map. clear -Hn Hl. clearbody l. revert Hn Hl. induction l as [|[k e] l IH]; simpl; [constructor|]. intros Hn Hl. apply NoDup_cons in Hn as [Hx Hn]. apply NoDup_cons. split; [|apply IH; [done|intros; apply Hl; by right]].
      intros ([k' e'] & E & H)%list_elem_of_fmap. simpl in E. destruct (Hl k e ltac:(left)) as (E1 & _ & E2). destruct (Hl k' e' ltac:(by right)) as (E3 & _ & E4).
      rewrite E, <- E3 in E1. subst k'. rewrite E2 in E4. injection E4 as <-. done. }
    revert Hk. generalize (map snd l). clear. induction l as [|e l IH]; simpl; [constructor|]. intros [Hx Hn]%NoDup_cons. destruct (expired_at now e); [|auto]. simpl. apply NoDup_cons. split; [|auto].
    intros (e' & E & H)%list_elem_of_fmap. injection E as E _. apply Hx. rewrite E. apply list_elem_of_fmap. exists e'. split; [done|]. apply list_elem_of_In, filter_In in H as [H _]. by apply list_elem_of_In.
  - intros d b. rewrite list_elem_of_fmap. split.
    + intros (e & [= -> ->] & H). apply list_elem_of_In, filter_In in H as [H He]. apply list_elem_of_In, list_elem_of_fmap in H as ([k e'] & Ee & H). simpl in Ee. subst e'.
      destruct (Hl k e H) as (Hk & Hp & Hlook). split_and!; [done|done|]. exists (expiresAt e). unfold expiry_of. rewrite <- Hk, Hlook. split; [done|]. by apply Z.leb_le.
    + intros (Hp & -> & t & Ht & Hle). unfold expiry_of in Ht. destruct (entries_ s !! makeKey d) as [e|] eqn:E; [|done]. simpl in Ht. injection Ht as <-.
      destruct (Hok _ _ E) as [Hk Hpe]. apply makeKey_inj in Hk as ->; [|done..]. exists e. split; [done|]. apply list_elem_of_In, filter_In. split; [|by apply Z.leb_le].
      apply list_elem_of_In, list_elem_of_fmap. exists (makeKey (te_doc e), e). split; [done|]. by apply elem_of_map_to_list.
Qed.

(** ** Sequences of calls *)

Inductive ttl_event :=
| SetTTL (d : doc_name) (ttl now : Z)
| RemoveTTL (d : doc_name)
| Reap (now : Z) (fails : doc_name -> bool)
| SetDefault (userId dbName collection : bytes) (ttl : Z).

Definition ttl_step (s : ttl_engine) (ev : ttl_event) : ttl_engine :=
  match ev with
  | SetTTL d ttl now => setTTL s d ttl now
  | RemoveTTL d => removeTTL s d
  | Reap now fails => (reapExpired s now fails).1
  | SetDefault u db c ttl => setCollectionDefaultTTL s u db c ttl
  end.

(** Names without slashes, and expiries that fit the clock.  Defaults of collections are left out:
    they are stored and never read (see [default_is_ignored]). *)
Definition valid_event (ev : ttl_event) : Prop :=
  match ev with
  | SetTTL d ttl now => plain_doc d /\ - 2 ^ 63 <= now + ttl * 1000000000 < 2 ^ 63
  | RemoveTTL d => plain_doc d
  | Reap _ _ => True
  | SetDefault _ _ _ _ => False
  end.

(** The specification: documents with the time they expire. *)
Definition spec_step (m : gmap doc_name Z) (ev : ttl_event) : gmap doc_name Z :=
  match ev with
  | SetTTL d ttl now => <[d := now + ttl * 1000000000]> m
  | RemoveTTL d => delete d m
  | Reap now _ => filter (fun dt => now < dt.2) m
  | SetDefault _ _ _ _ => m
  end.

Definition ttl_rel (s : ttl_engine) (m : gmap doc_name Z) : Prop := ttl_ok s /\ (forall d, plain_doc d -> expiry_of s d = m !! d) /\ forall d, is_Some (m !! d) -> plain_doc d.

Lemma expiry_exact now ttl : - 2 ^ 63 <= now + ttl * 1000000000 < 2 ^ 63 -> expiry now ttl = now + ttl * 1000000000.
Proof.
  intros H. unfold expiry, u64. set (z := now + ttl * 1000000000) in *. destruct (Z.lt_ge_cases z 0) as [Hz|Hz]; [apply to_signed_mod; simpl; lia|].
  rewrite Z.mod_small by lia. unfold to_signed. change (64 - 1) with 63. by rewrite (proj2 (Z.ltb_lt _ _)) by lia.
Qed.

Lemma ttl_step_rel s m ev : ttl_rel s m -> valid_event ev -> ttl_rel (ttl_step s ev) (spec_step m ev).
Proof.
  intros (Hok & He & Hp) Hv. destruct ev as [d ttl now|d|now fails|u db c ttl]; cbn [ttl_step spec_step valid_event] in *.
  - destruct Hv as [Hd Hr]. split_and!.
    + unfold ttl_ok, setTTL. cbn [entries_]. by apply map_Forall_insert_2.
    + intros d' Hd'. rewrite expiry_of_set by done. rewrite expiry_exact by done. case_decide as E; [subst; by rewrite lookup_insert_eq|]. rewrite lookup_insert_ne by done. auto.
    + intros d'. destruct (decide (d = d')) as [<-|E]; [done|]. rewrite lookup_insert_ne by done. apply Hp.
  - split_and!.
    + unfold ttl_ok, removeTTL. cbn [entries_]. by apply map_Forall_delete.
    + intros d' Hd'. rewrite expiry_of_remove by done. case_decide as E; [subst; by rewrite lookup_delete_eq|]. rewrite lookup_delete_ne by done. auto.
    + intros d'. destruct (decide (d = d')) as [<-|E]; [by rewrite lookup_delete_eq; intros ?%is_Some_None|]. rewrite lookup_delete_ne by done. apply Hp.
  - split_and!.
    + intros k e. cbn [reapExpired fst entries_]. intros [H _]%map_lookup_filter_Some. exact (Hok k e H).
    + intros d Hd. rewrite expiry_of_reap, He by done. destruct (m !! d) as [t|] eqn:E.
      * destruct (Z.leb_spec t now) as [Ht|Ht]; symmetry.
        -- apply map_lookup_filter_None. right. intros x Hx. rewrite E in Hx. injection Hx as <-. simpl. lia.
        -- by apply map_lookup_filter_Some.
      * symmetry. apply map_lookup_filter_None. by left.
    + intros d [t [Ht _]%map_lookup_filter_Some]. apply Hp. eauto.
  - done.
Qed.

Definition ttl_run (evs : list ttl_event) : ttl_engine := fold_left ttl_step evs ttl_new.
Definition spec_run (evs : list ttl_event) : gmap doc_name Z := fold_left spec_step evs ∅.

Lemma ttl_run_rel evs : Forall valid_event evs -> ttl_rel (ttl_run evs) (spec_run evs).
Proof.
  unfold ttl_run, spec_run. assert (H0 : ttl_rel ttl_new ∅).
  { split_and!; [apply map_Forall_empty|done|]. intros d. rewrite lookup_empty. by intros ?%is_Some_None. }
  revert H0. generalize ttl_new (∅ : gmap doc_name Z). induction evs as [|ev evs IH]; intros s m Hr; [done|]. intros [Hv Hvs]%Forall_cons. cbn [fold_left]. apply IH; [by apply ttl_step_rel|done].
Qed.

(** C22: after any sequence of calls that set and remove times to live and reap, with names of users, databases and
    collections that hold no slash and expiries within the clock, the engine knows the expiry of exactly the documents
    for which one was set and not since removed or reaped: a document is reported as expired from its expiry on;
    the remaining time of a document is 0 when it has no time to live and, at times that are a second or more away
    from its expiry, the whole seconds that are left before and -1 after it; and a reap calls the deletion of
    every expired document, once, and of no other, and forgets them, whether or not the deletion succeeds.  (Within a
    second of the expiry the remaining time is 0, see [remaining_zero].) *)
Theorem ttl_refines evs : Forall valid_event evs ->
  (forall d now, plain_doc d -> isExpired (ttl_run evs) d now = match spec_run evs !! d with Some t => t <=? now | None => false end) /\
  (forall d now, plain_doc d ->
     match spec_run evs !! d with
     | Some t => 1000000000 <= Z.abs (t - now) -> getRemainingTTL (ttl_run evs) d now = if t <=? now then -1 else (t - now) / 1000000000
     | None => getRemainingTTL (ttl_run evs) d now = 0
     end) /\
  (forall now fails, NoDup (reapExpired (ttl_run evs) now fails).2 /\
     (forall d b, (d, b) ∈ (reapExpired (ttl_run evs) now fails).2 <-> b = fails d /\ exists t, spec_run evs !! d = Some t /\ t <= now) /\
     (forall d, plain_doc d -> expiry_of (reapExpired (ttl_run evs) now fails).1 d = match spec_run evs !! d with Some t => if t <=? now then None else Some t | None => None end)).
Proof.
  intros Hv. destruct (ttl_run_rel evs Hv) as (Hok & He & Hp). set (s := ttl_run evs) in *. set (m := spec_run evs) in *. split_and!.
  - intros d now Hd. rewrite <- He by done. unfold isExpired, expiry_of. by destruct (entries_ s !! makeKey d).
  - intros d now Hd. rewrite <- He by done. unfold getRemainingTTL, expiry_of. destruct (entries_ s !! makeKey d) as [e|]; [|done].
    cbn [fmap option_fmap option_map]. intros Hfar. set (x := expiresAt e - now) in *. destruct (Z.leb_spec (expiresAt e) now) as [Hx|Hx].
    + assert (Hq : Z.quot x 1000000000 <= -1); [|rewrite (proj2 (Z.ltb_lt _ _)) by lia; done].
      change (-1) with (Z.quot (-1000000000) 1000000000). apply Z.quot_le_mono; lia.
    + rewrite Z.quot_div_nonneg by lia. assert (0 <= x / 1000000000) by (apply Z.div_pos; lia). by rewrite (proj2 (Z.ltb_ge _ _)) by lia.
  - intros now fails. destruct (reap_deletes s now fails Hok) as [H1 H2]. split_and!; [done| |].
    + intros d b. rewrite H2. split.
      * intros (Hd & -> & t & Ht & Hle). rewrite He in Ht by done. eauto.
      * intros (-> & t & Ht & Hle). assert (Hd : plain_doc d) by (apply Hp; eauto). split_and!; [done|done|]. exists t. by rewrite He.
    + intros d Hd. by rewrite expiry_of_reap, He.
Qed.

Module TtlExamples.

Definition doc (u c i : string) : doc_name := (str u, str "db", str c, str i).
Definition sec : Z := 1000000000.
Definition calls : list ttl_event := [SetTTL (doc "u" "c" "1") 5 0; SetTTL (doc "u" "c" "2") 50 (3 * sec); RemoveTTL (doc "u" "c" "9"); Reap (10 * sec) (fun _ => true)].

Lemma ttl_refines_witness : isExpired (ttl_run calls) (doc "u" "c" "2") (60 * sec) = true /\ isExpired (ttl_run calls) (doc "u" "c" "1") (60 * sec) = false.
Proof.
  assert (Hp : forall i, plain_doc (doc "u" "c" i)) by (intros i; unfold plain_doc, doc, no_slash; split_and!; apply (bool_decide_eq_true_1 _); vm_compute; reflexivity).
  assert (Hv : Forall valid_event calls) by (unfold calls; rewrite !Forall_cons; cbn [valid_event]; split_and!; first [exact I | apply Hp | constructor | (unfold sec; lia)]).
  destruct (ttl_refines calls Hv) as (H & _). split; rewrite (H _ _ (Hp _)); vm_compute; reflexivity.
Defined.

(** A document whose deletion failed is forgotten: the next reap does not try again. *)
Example failed_deletion_forgotten : (reapExpired (ttl_run [SetTTL (doc "u" "c" "1") 5 0]) (10 * sec) (fun _ => true)).2 = [(doc "u" "c" "1", true)] /\
  (reapExpired (ttl_run [SetTTL (doc "u" "c" "1") 5 0; Reap (10 * sec) (fun _ => true)]) (20 * sec) (fun _ => false)).2 = [].
Proof. vm_compute. split; reflexivity. Qed.

(** Documents whose names hold slashes share a key. *)
Example slash_keys_collide : isExpired (ttl_run [SetTTL (doc "u" "a/b" "c") 5 0]) (doc "u" "a" "b/c") (6 * sec) = true.
Proof. vm_compute. reflexivity. Qed.

(** The default of a collection is stored and not applied: a document without an own time to live does not expire. *)
Example default_is_ignored : isExpired (ttl_run [SetDefault (str "u") (str "db") (str "c") 1]) (doc "u" "c" "1") (1000 * sec) = false.
Proof. vm_compute. reflexivity. Qed.

(** In its last and in its first second after the expiry the remaining time is 0, which stands for no time to live. *)
Example remaining_zero : map (getRemainingTTL (ttl_run [SetTTL (doc "u" "c" "1") 5 0]) (doc "u" "c" "1")) [4 * sec + 1; 5 * sec; 6 * sec - 1; 6 * sec] = [0; 0; 0; -1].
Proof. vm_compute. reflexivity. Qed.

(** A time to live of more than about 292 years wraps around and has expired at once. *)
Example long_ttl_expires : isExpired (ttl_run [SetTTL (doc "u" "c" "1") 10000000000 0]) (doc "u" "c" "1") 0 = true.
Proof. vm_compute. reflexivity. Qed.

End TtlExamples.
