(* ===== verification/LsmCompact.v ===== *)
(** * Compaction (lsm.cpp, [LSM::compact])

    A compaction has three phases.  Under the lock of the collection it selects a
    run of SSTs of similar size; without the lock it merges them into one SST under
    a temporary name; under the lock again it gives the file its name, replaces the
    inputs by it in the manifest and removes them.  The phases are operations of
    their own, so writes and flushes can come between the second and the third.

    Throttling, metrics and the caches of readers are not part of the model. *)

From S2P Require Import Prelude FileSys Decimal Json JsonValue Msgpack RowView Checksum Store Sst SstCursor SstQuery Bloom WalIntegrity Wal.
From S2P Require Import LsmManifest LsmProgress LsmDoc LsmCollection.
From stdpp Require Import base list gmap sorting strings.
From Stdlib Require Import ZArith Lia.

Open Scope Z_scope.

(** What the three environment variables say, when they are numbers. *)
Record compact_config := mkCompactConfig { cc_fanout : option Z; cc_max_bytes : option Z; cc_max_ssts : option Z }.

Definition compactionFanout (c : compact_config) : Z := match cc_fanout c with Some v => Z.max 2 v | None => 8 end.
Definition MAX_SST_BYTES (c : compact_config) : Z := default (16 * 1024 * 1024) (cc_max_bytes c).
Definition MAX_SSTS_PER_PASS (c : compact_config) : Z := match cc_max_ssts c with Some v => Z.max 2 v | None => 32 end.

Record compact_io := mkCompactIo {
  cp_recovered : bool;                       (* isRecoveryComplete(), false when it throws *)
  cp_exists : bool;                          (* fs::exists(dir) *)
  cp_load : load_io; cp_listed : bool;
  cp_size : bytes -> bool;                   (* whether fs::file_size succeeds *)
  cp_commit : option Z;                      (* getCommitIndex(), none when it throws *)
  cp_time : nat -> Z;                        (* time(nullptr) at the n-th row *)
  cp_name : bytes;                           (* nextSstFileName() *)
  cp_sst : sst_io; cp_bloom : bloom_io; cp_finalize : finalize_io; cp_publish : publish_io }.

(** A compaction between its second and third phase. *)
Record compaction := mkCompaction { cx_inputs : list bytes; cx_out : bytes }.

Definition cx_tmp (p : compaction) : bytes := cx_out p ++ str ".tmp".

(** ** Selection *)

Section Selection.
Context (fanout maxBytes : Z).

(** The SSTs from [seed] on that are at most a factor of two away from it. *)
Fixpoint collect_run (seed : Z) (room : nat) (ssts : list (bytes * Z)) : list bytes :=
  match room, ssts with
  | S room, (n, size) :: rest =>
      if (size <? u64 (seed + 1) / 2) || (u64 (seed * 2) <? size) || (maxBytes <? size) then []
      else n :: collect_run seed room rest
  | _, _ => []
  end.

(** The first run that is long enough. *)
Fixpoint select_run (ssts : list (bytes * Z)) : list bytes :=
  match ssts with
  | [] => []
  | (_, seed) :: rest =>
      if (seed =? 0) || (maxBytes <? seed) then select_run rest
      else
        let run := collect_run seed (Z.to_nat fanout) ssts in
        if Z.of_nat (length run) =? fanout then run else select_run rest
  end.
End Selection.

Definition sst_size (io : compact_io) (d : store) (n : bytes) : Z :=
  match st_fs d !! n with
  | Some f => if cp_size io n then blen (f_data f) else 0
  | None => 0
  end.

Section Compact.
Context `{JT : JsonText} `{LZ : Lz4}.
Context (cc : compact_config) (sstBlockBytes : Z).

(** Phase 1: the inputs, none when there is nothing to do, and the size of all SSTs. *)
Definition compact_select (io : compact_io) (s : coll) : result (list bytes * Z) :=
  if negb (cp_recovered io && cp_exists io) then Ok ([], 0)
  else
    match publishedSsts (cp_load io) (cp_listed io) (c_dir s) with
    | Err _ => Err "cannot load published SST set for "
    | Ok published =>
        let sized := map (fun n => (n, sst_size io (c_dir s) n)) (merge_sort bytes_le published) in
        Ok (select_run (Z.min (compactionFanout cc) (MAX_SSTS_PER_PASS cc)) (MAX_SST_BYTES cc) sized,
            u64 (foldr Z.add 0 sized.*2))
    end.

(** ** Merging *)

(** The rows seen so far and the newest visible row of each id; the first id that
    cannot be printed ends the scan. *)
Definition merging : Type := nat * result (gmap bytes json).

Definition compact_visit (e : raft_env) (c : Z) (io : compact_io) (acc : merging) (row : json) : merging * bool :=
  let '(n, m) := acc in
  if negb (docVisibleByCommitIndex e row c) then ((S n, m), true)
  else
    match m, row_key_of (cp_time io n) row with
    | Ok m, Ok id =>
        let newer := match m !! id with None => true | Some current => isCandidateNewer row current end in
        ((S n, Ok (if newer then <[id := row]> m else m)), true)
    | Ok _, Err e => ((S n, Err e), false)
    | Err e, _ => ((n, Err e), false)
    end.

Fixpoint compact_inputs (e : raft_env) (c : Z) (io : compact_io) (d : store) (inputs : list bytes) (acc : merging)
  : result merging * store :=
  match inputs with
  | [] => (Ok acc, d)
  | n :: rest =>
      match scanSstRows d n (compact_visit e c io) acc with
      | (Err _, d) => (Err "cannot compact SST ", d)
      | (Ok (_, Err _), d) => (Err "cannot compact SST ", d)
      | (Ok acc, d) => compact_inputs e c io d rest acc
      end
  end.

(** Tombstones are dropped when every published SST is an input. *)
Definition compact_rows (full : bool) (m : gmap bytes json) : list json :=
  List.filter (fun r => negb (isDeletedDoc r && full)) (flush_rows m).

(** Phase 2: the merged SST under its temporary name. *)
Definition compact_merge (e : raft_env) (io : compact_io) (inputs : list bytes) (totalSstBytes : Z) (s : coll) : result compaction * coll :=
  match publishedSsts (cp_load io) (cp_listed io) (c_dir s) with
  | Err _ => (Err "cannot load published SST set for ", s)
  | Ok published =>
      let full := (0 <? totalSstBytes) && Nat.eqb (length published) (length inputs) in
      match compact_inputs e (default 0 (cp_commit io)) io (c_dir s) inputs (0%nat, Ok ∅) with
      | (Ok (_, Ok m), d) =>
          let p := mkCompaction inputs (cp_name io) in
          match writeSst (cp_sst io) d (cx_tmp p) (compact_rows full m) sstBlockBytes with
          | (Err _, d) => (Err "cannot write compacted SST: ", with_dir s d)
          | (Ok _, d) => (Ok p, with_dir s (buildBloomForSST (cp_bloom io) d (cx_tmp p)))
          end
      | (Ok (_, Err e), d) | (Err e, d) => (Err e, with_dir s d)
      end
  end.

(** ** Publication *)

(** The sidecars, then the SST itself, get their final names; a failure removes
    what was renamed before it. *)
Definition finalize_compaction (io : finalize_io) (tmp out : bytes) (d : store) : bool * store :=
  let bloom := str ".bloom" in
  let sidx := str ".sidx" in
  let has_bloom := exists_file d (tmp ++ bloom) in
  if has_bloom && negb (fi_bloom io) then (false, d)
  else
    let d := if has_bloom then move_file d (tmp ++ bloom) (out ++ bloom) else d in
    let has_sidx := exists_file d (tmp ++ sidx) in
    if has_sidx && negb (fi_sparse io) then (false, remove_files d [out ++ bloom])
    else
      let d := if has_sidx then move_file d (tmp ++ sidx) (out ++ sidx) else d in
      if fi_sst io && exists_file d tmp then (true, move_file d tmp out)
      else (false, remove_files d [out ++ bloom; out ++ sidx]).

(** Phase 3: whether the manifest was replaced. *)
Definition compact_publish (io : compact_io) (p : compaction) (s : coll) : bool * coll :=
  match finalize_compaction (cp_finalize io) (cx_tmp p) (cx_out p) (c_dir s) with
  | (false, d) => (false, with_dir s d)
  | (true, d) =>
      match publishCompaction (cp_publish io) (cx_inputs p) (cx_out p) d with
      | (Err _, d) => (false, with_dir s d)
      | (Ok _, d) => (true, with_dir s d)
      end
  end.

(** [LSM::compact] without other threads. *)
Definition compact (e : raft_env) (io : compact_io) (s : coll) : result bool * coll :=
  match compact_select io s with
  | Err m => (Err m, s)
  | Ok ([], _) => (Ok false, s)
  | Ok (inputs, total) =>
      match compact_merge e io inputs total s with
      | (Err m, s) => (Err m, s)
      | (Ok p, s) => let '(published, s) := compact_publish io p s in (Ok published, s)
      end
  end.
End Compact.

(** ** What is selected *)

Section SelectionFacts.
Context (fanout maxBytes : Z).

(** A run starts with its seed and the sizes in it differ by a factor of two at most. *)
Lemma collect_run_sizes seed room ssts : 0 <= seed < 2 ^ 63 ->
  exists k, collect_run maxBytes seed room ssts = (take k ssts).*1 /\ (k <= room)%nat /\
    Forall (fun x => seed <= 2 * x.2 /\ x.2 <= 2 * seed /\ x.2 <= maxBytes) (take k ssts).
Proof.
  intros Hs. revert ssts. induction room as [|room IH]; intros ssts; [exists 0%nat; cbn; auto|].
  destruct ssts as [|[n size] rest]; [exists 0%nat; cbn; auto with lia|]. cbn [collect_run].
  destruct (_ || _ || _) eqn:E; [exists 0%nat; cbn; auto with lia|]. destruct (IH rest) as (k & -> & Hk & Hf).
  apply orb_false_iff in E as [[E1%Z.ltb_ge E2%Z.ltb_ge]%orb_false_iff E3%Z.ltb_ge]. exists (S k). split; [reflexivity|]. split; [lia|].
  cbn [take]. apply Forall_cons. split; [|exact Hf]. cbn [snd]. unfold u64 in *. rewrite Z.mod_small in E1, E2 by lia.
  pose proof (Z.div_mod (seed + 1) 2 ltac:(lia)). pose proof (Z.mod_pos_bound (seed + 1) 2 ltac:(lia)). lia.
Qed.

(** The inputs are a contiguous run of [fanout] SSTs, none of them sealed. *)
Lemma select_run_contiguous ssts : 2 <= fanout -> maxBytes < 2 ^ 63 -> Forall (fun x => 0 <= x.2) ssts ->
  select_run fanout maxBytes ssts = [] \/
  exists before run after seed, ssts = before ++ run ++ after /\ select_run fanout maxBytes ssts = run.*1 /\
    Z.of_nat (length run) = fanout /\ Forall (fun x => seed <= 2 * x.2 /\ x.2 <= 2 * seed /\ x.2 <= maxBytes) run.
Proof.
  intros Hfan Hmax Hpos. induction Hpos as [|[n seed] rest Hseed Hpos IH]; [left; reflexivity|]. cbn [select_run].
  assert (Hskip : select_run fanout maxBytes rest = [] \/ exists before run after seed0, (n, seed) :: rest = before ++ run ++ after /\
    select_run fanout maxBytes rest = run.*1 /\ Z.of_nat (length run) = fanout /\
    Forall (fun x => seed0 <= 2 * x.2 /\ x.2 <= 2 * seed0 /\ x.2 <= maxBytes) run).
  { destruct IH as [->|(b & r & a & s0 & -> & H)]; [auto|]. right. exists ((n, seed) :: b), r, a, s0. auto. }
  destruct (_ || _) eqn:E; [exact Hskip|]. apply orb_false_iff in E as [_ E%Z.ltb_ge]. cbn in Hseed.
  destruct (Z.eqb_spec (Z.of_nat (length (collect_run maxBytes seed (Z.to_nat fanout) ((n, seed) :: rest)))) fanout) as [Hlen|]; [|exact Hskip].
  destruct (collect_run_sizes seed (Z.to_nat fanout) ((n, seed) :: rest) ltac:(lia)) as (k & Hk & _ & Hf). rewrite Hk in *.
  right. exists [], (take k ((n, seed) :: rest)), (drop k ((n, seed) :: rest)), seed. rewrite length_fmap in Hlen.
  split; [cbn; symmetry; apply take_drop|]. auto.
Qed.
End SelectionFacts.
