(* ===== verification/LsmCompacted.v ===== *)
(** * What a compaction does to a collection

    The merged SST holds the newest row of every id of the inputs, tombstones
    apart when nothing older can be left.  Publishing it changes no document that
    a reader gets, whatever happens before and whatever fails.  At the end, the
    collection of [LsmCrash] is compacted after its crash. *)

From S2P Require Import Prelude FileSys Json JsonValue Msgpack RowView Checksum Store Sst SstCursor SstQuery Bloom WalIntegrity Wal.
From S2P Require Import WalLog WalRecovery WalEntries WalReclaim WalScan LsmManifest LsmProgress LsmDoc LsmCollection LsmLatest LsmCanon LsmReads LsmFlush LsmDurability LsmCrash LsmCompact.
From stdpp Require Import base list gmap sorting strings relations.
From Stdlib Require Import ZArith Lia.

Open Scope Z_scope.

Section Compacted.
Context `{JT : JsonText} `{LZ : Lz4} `{LZC : !Lz4Correct}.
Context (ok : json -> Prop) `{JL : !JsonLineText ok}.
Context (sstBlockBytes : Z).

Abbreviation ver d := (extractDocVersionScore d).

(** ** Merging *)

Lemma merge_id m d : is_Some (doc_id d) -> exists m', mergeLatestById (m, []) d = (m', []).
Proof. intros [id H]. unfold mergeLatestById. rewrite H. destruct (m !! id); [destruct (isCandidateNewer _ _)|]; eauto. Qed.

Lemma row_key_id now d id : doc_id d = Some id -> row_key_of now d = Ok id.
Proof. unfold doc_id, row_key_of. destruct (json_find _ d) as [v|]; [|discriminate]. destruct (id_text v) as [[|]|]; [discriminate|intros [= <-]; reflexivity|discriminate]. Qed.

(** On rows that are visible and have an id a compaction merges as a reader does. *)
Lemma compact_visit_merges e c io n m row : docVisibleByCommitIndex e row c = true -> is_Some (doc_id row) ->
  compact_visit e c io (n, Ok m) row = ((S n, Ok (mergeLatestById (m, []) row).1), true).
Proof.
  intros Hv [id Hid]. unfold compact_visit, mergeLatestById. rewrite Hv, (row_key_id _ _ _ Hid), Hid. cbn [negb].
  destruct (m !! id) as [cur|]; [destruct (isCandidateNewer row cur)|]; reflexivity.
Qed.

Lemma visit_compact e c io rows : forall n m, Forall (fun d => docVisibleByCommitIndex e d c = true /\ is_Some (doc_id d)) rows ->
  (visit_all (compact_visit e c io) rows (n, Ok m)).1 = ((length rows + n)%nat, Ok (fold_left mergeLatestById rows (m, [])).1).
Proof.
  induction rows as [|r rows IH]; intros n m H; cbn [visit_all fold_left length]; [reflexivity|]. apply Forall_cons in H as [[Hv Hid] H].
  rewrite compact_visit_merges by assumption. destruct (merge_id m r Hid) as [m' E]. rewrite E. cbn [fst]. rewrite IH by exact H.
  f_equal. lia.
Qed.

(** Only the metadata of the scanned file enters the cache. *)
Lemma scanSstRows_cache {A} d p (v : A -> json -> A * bool) acc q : q <> p -> g_sstCache (scanSstRows d p v acc).2 !! q = g_sstCache d !! q.
Proof. intros Hq. unfold scanSstRows. destruct (isBinarySst d p); [apply scanSst_cache, Hq|]. destruct (read_file _ _); reflexivity. Qed.

Lemma compact_inputs_holds e c io inputs : forall rowss d n m, sst_coherent d -> holds d inputs rowss ->
  Forall (fun d => docVisibleByCommitIndex e d c = true /\ is_Some (doc_id d)) (concat rowss) ->
  let '(r, d') := compact_inputs e c io d inputs (n, Ok m) in
  (exists n', r = Ok (n', Ok (fold_left mergeLatestById (concat rowss) (m, [])).1)) /\
  st_fs d' = st_fs d /\ sst_coherent d' /\ forall q, q ∉ inputs -> g_sstCache d' !! q = g_sstCache d !! q.
Proof.
  induction inputs as [|i inputs IH]; intros rowss d n m Hc H Hrows; cbn [compact_inputs].
  - inversion H; subst. eauto.
  - inversion H as [|? rows ? rowss' (f & Hf & Hh) H' Hn Hr]; subst. destruct (Hh d i Hc Hf _ (compact_visit e c io) (n, Ok m)) as (H1 & H2 & H3).
    cbn [concat] in *. apply Forall_app in Hrows as [Ha Hb]. rewrite visit_compact in H1 by exact Ha.
    pose proof (fun q (Hq : q <> i) => scanSstRows_cache d i (compact_visit e c io) (n, Ok m) q Hq) as Hq.
    destruct (scanSstRows d i (compact_visit e c io) (n, Ok m)) as [r d1]. cbn [fst snd] in *. subst r.
    assert (H1' : holds d1 inputs rowss') by (eapply holds_ext; [|exact H']; intros; rewrite H2; reflexivity).
    destruct (fold_left mergeLatestById rows (m, [])) as [m1 noId] eqn:E1. cbn [fst].
    assert (noId = []) as ->.
    { clear -E1 Ha. revert m E1. induction Ha as [|x rows [_ Hx] Ha IHa]; intros m E1; [injection E1; auto|].
      cbn [fold_left] in E1. destruct (merge_id m x Hx) as [m' Em]. rewrite Em in E1. eauto. }
    specialize (IH rowss' d1 (length rows + n)%nat m1 H3 H1' Hb).
    destruct (compact_inputs e c io d1 inputs (_, Ok m1)) as [r d']. destruct IH as ((n' & ->) & I2 & I3 & I4).
    split; [exists n'; rewrite fold_left_app, E1; reflexivity|]. split; [congruence|]. split; [exact I3|].
    intros q [Hqi Hqs]%not_elem_of_cons. rewrite I4, Hq by assumption. reflexivity.
Qed.

(** ** The merged rows *)

(** [rows] are the newest of [D], but for tombstones that may go. *)
Record compacts (full : bool) (D : docset) (rows : list json) : Prop := {
  cm_from : forall r, r ∈ rows -> D r;
  cm_newest : forall r x, r ∈ rows -> D x -> doc_id x = doc_id r -> version_le (ver x) (ver r) = true;
  cm_kept : forall x, D x -> exists y, D y /\ doc_id y = doc_id x /\ version_le (ver x) (ver y) = true /\
    (y ∈ rows \/ full = true /\ isDeletedDoc y = true) }.

Lemma compact_rows_elem full m r : r ∈ compact_rows full m <-> (exists k, m !! k = Some r) /\ isDeletedDoc r && full = false.
Proof. unfold compact_rows. rewrite list_elem_of_In, filter_In, <- list_elem_of_In, flush_rows_elem, negb_true_iff. reflexivity. Qed.

Lemma compact_rows_compacts full (D : docset) m : (forall x, D x -> is_Some (doc_id x)) -> represents D m -> compacts full D (compact_rows full m).
Proof.
  intros Hid Hr. split.
  - intros r [[k Hk] _]%compact_rows_elem. specialize (Hr k). rewrite Hk in Hr. apply Hr.
  - intros r x [[k Hk] _]%compact_rows_elem Hx He. specialize (Hr k). rewrite Hk in Hr. destruct Hr as (_ & Hrk & Hnew). apply Hnew; congruence.
  - intros x Hx. destruct (Hid x Hx) as [id E]. pose proof (Hr id) as Hn. destruct (m !! id) as [y|] eqn:Ey; [|destruct (Hn x Hx E)].
    destruct Hn as (Hy & Hyid & Hnew). exists y. split; [exact Hy|]. split; [congruence|]. split; [apply Hnew; assumption|].
    destruct (isDeletedDoc y && full) eqn:Ed; [apply andb_true_iff in Ed; tauto|left; apply compact_rows_elem; eauto].
Qed.
(** ** What readers get *)

Definition undeleted (m : gmap bytes json) : gmap bytes json := filter (fun kv => isDeletedDoc kv.2 = false) m.

Lemma live_undeleted m : live m ≡ₚ (map_to_list (undeleted m)).*2.
Proof.
  unfold live, undeleted. rewrite map_filter_alt.
  etransitivity; [|apply fmap_Permutation; symmetry; apply map_to_list_to_map;
    eapply sublist_NoDup; [apply (NoDup_fst_map_to_list m)|apply fmap_sublist, sublist_filter]].
  induction (map_to_list m) as [|[k d] l IH]; [reflexivity|]. cbn [fmap list_fmap List.filter snd].
  destruct (isDeletedDoc d) eqn:E; cbn [negb].
  - rewrite filter_cons_False by (cbn; congruence). exact IH.
  - rewrite filter_cons_True by exact E. cbn [fmap list_fmap snd]. apply perm_skip, IH.
Qed.

(** Replacing the documents [I] by the rows that compact them changes no document
    but reclaimed tombstones. *)
Lemma compacts_live full (D I K : docset) rows spec spec' :
  (forall x, D x <-> I x \/ K x) -> consistent D -> compacts full I rows ->
  (full = true -> forall k t, K k -> I t -> doc_id k = doc_id t -> version_le (ver t) (ver k) = true) ->
  represents D spec -> represents (fun x => K x \/ x ∈ rows) spec' -> undeleted spec' = undeleted spec.
Proof.
  intros HD [_ Hu] [Hfrom Hnew Hkept] Hfull Hr Hr'. apply map_eq. intros id. unfold undeleted. apply option_eq. intros d.
  assert (Hsub : forall x, (K x \/ x ∈ rows) -> D x) by (intros x [Hx|Hx]; apply HD; [auto|left; apply Hfrom, Hx]).
  assert (Hsame : forall x y, D x -> D y -> doc_id x = doc_id y -> version_le (ver x) (ver y) = true -> version_le (ver y) (ver x) = true -> x = y)
    by (intros; apply Hu; auto; apply version_le_antisym; auto).
  rewrite !map_lookup_filter_Some. cbn [snd]. specialize (Hr id). specialize (Hr' id). split; intros [Hd Hdel]; (split; [|exact Hdel]).
  - rewrite Hd in Hr'. destruct Hr' as (H1 & H2 & H3). destruct (spec !! id) as [x|] eqn:Ex; [|destruct (Hr d (Hsub d H1) H2)].
    destruct Hr as (X1 & X2 & X3). f_equal. pose proof (X3 d (Hsub d H1) H2) as Hle.
    assert (Hkx : (K x \/ x ∈ rows) -> x = d) by (intros Hx; apply Hsame; auto; congruence).
    apply HD in X1 as Hx. destruct Hx as [Hx|Hx]; [|apply Hkx; auto].
    destruct (Hkept x Hx) as (y & Y1 & Y2 & Y3 & Y4). assert (y = x) as -> by (apply Hsame; auto; [apply HD; auto|apply X3; [apply HD; auto|congruence]]).
    destruct Y4 as [Y4|[Hf Hxd]]; [apply Hkx; auto|]. apply Hsame; auto; [congruence|].
    destruct H1 as [H1|H1]; [apply Hfull; auto; congruence|apply Hnew; auto; congruence].
  - rewrite Hd in Hr. destruct Hr as (H1 & H2 & H3).
    assert (Hin : K d \/ d ∈ rows).
    { apply HD in H1 as [Hi|Hk]; [|auto]. destruct (Hkept d Hi) as (y & Y1 & Y2 & Y3 & Y4).
      assert (y = d) as -> by (apply Hsame; auto; [apply HD; auto|apply HD; auto|apply H3; [apply HD; auto|congruence]]).
      destruct Y4 as [Y4|[_ Hx]]; [auto|congruence]. }
    destruct (spec' !! id) as [x|] eqn:Ex; [|destruct (Hr' d Hin H2)]. destruct Hr' as (X1 & X2 & X3). f_equal.
    apply Hsame; auto; congruence.
Qed.

(** The newest documents of a list. *)
Lemma represents_list (D : docset) (l : list json) : (forall x, x ∈ l <-> D x) -> (forall x, D x -> is_Some (doc_id x)) -> exists m, represents D m.
Proof.
  intros Hl Hid. destruct (merge_all_newest l (fun _ => False) ∅ []) as (m & _ & H).
  { apply represents_empty. tauto. }
  { apply Forall_forall. intros x Hx. apply Hid, Hl, Hx. }
  exists m. eapply represents_ext; [|exact H]. intros x. cbn. rewrite Hl. tauto.
Qed.

(** The documents in memory as a list. *)
Lemma memory_list s : exists l : list json, forall x, x ∈ l <-> in_memory s x.
Proof.
  exists (map canon (table_docs (memtable s)) ++ concat (map (fun t => map canon (table_docs t.2)) (immutables s))).
  intros x. unfold in_memory. rewrite elem_of_app, elem_table_docs. apply or_iff_compat_l.
  rewrite list_elem_of_In, in_concat. split.
  - intros (l & Hl & Hx). apply in_map_iff in Hl as (t & <- & Ht). exists t. split; [apply list_elem_of_In, Ht|]. apply elem_table_docs, list_elem_of_In, Hx.
  - intros (t & Ht & Hx). exists (map canon (table_docs t.2)). split; [apply in_map_iff; exists t; split; [reflexivity|apply list_elem_of_In, Ht]|].
    apply list_elem_of_In, elem_table_docs, Hx.
Qed.
(** ** Phase 2 *)

(** What the second phase relies on: inputs that are published, a name apart from
    theirs, and rows the format can hold. *)
Record merge_ready (e : raft_env) (io : compact_io) (s : coll) (names inputs : list bytes) : Prop := {
  mr_load : cp_load io = load_good;
  mr_listed : cp_listed io = true;
  mr_commit : cp_commit io = Some (re_commitIndex e);
  mr_inputs : forall n, n ∈ inputs -> n ∈ names;
  mr_distinct : NoDup inputs;
  mr_apart : forall n, n ∈ inputs -> is_prefix (cp_name io) n = false;
  mr_uncached : forall q, near (cp_name io) q -> g_sstCache (c_dir s) !! q = None;
  mr_rows : forall x, on_disk (c_dir s) inputs x -> json_wf x /\ key_fits (rowId x);
  mr_limits : forall n m d full stats d', compact_inputs e (re_commitIndex e) io (c_dir s) inputs (0%nat, Ok ∅) = (Ok (n, Ok m), d) ->
    writeSst (cp_sst io) d (cp_name io ++ str ".tmp") (compact_rows full m) sstBlockBytes = (Ok stats, d') ->
    ws_blocks stats <= kMaxBlocks /\ ws_stored stats < 2 ^ 63 }.

Lemma reads_same e s names spec d : reads_as e s names spec -> sst_coherent d -> same_files (c_dir s) d -> reads_as e (with_dir s d) names spec.
Proof.
  intros [Hc Hl Hf Hs Hcs Hv Hr] Hc' Hsame.
  assert (Hdocs : forall x, all_docs s names x <-> all_docs (with_dir s d) names x).
  { intros x. unfold all_docs. cbn [c_dir with_dir]. rewrite (on_disk_same _ _ _ _ Hl Hsame). reflexivity. }
  split; cbn [c_dir with_dir]; auto.
  - apply (same_files_listed _ _ _ Hsame Hl).
  - intros k Hk. rewrite (proj2 Hsame k) by apply (listed_names _ _ Hl k Hk). apply Hf, Hk.
  - eapply consistent_sub; [exact Hcs|]. intros x Hx. apply Hdocs, Hx.
  - intros x Hx. apply Hv, Hdocs, Hx.
  - eapply represents_ext; [exact Hdocs|exact Hr].
Qed.

(** As many inputs as published SSTs: all of them. *)
Lemma full_coverage (names inputs : list bytes) : NoDup inputs -> (forall n, n ∈ inputs -> n ∈ names) -> length names = length inputs ->
  forall n, n ∈ names -> n ∈ inputs.
Proof.
  intros Hnd Hsub Hlen. assert (Hs : inputs ⊆+ names) by (apply NoDup_submseteq; auto).
  intros n Hn. rewrite (submseteq_length_Permutation inputs names Hs ltac:(lia)). exact Hn.
Qed.

(** The inputs and the merged rows of a running compaction. *)
Record merged_file (d d1 : store) (names inputs : list bytes) (out : bytes) (full : bool) (rows : list json) : Prop := {
  mf_file : exists f, st_fs d1 !! (out ++ str ".tmp") = Some f /\ sst_holds f rows;
  mf_canon : Forall (fun r => canon r = r) rows;
  mf_compacts : compacts full (on_disk d inputs) rows;
  mf_full : full = true -> forall n, n ∈ names -> n ∈ inputs }.

Lemma compact_merge_file e io inputs total s names spec : reads_as e s names spec -> merge_ready e io s names inputs ->
  let '(r, s1) := compact_merge sstBlockBytes e io inputs total s in
  exists d1, s1 = with_dir s d1 /\ tame (cp_name io) (str ".tmp") d1 /\ same_files (c_dir s) d1 /\
    forall p, r = Ok p -> p = mkCompaction inputs (cp_name io) /\ exists full rows, merged_file (c_dir s) d1 names inputs (cp_name io) full rows.
Proof.
  intros [Hc Hl Hf Hs Hcs Hv Hr] [Rl Rls Rc Ri Rd Ra Ru Rr Rlim]. unfold compact_merge. rewrite Rl, Rls, Rc, (listed_published _ _ Hl).
  change (default 0 (Some (re_commitIndex e))) with (re_commitIndex e).
  destruct (files_ok_holds (c_dir s) inputs) as (rowss & Hh & Hcn & Hrows); [intros n Hn; apply Hf, Ri, Hn|].
  assert (Hdoc : forall x, on_disk (c_dir s) inputs x -> all_docs s names x).
  { intros x (n & f & rows & Hn & Hx). left. exists n, f, rows. auto. }
  assert (Hid : forall x, on_disk (c_dir s) inputs x -> is_Some (doc_id x)) by (intros x Hx; apply (cs_versioned _ Hcs x (Hdoc x Hx))).
  assert (Hvis : Forall (fun d => docVisibleByCommitIndex e d (re_commitIndex e) = true /\ is_Some (doc_id d)) (concat rowss)).
  { apply Forall_forall. intros x Hx%Hrows. auto. }
  pose proof (compact_inputs_holds e (re_commitIndex e) io inputs rowss (c_dir s) 0%nat ∅ Hc Hh Hvis) as Hm.
  destruct (compact_inputs e (re_commitIndex e) io (c_dir s) inputs (0%nat, Ok ∅)) as [r d1] eqn:Em. destruct Hm as ((n' & ->) & Hfs & Hc1 & Hq).
  destruct (merge_all_newest (concat rowss) (fun _ => False) ∅ []) as (m & Hmm & Hrep).
  { apply represents_empty. tauto. }
  { apply Forall_forall. intros x Hx%Hrows. auto. }
  rewrite Hmm in *. cbn [fst] in *. set (full := (0 <? total) && Nat.eqb (length names) (length inputs)).
  assert (Hrep' : represents (on_disk (c_dir s) inputs) m) by (eapply represents_ext; [|exact Hrep]; intros x; cbn; rewrite Hrows; tauto).
  pose proof (compact_rows_compacts full _ m Hid Hrep') as Hcm.
  assert (Hcan : Forall (fun r => canon r = r) (compact_rows full m)).
  { apply Forall_forall. intros x Hx. rewrite Forall_forall in Hcn. apply Hcn, Hrows, (cm_from _ _ _ Hcm x Hx). }
  assert (Hunc : forall q, near (cp_name io) q -> g_sstCache d1 !! q = None).
  { intros q Hnear. rewrite Hq; [auto|]. intros Hin. destruct (listed_names _ _ Hl q (Ri q Hin)) as [Hsn _]. destruct Hnear as [Hp|[-> | ->]].
    - rewrite (Ra q Hin) in Hp. discriminate.
    - exact (manifest_not_sst Hsn).
    - exact (temp_not_sst Hsn). }
  pose proof (write_rows sstBlockBytes (cp_sst io) (cp_name io) (str ".tmp") (byte_of 112) d1 (compact_rows full m) eq_refl
    ltac:(discriminate) ltac:(discriminate) Hc1 Hunc) as Hw. unfold cx_tmp. cbn [cx_out].
  destruct (writeSst (cp_sst io) d1 (cp_name io ++ str ".tmp") (compact_rows full m) sstBlockBytes) as [r d2] eqn:Ew.
  destruct Hw as (Ht & Hsame & Hok); [intros x Hx; apply Rr, (cm_from _ _ _ Hcm x Hx)|intros stats d' [= -> ->]; eapply Rlim; [reflexivity|exact Ew]|].
  assert (Hsame' : same_files (c_dir s) d2) by (destruct Hsame as [A B]; rewrite Hfs in A, B; split; assumption).
  destruct r as [stats|err]; [|exists d2; split; [reflexivity|]; split; [exact Ht|]; split; [exact Hsame'|discriminate]].
  destruct (Hok eq_refl) as (f & Hff & Hhold). destruct (bloom_same (cp_bloom io) (cp_name io) (str ".tmp") d2 f Ht Hff) as (Ht3 & Hsame3 & Hf3).
  eexists. split; [reflexivity|]. split; [exact Ht3|]. split; [exact (same_files_trans _ _ _ Hsame' Hsame3)|].
  intros p [= <-]. split; [reflexivity|]. exists full, (compact_rows full m). split; [|exact Hcan|exact Hcm|].
  - exists f. split; [exact Hf3|]. replace (compact_rows full m) with (map canon (compact_rows full m)); [exact Hhold|].
    rewrite <- (map_id (compact_rows full m)) at 2. apply map_ext_in. intros x Hx%list_elem_of_In. rewrite Forall_forall in Hcan. apply Hcan, Hx.
  - intros [_ Hlen%Nat.eqb_eq]%andb_true_iff. apply full_coverage; assumption.
Qed.
(** ** Phase 3 *)

(** The names a finalisation touches besides the output itself. *)
Definition side_names (out : bytes) : list bytes :=
  let tmp := out ++ str ".tmp" in [tmp; tmp ++ str ".bloom"; tmp ++ str ".sidx"; out ++ str ".bloom"; out ++ str ".sidx"].

Lemma side_names_apart out k : k = kManifestName \/ sst_name k -> k ∉ side_names out.
Proof.
  intros Hk. assert (Hl : last k = Some (byte_of 110) \/ last k = Some (byte_of 116)) by
    (destruct Hk as [->|Hk]; [left; reflexivity|right; apply sst_name_last, Hk]).
  assert (Hne : forall n e x, last e = Some x -> x <> byte_of 110 -> x <> byte_of 116 -> k <> n ++ e).
  { intros n e x He H1 H2 ->. rewrite (last_app_some n e x He) in Hl. destruct Hl as [[= ?]|[= ?]]; contradiction. }
  unfold side_names. rewrite !not_elem_of_cons. repeat split; [..|apply not_elem_of_nil];
    (eapply Hne; [reflexivity|discriminate|discriminate]).
Qed.

Lemma near_tmp out e : near out ((out ++ str ".tmp") ++ e).
Proof. rewrite <- app_assoc. apply near_suffix. Qed.

#[local] Hint Resolve near_manifest near_temp near_suffix near_self near_tmp : core.

Lemma frame_finalize_compaction fio out d : frame out d (finalize_compaction fio (out ++ str ".tmp") out d).2.
Proof.
  assert (Hb : forall d, frame out d (move_file d ((out ++ str ".tmp") ++ str ".bloom") (out ++ str ".bloom")))
    by (intros d0; apply frame_move; auto; unfold targets; right; left).
  assert (Hx : forall d, frame out d (move_file d ((out ++ str ".tmp") ++ str ".sidx") (out ++ str ".sidx")))
    by (intros d0; apply frame_move; auto; unfold targets; right; right; left).
  unfold finalize_compaction. cbv zeta. destruct (_ && negb (fi_bloom fio)); [apply frame_refl|].
  set (d1 := if exists_file d _ then _ else _).
  assert (H1 : frame out d d1) by (unfold d1; destruct (exists_file d _); [apply Hb|apply frame_refl]).
  destruct (_ && negb (fi_sparse fio)); [eapply frame_trans; [exact H1|]; apply frame_remove; repeat apply Forall_cons_2; try apply Forall_nil_2; auto|].
  set (d2 := if exists_file d1 _ then _ else _).
  assert (H2 : frame out d d2) by (unfold d2; destruct (exists_file d1 _); [eapply frame_trans; [exact H1|apply Hx]|exact H1]).
  destruct (_ && _); (eapply frame_trans; [exact H2|]); [apply frame_move; auto; unfold targets; left|apply frame_remove; repeat apply Forall_cons_2; try apply Forall_nil_2; auto].
Qed.

(** Every other name keeps its file; the output gets the merged one or stays as it was. *)
Lemma finalize_compaction_files fio out d : sst_name out ->
  let '(good, d') := finalize_compaction fio (out ++ str ".tmp") out d in
  (forall k, k = kManifestName \/ sst_name k -> k <> out -> st_fs d' !! k = st_fs d !! k) /\
  st_fs d' !! out = (if good then st_fs d !! (out ++ str ".tmp") else st_fs d !! out).
Proof.
  intros Hout. assert (Hmove : forall d a b k, a ∈ side_names out -> b ∈ side_names out -> k = kManifestName \/ sst_name k ->
    st_fs (move_file d a b) !! k = st_fs d !! k).
  { intros d0 a b k Ha Hb Hk. pose proof (side_names_apart out k Hk). apply move_other; intros ->; contradiction. }
  assert (Hrm : forall d l k, (forall a, a ∈ l -> a ∈ side_names out) -> k = kManifestName \/ sst_name k -> st_fs (remove_files d l) !! k = st_fs d !! k).
  { intros d0 l k Hl Hk. apply remove_other. intros Hin. exact (side_names_apart out k Hk (Hl k Hin)). }
  set (tmp := out ++ str ".tmp") in *.
  assert (Htmp : forall d e e', e <> [] -> tmp <> out ++ e' -> st_fs (move_file d (tmp ++ e) (out ++ e')) !! tmp = st_fs d !! tmp)
    by (intros; apply move_other; [apply suffix_neq; assumption|assumption]).
  unfold finalize_compaction. cbv zeta. destruct (_ && negb (fi_bloom fio)); [auto|].
  set (d1 := if exists_file d _ then _ else _).
  assert (H1 : (forall k, k = kManifestName \/ sst_name k -> st_fs d1 !! k = st_fs d !! k) /\ st_fs d1 !! tmp = st_fs d !! tmp).
  { unfold d1. destruct (exists_file d _); [|auto]. split; [intros k Hk; apply Hmove; [..|exact Hk]; unfold side_names; set_solver|].
    apply Htmp; [discriminate|]. intros E%app_inv_head. discriminate E. }
  destruct H1 as [H1 T1]. destruct (_ && negb (fi_sparse fio)).
  { assert (Hall : forall k, k = kManifestName \/ sst_name k -> st_fs (remove_files d1 [out ++ str ".bloom"]) !! k = st_fs d !! k)
      by (intros k Hk; rewrite Hrm; [auto|unfold side_names; set_solver|exact Hk]). auto. }
  set (d2 := if exists_file d1 _ then _ else _).
  assert (H2 : (forall k, k = kManifestName \/ sst_name k -> st_fs d2 !! k = st_fs d !! k) /\ st_fs d2 !! tmp = st_fs d !! tmp).
  { unfold d2. destruct (exists_file d1 _); [|auto]. split; [intros k Hk; rewrite Hmove; [auto|..|exact Hk]; unfold side_names; set_solver|].
    rewrite Htmp; [exact T1|discriminate|]. intros E%app_inv_head. discriminate E. }
  destruct H2 as [H2 T2]. destruct (fi_sst fio && exists_file d2 tmp) eqn:E.
  - split.
    + intros k Hk Hne. rewrite move_other; [auto| |exact Hne]. intros ->. apply (side_names_apart out _ Hk). unfold side_names. left.
    + apply andb_true_iff in E as [_ [f Hf]%bool_decide_eq_true]. rewrite (move_target d2 tmp out f Hf); [congruence|].
      intros E. exact (suffix_neq out (str ".tmp") ltac:(discriminate) (eq_sym E)).
  - assert (Hall : forall k, k = kManifestName \/ sst_name k -> st_fs (remove_files d2 [out ++ str ".bloom"; out ++ str ".sidx"]) !! k = st_fs d !! k)
      by (intros k Hk; rewrite Hrm; [auto|unfold side_names; set_solver|exact Hk]). auto.
Qed.
Lemma tmp_not_target out : sst_name out -> out ++ str ".tmp" ∉ targets out.
Proof.
  intros Hout. unfold targets. rewrite !not_elem_of_cons. repeat split.
  - intros E. exact (suffix_neq out (str ".tmp") ltac:(discriminate) (eq_sym E)).
  - intros E%app_inv_head. discriminate E.
  - intros E%app_inv_head. discriminate E.
  - intros E%(f_equal last). rewrite (last_app_some out (str ".tmp") (byte_of 112) eq_refl) in E. discriminate E.
  - unfold kTempName. intros E%app_inv_tail. rewrite E in Hout. exact (manifest_not_sst Hout).
  - apply not_elem_of_nil.
Qed.

Lemma sidecars_near out : Forall (near out) (with_sidecars out).
Proof. apply near_sidecars. Qed.

Lemma sidecars_apart out k : k = kManifestName \/ sst_name k -> k <> out -> k ∉ with_sidecars out.
Proof.
  intros Hk Hne. pose proof (side_names_apart out k Hk) as Hs. unfold side_names, with_sidecars in *. rewrite !not_elem_of_cons in *.
  destruct Hs as (_ & _ & _ & H1 & H2 & _). split; [exact Hne|]. split; [exact H1|]. split; [exact H2|apply not_elem_of_nil].
Qed.

(** A failed publication removes the output and changes nothing else that is read. *)
Lemma publishCompaction_err io inputs out d m d' : sst_name out -> pi_final_dir io = true -> publishCompaction io inputs out d = (Err m, d') ->
  frame out d d' /\ st_fs d' !! out = None /\ forall k, k = kManifestName \/ sst_name k -> k <> out -> st_fs d' !! k = st_fs d !! k.
Proof.
  intros Hout Hfd. pose proof (sidecars_near out) as Hnear.
  assert (Hdrop : forall d1, frame out d d1 -> (forall k, k <> kTempName -> st_fs d1 !! k = st_fs d !! k) ->
    let d' := remove_files d1 (with_sidecars out) in
    frame out d d' /\ st_fs d' !! out = None /\ forall k, k = kManifestName \/ sst_name k -> k <> out -> st_fs d' !! k = st_fs d !! k).
  { intros d1 Hf Hk. split; [eapply frame_trans; [exact Hf|apply frame_remove, Hnear]|]. split; [apply remove_in; left|].
    intros k Hkk Hne. rewrite remove_other by (apply sidecars_apart; assumption). apply Hk. intros ->. destruct Hkk as [H|H]; [discriminate H|exact (temp_not_sst H)]. }
  pose proof (Hdrop d (frame_refl out d) ltac:(auto)) as H0. unfold publishCompaction.
  destruct (manifest_load_file (pi_load io) d) as [|c|]; [| |intros [= _ <-]; exact H0];
    (destruct (publishedSsts (pi_load io) true d); [|intros [= _ <-]; exact H0]; destruct (negb _); [intros [= _ <-]; exact H0|]);
    match goal with |- context [publish io ?n ?a d] => pose proof (frame_publish out io n a d) as Hp; destruct (publish io n a d) as [[] d1] eqn:Ep end;
    try discriminate; intros [= _ <-]; apply Hdrop; try exact Hp; intros k Hk; exact (publish_err_files io _ _ _ _ _ Hfd Ep k Hk).
Qed.

(** A publication with success: the inputs were published, and nothing stale is cached. *)
Lemma publishCompaction_done io inputs out c d d' : sst_name out -> pi_load io = load_good -> manifest_load_file load_good d = ManifestLoaded c ->
  tame out (str ".tmp") d -> publishCompaction io inputs out d = (Ok tt, d') -> sst_coherent d' /\ forall n, n ∈ inputs -> n ∈ sstFiles c.
Proof.
  intros Hout Hl Hc Ht. unfold publishCompaction, publishedSsts. rewrite Hl, Hc. destruct (negb (forallb _ inputs)) eqn:Ein; [discriminate|].
  match goal with |- context [publish io ?n ?a d] => pose proof (frame_publish out io n a d) as Hp; destruct (publish io n a d) as [[] d1] end; [|discriminate].
  intros [= <-]. destruct (tame_frame out (str ".tmp") d d1 Ht Hp (tmp_not_target out Hout)) as [Hc1 _]. split.
  - apply (coherent_change d1 _ Hc1); [intros q v Hq; exact Hq|]. intros q v _. apply foldr_delete_lookup.
  - intros n Hn. apply negb_false_iff in Ein. rewrite forallb_forall in Ein.
    exact (proj1 (bool_decide_eq_true _) (Ein n (proj1 (list_elem_of_In _ _) Hn))).
Qed.
(** The names that stay. *)
Definition kept_names (names inputs : list bytes) : list bytes := List.filter (fun n => negb (bool_decide (n ∈ inputs))) names.

Lemma elem_kept names inputs n : n ∈ kept_names names inputs <-> n ∈ names /\ n ∉ inputs.
Proof. unfold kept_names. rewrite list_elem_of_In, filter_In, negb_true_iff, bool_decide_eq_false, <- list_elem_of_In. reflexivity. Qed.

(** The documents that a compaction of [inputs] leaves alone. *)
Definition untouched (s : coll) (names inputs : list bytes) : docset := fun x =>
  on_disk (c_dir s) (kept_names names inputs) x \/ in_memory s x.

Lemma split_docs s names inputs x : (forall n, n ∈ inputs -> n ∈ names) ->
  all_docs s names x <-> on_disk (c_dir s) inputs x \/ untouched s names inputs x.
Proof.
  intros Hsub. unfold all_docs, untouched. split.
  - intros [(n & f & rows & Hn & Hx)|Hx]; [|auto]. destruct (decide (n ∈ inputs)) as [Hi|Hi]; [left|right; left; rename Hi into Hk].
    + exists n, f, rows. auto.
    + exists n, f, rows. split; [apply elem_kept; auto|exact Hx].
  - intros [(n & f & rows & Hn & Hx)|[(n & f & rows & [Hn _]%elem_kept & Hx)|Hx]]; [left; exists n, f, rows; auto|left; exists n, f, rows; auto|auto].
Qed.

(** Without a manifest the directory lists its SSTs: then no input is there. *)
Lemma published_absent d d1 io inputs out d2 : pi_load io = load_good -> manifest_load_file load_good d = ManifestAbsent ->
  (forall n, sst_name n -> st_fs d !! n = None) -> st_fs d1 !! kManifestName = st_fs d !! kManifestName ->
  (forall k, k = kManifestName \/ sst_name k -> k <> out -> st_fs d1 !! k = st_fs d !! k) -> inputs <> [] -> out ∉ inputs ->
  publishCompaction io inputs out d1 = (Ok tt, d2) -> False.
Proof.
  intros Hl Ha Hnone Hman Hk Hne Hout. assert (Hx : manifest_load_file load_good d1 = ManifestAbsent).
  { revert Ha. unfold manifest_load_file. cbn [load_good lo_exists lo_size lo_open negb]. rewrite Hman. destruct (st_fs d !! kManifestName); [|auto].
    destruct (_ || _ || _); [discriminate|]. destruct (json_parse _); [|discriminate]. destruct (manifest_of_json _); [|discriminate].
    destruct (validateManifest _ _ _); discriminate. }
  unfold publishCompaction. rewrite Hl. unfold publishedSsts. rewrite Hx. destruct inputs as [|i inputs]; [contradiction|].
  destruct (List.find _ _); [discriminate|]. destruct (negb (forallb _ (i :: inputs))) eqn:E; [discriminate|]. intros _. apply negb_false_iff in E. cbn [forallb] in E.
  apply andb_true_iff in E as [E%bool_decide_eq_true _]. rewrite merge_sort_Permutation in E. apply list_elem_of_In, filter_In in E as [Hin Hs%bytes_eqb_eq].
  apply list_elem_of_In, list_elem_of_fmap in Hin as ([k f] & -> & Hf%elem_of_map_to_list). cbn in *.
  rewrite not_elem_of_cons in Hout. rewrite Hk, Hnone in Hf by (auto; apply not_eq_sym, Hout). discriminate.
Qed.

(** What the third phase relies on. *)
Record publish_ready (io : compact_io) (p : compaction) (s : coll) : Prop := {
  pr_some : cx_inputs p <> [];
  pr_apart : cx_out p ∉ cx_inputs p;
  pr_name : sst_name (cx_out p);
  pr_fresh : st_fs (c_dir s) !! cx_out p = None;
  pr_tame : tame (cx_out p) (str ".tmp") (c_dir s);
  pr_load : pi_load (cp_publish io) = load_good;
  pr_synced : pi_final_dir (cp_publish io) = true;
  pr_storable : forall c, manifest_load_file load_good (c_dir s) = ManifestLoaded c -> 0 <= coveredWalLsn c /\
    let next := next_manifest (ManifestLoaded c) 0 (unique_sorted (kept_names (sstFiles c) (cx_inputs p) ++ [cx_out p])) in
    storable ok (mkManifest kFormatVersion (generation next) (coveredWalLsn next) (merge_sort bytes_le (sstFiles next))) }.

(** The directory after a published compaction. *)
Lemma compacted_docs s names inputs out rows d m f : files_ok (c_dir s) names ->
  (forall n, n ∈ sstFiles m <-> (n ∈ names /\ n ∉ inputs) \/ n = out) ->
  (forall n, n ∈ sstFiles m -> n <> out -> st_fs d !! n = st_fs (c_dir s) !! n) -> out ∉ names ->
  st_fs d !! out = Some f -> sst_holds f rows -> Forall (fun r => canon r = r) rows ->
  files_ok d (sstFiles m) /\ forall x, all_docs (with_dir s d) (sstFiles m) x <-> untouched s names inputs x \/ x ∈ rows.
Proof.
  intros Hf Hn Hsame Hout Ho Hh Hcn. split.
  - intros k Hk. destruct (decide (k = out)) as [->|Hne]; [eauto|]. rewrite Hsame by assumption.
    apply Hn in Hk as [[Hk _]|]; [apply Hf, Hk|contradiction].
  - intros x. unfold all_docs, untouched. cbn [c_dir with_dir]. change (in_memory (with_dir s d) x) with (in_memory s x). split.
    + intros [(k & g & r & Hk & Hg & Hr & Hx)|Hx]; [|auto]. destruct (decide (k = out)) as [->|Hne].
      * right. rewrite Ho in Hg. injection Hg as <-. rewrite (sst_holds_unique f rows r Hh Hr). exact Hx.
      * left. left. exists k, g, r. rewrite <- (Hsame k Hk Hne). apply Hn in Hk as [Hk|]; [|contradiction]. split; [apply elem_kept, Hk|auto].
    + intros [[(k & g & r & Hk%elem_kept & Hg & Hx)|Hx]|Hx]; [left; exists k, g, r|auto|left; exists out, f, rows; split; [apply Hn; auto|auto]].
      assert (Hm : k ∈ sstFiles m) by (apply Hn; auto). rewrite (Hsame k Hm); [auto|]. intros ->. tauto.
Qed.

Lemma compact_publish_reads e io p s names spec full rows : reads_as e s names spec -> publish_ready io p s ->
  (exists f, st_fs (c_dir s) !! cx_tmp p = Some f /\ sst_holds f rows) -> Forall (fun r => canon r = r) rows ->
  ((forall n, n ∈ cx_inputs p -> n ∈ names) -> compacts full (on_disk (c_dir s) (cx_inputs p)) rows) ->
  (full = true -> forall k t, untouched s names (cx_inputs p) k -> on_disk (c_dir s) (cx_inputs p) t -> doc_id k = doc_id t ->
    version_le (ver t) (ver k) = true) ->
  let '(published, s') := compact_publish io p s in
  exists names' spec', reads_as e s' names' spec' /\ undeleted spec' = undeleted spec /\
    (published = true -> forall n, n ∈ names' <-> (n ∈ names /\ n ∉ cx_inputs p) \/ n = cx_out p).
Proof.
  intros H [Psome Papart Pname Pfresh Ptame Pload Psync Pst] (f & Hf & Hh) Hcn Hcomp Hfull. pose proof H as [Hc Hl Hok [Hs1 Hs2] Hcs Hv Hrep].
  destruct p as [inputs out]. unfold compact_publish, cx_tmp in *. cbn [cx_inputs cx_out] in *.
  pose proof (frame_finalize_compaction (cp_finalize io) out (c_dir s)) as Hfr.
  pose proof (finalize_compaction_files (cp_finalize io) out (c_dir s) Pname) as Hfin.
  destruct (finalize_compaction (cp_finalize io) (out ++ str ".tmp") out (c_dir s)) as [good d1]. cbn [snd] in Hfr. destruct Hfin as [Hk1 Ho1].
  pose proof (tame_frame out (str ".tmp") _ d1 Ptame Hfr (tmp_not_target out Pname)) as Ht1.
  assert (Hsame : forall d, (forall k, k = kManifestName \/ sst_name k -> k <> out -> st_fs d !! k = st_fs (c_dir s) !! k) ->
    st_fs d !! out = None -> sst_coherent d -> exists names' spec', reads_as e (with_dir s d) names' spec' /\ undeleted spec' = undeleted spec /\
    (false = true -> forall n, n ∈ names' <-> (n ∈ names /\ n ∉ inputs) \/ n = out)).
  { intros d Hd Hnone Hcd. exists names, spec. split; [|split; [reflexivity|discriminate]]. apply reads_same; [exact H|exact Hcd|]. split.
    - apply Hd; [auto|]. intros E. rewrite <- E in Pname. exact (manifest_not_sst Pname).
    - intros n Hn. destruct (decide (n = out)) as [->|Hne]; [congruence|apply Hd; auto]. }
  destruct good; [|apply Hsame; [exact Hk1|congruence|apply Ht1]].
  destruct (publishCompaction (cp_publish io) inputs out d1) as [[[]|m] d2] eqn:Ep.
  2:{ destruct (publishCompaction_err _ _ _ _ _ _ Pname Psync Ep) as (Hfr2 & Hnone & Hk2). apply Hsame; [|exact Hnone|].
      - intros k Hk Hne. rewrite Hk2, Hk1 by assumption. reflexivity.
      - apply (tame_frame out (str ".tmp") _ d2 Ht1 Hfr2 (tmp_not_target out Pname)). }
  assert (Hout : out ∉ names) by (intros Hin; destruct (listed_names _ _ Hl out Hin) as [_ [g Hg]]; congruence).
  assert (Hman : exists c, manifest_load_file load_good (c_dir s) = ManifestLoaded c /\ names = sstFiles c /\ manifest_load_file load_good d1 = ManifestLoaded c).
  { unfold listed in Hl. destruct (manifest_load_file load_good (c_dir s)) as [|c|] eqn:Em; [|subst names|contradiction].
    - exfalso. apply (published_absent (c_dir s) d1 (cp_publish io) inputs out d2); auto; [apply Hl|].
      apply Hk1; [auto|]. intros E. rewrite <- E in Pname. exact (manifest_not_sst Pname).
    - exists c. split; [reflexivity|]. split; [reflexivity|]. apply (load_named (c_dir s)); [exact Em|apply Hk1; [auto|]|].
      + intros E. rewrite <- E in Pname. exact (manifest_not_sst Pname).
      + intros n Hn. pose proof (loaded_names _ c Em) as Hff. rewrite Forall_forall in Hff. apply Hk1; [right; apply Hff, Hn|congruence]. }
  destruct Hman as (c & Em & -> & Em1). destruct (publishCompaction_done _ _ _ c d1 d2 Pname Pload Em1 Ht1 Ep) as [Hc2 Hin].
  destruct (Pst c Em) as [Hcov Hst].
  destruct (compaction_replaces_inputs ok (cp_publish io) inputs out c d1 d2 Pload Em1 Papart Hcov Hst Ep) as (m & Hm & _ & Hnames & Hold).
  assert (Hfile : forall n, n ∈ sstFiles m -> n <> out -> st_fs d2 !! n = st_fs (c_dir s) !! n).
  { intros n Hn Hne. rewrite (Hold n Hn). apply Hk1; [right|exact Hne]. pose proof (loaded_names _ m Hm) as Hff. rewrite Forall_forall in Hff. apply Hff, Hn. }
  assert (Ho2 : st_fs d2 !! out = Some f) by (rewrite Hold by (apply Hnames; auto); congruence).
  destruct (compacted_docs s (sstFiles c) inputs out rows d2 m f Hok Hnames Hfile Hout Ho2 Hh Hcn) as [Hok' Hdocs].
  pose proof (Hcomp Hin) as Hcm.
  assert (Hsub : forall x, all_docs (with_dir s d2) (sstFiles m) x -> all_docs s (sstFiles c) x).
  { intros x Hx%Hdocs. apply (split_docs s (sstFiles c) inputs x Hin). destruct Hx as [Hx|Hx]; [auto|left; apply (cm_from _ _ _ Hcm x Hx)]. }
  destruct (files_ok_holds _ _ Hok') as (rowss & _ & _ & Hrows). destruct (memory_list s) as [l Hmem].
  destruct (represents_list (all_docs (with_dir s d2) (sstFiles m)) (concat rowss ++ l)) as [spec' Hrep'].
  { intros x. unfold all_docs. cbn [c_dir with_dir]. rewrite elem_of_app, Hrows, Hmem. reflexivity. }
  { intros x Hx. apply (cs_versioned _ Hcs x (Hsub x Hx)). }
  exists (sstFiles m), spec'. split; [|split; [|intros _; exact Hnames]].
  - split; cbn [c_dir with_dir memtable immutables]; auto; [unfold listed; rewrite Hm; reflexivity|eapply consistent_sub; [exact Hcs|exact Hsub]].
  - eapply (compacts_live full _ _ (untouched s (sstFiles c) inputs) rows); [|exact Hcs|exact Hcm|exact Hfull|exact Hrep|].
    + intros x. apply split_docs, Hin.
    + eapply represents_ext; [exact Hdocs|exact Hrep'].
Qed.
(** ** The whole compaction *)

(** What may happen between the phases, from [s1] to [s2]: the files of the
    compaction stay, and when all SSTs of [names] are being merged, documents
    elsewhere are newer than those in the inputs. *)
Record undisturbed (s1 s2 : coll) (names names2 : list bytes) (p : compaction) : Prop := {
  ud_tmp : st_fs (c_dir s2) !! cx_tmp p = st_fs (c_dir s1) !! cx_tmp p;
  ud_inputs : forall n, n ∈ cx_inputs p -> n ∈ names2 -> st_fs (c_dir s2) !! n = st_fs (c_dir s1) !! n;
  ud_newer : (forall n, n ∈ names -> n ∈ cx_inputs p) -> forall k t, untouched s2 names2 (cx_inputs p) k ->
    on_disk (c_dir s2) (cx_inputs p) t -> doc_id k = doc_id t -> version_le (ver t) (ver k) = true }.

Lemma compacts_ext full (D D' : docset) rows : (forall x, D x <-> D' x) -> compacts full D rows -> compacts full D' rows.
Proof.
  intros H [H1 H2 H3]. split; [intros r Hr; apply H, H1, Hr|intros r x Hr Hx; apply H2, H, Hx; exact Hr|].
  intros x Hx. destruct (H3 x (proj2 (H x) Hx)) as (y & Hy & Hrest). exists y. split; [apply H, Hy|exact Hrest].
Qed.

Lemma on_disk_ext d d' names x : (forall n, n ∈ names -> st_fs d' !! n = st_fs d !! n) -> on_disk d names x <-> on_disk d' names x.
Proof.
  intros H. split; intros (n & f & rows & Hn & Hf & Hx); exists n, f, rows; (split; [exact Hn|]); [rewrite (H n Hn)|rewrite <- (H n Hn)]; auto.
Qed.

Lemma compact_phases e io inputs total s names spec : reads_as e s names spec -> merge_ready e io s names inputs ->
  let '(r, s1) := compact_merge sstBlockBytes e io inputs total s in
  reads_as e s1 names spec /\
  forall p s2 names2 spec2, r = Ok p -> reads_as e s2 names2 spec2 -> undisturbed s1 s2 names names2 p -> publish_ready io p s2 ->
  let '(published, s3) := compact_publish io p s2 in
  exists names3 spec3, reads_as e s3 names3 spec3 /\ undeleted spec3 = undeleted spec2 /\
    (published = true -> forall n, n ∈ names3 <-> (n ∈ names2 /\ n ∉ inputs) \/ n = cp_name io).
Proof.
  intros H Hr. pose proof (compact_merge_file e io inputs total s names spec H Hr) as Hm.
  destruct (compact_merge sstBlockBytes e io inputs total s) as [r s1]. destruct Hm as (d1 & -> & [Hc1 Ht1] & Hsame & Hp).
  split; [apply reads_same; assumption|]. intros p s2 names2 spec2 Er H2 [Ut Ui Un] Hpr.
  destruct (Hp p Er) as (-> & full & rows & [(f & Hf & Hh) Hcn Hcm Hfull]). unfold cx_tmp in *. cbn [cx_inputs cx_out c_dir with_dir] in *.
  pose proof (compact_publish_reads e io (mkCompaction inputs (cp_name io)) s2 names2 spec2 full rows H2 Hpr) as Hpub.
  destruct (compact_publish io (mkCompaction inputs (cp_name io)) s2) as [published s3]. apply Hpub.
  - exists f. split; [exact (eq_trans Ut Hf)|exact Hh].
  - exact Hcn.
  - intros Hin. eapply compacts_ext; [|exact Hcm]. intros x. apply on_disk_ext. intros n Hn. rewrite (Ui n Hn (Hin n Hn)).
    apply (proj2 Hsame). apply (listed_names _ _ (ra_listed _ _ _ _ H) n (mr_inputs _ _ _ _ _ Hr n Hn)).
  - intros Hf'. apply Un, Hfull, Hf'.
Qed.


End Compacted.

(** ** Compactions of a sample collection *)

#[local] Existing Instance nibble_text.
#[local] Existing Instance nibble_line_text.
#[local] Existing Instance rle_lz4.
#[local] Existing Instance rle_lz4_correct.

Definition pairs : compact_config := mkCompactConfig (Some 2) None None.

Definition compact_good (name : string) : compact_io :=
  mkCompactIo true true load_good true (fun _ => true) (Some 0) (fun _ => 1700000000) (str name) sst_io_good (mkBloomIo None true true true true 5)
    finalize_good publish_good.

Definition sample_inputs : list bytes := [str "1.sst"; str "2.sst"].

(** After the crash the collection has two SSTs; they are merged, without the
    tombstone, and removed. *)
Example sample_compaction :
  (fst <$> match compact_select pairs (compact_good "3.sst") life7 with Ok x => Some x | Err _ => None end) = Some sample_inputs /\
  let '(r, s) := compact pairs 4096 env_single (compact_good "3.sst") life7 in
  r = Ok true /\ (getAll env_single load_good true true s).1 = Ok [stored_form (doc_v "a" 2)] /\
  (scanSstRows (c_dir s) (str "3.sst") collect_row []).1 = Ok [stored_form (doc_v "a" 2)] /\
  forallb (fun n => negb (exists_file (c_dir s) n)) (flat_map with_sidecars sample_inputs) = true.
Proof. vm_compute. repeat split. Qed.

(** ** The witness *)

Lemma life7_reads : exists names, publishedSsts load_good true (c_dir life7) = Ok names /\ reads_as env_single life7 names spec6.
Proof.
  destruct (run_sound stable sample_config no_check 100 4096 (str "u") (str "d") (str "c") env_single
    ltac:(repeat split; discriminate) eq_refl (mkRun fresh_coll ∅ 0) (mkRun life7 spec6 4))
    as (names & recs & last & seg & cov & _ & _ & Hd).
  - etransitivity; [exact sample_run_writes|]. eapply rtc_l; [exact sample_flush|]. eapply rtc_l; [exact sample_rewrite|].
    eapply rtc_l; [exact sample_delete|]. apply rtc_once. exact sample_recovery.
  - exact (fresh_sound sample_config no_check (str "u") (str "d") (str "c") env_single eq_refl).
  - pose proof Hd as [[Hls _ _ _ _ _ _ _ _] _ _ _ _ _ _]. exists names. split; [apply listed_published, Hls|]. eapply durable_reads, Hd.
Qed.

(** The rows of the files of a directory, by scanning them. *)
Lemma on_disk_scan d names (P : json -> Prop) : sst_coherent d ->
  Forall (fun n => match (scanSstRows d n collect_row []).1 with Ok rows => Forall P rows | Err _ => True end) names ->
  forall x, on_disk d names x -> P x.
Proof.
  intros Hc H x (n & f & rows & Hn & Hf & Hh & Hx). rewrite Forall_forall in H. specialize (H n Hn).
  rewrite (proj1 (Hh d n Hc Hf _ collect_row [])) in H. assert (Hv : forall l acc, (visit_all collect_row l acc).1 = acc ++ l).
  { induction l as [|r l IH]; intros acc; cbn; [rewrite app_nil_r; reflexivity|]. rewrite IH, <- app_assoc. reflexivity. }
  rewrite Hv in H. rewrite Forall_forall in H. exact (H x Hx).
Qed.

Definition limits_hold (io : compact_io) (s : coll) (inputs : list bytes) : bool :=
  match compact_inputs env_single 0 io (c_dir s) inputs (0%nat, Ok ∅) with
  | (Ok (_, Ok m), d) =>
      forallb (fun full => match writeSst (cp_sst io) d (cp_name io ++ str ".tmp") (compact_rows full m) 4096 with
                           | (Ok stats, _) => (ws_blocks stats <=? kMaxBlocks) && (ws_stored stats <? 2 ^ 63)
                           | _ => true
                           end) [true; false]
  | _ => true
  end.

Lemma sample_rows_fit : Forall (fun x => json_wf x /\ key_fits (rowId x))
  [canon (stored_form (doc_v "a" 1)); canon (stored_form (doc_v "a" 2)); canon sample_tombstone].
Proof. repeat apply Forall_cons_2; [..|apply Forall_nil_2]; (split; [wf_now|wf_now]). Qed.

Lemma sample_merge_ready : sst_coherent (c_dir life7) -> merge_ready 4096 env_single (compact_good "3.sst") life7 sample_inputs sample_inputs.
Proof.
  intros Hc. split; [reflexivity|reflexivity|reflexivity|auto|..].
  - apply (bool_decide_unpack _). vm_compute. exact I.
  - intros n Hn. unfold sample_inputs in Hn. rewrite !elem_of_cons in Hn. destruct Hn as [->|[->|Hn]]; [reflexivity..|inversion Hn].
  - intros q Hq. destruct (g_sstCache (c_dir life7) !! q) as [v|] eqn:E; [|reflexivity]. exfalso.
    assert (Hk : q ∈ (map_to_list (g_sstCache (c_dir life7))).*1) by (apply list_elem_of_fmap; exists (q, v); split; [reflexivity|apply elem_of_map_to_list, E]).
    assert (Ek : (map_to_list (g_sstCache (c_dir life7))).*1 = [str "2.sst.writing"]) by (vm_compute; reflexivity).
    rewrite Ek in Hk. apply list_elem_of_singleton in Hk as ->. destruct Hq as [Hq|[Hq|Hq]]; discriminate Hq.
  - assert (E1 : (scanSstRows (c_dir life7) (str "1.sst") collect_row []).1 = Ok [canon (stored_form (doc_v "a" 1))]) by (vm_compute; reflexivity).
    assert (E2 : (scanSstRows (c_dir life7) (str "2.sst") collect_row []).1 = Ok [canon (stored_form (doc_v "a" 2)); canon sample_tombstone]) by (vm_compute; reflexivity).
    apply (on_disk_scan (c_dir life7) sample_inputs (fun x => json_wf x /\ key_fits (rowId x)) Hc).
    apply Forall_cons_2; [rewrite E1|apply Forall_cons_2; [rewrite E2|apply Forall_nil_2]]; pose proof sample_rows_fit as Hr; rewrite !Forall_cons in Hr; destruct Hr as (R1 & R2 & R3 & _);
      repeat apply Forall_cons_2; try apply Forall_nil_2; assumption.
  - intros n m d full stats d' Em Ew. assert (Hl : limits_hold (compact_good "3.sst") life7 sample_inputs = true) by (vm_compute; reflexivity).
    unfold limits_hold in Hl. change (re_commitIndex env_single) with 0 in Em. rewrite Em in Hl. cbn [forallb] in Hl. rewrite !andb_true_iff in Hl.
    destruct Hl as (Ht & Hf & _). destruct full; [rewrite Ew in Ht; rename Ht into Hx|rewrite Ew in Hf; rename Hf into Hx];
      apply andb_true_iff in Hx as [H1%Z.leb_le H2%Z.ltb_lt]; auto.
Qed.

Definition sample_merge : result compaction * coll := compact_merge 4096 env_single (compact_good "3.sst") sample_inputs 1 life7.
Definition sample_plan : compaction := mkCompaction sample_inputs (str "3.sst").

Lemma sample_publish_ready : tame (str "3.sst") (str ".tmp") (c_dir sample_merge.2) -> publish_ready stable (compact_good "3.sst") sample_plan sample_merge.2.
Proof.
  intros Ht. split; [discriminate|apply (bool_decide_unpack _); vm_compute; exact I|vm_compute; reflexivity|vm_compute; reflexivity|exact Ht|reflexivity|reflexivity|].
  intros c Hc. assert (Em : manifest_load_file load_good (c_dir sample_merge.2) = ManifestLoaded (mkManifest 1 2 4 sample_inputs)) by (vm_compute; reflexivity).
  rewrite Em in Hc. injection Hc as <-. clear Em Ht. split; [cbn; lia|]. cbv zeta.
  match goal with |- storable _ ?m => replace m with (mkManifest 1 3 4 [str "3.sst"]) by (vm_compute; reflexivity) end. storable_now.
Qed.


(** ** Rows that a compaction drops *)

(** A collection with one row in each of two SSTs. *)
Definition two_rows (a b : json) : coll :=
  let d := (writeSst sst_io_good (writeSst sst_io_good empty_store (str "1.sst") [a] 4096).2 (str "2.sst") [b] 4096).2 in
  with_dir fresh_coll (publish publish_good (mkManifest 1 1 0 sample_inputs) [mkArtifact true (str "1.sst"); mkArtifact true (str "2.sst")] d).2.

Definition compact_at (c : Z) : compact_io :=
  mkCompactIo true true load_good true (fun _ => true) (Some c) (fun _ => 1700000000) (str "3.sst") sst_io_good (mkBloomIo None true true true true 5)
    finalize_good publish_good.

(** A follower whose commit index is [c]. *)
Definition env_follower (c : Z) : raft_env := mkRaftEnv true false 2 c None None.
Definition row_at (id : string) (c : Z) : json :=
  JObject (json_object [(str "id", JString (str id)); (str "version", JUInt 1); (str "_raft_commit_index", JUInt c)]).

(** A row of entry 9 is in an SST while entry 5 is the last committed one: the
    compaction drops it, and it is missing when entry 9 is committed. *)
Example compaction_drops_pending_rows :
  let s := two_rows (row_at "a" 3) (row_at "b" 9) in
  let s' := (compact pairs 4096 (env_follower 5) (compact_at 5) s).2 in
  (getAll (env_follower 9) load_good true true s).1 = Ok [row_at "b" 9; row_at "a" 3] /\
  (getAll (env_follower 9) load_good true true s').1 = Ok [row_at "a" 3].
Proof. split; vm_compute; reflexivity. Qed.

(** A document without an id is accepted by [put], but the SST of its memtable does
    not verify: the flush fails, and with it every document of the memtable stays
    out of the files. *)
Example document_without_id_blocks_flush :
  let '(r, s) := flush sample_config 4096 (flush_good "1.sst") false (sample_put "a" 1 (put_no_id 1 fresh_coll)) in
  r = Err "cannot publish LSM flush checkpoint: " /\ exists_file (c_dir s) (str "1.sst") = false /\
  (scanSstRows (c_dir s) (str "1.sst.writing") collect_row []).1 = Err "cannot open legacy SST".
Proof. vm_compute. repeat split. Qed.
