(* ===== verification/PointRead.v ===== *)
(** * Point reads (lsm.cpp, [findByField] on the id)

    A read by id looks at the cache of ids, unless the read is a strong one, then at
    the memtable, the newest memtable being flushed that has the id, and every
    published SST whose bloom filter does not exclude it, and takes the newest
    visible version.  SSTs are those of the binary format; the shadow comparison of
    strong reads, the publication into the cache and metrics are left out. *)

From S2P Require Import Prelude FileSys Json JsonValue Msgpack RowView Checksum Store Sst SstCursor SstQuery Bloom WalIntegrity Wal.
From S2P Require Import WalLog WalRecovery WalEntries WalReclaim WalScan LsmManifest LsmProgress LsmDoc LsmCollection LsmLatest LsmCanon LsmReads LsmFlush LsmDurability LsmCrash.
From stdpp Require Import base list gmap sorting strings relations.
From Stdlib Require Import ZArith Lia.

Open Scope Z_scope.

Definition visibility_fields : list bytes :=
  [str "_visibility_state"; str "visibility_state"; str "committed"; str "_raft_commit_index"; str "commit_index"; str "_visibility_floor"].

(** Whether a row is visible, from the fields this depends on.  A row that cannot be
    projected is passed on to the decoder, which refuses it. *)
Definition row_visible (e : raft_env) (c : Z) (row : MsgpackRowView) : bool :=
  match project row visibility_fields with
  | Ok j => docVisibleByCommitIndex e j c
  | Err _ => true
  end.

Section PointRead.
Context `{JT : JsonText} `{LZ : Lz4}.

(** [LSM::mayExistInSST] on a binary SST. *)
Definition mayExistInSST (d : store) (sst : path) (key : bytes) : bool * store :=
  let '(r, d) := bloomMayContain d sst key in (default true r, d).

(** [seekDocInSSTById] on a binary SST. *)
Definition seekDocInSSTById (e : raft_env) (c : Z) (d : store) (sst : path) (id : bytes) : result (option json) * store :=
  let '(may, d) := mayExistInSST d sst id in
  if may then
    match findInSst d sst id (row_visible e c) with
    | (Err _, d) => (Err "cannot read binary SST: ", d)
    | (Ok found, d) => (Ok found, d)
    end
  else (Ok None, d).

(** The newer of two versions that were found; the first wins when it is strictly newer. *)
Definition newer_found (found latest : option json) : option json :=
  match found, latest with
  | Some f, Some l => if isCandidateNewer f l then Some f else Some l
  | Some f, None => Some f
  | None, _ => latest
  end.

Definition visible_doc (e : raft_env) (c : Z) (o : option json) : option json :=
  match o with Some d => if docVisibleByCommitIndex e d c then Some d else None | None => None end.

(** The first table, newest first, that has the id. *)
Fixpoint first_table (id : bytes) (ts : list (nat * Memtable)) : option json :=
  match ts with
  | [] => None
  | t :: rest => match t.2 !! id with Some d => Some d | None => first_table id rest end
  end.

Definition memoryFound (e : raft_env) (c : Z) (s : coll) (id : bytes) : option json :=
  newer_found (visible_doc e c (first_table id (immutables s))) (visible_doc e c (memtable s !! id)).

Fixpoint seek_files (e : raft_env) (c : Z) (d : store) (names : list bytes) (id : bytes) (latest : option json) : result (option json) * store :=
  match names with
  | [] => (Ok latest, d)
  | n :: rest =>
      match seekDocInSSTById e c d n id with
      | (Err m, d) => (Err m, d)
      | (Ok found, d) => seek_files e c d rest id (newer_found (visible_doc e c found) latest)
      end
  end.

(** The layers below the cache. *)
Definition find_layers (e : raft_env) (io : load_io) (listed exists_dir : bool) (s : coll) (id : bytes) : result (option json) * coll :=
  let c := re_commitIndex e in
  let inMemory := memoryFound e c s id in
  let finish latest := match newer_found inMemory latest with
                       | Some d => if isDeletedDoc d then None else Some d
                       | None => None
                       end in
  if exists_dir then
    match publishedSsts io listed (c_dir s) with
    | Err _ => (Err "cannot load published SST set for ", s)
    | Ok names =>
        match seek_files e c (c_dir s) names id None with
        | (Err m, d) => (Err m, with_dir s d)
        | (Ok latest, d) => (Ok (finish latest), with_dir s d)
        end
    end
  else (Ok (finish None), s).

(** [findByField] with the field [id]; [cached] is what [lookupIdIndex] returns. *)
Definition findById (e : raft_env) (io : load_io) (listed exists_dir strong : bool) (cached : option json) (s : coll) (id : bytes)
  : result (option json) * coll :=
  match (if strong then None else visible_doc e (re_commitIndex e) cached) with
  | Some d => (Ok (if isDeletedDoc d then None else Some d), s)
  | None => find_layers e io listed exists_dir s id
  end.

(** ** One SST *)

(** The filter of a file, when there is a valid one, passes the ids of [rows]. *)
Definition bloom_covers (bl : option file) (rows : list json) : Prop :=
  match bl with
  | None => True
  | Some f => forall v x id, parseBloom f = Some v -> x ∈ rows -> doc_id x = Some id -> probes v id 0 (Z.to_nat (hashes v)) = true
  end.

(** Looking up an id in a file with this sidecar gives the newest visible of [rows];
    the files stay and the caches stay coherent. *)
Definition seekable (f : file) (bl : option file) (rows : list json) : Prop :=
  forall d n e c id, sst_coherent d -> bloom_coherent d -> st_fs d !! n = Some f -> st_fs d !! bloom_path n = bl -> id <> [] ->
  exists found, (seekDocInSSTById e c d n id).1 = Ok found /\
    newest_of (fun x => x ∈ rows /\ docVisibleByCommitIndex e x c = true) id found /\
    st_fs (seekDocInSSTById e c d n id).2 = st_fs d /\
    sst_coherent (seekDocInSSTById e c d n id).2 /\ bloom_coherent (seekDocInSSTById e c d n id).2.

Lemma mayExist_covers d n f rows bl key : bloom_coherent d -> sst_coherent d -> st_fs d !! n = Some f -> st_fs d !! bloom_path n = bl -> bloom_covers bl rows ->
  let '(may, d') := mayExistInSST d n key in
  (may = false -> forall x, x ∈ rows -> doc_id x <> Some key) /\ st_fs d' = st_fs d /\ sst_coherent d' /\ bloom_coherent d'.
Proof.
  intros Hb Hs Hf Hbl Hcov. unfold mayExistInSST. destruct bl as [g|].
  - destruct (bloomMayContain_file d n key g Hb Hbl) as [H1 H2].
    assert (Hd : st_fs (bloomMayContain d n key).2 = st_fs d /\ g_sstCache (bloomMayContain d n key).2 = g_sstCache d).
    { unfold bloomMayContain, mapBloom. rewrite Hbl. destruct (_ <? _); [auto|]. destruct (cached_load _ _ _ _ _ _ _); auto. }
    destruct (bloomMayContain d n key) as [r d']. cbn [fst snd] in *. destruct Hd as [Hd1 Hd2]. split; [|split; [exact Hd1|split; [|exact H2]]].
    + intros Hmay x Hx Hid. subst r. destruct (parseBloom g) as [v|] eqn:Ev; cbn [mbind option_bind] in Hmay; [|discriminate].
      cbn in Hmay. rewrite (Hcov v x key Ev Hx Hid) in Hmay. discriminate.
    + intros q v h Hq. rewrite Hd1, Hd2 in *. apply Hs, Hq.
  - unfold bloomMayContain, mapBloom. rewrite Hbl. cbn. split; [discriminate|auto].
Qed.

(** Visibility depends on its fields only. *)
Lemma visible_ext e c a b : is_object a = is_object b -> (forall n, n ∈ visibility_fields -> documentField a n = documentField b n) ->
  docVisibleByCommitIndex e a c = docVisibleByCommitIndex e b c.
Proof.
  intros Ho Hf. unfold docVisibleByCommitIndex, fieldsVisibleByCommitIndex, fieldsHaveVisibleCommitState, fieldsRowCommitIndex, first_string, first_index.
  rewrite Ho, !Hf; [reflexivity|unfold visibility_fields; set_solver..].
Qed.

Lemma project_fold_field row names n : forall selected,
  obj_find n (fold_left (fun selected name => match field row name with Some value => obj_insert name value selected | None => selected end) names selected) =
  match (if bool_decide (n ∈ names) then field row n else None) with Some v => Some v | None => obj_find n selected end.
Proof.
  induction names as [|k names IH]; intros selected; cbn [fold_left]; [reflexivity|]. rewrite IH. clear IH.
  destruct (decide (n = k)) as [->|Hne].
  - rewrite (bool_decide_eq_true_2 (k ∈ k :: names)) by left. destruct (field row k) as [v|]; [rewrite obj_find_insert_eq|]; case_bool_decide; reflexivity.
  - assert (Hf : obj_find n (match field row k with Some value => obj_insert k value selected | None => selected end) = obj_find n selected)
      by (destruct (field row k); [apply obj_find_insert_ne; congruence|reflexivity]).
    rewrite Hf. assert (Hb : bool_decide (n ∈ k :: names) = bool_decide (n ∈ names)) by (apply bool_decide_ext; rewrite elem_of_cons; tauto).
    rewrite Hb. reflexivity.
Qed.

Lemma row_visible_written e c m : row_ok m ->
  row_visible e c (mkRowView (to_msgpack (JObject m)) true) = docVisibleByCommitIndex e (canon (JObject m)) c.
Proof.
  intros Hm. unfold row_visible, project. rewrite (row_index_written m Hm).
  assert (Hi : rv_indexed (mkRowView (to_msgpack (JObject m)) true) = true) by (unfold mkRowView; destruct (buildFieldIndex _); reflexivity).
  rewrite Hi. cbn [guard_err mbind result_bind].
  apply visible_ext; [rewrite is_object_canon; reflexivity|]. intros n Hn. rewrite field_canon. unfold documentField. cbn [json_find].
  change (obj_find n (fold_left (fun selected name => match field (mkRowView (to_msgpack (JObject m)) true) name with
    Some value => obj_insert name value selected | None => selected end) visibility_fields []) = canon <$> obj_find n m).
  rewrite project_fold_field, bool_decide_eq_true_2 by exact Hn. rewrite field_written by exact Hm. destruct (obj_find n m); reflexivity.
Qed.

Context `{LZC : !Lz4Correct} `{JTL : !JsonTextLaws}.

Lemma findInSst_image d n mt target groups rows id eligible : sst_coherent d -> 0 <= target < 2 ^ 32 -> readable groups ->
  st_fs d !! n = Some (mkFile mt (sst_image target groups)) -> concat groups = rows.*1 -> keyed_rows rows ->
  (findInSst d n id eligible).1 = Ok (fold_left (find_pick id eligible) rows (None, None)).1 /\
  st_fs (findInSst d n id eligible).2 = st_fs d /\ sst_coherent (findInSst d n id eligible).2 /\
  g_bloomCache (findInSst d n id eligible).2 = g_bloomCache d.
Proof.
  intros Hc Ht Hrd Hf Hcat Hk. destruct (loadMetadata_written d n _ target groups Hc Ht Hrd Hf) as (H1 & H2 & H3).
  destruct (split_groups groups rows Hcat) as (kgroups & Hkg & Hkc).
  assert (Hok : kgroups_ok kgroups) by (split; [rewrite Hkg; apply Hrd|rewrite Hkc; exact Hk]).
  assert (Hb : g_bloomCache (loadMetadata d n).2 = g_bloomCache d).
  { unfold loadMetadata. destruct (st_fs d !! n) as [g|]; [|reflexivity]. destruct (_ <? _); [reflexivity|].
    destruct (cached_load _ _ _ _ _ _ _) as [[|] cache]; reflexivity. }
  unfold findInSst. destruct (loadMetadata d n) as [md d2]. cbn [fst snd] in *. subst md. cbn [fst snd].
  split; [|auto]. unfold read_file. rewrite H2, Hf. cbn [fmap option_fmap option_map f_data blocks].
  destruct (sst_image_blocks target groups) as (hd & Hhd & ->).
  replace 64 with (blen hd) by (unfold blen; rewrite Hhd; reflexivity).
  pose proof (find_lower_bound_written id eligible kgroups hd (index_bytes (entries (blen hd) groups)) (None, None) Hok) as Hfind.
  cbv zeta in Hfind. rewrite Hkg, Hkc in Hfind. exact Hfind.
Qed.

(** The id, version and visibility of a stored row. *)
Lemma keyed_row r k : json_wf r -> row_readable r -> row_key r = Some k ->
  doc_id (canon r) = Some k /\ extractDocVersionScore (canon r) = row_version r /\
  forall e c, row_visible e c (mkRowView (to_msgpack r) true) = docVisibleByCommitIndex e (canon r) c.
Proof.
  intros Hwf (m & k' & -> & Hok & Hk' & Hne) Hk. rewrite Hk in Hk'. injection Hk' as <-. split; [|split].
  - unfold doc_id. rewrite canon_find. unfold row_key in Hk. destruct (json_find (str "id") (JObject m)) as [v|]; [|discriminate].
    cbn [fmap option_fmap option_map mbind option_bind] in *. rewrite Hk. destruct k; [contradiction|reflexivity].
  - unfold extractDocVersionScore, row_version. rewrite is_object_canon. cbn [is_object]. apply first_version_ext. intros n. apply field_canon.
  - intros e c. apply row_visible_written, Hok.
Qed.

(** A file written with its keys in order can be searched. *)
Lemma image_seekable mt target groups rows bl : 0 <= target < 2 ^ 32 -> readable groups -> concat groups = rows.*1 -> keyed_rows rows ->
  bloom_covers bl (map canon rows.*1) -> seekable (mkFile mt (sst_image target groups)) bl (map canon rows.*1).
Proof.
  intros Ht Hrd Hcat Hk Hcov d n e c id Hs Hb Hf Hbl Hid. unfold seekDocInSSTById.
  pose proof (mayExist_covers d n _ _ bl id Hb Hs Hf Hbl Hcov) as Hm. destruct (mayExistInSST d n id) as [may d1]. destruct Hm as (Hno & Hfs & Hs1 & Hb1).
  destruct may; [|exists None; cbn [fst snd]; split; [reflexivity|]; split; [intros x [Hx _]; exact (Hno eq_refl x Hx)|auto]].
  rewrite <- Hfs in Hf. destruct (findInSst_image d1 n mt target groups rows id (row_visible e c) Hs1 Ht Hrd Hf Hcat Hk) as (H1 & H2 & H3 & H4).
  destruct (findInSst d1 n id (row_visible e c)) as [r d2]. cbn [fst snd] in *. subst r. cbn [fst snd]. eexists. split; [reflexivity|].
  split; [|split; [congruence|split; [exact H3|]]].
  2:{ intros q v g Hq Hg. rewrite H4 in Hq. rewrite H2 in Hg. exact (Hb1 q v g Hq Hg). }
  destruct Hk as [Hrows _]. rewrite Forall_forall in Hrows.
  assert (Hcand : forall rk, rk ∈ rows -> candidate id (row_visible e c) rk = true <->
    doc_id (canon rk.1) = Some id /\ docVisibleByCommitIndex e (canon rk.1) c = true).
  { intros [r k] Hin. destruct (Hrows _ Hin) as (Hwf & Hr & Hkey). cbn [fst snd] in *. destruct (keyed_row r k Hwf Hr Hkey) as (E1 & _ & E3).
    unfold candidate. cbn [fst snd]. rewrite E1, E3, andb_true_iff, bytes_eqb_eq. split; intros [H5 H6]; split; congruence. }
  assert (Hall : forall x, x ∈ map canon rows.*1 -> exists rk, rk ∈ rows /\ x = canon rk.1).
  { intros x Hx%list_elem_of_In. apply in_map_iff in Hx as (r & <- & Hr%list_elem_of_In). apply list_elem_of_fmap in Hr as (rk & -> & Hin). eauto. }
  pose proof (find_pick_newest id (row_visible e c) rows) as Hn. unfold newest_candidate in Hn.
  destruct (fold_left _ rows (None, None)) as [[j|] v]; cbn [fst snd newest_of] in *.
  - destruct Hn as (l1 & r & k & l2 & -> & Hc & -> & _ & Hl1 & Hl2).
    assert (Hin : (r, k) ∈ l1 ++ (r, k) :: l2) by (apply elem_of_app; right; left).
    destruct (proj1 (Hcand _ Hin) Hc) as [Hrid Hrv]. cbn [fst] in *. split; [split; [|exact Hrv]|split; [exact Hrid|]].
    + apply list_elem_of_In, in_map_iff. exists r. split; [reflexivity|]. apply list_elem_of_In, list_elem_of_fmap. exists (r, k). auto.
    + intros x [Hx Hxv] Hxid. destruct (Hall x Hx) as (rk & Hrk & ->).
      pose proof (proj2 (Hcand rk Hrk) (conj Hxid Hxv)) as Hcx.
      assert (Hv : forall y, y ∈ l1 ++ (r, k) :: l2 -> extractDocVersionScore (canon y.1) = row_version y.1).
      { intros y Hy. destruct (Hrows y Hy) as (Hwf & Hr & Hkey). apply (keyed_row y.1 y.2 Hwf Hr Hkey). }
      pose proof (Hv (r, k) Hin) as Hvr. cbn [fst] in Hvr. rewrite (Hv rk Hrk), Hvr. rewrite Forall_forall in Hl1, Hl2.
      apply elem_of_app in Hrk as [Hrk|Hrk]; [apply (Hl1 rk Hrk Hcx)|]. apply elem_of_cons in Hrk as [->|Hrk]; [apply version_le_refl|].
      apply version_le_total, (Hl2 rk Hrk Hcx).
  - intros x [Hx Hxv] Hxid. destruct (Hall x Hx) as (rk & Hrk & ->). rewrite Forall_forall in Hn.
    pose proof (proj2 (Hcand rk Hrk) (conj Hxid Hxv)) as Hcx. rewrite (Hn rk Hrk) in Hcx. discriminate.
Qed.

(** A sidecar built over the ids of the rows. *)
Lemma bloom_image_covers mt keys rows : Z.of_nat (length keys) < 2 ^ 60 -> (forall x id, x ∈ rows -> doc_id x = Some id -> id ∈ keys) ->
  bloom_covers (Some (mkFile mt (bloom_image keys))) rows.
Proof.
  intros Hn Hin v x id Hv Hx Hid. specialize (Hin x id Hx Hid). rewrite parseBloom_image in Hv by exact Hn. injection Hv as <-. cbn [hashes].
  change (Z.to_nat 7) with 7%nat. destruct (bloom_bits_spec (Z.of_nat (length keys))) as (k & Hk & Hk1 & _); [lia|].
  rewrite probes_all. intros i Hi. rewrite probe_bit_at. cbn [words bitCount]. apply (bloom_words_at keys _ Hn); [apply bloom_bit_range; lia|].
  exists id, i. split; [exact Hin|]. split; [lia|reflexivity].
Qed.

(** ** The layers *)

Abbreviation ver d := (extractDocVersionScore d).

Lemma newest_unique (D : docset) id a b : consistent D -> newest_of D id a -> newest_of D id b -> a = b.
Proof.
  intros [_ Hu]. destruct a as [x|], b as [y|]; cbn; try reflexivity.
  - intros (X1 & X2 & X3) (Y1 & Y2 & Y3). f_equal. apply Hu; try congruence. apply version_le_antisym; auto.
  - intros (X1 & X2 & _) H. destruct (H x X1 X2).
  - intros H (Y1 & Y2 & _). destruct (H y Y1 Y2).
Qed.

Lemma newest_ext (D D' : docset) id o : (forall x, D x <-> D' x) -> newest_of D id o -> newest_of D' id o.
Proof.
  intros H. destruct o as [x|]; cbn.
  - intros (H1 & H2 & H3). split; [apply H, H1|]. split; [exact H2|]. intros y Hy. apply H3, H, Hy.
  - intros H1 x Hx. apply H1, H, Hx.
Qed.

Lemma newer_found_newest (D1 D2 : docset) id f l : newest_of D1 id f -> newest_of D2 id l -> newest_of (fun x => D2 x \/ D1 x) id (newer_found f l).
Proof.
  destruct f as [x|], l as [y|]; cbn [newer_found newest_of].
  - intros (X1 & X2 & X3) (Y1 & Y2 & Y3). rewrite isCandidateNewer_le. destruct (version_le (ver y) (ver x)) eqn:E; cbn.
    + split; [auto|]. split; [exact X2|]. intros z [Hz|Hz] Hid; [exact (version_le_trans _ _ _ (Y3 z Hz Hid) E)|auto].
    + split; [auto|]. split; [exact Y2|]. intros z [Hz|Hz] Hid; [auto|]. exact (version_le_trans _ _ _ (X3 z Hz Hid) (version_le_total _ _ E)).
  - intros (X1 & X2 & X3) Hy. split; [auto|]. split; [exact X2|]. intros z [Hz|Hz] Hid; [destruct (Hy z Hz Hid)|auto].
  - intros Hx (Y1 & Y2 & Y3). split; [auto|]. split; [exact Y2|]. intros z [Hz|Hz] Hid; [auto|destruct (Hx z Hz Hid)].
  - intros Hx Hy z [Hz|Hz]; auto.
Qed.

Definition steady_opt (o : option json) : Prop := match o with Some d => steady d | None => True end.

Lemma newer_found_canon f l : steady_opt f -> steady_opt l ->
  canon <$> newer_found f l = newer_found (canon <$> f) (canon <$> l) /\ steady_opt (newer_found f l).
Proof.
  destruct f as [x|], l as [y|]; cbn; auto. intros Hx Hy. rewrite !isCandidateNewer_le, (sd_version _ Hx), (sd_version _ Hy).
  destruct (version_le _ _); auto.
Qed.

(** Newer tables hold newer versions. *)
Fixpoint tables_ordered (ts : list (nat * Memtable)) : Prop :=
  match ts with
  | [] => True
  | t :: rest => (forall u id x y, u ∈ rest -> t.2 !! id = Some x -> u.2 !! id = Some y -> version_le (ver y) (ver x) = true) /\ tables_ordered rest
  end.

(** What a point read relies on besides [reads_as]: rows are stored under their id,
    and every published SST can be searched. *)
Record point_ready (s : coll) (names : list bytes) : Prop := {
  pt_bloom : bloom_coherent (c_dir s);
  pt_files : forall n, n ∈ names -> exists f rows, st_fs (c_dir s) !! n = Some f /\ sst_holds f rows /\ seekable f (st_fs (c_dir s) !! bloom_path n) rows;
  pt_keyed : forall t id x, t = memtable s \/ (exists n, (n, t) ∈ immutables s) -> t !! id = Some x -> doc_id x = Some id;
  pt_ordered : tables_ordered (immutables s) }.

Lemma table_newest (t : Memtable) id : steady_table t -> (forall k x, t !! k = Some x -> doc_id x = Some k) -> newest_of (in_table t) id (canon <$> t !! id).
Proof.
  intros Hs Hk. destruct (t !! id) as [x|] eqn:E; cbn.
  - split; [exists id, x; auto|]. split; [rewrite (sd_id _ (Hs id x E)); apply Hk, E|].
    intros d (k & y & Hy & ->) Hid. rewrite (sd_id _ (Hs k y Hy)), (Hk k y Hy) in Hid. assert (k = id) as -> by congruence. assert (y = x) as -> by congruence. apply version_le_refl.
  - intros d (k & y & Hy & ->) Hid. rewrite (sd_id _ (Hs k y Hy)), (Hk k y Hy) in Hid. congruence.
Qed.

Lemma first_table_newest ts id : (forall t, t ∈ ts -> steady_table t.2 /\ forall k x, t.2 !! k = Some x -> doc_id x = Some k) -> tables_ordered ts ->
  newest_of (fun d => exists t, t ∈ ts /\ in_table t.2 d) id (canon <$> first_table id ts) /\ steady_opt (first_table id ts).
Proof.
  induction ts as [|t ts IH]; intros Hts Ho; [split; [intros d (t & Ht & _); inversion Ht|exact I]|].
  destruct Ho as [Hnew Ho]. destruct (Hts t ltac:(left)) as [Hs Hk]. pose proof (table_newest t.2 id Hs Hk) as Ht.
  destruct (IH ltac:(intros u Hu; apply Hts; right; exact Hu) Ho) as [IH1 IH2]. cbn [first_table]. destruct (t.2 !! id) as [x|] eqn:E.
  - split; [|apply (Hs id x E)]. cbn in Ht |- *. destruct Ht as (H1 & H2 & H3). split; [exists t; split; [left|exact H1]|]. split; [exact H2|].
    intros d (u & Hu & Hd) Hid. apply elem_of_cons in Hu as [->|Hu]; [auto|]. destruct Hd as (k & y & Hy & ->). destruct (Hts u ltac:(right; exact Hu)) as [Hsu Hku].
    rewrite (sd_id _ (Hsu k y Hy)), (Hku k y Hy) in Hid. assert (k = id) as -> by congruence. rewrite (sd_version _ (Hsu id y Hy)), (sd_version _ (Hs id x E)).
    exact (Hnew u id x y Hu E Hy).
  - split; [|exact IH2]. pose proof (newer_found_newest _ _ id None (canon <$> first_table id ts) Ht IH1) as Hn. cbn [newer_found fmap option_fmap option_map] in Hn.
    eapply newest_ext; [|exact Hn]. intros d. cbn. split.
    + intros [(u & Hu & Hd)|Hd]; [exists u; split; [right; exact Hu|exact Hd]|exists t; split; [left|exact Hd]].
    + intros (u & Hu & Hd). apply elem_of_cons in Hu as [->|Hu]; eauto.
Qed.

Lemma visible_found e c (D : docset) id o : newest_of (fun x => D x /\ docVisibleByCommitIndex e x c = true) id o -> visible_doc e c o = o.
Proof. destruct o as [d|]; [|reflexivity]. intros ([_ Hv] & _). cbn. rewrite Hv. reflexivity. Qed.

Lemma seek_files_newest e c id names : id <> [] -> forall d (D : docset) latest, sst_coherent d -> bloom_coherent d ->
  (forall n, n ∈ names -> exists f rows, st_fs d !! n = Some f /\ sst_holds f rows /\ seekable f (st_fs d !! bloom_path n) rows) ->
  (forall x, on_disk d names x -> docVisibleByCommitIndex e x c = true) -> newest_of D id latest ->
  let '(r, d') := seek_files e c d names id latest in
  exists o, r = Ok o /\ newest_of (fun x => D x \/ on_disk d names x) id o.
Proof.
  intros Hid. induction names as [|n names IH]; intros d D latest Hs Hb Hfiles Hvis Hl; cbn [seek_files].
  - exists latest. split; [reflexivity|]. eapply newest_ext; [|exact Hl]. intros x. split; [auto|]. intros [?|(n & f & rows & Hn & _)]; [auto|]. inversion Hn.
  - destruct (Hfiles n ltac:(left)) as (f & rows & Hf & Hh & Hseek). destruct (Hseek d n e c id Hs Hb Hf eq_refl Hid) as (found & H1 & H2 & H3 & H4 & H5).
    destruct (seekDocInSSTById e c d n id) as [r d1]. cbn [fst snd] in *. subst r.
    assert (Hdisk : forall x, on_disk d (n :: names) x <-> x ∈ rows \/ on_disk d1 names x).
    { intros x. split.
      - intros (k & g & r & Hk & Hg & Hr & Hx). apply elem_of_cons in Hk as [->|Hk].
        + left. rewrite Hf in Hg. injection Hg as <-. rewrite (sst_holds_unique f rows r Hh Hr). exact Hx.
        + right. exists k, g, r. rewrite H3. auto.
      - intros [Hx|(k & g & r & Hk & Hg & Hx)]; [exists n, f, rows; split; [left|auto]|]. rewrite H3 in Hg. exists k, g, r. split; [right; exact Hk|auto]. }
    rewrite (visible_found e c (fun x => x ∈ rows) id found H2).
    assert (Hrows : newest_of (fun x => x ∈ rows) id found).
    { eapply newest_ext; [|exact H2]. intros x. split; [tauto|]. intros Hx. split; [exact Hx|]. apply Hvis, Hdisk. auto. }
    assert (Hf1 : forall k, k ∈ names -> exists f rows, st_fs d1 !! k = Some f /\ sst_holds f rows /\ seekable f (st_fs d1 !! bloom_path k) rows)
      by (intros k Hk; rewrite H3; apply Hfiles; right; exact Hk).
    assert (Hv1 : forall x, on_disk d1 names x -> docVisibleByCommitIndex e x c = true) by (intros x Hx; apply Hvis, Hdisk; auto).
    pose proof (IH d1 _ _ H4 H5 Hf1 Hv1 (newer_found_newest _ _ id found latest Hrows Hl)) as IH1.
    destruct (seek_files e c d1 names id _) as [r d2]. destruct IH1 as (o & -> & Ho).
    + exists o. split; [reflexivity|]. eapply newest_ext; [|exact Ho]. intros x. cbn. rewrite Hdisk. tauto.
Qed.

(** The answer for an id of the collection [spec]. *)
Definition live_at (spec : gmap bytes json) (id : bytes) : option json :=
  match spec !! id with Some d => if isDeletedDoc d then None else Some d | None => None end.

Lemma memory_newest e s names spec id : reads_as e s names spec -> point_ready s names ->
  newest_of (in_memory s) id (canon <$> memoryFound e (re_commitIndex e) s id) /\ steady_opt (memoryFound e (re_commitIndex e) s id).
Proof.
  intros [Hc Hl Hf [Hs1 Hs2] Hcs Hv Hr] [Pb Pf Pk Po]. unfold memoryFound.
  assert (Hts : forall t, t ∈ immutables s -> steady_table t.2 /\ forall k x, t.2 !! k = Some x -> doc_id x = Some k).
  { intros [m t] Ht. split; [exact (Hs2 _ Ht)|]. intros k x Hx. exact (Pk t k x (or_intror (ex_intro _ m Ht)) Hx). }
  destruct (first_table_newest (immutables s) id Hts Po) as [H1 H2].
  pose proof (table_newest (memtable s) id Hs1 ltac:(intros k x Hx; apply (Pk (memtable s) k x); auto)) as H3.
  assert (Hst : steady_opt (memtable s !! id)) by (destruct (memtable s !! id) as [x|] eqn:E; [apply (Hs1 id x E)|exact I]).
  assert (Hvis : forall (D : docset) o, (forall x, D x -> all_docs s names x) -> newest_of D id (canon <$> o) -> steady_opt o -> visible_doc e (re_commitIndex e) o = o).
  { intros D [x|] HD Hn Hx; [|reflexivity]. cbn in *. destruct Hn as (Hn & _). rewrite <- (sd_visible _ Hx), (Hv _ (HD _ Hn)). reflexivity. }
  rewrite (Hvis _ _ ltac:(intros x Hx; right; right; exact Hx) H1 H2), (Hvis _ _ ltac:(intros x Hx; right; left; exact Hx) H3 Hst).
  destruct (newer_found_canon (first_table id (immutables s)) (memtable s !! id) H2 Hst) as [-> Hst']. split; [|exact Hst'].
  eapply newest_ext; [|exact (newer_found_newest _ _ id _ _ H1 H3)]. intros x. unfold in_memory. tauto.
Qed.

End PointRead.

(** ** Reads of a sample collection *)

#[local] Existing Instance nibble_text.
#[local] Existing Instance nibble_line_text.
#[local] Existing Instance rle_lz4.
#[local] Existing Instance rle_lz4_correct.

#[local] Instance nibble_text_laws : JsonTextLaws.
Proof. split. intros v Hv. cbn. rewrite to_msgpack_canon by exact Hv. reflexivity. Qed.

Lemma life6_reads : exists names, publishedSsts load_good true (c_dir life6) = Ok names /\ reads_as env_single life6 names spec6.
Proof.
  destruct (run_sound stable sample_config no_check 100 4096 (str "u") (str "d") (str "c") env_single
    ltac:(repeat split; discriminate) eq_refl (mkRun fresh_coll ∅ 0) (mkRun life6 spec6 4))
    as (names & recs & last & seg & cov & _ & _ & Hd).
  - etransitivity; [exact sample_run_writes|]. eapply rtc_l; [exact sample_flush|]. eapply rtc_l; [exact sample_rewrite|]. apply rtc_once. exact sample_delete.
  - exact (fresh_sound sample_config no_check (str "u") (str "d") (str "c") env_single eq_refl).
  - pose proof Hd as [[Hls _ _ _ _ _ _ _ _] _ _ _ _ _ _]. exists names. split; [apply listed_published, Hls|]. eapply durable_reads, Hd.
Qed.

(** The only SST, of one row. *)
Definition row_a : json := stored_form (doc_v "a" 1).

Lemma row_a_keyed : keyed_rows [(row_a, str "a")].
Proof.
  split; [|repeat constructor]. apply Forall_cons_2; [|apply Forall_nil_2]. cbn [fst snd].
  assert (Hwf : json_wf row_a) by wf_now. split; [exact Hwf|]. split; [|reflexivity].
  eexists _, (str "a"). split; [reflexivity|]. split; [split; [exact Hwf|vm_compute; repeat constructor]|]. split; [reflexivity|discriminate].
Qed.

Lemma row_a_readable : readable [[row_a]].
Proof.
  split; [|split; [|split]].
  - apply Forall_cons_2; [|apply Forall_nil_2]. split; [discriminate|]. split; [apply Forall_cons_2; [|apply Forall_nil_2]|]; vm_compute; try split; try reflexivity; discriminate.
  - apply Forall_cons_2; [wf_now|apply Forall_nil_2].
  - discriminate.
  - vm_compute. reflexivity.
Qed.

Definition sst_a : file := mkFile 7 (sst_image (clamp_target 4096) [[row_a]]).
Definition bloom_a : file := mkFile 5 (bloom_image [str "a"]).

Lemma life6_files : st_fs (c_dir life6) !! str "1.sst" = Some sst_a /\ st_fs (c_dir life6) !! bloom_path (str "1.sst") = Some bloom_a.
Proof. split; vm_compute; reflexivity. Qed.

Lemma sst_a_seekable : sst_holds sst_a [canon row_a] /\ seekable sst_a (Some bloom_a) [canon row_a].
Proof.
  pose proof (clamp_target_range 4096) as Ht. assert (Hwf : json_wf row_a) by wf_now. split.
  - apply (image_holds 7 (clamp_target 4096) [[row_a]] [row_a]); [lia|exact row_a_readable|reflexivity|apply Forall_cons_2; [exact Hwf|apply Forall_nil_2]].
  - apply (image_seekable 7 (clamp_target 4096) [[row_a]] [(row_a, str "a")]); [lia|exact row_a_readable|reflexivity|exact row_a_keyed|].
    apply bloom_image_covers; [cbn; lia|]. intros x id Hx Hid. apply list_elem_of_singleton in Hx as ->.
    assert (E : doc_id (canon row_a) = Some (str "a")) by reflexivity. cbn [fst] in Hid. rewrite E in Hid. injection Hid as <-. left.
Qed.

Lemma life6_point_ready : point_ready life6 [str "1.sst"].
Proof.
  destruct life6_files as [F1 F2]. split.
  - assert (E : g_bloomCache (c_dir life6) = ∅) by (vm_compute; reflexivity). intros q v f Hq. rewrite E, lookup_empty in Hq. discriminate Hq.
  - intros n ->%list_elem_of_singleton. exists sst_a, [canon row_a]. split; [exact F1|]. rewrite F2. apply sst_a_seekable.
  - clear. assert (Hm : map_to_list (memtable life6) = [(str "b", sample_tombstone); (str "a", stored_form (doc_v "a" 2))]) by (vm_compute; reflexivity).
    assert (Hi : immutables life6 = []) by (vm_compute; reflexivity). intros t id x [->|[n Hn]] Hx; [|rewrite Hi in Hn; inversion Hn].
    assert (Hin : (id, x) ∈ map_to_list (memtable life6)) by (apply elem_of_map_to_list, Hx). rewrite Hm in Hin. clear Hm Hi Hx. rename Hin into Hx. rewrite !elem_of_cons in Hx. destruct Hx as [[= -> ->]|[[= -> ->]|Hx]]; [reflexivity|reflexivity|inversion Hx].
  - assert (Hi : immutables life6 = []) by (vm_compute; reflexivity). rewrite Hi. exact I.
Qed.


(** ** Documents without a version *)

Definition doc_n (id : string) (n : Z) : json := JObject (json_object [(str "id", JString (str id)); (str "n", JUInt n)]).
Definition put_n (id : string) (n : Z) (s : coll) : coll :=
  (put sample_config no_check 100 (str "u") (str "d") (str "c") put_good Record_ true (doc_n id n) s).2.

(** While a memtable is being flushed, an update of one of its documents is not
    seen by a read by id: on equal or missing versions the older table wins.
    [getAll], which merges the memtable last, returns the update. *)
Example flushing_table_hides_update :
  let s := put_n "a" 2 (flush_begin (put_n "a" 1 fresh_coll)) in
  (findById env_single load_good true true true None s (str "a")).1 = Ok (Some (stored_form (doc_n "a" 1))) /\
  (getAll env_single load_good true true s).1 = Ok [stored_form (doc_n "a" 2)].
Proof. split; vm_compute; reflexivity. Qed.
