(* ===== verification/QueryLimits.v ===== *)
(** * Request limits and cancellation (query_limiter.cpp, query_cancellation.cpp)

    Every request has a state of its own: its running queries with their start, and
    whether its result was cut.  The state is shared: the worker that executes the
    request is attached to it by a scope, and a task that was handed on holds it too.
    It goes when nobody holds it, and its running queries leave the process-wide count
    then.  Threads, scopes and tasks are explicit; an event is one call of one thread. *)

From stdpp Require Import base list gmap sorting strings.
From Stdlib Require Import ZArith Lia.
From S2P Require Import Prelude Json.

Open Scope Z_scope.

(** ** State *)

Record RequestState := mkRequest { truncated : bool; reason : bytes; active : gmap bytes Z }.

Definition request_new : RequestState := mkRequest false [] ∅.

(** [deadline] is absent when it is the zero of the clock. *)
Record CancellationToken := mkToken { cancelled : bool; deadline : option Z }.

(** What the destructors of the scopes of a thread restore. *)
Inductive scope_frame :=
| LimiterFrame (previous : option nat)
| CancelFrame (previous : option nat).

Record thread := mkThread { currentState : option nat; scopeDepth : nat; tls_token : option nat; frames : list scope_frame }.

Definition thread_new : thread := mkThread None 0 None [].

(** A task made by [bind]. *)
Record bound_task := mkBound { b_state : nat; b_token : option nat }.

Record limits := mkLimits { maxQuerySeconds_ : Z; maxResultSize_ : Z; maxScanRows_ : Z; maxResultDocs_ : Z }.

Record limiter := mkWorld {
  requests : gmap nat RequestState; tokens : gmap nat CancellationToken; threads : gmap nat thread; tasks : gmap nat bound_task;
  activeQueryCount_ : Z; next_ref : nat; limits_ : limits }.

Definition default_limits : limits := mkLimits 30 (100 * 1024 * 1024) 1000000 10000.

Definition world_new : limiter := mkWorld ∅ ∅ ∅ ∅ 0 0 default_limits.

(** ** Configuration *)

(** The environment variables as [atoi] and [atoll] read them. *)
Record limit_env := mkLimitEnv { le_timeout : option Z; le_result_mb : option Z; le_scan : option Z; le_docs : option Z }.

Definition s32 (z : Z) : Z := to_signed 32 (u32 z).

(** [init]; the product of two [int]s wraps. *)
Definition init_limits (env : limit_env) (l : limits) : limits :=
  mkLimits (default (maxQuerySeconds_ l) (le_timeout env))
    (match le_result_mb env with Some mb => u64 (s32 (mb * 1024 * 1024)) | None => maxResultSize_ l end)
    (match le_scan env with Some n => u64 n | None => maxScanRows_ l end)
    (match le_docs env with Some v => if 0 <? v then u64 v else maxResultDocs_ l | None => maxResultDocs_ l end).

(** ** Attachment *)

Definition thread_of (w : limiter) (t : nat) : thread := default thread_new (threads w !! t).

Definition set_thread (w : limiter) (t : nat) (th : thread) : limiter :=
  mkWorld (requests w) (tokens w) (<[t := th]> (threads w)) (tasks w) (activeQueryCount_ w) (next_ref w) (limits_ w).

Definition set_request (w : limiter) (r : nat) (s : RequestState) (count : Z) : limiter :=
  mkWorld (<[r := s]> (requests w)) (tokens w) (threads w) (tasks w) count (next_ref w) (limits_ w).

(** [std::make_shared<RequestState>()]. *)
Definition make_request (w : limiter) : nat * limiter :=
  (next_ref w, mkWorld (<[next_ref w := request_new]> (requests w)) (tokens w) (threads w) (tasks w) (activeQueryCount_ w) (S (next_ref w)) (limits_ w)).

Definition captureState (t : nat) (w : limiter) : nat * limiter :=
  let th := thread_of w t in
  match currentState th with
  | Some r => (r, w)
  | None => let '(r, w) := make_request w in (r, set_thread w t (mkThread (Some r) (scopeDepth th) (tls_token th) (frames th)))
  end.

(** [Scope::Scope]. *)
Definition enter_scope (t : nat) (state : option nat) (w : limiter) : limiter :=
  let th := thread_of w t in
  let '(r, w) := match state with Some r => (r, w) | None => make_request w end in
  set_thread w t (mkThread (Some r) (S (scopeDepth th)) (tls_token th) (LimiterFrame (currentState th) :: frames th)).

(** [QueryCancel::Scope::Scope]. *)
Definition enter_cancel (t : nat) (token : option nat) (w : limiter) : limiter :=
  let th := thread_of w t in
  set_thread w t (mkThread (currentState th) (scopeDepth th) token (CancelFrame (tls_token th) :: frames th)).

(** The destructor of the innermost scope of the thread. *)
Definition leave_scope (t : nat) (w : limiter) : limiter :=
  let th := thread_of w t in
  match frames th with
  | LimiterFrame p :: rest => set_thread w t (mkThread p (pred (scopeDepth th)) (tls_token th) rest)
  | CancelFrame p :: rest => set_thread w t (mkThread (currentState th) (scopeDepth th) p rest)
  | [] => w
  end.

(** [bind]: the task [n] of the thread. *)
Definition bind (t n : nat) (w : limiter) : limiter :=
  let '(r, w) := match scopeDepth (thread_of w t) with O => make_request w | S _ => captureState t w end in
  let th := thread_of w t in
  mkWorld (requests w) (tokens w) (threads w) (<[n := mkBound r (tls_token th)]> (tasks w)) (activeQueryCount_ w) (next_ref w) (limits_ w).

(** A worker starts the task; the closure is alive until it is destroyed. *)
Definition run_task (t n : nat) (w : limiter) : limiter :=
  match tasks w !! n with
  | Some b => enter_cancel t (b_token b) (enter_scope t (Some (b_state b)) w)
  | None => w
  end.

Definition destroy_task (n : nat) (w : limiter) : limiter :=
  mkWorld (requests w) (tokens w) (threads w) (delete n (tasks w)) (activeQueryCount_ w) (next_ref w) (limits_ w).

(** A thread ends: its thread-local pointers go. *)
Definition end_thread (t : nat) (w : limiter) : limiter :=
  mkWorld (requests w) (tokens w) (delete t (threads w)) (tasks w) (activeQueryCount_ w) (next_ref w) (limits_ w).

(** ** Queries of the attached request *)

Definition request_of (w : limiter) (r : nat) : RequestState := default request_new (requests w !! r).

Definition startQuery (t : nat) (now : Z) (queryId : bytes) (w : limiter) : limiter :=
  let '(r, w) := captureState t w in
  let s := request_of w r in
  set_request w r (mkRequest (truncated s) (reason s) (<[queryId := now]> (active s)))
    (match active s !! queryId with Some _ => activeQueryCount_ w | None => u64 (activeQueryCount_ w + 1) end).

(** Times in nanoseconds; a limit in seconds. *)
Definition checkTimeout (t : nat) (now : Z) (queryId : bytes) (w : limiter) : result unit * limiter :=
  let '(r, w) := captureState t w in
  let s := request_of w r in
  match active s !! queryId with
  | None => (Ok tt, w)
  | Some start =>
      if maxQuerySeconds_ (limits_ w) * 1000000000 <? now - start
      then (Err "Query timeout exceeded: ", set_request w r (mkRequest (truncated s) (reason s) (delete queryId (active s))) (u64 (activeQueryCount_ w - 1)))
      else (Ok tt, w)
  end.

Definition endQuery (t : nat) (queryId : bytes) (w : limiter) : limiter :=
  let '(r, w) := captureState t w in
  let s := request_of w r in
  match active s !! queryId with
  | Some _ => set_request w r (mkRequest (truncated s) (reason s) (delete queryId (active s))) (u64 (activeQueryCount_ w - 1))
  | None => w
  end.

Definition markTruncated (t : nat) (why : bytes) (w : limiter) : limiter :=
  let '(r, w) := captureState t w in set_request w r (mkRequest true why (active (request_of w r))) (activeQueryCount_ w).

Definition consumeTruncatedFlag (t : nat) (w : limiter) : option bytes * limiter :=
  let '(r, w) := captureState t w in
  let s := request_of w r in
  if truncated s then (Some (reason s), set_request w r (mkRequest false [] (active s)) (activeQueryCount_ w)) else (None, w).

(** ** Checks *)

Definition checkMemoryUsage (w : limiter) : result unit :=
  if 1000 <? activeQueryCount_ w then Err "Too many concurrent queries: " else Ok tt.

Definition checkScanLimit (rowsScanned : Z) (w : limiter) : result unit :=
  if maxScanRows_ (limits_ w) <? rowsScanned then Err "Scan limit exceeded: " else Ok tt.

(** The size of the results as text; [dump] throws on a string that is not UTF-8. *)
Fixpoint total_size `{JT : JsonText} (results : list json) (acc : Z) : result Z :=
  match results with
  | [] => Ok acc
  | doc :: rest => t ← or_err (json_dump doc) "type_error.316"; total_size rest (u64 (acc + blen t))
  end.

Definition checkResultSize `{JT : JsonText} (results : list json) (w : limiter) : result unit :=
  size ← total_size results 0;
  if maxResultSize_ (limits_ w) <? size then Err "Result set too large: " else Ok tt.

(** ** Cancellation *)

Definition makeToken (n : nat) (w : limiter) : limiter :=
  mkWorld (requests w) (<[n := mkToken false None]> (tokens w)) (threads w) (tasks w) (activeQueryCount_ w) (next_ref w) (limits_ w).

Definition setToken (t : nat) (token : option nat) (w : limiter) : limiter :=
  let th := thread_of w t in set_thread w t (mkThread (currentState th) (scopeDepth th) token (frames th)).

Definition set_token (n : nat) (k : CancellationToken) (w : limiter) : limiter :=
  mkWorld (requests w) (<[n := k]> (tokens w)) (threads w) (tasks w) (activeQueryCount_ w) (next_ref w) (limits_ w).

Definition isCancelled (t : nat) (now : Z) (w : limiter) : bool * limiter :=
  match tls_token (thread_of w t) with
  | None => (false, w)
  | Some n =>
      let k := default (mkToken false None) (tokens w !! n) in
      if cancelled k then (true, w)
      else match deadline k with
           | Some d => if d <? now then (true, set_token n (mkToken true (deadline k)) w) else (false, w)
           | None => (false, w)
           end
  end.

(** ** Lifetimes *)

Definition frame_refs (f : scope_frame) : list nat := match f with LimiterFrame (Some r) => [r] | _ => [] end.

Definition thread_refs (th : thread) : list nat := option_list (currentState th) ++ flat_map frame_refs (frames th).

(** Who holds a request: threads, the scopes they left to come back to, and tasks. *)
Definition held (w : limiter) : gset nat :=
  list_to_set (flat_map (fun kt => thread_refs kt.2) (map_to_list (threads w)) ++ map (fun kb => b_state kb.2) (map_to_list (tasks w))).

Definition running (rs : gmap nat RequestState) : Z := foldr Z.add 0 ((fun kr => Z.of_nat (size (active kr.2))) <$> map_to_list rs).

(** The destructors of the requests that nobody holds. *)
Definition release_requests (w : limiter) : limiter :=
  mkWorld (filter (fun kr => kr.1 ∈ held w) (requests w)) (tokens w) (threads w) (tasks w)
    (u64 (activeQueryCount_ w - running (filter (fun kr => kr.1 ∉ held w) (requests w)))) (next_ref w) (limits_ w).

(** ** Events *)

Inductive call :=
| Enter (t : nat) | Leave (t : nat) | Capture (t : nat) | Bind (t n : nat) | Run (t n : nat) | Destroy (n : nat) | EndThread (t : nat)
| StartQ (t : nat) (now : Z) (q : bytes) | CheckQ (t : nat) (now : Z) (q : bytes) | EndQ (t : nat) (q : bytes)
| Mark (t : nat) (why : bytes) | Consume (t : nat) | Configure (env : limit_env).

Definition perform (w : limiter) (ev : call) : limiter :=
  match ev with
  | Enter t => enter_scope t None w
  | Leave t => leave_scope t w
  | Capture t => (captureState t w).2
  | Bind t n => bind t n w
  | Run t n => run_task t n w
  | Destroy n => destroy_task n w
  | EndThread t => end_thread t w
  | StartQ t now q => startQuery t now q w
  | CheckQ t now q => (checkTimeout t now q w).2
  | EndQ t q => endQuery t q w
  | Mark t why => markTruncated t why w
  | Consume t => (consumeTruncatedFlag t w).2
  | Configure env => mkWorld (requests w) (tokens w) (threads w) (tasks w) (activeQueryCount_ w) (next_ref w) (init_limits env (limits_ w))
  end.

Definition limiter_step (w : limiter) (ev : call) : limiter := release_requests (perform w ev).

(** The request whose state an event may change. *)
Definition attached (w : limiter) (ev : call) : option nat :=
  match ev with
  | StartQ t _ _ | CheckQ t _ _ | EndQ t _ | Mark t _ | Consume t => currentState (thread_of w t)
  | _ => None
  end.

(** ** Counting *)

Lemma sum_perm (l l' : list Z) : l ≡ₚ l' -> foldr Z.add 0 l = foldr Z.add 0 l'.
Proof. induction 1; cbn; lia. Qed.

Lemma running_insert rs r s : rs !! r = None -> running (<[r := s]> rs) = Z.of_nat (size (active s)) + running rs.
Proof. intros H. unfold running. etransitivity; [apply sum_perm, fmap_Permutation, map_to_list_insert; exact H|reflexivity]. Qed.

Lemma running_delete rs r s : rs !! r = Some s -> running rs = Z.of_nat (size (active s)) + running (delete r rs).
Proof. intros H. rewrite <- (running_insert (delete r rs) r s) by apply lookup_delete_eq. rewrite insert_delete_id by exact H. reflexivity. Qed.

Lemma running_update rs r s s' : rs !! r = Some s ->
  running (<[r := s']> rs) = running rs - Z.of_nat (size (active s)) + Z.of_nat (size (active s')).
Proof.
  intros H. rewrite (running_delete rs r s H). rewrite <- insert_delete_eq, running_insert by apply lookup_delete_eq. lia.
Qed.

Lemma running_nonneg rs : 0 <= running rs.
Proof. unfold running. induction (map_to_list rs) as [|x l IH]; cbn in *; lia. Qed.

Lemma running_split (X : gset nat) rs :
  running rs = running (filter (fun kr => kr.1 ∈ X) rs) + running (filter (fun kr => kr.1 ∉ X) rs).
Proof.
  induction rs as [|r s rs Hr IH] using map_ind; [rewrite !map_filter_empty; reflexivity|]. rewrite running_insert by exact Hr.
  destruct (decide (r ∈ X)) as [Hp|Hp].
  - rewrite map_filter_insert_True by exact Hp. rewrite map_filter_insert_not by (cbn; tauto).
    rewrite running_insert by (apply map_lookup_filter_None; auto). rewrite IH. lia.
  - rewrite map_filter_insert_not by (intros; exact Hp). rewrite map_filter_insert_True by exact Hp.
    rewrite (running_insert (filter (fun kr => kr.1 ∉ X) rs)) by (apply map_lookup_filter_None; auto). rewrite IH. lia.
Qed.

(** ** Who holds what *)

Lemma elem_of_held w r : r ∈ held w <-> (exists t th, threads w !! t = Some th /\ r ∈ thread_refs th) \/ (exists n b, tasks w !! n = Some b /\ b_state b = r).
Proof.
  unfold held. rewrite elem_of_list_to_set, elem_of_app, !list_elem_of_In, in_flat_map, in_map_iff. split.
  - intros [([t th] & Ht & Hr)|([n b] & Hb & Hn)]; [left; exists t, th|right; exists n, b]; cbn in *.
    + split; [apply elem_of_map_to_list, list_elem_of_In, Ht|apply list_elem_of_In, Hr].
    + split; [apply elem_of_map_to_list, list_elem_of_In, Hn|exact Hb].
  - intros [(t & th & Ht & Hr)|(n & b & Hb & Hn)]; [left; exists (t, th)|right; exists (n, b)]; cbn.
    + split; [apply list_elem_of_In, elem_of_map_to_list, Ht|apply list_elem_of_In, Hr].
    + split; [exact Hn|apply list_elem_of_In, elem_of_map_to_list, Hb].
Qed.

Lemma thread_held w t r : r ∈ thread_refs (thread_of w t) -> r ∈ held w.
Proof.
  unfold thread_of. destruct (threads w !! t) as [th|] eqn:E; cbn; [|intros H; inversion H]. intros H. apply elem_of_held. eauto.
Qed.

Lemma held_set_thread w t th r : r ∈ held (set_thread w t th) -> r ∈ held w \/ r ∈ thread_refs th.
Proof.
  rewrite !elem_of_held. cbn. intros [(t' & th' & Ht & Hr)|H]; [|auto]. apply lookup_insert_Some in Ht as [[_ <-]|[_ Ht]]; [auto|]. left. left. eauto.
Qed.

(** The state before dead requests are released: everything held exists, the count is
    the number of running queries, and [n] queries were started at most. *)
Record count_ok (n : Z) (w : limiter) : Prop := {
  ct_held : forall r, r ∈ held w -> is_Some (requests w !! r);
  ct_fresh : forall r, is_Some (requests w !! r) -> (r < next_ref w)%nat;
  ct_count : activeQueryCount_ w = running (requests w);
  ct_bound : running (requests w) <= n }.

Lemma counted_set_thread n w t th : count_ok n w -> (forall r, r ∈ thread_refs th -> is_Some (requests w !! r)) -> count_ok n (set_thread w t th).
Proof. intros [H1 H2 H3 H4] Ht. split; auto. intros r Hr. apply held_set_thread in Hr as [Hr|Hr]; [apply H1, Hr|apply Ht, Hr]. Qed.

Lemma counted_make n w : count_ok n w -> let '(r, w') := make_request w in
  count_ok n w' /\ requests w' !! r = Some request_new /\ threads w' = threads w /\ tasks w' = tasks w /\
  (forall k s, requests w !! k = Some s -> requests w' !! k = Some s).
Proof.
  intros [H1 H2 H3 H4]. cbn. assert (Hn : requests w !! next_ref w = None) by (destruct (requests w !! next_ref w) eqn:E; [|reflexivity]; pose proof (H2 (next_ref w) ltac:(eauto)); lia).
  assert (Hkeep : forall k s, requests w !! k = Some s -> <[next_ref w := request_new]> (requests w) !! k = Some s).
  { intros k s Hk. rewrite lookup_insert_ne; [exact Hk|]. intros <-. congruence. }
  split; [split; cbn|split; [apply lookup_insert_eq|auto]].
  - intros r Hr. destruct (H1 r Hr) as [s Hs]. eauto.
  - intros r [s Hs]. apply lookup_insert_Some in Hs as [[<- _]|[_ Hs]]; [lia|]. pose proof (H2 r ltac:(eauto)). lia.
  - rewrite running_insert by exact Hn. cbn. exact H3.
  - rewrite running_insert by exact Hn. cbn. exact H4.
Qed.

Lemma counted_capture n w t : count_ok n w -> let '(r, w') := captureState t w in
  count_ok n w' /\ currentState (thread_of w' t) = Some r /\ is_Some (requests w' !! r) /\
  (forall k s, requests w !! k = Some s -> requests w' !! k = Some s) /\ (forall k, currentState (thread_of w t) = Some k -> r = k).
Proof.
  intros H. unfold captureState. destruct (currentState (thread_of w t)) as [r|] eqn:E.
  - split; [exact H|]. split; [exact E|]. split; [|split; [auto|intros k [= ->]; reflexivity]]. apply (ct_held _ _ H), (thread_held w t). unfold thread_refs. rewrite E. left.
  - pose proof (counted_make n w H) as Hm. destruct (make_request w) as [r w1]. destruct Hm as (H1 & H2 & H3 & _ & H4). split; [|split; [|split; [|split]]].
    + apply counted_set_thread; [exact H1|]. intros k Hk. unfold thread_refs in Hk. cbn [currentState frames] in Hk. change (option_list (Some r)) with [r] in Hk.
      apply elem_of_cons in Hk as [->|Hk]; [eauto|]. assert (Hh : k ∈ thread_refs (thread_of w t)) by (unfold thread_refs; rewrite E; exact Hk).
      destruct (ct_held _ _ H k (thread_held w t k Hh)) as [s Hs]. eauto.
    + unfold thread_of. cbn. rewrite lookup_insert_eq. reflexivity.
    + cbn. eauto.
    + exact H4.
    + discriminate.
Qed.

Lemma counted_request n n' w r s s' count : count_ok n w -> requests w !! r = Some s ->
  count = running (requests w) - Z.of_nat (size (active s)) + Z.of_nat (size (active s')) -> count <= n' -> count_ok n' (set_request w r s' count).
Proof.
  intros [H1 H2 H3 H4] Hr Hc Hn. pose proof (running_update (requests w) r s s' Hr) as Hu. split; cbn.
  - intros k Hk. destruct (decide (k = r)) as [->|Hne]; [rewrite lookup_insert_eq; eauto|rewrite lookup_insert_ne by congruence; apply H1, Hk].
  - intros k [x Hx]. apply lookup_insert_Some in Hx as [[<- _]|[_ Hx]]; apply H2; eauto.
  - lia.
  - lia.
Qed.

Lemma counted_weaken n n' w : count_ok n w -> n <= n' -> count_ok n' w.
Proof. intros [H1 H2 H3 H4] Hn. split; auto. lia. Qed.

(** The attached request of a thread, and what changing it does. *)
Lemma counted_change n w t (f : RequestState -> RequestState) (count : RequestState -> Z -> Z) : count_ok n w -> 0 <= n ->
  (forall s c, 0 <= c -> Z.of_nat (size (active s)) <= c <= n ->
     count s c = c - Z.of_nat (size (active s)) + Z.of_nat (size (active (f s))) /\ count s c <= n + 1) ->
  let '(r, w') := captureState t w in
  count_ok (n + 1) (set_request w' r (f (request_of w' r)) (count (request_of w' r) (activeQueryCount_ w'))) /\
  forall k s, requests w !! k = Some s -> currentState (thread_of w t) <> Some k ->
    requests (set_request w' r (f (request_of w' r)) (count (request_of w' r) (activeQueryCount_ w'))) !! k = Some s.
Proof.
  intros H Hn Hf. pose proof (counted_capture n w t H) as Hc. destruct (captureState t w) as [r w'] eqn:Ec. destruct Hc as (H1 & _ & [s Hs] & Hkeep & Hcur).
  unfold request_of. rewrite Hs. cbn [default id]. pose proof (running_delete _ _ _ Hs) as Hd. pose proof (running_nonneg (delete r (requests w'))) as H0.
  destruct (Hf s (activeQueryCount_ w')) as [Hcount Hle]; [rewrite (ct_count _ _ H1); apply running_nonneg|rewrite (ct_count _ _ H1); split; [lia|apply (ct_bound _ _ H1)]|].
  split; [eapply counted_request; [exact H1|exact Hs|rewrite Hcount, (ct_count _ _ H1); reflexivity|exact Hle]|].
  intros k x Hk Hne. cbn. rewrite lookup_insert_ne; [apply Hkeep, Hk|]. intros ->. unfold captureState in Ec. destruct (currentState (thread_of w t)) as [c|]; [congruence|].
  cbn in Ec. injection Ec as <- <-. pose proof (ct_fresh _ _ H (next_ref w) ltac:(eauto)). lia.
Qed.

Definition kept (w w' : limiter) (ev : call) : Prop :=
  forall r s, requests w !! r = Some s -> attached w ev <> Some r -> requests w' !! r = Some s.

Lemma count_u64 z : 0 <= z < 2 ^ 64 -> u64 z = z.
Proof. intros H. apply Z.mod_small, H. Qed.

Lemma refs_current th r : currentState th = Some r -> r ∈ thread_refs th.
Proof. intros H. unfold thread_refs. rewrite H. left. Qed.

Lemma refs_frames th r : r ∈ flat_map frame_refs (frames th) -> r ∈ thread_refs th.
Proof. intros H. unfold thread_refs. apply elem_of_app. right. exact H. Qed.

(** Scopes hold what the thread held and the request they attach. *)
Lemma scope_refs th r x d tok : x ∈ thread_refs (mkThread (Some r) d tok (LimiterFrame (currentState th) :: frames th)) -> x = r \/ x ∈ thread_refs th.
Proof.
  unfold thread_refs. cbn [currentState frames flat_map]. change (option_list (Some r)) with [r]. rewrite elem_of_app, list_elem_of_singleton, elem_of_app.
  intros [Hx|[Hx|Hx]]; [auto| |right; apply elem_of_app; auto]. right. apply elem_of_app. left. destruct (currentState th); exact Hx.
Qed.

Lemma counted_enter n w t state : count_ok n w -> (forall r, state = Some r -> is_Some (requests w !! r)) ->
  count_ok n (enter_scope t state w) /\ forall k s, requests w !! k = Some s -> requests (enter_scope t state w) !! k = Some s.
Proof.
  intros H Hs. unfold enter_scope. set (th := thread_of w t).
  assert (Hth : forall x, x ∈ thread_refs th -> is_Some (requests w !! x)) by (intros x Hx; apply (ct_held _ _ H), (thread_held w t), Hx).
  destruct state as [r|].
  - split; [|auto]. apply counted_set_thread; [exact H|]. intros x [->|Hx]%scope_refs; auto.
  - pose proof (counted_make n w H) as Hm. destruct (make_request w) as [r w1]. destruct Hm as (H1 & H2 & _ & _ & H4). split; [|exact H4].
    apply counted_set_thread; [exact H1|]. intros x [->|Hx]%scope_refs; [eauto|]. destruct (Hth x Hx) as [s Hx']. eauto.
Qed.

Lemma counted_cancel n w t token : count_ok n w -> count_ok n (enter_cancel t token w).
Proof. intros H. apply counted_set_thread; [exact H|]. intros r Hr. apply (ct_held _ _ H), (thread_held w t), Hr. Qed.

Lemma leave_refs th p d tok rest x : frames th = LimiterFrame p :: rest -> x ∈ thread_refs (mkThread p d tok rest) -> x ∈ thread_refs th.
Proof.
  intros E Hx. apply refs_frames. rewrite E. cbn [flat_map]. unfold thread_refs in Hx. cbn [currentState frames] in Hx. destruct p; exact Hx.
Qed.

Lemma counted_leave n w t : count_ok n w -> count_ok n (leave_scope t w) /\ requests (leave_scope t w) = requests w.
Proof.
  intros H. unfold leave_scope. destruct (frames (thread_of w t)) as [|[p|p] rest] eqn:E; [auto| |]; (split; [|reflexivity]); (apply counted_set_thread; [exact H|]);
    intros r Hr; apply (ct_held _ _ H), (thread_held w t).
  - eapply leave_refs; [exact E|exact Hr].
  - unfold thread_refs in *. rewrite E. cbn [currentState frames flat_map frame_refs app] in *. exact Hr.
Qed.

Lemma counted_threads n w ths : count_ok n w -> (forall t th, ths !! t = Some th -> threads w !! t = Some th) ->
  count_ok n (mkWorld (requests w) (tokens w) ths (tasks w) (activeQueryCount_ w) (next_ref w) (limits_ w)).
Proof. intros [H1 H2 H3 H4] Hs. split; auto. intros r Hr. apply H1, elem_of_held. apply elem_of_held in Hr as [(t & th & Ht & Hr)|Hr]; [left; eauto|right; exact Hr]. Qed.

Lemma counted_tasks n w ts : count_ok n w -> (forall k b, ts !! k = Some b -> tasks w !! k = Some b \/ is_Some (requests w !! b_state b)) ->
  count_ok n (mkWorld (requests w) (tokens w) (threads w) ts (activeQueryCount_ w) (next_ref w) (limits_ w)).
Proof.
  intros [H1 H2 H3 H4] Hs. split; auto. intros r Hr. apply elem_of_held in Hr as [Hr|(k & b & Hb & <-)]; [apply H1, elem_of_held; left; exact Hr|].
  destruct (Hs k b Hb) as [Hb'|Hb']; [apply H1, elem_of_held; right; eauto|exact Hb'].
Qed.

Lemma counted_bind n w t k : count_ok n w -> count_ok n (bind t k w) /\ forall r s, requests w !! r = Some s -> requests (bind t k w) !! r = Some s.
Proof.
  intros H. unfold bind.
  assert (Hr : let '(r, w') := match scopeDepth (thread_of w t) with O => make_request w | S _ => captureState t w end in
    count_ok n w' /\ is_Some (requests w' !! r) /\ forall k s, requests w !! k = Some s -> requests w' !! k = Some s).
  { destruct (scopeDepth (thread_of w t)).
    - pose proof (counted_make n w H) as Hm. destruct (make_request w) as [r w1]. destruct Hm as (H1 & H2 & _ & _ & H4). eauto.
    - pose proof (counted_capture n w t H) as Hm. destruct (captureState t w) as [r w1]. destruct Hm as (H1 & _ & H3 & H4 & _). eauto. }
  destruct (match scopeDepth (thread_of w t) with O => make_request w | S _ => captureState t w end) as [r w'].
  destruct Hr as (H1 & H2 & H3). split; [|exact H3]. apply counted_tasks; [exact H1|]. intros m b Hb.
  apply lookup_insert_Some in Hb as [[_ <-]|[_ Hb]]; [right; exact H2|left; exact Hb].
Qed.

Lemma request_count_bounds n w : count_ok n w -> 0 <= activeQueryCount_ w <= n.
Proof. intros H. rewrite (ct_count _ _ H). split; [apply running_nonneg|apply (ct_bound _ _ H)]. Qed.

(** Nothing but a capture. *)
Lemma captured_only n w t ev : count_ok n w -> count_ok (n + 1) (captureState t w).2 /\ kept w (captureState t w).2 ev.
Proof.
  intros H. pose proof (counted_capture n w t H) as Hc. destruct (captureState t w) as [r w']. destruct Hc as (H1 & _ & _ & H2 & _).
  split; [eapply counted_weaken; [exact H1|lia]|]. intros k s Hk _. apply H2, Hk.
Qed.

Definition drop_query (q : bytes) (s : RequestState) : RequestState := mkRequest (truncated s) (reason s) (delete q (active s)).

Lemma drop_counts n w t q : count_ok n w -> 0 <= n -> n + 1 < 2 ^ 64 -> let '(r, w') := captureState t w in
  is_Some (active (request_of w' r) !! q) ->
  count_ok (n + 1) (set_request w' r (drop_query q (request_of w' r)) (u64 (activeQueryCount_ w' - 1))) /\
  forall k s, requests w !! k = Some s -> currentState (thread_of w t) <> Some k ->
    requests (set_request w' r (drop_query q (request_of w' r)) (u64 (activeQueryCount_ w' - 1))) !! k = Some s.
Proof.
  intros H Hn Hmax. pose proof (counted_change n w t (drop_query q) (fun s c => match active s !! q with Some _ => u64 (c - 1) | None => c end) H Hn) as Hc.
  destruct (captureState t w) as [r w']. intros [x Hx]. rewrite Hx in Hc. apply Hc. intros s c Hc0 [Hs Hcn]. cbn [drop_query active].
  destruct (active s !! q) as [y|] eqn:E; [|rewrite map_size_delete_None by exact E; lia].
  assert (Hne : size (active s) <> 0%nat) by (intros Ee%map_size_empty_iff; rewrite Ee, lookup_empty in E; discriminate).
  rewrite map_size_delete_Some by eauto. rewrite count_u64 by lia. lia.
Qed.

Lemma perform_counted n w ev : count_ok n w -> 0 <= n -> n + 1 < 2 ^ 64 -> count_ok (n + 1) (perform w ev) /\ kept w (perform w ev) ev.
Proof.
  intros H Hn Hmax. pose proof (counted_weaken n (n + 1) w H ltac:(lia)) as Hw.
  destruct ev as [t|t|t|t k|t k|k|t|t now q|t now q|t q|t why|t|env]; cbn [perform].
  - destruct (counted_enter (n + 1) w t None Hw ltac:(discriminate)) as [H1 H2]. split; [exact H1|]. intros r s Hr _. apply H2, Hr.
  - destruct (counted_leave (n + 1) w t Hw) as [H1 H2]. split; [exact H1|]. intros r s Hr _. rewrite H2. exact Hr.
  - apply captured_only, H.
  - destruct (counted_bind (n + 1) w t k Hw) as [H1 H2]. split; [exact H1|]. intros r s Hr _. apply H2, Hr.
  - unfold run_task. destruct (tasks w !! k) as [b|] eqn:E; [|split; [exact Hw|intros r s Hr _; exact Hr]].
    destruct (counted_enter (n + 1) w t (Some (b_state b)) Hw) as [H1 H2].
    { intros r [= <-]. apply (ct_held _ _ H), elem_of_held. right. eauto. }
    split; [apply counted_cancel, H1|]. intros r s Hr _. apply H2, Hr.
  - split; [|intros r s Hr _; exact Hr]. apply counted_tasks; [exact Hw|]. intros m b Hb. left. apply lookup_delete_Some in Hb as [_ Hb]. exact Hb.
  - split; [|intros r s Hr _; exact Hr]. apply counted_threads; [exact Hw|]. intros m b Hb. apply lookup_delete_Some in Hb as [_ Hb]. exact Hb.
  - pose proof (counted_change n w t (fun s => mkRequest (truncated s) (reason s) (<[q := now]> (active s)))
      (fun s c => match active s !! q with Some _ => c | None => u64 (c + 1) end) H Hn) as Hc. unfold startQuery. destruct (captureState t w) as [r w']. apply Hc.
    intros s c Hc0 [Hs Hcn]. cbn [active]. destruct (active s !! q) as [x|] eqn:E.
    + rewrite map_size_insert_Some by eauto. lia.
    + rewrite map_size_insert_None by exact E. rewrite count_u64 by lia. lia.
  - pose proof (captured_only n w t (CheckQ t now q) H) as Hcap. pose proof (drop_counts n w t q H Hn Hmax) as Hc. unfold checkTimeout.
    destruct (captureState t w) as [r w']. destruct (active (request_of w' r) !! q) as [start|] eqn:E; [|exact Hcap]. destruct (_ <? _); [|exact Hcap].
    apply Hc. eauto.
  - pose proof (captured_only n w t (EndQ t q) H) as Hcap. pose proof (drop_counts n w t q H Hn Hmax) as Hc. unfold endQuery.
    destruct (captureState t w) as [r w']. destruct (active (request_of w' r) !! q) as [start|] eqn:E; [|exact Hcap]. apply Hc. eauto.
  - pose proof (counted_change n w t (fun s => mkRequest true why (active s)) (fun s c => c) H Hn) as Hc. unfold markTruncated. destruct (captureState t w) as [r w'].
    apply Hc. intros s c Hc0 Hs. cbn [active]. lia.
  - pose proof (captured_only n w t (Consume t) H) as Hcap.
    pose proof (counted_change n w t (fun s => mkRequest false [] (active s)) (fun s c => c) H Hn) as Hc. unfold consumeTruncatedFlag. destruct (captureState t w) as [r w'].
    cbn [snd] in Hcap. destruct (truncated (request_of w' r)); [|exact Hcap]. cbn [snd]. apply Hc. intros s c Hc0 Hs. cbn [active]. lia.
  - split; [|intros r s Hr _; exact Hr]. destruct Hw as [H1 H2 H3 H4]. split; auto.
Qed.

(** ** Releasing requests *)

Lemma release_counted n w : count_ok n w -> n < 2 ^ 64 -> count_ok n (release_requests w) /\ (forall r, is_Some (requests (release_requests w) !! r) <-> r ∈ held (release_requests w)) /\
  forall r s, requests w !! r = Some s -> r ∈ held w -> requests (release_requests w) !! r = Some s.
Proof.
  intros [H1 H2 H3 H4] Hn.
  assert (Hs : running (requests w) = running (filter (fun kr => kr.1 ∈ held w) (requests w)) + running (filter (fun kr => kr.1 ∉ held w) (requests w)))
    by apply running_split.
  pose proof (running_nonneg (filter (fun kr => kr.1 ∈ held w) (requests w))) as Ha. pose proof (running_nonneg (filter (fun kr => kr.1 ∉ held w) (requests w))) as Hb.
  assert (Hin : forall r s, requests w !! r = Some s -> r ∈ held w -> requests (release_requests w) !! r = Some s) by (intros r s Hr Hh; apply map_lookup_filter_Some; auto).
  change (held (release_requests w)) with (held w). split; [split; cbn [release_requests requests next_ref activeQueryCount_]|split; [|exact Hin]].
  - intros r Hr. destruct (H1 r Hr) as [s Hx]. eauto.
  - intros r [s Hr]. apply map_lookup_filter_Some in Hr as [Hr _]. eauto.
  - rewrite count_u64; lia.
  - lia.
  - intros r. split; [intros [s Hr]; apply map_lookup_filter_Some in Hr as [_ Hr]; exact Hr|]. intros Hr. destruct (H1 r Hr) as [s Hx]. eauto.
Qed.

Lemma run_counted evs : forall n w, count_ok n w -> 0 <= n -> n + Z.of_nat (length evs) < 2 ^ 64 -> (forall r, is_Some (requests w !! r) <-> r ∈ held w) ->
  let w' := fold_left limiter_step evs w in count_ok (n + Z.of_nat (length evs)) w' /\ forall r, is_Some (requests w' !! r) <-> r ∈ held w'.
Proof.
  induction evs as [|ev evs IH]; intros n w H Hn Hmax Hl; cbn [fold_left length] in *; [rewrite Z.add_0_r; auto|].
  destruct (perform_counted n w ev H Hn ltac:(lia)) as [H1 _]. destruct (release_counted (n + 1) _ H1 ltac:(lia)) as (H2 & H3 & _).
  replace (n + Z.of_nat (S (length evs))) with (n + 1 + Z.of_nat (length evs)) by lia. apply (IH (n + 1) (limiter_step w ev)); [exact H2|lia|lia|exact H3].
Qed.

Lemma world_new_counted : count_ok 0 world_new /\ forall r, is_Some (requests world_new !! r) <-> r ∈ held world_new.
Proof.
  assert (Hh : forall r, r ∉ held world_new) by (intros r [(t & th & Ht & _)|(n & b & Hb & _)]%elem_of_held; [exact (lookup_empty_Some _ _ Ht)|exact (lookup_empty_Some _ _ Hb)]).
  split; [split|].
  - intros r Hr. destruct (Hh r Hr).
  - intros r [s Hs]. destruct (lookup_empty_Some _ _ Hs).
  - reflexivity.
  - reflexivity.
  - intros r. split; [intros [s Hs]; destruct (lookup_empty_Some _ _ Hs)|intros Hr; destruct (Hh r Hr)].
Qed.

(** C16: through any sequence of calls of any threads, scopes and handed-on tasks
    included, the process-wide count is the number of queries that run in the requests
    somebody holds, so the admission check refuses exactly when more than a thousand
    run; a request exists as long as a thread, a scope to come back to or a task holds it,
    and nothing is counted when nobody holds one; and a call changes no request but the
    one its thread is attached to. *)
Theorem limiter_counts_exact evs : Z.of_nat (length evs) < 2 ^ 63 -> let w := fold_left limiter_step evs world_new in
  activeQueryCount_ w = running (requests w) /\
  (checkMemoryUsage w = Ok tt <-> running (requests w) <= 1000) /\
  (forall r, is_Some (requests w !! r) <-> r ∈ held w) /\ (held w = ∅ -> activeQueryCount_ w = 0) /\
  forall ev r s, requests w !! r = Some s -> attached w ev <> Some r -> r ∈ held (limiter_step w ev) -> requests (limiter_step w ev) !! r = Some s.
Proof.
  intros Hlen w. destruct world_new_counted as [H0 Hl0]. destruct (run_counted evs 0 world_new H0 ltac:(lia) ltac:(lia) Hl0) as [H Hl]. fold w in H, Hl.
  rewrite Z.add_0_l in H. split; [apply (ct_count _ _ H)|]. split; [|split; [exact Hl|split]].
  - unfold checkMemoryUsage. rewrite (ct_count _ _ H). destruct (Z.ltb_spec 1000 (running (requests w))); split; intros; try discriminate; try lia; reflexivity.
  - intros Hh. rewrite (ct_count _ _ H). assert (E : requests w = ∅); [|rewrite E; reflexivity]. apply map_eq. intros r. rewrite lookup_empty.
    destruct (requests w !! r) eqn:E; [|reflexivity]. assert (Hr : r ∈ held w) by (apply Hl; eauto). rewrite Hh in Hr. set_solver.
  - intros ev r s Hr Hne Hheld. destruct (perform_counted _ w ev H ltac:(lia) ltac:(lia)) as [H1 H2].
    apply (release_counted _ _ H1 ltac:(lia)); [apply H2; assumption|exact Hheld].
Qed.

(** A token that was found cancelled stays so. *)
Lemma cancelled_stays t t' now now' w n : tls_token (thread_of w t) = Some n -> (isCancelled t now w).1 = true ->
  tls_token (thread_of (isCancelled t now w).2 t') = Some n -> (isCancelled t' now' (isCancelled t now w).2).1 = true.
Proof.
  intros Hn H1 Ht. destruct (isCancelled t now w) as [b w'] eqn:E. cbn [fst snd] in *. subst b. revert E. unfold isCancelled at 1. rewrite Hn.
  set (k := default (mkToken false None) (tokens w !! n)). destruct (cancelled k) eqn:Ec.
  - intros [= <-]. unfold isCancelled. rewrite Ht. fold k. rewrite Ec. reflexivity.
  - destruct (deadline k) as [d|]; [|discriminate]. destruct (d <? now); [|discriminate]. intros [= <-]. unfold isCancelled. rewrite Ht.
    cbn [set_token tokens]. rewrite lookup_insert_eq. reflexivity.
Qed.

(** ** Examples *)

Module LimitExamples.

(** A request starts a query, hands a task on and returns; the task holds the request
    until it is destroyed. *)
Definition hand_on : list call := [Enter 1; StartQ 1 0 (str "q"); Bind 1 7; Leave 1; EndThread 1; Run 2 7].

Lemma limiter_counts_exact_witness : let w := fold_left limiter_step hand_on world_new in
  activeQueryCount_ w = 1 /\ currentState (thread_of w 2) = Some 0%nat /\
  activeQueryCount_ (fold_left limiter_step (hand_on ++ [Leave 2; Leave 2]) world_new) = 1 /\
  activeQueryCount_ (fold_left limiter_step (hand_on ++ [Leave 2; Leave 2; Destroy 7]) world_new) = 0.
Proof.
  assert (Hlen : Z.of_nat (length hand_on) < 2 ^ 63) by (cbn; lia).
  destruct (limiter_counts_exact hand_on Hlen) as (Hc & _). cbv zeta. split; [rewrite Hc; vm_compute; reflexivity|].
  split; [vm_compute; reflexivity|]. split; vm_compute; reflexivity.
Defined.

(** The product of the size limit overflows: 4096 MB allow no result at all, 2048 MB any. *)
Example large_result_limit_wraps :
  maxResultSize_ (init_limits (mkLimitEnv None (Some 4096) None None) default_limits) = 0 /\
  maxResultSize_ (init_limits (mkLimitEnv None (Some 2048) None None) default_limits) = 2 ^ 64 - 2 ^ 31.
Proof. split; reflexivity. Qed.

(** A negative number of rows is no limit. *)
Example negative_scan_limit : maxScanRows_ (init_limits (mkLimitEnv None None (Some (-1)) None) default_limits) = U64_MAX.
Proof. reflexivity. Qed.

(** A query that ran into its timeout is forgotten: the next check of it passes. *)
Example second_timeout_check_passes :
  let w := fold_left limiter_step [Enter 1; StartQ 1 0 (str "q")] world_new in
  let '(r, w') := checkTimeout 1 31000000000 (str "q") w in
  r = Err "Query timeout exceeded: " /\ (checkTimeout 1 32000000000 (str "q") w').1 = Ok tt.
Proof. vm_compute. split; reflexivity. Qed.
End LimitExamples.
